(* ===== verification/_CoqProject ===== *)
-Q . S2P
Prelude.v
Bits.v
Int.v
BoolFun.v
Mem.v
Wordarr.v
RadixKey.v
UcsetLeaf.v
Ucset.v
UcsetInv.v
UcsetOps.v
UcsetAlg.v
UcsetTrav.v
UcsetClip.v
UcsetBuild.v
UcsetItr.v
UcsetMono.v
Ucmap.v
UcmapInv.v
UcmapOps.v
UcmapUnion.v
UcmapTrav.v
UcmapCmp.v
UcmapBuild.v
WordSet.v
UcsetSet.v
Ucmultimap.v
Bitarray.v
BitarrayInv.v
BitarrayCmp.v
BitarrayFind.v
BitarrayResize.v
BitarrayImg.v
Rbtree.v
RbtreeRep.v
RbtreeInv.v
RbtreeInsert.v
RbtreeErase.v
RbtreeFind.v
RbtreeKeys.v
Rbset.v
Rbmap.v
Buckets.v
Umap.v
UmapInv.v
UmapOps.v
UmapTrav.v
UmapSets.v
Hash.v
Str.v
StrOps.v
StrProg.v
Hzmap.v
HzmapInv.v
HzmapOps.v
Hmap.v
HmapOps.v
Priq.v
Expr.v
Subst.v
SubstInv.v
SubstStep.v
SubstPost.v
SubstUnify.v
SubstOps.v
Algo.v
AlgoOps.v
Ltree.v
LtreeInv.v
LtreeItr.v
LtreeFill.v
LtreeSlice.v
Monoid.v
Atree.v
AtreeInv.v
AtreeAlg.v
AtreeTrav.v
AtreeSpec.v
Exset.v
Labelling.v
