(* ===== verification/Prelude.v ===== *)
(** * culibs: a verification of its integer functions, containers and substitutions

    culibs is a collection of C libraries.  This development models the functions
    of [src/cu] on integers, boolean codes, arrays of words and hashes, the containers of
    [src/cucon]: sets of integers and maps from integers as radix trees, multi-maps,
    arrays of bits, red-black trees, hash maps and priority queues, and of [src/cuex]
    the expressions, algorithms on them, substitutions, and the two kinds of trees in
    which collections of expressions are kept, with the monoids, sets, semilattices and maps
    of expressions that are built on them.  Each model is a Rocq function with the name of the C
    function (without a leading underscore), translated statement by statement,
    that evaluates on concrete inputs.

    ** The parts and their files

    - [Prelude], [Bits]: the operators of C on 64-bit words ([uintptr_t],
      [cu_word_t] and [size_t], of an LP64 target) with their wrap-around, the tactic
      [bits] and its rewriting base, and bit-level facts that the rest shares.
    - [Int]: [cu/int.h], [cu/int.c], [cu/size.h], [cu/word.h].  Bit counts, covering
      masks, logarithms, rounding, reverse comparison.
    - [BoolFun]: [cu/bool.h], [cu/bool.c] and the images of words in
      [cu/word.h], [cu/word.c].  The codes of the boolean functions of one and two
      arguments are numbers; their meaning is [fun1] and [fun2].
    - [Mem], [Wordarr]: [cu/wordarr.h], [cu/wordarr.c].  A block memory of words;
      pointers are a block and an offset, so that arrays can be aliased, and an access
      outside a block is the error value [None].
    - [RadixKey]: the arithmetic of the keys with which the radix trees label their
      branches, shared by sets and maps.
    - [UcsetLeaf], [Ucset]: the definitions of [cucon/ucset.c].  A tree is an
      inductive type with the constructors of the union in C; the hash-consing
      constructors return the same object for the same fields, so that comparing pointers
      is comparing trees.  [UcsetInv] has the invariant [wf] and the set [to_set] that a
      tree stands for, [UcsetOps] searching, insertion and removal, [UcsetAlg] the
      boolean operations and relations, [UcsetTrav] traversals, cardinality, filters
      and images, [UcsetClip] extreme elements and clipping, [UcsetBuild] and
      [UcsetMono] construction from sorted arrays and monotonic functions and
      translation, [UcsetItr] the iterators (a stack of nodes with a position, as the
      caller's buffer holds it).
    - [Ucmap]: the definitions of [cucon/ucmap.c]; [UcmapInv] the invariant and the
      map [to_map], [UcmapOps], [UcmapUnion], [UcmapTrav], [UcmapCmp] and
      [UcmapBuild] the properties of its operations.
    - [WordSet], [UcsetSet], [Ucmultimap]: [cucon/ucmultimap.c] is a client of maps and
      sets.  Its functions and theorems are parametric in a class of sets of words with
      addresses; [UcsetSet] shows that the sets of [cucon/ucset.c] are an instance.
    - [Bitarray]: the definitions of [cucon/bitarray.c], structures with a pointer
      into the memory of [Mem]; [BitarrayInv] the representation of a list of booleans
      and the updates, [BitarrayCmp], [BitarrayFind], [BitarrayResize] and
      [BitarrayImg] the other operations.
    - [Rbtree]: the definitions of [cucon/rbtree.c], a monad on a heap of nodes whose
      right link carries the colour, with the stack of the path and the assertions of
      the source.  [RbtreeRep] relates heaps to trees, [RbtreeInv] has the invariant of
      order, colours and black heights, [RbtreeInsert], [RbtreeErase] and [RbtreeFind] the
      operations, [RbtreeKeys] sorted lists; [Rbset] and [Rbmap] are [cucon/rbset.c] and
      [cucon/rbmap.c] on top of it, with values in the slots of a map.
    - [Buckets], [Umap]: the definitions of [cucon/umap.c], an array of buckets; [UmapInv] the
      invariant and the finite map [to_map], with the changes of capacity, [UmapOps]
      search, insertion and removal, [UmapTrav] traversal, copies, comparison, hashes and
      iterators, [UmapSets] the operations on two and three maps.
    - [Hash]: the hash functions of [cu/hash.c] for words, which [Hzmap], the definitions
      of [cucon/hzmap.c], use; [HzmapInv] and [HzmapOps] are its invariant and
      its operations, traversals included.  [Hmap] and [HmapOps]: [cucon/hmap.c],
      [cucon/hset.h] and [cucon/hset.c], with the equality and the hash of the client.
    - [Priq]: [cucon/priq.c], a heap in an array, for any relation of priority.
    - [Expr]: the expressions of [cuex/ex.h], [cuex/opn.h] and [cuex/var.h], whose meta
      words have the fields of [cuoo/meta.h].  [Subst]: the definitions of
      [cuex/subst.c], a monad on a store of substitutions and classes of
      variables, which are shared and mutable.  [SubstInv] has the invariant [good], the
      solutions of a substitution and the weights that make it acyclic, [SubstStep]
      the steps of unification, [SubstPost] what they make of the solutions, [SubstUnify]
      the induction over a run, [SubstOps] the theorems.
    - [Algo], [AlgoOps]: [cuex/algo.c], functions that recurse into operations (traversal,
      images, matching, generalisation, chains of binary operations), with the closures
      that they call running in a state of their own.
    - [Ltree]: the definitions of [cuex/ltree.c], sequences as trees of operations with up to four
      operands that are packed from the left, with the iterators and their stack of operand arrays.
      The operators are generated when culibs is built, and are the class [LtreeOpr] with its laws; the
      samples give them the layout of [cuex/otab.c].  [LtreeInv] has the tree [tree_of] of a
      sequence, sizes, elements, prefixes and traversal, [LtreeItr] iterators, [LtreeFill] concatenation,
      [LtreeSlice] whole trees and sources.
    - [Atree]: the definitions of [cuex/atree.c], radix trees of expressions on keys that the
      caller computes from them.  [AtreeInv] has the invariant and the contents, a finite map,
      search, insertion and removal, [AtreeAlg] the operations on two trees and the
      orders, [AtreeTrav] elements, traversal, images and iterators, [AtreeSpec] the theorems.
    - [Monoid]: [cuex/monoid.c] and [cuex/tmonoid.c] on left-packed trees.  [Exset] and [Labelling]:
      [cuex/set.c], [cuex/semilattice.c] and [cuex/labelling.c] on associative trees keyed by addresses.
      The objects around the trees are those of a type in the class [HcType] of [Expr], which states what
      [cuoo/hctem.h] promises; the addresses are a parameter with the laws [Addresses]; the samples
      give instances of both.
    - [Str]: the definitions of [cu/str.h] and [cu/str.c], string objects in a heap whose arrays are blocks
      of bytes that several objects may point into; the capacity of an object is the right to
      write behind its bytes.  [StrOps] has the invariant (what an object owns is in no other string) and the
      rules for steps, [StrProg] programs of string operations and their values.

    ** What the theorems show

    - Functional correctness of the integer functions against mathematical
      definitions ([popcount], [Z.log2], [cover_mask]) at every width, boundary
      values included.
    - The word-array loops compute the stated bit of every destination word and change
      no other address, with every access within its block.
    - The operations on sets and maps preserve the invariants and are the operations
      on finite sets and maps of integers; the trees are canonical, so that equal sets
      and maps are the same object; traversals are in the order of keys and stop when
      the callback says so; iterators visit each element once.
    - The multi-map operations are those on maps from keys to sets.
    - The bit-array operations are those on lists of booleans; resizing keeps the
      common prefix within the bounds of its growth policy, and leaves dangling any
      other pointer to a reallocated array.
    - Insertion into and removal from a red-black tree keep its order, colours and black
      heights, within the stack that the code reserves; sets and maps on top of it refine
      sorted lists.
    - Sequences of operations on a hash map refine those on a finite map, for every
      result of the random number generator (replacing by [NULL] removes the key); the theorems on comparison, hashes and set
      operations say for which maps the code does what it is meant to do.
    - The hash functions of one and two words are those of arrays of that length.
      The maps with flat keys refine finite maps, when the nodes that the client makes have the link
      [NULL], which the code does not set; the general hash maps keep their contents, but lose count
      of them, and are undefined where the count, an [int], overflows.
    - A priority queue is a multiset from which elements are removed that have priority
      over all others; it sorts.
    - Unification returns on every substitution without cycles that is idempotent, is owned by one
      reference, and shadows no other one, and leaves one of this kind: its
      solutions are those of before that make the expressions equal.  Application of such a substitution
      returns the instance under a most general solution.  For clones, and substitutions that shadow
      others, there are samples only: some of them show bindings that are lost.
    - Generalisation of expressions is their most specific common pattern; matching finds the
      one map of leaves that makes an instance.
    - The operations on left-packed trees are those on sequences: concatenation, elements, slices,
      size and comparison of what the iterators return.  Appending from a source is concatenation
      when the source fills up the tree, but not in general, and the slice from the size to the constant for the
      end is an operation without operands.
    - The operations on associative trees are those on finite maps; equal contents are the same
      tree; inclusion and order are those of sets of keys, and of maps to values in the forms for pairs of
      a key and a value, for keys that are even; and the iterators, traversals
      and indices agree on one ascending list.
    - The two kinds of monoids are free: elements are sequences of factors, each in one form, and
      products are concatenations.  Multiplication by the factors of a source and slices have the exceptions
      of the trees.  Set objects are finite sets of expressions, semilattice
      elements are free meets of atomic expressions, with the semilattice laws as equalities of
      expressions, and labellings are finite maps.
    - Programs that make, assign, cut, join and extend strings compute the values that they compute
      when nothing is shared, and C strings that were handed out stay as they are.  The operations that
      shorten a string in place are not among them: samples show what they break.

    ** Bounds and fuel

    Recursion on two trees that descends into one or the other runs on a fuel, the sum
    of their sizes, and each theorem about such a function states its result for that
    fuel; a [while] loop that counts runs on the number of its iterations, and the
    theorems show that it returns.  Sizes of bit arrays are below [2 ^ 64 - 64],
    for which rounding up to words does not wrap around.  Red-black trees have fewer
    than [2 ^ 64] nodes, whose height the stack of the source suffices for; hash maps
    at most [2 ^ 59], for which the products in the tests of the load do not wrap around;
    priority queues a capacity of at most [2 ^ 60].  The theorems on substitutions state
    that some fuel is enough, and that the result is the same for every larger one; a
    chain of shadowed substitutions is followed for as many steps as there are substitutions.
    Left-packed trees have at most [4 ^ 16] elements, since the source shifts an [int]; the
    loop over levels runs on 32, the width of the field that holds the depth.  Associative trees have
    keys below [2 ^ 63], as addresses of a process have: the centre of keys that differ in the highest
    bit would be 0.  Strings are shorter than [2 ^ 61] bytes, for which no capacity wraps around.
    The search of [pop_any] runs on one turn for each bucket and one more, which
    is enough from any start.

    ** Not modelled

    Hash-consing and the garbage-collected allocation in [src/cuoo] and outside the
    repository: constructors are pure and [Bitarray] has an [Allocator] class that states
    what is used of allocation.  Printing, dump functions and the registration of
    dynamic types, which are input and output.  Deep copies, merging and the constructive
    insertion of red-black trees.  Formatted and locale-dependent functions of
    [cu/str.c].  In [cuex/subst.c] the transformation and iteration with caches, and types of variables.  The other containers of [src/cucon] (lists, stacks
    and queues, heaps as linked trees, graphs and partial orders), which link their nodes in
    memory, and the rest of [src/cuex] (tuples and
    other compound terms, operator tables, the structural maps of [ssfn.c], folds) are left
    out; so are the functions of [cuex/labelling.c] that take an object for its tree or expand
    it into a monoid.  The libraries
    for files, text formats, threads and types ([src/cuos], [src/cutext], [src/cufo],
    [src/cudyn], [src/cuflow]) are mostly calls into the operating system or
    into [src/cuoo]. *)

From Stdlib Require Export ZArith Lia Bool List.
From stdpp Require Export base option list decidable.

#[global] Open Scope Z_scope.

(** ** C operators on words *)

Declare Scope word_scope.
Delimit Scope word_scope with W.
Infix "&&&" := Z.land (at level 40, left associativity) : word_scope.
Infix "|||" := Z.lor (at level 50, left associativity) : word_scope.
Infix "^^^" := Z.lxor (at level 50, left associativity) : word_scope.
Infix "<<<" := Z.shiftl (at level 34, left associativity) : word_scope.
Infix ">>>" := Z.shiftr (at level 34, left associativity) : word_scope.
#[global] Open Scope word_scope.

(** ** Machine words

    A [cu_word_t], an [uintptr_t] and a [size_t] are 64 bit wide on the LP64
    targets the model fixes ([CUCONF_SIZEOF_INTPTR_T] is 8). *)

Definition WIDTH : Z := 64.
Definition MODULUS : Z := 2 ^ 64.
Definition UINTPTR_MAX : Z := 2 ^ 64 - 1.
Definition word (x : Z) : Prop := 0 <= x < 2 ^ 64.

(** Reduction to [w] bits, the conversion of an unsigned C expression. *)
Definition wrapw (w x : Z) : Z := x mod 2 ^ w.
Definition wrap (x : Z) : Z := x mod 2 ^ 64.

(** [~x], [x - y], [x + y], [-x] and [x << n] on 64-bit unsigned words. *)
Definition wnot (x : Z) : Z := Z.lxor x (Z.ones 64).
Definition wadd (x y : Z) : Z := wrap (x + y).
Definition wsub (x y : Z) : Z := wrap (x - y).
Definition wshl (x n : Z) : Z := wrap (x <<< n).

(** The value of a word read as an [intptr_t]. *)
Definition to_signed (x : Z) : Z := if x <? 2 ^ 63 then x else x - 2 ^ 64.

#[global] Instance word_dec x : Decision (word x).
Proof. unfold word. apply _. Defined.

(** ** Automation *)

(** Linear arithmetic with quotients and remainders by constants. *)
Ltac dlia := Z.div_mod_to_equations; lia.

(** [bits]: equality of integers bit by bit.  The rewriting base [wbits]
    pushes [Z.testbit] through the operators above. *)
Create HintDb wordb.
Create Rewrite HintDb wbits.

Lemma testbit_shiftl (a n m : Z) :
  Z.testbit (a <<< n) m = (0 <=? m) && Z.testbit a (m - n).
Proof.
  destruct (Z.leb_spec 0 m); simpl.
  - by apply Z.shiftl_spec.
  - by apply Z.testbit_neg_r.
Qed.

Lemma testbit_shiftr (a n m : Z) :
  Z.testbit (a >>> n) m = (0 <=? m) && Z.testbit a (m + n).
Proof.
  destruct (Z.leb_spec 0 m); simpl.
  - by apply Z.shiftr_spec.
  - by apply Z.testbit_neg_r.
Qed.

Lemma testbit_ones (n m : Z) :
  0 <= n -> Z.testbit (Z.ones n) m = (0 <=? m) && (m <? n).
Proof.
  intros Hn. destruct (Z.leb_spec 0 m); simpl.
  - destruct (Z.ltb_spec m n).
    + apply Z.ones_spec_low. lia.
    + apply Z.ones_spec_high. lia.
  - by apply Z.testbit_neg_r.
Qed.

Lemma testbit_mod (a n m : Z) :
  0 <= n -> Z.testbit (a mod 2 ^ n) m = (m <? n) && Z.testbit a m.
Proof.
  intros Hn. destruct (Z.ltb_spec m n); simpl.
  - destruct (Z.leb_spec 0 m).
    + apply Z.mod_pow2_bits_low. lia.
    + rewrite !Z.testbit_neg_r; done.
  - apply Z.mod_pow2_bits_high. lia.
Qed.

Lemma testbit_wrap (a m : Z) : Z.testbit (wrap a) m = (m <? 64) && Z.testbit a m.
Proof. unfold wrap. apply testbit_mod. lia. Qed.

Lemma testbit_wnot (a m : Z) :
  Z.testbit (wnot a) m = xorb (Z.testbit a m) ((0 <=? m) && (m <? 64)).
Proof. unfold wnot. rewrite Z.lxor_spec, testbit_ones; [done | lia]. Qed.

Lemma testbit_wshl (a n m : Z) :
  Z.testbit (wshl a n) m = (m <? 64) && ((0 <=? m) && Z.testbit a (m - n)).
Proof. unfold wshl. by rewrite testbit_wrap, testbit_shiftl. Qed.

Lemma testbit_pow2 (n m : Z) : 0 <= n -> Z.testbit (2 ^ n) m = (m =? n).
Proof. intros Hn. rewrite Z.pow2_bits_eqb by done. apply Z.eqb_sym. Qed.

Lemma testbit_high (a w m : Z) :
  0 <= a < 2 ^ w -> 0 <= w <= m -> Z.testbit a m = false.
Proof.
  intros Ha Hw. rewrite <- (Z.mod_small a (2 ^ w)) by done.
  apply Z.mod_pow2_bits_high. lia.
Qed.

Lemma testbit_word_high (a m : Z) : word a -> 64 <= m -> Z.testbit a m = false.
Proof. intros Ha Hm. by apply (testbit_high a 64); [| lia]. Qed.

#[export] Hint Rewrite Z.land_spec Z.lor_spec Z.lxor_spec Z.ldiff_spec
  Z.testbit_0_l testbit_shiftl testbit_shiftr testbit_wrap testbit_wnot
  testbit_wshl : wbits.
#[export] Hint Rewrite testbit_ones testbit_mod testbit_pow2 using lia : wbits.

Ltac bits_split :=
  repeat match goal with
    | |- context [?a <? ?b] => destruct (Z.ltb_spec a b); try lia
    | |- context [?a <=? ?b] => destruct (Z.leb_spec a b); try lia
    | |- context [?a =? ?b] => destruct (Z.eqb_spec a b); try lia
    end; simpl.

Ltac bits_rw := autorewrite with wbits.

(** Close a goal on the bit [i]: rewrite, split the comparisons, and finish by
    cases on the remaining bits. *)
Ltac bit_cases :=
  repeat match goal with
    | |- context [Z.testbit ?x ?i] => destruct (Z.testbit x i)
    end; simpl; try done.

Tactic Notation "bits" :=
  let i := fresh "i" in let Hi := fresh "Hi" in
  apply Z.bits_inj'; intros i Hi; bits_rw; bits_split; try done.

(** ** Ranges *)

Lemma bounded_bits (a w : Z) :
  0 <= w -> 0 <= a -> (forall i, w <= i -> Z.testbit a i = false) -> a < 2 ^ w.
Proof.
  intros Hw Ha Hi. destruct (Z.eq_dec a 0) as [->|Hne].
  { apply Z.pow_pos_nonneg; lia. }
  apply Z.log2_lt_pow2; [lia|].
  destruct (Z.lt_ge_cases (Z.log2 a) w) as [|Hge]; [done|].
  pose proof (Hi _ Hge) as Hb. rewrite Z.bit_log2 in Hb by lia. done.
Qed.

Lemma word_bits (a : Z) :
  0 <= a -> (forall i, 64 <= i -> Z.testbit a i = false) -> word a.
Proof. intros Ha Hi. split; [done|]. by apply bounded_bits. Qed.

Lemma bounded_land (a b w : Z) :
  0 <= w -> 0 <= a < 2 ^ w -> 0 <= b -> 0 <= Z.land a b < 2 ^ w.
Proof.
  intros Hw Ha Hb. assert (0 <= Z.land a b) by (apply Z.land_nonneg; lia).
  split; [done|]. apply bounded_bits; [done..|].
  intros i Hi. by rewrite Z.land_spec, (testbit_high a w) by lia.
Qed.

Lemma bounded_lor (a b w : Z) :
  0 <= w -> 0 <= a < 2 ^ w -> 0 <= b < 2 ^ w -> 0 <= Z.lor a b < 2 ^ w.
Proof.
  intros Hw Ha Hb. assert (0 <= Z.lor a b) by (apply Z.lor_nonneg; lia).
  split; [done|]. apply bounded_bits; [done..|].
  intros i Hi. by rewrite Z.lor_spec, (testbit_high a w), (testbit_high b w) by lia.
Qed.

Lemma bounded_shiftr (a n w : Z) :
  0 <= n -> 0 <= a < 2 ^ w -> 0 <= Z.shiftr a n < 2 ^ w.
Proof.
  intros Hn Ha. rewrite Z.shiftr_div_pow2 by done.
  assert (0 < 2 ^ n) by (apply Z.pow_pos_nonneg; lia).
  split; [apply Z.div_pos; lia|].
  apply Z.le_lt_trans with a; [|lia]. apply Z.div_le_upper_bound; nia.
Qed.

Lemma word_0 : word 0.
Proof. done. Qed.

Lemma word_wrap a : word (wrap a).
Proof. apply Z.mod_pos_bound. done. Qed.

Lemma word_land a b : word a -> word b -> word (a &&& b).
Proof. intros Ha [Hb _]. by apply (bounded_land a b 64). Qed.

Lemma word_lor a b : word a -> word b -> word (a ||| b).
Proof. intros. by apply (bounded_lor a b 64). Qed.

Lemma word_lxor a b : word a -> word b -> word (a ^^^ b).
Proof.
  intros Ha Hb. unfold word in *. apply word_bits.
  { apply Z.lxor_nonneg. lia. }
  intros i Hi. by rewrite Z.lxor_spec, !testbit_word_high.
Qed.

Lemma word_shiftr a n : 0 <= n -> word a -> word (a >>> n).
Proof. apply bounded_shiftr. Qed.

Lemma word_wnot a : word a -> word (wnot a).
Proof. intros Ha. unfold wnot. by apply word_lxor. Qed.

Lemma word_wshl a n : word (wshl a n).
Proof. apply word_wrap. Qed.

Lemma word_wadd a b : word (wadd a b).
Proof. apply word_wrap. Qed.

Lemma word_wsub a b : word (wsub a b).
Proof. apply word_wrap. Qed.

#[export] Hint Resolve word_0 word_wrap word_land word_lor word_lxor word_shiftr
  word_wnot word_wshl word_wadd word_wsub : wordb.

Lemma wrap_small a : word a -> wrap a = a.
Proof. apply Z.mod_small. Qed.

Lemma wnot_eq a : word a -> wnot a = UINTPTR_MAX - a.
Proof.
  intros Ha. unfold wnot, UINTPTR_MAX.
  assert (Hl : Z.land a (Z.lxor a (Z.ones 64)) = 0).
  { bits; [by bit_cases | by rewrite (testbit_word_high a)]. }
  assert (He : Z.lxor a (Z.lxor a (Z.ones 64)) = Z.ones 64).
  { by rewrite <- Z.lxor_assoc, Z.lxor_nilpotent, Z.lxor_0_l. }
  apply Z.add_nocarry_lxor in Hl. rewrite He in Hl.
  change (Z.ones 64) with (2 ^ 64 - 1) in *. lia.
Qed.

(** Two words with the same 64 bits are equal. *)
Lemma word_ext a b :
  word a -> word b -> (forall i, 0 <= i < 64 -> Z.testbit a i = Z.testbit b i) -> a = b.
Proof.
  intros Ha Hb He. apply Z.bits_inj'. intros i Hi.
  destruct (Z.lt_ge_cases i 64); [by apply He|].
  by rewrite !testbit_word_high.
Qed.

(** [land] with a power of two tests a bit. *)
Lemma land_pow2 a n : 0 <= n -> Z.land a (2 ^ n) = if Z.testbit a n then 2 ^ n else 0.
Proof.
  intros Hn. apply Z.bits_inj'. intros i Hi.
  rewrite Z.land_spec, testbit_pow2 by done.
  destruct (Z.eqb_spec i n) as [->|].
  - destruct (Z.testbit a n); simpl; [|by rewrite Z.bits_0].
    by rewrite testbit_pow2, Z.eqb_refl.
  - rewrite andb_false_r. destruct (Z.testbit a n); [|by rewrite Z.bits_0].
    rewrite testbit_pow2 by done. symmetry. by apply Z.eqb_neq.
Qed.

Lemma land_pow2_neq0 a n :
  0 <= n -> negb (Z.land a (2 ^ n) =? 0) = Z.testbit a n.
Proof.
  intros Hn. rewrite land_pow2 by done. assert (0 < 2 ^ n) by (apply Z.pow_pos_nonneg; lia).
  destruct (Z.testbit a n); [|done]. by rewrite (proj2 (Z.eqb_neq _ _)) by lia.
Qed.

Lemma wshl_1 n : 0 <= n < 64 -> wshl 1 n = 2 ^ n.
Proof.
  intros Hn. unfold wshl. rewrite Z.shiftl_1_l, wrap_small; [done|].
  split; [apply Z.pow_nonneg; lia|]. apply Z.pow_lt_mono_r; lia.
Qed.

(** ** Lists *)

(** The sequential conjunction of a callback over a list: it stops at the first
    element for which the callback answers false. *)
Fixpoint conj_list {S A : Type} (cb : S -> A -> S * bool) (xs : list A) (s : S) : S * bool :=
  match xs with
  | [] => (s, true)
  | x :: xs => let '(s, ok) := cb s x in if ok then conj_list cb xs s else (s, false)
  end.

Lemma conj_list_app {S A : Type} (cb : S -> A -> S * bool) xs ys s :
  conj_list cb (xs ++ ys) s =
  let '(s, ok) := conj_list cb xs s in if ok then conj_list cb ys s else (s, false).
Proof.
  revert s. induction xs as [|x xs IH]; intros s; [done|]. simpl.
  destruct (cb s x) as [s' [|]]; [apply IH|done].
Qed.

Lemma filter_all {A : Type} (P : A -> Prop) `{!forall x, Decision (P x)} (xs : list A) :
  Forall P xs -> filter P xs = xs.
Proof. induction 1 as [|x xs Hx _ IH]; [done|]. by rewrite filter_cons, decide_True, IH. Qed.

Lemma filter_none {A : Type} (P : A -> Prop) `{!forall x, Decision (P x)} (xs : list A) :
  Forall (fun x => ~ P x) xs -> filter P xs = [].
Proof. induction 1 as [|x xs Hx _ IH]; [done|]. by rewrite filter_cons, decide_False. Qed.
