(* ===== verification/Bits.v ===== *)
(** * Bit-level facts shared by the integer, bit-array and radix-tree components

    - [popcount n x]: the number of ones among the low [n] bits;
    - [smear s x r]: [r] is [x] with every one bit copied to the [s - 1]
      positions below it, the invariant of the [x |= x >> s] cascades;
    - the decomposition [x = (2 m + 1) 2 ^ b] of a positive integer, and what
      the usual lowest-bit expressions evaluate to on it. *)

From Stdlib Require Import Zbitwise.
From S2P Require Export Prelude.

(** ** Population count *)

Fixpoint popcount (n : nat) (x : Z) : Z :=
  match n with
  | O => 0
  | S n' => Z.b2z (Z.testbit x (Z.of_nat n')) + popcount n' x
  end.

Lemma popcount_ext n x y :
  (forall i, 0 <= i < Z.of_nat n -> Z.testbit x i = Z.testbit y i) ->
  popcount n x = popcount n y.
Proof.
  induction n as [|n IH]; intros He; simpl; [done|].
  rewrite He by lia. f_equal. apply IH. intros i Hi. apply He. lia.
Qed.

Lemma popcount_app n m x :
  popcount (n + m) x = popcount n x + popcount m (x >>> Z.of_nat n).
Proof.
  induction m as [|m IH].
  - by rewrite Nat.add_0_r, Z.add_0_r.
  - rewrite Nat.add_succ_r. cbn [popcount]. rewrite IH, testbit_shiftr.
    rewrite (proj2 (Z.leb_le 0 (Z.of_nat m))) by lia.
    replace (Z.of_nat (n + m)) with (Z.of_nat m + Z.of_nat n) by lia. simpl. lia.
Qed.

Lemma popcount_bounds n x : 0 <= popcount n x <= Z.of_nat n.
Proof.
  induction n as [|n IH]; cbn [popcount]; [lia|].
  destruct (Z.testbit x (Z.of_nat n)); simpl; lia.
Qed.

Lemma popcount_0 n : popcount n 0 = 0.
Proof. induction n as [|n IH]; simpl; [done|]. by rewrite Z.bits_0, IH. Qed.

Lemma popcount_ones n k : 0 <= k <= Z.of_nat n -> popcount n (Z.ones k) = k.
Proof.
  revert k. induction n as [|n IH]; intros k Hk; cbn [popcount].
  { lia. }
  rewrite testbit_ones by lia. rewrite (proj2 (Z.leb_le 0 (Z.of_nat n))) by lia.
  destruct (Z.ltb_spec (Z.of_nat n) k); simpl.
  - replace k with (Z.of_nat (S n)) by lia.
    rewrite (popcount_ext n _ (Z.ones (Z.of_nat n))).
    + rewrite IH; lia.
    + intros i Hi. by rewrite !Z.ones_spec_low by lia.
  - apply IH. lia.
Qed.

Lemma popcount_eq_0 n x :
  popcount n x = 0 <-> forall i, 0 <= i < Z.of_nat n -> Z.testbit x i = false.
Proof.
  split.
  - induction n as [|n IH]; cbn [popcount]; intros H i Hi; [lia|].
    pose proof (popcount_bounds n x).
    destruct (Z.testbit x (Z.of_nat n)) eqn:E; simpl in H; [lia|].
    destruct (Z.eq_dec i (Z.of_nat n)) as [->|]; [done|]. apply IH; lia.
  - intros H. rewrite (popcount_ext n x 0); [apply popcount_0|].
    intros i Hi. by rewrite Z.bits_0, H.
Qed.

(** ** Cascades of shifted or's *)

Definition smear (s x r : Z) : Prop :=
  forall i, 0 <= i ->
    Z.testbit r i = true <-> exists j, 0 <= j < s /\ Z.testbit x (i + j) = true.

Lemma smear_start x : smear 1 x x.
Proof.
  intros i Hi. split.
  - intros H. exists 0. by rewrite Z.add_0_r.
  - intros (j & Hj & H). by replace i with (i + j) by lia.
Qed.

Lemma smear_step s x r : 0 <= s -> smear s x r -> smear (s + s) x (r ||| r >>> s).
Proof.
  intros Hs Hr i Hi.
  rewrite Z.lor_spec, Z.shiftr_spec, orb_true_iff by done.
  rewrite (Hr i), (Hr (i + s)) by lia. split.
  - intros [(j & Hj & H)|(j & Hj & H)].
    + exists j. split; [lia|done].
    + exists (s + j). split; [lia|]. by rewrite Z.add_assoc.
  - intros (j & Hj & H). destruct (Z.lt_ge_cases j s).
    + left. exists j. split; [lia|done].
    + right. exists (j - s). split; [lia|].
      by replace (i + s + (j - s)) with (i + j) by lia.
Qed.

(** The value of a complete cascade: the mask of the bits up to the top one. *)
Definition cover_mask (x : Z) : Z := if x =? 0 then 0 else 2 ^ (Z.log2 x + 1) - 1.

Lemma cover_mask_ones x : 0 < x -> cover_mask x = Z.ones (Z.log2 x + 1).
Proof.
  intros Hx. unfold cover_mask. rewrite (proj2 (Z.eqb_neq _ _)) by lia.
  rewrite Z.ones_equiv. lia.
Qed.

Lemma smear_cover w x r : 0 <= x < 2 ^ w -> 0 <= w -> smear w x r -> r = cover_mask x.
Proof.
  intros Hx Hw Hr. apply Z.bits_inj'. intros i Hi. apply eq_true_iff_eq.
  rewrite (Hr i Hi). destruct (Z.eq_dec x 0) as [->|Hne].
  { rewrite Z.bits_0. split; [|done]. intros (j & _ & H). by rewrite Z.bits_0 in H. }
  pose proof (Z.log2_nonneg x) as Hl.
  rewrite cover_mask_ones, testbit_ones by lia.
  rewrite (proj2 (Z.leb_le 0 i) Hi). simpl. rewrite Z.ltb_lt. split.
  - intros (j & Hj & H). destruct (Z.lt_ge_cases i (Z.log2 x + 1)); [done|].
    rewrite Z.bits_above_log2 in H by lia. done.
  - intros Hlt. exists (Z.log2 x - i).
    assert (Z.log2 x < w) by (apply Z.log2_lt_pow2; lia).
    split; [lia|]. replace (i + (Z.log2 x - i)) with (Z.log2 x) by lia.
    apply Z.bit_log2. lia.
Qed.

Lemma cover_mask_bounds w x : 0 <= w -> 0 <= x < 2 ^ w -> 0 <= cover_mask x < 2 ^ w.
Proof.
  intros Hw Hx. unfold cover_mask. destruct (Z.eqb_spec x 0) as [|Hne].
  { split; [done|]. apply Z.pow_pos_nonneg; lia. }
  pose proof (Z.log2_nonneg x).
  assert (Z.log2 x < w) by (apply Z.log2_lt_pow2; lia).
  assert (0 < 2 ^ (Z.log2 x + 1)) by (apply Z.pow_pos_nonneg; lia).
  assert (2 ^ (Z.log2 x + 1) <= 2 ^ w) by (apply Z.pow_le_mono_r; lia). lia.
Qed.

(** ** The lowest set bit *)

Lemma lowbit_decomp x : 0 < x -> exists b m, 0 <= b /\ 0 <= m /\ x = (2 * m + 1) * 2 ^ b.
Proof.
  destruct x as [|p|p]; [done| |done]. intros _.
  induction p as [p IH|p (b & m & Hb & Hm & E)|].
  - exists 0, (Z.pos p). lia.
  - exists (b + 1), m. rewrite Z.pow_add_r by lia. lia.
  - by exists 0, 0.
Qed.

Lemma pow2_pos b : 0 <= b -> 0 < 2 ^ b.
Proof. intros. apply Z.pow_pos_nonneg; lia. Qed.

Lemma pow2_succ b : 0 <= b -> 2 ^ (b + 1) = 2 * 2 ^ b.
Proof. intros. rewrite Z.pow_add_r by lia. lia. Qed.

Lemma odd_mul_ge b m : 0 <= b -> 0 <= (2 * m + 1) * 2 ^ b -> 2 ^ b <= (2 * m + 1) * 2 ^ b.
Proof.
  intros Hb Hx. pose proof (pow2_pos b Hb) as Hp.
  assert (0 <= 2 * m + 1) by (apply (Z.mul_nonneg_cancel_r _ (2 ^ b)); lia).
  assert (1 * 2 ^ b <= (2 * m + 1) * 2 ^ b) by (apply Z.mul_le_mono_nonneg_r; lia).
  lia.
Qed.

Lemma lowbit_lt b m w : 0 <= b -> 0 <= w -> 0 <= (2 * m + 1) * 2 ^ b < 2 ^ w -> b < w.
Proof.
  intros Hb Hw Hx. apply (Z.pow_lt_mono_r_iff 2); [lia..|].
  pose proof (odd_mul_ge b m Hb). lia.
Qed.

Section lowbit.
Context (b m : Z) (Hb : 0 <= b).
#[local] Abbreviation x := ((2 * m + 1) * 2 ^ b).

Lemma lowbit_testbit i :
  0 <= i ->
  Z.testbit x i = if i <? b then false else if i =? b then true else Z.testbit m (i - b - 1).
Proof.
  intros Hi. rewrite Z.mul_pow2_bits by done.
  destruct (Z.ltb_spec i b); [by apply Z.testbit_neg_r; lia|].
  destruct (Z.eqb_spec i b) as [->|].
  - by rewrite Z.sub_diag, Z.testbit_odd_0.
  - replace (i - b) with (Z.succ (i - b - 1)) at 1 by lia.
    rewrite Z.testbit_odd_succ; [done|lia].
Qed.

Lemma lowbit_pred_testbit i :
  0 <= i ->
  Z.testbit (x - 1) i = if i <? b then true else if i =? b then false else Z.testbit m (i - b - 1).
Proof.
  intros Hi. pose proof (pow2_pos b Hb).
  assert (E : x - 1 = 2 ^ b - 1 + 2 * m * 2 ^ b) by lia.
  destruct (Z.ltb_spec i b).
  - rewrite <- (Z.mod_pow2_bits_low _ b) by lia. rewrite E, Z.mod_add by lia.
    rewrite Z.mod_small by lia. rewrite Z.sub_1_r, <- Z.ones_equiv.
    by apply Z.ones_spec_low.
  - replace i with (i - b + b) at 1 by lia.
    rewrite <- Z.div_pow2_bits by lia.
    rewrite E, Z.div_add, Z.div_small by lia. rewrite Z.add_0_l.
    destruct (Z.eqb_spec i b) as [->|].
    + by rewrite Z.sub_diag, Z.testbit_even_0.
    + replace (i - b) with (Z.succ (i - b - 1)) at 1 by lia.
      rewrite Z.testbit_even_succ; [done|lia].
Qed.

Lemma lowbit_xor_pred : x ^^^ (x - 1) = Z.ones (b + 1).
Proof.
  apply Z.bits_inj'. intros i Hi.
  rewrite Z.lxor_spec, lowbit_testbit, lowbit_pred_testbit, testbit_ones by lia.
  bits_split; try done; bit_cases.
Qed.

Lemma lowbit_and_pred : x &&& (x - 1) = x - 2 ^ b.
Proof.
  replace (x - 2 ^ b) with (m * 2 ^ (b + 1)) by (rewrite pow2_succ by done; lia).
  apply Z.bits_inj'. intros i Hi.
  rewrite Z.land_spec, lowbit_testbit, lowbit_pred_testbit, Z.mul_pow2_bits by lia.
  bits_split; try by rewrite Z.testbit_neg_r by lia.
  rewrite andb_diag. f_equal. lia.
Qed.

Lemma lowbit_or_pred : x ||| (x - 1) = x + 2 ^ b - 1.
Proof.
  pose proof (Z.add_lor_land x (x - 1)) as H.
  rewrite lowbit_and_pred in H. lia.
Qed.

(** [~x & (x - 1)]: the ones below the lowest set bit, in any width [w] that
    holds [x]. *)
Lemma lowbit_lzeros w :
  0 <= w -> 0 <= x < 2 ^ w -> Z.land (Z.lxor x (Z.ones w)) (x - 1) = Z.ones b.
Proof.
  intros Hw Hx.
  assert (b < w) by by apply (lowbit_lt b m).
  apply Z.bits_inj'. intros i Hi.
  pose proof (testbit_high x w i Hx) as Hh.
  rewrite Z.land_spec, Z.lxor_spec, !testbit_ones by lia.
  destruct (Z.ltb_spec i w).
  - rewrite lowbit_testbit, lowbit_pred_testbit by lia. bits_split; bit_cases.
  - rewrite Hh by lia. rewrite lowbit_testbit in Hh by lia.
    rewrite lowbit_pred_testbit by lia. revert Hh.
    bits_split; intros; simpl; rewrite ?andb_false_r; try done; congruence.
Qed.
End lowbit.
