(* ===== verification/Int.v ===== *)
(** * Integer functions: [cu/int.h], [cu/int.c], [cu/size.h], [cu/word.h]

    Population count, bit covers, base-two logarithms, powers of two, and the
    byte-order conversions, on the LP64 types of the model ([unsigned int] of
    32 bits; [long], [size_t], [uintptr_t], [cu_word_t] and
    [uint_fast{16,32,64}_t] of 64; [uint_fast8_t] of 8).  The tables of int.c
    are lists; an index is in range whenever the argument is in the range of
    the type the function is named after. *)

From S2P Require Export Bits.

(** ** Data *)

Definition bit_count_table : list Z :=
  [0; 1; 1; 2; 1; 2; 2; 3; 1; 2; 2; 3; 2; 3; 3; 4;
   1; 2; 2; 3; 2; 3; 3; 4; 2; 3; 3; 4; 3; 4; 4; 5;
   1; 2; 2; 3; 2; 3; 3; 4; 2; 3; 3; 4; 3; 4; 4; 5;
   2; 3; 3; 4; 3; 4; 4; 5; 3; 4; 4; 5; 4; 5; 5; 6;
   1; 2; 2; 3; 2; 3; 3; 4; 2; 3; 3; 4; 3; 4; 4; 5;
   2; 3; 3; 4; 3; 4; 4; 5; 3; 4; 4; 5; 4; 5; 5; 6;
   2; 3; 3; 4; 3; 4; 4; 5; 3; 4; 4; 5; 4; 5; 5; 6;
   3; 4; 4; 5; 4; 5; 5; 6; 4; 5; 5; 6; 5; 6; 6; 7;
   1; 2; 2; 3; 2; 3; 3; 4; 2; 3; 3; 4; 3; 4; 4; 5;
   2; 3; 3; 4; 3; 4; 4; 5; 3; 4; 4; 5; 4; 5; 5; 6;
   2; 3; 3; 4; 3; 4; 4; 5; 3; 4; 4; 5; 4; 5; 5; 6;
   3; 4; 4; 5; 4; 5; 5; 6; 4; 5; 5; 6; 5; 6; 6; 7;
   2; 3; 3; 4; 3; 4; 4; 5; 3; 4; 4; 5; 4; 5; 5; 6;
   3; 4; 4; 5; 4; 5; 5; 6; 4; 5; 5; 6; 5; 6; 6; 7;
   3; 4; 4; 5; 4; 5; 5; 6; 4; 5; 5; 6; 5; 6; 6; 7;
   4; 5; 5; 6; 5; 6; 6; 7; 5; 6; 6; 7; 6; 7; 7; 8].

Definition floor_log2_table : list Z :=
  [-1; 0; 1; 1; 2; 2; 2; 2; 3; 3; 3; 3; 3; 3; 3; 3;
   4; 4; 4; 4; 4; 4; 4; 4; 4; 4; 4; 4; 4; 4; 4; 4;
   5; 5; 5; 5; 5; 5; 5; 5; 5; 5; 5; 5; 5; 5; 5; 5;
   5; 5; 5; 5; 5; 5; 5; 5; 5; 5; 5; 5; 5; 5; 5; 5;
   6; 6; 6; 6; 6; 6; 6; 6; 6; 6; 6; 6; 6; 6; 6; 6;
   6; 6; 6; 6; 6; 6; 6; 6; 6; 6; 6; 6; 6; 6; 6; 6;
   6; 6; 6; 6; 6; 6; 6; 6; 6; 6; 6; 6; 6; 6; 6; 6;
   6; 6; 6; 6; 6; 6; 6; 6; 6; 6; 6; 6; 6; 6; 6; 6;
   7; 7; 7; 7; 7; 7; 7; 7; 7; 7; 7; 7; 7; 7; 7; 7;
   7; 7; 7; 7; 7; 7; 7; 7; 7; 7; 7; 7; 7; 7; 7; 7;
   7; 7; 7; 7; 7; 7; 7; 7; 7; 7; 7; 7; 7; 7; 7; 7;
   7; 7; 7; 7; 7; 7; 7; 7; 7; 7; 7; 7; 7; 7; 7; 7;
   7; 7; 7; 7; 7; 7; 7; 7; 7; 7; 7; 7; 7; 7; 7; 7;
   7; 7; 7; 7; 7; 7; 7; 7; 7; 7; 7; 7; 7; 7; 7; 7;
   7; 7; 7; 7; 7; 7; 7; 7; 7; 7; 7; 7; 7; 7; 7; 7;
   7; 7; 7; 7; 7; 7; 7; 7; 7; 7; 7; 7; 7; 7; 7; 7].

(** [table[i]] *)
Definition table_at (t : list Z) (i : Z) : Z := nth (Z.to_nat i) t 0.

(** The [unsigned int] results of the logarithms wrap at 32 bits. *)
Definition uint (x : Z) : Z := wrapw 32 x.

(** ** Bit count *)

Definition cu_uint8_bit_count (x : Z) : Z := table_at bit_count_table x.

Definition cu_uint16_bit_count (x : Z) : Z :=
  let r := table_at bit_count_table (x &&& 255) in
  let x := x >>> 8 in
  r + table_at bit_count_table x.

Definition cu_uint32_bit_count (x : Z) : Z :=
  let r := table_at bit_count_table (x &&& 255) in
  let x := x >>> 8 in
  let r := r + table_at bit_count_table (x &&& 255) in
  let x := x >>> 8 in
  let r := r + table_at bit_count_table (x &&& 255) in
  let x := x >>> 8 in
  r + table_at bit_count_table x.

Definition cu_uint64_bit_count (x : Z) : Z :=
  let r := table_at bit_count_table (x &&& 255) in
  let x := x >>> 8 in
  let r := r + table_at bit_count_table (x &&& 255) in
  let x := x >>> 8 in
  let r := r + table_at bit_count_table (x &&& 255) in
  let x := x >>> 8 in
  let r := r + table_at bit_count_table (x &&& 255) in
  let x := x >>> 8 in
  let r := r + table_at bit_count_table (x &&& 255) in
  let x := x >>> 8 in
  let r := r + table_at bit_count_table (x &&& 255) in
  let x := x >>> 8 in
  let r := r + table_at bit_count_table (x &&& 255) in
  let x := x >>> 8 in
  r + table_at bit_count_table x.
Definition cu_ulong_bit_count (x : Z) : Z := cu_uint64_bit_count x.

(** ** Downward cover *)

Definition cu_uint8_dcover (x : Z) : Z :=
  let x := x ||| x >>> 1 in
  let x := x ||| x >>> 2 in
  let x := x ||| x >>> 4 in
  x.

Definition cu_uint16_dcover (x : Z) : Z :=
  let x := x ||| x >>> 1 in
  let x := x ||| x >>> 2 in
  let x := x ||| x >>> 4 in
  let x := x ||| x >>> 8 in
  x.

Definition cu_uint32_dcover (x : Z) : Z :=
  let x := x ||| x >>> 1 in
  let x := x ||| x >>> 2 in
  let x := x ||| x >>> 4 in
  let x := x ||| x >>> 8 in
  let x := x ||| x >>> 16 in
  x.

Definition cu_uint64_dcover (x : Z) : Z :=
  let x := x ||| x >>> 1 in
  let x := x ||| x >>> 2 in
  let x := x ||| x >>> 4 in
  let x := x ||| x >>> 8 in
  let x := x ||| x >>> 16 in
  let x := x ||| x >>> 32 in
  x.

Definition cu_uint_dcover (x : Z) : Z := cu_uint32_dcover x.
Definition cu_ulong_dcover (x : Z) : Z := cu_uint64_dcover x.
Definition cu_uintptr_dcover (x : Z) : Z := cu_uint64_dcover x.

Definition cu_uint_ucover (x : Z) : Z :=
  x ||| Z.lxor (wrapw 32 (x - 1)) (Z.ones 32).
Definition cu_ulong_ucover (x : Z) : Z := x ||| wnot (wsub x 1).
Definition cu_uint_lzeros (x : Z) : Z :=
  Z.lxor x (Z.ones 32) &&& wrapw 32 (x - 1).
Definition cu_ulong_lzeros (x : Z) : Z := wnot x &&& wsub x 1.
Definition cu_uint_uzeros (x : Z) : Z := Z.lxor (cu_uint_dcover x) (Z.ones 32).
Definition cu_ulong_uzeros (x : Z) : Z := wnot (cu_ulong_dcover x).

(** ** Powers of two *)

(** The argument [x - 1] is converted back to [uint_fast8_t], and so is the sum. *)
Definition cu_uint8_exp2_ceil_log2 (x : Z) : Z :=
  wrapw 8 (cu_uint8_dcover (wrapw 8 (x - 1)) + 1).
Definition cu_uint64_exp2_ceil_log2 (x : Z) : Z :=
  wadd (cu_uint64_dcover (wsub x 1)) 1.
Definition cu_ulong_exp2_ceil_log2 (x : Z) : Z :=
  wadd (cu_ulong_dcover (wsub x 1)) 1.

(** ** Logarithms *)

Definition uint8_floor_log2 (x : Z) : Z := uint (table_at floor_log2_table x).
Definition uint16_floor_log2 (x : Z) : Z :=
  if 0x100 <=? x then uint (uint8_floor_log2 (x >>> 8) + 8) else uint8_floor_log2 x.
Definition uint32_floor_log2 (x : Z) : Z :=
  if 0x10000 <=? x then uint (uint16_floor_log2 (x >>> 16) + 16) else uint16_floor_log2 x.
Definition uint64_floor_log2 (x : Z) : Z :=
  if 0x100000000 <=? x then uint (uint32_floor_log2 (x >>> 32) + 32) else uint32_floor_log2 x.

(** [cu_check_arg] expands to nothing unless [CUCONF_DEBUG_CLIENT] is set. *)
Definition cu_uint8_floor_log2 (x : Z) : Z := uint8_floor_log2 x.
Definition cu_uint16_floor_log2 (x : Z) : Z := uint16_floor_log2 x.
Definition cu_uint32_floor_log2 (x : Z) : Z := uint32_floor_log2 x.
Definition cu_uint64_floor_log2 (x : Z) : Z := uint64_floor_log2 x.

Definition cu_uint8_ceil_log2 (x : Z) : Z := uint (uint8_floor_log2 (wrapw 8 (x - 1)) + 1).
Definition cu_uint16_ceil_log2 (x : Z) : Z := uint (uint16_floor_log2 (wsub x 1) + 1).
Definition cu_uint32_ceil_log2 (x : Z) : Z := uint (uint32_floor_log2 (wsub x 1) + 1).
Definition cu_ulong_floor_log2 (x : Z) : Z := cu_uint64_floor_log2 x.
Definition cu_uint64_ceil_log2 (x : Z) : Z := uint (uint64_floor_log2 (wsub x 1) + 1).

Definition cu_uint64_log2_lowbit (x : Z) : Z := cu_uint64_bit_count (wnot x &&& wsub x 1).
Definition cu_uintptr_log2_lowbit (x : Z) : Z := cu_uint64_log2_lowbit x.

(** ** Comparisons, absolute value, division *)

Definition cu_int_sgn (x : Z) : Z := if x <? 0 then -1 else if 0 <? x then 1 else 0.

(** Conversion of an argument to [int]: the value modulo [2 ^ 32] in the signed
    range. *)
Definition to_int (x : Z) : Z :=
  let y := wrapw 32 x in if y <? 2 ^ 31 then y else y - 2 ^ 32.

(** The parameter of [cu_long_sgn] is declared [int]. *)
Definition cu_long_sgn (x : Z) : Z :=
  let x := to_int x in if x <? 0 then -1 else if 0 <? x then 1 else 0.
Definition cu_int_cmp (x y : Z) : Z := if x <? y then -1 else if y <? x then 1 else 0.
Definition cu_long_cmp (x y : Z) : Z := if x <? y then -1 else if y <? x then 1 else 0.

Definition cu_uint_ceil_div (x y : Z) : Z := wrapw 32 (x + y - 1) / y.
Definition cu_ulong_ceil_div (x y : Z) : Z := wrap (x + y - 1) / y.

(** ** [cu/size.h] *)

Definition cu_size_min (n m : Z) : Z := if n <? m then n else m.
Definition cu_size_max (n m : Z) : Z := if m <? n then n else m.
Definition cu_size_cmp (n m : Z) : Z := if n <? m then -1 else if m <? n then 1 else 0.
Definition cu_size_lmask (b : Z) : Z := wsub (wshl 1 b) 1.
Definition cu_size_dcover (x : Z) : Z := cu_uint64_dcover x.
Definition cu_size_ceil_div (n m : Z) : Z := wrap (n + m - 1) / m.
Definition cu_size_mulceil (n m : Z) : Z := wrap (cu_size_ceil_div n m * m).
Definition cu_size_mulfloor (n m : Z) : Z := wrap ((n / m) * m).
Definition cu_size_scal2ceil (n b : Z) : Z :=
  wadd n (cu_size_lmask b) &&& wnot (cu_size_lmask b).
Definition cu_size_scal2floor (n b : Z) : Z := n &&& wnot (cu_size_lmask b).
Definition cu_size_exp2ceil (n : Z) : Z := wadd (cu_size_dcover (wsub n 1)) 1.
Definition cu_size_exp2floor (n : Z) : Z := wadd (cu_size_dcover n >>> 1) 1.
Definition cu_size_floor_log2 (n : Z) : Z := cu_uint64_floor_log2 n.
Definition cu_size_ceil_log2 (n : Z) : Z := cu_uint64_ceil_log2 n.
Definition cu_size_log2_lowbit (n : Z) : Z := cu_uint64_log2_lowbit n.

(** ** [cu/word.h] *)

Definition cu_word_bit_count (x : Z) : Z := cu_uint64_bit_count x.
Definition cu_word_floor_log2 (x : Z) : Z := cu_uint64_floor_log2 x.
Definition cu_word_log2_lowbit (x : Z) : Z := cu_uint64_log2_lowbit x.

Definition cu_word_rcmp (w0 w1 : Z) : Z :=
  let d := w0 ^^^ w1 in
  let m := wsub d 1 ^^^ d in
  let w0 := w0 &&& m in
  let w1 := w1 &&& m in
  if w0 <? w1 then -1 else if w1 <? w0 then 1 else 0.

(** ** Network byte order (little-endian host) *)

Definition cu_uint16_hton (i : Z) : Z :=
  wrapw 16 (i >>> 8 ||| (i &&& 0xff) <<< 8).
Definition cu_uint32_hton (i : Z) : Z :=
  wrapw 32 (i >>> 24 ||| (i &&& 0xff) <<< 24
            ||| (i &&& 0xff0000) >>> 8 ||| (i &&& 0xff00) <<< 8).

(** ** Bit count: lemmas *)

Lemma bit_count_table_spec i : 0 <= i < 256 -> table_at bit_count_table i = popcount 8 i.
Proof.
  intros Hi.
  assert (H : forallb (fun k => table_at bit_count_table (Z.of_nat k) =? popcount 8 (Z.of_nat k))
                (seq 0 256) = true) by (vm_compute; reflexivity).
  rewrite forallb_forall in H. specialize (H (Z.to_nat i)).
  rewrite Z2Nat.id in H by lia. apply Z.eqb_eq, H, in_seq. lia.
Qed.

Lemma land_255 x : 0 <= x -> 0 <= x &&& 255 < 256.
Proof. intros. change 255 with (Z.ones 8). rewrite Z.land_ones by lia. by apply Z.mod_pos_bound. Qed.

Lemma bit_count_byte x :
  0 <= x -> table_at bit_count_table (x &&& 255) = popcount 8 x.
Proof.
  intros Hx. rewrite bit_count_table_spec by by apply land_255.
  apply popcount_ext. intros i Hi. change 255 with (Z.ones 8).
  rewrite Z.land_spec, testbit_ones by lia. bits_split. apply andb_true_r.
Qed.

(** Merge nested constant shifts. *)
Ltac shifts :=
  rewrite ?Z.shiftr_shiftr by lia;
  repeat match goal with
    | |- context [_ >>> (?a + ?b)] =>
        let c := eval vm_compute in (a + b) in change (a + b) with c
    end.

Lemma cu_uint16_bit_count_spec x : 0 <= x < 2 ^ 16 -> cu_uint16_bit_count x = popcount 16 x.
Proof.
  intros Hx. unfold cu_uint16_bit_count. cbn zeta.
  assert (0 <= x >>> 8 < 256).
  { rewrite Z.shiftr_div_pow2 by lia. split; [apply Z.div_pos; lia|].
    apply Z.div_lt_upper_bound; lia. }
  rewrite bit_count_byte, bit_count_table_spec by lia.
  by rewrite (popcount_app 8 8).
Qed.

(** A narrower count of the low half plus one of the high half. *)
Lemma cu_uint32_bit_count_spec x : 0 <= x < 2 ^ 32 -> cu_uint32_bit_count x = popcount 32 x.
Proof.
  intros Hx. unfold cu_uint32_bit_count. cbn zeta.
  shifts.
  assert (0 <= x >>> 24 < 256).
  { split; [apply Z.shiftr_nonneg; lia|]. rewrite Z.shiftr_div_pow2 by lia. apply Z.div_lt_upper_bound; lia. }
  rewrite !bit_count_byte, bit_count_table_spec
    by first [lia | apply Z.shiftr_nonneg; lia].
  by rewrite (popcount_app 24 8), (popcount_app 16 8), (popcount_app 8 8).
Qed.

Lemma cu_uint64_bit_count_popcount x : word x -> cu_uint64_bit_count x = popcount 64 x.
Proof.
  intros Hx. unfold word in Hx. unfold cu_uint64_bit_count. cbn zeta.
  shifts.
  assert (0 <= x >>> 56 < 256).
  { split; [apply Z.shiftr_nonneg; lia|]. rewrite Z.shiftr_div_pow2 by lia. apply Z.div_lt_upper_bound; lia. }
  rewrite !bit_count_byte, bit_count_table_spec
    by first [lia | apply Z.shiftr_nonneg; lia].
  by rewrite (popcount_app 56 8), (popcount_app 48 8), (popcount_app 40 8),
    (popcount_app 32 8), (popcount_app 24 8), (popcount_app 16 8), (popcount_app 8 8).
Qed.

(** ** Covers *)

Lemma cu_uint8_dcover_spec x : 0 <= x < 2 ^ 8 -> cu_uint8_dcover x = cover_mask x.
Proof.
  intros Hx. apply (smear_cover 8); [lia..|].
  apply (smear_step 4), (smear_step 2), (smear_step 1), smear_start; lia.
Qed.

Lemma cu_uint16_dcover_spec x : 0 <= x < 2 ^ 16 -> cu_uint16_dcover x = cover_mask x.
Proof.
  intros Hx. apply (smear_cover 16); [lia..|].
  apply (smear_step 8), (smear_step 4), (smear_step 2), (smear_step 1), smear_start; lia.
Qed.

Lemma cu_uint32_dcover_spec x : 0 <= x < 2 ^ 32 -> cu_uint32_dcover x = cover_mask x.
Proof.
  intros Hx. apply (smear_cover 32); [lia..|].
  apply (smear_step 16), (smear_step 8), (smear_step 4), (smear_step 2), (smear_step 1),
    smear_start; lia.
Qed.

Lemma cu_uint64_dcover_cover x : word x -> cu_uint64_dcover x = cover_mask x.
Proof.
  intros Hx. apply (smear_cover 64); [done|lia|].
  apply (smear_step 32), (smear_step 16), (smear_step 8), (smear_step 4), (smear_step 2),
    (smear_step 1), smear_start; lia.
Qed.

(** ** Logarithms *)

Lemma floor_log2_table_spec i :
  0 <= i < 256 -> table_at floor_log2_table i = if i =? 0 then -1 else Z.log2 i.
Proof.
  intros Hi.
  assert (H : forallb (fun k => table_at floor_log2_table (Z.of_nat k) =?
                         if Z.of_nat k =? 0 then -1 else Z.log2 (Z.of_nat k))
                (seq 0 256) = true) by (vm_compute; reflexivity).
  rewrite forallb_forall in H. specialize (H (Z.to_nat i)).
  rewrite Z2Nat.id in H by lia. apply Z.eqb_eq, H, in_seq. lia.
Qed.

(** The internal logarithms return the [unsigned int] [-1] at zero. *)
Definition log2_or_m1 (x : Z) : Z := if x =? 0 then 2 ^ 32 - 1 else Z.log2 x.

Lemma uint8_floor_log2_spec x : 0 <= x < 2 ^ 8 -> uint8_floor_log2 x = log2_or_m1 x.
Proof.
  intros Hx. unfold uint8_floor_log2, log2_or_m1, uint, wrapw.
  rewrite floor_log2_table_spec by lia. destruct (Z.eqb_spec x 0) as [|Hn]; [done|].
  pose proof (Z.log2_nonneg x). assert (Z.log2 x < 8) by (apply Z.log2_lt_pow2; lia).
  apply Z.mod_small. lia.
Qed.

Lemma floor_log2_split x k w :
  0 <= k -> 2 ^ k <= x < 2 ^ w -> 0 <= w < 2 ^ 31 ->
  uint (log2_or_m1 (x >>> k) + k) = log2_or_m1 x.
Proof.
  intros Hk Hx Hw. assert (0 < 2 ^ k) by (apply Z.pow_pos_nonneg; lia).
  assert (k <= Z.log2 x) by (apply Z.log2_le_pow2; lia).
  assert (Z.log2 x < w) by (apply Z.log2_lt_pow2; lia).
  assert (0 < x >>> k).
  { rewrite Z.shiftr_div_pow2 by done. apply Z.div_str_pos. lia. }
  unfold log2_or_m1. rewrite !(proj2 (Z.eqb_neq _ _)) by lia.
  rewrite Z.log2_shiftr, Z.max_r by lia. unfold uint, wrapw.
  rewrite Z.mod_small by lia. lia.
Qed.

Lemma shiftr_bound k v x : 0 <= k -> 0 <= v -> 0 <= x < 2 ^ (k + v) -> 0 <= x >>> k < 2 ^ v.
Proof.
  intros Hk Hv Hx. split; [apply Z.shiftr_nonneg; lia|].
  rewrite Z.shiftr_div_pow2 by lia. apply Z.div_lt_upper_bound.
  - apply Z.pow_pos_nonneg; lia.
  - rewrite <- Z.pow_add_r by lia. lia.
Qed.

Lemma uint16_floor_log2_spec x : 0 <= x < 2 ^ 16 -> uint16_floor_log2 x = log2_or_m1 x.
Proof.
  intros Hx. unfold uint16_floor_log2. destruct (Z.leb_spec 0x100 x).
  - rewrite uint8_floor_log2_spec by (apply (shiftr_bound 8 8); simpl; lia).
    apply (floor_log2_split x 8 16); lia.
  - apply uint8_floor_log2_spec. lia.
Qed.

Lemma uint32_floor_log2_spec x : 0 <= x < 2 ^ 32 -> uint32_floor_log2 x = log2_or_m1 x.
Proof.
  intros Hx. unfold uint32_floor_log2. destruct (Z.leb_spec 0x10000 x).
  - rewrite uint16_floor_log2_spec by (apply (shiftr_bound 16 16); simpl; lia).
    apply (floor_log2_split x 16 32); lia.
  - apply uint16_floor_log2_spec. lia.
Qed.

Lemma uint64_floor_log2_spec x : word x -> uint64_floor_log2 x = log2_or_m1 x.
Proof.
  intros Hx. unfold uint64_floor_log2. destruct (Z.leb_spec 0x100000000 x).
  - rewrite uint32_floor_log2_spec by (apply (shiftr_bound 32 32); [lia|lia|done]).
    apply (floor_log2_split x 32 64); unfold word in *; lia.
  - apply uint32_floor_log2_spec. unfold word in *. lia.
Qed.

Lemma cu_word_floor_log2_spec x : word x -> x <> 0 -> cu_word_floor_log2 x = Z.log2 x.
Proof.
  intros Hx Hn. unfold cu_word_floor_log2, cu_uint64_floor_log2.
  rewrite uint64_floor_log2_spec by done. unfold log2_or_m1.
  by rewrite (proj2 (Z.eqb_neq _ _)).
Qed.

Lemma cu_ulong_floor_log2_word x : cu_ulong_floor_log2 x = cu_word_floor_log2 x.
Proof. unfold cu_ulong_floor_log2, cu_word_floor_log2. reflexivity. Qed.

(** ** Lowest bit *)

Lemma log2_lowbit_odd b m :
  0 <= b -> word ((2 * m + 1) * 2 ^ b) -> cu_uint64_log2_lowbit ((2 * m + 1) * 2 ^ b) = b.
Proof.
  intros Hb Hx. set (x := (2 * m + 1) * 2 ^ b) in *.
  assert (x <> 0).
  { subst x. intros [|]%Z.eq_mul_0; [lia|]. pose proof (pow2_pos b Hb). lia. }
  unfold word in Hx. unfold cu_uint64_log2_lowbit, wsub.
  rewrite wrap_small by (unfold word; lia). unfold wnot. subst x.
  rewrite (lowbit_lzeros b m Hb 64) by lia.
  assert (b < 64) by by apply (lowbit_lt b m).
  rewrite cu_uint64_bit_count_popcount, popcount_ones; [done|lia|].
  rewrite Z.ones_equiv. unfold word.
  assert (2 ^ b < 2 ^ 64) by (apply Z.pow_lt_mono_r; lia).
  pose proof (pow2_pos b Hb). lia.
Qed.

Lemma cu_word_log2_lowbit_spec x :
  word x -> x <> 0 ->
  0 <= cu_word_log2_lowbit x < 64 /\ Z.testbit x (cu_word_log2_lowbit x) = true /\
  forall i, i < cu_word_log2_lowbit x -> Z.testbit x i = false.
Proof.
  intros Hx Hn. unfold cu_word_log2_lowbit.
  destruct (lowbit_decomp x) as (b & m & Hb & Hm & E); [unfold word in Hx; lia|].
  assert (Hl : cu_uint64_log2_lowbit x = b) by (subst x; by apply log2_lowbit_odd).
  assert (Ht : Z.testbit x b = true).
  { rewrite E, lowbit_testbit, Z.ltb_irrefl, Z.eqb_refl by lia. done. }
  rewrite Hl. split_and!; [done| |done|].
  - destruct (Z.lt_ge_cases b 64); [done|]. by rewrite testbit_word_high in Ht.
  - intros i Hi. destruct (Z.lt_ge_cases i 0); [by apply Z.testbit_neg_r|].
    rewrite E, lowbit_testbit by lia. by rewrite (proj2 (Z.ltb_lt i b)).
Qed.

(** ** Powers of two *)

Lemma wsub_1 x : word x -> x <> 0 -> wsub x 1 = x - 1.
Proof. unfold word, wsub. intros. rewrite wrap_small; [done|]. unfold word. lia. Qed.

Lemma log2_pred_up x : 1 < x -> Z.log2_up x = Z.log2 (x - 1) + 1.
Proof. intros. rewrite Z.log2_up_eqn by lia. by rewrite <- Z.sub_1_r. Qed.

Lemma cover_pred_exp2 x : 0 < x -> cover_mask (x - 1) + 1 = 2 ^ Z.log2_up x.
Proof.
  intros Hx. unfold cover_mask. destruct (Z.eqb_spec (x - 1) 0) as [E|].
  - by replace x with 1 by lia.
  - rewrite log2_pred_up by lia. lia.
Qed.

Lemma cu_size_ceil_div_spec n m :
  0 < m -> 0 <= n -> n + m - 1 < 2 ^ 64 ->
  cu_size_ceil_div n m = - ((- n) / m).
Proof.
  intros Hm Hn Hb. unfold cu_size_ceil_div. rewrite wrap_small by (unfold word; lia).
  symmetry. apply Z.opp_inj. rewrite Z.opp_involutive.
  symmetry. apply Z.div_unique with (r := m - 1 - (n + m - 1) mod m).
  - left. pose proof (Z.mod_pos_bound (n + m - 1) m Hm). lia.
  - pose proof (Z.div_mod (n + m - 1) m). lia.
Qed.

(** The least [k] with [n <= k m]. *)
Lemma cu_size_ceil_div_least n m :
  0 < m -> 0 <= n -> n + m - 1 < 2 ^ 64 ->
  let k := cu_size_ceil_div n m in (k - 1) * m < n <= k * m.
Proof.
  intros Hm Hn Hb. rewrite cu_size_ceil_div_spec by done. cbn zeta.
  pose proof (Z.div_mod (- n) m). pose proof (Z.mod_pos_bound (- n) m Hm). nia.
Qed.

Lemma cu_size_exp2floor_spec n : word n -> n <> 0 -> cu_size_exp2floor n = 2 ^ Z.log2 n.
Proof.
  intros Hw Hn. unfold cu_size_exp2floor, cu_size_dcover, wadd.
  rewrite cu_uint64_dcover_cover, cover_mask_ones by (unfold word in *; lia).
  unfold word in *. pose proof (Z.log2_nonneg n).
  assert (Z.log2 n < 64) by (apply Z.log2_lt_pow2; lia).
  rewrite Z.shiftr_div_pow2, Z.ones_equiv, pow2_succ by lia.
  assert (0 < 2 ^ Z.log2 n < 2 ^ 64).
  { split; [apply pow2_pos; lia|]. apply Z.pow_lt_mono_r; lia. }
  replace (Z.pred (2 * 2 ^ Z.log2 n)) with (1 + (2 ^ Z.log2 n - 1) * 2 ^ 1) by lia.
  rewrite Z.div_add, (Z.div_small 1 (2 ^ 1)) by lia. rewrite wrap_small; unfold word; lia.
Qed.

(** ** Reverse comparison *)

Lemma cu_word_rcmp_refl w : cu_word_rcmp w w = 0.
Proof. unfold cu_word_rcmp. cbn zeta. by rewrite Z.lxor_nilpotent, Z.ltb_irrefl. Qed.

(** Two words that first differ (from the least significant bit) at bit [b] are
    ordered by that bit. *)
Lemma cu_word_rcmp_diff w0 w1 b :
  word w0 -> word w1 -> 0 <= b ->
  (forall i, 0 <= i < b -> Z.testbit w0 i = Z.testbit w1 i) ->
  Z.testbit w0 b = false -> Z.testbit w1 b = true ->
  cu_word_rcmp w0 w1 = -1 /\ cu_word_rcmp w1 w0 = 1.
Proof.
  intros H0 H1 Hb Heq F T. unfold cu_word_rcmp. cbn zeta.
  rewrite (Z.lxor_comm w1 w0).
  assert (Hb64 : b < 64).
  { destruct (Z.lt_ge_cases b 64); [done|]. by rewrite testbit_word_high in T. }
  assert (Hd : word (w0 ^^^ w1)) by auto with wordb.
  assert (Hl : forall i, 0 <= i < b -> Z.testbit (w0 ^^^ w1) i = false).
  { intros i Hi. rewrite Z.lxor_spec, Heq by done. apply xorb_nilpotent. }
  assert (Ht : Z.testbit (w0 ^^^ w1) b = true) by by rewrite Z.lxor_spec, F, T.
  destruct (lowbit_decomp (w0 ^^^ w1)) as (b' & m & Hb' & Hm & E).
  { destruct (Z.eq_dec (w0 ^^^ w1) 0) as [E0|]; [|unfold word in Hd; lia].
    by rewrite E0, Z.bits_0 in Ht. }
  assert (b' = b) as ->.
  { destruct (Z.lt_total b' b) as [Hlt|[|Hlt]]; [|done|].
    - assert (Z.testbit (w0 ^^^ w1) b' = true) as Hc; [|by rewrite Hl in Hc].
      by rewrite E, lowbit_testbit, Z.ltb_irrefl, Z.eqb_refl.
    - rewrite E, lowbit_testbit in Ht by lia. by rewrite (proj2 (Z.ltb_lt b b')) in Ht. }
  rewrite wsub_1 by (done || intros E0; by rewrite E0, Z.bits_0 in Ht).
  rewrite E, Z.lxor_comm, lowbit_xor_pred by done.
  assert (Hlow : (w1 &&& Z.ones (b + 1)) = (w0 &&& Z.ones (b + 1)) + 2 ^ b).
  { rewrite (Z.add_nocarry_lxor (w0 &&& Z.ones (b + 1)) (2 ^ b)).
    2: { apply Z.bits_inj'. intros i Hi. rewrite !Z.land_spec, testbit_pow2, Z.bits_0 by lia.
         destruct (Z.eqb_spec i b) as [->|]; [by rewrite F|by rewrite andb_false_r]. }
    apply Z.bits_inj'. intros i Hi. bits_rw.
    bits_split; rewrite ?andb_false_r; try done.
    - subst. by rewrite F, T.
    - by rewrite Heq, xorb_false_r by lia. }
  rewrite Hlow. pose proof (pow2_pos b Hb). split; bits_split; done.
Qed.

(** ** Properties *)

(** The table-driven bit counts return the number of one bits of their
    argument, for each of the four widths. *)
Theorem bit_count_correct :
  (forall x, 0 <= x < 2 ^ 8 -> cu_uint8_bit_count x = popcount 8 x) /\
  (forall x, 0 <= x < 2 ^ 16 -> cu_uint16_bit_count x = popcount 16 x) /\
  (forall x, 0 <= x < 2 ^ 32 -> cu_uint32_bit_count x = popcount 32 x) /\
  (forall x, 0 <= x < 2 ^ 64 -> cu_uint64_bit_count x = popcount 64 x).
Proof.
  split_and!.
  - by apply bit_count_table_spec.
  - apply cu_uint16_bit_count_spec.
  - apply cu_uint32_bit_count_spec.
  - apply cu_uint64_bit_count_popcount.
Qed.

(** The shift-or cascades return the mask of all bits up to the most
    significant one bit ([0] at [0]), for each of the four widths. *)
Theorem dcover_correct :
  (forall x, 0 <= x < 2 ^ 8 -> cu_uint8_dcover x = cover_mask x) /\
  (forall x, 0 <= x < 2 ^ 16 -> cu_uint16_dcover x = cover_mask x) /\
  (forall x, 0 <= x < 2 ^ 32 -> cu_uint32_dcover x = cover_mask x) /\
  (forall x, 0 <= x < 2 ^ 64 -> cu_uint64_dcover x = cover_mask x).
Proof.
  split_and!.
  - apply cu_uint8_dcover_spec.
  - apply cu_uint16_dcover_spec.
  - apply cu_uint32_dcover_spec.
  - apply cu_uint64_dcover_cover.
Qed.

Lemma ceil_of_floor w x :
  0 < x < 2 ^ w -> 0 <= w < 2 ^ 31 -> uint (log2_or_m1 (x - 1) + 1) = Z.log2_up x.
Proof.
  intros Hx Hw. unfold log2_or_m1. destruct (Z.eqb_spec (x - 1) 0) as [E|].
  - by replace x with 1 by lia.
  - rewrite log2_pred_up by lia. unfold uint, wrapw.
    pose proof (Z.log2_nonneg (x - 1)).
    assert (Z.log2 (x - 1) < w) by (apply Z.log2_lt_pow2; lia).
    rewrite Z.mod_small; lia.
Qed.

(** For every positive argument of 16, 32 and 64 bits the logarithms return
    the floor and the ceiling of [log2 x], [unsigned int] wrap-around of the
    internal [-1] at zero included. *)
Theorem log2_correct :
  (forall x, 0 < x < 2 ^ 16 ->
     cu_uint16_floor_log2 x = Z.log2 x /\ cu_uint16_ceil_log2 x = Z.log2_up x) /\
  (forall x, 0 < x < 2 ^ 32 ->
     cu_uint32_floor_log2 x = Z.log2 x /\ cu_uint32_ceil_log2 x = Z.log2_up x) /\
  (forall x, 0 < x < 2 ^ 64 ->
     cu_uint64_floor_log2 x = Z.log2 x /\ cu_uint64_ceil_log2 x = Z.log2_up x).
Proof.
  unfold cu_uint16_floor_log2, cu_uint32_floor_log2, cu_uint64_floor_log2,
    cu_uint16_ceil_log2, cu_uint32_ceil_log2, cu_uint64_ceil_log2.
  split_and!; intros x Hx; rewrite wsub_1 by (unfold word; lia).
  - rewrite !uint16_floor_log2_spec, (ceil_of_floor 16) by lia.
    unfold log2_or_m1. by rewrite (proj2 (Z.eqb_neq _ _)) by lia.
  - rewrite !uint32_floor_log2_spec, (ceil_of_floor 32) by lia.
    unfold log2_or_m1. by rewrite (proj2 (Z.eqb_neq _ _)) by lia.
  - rewrite !uint64_floor_log2_spec, (ceil_of_floor 64) by (unfold word; lia).
    unfold log2_or_m1. by rewrite (proj2 (Z.eqb_neq _ _)) by lia.
Qed.

(** [cu_ulong_exp2_ceil_log2] is the least power of two not below its
    argument up to [2 ^ 63]; above, and at zero, the sum wraps to zero. *)
Theorem exp2_ceil_log2_correct x :
  0 <= x < 2 ^ 64 ->
  cu_ulong_exp2_ceil_log2 x = if (0 <? x) && (x <=? 2 ^ 63) then 2 ^ Z.log2_up x else 0.
Proof.
  intros Hx. unfold cu_ulong_exp2_ceil_log2, cu_ulong_dcover.
  destruct (Z.ltb_spec 0 x) as [Hp|Hz]; simpl.
  2: { by replace x with 0 by lia. }
  rewrite wsub_1, cu_uint64_dcover_cover by (unfold word; lia).
  unfold wadd. rewrite cover_pred_exp2 by lia.
  destruct (Z.leb_spec x (2 ^ 63)) as [Hle|Hgt].
  - assert (Z.log2_up x <= 63) by (apply Z.log2_up_le_pow2; lia).
    apply wrap_small. split; [apply Z.pow_nonneg; lia|]. apply Z.pow_lt_mono_r; lia.
  - assert (63 < Z.log2_up x) by (apply Z.log2_up_lt_pow2; lia).
    assert (Z.log2_up x <= 64) by (apply Z.log2_up_le_pow2; lia).
    by replace (Z.log2_up x) with 64 by lia.
Qed.
