(* ===== verification/BoolFun.v ===== *)
(** * Enumerated boolean functions: [cu/bool.h], [cu/bool.c], [cu/word.c]

    A [cu_bool1f_t] or [cu_bool2f_t] is the integer whose bit [x + 2 y] is the
    value of the function at [(x, y)].  [cu_bool_t] is [bool]; [!!x] is
    [Z.b2z x]. *)

From S2P Require Export Bits.

(** ** The enumerations *)

Abbreviation CU_BOOL1F_FALSE := 0x0.
Abbreviation CU_BOOL1F_TRUE := 0x3.
Abbreviation CU_BOOL1F_IDENT := 0x2.
Abbreviation CU_BOOL1F_NOT := 0x1.

Abbreviation CU_BOOL2F_FALSE := 0x0.
Abbreviation CU_BOOL2F_TRUE := 0xf.
Abbreviation CU_BOOL2F_LEFT := 0xa.
Abbreviation CU_BOOL2F_RIGHT := 0xc.
Abbreviation CU_BOOL2F_NOT_LEFT := 0x5.
Abbreviation CU_BOOL2F_NOT_RIGHT := 0x3.
Abbreviation CU_BOOL2F_NOR := 0x1.
Abbreviation CU_BOOL2F_XOR := 0x6.
Abbreviation CU_BOOL2F_NAND := 0x7.
Abbreviation CU_BOOL2F_AND := 0x8.
Abbreviation CU_BOOL2F_IFF := 0x9.
Abbreviation CU_BOOL2F_OR := 0xe.
Abbreviation CU_BOOL2F_AND_NOT := 0x2.
Abbreviation CU_BOOL2F_NOT_AND := 0x4.
Abbreviation CU_BOOL2F_OR_NOT := 0xb.
Abbreviation CU_BOOL2F_NOT_OR := 0xd.

(** ** Operations *)

Definition cu_bool_cmp (x y : bool) : Z :=
  if x then (if y then 0 else 1) else (if y then -1 else 0).

(** [switch (f)]; [None] is [cu_debug_unreachable]. *)
Definition cu_bool1f_to_func (f : Z) : option (bool -> bool) :=
  match f with
  | CU_BOOL1F_FALSE => Some (fun _ => false)
  | CU_BOOL1F_IDENT => Some (fun x => x)
  | CU_BOOL1F_NOT => Some (fun x => negb x)
  | CU_BOOL1F_TRUE => Some (fun _ => true)
  | _ => None
  end.

Definition cu_bool1f_from_func (f : bool -> bool) : Z :=
  let yF := if f false then 1 else 0 in
  let yT := if f true then 2 else 0 in
  yF + yT.

Definition cu_bool1f_apply (f : Z) (x : bool) : bool :=
  negb (((f >>> Z.b2z x) &&& 1) =? 0).

Definition cu_bool1f_konst (x : bool) : Z := 3 * Z.b2z x.

Definition cu_bool1f_not (f : Z) : Z := Z.lnot f &&& 0x3.

Definition cu_bool1f_compose (f g : Z) : Z :=
  (3 * (f &&& 1) &&& Z.lnot g) ||| (3 * ((f &&& 2) >>> 1) &&& g).

(** The table [_b2f_arr] of bool.c. *)
Definition b2f_arr : list (bool -> bool -> bool) :=
  [ (fun _ _ => false); (fun x y => negb (x || y)); (fun x y => x && negb y);
    (fun _ y => negb y); (fun x y => negb x && y); (fun x _ => negb x);
    (fun x y => negb (Bool.eqb (negb x) (negb y))); (fun x y => negb (x && y));
    (fun x y => x && y); (fun x y => Bool.eqb (negb x) (negb y)); (fun x _ => x);
    (fun x y => x || negb y); (fun _ y => y); (fun x y => negb x || y);
    (fun x y => x || y); (fun _ _ => true) ].

Definition cu_bool2f_to_func (f : Z) : option (bool -> bool -> bool) :=
  nth_error b2f_arr (Z.to_nat f).

Definition cu_bool2f_from_func (f : bool -> bool -> bool) : Z :=
  let r := if f false false then 1 else 0 in
  let r := r ||| if f true false then 2 else 0 in
  let r := r ||| if f false true then 4 else 0 in
  let r := r ||| if f true true then 8 else 0 in
  r.

Definition cu_bool2f_apply (f : Z) (x y : bool) : bool :=
  negb (((f >>> (Z.b2z x ||| 2 * Z.b2z y)) &&& 1) =? 0).

Definition cu_bool2f_apply_left (f : Z) (x : bool) : Z :=
  let i := f >>> Z.b2z x in (i &&& 1) ||| (i >>> 1 &&& 2).

Definition cu_bool2f_apply_right (f : Z) (y : bool) : Z :=
  (f >>> (2 * Z.b2z y)) &&& 3.

Definition cu_bool2f_konst (v : bool) : Z := if v then 15 else 0.

Definition cu_bool2f_not (f : Z) : Z := Z.lnot f &&& 0xf.

Definition cu_bool2f_not_left (f : Z) : Z := (f &&& 5) <<< 1 ||| (f &&& 10) >>> 1.

Definition cu_bool2f_not_right (f : Z) : Z := f >>> 2 ||| (f &&& 3) <<< 2.

Definition cu_bool2f_swap (f : Z) : Z :=
  (f &&& 9) ||| (f &&& 2) <<< 1 ||| (f &&& 4) >>> 1.

Definition cu_bool2f_compose (f g : Z) : Z :=
  (15 * (f &&& 1) &&& Z.lnot g) ||| (15 * ((f &&& 2) >>> 1) &&& g).

Definition cu_bool2f_compose_left (f g : Z) : Z :=
  let gg := g ||| g <<< 2 in
  let fL := f &&& 5 in
  let fH := f >>> 1 &&& 5 in
  (3 * fL &&& Z.lnot gg) ||| (3 * fH &&& gg).

Definition cu_bool2f_compose_right (f g : Z) : Z :=
  let gg := 3 * (g + (g &&& 2)) in
  let fL := f &&& 3 in
  let fH := f >>> 2 in
  (5 * fL &&& Z.lnot gg) ||| (5 * fH &&& gg).

(** ** Images of words ([cu/word.h], [cu/word.c]) *)

Definition cu_word_bitimg (f x : Z) : Z :=
  if negb ((f &&& 1) =? 0) then (if negb ((f &&& 2) =? 0) then wnot 0 else wnot x)
  else (if negb ((f &&& 2) =? 0) then x else 0).

(** [None] is [cu_debug_unreachable]. *)
Definition cu_word_bitimg2 (f x y : Z) : option Z :=
  let '(not_r, f) := if 8 <=? f then (true, 15 - f) else (false, f) in
  let r :=
    match f with
    | CU_BOOL2F_FALSE => Some 0
    | CU_BOOL2F_NOR => Some (wnot x &&& wnot y)
    | CU_BOOL2F_AND_NOT => Some (x &&& wnot y)
    | CU_BOOL2F_NOT_RIGHT => Some (wnot y)
    | CU_BOOL2F_NOT_AND => Some (wnot x &&& y)
    | CU_BOOL2F_NOT_LEFT => Some (wnot x)
    | CU_BOOL2F_XOR => Some (x ^^^ y)
    | CU_BOOL2F_NAND => Some (wnot (x &&& y))
    | _ => None
    end in
  match r with
  | Some r => Some (if not_r then wnot r else r)
  | None => None
  end.

(** ** Specification and lemmas *)

(** The function a code stands for. *)
Definition fun1 (f : Z) (x : bool) : bool := Z.testbit f (Z.b2z x).
Definition fun2 (f : Z) (x y : bool) : bool := Z.testbit f (Z.b2z x + 2 * Z.b2z y).

Definition code1 (f : Z) : Prop := 0 <= f < 4.
Definition code2 (f : Z) : Prop := 0 <= f < 16.

(** Case analysis on a code. *)
Ltac code_cases H :=
  let Hc := fresh "Hc" in
  match type of H with
  | code1 ?f =>
      assert (f = 0 \/ f = 1 \/ f = 2 \/ f = 3) as Hc by (unfold code1 in H; lia);
      clear H; destruct_or! Hc; subst f
  | code2 ?f =>
      assert (f = 0 \/ f = 1 \/ f = 2 \/ f = 3 \/ f = 4 \/ f = 5 \/ f = 6 \/ f = 7 \/
              f = 8 \/ f = 9 \/ f = 10 \/ f = 11 \/ f = 12 \/ f = 13 \/ f = 14 \/ f = 15)
        as Hc by (unfold code2 in H; lia);
      clear H; destruct_or! Hc; subst f
  end.

Lemma cu_bool1f_apply_spec f x : code1 f -> cu_bool1f_apply f x = fun1 f x.
Proof. intros Hf. code_cases Hf; by destruct x. Qed.

Lemma cu_bool2f_apply_spec f x y : code2 f -> cu_bool2f_apply f x y = fun2 f x y.
Proof. intros Hf. code_cases Hf; by destruct x, y. Qed.

Lemma cu_bool2f_swap_spec f x y :
  code2 f -> code2 (cu_bool2f_swap f) /\ fun2 (cu_bool2f_swap f) x y = fun2 f y x.
Proof. intros Hf. unfold code2. code_cases Hf; by destruct x, y. Qed.

Lemma cu_word_bitimg_testbit f x i :
  code1 f -> word x -> 0 <= i < 64 ->
  Z.testbit (cu_word_bitimg f x) i = fun1 f (Z.testbit x i).
Proof.
  intros Hf Hx Hi. code_cases Hf; unfold cu_word_bitimg; simpl;
    rewrite ?testbit_wnot, ?Z.bits_0; bits_split; by destruct (Z.testbit x i).
Qed.

(** ** Properties *)

(** Every constructor of the boolean-function calculus denotes the function
    its documentation gives: application, partial application, negation of the
    result or of an argument, argument swap and the three compositions agree
    with the pointwise operation on all sixteen (four) codes and all arguments. *)
Theorem bool2f_algebra_correct f g h x y :
  code2 f -> code1 g -> code1 h ->
  cu_bool2f_apply f x y = fun2 f x y /\
  fun1 (cu_bool2f_apply_left f x) y = fun2 f x y /\
  fun1 (cu_bool2f_apply_right f y) x = fun2 f x y /\
  fun2 (cu_bool2f_not f) x y = negb (fun2 f x y) /\
  fun2 (cu_bool2f_not_left f) x y = fun2 f (negb x) y /\
  fun2 (cu_bool2f_not_right f) x y = fun2 f x (negb y) /\
  fun2 (cu_bool2f_swap f) x y = fun2 f y x /\
  fun2 (cu_bool2f_compose g f) x y = fun1 g (fun2 f x y) /\
  fun2 (cu_bool2f_compose_left f g) x y = fun2 f (fun1 g x) y /\
  fun2 (cu_bool2f_compose_right f g) x y = fun2 f x (fun1 g y) /\
  fun1 (cu_bool1f_compose g h) x = fun1 g (fun1 h x).
Proof.
  intros Hf Hg Hh.
  code_cases Hg; code_cases Hh; code_cases Hf; destruct x, y; vm_compute; split_and!; done.
Qed.

(** C35: Sampling a boolean function and converting the code back yields the same
    function, and [cu_bool2f_from_func] inverts [cu_bool2f_to_func] on every code. *)
Theorem bool2f_roundtrip :
  (forall f x y, exists g, cu_bool2f_to_func (cu_bool2f_from_func f) = Some g /\ g x y = f x y) /\
  (forall c, code2 c -> exists g, cu_bool2f_to_func c = Some g /\ cu_bool2f_from_func g = c).
Proof.
  split.
  - intros f x y. unfold cu_bool2f_from_func.
    destruct (f false false) eqn:E0, (f true false) eqn:E1, (f false true) eqn:E2,
      (f true true) eqn:E3; (eexists; split; [reflexivity|]);
      destruct x, y; rewrite ?E0, ?E1, ?E2, ?E3; done.
  - intros c Hc. code_cases Hc; eexists; (split; [reflexivity|]); done.
Qed.

(** [cu_word_bitimg2] is defined on every code and applies the function it
    denotes to each of the 64 pairs of bits. *)
Theorem word_bitimg2_correct f x y :
  code2 f -> word x -> word y ->
  exists r, cu_word_bitimg2 f x y = Some r /\ word r /\
    forall i, 0 <= i < 64 -> Z.testbit r i = fun2 f (Z.testbit x i) (Z.testbit y i).
Proof.
  intros Hf Hx Hy. code_cases Hf; cbn -[wnot Z.land Z.lxor]; eexists;
    (split; [reflexivity|]); (split; [by auto 6 with wordb|]); intros i Hi;
    rewrite ?testbit_wnot, ?Z.land_spec, ?Z.lxor_spec, ?testbit_wnot, ?Z.land_spec, ?Z.lxor_spec,
      ?testbit_wnot, ?Z.bits_0;
    bits_split; by destruct (Z.testbit x i), (Z.testbit y i).
Qed.
