(* ===== verification/Mem.v ===== *)
(** * A block memory of words

    Arrays of [cu_word_t] are blocks of a memory; a pointer is a block with an
    offset counted in words.  An access outside a block is [None], so a function
    that returns [Some] made no out-of-bounds access.  Distinct blocks never
    overlap and a block may be reached through several pointers, which is how
    the aliasing of source and destination arrays is expressed. *)

From stdpp Require Export gmap.
From S2P Require Export Prelude.

Record ptr := Ptr { blk : N; off : nat }.
Abbreviation mem := (gmap N (list Z)).

Create HintDb memdb.

Definition padd (p : ptr) (n : nat) : ptr := Ptr (blk p) (off p + n).

Definition load (m : mem) (p : ptr) : option Z := m !! blk p ≫= (.!! off p).

Definition store (m : mem) (p : ptr) (v : Z) : option mem :=
  l ← m !! blk p;
  if decide (off p < length l)%nat then Some (<[blk p := <[off p := v]> l]> m) else None.

(** Sequences of accesses at increasing addresses. *)
Fixpoint load_n (m : mem) (p : ptr) (n : nat) : option (list Z) :=
  match n with
  | O => Some []
  | S n' => w ← load m p; ws ← load_n m (padd p 1) n'; Some (w :: ws)
  end.

Fixpoint store_n (m : mem) (p : ptr) (ws : list Z) : option mem :=
  match ws with
  | [] => Some m
  | w :: ws' => m' ← store m p w; store_n m' (padd p 1) ws'
  end.

(** A forward loop that writes at [dst] what it computed from [src] reads only
    words it has not overwritten. *)
Definition no_clobber (dst src : ptr) : Prop :=
  blk dst <> blk src \/ (off dst <= off src)%nat.

#[global] Instance no_clobber_dec dst src : Decision (no_clobber dst src).
Proof. unfold no_clobber. apply _. Defined.

Lemma no_clobber_padd dst src : no_clobber dst src -> no_clobber (padd dst 1) (padd src 1).
Proof. unfold no_clobber, padd. simpl. intros [?|?]; [by left|right; lia]. Qed.

Lemma no_clobber_refl p : no_clobber p p.
Proof. by right. Qed.

#[export] Hint Resolve no_clobber_padd no_clobber_refl : memdb.

Lemma padd_padd p a b : padd (padd p a) b = padd p (a + b).
Proof. unfold padd. simpl. f_equal. lia. Qed.

Lemma padd_0 p : padd p 0 = p.
Proof. unfold padd. destruct p. simpl. f_equal. lia. Qed.

(** A store does not change the words at other addresses. *)
Lemma load_store_ne m m' p q v :
  store m p v = Some m' -> blk p <> blk q \/ off p <> off q -> load m' q = load m q.
Proof.
  unfold store, load. intros H Hne.
  destruct (m !! blk p) as [l|] eqn:El; simpl in H; [|done].
  case_decide; simplify_eq.
  destruct (decide (blk p = blk q)) as [Eb|Nb].
  - rewrite Eb, lookup_insert_eq. rewrite <- Eb, El. simpl.
    rewrite list_lookup_insert_ne; [done|]. destruct Hne; [done|lia].
  - by rewrite lookup_insert_ne.
Qed.

Lemma load_store_eq m m' p v : store m p v = Some m' -> load m' p = Some v.
Proof.
  unfold store, load. intros H.
  destruct (m !! blk p) as [l|] eqn:El; simpl in H; [|done].
  case_decide; simplify_eq. rewrite lookup_insert_eq. simpl.
  by rewrite list_lookup_insert_eq.
Qed.

Lemma load_n_store m m' p q v n :
  store m p v = Some m' -> blk p <> blk q \/ (off p < off q)%nat ->
  load_n m' q n = load_n m q n.
Proof.
  intros Hs. revert q. induction n as [|n IH]; intros q Hne; simpl; [done|].
  rewrite (load_store_ne _ _ _ _ _ Hs) by (destruct Hne; [by left|right; lia]).
  by rewrite IH by (unfold padd; simpl; destruct Hne; [by left|right; lia]).
Qed.

(** The words a loop has still to read survive the store it just made. *)
Lemma load_n_after m m' dst src v n :
  store m dst v = Some m' -> no_clobber dst src ->
  load_n m' (padd src 1) n = load_n m (padd src 1) n.
Proof.
  intros Hs Hc. apply (load_n_store _ _ _ _ _ _ Hs). unfold padd. simpl.
  destruct Hc; [by left|right; lia].
Qed.

Lemma load_n_length m p n ws : load_n m p n = Some ws -> length ws = n.
Proof.
  revert p ws. induction n as [|n IH]; intros p ws H; simpl in H; [by simplify_eq|].
  destruct (load m p); simpl in H; [|done].
  destruct (load_n m (padd p 1) n) eqn:E; simpl in H; simplify_eq. simpl. f_equal. eauto.
Qed.

Lemma load_n_cons m p n ws :
  load_n m p (S n) = Some ws ->
  exists w ws', ws = w :: ws' /\ load m p = Some w /\ load_n m (padd p 1) n = Some ws'.
Proof.
  simpl. destruct (load m p) as [w|]; simpl; [|done].
  destruct (load_n m (padd p 1) n) as [ws'|]; simpl; [|done].
  intros [= <-]. by exists w, ws'.
Qed.

(** [p] points to [n] words that can be read, hence written. *)
Definition valid (m : mem) (p : ptr) (n : nat) : Prop := is_Some (load_n m p n).

#[global] Instance valid_dec m p n : Decision (valid m p n).
Proof. unfold valid. apply _. Defined.

Lemma load_store m p v : is_Some (load m p) -> is_Some (store m p v).
Proof.
  unfold load, store. intros [w Hw]. destruct (m !! blk p) as [l|]; simpl in *; [|done].
  rewrite decide_True; [by eexists|]. by apply lookup_lt_Some in Hw.
Qed.

Lemma valid_store m m' p q v n : store m p v = Some m' -> valid m q n -> valid m' q n.
Proof.
  intros Hs. unfold valid. revert q. induction n as [|n IH]; intros q Hv; simpl; [by eexists|].
  destruct Hv as [ws Hv]. apply load_n_cons in Hv as (w & ws' & -> & Hw & Hv).
  destruct (IH (padd q 1)) as [x ->]; [by eexists|].
  assert (is_Some (load m' q)) as [y ->]; [|by eexists].
  destruct (decide (blk p = blk q /\ off p = off q)) as [[Eb Eo]|Hne].
  - destruct p, q; simpl in *; subst. eexists. by apply load_store_eq in Hs.
  - rewrite (load_store_ne _ _ _ _ _ Hs); [by eexists|]. destruct (decide (blk p = blk q)); naive_solver.
Qed.

(** Storing a sequence of words where there is room: the words are there
    afterwards, and every other address keeps its word. *)
Lemma store_n_spec m p ws :
  valid m p (length ws) ->
  exists m', store_n m p ws = Some m' /\ load_n m' p (length ws) = Some ws /\
    forall q, blk q <> blk p \/ (off q < off p)%nat \/ (off p + length ws <= off q)%nat ->
      load m' q = load m q.
Proof.
  revert m p. induction ws as [|w ws IH]; intros m p Hv; simpl.
  { exists m. naive_solver. }
  assert (Hv' := Hv). destruct Hv' as [old Ho].
  apply load_n_cons in Ho as (x & old' & -> & Hx & Ho).
  destruct (load_store m p w) as [m1 Hs]; [by eexists|]. rewrite Hs. simpl.
  destruct (IH m1 (padd p 1)) as (m' & -> & Hl & Hfr).
  { apply (valid_store _ _ _ _ _ _ Hs). by eexists. }
  exists m'. split_and!; [done| |].
  - rewrite (Hfr p) by (right; left; simpl; lia). rewrite (load_store_eq _ _ _ _ Hs). simpl.
    by rewrite Hl.
  - intros q Hq. rewrite Hfr by (simpl; destruct_or! Hq; auto with lia).
    apply (load_store_ne _ _ _ _ _ Hs). destruct_or! Hq; auto with lia.
Qed.

(** ** Arrays of words as arrays of bits *)

(** Bit [i] of the array: bit [i % 64] of word [i / 64]. *)
Definition bitz (ws : list Z) (i : Z) : bool :=
  Z.testbit (nth (Z.to_nat (i / 64)) ws 0) (i mod 64).

(** Every index is a word number and a bit number. *)
Lemma bitz_split ws k j :
  0 <= j < 64 -> bitz ws (64 * Z.of_nat k + j) = Z.testbit (nth k ws 0) j.
Proof.
  intros Hj. unfold bitz.
  rewrite (Z.mul_comm 64), Z.div_add_l, Z.div_small, Z.add_0_r, Nat2Z.id by lia.
  by rewrite Z.add_comm, Z.mod_add, Z.mod_small by lia.
Qed.

Lemma index_split i : 0 <= i -> exists k j, i = 64 * Z.of_nat k + j /\ 0 <= j < 64.
Proof.
  intros Hi. exists (Z.to_nat (i / 64)), (i mod 64).
  rewrite Z2Nat.id by (apply Z.div_pos; lia).
  split; [apply Z.div_mod; lia|apply Z.mod_pos_bound; lia].
Qed.

(** ** Blocks as lists of words *)

Lemma load_block m p ws : m !! blk p = Some ws -> load m p = ws !! off p.
Proof. intros Hm. unfold load. by rewrite Hm. Qed.

Lemma store_block m p ws v :
  m !! blk p = Some ws -> (off p < length ws)%nat ->
  store m p v = Some (<[blk p := <[off p := v]> ws]> m).
Proof. intros Hm Ho. unfold store. rewrite Hm. simpl. by rewrite decide_True. Qed.

Lemma load_n_block m p ws n :
  m !! blk p = Some ws -> (off p + n <= length ws)%nat ->
  load_n m p n = Some (take n (drop (off p) ws)).
Proof.
  revert p. induction n as [|n IH]; intros p Hm Hn; simpl; [done|].
  rewrite (load_block _ _ _ Hm), (IH (padd p 1)) by (simpl; done || lia).
  destruct (lookup_lt_is_Some_2 ws (off p)) as [w Hw]; [lia|].
  rewrite Hw. simpl. rewrite (drop_S ws w (off p)) by done. simpl.
  by rewrite Nat.add_1_r.
Qed.

Lemma store_n_block m p ws vs :
  m !! blk p = Some ws -> (off p + length vs <= length ws)%nat ->
  store_n m p vs = Some (<[blk p := take (off p) ws ++ vs ++ drop (off p + length vs) ws]> m).
Proof.
  revert m p ws. induction vs as [|v vs IH]; intros m p ws Hm Hn; simpl in *.
  { rewrite Nat.add_0_r, take_drop. f_equal. symmetry. by apply insert_id. }
  rewrite (store_block _ _ ws) by (done || lia). simpl.
  rewrite (IH _ (padd p 1) (<[off p := v]> ws)).
  2: { simpl. by rewrite lookup_insert_eq. }
  2: { simpl. rewrite length_insert. lia. }
  simpl. rewrite insert_insert_eq. do 2 f_equal.
  rewrite drop_insert_lt by lia.
  rewrite Nat.add_1_r, (take_S_r _ _ v) by (apply list_lookup_insert_eq; lia).
  rewrite take_insert_ge by lia. rewrite <- app_assoc. simpl. do 3 f_equal. f_equal. lia.
Qed.
