(* ===== verification/Wordarr.v ===== *)
(** * Arrays of words: [cu/wordarr.h], [cu/wordarr.c]

    The functions read and write a block memory ([Mem]).  Each
    [while (count--) *dst++ = ...] loop is an instance of one of five loop
    schemes, which differ in how the operands are fetched: a constant, one
    array, two arrays, an array read at a bit offset, and the combinations of
    the latter.  [None] is an access outside an array, or a code that reaches
    [cu_debug_unreachable]. *)

From S2P Require Export Mem BoolFun.

(** ** Loop schemes *)

(** [while (count--) *dst++ = val;] *)
Fixpoint cu_wordarr_fill (count : nat) (dst : ptr) (val : Z) (m : mem) : option mem :=
  match count with
  | O => Some m
  | S count => m ← store m dst val; cu_wordarr_fill count (padd dst 1) val m
  end.

(** [while (count--) *dst++ = g( *src++ );] *)
Fixpoint map_loop (g : Z -> Z) (count : nat) (dst src : ptr) (m : mem) : option mem :=
  match count with
  | O => Some m
  | S count =>
      x ← load m src;
      m ← store m dst (g x);
      map_loop g count (padd dst 1) (padd src 1) m
  end.

(** [while (count--) *dst++ = g( *left++, *right++ );] *)
Fixpoint zip_loop (g : Z -> Z -> Z) (count : nat) (dst left right : ptr) (m : mem)
    : option mem :=
  match count with
  | O => Some m
  | S count =>
      x ← load m left;
      y ← load m right;
      m ← store m dst (g x y);
      zip_loop g count (padd dst 1) (padd left 1) (padd right 1) m
  end.

(** [(a >> offset) | (b << (CU_WORD_WIDTH - offset))] *)
Definition funnel (offset a b : Z) : Z := a >>> offset ||| wshl b (WIDTH - offset).

(** [while (count--) { b = *src++; *dst++ = g(funnel a b); a = b; }] *)
Fixpoint skew_loop (g : Z -> Z) (count : nat) (dst : ptr) (offset a : Z) (src : ptr) (m : mem)
    : option mem :=
  match count with
  | O => Some m
  | S count =>
      b ← load m src;
      m ← store m dst (g (funnel offset a b));
      skew_loop g count (padd dst 1) offset b (padd src 1) m
  end.

(** [while (count--) { b1 = *src1++; x1 = funnel a1 b1;
       *dst++ = g( *src0++, x1 ); a1 = b1; }] *)
Fixpoint semiskew_loop (g : Z -> Z -> Z) (count : nat) (dst src0 : ptr) (offset1 a1 : Z)
    (src1 : ptr) (m : mem) : option mem :=
  match count with
  | O => Some m
  | S count =>
      b1 ← load m src1;
      x0 ← load m src0;
      m ← store m dst (g x0 (funnel offset1 a1 b1));
      semiskew_loop g count (padd dst 1) (padd src0 1) offset1 b1 (padd src1 1) m
  end.

(** [while (count--) { b0 = *src0++; b1 = *src1++; x0 = ...; x1 = ...;
       *dst++ = g(x0, x1); a0 = b0; a1 = b1; }] *)
Fixpoint skew2_loop (g : Z -> Z -> Z) (count : nat) (dst : ptr) (offset0 a0 : Z) (src0 : ptr)
    (offset1 a1 : Z) (src1 : ptr) (m : mem) : option mem :=
  match count with
  | O => Some m
  | S count =>
      b0 ← load m src0;
      b1 ← load m src1;
      m ← store m dst (g (funnel offset0 a0 b0) (funnel offset1 a1 b1));
      skew2_loop g count (padd dst 1) offset0 b0 (padd src0 1) offset1 b1 (padd src1 1) m
  end.

(** ** Comparison *)

Fixpoint cu_wordarr_eq (count : nat) (arr0 arr1 : ptr) (m : mem) : option bool :=
  match count with
  | O => Some true
  | S count =>
      w0 ← load m arr0;
      w1 ← load m arr1;
      if negb (w0 =? w1) then Some false
      else cu_wordarr_eq count (padd arr0 1) (padd arr1 1) m
  end.

Fixpoint cu_wordarr_cmp (count : nat) (arr0 arr1 : ptr) (m : mem) : option Z :=
  match count with
  | O => Some 0
  | S count =>
      w0 ← load m arr0;
      w1 ← load m arr1;
      if negb (w0 =? w1) then Some (if w0 <? w1 then -1 else 1)
      else cu_wordarr_cmp count (padd arr0 1) (padd arr1 1) m
  end.

(** ** Copies and images *)

Definition cu_wordarr_copy (count : nat) (dst src : ptr) (m : mem) : option mem :=
  map_loop (fun w => w) count dst src m.

Definition cu_wordarr_copy_bitnot (count : nat) (dst src : ptr) (m : mem) : option mem :=
  map_loop wnot count dst src m.

(** A [switch] with no [default]: another code leaves the memory as it is. *)
Definition cu_wordarr_copy_bitimg (f : Z) (count : nat) (dst src : ptr) (m : mem) : option mem :=
  match f with
  | CU_BOOL1F_FALSE => cu_wordarr_fill count dst 0 m
  | CU_BOOL1F_TRUE => cu_wordarr_fill count dst (wnot 0) m
  | CU_BOOL1F_IDENT => cu_wordarr_copy count dst src m
  | CU_BOOL1F_NOT => cu_wordarr_copy_bitnot count dst src m
  | _ => Some m
  end.

Definition cu_wordarr_copy_bitimg2 (f : Z) (count : nat) (dst left right : ptr) (m : mem)
    : option mem :=
  match f with
  | CU_BOOL2F_FALSE => cu_wordarr_fill count dst 0 m
  | CU_BOOL2F_TRUE => cu_wordarr_fill count dst (wnot 0) m
  | CU_BOOL2F_LEFT => let right := left in cu_wordarr_copy count dst right m
  | CU_BOOL2F_RIGHT => cu_wordarr_copy count dst right m
  | CU_BOOL2F_NOT_LEFT => let right := left in cu_wordarr_copy_bitnot count dst right m
  | CU_BOOL2F_NOT_RIGHT => cu_wordarr_copy_bitnot count dst right m
  (* Commutative *)
  | CU_BOOL2F_NOR => zip_loop (fun x y => wnot (x ||| y)) count dst left right m
  | CU_BOOL2F_XOR => zip_loop (fun x y => x ^^^ y) count dst left right m
  | CU_BOOL2F_NAND => zip_loop (fun x y => wnot (x &&& y)) count dst left right m
  | CU_BOOL2F_AND => zip_loop (fun x y => x &&& y) count dst left right m
  | CU_BOOL2F_IFF => zip_loop (fun x y => wnot (x ^^^ y)) count dst left right m
  | CU_BOOL2F_OR => zip_loop (fun x y => x ||| y) count dst left right m
  (* Non-commutative: CU_SWAP and fall through *)
  | CU_BOOL2F_NOT_AND => zip_loop (fun x y => x &&& wnot y) count dst right left m
  | CU_BOOL2F_AND_NOT => zip_loop (fun x y => x &&& wnot y) count dst left right m
  | CU_BOOL2F_NOT_OR => zip_loop (fun x y => x ||| wnot y) count dst right left m
  | CU_BOOL2F_OR_NOT => zip_loop (fun x y => x ||| wnot y) count dst left right m
  | _ => Some m
  end.

(** ** Copies from a bit offset *)

Definition cu_wordarr_skewcopy (count : nat) (dst : ptr) (src_offset : Z) (src : ptr) (m : mem)
    : option mem :=
  if src_offset =? 0 then cu_wordarr_copy count dst src m
  else a ← load m src; skew_loop (fun x => x) count dst src_offset a (padd src 1) m.

Definition cu_wordarr_skewcopy_bitnot (count : nat) (dst : ptr) (src_offset : Z) (src : ptr)
    (m : mem) : option mem :=
  if src_offset =? 0 then cu_wordarr_copy_bitnot count dst src m
  else a ← load m src; skew_loop wnot count dst src_offset a (padd src 1) m.

Definition cu_wordarr_skewcopy_bitimg (f : Z) (count : nat) (dst : ptr) (src_offset : Z)
    (src : ptr) (m : mem) : option mem :=
  match f with
  | CU_BOOL1F_FALSE => cu_wordarr_fill count dst 0 m
  | CU_BOOL1F_TRUE => cu_wordarr_fill count dst (wnot 0) m
  | CU_BOOL1F_IDENT => cu_wordarr_skewcopy count dst src_offset src m
  | CU_BOOL1F_NOT => cu_wordarr_skewcopy_bitnot count dst src_offset src m
  | _ => Some m
  end.

Definition wordarr_semiskew_bitimg2 (f : Z) (count : nat) (dst src0 : ptr) (offset1 : Z)
    (src1 : ptr) (m : mem) : option mem :=
  a1 ← load m src1;
  let loop g := semiskew_loop g count dst src0 offset1 a1 (padd src1 1) m in
  match f with
  (* Commutative *)
  | CU_BOOL2F_NOR => loop (fun x0 x1 => wnot (x0 ||| x1))
  | CU_BOOL2F_XOR => loop (fun x0 x1 => x0 ^^^ x1)
  | CU_BOOL2F_NAND => loop (fun x0 x1 => wnot (x0 &&& x1))
  | CU_BOOL2F_AND => loop (fun x0 x1 => x0 &&& x1)
  | CU_BOOL2F_IFF => loop (fun x0 x1 => wnot (x0 ^^^ x1))
  | CU_BOOL2F_OR => loop (fun x0 x1 => x0 ||| x1)
  (* Non-commutative *)
  | CU_BOOL2F_NOT_AND => loop (fun x0 x1 => wnot x0 &&& x1)
  | CU_BOOL2F_AND_NOT => loop (fun x0 x1 => x0 &&& wnot x1)
  | CU_BOOL2F_NOT_OR => loop (fun x0 x1 => wnot x0 ||| x1)
  | CU_BOOL2F_OR_NOT => loop (fun x0 x1 => x0 ||| wnot x1)
  | _ => None
  end.

(** The binary operations with two non-zero offsets, the last [switch] of
    [cu_wordarr_skewcopy_bitimg2]. *)
Definition skewcopy_bitimg2_binary (f : Z) (count : nat) (dst : ptr) (offset0 : Z) (src0 : ptr)
    (offset1 : Z) (src1 : ptr) (m : mem) : option mem :=
  a0 ← load m src0;
  a1 ← load m src1;
  let loop g := skew2_loop g count dst offset0 a0 (padd src0 1) offset1 a1 (padd src1 1) m in
  match f with
  (* Commutative *)
  | CU_BOOL2F_NOR => loop (fun x0 x1 => wnot (x0 ||| x1))
  | CU_BOOL2F_XOR => loop (fun x0 x1 => x0 ^^^ x1)
  | CU_BOOL2F_NAND => loop (fun x0 x1 => wnot (x0 &&& x1))
  | CU_BOOL2F_AND => loop (fun x0 x1 => x0 &&& x1)
  | CU_BOOL2F_IFF => loop (fun x0 x1 => wnot (x0 ^^^ x1))
  | CU_BOOL2F_OR => loop (fun x0 x1 => x0 ||| x1)
  (* Non-commutative *)
  | CU_BOOL2F_NOT_AND => loop (fun x0 x1 => wnot x0 &&& x1)
  | CU_BOOL2F_AND_NOT => loop (fun x0 x1 => x0 &&& wnot x1)
  | CU_BOOL2F_NOT_OR => loop (fun x0 x1 => wnot x0 ||| x1)
  | CU_BOOL2F_OR_NOT => loop (fun x0 x1 => x0 ||| wnot x1)
  | _ => None
  end.

Definition cu_wordarr_skewcopy_bitimg2 (f : Z) (count : nat) (dst : ptr) (offset0 : Z)
    (src0 : ptr) (offset1 : Z) (src1 : ptr) (m : mem) : option mem :=
  (* Dispatch nullary and unary operations to corresponding functions. *)
  match f with
  | CU_BOOL2F_FALSE => cu_wordarr_fill count dst 0 m
  | CU_BOOL2F_TRUE => cu_wordarr_fill count dst (wnot 0) m
  | CU_BOOL2F_LEFT =>
      let src1 := src0 in let offset1 := offset0 in cu_wordarr_skewcopy count dst offset1 src1 m
  | CU_BOOL2F_RIGHT => cu_wordarr_skewcopy count dst offset1 src1 m
  | CU_BOOL2F_NOT_LEFT =>
      let src1 := src0 in let offset1 := offset0 in
      cu_wordarr_skewcopy_bitnot count dst offset1 src1 m
  | CU_BOOL2F_NOT_RIGHT => cu_wordarr_skewcopy_bitnot count dst offset1 src1 m
  | _ =>
      if offset0 =? 0 then
        if offset1 =? 0 then cu_wordarr_copy_bitimg2 f count dst src0 src1 m
        else wordarr_semiskew_bitimg2 f count dst src0 offset1 src1 m
      else if offset1 =? 0 then
        wordarr_semiskew_bitimg2 (cu_bool2f_swap f) count dst src1 offset0 src0 m
      else skewcopy_bitimg2_binary f count dst offset0 src0 offset1 src1 m
  end.

(** Two arrays of three words at block 0 and 1, a destination at block 2. *)
Example skewcopy_xor_ex :
  cu_wordarr_skewcopy_bitimg2 CU_BOOL2F_XOR 2 (Ptr 2 0) 4 (Ptr 0 0) 8 (Ptr 1 0)
    {[ 0%N := [0xf0; 0; 0x12]; 1%N := [0x100; 0; 0xff]; 2%N := [7; 7] ]}
  = Some {[ 0%N := [0xf0; 0; 0x12]; 1%N := [0x100; 0; 0xff];
            2%N := [0xf ^^^ 1; wshl 0x12 60 ^^^ wshl 0xff 56] ]}.
Proof. vm_compute. reflexivity. Qed.

(** ** The loops as functions on lists of words *)

Lemma no_clobber_next dst src n : no_clobber dst src -> no_clobber dst (padd src n).
Proof. unfold no_clobber, padd. simpl. intros [?|?]; [by left|right; lia]. Qed.

#[export] Hint Resolve no_clobber_next : memdb.

(** Unfold one iteration of a loop: perform the loads the hypotheses know, then
    the store, and rewrite the later loads. *)
Ltac loop_step :=
  repeat match goal with
    | H : load_n _ _ (S _) = Some _ |- _ => apply load_n_cons in H as (? & ? & -> & ? & H)
    | H : load ?m ?p = Some _ |- context [load ?m ?p] => rewrite H
    end; simpl.

Ltac loop_store :=
  match goal with
  | |- context [store ?m ?p ?v] => destruct (store m p v) as [?m|] eqn:?; simpl; [|done]
  end.

Lemma fill_spec n dst v m : cu_wordarr_fill n dst v m = store_n m dst (replicate n v).
Proof.
  revert dst m. induction n as [|n IH]; intros dst m; simpl; [done|].
  loop_store. apply IH.
Qed.

Lemma map_loop_spec g n dst src m ws :
  load_n m src n = Some ws -> no_clobber dst src ->
  map_loop g n dst src m = store_n m dst (map g ws).
Proof.
  revert dst src m ws. induction n as [|n IH]; intros dst src m ws Hl Hc.
  { simpl in *. by simplify_eq. }
  simpl. loop_step. loop_store. apply IH; by (auto with memdb || erewrite load_n_after).
Qed.

Lemma zip_loop_spec g n dst p q m xs ys :
  load_n m p n = Some xs -> load_n m q n = Some ys -> no_clobber dst p -> no_clobber dst q ->
  zip_loop g n dst p q m = store_n m dst (zip_with g xs ys).
Proof.
  revert dst p q m xs ys. induction n as [|n IH]; intros dst p q m xs ys Hp Hq Cp Cq.
  { simpl in *. by simplify_eq. }
  simpl. loop_step. loop_store. apply IH; by (auto with memdb || erewrite load_n_after).
Qed.

(** The words seen through a window that starts [offset] bits into [a]. *)
Fixpoint skew (offset a : Z) (bs : list Z) : list Z :=
  match bs with
  | [] => []
  | b :: bs => funnel offset a b :: skew offset b bs
  end.

Lemma skew_loop_spec g n dst o a src m bs :
  load_n m src n = Some bs -> no_clobber dst src ->
  skew_loop g n dst o a src m = store_n m dst (map g (skew o a bs)).
Proof.
  revert dst a src m bs. induction n as [|n IH]; intros dst a src m bs Hl Hc.
  { simpl in *. by simplify_eq. }
  simpl. loop_step. loop_store. apply IH; by (auto with memdb || erewrite load_n_after).
Qed.

Lemma semiskew_loop_spec g n dst p o a q m xs bs :
  load_n m p n = Some xs -> load_n m q n = Some bs -> no_clobber dst p -> no_clobber dst q ->
  semiskew_loop g n dst p o a q m = store_n m dst (zip_with g xs (skew o a bs)).
Proof.
  revert dst p a q m xs bs. induction n as [|n IH]; intros dst p a q m xs bs Hp Hq Cp Cq.
  { simpl in *. by simplify_eq. }
  simpl. loop_step. loop_store. apply IH; by (auto with memdb || erewrite load_n_after).
Qed.

Lemma skew2_loop_spec g n dst o0 a0 p o1 a1 q m bs0 bs1 :
  load_n m p n = Some bs0 -> load_n m q n = Some bs1 -> no_clobber dst p -> no_clobber dst q ->
  skew2_loop g n dst o0 a0 p o1 a1 q m =
    store_n m dst (zip_with g (skew o0 a0 bs0) (skew o1 a1 bs1)).
Proof.
  revert dst a0 p a1 q m bs0 bs1.
  induction n as [|n IH]; intros dst a0 p a1 q m bs0 bs1 Hp Hq Cp Cq.
  { simpl in *. by simplify_eq. }
  simpl. loop_step. loop_store. apply IH; by (auto with memdb || erewrite load_n_after).
Qed.

(** ** The bits of the results *)

Lemma length_skew o a bs : length (skew o a bs) = length bs.
Proof. revert a. induction bs as [|b bs IH]; intros a; simpl; auto. Qed.

Lemma nth_skew o a bs k :
  (k < length bs)%nat -> nth k (skew o a bs) 0 = funnel o (nth k (a :: bs) 0) (nth k bs 0).
Proof.
  revert a k. induction bs as [|b bs IH]; intros a k Hk; simpl in *; [lia|].
  destruct k as [|k]; [done|]. apply IH. lia.
Qed.

Lemma funnel_testbit o x y j :
  0 < o < 64 -> word x -> 0 <= j < 64 ->
  Z.testbit (funnel o x y) j =
    if j + o <? 64 then Z.testbit x (j + o) else Z.testbit y (j + o - 64).
Proof.
  intros Ho Hx Hj. unfold funnel, WIDTH. bits_rw. bits_split.
  - by rewrite (Z.testbit_neg_r y), orb_false_r by lia.
  - rewrite (testbit_word_high x) by (done || lia). simpl. f_equal. lia.
Qed.

Lemma nth_word (ws : list Z) k : Forall word ws -> word (nth k ws 0).
Proof.
  intros Hf. destruct (nth_in_or_default k ws 0) as [Hin| ->]; [|done].
  rewrite List.Forall_forall in Hf. by apply Hf.
Qed.

Lemma bitz_skew o a bs i :
  0 < o < 64 -> Forall word (a :: bs) -> 0 <= i < 64 * Z.of_nat (length bs) ->
  bitz (skew o a bs) i = bitz (a :: bs) (i + o).
Proof.
  intros Ho Hf Hi. destruct (index_split i) as (k & j & -> & Hj); [lia|].
  rewrite bitz_split, nth_skew by lia.
  rewrite funnel_testbit by (done || by apply nth_word).
  destruct (Z.ltb_spec (j + o) 64).
  - rewrite <- Z.add_assoc, bitz_split by lia. done.
  - replace (64 * Z.of_nat k + j + o) with (64 * Z.of_nat (S k) + (j + o - 64)) by lia.
    by rewrite bitz_split by lia.
Qed.

(** [g] is an operation on words that computes the boolean function [f] on each
    bit, or pair of bits. *)
Definition bitop1 (g : Z -> Z) (f : Z) : Prop :=
  (forall x, word x -> word (g x)) /\
  forall x i, 0 <= i < 64 -> Z.testbit (g x) i = fun1 f (Z.testbit x i).
Definition bitop2 (g : Z -> Z -> Z) (f : Z) : Prop :=
  (forall x y, word x -> word y -> word (g x y)) /\
  forall x y i, 0 <= i < 64 -> Z.testbit (g x y) i = fun2 f (Z.testbit x i) (Z.testbit y i).

Ltac solve_bitop :=
  let i := fresh "i" in let Hi := fresh "Hi" in
  unfold bitop1, bitop2; split; [by intros; auto with wordb|]; intros * Hi; bits_rw; bits_split;
  repeat match goal with |- context [Z.testbit ?x ?i] => destruct (Z.testbit x i) end;
  vm_compute; reflexivity.

Lemma bitz_map g f ws i :
  bitop1 g f -> 0 <= i < 64 * Z.of_nat (length ws) -> bitz (map g ws) i = fun1 f (bitz ws i).
Proof.
  intros Hg Hi. destruct (index_split i) as (k & j & -> & Hj); [lia|].
  rewrite !bitz_split by done. rewrite nth_indep with (d' := g 0) by (rewrite length_map; lia).
  by rewrite map_nth, (proj2 Hg).
Qed.

Lemma nth_zip_with (g : Z -> Z -> Z) xs ys k :
  (k < length xs)%nat -> (k < length ys)%nat ->
  nth k (zip_with g xs ys) 0 = g (nth k xs 0) (nth k ys 0).
Proof.
  revert xs ys. induction k as [|k IH]; intros [|x xs] [|y ys] Hx Hy; simpl in *; try lia; auto.
  apply IH; lia.
Qed.

Lemma bitz_zip g f xs ys i :
  bitop2 g f -> 0 <= i < 64 * Z.of_nat (length xs) -> length ys = length xs ->
  bitz (zip_with g xs ys) i = fun2 f (bitz xs i) (bitz ys i).
Proof.
  intros Hg Hi El. destruct (index_split i) as (k & j & -> & Hj); [lia|].
  rewrite !bitz_split by done. rewrite nth_zip_with by lia. by apply (proj2 Hg).
Qed.

(** ** Windows

    An operand read from bit offset [o]: [slack o] is the number of words beyond
    [count] it occupies. *)

Definition slack (o : Z) : nat := if o =? 0 then 0%nat else 1%nat.

Definition window (o : Z) (ws : list Z) : list Z :=
  if o =? 0 then ws else match ws with [] => [] | a :: bs => skew o a bs end.

Lemma length_window o ws n : length ws = (n + slack o)%nat -> length (window o ws) = n.
Proof.
  unfold window, slack. destruct (o =? 0); intros H; [lia|].
  destruct ws; simpl in *; [lia|]. rewrite length_skew. lia.
Qed.

Lemma bitz_window o ws n i :
  0 <= o < 64 -> Forall word ws -> length ws = (n + slack o)%nat -> 0 <= i < 64 * Z.of_nat n ->
  bitz (window o ws) i = bitz ws (i + o).
Proof.
  intros Ho Hf Hl Hi. unfold window, slack in *.
  destruct (Z.eqb_spec o 0) as [->|]; [by rewrite Z.add_0_r|].
  destruct ws as [|a bs]; simpl in Hl; [lia|].
  apply bitz_skew; [lia|done|lia].
Qed.

(** Loading an operand with an offset: its first word, then [count] more. *)
Lemma load_window m p n o ws :
  o <> 0 -> load_n m p (n + slack o) = Some ws ->
  exists a bs, ws = a :: bs /\ load m p = Some a /\ load_n m (padd p 1) n = Some bs.
Proof.
  unfold slack. intros Ho. rewrite (proj2 (Z.eqb_neq o 0)), Nat.add_1_r by done.
  apply load_n_cons.
Qed.

Lemma load_window_0 m p n ws : load_n m p (n + slack 0) = Some ws -> load_n m p n = Some ws.
Proof. unfold slack. simpl. by rewrite Nat.add_0_r. Qed.

Lemma skewcopy_spec n dst o src m ws :
  load_n m src (n + slack o) = Some ws -> no_clobber dst src ->
  cu_wordarr_skewcopy n dst o src m = store_n m dst (map (fun w => w) (window o ws)).
Proof.
  intros Hl Hc. unfold cu_wordarr_skewcopy, window.
  destruct (Z.eqb_spec o 0) as [->|Ho].
  - apply load_window_0 in Hl. unfold cu_wordarr_copy.
    by apply map_loop_spec.
  - apply load_window in Hl as (a & bs & -> & -> & Hl); [|done]. simpl.
    apply skew_loop_spec; auto with memdb.
Qed.

Lemma skewcopy_bitnot_spec n dst o src m ws :
  load_n m src (n + slack o) = Some ws -> no_clobber dst src ->
  cu_wordarr_skewcopy_bitnot n dst o src m = store_n m dst (map wnot (window o ws)).
Proof.
  intros Hl Hc. unfold cu_wordarr_skewcopy_bitnot, window.
  destruct (Z.eqb_spec o 0) as [->|Ho].
  - apply load_window_0 in Hl. by apply map_loop_spec.
  - apply load_window in Hl as (a & bs & -> & -> & Hl); [|done]. simpl.
    apply skew_loop_spec; auto with memdb.
Qed.

Lemma zip_with_l (xs ys : list Z) (g : Z -> Z) :
  length xs = length ys -> zip_with (fun x _ => g x) xs ys = map g xs.
Proof. revert ys. induction xs; intros [|] ?; simpl in *; try lia; f_equal; auto. Qed.

Lemma zip_with_r (xs ys : list Z) (g : Z -> Z) :
  length xs = length ys -> zip_with (fun _ y => g y) xs ys = map g ys.
Proof. revert ys. induction xs; intros [|] ?; simpl in *; try lia; f_equal; auto. Qed.

Lemma zip_with_swap (g : Z -> Z -> Z) (xs ys : list Z) :
  zip_with g ys xs = zip_with (fun x y => g y x) xs ys.
Proof. revert ys. induction xs; intros [|]; simpl; f_equal; auto. Qed.

Lemma map_const (xs : list Z) (v : Z) : map (fun _ => v) xs = replicate (length xs) v.
Proof. induction xs; simpl; f_equal; auto. Qed.

(** ** What the binary images compute *)

(** [store] of the words obtained by a pairing that implements [f]. *)
Definition images (f : Z) (m : mem) (dst : ptr) (xs ys : list Z) (r : option mem) : Prop :=
  exists g, bitop2 g f /\ r = store_n m dst (zip_with g xs ys).

Lemma images_unary f g m dst xs ys :
  length xs = length ys ->
  bitop2 (fun x _ => g x) f -> images f m dst xs ys (store_n m dst (map g xs)).
Proof. intros El Hg. eexists. split; [exact Hg|]. by rewrite zip_with_l. Qed.

Lemma images_unary_r f g m dst xs ys :
  length xs = length ys ->
  bitop2 (fun _ y => g y) f -> images f m dst xs ys (store_n m dst (map g ys)).
Proof. intros El Hg. eexists. split; [exact Hg|]. by rewrite zip_with_r. Qed.

Lemma images_fill f v n m dst xs ys :
  length xs = n -> length ys = n ->
  bitop2 (fun _ _ => v) f -> images f m dst xs ys (cu_wordarr_fill n dst v m).
Proof.
  intros Ex Ey Hg. rewrite fill_spec, <- Ex, <- map_const.
  apply (images_unary f (fun _ => v)); [lia|done].
Qed.

Lemma images_swap f m dst xs ys r :
  code2 f -> images (cu_bool2f_swap f) m dst ys xs r -> images f m dst xs ys r.
Proof.
  intros Hf (g & [Hw Hg] & ->). exists (fun x y => g y x). split; [|by rewrite zip_with_swap].
  split; [auto|]. intros x y i Hi. rewrite Hg by done. by apply cu_bool2f_swap_spec.
Qed.

Lemma images_store f g m dst xs ys :
  bitop2 g f -> images f m dst xs ys (store_n m dst (zip_with g xs ys)).
Proof. intros Hg. by exists g. Qed.

Lemma copy_bitimg2_images f n dst l r m xs ys :
  code2 f -> load_n m l n = Some xs -> load_n m r n = Some ys ->
  no_clobber dst l -> no_clobber dst r ->
  images f m dst xs ys (cu_wordarr_copy_bitimg2 f n dst l r m).
Proof.
  intros Hf Hl Hr Cl Cr. pose proof (load_n_length _ _ _ _ Hl) as El.
  pose proof (load_n_length _ _ _ _ Hr) as Er.
  code_cases Hf; simpl; unfold cu_wordarr_copy, cu_wordarr_copy_bitnot.
  all: first
    [ apply images_fill; [done..|solve_bitop]
    | rewrite (map_loop_spec _ _ _ l _ xs) by done; apply images_unary; [lia|solve_bitop]
    | rewrite (map_loop_spec _ _ _ r _ ys) by done; apply images_unary_r; [lia|solve_bitop]
    | rewrite (zip_loop_spec _ _ _ l r _ xs ys) by done; apply images_store; solve_bitop
    | rewrite (zip_loop_spec _ _ _ r l _ ys xs) by done; rewrite zip_with_swap;
      apply images_store; solve_bitop ].
Qed.

(** A code on which [skewcopy_bitimg2] runs one of its binary loops. *)
Definition binary_code (f : Z) : Prop :=
  f ∈ [CU_BOOL2F_NOR; CU_BOOL2F_XOR; CU_BOOL2F_NAND; CU_BOOL2F_AND; CU_BOOL2F_IFF; CU_BOOL2F_OR;
       CU_BOOL2F_NOT_AND; CU_BOOL2F_AND_NOT; CU_BOOL2F_NOT_OR; CU_BOOL2F_OR_NOT].

Lemma semiskew_images f n dst p o q m xs ws :
  binary_code f -> o <> 0 -> load_n m p n = Some xs -> load_n m q (n + slack o) = Some ws ->
  no_clobber dst p -> no_clobber dst q ->
  images f m dst xs (window o ws) (wordarr_semiskew_bitimg2 f n dst p o q m).
Proof.
  intros Hf Ho Hp Hq Cp Cq. apply load_window in Hq as (a & bs & -> & Ha & Hq); [|done].
  unfold wordarr_semiskew_bitimg2, window. rewrite Ha, (proj2 (Z.eqb_neq o 0) Ho). simpl.
  assert (E : forall g, semiskew_loop g n dst p o a (padd q 1) m =
                   store_n m dst (zip_with g xs (skew o a bs))).
  { intros g. apply semiskew_loop_spec; auto with memdb. }
  unfold binary_code in Hf. rewrite !elem_of_cons, elem_of_nil in Hf.
  destruct_or! Hf; try done; subst f; simpl; rewrite E; apply images_store; solve_bitop.
Qed.

Lemma binary_images f n dst o0 p o1 q m ws0 ws1 :
  binary_code f -> o0 <> 0 -> o1 <> 0 ->
  load_n m p (n + slack o0) = Some ws0 -> load_n m q (n + slack o1) = Some ws1 ->
  no_clobber dst p -> no_clobber dst q ->
  images f m dst (window o0 ws0) (window o1 ws1) (skewcopy_bitimg2_binary f n dst o0 p o1 q m).
Proof.
  intros Hf Ho0 Ho1 Hp Hq Cp Cq.
  apply load_window in Hp as (a0 & bs0 & -> & Ha0 & Hp); [|done].
  apply load_window in Hq as (a1 & bs1 & -> & Ha1 & Hq); [|done].
  unfold skewcopy_bitimg2_binary, window. rewrite Ha0. simpl. rewrite Ha1. simpl.
  rewrite (proj2 (Z.eqb_neq o0 0) Ho0), (proj2 (Z.eqb_neq o1 0) Ho1).
  assert (E : forall g, skew2_loop g n dst o0 a0 (padd p 1) o1 a1 (padd q 1) m =
                   store_n m dst (zip_with g (skew o0 a0 bs0) (skew o1 a1 bs1))).
  { intros g. apply skew2_loop_spec; auto with memdb. }
  unfold binary_code in Hf. rewrite !elem_of_cons, elem_of_nil in Hf.
  destruct_or! Hf; try done; subst f; simpl; rewrite E; apply images_store; solve_bitop.
Qed.

Lemma binary_code_swap f : binary_code f -> code2 f /\ binary_code (cu_bool2f_swap f).
Proof.
  unfold binary_code, code2. rewrite !elem_of_cons, elem_of_nil.
  intros Hf. destruct_or! Hf; try done; subst f; vm_compute; intuition congruence.
Qed.

(** The dispatch on zero offsets of [cu_wordarr_skewcopy_bitimg2]. *)
Lemma skew_dispatch_images f n dst o0 p o1 q m ws0 ws1 :
  binary_code f ->
  load_n m p (n + slack o0) = Some ws0 -> load_n m q (n + slack o1) = Some ws1 ->
  no_clobber dst p -> no_clobber dst q ->
  images f m dst (window o0 ws0) (window o1 ws1)
    (if o0 =? 0 then
       if o1 =? 0 then cu_wordarr_copy_bitimg2 f n dst p q m
       else wordarr_semiskew_bitimg2 f n dst p o1 q m
     else if o1 =? 0 then wordarr_semiskew_bitimg2 (cu_bool2f_swap f) n dst q o0 p m
     else skewcopy_bitimg2_binary f n dst o0 p o1 q m).
Proof.
  intros Hf Hp Hq Cp Cq. destruct (binary_code_swap f Hf) as [Hc Hs].
  destruct (Z.eqb_spec o0 0) as [->|H0], (Z.eqb_spec o1 0) as [->|H1].
  - apply load_window_0 in Hp, Hq. by apply copy_bitimg2_images.
  - apply load_window_0 in Hp. by apply semiskew_images.
  - apply load_window_0 in Hq. apply images_swap; [done|]. by apply semiskew_images.
  - by apply binary_images.
Qed.

Lemma skewcopy_bitimg2_images f n dst o0 p o1 q m ws0 ws1 :
  code2 f ->
  load_n m p (n + slack o0) = Some ws0 -> load_n m q (n + slack o1) = Some ws1 ->
  no_clobber dst p -> no_clobber dst q ->
  images f m dst (window o0 ws0) (window o1 ws1)
    (cu_wordarr_skewcopy_bitimg2 f n dst o0 p o1 q m).
Proof.
  intros Hf Hp Hq Cp Cq.
  assert (E0 := length_window o0 ws0 n (load_n_length _ _ _ _ Hp)).
  assert (E1 := length_window o1 ws1 n (load_n_length _ _ _ _ Hq)).
  pose proof (fun f Hf => skew_dispatch_images f n dst o0 p o1 q m ws0 ws1 Hf Hp Hq Cp Cq) as Hd.
  code_cases Hf; unfold cu_wordarr_skewcopy_bitimg2.
  all: try (apply Hd; unfold binary_code; rewrite !elem_of_cons; naive_solver).
  all: first
    [ apply images_fill; [done..|solve_bitop]
    | rewrite (skewcopy_spec _ _ _ p _ ws0) by done; apply images_unary; [lia|solve_bitop]
    | rewrite (skewcopy_spec _ _ _ q _ ws1) by done; apply images_unary_r; [lia|solve_bitop]
    | rewrite (skewcopy_bitnot_spec _ _ _ p _ ws0) by done; apply images_unary; [lia|solve_bitop]
    | rewrite (skewcopy_bitnot_spec _ _ _ q _ ws1) by done; apply images_unary_r; [lia|solve_bitop] ].
Qed.

(** ** Properties *)

(** The effect of a function that fills [n] words at [dst]: it makes no access
    outside the arrays, afterwards [dst] holds words whose bit [i] is [b i], and
    no other address changes. *)
Definition fills (m : mem) (dst : ptr) (n : nat) (b : Z -> bool) (r : option mem) : Prop :=
  exists m' out, r = Some m' /\ load_n m' dst n = Some out /\
    (forall i, 0 <= i < 64 * Z.of_nat n -> bitz out i = b i) /\
    (forall q, blk q <> blk dst \/ (off q < off dst)%nat \/ (off dst + n <= off q)%nat ->
       load m' q = load m q).

Lemma images_fills f n m dst xs ys r :
  length xs = n -> length ys = n -> valid m dst n -> images f m dst xs ys r ->
  fills m dst n (fun i => fun2 f (bitz xs i) (bitz ys i)) r.
Proof.
  intros Ex Ey Hv (g & Hg & ->).
  assert (El : length (zip_with g xs ys) = n) by (rewrite length_zip_with; lia).
  destruct (store_n_spec m dst (zip_with g xs ys)) as (m' & Hs & Hl & Hfr); [by rewrite El|].
  rewrite El in Hl, Hfr. exists m', (zip_with g xs ys). split_and!; [done..| |done].
  intros i Hi. apply bitz_zip; [done|by rewrite Ex|lia].
Qed.

Lemma fills_ext m dst n b b' r :
  (forall i, 0 <= i < 64 * Z.of_nat n -> b i = b' i) -> fills m dst n b r -> fills m dst n b' r.
Proof.
  intros He (m' & out & Hr & Hl & Hb & Hfr). exists m', out. split_and!; [done..| |done].
  intros i Hi. by rewrite Hb, He.
Qed.

(** [cu_wordarr_copy_bitimg2] computes, for each of the sixteen boolean
    functions, the bitwise image of the two source arrays into the destination,
    touching nothing else; the destination may be one of the sources or lie
    before it in the same block. *)
Theorem wordarr_copy_bitimg2_correct f n dst p q m xs ys :
  code2 f -> load_n m p n = Some xs -> load_n m q n = Some ys -> valid m dst n ->
  no_clobber dst p -> no_clobber dst q ->
  fills m dst n (fun i => fun2 f (bitz xs i) (bitz ys i))
    (cu_wordarr_copy_bitimg2 f n dst p q m).
Proof.
  intros Hf Hp Hq Hv Cp Cq. apply images_fills; [by eapply load_n_length..|done|].
  by apply copy_bitimg2_images.
Qed.

Definition wordarr_ex_mem : mem :=
  {[ 0%N := [0xf0; 0; 0x12]; 1%N := [0x100; 0; 0xff]; 2%N := [7; 7] ]}.

(** [cu_wordarr_skewcopy_bitimg2] pairs the bits of two arrays read from
    arbitrary bit offsets below 64: bit [i] of the destination is the image of
    bit [i + offset0] of the first and bit [i + offset1] of the second operand.
    It reads the word after [count] of an operand only if that operand's offset
    is not zero. *)
Theorem wordarr_skewcopy_bitimg2_correct f n dst o0 p o1 q m ws0 ws1 :
  code2 f -> 0 <= o0 < 64 -> 0 <= o1 < 64 ->
  load_n m p (n + slack o0) = Some ws0 -> load_n m q (n + slack o1) = Some ws1 ->
  Forall word ws0 -> Forall word ws1 -> valid m dst n -> no_clobber dst p -> no_clobber dst q ->
  fills m dst n (fun i => fun2 f (bitz ws0 (i + o0)) (bitz ws1 (i + o1)))
    (cu_wordarr_skewcopy_bitimg2 f n dst o0 p o1 q m).
Proof.
  intros Hf Ho0 Ho1 Hp Hq H0 H1 Hv Cp Cq.
  pose proof (load_n_length _ _ _ _ Hp) as L0. pose proof (load_n_length _ _ _ _ Hq) as L1.
  apply (fills_ext _ _ _ (fun i => fun2 f (bitz (window o0 ws0) i) (bitz (window o1 ws1) i))).
  { intros i Hi. by rewrite !(bitz_window _ _ n). }
  apply images_fills; [by apply length_window..|done|].
  by apply skewcopy_bitimg2_images.
Qed.
