(* ===== verification/RadixKey.v ===== *)
(** * Keys of the radix trees

    The trees of [cucon/ucset.c] and [cucon/ucmap.c] branch on the lowest set
    bit of a node key: a key [k] with lowest bit [lb k] governs the open
    interval from [k - lb k] to [k + lb k], whose halves belong to the two
    children.  This file states what the bit expressions of both sources mean
    in terms of [lb], and shows that the intervals form a laminar family, so that
    the proofs about trees are linear arithmetic. *)

From S2P Require Export Int.

(** The lowest set bit, as a number; [0] governs everything above it. *)
Definition lb (k : Z) : Z := if k =? 0 then 2 ^ 64 else Z.land k (- k).

(** ** The expressions of the sources *)

(** [~(key0 ^ (key0 - 1))] *)
Definition key_mask (k : Z) : Z := wnot (k ^^^ wsub k 1).

(** [_key_coverseq], the same in both files. *)
Definition key_coverseq (key0 key1 : Z) : bool :=
  let mask0 := key_mask key0 in (key0 &&& mask0) =? (key1 &&& mask0).

(** [_key_join]: the least cover of two keys, neither of which covers the other. *)
Definition key_join (k0 k1 : Z) : Z :=
  let k := cu_uintptr_dcover (k0 ^^^ k1) in
  (k0 &&& wnot k) ||| wadd (k >>> 1) 1.

Definition key_max (k : Z) : Z := k ||| wsub k 1.

(** ** Values *)

Lemma lb_odd b m : 0 <= b -> 0 <= m -> lb ((2 * m + 1) * 2 ^ b) = 2 ^ b.
Proof.
  intros Hb Hm. pose proof (pow2_pos b Hb). unfold lb.
  rewrite (proj2 (Z.eqb_neq _ _)) by nia.
  apply Z.bits_inj'. intros i Hi.
  rewrite Z.land_spec, Z.bits_opp, <- Z.sub_1_r, lowbit_testbit, lowbit_pred_testbit,
    testbit_pow2 by lia.
  bits_split; try done. by destruct (Z.testbit m _).
Qed.

Lemma key_odd k : word k -> k <> 0 ->
  exists b m, 0 <= b < 64 /\ 0 <= m /\ k = (2 * m + 1) * 2 ^ b /\ lb k = 2 ^ b.
Proof.
  intros Hk Hn. unfold word in Hk.
  destruct (lowbit_decomp k) as (b & m & Hb & Hm & E); [lia|].
  exists b, m. split_and!; [done| |done|done|].
  - apply (lowbit_lt b m); lia.
  - rewrite E. by apply lb_odd.
Qed.

Lemma lb_bounds k : word k -> 0 < lb k <= 2 ^ 64 /\ (k <> 0 -> lb k <= k /\ k + lb k <= 2 ^ 64).
Proof.
  intros Hk. destruct (Z.eq_dec k 0) as [->|Hn]; [by split|].
  destruct (key_odd k Hk Hn) as (b & m & Hb & Hm & E & ->).
  unfold word in Hk. pose proof (pow2_pos b).
  assert (2 ^ 64 = 2 ^ (64 - b - 1) * (2 * 2 ^ b)).
  { rewrite <- pow2_succ, <- Z.pow_add_r by lia. f_equal. lia. }
  assert (2 ^ b <= k) by nia. assert (k + 2 ^ b <= 2 ^ 64); [|lia].
  assert (m < 2 ^ (64 - b - 1)) by nia. nia.
Qed.

Lemma key_mask_0 : key_mask 0 = 0.
Proof. reflexivity. Qed.

Lemma key_mask_odd b m :
  0 <= b < 64 -> word ((2 * m + 1) * 2 ^ b) -> key_mask ((2 * m + 1) * 2 ^ b) = wnot (Z.ones (b + 1)).
Proof.
  intros Hb Hk. unfold key_mask. pose proof (pow2_pos b).
  rewrite wsub_1 by (done || intros [|]%Z.eq_mul_0; lia).
  by rewrite lowbit_xor_pred by lia.
Qed.

Lemma land_ones_mod x n : 0 <= n -> x &&& Z.ones n = x mod 2 ^ n.
Proof. apply Z.land_ones. Qed.

Lemma land_wnot_ones x n : 0 <= n <= 64 -> word x -> x &&& wnot (Z.ones n) = x - x mod 2 ^ n.
Proof.
  intros Hn Hx. rewrite <- land_ones_mod by lia.
  assert (E : x = Z.lor (x &&& wnot (Z.ones n)) (x &&& Z.ones n)).
  { apply word_ext; [done| |].
    - assert (word (Z.ones n)).
      { rewrite Z.ones_equiv. assert (0 < 2 ^ n <= 2 ^ 64); [|unfold word; lia].
        split; [apply pow2_pos; lia|apply Z.pow_le_mono_r; lia]. }
      auto with wordb.
    - intros i Hi. bits_rw. bits_split; by destruct (Z.testbit x i). }
  assert (Hd : Z.land (x &&& wnot (Z.ones n)) (x &&& Z.ones n) = 0).
  { bits; by destruct (Z.testbit x i). }
  rewrite <- Z.lxor_lor in E by done. rewrite <- Z.add_nocarry_lxor in E by done. lia.
Qed.

(** The masked key and argument as multiples of [2 lb k]. *)
Lemma key_mask_spec k x :
  word k -> k <> 0 -> word x ->
  (k &&& key_mask k) = k - lb k /\ (x &&& key_mask k) = x - x mod (2 * lb k) /\
  (x &&& wnot (key_mask k)) = x mod (2 * lb k).
Proof.
  intros Hk Hn Hx. destruct (key_odd k Hk Hn) as (b & m & Hb & Hm & E & El).
  rewrite El, E, key_mask_odd by (lia || by rewrite <- E).
  rewrite <- E, !land_wnot_ones by (done || lia). rewrite <- pow2_succ by lia.
  split_and!; [|done|].
  - rewrite E, pow2_succ by lia. pose proof (pow2_pos b).
    replace ((2 * m + 1) * 2 ^ b) with (2 ^ b + m * (2 * 2 ^ b)) by lia.
    rewrite Z.mod_add, Z.mod_small by lia. lia.
  - rewrite <- land_ones_mod by lia. f_equal. apply Z.bits_inj'. intros i Hi.
    bits_rw. bits_split; done.
Qed.

(** ** Covering as an interval *)

Lemma key_window k x :
  word k -> k <> 0 -> word x ->
  k - lb k = x - x mod (2 * lb k) <-> k - lb k <= x < k + lb k.
Proof.
  intros Hk Hn Hx. destruct (key_odd k Hk Hn) as (b & m & Hb & Hm & E & El).
  pose proof (pow2_pos b). rewrite El.
  pose proof (Z.div_mod x (2 * 2 ^ b)). pose proof (Z.mod_pos_bound x (2 * 2 ^ b)).
  assert (k - 2 ^ b = 2 * 2 ^ b * m) by lia. split; [lia|].
  intros Hr. assert (x / (2 * 2 ^ b) = m); [|nia]. symmetry.
  apply Z.div_unique with (r := x - 2 * 2 ^ b * m); [left; lia|lia].
Qed.

Lemma key_coverseq_spec k x :
  word k -> word x -> key_coverseq k x = true <-> k - lb k <= x < k + lb k.
Proof.
  intros Hk Hx. unfold key_coverseq. cbn zeta. rewrite Z.eqb_eq.
  destruct (Z.eq_dec k 0) as [->|Hn].
  { rewrite key_mask_0, !Z.land_0_r. unfold lb, word in *. simpl. lia. }
  destruct (key_mask_spec k x) as (-> & -> & _); [done..|]. by apply key_window.
Qed.

(** The argument is not the lower end of the interval. *)
Lemma key_low_spec k x :
  word k -> k <> 0 -> word x -> k - lb k <= x < k + lb k ->
  (x &&& wnot (key_mask k)) = x - (k - lb k).
Proof.
  intros Hk Hn Hx Hr. destruct (key_mask_spec k x) as (_ & _ & ->); [done..|].
  apply key_window in Hr; [lia|done..].
Qed.

Lemma key_max_spec k : word k -> k <> 0 -> key_max k = k + lb k - 1.
Proof.
  intros Hk Hn. unfold key_max. rewrite wsub_1 by done.
  destruct (key_odd k Hk Hn) as (b & m & Hb & Hm & E & ->).
  rewrite E, lowbit_or_pred by lia. lia.
Qed.

(** ** The laminar family *)

Lemma grid_floor u h x y : 0 < h < u -> x * u < y * u + h -> x * u <= y * u.
Proof. intros Hh Hl. apply Z.mul_le_mono_nonneg_r; [lia|]. nia. Qed.

Lemma grid_ceil u h x y : 0 < h < u -> y * u + h < x * u -> y * u + u <= x * u.
Proof. intros Hh Hl. assert (y + 1 <= x) by nia. nia. Qed.

Lemma odd_in_half a b m0 m1 :
  0 <= a -> 0 <= b -> 0 <= m0 -> 0 <= m1 ->
  let k0 := (2 * m0 + 1) * 2 ^ a in let k1 := (2 * m1 + 1) * 2 ^ b in
  k0 - 2 ^ a < k1 < k0 + 2 ^ a -> k1 <> k0 ->
  b < a /\ (k1 < k0 -> k0 - 2 ^ a <= k1 - 2 ^ b /\ k1 + 2 ^ b <= k0) /\
  (k0 < k1 -> k0 <= k1 - 2 ^ b /\ k1 + 2 ^ b <= k0 + 2 ^ a).
Proof.
  intros Ha Hb Hm0 Hm1 k0 k1 Hr Hne.
  pose proof (pow2_pos a Ha). pose proof (pow2_pos b Hb) as Hh.
  assert (Hlt : b < a).
  { subst k0 k1. destruct (Z.lt_ge_cases b a) as [|Hge]; [done|exfalso].
    assert (E : 2 ^ b = 2 ^ (b - a) * 2 ^ a) by (rewrite <- Z.pow_add_r by lia; f_equal; lia).
    set (e := (2 * m1 + 1) * 2 ^ (b - a) - (2 * m0 + 1)).
    assert (Ee : (2 * m1 + 1) * 2 ^ b - (2 * m0 + 1) * 2 ^ a = e * 2 ^ a)
      by (rewrite E; unfold e; lia).
    assert (e < 1) by (apply (Z.mul_lt_mono_pos_r (2 ^ a)); lia).
    assert (-1 < e) by (apply (Z.mul_lt_mono_pos_r (2 ^ a)); lia).
    assert (e = 0) by lia. nia. }
  split; [done|].
  assert (E : 2 ^ a = 2 ^ (a - b - 1) * (2 * 2 ^ b)).
  { rewrite <- pow2_succ, <- Z.pow_add_r by lia. f_equal. lia. }
  set (h := 2 ^ b) in *. set (d := 2 ^ (a - b - 1)) in *. set (c := (2 * m0 + 1) * d).
  assert (E1 : k1 = m1 * (2 * h) + h) by (subst k1; lia).
  assert (E0 : k0 = c * (2 * h)) by (subst k0 c; rewrite E; lia).
  assert (El : k0 - 2 ^ a = (c - d) * (2 * h)) by (rewrite E0, E; lia).
  assert (Er : k0 + 2 ^ a = (c + d) * (2 * h)) by (rewrite E0, E; lia).
  rewrite El, Er in *. clearbody k0 k1. subst k0 k1. clear El Er E.
  clearbody h c d.
  pose proof (grid_floor (2 * h) h c m1). pose proof (grid_floor (2 * h) h (c - d) m1).
  pose proof (grid_ceil (2 * h) h c m1). pose proof (grid_ceil (2 * h) h (c + d) m1). lia.
Qed.

Lemma inside_left k0 k1 :
  word k0 -> word k1 -> k1 <> 0 -> k0 - lb k0 < k1 < k0 ->
  k0 - lb k0 <= k1 - lb k1 /\ k1 + lb k1 <= k0.
Proof.
  intros H0 H1 Hn Hr. assert (k0 <> 0) by (unfold word in *; lia).
  destruct (key_odd k0) as (a & m0 & Ha & Hm0 & E0 & L0); [done..|].
  destruct (key_odd k1) as (b & m1 & Hb & Hm1 & E1 & L1); [done..|].
  pose proof (odd_in_half a b m0 m1). cbn zeta in *. rewrite <- E0, <- E1, L0, L1 in *. lia.
Qed.

Lemma inside_right k0 k1 :
  word k0 -> word k1 -> k0 < k1 < k0 + lb k0 ->
  k0 <= k1 - lb k1 /\ k1 + lb k1 <= k0 + lb k0.
Proof.
  intros H0 H1 Hr. assert (k1 <> 0) by (unfold word in *; lia).
  destruct (key_odd k1) as (b & m1 & Hb & Hm1 & E1 & L1); [done..|].
  destruct (Z.eq_dec k0 0) as [->|Hn].
  { pose proof (lb_bounds k1 H1). change (lb 0) with (2 ^ 64). lia. }
  destruct (key_odd k0) as (a & m0 & Ha & Hm0 & E0 & L0); [done..|].
  pose proof (odd_in_half a b m0 m1). cbn zeta in *. rewrite <- E0, <- E1, L0, L1 in *. lia.
Qed.

(** ** Joins *)

Lemma div_pow2_xor k0 k1 n : 0 <= n -> Z.log2 (k0 ^^^ k1) < n -> 0 <= k0 -> 0 <= k1 ->
  k0 / 2 ^ n = k1 / 2 ^ n.
Proof.
  intros Hn Hl H0 H1. rewrite <- !Z.shiftr_div_pow2 by done. apply Z.lxor_eq.
  rewrite <- Z.shiftr_lxor. rewrite Z.shiftr_div_pow2 by done. apply Z.div_small.
  assert (0 <= k0 ^^^ k1) by (apply Z.lxor_nonneg; lia). split; [done|].
  destruct (Z.eq_dec (k0 ^^^ k1) 0) as [->|]; [by apply pow2_pos|].
  apply Z.log2_lt_pow2; lia.
Qed.

(** The join of two distinct words lies between them, at the highest bit where
    they differ. *)
Lemma key_join_base k0 k1 :
  word k0 -> word k1 -> k0 < k1 ->
  let j := key_join k0 k1 in
  key_join k1 k0 = j /\ word j /\ j <> 0 /\ j - lb j <= k0 < j /\ j <= k1 < j + lb j /\
  lb j = 2 ^ Z.log2 (k0 ^^^ k1).
Proof.
  intros H0 H1 Hlt. cbn zeta.
  set (t := Z.log2 (k0 ^^^ k1)). set (q := k0 / 2 ^ (t + 1)).
  assert (Hd : word (k0 ^^^ k1)) by auto with wordb. unfold word in H0, H1, Hd.
  assert (Hd0 : k0 ^^^ k1 <> 0) by (intros E; apply Z.lxor_eq in E; lia).
  assert (Ht : 0 <= t < 64).
  { split; [apply Z.log2_nonneg|]. apply Z.log2_lt_pow2; lia. }
  assert (Hq : k1 / 2 ^ (t + 1) = q) by (symmetry; apply div_pow2_xor; lia).
  pose proof (pow2_pos t) as Hpt. pose proof (pow2_succ t) as Hst.
  assert (J : forall x, word x -> x / 2 ^ (t + 1) = q ->
    (x &&& wnot (cu_uintptr_dcover (k0 ^^^ k1))) ||| wadd (cu_uintptr_dcover (k0 ^^^ k1) >>> 1) 1
    = (2 * q + 1) * 2 ^ t).
  { intros x Hx Hxq. unfold cu_uintptr_dcover.
    rewrite cu_uint64_dcover_cover, cover_mask_ones by (done || lia). fold t.
    rewrite land_wnot_ones by (done || lia).
    assert (E1 : Z.ones (t + 1) >>> 1 = 2 ^ t - 1).
    { rewrite Z.shiftr_div_pow2, Z.ones_equiv, Hst by lia.
      replace (Z.pred (2 * 2 ^ t)) with (1 + (2 ^ t - 1) * 2 ^ 1) by lia.
      by rewrite Z.div_add by lia. }
    assert (2 ^ t < 2 ^ 64) by (apply Z.pow_lt_mono_r; lia).
    rewrite E1. unfold wadd. rewrite wrap_small by (unfold word; lia).
    replace (2 ^ t - 1 + 1) with (2 ^ t) by lia.
    assert (E2 : x - x mod 2 ^ (t + 1) = q * 2 ^ (t + 1)).
    { rewrite <- Hxq. pose proof (Z.div_mod x (2 ^ (t + 1))). lia. }
    rewrite E2. assert (Hn : Z.land (q * 2 ^ (t + 1)) (2 ^ t) = 0).
    { rewrite land_pow2, Z.mul_pow2_bits by lia. by rewrite Z.testbit_neg_r by lia. }
    rewrite <- Z.lxor_lor, <- Z.add_nocarry_lxor by done. lia. }
  assert (Hj0 : key_join k0 k1 = (2 * q + 1) * 2 ^ t) by by apply J.
  assert (Hj1 : key_join k1 k0 = (2 * q + 1) * 2 ^ t).
  { unfold key_join. rewrite (Z.lxor_comm k1 k0). by apply J. }
  rewrite Hj0, Hj1. assert (0 <= q) by (apply Z.div_pos; lia).
  rewrite lb_odd by lia.
  assert (Hb : Z.testbit k0 t = false /\ Z.testbit k1 t = true).
  { assert (Hx : xorb (Z.testbit k0 t) (Z.testbit k1 t) = true)
      by (rewrite <- Z.lxor_spec; apply Z.bit_log2; lia).
    destruct (Z.testbit k0 t) eqn:T0, (Z.testbit k1 t) eqn:T1; try done. exfalso.
    rewrite Z.testbit_true in T0 by lia. rewrite Z.testbit_false in T1 by lia.
    rewrite Hst in Hq by lia. unfold q in Hq. rewrite Hst in Hq by lia.
    rewrite !(Z.mul_comm 2), <- !Z.div_div in Hq by lia.
    pose proof (Z.div_mod (k0 / 2 ^ t) 2). pose proof (Z.div_mod (k1 / 2 ^ t) 2).
    pose proof (Z.div_le_mono k0 k1 (2 ^ t)). lia. }
  destruct Hb as [B0 B1]. rewrite Z.testbit_false in B0 by lia. rewrite Z.testbit_true in B1 by lia.
  assert (Eq : forall x, x / 2 ^ (t + 1) = x / 2 ^ t / 2).
  { intros x. by rewrite Hst, (Z.mul_comm 2), Z.div_div by lia. }
  rewrite Eq in Hq. assert (Hq0 : k0 / 2 ^ t / 2 = q) by by rewrite <- Eq.
  assert (X0 : k0 / 2 ^ t = 2 * q) by (pose proof (Z.div_mod (k0 / 2 ^ t) 2); lia).
  assert (X1 : k1 / 2 ^ t = 2 * q + 1) by (pose proof (Z.div_mod (k1 / 2 ^ t) 2); lia).
  pose proof (Z.div_mod k0 (2 ^ t)) as M0. pose proof (Z.div_mod k1 (2 ^ t)) as M1.
  rewrite X0 in M0. rewrite X1 in M1.
  pose proof (Z.mod_pos_bound k0 (2 ^ t)). pose proof (Z.mod_pos_bound k1 (2 ^ t)).
  assert (0 <= q * 2 ^ t) by (apply Z.mul_nonneg_nonneg; lia).
  split_and!; try done; unfold word; lia.
Qed.

Lemma lb_ge_divisor e m c : word e -> e <> 0 -> 0 <= c -> e = m * 2 ^ c -> 2 ^ c <= lb e.
Proof.
  intros He Hn Hc E. destruct (key_odd e He Hn) as (b & m' & Hb & Hm & E' & ->).
  apply Z.pow_le_mono_r; [lia|].
  destruct (Z.le_gt_cases c b) as [|Hlt]; [done|exfalso].
  assert (Ec : 2 ^ c = 2 ^ (c - b - 1) * (2 * 2 ^ b)).
  { rewrite <- pow2_succ, <- Z.pow_add_r by lia. f_equal. lia. }
  rewrite Ec in E. pose proof (pow2_pos b).
  assert (H0 : (2 * (m * 2 ^ (c - b - 1)) - (2 * m' + 1)) * 2 ^ b = 0) by lia.
  apply Z.eq_mul_0 in H0 as [|]; lia.
Qed.

(** The low end of a key's interval governs at least the whole interval. *)
Lemma low_end_lb k : word k -> k <> 0 -> k - lb k <> 0 -> k + lb k <= (k - lb k) + lb (k - lb k).
Proof.
  intros Hk Hn Hl. destruct (key_odd k Hk Hn) as (b & m & Hb & Hm & E & El).
  pose proof (pow2_pos b). pose proof (lb_bounds k Hk) as [_ [? ?]]; [done|].
  assert (2 * 2 ^ b <= lb (k - lb k)); [|lia].
  rewrite <- pow2_succ by lia. apply (lb_ge_divisor _ m).
  - unfold word in *. lia.
  - done.
  - lia.
  - rewrite pow2_succ by lia. lia.
Qed.

(** [k0] and [k1], in this order and neither inside the interval of the other. *)
Definition apart (k0 k1 : Z) : Prop := k0 + lb k0 <= k1 /\ k0 <= k1 - lb k1.

Lemma key_join_spec k0 k1 :
  word k0 -> word k1 -> k0 < k1 -> apart k0 k1 ->
  let j := key_join k0 k1 in
  key_join k1 k0 = j /\ word j /\ j <> 0 /\
  j - lb j <= k0 - lb k0 /\ k0 + lb k0 <= j /\ j <= k1 - lb k1 /\ k1 + lb k1 <= j + lb j.
Proof.
  intros H0 H1 Hlt [Ha Hb].
  destruct (key_join_base k0 k1) as (Ec & Hj & Hn & R0 & R1 & _); [done..|].
  cbn zeta. set (j := key_join k0 k1) in *.
  assert (Hk0 : k0 <> 0). { intros ->. unfold word in H1. change (lb 0) with (2 ^ 64) in *. lia. }
  assert (Hne : k0 <> j - lb j).
  { intros E. pose proof (low_end_lb j Hj Hn) as Hl. rewrite <- E in Hl. specialize (Hl Hk0). lia. }
  destruct (inside_left j k0) as [I0 I1]; [done..|lia|].
  assert (Hk1 : k1 <> j).
  { intros E. rewrite E in Hb. lia. }
  destruct (inside_right j k1) as [I2 I3]; [done..|lia|].
  by split_and!.
Qed.

(** Disjoint intervals from keys that are not inside one another. *)
Lemma apart_disjoint k0 k1 :
  word k0 -> word k1 -> k0 < k1 -> apart k0 k1 -> k0 + lb k0 <= k1 - lb k1.
Proof. intros H0 H1 Hlt Ha. destruct (key_join_spec k0 k1) as (?&?&?&?&?&?&?); [done..|]. lia. Qed.
