(* ===== verification/UcsetLeaf.v ===== *)
(** * Constructive integer sets, the leaves: [cucon/ucset.c] up to line 415

    A set is a radix tree whose leaves are 128-bit sets ([BITSET_SIZEW] words).
    A node of the C code is a [struct cucon_ucset] or a
    [struct cucon_ucset_leaf], told apart by [_key_is_leaflike] of its key; here
    the two structures are the constructors [Node] and [Leaf], and the invariant
    of [Ucset] states that the constructor and the key agree.  Bit 0 of the key
    of a [Node] tells whether the key itself is an element.

    The library is compiled with [CUCON_UCSET_ENABLE_HCONS]: nodes are
    hash-consed, so pointer equality of two sets is equality of the trees, and
    the pointer tests of the source are structural tests here. *)

From S2P Require Export RadixKey.

Definition BITSET_SIZEW : nat := 2.
Definition BITSET_WIDTH : Z := 128.
Definition BITSET_MASK : Z := BITSET_WIDTH - 1.

Inductive ucset :=
| Null
| Leaf (key : Z) (bitset : list Z)
| Node (key : Z) (left right : ucset).

#[global] Instance ucset_eq_dec : EqDecision ucset.
Proof. solve_decision. Defined.

(** Pointer comparison [s == t] of hash-consed sets. *)
Definition ptr_eq (s t : ucset) : bool := bool_decide (s = t).

Definition is_null (s : ucset) : bool := match s with Null => true | _ => false end.

(** ** Keys *)

Definition key_covers (key0 key1 : Z) : bool :=
  let mask0 := key_mask key0 in
  negb (key0 =? 0) && ((key0 &&& mask0) =? (key1 &&& mask0))
  && (negb ((key1 &&& wnot mask0) =? 0) || (key1 =? 0)).

Definition key_is_leaflike (key : Z) : bool :=
  if key =? 0 then true
  else let mask := key ^^^ wsub key 1 in mask <? BITSET_WIDTH.

(** [_ucnode_key], on the stored key. *)
Definition ucnode_key (key : Z) : Z := key &&& wnot 1.

(** [node->key & 1] *)
Definition key_flag (key : Z) : bool := negb ((key &&& 1) =? 0).

Definition leaf_key (key : Z) : Z := (key &&& wnot BITSET_MASK) ||| ((BITSET_MASK + 1) >>> 1).

(** ** Operations on leaves *)

(** [CU_WORD_C(1) << key%CU_WORD_P2WIDTH] and [bitset[key/CU_WORD_P2WIDTH]] *)
Definition bitset_bit (key : Z) : Z := wshl 1 (key mod WIDTH).
Definition bitset_word (bs : list Z) (key : Z) : Z := nth (Z.to_nat (key / WIDTH)) bs 0.
Definition bitset_update (bs : list Z) (key : Z) (w : Z) : list Z :=
  <[Z.to_nat (key / WIDTH) := w]> bs.

Definition ucleaf_find (bs : list Z) (key : Z) : bool :=
  let key := key &&& BITSET_MASK in
  negb ((bitset_word bs key &&& bitset_bit key) =? 0).

Fixpoint ucleaf_subeq (lhs rhs : list Z) : bool :=
  match lhs, rhs with
  | l :: lhs, r :: rhs => if negb ((l &&& wnot r) =? 0) then false else ucleaf_subeq lhs rhs
  | _, _ => true
  end.

(** The loop of [cucon_ucset_disjoint] over two leaves. *)
Fixpoint ucleaf_disjoint (lhs rhs : list Z) : bool :=
  match lhs, rhs with
  | l :: lhs, r :: rhs => if negb ((l &&& r) =? 0) then false else ucleaf_disjoint lhs rhs
  | _, _ => true
  end.

Definition ucleaf_card (key : Z) (bs : list Z) : Z :=
  fold_left (fun card w => card + cu_word_bit_count w) bs (key &&& 1).

Fixpoint ucleaf_is_singleton (bs : list Z) : bool :=
  match bs with
  | [] => false
  | w :: bs =>
      let cnt := cu_word_bit_count w in
      if 1 <? cnt then false
      else if negb (cnt =? 0) then forallb (fun w => w =? 0) bs
      else ucleaf_is_singleton bs
  end.

Definition ucleaf_new (key : Z) : ucset :=
  let node_key := leaf_key key in
  let bs := replicate BITSET_SIZEW 0 in
  let key := key &&& BITSET_MASK in
  Leaf node_key (bitset_update bs key (bitset_word bs key ||| bitset_bit key)).

Definition ucleaf_insert (node_key : Z) (bs : list Z) (add_key : Z) : ucset :=
  let add_key := add_key &&& BITSET_MASK in
  Leaf node_key (bitset_update bs add_key (bitset_word bs add_key ||| bitset_bit add_key)).

(** A leaf, or [NULL] if no bit is left. *)
Definition leaf_or_null (key : Z) (bs : list Z) : ucset :=
  if existsb (fun w => negb (w =? 0)) bs then Leaf key bs else Null.

Definition ucleaf_erase (node_key : Z) (bs : list Z) (del_key : Z) : ucset :=
  let del_key := del_key &&& BITSET_MASK in
  let bits := bitset_word bs del_key in
  let bit := bitset_bit del_key in
  if (bits &&& bit) =? 0 then Leaf node_key bs
  else leaf_or_null node_key (bitset_update bs del_key (bits &&& wnot bit)).

Definition ucleaf_union (key : Z) (lhs rhs : list Z) : ucset :=
  Leaf key (zip_with Z.lor lhs rhs).

Definition ucleaf_isecn (key : Z) (lhs rhs : list Z) : ucset :=
  leaf_or_null key (zip_with Z.land lhs rhs).

Definition ucleaf_minus (key : Z) (lhs rhs : list Z) : ucset :=
  leaf_or_null key (zip_with (fun l r => l &&& wnot r) lhs rhs).

(** [_ucleaf_filter] with a callback that threads a state.  The variable [key]
    of the source is an [int]: it is truncated on assignment and on increment,
    and sign-extended to [uintptr_t] for the call. *)
Section filter.
Context {S : Type} (f : S -> Z -> S * bool).

(** The inner loop: [for (bit = 1; bit; bit <<= 1)]. *)
Fixpoint filter_bits (fuel : nat) (bit bits key : Z) (chg : bool) (s : S)
    : S * (Z * Z * bool) :=
  match fuel with
  | O => (s, (bits, key, chg))
  | Datatypes.S fuel =>
      if bit =? 0 then (s, (bits, key, chg))
      else
        let '(s, (bits, chg)) :=
          if negb ((bits &&& bit) =? 0) then
            let '(s, keep) := f s (wrap key) in
            if keep then (s, (bits, chg)) else (s, (bits &&& wnot bit, true))
          else (s, (bits, chg)) in
        filter_bits fuel (wshl bit 1) bits (to_int (key + 1)) chg s
  end.

(** The outer loop: the filtered words, the change flag. *)
Fixpoint filter_words (bs : list Z) (key : Z) (chg : bool) (s : S) : S * (list Z * bool) :=
  match bs with
  | [] => (s, ([], chg))
  | w :: bs =>
      let '(s, (w, key, chg)) := filter_bits 65 1 w key chg s in
      let '(s, (bs, chg)) := filter_words bs key chg s in
      (s, (w :: bs, chg))
  end.

Definition ucleaf_filter (node_key : Z) (bs : list Z) (s : S) : S * ucset :=
  let key := to_int (node_key &&& wnot BITSET_MASK) in
  let '(s, (bs', have_change)) := filter_words bs key false s in
  if have_change then (s, leaf_or_null node_key bs') else (s, Leaf node_key bs).
End filter.

(** [_ucleaf_uclip]: the mask of one word, then the loop over the words. *)
Definition uclip_word (w bs_min clip_min clip_max : Z) : Z :=
  let bs_max := wadd bs_min (WIDTH - 1) in
  if (bs_max <? clip_min) || (clip_max <? bs_min) then 0
  else
    let mask := wnot 0 in
    let mask :=
      if bs_min <? clip_min then mask &&& wnot (wsub (wshl 1 (clip_min - bs_min)) 1) else mask in
    let mask :=
      if clip_max <? bs_max then mask &&& wsub (wshl 2 (clip_max - bs_min)) 1 else mask in
    w &&& mask.

Fixpoint uclip_words (bs : list Z) (bs_min clip_min clip_max : Z) : list Z :=
  match bs with
  | [] => []
  | w :: bs => uclip_word w bs_min clip_min clip_max
               :: uclip_words bs (wadd bs_min WIDTH) clip_min clip_max
  end.

Definition ucleaf_uclip (node_key : Z) (bs : list Z) (clip_min clip_max : Z) : ucset :=
  let node_min := node_key &&& wnot BITSET_MASK in
  let node_max := node_key ||| BITSET_MASK in
  if (clip_max <? node_min) || (node_max <? clip_min) then Null
  else if (clip_min <=? node_min) && (node_max <=? clip_max) then Leaf node_key bs
  else leaf_or_null node_key (uclip_words bs node_min clip_min clip_max).

(** ** Keys, read as intervals

    A key [k <> 0] covers the keys from [klo k] to [khi k]: all of the open
    interval of [RadixKey], and also [0] when the interval starts there. *)

Definition klo (k : Z) : Z := if k - lb k =? 0 then 0 else k - lb k + 1.
Definition khi (k : Z) : Z := k + lb k - 1.

Lemma klo_khi k : word k -> k <> 0 -> 0 <= klo k <= k /\ k <= khi k /\ word (khi k).
Proof.
  intros Hk Hn. pose proof (lb_bounds k Hk) as [? [? ?]]; [done|].
  unfold klo, khi, word in *. destruct (Z.eqb_spec (k - lb k) 0); lia.
Qed.

Lemma key_covers_spec k x :
  word k -> word x -> key_covers k x = true <-> k <> 0 /\ klo k <= x <= khi k.
Proof.
  intros Hk Hx. unfold key_covers. cbn zeta.
  destruct (Z.eqb_spec k 0) as [->|Hn]; [split; [done|lia]|]. cbn [negb andb].
  destruct (key_mask_spec k x) as (Em & _ & _); [done..|].
  destruct (_ =? _) eqn:E; cbn [andb].
  - pose proof (proj1 (key_coverseq_spec k x Hk Hx) E) as Hr.
    rewrite key_low_spec by done. unfold klo, khi, word in *.
    destruct (Z.eqb_spec (k - lb k) 0), (Z.eqb_spec (x - (k - lb k)) 0), (Z.eqb_spec x 0);
      cbn; split; intros; try done; lia.
  - split; [done|]. intros [_ Hr]. assert (key_coverseq k x = true) as E'; [|by rewrite <- E].
    apply key_coverseq_spec; [done..|]. unfold klo, khi in Hr.
    destruct (Z.eqb_spec (k - lb k) 0); lia.
Qed.

Lemma key_covers_false k x :
  word k -> word x -> k <> 0 -> key_covers k x = false -> x < klo k \/ khi k < x.
Proof.
  intros Hk Hx Hn E. destruct (Z.le_gt_cases (klo k) x), (Z.le_gt_cases x (khi k)); try lia.
  enough (key_covers k x = true) by congruence. by apply key_covers_spec.
Qed.

(** A multiple of 128 has a low bit of at least 128, other words less. *)
Lemma lb_mod k : word k -> k <> 0 ->
  (k mod 128 = 0 -> 128 <= lb k /\ lb k mod 128 = 0) /\ (k mod 128 <> 0 -> lb k <= 64).
Proof.
  intros Hk Hn. destruct (key_odd k Hk Hn) as (b & m & Hb & Hm & E & ->). split; intros Hm0.
  - destruct (Z.le_gt_cases 7 b) as [Hle|Hlt].
    + replace b with (7 + (b - 7)) by lia. rewrite Z.pow_add_r by lia.
      pose proof (pow2_pos (b - 7)). split; [lia|].
      rewrite Z.mul_comm. by apply Z.mod_mul.
    + exfalso. assert (Hb7 : 2 ^ 7 = 2 ^ (6 - b) * (2 * 2 ^ b)).
      { rewrite <- pow2_succ, <- Z.pow_add_r by lia. f_equal. lia. }
      pose proof (Z.div_mod k 128). change 128 with (2 ^ 7) in *.
      rewrite Hb7 in *. pose proof (pow2_pos b).
      assert (((2 * m + 1) - 2 * (2 ^ (6 - b) * (k / (2 ^ (6 - b) * (2 * 2 ^ b))))) * 2 ^ b = 0) by lia.
      apply Z.eq_mul_0 in H1 as [|]; lia.
  - assert (b <= 6).
    { apply Z.nlt_ge. intros Hlt. apply Hm0. rewrite E.
      replace b with (7 + (b - 7)) by lia. rewrite Z.pow_add_r by lia.
      replace ((2 * m + 1) * (2 ^ 7 * 2 ^ (b - 7))) with ((2 * m + 1) * 2 ^ (b - 7) * 128) by lia.
      by apply Z.mod_mul. }
    change 64 with (2 ^ 6). apply Z.pow_le_mono_r; lia.
Qed.

Lemma lb_leaf k : word k -> k mod 128 = 64 -> lb k = 64.
Proof.
  intros Hk Hm. pose proof (Z.div_mod k 128).
  replace k with ((2 * (k / 128) + 1) * 2 ^ 6) by lia. unfold word in *.
  apply lb_odd; [lia|]. apply Z.div_pos; lia.
Qed.

Lemma key_is_leaflike_spec k :
  word k -> key_is_leaflike k = true <-> k = 0 \/ k mod 128 <> 0.
Proof.
  intros Hk. unfold key_is_leaflike. destruct (Z.eqb_spec k 0) as [->|Hn]; [split; auto|].
  destruct (key_odd k Hk Hn) as (b & m & Hb & Hm & E & El).
  rewrite wsub_1 by done. cbn zeta. rewrite E at 1 2. rewrite lowbit_xor_pred by lia.
  rewrite Z.ltb_lt, Z.ones_equiv, pow2_succ, <- El by lia. unfold BITSET_WIDTH.
  destruct (lb_mod k Hk Hn). destruct (Z.eq_dec (k mod 128) 0); lia.
Qed.

Lemma not_leaflike k : word k -> key_is_leaflike k = false -> k <> 0 /\ k mod 128 = 0.
Proof.
  intros Hk E. destruct (Z.eq_dec k 0), (Z.eq_dec (k mod 128) 0); try done;
    enough (key_is_leaflike k = true) by congruence; apply key_is_leaflike_spec; auto.
Qed.

Lemma ucnode_key_spec k : word k -> ucnode_key k = k - k mod 2 /\ key_flag k = (k mod 2 =? 1).
Proof.
  intros Hk. unfold ucnode_key, key_flag. pose proof (Z.mod_pos_bound k 2).
  change (wnot 1) with (wnot (Z.ones 1)). rewrite land_wnot_ones by (done || lia).
  change (Z.land k 1) with (Z.land k (Z.ones 1)). rewrite land_ones_mod by lia.
  change (2 ^ 1) with 2. split; [done|].
  destruct (Z.eqb_spec (k mod 2) 0), (Z.eqb_spec (k mod 2) 1); done || lia.
Qed.

Lemma lor_1 k : word k -> k mod 2 = 0 -> Z.lor k 1 = k + 1.
Proof.
  intros Hk Hm. assert (Z.land k 1 = 0) as E.
  { change 1 with (Z.ones 1). by rewrite land_ones_mod by lia. }
  rewrite <- Z.lxor_lor, <- Z.add_nocarry_lxor by done. done.
Qed.

(** The stored key of a node: [k], or [k | 1] when [k] is an element. *)
Definition node_key (k : Z) (flag : bool) : Z := if flag then Z.lor k 1 else k.

Lemma node_key_spec k f :
  word k -> k mod 2 = 0 ->
  ucnode_key (node_key k f) = k /\ key_flag (node_key k f) = f /\ word (node_key k f).
Proof.
  intros Hk Hm. assert (Hw : word (node_key k f)).
  { destruct f; [|done]. by apply word_lor. }
  destruct (ucnode_key_spec (node_key k f) Hw) as [-> ->]. revert Hw.
  unfold node_key. destruct f; [rewrite lor_1 by done|]; intros; split_and!; try done; dlia.
Qed.

Lemma node_key_eta nk : word nk -> nk = node_key (ucnode_key nk) (key_flag nk).
Proof.
  intros Hk. destruct (ucnode_key_spec nk Hk) as [-> ->]. unfold node_key.
  pose proof (Z.mod_pos_bound nk 2). unfold word in Hk.
  destruct (Z.eqb_spec (nk mod 2) 1); [rewrite lor_1|]; unfold word; dlia.
Qed.

(** ** How two node keys can lie *)

Lemma nested_left k c : word k -> word c -> c <> 0 -> klo k <= c < k -> klo k <= klo c /\ khi c < k.
Proof.
  intros Hk Hc Hn Hr. assert (k <> 0) by (unfold word in *; lia).
  pose proof (klo_khi c Hc Hn). pose proof (klo_khi k Hk).
  destruct (inside_left k c) as [I1 I2]; [done..| |].
  { unfold klo in Hr. destruct (Z.eqb_spec (k - lb k) 0); unfold word in *; lia. }
  unfold klo, khi in *. destruct (Z.eqb_spec (k - lb k) 0), (Z.eqb_spec (c - lb c) 0);
    unfold word in *; lia.
Qed.

Lemma nested_right k c : word k -> word c -> k <> 0 -> k < c <= khi k -> k < klo c /\ khi c <= khi k.
Proof.
  intros Hk Hc Hn Hr. destruct (inside_right k c) as [I1 I2]; [done..|unfold khi in Hr; lia|].
  unfold klo, khi, word in *. destruct (Z.eqb_spec (c - lb c) 0); lia.
Qed.

(** Keys that do not cover one another, [k0] possibly the element [0]: their join
    separates them, unless both are in one leaf. *)
Lemma join_between k0 k1 :
  word k0 -> word k1 -> k0 < k1 -> k0 / 128 <> k1 / 128 ->
  key_covers k0 k1 = false -> key_covers k1 k0 = false ->
  let j := key_join k0 k1 in
  key_join k1 k0 = j /\ word j /\ j <> 0 /\ j mod 128 = 0 /\ klo j <= k0 < j /\ j < k1 <= khi j.
Proof.
  intros H0 H1 Hlt Hb C0 C1. cbn zeta.
  destruct (key_join_base k0 k1) as (Ec & Hj & Hn & R0 & R1 & El); [done..|].
  cbn zeta in *. set (j := key_join k0 k1) in *. unfold khi.
  assert (Hm : j mod 128 = 0).
  { destruct (Z.le_gt_cases 7 (Z.log2 (k0 ^^^ k1))).
    - destruct (lb_mod j Hj Hn) as [_ Hlm]. destruct (Z.eq_dec (j mod 128) 0) as [|Hjm]; [done|].
      specialize (Hlm Hjm). rewrite El in Hlm.
      pose proof (Z.pow_le_mono_r 2 7 (Z.log2 (k0 ^^^ k1))). lia.
    - destruct Hb. change 128 with (2 ^ 7). unfold word in *. apply div_pow2_xor; lia. }
  assert (Hk1 : k1 <> 0) by (unfold word in *; lia).
  apply key_covers_false in C1 as C1'; [|done..]. unfold klo, khi in *.
  destruct (Z.eq_dec k0 0) as [->|Hk0].
  - destruct (Z.eqb_spec (j - lb j) 0); [|pose proof (lb_bounds j Hj) as [? [? ?]]; [done|lia]].
    assert (k1 <> j); [|split_and!; done || lia]. intros E. rewrite E in C1'.
    destruct (Z.eqb_spec (j - lb j) 0); lia.
  - apply key_covers_false in C0 as C0'; [|done..]. unfold klo, khi in *.
    destruct (key_join_spec k0 k1) as (_ & _ & _ & S0 & S1 & S2 & S3); [done..| |].
    { split.
      - destruct (Z.eqb_spec (k0 - lb k0) 0); lia.
      - destruct (Z.eqb_spec (k1 - lb k1) 0); lia. }
    fold j in S0, S1, S2, S3. pose proof (lb_bounds k0 H0). pose proof (lb_bounds k1 H1).
    destruct (Z.eqb_spec (j - lb j) 0); split_and!; done || lia.
Qed.

Lemma disjoint_keys k0 k1 :
  word k0 -> word k1 -> k0 <> 0 -> k0 < k1 ->
  key_covers k0 k1 = false -> key_covers k1 k0 = false -> khi k0 < klo k1.
Proof.
  intros H0 H1 Hk0 Hlt C0 C1. assert (Hk1 : k1 <> 0) by (unfold word in *; lia).
  apply key_covers_false in C0 as C0'; [|done..]. apply key_covers_false in C1 as C1'; [|done..].
  unfold klo, khi in *. assert (Ha : apart k0 k1).
  { split; [destruct (Z.eqb_spec (k0 - lb k0) 0); lia|].
    destruct (Z.eqb_spec (k1 - lb k1) 0); lia. }
  pose proof (apart_disjoint k0 k1 H0 H1 Hlt Ha). pose proof (lb_bounds k0 H0).
  destruct (Z.eqb_spec (k1 - lb k1) 0); unfold word in *; lia.
Qed.

(** ** Bits of a leaf *)

Lemma land_BITSET_MASK x : x &&& BITSET_MASK = x mod 128.
Proof. change BITSET_MASK with (Z.ones 7). by rewrite land_ones_mod by lia. Qed.

Lemma land_not_BITSET_MASK x : word x -> (x &&& wnot BITSET_MASK) = x - x mod 128.
Proof. intros Hx. change BITSET_MASK with (Z.ones 7). by rewrite land_wnot_ones by (done || lia). Qed.

Lemma leaf_key_spec x : word x -> leaf_key x = x - x mod 128 + 64 /\ word (leaf_key x).
Proof.
  intros Hx. unfold leaf_key. rewrite land_not_BITSET_MASK by done.
  change ((BITSET_MASK + 1) >>> 1) with (2 ^ 6).
  assert (E : Z.land (x - x mod 128) (2 ^ 6) = 0).
  { rewrite land_pow2 by lia. replace (x - x mod 128) with (x / 128 * 2 ^ 7) by dlia.
    rewrite Z.mul_pow2_bits by lia. by rewrite Z.testbit_neg_r by lia. }
  rewrite <- Z.lxor_lor, <- Z.add_nocarry_lxor by done. change (2 ^ 6) with 64.
  split; [done|]. unfold word in *. dlia.
Qed.

(** A leaf bit set: two words. *)
Definition bs_wf (bs : list Z) : Prop := length bs = 2%nat /\ Forall word bs.

#[global] Instance bs_wf_dec bs : Decision (bs_wf bs).
Proof. unfold bs_wf. apply _. Defined.

Definition leaf_bit (bs : list Z) (i : Z) : bool := Z.testbit (bitset_word bs i) (i mod 64).

Lemma bs_wf_inv bs : bs_wf bs -> exists w0 w1, bs = [w0; w1] /\ word w0 /\ word w1.
Proof.
  intros [Hl Hw]. destruct bs as [|w0 [|w1 [|]]]; try done.
  inversion_clear Hw as [|?? H0 Hw']. inversion_clear Hw' as [|?? H1 _]. by exists w0, w1.
Qed.

Lemma bs_wf_2 w0 w1 : word w0 -> word w1 -> bs_wf [w0; w1].
Proof. intros. split; [done|]. by repeat apply List.Forall_cons. Qed.

Lemma leaf_bit_2 w0 w1 i :
  0 <= i < 128 -> leaf_bit [w0; w1] i = if i <? 64 then Z.testbit w0 i else Z.testbit w1 (i - 64).
Proof.
  intros Hi. unfold leaf_bit, bitset_word, WIDTH. destruct (Z.ltb_spec i 64).
  - rewrite Z.div_small, Z.mod_small by lia. done.
  - replace i with (i - 64 + 1 * 64) by lia. rewrite Z.div_add, Z.mod_add by lia.
    rewrite Z.div_small, Z.mod_small by lia. simpl. f_equal. lia.
Qed.

(** The two words and a bit number in one of them. *)
Lemma leaf_bit_cases (bs : list Z) (P : list Z -> Z -> Prop) i :
  bs_wf bs -> 0 <= i < 128 ->
  (forall w0 w1, word w0 -> word w1 -> P [w0; w1] i) -> P bs i.
Proof. intros (w0 & w1 & -> & ? & ?)%bs_wf_inv Hi HP. by apply HP. Qed.

Lemma bitset_bit_spec i : 0 <= i -> bitset_bit i = 2 ^ (i mod 64).
Proof.
  intros Hi. unfold bitset_bit, WIDTH. apply wshl_1. apply Z.mod_pos_bound. lia.
Qed.

Lemma ucleaf_find_spec bs x : ucleaf_find bs x = leaf_bit bs (x mod 128).
Proof.
  unfold ucleaf_find, leaf_bit. cbn zeta. rewrite land_BITSET_MASK.
  pose proof (Z.mod_pos_bound x 128). rewrite bitset_bit_spec by lia.
  apply land_pow2_neq0. apply Z.mod_pos_bound. lia.
Qed.

Lemma bitset_update_2 w0 w1 i w :
  0 <= i < 128 -> bitset_update [w0; w1] i w = if i <? 64 then [w; w1] else [w0; w].
Proof.
  intros Hi. unfold bitset_update, WIDTH. destruct (Z.ltb_spec i 64).
  - by rewrite Z.div_small by lia.
  - replace i with (i - 64 + 1 * 64) by lia. rewrite Z.div_add, Z.div_small by lia. done.
Qed.

Lemma bitset_word_2 w0 w1 i : 0 <= i < 128 -> bitset_word [w0; w1] i = if i <? 64 then w0 else w1.
Proof.
  intros Hi. unfold bitset_word, WIDTH. destruct (Z.ltb_spec i 64).
  - by rewrite Z.div_small by lia.
  - replace i with (i - 64 + 1 * 64) by lia. rewrite Z.div_add, Z.div_small by lia. done.
Qed.

(** Updating one bit with a word operation that changes that bit only. *)
Lemma bitset_update_spec bs i w b :
  bs_wf bs -> 0 <= i < 128 -> word w ->
  (forall j, 0 <= j < 64 ->
     Z.testbit w j = if j =? i mod 64 then b else Z.testbit (bitset_word bs i) j) ->
  bs_wf (bitset_update bs i w) /\
  forall j, 0 <= j < 128 -> leaf_bit (bitset_update bs i w) j = if j =? i then b else leaf_bit bs j.
Proof.
  intros (w0 & w1 & -> & H0 & H1)%bs_wf_inv Hi Hw HwB.
  rewrite bitset_word_2 in HwB by done. rewrite bitset_update_2 by done.
  split; [destruct (i <? 64); by apply bs_wf_2|].
  intros j Hj. rewrite (leaf_bit_2 w0) by done.
  destruct (Z.ltb_spec i 64); rewrite leaf_bit_2 by done; destruct (Z.ltb_spec j 64).
  - rewrite HwB by lia. rewrite (Z.mod_small i) by lia. done.
  - by rewrite (proj2 (Z.eqb_neq j i)) by lia.
  - by rewrite (proj2 (Z.eqb_neq j i)) by lia.
  - rewrite HwB by lia. replace (i mod 64) with (i - 64) by dlia.
    destruct (Z.eqb_spec j i), (Z.eqb_spec (j - 64) (i - 64)); done || lia.
Qed.

Lemma bs_wf_word bs i : bs_wf bs -> 0 <= i < 128 -> word (bitset_word bs i).
Proof.
  intros (w0 & w1 & -> & H0 & H1)%bs_wf_inv Hi. rewrite bitset_word_2 by done. by destruct (i <? 64).
Qed.

Lemma bitset_insert_spec bs i :
  bs_wf bs -> 0 <= i < 128 ->
  let bs' := bitset_update bs i (bitset_word bs i ||| bitset_bit i) in
  bs_wf bs' /\ forall j, 0 <= j < 128 -> leaf_bit bs' j = leaf_bit bs j || (j =? i).
Proof.
  intros Hb Hi. cbn zeta. rewrite bitset_bit_spec by lia.
  pose proof (Z.mod_pos_bound i 64). pose proof (bs_wf_word bs i Hb Hi).
  destruct (bitset_update_spec bs i (bitset_word bs i ||| 2 ^ (i mod 64)) true) as [Hwf Hs]; try done.
  - apply word_lor; [done|]. rewrite <- wshl_1 by lia. apply word_wshl.
  - intros j Hj. rewrite Z.lor_spec, testbit_pow2 by lia.
    destruct (j =? i mod 64); [by rewrite orb_true_r|by rewrite orb_false_r].
  - split; [done|]. intros j Hj. rewrite Hs by done.
    destruct (j =? i); [by rewrite orb_true_r|by rewrite orb_false_r].
Qed.

Lemma bitset_erase_spec bs i :
  bs_wf bs -> 0 <= i < 128 ->
  let bs' := bitset_update bs i (bitset_word bs i &&& wnot (bitset_bit i)) in
  bs_wf bs' /\ forall j, 0 <= j < 128 -> leaf_bit bs' j = leaf_bit bs j && negb (j =? i).
Proof.
  intros Hb Hi. cbn zeta. rewrite bitset_bit_spec by lia.
  pose proof (Z.mod_pos_bound i 64). pose proof (bs_wf_word bs i Hb Hi).
  assert (Hp : word (2 ^ (i mod 64))) by (rewrite <- wshl_1 by lia; apply word_wshl).
  destruct (bitset_update_spec bs i (bitset_word bs i &&& wnot (2 ^ (i mod 64))) false)
    as [Hwf Hs]; try done.
  - auto with wordb.
  - intros j Hj. rewrite Z.land_spec, testbit_wnot, testbit_pow2 by lia.
    rewrite (proj2 (Z.leb_le 0 j)), (proj2 (Z.ltb_lt j 64)) by lia. cbn [andb].
    destruct (j =? i mod 64); cbn; [by rewrite andb_false_r|].
    by destruct (Z.testbit _ j).
  - split; [done|]. intros j Hj. rewrite Hs by done.
    destruct (j =? i); cbn; [by rewrite andb_false_r|by rewrite andb_true_r].
Qed.

Lemma leaf_bit_ext bs bs' :
  bs_wf bs -> bs_wf bs' -> (forall i, 0 <= i < 128 -> leaf_bit bs i = leaf_bit bs' i) -> bs = bs'.
Proof.
  intros (w0 & w1 & -> & H0 & H1)%bs_wf_inv (v0 & v1 & -> & G0 & G1)%bs_wf_inv He.
  f_equal; [|f_equal]; (apply word_ext; [done..|]); intros i Hi.
  - specialize (He i). rewrite !leaf_bit_2, (proj2 (Z.ltb_lt i 64)) in He by lia. apply He. lia.
  - specialize (He (i + 64)). rewrite !leaf_bit_2, (proj2 (Z.ltb_ge (i + 64) 64)) in He by lia.
    replace (i + 64 - 64) with i in He by lia. apply He. lia.
Qed.

Lemma word_nonzero_bit w : word w -> w <> 0 -> exists i, 0 <= i < 64 /\ Z.testbit w i = true.
Proof.
  intros Hw Hn. unfold word in Hw. exists (Z.log2 w). split; [|apply Z.bit_log2; lia].
  split; [apply Z.log2_nonneg|apply Z.log2_lt_pow2; lia].
Qed.

(** Some bit is set. *)
Lemma bs_nonzero_spec bs :
  bs_wf bs ->
  existsb (fun w => negb (w =? 0)) bs = true <-> exists i, 0 <= i < 128 /\ leaf_bit bs i = true.
Proof.
  intros (w0 & w1 & -> & H0 & H1)%bs_wf_inv. cbn [existsb].
  rewrite orb_false_r, orb_true_iff, !negb_true_iff, !Z.eqb_neq. split.
  - intros [Hn|Hn]; (apply word_nonzero_bit in Hn; [|assumption]); destruct Hn as (i & Hi & Hb).
    + exists i. rewrite leaf_bit_2, (proj2 (Z.ltb_lt i 64)) by lia. split; [lia|done].
    + exists (i + 64). rewrite leaf_bit_2, (proj2 (Z.ltb_ge (i + 64) 64)) by lia.
      replace (i + 64 - 64) with i by lia. split; [lia|done].
  - intros (i & Hi & Hb). rewrite leaf_bit_2 in Hb by lia.
    destruct (i <? 64); [left|right]; intros ->; by rewrite Z.bits_0 in Hb.
Qed.

Lemma bs_zero_spec bs i :
  bs_wf bs -> existsb (fun w => negb (w =? 0)) bs = false -> 0 <= i < 128 -> leaf_bit bs i = false.
Proof.
  intros Hb E Hi. destruct (leaf_bit bs i) eqn:Ei; [|done].
  assert (existsb (fun w => negb (w =? 0)) bs = true); [|congruence].
  apply bs_nonzero_spec; [done|]. by exists i.
Qed.

(** Word-wise combination of two leaves. *)
Lemma zip_words_spec (f : Z -> Z -> Z) (g : bool -> bool -> bool) bs bs' :
  (forall x y, word x -> word y -> word (f x y)) ->
  (forall x y j, 0 <= j < 64 -> Z.testbit (f x y) j = g (Z.testbit x j) (Z.testbit y j)) ->
  bs_wf bs -> bs_wf bs' ->
  bs_wf (zip_with f bs bs') /\
  forall i, 0 <= i < 128 -> leaf_bit (zip_with f bs bs') i = g (leaf_bit bs i) (leaf_bit bs' i).
Proof.
  intros Hw Hf (w0 & w1 & -> & H0 & H1)%bs_wf_inv (v0 & v1 & -> & G0 & G1)%bs_wf_inv.
  cbn [zip_with]. split; [apply bs_wf_2; auto|]. intros i Hi. rewrite !leaf_bit_2 by done.
  destruct (Z.ltb_spec i 64); apply Hf; lia.
Qed.

Lemma zip_union_spec bs bs' : bs_wf bs -> bs_wf bs' ->
  bs_wf (zip_with Z.lor bs bs') /\
  forall i, 0 <= i < 128 -> leaf_bit (zip_with Z.lor bs bs') i = leaf_bit bs i || leaf_bit bs' i.
Proof. apply zip_words_spec; [auto with wordb|]. intros. apply Z.lor_spec. Qed.

Lemma zip_isecn_spec bs bs' : bs_wf bs -> bs_wf bs' ->
  bs_wf (zip_with Z.land bs bs') /\
  forall i, 0 <= i < 128 -> leaf_bit (zip_with Z.land bs bs') i = leaf_bit bs i && leaf_bit bs' i.
Proof. apply zip_words_spec; [auto with wordb|]. intros. apply Z.land_spec. Qed.

Lemma zip_minus_spec bs bs' : bs_wf bs -> bs_wf bs' ->
  bs_wf (zip_with (fun l r => l &&& wnot r) bs bs') /\
  forall i, 0 <= i < 128 ->
    leaf_bit (zip_with (fun l r => l &&& wnot r) bs bs') i = leaf_bit bs i && negb (leaf_bit bs' i).
Proof.
  apply (zip_words_spec _ (fun a b => a && negb b)); [auto with wordb|].
  intros x y j Hj. rewrite Z.land_spec, testbit_wnot. bits_split. destruct (Z.testbit x j), (Z.testbit y j); done.
Qed.

Lemma ucleaf_subeq_spec bs bs' : bs_wf bs -> bs_wf bs' ->
  ucleaf_subeq bs bs' = true <-> forall i, 0 <= i < 128 -> leaf_bit bs i = true -> leaf_bit bs' i = true.
Proof.
  intros Hb Hb'. destruct (zip_minus_spec bs bs' Hb Hb') as [Hz Hs].
  assert (E : ucleaf_subeq bs bs' =
    negb (existsb (fun w => negb (w =? 0)) (zip_with (fun l r => l &&& wnot r) bs bs'))).
  { apply bs_wf_inv in Hb as (w0 & w1 & -> & _). apply bs_wf_inv in Hb' as (v0 & v1 & -> & _).
    cbn [ucleaf_subeq existsb zip_with]. do 2 destruct (_ =? 0); done. }
  rewrite E, negb_true_iff. split.
  - intros Ez i Hi Hi1. specialize (Hs i Hi). rewrite (bs_zero_spec _ i Hz Ez Hi) in Hs.
    rewrite Hi1 in Hs. by destruct (leaf_bit bs' i).
  - intros Ha. destruct (existsb _ _) eqn:Ee; [|done]. apply bs_nonzero_spec in Ee as (i & Hi & Hb1); [|done].
    rewrite Hs in Hb1 by done. apply andb_true_iff in Hb1 as [H1 H2]. by rewrite (Ha i Hi H1) in H2.
Qed.

Lemma ucleaf_disjoint_spec bs bs' : bs_wf bs -> bs_wf bs' ->
  ucleaf_disjoint bs bs' = true <-> forall i, 0 <= i < 128 -> leaf_bit bs i && leaf_bit bs' i = false.
Proof.
  intros Hb Hb'. destruct (zip_isecn_spec bs bs' Hb Hb') as [Hz Hs].
  assert (E : ucleaf_disjoint bs bs' =
    negb (existsb (fun w => negb (w =? 0)) (zip_with Z.land bs bs'))).
  { apply bs_wf_inv in Hb as (w0 & w1 & -> & _). apply bs_wf_inv in Hb' as (v0 & v1 & -> & _).
    cbn [ucleaf_disjoint existsb zip_with]. do 2 destruct (_ =? 0); done. }
  rewrite E, negb_true_iff. split.
  - intros Ez i Hi. rewrite <- Hs by done. by apply bs_zero_spec.
  - intros Ha. destruct (existsb _ _) eqn:Ee; [|done]. apply bs_nonzero_spec in Ee as (i & Hi & Hb1); [|done].
    rewrite Hs, Ha in Hb1 by done. done.
Qed.

(** ** Clipping a leaf *)

Lemma ones_below n : 0 <= n < 64 -> wsub (wshl 1 n) 1 = Z.ones n.
Proof.
  intros Hn. rewrite wshl_1 by done. unfold wsub. assert (2 ^ n < 2 ^ 64) by (apply Z.pow_lt_mono_r; lia).
  pose proof (pow2_pos n). rewrite wrap_small by (unfold word; lia). rewrite Z.ones_equiv. lia.
Qed.

Lemma ones_upto n : 0 <= n < 63 -> wsub (wshl 2 n) 1 = Z.ones (n + 1).
Proof.
  intros Hn. rewrite <- ones_below by lia. f_equal. unfold wshl. f_equal.
  rewrite !Z.shiftl_mul_pow2 by lia. rewrite pow2_succ; lia.
Qed.


Lemma word_ones n : 0 <= n <= 64 -> word (Z.ones n).
Proof.
  intros Hn. rewrite Z.ones_equiv. pose proof (pow2_pos n).
  assert (2 ^ n <= 2 ^ 64) by (apply Z.pow_le_mono_r; lia). unfold word. lia.
Qed.

Lemma clip_mask_low m lo :
  0 <= m -> m + 63 < 2 ^ 64 -> word lo -> lo <= m + 63 ->
  let mask := if m <? lo then wnot 0 &&& wnot (wsub (wshl 1 (lo - m)) 1) else wnot 0 in
  word mask /\ forall j, 0 <= j < 64 -> Z.testbit mask j = (lo <=? m + j).
Proof.
  intros Hm Hmm Hlo Hl. cbn zeta. destruct (Z.ltb_spec m lo).
  - rewrite ones_below by lia. pose proof (word_ones (lo - m)). split; [auto 6 with wordb lia|].
    intros j Hj. bits_rw. bits_split; done.
  - split; [done|]. intros j Hj. bits_rw. bits_split; done.
Qed.

Lemma clip_mask_high mask m hi :
  0 <= m -> m + 63 < 2 ^ 64 -> word hi -> m <= hi -> word mask ->
  let mask' := if hi <? m + 63 then mask &&& wsub (wshl 2 (hi - m)) 1 else mask in
  word mask' /\ forall j, 0 <= j < 64 -> Z.testbit mask' j = Z.testbit mask j && (m + j <=? hi).
Proof.
  intros Hm Hmm Hhi Hl Hw. cbn zeta. destruct (Z.ltb_spec hi (m + 63)).
  - rewrite ones_upto by lia. pose proof (word_ones (hi - m + 1)). split; [auto 6 with wordb lia|].
    intros j Hj. bits_rw. bits_split; done.
  - split; [done|]. intros j Hj. bits_split; by rewrite ?andb_true_r.
Qed.

Lemma uclip_word_spec w m lo hi :
  word w -> 0 <= m -> m + 63 < 2 ^ 64 -> word lo -> word hi ->
  word (uclip_word w m lo hi) /\
  forall j, 0 <= j < 64 ->
    Z.testbit (uclip_word w m lo hi) j = Z.testbit w j && ((lo <=? m + j) && (m + j <=? hi)).
Proof.
  intros Hw Hm Hmm Hlo Hhi. unfold uclip_word.
  unfold wadd, WIDTH. rewrite (wrap_small (m + _)) by (unfold word; lia).
  replace (m + (64 - 1)) with (m + 63) by lia.
  destruct (_ || _) eqn:E.
  { split; [done|]. intros j Hj. rewrite Z.bits_0.
    bits_split; by rewrite ?andb_false_r. }
  apply orb_false_iff in E as [E0%Z.ltb_ge E1%Z.ltb_ge].
  destruct (clip_mask_low m lo Hm Hmm Hlo E0) as [W1 S1]. cbn zeta in *.
  set (mask := if m <? lo then _ else _) in *.
  destruct (clip_mask_high mask m hi Hm Hmm Hhi E1 W1) as [W2 S2]. cbn zeta in *.
  split; [by apply word_land|]. intros j Hj. by rewrite Z.land_spec, S2, S1 by done.
Qed.

Lemma uclip_words_spec bs m lo hi :
  bs_wf bs -> 0 <= m -> m + 127 < 2 ^ 64 -> word lo -> word hi ->
  bs_wf (uclip_words bs m lo hi) /\
  forall i, 0 <= i < 128 ->
    leaf_bit (uclip_words bs m lo hi) i = leaf_bit bs i && ((lo <=? m + i) && (m + i <=? hi)).
Proof.
  intros (w0 & w1 & -> & H0 & H1)%bs_wf_inv Hm Hmm Hlo Hhi. cbn [uclip_words].
  unfold wadd, WIDTH. rewrite wrap_small by (unfold word; lia).
  destruct (uclip_word_spec w0 m lo hi) as [W0 S0]; [done || lia..|].
  destruct (uclip_word_spec w1 (m + 64) lo hi) as [W1 S1]; [done || lia..|].
  split; [by apply bs_wf_2|]. intros i Hi. rewrite !leaf_bit_2 by done.
  destruct (Z.ltb_spec i 64); [apply S0; lia|]. rewrite S1 by lia. do 2 f_equal; f_equal; lia.
Qed.

(** ** Filtering a leaf, when the callback's answer does not depend on its state *)

Lemma to_int_succ x : to_int (to_int x + 1) = to_int (x + 1).
Proof.
  assert (E : wrapw 32 (to_int x + 1) = wrapw 32 (x + 1)).
  { unfold to_int, wrapw. cbn zeta. destruct (_ <? _).
    - apply Zplus_mod_idemp_l.
    - replace (x mod 2 ^ 32 - 2 ^ 32 + 1) with (x mod 2 ^ 32 + 1 + (-1) * 2 ^ 32) by lia.
      rewrite Z.mod_add by lia. apply Zplus_mod_idemp_l. }
  unfold to_int at 1 3. by rewrite E.
Qed.

Section filter_spec.
Context {S : Type} (f : S -> Z -> S * bool) (p : Z -> bool).
Context (Hf : forall s k, snd (f s k) = p k).

Lemma filter_bits_S n bit bits key chg s :
  filter_bits f (Datatypes.S n) bit bits key chg s =
  if bit =? 0 then (s, (bits, key, chg))
  else
    let '(s, (bits, chg)) :=
      if negb ((bits &&& bit) =? 0) then
        let '(s, keep) := f s (wrap key) in
        if keep then (s, (bits, chg)) else (s, (bits &&& wnot bit, true))
      else (s, (bits, chg)) in
    filter_bits f n (wshl bit 1) bits (to_int (key + 1)) chg s.
Proof. reflexivity. Qed.

Lemma filter_bits_spec n base w chg s :
  (n <= 64)%nat -> word w ->
  let j := 64 - Z.of_nat n in
  exists s' w' chg',
    filter_bits f (Datatypes.S n) (wshl 1 j) w (to_int (base + j)) chg s
      = (s', (w', to_int (base + 64), chg')) /\
    word w' /\ (chg' = false -> chg = false /\ w' = w) /\
    forall i, 0 <= i < 64 ->
      Z.testbit w' i = Z.testbit w i && ((i <? j) || p (wrap (to_int (base + i)))).
Proof.
  revert w chg s. induction n as [|n IH]; intros w chg s Hn Hw j.
  - exists s, w, chg. subst j. cbn. split_and!; try done.
    intros i Hi. rewrite (proj2 (Z.ltb_lt i _)) by lia. by rewrite andb_true_r.
  - subst j. rewrite Nat2Z.inj_succ. rewrite filter_bits_S. set (j := 64 - Z.succ (Z.of_nat n)).
    rewrite wshl_1 by lia. pose proof (pow2_pos j).
    rewrite (proj2 (Z.eqb_neq _ 0)) by lia. rewrite land_pow2_neq0 by lia.
    replace (wshl (2 ^ j) 1) with (wshl 1 (64 - Z.of_nat n)); cycle 1.
    { unfold wshl. rewrite !Z.shiftl_mul_pow2 by lia.
      replace (64 - Z.of_nat n) with (j + 1) by lia. rewrite pow2_succ by lia. f_equal. lia. }
    rewrite to_int_succ. replace (base + j + 1) with (base + (64 - Z.of_nat n)) by lia.
    assert (Hp2 : word (2 ^ j)) by (rewrite <- wshl_1 by lia; apply word_wshl).
    destruct (Z.testbit w j) eqn:Ej.
    + specialize (Hf s (wrap (to_int (base + j)))) as Hk.
      destruct (f s _) as [s1 keep]. cbn in Hk. subst keep. destruct (p _) eqn:Ep.
      * destruct (IH w chg s1) as (s' & w' & chg' & -> & W & C & B); [lia|done|].
        exists s', w', chg'. split_and!; try done. intros i Hi. rewrite B by done.
        destruct (Z.eq_dec i j) as [->|].
        -- rewrite Ep, !orb_true_r. done.
        -- f_equal. f_equal. bits_split; done.
      * destruct (IH (w &&& wnot (2 ^ j)) true s1) as (s' & w' & chg' & -> & W & C & B);
          [lia|auto with wordb|].
        exists s', w', chg'. split_and!; try done.
        { intros Hc. by destruct (C Hc). }
        intros i Hi. rewrite B by done. rewrite Z.land_spec, testbit_wnot, testbit_pow2 by lia.
        destruct (Z.eq_dec i j) as [->|].
        -- rewrite Ep, Ej. bits_split; done.
        -- bits_split; rewrite ?andb_true_r; done.
    + destruct (IH w chg s) as (s' & w' & chg' & -> & W & C & B); [lia|done|].
      exists s', w', chg'. split_and!; try done. intros i Hi. rewrite B by done.
      destruct (Z.eq_dec i j) as [->|]; [by rewrite Ej|]. f_equal. f_equal. bits_split; done.
Qed.

Lemma filter_words_spec base bs s :
  bs_wf bs ->
  exists s' bs' chg,
    filter_words f bs (to_int base) false s = (s', (bs', chg)) /\
    bs_wf bs' /\ (chg = false -> bs' = bs) /\
    forall i, 0 <= i < 128 -> leaf_bit bs' i = leaf_bit bs i && p (wrap (to_int (base + i))).
Proof.
  intros (w0 & w1 & -> & H0 & H1)%bs_wf_inv. unfold filter_words. fold (filter_bits f).
  destruct (filter_bits_spec 64 base w0 false s) as (s1 & w0' & c1 & E1 & W1 & C1 & B1); [lia|done|].
  change (64 - Z.of_nat 64) with 0 in *. rewrite Z.add_0_r in E1. change (wshl 1 0) with 1 in *.
  rewrite E1.
  destruct (filter_bits_spec 64 (base + 64) w1 c1 s1) as (s2 & w1' & c2 & E2 & W2 & C2 & B2); [lia|done|].
  change (64 - Z.of_nat 64) with 0 in *. rewrite Z.add_0_r in E2. change (wshl 1 0) with 1 in *.
  rewrite E2.
  exists s2, [w0'; w1'], c2. split_and!; [done|by apply bs_wf_2| |].
  - intros Hc. destruct (C2 Hc) as [Hc1 ->]. by destruct (C1 Hc1) as [_ ->].
  - intros i Hi. rewrite !leaf_bit_2 by done. destruct (Z.ltb_spec i 64).
    + rewrite B1 by lia. by rewrite (proj2 (Z.ltb_ge i 0)) by lia.
    + rewrite B2 by lia. rewrite (proj2 (Z.ltb_ge (i - 64) 0)) by lia. cbn [orb].
      do 4 f_equal. lia.
Qed.
End filter_spec.
