(* ===== verification/Ucset.v ===== *)
(** * Constructive integer sets: [cucon/ucset.c]

    The operations on whole trees, on the representation of [UcsetLeaf], in the
    order of the source.  Loops and tail calls of the source are recursive calls;
    where the arguments of a recursive call are not structurally smaller the
    function takes fuel and returns [None] when it runs out, and the lemmas on it
    show that the fuel its caller gives is enough.  Where the source asks
    [_key_is_leaflike] of the key of a node it recurses into, the model matches on
    the constructor.  Callbacks are functions that thread a state of any type, as
    the [cu_clop] closures can. *)

From S2P Require Export UcsetLeaf.

(** The fields of a node, with a value of no consequence where there is none. *)
Definition skey (s : ucset) : Z := match s with Null => 0 | Leaf k _ | Node k _ _ => k end.
Definition sleft (s : ucset) : ucset := match s with Node _ l _ => l | _ => Null end.
Definition sright (s : ucset) : ucset := match s with Node _ _ r => r | _ => Null end.
Definition bitset (s : ucset) : list Z := match s with Leaf _ bs => bs | _ => [] end.

Definition root (s : ucset) : Z := ucnode_key (skey s).
Definition ucnode_new (key : Z) (l r : ucset) : ucset := Node key l r.

(** The number of nodes, from which the fuel is computed. *)
Fixpoint tree_size (s : ucset) : nat :=
  match s with Null => 1 | Leaf _ _ => 1 | Node _ l r => 1 + tree_size l + tree_size r end.

Definition cucon_ucset_eq (set0 set1 : ucset) : bool := ptr_eq set0 set1.
Definition cucon_ucset_empty : ucset := Null.
Definition cucon_ucset_is_empty (s : ucset) : bool := is_null s.

(** ** Comparisons *)

Fixpoint subeq_go (fuel : nat) (lhs rhs : ucset) : option bool :=
  match fuel with
  | O => None
  | S fuel =>
      if ptr_eq lhs rhs then Some true
      else if is_null lhs then Some true
      else if is_null rhs then Some false
      else
        let lhs_key := ucnode_key (skey lhs) in
        let rhs_key := ucnode_key (skey rhs) in
        if lhs_key =? rhs_key then
          if key_is_leaflike lhs_key then Some (ucleaf_subeq (bitset lhs) (bitset rhs))
          else if (skey rhs &&& 1) <? (skey lhs &&& 1) then Some false
          else
            l ← subeq_go fuel (sleft lhs) (sleft rhs);
            if negb l then Some false else subeq_go fuel (sright lhs) (sright rhs)
        else if key_covers rhs_key lhs_key then
          if lhs_key <? rhs_key then subeq_go fuel lhs (sleft rhs)
          else subeq_go fuel lhs (sright rhs)
        else Some false
  end.

(** Enough for any operation on two trees; a swap of the arguments counts one. *)
Definition fuel2 (lhs rhs : ucset) : nat := S (2 * (tree_size lhs + tree_size rhs)).

Definition cucon_ucset_subeq (lhs rhs : ucset) : bool :=
  default false (subeq_go (fuel2 lhs rhs) lhs rhs).

Fixpoint disjoint_go (fuel : nat) (lhs rhs : ucset) : option bool :=
  match fuel with
  | O => None
  | S fuel =>
      if is_null lhs || is_null rhs then Some true
      else if ptr_eq lhs rhs then Some false
      else
        let lhs_key := ucnode_key (skey lhs) in
        let rhs_key := ucnode_key (skey rhs) in
        if lhs_key =? rhs_key then
          if key_is_leaflike lhs_key then Some (ucleaf_disjoint (bitset lhs) (bitset rhs))
          else if negb ((uint (skey lhs) &&& uint (skey rhs) &&& 1) =? 0) then Some false
          else
            l ← disjoint_go fuel (sleft lhs) (sleft rhs);
            if negb l then Some false else disjoint_go fuel (sright lhs) (sright rhs)
        else if key_covers rhs_key lhs_key then
          if lhs_key <? rhs_key then disjoint_go fuel lhs (sleft rhs)
          else disjoint_go fuel lhs (sright rhs)
        else if key_covers lhs_key rhs_key then
          if rhs_key <? lhs_key then disjoint_go fuel (sleft lhs) rhs
          else disjoint_go fuel (sright lhs) rhs
        else Some true
  end.

Definition cucon_ucset_disjoint (lhs rhs : ucset) : bool :=
  default false (disjoint_go (fuel2 lhs rhs) lhs rhs).

(** ** Singletons *)

Definition cucon_ucset_singleton (key : Z) : ucset :=
  if key_is_leaflike key then ucleaf_new key else ucnode_new (key ||| 1) Null Null.

Definition cucon_ucset_is_singleton (s : ucset) : bool :=
  let key := ucnode_key (skey s) in
  if key_is_leaflike key then ucleaf_is_singleton (bitset s)
  else is_null (sleft s) && is_null (sright s).

(** ** From a sorted array

    The array pointer and the length are the list of the remaining keys. *)

(** The inner [do]-[while] loop that skips the copies of the current key. *)
Fixpoint drop_key (key : Z) (arr : list Z) : list Z :=
  match arr with
  | x :: arr' => if x =? key then drop_key key arr' else arr
  | [] => []
  end.
Definition skip_key (key : Z) (arr : list Z) : list Z := drop_key key (tl arr).

Fixpoint leaf_from_sorted_loop (fuel : nat) (bs : list Z) (cur_key cur_key_max : Z) (arr : list Z)
    : option (list Z * list Z) :=
  match fuel with
  | O => None
  | S fuel =>
      let arr := skip_key cur_key arr in
      let j := cur_key &&& BITSET_MASK in
      let bs := bitset_update bs j (bitset_word bs j ||| bitset_bit j) in
      match arr with
      | [] => Some (bs, arr)
      | cur_key :: _ =>
          if cur_key <=? cur_key_max then leaf_from_sorted_loop fuel bs cur_key cur_key_max arr
          else Some (bs, arr)
      end
  end.

Definition ucset_leaf_from_sorted_array (arr : list Z) : option (ucset * list Z) :=
  match arr with
  | [] => Some (Null, [])
  | cur_key :: _ =>
      let cur_key_max := cur_key ||| BITSET_MASK in
      '(bs, arr) ← leaf_from_sorted_loop (S (length arr)) (replicate BITSET_SIZEW 0)
                     cur_key cur_key_max arr;
      Some (Leaf (leaf_key cur_key) bs, arr)
  end.

(** [_ucset_from_sorted_array]: its body up to the loop, and the loop, which
    recurses into the body for the right children. *)
Fixpoint ucset_from_sorted_array (fuel : nat) (max_key : Z) (arr : list Z)
    : option (ucset * list Z) :=
  match fuel with
  | O => None
  | S fuel =>
      match arr with
      | [] => Some (Null, [])
      | cur_key :: _ =>
          if max_key <? cur_key then Some (Null, arr)
          else
            '(cur_key, cur_node, arr) ←
              (if key_is_leaflike cur_key then
                 '(cur_node, arr) ← ucset_leaf_from_sorted_array arr;
                 Some (ucnode_key (skey cur_node), cur_node, arr)
               else
                 let arr := skip_key cur_key arr in
                 '(right_node, arr) ← ucset_from_sorted_array fuel (key_max cur_key) arr;
                 Some (cur_key, ucnode_new (cur_key ||| 1) Null right_node, arr));
            from_sorted_loop fuel max_key cur_key cur_node arr
      end
  end
with from_sorted_loop (fuel : nat) (max_key cur_key : Z) (cur_node : ucset) (arr : list Z)
    : option (ucset * list Z) :=
  match fuel with
  | O => None
  | S fuel =>
      match arr with
      | [] => Some (cur_node, arr)
      | x :: _ =>
          if max_key <? x then Some (cur_node, arr)
          else
            let key := key_join cur_key x in
            let right_max := key_max key in
            let '(stored, arr) := if x =? key then (key ||| 1, skip_key key arr) else (key, arr) in
            '(right_node, arr) ← ucset_from_sorted_array fuel right_max arr;
            from_sorted_loop fuel max_key key (ucnode_new stored cur_node right_node) arr
      end
  end.

Definition cucon_ucset_from_sorted_array (arr : list Z) : ucset :=
  default Null (fst <$> ucset_from_sorted_array (3 * length arr + 3) UINTPTR_MAX arr).

(** ** Insertion and removal *)

(** The tail of [cucon_ucset_insert]: [node] does not cover [key]. *)
Definition insert_beside (node : ucset) (node_key key : Z) : ucset :=
  if key_covers key node_key then
    if node_key <? key then ucnode_new (key ||| 1) node Null else ucnode_new (key ||| 1) Null node
  else
    let key_node :=
      if key_is_leaflike key then ucleaf_new key else ucnode_new (key ||| 1) Null Null in
    let j := cu_uintptr_dcover (key ^^^ node_key) in
    let j := (key &&& wnot j) ||| wadd (j >>> 1) 1 in
    if key <? node_key then ucnode_new j key_node node else ucnode_new j node key_node.

Fixpoint cucon_ucset_insert (node : ucset) (key : Z) : ucset :=
  match node with
  | Null => if key_is_leaflike key then ucleaf_new key else ucnode_new (key ||| 1) Null Null
  | Leaf nk bs =>
      let node_key := ucnode_key nk in
      if key =? node_key then ucleaf_insert nk bs key
      else if key_covers node_key key then
        if ucleaf_find bs key then node else ucleaf_insert nk bs key
      else insert_beside node node_key key
  | Node nk l r =>
      let node_key := ucnode_key nk in
      if key =? node_key then
        if key_flag nk then node else ucnode_new (nk ||| 1) l r
      else if key_covers node_key key then
        if key <? node_key then
          let new_left := cucon_ucset_insert l key in
          if negb (ptr_eq new_left l) then ucnode_new nk new_left r else node
        else
          let new_right := cucon_ucset_insert r key in
          if negb (ptr_eq new_right r) then ucnode_new nk l new_right else node
      else insert_beside node node_key key
  end.

Fixpoint cucon_ucset_erase (node : ucset) (key : Z) : ucset :=
  match node with
  | Null => Null
  | Leaf nk bs =>
      let node_key := ucnode_key nk in
      if key =? node_key then ucleaf_erase nk bs key
      else if key_covers node_key key then ucleaf_erase nk bs key
      else node
  | Node nk l r =>
      let node_key := ucnode_key nk in
      if key =? node_key then
        if key_flag nk then
          if is_null l then r
          else if is_null r then l
          else ucnode_new (nk &&& wnot 1) l r
        else node
      else if key_covers node_key key then
        if key <? node_key then
          let new_left := cucon_ucset_erase l key in
          if negb (ptr_eq new_left l) then
            if is_null new_left && negb (key_flag nk) then r else ucnode_new nk new_left r
          else node
        else
          let new_right := cucon_ucset_erase r key in
          if negb (ptr_eq new_right r) then
            if is_null new_right && negb (key_flag nk) then l else ucnode_new nk l new_right
          else node
      else node
  end.

(** ** Set algebra *)

Fixpoint union_go (fuel : nat) (lhs rhs : ucset) : option ucset :=
  match fuel with
  | O => None
  | S fuel =>
      if is_null lhs then Some rhs
      else if is_null rhs then Some lhs
      else
        let lhs_key := ucnode_key (skey lhs) in
        let rhs_key := ucnode_key (skey rhs) in
        if lhs_key =? rhs_key then
          if key_is_leaflike lhs_key then
            Some (ucleaf_union (skey lhs) (bitset lhs) (bitset rhs))
          else
            l ← union_go fuel (sleft lhs) (sleft rhs);
            r ← union_go fuel (sright lhs) (sright rhs);
            Some (ucnode_new (skey lhs ||| skey rhs) l r)
        else if key_covers rhs_key lhs_key then
          if lhs_key <? rhs_key then
            l ← union_go fuel lhs (sleft rhs);
            Some (ucnode_new (skey rhs) l (sright rhs))
          else
            r ← union_go fuel lhs (sright rhs);
            Some (ucnode_new (skey rhs) (sleft rhs) r)
        else if key_covers lhs_key rhs_key then union_go fuel rhs lhs
        else
          let j := cu_uintptr_dcover (lhs_key ^^^ rhs_key) in
          let j := (lhs_key &&& wnot j) ||| wadd (j >>> 1) 1 in
          if lhs_key <? rhs_key then Some (ucnode_new j lhs rhs) else Some (ucnode_new j rhs lhs)
  end.

Definition cucon_ucset_union (lhs rhs : ucset) : ucset :=
  default Null (union_go (fuel2 lhs rhs) lhs rhs).

(** The end of [isecn] and [compl] at equal keys. *)
Definition node_or_child (key : Z) (l r : ucset) : ucset :=
  if negb (key_flag key) && is_null l then r
  else if negb (key_flag key) && is_null r then l
  else ucnode_new key l r.

Fixpoint isecn_go (fuel : nat) (lhs rhs : ucset) : option ucset :=
  match fuel with
  | O => None
  | S fuel =>
      if is_null lhs || is_null rhs then Some Null
      else
        let lhs_key := ucnode_key (skey lhs) in
        let rhs_key := ucnode_key (skey rhs) in
        if lhs_key =? rhs_key then
          if key_is_leaflike lhs_key then
            Some (ucleaf_isecn (skey lhs) (bitset lhs) (bitset rhs))
          else
            let key := skey lhs &&& skey rhs in
            l ← isecn_go fuel (sleft lhs) (sleft rhs);
            r ← isecn_go fuel (sright lhs) (sright rhs);
            Some (node_or_child key l r)
        else if key_covers rhs_key lhs_key then
          if lhs_key <? rhs_key then isecn_go fuel lhs (sleft rhs)
          else isecn_go fuel lhs (sright rhs)
        else if key_covers lhs_key rhs_key then isecn_go fuel rhs lhs
        else Some Null
  end.

Definition cucon_ucset_isecn (lhs rhs : ucset) : ucset :=
  default Null (isecn_go (fuel2 lhs rhs) lhs rhs).

Fixpoint compl_go (fuel : nat) (lhs rhs : ucset) : option ucset :=
  match fuel with
  | O => None
  | S fuel =>
      if is_null lhs then Some Null
      else if is_null rhs then Some lhs
      else
        let lhs_key := ucnode_key (skey lhs) in
        let rhs_key := ucnode_key (skey rhs) in
        if lhs_key =? rhs_key then
          if key_is_leaflike lhs_key then
            Some (ucleaf_minus (skey lhs) (bitset lhs) (bitset rhs))
          else
            let key := skey lhs &&& wnot (skey rhs &&& 1) in
            l ← compl_go fuel (sleft lhs) (sleft rhs);
            r ← compl_go fuel (sright lhs) (sright rhs);
            Some (node_or_child key l r)
        else if key_covers lhs_key rhs_key then
          if rhs_key <? lhs_key then
            l ← compl_go fuel (sleft lhs) rhs;
            if is_null l && negb (key_flag (skey lhs)) then Some (sright lhs)
            else Some (ucnode_new (skey lhs) l (sright lhs))
          else
            r ← compl_go fuel (sright lhs) rhs;
            if is_null r && negb (key_flag (skey lhs)) then Some (sleft lhs)
            else Some (ucnode_new (skey lhs) (sleft lhs) r)
        else if key_covers rhs_key lhs_key then
          if lhs_key <? rhs_key then compl_go fuel lhs (sleft rhs)
          else compl_go fuel lhs (sright rhs)
        else Some lhs
  end.

Definition cucon_ucset_compl (lhs rhs : ucset) : ucset :=
  default Null (compl_go (fuel2 lhs rhs) lhs rhs).

(** ** Search and traversal *)

Fixpoint cucon_ucset_find (node : ucset) (key : Z) : bool :=
  match node with
  | Null => false
  | Leaf nk bs => if negb (key_coverseq (ucnode_key nk) key) then false else ucleaf_find bs key
  | Node nk l r =>
      let node_key := ucnode_key nk in
      if negb (key_coverseq node_key key) then false
      else if key =? node_key then key_flag nk
      else if key <? node_key then cucon_ucset_find l key
      else cucon_ucset_find r key
  end.

Section callbacks.
Context {S : Type}.

(** The loop [do ... while (++k & BITSET_MASK)]; the fuel is the width of a leaf. *)
Fixpoint conj_leaf (cb : S -> Z -> S * bool) (fuel : nat) (bs : list Z) (k : Z) (s : S) : S * bool :=
  match fuel with
  | O => (s, true)
  | Datatypes.S fuel =>
      let '(s, ok) := if ucleaf_find bs k then cb s k else (s, true) in
      if negb ok then (s, false)
      else
        let k := wadd k 1 in
        if (k &&& BITSET_MASK) =? 0 then (s, true) else conj_leaf cb fuel bs k s
  end.

Fixpoint cucon_ucset_conj (node : ucset) (cb : S -> Z -> S * bool) (s : S) : S * bool :=
  match node with
  | Null => (s, true)
  | Leaf nk bs =>
      conj_leaf cb (Z.to_nat BITSET_WIDTH) bs (ucnode_key nk &&& wnot BITSET_MASK) s
  | Node nk l r =>
      let '(s, ok) := cucon_ucset_conj l cb s in
      if negb ok then (s, false)
      else
        let '(s, ok) := if key_flag nk then cb s (ucnode_key nk) else (s, true) in
        if negb ok then (s, false) else cucon_ucset_conj r cb s
  end.

Fixpoint iter_leaf (f : S -> Z -> S) (fuel : nat) (bs : list Z) (k : Z) (s : S) : S :=
  match fuel with
  | O => s
  | Datatypes.S fuel =>
      let s := if ucleaf_find bs k then f s k else s in
      let k := wadd k 1 in
      if (k &&& BITSET_MASK) =? 0 then s else iter_leaf f fuel bs k s
  end.

Fixpoint cucon_ucset_iter (node : ucset) (f : S -> Z -> S) (s : S) : S :=
  match node with
  | Null => s
  | Leaf nk bs => iter_leaf f (Z.to_nat BITSET_WIDTH) bs (ucnode_key nk &&& wnot BITSET_MASK) s
  | Node nk l r =>
      let s := cucon_ucset_iter l f s in
      let s := if key_flag nk then f s (ucnode_key nk) else s in
      cucon_ucset_iter r f s
  end.

Fixpoint cucon_ucset_filter (node : ucset) (f : S -> Z -> S * bool) (s : S) : S * ucset :=
  match node with
  | Null => (s, Null)
  | Leaf nk bs => ucleaf_filter f nk bs s
  | Node nk l r =>
      let key := ucnode_key nk in
      let '(s, l) := cucon_ucset_filter l f s in
      let '(s, r) := cucon_ucset_filter r f s in
      let '(s, keep) := if key_flag nk then f s key else (s, false) in
      if keep then (s, ucnode_new (key ||| 1) l r)
      else if is_null l then (s, r)
      else if is_null r then (s, l)
      else (s, ucnode_new key l r)
  end.

End callbacks.

(** The helper closures of [image] and [filter_image] pair the state of the
    callback with the set under construction. *)
Definition cucon_ucset_image {S : Type} (node : ucset) (f : S -> Z -> S * Z) (s : S) : S * ucset :=
  cucon_ucset_iter node
    (fun '(s, image) key => let '(s, y) := f s key in (s, cucon_ucset_insert image y)) (s, Null).

Definition cucon_ucset_filter_image {S : Type}
    (node : ucset) (f : S -> Z -> S * (bool * Z)) (s : S) : S * ucset :=
  cucon_ucset_iter node
    (fun '(s, image) key =>
       let '(s, (ok, key)) := f s key in
       if ok then (s, cucon_ucset_insert image key) else (s, image)) (s, Null).

(** The loop of [cucon_ucset_card], from an initial count. *)
Fixpoint card_from (card : Z) (node : ucset) : Z :=
  match node with
  | Null => card
  | Leaf nk bs => wadd card (ucleaf_card nk bs)
  | Node nk l r =>
      let card := if key_flag nk then wadd card 1 else card in
      card_from (wadd card (card_from 0 l)) r
  end.

Definition cucon_ucset_card (node : ucset) : Z := card_from 0 node.

(** ** Least and greatest element *)

Fixpoint umin_leaf (key i : Z) (bs : list Z) : Z :=
  match bs with
  | [] => key
  | x :: bs =>
      if negb (x =? 0) then
        wadd (wadd (key &&& wnot BITSET_MASK) (cu_word_log2_lowbit x)) (i * WIDTH)
      else umin_leaf key (i + 1) bs
  end.

(** Over the words in reverse order. *)
Fixpoint umax_leaf (key i : Z) (rev_bs : list Z) : Z :=
  match rev_bs with
  | [] => key
  | x :: bs =>
      if negb (x =? 0) then
        wadd (wadd (key &&& wnot BITSET_MASK) (cu_word_floor_log2 x)) (i * WIDTH)
      else umax_leaf key (i - 1) bs
  end.

Fixpoint umin_from (min : Z) (s : ucset) : Z :=
  match s with
  | Null => min
  | Leaf nk bs => umin_leaf (ucnode_key nk) 0 bs
  | Node nk l _ => umin_from (ucnode_key nk) l
  end.

Fixpoint umax_from (max : Z) (s : ucset) : Z :=
  match s with
  | Null => max
  | Leaf nk bs => umax_leaf (ucnode_key nk) (Z.of_nat BITSET_SIZEW - 1) (rev bs)
  | Node nk _ r => umax_from (ucnode_key nk) r
  end.

Definition cucon_ucset_umin (s : ucset) : Z := umin_from UINTPTR_MAX s.
Definition cucon_ucset_umax (s : ucset) : Z := umax_from 0 s.

Definition INTPTR_MIN : Z := - 2 ^ 63.
Definition INTPTR_MAX : Z := 2 ^ 63 - 1.

Definition cucon_ucset_smin (node : ucset) : Z :=
  if is_null node then INTPTR_MAX
  else
    let min_key := INTPTR_MAX in
    let node_key := ucnode_key (skey node) in
    if node_key =? wrap INTPTR_MIN then
      if key_flag (skey node) then INTPTR_MIN
      else if negb (is_null (sright node)) then to_signed (cucon_ucset_umin (sright node))
      else if is_null (sleft node) then min_key
      else to_signed (cucon_ucset_umin (sleft node))
    else if min_key <? to_signed node_key then 0
    else to_signed (cucon_ucset_umin node).

Definition cucon_ucset_smax (node : ucset) : Z :=
  if is_null node then INTPTR_MIN
  else
    let max_key := INTPTR_MIN in
    let node_key := ucnode_key (skey node) in
    if node_key =? wrap INTPTR_MIN then
      if negb (is_null (sleft node)) then to_signed (cucon_ucset_umax (sleft node))
      else if max_key =? 0 then 0
      else if is_null (sright node) then max_key
      else to_signed (cucon_ucset_umax (sright node))
    else if to_signed node_key <? max_key then 0
    else to_signed (cucon_ucset_umax node).

(** ** Clipping *)

Fixpoint ucset_uclip (node : ucset) (clip_min clip_max : Z) : ucset :=
  match node with
  | Null => Null
  | Leaf nk _ | Node nk _ _ =>
      let node_key := ucnode_key nk in
      let node_mask := node_key ^^^ wsub node_key 1 in
      let node_min := node_key &&& wnot node_mask in
      let node_max := node_key ||| node_mask in
      if (clip_min <=? node_min) && (node_max <=? clip_max) then node
      else if clip_max <? node_min then Null
      else if node_max <? clip_min then Null
      else
        match node with
        | Null => Null
        | Leaf nk bs => ucleaf_uclip nk bs clip_min clip_max
        | Node nk l r =>
            if clip_max <? node_key then ucset_uclip l clip_min clip_max
            else if node_key <? clip_min then ucset_uclip r clip_min clip_max
            else
              let new_left := ucset_uclip l clip_min clip_max in
              let new_right := ucset_uclip r clip_min clip_max in
              if key_flag nk then ucnode_new nk new_left new_right
              else if is_null new_left then new_right
              else if is_null new_right then new_left
              else ucnode_new nk new_left new_right
        end
  end.

Definition cucon_ucset_uclip (node : ucset) (clip_min clip_max : Z) : ucset :=
  if clip_max <? clip_min then Null else ucset_uclip node clip_min clip_max.

(** The bounds are signed. *)
Definition cucon_ucset_sclip (node : ucset) (clip_min clip_max : Z) : ucset :=
  if clip_max <? clip_min then Null
  else if Bool.eqb (clip_min <? 0) (clip_max <? 0) then
    ucset_uclip node (wrap clip_min) (wrap clip_max)
  else
    let S0 := ucset_uclip node 0 (wrap clip_max) in
    let S1 := ucset_uclip node (wrap clip_min) UINTPTR_MAX in
    cucon_ucset_union S0 S1.
