(* ===== verification/UcsetInv.v ===== *)
(** * Constructive integer sets: elements and the tree invariant

    - [mem s x]: [x] is an element of the tree [s]; [elems s]: the elements in
      the order of the tree; [to_set s]: the finite set that [s] stands for;
    - [wf s]: the invariant of all sets the library returns;
    - [wf_ext]: trees satisfying the invariant are equal when they have the same
      elements, so that [cucon_ucset_eq], a pointer comparison, decides equality
      of sets. *)

From stdpp Require Export list_numbers gmap.
From S2P Require Export Ucset.

(** ** Elements *)

Fixpoint mem (s : ucset) (x : Z) : bool :=
  match s with
  | Null => false
  | Leaf k bs => (x / 128 =? k / 128) && leaf_bit bs (x mod 128)
  | Node nk l r => (key_flag nk && (x =? ucnode_key nk)) || mem l x || mem r x
  end.

Definition leaf_elems (k : Z) (bs : list Z) : list Z :=
  filter (fun x => leaf_bit bs (x mod 128) = true) (seqZ (128 * (k / 128)) 128).

Fixpoint elems (s : ucset) : list Z :=
  match s with
  | Null => []
  | Leaf k bs => leaf_elems k bs
  | Node nk l r => elems l ++ (if key_flag nk then [ucnode_key nk] else []) ++ elems r
  end.

Definition to_set (s : ucset) : gset Z := list_to_set (elems s).

Definition bounded (lo hi : Z) (s : ucset) : Prop := Forall (fun x => lo <= x <= hi) (elems s).

(** ** The invariant *)

Fixpoint wf (s : ucset) : Prop :=
  match s with
  | Null => True
  | Leaf k bs =>
      word k /\ k mod 128 = 64 /\ bs_wf bs /\ existsb (fun w => negb (w =? 0)) bs = true /\
      (k <> 64 -> leaf_bit bs 0 = false)
  | Node nk l r =>
      let k := ucnode_key nk in
      word nk /\ k <> 0 /\ k mod 128 = 0 /\
      (key_flag nk = true \/ (is_null l = false /\ is_null r = false)) /\
      bounded (klo k) (k - 1) l /\ bounded (k + 1) (khi k) r /\ wf l /\ wf r
  end.

#[global] Instance wf_dec s : Decision (wf s).
Proof. induction s; simpl; unfold bounded; apply _. Defined.

(** ** Elements as a list and as a predicate *)

Lemma elem_of_elems s x : x ∈ elems s <-> mem s x = true.
Proof.
  induction s as [|k bs|nk l IHl r IHr]; simpl.
  - split; [by intros ?%not_elem_of_nil|done].
  - unfold leaf_elems. rewrite list_elem_of_filter, elem_of_seqZ, andb_true_iff, Z.eqb_eq.
    split; intros [? ?]; split; try done; dlia.
  - rewrite !elem_of_app, IHl, IHr, !orb_true_iff, andb_true_iff, Z.eqb_eq.
    destruct (key_flag nk); [rewrite list_elem_of_singleton|rewrite elem_of_nil]; intuition congruence.
Qed.

Lemma bounded_mem lo hi s : bounded lo hi s <-> forall x, mem s x = true -> lo <= x <= hi.
Proof.
  unfold bounded. rewrite list.Forall_forall. split; intros H x Hx; apply H; by apply elem_of_elems.
Qed.

Lemma to_set_spec s x : x ∈ to_set s <-> mem s x = true.
Proof. unfold to_set. by rewrite elem_of_list_to_set, elem_of_elems. Qed.

(** ** Nodes *)

Definition split_mem (k : Z) (f : bool) (l r : ucset) (x : Z) : bool :=
  if x <? k then mem l x else if x =? k then f else mem r x.

Lemma wf_node_inv nk l r :
  wf (Node nk l r) ->
  exists k f, nk = node_key k f /\ ucnode_key nk = k /\ key_flag nk = f /\
    word k /\ k <> 0 /\ k mod 128 = 0 /\ k mod 2 = 0 /\
    (f = true \/ (is_null l = false /\ is_null r = false)) /\
    wf l /\ wf r /\
    (forall x, mem l x = true -> klo k <= x < k) /\ (forall x, mem r x = true -> k < x <= khi k) /\
    forall x, mem (Node nk l r) x = split_mem k f l r x.
Proof.
  simpl. intros (Hw & Hn & Hm & Hf & Bl & Br & Wl & Wr).
  exists (ucnode_key nk), (key_flag nk).
  assert (Hk : word (ucnode_key nk)) by by apply word_land.
  rewrite bounded_mem in Bl, Br.
  assert (Bl' : forall x, mem l x = true -> klo (ucnode_key nk) <= x < ucnode_key nk).
  { intros x Hx. specialize (Bl x Hx). lia. }
  assert (Br' : forall x, mem r x = true -> ucnode_key nk < x <= khi (ucnode_key nk)).
  { intros x Hx. specialize (Br x Hx). lia. }
  split_and!; try done; [by apply node_key_eta|dlia|].
  intros x. unfold split_mem.
  destruct (mem l x) eqn:El; [apply Bl' in El|]; destruct (mem r x) eqn:Er; try apply Br' in Er;
    destruct (key_flag nk), (Z.ltb_spec x (ucnode_key nk)), (Z.eqb_spec x (ucnode_key nk));
    simpl; done || lia.
Qed.

Lemma wf_root s :
  wf s -> is_null s = false ->
  word (root s) /\ root s <> 0 /\ forall x, mem s x = true -> klo (root s) <= x <= khi (root s).
Proof.
  destruct s as [|k bs|nk l r]; intros Hs Hn; [done| |].
  - destruct Hs as (Hw & Hm & Hb & _ & H0). unfold root. simpl skey.
    destruct (ucnode_key_spec k Hw) as [-> _]. replace (k - k mod 2) with k by dlia.
    split; [done|]. split; [unfold word in *; dlia|].
    intros x Hx. simpl in Hx. apply andb_true_iff in Hx as [Hd%Z.eqb_eq Hx].
    unfold klo, khi. rewrite (lb_leaf k) by done.
    destruct (Z.eqb_spec (k - 64) 0); [dlia|].
    assert (x mod 128 <> 0); [|dlia]. intros E. rewrite E, H0 in Hx; [done|lia].
  - apply wf_node_inv in Hs as (k & f & -> & Ek & Ef & Hw & H0 & Hm & Hm2 & _ & _ & _ & Bl & Br & Hs).
    unfold root. simpl skey. rewrite Ek. split_and!; try done.
    intros x Hx. rewrite Hs in Hx. unfold split_mem in Hx. pose proof (klo_khi k Hw H0).
    destruct (Z.ltb_spec x k); [apply Bl in Hx; lia|].
    destruct (Z.eqb_spec x k); [lia|apply Br in Hx; lia].
Qed.

Lemma mem_word s x : wf s -> mem s x = true -> word x.
Proof.
  intros Hs Hx. destruct (is_null s) eqn:En; [by destruct s|].
  destruct (wf_root s Hs En) as (Hw & Hn & Hr). specialize (Hr x Hx).
  pose proof (klo_khi _ Hw Hn). unfold word in *. lia.
Qed.

(** Every set but [NULL] has an element, and a node has one on each side. *)
Lemma wf_nonempty s : wf s -> is_null s = false -> exists x, mem s x = true.
Proof.
  induction s as [|k bs|nk l IHl r IHr]; intros Hs Hn; [done| |].
  - destruct Hs as (Hw & Hm & Hb & He & _).
    apply bs_nonzero_spec in He as (i & Hi & Hbit); [|done].
    exists (k - 64 + i). simpl. rewrite andb_true_iff, Z.eqb_eq. split; [dlia|].
    replace ((k - 64 + i) mod 128) with i by dlia. done.
  - apply wf_node_inv in Hs as (k & f & -> & Ek & Ef & Hw & H0 & Hm & Hm2 & Hf & Wl & Wr & Bl & Br & Hs).
    destruct Hf as [->|[Nl _]].
    + exists k. rewrite Hs. unfold split_mem. by rewrite Z.ltb_irrefl, Z.eqb_refl.
    + destruct (IHl Wl Nl) as [x Hx]. exists x. rewrite Hs. unfold split_mem.
      pose proof (Bl x Hx). by rewrite (proj2 (Z.ltb_lt x k)) by lia.
Qed.

Lemma wf_null s : wf s -> is_null s = true <-> forall x, mem s x = false.
Proof.
  intros Hs. split; [by destruct s|]. intros Ha.
  destruct (is_null s) eqn:En; [done|]. destruct (wf_nonempty s Hs En) as [x Hx].
  by rewrite Ha in Hx.
Qed.

Lemma wf_node_span nk l r :
  wf (Node nk l r) ->
  (exists x, mem (Node nk l r) x = true /\ ucnode_key nk <= x) /\
  (exists y, mem (Node nk l r) y = true /\ y <= ucnode_key nk).
Proof.
  intros (k & f & -> & -> & Ef & Hw & H0 & Hm & Hm2 & Hf & Wl & Wr & Bl & Br & Hs)%wf_node_inv.
  unfold split_mem in Hs. destruct Hf as [->|[Nl Nr]].
  - assert (mem (Node (node_key k true) l r) k = true).
    { by rewrite Hs, Z.ltb_irrefl, Z.eqb_refl. }
    split; exists k; split; done || lia.
  - destruct (wf_nonempty l Wl Nl) as [y Hy], (wf_nonempty r Wr Nr) as [x Hx].
    pose proof (Bl y Hy). pose proof (Br x Hx). split.
    + exists x. rewrite Hs, (proj2 (Z.ltb_ge x k)), (proj2 (Z.eqb_neq x k)) by lia. split; [done|lia].
    + exists y. rewrite Hs, (proj2 (Z.ltb_lt y k)) by lia. split; [done|lia].
Qed.

(** The root of a set whose elements lie in one half of a node's interval lies in
    that half, and with it the root's whole interval. *)
Lemma root_left k s :
  word k -> k <> 0 -> k mod 128 = 0 -> wf s -> is_null s = false ->
  (forall x, mem s x = true -> klo k <= x < k) ->
  klo k <= root s < k /\ klo k <= klo (root s) /\ khi (root s) < k.
Proof.
  intros Hk H0 Hm Hs Hn Hb. destruct (wf_root s Hs Hn) as (Hw & Hr & _).
  enough (klo k <= root s < k) as HR by (split; [done|]; by apply nested_left).
  destruct s as [|k' bs|nk l r]; [done| |].
  - destruct (wf_nonempty _ Hs Hn) as [x Hx]. specialize (Hb x Hx). simpl in Hx.
    apply andb_true_iff in Hx as [Hd%Z.eqb_eq _]. destruct Hs as (Hw' & Hm' & _).
    revert Hw Hr. unfold root. simpl skey. destruct (ucnode_key_spec k' Hw') as [-> _].
    destruct (lb_mod k Hk H0) as [Hl _]. specialize (Hl Hm). intros _ _.
    unfold klo, word in *. destruct (Z.eqb_spec (k - lb k) 0); dlia.
  - destruct (wf_node_span nk l r Hs) as [(x & Hx & ?) (y & Hy & ?)].
    pose proof (Hb x Hx). pose proof (Hb y Hy). unfold root. simpl. lia.
Qed.

Lemma root_right k s :
  word k -> k <> 0 -> k mod 128 = 0 -> wf s -> is_null s = false ->
  (forall x, mem s x = true -> k < x <= khi k) ->
  k < root s <= khi k /\ k < klo (root s) /\ khi (root s) <= khi k.
Proof.
  intros Hk H0 Hm Hs Hn Hb. destruct (wf_root s Hs Hn) as (Hw & Hr & _).
  enough (k < root s <= khi k) as HR by (split; [done|]; by apply nested_right).
  destruct s as [|k' bs|nk l r]; [done| |].
  - destruct (wf_nonempty _ Hs Hn) as [x Hx]. specialize (Hb x Hx). simpl in Hx.
    apply andb_true_iff in Hx as [Hd%Z.eqb_eq _]. destruct Hs as (Hw' & Hm' & _).
    revert Hw Hr. unfold root. simpl skey. destruct (ucnode_key_spec k' Hw') as [-> _].
    destruct (lb_mod k Hk H0) as [Hl _]. specialize (Hl Hm). intros _ _.
    unfold khi, word in *. dlia.
  - destruct (wf_node_span nk l r Hs) as [(x & Hx & ?) (y & Hy & ?)].
    pose proof (Hb x Hx). pose proof (Hb y Hy). unfold root. simpl. lia.
Qed.

(** ** Building nodes and leaves *)

Lemma mem_node_key k f l r x :
  word k -> k mod 128 = 0 ->
  mem (Node (node_key k f) l r) x = (f && (x =? k)) || mem l x || mem r x.
Proof.
  intros Hk Hm. simpl. destruct (node_key_spec k f Hk) as (-> & -> & _); [dlia|done].
Qed.

(** What an operation has to know of the parts of a node. *)
Definition node_parts (k : Z) (l r : ucset) : Prop :=
  word k /\ k <> 0 /\ k mod 128 = 0 /\ wf l /\ wf r /\
  (forall x, mem l x = true -> klo k <= x < k) /\ (forall x, mem r x = true -> k < x <= khi k).

Lemma node_parts_inv nk l r : wf (Node nk l r) -> node_parts (ucnode_key nk) l r.
Proof.
  intros (k & f & -> & -> & _ & Hw & H0 & Hm & _ & _ & Wl & Wr & Bl & Br & _)%wf_node_inv.
  by split_and!.
Qed.

Lemma wf_node_mk k f l r :
  node_parts k l r -> f = true \/ (is_null l = false /\ is_null r = false) ->
  wf (Node (node_key k f) l r) /\
  forall x, mem (Node (node_key k f) l r) x = split_mem k f l r x.
Proof.
  intros (Hw & H0 & Hm & Wl & Wr & Bl & Br) Hf.
  destruct (node_key_spec k f) as (Ek & Ef & Hnk); [done|dlia|].
  assert (Hs : wf (Node (node_key k f) l r)).
  { simpl. rewrite Ek, Ef, !bounded_mem. split_and!; try done.
    - intros x Hx. specialize (Bl x Hx). lia.
    - intros x Hx. specialize (Br x Hx). lia. }
  split; [done|]. intros x.
  apply wf_node_inv in Hs as (k' & f' & _ & Ek' & Ef' & _ & _ & _ & _ & _ & _ & _ & _ & _ & Hs).
  rewrite Hs. by rewrite <- Ek', <- Ef', Ek, Ef.
Qed.

(** The node, or its only part. *)
Definition collapse (k : Z) (f : bool) (l r : ucset) : ucset :=
  if negb f && is_null l then r
  else if negb f && is_null r then l
  else Node (node_key k f) l r.

Lemma wf_collapse k f l r :
  node_parts k l r ->
  wf (collapse k f l r) /\ forall x, mem (collapse k f l r) x = split_mem k f l r x.
Proof.
  intros Hp. pose proof Hp as (Hw & H0 & Hm & Wl & Wr & Bl & Br). unfold collapse.
  destruct f; cbn [negb andb]; [apply wf_node_mk; auto|].
  destruct (is_null l) eqn:Nl; [|destruct (is_null r) eqn:Nr]; [..|apply wf_node_mk; auto].
  - split; [done|]. intros x. unfold split_mem. rewrite (proj1 (wf_null l Wl) Nl).
    destruct (mem r x) eqn:E; [apply Br in E|]; bits_split; done.
  - split; [done|]. intros x. unfold split_mem. rewrite (proj1 (wf_null r Wr) Nr).
    destruct (mem l x) eqn:E; [apply Bl in E|]; bits_split; done.
Qed.

Lemma wf_leaf_or_null k bs :
  word k -> k mod 128 = 64 -> bs_wf bs -> (k <> 64 -> leaf_bit bs 0 = false) ->
  wf (leaf_or_null k bs) /\
  forall x, mem (leaf_or_null k bs) x = (x / 128 =? k / 128) && leaf_bit bs (x mod 128).
Proof.
  intros Hw Hm Hb H0. unfold leaf_or_null. destruct (existsb _ bs) eqn:E; [by split_and!|].
  split; [done|]. intros x. rewrite (bs_zero_spec bs (x mod 128)); [by rewrite andb_false_r|done..|dlia].
Qed.

Lemma mem_leaf k bs x : mem (Leaf k bs) x = (x / 128 =? k / 128) && leaf_bit bs (x mod 128).
Proof. reflexivity. Qed.

Lemma wf_leaf_intro k bs i :
  word k -> k mod 128 = 64 -> bs_wf bs -> (k <> 64 -> leaf_bit bs 0 = false) ->
  0 <= i < 128 -> leaf_bit bs i = true -> wf (Leaf k bs).
Proof.
  intros Hw Hm Hb H0 Hi Hbit. simpl. split_and!; try done.
  apply bs_nonzero_spec; [done|]. by exists i.
Qed.

(** ** Two trees *)

(** How the roots of two non-empty sets can lie, with the answers of the three
    tests of the source. *)
Inductive root_view (k0 k1 : Z) : bool -> bool -> bool -> bool -> Prop :=
| RV_eq : k0 = k1 -> root_view k0 k1 true true true false
| RV_in_left : klo k1 <= klo k0 -> khi k0 < k1 -> k0 < k1 -> root_view k0 k1 false true false true
| RV_in_right : k1 < klo k0 -> khi k0 <= khi k1 -> k1 < k0 -> root_view k0 k1 false true false false
| RV_has_left : klo k0 <= klo k1 -> khi k1 < k0 -> k1 < k0 -> root_view k0 k1 false false true false
| RV_has_right : k0 < klo k1 -> khi k1 <= khi k0 -> k0 < k1 -> root_view k0 k1 false false true true
| RV_before : khi k0 < klo k1 -> k0 < k1 ->
    key_covers k0 k1 = false -> key_covers k1 k0 = false -> root_view k0 k1 false false false true
| RV_after : khi k1 < klo k0 -> k1 < k0 ->
    key_covers k0 k1 = false -> key_covers k1 k0 = false -> root_view k0 k1 false false false false.

Lemma root_viewP k0 k1 :
  word k0 -> word k1 -> k0 <> 0 -> k1 <> 0 ->
  root_view k0 k1 (k0 =? k1) (key_covers k1 k0) (key_covers k0 k1) (k0 <? k1).
Proof.
  intros H0 H1 N0 N1. pose proof (klo_khi k0 H0 N0). pose proof (klo_khi k1 H1 N1).
  destruct (Z.eqb_spec k0 k1) as [<-|Hne].
  { rewrite Z.ltb_irrefl, (proj2 (key_covers_spec k0 k0 H0 H0)) by (split; done || lia). by constructor. }
  destruct (key_covers k1 k0) eqn:C1.
  - apply key_covers_spec in C1 as [_ C1]; [|done..].
    destruct (Z.ltb_spec k0 k1).
    + destruct (nested_left k1 k0) as [I0 I1]; [done || lia..|].
      destruct (key_covers k0 k1) eqn:C0; [|by constructor].
      apply key_covers_spec in C0 as [_ C0]; [lia|done..].
    + destruct (nested_right k1 k0) as [I0 I1]; [done || lia..|].
      destruct (key_covers k0 k1) eqn:C0; [|by constructor; lia].
      apply key_covers_spec in C0 as [_ C0]; [lia|done..].
  - destruct (key_covers k0 k1) eqn:C0.
    + apply key_covers_spec in C0 as [_ C0]; [|done..]. destruct (Z.ltb_spec k0 k1).
      * destruct (nested_right k0 k1) as [I0 I1]; [done || lia..|]. by constructor.
      * destruct (nested_left k0 k1) as [I0 I1]; [done || lia..|]. constructor; lia.
    + destruct (Z.ltb_spec k0 k1); [|assert (k1 < k0) by lia].
      * constructor; try done. by apply disjoint_keys.
      * constructor; try done. by apply disjoint_keys.
Qed.

(** ** Equal elements, equal trees *)

Lemma wf_leaf_root k bs : word k -> k mod 128 = 64 -> root (Leaf k bs) = k.
Proof.
  intros Hw Hm. unfold root. simpl. destruct (ucnode_key_spec k Hw) as [-> _]. dlia.
Qed.

Lemma wf_leaf_node_root k bs nk l r : wf (Leaf k bs) -> wf (Node nk l r) -> root (Leaf k bs) <> root (Node nk l r).
Proof.
  intros (Hw & Hm & _) Hn. rewrite wf_leaf_root by done.
  apply wf_node_inv in Hn as (k' & f & -> & Ek & _ & _ & _ & Hm' & _).
  change (root (Node (node_key k' f) l r)) with (ucnode_key (node_key k' f)).
  rewrite Ek. intros ->. lia.
Qed.

Lemma root_mod s : wf s -> root s mod 64 = 0.
Proof.
  destruct s as [|k bs|nk l r]; intros Hs; [done| |].
  - destruct Hs as (Hw & Hm & _). rewrite wf_leaf_root by done. dlia.
  - apply wf_node_inv in Hs as (k' & f & -> & Ek & _ & _ & _ & Hm' & _). 
    change (root (Node (node_key k' f) l r)) with (ucnode_key (node_key k' f)). rewrite Ek. dlia.
Qed.

(** A tree whose root covers the root of another tree is a node. *)
Lemma outer_is_node s c :
  wf s -> is_null s = false -> c <> root s -> c mod 64 = 0 -> word c -> c <> 0 -> klo (root s) <= c <= khi (root s) ->
  exists nk l r, s = Node nk l r.
Proof.
  intros Hs Hnn Hne Hc Hw Hn Hr. destruct s as [|k bs|nk l r]; [|exfalso|by exists nk, l, r].
  - done.
  - destruct Hs as (Hk & Hm & _). rewrite wf_leaf_root in * by done.
    unfold klo, khi in Hr. rewrite (lb_leaf k) in Hr by done.
    destruct (Z.eqb_spec (k - 64) 0); dlia.
Qed.

Lemma wf_same_root_aux s t :
  wf s -> wf t -> is_null s = false -> is_null t = false ->
  (forall x, mem s x = mem t x) ->
  klo (root t) <= root s <= khi (root t) -> (khi (root s) < root t \/ root t < klo (root s)) -> False.
Proof.
  intros Hs Ht Ns Nt He Hr Hd. destruct (wf_root s Hs Ns) as (Ws & N0 & Rs).
  pose proof (klo_khi _ Ws N0).
  destruct (outer_is_node t (root s)) as (nk & l & r & ->); try done; [lia|by apply root_mod|].
  destruct (wf_node_span nk l r Ht) as [(x & Hx & ?) (y & Hy & ?)].
  rewrite <- He in Hx, Hy. apply Rs in Hx, Hy. unfold root in Hd at 2 3. simpl in Hd. lia.
Qed.

Lemma wf_same_root s t :
  wf s -> wf t -> is_null s = false -> is_null t = false ->
  (forall x, mem s x = mem t x) -> root s = root t.
Proof.
  intros Hs Ht Ns Nt He.
  destruct (wf_root s Hs Ns) as (Ws & N0 & Rs), (wf_root t Ht Nt) as (Wt & N1 & Rt).
  destruct (wf_nonempty s Hs Ns) as [z Hz]. pose proof (Rs z Hz). rewrite He in Hz. pose proof (Rt z Hz).
  pose proof (klo_khi _ Ws N0). pose proof (klo_khi _ Wt N1).
  destruct (root_viewP (root s) (root t)); try done; try lia; exfalso.
  - apply (wf_same_root_aux s t); try done; lia.
  - apply (wf_same_root_aux s t); try done; lia.
  - apply (wf_same_root_aux t s); try done; lia.
  - apply (wf_same_root_aux t s); try done; lia.
Qed.

Lemma wf_ext s t : wf s -> wf t -> (forall x, mem s x = mem t x) -> s = t.
Proof.
  revert t. induction s as [|k bs|nk l IHl r IHr]; intros t Hs Ht He.
  { assert (is_null t = true) by (apply wf_null; [done|]; intros x; by rewrite <- He). by destruct t. }
  all: assert (is_null t = false) as Nt by
    (destruct (is_null t) eqn:Nt; [|done]; destruct (wf_nonempty _ Hs eq_refl) as [x Hx];
     rewrite He in Hx; by destruct t).
  all: assert (Hr : root _ = root t) by (apply (wf_same_root _ t Hs Ht); done).
  - destruct t as [|k' bs'|nk' l' r']; [done| |by apply wf_leaf_node_root in Hr].
    pose proof Hs as (Hw & Hm & Hb & _). pose proof Ht as (Hw' & Hm' & Hb' & _).
    rewrite !wf_leaf_root in Hr by done. subst k'. f_equal. apply leaf_bit_ext; [done..|].
    intros i Hi. specialize (He (k - 64 + i)). simpl in He.
    replace ((k - 64 + i) mod 128) with i in He by dlia.
    rewrite (proj2 (Z.eqb_eq ((k - 64 + i) / 128) (k / 128))) in He by dlia. done.
  - destruct t as [|k' bs'|nk' l' r']; [done|by symmetry in Hr; apply wf_leaf_node_root in Hr|].
    apply wf_node_inv in Hs as (k & f & -> & Ek & Ef & Hw & H0 & Hm & Hm2 & _ & Wl & Wr & Bl & Br & Hs).
    apply wf_node_inv in Ht as (k' & f' & -> & Ek' & Ef' & Hw' & H0' & Hm' & Hm2' & _ & Wl' & Wr' & Bl' & Br' & Ht).
    unfold root in Hr. simpl in Hr. assert (k' = k) as -> by congruence.
    assert (HE : forall x, split_mem k f l r x = split_mem k f' l' r' x).
    { intros x. rewrite <- Hs, <- Ht. apply He. }
    unfold split_mem in HE. f_equal.
    + f_equal. specialize (HE k). by rewrite Z.ltb_irrefl, Z.eqb_refl in HE.
    + apply IHl; [done..|]. intros x. specialize (HE x).
      destruct (Z.ltb_spec x k); [done|].
      destruct (mem l x) eqn:E; [apply Bl in E; lia|].
      destruct (mem l' x) eqn:E'; [apply Bl' in E'; lia|done].
    + apply IHr; [done..|]. intros x. specialize (HE x).
      destruct (Z.ltb_spec x k); [|destruct (Z.eqb_spec x k); [|done]];
        (destruct (mem r x) eqn:E; [apply Br in E; lia|]);
        (destruct (mem r' x) eqn:E'; [apply Br' in E'; lia|done]).
Qed.

Lemma to_set_eq s t : to_set s = to_set t <-> forall x, mem s x = mem t x.
Proof.
  split.
  - intros E x. apply eq_true_iff_eq. by rewrite <- !to_set_spec, E.
  - intros E. apply set_eq. intros x. by rewrite !to_set_spec, E.
Qed.

(** Evaluate the invariant of a concrete tree. *)
Ltac wf_compute := apply (bool_decide_unpack _); vm_compute; exact I.

(** Trees to try the theorems on. *)
Definition sample (xs : list Z) : ucset := foldl cucon_ucset_insert Null xs.

(** [cucon_ucset_eq], which compares the addresses of the hash-consed roots,
    decides whether two sets have the same elements: a set of integers has only
    one tree that satisfies the invariant. *)
Theorem ucset_eq_correct s t :
  wf s -> wf t -> cucon_ucset_eq s t = true <-> to_set s = to_set t.
Proof.
  intros Hs Ht. unfold cucon_ucset_eq, ptr_eq. rewrite bool_decide_eq_true, to_set_eq.
  split; [by intros ->|by apply wf_ext].
Qed.
