(* ===== verification/UcsetAlg.v ===== *)
(** * Constructive integer sets: operations on two sets

    Inclusion, disjointness, union, intersection and difference of [Ucset]: the
    fuel their callers give is enough, the results satisfy [wf] and have the
    right elements.  Each proof is an induction on the fuel over the seven ways
    two roots can lie. *)

From S2P Require Export UcsetOps.

(** ** Views of a tree *)

(** [s] is a node: its parts and its elements. *)
Definition node_view (s : ucset) (k : Z) (f : bool) (l r : ucset) : Prop :=
  s = Node (node_key k f) l r /\ node_parts k l r /\
  (f = true \/ (is_null l = false /\ is_null r = false)) /\
  (forall x, mem s x = split_mem k f l r x) /\ root s = k.

Lemma node_view_inv nk l r :
  wf (Node nk l r) -> exists k f, node_view (Node nk l r) k f l r.
Proof.
  intros Hs. pose proof (node_parts_inv nk l r Hs) as Hp.
  apply wf_node_inv in Hs as (k & f & -> & Ek & Ef & _ & _ & _ & _ & Hf & _ & _ & _ & _ & Hs).
  rewrite Ek in Hp. exists k, f. by split_and!.
Qed.

(** The cases of two trees that are not [NULL]. *)
Inductive pair_view (s t : ucset) : bool -> bool -> bool -> bool -> Prop :=
| PV_leaf k bs bs' : s = Leaf k bs -> t = Leaf k bs' -> root s = k -> root t = k ->
    key_is_leaflike k = true -> pair_view s t true true true false
| PV_node k f f' l l' r r' : node_view s k f l r -> node_view t k f' l' r' ->
    key_is_leaflike k = false -> pair_view s t true true true false
| PV_in_left k f l r : node_view t k f l r -> (forall x, mem s x = true -> klo k <= x < k) ->
    pair_view s t false true false true
| PV_in_right k f l r : node_view t k f l r -> (forall x, mem s x = true -> k < x <= khi k) ->
    pair_view s t false true false false
| PV_has_left k f l r : node_view s k f l r -> (forall x, mem t x = true -> klo k <= x < k) ->
    pair_view s t false false true false
| PV_has_right k f l r : node_view s k f l r -> (forall x, mem t x = true -> k < x <= khi k) ->
    pair_view s t false false true true
| PV_before : (forall x y, mem s x = true -> mem t y = true -> x < y) -> root s < root t ->
    key_covers (root s) (root t) = false -> key_covers (root t) (root s) = false ->
    pair_view s t false false false true
| PV_after : (forall x y, mem s x = true -> mem t y = true -> y < x) -> root t < root s ->
    key_covers (root s) (root t) = false -> key_covers (root t) (root s) = false ->
    pair_view s t false false false false.

Lemma same_root_view s t :
  wf s -> wf t -> is_null s = false -> is_null t = false -> root s = root t ->
  pair_view s t true true true false.
Proof.
  intros Hs Ht Ns Nt E.
  destruct s as [|k bs|nk l r]; [done| |]; destruct t as [|k' bs'|nk' l' r']; try done.
  - pose proof Hs as (Hw & Hm & _). pose proof Ht as (Hw' & Hm' & _).
    rewrite (wf_leaf_root k), (wf_leaf_root k') in E by done. subst k'.
    eapply PV_leaf; try done; [by apply wf_leaf_root..|].
    apply key_is_leaflike_spec; [done|]. right. lia.
  - by apply (wf_leaf_node_root k bs) in E.
  - symmetry in E. by apply (wf_leaf_node_root k' bs') in E.
  - destruct (node_view_inv nk l r Hs) as (k & f & V), (node_view_inv nk' l' r' Ht) as (k' & f' & V').
    pose proof V as (_ & (Hw & H0 & Hm & _) & _ & _ & R). pose proof V' as (_ & _ & _ & _ & R').
    rewrite R, R' in E. subst k'. eapply PV_node; try done.
    destruct (key_is_leaflike k) eqn:El; [|done]. apply key_is_leaflike_spec in El as [|]; done.
Qed.

Lemma pair_viewP s t :
  wf s -> wf t -> is_null s = false -> is_null t = false ->
  pair_view s t (root s =? root t) (key_covers (root t) (root s)) (key_covers (root s) (root t))
    (root s <? root t).
Proof.
  intros Hs Ht Ns Nt.
  destruct (wf_root s Hs Ns) as (Ws & N0 & Rs), (wf_root t Ht Nt) as (Wt & N1 & Rt).
  pose proof (klo_khi _ Ws N0). pose proof (klo_khi _ Wt N1).
  pose proof (root_mod s Hs). pose proof (root_mod t Ht).
  destruct (root_viewP (root s) (root t)) as [E|I0 I1 L|I0 I1 L|I0 I1 L|I0 I1 L|D L C C'|D L C C'];
    [done..|by apply same_root_view| | | | | |].
  1, 2: destruct (outer_is_node t (root s)) as (nk & l & r & ->); [done || lia..|];
    destruct (node_view_inv nk l r Ht) as (k & f & V); pose proof V as (_ & _ & _ & _ & R);
    rewrite R in *.
  - eapply PV_in_left; [done|]. intros x Hx. specialize (Rs x Hx). lia.
  - eapply PV_in_right; [done|]. intros x Hx. specialize (Rs x Hx). lia.
  - destruct (outer_is_node s (root t)) as (nk & l & r & ->); [done || lia..|].
    destruct (node_view_inv nk l r Hs) as (k & f & V). pose proof V as (_ & _ & _ & _ & R).
    rewrite R in *. eapply PV_has_left; [done|]. intros x Hx. specialize (Rt x Hx). lia.
  - destruct (outer_is_node s (root t)) as (nk & l & r & ->); [done || lia..|].
    destruct (node_view_inv nk l r Hs) as (k & f & V). pose proof V as (_ & _ & _ & _ & R).
    rewrite R in *. eapply PV_has_right; [done|]. intros x Hx. specialize (Rt x Hx). lia.
  - apply PV_before; try done. intros x y Hx Hy. specialize (Rs x Hx). specialize (Rt y Hy). lia.
  - apply PV_after; try done. intros x y Hx Hy. specialize (Rs x Hx). specialize (Rt y Hy). lia.
Qed.

(** ** Fuel *)

(** One step for every node, two for the possible swap before it. *)
Definition swap_bit (s t : ucset) : nat :=
  if key_covers (root s) (root t) && negb (key_covers (root t) (root s)) then 1 else 0.
Definition cost (s t : ucset) : nat := 2 * (tree_size s + tree_size t).

Lemma tree_size_pos s : (1 <= tree_size s)%nat.
Proof. destruct s; simpl; lia. Qed.

Lemma swap_bit_le s t : (swap_bit s t <= 1)%nat.
Proof. unfold swap_bit. destruct (_ && _); lia. Qed.

Lemma fuel2_enough s t : (cost s t + swap_bit s t <= fuel2 s t)%nat.
Proof. unfold fuel2, cost. pose proof (swap_bit_le s t). lia. Qed.

(** The recursive calls: solve [cost ... <= n]. *)
Ltac fuel :=
  match goal with
  | |- (cost ?a ?b + swap_bit ?a ?b <= _)%nat => pose proof (swap_bit_le a b)
  | _ => idtac
  end;
  unfold cost in *; simpl tree_size in *; lia.

Lemma node_view_children s k f l r :
  node_view s k f l r -> wf l /\ wf r /\
  skey s = node_key k f /\ sleft s = l /\ sright s = r /\ tree_size s = S (tree_size l + tree_size r) /\
  word k /\ k mod 128 = 0 /\ k mod 2 = 0 /\ key_flag (node_key k f) = f.
Proof.
  intros (-> & (Hw & H0 & Hm & Wl & Wr & _) & _ & _ & _).
  assert (k mod 2 = 0) by dlia. destruct (node_key_spec k f) as (_ & -> & _); [done..|].
  by split_and!.
Qed.

(** ** Union *)

Lemma node_key_or k f f' : node_key k f ||| node_key k f' = node_key k (f || f').
Proof.
  unfold node_key. destruct f, f'; cbn [orb].
  - apply Z.lor_diag.
  - by rewrite (Z.lor_comm _ k), Z.lor_assoc, Z.lor_diag.
  - by rewrite Z.lor_assoc, Z.lor_diag.
  - apply Z.lor_diag.
Qed.

Lemma leaf_union_wf k bs bs' :
  wf (Leaf k bs) -> wf (Leaf k bs') ->
  wf (ucleaf_union k bs bs') /\
  forall x, mem (ucleaf_union k bs bs') x = mem (Leaf k bs) x || mem (Leaf k bs') x.
Proof.
  intros (Hw & Hm & Hb & He & H0) (_ & _ & Hb' & _ & H0').
  destruct (zip_union_spec bs bs' Hb Hb') as [Hz Hs]. unfold ucleaf_union.
  apply bs_nonzero_spec in He as (i & Hi & Hbit); [|done]. split.
  - apply (wf_leaf_intro _ _ i); try done.
    + intros Hn. by rewrite Hs, H0, H0' by lia.
    + by rewrite Hs, Hbit.
  - intros x. rewrite !mem_leaf, Hs by dlia. by destruct (_ =? _).
Qed.

Lemma split_mem_or k f f' l l' r r' x a b :
  mem a x = mem l x || mem l' x -> mem b x = mem r x || mem r' x ->
  split_mem k (f || f') a b x = split_mem k f l r x || split_mem k f' l' r' x.
Proof. intros Ha Hb. split_at k x; done. Qed.

Lemma swap_bit_flip s t :
  swap_bit t s = if key_covers (root t) (root s) && negb (key_covers (root s) (root t)) then 1%nat else 0%nat.
Proof. reflexivity. Qed.

(** The node over the results of an operation that adds elements. *)
Lemma grow_node k f l r a b :
  word k -> k <> 0 -> k mod 128 = 0 -> wf a -> wf b ->
  (forall x, mem a x = true -> klo k <= x < k) -> (forall x, mem b x = true -> k < x <= khi k) ->
  wf l -> wf r -> (forall x, mem l x = true -> mem a x = true) ->
  (forall x, mem r x = true -> mem b x = true) ->
  f = true \/ (is_null l = false /\ is_null r = false) ->
  forall f', (f = true -> f' = true) ->
  wf (ucnode_new (node_key k f') a b) /\
  forall x, mem (ucnode_new (node_key k f') a b) x = split_mem k f' a b x.
Proof.
  intros Hk H0 Hm Wa Wb Ba Bb Wl Wr Sl Sr Hf f' Hff. apply wf_node_mk; [by split_and!|].
  destruct Hf as [->|[Nl Nr]]; [left; auto|]. right.
  destruct (wf_nonempty l Wl Nl) as [x Hx], (wf_nonempty r Wr Nr) as [y Hy].
  split; [apply (mem_not_null _ x)|apply (mem_not_null _ y)]; auto.
Qed.

(** A node, one of whose children was united with a set [s] on that side. *)
Lemma union_in_left s t k f l r a :
  node_view t k f l r -> (forall x, mem s x = true -> klo k <= x < k) ->
  wf a -> (forall x, mem a x = mem s x || mem l x) ->
  wf (ucnode_new (skey t) a (sright t)) /\
  forall x, mem (ucnode_new (skey t) a (sright t)) x = mem s x || mem t x.
Proof.
  intros V Hb Wa Ma. pose proof V as (Et & (Hw & H0 & Hm & Wl & Wr & Bl & Br) & Hf & Mt & R).
  destruct (node_view_children _ _ _ _ _ V) as (_ & _ & -> & _ & -> & _).
  destruct (grow_node k f l r a r) with (f' := f) as [Hwf Hmem]; try done.
  - intros x. rewrite Ma, orb_true_iff. intros [|]; auto.
  - intros x. rewrite Ma. intros ->. apply orb_true_r.
  - split; [done|]. intros x. rewrite Hmem, Mt.
    split_at k x; [by rewrite Ma|by rewrite (mem_out _ s k Hb) by lia|by rewrite (mem_out _ s x Hb) by lia].
Qed.

Lemma union_in_right s t k f l r a :
  node_view t k f l r -> (forall x, mem s x = true -> k < x <= khi k) ->
  wf a -> (forall x, mem a x = mem s x || mem r x) ->
  wf (ucnode_new (skey t) (sleft t) a) /\
  forall x, mem (ucnode_new (skey t) (sleft t) a) x = mem s x || mem t x.
Proof.
  intros V Hb Wa Ma. pose proof V as (Et & (Hw & H0 & Hm & Wl & Wr & Bl & Br) & Hf & Mt & R).
  destruct (node_view_children _ _ _ _ _ V) as (_ & _ & -> & -> & _ & _).
  destruct (grow_node k f l r l a) with (f' := f) as [Hwf Hmem]; try done.
  - intros x. rewrite Ma, orb_true_iff. intros [|]; auto.
  - intros x. rewrite Ma. intros ->. apply orb_true_r.
  - split; [done|]. intros x. rewrite Hmem, Mt.
    split_at k x; [by rewrite (mem_out _ s x Hb) by lia|by rewrite (mem_out _ s k Hb) by lia|by rewrite Ma].
Qed.

Lemma union_same k f f' l r l' r' a b s t :
  node_view s k f l r -> node_view t k f' l' r' ->
  wf a -> (forall x, mem a x = mem l x || mem l' x) ->
  wf b -> (forall x, mem b x = mem r x || mem r' x) ->
  wf (ucnode_new (node_key k (f || f')) a b) /\
  forall x, mem (ucnode_new (node_key k (f || f')) a b) x = mem s x || mem t x.
Proof.
  intros (_ & (Hw & H0 & Hm & Wl & Wr & Bl & Br) & Hf & Ms & _)
    (_ & (_ & _ & _ & _ & _ & Bl' & Br') & _ & Mt & _) Wa Ma Wb Mb.
  destruct (grow_node k f l r a b) with (f' := f || f') as [Hwf Hmem]; try done.
  - intros x. rewrite Ma, orb_true_iff. intros [|]; auto.
  - intros x. rewrite Mb, orb_true_iff. intros [|]; auto.
  - intros x. rewrite Ma. by intros ->.
  - intros x. rewrite Mb. by intros ->.
  - by intros ->.
  - split; [done|]. intros x. rewrite Hmem, Ms, Mt. by apply split_mem_or.
Qed.

(** Two sets beside each other. *)
Lemma union_beside s t :
  wf s -> wf t -> is_null s = false -> is_null t = false -> root s < root t ->
  key_covers (root s) (root t) = false -> key_covers (root t) (root s) = false ->
  key_join (root t) (root s) = key_join (root s) (root t) /\
  wf (ucnode_new (key_join (root s) (root t)) s t) /\
  forall x, mem (ucnode_new (key_join (root s) (root t)) s t) x = mem s x || mem t x.
Proof.
  intros Hs Ht Ns Nt Hlt C C'.
  destruct (wf_root s Hs Ns) as (Ws & N0 & _), (wf_root t Ht Nt) as (Wt & N1 & _).
  destruct (join_between (root s) (root t)) as (Ec & Hj & H0 & Hm & R0 & R1); try done.
  { intros E. apply (same_block_covers (root s) (root t)); try done; [lia|by apply root_mod]. }
  split; [done|]. apply wf_join; try done; intros x; [by apply left_bound|by apply right_bound].
Qed.

Lemma union_go_spec n s t :
  wf s -> wf t -> (cost s t + swap_bit s t <= n)%nat ->
  exists u, union_go n s t = Some u /\ wf u /\ forall x, mem u x = mem s x || mem t x.
Proof.
  revert s t. induction n as [|n IH]; intros s t Hs Ht Hn.
  { pose proof (tree_size_pos s). unfold cost in Hn. lia. }
  cbn [union_go].
  destruct (is_null s) eqn:Ns. { exists t. split_and!; try done. by destruct s. }
  destruct (is_null t) eqn:Nt.
  { exists s. split_and!; try done. intros x. destruct t; try done. by rewrite orb_false_r. }
  fold (root s) (root t). fold (key_join (root s) (root t)).
  pose proof (swap_bit_flip s t) as Hsw. unfold swap_bit in Hn. revert Hn Hsw.
  destruct (pair_viewP s t Hs Ht Ns Nt)
    as [k bs bs' -> -> R R' El|k f f' l l' r r' V V' El|k f l r V Hb|k f l r V Hb
       |k f l r V Hb|k f l r V Hb|Hlt L C C'|Hlt L C C']; cbn [andb negb]; intros Hn Hsw;
    try (pose proof (node_view_children _ _ _ _ _ V) as (Wl & Wr & Ek & El1 & Er1 & Sz & _)).
  - rewrite R, El. eexists. split; [done|]. by apply leaf_union_wf.
  - pose proof (node_view_children _ _ _ _ _ V') as (Wl' & Wr' & Ek' & El1' & Er1' & Sz' & _).
    pose proof V as (_ & _ & _ & _ & R).
    rewrite R, El, El1, Er1, El1', Er1', Ek, Ek', node_key_or.
    destruct (IH l l') as (a & -> & Wa & Ma); [done..|fuel|].
    destruct (IH r r') as (b & -> & Wb & Mb); [done..|fuel|].
    eexists. split; [done|]. by apply (union_same k f f' l r l' r').
  - destruct (IH s l) as (a & Ea & Wa & Ma); [done..|fuel|].
    rewrite <- El1 in Ea. rewrite Ea. eexists. split; [done|]. by apply (union_in_left s t k f l r).
  - destruct (IH s r) as (a & Ea & Wa & Ma); [done..|fuel|].
    rewrite <- Er1 in Ea. rewrite Ea. eexists. split; [done|]. by apply (union_in_right s t k f l r).
  - destruct (IH t s) as (a & -> & Wa & Ma); [done..|rewrite Hsw; unfold cost in *; lia|].
    exists a. split_and!; try done. intros x. by rewrite Ma, orb_comm.
  - destruct (IH t s) as (a & -> & Wa & Ma); [done..|rewrite Hsw; unfold cost in *; lia|].
    exists a. split_and!; try done. intros x. by rewrite Ma, orb_comm.
  - eexists. split; [done|]. by apply union_beside.
  - destruct (union_beside t s) as (E & Hwf & Hmem); [done..|].
    eexists. split; [done|]. rewrite E. split; [done|]. intros x. by rewrite Hmem, orb_comm.
Qed.

Lemma union_wf s t :
  wf s -> wf t ->
  wf (cucon_ucset_union s t) /\ forall x, mem (cucon_ucset_union s t) x = mem s x || mem t x.
Proof.
  intros Hs Ht. unfold cucon_ucset_union.
  destruct (union_go_spec (fuel2 s t) s t Hs Ht (fuel2_enough s t)) as (u & -> & Hu). done.
Qed.

(** ** Intersection *)

Lemma node_key_and k f f' : node_key k f &&& node_key k f' = node_key k (f && f').
Proof.
  unfold node_key. destruct f, f'; cbn [andb]; apply Z.bits_inj'; intros i Hi;
    rewrite ?Z.land_spec, ?Z.lor_spec; by destruct (Z.testbit k i), (Z.testbit 1 i).
Qed.

Lemma node_or_child_collapse k f a b :
  word k -> k mod 2 = 0 -> node_or_child (node_key k f) a b = collapse k f a b.
Proof.
  intros Hk Hm. unfold node_or_child, collapse. by destruct (node_key_spec k f) as (_ & -> & _).
Qed.

Lemma leaf_isecn_wf k bs bs' :
  wf (Leaf k bs) -> wf (Leaf k bs') ->
  wf (ucleaf_isecn k bs bs') /\
  forall x, mem (ucleaf_isecn k bs bs') x = mem (Leaf k bs) x && mem (Leaf k bs') x.
Proof.
  intros (Hw & Hm & Hb & He & H0) (_ & _ & Hb' & _ & H0').
  destruct (zip_isecn_spec bs bs' Hb Hb') as [Hz Hs]. unfold ucleaf_isecn.
  destruct (wf_leaf_or_null k (zip_with Z.land bs bs')) as [Hwf Hmem]; try done.
  { intros Hn. by rewrite Hs, H0 by lia. }
  split; [done|]. intros x. rewrite Hmem, !mem_leaf, Hs by dlia. by destruct (_ =? _).
Qed.

(** An operation [g] on a pair of nodes with the same key, when [g] keeps false. *)
Lemma combine_same (g : bool -> bool -> bool) k f f' l r l' r' a b s t :
  (forall c, g false c = false) ->
  node_view s k f l r -> node_view t k f' l' r' ->
  wf a -> (forall x, mem a x = g (mem l x) (mem l' x)) ->
  wf b -> (forall x, mem b x = g (mem r x) (mem r' x)) ->
  wf (collapse k (g f f') a b) /\ forall x, mem (collapse k (g f f') a b) x = g (mem s x) (mem t x).
Proof.
  intros Hg (_ & (Hw & H0 & Hm & Wl & Wr & Bl & Br) & _ & Ms & _) (_ & _ & _ & Mt & _) Wa Ma Wb Mb.
  destruct (wf_collapse k (g f f') a b) as [Hwf Hmem].
  { split_and!; try done; intros x; rewrite ?Ma, ?Mb; intros Hx;
      [apply Bl; destruct (mem l x)|apply Br; destruct (mem r x)]; try done; by rewrite Hg in Hx. }
  split; [done|]. intros x. rewrite Hmem, Ms, Mt. split_at k x; done.
Qed.

Lemma isecn_child_left s t k f l r x :
  node_view t k f l r -> (forall x, mem s x = true -> klo k <= x < k) ->
  mem s x && mem l x = mem s x && mem t x.
Proof.
  intros (_ & _ & _ & Mt & _) Hb. destruct (mem s x) eqn:E; [|done].
  specialize (Hb x E). by rewrite Mt, split_lt by lia.
Qed.

Lemma isecn_child_right s t k f l r x :
  node_view t k f l r -> (forall x, mem s x = true -> k < x <= khi k) ->
  mem s x && mem r x = mem s x && mem t x.
Proof.
  intros (_ & _ & _ & Mt & _) Hb. destruct (mem s x) eqn:E; [|done].
  specialize (Hb x E). by rewrite Mt, split_gt by lia.
Qed.

Lemma ordered_disjoint s t x :
  (forall x y, mem s x = true -> mem t y = true -> x < y) \/
  (forall x y, mem s x = true -> mem t y = true -> y < x) -> mem s x && mem t x = false.
Proof.
  intros H. destruct (mem s x) eqn:E, (mem t x) eqn:E'; try done.
  destruct H as [H|H]; specialize (H x x E E'); lia.
Qed.

Lemma isecn_go_spec n s t :
  wf s -> wf t -> (cost s t + swap_bit s t <= n)%nat ->
  exists u, isecn_go n s t = Some u /\ wf u /\ forall x, mem u x = mem s x && mem t x.
Proof.
  revert s t. induction n as [|n IH]; intros s t Hs Ht Hn.
  { pose proof (tree_size_pos s). unfold cost in Hn. lia. }
  cbn [isecn_go].
  destruct (is_null s) eqn:Ns. { exists Null. split_and!; try done. by destruct s. }
  destruct (is_null t) eqn:Nt.
  { exists Null. split_and!; try done. intros x. destruct t; try done. by rewrite andb_false_r. }
  cbn [orb]. fold (root s) (root t).
  pose proof (swap_bit_flip s t) as Hsw. unfold swap_bit in Hn. revert Hn Hsw.
  destruct (pair_viewP s t Hs Ht Ns Nt)
    as [k bs bs' -> -> R R' El|k f f' l l' r r' V V' El|k f l r V Hb|k f l r V Hb
       |k f l r V Hb|k f l r V Hb|Hlt L C C'|Hlt L C C']; cbn [andb negb]; intros Hn Hsw;
    try (pose proof (node_view_children _ _ _ _ _ V) as (Wl & Wr & Ek & El1 & Er1 & Sz & Hw & _ & Hm2 & _)).
  - rewrite R, El. eexists. split; [done|]. by apply leaf_isecn_wf.
  - pose proof (node_view_children _ _ _ _ _ V') as (Wl' & Wr' & Ek' & El1' & Er1' & Sz' & _).
    pose proof V as (_ & _ & _ & _ & R).
    rewrite R, El, El1, Er1, El1', Er1', Ek, Ek', node_key_and.
    destruct (IH l l') as (a & -> & Wa & Ma); [done..|fuel|].
    destruct (IH r r') as (b & -> & Wb & Mb); [done..|fuel|].
    eexists. split; [done|]. rewrite node_or_child_collapse by done.
    by apply (combine_same andb k f f' l r l' r').
  - destruct (IH s l) as (a & Ea & Wa & Ma); [done..|fuel|]. rewrite El1.
    exists a. split_and!; try done. intros x. rewrite Ma. by apply (isecn_child_left s t k f l r).
  - destruct (IH s r) as (a & Ea & Wa & Ma); [done..|fuel|]. rewrite Er1.
    exists a. split_and!; try done. intros x. rewrite Ma. by apply (isecn_child_right s t k f l r).
  - destruct (IH t s) as (a & -> & Wa & Ma); [done..|rewrite Hsw; unfold cost in *; lia|].
    exists a. split_and!; try done. intros x. by rewrite Ma, andb_comm.
  - destruct (IH t s) as (a & -> & Wa & Ma); [done..|rewrite Hsw; unfold cost in *; lia|].
    exists a. split_and!; try done. intros x. by rewrite Ma, andb_comm.
  - exists Null. split_and!; try done. intros x. symmetry. apply ordered_disjoint. auto.
  - exists Null. split_and!; try done. intros x. symmetry. apply ordered_disjoint. auto.
Qed.

Lemma isecn_wf s t :
  wf s -> wf t ->
  wf (cucon_ucset_isecn s t) /\ forall x, mem (cucon_ucset_isecn s t) x = mem s x && mem t x.
Proof.
  intros Hs Ht. unfold cucon_ucset_isecn.
  destruct (isecn_go_spec (fuel2 s t) s t Hs Ht (fuel2_enough s t)) as (u & -> & Hu). done.
Qed.

(** ** Difference *)

Lemma node_key_bit0 k f : word k -> k mod 2 = 0 -> node_key k f &&& 1 = Z.b2z f.
Proof.
  intros Hk Hm. destruct (node_key_spec k f Hk Hm) as (_ & Hf & Hw).
  unfold key_flag in Hf. change 1 with (Z.ones 1) in *. rewrite land_ones_mod in * by lia.
  change (2 ^ 1) with 2 in *. pose proof (Z.mod_pos_bound (node_key k f) 2).
  destruct (Z.eqb_spec (node_key k f mod 2) 0), f; cbn in *; done || lia.
Qed.

Lemma node_key_minus k f f' :
  word k -> k mod 2 = 0 -> node_key k f &&& wnot (node_key k f' &&& 1) = node_key k (f && negb f').
Proof.
  intros Hk Hm. rewrite node_key_bit0 by done. destruct (node_key_spec k f Hk Hm) as (Eu & _ & Hwk).
  destruct f'; simpl Z.b2z.
  - unfold ucnode_key in Eu. by rewrite Eu, andb_false_r.
  - rewrite andb_true_r. change (wnot 0) with (Z.ones 64). rewrite land_ones_mod by lia. by apply Z.mod_small.
Qed.

Lemma leaf_minus_wf k bs bs' :
  wf (Leaf k bs) -> wf (Leaf k bs') ->
  wf (ucleaf_minus k bs bs') /\
  forall x, mem (ucleaf_minus k bs bs') x = mem (Leaf k bs) x && negb (mem (Leaf k bs') x).
Proof.
  intros (Hw & Hm & Hb & He & H0) (_ & _ & Hb' & _ & H0').
  destruct (zip_minus_spec bs bs' Hb Hb') as [Hz Hs]. unfold ucleaf_minus.
  destruct (wf_leaf_or_null k (zip_with (fun l r => l &&& wnot r) bs bs')) as [Hwf Hmem]; try done.
  { intros Hn. by rewrite Hs, H0 by lia. }
  split; [done|]. intros x. rewrite Hmem, !mem_leaf, Hs by dlia. by destruct (_ =? _).
Qed.

Lemma minus_child_left s t k f l r x :
  node_view t k f l r -> (forall x, mem s x = true -> klo k <= x < k) ->
  mem s x && negb (mem l x) = mem s x && negb (mem t x).
Proof.
  intros (_ & _ & _ & Mt & _) Hb. destruct (mem s x) eqn:E; [|done].
  specialize (Hb x E). by rewrite Mt, split_lt by lia.
Qed.

Lemma minus_child_right s t k f l r x :
  node_view t k f l r -> (forall x, mem s x = true -> k < x <= khi k) ->
  mem s x && negb (mem r x) = mem s x && negb (mem t x).
Proof.
  intros (_ & _ & _ & Mt & _) Hb. destruct (mem s x) eqn:E; [|done].
  specialize (Hb x E). by rewrite Mt, split_gt by lia.
Qed.

(** The node over a child from which something was removed. *)
Lemma shrink_left s t k f l r a :
  node_view s k f l r -> (forall x, mem t x = true -> klo k <= x < k) ->
  wf a -> (forall x, mem a x = mem l x && negb (mem t x)) ->
  let u := if is_null a && negb f then r else ucnode_new (node_key k f) a r in
  wf u /\ forall x, mem u x = mem s x && negb (mem t x).
Proof.
  intros (_ & (Hw & H0 & Hm & Wl & Wr & Bl & Br) & Hf & Ms & _) Hb Wa Ma. cbn zeta.
  replace (if is_null a && negb f then r else ucnode_new (node_key k f) a r) with (collapse k f a r);
    cycle 1.
  { unfold collapse. destruct f; cbn [negb andb]; [by rewrite andb_false_r|]. rewrite andb_true_r.
    destruct Hf as [|[_ ->]]; done. }
  destruct (wf_collapse k f a r) as [Hwf Hmem].
  { split_and!; try done. intros x. rewrite Ma. intros [? _]%andb_true_iff. auto. }
  split; [done|]. intros x. rewrite Hmem, Ms.
  split_at k x; [done|by rewrite (mem_out _ t k Hb), andb_true_r by lia|by rewrite (mem_out _ t x Hb), andb_true_r by lia].
Qed.

Lemma shrink_right s t k f l r b :
  node_view s k f l r -> (forall x, mem t x = true -> k < x <= khi k) ->
  wf b -> (forall x, mem b x = mem r x && negb (mem t x)) ->
  let u := if is_null b && negb f then l else ucnode_new (node_key k f) l b in
  wf u /\ forall x, mem u x = mem s x && negb (mem t x).
Proof.
  intros (_ & (Hw & H0 & Hm & Wl & Wr & Bl & Br) & Hf & Ms & _) Hb Wb Mb. cbn zeta.
  replace (if is_null b && negb f then l else ucnode_new (node_key k f) l b) with (collapse k f l b);
    cycle 1.
  { unfold collapse. destruct f; cbn [negb andb]; [by rewrite andb_false_r|]. rewrite andb_true_r.
    destruct Hf as [|[-> _]]; done. }
  destruct (wf_collapse k f l b) as [Hwf Hmem].
  { split_and!; try done. intros x. rewrite Mb. intros [? _]%andb_true_iff. auto. }
  split; [done|]. intros x. rewrite Hmem, Ms.
  split_at k x; [by rewrite (mem_out _ t x Hb), andb_true_r by lia|by rewrite (mem_out _ t k Hb), andb_true_r by lia|done].
Qed.

Lemma compl_go_spec n s t :
  wf s -> wf t -> (cost s t <= n)%nat ->
  exists u, compl_go n s t = Some u /\ wf u /\ forall x, mem u x = mem s x && negb (mem t x).
Proof.
  revert s t. induction n as [|n IH]; intros s t Hs Ht Hn.
  { pose proof (tree_size_pos s). unfold cost in Hn. lia. }
  cbn [compl_go].
  destruct (is_null s) eqn:Ns. { exists Null. split_and!; try done. by destruct s. }
  destruct (is_null t) eqn:Nt.
  { exists s. split_and!; try done. intros x. destruct t; try done. by rewrite andb_true_r. }
  fold (root s) (root t).
  assert (Hgt : (root t <? root s) = negb (root s <? root t) && negb (root s =? root t)).
  { destruct (Z.ltb_spec (root t) (root s)), (Z.ltb_spec (root s) (root t)), (Z.eqb_spec (root s) (root t));
      try done; lia. }
  rewrite Hgt. revert Hn.
  destruct (pair_viewP s t Hs Ht Ns Nt)
    as [k bs bs' -> -> R R' El|k f f' l l' r r' V V' El|k f l r V Hb|k f l r V Hb
       |k f l r V Hb|k f l r V Hb|Hlt L C C'|Hlt L C C']; cbn [andb negb]; intros Hn;
    try (pose proof (node_view_children _ _ _ _ _ V) as (Wl & Wr & Ek & El1 & Er1 & Sz & Hw & _ & Hm2 & Ef)).
  - rewrite R, El. eexists. split; [done|]. by apply leaf_minus_wf.
  - pose proof (node_view_children _ _ _ _ _ V') as (Wl' & Wr' & Ek' & El1' & Er1' & Sz' & _).
    pose proof V as (_ & _ & _ & _ & R).
    rewrite R, El, El1, Er1, El1', Er1', Ek, Ek', node_key_minus by done.
    destruct (IH l l') as (a & -> & Wa & Ma); [done..|fuel|].
    destruct (IH r r') as (b & -> & Wb & Mb); [done..|fuel|].
    eexists. split; [done|]. rewrite node_or_child_collapse by done.
    by apply (combine_same (fun a b => a && negb b) k f f' l r l' r').
  - destruct (IH s l) as (a & Ea & Wa & Ma); [done..|fuel|]. rewrite El1.
    exists a. split_and!; try done. intros x. rewrite Ma. by apply (minus_child_left s t k f l r).
  - destruct (IH s r) as (a & Ea & Wa & Ma); [done..|fuel|]. rewrite Er1.
    exists a. split_and!; try done. intros x. rewrite Ma. by apply (minus_child_right s t k f l r).
  - destruct (IH l t) as (a & Ea & Wa & Ma); [done..|fuel|]. rewrite El1, Er1, Ek, Ef, Ea.
    cbn [mbind option_bind].
    destruct (shrink_left s t k f l r a) as [Hwf Hmem]; try done.
    eexists. split; [|by split]. destruct (is_null _ && negb f); done.
  - destruct (IH r t) as (a & Ea & Wa & Ma); [done..|fuel|]. rewrite El1, Er1, Ek, Ef, Ea.
    cbn [mbind option_bind].
    destruct (shrink_right s t k f l r a) as [Hwf Hmem]; try done.
    eexists. split; [|by split]. destruct (is_null _ && negb f); done.
  - exists s. split_and!; try done. intros x. pose proof (ordered_disjoint s t x (or_introl Hlt)) as Hd.
    by destruct (mem s x), (mem t x).
  - exists s. split_and!; try done. intros x. pose proof (ordered_disjoint s t x (or_intror Hlt)) as Hd.
    by destruct (mem s x), (mem t x).
Qed.

Lemma compl_wf s t :
  wf s -> wf t ->
  wf (cucon_ucset_compl s t) /\ forall x, mem (cucon_ucset_compl s t) x = mem s x && negb (mem t x).
Proof.
  intros Hs Ht. unfold cucon_ucset_compl.
  destruct (compl_go_spec (fuel2 s t) s t Hs Ht) as (u & -> & Hu); [unfold fuel2, cost; lia|done].
Qed.

(** ** Inclusion *)

Definition included (s t : ucset) : Prop := forall x, mem s x = true -> mem t x = true.

Lemma node_view_span s k f l r :
  wf s -> node_view s k f l r ->
  (exists x, mem s x = true /\ k <= x) /\ (exists y, mem s y = true /\ y <= k).
Proof.
  intros Hs (-> & _ & _ & _ & R). pose proof (wf_node_span _ _ _ Hs) as Hsp.
  unfold root in R. simpl in R. by rewrite R in Hsp.
Qed.

Lemma leaf_included k bs bs' :
  wf (Leaf k bs) -> wf (Leaf k bs') ->
  ucleaf_subeq bs bs' = true <-> included (Leaf k bs) (Leaf k bs').
Proof.
  intros (Hw & Hm & Hb & _) (_ & _ & Hb' & _). rewrite ucleaf_subeq_spec by done. split.
  - intros Ha x. rewrite !mem_leaf, !andb_true_iff. intros [? ?]. split; [done|]. apply Ha; [dlia|done].
  - intros Ha i Hi Hbit. specialize (Ha (k - 64 + i)). rewrite !mem_leaf, !andb_true_iff, Z.eqb_eq in Ha.
    replace ((k - 64 + i) mod 128) with i in Ha by dlia. apply Ha. split; [dlia|done].
Qed.

Lemma node_included s t k f f' l l' r r' :
  node_view s k f l r -> node_view t k f' l' r' ->
  included s t <-> (f = true -> f' = true) /\ included l l' /\ included r r'.
Proof.
  intros (_ & (_ & _ & _ & _ & _ & Bl & Br) & _ & Ms & _) (_ & _ & _ & Mt & _).
  unfold included. setoid_rewrite Ms. setoid_rewrite Mt. split.
  - intros Ha. split_and!; [specialize (Ha k); by rewrite !split_eq in Ha|..]; intros x Hx.
    + specialize (Ha x). pose proof (Bl x Hx). rewrite !split_lt in Ha by lia. auto.
    + specialize (Ha x). pose proof (Br x Hx). rewrite !split_gt in Ha by lia. auto.
  - intros (F & Ll & Lr) x. split_at k x; auto.
Qed.

Lemma subeq_go_spec n s t :
  wf s -> wf t -> (cost s t <= n)%nat ->
  exists b, subeq_go n s t = Some b /\ (b = true <-> included s t).
Proof.
  revert s t. induction n as [|n IH]; intros s t Hs Ht Hn.
  { pose proof (tree_size_pos s). unfold cost in Hn. lia. }
  cbn [subeq_go]. unfold ptr_eq. case_bool_decide as Ep.
  { subst t. exists true. split; [done|]. by split; [intros _ x|]. }
  destruct (is_null s) eqn:Ns. { exists true. split; [done|]. split; [|done]. intros _ x. by destruct s. }
  destruct (wf_nonempty s Hs Ns) as [z Hz].
  destruct (is_null t) eqn:Nt.
  { exists false. split; [done|]. split; [done|]. intros Ha. specialize (Ha z Hz). by destruct t. }
  fold (root s) (root t). revert Hn.
  destruct (pair_viewP s t Hs Ht Ns Nt)
    as [k bs bs' -> -> R R' El|k f f' l l' r r' V V' El|k f l r V Hb|k f l r V Hb
       |k f l r V Hb|k f l r V Hb|Hlt L C C'|Hlt L C C']; cbn [andb negb]; intros Hn;
    try (pose proof (node_view_children _ _ _ _ _ V) as (Wl & Wr & Ek & El1 & Er1 & Sz & Hw & Hm & Hm2 & Ef);
         pose proof V as (_ & _ & _ & Ms & R)).
  - rewrite R, El. eexists. split; [done|]. by apply leaf_included.
  - pose proof (node_view_children _ _ _ _ _ V') as (Wl' & Wr' & Ek' & El1' & Er1' & Sz' & _).
    rewrite R, El, El1, Er1, El1', Er1', Ek, Ek', !node_key_bit0 by done.
    pose proof (node_included _ _ _ _ _ _ _ _ _ V V') as Hx.
    destruct (IH l l') as (a & -> & Ha); [done..|fuel|].
    destruct (IH r r') as (b & -> & Hb); [done..|fuel|]. rewrite <- Ha, <- Hb in Hx.
    destruct f, f', a; cbn; eexists; (split; [done|]); rewrite Hx; intuition congruence.
  - destruct (IH s l) as (a & Ea & Ha); [done..|fuel|]. rewrite El1, Ea. eexists. split; [done|].
    rewrite Ha. split; intros Hx x E; specialize (Hx x E); specialize (Hb x E);
      [rewrite Ms, split_lt by lia|rewrite Ms, split_lt in Hx by lia]; done.
  - destruct (IH s r) as (a & Ea & Ha); [done..|fuel|]. rewrite Er1, Ea. eexists. split; [done|].
    rewrite Ha. split; intros Hx x E; specialize (Hx x E); specialize (Hb x E);
      [rewrite Ms, split_gt by lia|rewrite Ms, split_gt in Hx by lia]; done.
  - exists false. split; [done|]. split; [done|]. intros Ha.
    destruct (node_view_span _ _ _ _ _ Hs V) as [(x & Hx & ?) _]. specialize (Hb x (Ha x Hx)). lia.
  - exists false. split; [done|]. split; [done|]. intros Ha.
    destruct (node_view_span _ _ _ _ _ Hs V) as [_ (x & Hx & ?)]. specialize (Hb x (Ha x Hx)). lia.
  - exists false. split; [done|]. split; [done|]. intros Ha. specialize (Hlt z z Hz (Ha z Hz)). lia.
  - exists false. split; [done|]. split; [done|]. intros Ha. specialize (Hlt z z Hz (Ha z Hz)). lia.
Qed.

Lemma subeq_spec s t : wf s -> wf t -> cucon_ucset_subeq s t = true <-> included s t.
Proof.
  intros Hs Ht. unfold cucon_ucset_subeq.
  destruct (subeq_go_spec (fuel2 s t) s t Hs Ht) as (u & -> & Hu); [unfold fuel2, cost; lia|done].
Qed.

(** ** Disjointness *)

Definition apart_sets (s t : ucset) : Prop := forall x, mem s x && mem t x = false.

Lemma apart_sets_comm s t : apart_sets s t <-> apart_sets t s.
Proof. unfold apart_sets. split; intros H x; rewrite andb_comm; apply H. Qed.

Lemma leaf_apart k bs bs' :
  wf (Leaf k bs) -> wf (Leaf k bs') ->
  ucleaf_disjoint bs bs' = true <-> apart_sets (Leaf k bs) (Leaf k bs').
Proof.
  intros (Hw & Hm & Hb & _) (_ & _ & Hb' & _). rewrite ucleaf_disjoint_spec by done. split.
  - intros Ha x. rewrite !mem_leaf. specialize (Ha (x mod 128)).
    destruct (_ =? _); [|done]. apply Ha. dlia.
  - intros Ha i Hi. specialize (Ha (k - 64 + i)). rewrite !mem_leaf in Ha.
    replace ((k - 64 + i) mod 128) with i in Ha by dlia.
    by rewrite (proj2 (Z.eqb_eq ((k - 64 + i) / 128) (k / 128))) in Ha by dlia.
Qed.

Lemma node_apart s t k f f' l l' r r' :
  node_view s k f l r -> node_view t k f' l' r' ->
  apart_sets s t <-> f && f' = false /\ apart_sets l l' /\ apart_sets r r'.
Proof.
  intros (_ & (_ & _ & _ & _ & _ & Bl & Br) & _ & Ms & _) (_ & _ & _ & Mt & _).
  unfold apart_sets. setoid_rewrite Ms. setoid_rewrite Mt. split.
  - intros Ha. split_and!; [specialize (Ha k); by rewrite !split_eq in Ha|..]; intros x.
    + destruct (mem l x) eqn:Hx; [|done]. specialize (Ha x). pose proof (Bl x Hx).
      rewrite !split_lt, Hx in Ha by lia. done.
    + destruct (mem r x) eqn:Hx; [|done]. specialize (Ha x). pose proof (Br x Hx).
      rewrite !split_gt, Hx in Ha by lia. done.
  - intros (F & Ll & Lr) x. split_at k x; auto.
Qed.

Lemma apart_in_left s t k f l r :
  node_view t k f l r -> (forall x, mem s x = true -> klo k <= x < k) ->
  apart_sets s l <-> apart_sets s t.
Proof. intros V Hb. unfold apart_sets. by setoid_rewrite (isecn_child_left s t k f l r _ V Hb). Qed.

Lemma apart_in_right s t k f l r :
  node_view t k f l r -> (forall x, mem s x = true -> k < x <= khi k) ->
  apart_sets s r <-> apart_sets s t.
Proof. intros V Hb. unfold apart_sets. by setoid_rewrite (isecn_child_right s t k f l r _ V Hb). Qed.

Lemma flags_meet k f f' :
  word k -> k mod 2 = 0 ->
  negb ((uint (node_key k f) &&& uint (node_key k f') &&& 1) =? 0) = f && f'.
Proof.
  intros Hk Hm. assert (E : forall x y, uint x &&& uint y &&& 1 = (x &&& 1) &&& (y &&& 1)).
  { intros x y. unfold uint, wrapw. rewrite <- !land_ones_mod by lia. change 1 with (Z.ones 1).
    bits; by destruct (Z.testbit x i), (Z.testbit y i). }
  rewrite E, !node_key_bit0 by done. by destruct f, f'.
Qed.

Lemma disjoint_go_spec n s t :
  wf s -> wf t -> (cost s t <= n)%nat ->
  exists b, disjoint_go n s t = Some b /\ (b = true <-> apart_sets s t).
Proof.
  revert s t. induction n as [|n IH]; intros s t Hs Ht Hn.
  { pose proof (tree_size_pos s). unfold cost in Hn. lia. }
  cbn [disjoint_go].
  destruct (is_null s) eqn:Ns. { exists true. split; [done|]. split; [|done]. intros _ x. by destruct s. }
  destruct (wf_nonempty s Hs Ns) as [z Hz].
  destruct (is_null t) eqn:Nt.
  { exists true. split; [done|]. split; [|done]. intros _ x. destruct t; try done. apply andb_false_r. }
  cbn [orb]. unfold ptr_eq. case_bool_decide as Ep.
  { subst t. exists false. split; [done|]. split; [done|]. intros Ha. specialize (Ha z). by rewrite Hz in Ha. }
  fold (root s) (root t).
  assert (Hgt : (root t <? root s) = negb (root s <? root t) && negb (root s =? root t)).
  { destruct (Z.ltb_spec (root t) (root s)), (Z.ltb_spec (root s) (root t)), (Z.eqb_spec (root s) (root t));
      try done; lia. }
  rewrite Hgt. revert Hn.
  destruct (pair_viewP s t Hs Ht Ns Nt)
    as [k bs bs' -> -> R R' El|k f f' l l' r r' V V' El|k f l r V Hb|k f l r V Hb
       |k f l r V Hb|k f l r V Hb|Hlt L C C'|Hlt L C C']; cbn [andb negb]; intros Hn;
    try (pose proof (node_view_children _ _ _ _ _ V) as (Wl & Wr & Ek & El1 & Er1 & Sz & Hw & Hm & Hm2 & Ef);
         pose proof V as (_ & _ & _ & Ms & R)).
  - rewrite R, El. eexists. split; [done|]. by apply leaf_apart.
  - pose proof (node_view_children _ _ _ _ _ V') as (Wl' & Wr' & Ek' & El1' & Er1' & Sz' & _).
    rewrite R, El, El1, Er1, El1', Er1', Ek, Ek', flags_meet by done.
    pose proof (node_apart _ _ _ _ _ _ _ _ _ V V') as Hx.
    destruct (IH l l') as (a & -> & Ha); [done..|fuel|].
    destruct (IH r r') as (b & -> & Hb); [done..|fuel|]. rewrite <- Ha, <- Hb in Hx.
    destruct (f && f'), a; cbn; eexists; (split; [done|]); rewrite Hx; intuition congruence.
  - destruct (IH s l) as (a & Ea & Ha); [done..|fuel|]. rewrite El1, Ea. eexists. split; [done|].
    rewrite Ha. by apply (apart_in_left _ _ k f l r).
  - destruct (IH s r) as (a & Ea & Ha); [done..|fuel|]. rewrite Er1, Ea. eexists. split; [done|].
    rewrite Ha. by apply (apart_in_right _ _ k f l r).
  - destruct (IH l t) as (a & Ea & Ha); [done..|fuel|]. rewrite El1, Ea. eexists. split; [done|].
    rewrite Ha, apart_sets_comm, (apart_sets_comm s). by apply (apart_in_left _ _ k f l r).
  - destruct (IH r t) as (a & Ea & Ha); [done..|fuel|]. rewrite Er1, Ea. eexists. split; [done|].
    rewrite Ha, apart_sets_comm, (apart_sets_comm s). by apply (apart_in_right _ _ k f l r).
  - exists true. split; [done|]. split; [|done]. intros _ x. apply ordered_disjoint. auto.
  - exists true. split; [done|]. split; [|done]. intros _ x. apply ordered_disjoint. auto.
Qed.

Lemma disjoint_spec s t : wf s -> wf t -> cucon_ucset_disjoint s t = true <-> apart_sets s t.
Proof.
  intros Hs Ht. unfold cucon_ucset_disjoint.
  destruct (disjoint_go_spec (fuel2 s t) s t Hs Ht) as (u & -> & Hu); [unfold fuel2, cost; lia|done].
Qed.

(** ** Correctness *)

(** C26: [cucon_ucset_union] returns a set that satisfies the invariant and whose
    elements are those of both arguments, and its recursion ends within the fuel
    the model gives it. *)
Theorem ucset_union_correct s t :
  wf s -> wf t ->
  union_go (fuel2 s t) s t = Some (cucon_ucset_union s t) /\
  wf (cucon_ucset_union s t) /\ to_set (cucon_ucset_union s t) = to_set s ∪ to_set t.
Proof.
  intros Hs Ht. destruct (union_wf s t Hs Ht) as [W M]. split_and!; [|done|].
  - unfold cucon_ucset_union.
    by destruct (union_go_spec (fuel2 s t) s t Hs Ht (fuel2_enough s t)) as (u & -> & _).
  - apply set_eq. intros x. by rewrite to_set_spec, M, orb_true_iff, elem_of_union, !to_set_spec.
Qed.

Lemma ucset_union_correct_witness :
  let s := sample [3; 1000; 256] in let t := sample [5; 2 ^ 63; 256] in
  wf s /\ wf t /\ to_set (cucon_ucset_union s t) = to_set s ∪ to_set t.
Proof.
  cbv zeta. assert (Hs : wf (sample [3; 1000; 256])) by wf_compute.
  assert (Ht : wf (sample [5; 2 ^ 63; 256])) by wf_compute.
  split; [exact Hs|]. split; [exact Ht|]. apply (ucset_union_correct _ _ Hs Ht).
Defined.

(** [cucon_ucset_isecn] returns a set that satisfies the invariant and whose
    elements are the common elements, within the fuel the model gives it. *)
Theorem ucset_isecn_correct s t :
  wf s -> wf t ->
  isecn_go (fuel2 s t) s t = Some (cucon_ucset_isecn s t) /\
  wf (cucon_ucset_isecn s t) /\ to_set (cucon_ucset_isecn s t) = to_set s ∩ to_set t.
Proof.
  intros Hs Ht. destruct (isecn_wf s t Hs Ht) as [W M]. split_and!; [|done|].
  - unfold cucon_ucset_isecn.
    by destruct (isecn_go_spec (fuel2 s t) s t Hs Ht (fuel2_enough s t)) as (u & -> & _).
  - apply set_eq. intros x. by rewrite to_set_spec, M, andb_true_iff, elem_of_intersection, !to_set_spec.
Qed.

(** [cucon_ucset_compl] returns a set that satisfies the invariant and whose
    elements are those of the first argument that are not in the second, within
    the fuel the model gives it. *)
Theorem ucset_compl_correct s t :
  wf s -> wf t ->
  compl_go (fuel2 s t) s t = Some (cucon_ucset_compl s t) /\
  wf (cucon_ucset_compl s t) /\ to_set (cucon_ucset_compl s t) = to_set s ∖ to_set t.
Proof.
  intros Hs Ht. destruct (compl_wf s t Hs Ht) as [W M]. split_and!; [|done|].
  - unfold cucon_ucset_compl.
    destruct (compl_go_spec (fuel2 s t) s t Hs Ht) as (u & -> & _); [unfold fuel2, cost; lia|done].
  - apply set_eq. intros x.
    rewrite to_set_spec, M, andb_true_iff, negb_true_iff, elem_of_difference, !to_set_spec.
    by rewrite not_true_iff_false.
Qed.

(** [cucon_ucset_subeq] and [cucon_ucset_disjoint] decide inclusion and
    disjointness, and both recursions end within the fuel the model gives them. *)
Theorem ucset_relations_correct s t :
  wf s -> wf t ->
  (subeq_go (fuel2 s t) s t = Some (cucon_ucset_subeq s t) /\
   (cucon_ucset_subeq s t = true <-> to_set s ⊆ to_set t)) /\
  (disjoint_go (fuel2 s t) s t = Some (cucon_ucset_disjoint s t) /\
   (cucon_ucset_disjoint s t = true <-> to_set s ## to_set t)).
Proof.
  intros Hs Ht. split; split.
  - unfold cucon_ucset_subeq.
    destruct (subeq_go_spec (fuel2 s t) s t Hs Ht) as (u & -> & _); [unfold fuel2, cost; lia|done].
  - rewrite subeq_spec by done. unfold included. apply forall_proper. intros x. by rewrite !to_set_spec.
  - unfold cucon_ucset_disjoint.
    destruct (disjoint_go_spec (fuel2 s t) s t Hs Ht) as (u & -> & _); [unfold fuel2, cost; lia|done].
  - rewrite disjoint_spec by done. rewrite elem_of_disjoint. apply forall_proper. intros x.
    rewrite !to_set_spec. destruct (mem s x), (mem t x); cbn; intuition congruence.
Qed.

(** On trees that satisfy the invariant the set operations obey the laws of a
    boolean algebra of sets as equalities of trees: union and intersection
    commute, associate, are idempotent, absorb and distribute, and difference turns
    unions into intersections.  Hash-consed results that are equal as sets are the same
    object. *)
Theorem ucset_algebra_laws r s t :
  wf r -> wf s -> wf t ->
  let u := cucon_ucset_union in let i := cucon_ucset_isecn in let d := cucon_ucset_compl in
  u s t = u t s /\ i s t = i t s /\ u s s = s /\ i s s = s /\ d s s = Null /\
  u (u r s) t = u r (u s t) /\ i (i r s) t = i r (i s t) /\
  u s (i s t) = s /\ i s (u s t) = s /\
  i r (u s t) = u (i r s) (i r t) /\ u r (i s t) = i (u r s) (u r t) /\
  d r (u s t) = i (d r s) (d r t) /\ u (i s t) (d s t) = s.
Proof.
  intros Hr Hs Ht. cbv zeta.
  assert (W : forall a b, wf a -> wf b ->
    wf (cucon_ucset_union a b) /\ wf (cucon_ucset_isecn a b) /\ wf (cucon_ucset_compl a b)).
  { intros a b Ha Hb. by destruct (union_wf a b Ha Hb), (isecn_wf a b Ha Hb), (compl_wf a b Ha Hb). }
  assert (MU : forall a b x, wf a -> wf b -> mem (cucon_ucset_union a b) x = mem a x || mem b x)
    by (intros a b x Ha Hb; by apply union_wf).
  assert (MI : forall a b x, wf a -> wf b -> mem (cucon_ucset_isecn a b) x = mem a x && mem b x)
    by (intros a b x Ha Hb; by apply isecn_wf).
  assert (MD : forall a b x, wf a -> wf b -> mem (cucon_ucset_compl a b) x = mem a x && negb (mem b x))
    by (intros a b x Ha Hb; by apply compl_wf).
  split_and!; (apply wf_ext; [repeat first [done|apply W]..|]); intros x;
    repeat first [rewrite MU by (repeat first [done|apply W])|rewrite MI by (repeat first [done|apply W])
                 |rewrite MD by (repeat first [done|apply W])];
    simpl mem; destruct (mem r x), (mem s x), (mem t x); done.
Qed.
