(* ===== verification/UcsetTrav.v ===== *)
(** * Constructive integer sets: traversal

    [conj], [iter], [filter], [card], [is_singleton], [image] and [filter_image] of
    [Ucset], against the ascending list of elements [elems]. *)

From stdpp Require Export sorting.
From S2P Require Export UcsetAlg.

(** The key that the filter callback is given for the element [x]: leaf elements
    pass through the [int] of [_ucleaf_filter]. *)
Definition filter_arg (x : Z) : Z := if key_is_leaflike x then wrap (to_int x) else x.

(** ** The elements are ascending *)

Lemma seqZ_sorted a n : StronglySorted Z.lt (seqZ a (Z.of_nat n)).
Proof.
  revert a. induction n as [|n IH]; intros a; [by constructor|].
  rewrite seqZ_cons by lia. replace (Z.pred (Z.of_nat (S n))) with (Z.of_nat n) by lia.
  apply StronglySorted_cons. split; [|apply IH].
  apply Forall_seqZ. lia.
Qed.

Lemma filter_sorted (P : Z -> Prop) `{!forall x, Decision (P x)} xs :
  StronglySorted Z.lt xs -> StronglySorted Z.lt (filter P xs).
Proof.
  induction 1 as [|x xs Hs IH Hf]; [by constructor|]. rewrite filter_cons.
  destruct (decide (P x)); [|done]. apply StronglySorted_cons. split; [|done].
  apply list.Forall_forall. intros y [_ Hy]%list_elem_of_filter.
  by apply (proj1 (list.Forall_forall _ _) Hf).
Qed.

Lemma elems_sorted s : wf s -> StronglySorted Z.lt (elems s).
Proof.
  induction s as [|k bs|nk l IHl r IHr]; intros Hs; [by constructor| |].
  - apply filter_sorted. apply (seqZ_sorted _ 128).
  - apply wf_node_inv in Hs as (k & f & -> & Ek & Ef & Hw & H0 & Hm & Hm2 & _ & Wl & Wr & Bl & Br & Hs).
    cbn [elems]. rewrite Ek, Ef. apply StronglySorted_app_2; [|by apply IHl|].
    + intros x y Hx%elem_of_elems%Bl [Hy|Hy%elem_of_elems%Br]%elem_of_app; [|lia].
      destruct f; [apply list_elem_of_singleton in Hy|apply elem_of_nil in Hy]; [lia|done].
    + apply StronglySorted_app_2; [|destruct f; repeat constructor|by apply IHr].
      intros x y Hx Hy%elem_of_elems%Br.
      destruct f; [apply list_elem_of_singleton in Hx|apply elem_of_nil in Hx]; [lia|done].
Qed.

Lemma elems_NoDup s : wf s -> NoDup (elems s).
Proof.
  intros Hs. pose proof (elems_sorted s Hs) as H. induction H as [|x xs Hx IH Hf]; constructor; [|done].
  intros Hin. pose proof (proj1 (list.Forall_forall _ _) Hf x Hin). lia.
Qed.

Lemma length_elems s : wf s -> length (elems s) = size (to_set s).
Proof. intros Hs. unfold to_set. by rewrite size_list_to_set by by apply elems_NoDup. Qed.

(** ** Conjunction and iteration *)

Section traversal.
Context {S : Type}.

Lemma conj_leaf_S (cb : S -> Z -> S * bool) fuel bs k s :
  conj_leaf cb (Datatypes.S fuel) bs k s =
  let '(s, ok) := if ucleaf_find bs k then cb s k else (s, true) in
  if negb ok then (s, false)
  else
    let k := wadd k 1 in
    if (k &&& BITSET_MASK) =? 0 then (s, true) else conj_leaf cb fuel bs k s.
Proof. reflexivity. Qed.

(** The key wraps around only after the last element of the last leaf. *)
Lemma conj_leaf_spec (cb : S -> Z -> S * bool) n base bs s :
  0 <= base -> base mod 128 = 0 -> base + 128 <= 2 ^ 64 -> (1 <= n <= 128)%nat ->
  conj_leaf cb n bs (base + (128 - Z.of_nat n)) s =
  conj_list cb (filter (fun x => leaf_bit bs (x mod 128) = true)
                  (seqZ (base + (128 - Z.of_nat n)) (Z.of_nat n))) s.
Proof.
  intros H0 Hm Hmax. revert s. induction n as [|n IH]; intros s Hn; [lia|].
  rewrite conj_leaf_S, seqZ_cons by lia.
  replace (Z.pred (Z.of_nat (Datatypes.S n))) with (Z.of_nat n) by lia.
  set (k := base + (128 - Z.of_nat (Datatypes.S n))). rewrite filter_cons, ucleaf_find_spec.
  assert (Hnext : forall s',
    (let k := wadd k 1 in if (k &&& BITSET_MASK) =? 0 then (s', true) else conj_leaf cb n bs k s')
    = conj_list cb (filter (fun x => leaf_bit bs (x mod 128) = true) (seqZ (Z.succ k) (Z.of_nat n))) s').
  { intros s'. cbn zeta. rewrite land_BITSET_MASK. unfold wadd, wrap. destruct (decide (n = 0%nat)) as [->|Hne].
    - replace ((k + 1) mod 2 ^ 64 mod 128) with 0 by (subst k; dlia). done.
    - rewrite (Z.mod_small (k + 1)) by lia.
      rewrite (proj2 (Z.eqb_neq _ 0)) by (subst k; dlia).
      replace (k + 1) with (base + (128 - Z.of_nat n)) by lia. rewrite IH by lia.
      do 3 f_equal. lia. }
  destruct (leaf_bit bs (k mod 128)) eqn:E; case_decide; try done.
  - cbn [conj_list]. destruct (cb s k) as [s' [|]]; [apply Hnext|done].
  - apply Hnext.
Qed.

Lemma leaf_start k : word k -> k mod 128 = 64 ->
  (ucnode_key k &&& wnot BITSET_MASK) = 128 * (k / 128) /\ 128 * (k / 128) + 128 <= 2 ^ 64.
Proof.
  intros Hw Hm. destruct (ucnode_key_spec k Hw) as [-> _]. replace (k mod 2) with 0 by dlia.
  rewrite Z.sub_0_r, land_not_BITSET_MASK by done. unfold word in Hw. dlia.
Qed.

Lemma conj_spec (cb : S -> Z -> S * bool) node s :
  wf node -> cucon_ucset_conj node cb s = conj_list cb (elems node) s.
Proof.
  revert s. induction node as [|k bs|nk l IHl r IHr]; intros s Hs; [done| |].
  - destruct Hs as (Hw & Hm & _). destruct (leaf_start k Hw Hm) as [E Hmax].
    cbn [cucon_ucset_conj elems]. rewrite E.
    pose proof (conj_leaf_spec cb 128 (128 * (k / 128)) bs s) as Hl.
    change (128 - Z.of_nat 128) with 0 in Hl. rewrite Z.add_0_r in Hl. apply Hl; unfold word in Hw; try lia.
    + dlia.
    + rewrite Z.mul_comm. by apply Z.mod_mul.
  - apply wf_node_inv in Hs as (k & f & -> & Ek & Ef & _ & _ & _ & _ & _ & Wl & Wr & _).
    cbn [cucon_ucset_conj elems]. rewrite Ek, Ef, !conj_list_app, IHl by done.
    destruct (conj_list cb (elems l) s) as [s' [|]]; [|done]. destruct f; cbn.
    + destruct (cb s' k) as [s'' [|]]; cbn; [|done]. by apply IHr.
    + by apply IHr.
Qed.

Lemma iter_leaf_conj (f : S -> Z -> S) fuel bs k s :
  conj_leaf (fun s x => (f s x, true)) fuel bs k s = (iter_leaf f fuel bs k s, true).
Proof.
  revert k s. induction fuel as [|fuel IH]; intros k s; [done|]. cbn [conj_leaf iter_leaf].
  destruct (ucleaf_find bs k); cbn zeta; cbn [negb]; destruct (_ =? 0); done.
Qed.

Lemma iter_conj (f : S -> Z -> S) node s :
  cucon_ucset_conj node (fun s x => (f s x, true)) s = (cucon_ucset_iter node f s, true).
Proof.
  revert s. induction node as [|k bs|nk l IHl r IHr]; intros s; [done|apply iter_leaf_conj|].
  cbn [cucon_ucset_conj cucon_ucset_iter]. rewrite IHl. cbn. by destruct (key_flag nk); cbn; rewrite IHr.
Qed.

Lemma conj_list_fold (f : S -> Z -> S) xs s :
  conj_list (fun s x => (f s x, true)) xs s = (fold_left f xs s, true).
Proof. revert s. induction xs as [|x xs IH]; intros s; [done|]. apply IH. Qed.

Lemma iter_spec (f : S -> Z -> S) node s :
  wf node -> cucon_ucset_iter node f s = fold_left f (elems node) s.
Proof.
  intros Hs. pose proof (iter_conj f node s) as H. rewrite conj_spec, conj_list_fold in H by done. congruence.
Qed.
End traversal.

(** ** Cardinality *)

Lemma popcount_filter n w a (P : Z -> Prop) `{!forall x, Decision (P x)} :
  (forall i, 0 <= i < Z.of_nat n -> P (a + i) <-> Z.testbit w i = true) ->
  Z.of_nat (length (filter P (seqZ a (Z.of_nat n)))) = popcount n w.
Proof.
  induction n as [|n IH]; intros HP; [done|].
  rewrite seqZ_S, list.filter_app, length_app, Nat2Z.inj_add, IH by (intros; apply HP; lia).
  cbn [popcount]. specialize (HP (Z.of_nat n)). rewrite filter_cons.
  destruct (Z.testbit w (Z.of_nat n)), (decide (P (a + Z.of_nat n))) as [p|p]; simpl; try lia.
  - destruct p. apply HP; [lia|done].
  - apply HP in p; [done|lia].
Qed.

Lemma leaf_count k w0 w1 :
  word w0 -> word w1 ->
  Z.of_nat (length (leaf_elems k [w0; w1])) = popcount 64 w0 + popcount 64 w1.
Proof.
  intros H0 H1. unfold leaf_elems. set (b := 128 * (k / 128)).
  assert (Hb : b mod 128 = 0) by (subst b; rewrite Z.mul_comm; by apply Z.mod_mul).
  change (seqZ b 128) with (seqZ b (64 + 64)). rewrite seqZ_app, list.filter_app, length_app, Nat2Z.inj_add by lia.
  f_equal; apply (popcount_filter 64); intros i Hi.
  - replace ((b + i) mod 128) with i by dlia. rewrite leaf_bit_2, (proj2 (Z.ltb_lt i 64)) by lia. done.
  - replace ((b + 64 + i) mod 128) with (i + 64) by dlia.
    rewrite leaf_bit_2, (proj2 (Z.ltb_ge (i + 64) 64)) by lia. by replace (i + 64 - 64) with i by lia.
Qed.

Lemma ucleaf_card_spec k bs :
  wf (Leaf k bs) -> ucleaf_card k bs = Z.of_nat (length (leaf_elems k bs)).
Proof.
  intros (Hw & Hm & Hb & _). apply bs_wf_inv in Hb as (w0 & w1 & -> & H0 & H1).
  rewrite leaf_count by done. unfold ucleaf_card, cu_word_bit_count. cbn [fold_left].
  rewrite !cu_uint64_bit_count_popcount by done.
  change (k &&& 1) with (k &&& Z.ones 1). rewrite land_ones_mod by lia.
  replace (k mod 2 ^ 1) with 0 by (change (2 ^ 1) with 2; dlia). lia.
Qed.

Lemma wrap_add_l a b : wrap (wrap a + b) = wrap (a + b).
Proof. apply Zplus_mod_idemp_l. Qed.

Lemma wrap_add_r a b : wrap (a + wrap b) = wrap (a + b).
Proof. apply Zplus_mod_idemp_r. Qed.

Lemma card_from_spec c s :
  wf s -> word c -> card_from c s = wrap (c + Z.of_nat (length (elems s))).
Proof.
  revert c. induction s as [|k bs|nk l IHl r IHr]; intros c Hs Hc.
  - cbn. by rewrite Z.add_0_r, wrap_small.
  - cbn [card_from elems]. by rewrite ucleaf_card_spec.
  - apply wf_node_inv in Hs as (k & f & -> & Ek & Ef & _ & _ & _ & _ & _ & Wl & Wr & _).
    cbn [card_from elems]. rewrite Ek, Ef, IHl, IHr by (done || apply word_wadd).
    rewrite !length_app, !Nat2Z.inj_add. unfold wadd.
    replace (0 + Z.of_nat (length (elems l))) with (Z.of_nat (length (elems l))) by lia.
    assert (E : forall c', word c' -> wrap (wrap (c' + wrap (Z.of_nat (length (elems l)))) +
      Z.of_nat (length (elems r))) = wrap (c' + Z.of_nat (length (elems l)) + Z.of_nat (length (elems r)))).
    { intros c' _. by rewrite wrap_add_r, wrap_add_l. }
    destruct f; cbn [length]; rewrite E by (done || apply word_wrap).
    + rewrite <- Z.add_assoc, wrap_add_l. f_equal. lia.
    + f_equal. lia.
Qed.

(** ** Singletons *)

Lemma popcount_word_0 w : word w -> (popcount 64 w =? 0) = (w =? 0).
Proof.
  intros Hw. apply eq_true_iff_eq. rewrite !Z.eqb_eq, popcount_eq_0. split; [|intros -> ??; apply Z.bits_0].
  intros Hb. apply word_ext; [done|done|]. intros i Hi. rewrite Z.bits_0. by apply Hb.
Qed.

Lemma ucleaf_is_singleton_spec k bs :
  wf (Leaf k bs) -> ucleaf_is_singleton bs = (length (leaf_elems k bs) =? 1)%nat.
Proof.
  intros (Hw & Hm & Hb & _). apply bs_wf_inv in Hb as (w0 & w1 & -> & H0 & H1).
  pose proof (leaf_count k w0 w1 H0 H1) as Hc.
  cbn [ucleaf_is_singleton forallb]. unfold cu_word_bit_count. rewrite !cu_uint64_bit_count_popcount by done.
  rewrite <- (popcount_word_0 w1) by done.
  pose proof (popcount_bounds 64 w0). pose proof (popcount_bounds 64 w1).
  destruct (Nat.eqb_spec (length (leaf_elems k [w0; w1])) 1), (Z.ltb_spec 1 (popcount 64 w0)),
    (Z.eqb_spec (popcount 64 w0) 0), (Z.ltb_spec 1 (popcount 64 w1)), (Z.eqb_spec (popcount 64 w1) 0);
    cbn; done || lia.
Qed.

Lemma length_elems_null s : wf s -> (length (elems s) = 0)%nat <-> is_null s = true.
Proof.
  intros Hs. rewrite wf_null by done. rewrite length_zero_iff_nil. split.
  - intros E x. destruct (mem s x) eqn:Ex; [|done]. apply elem_of_elems in Ex. rewrite E in Ex.
    by apply elem_of_nil in Ex.
  - intros Ha. apply elem_of_nil_inv. intros x Hx%elem_of_elems. by rewrite Ha in Hx.
Qed.

Lemma is_singleton_spec s :
  wf s -> is_null s = false -> cucon_ucset_is_singleton s = (length (elems s) =? 1)%nat.
Proof.
  intros Hs Hn. destruct s as [|k bs|nk l r]; [done| |].
  - unfold cucon_ucset_is_singleton. cbn [skey bitset elems]. pose proof Hs as (Hw & Hm & _).
    pose proof (wf_leaf_root k bs Hw Hm) as Hr. unfold root in Hr. cbn [skey] in Hr. rewrite Hr.
    rewrite (proj2 (key_is_leaflike_spec k Hw)) by (right; lia). by apply ucleaf_is_singleton_spec.
  - apply wf_node_inv in Hs as (k & f & -> & Ek & Ef & Hw & H0 & Hm & _ & Hf & Wl & Wr & _).
    unfold cucon_ucset_is_singleton. cbn [skey sleft sright elems]. rewrite Ek, Ef.
    destruct (key_is_leaflike k) eqn:El; [by apply key_is_leaflike_spec in El as [|]|].
    rewrite !length_app. pose proof (length_elems_null l Wl). pose proof (length_elems_null r Wr).
    apply eq_true_iff_eq. rewrite andb_true_iff, Nat.eqb_eq, <- H, <- H1.
    destruct f; cbn [length]; [lia|]. destruct Hf as [|[Nl Nr]]; [done|].
    rewrite Nl, Nr in *. intuition (try done; lia).
Qed.

(** ** Filtering *)

Section filter_set.
Context {S : Type} (f : S -> Z -> S * bool) (p : Z -> bool).
Context (Hf : forall s k, snd (f s k) = p k).

Lemma leaflike_arg k i : word k -> k mod 128 = 64 -> 0 <= i < 128 -> (i = 0 -> k = 64) ->
  filter_arg (k - 64 + i) = wrap (to_int (k - 64 + i)).
Proof.
  intros Hw Hm Hi H0. unfold filter_arg.
  enough (key_is_leaflike (k - 64 + i) = true) as -> by done.
  apply key_is_leaflike_spec; [unfold word in *; dlia|].
  destruct (Z.eq_dec i 0); [left; lia|right; dlia].
Qed.

Lemma leaf_filter_wf k bs s :
  wf (Leaf k bs) ->
  let u := snd (ucleaf_filter f k bs s) in
  wf u /\ forall x, mem u x = mem (Leaf k bs) x && p (filter_arg x).
Proof.
  intros Hs. pose proof Hs as (Hw & Hm & Hb & _ & H0).
  unfold ucleaf_filter. cbn zeta. rewrite land_not_BITSET_MASK, Hm by done.
  destruct (filter_words_spec f p Hf (k - 64) bs s Hb) as (s' & bs' & chg & -> & Hb' & Hc & Hbits).
  assert (Hmem : forall x, (x / 128 =? k / 128) && leaf_bit bs' (x mod 128)
                           = mem (Leaf k bs) x && p (filter_arg x)).
  { intros x. rewrite mem_leaf. destruct (Z.eqb_spec (x / 128) (k / 128)) as [E|]; [|done]. cbn [andb].
    rewrite Hbits by dlia. destruct (leaf_bit bs (x mod 128)) eqn:Eb; [|done]. cbn [andb]. f_equal.
    replace x with (k - 64 + x mod 128) at 2 by dlia. rewrite leaflike_arg; [done..|dlia|].
    intros E0. rewrite E0 in Eb. destruct (Z.eq_dec k 64) as [|Hn]; [done|]. by rewrite H0 in Eb. }
  destruct chg; cbn [snd].
  - destruct (wf_leaf_or_null k bs') as [Hwf Hs']; try done.
    { intros Hn. by rewrite Hbits, H0 by lia. }
    split; [done|]. intros x. by rewrite Hs', Hmem.
  - split; [done|]. intros x. rewrite <- Hmem, (Hc eq_refl). done.
Qed.

Lemma filter_wf node s :
  wf node ->
  let u := snd (cucon_ucset_filter node f s) in
  wf u /\ forall x, mem u x = mem node x && p (filter_arg x).
Proof.
  revert s. induction node as [|k bs|nk l IHl r IHr]; intros s Hs; [done|by apply leaf_filter_wf|].
  cbn [cucon_ucset_filter].
  apply wf_node_inv in Hs as (k & fl & -> & Ek & Ef & Hw & H0 & Hm & Hm2 & Hfl & Wl & Wr & Bl & Br & Hs).
  destruct (IHl s Wl) as [Wa Ma]. destruct (cucon_ucset_filter l f s) as [s1 a]. cbn [snd] in *.
  destruct (IHr s1 Wr) as [Wb Mb]. destruct (cucon_ucset_filter r f s1) as [s2 b]. cbn [snd] in *.
  rewrite Ek, Ef.
  assert (Hk : filter_arg k = k).
  { unfold filter_arg. destruct (key_is_leaflike k) eqn:El; [|done].
    by apply key_is_leaflike_spec in El as [|]. }
  assert (Hkeep : exists s3, (if fl then f s2 k else (s2, false)) = (s3, fl && p k)).
  { destruct fl; [|by exists s2]. specialize (Hf s2 k). destruct (f s2 k) as [s3 b3]. cbn in Hf. subst b3.
    by exists s3. }
  destruct Hkeep as [s3 ->].
  assert (Ec : snd (if fl && p k then (s3, ucnode_new (k ||| 1) a b)
                    else if is_null a then (s3, b) else if is_null b then (s3, a)
                    else (s3, ucnode_new k a b)) = collapse k (fl && p k) a b).
  { unfold collapse. destruct (fl && p k), (is_null a), (is_null b); done. }
  cbn zeta. rewrite Ec. destruct (wf_collapse k (fl && p k) a b) as [Hwf Hmem].
  { split_and!; try done; intros x; rewrite ?Ma, ?Mb; intros [? _]%andb_true_iff; auto. }
  split; [done|]. intros x. rewrite Hmem, Hs. split_at k x; [done|by rewrite Hk|done].
Qed.
End filter_set.

(** ** Images *)

Section image.
Context {S : Type}.

(** The words that a callback without influence of the state produces. *)
Lemma filter_image_fold (f : S -> Z -> S * (bool * Z)) (g : Z -> option Z) xs s u :
  (forall s x, snd (f s x) = match g x with Some y => (true, y) | None => (false, snd (snd (f s x))) end) ->
  (forall x y, g x = Some y -> word y) -> wf u ->
  let v := snd (fold_left (fun '(s, image) key =>
       let '(s, (ok, key)) := f s key in
       if ok then (s, cucon_ucset_insert image key) else (s, image)) xs (s, u)) in
  wf v /\ forall y, mem v y = true <-> mem u y = true \/ exists x, x ∈ xs /\ g x = Some y.
Proof.
  intros Hf Hg. revert s u. induction xs as [|x xs IH]; intros s u Hu; cbn [fold_left].
  { split; [done|]. intros y. split; [by left|]. intros [|(? & ?%elem_of_nil & _)]; done. }
  specialize (Hf s x). destruct (f s x) as [s1 [ok y0]]. cbn [snd] in Hf.
  destruct (g x) as [y1|] eqn:E.
  - injection Hf as -> ->. destruct (insert_wf u y1 Hu (Hg _ _ E)) as [Wi Mi]. destruct (IH s1 _ Wi) as [Wv Mv].
    split; [done|]. intros y. rewrite Mv, Mi, orb_true_iff, Z.eqb_eq. setoid_rewrite elem_of_cons. split.
    + intros [[?| ->]|(x' & ? & ?)]; eauto.
    + intros [?|(x' & [->|?] & Hx)]; eauto. rewrite E in Hx. injection Hx as ->. auto.
  - injection Hf as ->. destruct (IH s1 _ Hu) as [Wv Mv]. split; [done|]. intros y. rewrite Mv. setoid_rewrite elem_of_cons. split.
    + intros [?|(x' & ? & ?)]; eauto.
    + intros [?|(x' & [->|?] & Hx)]; eauto. congruence.
Qed.

Lemma iter_ext {T : Type} (f g : T -> Z -> T) node t :
  (forall t x, f t x = g t x) -> cucon_ucset_iter node f t = cucon_ucset_iter node g t.
Proof.
  intros E. revert t. induction node as [|k bs|nk l IHl r IHr]; intros t; [done| |].
  - cbn [cucon_ucset_iter]. generalize (ucnode_key k &&& wnot BITSET_MASK). revert t.
    induction (Z.to_nat BITSET_WIDTH) as [|n IH]; intros t b; [done|]. cbn [iter_leaf]. cbn zeta.
    rewrite E. destruct (_ =? 0); [done|apply IH].
  - cbn [cucon_ucset_iter]. by rewrite IHl, IHr, E.
Qed.

Lemma image_as_filter_image (f : S -> Z -> S * Z) node s :
  cucon_ucset_image node f s =
  cucon_ucset_filter_image node (fun s x => let '(s, y) := f s x in (s, (true, y))) s.
Proof. apply iter_ext. intros [s0 u] x. by destruct (f s0 x). Qed.
End image.

(** ** Correctness *)

(** [cucon_ucset_conj] and [cucon_ucset_iter] call their callback, whatever it
    does, on exactly the elements of the set in strictly increasing order, each
    once; [conj] stops at the first refusal. *)
Theorem ucset_traversal_correct {S : Type} (cb : S -> Z -> S * bool) (f : S -> Z -> S) node s :
  wf node ->
  cucon_ucset_conj node cb s = conj_list cb (elems node) s /\
  cucon_ucset_iter node f s = fold_left f (elems node) s /\
  StronglySorted Z.lt (elems node) /\ (forall x, x ∈ elems node <-> cucon_ucset_find node x = true /\ word x).
Proof.
  intros Hs. split_and!; [by apply conj_spec|by apply iter_spec|by apply elems_sorted|].
  intros x. rewrite elem_of_elems. split.
  - intros Hx. pose proof (mem_word _ _ Hs Hx). by rewrite find_mem.
  - intros [Hx Hw]. by rewrite find_mem in Hx.
Qed.

(** [cucon_ucset_card] is the number of elements, modulo [2^64] for the
    [size_t] of the result (only the set of all words wraps around), and
    [cucon_ucset_is_singleton] tells whether a non-empty set has one element. *)
Theorem ucset_card_correct s :
  wf s ->
  cucon_ucset_card s = wrap (Z.of_nat (size (to_set s))) /\
  (is_null s = false -> cucon_ucset_is_singleton s = true <-> exists x, to_set s = {[x]}).
Proof.
  intros Hs. rewrite <- length_elems by done. split.
  { unfold cucon_ucset_card. by rewrite card_from_spec. }
  intros Hn. rewrite is_singleton_spec, Nat.eqb_eq by done. unfold to_set. split.
  - destruct (elems s) as [|x [|]]; try done. intros _. exists x. simpl. apply union_empty_r_L.
  - intros [x E]. fold (to_set s) in E. rewrite length_elems, E by done. apply size_singleton.
Qed.

(** [cucon_ucset_filter] with a callback whose answer does not depend on its
    state keeps the elements that the callback accepts.  The callback is called
    with [filter_arg] of the element: for leaf elements the value truncated to an
    [int] and sign-extended, which is the element itself below [2^31]. *)
Theorem ucset_filter_correct {S : Type} (f : S -> Z -> S * bool) (p : Z -> bool) node s :
  wf node -> (forall s k, snd (f s k) = p k) ->
  wf (snd (cucon_ucset_filter node f s)) /\
  (forall x, x ∈ to_set (snd (cucon_ucset_filter node f s)) <->
             x ∈ to_set node /\ p (filter_arg x) = true) /\
  (forall x, 0 <= x < 2 ^ 31 -> filter_arg x = x).
Proof.
  intros Hs Hf. destruct (filter_wf f p Hf node s Hs) as [W M]. cbn zeta in *. split_and!; [done| |].
  - intros x. by rewrite !to_set_spec, M, andb_true_iff.
  - intros x Hx. unfold filter_arg. destruct (key_is_leaflike x); [|done].
    unfold to_int, wrapw. rewrite (Z.mod_small x) by lia. rewrite (proj2 (Z.ltb_lt x (2 ^ 31))) by lia.
    apply wrap_small. unfold word. lia.
Qed.

(** The truncation shows: keeping [2^31 + 1] drops it, since the callback is asked
    about [2^64 - 2^31 + 1]. *)
Lemma ucset_filter_truncates :
  let x := 2 ^ 31 + 1 in
  wf (cucon_ucset_singleton x) /\
  snd (cucon_ucset_filter (cucon_ucset_singleton x) (fun _ k => (tt, k =? x)) tt) = Null.
Proof. cbv zeta. split; [wf_compute|]. vm_compute. reflexivity. Qed.

(** [cucon_ucset_filter_image] collects the keys that the callback leaves behind
    its pointer where it returns true, and [cucon_ucset_image] those that it
    returns, in a set that satisfies the invariant. *)
Theorem ucset_image_correct {S : Type} (f : S -> Z -> S * (bool * Z)) (h : S -> Z -> S * Z)
    (g : Z -> option Z) node s :
  wf node ->
  (forall s x, snd (f s x) = match g x with Some y => (true, y) | None => (false, snd (snd (f s x))) end) ->
  (forall x y, g x = Some y -> word y) ->
  (wf (snd (cucon_ucset_filter_image node f s)) /\
   forall y, y ∈ to_set (snd (cucon_ucset_filter_image node f s)) <->
             exists x, x ∈ to_set node /\ g x = Some y) /\
  ((forall s x, g x = Some (snd (h s x))) ->
   wf (snd (cucon_ucset_image node h s)) /\
   forall y, y ∈ to_set (snd (cucon_ucset_image node h s)) <-> exists x, x ∈ to_set node /\ g x = Some y).
Proof.
  intros Hs Hf Hg.
  assert (Hmain : forall f0 : S -> Z -> S * (bool * Z),
    (forall s x, snd (f0 s x) = match g x with Some y => (true, y) | None => (false, snd (snd (f0 s x))) end) ->
    wf (snd (cucon_ucset_filter_image node f0 s)) /\
    forall y, y ∈ to_set (snd (cucon_ucset_filter_image node f0 s)) <->
              exists x, x ∈ to_set node /\ g x = Some y).
  { intros f0 Hf0. unfold cucon_ucset_filter_image. rewrite iter_spec by done.
    destruct (filter_image_fold f0 g (elems node) s Null Hf0 Hg) as [Wv Mv]; [done|].
    split; [done|]. intros y. rewrite to_set_spec, Mv. setoid_rewrite to_set_spec.
    setoid_rewrite elem_of_elems. split; [by intros [|]|by right]. }
  split; [by apply Hmain|]. intros Hh. rewrite image_as_filter_image. apply Hmain.
  intros s0 x. rewrite (Hh s0 x). by destruct (h s0 x).
Qed.
