(* ===== verification/UcsetClip.v ===== *)
(** * Constructive integer sets: extremes and clipping

    [umin], [umax], [smin], [smax], [uclip] and [sclip] of [Ucset]. *)

From S2P Require Export UcsetTrav.

(** ** Least and greatest element *)

Lemma wadd_small a b : word (a + b) -> wadd a b = a + b.
Proof. apply wrap_small. Qed.

(** The position of a set bit of a leaf as a key. *)
Lemma leaf_pos k w0 w1 (hi : bool) b :
  word k -> k mod 128 = 64 -> 0 <= b < 64 ->
  let x := (if hi then k else k - 64) + b in
  wadd (wadd (k &&& wnot BITSET_MASK) b) ((if hi then 1 else 0) * WIDTH) = x /\ word x /\
  mem (Leaf k [w0; w1]) x = Z.testbit (if hi then w1 else w0) b.
Proof.
  intros Hw Hm Hb x. rewrite land_not_BITSET_MASK, Hm by done.
  assert (Hx : word x) by (subst x; unfold word in *; destruct hi; dlia).
  split_and!; [|done|].
  - rewrite (wadd_small (k - 64)) by (unfold word in *; dlia).
    rewrite wadd_small; [|subst x]; unfold WIDTH; destruct hi; try lia.
    + replace (k - 64 + b + 1 * 64) with (k + b) by lia. done.
    + by replace (k - 64 + b + 0 * 64) with (k - 64 + b) by lia.
  - rewrite mem_leaf. rewrite (proj2 (Z.eqb_eq (x / 128) (k / 128))) by (subst x; destruct hi; dlia).
    cbn [andb]. rewrite leaf_bit_2 by dlia. subst x. destruct hi.
    + replace ((k + b) mod 128) with (b + 64) by dlia. rewrite (proj2 (Z.ltb_ge (b + 64) 64)) by lia.
      f_equal. lia.
    + replace ((k - 64 + b) mod 128) with b by dlia. by rewrite (proj2 (Z.ltb_lt b 64)) by lia.
Qed.

(** The elements of a leaf are positions of set bits. *)
Lemma leaf_elem_pos k w0 w1 x :
  word k -> k mod 128 = 64 -> mem (Leaf k [w0; w1]) x = true ->
  (exists b, 0 <= b < 64 /\ x = k - 64 + b /\ Z.testbit w0 b = true) \/
  (exists b, 0 <= b < 64 /\ x = k + b /\ Z.testbit w1 b = true).
Proof.
  intros Hw Hm Hx. pose proof Hx as [Hd%Z.eqb_eq _]%andb_true_iff.
  destruct (Z.lt_ge_cases x k).
  - left. exists (x - (k - 64)). split_and!; [dlia|dlia|lia|].
    destruct (leaf_pos k w0 w1 false (x - (k - 64))) as (_ & _ & E); [done|done|dlia|].
    cbv iota zeta in E. replace (k - 64 + (x - (k - 64))) with x in E by lia. by rewrite Hx in E.
  - right. exists (x - k). split_and!; [dlia|dlia|lia|].
    destruct (leaf_pos k w0 w1 true (x - k)) as (_ & _ & E); [done|done|dlia|].
    cbv iota zeta in E. replace (k + (x - k)) with x in E by lia. by rewrite Hx in E.
Qed.

Definition is_least (s : ucset) (x : Z) : Prop := mem s x = true /\ forall y, mem s y = true -> x <= y.
Definition is_greatest (s : ucset) (x : Z) : Prop := mem s x = true /\ forall y, mem s y = true -> y <= x.

Lemma umin_leaf_spec k bs : wf (Leaf k bs) -> is_least (Leaf k bs) (umin_leaf k 0 bs).
Proof.
  intros (Hw & Hm & Hb & He & _). apply bs_wf_inv in Hb as (w0 & w1 & -> & H0 & H1).
  cbn [existsb] in He. cbn [umin_leaf]. destruct (Z.eqb_spec w0 0) as [->|Hn]; cbn [negb].
  - destruct (Z.eqb_spec w1 0) as [->|Hn]; [done|]. cbn [negb].
    destruct (cu_word_log2_lowbit_spec w1 H1 Hn) as (Hb & Ht & Hlow). cbn zeta in *.
    destruct (leaf_pos k 0 w1 true (cu_word_log2_lowbit w1)) as (E & _ & M); [done..|]. cbv iota zeta in E, M.
    change (0 + 1) with 1. rewrite E. split; [by rewrite M|].
    intros y [(b & Hb' & -> & Hy)|(b & Hb' & -> & Hy)]%leaf_elem_pos; try done.
    + by rewrite Z.bits_0 in Hy.
    + destruct (Z.lt_ge_cases b (cu_word_log2_lowbit w1)); [by rewrite Hlow in Hy|lia].
  - destruct (cu_word_log2_lowbit_spec w0 H0 Hn) as (Hb & Ht & Hlow). cbn zeta in *.
    destruct (leaf_pos k w0 w1 false (cu_word_log2_lowbit w0)) as (E & _ & M); [done..|]. cbv iota zeta in E, M.
    rewrite E. split; [by rewrite M|].
    intros y [(b & Hb' & -> & Hy)|(b & Hb' & -> & Hy)]%leaf_elem_pos; try done; [|lia].
    destruct (Z.lt_ge_cases b (cu_word_log2_lowbit w0)); [by rewrite Hlow in Hy|lia].
Qed.

Lemma log2_top w b : word w -> 0 <= b -> Z.testbit w b = true -> b <= Z.log2 w.
Proof.
  intros Hw Hb Ht. destruct (Z.le_gt_cases b (Z.log2 w)) as [|Hgt]; [done|].
  unfold word in Hw. by rewrite Z.bits_above_log2 in Ht by lia.
Qed.

Lemma log2_bit w : word w -> w <> 0 -> 0 <= Z.log2 w < 64 /\ Z.testbit w (Z.log2 w) = true.
Proof.
  intros Hw Hn. unfold word in Hw. split_and!; [apply Z.log2_nonneg|apply Z.log2_lt_pow2; lia|].
  apply Z.bit_log2. lia.
Qed.

Lemma umax_leaf_spec k bs : wf (Leaf k bs) -> is_greatest (Leaf k bs) (umax_leaf k 1 (rev bs)).
Proof.
  intros (Hw & Hm & Hb & He & _). apply bs_wf_inv in Hb as (w0 & w1 & -> & H0 & H1).
  cbn [existsb] in He. cbn [rev app umax_leaf]. destruct (Z.eqb_spec w1 0) as [->|Hn]; cbn [negb].
  - destruct (Z.eqb_spec w0 0) as [->|Hn]; [done|]. cbn [negb].
    rewrite cu_word_floor_log2_spec by done. destruct (log2_bit w0 H0 Hn) as [Hb Ht].
    destruct (leaf_pos k w0 0 false (Z.log2 w0)) as (E & _ & M); [done..|]. cbv iota zeta in E, M.
    change (1 - 1) with 0. rewrite E. split; [by rewrite M|].
    intros y [(b & Hb' & -> & Hy)|(b & Hb' & -> & Hy)]%leaf_elem_pos; try done.
    + apply log2_top in Hy; [lia|done|lia].
    + by rewrite Z.bits_0 in Hy.
  - rewrite cu_word_floor_log2_spec by done. destruct (log2_bit w1 H1 Hn) as [Hb Ht].
    destruct (leaf_pos k w0 w1 true (Z.log2 w1)) as (E & _ & M); [done..|]. cbv iota zeta in E, M.
    rewrite E. split; [by rewrite M|].
    intros y [(b & Hb' & -> & Hy)|(b & Hb' & -> & Hy)]%leaf_elem_pos; try done; [lia|].
    apply log2_top in Hy; [lia|done|lia].
Qed.

Lemma leaf_skey k bs : wf (Leaf k bs) -> ucnode_key k = k.
Proof. intros (Hw & Hm & _). apply (wf_leaf_root k bs Hw Hm). Qed.

Lemma umin_spec m s : wf s -> is_null s = false -> is_least s (umin_from m s).
Proof.
  revert m. induction s as [|k bs|nk l IHl r IHr]; intros m Hs Hn; [done| |].
  - cbn [umin_from]. rewrite (leaf_skey k bs Hs). by apply umin_leaf_spec.
  - apply wf_node_inv in Hs as (k & f & -> & Ek & Ef & Hw & H0 & Hm & Hm2 & Hf & Wl & Wr & Bl & Br & Hs).
    cbn [umin_from]. rewrite Ek. destruct (is_null l) eqn:Nl.
    + destruct l; try done. destruct Hf as [->|[? _]]; [|done]. cbn [umin_from].
      split; [by rewrite Hs, split_eq|]. intros y. rewrite Hs. split_at k y; [done|lia|].
      intros ?%Br. lia.
    + destruct (IHl k Wl eq_refl) as [Hin Hle]. pose proof (Bl _ Hin).
      split; [by rewrite Hs, split_lt by lia|]. intros y. rewrite Hs. split_at k y; [apply Hle|lia|lia].
Qed.

Lemma umax_spec m s : wf s -> is_null s = false -> is_greatest s (umax_from m s).
Proof.
  revert m. induction s as [|k bs|nk l IHl r IHr]; intros m Hs Hn; [done| |].
  - cbn [umax_from]. rewrite (leaf_skey k bs Hs). by apply umax_leaf_spec.
  - apply wf_node_inv in Hs as (k & f & -> & Ek & Ef & Hw & H0 & Hm & Hm2 & Hf & Wl & Wr & Bl & Br & Hs).
    cbn [umax_from]. rewrite Ek. destruct (is_null r) eqn:Nr.
    + destruct r; try done. destruct Hf as [->|[_ ?]]; [|done]. cbn [umax_from].
      split; [by rewrite Hs, split_eq|]. intros y. rewrite Hs. split_at k y; [|lia|done].
      intros ?%Bl. lia.
    + destruct (IHr k Wr eq_refl) as [Hin Hle]. pose proof (Br _ Hin).
      split; [by rewrite Hs, split_gt by lia|]. intros y. rewrite Hs. split_at k y; [lia|lia|apply Hle].
Qed.

(** ** Signed extremes *)

Definition is_sleast (s : ucset) (v : Z) : Prop :=
  (exists x, mem s x = true /\ to_signed x = v) /\ forall y, mem s y = true -> v <= to_signed y.
Definition is_sgreatest (s : ucset) (v : Z) : Prop :=
  (exists x, mem s x = true /\ to_signed x = v) /\ forall y, mem s y = true -> to_signed y <= v.

Lemma lb_top : lb (2 ^ 63) = 2 ^ 63 /\ klo (2 ^ 63) = 0 /\ khi (2 ^ 63) = 2 ^ 64 - 1.
Proof. by vm_compute. Qed.

(** A root other than [INTPTR_MIN] has all its elements on one side of it. *)
Lemma one_side s :
  wf s -> is_null s = false -> root s <> 2 ^ 63 ->
  (forall x, mem s x = true -> x < 2 ^ 63) \/ (forall x, mem s x = true -> 2 ^ 63 < x).
Proof.
  intros Hs Hn Hne. destruct (wf_root s Hs Hn) as (Hw & H0 & Hb).
  destruct lb_top as (_ & Elo & Ehi).
  destruct (Z.lt_ge_cases (root s) (2 ^ 63)).
  - left. intros x Hx. specialize (Hb x Hx).
    destruct (nested_left (2 ^ 63) (root s)); [done|done|done| |lia].
    rewrite Elo. unfold word in Hw. lia.
  - right. intros x Hx. specialize (Hb x Hx).
    destruct (nested_right (2 ^ 63) (root s)); [done|done|done| |lia].
    rewrite Ehi. unfold word in Hw. lia.
Qed.

Lemma to_signed_lo x : x < 2 ^ 63 -> to_signed x = x.
Proof. intros H. unfold to_signed. by rewrite (proj2 (Z.ltb_lt x (2 ^ 63))). Qed.

Lemma to_signed_hi x : 2 ^ 63 <= x -> to_signed x = x - 2 ^ 64.
Proof. intros H. unfold to_signed. by rewrite (proj2 (Z.ltb_ge x (2 ^ 63))). Qed.

Lemma least_signed s x :
  (forall x, mem s x = true -> x < 2 ^ 63) \/ (forall x, mem s x = true -> 2 ^ 63 < x) ->
  is_least s x -> is_sleast s (to_signed x).
Proof.
  intros Hs [Hx Hle]. split; [by exists x|]. intros y Hy. specialize (Hle y Hy).
  destruct Hs as [Hs|Hs]; pose proof (Hs x Hx); pose proof (Hs y Hy);
    [rewrite !to_signed_lo|rewrite !to_signed_hi]; lia.
Qed.

Lemma greatest_signed s x :
  (forall x, mem s x = true -> x < 2 ^ 63) \/ (forall x, mem s x = true -> 2 ^ 63 < x) ->
  is_greatest s x -> is_sgreatest s (to_signed x).
Proof.
  intros Hs [Hx Hle]. split; [by exists x|]. intros y Hy. specialize (Hle y Hy).
  destruct Hs as [Hs|Hs]; pose proof (Hs x Hx); pose proof (Hs y Hy);
    [rewrite !to_signed_lo|rewrite !to_signed_hi]; lia.
Qed.

(** The root [INTPTR_MIN] is a node with the negative numbers on its right. *)
Lemma root_top s :
  wf s -> is_null s = false -> root s = 2 ^ 63 ->
  exists f, node_view s (2 ^ 63) f (sleft s) (sright s) /\ key_flag (skey s) = f /\
    (forall x, mem (sright s) x = true -> word x /\ 2 ^ 63 < x) /\
    (forall x, mem (sleft s) x = true -> x < 2 ^ 63).
Proof.
  intros Hs Hn Hr. destruct s as [|k bs|nk l r]; [done| |].
  - rewrite wf_leaf_root in Hr by apply Hs. exfalso. destruct Hs as (_ & Hm & _).
    rewrite Hr in Hm. by vm_compute in Hm.
  - destruct (node_view_inv nk l r Hs) as (k & f & V). pose proof V as (_ & Hp & _ & _ & R).
    rewrite Hr in R. subst k. exists f.
    pose proof (node_view_children _ _ _ _ _ V) as (Wl & Wr & Ek & _ & _ & _ & _ & _ & _ & Ef).
    rewrite Ek, Ef. destruct Hp as (_ & _ & _ & _ & _ & Bl & Br). cbn [sleft sright]. split_and!; try done.
    + intros x Hx. specialize (Br x Hx). split; [by apply (mem_word r)|lia].
    + intros x Hx. specialize (Bl x Hx). lia.
Qed.

Lemma to_signed_bounds k : word k -> INTPTR_MIN <= to_signed k <= INTPTR_MAX.
Proof. unfold word, to_signed, INTPTR_MIN, INTPTR_MAX. destruct (Z.ltb_spec k (2 ^ 63)); lia. Qed.

Lemma smin_spec s : wf s -> is_null s = false -> is_sleast s (cucon_ucset_smin s).
Proof.
  intros Hs Hn. unfold cucon_ucset_smin. rewrite Hn. cbn zeta. fold (root s).
  change (wrap INTPTR_MIN) with (2 ^ 63).
  destruct (Z.eqb_spec (root s) (2 ^ 63)) as [Hr|Hr].
  - destruct (root_top s Hs Hn Hr) as (f & (_ & (_ & _ & _ & Wl & Wr & _) & Hf & Ms & _) & -> & Rr & Rl).
    destruct f.
    + split; [exists (2 ^ 63); by rewrite Ms, split_eq|]. intros y Hy.
      apply (mem_word s) in Hy; [|done]. by apply to_signed_bounds.
    + destruct Hf as [|[Nl Nr]]; [done|]. rewrite Nr. cbn [negb].
      destruct (umin_spec UINTPTR_MAX (sright s) Wr Nr) as [Hin Hle]. destruct (Rr _ Hin) as [Hw Hgt].
      unfold cucon_ucset_umin. rewrite to_signed_hi by lia. split.
      * eexists. rewrite Ms. split; [rewrite split_gt by apply Hgt; exact Hin|]. apply to_signed_hi. lia.
      * intros y. rewrite Ms. split_at (2 ^ 63) y; [|done|].
        -- intros Hy. rewrite to_signed_lo by lia. specialize (Rl y Hy).
           pose proof (mem_word (sleft s) y Wl Hy). unfold word in *. lia.
        -- intros Hy. rewrite to_signed_hi by lia. specialize (Hle y Hy). lia.
  - destruct (wf_root s Hs Hn) as (Hw & _). pose proof (to_signed_bounds _ Hw).
    rewrite (proj2 (Z.ltb_ge _ _)) by apply H.
    apply least_signed; [by apply one_side|by apply umin_spec].
Qed.

Lemma smax_spec s : wf s -> is_null s = false -> is_sgreatest s (cucon_ucset_smax s).
Proof.
  intros Hs Hn. unfold cucon_ucset_smax. rewrite Hn. cbn zeta. fold (root s).
  change (wrap INTPTR_MIN) with (2 ^ 63).
  destruct (Z.eqb_spec (root s) (2 ^ 63)) as [Hr|Hr].
  - destruct (root_top s Hs Hn Hr) as (f & (_ & (_ & _ & _ & Wl & Wr & _) & Hf & Ms & _) & _ & Rr & Rl).
    destruct (is_null (sleft s)) eqn:Nl; cbn [negb].
    + change (INTPTR_MIN =? 0) with false. destruct Hf as [->|[? _]]; [|done].
      assert (Hleft : forall y, mem (sleft s) y = false) by by apply wf_null.
      destruct (is_null (sright s)) eqn:Nr.
      * split; [exists (2 ^ 63); by rewrite Ms, split_eq|]. intros y. rewrite Ms.
        split_at (2 ^ 63) y; [by rewrite Hleft|done|by rewrite (proj1 (wf_null _ Wr) Nr)].
      * destruct (umax_spec 0 (sright s) Wr Nr) as [Hin Hle]. destruct (Rr _ Hin) as [Hw Hgt].
        unfold cucon_ucset_umax. rewrite to_signed_hi by lia. split.
        -- eexists. rewrite Ms. split; [rewrite split_gt by apply Hgt; exact Hin|]. apply to_signed_hi. lia.
        -- intros y. rewrite Ms. split_at (2 ^ 63) y; [by rewrite Hleft| |].
           ++ intros _. change (to_signed (2 ^ 63)) with (2 ^ 63 - 2 ^ 64). lia.
           ++ intros Hy. rewrite to_signed_hi by lia. specialize (Hle y Hy). lia.
    + destruct (umax_spec 0 (sleft s) Wl Nl) as [Hin Hle]. pose proof (Rl _ Hin) as Hlt.
      pose proof (mem_word _ _ Wl Hin) as Hw. unfold cucon_ucset_umax. rewrite to_signed_lo by lia. split.
      * eexists. rewrite Ms. split; [rewrite split_lt by apply Hlt; exact Hin|]. by apply to_signed_lo.
      * intros y Hy. pose proof (mem_word s y Hs Hy). rewrite Ms in Hy. revert Hy.
        destruct (Z.lt_ge_cases y (2 ^ 63)).
        -- rewrite split_lt, to_signed_lo by lia. apply Hle.
        -- rewrite to_signed_hi by lia. unfold word in *. lia.
  - destruct (wf_root s Hs Hn) as (Hw & _). pose proof (to_signed_bounds _ Hw).
    rewrite (proj2 (Z.ltb_ge _ _)) by apply H.
    apply greatest_signed; [by apply one_side|by apply umax_spec].
Qed.

(** ** Clipping *)

Lemma clip_range k : word k -> k <> 0 ->
  let node_mask := k ^^^ wsub k 1 in
  (k &&& wnot node_mask) = k - lb k /\ (k ||| node_mask) = khi k.
Proof.
  intros Hk Hn. cbn zeta. split; [by apply (key_mask_spec k k)|].
  replace (k ||| (k ^^^ wsub k 1)) with (key_max k); [by apply key_max_spec|].
  unfold key_max. apply Z.bits_inj'. intros i Hi. rewrite !Z.lor_spec, Z.lxor_spec.
  by destruct (Z.testbit k i), (Z.testbit _ i).
Qed.

Lemma lor_ones x n : 0 <= n -> Z.lor x (Z.ones n) = x - x mod 2 ^ n + Z.ones n.
Proof.
  intros Hn. assert (E : Z.lor x (Z.ones n) = Z.lor (x >>> n <<< n) (Z.ones n)).
  { apply Z.bits_inj'. intros i Hi. rewrite !Z.lor_spec, testbit_ones by done.
    destruct (Z.ltb_spec i n); [by rewrite (proj2 (Z.leb_le 0 i)), !orb_true_r|].
    rewrite Z.shiftl_spec_high, Z.shiftr_spec by lia. do 2 f_equal. lia. }
  assert (H0 : Z.land (x >>> n <<< n) (Z.ones n) = 0).
  { apply Z.bits_inj'. intros i Hi. rewrite Z.land_spec, testbit_ones, Z.bits_0 by done.
    destruct (Z.ltb_spec i n); [by rewrite Z.shiftl_spec_low|by rewrite !andb_false_r]. }
  rewrite E, <- Z.lxor_lor, <- Z.add_nocarry_lxor by done.
  rewrite Z.shiftl_mul_pow2, Z.shiftr_div_pow2 by done. pose proof (Z.div_mod x (2 ^ n)).
  pose proof (pow2_pos n Hn). lia.
Qed.

Lemma leaf_clip_range k : word k -> k mod 128 = 64 ->
  (k &&& wnot BITSET_MASK) = k - 64 /\ (k ||| BITSET_MASK) = k + 63.
Proof.
  intros Hk Hm. rewrite land_not_BITSET_MASK, Hm by done. split; [done|].
  change BITSET_MASK with (Z.ones 7). rewrite lor_ones by lia. change (2 ^ 7) with 128.
  rewrite Hm. change (Z.ones 7) with 127. lia.
Qed.

Lemma leaf_uclip_wf k bs lo hi :
  wf (Leaf k bs) -> word lo -> word hi ->
  wf (ucleaf_uclip k bs lo hi) /\
  forall x, mem (ucleaf_uclip k bs lo hi) x = mem (Leaf k bs) x && ((lo <=? x) && (x <=? hi)).
Proof.
  intros Hs Hlo Hhi. pose proof Hs as (Hw & Hm & Hb & _ & H0). unfold ucleaf_uclip. cbn zeta.
  destruct (leaf_clip_range k Hw Hm) as [-> ->].
  assert (Hd : forall x, mem (Leaf k bs) x = true -> k - 64 <= x <= k + 63).
  { intros x [E%Z.eqb_eq _]%andb_true_iff. dlia. }
  destruct (_ || _) eqn:E1.
  { split; [done|]. intros x. destruct (mem (Leaf k bs) x) eqn:Ex; [|done]. specialize (Hd x Ex).
    cbn [mem andb]. symmetry. apply andb_false_iff. rewrite !Z.leb_gt. lia. }
  destruct (_ && _) eqn:E2.
  { split; [done|]. intros x. destruct (mem (Leaf k bs) x) eqn:Ex; [|done]. specialize (Hd x Ex).
    cbn [andb]. symmetry. apply andb_true_iff. rewrite !Z.leb_le. lia. }
  destruct (uclip_words_spec bs (k - 64) lo hi) as [Hb' Hs']; try done; try (unfold word in Hw; dlia).
  destruct (wf_leaf_or_null k (uclip_words bs (k - 64) lo hi)) as [Hwf Hmem]; try done.
  { intros Hn. by rewrite Hs', H0 by lia. }
  split; [done|]. intros x. rewrite Hmem, mem_leaf.
  destruct (Z.eqb_spec (x / 128) (k / 128)); [|done]. cbn [andb]. rewrite Hs' by dlia.
  by replace (k - 64 + x mod 128) with x by dlia.
Qed.

Definition in_range (lo hi x : Z) : bool := (lo <=? x) && (x <=? hi).

Lemma in_range_true lo hi x : in_range lo hi x = true <-> lo <= x <= hi.
Proof. unfold in_range. rewrite andb_true_iff, !Z.leb_le. done. Qed.

Lemma in_range_false lo hi x : ~ (lo <= x <= hi) -> in_range lo hi x = false.
Proof. intros H. destruct (in_range lo hi x) eqn:E; [|done]. by apply in_range_true in E. Qed.

Lemma clip_all s lo hi a b x :
  (forall x, mem s x = true -> a <= x <= b) -> lo <= a -> b <= hi -> mem s x = mem s x && in_range lo hi x.
Proof.
  intros Hb Hlo Hhi. destruct (mem s x) eqn:E; [|done]. specialize (Hb x E).
  symmetry. apply in_range_true. lia.
Qed.

Lemma clip_none s lo hi a b x :
  (forall x, mem s x = true -> a <= x <= b) -> hi < a \/ b < lo -> false = mem s x && in_range lo hi x.
Proof.
  intros Hb Hd. destruct (mem s x) eqn:E; [|done]. specialize (Hb x E).
  symmetry. apply in_range_false. lia.
Qed.

Lemma root_range s x : wf s -> is_null s = false -> mem s x = true -> root s - lb (root s) <= x <= khi (root s).
Proof.
  intros Hs Hn Hx. destruct (wf_root s Hs Hn) as (Hw & H0 & Hb). specialize (Hb x Hx).
  unfold klo in Hb. destruct (Z.eqb_spec (root s - lb (root s)) 0); lia.
Qed.

Lemma ucset_uclip_wf s lo hi :
  wf s -> word lo -> word hi -> lo <= hi ->
  wf (ucset_uclip s lo hi) /\ forall x, mem (ucset_uclip s lo hi) x = mem s x && in_range lo hi x.
Proof.
  intros Hs Hlo Hhi Hle. induction s as [|k bs|nk l IHl r IHr]; [done| |].
  - destruct (wf_root _ Hs eq_refl) as (Hw & H0 & _). pose proof (fun x => root_range _ x Hs eq_refl) as Hb.
    unfold root in *. cbn [skey] in *. cbn [ucset_uclip].
    destruct (clip_range _ Hw H0) as [-> ->].
    destruct (_ && _) eqn:E1; [split; [done|]; intros x; eapply clip_all; [done|lia..]|].
    destruct (Z.ltb_spec hi (ucnode_key k - lb (ucnode_key k)));
      [split; [done|]; intros x; eapply clip_none; [done|lia]|].
    destruct (Z.ltb_spec (khi (ucnode_key k)) lo);
      [split; [done|]; intros x; eapply clip_none; [done|lia]|].
    by apply leaf_uclip_wf.
  - destruct (wf_root _ Hs eq_refl) as (Hw & H0 & _). pose proof (fun x => root_range _ x Hs eq_refl) as Hb.
    unfold root in *. cbn [skey] in *. cbn [ucset_uclip].
    destruct (clip_range _ Hw H0) as [-> ->].
    destruct (_ && _) eqn:E1; [split; [done|]; intros x; eapply clip_all; [done|lia..]|].
    destruct (Z.ltb_spec hi (ucnode_key nk - lb (ucnode_key nk)));
      [split; [done|]; intros x; eapply clip_none; [done|lia]|].
    destruct (Z.ltb_spec (khi (ucnode_key nk)) lo);
      [split; [done|]; intros x; eapply clip_none; [done|lia]|].
    clear Hb. apply wf_node_inv in Hs
      as (k & f & -> & Ek & Ef & _ & _ & Hm & Hm2 & Hf & Wl & Wr & Bl & Br & Hs).
    rewrite Ek, Ef in *. destruct (IHl Wl) as [Wa Ma], (IHr Wr) as [Wb Mb].
    destruct (Z.ltb_spec hi k); [|destruct (Z.ltb_spec k lo)].
    + split; [done|]. intros x. rewrite Ma, Hs. split_at k x; [done|..];
        rewrite (in_range_false lo hi), ?andb_false_r by lia; done.
    + split; [done|]. intros x. rewrite Mb, Hs. split_at k x; [..|done];
        rewrite (in_range_false lo hi), ?andb_false_r by lia; done.
    + assert (E : forall a b, (if f then ucnode_new (node_key k f) a b
              else if is_null a then b else if is_null b then a else ucnode_new (node_key k f) a b)
              = collapse k f a b) by (intros a b; by destruct f).
      rewrite E. destruct (wf_collapse k f (ucset_uclip l lo hi) (ucset_uclip r lo hi)) as [Hwf Hmem].
      { split_and!; try done; intros x; rewrite ?Ma, ?Mb; intros [? _]%andb_true_iff; auto. }
      split; [done|]. intros x. rewrite Hmem, Hs. split_at k x; [done| |done].
      rewrite (proj2 (in_range_true lo hi k)) by lia. by rewrite andb_true_r.
Qed.

Lemma wrap_neg a : - 2 ^ 63 <= a < 0 -> wrap a = a + 2 ^ 64.
Proof.
  intros Ha. unfold wrap. symmetry. apply Z.mod_unique with (q := -1); [left; lia|lia].
Qed.

(** A signed range as one or two unsigned ranges. *)
Lemma sclip_wf s lo hi :
  wf s -> INTPTR_MIN <= lo <= INTPTR_MAX -> INTPTR_MIN <= hi <= INTPTR_MAX ->
  wf (cucon_ucset_sclip s lo hi) /\
  forall x, mem (cucon_ucset_sclip s lo hi) x = mem s x && in_range lo hi (to_signed x).
Proof.
  intros Hs Hlo Hhi. unfold cucon_ucset_sclip, INTPTR_MIN, INTPTR_MAX in *.
  assert (Hr : forall x, mem s x = true -> word x) by (intros x; by apply mem_word).
  destruct (Z.ltb_spec hi lo).
  { split; [done|]. intros x. rewrite in_range_false by lia. by rewrite andb_false_r. }
  assert (Hcase : forall b x, (mem s x = true -> b = in_range lo hi (to_signed x)) ->
    mem s x && b = mem s x && in_range lo hi (to_signed x)).
  { intros b x Hbx. destruct (mem s x); [cbn; auto|done]. }
  destruct (Z.ltb_spec lo 0), (Z.ltb_spec hi 0); cbn [Bool.eqb]; try lia.
  - rewrite !wrap_neg by lia. destruct (ucset_uclip_wf s (lo + 2 ^ 64) (hi + 2 ^ 64)) as [W M];
      [done|unfold word; lia..|lia|].
    split; [done|]. intros x. rewrite M. apply Hcase. intros Hx%Hr. unfold word in Hx.
    apply eq_true_iff_eq. rewrite !in_range_true.
    destruct (Z.lt_ge_cases x (2 ^ 63)); [rewrite to_signed_lo by done|rewrite to_signed_hi by done]; lia.
  - rewrite (wrap_neg lo), (wrap_small hi) by (unfold word; lia).
    destruct (ucset_uclip_wf s 0 hi) as [W0 M0]; [done|unfold word; lia..|].
    destruct (ucset_uclip_wf s (lo + 2 ^ 64) UINTPTR_MAX) as [W1 M1];
      [done|unfold word, UINTPTR_MAX; lia..|].
    destruct (union_wf _ _ W0 W1) as [W M]. split; [done|]. intros x.
    rewrite M, M0, M1, <- andb_orb_distrib_r. apply Hcase. intros Hx%Hr. unfold word in Hx.
    apply eq_true_iff_eq. rewrite orb_true_iff, !in_range_true. unfold UINTPTR_MAX.
    destruct (Z.lt_ge_cases x (2 ^ 63)); [rewrite to_signed_lo by done|rewrite to_signed_hi by done]; lia.
  - rewrite !wrap_small by (unfold word; lia).
    destruct (ucset_uclip_wf s lo hi) as [W M]; [done|unfold word; lia..|].
    split; [done|]. intros x. rewrite M. apply Hcase. intros Hx%Hr. unfold word in Hx.
    apply eq_true_iff_eq. rewrite !in_range_true.
    destruct (Z.lt_ge_cases x (2 ^ 63)); [rewrite to_signed_lo by done|rewrite to_signed_hi by done]; lia.
Qed.

(** ** Correctness *)

(** On a non-empty set [umin], [umax] return the least and the greatest element
    as unsigned words, and [smin], [smax] those as signed words; on [NULL] they
    return the ends of the range. *)
Theorem ucset_extremes_correct s :
  wf s -> is_null s = false ->
  is_least s (cucon_ucset_umin s) /\ is_greatest s (cucon_ucset_umax s) /\
  is_sleast s (cucon_ucset_smin s) /\ is_sgreatest s (cucon_ucset_smax s).
Proof.
  intros Hs Hn. split_and!; [by apply umin_spec|by apply umax_spec|by apply smin_spec|by apply smax_spec].
Qed.

(** [cucon_ucset_uclip] and [cucon_ucset_sclip] return the part of the set in
    the given unsigned or signed range, also when the range is empty, and keep the
    invariant. *)
Theorem ucset_clip_correct s lo hi slo shi :
  wf s -> word lo -> word hi ->
  INTPTR_MIN <= slo <= INTPTR_MAX -> INTPTR_MIN <= shi <= INTPTR_MAX ->
  (wf (cucon_ucset_uclip s lo hi) /\
   forall x, x ∈ to_set (cucon_ucset_uclip s lo hi) <-> x ∈ to_set s /\ lo <= x <= hi) /\
  (wf (cucon_ucset_sclip s slo shi) /\
   forall x, x ∈ to_set (cucon_ucset_sclip s slo shi) <-> x ∈ to_set s /\ slo <= to_signed x <= shi).
Proof.
  intros Hs Hlo Hhi Hslo Hshi. split.
  - unfold cucon_ucset_uclip. destruct (Z.ltb_spec hi lo).
    { split; [done|]. intros x. rewrite to_set_spec. split; [done|lia]. }
    destruct (ucset_uclip_wf s lo hi) as [W M]; [done..|]. split; [done|]. intros x.
    by rewrite !to_set_spec, M, andb_true_iff, in_range_true.
  - destruct (sclip_wf s slo shi) as [W M]; [done..|]. split; [done|]. intros x.
    by rewrite !to_set_spec, M, andb_true_iff, in_range_true.
Qed.
