(* ===== verification/UcsetBuild.v ===== *)
(** * Constructive integer sets: construction from a sorted array

    [cucon_ucset_from_sorted_array] builds the tree of the array's elements in one
    pass, without searching. *)

From S2P Require Export UcsetClip.

(** ** The part of a sorted array up to a key *)

Definition ascending (arr : list Z) : Prop := StronglySorted Z.le arr.

Definition consumed (max : Z) (arr rest : list Z) : Prop :=
  exists pre, arr = pre ++ rest /\ (forall x, x ∈ pre -> x <= max) /\ (forall x, x ∈ rest -> max < x).

Lemma consumed_elem max arr rest x :
  consumed max arr rest -> x ∈ rest <-> x ∈ arr /\ max < x.
Proof.
  intros (pre & -> & Hp & Hr). rewrite elem_of_app. split; [auto|].
  intros [[H|H] Hlt]; [specialize (Hp x H); lia|done].
Qed.

Lemma consumed_ascending max arr rest : consumed max arr rest -> ascending arr -> ascending rest.
Proof. intros (pre & -> & _). apply StronglySorted_app_1_r. Qed.

Lemma consumed_words max arr rest : consumed max arr rest -> Forall word arr -> Forall word rest.
Proof. intros (pre & -> & _). rewrite Forall_app. by intros [_ ?]. Qed.

Lemma consumed_length max arr rest :
  consumed max arr rest -> (length rest <= length arr)%nat.
Proof. intros (pre & -> & _). rewrite length_app. lia. Qed.

Lemma consumed_length_lt max arr rest x :
  consumed max arr rest -> x ∈ arr -> x <= max -> (length rest < length arr)%nat.
Proof.
  intros (pre & -> & _ & Hr) [Hx|Hx]%elem_of_app Hle; [|specialize (Hr x Hx); lia].
  rewrite length_app. destruct pre; [by apply elem_of_nil in Hx|simpl; lia].
Qed.

Lemma consumed_trans m1 m2 arr mid rest :
  m1 <= m2 -> consumed m1 arr mid -> consumed m2 mid rest -> consumed m2 arr rest.
Proof.
  intros Hm (pre & -> & Hp & _) (pre' & -> & Hp' & Hr). exists (pre ++ pre').
  split; [by rewrite app_assoc|]. split; [|done].
  intros x [Hx|Hx]%elem_of_app; [specialize (Hp x Hx); lia|by apply Hp'].
Qed.

Lemma ascending_head x arr y : ascending (x :: arr) -> y ∈ x :: arr -> x <= y.
Proof.
  intros [Hf _]%StronglySorted_cons [->|Hy]%elem_of_cons; [lia|].
  by apply (proj1 (list.Forall_forall _ _) Hf).
Qed.

Lemma consumed_none max x arr : ascending (x :: arr) -> max < x -> consumed max (x :: arr) (x :: arr).
Proof.
  intros Hs Hlt. exists []. split; [done|]. split; [by intros ? ?%elem_of_nil|].
  intros y Hy. pose proof (ascending_head _ _ _ Hs Hy). lia.
Qed.

Lemma drop_key_consumed key arr :
  ascending arr -> (forall x, x ∈ arr -> key <= x) -> consumed key arr (drop_key key arr).
Proof.
  induction arr as [|x arr IH]; intros Hs Hk; cbn [drop_key].
  - exists []. split; [done|]. split; by intros ? ?%elem_of_nil.
  - destruct (Z.eqb_spec x key) as [->|].
    + destruct IH as (pre & E & Hp & Hr).
      { by apply StronglySorted_cons in Hs as [_ ?]. }
      { intros y Hy. apply Hk. by right. }
      exists (key :: pre). split; [by rewrite E at 1|]. split; [|done].
      intros y [->|Hy]%elem_of_cons; [lia|by apply Hp].
    + apply consumed_none; [done|]. pose proof (Hk x (list_elem_of_here _ _)). lia.
Qed.

Lemma skip_key_consumed key arr :
  ascending (key :: arr) -> consumed key (key :: arr) (skip_key key (key :: arr)).
Proof.
  intros Hs. unfold skip_key. cbn [tl].
  destruct (drop_key_consumed key arr) as (pre & E & Hp & Hr).
  { by apply StronglySorted_cons in Hs as [_ ?]. }
  { intros y Hy. apply (ascending_head _ _ _ Hs). by right. }
  exists (key :: pre). split; [by rewrite E at 1|]. split; [|done].
  intros y [->|Hy]%elem_of_cons; [lia|by apply Hp].
Qed.

Lemma words_head c arr : Forall word (c :: arr) -> word c.
Proof. by inversion 1. Qed.

(** ** One leaf *)

Lemma leaf_loop_spec n bs c max arr :
  bs_wf bs -> ascending (c :: arr) -> Forall word (c :: arr) -> c <= max ->
  (length (c :: arr) < n)%nat ->
  exists bs' rest, leaf_from_sorted_loop n bs c max (c :: arr) = Some (bs', rest) /\
    consumed max (c :: arr) rest /\ bs_wf bs' /\
    forall i, 0 <= i < 128 ->
      leaf_bit bs' i = true <->
      leaf_bit bs i = true \/ exists x, x ∈ c :: arr /\ x <= max /\ x mod 128 = i.
Proof.
  revert bs c arr. induction n as [|n IH]; intros bs c arr Hb Hs Hw Hc Hn; [lia|].
  cbn [leaf_from_sorted_loop]. rewrite land_BITSET_MASK.
  pose proof (Z.mod_pos_bound c 128).
  destruct (bitset_insert_spec bs (c mod 128) Hb) as [Hb1 Hs1]; [lia|]. cbn zeta in *.
  set (bs1 := bitset_update _ _ _) in *.
  pose proof (skip_key_consumed c arr Hs) as Hc1.
  pose proof (consumed_length_lt c _ _ c Hc1 (list_elem_of_here _ _)) as Hlen.
  revert Hc1 Hlen. destruct (skip_key c (c :: arr)) as [|c' arr']; intros Hc1 Hlen.
  - exists bs1, []. split; [done|]. split.
    { eapply consumed_trans; [exact Hc|exact Hc1|]. exists []. split; [done|]. split; by intros ? ?%elem_of_nil. }
    split; [done|]. intros i Hi. rewrite Hs1, orb_true_iff, Z.eqb_eq by done. split.
    + intros [?| ->]; [by left|]. right. exists c. split_and!; [by left|done|done].
    + intros [?|(x & Hx & _ & <-)]; [by left|]. right.
      assert (~ c < x) as Hnl.
      { intros Hlt. assert (x ∈ []) as []%elem_of_nil. apply (proj2 (consumed_elem _ _ _ x Hc1)). by split. }
      pose proof (ascending_head _ _ _ Hs Hx). f_equal. lia.
  - assert (Hgt : c < c').
    { assert (c' ∈ c' :: arr') as Hin by by left. by apply (proj1 (consumed_elem _ _ _ _ Hc1)) in Hin as [_ ?]. }
    assert (Hin1 : forall x, x ∈ c :: arr <-> x = c \/ x ∈ c' :: arr').
    { intros x. rewrite (consumed_elem _ _ _ x Hc1). split.
      - intros Hx. pose proof (ascending_head _ _ _ Hs Hx). destruct (Z.eq_dec x c); [by left|].
        right. split; [done|lia].
      - intros [->|[? _]]; [by left|done]. }
    destruct (Z.leb_spec c' max).
    + destruct (IH bs1 c' arr') as (bs' & rest & -> & Hr & Hb' & Hbits); try done.
      { by apply (consumed_ascending c _ _ Hc1). }
      { by apply (consumed_words c _ _ Hc1). }
      { specialize (Hlen ltac:(lia)). lia. }
      exists bs', rest. split_and!; [done|by apply (consumed_trans c max _ (c' :: arr') rest)|done|].
      intros i Hi. rewrite Hbits, Hs1, orb_true_iff, Z.eqb_eq by done. setoid_rewrite Hin1. split.
      * intros [[?| ->]|(x & ? & ? & ?)]; [by left|right; exists c|right; exists x]; auto.
      * intros [?|(x & [->|?] & ? & ?)]; [auto|auto|right; eauto].
    + exists bs1, (c' :: arr'). split; [done|]. split.
      { eapply consumed_trans; [exact Hc|exact Hc1|]. apply consumed_none; [|done].
        by apply (consumed_ascending c _ _ Hc1). }
      split; [done|]. intros i Hi. rewrite Hs1, orb_true_iff, Z.eqb_eq by done. setoid_rewrite Hin1. split.
      * intros [?| ->]; [by left|right; exists c; auto].
      * intros [?|(x & [->|Hx] & ? & ?)]; [auto|auto|].
        pose proof (ascending_head c' arr' x (consumed_ascending c _ _ Hc1 Hs) Hx). lia.
Qed.

Lemma leaf_from_sorted_spec c arr :
  ascending (c :: arr) -> Forall word (c :: arr) -> key_is_leaflike c = true ->
  exists u rest, ucset_leaf_from_sorted_array (c :: arr) = Some (u, rest) /\
    consumed (c - c mod 128 + 127) (c :: arr) rest /\ wf u /\ root u = c - c mod 128 + 64 /\
    forall x, mem u x = true <-> x ∈ c :: arr /\ x <= c - c mod 128 + 127.
Proof.
  intros Hs Hw Hl. pose proof (words_head _ _ Hw) as Hwc.
  apply key_is_leaflike_spec in Hl; [|done].
  assert (Hll : forall x, x ∈ c :: arr -> x / 128 = c / 128 -> x = 0 \/ x mod 128 <> 0).
  { intros x Hx Hd. pose proof (ascending_head _ _ _ Hs Hx). dlia. }
  destruct (leaf_key_spec c Hwc) as [Ek Hk]. unfold ucset_leaf_from_sorted_array.
  replace (c ||| BITSET_MASK) with (c - c mod 128 + 127); cycle 1.
  { change BITSET_MASK with (Z.ones 7). by rewrite lor_ones. }
  destruct (leaf_loop_spec (S (length (c :: arr))) (replicate BITSET_SIZEW 0) c (c - c mod 128 + 127) arr)
    as (bs & rest & -> & Hc & Hb & Hbits); try done; [apply bs_wf_zero|dlia|lia|].
  assert (Hm : leaf_key c mod 128 = 64) by (rewrite Ek; dlia).
  assert (Hbit : forall i, 0 <= i < 128 ->
    leaf_bit bs i = true <-> exists x, x ∈ c :: arr /\ x / 128 = c / 128 /\ x mod 128 = i).
  { intros i Hi. rewrite Hbits, leaf_bit_zero by done. split.
    - intros [|(x & Hx & Hle & E)]; [done|]. exists x. split_and!; try done.
      pose proof (ascending_head _ _ _ Hs Hx). dlia.
    - intros (x & Hx & Hd & E). right. exists x. split_and!; try done. dlia. }
  assert (Hwf : wf (Leaf (leaf_key c) bs)).
  { apply (wf_leaf_intro _ _ (c mod 128)); try done; [|dlia|].
    - intros Hn. destruct (leaf_bit bs 0) eqn:E0; [|done].
      apply Hbit in E0 as (x & Hx & Hd & E0); [|lia]. destruct (Hll x Hx Hd) as [->|]; [|done].
      rewrite Ek in Hn. exfalso. dlia.
    - apply Hbit; [dlia|]. exists c. split_and!; [by left|done|done]. }
  eexists _, rest. split; [done|]. split; [done|]. split; [done|]. split.
  { by rewrite wf_leaf_root. }
  intros x. rewrite mem_leaf, andb_true_iff, Z.eqb_eq, Hbit by dlia. split.
  - intros (Hd & y & Hy & Hd' & Em). rewrite Ek in Hd. assert (y = x) as -> by dlia. split; [done|dlia].
  - intros [Hx Hle]. pose proof (ascending_head _ _ _ Hs Hx). split; [rewrite Ek; dlia|].
    exists x. split_and!; [done|dlia|done].
Qed.

(** ** The recursion *)

(** The keys from [lo] to [max] are closed under the intervals of node keys. *)
Definition closed (lo max : Z) : Prop :=
  lo mod 128 <= 1 /\ word max /\ max mod 128 = 127 /\ forall j, word j -> j <> 0 -> lo <= j <= max -> khi j <= max.

Lemma khi_mod j : word j -> j <> 0 -> j mod 128 = 0 -> khi j mod 128 = 127.
Proof. intros Hj H0 Hm. destruct (lb_mod j Hj H0) as [[? ?] _]; [done|]. unfold khi. dlia. Qed.

Lemma closed_node j : word j -> j <> 0 -> j mod 128 = 0 -> closed (j + 1) (khi j).
Proof.
  intros Hj H0 Hm. split; [dlia|]. split; [by apply klo_khi|]. split; [by apply khi_mod|].
  intros c Hc Hn Hr. apply (nested_right j c); try done. lia.
Qed.

Lemma closed_top : closed 0 UINTPTR_MAX.
Proof.
  split; [done|]. split; [done|]. split; [done|]. intros j Hj Hn _. destruct (klo_khi j Hj Hn) as (_ & _ & Hk).
  unfold word, UINTPTR_MAX in *. lia.
Qed.

(** The join of the current root with the next key, which lies beyond the root's
    interval. *)
Lemma next_join k x :
  word k -> k <> 0 -> k mod 64 = 0 -> word x -> khi k < x ->
  let j := key_join k x in
  word j /\ j <> 0 /\ j mod 128 = 0 /\ klo j <= k < j /\ j <= x <= khi j.
Proof.
  intros Hk H0 Hm Hx Hgt. destruct (klo_khi k Hk H0) as (_ & Hle & _).
  destruct (key_join_base k x) as (_ & Hj & Hn & R0 & R1 & El); [done..|lia|].
  cbn zeta in *. set (j := key_join k x) in *.
  assert (Hlow : k <> j - lb j).
  { intros E. pose proof (low_end_lb j Hj Hn). rewrite <- E in H. specialize (H H0).
    unfold khi in Hgt. lia. }
  split_and!; try done; unfold klo, khi in *; try lia.
  - destruct (Z.le_gt_cases 7 (Z.log2 (k ^^^ x))) as [Hge|Hlt].
    + destruct (lb_mod j Hj Hn) as [_ Hlm]. destruct (Z.eq_dec (j mod 128) 0) as [|Hjm]; [done|].
      specialize (Hlm Hjm). rewrite El in Hlm. pose proof (Z.pow_le_mono_r 2 7 (Z.log2 (k ^^^ x))). lia.
    + exfalso. assert (E : k / 2 ^ 7 = x / 2 ^ 7) by (unfold word in *; apply div_pow2_xor; lia).
      change (2 ^ 7) with 128 in E. destruct (Z.eq_dec (k mod 128) 0) as [Hz|Hz].
      * destruct (lb_mod k Hk H0) as [[? _] _]; [done|]. dlia.
      * rewrite (lb_leaf k) in Hgt by (done || dlia). dlia.
  - destruct (Z.eqb_spec (j - lb j) 0); unfold word in *; lia.
Qed.

Definition body_spec (n : nat) : Prop := forall lo max arr,
  ascending arr -> Forall word arr -> (forall x, x ∈ arr -> lo <= x) -> closed lo max ->
  (2 * length arr + 1 <= n)%nat ->
  exists u rest, ucset_from_sorted_array n max arr = Some (u, rest) /\ consumed max arr rest /\ wf u /\
    forall x, mem u x = true <-> x ∈ arr /\ x <= max.

Definition loop_spec (n : nat) : Prop := forall lo max cur node arr,
  ascending arr -> Forall word arr -> closed lo max ->
  wf node -> is_null node = false -> root node = cur -> lo <= cur <= max ->
  (forall x, x ∈ arr -> khi cur < x) -> (2 * length arr + 2 <= n)%nat ->
  exists u rest, from_sorted_loop n max cur node arr = Some (u, rest) /\ consumed max arr rest /\ wf u /\
    forall x, mem u x = true <-> mem node x = true \/ (x ∈ arr /\ x <= max).

Lemma loop_step n : body_spec n -> loop_spec n -> loop_spec (S n).
Proof.
  intros HB HL lo max cur node arr Hs Hw Hcl Hwf Hnn Hroot Hcur Hgt Hn.
  cbn [from_sorted_loop]. destruct arr as [|x arr].
  { exists node, []. split; [done|]. split; [exists []; split; [done|split; by intros ? ?%elem_of_nil]|].
    split; [done|]. intros x. split; [by left|]. by intros [|[?%elem_of_nil _]]. }
  pose proof (Hgt x (list_elem_of_here _ _)) as Hx.
  pose proof (words_head _ _ Hw) as Hwx.
  destruct (Z.ltb_spec max x) as [Hmx|Hmx].
  { exists node, (x :: arr). split; [done|]. split; [by apply consumed_none|]. split; [done|].
    intros y. split; [by left|]. intros [|[Hy Hle]]; [done|]. pose proof (ascending_head _ _ _ Hs Hy). lia. }
  destruct (wf_root node Hwf Hnn) as (Hkw & Hk0 & _). rewrite Hroot in Hkw, Hk0.
  pose proof (root_mod node Hwf) as Hkm. rewrite Hroot in Hkm.
  destruct (next_join cur x) as (Hj & Hj0 & Hjm & Jl & Jr); [done..|].
  cbn zeta in *. set (j := key_join cur x) in *. rewrite key_max_spec by done. fold (khi j).
  set (arr1 := if x =? j then skip_key j (x :: arr) else x :: arr).
  replace (if x =? j then (j ||| 1, skip_key j (x :: arr)) else (j, x :: arr))
    with (node_key j (x =? j), arr1) by (subst arr1; by destruct (x =? j)).
  assert (Hjmax : khi j <= max) by (apply Hcl; done || lia).
  assert (Hc1 : consumed j (x :: arr) arr1).
  { subst arr1. destruct (Z.eqb_spec x j) as [Exj|].
    - rewrite Exj in Hs |- *. by apply skip_key_consumed.
    - apply consumed_none; [done|]. lia. }
  pose proof (consumed_length _ _ _ Hc1) as Hlen1. pose proof (consumed_ascending _ _ _ Hc1 Hs) as Hs1.
  pose proof (consumed_words _ _ _ Hc1 Hw) as Hw1.
  destruct (HB (j + 1) (khi j) arr1) as (r & arr2 & -> & Hc2 & Wr & Mr); try done; [|by apply closed_node|lia|].
  { intros y Hy%(consumed_elem _ _ _ _ Hc1). lia. }
  cbn [mbind option_bind]. unfold ucnode_new.
  pose proof (klo_khi j Hj Hj0) as (_ & Hjk & _).
  assert (Mr' : forall y, mem r y = true <-> y ∈ x :: arr /\ j < y <= khi j).
  { intros y. rewrite Mr, (consumed_elem _ _ _ _ Hc1). intuition lia. }
  destruct (wf_node_mk j (x =? j) node r) as [Hwf' Hmem'].
  { split_and!; try done.
    - intros y. apply left_bound; [done..|]. by rewrite Hroot.
    - intros y Hy%Mr'. lia. }
  { destruct (Z.eqb_spec x j); [by left|]. right. split; [done|]. apply (mem_not_null _ x).
    apply Mr'. split; [by left|lia]. }
  assert (Hc12 : consumed (khi j) (x :: arr) arr2) by by apply (consumed_trans j _ _ arr1).
  pose proof (consumed_length_lt _ _ _ x Hc12 (list_elem_of_here _ _)) as Hlen2.
  assert (Hrj : root (Node (node_key j (x =? j)) node r) = j).
  { unfold root. cbn [skey]. apply node_key_spec; [done|dlia]. }
  destruct (HL lo max j (Node (node_key j (x =? j)) node r) arr2) as (u & rest & -> & Hc3 & Wu & Mu);
    try done; [by apply (consumed_ascending _ _ _ Hc12)|by apply (consumed_words _ _ _ Hc12)|lia| |lia|].
  { intros y Hy. apply (consumed_elem _ _ _ _ Hc12) in Hy. lia. }
  exists u, rest. split; [done|]. split; [by apply (consumed_trans (khi j) _ _ arr2)|]. split; [done|].
  intros y. rewrite Mu, mem_node_key, !orb_true_iff, Mr', andb_true_iff, !Z.eqb_eq by done.
  rewrite (consumed_elem _ _ _ _ Hc12). split.
  - intros [[[[? ?]|?]|[? ?]]|[[? ?] ?]]; [right|by left|right; split; [done|lia]..].
    assert (y = x) as -> by lia. split; [by left|lia].
  - intros [?|[Hy Hle]]; [tauto|]. pose proof (ascending_head _ _ _ Hs Hy).
    destruct (Z.lt_trichotomy y j) as [|[|]]; [lia| |].
    + left. left. left. lia.
    + destruct (Z.le_gt_cases y (khi j)); [left; right; auto|right; auto].
Qed.

Lemma body_step n : body_spec n -> loop_spec n -> body_spec (S n).
Proof.
  intros HB HL lo max arr Hs Hw Hlo Hcl Hn. cbn [ucset_from_sorted_array]. destruct arr as [|c arr].
  { exists Null, []. split; [done|]. split; [exists []; split; [done|split; by intros ? ?%elem_of_nil]|].
    split; [done|]. intros x. split; [done|]. by intros [?%elem_of_nil _]. }
  pose proof (words_head _ _ Hw) as Hwc. pose proof (Hlo c (list_elem_of_here _ _)).
  destruct (Z.ltb_spec max c) as [Hmx|Hmx].
  { exists Null, (c :: arr). split; [done|]. split; [by apply consumed_none|]. split; [done|].
    intros y. split; [done|]. intros [Hy Hle]. pose proof (ascending_head _ _ _ Hs Hy). lia. }
  assert (Hfirst : exists cur node arr1,
    (if key_is_leaflike c then
       '(cur_node, arr) ← ucset_leaf_from_sorted_array (c :: arr);
       Some (ucnode_key (skey cur_node), cur_node, arr)
     else
       '(right_node, arr) ← ucset_from_sorted_array n (key_max c) (skip_key c (c :: arr));
       Some (c, ucnode_new (c ||| 1) Null right_node, arr)) = Some (cur, node, arr1) /\
    wf node /\ is_null node = false /\ root node = cur /\ lo <= cur <= max /\ khi cur <= max /\
    consumed (khi cur) (c :: arr) arr1 /\ c <= khi cur /\
    forall x, mem node x = true <-> x ∈ c :: arr /\ x <= khi cur).
  { destruct (key_is_leaflike c) eqn:El.
    - destruct (leaf_from_sorted_spec c arr Hs Hw El) as (u & rest & -> & Hc & Wu & Ru & Mu).
      assert (Hku : word (c - c mod 128 + 64)) by (unfold word in *; dlia).
      assert (E : khi (c - c mod 128 + 64) = c - c mod 128 + 127).
      { unfold khi. rewrite lb_leaf; [lia|done|dlia]. }
      exists (root u), u, rest. rewrite Ru, E. destruct Hcl as (Hlm & Hwm & Hmm & _).
      split_and!; try done; [by rewrite <- Ru| |dlia..].
      apply (mem_not_null _ c). apply Mu. split; [by left|dlia].
    - apply not_leaflike in El as [Hc0 Hcm]; [|done]. rewrite key_max_spec by done. fold (khi c).
      pose proof (skip_key_consumed c arr Hs) as Hc1. pose proof (klo_khi c Hwc Hc0) as (_ & Hck & _).
      destruct (HB (c + 1) (khi c) (skip_key c (c :: arr))) as (r & rest & -> & Hc2 & Wr & Mr).
      { by apply (consumed_ascending _ _ _ Hc1). }
      { by apply (consumed_words _ _ _ Hc1). }
      { intros y Hy%(consumed_elem _ _ _ _ Hc1). lia. }
      { by apply closed_node. }
      { pose proof (consumed_length_lt _ _ _ c Hc1 (list_elem_of_here _ _)). lia. }
      destruct (single_node_wf c Null r) as [Hwf Hmem].
      { split_and!; try done. intros y [Hy ?]%Mr. apply (consumed_elem _ _ _ _ Hc1) in Hy. lia. }
      exists c, (ucnode_new (c ||| 1) Null r), rest. split; [done|].
      assert (khi c <= max) by (apply Hcl; done || lia).
      split_and!; try done; [|by apply (consumed_trans c _ _ _ _ Hck Hc1)|].
      { apply (node_key_spec c true); [done|dlia]. }
      intros x. rewrite Hmem, !orb_true_iff, Z.eqb_eq, Mr, (consumed_elem _ _ _ _ Hc1). split.
      + intros [[->|]|[[? ?] ?]]; [split; [by left|done]|done|done].
      + intros [Hx Hle]. pose proof (ascending_head _ _ _ Hs Hx).
        destruct (Z.eq_dec x c); [auto|right; split; [split; [done|lia]|done]]. }
  destruct Hfirst as (cur & node & arr1 & -> & Wn & Nn & Rn & Hcur & Hkm & Hc1 & Hcc & Mn).
  cbn [mbind option_bind].
  pose proof (consumed_length_lt _ _ _ c Hc1 (list_elem_of_here _ _)) as Hlen.
  destruct (HL lo max cur node arr1) as (u & rest & -> & Hc2 & Wu & Mu); try done.
  { by apply (consumed_ascending _ _ _ Hc1). }
  { by apply (consumed_words _ _ _ Hc1). }
  { intros y Hy. by apply (consumed_elem _ _ _ _ Hc1) in Hy as [_ ?]. }
  { lia. }
  exists u, rest. split; [done|]. split; [by apply (consumed_trans (khi cur) _ _ arr1)|]. split; [done|].
  intros x. rewrite Mu, Mn, (consumed_elem _ _ _ _ Hc1). split.
  - intros [[? ?]|[[? ?] ?]]; (split; [done|lia]).
  - intros [? ?]. destruct (Z.le_gt_cases x (khi cur)); [auto|right; split; [split; [done|lia]|done]].
Qed.

Lemma body_loop n : body_spec n /\ loop_spec n.
Proof.
  induction n as [|n [HB HL]]; [|by split; [apply body_step|apply loop_step]].
  split; [intros lo max arr _ _ _ _ ?|intros lo max cur node arr _ _ _ _ _ _ _ _ ?]; lia.
Qed.

(** ** Correctness *)

Lemma from_sorted_array_run arr :
  ascending arr -> Forall word arr ->
  ucset_from_sorted_array (3 * length arr + 3) UINTPTR_MAX arr
    = Some (cucon_ucset_from_sorted_array arr, []) /\
  wf (cucon_ucset_from_sorted_array arr) /\
  forall x, mem (cucon_ucset_from_sorted_array arr) x = true <-> x ∈ arr.
Proof.
  intros Hs Hw. assert (Hwx : forall x, x ∈ arr -> word x) by by apply list.Forall_forall.
  destruct (body_loop (3 * length arr + 3)) as [HB _].
  destruct (HB 0 UINTPTR_MAX arr) as (u & rest & E & Hc & Wu & Mu); try done.
  { intros x Hx. by apply Hwx. }
  { apply closed_top. }
  { lia. }
  unfold cucon_ucset_from_sorted_array. rewrite E. cbn [fmap option_fmap option_map default fst].
  assert (Hle : forall x, x ∈ arr -> x <= UINTPTR_MAX).
  { intros x Hx. specialize (Hwx x Hx). unfold word, UINTPTR_MAX in *. lia. }
  split; [|split; [done|]].
  - f_equal. f_equal. apply elem_of_nil_inv. intros x [Hx Hgt]%(consumed_elem _ _ _ _ Hc).
    specialize (Hle x Hx). lia.
  - intros x. rewrite Mu. split; [by intros [? _]|]. intros Hx. split; [done|by apply Hle].
Qed.

Lemma from_sorted_array_wf arr :
  ascending arr -> Forall word arr ->
  wf (cucon_ucset_from_sorted_array arr) /\
  to_set (cucon_ucset_from_sorted_array arr) = list_to_set arr.
Proof.
  intros Hs Hw. destruct (from_sorted_array_run arr Hs Hw) as (_ & W & M). split; [done|].
  apply set_eq. intros x. by rewrite to_set_spec, M, elem_of_list_to_set.
Qed.

(** [cucon_ucset_from_sorted_array] on an ascending array of words, repetitions
    allowed, consumes the whole array within the fuel the model gives it and
    returns the set of its keys, the same tree that inserting them one by one
    gives. *)
Theorem ucset_from_sorted_array_correct arr :
  ascending arr -> Forall word arr ->
  ucset_from_sorted_array (3 * length arr + 3) UINTPTR_MAX arr
    = Some (cucon_ucset_from_sorted_array arr, []) /\
  wf (cucon_ucset_from_sorted_array arr) /\
  to_set (cucon_ucset_from_sorted_array arr) = list_to_set arr /\
  cucon_ucset_from_sorted_array arr = foldl cucon_ucset_insert Null arr.
Proof.
  intros Hs Hw. destruct (from_sorted_array_run arr Hs Hw) as (E & W & M).
  split; [done|]. split; [done|]. split; [by apply from_sorted_array_wf|].
  pose proof (sample_wf arr Hw) as Ws. apply wf_ext; [done|exact Ws|]. intros x.
  apply eq_true_iff_eq. rewrite M. symmetry. by apply (sample_mem arr).
Qed.
