(* ===== verification/UcsetItr.v ===== *)
(** * Constructive integer sets: iterators

    A [struct cucon_ucset_itr] holds the path from the root to the current node in
    [node_stack[0..sp]] and the position [pos] in the current leaf; here the stack
    is a list with the current node first, so that [sp] is its length less one.
    The memory for the stack is sized by [cucon_ucset_itr_size] from the root key
    alone: [itr_ok_fits] shows that no iteration writes beyond it. *)

From S2P Require Export UcsetClip.

Record ucset_itr := mk_itr { node_stack : list ucset; pos : Z }.

Definition cucon_ucset_itr_at_end (itr : ucset_itr) : bool :=
  match node_stack itr with [] => true | _ => false end.

(** In bytes: [sizeof(struct cucon_ucset_itr)] is 16, a pointer takes 8. *)
Definition cucon_ucset_itr_size (s : ucset) : Z :=
  if is_null s then 16 - 8
  else
    let key := ucnode_key (skey s) in
    let l := if key_is_leaflike key then 1 else cu_uintptr_log2_lowbit key - 7 + 2 in
    16 + (l - 1) * 8.

(** [_ucset_itr_reset_leaf]: the new [pos], unchanged if the leaf were empty. *)
Fixpoint ucset_itr_reset_leaf (bs : list Z) (i pos : Z) : Z :=
  match bs with
  | [] => pos
  | w :: bs =>
      if negb (w =? 0) then cu_word_log2_lowbit w + i * WIDTH
      else ucset_itr_reset_leaf bs (i + 1) pos
  end.

(** [_ucset_itr_descend] with [node] on top of the stack [below]. *)
Fixpoint ucset_itr_descend (node : ucset) (below : list ucset) (pos : Z) : ucset_itr :=
  match node with
  | Null => mk_itr below pos
  | Leaf _ bs => mk_itr (node :: below) (ucset_itr_reset_leaf bs 0 pos)
  | Node _ l _ =>
      if is_null l then mk_itr (node :: below) pos else ucset_itr_descend l (node :: below) pos
  end.

(** [_ucset_itr_ascend] from the node [child], which was on top of [below]. *)
Fixpoint ucset_itr_ascend (child : ucset) (below : list ucset) : list ucset :=
  match below with
  | [] => []
  | p :: below' => if ptr_eq (sright p) child then ucset_itr_ascend p below' else below
  end.

Definition cucon_ucset_itr_init (s : ucset) : ucset_itr :=
  if is_null s then mk_itr [] 0 else ucset_itr_descend s [] (-1).

(** The two loops of [cucon_ucset_itr_get] over the bits of a leaf. *)
Fixpoint next_bit (fuel : nat) (bits j : Z) : option Z :=
  match fuel with
  | O => None
  | S fuel =>
      if j <? WIDTH then
        if negb ((bits &&& wshl 1 j) =? 0) then Some j else next_bit fuel bits (j + 1)
      else None
  end.

Fixpoint next_pos (bs : list Z) (i j : Z) : option Z :=
  match bs with
  | [] => None
  | bits :: bs =>
      match next_bit 65 bits j with
      | Some j => Some (j + i * WIDTH)
      | None => next_pos bs (i + 1) 0
      end
  end.

(** The end of [cucon_ucset_itr_get]: no more elements below the current node. *)
Definition itr_leave (node : ucset) (below : list ucset) (pos : Z) : ucset_itr :=
  match ucset_itr_ascend node below with
  | [] => mk_itr [] pos
  | p :: below' =>
      if negb (key_flag (skey p)) then ucset_itr_descend (sright p) (p :: below') pos
      else mk_itr (p :: below') pos
  end.

Definition cucon_ucset_itr_get (itr : ucset_itr) : Z * ucset_itr :=
  match node_stack itr with
  | [] => (0, itr)
  | node :: below =>
      let key := ucnode_key (skey node) in
      if key_is_leaflike key then
        let res := wadd (wsub key (BITSET_WIDTH / 2)) (pos itr) in
        let pos := pos itr + 1 in
        match next_pos (skipn (Z.to_nat (pos / WIDTH)) (bitset node)) (pos / WIDTH) (pos mod WIDTH) with
        | Some pos => (res, mk_itr (node :: below) pos)
        | None => (res, itr_leave node below pos)
        end
      else if negb (is_null (sright node)) then
        (key, ucset_itr_descend (sright node) (node :: below) (pos itr))
      else (key, itr_leave node below (pos itr))
  end.

(** ** What is left of an iteration *)

(** The elements of a leaf from bit [p] on. *)
Definition leaf_from (k : Z) (bs : list Z) (p : Z) : list Z :=
  filter (fun x => leaf_bit bs (x mod 128) = true) (seqZ (128 * (k / 128) + p) (128 - p)).

Definition here (node : ucset) (p : Z) : list Z :=
  match node with
  | Null => []
  | Leaf k bs => leaf_from k bs p
  | Node nk _ r => ucnode_key nk :: elems r
  end.

Definition own (p : ucset) : list Z := if key_flag (skey p) then [root p] else [].

Fixpoint after (child : ucset) (below : list ucset) : list Z :=
  match below with
  | [] => []
  | p :: below' =>
      (if ptr_eq (sright p) child then [] else own p ++ elems (sright p)) ++ after p below'
  end.

Definition remaining (itr : ucset_itr) : list Z :=
  match node_stack itr with [] => [] | node :: below => here node (pos itr) ++ after node below end.

(** The stack is a path down from [s]. *)
Fixpoint path (s node : ucset) (below : list ucset) : Prop :=
  wf node /\ is_null node = false /\
  match below with
  | [] => node = s
  | p :: below' => (exists nk l r, p = Node nk l r /\ (node = l \/ node = r)) /\ path s p below'
  end.

(** The current node is at an element. *)
Definition at_element (node : ucset) (p : Z) : Prop :=
  match node with
  | Null => False
  | Leaf _ bs => 0 <= p < 128 /\ leaf_bit bs p = true
  | Node nk _ _ => key_flag nk = true
  end.

Definition itr_ok (s : ucset) (itr : ucset_itr) : Prop :=
  match node_stack itr with
  | [] => True
  | node :: below => path s node below /\ at_element node (pos itr)
  end.

(** ** Leaves *)

Lemma leaf_from_step k bs p :
  0 <= p < 128 ->
  leaf_from k bs p = (if leaf_bit bs p then [128 * (k / 128) + p] else []) ++ leaf_from k bs (p + 1).
Proof.
  intros Hp. unfold leaf_from. rewrite seqZ_cons by lia. rewrite filter_cons.
  replace ((128 * (k / 128) + p) mod 128) with p by dlia.
  replace (Z.succ (128 * (k / 128) + p)) with (128 * (k / 128) + (p + 1)) by lia.
  replace (Z.pred (128 - p)) with (128 - (p + 1)) by lia.
  destruct (leaf_bit bs p); case_decide; done.
Qed.

Lemma leaf_from_skip k bs p q :
  0 <= p <= q -> q <= 128 -> (forall i, p <= i < q -> leaf_bit bs i = false) ->
  leaf_from k bs p = leaf_from k bs q.
Proof.
  intros Hp Hq Hb. replace p with (q - Z.of_nat (Z.to_nat (q - p))) in * by lia.
  induction (Z.to_nat (q - p)) as [|n IH]; [by rewrite Z.sub_0_r|].
  rewrite leaf_from_step by lia. rewrite Hb by lia. cbn [app].
  replace (q - Z.of_nat (S n) + 1) with (q - Z.of_nat n) by lia.
  apply IH; [lia|]. intros i Hi. apply Hb. lia.
Qed.

Lemma leaf_from_end k bs : leaf_from k bs 128 = [].
Proof. unfold leaf_from. by rewrite seqZ_nil by lia. Qed.

Lemma reset_leaf_spec k bs p :
  wf (Leaf k bs) ->
  let q := ucset_itr_reset_leaf bs 0 p in
  0 <= q < 128 /\ leaf_bit bs q = true /\ leaf_from k bs q = leaf_elems k bs.
Proof.
  intros (Hw & Hm & Hb & He & _). cbn zeta.
  assert (H : let q := ucset_itr_reset_leaf bs 0 p in
    0 <= q < 128 /\ leaf_bit bs q = true /\ forall i, 0 <= i < q -> leaf_bit bs i = false).
  { apply bs_wf_inv in Hb as (w0 & w1 & -> & H0 & H1). cbn [existsb] in He.
    cbn [ucset_itr_reset_leaf]. unfold WIDTH. destruct (Z.eqb_spec w0 0) as [->|Hn]; cbn [negb].
    - destruct (Z.eqb_spec w1 0) as [->|Hn]; [done|]. cbn [negb].
      destruct (cu_word_log2_lowbit_spec w1 H1 Hn) as (Hl & Ht & Hlow). cbn zeta in *.
      split; [lia|]. split.
      + rewrite leaf_bit_2, (proj2 (Z.ltb_ge _ 64)) by lia. rewrite <- Ht. f_equal. lia.
      + intros i Hi. rewrite leaf_bit_2 by lia. destruct (Z.ltb_spec i 64); [apply Z.bits_0|].
        apply Hlow. lia.
    - destruct (cu_word_log2_lowbit_spec w0 H0 Hn) as (Hl & Ht & Hlow). cbn zeta in *.
      rewrite Z.mul_0_l, Z.add_0_r. split; [lia|]. split.
      + rewrite leaf_bit_2, (proj2 (Z.ltb_lt _ 64)) by lia. done.
      + intros i Hi. rewrite leaf_bit_2, (proj2 (Z.ltb_lt _ 64)) by lia. apply Hlow. lia. }
  destruct H as (Hq & Hbit & Hlow). split; [done|]. split; [done|].
  rewrite <- (leaf_from_skip k bs 0) by (done || lia). unfold leaf_from, leaf_elems.
  by rewrite Z.add_0_r, Z.sub_0_r.
Qed.

Lemma next_bit_spec n bits j :
  0 <= j <= 64 -> (Z.to_nat (64 - j) < n)%nat ->
  match next_bit n bits j with
  | Some q => j <= q < 64 /\ Z.testbit bits q = true /\ forall i, j <= i < q -> Z.testbit bits i = false
  | None => forall i, j <= i < 64 -> Z.testbit bits i = false
  end.
Proof.
  revert j. induction n as [|n IH]; intros j Hj Hn; [lia|]. cbn [next_bit]. unfold WIDTH.
  destruct (Z.ltb_spec j 64); [|lia].
  rewrite wshl_1, land_pow2_neq0 by lia. destruct (Z.testbit bits j) eqn:E.
  { split; [lia|]. split; [done|]. lia. }
  specialize (IH (j + 1)). destruct (next_bit n bits (j + 1)) as [q|].
  - destruct IH as (Hq & Ht & Hl); [lia..|]. split; [lia|]. split; [done|].
    intros i Hi. destruct (Z.eq_dec i j) as [->|]; [done|apply Hl; lia].
  - intros i Hi. destruct (Z.eq_dec i j) as [->|]; [done|apply IH; lia].
Qed.

Lemma next_pos_spec bs p :
  bs_wf bs -> 0 <= p <= 128 ->
  match next_pos (skipn (Z.to_nat (p / WIDTH)) bs) (p / WIDTH) (p mod WIDTH) with
  | Some q => p <= q < 128 /\ leaf_bit bs q = true /\ forall i, p <= i < q -> leaf_bit bs i = false
  | None => forall i, p <= i < 128 -> leaf_bit bs i = false
  end.
Proof.
  intros (w0 & w1 & -> & H0 & H1)%bs_wf_inv Hp. unfold WIDTH.
  assert (B1 : forall j, match next_pos [w1] 1 j with
    | Some q => next_bit 65 w1 j = Some (q - 64) | None => next_bit 65 w1 j = None end).
  { intros j. cbn [next_pos]. destruct (next_bit 65 w1 j) as [q|]; [|done]. f_equal. unfold WIDTH. lia. }
  destruct (Z.lt_ge_cases p 64); [|destruct (Z.eq_dec p 128) as [->|]].
  - rewrite Z.div_small, Z.mod_small by lia. change (skipn (Z.to_nat 0) [w0; w1]) with [w0; w1].
    cbn [next_pos]. change (0 + 1) with 1. specialize (B1 0). cbn [next_pos] in B1.
    pose proof (next_bit_spec 65 w0 p) as N0. pose proof (next_bit_spec 65 w1 0) as N1.
    destruct (next_bit 65 w0 p) as [q|].
    + destruct N0 as (Hq & Ht & Hl); [lia..|]. unfold WIDTH. rewrite Z.mul_0_l, Z.add_0_r.
      split; [lia|]. split; [by rewrite leaf_bit_2, (proj2 (Z.ltb_lt q 64)) by lia|].
      intros i Hi. rewrite leaf_bit_2, (proj2 (Z.ltb_lt i 64)) by lia. apply Hl. lia.
    + specialize (N0 ltac:(lia) ltac:(lia)).
      destruct (next_bit 65 w1 0) as [q|].
      * destruct N1 as (Hq & Ht & Hl); [lia..|]. unfold WIDTH. split; [lia|]. split.
        -- rewrite leaf_bit_2, (proj2 (Z.ltb_ge _ 64)) by lia. rewrite <- Ht. f_equal. lia.
        -- intros i Hi. rewrite leaf_bit_2 by lia. destruct (Z.ltb_spec i 64); [apply N0|apply Hl]; lia.
      * intros i Hi. rewrite leaf_bit_2 by lia. destruct (Z.ltb_spec i 64); [apply N0|apply N1]; lia.
  - by intros i Hi; lia.
  - replace (p / 64) with 1 by dlia. replace (p mod 64) with (p - 64) by dlia.
    change (skipn (Z.to_nat 1) [w0; w1]) with [w1]. specialize (B1 (p - 64)).
    pose proof (next_bit_spec 65 w1 (p - 64)) as N1.
    destruct (next_pos [w1] 1 (p - 64)) as [q|]; rewrite B1 in N1.
    + destruct N1 as (Hq & Ht & Hl); [lia..|]. split; [lia|]. split.
      * by rewrite leaf_bit_2, (proj2 (Z.ltb_ge q 64)) by lia.
      * intros i Hi. rewrite leaf_bit_2, (proj2 (Z.ltb_ge i 64)) by lia. apply Hl. lia.
    + intros i Hi. rewrite leaf_bit_2, (proj2 (Z.ltb_ge i 64)) by lia. apply N1; lia.
Qed.

(** ** Moving in the tree *)

Lemma path_wf s node below : path s node below -> wf node /\ is_null node = false.
Proof. destruct below; simpl; tauto. Qed.

Lemma path_child s nk l r below c :
  path s (Node nk l r) below -> is_null c = false -> c = l \/ c = r -> path s c (Node nk l r :: below).
Proof.
  intros Hp Hn Hc. pose proof (path_wf _ _ _ Hp) as [Hwf _].
  apply node_parts_inv in Hwf as (_ & _ & _ & Wl & Wr & _).
  split; [by destruct Hc as [->| ->]|]. split; [done|]. split; [|done]. by exists nk, l, r.
Qed.

(** The children of a node differ, so that the comparison in
    [_ucset_itr_ascend] tells them apart. *)
Lemma left_not_right nk l r : wf (Node nk l r) -> is_null l = false -> ptr_eq r l = false.
Proof.
  intros Hs Hn. apply bool_decide_eq_false. intros ->.
  apply node_parts_inv in Hs as (_ & _ & _ & Wl & _ & Bl & Br).
  destruct (wf_nonempty l Wl Hn) as [x Hx]. specialize (Bl x Hx). specialize (Br x Hx). lia.
Qed.

Lemma ptr_eq_refl s : ptr_eq s s = true.
Proof. by apply bool_decide_eq_true. Qed.

Lemma descend_spec s node below p :
  path s node below ->
  itr_ok s (ucset_itr_descend node below p) /\
  remaining (ucset_itr_descend node below p) = elems node ++ after node below.
Proof.
  revert below p. induction node as [|k bs|nk l IHl r _]; intros below p Hp;
    pose proof (path_wf _ _ _ Hp) as [Hwf Hn]; [done| |]; cbn [ucset_itr_descend].
  - destruct (reset_leaf_spec k bs p Hwf) as (Hq & Hb & E). cbn zeta in *.
    unfold itr_ok, remaining. cbn [node_stack pos here at_element elems]. by rewrite E.
  - destruct (is_null l) eqn:Nl.
    + unfold itr_ok, remaining. cbn [node_stack pos here at_element elems].
      apply wf_node_inv in Hwf as (k & f & -> & -> & -> & _ & _ & _ & _ & Hf & _).
      destruct Hf as [->|[? _]]; [|congruence]. destruct l; try done.
    + destruct (IHl (Node nk l r :: below) p) as [Hok Hr].
      { apply path_child; auto. }
      split; [done|]. rewrite Hr. cbn [after sright elems]. rewrite (left_not_right nk l r) by done.
      unfold own, root. cbn [skey]. by rewrite <- !app_assoc.
Qed.

Lemma ascend_spec s child below :
  path s child below ->
  match ucset_itr_ascend child below with
  | [] => after child below = []
  | q :: below' => exists nk l r, q = Node nk l r /\ path s q below' /\
      after child below = own q ++ elems r ++ after q below'
  end.
Proof.
  revert child. induction below as [|p below IH]; intros child Hp; [done|].
  destruct Hp as (_ & _ & (nk & l & r & -> & _) & Hp). cbn [ucset_itr_ascend after].
  destruct (ptr_eq _ child); [by apply IH|]. exists nk, l, r. split_and!; [done|done|].
  cbn [sright]. by rewrite <- app_assoc.
Qed.

Lemma leave_spec s node below p :
  path s node below ->
  itr_ok s (itr_leave node below p) /\ remaining (itr_leave node below p) = after node below.
Proof.
  intros Hp. pose proof (ascend_spec s node below Hp) as Ha. unfold itr_leave.
  destruct (ucset_itr_ascend node below) as [|q below']; [by rewrite Ha|].
  destruct Ha as (nk & l & r & -> & Hq & ->). cbn [skey sright].
  pose proof (path_wf _ _ _ Hq) as [Hwf _].
  apply wf_node_inv in Hwf as (k & f & -> & Ek & Ef & _ & _ & _ & _ & Hf & _).
  unfold own, root. cbn [skey]. rewrite Ek, Ef. destruct f; cbn [negb].
  - unfold itr_ok, remaining. cbn [node_stack pos here at_element]. by rewrite Ek, Ef.
  - destruct Hf as [|[_ Nr]]; [done|].
    destruct (descend_spec s r (Node (node_key k false) l r :: below') p) as [Hok Hr].
    { apply path_child; auto. }
    split; [done|]. rewrite Hr. cbn [after sright]. by rewrite ptr_eq_refl.
Qed.

Lemma get_spec s itr :
  itr_ok s itr -> cucon_ucset_itr_at_end itr = false ->
  let '(x, itr') := cucon_ucset_itr_get itr in
  remaining itr = x :: remaining itr' /\ itr_ok s itr'.
Proof.
  destruct itr as [[|node below] p]; [done|]. intros [Hp Hat] _. cbn [node_stack pos] in *.
  pose proof (path_wf _ _ _ Hp) as [Hwf Hn]. unfold cucon_ucset_itr_get. cbn [node_stack pos].
  destruct node as [|k bs|nk l r]; [done| |]; cbn [skey sright bitset at_element] in *.
  - rewrite (leaf_skey k bs Hwf). pose proof Hwf as (Hw & Hm & Hb & _).
    rewrite (proj2 (key_is_leaflike_spec k Hw)) by (right; lia).
    destruct Hat as [Hp' Hbit].
    assert (E : wadd (wsub k (BITSET_WIDTH / 2)) p = 128 * (k / 128) + p).
    { change (BITSET_WIDTH / 2) with 64. unfold wsub, wadd. rewrite (wrap_small (k - 64)), wrap_small;
        unfold word in *; dlia. }
    rewrite E. pose proof (next_pos_spec bs (p + 1) Hb ltac:(lia)) as Hnx.
    unfold remaining. cbn [node_stack pos here]. rewrite (leaf_from_step k bs p), Hbit by done. cbn [app].
    destruct (next_pos _ _ _) as [q|].
    + destruct Hnx as (Hq & Hqb & Hl). cbn [node_stack pos here].
      rewrite (leaf_from_skip k bs (p + 1) q) by (done || lia). split; [done|].
      split; [done|]. cbn [at_element pos]. split; [lia|done].
    + rewrite (leaf_from_skip k bs (p + 1) 128), leaf_from_end by (done || lia).
      destruct (leave_spec s (Leaf k bs) below (p + 1) Hp) as [Hok Hr]. split; [|done].
      f_equal. cbn [app]. by rewrite <- Hr.
  - assert (Hnl : key_is_leaflike (ucnode_key nk) = false).
    { apply node_parts_inv in Hwf as (Hw & H0 & Hm & _).
      destruct (key_is_leaflike _) eqn:E; [|done]. by apply key_is_leaflike_spec in E as [|]. }
    rewrite Hnl. unfold remaining at 1. cbn [node_stack pos here].
    destruct (is_null r) eqn:Nr; cbn [negb].
    + destruct (leave_spec s (Node nk l r) below p Hp) as [Hok Hr]. split; [|done].
      destruct r; try done. cbn [elems app]. by rewrite Hr.
    + destruct (descend_spec s r (Node nk l r :: below) p) as [Hok Hr].
      { apply path_child; auto. }
      split; [|done]. rewrite Hr. cbn [after sright]. by rewrite ptr_eq_refl.
Qed.

Lemma init_spec s :
  wf s -> itr_ok s (cucon_ucset_itr_init s) /\ remaining (cucon_ucset_itr_init s) = elems s.
Proof.
  intros Hs. unfold cucon_ucset_itr_init. destruct (is_null s) eqn:Nn.
  - split; [done|]. by destruct s.
  - destruct (descend_spec s s [] (-1)) as [Hok Hr]; [done|]. split; [done|]. by rewrite Hr, app_nil_r.
Qed.

Lemma at_end_spec s itr :
  itr_ok s itr -> cucon_ucset_itr_at_end itr = true <-> remaining itr = [].
Proof.
  intros Hok. split; [by destruct itr as [[|] p]|]. intros Hr.
  destruct (cucon_ucset_itr_at_end itr) eqn:E; [done|].
  pose proof (get_spec s itr Hok E) as Hg. destruct (cucon_ucset_itr_get itr). destruct Hg. congruence.
Qed.

(** ** The size of the stack *)

Definition capacity (s : ucset) : Z :=
  if is_null s then 0
  else if key_is_leaflike (root s) then 1 else cu_uintptr_log2_lowbit (root s) - 7 + 2.

Lemma itr_size_capacity s : cucon_ucset_itr_size s = 8 + 8 * capacity s.
Proof.
  unfold cucon_ucset_itr_size, capacity. fold (root s).
  destruct (is_null s); [|destruct (key_is_leaflike (root s))]; lia.
Qed.

Lemma log2_lowbit_lb k :
  word k -> k <> 0 -> 0 <= cu_uintptr_log2_lowbit k /\ lb k = 2 ^ cu_uintptr_log2_lowbit k.
Proof.
  intros Hk Hn. destruct (key_odd k Hk Hn) as (b & m & Hb & Hm & E & El).
  unfold cu_uintptr_log2_lowbit. rewrite El. rewrite E at 1 2. rewrite E in Hk.
  rewrite log2_lowbit_odd by (done || lia). split; [lia|done].
Qed.

Lemma capacity_pos s : wf s -> is_null s = false -> 1 <= capacity s.
Proof.
  intros Hs Hn. unfold capacity. rewrite Hn. destruct (key_is_leaflike (root s)) eqn:E; [lia|].
  destruct (wf_root s Hs Hn) as (Hw & H0 & _). apply not_leaflike in E as [_ Hm]; [|done].
  destruct (lb_mod (root s) Hw H0) as [[Hl _] _]; [done|].
  destruct (log2_lowbit_lb (root s) Hw H0) as [Hb E]. rewrite E in Hl.
  change 128 with (2 ^ 7) in Hl. apply Z.pow_le_mono_r_iff in Hl; lia.
Qed.

(** A root inside one half of another key's interval has a lower lowest bit. *)
Lemma half_lb k c : word k -> k <> 0 -> word c -> c <> 0 ->
  klo k <= c < k \/ k < c <= khi k -> 2 * lb c <= lb k.
Proof.
  intros Hk H0 Hc Hn [Hr|Hr].
  - destruct (inside_left k c) as [I0 I1]; [done..| |lia].
    unfold klo in Hr. destruct (Z.eqb_spec (k - lb k) 0); unfold word in *; lia.
  - destruct (inside_right k c) as [I0 I1]; [done..|unfold khi in Hr; lia|lia].
Qed.

Lemma capacity_child nk l r c :
  wf (Node nk l r) -> is_null c = false -> c = l \/ c = r -> capacity c + 1 <= capacity (Node nk l r).
Proof.
  intros Hs Hn Hc. pose proof (node_parts_inv nk l r Hs) as (Hw & H0 & Hm & Wl & Wr & Bl & Br).
  assert (Wc : wf c) by by destruct Hc as [->| ->].
  destruct (wf_root c Wc Hn) as (Hcw & Hc0 & _).
  assert (Hhalf : 2 * lb (root c) <= lb (ucnode_key nk)).
  { apply half_lb; try done.
    destruct Hc as [->| ->]; [left; by apply root_left|right; by apply root_right]. }
  assert (Hnl : key_is_leaflike (ucnode_key nk) = false).
  { destruct (key_is_leaflike _) eqn:E; [|done]. by apply key_is_leaflike_spec in E as [|]. }
  unfold capacity at 2. cbn [is_null]. change (root (Node nk l r)) with (ucnode_key nk). rewrite Hnl.
  destruct (log2_lowbit_lb _ Hw H0) as [Hb Eb].
  unfold capacity. rewrite Hn. destruct (key_is_leaflike (root c)) eqn:El.
  - destruct (lb_mod _ Hw H0) as [[Hl _] _]; [done|]. rewrite Eb in Hl.
    change 128 with (2 ^ 7) in Hl. apply Z.pow_le_mono_r_iff in Hl; lia.
  - destruct (log2_lowbit_lb _ Hcw Hc0) as [Hb' Eb']. rewrite Eb, Eb', <- pow2_succ in Hhalf by done.
    apply Z.pow_le_mono_r_iff in Hhalf; lia.
Qed.

Lemma path_capacity s node below :
  path s node below -> Z.of_nat (length below) + capacity node <= capacity s.
Proof.
  revert node. induction below as [|p below IH]; intros node Hp.
  - destruct Hp as (_ & _ & ->). simpl. lia.
  - destruct Hp as (Hwf & Hn & (nk & l & r & -> & Hc) & Hp). specialize (IH _ Hp).
    pose proof (path_wf _ _ _ Hp) as [Hwp _].
    pose proof (capacity_child nk l r node Hwp Hn Hc). cbn [length]. lia.
Qed.

Lemma itr_ok_fits s itr :
  wf s -> itr_ok s itr -> 8 + 8 * Z.of_nat (length (node_stack itr)) <= cucon_ucset_itr_size s.
Proof.
  rewrite itr_size_capacity. intros Hs. destruct itr as [[|node below] p]; intros Hok.
  - cbn [node_stack length]. destruct (is_null s) eqn:Hn; [by destruct s|].
    pose proof (capacity_pos s Hs Hn). lia.
  - destruct Hok as [Hp _]. cbn [node_stack length]. pose proof (path_wf _ _ _ Hp) as [Hwf Hn].
    pose proof (path_capacity s node below Hp). pose proof (capacity_pos node Hwf Hn). lia.
Qed.

(** ** Correctness *)

(** [n] calls of [itr_get] that stop at the end. *)
Fixpoint itr_run (n : nat) (itr : ucset_itr) : list Z * ucset_itr :=
  match n with
  | O => ([], itr)
  | S n =>
      if cucon_ucset_itr_at_end itr then ([], itr)
      else
        let '(x, itr) := cucon_ucset_itr_get itr in
        let '(xs, itr) := itr_run n itr in (x :: xs, itr)
  end.

Lemma itr_run_spec s n itr :
  itr_ok s itr ->
  itr_ok s (snd (itr_run n itr)) /\ fst (itr_run n itr) = take n (remaining itr) /\
  remaining (snd (itr_run n itr)) = drop n (remaining itr).
Proof.
  revert itr. induction n as [|n IH]; intros itr Hok; [done|]. cbn [itr_run].
  destruct (cucon_ucset_itr_at_end itr) eqn:E.
  { rewrite (proj1 (at_end_spec s itr Hok) E). split; [done|].
    cbn [fst snd]. by rewrite (proj1 (at_end_spec s itr Hok) E). }
  pose proof (get_spec s itr Hok E) as Hg. destruct (cucon_ucset_itr_get itr) as [x itr'].
  destruct Hg as [Hr Hok']. destruct (IH itr' Hok') as (Ho & Hf & Hrr).
  destruct (itr_run n itr') as [xs itr'']. cbn [fst snd] in *. rewrite Hr. cbn [take drop].
  split; [done|]. by rewrite Hf.
Qed.

(** C32: an iterator over a set yields its elements in increasing order: after
    [n] calls of [cucon_ucset_itr_get] it has returned the first [n] elements,
    [cucon_ucset_itr_at_end] holds when all have been returned and not before, and
    at no point does its stack exceed the memory that [cucon_ucset_itr_size]
    computes from the root key. *)
Theorem ucset_itr_correct s n :
  wf s ->
  let itr := snd (itr_run n (cucon_ucset_itr_init s)) in
  fst (itr_run n (cucon_ucset_itr_init s)) = take n (elems s) /\
  (cucon_ucset_itr_at_end itr = true <-> (length (elems s) <= n)%nat) /\
  8 + 8 * Z.of_nat (length (node_stack itr)) <= cucon_ucset_itr_size s.
Proof.
  intros Hs. cbn zeta. destruct (init_spec s Hs) as [Hok Hr].
  destruct (itr_run_spec s n _ Hok) as (Ho & Hf & Hrr). rewrite Hr in *.
  split; [done|]. split; [|by apply itr_ok_fits].
  rewrite (at_end_spec s _ Ho), Hrr. split.
  - intros E%(f_equal length). rewrite length_drop in E. simpl in E. lia.
  - intros Hle. by apply drop_ge.
Qed.

Lemma ucset_itr_correct_witness :
  wf (sample [1000; 256; 3; 2 ^ 63]) /\
  fst (itr_run 3 (cucon_ucset_itr_init (sample [1000; 256; 3; 2 ^ 63]))) = [3; 256; 1000].
Proof.
  assert (Hs : wf (sample [1000; 256; 3; 2 ^ 63])) by wf_compute. split; [exact Hs|].
  etransitivity; [exact (proj1 (ucset_itr_correct _ 3 Hs))|]. vm_compute. reflexivity.
Defined.
