(* ===== verification/UcsetMono.v ===== *)
(** * Constructive integer sets: construction from a monotonic callback, translation

    [_ucset_from_monotonic] builds a tree from a callback that delivers strictly
    increasing keys through a pointer; [cucon_ucset_translate_uclip] uses it to add a
    constant to the elements of a set, with a callback over an iterator. *)

From S2P Require Export UcsetBuild UcsetItr.

Section monotonic.
Context {S : Type} (f : S -> Z -> S * (bool * Z)).

(** The state of the caller: that of the callback, [*have_next] and [*next_key]. *)
#[local] Abbreviation state := (S * bool * Z)%type.

Fixpoint leaf_mono_loop (fuel : nat) (bs : list Z) (max_key : Z) (st : state) : option (list Z * state) :=
  match fuel with
  | O => None
  | Datatypes.S fuel =>
      let '(s, have_next, next_key) := st in
      if have_next && (next_key <=? max_key) then
        let key := next_key &&& BITSET_MASK in
        let bs := bitset_update bs key (bitset_word bs key ||| bitset_bit key) in
        let '(s, (have_next, next_key)) := f s next_key in
        leaf_mono_loop fuel bs max_key (s, have_next, next_key)
      else Some (bs, st)
  end.

Definition ucleaf_from_monotonic (fuel : nat) (st : state) (clip_max : Z) : option (ucset * state) :=
  let '(_, _, next_key) := st in
  let max_key := Z.min clip_max (next_key ||| BITSET_MASK) in
  let key := (next_key &&& wnot BITSET_MASK) ||| ((BITSET_MASK + 1) >>> 1) in
  '(bs, st) ← leaf_mono_loop fuel (replicate BITSET_SIZEW 0) max_key st;
  Some (Leaf key bs, st).

(** The key and the upper end of the span in which [left_key] and [next_key] fall
    into different halves. *)
Definition span_of (left_key next_key : Z) : Z * Z :=
  let key_diff := left_key ^^^ next_key in
  let span_lmask := if negb (key_diff =? 0) then cu_uintptr_dcover key_diff else wnot 0 in
  let span_min := left_key &&& wnot span_lmask in
  let span_max := left_key ||| span_lmask in
  let span_key := wadd span_min (wadd (span_lmask >>> 1) 1) in
  (span_key, span_max).

(** [_ucset_from_monotonic]: the part before the loop, and the loop. *)
Fixpoint ucset_from_monotonic (fuel : nat) (st : state) (clip_max : Z) : option (ucset * state) :=
  match fuel with
  | O => None
  | Datatypes.S fuel =>
      let '(_, have_next, next_key) := st in
      if negb have_next || (clip_max <? next_key) then Some (Null, st)
      else
        '(left_key, lt, st) ←
          (if key_is_leaflike next_key then
             '(lt, st) ← ucleaf_from_monotonic fuel st clip_max;
             Some (ucnode_key (skey lt), lt, st)
           else Some (wsub next_key 1, Null, st));
        from_monotonic_loop fuel st clip_max left_key lt
  end
with from_monotonic_loop (fuel : nat) (st : state) (clip_max left_key : Z) (lt : ucset)
    : option (ucset * state) :=
  match fuel with
  | O => None
  | Datatypes.S fuel =>
      let '(s, have_next, next_key) := st in
      if have_next && (next_key <=? clip_max) then
        let '(span_key, span_max) := span_of left_key next_key in
        let '(stored, st) :=
          if span_key =? next_key then
            let '(s, (have_next, next_key)) := f s next_key in
            (span_key ||| 1, (s, have_next, next_key))
          else (span_key, st) in
        '(rt, st) ← ucset_from_monotonic fuel st span_max;
        from_monotonic_loop fuel st clip_max left_key (ucnode_new stored lt rt)
      else Some (lt, st)
  end.
End monotonic.

(** ** Translation *)

(** [_ucset_translate_helper], less the constant [diff]. *)
Record translate_helper := mk_helper {
  h_itr : ucset_itr;
  clip_max : Z;
  cut_have_next : bool;
  cut_next_val : Z
}.

Definition ucset_translate_helper (diff : Z) (self : translate_helper) (val_out : Z)
    : translate_helper * (bool * Z) :=
  if cucon_ucset_itr_at_end (h_itr self) then (self, (false, val_out))
  else
    let '(val, itr) := cucon_ucset_itr_get (h_itr self) in
    let self := mk_helper itr (clip_max self) (cut_have_next self) (cut_next_val self) in
    if clip_max self <? val then (mk_helper itr (clip_max self) true val, (false, val_out))
    else (self, (true, wadd val (wrap diff))).

(** The loop that skips the elements below [clip_min]. *)
Fixpoint translate_skip (fuel : nat) (itr : ucset_itr) (clip_min clip_max : Z) : option (Z * ucset_itr) :=
  match fuel with
  | O => None
  | S fuel =>
      if cucon_ucset_itr_at_end itr then None
      else
        let '(next_key, itr) := cucon_ucset_itr_get itr in
        if clip_max <? next_key then None
        else if next_key <? clip_min then translate_skip fuel itr clip_min clip_max
        else Some (next_key, itr)
  end.

(** Enough for all loops and recursions over the elements of the set. *)
Definition translate_fuel (s : ucset) : nat := 4 * length (elems s) + 4.

Definition cucon_ucset_translate_uclip (s : ucset) (diff clip_min clip_max : Z) : ucset :=
  match translate_skip (translate_fuel s) (cucon_ucset_itr_init s) clip_min clip_max with
  | None => Null
  | Some (next_key, itr) =>
      let next_key := wadd next_key (wrap diff) in
      let cut := wrap (- diff - 1) in
      let run st := default (Null, st)
        (ucset_from_monotonic (ucset_translate_helper diff) (translate_fuel s) st UINTPTR_MAX) in
      if cut <? clip_max then
        let '(S0, (cb, _, _)) := run (mk_helper itr cut false 0, true, next_key) in
        if negb (cut_have_next cb) then S0
        else if clip_max <? cut_next_val cb then S0
        else
          let next_key := wadd (cut_next_val cb) (wrap diff) in
          let '(S1, _) := run (mk_helper (h_itr cb) clip_max (cut_have_next cb) (cut_next_val cb),
                               true, next_key) in
          cucon_ucset_union S0 S1
      else
        let '(S1, _) := run (mk_helper itr clip_max false 0, true, next_key) in
        cucon_ucset_union Null S1
  end.

(** The bounds are signed. *)
Definition cucon_ucset_translate_sclip (s : ucset) (diff clip_min clip_max : Z) : ucset :=
  if clip_max <? clip_min then Null
  else if Bool.eqb (clip_min <? 0) (clip_max <? 0) then
    cucon_ucset_translate_uclip s diff (wrap clip_min) (wrap clip_max)
  else
    let S0 := cucon_ucset_translate_uclip s diff 0 (wrap clip_max) in
    let S1 := cucon_ucset_translate_uclip s diff (wrap clip_min) UINTPTR_MAX in
    cucon_ucset_union S0 S1.

Definition cucon_ucset_translate (s : ucset) (diff : Z) : ucset :=
  cucon_ucset_translate_uclip s diff 0 UINTPTR_MAX.

(** ** Sequences delivered by a callback *)

Section yields.
Context {S : Type} (f : S -> Z -> S * (bool * Z)).

(** From the state [s] the callback delivers [xs] and stops in the state [e]. *)
Fixpoint yields (xs : list Z) (s e : S) : Prop :=
  match xs with
  | [] => forall v, exists v', f s v = (e, (false, v'))
  | x :: xs => exists s', (forall v, f s v = (s', (true, x))) /\ yields xs s' e
  end.

(** The keys that the caller's state stands for: the pending one, and those to come. *)
Definition pending (arr : list Z) (st : S * bool * Z) (e : S) : Prop :=
  match arr with
  | [] => exists v, st = (e, false, v)
  | x :: xs => exists s, st = (s, true, x) /\ yields xs s e
  end.

Lemma yields_pending xs s v e :
  yields xs s e -> exists s' h n, f s v = (s', (h, n)) /\ pending xs (s', h, n) e.
Proof.
  destruct xs as [|x xs]; cbn.
  - intros H. destruct (H v) as [v' E]. exists e, false, v'. split; [done|]. by exists v'.
  - intros (s' & H & Hy). exists s', true, x. split; [done|]. by exists s'.
Qed.
End yields.

Definition increasing (arr : list Z) : Prop := StronglySorted Z.lt arr.

Lemma increasing_ascending arr : increasing arr -> ascending arr.
Proof.
  induction 1 as [|x xs Hs IH Hf]; [by constructor|]. apply StronglySorted_cons. split; [|done].
  apply list.Forall_forall. intros y Hy. pose proof (proj1 (list.Forall_forall _ _) Hf y Hy). lia.
Qed.

Lemma increasing_tail x arr :
  increasing (x :: arr) -> increasing arr /\ forall y, y ∈ arr -> x < y.
Proof. intros [Hf Hs]%StronglySorted_cons. split; [done|]. by apply list.Forall_forall. Qed.

Lemma consumed_increasing max arr rest : consumed max arr rest -> increasing arr -> increasing rest.
Proof. intros (pre & -> & _). apply StronglySorted_app_1_r. Qed.

Lemma consumed_cons max x arr rest : x <= max -> consumed max arr rest -> consumed max (x :: arr) rest.
Proof.
  intros Hx (pre & -> & Hp & Hr). exists (x :: pre). split; [done|]. split; [|done].
  intros y [->|Hy]%elem_of_cons; auto.
Qed.

Lemma consumed_nil max : consumed max [] [].
Proof. exists []. split; [done|]. split; by intros ? ?%elem_of_nil. Qed.

(** The head alone is consumed up to itself. *)
Lemma consumed_tail x arr : increasing (x :: arr) -> consumed x (x :: arr) arr.
Proof.
  intros [_ H]%increasing_tail. exists [x]. split; [done|]. split; [|done].
  intros y ->%list_elem_of_singleton. lia.
Qed.

(** ** One leaf *)

Section mono_spec.
Context {S : Type} (f : S -> Z -> S * (bool * Z)) (e : S).

Lemma leaf_mono_spec n bs max arr st :
  bs_wf bs -> increasing arr -> Forall word arr -> pending f arr st e -> (length arr < n)%nat ->
  exists bs' st' rest, leaf_mono_loop f n bs max st = Some (bs', st') /\ pending f rest st' e /\
    consumed max arr rest /\ bs_wf bs' /\
    forall i, 0 <= i < 128 ->
      leaf_bit bs' i = true <->
      leaf_bit bs i = true \/ exists x, x ∈ arr /\ x <= max /\ x mod 128 = i.
Proof.
  revert bs arr st. induction n as [|n IH]; intros bs arr st Hb Hs Hw Hp Hn; [lia|].
  cbn [leaf_mono_loop]. destruct arr as [|x arr].
  { destruct Hp as [v ->]. exists bs, (e, false, v), []. split_and!; try done; [by exists v|apply consumed_nil|].
    intros i Hi. split; [by left|]. by intros [|(? & ?%elem_of_nil & _)]. }
  destruct Hp as (s & -> & Hy). cbn [andb]. destruct (Z.leb_spec x max) as [Hle|Hgt].
  - rewrite land_BITSET_MASK. pose proof (Z.mod_pos_bound x 128).
    destruct (bitset_insert_spec bs (x mod 128) Hb) as [Hb1 Hs1]; [lia|]. cbn zeta in *.
    set (bs1 := bitset_update _ _ _) in *.
    destruct (yields_pending f arr s x e Hy) as (s' & h & nx & -> & Hp').
    pose proof (increasing_tail _ _ Hs) as [Hs' _].
    destruct (IH bs1 arr (s', h, nx)) as (bs' & st' & rest & -> & Hr & Hc & Hb' & Hbits); try done.
    { by inversion Hw. }
    { simpl in Hn. lia. }
    exists bs', st', rest. split_and!; try done; [by apply consumed_cons|].
    intros i Hi. rewrite Hbits, Hs1, orb_true_iff, Z.eqb_eq by done. setoid_rewrite elem_of_cons. split.
    + intros [[?| ->]|(y & ? & ? & ?)]; [by left|right; exists x; auto|right; exists y; auto].
    + intros [?|(y & [->|?] & ? & ?)]; [auto|auto|right; eauto].
  - exists bs, (s, true, x), (x :: arr). split_and!; try done; [by exists s| |].
    { by apply consumed_none; [apply increasing_ascending|]. }
    intros i Hi. split; [by left|]. intros [|(y & Hyin & ? & _)]; [done|].
    pose proof (ascending_head _ _ _ (increasing_ascending _ Hs) Hyin). lia.
Qed.

Lemma leaf_from_monotonic_spec n max c arr st :
  increasing (c :: arr) -> Forall word (c :: arr) -> key_is_leaflike c = true ->
  max mod 128 = 127 -> c <= max -> pending f (c :: arr) st e -> (length (c :: arr) < n)%nat ->
  exists u st' rest, ucleaf_from_monotonic f n st max = Some (u, st') /\ pending f rest st' e /\
    consumed (c - c mod 128 + 127) (c :: arr) rest /\ wf u /\ root u = c - c mod 128 + 64 /\
    forall x, mem u x = true <-> x ∈ c :: arr /\ x <= c - c mod 128 + 127.
Proof.
  intros Hs Hw Hl Hmax Hle Hp Hn. pose proof Hp as (s & -> & _).
  pose proof (words_head _ _ Hw) as Hwc. pose proof (increasing_ascending _ Hs) as Ha.
  (* the same keys from an array give the same leaf *)
  destruct (leaf_from_sorted_spec c arr Ha Hw Hl) as (u & rest0 & Eu & Hc0 & Wu & Ru & Mu).
  unfold ucset_leaf_from_sorted_array in Eu.
  unfold ucleaf_from_monotonic. fold (leaf_key c).
  replace (c ||| BITSET_MASK) with (c - c mod 128 + 127); cycle 1.
  { change BITSET_MASK with (Z.ones 7). by rewrite lor_ones. }
  replace (Z.min max (c - c mod 128 + 127)) with (c - c mod 128 + 127) by dlia.
  destruct (leaf_mono_spec n (replicate BITSET_SIZEW 0) (c - c mod 128 + 127) (c :: arr) (s, true, c))
    as (bs & st' & rest & -> & Hr & Hc & Hb & Hbits); try done; [apply bs_wf_zero|].
  destruct (leaf_loop_spec (Datatypes.S (length (c :: arr))) (replicate BITSET_SIZEW 0) c (c - c mod 128 + 127) arr)
    as (bs0 & rest1 & E1 & Hc1 & Hb1 & Hbits1); try done; [apply bs_wf_zero|dlia|lia|].
  replace (c ||| BITSET_MASK) with (c - c mod 128 + 127) in Eu; cycle 1.
  { change BITSET_MASK with (Z.ones 7). by rewrite lor_ones. }
  rewrite E1 in Eu. cbn [mbind option_bind] in Eu. injection Eu as <- <-.
  assert (bs = bs0) as ->.
  { apply leaf_bit_ext; [done..|]. intros i Hi. apply eq_true_iff_eq. by rewrite Hbits, Hbits1. }
  eexists _, st', rest. split; [done|]. by split_and!.
Qed.
End mono_spec.

(** ** Spans *)

Lemma span_of_spec k x :
  word k -> word x -> k < x ->
  let j := key_join k x in span_of k x = (j, khi j) /\ word j /\ j <> 0 /\ j - lb j <= k < j /\ j <= x <= khi j.
Proof.
  intros Hk Hx Hlt. cbn zeta.
  destruct (key_join_base k x) as (_ & Hj & Hn & R0 & R1 & El); [done..|]. cbn zeta in *.
  assert (Hd : word (k ^^^ x)) by auto with wordb. unfold word in Hk, Hx, Hd.
  assert (Hd0 : k ^^^ x <> 0) by (intros E; apply Z.lxor_eq in E; lia).
  assert (Ht : 0 <= Z.log2 (k ^^^ x) < 64).
  { split; [apply Z.log2_nonneg|]. apply Z.log2_lt_pow2; lia. }
  set (t := Z.log2 (k ^^^ x)) in *.
  assert (Edc : cu_uintptr_dcover (k ^^^ x) = Z.ones (t + 1)).
  { unfold cu_uintptr_dcover. by rewrite cu_uint64_dcover_cover, cover_mask_ones by (done || lia). }
  pose proof (pow2_pos t) as Hpt. pose proof (pow2_succ t) as Hst.
  (* the join as a number *)
  assert (Ej : key_join k x - lb (key_join k x) = k - k mod 2 ^ (t + 1)).
  { destruct (key_odd _ Hj Hn) as (b & m & Hb & Hm & E & E').
    assert (b = t) as -> by (apply (Z.pow_inj_r 2); [lia|lia|lia|congruence]).
    pose proof (Z.div_mod k (2 ^ (t + 1))). pose proof (Z.mod_pos_bound k (2 ^ (t + 1))).
    assert (k / 2 ^ (t + 1) = m); [|lia]. symmetry.
    apply Z.div_unique with (r := k - 2 ^ (t + 1) * m); [left; lia|lia]. }
  split; [|unfold khi; split_and!; done || lia].
  unfold span_of. cbn zeta. rewrite (proj2 (Z.eqb_neq _ 0)) by done. cbn [negb]. rewrite Edc.
  rewrite land_wnot_ones, lor_ones by (done || lia).
  assert (E1 : Z.ones (t + 1) >>> 1 = 2 ^ t - 1).
  { rewrite Z.shiftr_div_pow2, Z.ones_equiv, Hst by lia.
    replace (Z.pred (2 * 2 ^ t)) with (1 + (2 ^ t - 1) * 2 ^ 1) by lia. by rewrite Z.div_add by lia. }
  assert (2 ^ t < 2 ^ 64) by (apply Z.pow_lt_mono_r; lia).
  rewrite E1, (wadd_small (2 ^ t - 1)) by (unfold word; lia). rewrite <- Ej.
  unfold wadd at 1. replace (key_join k x - lb (key_join k x) + (2 ^ t - 1 + 1)) with (key_join k x) by lia.
  rewrite (wrap_small (key_join k x)) by done.
  f_equal. unfold khi. rewrite Z.ones_equiv, Hst by lia. lia.
Qed.

(** The span of a key inside the interval of a root and a key beyond it. *)
Lemma next_span r k x :
  word r -> r <> 0 -> r mod 64 = 0 -> word k -> klo r <= k <= khi r -> word x -> khi r < x ->
  let j := key_join k x in
  span_of k x = (j, khi j) /\ word j /\ j <> 0 /\ j mod 128 = 0 /\ klo j <= r < j /\ j <= x <= khi j.
Proof.
  intros Hr H0 Hm Hk Hkr Hx Hgt. cbn zeta.
  destruct (span_of_spec k x Hk Hx) as (Es & Hj & Hj0 & Jl & Jr); [lia|]. cbn zeta in *.
  set (j := key_join k x) in *. pose proof (klo_khi r Hr H0). pose proof (klo_khi j Hj Hj0).
  assert (Hin : klo j <= r < j /\ key_covers j r = true).
  { destruct (root_viewP r j) as [E|I0 I1 L|I0 I1 L|I0 I1 L|I0 I1 L|D L C C'|D L C C']; try done.
    - pose proof (f_equal khi E). lia.
    - split; [lia|done].
    - lia.
    - lia.
    - lia.
    - exfalso. destruct (key_odd j Hj Hj0) as (b & m & Hb & Hm' & E & E').
      assert (64 <= lb r).
      { change 64 with (2 ^ 6). apply (lb_ge_divisor r (r / 64)); try done. change (2 ^ 6) with 64. dlia. }
      destruct (key_odd r Hr H0) as (a & m1 & Ha & Hm1 & Er & Er').
      assert (6 <= a) by (apply (Z.pow_le_mono_r_iff 2); [lia..|]; change (2 ^ 6) with 64; lia).
      assert (klo j <= j - lb j + 1) by (unfold klo; destruct (Z.eqb_spec (j - lb j) 0); lia).
      assert (k = j - lb j) as Ek by lia. assert (k = khi r) as Ekr by lia.
      unfold khi in Ekr. rewrite Er', Er in Ekr. rewrite E', E in Ek.
      replace a with (1 + (a - 1)) in Ekr by lia. rewrite Z.pow_add_r in Ekr by lia. lia.
    - lia. }
  destruct Hin as [Hin Hcov]. split_and!; try done; try lia.
  apply (covers_is_node j r); try done. lia.
Qed.

(** ** The recursion *)

Section mono_tree.
Context {S : Type} (f : S -> Z -> S * (bool * Z)) (e : S).

Definition mono_body_spec (n : nat) : Prop := forall lo max arr st,
  increasing arr -> Forall word arr -> (forall x, x ∈ arr -> lo <= x) -> closed lo max ->
  pending f arr st e -> (3 * length arr + 1 <= n)%nat ->
  exists u st' rest, ucset_from_monotonic f n st max = Some (u, st') /\ pending f rest st' e /\
    consumed max arr rest /\ wf u /\ forall x, mem u x = true <-> x ∈ arr /\ x <= max.

Definition mono_loop_spec (n : nat) : Prop := forall lo max lk r node arr st,
  increasing arr -> Forall word arr -> closed lo max -> pending f arr st e ->
  wf node -> is_null node = false -> root node = r -> word lk -> klo r <= lk <= khi r ->
  lo <= r <= max -> (forall x, x ∈ arr -> khi r < x) -> (3 * length arr + 2 <= n)%nat ->
  exists u st' rest, from_monotonic_loop f n st max lk node = Some (u, st') /\ pending f rest st' e /\
    consumed max arr rest /\ wf u /\
    forall x, mem u x = true <-> mem node x = true \/ (x ∈ arr /\ x <= max).

Lemma from_monotonic_loop_S n s have_next next_key max lk lt :
  from_monotonic_loop f (Datatypes.S n) (s, have_next, next_key) max lk lt =
  if have_next && (next_key <=? max) then
    let '(span_key, span_max) := span_of lk next_key in
    let '(stored, st) :=
      if span_key =? next_key then
        let '(s, (have_next, next_key)) := f s next_key in
        (span_key ||| 1, (s, have_next, next_key))
      else (span_key, (s, have_next, next_key)) in
    '(rt, st) ← ucset_from_monotonic f n st span_max;
    from_monotonic_loop f n st max lk (ucnode_new stored lt rt)
  else Some (lt, (s, have_next, next_key)).
Proof. reflexivity. Qed.

Lemma from_monotonic_S n s have_next next_key max :
  ucset_from_monotonic f (Datatypes.S n) (s, have_next, next_key) max =
  if negb have_next || (max <? next_key) then Some (Null, (s, have_next, next_key))
  else
    '(left_key, lt, st) ←
      (if key_is_leaflike next_key then
         '(lt, st) ← ucleaf_from_monotonic f n (s, have_next, next_key) max;
         Some (ucnode_key (skey lt), lt, st)
       else Some (wsub next_key 1, Null, (s, have_next, next_key)));
    from_monotonic_loop f n st max left_key lt.
Proof. reflexivity. Qed.

(** One iteration, with the span's key [j]. *)
Lemma mono_step n lo max lk j node x arr s :
  mono_body_spec n -> mono_loop_spec n ->
  span_of lk x = (j, khi j) -> word j -> j <> 0 -> j mod 128 = 0 -> j <= x <= khi j ->
  closed lo max -> lo <= j -> x <= max -> word lk -> klo j <= lk <= khi j ->
  wf node -> (forall y, mem node y = true -> klo j <= y < j) -> x = j \/ is_null node = false ->
  increasing (x :: arr) -> Forall word (x :: arr) -> yields f arr s e ->
  (3 * length arr + 2 <= n)%nat -> (x <> j -> 3 * length arr + 4 <= n)%nat ->
  exists u st' rest, from_monotonic_loop f (Datatypes.S n) (s, true, x) max lk node = Some (u, st') /\
    pending f rest st' e /\ consumed max (x :: arr) rest /\ wf u /\
    forall y, mem u y = true <-> mem node y = true \/ (y ∈ x :: arr /\ y <= max).
Proof.
  intros HB HL Es Hj Hj0 Hjm Jr Hcl Hlo Hmx Hlk Hlkr Wn Bn Hfl Hs Hw Hy Hn Hn'.
  rewrite from_monotonic_loop_S. cbn [andb]. rewrite (proj2 (Z.leb_le x max)), Es by done.
  pose proof (klo_khi j Hj Hj0) as (_ & Hjk & _). pose proof (increasing_ascending _ Hs) as Ha.
  assert (Hjmax : khi j <= max) by (apply Hcl; done || lia).
  assert (H1 : exists st1 arr1,
    (if j =? x then let '(s, (have_next, next_key)) := f s x in (j ||| 1, (s, have_next, next_key))
     else (j, (s, true, x))) = (node_key j (j =? x), st1) /\ pending f arr1 st1 e /\
    consumed j (x :: arr) arr1 /\ (3 * length arr1 + 1 <= n)%nat).
  { destruct (Z.eqb_spec j x) as [<-|Hne].
    - destruct (yields_pending f arr s j e Hy) as (s' & h & nx & -> & Hp').
      exists (s', h, nx), arr. split_and!; try done; [by apply consumed_tail|lia].
    - exists (s, true, x), (x :: arr). split_and!; try done; [by exists s|apply consumed_none; [done|lia]|].
      simpl. specialize (Hn' ltac:(congruence)). lia. }
  destruct H1 as (st1 & arr1 & E1 & Hp1 & Hc1 & Hlen1). cbv beta iota. rewrite E1. cbv beta iota.
  destruct (HB (j + 1) (khi j) arr1 st1) as (r & st2 & arr2 & -> & Hp2 & Hc2 & Wr & Mr); try done.
  { by apply (consumed_increasing _ _ _ Hc1). }
  { by apply (consumed_words _ _ _ Hc1). }
  { intros y Hyin%(consumed_elem _ _ _ _ Hc1). lia. }
  { by apply closed_node. }
  cbn [mbind option_bind]. unfold ucnode_new.
  assert (Mr' : forall y, mem r y = true <-> y ∈ x :: arr /\ j < y <= khi j).
  { intros y. rewrite Mr, (consumed_elem _ _ _ _ Hc1). intuition lia. }
  destruct (wf_node_mk j (j =? x) node r) as [Hwf' _].
  { split_and!; try done. intros y Hyin%Mr'. lia. }
  { destruct (Z.eqb_spec j x); [by left|]. right. split; [by destruct Hfl|]. apply (mem_not_null _ x).
    apply Mr'. split; [by left|lia]. }
  assert (Hc12 : consumed (khi j) (x :: arr) arr2) by by apply (consumed_trans j _ _ arr1).
  pose proof (consumed_length_lt _ _ _ x Hc12 (list_elem_of_here _ _)) as Hlen2. simpl in Hlen2.
  destruct (HL lo max lk j (Node (node_key j (j =? x)) node r) arr2 st2)
    as (u & st' & rest & -> & Hp3 & Hc3 & Wu & Mu); try done; [| | |lia| |lia|].
  { by apply (consumed_increasing _ _ _ Hc12). }
  { by apply (consumed_words _ _ _ Hc12). }
  { unfold root. cbn [skey]. apply node_key_spec; [done|dlia]. }
  { intros y Hyin%(consumed_elem _ _ _ _ Hc12). lia. }
  exists u, st', rest. split; [done|]. split; [done|].
  split; [by apply (consumed_trans (khi j) _ _ arr2)|]. split; [done|].
  intros y. rewrite Mu, mem_node_key, !orb_true_iff, Mr', andb_true_iff, !Z.eqb_eq by done.
  rewrite (consumed_elem _ _ _ _ Hc12). split.
  - intros [[[[? ?]|?]|[? ?]]|[[? ?] ?]]; [right|by left|right; split; [done|lia]..].
    assert (y = x) as -> by lia. split; [by left|lia].
  - intros [?|[Hyin Hle]]; [tauto|]. pose proof (ascending_head _ _ _ Ha Hyin).
    destruct (Z.lt_trichotomy y j) as [|[|]]; [lia| |].
    + left. left. left. lia.
    + destruct (Z.le_gt_cases y (khi j)); [left; right; auto|right; auto].
Qed.

Lemma mono_loop_step n : mono_body_spec n -> mono_loop_spec n -> mono_loop_spec (Datatypes.S n).
Proof.
  intros HB HL lo max lk r node arr st Hs Hw Hcl Hp Wn Nn Rn Hlk Hlkr Hr Hgt Hn.
  destruct arr as [|x arr].
  { destruct Hp as [v ->]. rewrite from_monotonic_loop_S. exists node, (e, false, v), [].
    split; [done|]. split; [by exists v|].
    split; [apply consumed_nil|]. split; [done|]. intros x. split; [by left|]. by intros [|[?%elem_of_nil _]]. }
  destruct Hp as (s & -> & Hy). pose proof (words_head _ _ Hw) as Hwx.
  pose proof (Hgt x (list_elem_of_here _ _)) as Hx. pose proof (increasing_ascending _ Hs) as Ha.
  destruct (Z.le_gt_cases x max) as [Hle|Hgtm].
  - destruct (wf_root node Wn Nn) as (Hrw & Hr0 & _). rewrite Rn in Hrw, Hr0.
    pose proof (root_mod node Wn) as Hrm. rewrite Rn in Hrm.
    destruct (next_span r lk x) as (Es & Hj & Hj0 & Hjm & Jl & Jr); [done..|].
    cbn zeta in *. set (j := key_join lk x) in *. pose proof (klo_khi j Hj Hj0).
    destruct (nested_left j r) as [N0 N1]; [done..|].
    simpl in Hn. apply (mono_step n lo max lk j); try done; try lia; [|by right].
    intros y. apply left_bound; [done..|by rewrite Rn].
  - rewrite from_monotonic_loop_S. cbn [andb]. rewrite (proj2 (Z.leb_gt x max)) by lia.
    exists node, (s, true, x), (x :: arr). split; [done|]. split; [by exists s|].
    split; [by apply consumed_none|]. split; [done|].
    intros y. split; [by left|]. intros [|[Hyin ?]]; [done|]. pose proof (ascending_head _ _ _ Ha Hyin). lia.
Qed.

Lemma mono_body_step n :
  mono_body_spec n -> mono_loop_spec n -> mono_body_spec (Nat.pred n) -> mono_loop_spec (Nat.pred n) ->
  mono_body_spec (Datatypes.S n).
Proof.
  intros HB HL HB' HL' lo max arr st Hs Hw Hlo Hcl Hp Hn.
  destruct arr as [|c arr].
  { destruct Hp as [v ->]. rewrite from_monotonic_S. exists Null, (e, false, v), []. split; [done|]. split; [by exists v|].
    split; [apply consumed_nil|]. split; [done|]. intros x. split; [done|]. by intros [?%elem_of_nil _]. }
  destruct Hp as (s & -> & Hy). pose proof (words_head _ _ Hw) as Hwc.
  pose proof (Hlo c (list_elem_of_here _ _)) as Hloc. pose proof (increasing_ascending _ Hs) as Ha.
  rewrite from_monotonic_S. cbn [negb orb]. destruct (Z.ltb_spec max c) as [Hmx|Hmx].
  { exists Null, (s, true, c), (c :: arr). split; [done|]. split; [by exists s|].
    split; [by apply consumed_none|]. split; [done|].
    intros y. split; [done|]. intros [Hyin ?]. pose proof (ascending_head _ _ _ Ha Hyin). lia. }
  simpl length in Hn. pose proof Hcl as (Hlm & Hwm & Hmm & _).
  destruct (key_is_leaflike c) eqn:El.
  - destruct (leaf_from_monotonic_spec f e n max c arr (s, true, c))
      as (lt & st1 & arr1 & -> & Hp1 & Hc1 & Wl & Rl & Ml); try done; [by exists s|simpl; lia|].
    cbn [mbind option_bind]. fold (root lt). rewrite Rl.
    assert (Hkw : word (c - c mod 128 + 64)) by (unfold word in *; dlia).
    assert (Elb : lb (c - c mod 128 + 64) = 64) by (apply lb_leaf; [done|dlia]).
    assert (Ehi : khi (c - c mod 128 + 64) = c - c mod 128 + 127) by (unfold khi; lia).
    pose proof (klo_khi (c - c mod 128 + 64) Hkw ltac:(unfold word in *; dlia)).
    pose proof (consumed_length_lt _ _ _ c Hc1 (list_elem_of_here _ _) ltac:(dlia)) as Hlen. simpl in Hlen.
    destruct (HL lo max (c - c mod 128 + 64) (c - c mod 128 + 64) lt arr1 st1)
      as (u & st' & rest & -> & Hp2 & Hc2 & Wu & Mu); try done; try lia; try dlia.
    { by apply (consumed_increasing _ _ _ Hc1). }
    { by apply (consumed_words _ _ _ Hc1). }
    { apply (mem_not_null _ c). apply Ml. split; [by left|dlia]. }
    { intros y Hyin. rewrite Ehi. by apply (consumed_elem _ _ _ _ Hc1) in Hyin as [_ ?]. }
    exists u, st', rest. split; [done|]. split; [done|].
    split; [apply (consumed_trans (c - c mod 128 + 127) _ _ arr1); [dlia|done..]|]. split; [done|].
    intros x. rewrite Mu, Ml, (consumed_elem _ _ _ _ Hc1). split.
    + intros [[? ?]|[[? ?] ?]]; (split; [done|dlia]).
    + intros [? ?]. destruct (Z.le_gt_cases x (c - c mod 128 + 127)); [auto|right; split; [split; [done|lia]|done]].
  - apply not_leaflike in El as [Hc0 Hcm]; [|done]. cbn [mbind option_bind].
    rewrite wsub_1 by done. destruct n as [|n]; [lia|]. cbn [Nat.pred] in HB', HL'.
    pose proof (klo_khi c Hwc Hc0). destruct (lb_mod c Hwc Hc0) as [[Hlb _] _]; [done|].
    destruct (span_of_spec (c - 1) c) as (Es & Hj & Hj0 & Jl & Jr); [unfold word in *; lia|done|lia|].
    cbn zeta in *.
    assert (Ej : key_join (c - 1) c = c) by lia. rewrite Ej in *.
    assert (Hcl1 : klo c <= c - 1) by (unfold klo; destruct (Z.eqb_spec (c - lb c) 0); lia).
    destruct (mono_step n lo max (c - 1) c Null c arr s)
      as (u & st' & rest & Eu & Hp' & Hc' & Wu & Mu);
      try done; try lia; try (by left); try (unfold word in *; lia).
    exists u, st', rest. split_and!; try done. intros x. rewrite Mu. cbn [mem]. intuition congruence.
Qed.

Lemma mono_specs n : mono_body_spec n /\ mono_loop_spec n.
Proof.
  enough (H : forall n, (mono_body_spec n /\ mono_loop_spec n) /\
    (mono_body_spec (Nat.pred n) /\ mono_loop_spec (Nat.pred n))) by apply H.
  clear n. intros n. induction n as [|n [[HB HL] [HB' HL']]].
  - cbn [Nat.pred]. assert (mono_body_spec 0 /\ mono_loop_spec 0); [|done].
    split; [intros lo max arr st _ _ _ _ _ ?|intros lo max lk r node arr st _ _ _ _ _ _ _ _ _ _ _ ?]; lia.
  - cbn [Nat.pred]. split; [|done]. split; [by apply mono_body_step|by apply mono_loop_step].
Qed.

(** The whole sequence of a callback. *)
Lemma from_monotonic_spec n arr st :
  increasing arr -> Forall word arr -> pending f arr st e -> (3 * length arr + 1 <= n)%nat ->
  exists u v, ucset_from_monotonic f n st UINTPTR_MAX = Some (u, (e, false, v)) /\ wf u /\
    forall x, mem u x = true <-> x ∈ arr.
Proof.
  intros Hs Hw Hp Hn. assert (Hwx : forall x, x ∈ arr -> word x) by by apply list.Forall_forall.
  destruct (mono_specs n) as [HB _].
  destruct (HB 0 UINTPTR_MAX arr st) as (u & st' & rest & E & Hr & Hc & Wu & Mu); try done.
  { intros x Hx. by apply Hwx. }
  { apply closed_top. }
  assert (rest = []) as ->.
  { apply elem_of_nil_inv. intros x [Hx Hgt]%(consumed_elem _ _ _ _ Hc).
    specialize (Hwx x Hx). unfold word, UINTPTR_MAX in *. lia. }
  destruct Hr as [v ->]. exists u, v. split; [done|]. split; [done|]. intros x. rewrite Mu.
  split; [by intros [? _]|]. intros Hx. split; [done|]. specialize (Hwx x Hx).
  unfold word, UINTPTR_MAX in *. lia.
Qed.
End mono_tree.

(** ** Translation *)

Section translate.
Context (s : ucset) (diff : Z).

Definition shift (x : Z) : Z := wadd x (wrap diff).

Lemma shift_wrap x : shift x = wrap (x + diff).
Proof. unfold shift, wadd. apply wrap_add_r. Qed.

(** Adding the constant wraps beyond [cut], and is monotonic on either side. *)
Definition cut : Z := wrap (- diff - 1).

Lemma cut_spec x : word x -> shift x = if x <=? cut then x + wrap diff else x + wrap diff - 2 ^ 64.
Proof.
  intros Hx. unfold shift, cut, wadd. pose proof (word_wrap diff) as Hd.
  assert (E : wrap (- diff - 1) = 2 ^ 64 - 1 - wrap diff).
  { unfold wrap. symmetry. apply Z.mod_unique with (q := - (diff / 2 ^ 64) - 1); [left; unfold wrap, word in Hd; lia|].
    pose proof (Z.div_mod diff (2 ^ 64)). lia. }
  rewrite E. unfold word in *. destruct (Z.leb_spec x (2 ^ 64 - 1 - wrap diff)).
  - apply wrap_small. unfold word. lia.
  - unfold wrap at 1. symmetry. apply Z.mod_unique with (q := 1); [left; lia|lia].
Qed.

Lemma shift_word x : word (shift x).
Proof. apply word_wadd. Qed.

Lemma shift_increasing xs :
  increasing xs -> Forall word xs ->
  (forall x, x ∈ xs -> x <= cut) \/ (forall x, x ∈ xs -> cut < x) -> increasing (map shift xs).
Proof.
  induction xs as [|x xs IH]; intros Hs Hw Hc; [by constructor|]. cbn [map].
  pose proof (increasing_tail _ _ Hs) as [Hs' Hlt]. apply StronglySorted_cons. split.
  - apply list.Forall_forall. intros y Hy.
    apply list_elem_of_In, in_map_iff in Hy as (z & <- & Hz). apply list_elem_of_In in Hz.
    specialize (Hlt z Hz). pose proof (words_head _ _ Hw).
    assert (word z) by (apply (proj1 (list.Forall_forall _ _) Hw); by right).
    rewrite !cut_spec by done. assert (x ∈ x :: xs) by by left. assert (z ∈ x :: xs) by by right.
    destruct Hc as [Hc|Hc]; pose proof (Hc x ltac:(done)); pose proof (Hc z ltac:(done));
      bits_split; lia.
  - apply IH; [done|by inversion Hw|]. destruct Hc as [Hc|Hc]; [left|right]; intros y Hy; apply Hc; by right.
Qed.

Lemma shift_words xs : Forall word (map shift xs).
Proof. induction xs as [|x xs IH]; constructor; [apply shift_word|done]. Qed.

(** What the helper delivers: the shifted elements up to its [clip_max]. *)
Lemma helper_yields m itr b v :
  itr_ok s itr ->
  exists pre e, yields (ucset_translate_helper diff) (map shift pre) (mk_helper itr m b v) e /\
    (forall x, x ∈ pre -> x <= m) /\
    ((remaining itr = pre /\ cut_have_next e = b) \/
     exists w, remaining itr = pre ++ w :: remaining (h_itr e) /\ m < w /\ cut_have_next e = true /\
       cut_next_val e = w /\ itr_ok s (h_itr e)).
Proof.
  remember (remaining itr) as R eqn:HR. revert itr HR. induction R as [|x R IH]; intros itr HR Hok.
  - exists [], (mk_helper itr m b v). split; [|split; [by intros ? ?%elem_of_nil|by left]].
    intros o. exists o. unfold ucset_translate_helper. cbn [h_itr].
    by rewrite (proj2 (at_end_spec s itr Hok)).
  - assert (E : cucon_ucset_itr_at_end itr = false).
    { destruct (cucon_ucset_itr_at_end itr) eqn:E; [|done]. apply (at_end_spec s itr Hok) in E. congruence. }
    pose proof (get_spec s itr Hok E) as Hg.
    destruct (cucon_ucset_itr_get itr) as [x' itr'] eqn:Eg. destruct Hg as [Hr Hok'].
    rewrite Hr in HR. injection HR as <- HR.
    destruct (Z.lt_ge_cases m x) as [Hgt|Hle].
    + exists [], (mk_helper itr' m true x). split.
      { intros o. exists o. unfold ucset_translate_helper. cbn [h_itr clip_max]. rewrite E, Eg.
        cbn [clip_max]. by rewrite (proj2 (Z.ltb_lt m x)). }
      split; [by intros ? ?%elem_of_nil|]. right. exists x. cbn [h_itr cut_have_next cut_next_val].
      by rewrite HR.
    + destruct (IH itr' HR Hok') as (pre & e & Hy & Hpre & Hend). exists (x :: pre), e. split.
      { exists (mk_helper itr' m b v). split; [|done]. intros o. unfold ucset_translate_helper.
        cbn [h_itr clip_max]. rewrite E, Eg. cbn [clip_max cut_have_next cut_next_val].
        by rewrite (proj2 (Z.ltb_ge m x)). }
      split; [intros y [->|?]%elem_of_cons; auto|].
      destruct Hend as [[-> ?]|(w & -> & ?)]; [by left|right]. by exists w.
Qed.

Lemma skip_spec n itr lo hi :
  itr_ok s itr -> increasing (remaining itr) -> (length (remaining itr) < n)%nat ->
  match translate_skip n itr lo hi with
  | None => forall x, x ∈ remaining itr -> lo <= x <= hi -> False
  | Some (x, itr') => lo <= x <= hi /\ itr_ok s itr' /\
      exists pre, remaining itr = pre ++ x :: remaining itr' /\ forall y, y ∈ pre -> y < lo
  end.
Proof.
  revert itr. induction n as [|n IH]; intros itr Hok Hs Hn; [lia|]. cbn [translate_skip].
  destruct (cucon_ucset_itr_at_end itr) eqn:E.
  { rewrite (proj1 (at_end_spec s itr Hok) E). by intros x ?%elem_of_nil. }
  pose proof (get_spec s itr Hok E) as Hg. destruct (cucon_ucset_itr_get itr) as [x itr'].
  destruct Hg as [Hr Hok']. rewrite Hr in *. pose proof (increasing_tail _ _ Hs) as [Hs' Hlt].
  destruct (Z.ltb_spec hi x).
  { intros y [->|Hy]%elem_of_cons Hyr; [lia|]. specialize (Hlt y Hy). lia. }
  destruct (Z.ltb_spec x lo).
  - specialize (IH itr' Hok' Hs'). simpl in Hn. destruct (translate_skip n itr' lo hi) as [[x0 itr0]|].
    + destruct IH as (Hx & Ho & pre & -> & Hp); [lia|]. split; [done|]. split; [done|].
      exists (x :: pre). split; [done|]. intros y [->|Hy]%elem_of_cons; auto.
    + intros y [->|Hy]%elem_of_cons Hyr; [lia|]. apply (IH ltac:(lia) y); done.
  - split; [lia|]. split; [done|]. exists []. split; [done|]. by intros y ?%elem_of_nil.
Qed.

(** One run of [_ucset_from_monotonic] from the pending element [x]. *)
Lemma run_spec n itr m b v x :
  itr_ok s itr -> increasing (x :: remaining itr) -> Forall word (x :: remaining itr) ->
  (3 * length (x :: remaining itr) + 1 <= n)%nat ->
  m <= cut \/ cut < x ->
  exists u e z pre, ucset_from_monotonic (ucset_translate_helper diff) n
      (mk_helper itr m b v, true, shift x) UINTPTR_MAX = Some (u, (e, false, z)) /\
    wf u /\ (forall y, mem u y = true <-> exists a, a ∈ x :: pre /\ y = shift a) /\
    (forall a, a ∈ pre -> a <= m) /\
    ((remaining itr = pre /\ cut_have_next e = b) \/
     exists w, remaining itr = pre ++ w :: remaining (h_itr e) /\ m < w /\ cut_have_next e = true /\
       cut_next_val e = w /\ itr_ok s (h_itr e)).
Proof.
  intros Hok Hs Hw Hn Hm. destruct (helper_yields m itr b v Hok) as (pre & e & Hy & Hpre & Hend).
  assert (Hsub : exists rest, remaining itr = pre ++ rest).
  { destruct Hend as [[-> _]|(w & -> & _)]; [exists []; by rewrite app_nil_r|eauto]. }
  destruct Hsub as [rest Er]. rewrite Er in Hs, Hw, Hn.
  change (x :: pre ++ rest) with ((x :: pre) ++ rest) in *.
  assert (Hs1 : increasing (x :: pre)) by by apply StronglySorted_app in Hs as (_ & ? & _).
  assert (Hw1 : Forall word (x :: pre)) by by apply list.Forall_app in Hw as [? _].
  destruct (from_monotonic_spec (ucset_translate_helper diff) e n (map shift (x :: pre))
    (mk_helper itr m b v, true, shift x)) as (u & z & E & Wu & Mu).
  - destruct pre as [|y pre]; [by repeat constructor|]. apply shift_increasing; [done..|].
    pose proof (increasing_tail _ _ Hs1) as [_ Hlt].
    pose proof (Hpre y (list_elem_of_here _ _)). pose proof (Hlt y (list_elem_of_here _ _)).
    destruct Hm as [Hm|Hm].
    + left. intros a [->|Ha]%elem_of_cons; [lia|]. specialize (Hpre a Ha). lia.
    + right. intros a [->|Ha]%elem_of_cons; [lia|]. specialize (Hlt a Ha). lia.
  - apply shift_words.
  - exists (mk_helper itr m b v). split; [done|]. exact Hy.
  - rewrite length_map. rewrite length_app in Hn. lia.
  - exists u, e, z, pre. split_and!; try done. intros y. rewrite Mu, list_elem_of_In, in_map_iff.
    split; intros (a & H1 & H2); exists a; [by split; [apply list_elem_of_In|]|by split; [|apply list_elem_of_In]].
Qed.
End translate.

Lemma consumed_split_words (l1 l2 : list Z) : Forall word (l1 ++ l2) -> Forall word l1 /\ Forall word l2.
Proof. apply list.Forall_app. Qed.

Lemma increasing_app_r l1 l2 : increasing (l1 ++ l2) -> increasing l2.
Proof. apply StronglySorted_app_1_r. Qed.

Lemma increasing_mid l1 x l2 : increasing (l1 ++ x :: l2) -> (forall y, y ∈ l1 -> y < x) /\ (forall y, y ∈ l2 -> x < y).
Proof.
  intros (H & _ & [Hf _]%StronglySorted_cons)%StronglySorted_app. split.
  - intros y Hy. apply H; [done|by left].
  - by apply list.Forall_forall.
Qed.

(** The elements in range, shifted. *)
Definition shifted (s : ucset) (diff lo hi y : Z) : Prop :=
  exists x, mem s x = true /\ lo <= x <= hi /\ y = shift diff x.

Lemma translate_uclip_spec s diff lo hi :
  wf s -> word hi ->
  wf (cucon_ucset_translate_uclip s diff lo hi) /\
  forall y, mem (cucon_ucset_translate_uclip s diff lo hi) y = true <-> shifted s diff lo hi y.
Proof.
  intros Hs Hhi. pose proof (elems_sorted s Hs) as Hsorted.
  destruct (init_spec s Hs) as [Hok Hr]. rewrite <- Hr in Hsorted.
  assert (Hwords : Forall word (remaining (cucon_ucset_itr_init s))).
  { rewrite Hr. apply list.Forall_forall. intros x Hx%elem_of_elems. by apply (mem_word s). }
  assert (Hsh : forall y, shifted s diff lo hi y <->
    exists x, x ∈ remaining (cucon_ucset_itr_init s) /\ lo <= x <= hi /\ y = shift diff x).
  { intros y. unfold shifted. rewrite Hr. by setoid_rewrite elem_of_elems. }
  setoid_rewrite Hsh. clear Hsh.
  assert (Hfuel : (3 * length (remaining (cucon_ucset_itr_init s)) + 1 <= translate_fuel s)%nat).
  { rewrite Hr. unfold translate_fuel. lia. }
  unfold cucon_ucset_translate_uclip. fold (cut diff).
  pose proof (skip_spec s (translate_fuel s) (cucon_ucset_itr_init s) lo hi Hok Hsorted) as Hskip.
  destruct (translate_skip _ _ lo hi) as [[x itr]|].
  2:{ split; [done|]. intros y. split; [done|]. intros (x & Hx & Hxr & _).
      exfalso. apply (Hskip ltac:(lia) x Hx Hxr). }
  destruct Hskip as (Hx & Hok1 & skipped & Er & Hsk); [lia|].
  rewrite Er in *. clear Er. pose proof (increasing_mid _ _ _ Hsorted) as [_ Hxlt].
  apply increasing_app_r in Hsorted as Hs1. apply consumed_split_words in Hwords as [_ Hw1].
  rewrite length_app in Hfuel. fold (shift diff x).
  assert (Hrange : forall y, (exists a, a ∈ skipped ++ x :: remaining itr /\ lo <= a <= hi /\ y = shift diff a) <->
    exists a, a ∈ x :: remaining itr /\ a <= hi /\ y = shift diff a).
  { intros y. split; intros (a & Ha & Har & ->); exists a.
    - split; [|split; [lia|done]]. apply elem_of_app in Ha as [Ha|Ha]; [specialize (Hsk a Ha); lia|done].
    - split; [apply elem_of_app; by right|]. split; [|done].
      apply elem_of_cons in Ha as [->|Ha]; [lia|]. specialize (Hxlt a Ha). lia. }
  setoid_rewrite Hrange. clear Hrange Hsorted Hsk. cbn zeta.
  pose proof (word_wrap (- diff - 1)) as Hcw. fold (cut diff) in Hcw.
  destruct (Z.ltb_spec (cut diff) hi) as [Hcut|Hcut].
  - destruct (run_spec s diff (translate_fuel s) itr (cut diff) false 0 x)
      as (u & e & z & pre & -> & Wu & Mu & Hpre & Hend); try done; [simpl in *; lia|lia|].
    cbn [from_option]. cbv beta iota delta [id].
    destruct Hend as [[-> ->]|(w & Hrem & Hw & -> & -> & Hoke)]; cbn [negb].
    + split; [done|]. intros y. rewrite Mu. split; intros (a & Ha & Hy); exists a; (split; [done|]).
      * split; [|done]. apply elem_of_cons in Ha as [->|Ha]; [lia|]. specialize (Hpre a Ha). lia.
      * apply Hy.
    + rewrite Hrem in *. change (x :: pre ++ w :: remaining (h_itr e)) with ((x :: pre) ++ w :: remaining (h_itr e)) in *.
      pose proof (increasing_mid _ _ _ Hs1) as [_ Hwlt].
      apply increasing_app_r in Hs1 as Hs2. apply consumed_split_words in Hw1 as [_ Hw2].
      destruct (Z.ltb_spec hi w).
      * split; [done|]. intros y. rewrite Mu. split; intros (a & Ha & Hy); exists a.
        -- split; [apply elem_of_app; by left|]. split; [|done].
           apply elem_of_cons in Ha as [->|Ha]; [lia|]. specialize (Hpre a Ha). lia.
        -- destruct Hy as [Hle Hy]. split; [|done].
           apply elem_of_app in Ha as [Ha|[->|Ha]%elem_of_cons]; [done|lia|].
           specialize (Hwlt a Ha). lia.
      * fold (shift diff w).
        destruct (run_spec s diff (translate_fuel s) (h_itr e) hi true w w)
          as (u2 & e2 & z2 & pre2 & -> & Wu2 & Mu2 & Hpre2 & Hend2); try done; [|by right|].
        { clear -Hfuel. simpl in *. rewrite ?length_app in Hfuel. simpl in *. lia. }
        cbn [from_option]. cbv beta iota delta [id]. destruct (union_wf u u2 Wu Wu2) as [W M]. split; [done|].
        intros y. rewrite M, orb_true_iff, Mu, Mu2. split.
        -- intros [(a & Ha & Hy)|(a & Ha & Hy)]; exists a; (split; [|split; [|done]]).
           ++ apply elem_of_app. by left.
           ++ apply elem_of_cons in Ha as [->|Ha]; [lia|]. specialize (Hpre a Ha). lia.
           ++ apply elem_of_app. right. apply elem_of_cons in Ha as [->|Ha]; [by left|right].
              destruct Hend2 as [[-> _]|(w2 & -> & _)]; [done|]. apply elem_of_app. by left.
           ++ apply elem_of_cons in Ha as [->|Ha]; [lia|by apply Hpre2].
        -- intros (a & Ha & Hle & Hy).
           apply elem_of_app in Ha as [Ha|[->|Ha]%elem_of_cons]; [left; by exists a|right; exists w; split; [by left|done]|].
           right. exists a. split; [right|done].
           destruct Hend2 as [[<- _]|(w2 & Hrem2 & Hw2' & _)]; [done|].
           pose proof (increasing_tail _ _ Hs2) as [Hs3 _]. rewrite Hrem2 in Ha, Hs3.
           pose proof (increasing_mid _ _ _ Hs3) as [_ Hlt3].
           apply elem_of_app in Ha as [?|[->|Ha]%elem_of_cons]; [done|lia|]. specialize (Hlt3 a Ha). lia.
  - destruct (run_spec s diff (translate_fuel s) itr hi false 0 x)
      as (u & e & z & pre & -> & Wu & Mu & Hpre & Hend); try done; [simpl in *; lia|by left|].
    cbn [from_option]. cbv beta iota delta [id]. destruct (union_wf Null u I Wu) as [W M]. split; [done|].
    intros y. rewrite M. cbn [mem orb]. rewrite Mu. split.
    + intros (a & Ha & Hy). exists a. split; [|split; [|done]].
      * apply elem_of_cons in Ha as [->|Ha]; [by left|right].
        destruct Hend as [[-> _]|(w & -> & _)]; [done|]. apply elem_of_app. by left.
      * apply elem_of_cons in Ha as [->|Ha]; [lia|by apply Hpre].
    + intros (a & Ha & Hle & Hy). exists a. split; [|done].
      apply elem_of_cons in Ha as [->|Ha]; [by left|right].
      destruct Hend as [[<- _]|(w & Hrem & Hw & _)]; [done|].
      pose proof (increasing_tail _ _ Hs1) as [Hs3 _]. rewrite Hrem in Ha, Hs3.
      pose proof (increasing_mid _ _ _ Hs3) as [_ Hlt3].
      apply elem_of_app in Ha as [?|[->|Ha]%elem_of_cons]; [done|lia|]. specialize (Hlt3 a Ha). lia.
Qed.

Lemma translate_sclip_spec s diff lo hi :
  wf s -> INTPTR_MIN <= lo <= INTPTR_MAX -> INTPTR_MIN <= hi <= INTPTR_MAX ->
  wf (cucon_ucset_translate_sclip s diff lo hi) /\
  forall y, mem (cucon_ucset_translate_sclip s diff lo hi) y = true <->
    exists x, mem s x = true /\ lo <= to_signed x <= hi /\ y = shift diff x.
Proof.
  intros Hs Hlo Hhi. unfold cucon_ucset_translate_sclip, INTPTR_MIN, INTPTR_MAX in *.
  destruct (Z.ltb_spec hi lo).
  { split; [done|]. intros y. split; [done|]. intros (x & _ & ? & _). lia. }
  assert (Hone : forall ulo uhi, word uhi ->
    (forall x, word x -> ulo <= x <= uhi <-> lo <= to_signed x <= hi) ->
    wf (cucon_ucset_translate_uclip s diff ulo uhi) /\
    forall y, mem (cucon_ucset_translate_uclip s diff ulo uhi) y = true <->
      exists x, mem s x = true /\ lo <= to_signed x <= hi /\ y = shift diff x).
  { intros ulo uhi Hu Heq. destruct (translate_uclip_spec s diff ulo uhi Hs Hu) as [W M]. split; [done|].
    intros y. rewrite M. unfold shifted. split; intros (x & Hx & Hr & Hy); exists x;
      (split; [done|]); (split; [|done]); apply Heq; [by apply (mem_word s)|done|by apply (mem_word s)|done]. }
  destruct (Z.ltb_spec lo 0), (Z.ltb_spec hi 0); cbn [Bool.eqb]; try lia.
  - rewrite !wrap_neg by lia. apply Hone; [unfold word; lia|]. intros x Hx. unfold word in Hx.
    destruct (Z.lt_ge_cases x (2 ^ 63)); [rewrite to_signed_lo by done|rewrite to_signed_hi by done]; lia.
  - rewrite (wrap_neg lo), (wrap_small hi) by (unfold word; lia).
    destruct (translate_uclip_spec s diff 0 hi Hs) as [W0 M0]; [unfold word; lia|].
    destruct (translate_uclip_spec s diff (lo + 2 ^ 64) UINTPTR_MAX Hs) as [W1 M1]; [done|].
    destruct (union_wf _ _ W0 W1) as [W M]. split; [done|]. intros y.
    rewrite M, orb_true_iff, M0, M1. unfold shifted, UINTPTR_MAX. split.
    + intros [(x & Hx & Hr & Hy)|(x & Hx & Hr & Hy)]; exists x; (split; [done|]); (split; [|done]).
      * rewrite to_signed_lo; lia.
      * rewrite to_signed_hi; lia.
    + intros (x & Hx & Hr & Hy). pose proof (mem_word s x Hs Hx) as Hw. unfold word in Hw.
      destruct (Z.lt_ge_cases x (2 ^ 63)).
      * left. exists x. rewrite to_signed_lo in Hr by done. split; [done|]. split; [lia|done].
      * right. exists x. rewrite to_signed_hi in Hr by done. split; [done|]. split; [lia|done].
  - rewrite !wrap_small by (unfold word; lia). apply Hone; [unfold word; lia|]. intros x Hx. unfold word in Hx.
    destruct (Z.lt_ge_cases x (2 ^ 63)); [rewrite to_signed_lo by done|rewrite to_signed_hi by done]; lia.
Qed.

(** ** Correctness *)

(** [_ucset_from_monotonic], fed by any callback that delivers a strictly
    increasing sequence of words, consumes the sequence within fuel linear in its
    length and builds its set, the same tree as insertion one by one does. *)
Theorem ucset_from_monotonic_correct {S : Type} (f : S -> Z -> S * (bool * Z)) arr st e :
  increasing arr -> Forall word arr -> pending f arr st e ->
  exists v, ucset_from_monotonic f (3 * length arr + 1) st UINTPTR_MAX =
    Some (foldl cucon_ucset_insert Null arr, (e, false, v)).
Proof.
  intros Hs Hw Hp.
  destruct (from_monotonic_spec f e (3 * length arr + 1) arr st Hs Hw Hp) as (u & v & -> & Wu & Mu); [done|].
  exists v. do 2 f_equal. pose proof (sample_wf arr Hw) as Ws. apply wf_ext; [done|exact Ws|].
  intros x. apply eq_true_iff_eq. rewrite Mu. symmetry. by apply (sample_mem arr).
Qed.

(** A callback that counts down its state: it delivers 3, 1000 and 2048. *)
Definition three_keys (s v : Z) : Z * (bool * Z) :=
  if s =? 0 then (0, (false, v)) else if s =? 1 then (0, (true, 2048)) else (1, (true, 1000)).

(** C31: [cucon_ucset_translate_uclip], [cucon_ucset_translate_sclip] and
    [cucon_ucset_translate] return the elements in the unsigned or signed range
    increased by [diff] modulo the word size, also when some of them wrap around
    and others do not, as a set that satisfies the invariant. *)
Theorem ucset_translate_correct s diff lo hi slo shi :
  wf s -> word hi -> INTPTR_MIN <= slo <= INTPTR_MAX -> INTPTR_MIN <= shi <= INTPTR_MAX ->
  (wf (cucon_ucset_translate_uclip s diff lo hi) /\
   forall y, y ∈ to_set (cucon_ucset_translate_uclip s diff lo hi) <->
     exists x, x ∈ to_set s /\ lo <= x <= hi /\ y = wrap (x + diff)) /\
  (wf (cucon_ucset_translate_sclip s diff slo shi) /\
   forall y, y ∈ to_set (cucon_ucset_translate_sclip s diff slo shi) <->
     exists x, x ∈ to_set s /\ slo <= to_signed x <= shi /\ y = wrap (x + diff)) /\
  (wf (cucon_ucset_translate s diff) /\
   forall y, y ∈ to_set (cucon_ucset_translate s diff) <->
     exists x, x ∈ to_set s /\ y = wrap (x + diff)).
Proof.
  intros Hs Hhi Hslo Hshi. split_and!.
  - by apply translate_uclip_spec.
  - intros y. destruct (translate_uclip_spec s diff lo hi Hs Hhi) as [_ M].
    rewrite to_set_spec, M. unfold shifted. setoid_rewrite to_set_spec. by setoid_rewrite shift_wrap.
  - by apply translate_sclip_spec.
  - intros y. destruct (translate_sclip_spec s diff slo shi Hs Hslo Hshi) as [_ M].
    rewrite to_set_spec, M. setoid_rewrite to_set_spec. by setoid_rewrite shift_wrap.
  - by apply translate_uclip_spec.
  - intros y. destruct (translate_uclip_spec s diff 0 UINTPTR_MAX Hs) as [_ M]; [done|].
    unfold cucon_ucset_translate. rewrite to_set_spec, M. unfold shifted. setoid_rewrite to_set_spec.
    setoid_rewrite shift_wrap. split; intros (x & Hx & Hy); exists x; [by destruct Hy|].
    split; [done|]. split; [|done]. pose proof (mem_word s x Hs Hx). unfold word, UINTPTR_MAX in *. lia.
Qed.

Lemma ucset_translate_correct_witness :
  let s := sample [3; 1000; 2 ^ 64 - 5] in
  wf s /\ wf (cucon_ucset_translate s 7) /\
  forall y, y ∈ to_set (cucon_ucset_translate s 7) <-> exists x, x ∈ to_set s /\ y = wrap (x + 7).
Proof.
  cbv zeta. assert (Hs : wf (sample [3; 1000; 2 ^ 64 - 5])) by wf_compute. split; [exact Hs|].
  assert (H : word 10 /\ INTPTR_MIN <= 0 <= INTPTR_MAX).
  { unfold word, INTPTR_MIN, INTPTR_MAX. lia. }
  destruct H as [H1 H2].
  exact (proj2 (proj2 (ucset_translate_correct _ 7 0 10 0 0 Hs H1 H2 H2))).
Defined.
