(* ===== verification/Ucmap.v ===== *)
(** * Constructive integer maps: the trees and their operations

    The tree operations of [cucon/ucmap.c] and [cucon/ucmap.h].  Nodes are
    hash-consed, so that two nodes are the same object exactly if they have the
    same contents; a pointer comparison is equality of trees.  The lowest bit
    of the [left] pointer, which tells a node with a value from a mere branch, is
    the field [has_value].

    A function that reads one tree is a [Fixpoint] on it, where the source
    recurses to the left and loops or jumps back for the right child; the two
    unions recurse on both trees. *)

From S2P Require Export RadixKey.

(** ** Nodes *)

Inductive ucmap :=
| Null
| Node (key : Z) (left : ucmap) (has_value : bool) (right : ucmap) (value : Z).

#[global] Instance ucmap_eq_dec : EqDecision ucmap.
Proof. solve_decision. Defined.

Definition ptr_eq (m0 m1 : ucmap) : bool := bool_decide (m0 = m1).

Definition is_null (m : ucmap) : bool := match m with Null => true | _ => false end.

(** [_node_has_value], on a non-null pointer. *)
Definition node_has_value (m : ucmap) : bool :=
  match m with Null => false | Node _ _ h _ _ => h end.

Definition key_covers (key0 key1 : Z) : bool :=
  let mask0 := key_mask key0 in
  ((key0 &&& mask0) =? (key1 &&& mask0)) && negb ((key1 &&& wnot mask0) =? 0).

Definition node_new_val (key : Z) (left right : ucmap) (val : Z) : ucmap :=
  Node key left true right val.

Definition node_new_noval (key : Z) (left right : ucmap) : ucmap :=
  Node key left false right 0.

(** The key, the tag and the value are those of [src_node]. *)
Definition node_new_lr (src_node left right : ucmap) : ucmap :=
  match src_node with
  | Null => Null
  | Node k _ h _ v => Node k left h right v
  end.

Definition cucon_ucmap_empty : ucmap := Null.
Definition cucon_ucmap_is_empty (map : ucmap) : bool := is_null map.

Definition cucon_ucmap_singleton (key val : Z) : ucmap := node_new_val key Null Null val.

(** The header tests the [left] field itself, tag included, so that it is [NULL]
    only in a node without a value. *)
Definition cucon_ucmap_is_singleton (map : ucmap) : bool :=
  match map with
  | Null => false
  | Node _ l h r _ => (is_null l && negb h) && is_null r
  end.

(** ** Construction from a sorted array

    The array pointer and the length, which the source updates in place, are the
    list of the remaining elements.  The loops that skip repeated keys end with
    the array. *)

Fixpoint drop_key (key : Z) (arr : list (Z * Z)) : list (Z * Z) :=
  match arr with
  | [] => []
  | x :: arr' => if x.1 =? key then drop_key key arr' else arr
  end.

Definition skip_key (key : Z) (arr : list (Z * Z)) : list (Z * Z) := drop_key key (tail arr).

(** The loop at the end of [_ucmap_from_sorted_array]; [rec] is the function
    itself, for the right children. *)
Fixpoint from_sorted_loop (rec : Z -> list (Z * Z) -> option (ucmap * list (Z * Z)))
    (fuel : nat) (max_key cur_key : Z) (cur_node : ucmap) (arr : list (Z * Z))
    : option (ucmap * list (Z * Z)) :=
  match fuel with
  | O => None
  | S fuel =>
      match arr with
      | [] => Some (cur_node, [])
      | (next_key, value) :: _ =>
          if max_key <? next_key then Some (cur_node, arr)
          else if key_covers next_key cur_key then
            match skip_key next_key arr with
            | [] => Some (node_new_val next_key cur_node Null value, [])
            | arr =>
                let cur_key := next_key in
                '(right_node, arr) ← rec (key_max cur_key) arr;
                from_sorted_loop rec fuel max_key cur_key
                  (node_new_val cur_key cur_node right_node value) arr
            end
          else
            let cur_key :=
              if negb (key_covers cur_key next_key) then key_join cur_key next_key else cur_key in
            '(right_node, arr) ← rec (key_max cur_key) arr;
            from_sorted_loop rec fuel max_key cur_key (node_new_noval cur_key cur_node right_node) arr
      end
  end.

Fixpoint ucmap_from_sorted_array (fuel : nat) (max_key : Z) (arr : list (Z * Z))
    : option (ucmap * list (Z * Z)) :=
  match fuel with
  | O => None
  | S fuel =>
      match arr with
      | [] => Some (Null, [])
      | (cur_key, value) :: _ =>
          if max_key <? cur_key then Some (Null, arr)
          else
            match skip_key cur_key arr with
            | [] => Some (node_new_val cur_key Null Null value, [])
            | ((next_key, _) :: _) as arr =>
                '(cur_node, arr) ←
                  (if key_covers cur_key next_key then
                     '(right_node, arr) ← ucmap_from_sorted_array fuel (key_max cur_key) arr;
                     Some (node_new_val cur_key Null right_node value, arr)
                   else Some (node_new_val cur_key Null Null value, arr));
                from_sorted_loop (ucmap_from_sorted_array fuel) fuel max_key cur_key cur_node arr
            end
      end
  end.

Definition cucon_ucmap_from_sorted_array (arr : list (Z * Z)) : ucmap :=
  default Null (fst <$> ucmap_from_sorted_array (S (length arr)) UINTPTR_MAX arr).

(** ** Insertion and removal *)

(** The tail of [cucon_ucmap_insert]: [node] does not cover [key]. *)
Definition insert_beside (node : ucmap) (node_key key val : Z) : ucmap :=
  if key_covers key node_key then
    if node_key <? key then node_new_val key node Null val else node_new_val key Null node val
  else
    let key_node := node_new_val key Null Null val in
    let j := key_join key node_key in
    if key <? node_key then node_new_noval j key_node node else node_new_noval j node key_node.

Fixpoint cucon_ucmap_insert (node : ucmap) (key val : Z) : ucmap :=
  match node with
  | Null => node_new_val key Null Null val
  | Node node_key l h r v =>
      if node_key =? key then
        if v =? val then node else node_new_val node_key l r val
      else if key_covers node_key key then
        if key <? node_key then
          let new_left := cucon_ucmap_insert l key val in
          if negb (ptr_eq new_left l) then node_new_lr node new_left r else node
        else
          let new_right := cucon_ucmap_insert r key val in
          if negb (ptr_eq new_right r) then node_new_lr node l new_right else node
      else insert_beside node node_key key val
  end.

(** The conversion of an [int] argument to [uintptr_t]. *)
Definition cucon_ucmap_insert_int (map : ucmap) (key val : Z) : ucmap :=
  cucon_ucmap_insert map key (wrap val).

Fixpoint cucon_ucmap_erase (node : ucmap) (key : Z) : ucmap :=
  match node with
  | Null => Null
  | Node node_key l h r v =>
      if node_key =? key then
        if h then
          if is_null l then r
          else if is_null r then l
          else node_new_noval node_key l r
        else node
      else if key_covers node_key key then
        if key <? node_key then
          let new_left := cucon_ucmap_erase l key in
          if is_null new_left && negb h then r
          else if negb (ptr_eq new_left l) then node_new_lr node new_left r
          else node
        else
          let new_right := cucon_ucmap_erase r key in
          if is_null new_right && negb h then l
          else if negb (ptr_eq new_right r) then node_new_lr node l new_right
          else node
      else node
  end.

(** ** Search *)

Fixpoint cucon_ucmap_contains (node : ucmap) (key : Z) : bool :=
  match node with
  | Null => false
  | Node node_key l h r v =>
      if key =? node_key then h
      else if key_coverseq node_key key then
        if key <? node_key then cucon_ucmap_contains l key else cucon_ucmap_contains r key
      else false
  end.

(** The out-parameter is the content of [Some]. *)
Fixpoint cucon_ucmap_find (node : ucmap) (key : Z) : option Z :=
  match node with
  | Null => None
  | Node node_key l h r v =>
      if key =? node_key then if negb h then None else Some v
      else if key_coverseq node_key key then
        if key <? node_key then cucon_ucmap_find l key else cucon_ucmap_find r key
      else None
  end.

Definition NULL : Z := 0.

Fixpoint cucon_ucmap_find_ptr (node : ucmap) (key : Z) : Z :=
  match node with
  | Null => NULL
  | Node node_key l h r v =>
      if key =? node_key then if negb h then NULL else v
      else if key_coverseq node_key key then
        if key <? node_key then cucon_ucmap_find_ptr l key else cucon_ucmap_find_ptr r key
      else NULL
  end.

Definition cucon_ucmap_int_none : Z := - 2 ^ 31.

(** The value is returned as an [int]. *)
Fixpoint cucon_ucmap_find_int (node : ucmap) (key : Z) : Z :=
  match node with
  | Null => cucon_ucmap_int_none
  | Node node_key l h r v =>
      if key =? node_key then if negb h then cucon_ucmap_int_none else to_int v
      else if key_coverseq node_key key then
        if key <? node_key then cucon_ucmap_find_int l key else cucon_ucmap_find_int r key
      else cucon_ucmap_int_none
  end.

(** ** Cardinality and traversal *)

Fixpoint cucon_ucmap_card (node : ucmap) : Z :=
  match node with
  | Null => 0
  | Node _ l h r _ =>
      wadd (if h then wadd (cucon_ucmap_card l) 1 else cucon_ucmap_card l) (cucon_ucmap_card r)
  end.

(** [cucon_ucmap_clipped_card] for [k_min <= k_max]. *)
Fixpoint clipped_card_range (M : ucmap) (k_min k_max : Z) : Z :=
  match M with
  | Null => 0
  | Node k_M l h r _ =>
      if k_M <? k_min then clipped_card_range r k_min k_max
      else if k_max <? k_M then clipped_card_range l k_min k_max
      else
        wadd (wadd (if h then 1 else 0) (clipped_card_range l k_min k_max))
          (clipped_card_range r k_min k_max)
  end.

Definition cucon_ucmap_clipped_card (M : ucmap) (k_min k_max : Z) : Z :=
  if k_min <=? k_max then clipped_card_range M k_min k_max
  else wadd (clipped_card_range M k_min UINTPTR_MAX) (clipped_card_range M 0 k_max).

(** The callbacks act on a state of any type. *)
Section traversal.
Context {S : Type}.
Implicit Types f : S -> Z -> Z -> S * bool.

(** [a && b] on computations that act on the state. *)
Definition and_then (a : S * bool) (b : S -> S * bool) : S * bool :=
  let '(s, ok) := a in if ok then b s else (s, false).

(** [!_node_has_value(M) || cu_call(f, _node_key(M), _node_value(M))] *)
Definition call_node f (h : bool) (k v : Z) (s : S) : S * bool :=
  if negb h then (s, true) else f s k v.

Fixpoint cucon_ucmap_iterA f (M : ucmap) (s : S) : S * bool :=
  match M with
  | Null => (s, true)
  | Node k l h r v =>
      and_then (cucon_ucmap_iterA f l s) (fun s =>
      and_then (call_node f h k v s) (fun s =>
      cucon_ucmap_iterA f r s))
  end.

Fixpoint iterA_above f (M : ucmap) (k_min : Z) (s : S) : S * bool :=
  match M with
  | Null => (s, true)
  | Node k_M l h r v =>
      if k_M <? k_min then iterA_above f r k_min s
      else
        and_then (iterA_above f l k_min s) (fun s =>
        and_then (call_node f h k_M v s) (fun s =>
        cucon_ucmap_iterA f r s))
  end.

Fixpoint iterA_below f (M : ucmap) (k_max : Z) (s : S) : S * bool :=
  match M with
  | Null => (s, true)
  | Node k_M l h r v =>
      if k_max <? k_M then iterA_below f l k_max s
      else
        and_then (cucon_ucmap_iterA f l s) (fun s =>
        and_then (call_node f h k_M v s) (fun s =>
        iterA_below f r k_max s))
  end.

Fixpoint iterA_range f (M : ucmap) (k_min k_max : Z) (s : S) : S * bool :=
  match M with
  | Null => (s, true)
  | Node k_M l h r v =>
      if k_M <? k_min then iterA_range f r k_min k_max s
      else if k_max <? k_M then iterA_range f l k_min k_max s
      else
        and_then (iterA_above f l k_min s) (fun s =>
        and_then (call_node f h k_M v s) (fun s =>
        iterA_below f r k_max s))
  end.

Definition cucon_ucmap_iterA_clipped f (M : ucmap) (k_min k_max : Z) (s : S) : S * bool :=
  if k_min <=? k_max then iterA_range f M k_min k_max s
  else and_then (iterA_below f M k_max s) (fun s => iterA_above f M k_min s).

Fixpoint cucon_ucmap_iter_ptr (node : ucmap) (f : S -> Z -> Z -> S) (s : S) : S :=
  match node with
  | Null => s
  | Node key l h r v =>
      let s := cucon_ucmap_iter_ptr l f s in
      let s := if h then f s key v else s in
      cucon_ucmap_iter_ptr r f s
  end.

Fixpoint cucon_ucmap_iter_int (node : ucmap) (f : S -> Z -> Z -> S) (s : S) : S :=
  match node with
  | Null => s
  | Node key l h r v =>
      let s := cucon_ucmap_iter_int l f s in
      let s := if h then f s key (to_int v) else s in
      cucon_ucmap_iter_int r f s
  end.

Fixpoint cucon_ucmap_conj_ptr (node : ucmap) (cb : S -> Z -> Z -> S * bool) (s : S) : S * bool :=
  match node with
  | Null => (s, true)
  | Node key l h r v =>
      let '(s, ok) := cucon_ucmap_conj_ptr l cb s in
      if negb ok then (s, false)
      else
        let '(s, ok) := if h then cb s key v else (s, true) in
        if negb ok then (s, false) else cucon_ucmap_conj_ptr r cb s
  end.

Fixpoint cucon_ucmap_conj_int (node : ucmap) (cb : S -> Z -> Z -> S * bool) (s : S) : S * bool :=
  match node with
  | Null => (s, true)
  | Node key l h r v =>
      let '(s, ok) := cucon_ucmap_conj_int l cb s in
      if negb ok then (s, false)
      else
        let '(s, ok) := if h then cb s key (to_int v) else (s, true) in
        if negb ok then (s, false) else cucon_ucmap_conj_int r cb s
  end.

End traversal.

(** ** Unions *)

(** The case of two roots apart. *)
Definition union_apart (M0 M1 : ucmap) (k0 k1 : Z) : ucmap :=
  let k := key_join k0 k1 in
  if k0 <? k1 then node_new_noval k M0 M1 else node_new_noval k M1 M0.

Fixpoint cucon_ucmap_left_union (M0 : ucmap) : ucmap -> ucmap :=
  fix left_union (M1 : ucmap) : ucmap :=
    match M0, M1 with
    | Null, _ => M1
    | _, Null => M0
    | Node k0 l0 h0 r0 _, Node k1 l1 _ r1 _ =>
        if k0 =? k1 then
          let M_left := cucon_ucmap_left_union l0 l1 in
          let M_right := cucon_ucmap_left_union r0 r1 in
          node_new_lr (if h0 then M0 else M1) M_left M_right
        else if key_covers k0 k1 then
          if k1 <? k0 then node_new_lr M0 (cucon_ucmap_left_union l0 M1) r0
          else node_new_lr M0 l0 (cucon_ucmap_left_union r0 M1)
        else if key_covers k1 k0 then
          if k0 <? k1 then node_new_lr M1 (left_union l1) r1
          else node_new_lr M1 l1 (left_union r1)
        else union_apart M0 M1 k0 k1
    end.

(** The callback is a function of the two values. *)
Section combined_union.
Variable f : Z -> Z -> Z.

(** The nodes with equal keys. *)
Definition combined_node (M0 M1 M_left M_right : ucmap) : ucmap :=
  match M0, M1 with
  | Node k0 _ h0 _ v0, Node _ _ h1 _ v1 =>
      if negb h0 then
        if negb h1 then node_new_noval k0 M_left M_right else node_new_lr M1 M_left M_right
      else if negb h1 then node_new_lr M0 M_left M_right
      else node_new_val k0 M_left M_right (f v0 v1)
  | _, _ => Null
  end.

Fixpoint cucon_ucmap_combined_union (M0 : ucmap) : ucmap -> ucmap :=
  fix combined_union (M1 : ucmap) : ucmap :=
    match M0, M1 with
    | Null, _ => M1
    | _, Null => M0
    | Node k0 l0 _ r0 _, Node k1 l1 _ r1 _ =>
        if k0 =? k1 then
          let M_left := cucon_ucmap_combined_union l0 l1 in
          let M_right := cucon_ucmap_combined_union r0 r1 in
          combined_node M0 M1 M_left M_right
        else if key_covers k0 k1 then
          if k1 <? k0 then node_new_lr M0 (cucon_ucmap_combined_union l0 M1) r0
          else node_new_lr M0 l0 (cucon_ucmap_combined_union r0 M1)
        else if key_covers k1 k0 then
          if k0 <? k1 then node_new_lr M1 (combined_union l1) r1
          else node_new_lr M1 l1 (combined_union r1)
        else union_apart M0 M1 k0 k1
    end.

End combined_union.

(** ** Extremal keys and clipping *)

Fixpoint min_ukey_from (map : ucmap) (min : Z) : Z :=
  match map with
  | Null => min
  | Node k l _ _ _ => min_ukey_from l k
  end.

Definition cucon_ucmap_min_ukey (map : ucmap) : Z := min_ukey_from map UINTPTR_MAX.

Fixpoint max_ukey_from (map : ucmap) (max : Z) : Z :=
  match map with
  | Null => max
  | Node k _ _ r _ => max_ukey_from r k
  end.

Definition cucon_ucmap_max_ukey (map : ucmap) : Z := max_ukey_from map 0.

Fixpoint uclip_upper (M : ucmap) (k_min : Z) : ucmap :=
  match M with
  | Null => Null
  | Node k_M l _ r _ =>
      if k_M <? k_min then uclip_upper r k_min
      else let M_left := uclip_upper l k_min in node_new_lr M M_left r
  end.

Fixpoint uclip_lower (M : ucmap) (k_max : Z) : ucmap :=
  match M with
  | Null => Null
  | Node k_M l _ r _ =>
      if k_max <? k_M then uclip_lower l k_max
      else let M_right := uclip_lower r k_max in node_new_lr M l M_right
  end.

Fixpoint cucon_ucmap_uclip (M : ucmap) (k_min k_max : Z) : ucmap :=
  match M with
  | Null => Null
  | Node k_M l _ r _ =>
      if k_M <? k_min then cucon_ucmap_uclip r k_min k_max
      else if k_max <? k_M then cucon_ucmap_uclip l k_min k_max
      else
        let M_left := uclip_upper l k_min in
        let M_right := uclip_lower r k_max in
        node_new_lr M M_left M_right
  end.

Definition cucon_ucmap_clip (M : ucmap) (k_min k_max : Z) : ucmap :=
  if k_min <=? k_max then cucon_ucmap_uclip M k_min k_max
  else
    let M0 := uclip_lower M k_max in
    let M1 := uclip_upper M k_min in
    cucon_ucmap_left_union M0 M1.

(** ** Comparison *)

Fixpoint cucon_ucmap_eq (map0 map1 : ucmap) : bool :=
  if ptr_eq map0 map1 then true
  else
    match map0, map1 with
    | Null, _ => false
    | _, Null => false
    | Node k0 l0 h0 r0 v0, Node k1 l1 h1 r1 v1 =>
        if negb (k0 =? k1) then false
        else if negb (eqb h0 h1) then false
        else if negb (v0 =? v1) then false
        else if negb (cucon_ucmap_eq l0 l1) then false
        else cucon_ucmap_eq r0 r1
    end.

Fixpoint cucon_ucmap_eq_ptr (f : Z -> Z -> bool) (map0 map1 : ucmap) : bool :=
  if ptr_eq map0 map1 then true
  else
    match map0, map1 with
    | Null, _ => false
    | _, Null => false
    | Node k0 l0 h0 r0 v0, Node k1 l1 h1 r1 v1 =>
        if negb (k0 =? k1) then false
        else if negb (cucon_ucmap_eq_ptr f l0 l1) then false
        else if h0 then
          if h1 then if negb (f v0 v1) then false else cucon_ucmap_eq_ptr f r0 r1
          else false
        else if h1 then false
        else cucon_ucmap_eq_ptr f r0 r1
    end.

Fixpoint cucon_ucmap_cmp (map0 map1 : ucmap) : Z :=
  if ptr_eq map0 map1 then 0
  else
    match map0, map1 with
    | Null, _ => -1
    | _, Null => 1
    | Node k0 l0 h0 r0 v0, Node k1 l1 h1 r1 v1 =>
        if k0 <? k1 then -1
        else if k1 <? k0 then 1
        else
          let c := cucon_ucmap_cmp l0 l1 in
          if negb (c =? 0) then c
          else if h0 then
            if h1 then
              if v0 <? v1 then -1 else if v1 <? v0 then 1 else cucon_ucmap_cmp r0 r1
            else 1
          else if h1 then -1
          else cucon_ucmap_cmp r0 r1
    end.

Fixpoint cucon_ucmap_cmp_ptr (f : Z -> Z -> Z) (map0 map1 : ucmap) : Z :=
  if ptr_eq map0 map1 then 0
  else
    match map0, map1 with
    | Null, _ => -1
    | _, Null => 1
    | Node k0 l0 h0 r0 v0, Node k1 l1 h1 r1 v1 =>
        if k0 <? k1 then -1
        else if k1 <? k0 then 1
        else
          let c := cucon_ucmap_cmp_ptr f l0 l1 in
          if negb (c =? 0) then c
          else if h0 then
            if h1 then
              let c := f v0 v1 in
              if negb (c =? 0) then c else cucon_ucmap_cmp_ptr f r0 r1
            else 1
          else if h1 then -1
          else cucon_ucmap_cmp_ptr f r0 r1
    end.
