(* ===== verification/UcmapInv.v ===== *)
(** * Constructive integer maps: bindings and the tree invariants

    - [get m x]: the value bound to [x]; [elems m]: the bindings in the order of
      the tree; [to_map m]: the finite map that [m] stands for;
    - [wf m]: the invariant of all maps, a search tree whose subtrees lie in the
      interval of their root's key;
    - [compact m]: no node is superfluous, which all operations but clipping
      keep; [map_wf_ext]: compact trees with the same bindings are equal. *)

From stdpp Require Export sorting gmap.
From S2P Require Export Ucmap.

(** ** Bindings *)

(** The keys of all nodes, with or without a value. *)
Fixpoint nkeys (m : ucmap) : list Z :=
  match m with
  | Null => []
  | Node k l _ r _ => nkeys l ++ k :: nkeys r
  end.

Fixpoint elems (m : ucmap) : list (Z * Z) :=
  match m with
  | Null => []
  | Node k l h r v => elems l ++ (if h then [(k, v)] else []) ++ elems r
  end.

Definition to_map (m : ucmap) : gmap Z Z := list_to_map (elems m).

Fixpoint get (m : ucmap) (x : Z) : option Z :=
  match m with
  | Null => None
  | Node k l h r v =>
      if x <? k then get l x else if x =? k then (if h then Some v else None) else get r x
  end.

(** ** The interval of a key *)

Definition klo (k : Z) : Z := k - lb k + 1.
Definition khi (k : Z) : Z := k + lb k - 1.

Definition bounded (lo hi : Z) (m : ucmap) : Prop := Forall (fun x => lo <= x <= hi) (nkeys m).

Fixpoint wf (m : ucmap) : Prop :=
  match m with
  | Null => True
  | Node k l h r v =>
      word k /\ (h = true \/ v = 0) /\
      bounded (klo k) (k - 1) l /\ bounded (k + 1) (khi k) r /\ wf l /\ wf r
  end.

Fixpoint compact (m : ucmap) : Prop :=
  match m with
  | Null => True
  | Node _ l h r _ =>
      (h = true \/ (is_null l = false /\ is_null r = false)) /\ compact l /\ compact r
  end.

#[global] Instance wf_dec m : Decision (wf m).
Proof. induction m; simpl; unfold bounded; apply _. Defined.

#[global] Instance compact_dec m : Decision (compact m).
Proof. induction m; simpl; apply _. Defined.

(** Closed instances of the invariants. *)
Ltac wf_compute := apply (bool_decide_unpack _); vm_compute; exact I.

(** ** Bounds *)

Lemma bounded_elem lo hi m : bounded lo hi m <-> forall x, x ∈ nkeys m -> lo <= x <= hi.
Proof. apply list.Forall_forall. Qed.

Lemma bounded_node lo hi k l h r v :
  bounded lo hi (Node k l h r v) <-> bounded lo hi l /\ lo <= k <= hi /\ bounded lo hi r.
Proof. unfold bounded. cbn [nkeys]. by rewrite list.Forall_app, list.Forall_cons. Qed.

Lemma bounded_mono lo hi lo' hi' m : bounded lo hi m -> lo' <= lo -> hi <= hi' -> bounded lo' hi' m.
Proof. rewrite !bounded_elem. intros H ?? x Hx. specialize (H x Hx). lia. Qed.

Lemma bounded_null lo hi : bounded lo hi Null.
Proof. by apply list.Forall_nil. Qed.

#[export] Hint Resolve bounded_null : core.

Lemma get_nkeys m x v : get m x = Some v -> x ∈ nkeys m.
Proof.
  induction m as [|k l IHl h r IHr w]; [done|]. cbn [get nkeys]. rewrite elem_of_app, elem_of_cons.
  destruct (Z.ltb_spec x k); [auto|]. destruct (Z.eqb_spec x k); [auto|]. auto.
Qed.

Lemma get_out lo hi m x : bounded lo hi m -> ~ (lo <= x <= hi) -> get m x = None.
Proof.
  rewrite bounded_elem. intros Hb Hn. destruct (get m x) as [v|] eqn:E; [|done].
  by apply get_nkeys, Hb in E.
Qed.

Lemma get_in lo hi m x v : bounded lo hi m -> get m x = Some v -> lo <= x <= hi.
Proof. rewrite bounded_elem. intros Hb ?%get_nkeys. auto. Qed.

(** Left, at and right of a node's key. *)
Lemma get_lt k l h r v x : x < k -> get (Node k l h r v) x = get l x.
Proof. intros H. cbn [get]. by rewrite (proj2 (Z.ltb_lt x k)). Qed.

Lemma get_eq k l h r v : get (Node k l h r v) k = if h then Some v else None.
Proof. cbn [get]. by rewrite Z.ltb_irrefl, Z.eqb_refl. Qed.

Lemma get_gt k l h r v x : k < x -> get (Node k l h r v) x = get r x.
Proof. intros H. cbn [get]. by rewrite (proj2 (Z.ltb_ge x k)), (proj2 (Z.eqb_neq x k)) by lia. Qed.

(** Cases on where [x] lies relative to the key [k] of the nodes in the goal. *)
Ltac get_at k x :=
  destruct (Z.lt_trichotomy x k) as [?Hlt|[->|?Hgt]];
  [rewrite ?(get_lt k) by lia|rewrite ?(get_eq k)|rewrite ?(get_gt k) by lia].

Lemma get_word m x v : wf m -> get m x = Some v -> word x.
Proof.
  induction m as [|k l IHl h r IHr w]; [done|]. intros (Hk & _ & _ & _ & Wl & Wr). get_at k x; auto.
Qed.

(** ** Elements *)

Lemma map_elem_of_elems m x v : wf m -> (x, v) ∈ elems m <-> get m x = Some v.
Proof.
  induction m as [|k l IHl h r IHr w]; cbn [wf elems].
  { intros _. split; [by intros ?%elem_of_nil|done]. }
  intros (_ & _ & Bl & Br & Wl & Wr). rewrite !elem_of_app, (IHl Wl), (IHr Wr). get_at k x.
  - rewrite (get_out _ _ r x Br) by lia. split; [|auto].
    intros [?|[Hx|?]]; [done| |done]. destruct h; [|by apply elem_of_nil in Hx].
    apply list_elem_of_singleton in Hx as [= -> _]. lia.
  - rewrite (get_out _ _ l k Bl), (get_out _ _ r k Br) by lia.
    destruct h; [rewrite list_elem_of_singleton|rewrite elem_of_nil].
    + split; [by intros [?|[[= ->]|?]]|intros [= ->]; auto].
    + split; [by intros [?|[?|?]]|done].
  - rewrite (get_out _ _ l x Bl) by lia. split; [|auto].
    intros [?|[Hx|?]]; [done| |done]. destruct h; [|by apply elem_of_nil in Hx].
    apply list_elem_of_singleton in Hx as [= -> _]. lia.
Qed.

Lemma elems_bounded lo hi m : wf m -> bounded lo hi m -> Forall (fun e => lo <= e.1 <= hi) (elems m).
Proof.
  intros Hm Hb. apply list.Forall_forall. intros [x v] Hx%map_elem_of_elems; [|done]. by eapply get_in.
Qed.

Definition key_lt (e0 e1 : Z * Z) : Prop := e0.1 < e1.1.

Lemma map_elems_sorted m : wf m -> StronglySorted key_lt (elems m).
Proof.
  induction m as [|k l IHl h r IHr v]; cbn [wf elems]; intros Hm; [by constructor|].
  destruct Hm as (_ & _ & Bl & Br & Wl & Wr).
  pose proof (elems_bounded _ _ _ Wl Bl) as Fl. pose proof (elems_bounded _ _ _ Wr Br) as Fr.
  rewrite list.Forall_forall in Fl, Fr.
  apply StronglySorted_app_2; [|by apply IHl|apply StronglySorted_app_2; [| |by apply IHr]].
  - intros x y Hx%Fl Hy. unfold key_lt. apply elem_of_app in Hy as [Hy|Hy%Fr]; [|lia].
    destruct h; [apply list_elem_of_singleton in Hy as ->; simpl; lia|by apply elem_of_nil in Hy].
  - intros x y Hx Hy%Fr. unfold key_lt.
    destruct h; [apply list_elem_of_singleton in Hx as ->; simpl; lia|by apply elem_of_nil in Hx].
  - destruct h; repeat constructor.
Qed.

Lemma sorted_NoDup_fst (es : list (Z * Z)) : StronglySorted key_lt es -> NoDup es.*1.
Proof.
  induction 1 as [|e es Hs IH Hf]; [by constructor|]. rewrite fmap_cons. constructor; [|done].
  intros (e' & E & Hin)%list_elem_of_fmap.
  pose proof (proj1 (list.Forall_forall _ _) Hf e' Hin) as H. unfold key_lt in H. lia.
Qed.

Lemma lookup_to_map m x : wf m -> to_map m !! x = get m x.
Proof.
  intros Hm. pose proof (sorted_NoDup_fst _ (map_elems_sorted m Hm)) as Hn.
  apply option_eq. intros v. unfold to_map.
  by rewrite <- (elem_of_list_to_map _ x v Hn), map_elem_of_elems.
Qed.

Lemma map_to_list_to_map m : wf m -> map_to_list (to_map m) ≡ₚ elems m.
Proof. intros Hm. apply map_to_list_to_map, sorted_NoDup_fst, map_elems_sorted, Hm. Qed.

Lemma size_to_map m : wf m -> size (to_map m) = length (elems m).
Proof.
  intros Hm. rewrite <- length_map_to_list. by apply Permutation_length, map_to_list_to_map.
Qed.

(** ** The intervals form a laminar family *)

Lemma key_bounds k : word k -> klo k <= k <= khi k.
Proof. intros Hk. pose proof (lb_bounds k Hk). unfold klo, khi. lia. Qed.

Lemma map_nested_left k0 k1 :
  word k0 -> word k1 -> klo k0 <= k1 < k0 -> klo k0 <= klo k1 /\ khi k1 < k0.
Proof.
  unfold klo, khi. intros H0 H1 Hr.
  assert (k0 <> 0) by (unfold word in *; lia). pose proof (lb_bounds k0 H0).
  destruct (inside_left k0 k1); [done|done|lia|lia|lia].
Qed.

Lemma map_nested_right k0 k1 :
  word k0 -> word k1 -> k0 < k1 <= khi k0 -> k0 < klo k1 /\ khi k1 <= khi k0.
Proof. unfold klo, khi. intros H0 H1 Hr. destruct (inside_right k0 k1); [done|done|lia|lia]. Qed.

Lemma map_key_covers_spec k0 k1 :
  word k0 -> word k1 -> k0 <> k1 -> key_covers k0 k1 = true <-> klo k0 <= k1 <= khi k0.
Proof.
  intros H0 H1 Hne. unfold key_covers, klo, khi. cbn zeta.
  rewrite andb_true_iff, negb_true_iff, Z.eqb_eq, Z.eqb_neq.
  destruct (Z.eq_dec k0 0) as [->|Hn].
  { rewrite key_mask_0, !Z.land_0_r. change (wnot 0) with (Z.ones 64). change (lb 0) with (2 ^ 64).
    rewrite Z.land_ones, Z.mod_small by (done || lia). unfold word in *. lia. }
  destruct (key_mask_spec k0 k1) as (-> & E & _); [done..|]. rewrite E, key_window by done.
  split.
  - intros [Hr Hl]. rewrite key_low_spec in Hl by done. lia.
  - intros Hr. assert (Hr' : k0 - lb k0 <= k1 < k0 + lb k0) by lia. split; [done|].
    rewrite key_low_spec by done. lia.
Qed.

Lemma key_coverseq_false k x : word k -> word x -> key_coverseq k x = false -> ~ (klo k <= x <= khi k).
Proof.
  intros Hk Hx Hc Hr. unfold klo, khi in Hr.
  rewrite (proj2 (key_coverseq_spec k x Hk Hx)) in Hc by lia. done.
Qed.

(** How two distinct keys can lie, with the answers of the tests of the source. *)
Inductive key_view (k0 k1 : Z) : bool -> bool -> bool -> Prop :=
| KV_has_left : klo k0 <= klo k1 -> khi k1 < k0 -> k1 < k0 -> key_view k0 k1 true false false
| KV_has_right : k0 < klo k1 -> khi k1 <= khi k0 -> k0 < k1 -> key_view k0 k1 true false true
| KV_in_left : klo k1 <= klo k0 -> khi k0 < k1 -> k0 < k1 -> key_view k0 k1 false true true
| KV_in_right : k1 < klo k0 -> khi k0 <= khi k1 -> k1 < k0 -> key_view k0 k1 false true false
| KV_before : khi k0 < klo k1 -> k0 < k1 -> apart k0 k1 -> key_view k0 k1 false false true
| KV_after : khi k1 < klo k0 -> k1 < k0 -> apart k1 k0 -> key_view k0 k1 false false false.

Lemma key_viewP k0 k1 :
  word k0 -> word k1 -> k0 <> k1 ->
  key_view k0 k1 (key_covers k0 k1) (key_covers k1 k0) (k0 <? k1).
Proof.
  intros H0 H1 Hne.
  pose proof (map_key_covers_spec k0 k1 H0 H1 Hne) as S0.
  pose proof (map_key_covers_spec k1 k0 H1 H0 (not_eq_sym Hne)) as S1.
  pose proof (key_bounds k0 H0). pose proof (key_bounds k1 H1).
  pose proof (map_nested_left k0 k1 H0 H1). pose proof (map_nested_right k0 k1 H0 H1).
  pose proof (map_nested_left k1 k0 H1 H0). pose proof (map_nested_right k1 k0 H1 H0).
  pose proof (apart_disjoint k0 k1 H0 H1) as A0. pose proof (apart_disjoint k1 k0 H1 H0) as A1.
  assert (Ap : forall j k, ~ (klo j <= k <= khi j) -> ~ (klo k <= j <= khi k) -> j < k -> apart j k).
  { intros j k. unfold apart, klo, khi. lia. }
  destruct (key_covers k0 k1), (key_covers k1 k0), (Z.ltb_spec k0 k1);
    try (assert (k1 < k0) by lia); try (exfalso; lia); try (constructor; lia).
  - assert (apart k0 k1) by (apply Ap; [by intros ?%S0|by intros ?%S1|done]).
    constructor; [|done..]. unfold klo, khi. specialize (A0 ltac:(lia) ltac:(done)). lia.
  - assert (apart k1 k0) by (apply Ap; [by intros ?%S1|by intros ?%S0|done]).
    constructor; [|done..]. unfold klo, khi. specialize (A1 ltac:(lia) ltac:(done)). lia.
Qed.

(** The join of two keys apart, whose halves hold the intervals of both. *)
Lemma key_join_klo k0 k1 :
  word k0 -> word k1 -> k0 < k1 -> apart k0 k1 ->
  let j := key_join k0 k1 in
  key_join k1 k0 = j /\ word j /\ klo j <= klo k0 /\ khi k0 < j /\ j < klo k1 /\ khi k1 <= khi j.
Proof.
  intros H0 H1 Hlt Ha. destruct (key_join_spec k0 k1) as (?&?&?&?&?&?&?); [done..|].
  unfold klo, khi. cbn zeta. split_and!; done || lia.
Qed.

(** ** Roots *)

Lemma wf_bounded k l h r v : wf (Node k l h r v) -> bounded (klo k) (khi k) (Node k l h r v).
Proof.
  intros (Hk & _ & Bl & Br & _). pose proof (key_bounds k Hk). apply bounded_node. split_and!; try lia.
  - eapply bounded_mono; [exact Bl|lia|lia].
  - eapply bounded_mono; [exact Br|lia|lia].
Qed.

(** A tree in the interval of its root, as a part of a larger node. *)
Lemma wf_bounded_in lo hi k l h r v :
  wf (Node k l h r v) -> lo <= klo k -> khi k <= hi -> bounded lo hi (Node k l h r v).
Proof. intros Hm ??. by eapply bounded_mono; [apply wf_bounded|..]. Qed.

Lemma compact_nonempty m : wf m -> compact m -> is_null m = false -> exists x v, get m x = Some v.
Proof.
  induction m as [|k l IHl h r IHr v]; [done|]. intros (Hk & Hv & Bl & Br & Wl & Wr) (Hc & Cl & Cr) _.
  destruct h.
  - exists k, v. by rewrite get_eq.
  - destruct Hc as [|[Nl _]]; [done|]. destruct (IHl Wl Cl Nl) as (x & w & E).
    exists x, w. rewrite get_lt; [done|]. pose proof (get_in _ _ _ _ _ Bl E). lia.
Qed.

Lemma compact_null m : wf m -> compact m -> is_null m = true <-> forall x, get m x = None.
Proof.
  intros Hm Hc. split; [by destruct m|]. intros Ha. destruct (is_null m) eqn:En; [done|].
  destruct (compact_nonempty m Hm Hc En) as (x & v & E). by rewrite Ha in E.
Qed.

(** ** Equal bindings, equal trees *)

(** A compact node has bindings at or on both sides of its key, within its interval. *)
Lemma compact_span k l h r v :
  wf (Node k l h r v) -> compact (Node k l h r v) ->
  (exists x w, get (Node k l h r v) x = Some w /\ k <= x <= khi k) /\
  (exists y w, get (Node k l h r v) y = Some w /\ klo k <= y <= k).
Proof.
  intros (Hk & _ & Bl & Br & Wl & Wr) (Hc & Cl & Cr). pose proof (key_bounds k Hk). destruct h.
  - split; exists k, v; rewrite get_eq; split; done || lia.
  - destruct Hc as [|[Nl Nr]]; [done|].
    destruct (compact_nonempty l Wl Cl Nl) as (y & w & Ey), (compact_nonempty r Wr Cr Nr) as (x & w' & Ex).
    pose proof (get_in _ _ _ _ _ Bl Ey). pose proof (get_in _ _ _ _ _ Br Ex).
    split; [exists x, w'; rewrite get_gt by lia|exists y, w; rewrite get_lt by lia]; split; done || lia.
Qed.

Lemma same_root k0 l0 h0 r0 v0 k1 l1 h1 r1 v1 :
  let m0 := Node k0 l0 h0 r0 v0 in let m1 := Node k1 l1 h1 r1 v1 in
  wf m0 -> compact m0 -> wf m1 -> compact m1 -> (forall x, get m0 x = get m1 x) -> k0 = k1.
Proof.
  intros m0 m1 W0 C0 W1 C1 E. destruct (Z.eq_dec k0 k1) as [|Hne]; [done|exfalso].
  destruct (compact_span _ _ _ _ _ W0 C0) as [(x0 & a & X0 & ?) (y0 & b & Y0 & ?)].
  destruct (compact_span _ _ _ _ _ W1 C1) as [(x1 & c & X1 & ?) (y1 & d & Y1 & ?)].
  fold m0 in X0, Y0. fold m1 in X1, Y1. rewrite E in X0, Y0. rewrite <- E in X1, Y1.
  apply (get_in _ _ _ _ _ (wf_bounded _ _ _ _ _ W1)) in X0, Y0.
  apply (get_in _ _ _ _ _ (wf_bounded _ _ _ _ _ W0)) in X1, Y1.
  destruct (key_viewP k0 k1 (proj1 W0) (proj1 W1) Hne); lia.
Qed.

Lemma map_wf_ext m0 m1 :
  wf m0 -> compact m0 -> wf m1 -> compact m1 -> (forall x, get m0 x = get m1 x) -> m0 = m1.
Proof.
  revert m1. induction m0 as [|k l0 IHl h0 r0 IHr v0]; intros m1 W0 C0 W1 C1 E.
  { destruct m1 as [|k l h r v]; [done|]. assert (is_null (Node k l h r v) = true) as []%diff_false_true.
    apply compact_null; [done..|]. intros x. by rewrite <- E. }
  destruct m1 as [|k1 l1 h1 r1 v1].
  { assert (is_null (Node k l0 h0 r0 v0) = true) as []%diff_false_true. by apply compact_null. }
  assert (k = k1) as <- by by eapply same_root.
  destruct W0 as (Hk & Hv0 & Bl0 & Br0 & Wl0 & Wr0), W1 as (_ & Hv1 & Bl1 & Br1 & Wl1 & Wr1).
  destruct C0 as (_ & Cl0 & Cr0), C1 as (_ & Cl1 & Cr1).
  assert (h0 = h1 /\ v0 = v1) as [<- <-].
  { specialize (E k). rewrite !get_eq in E. destruct h0, h1; try done; [by simplify_eq|].
    destruct Hv0, Hv1; by subst. }
  f_equal.
  - apply IHl; try done. intros x. specialize (E x). revert E. get_at k x; [done| |];
      by rewrite (get_out _ _ l0 _ Bl0), (get_out _ _ l1 _ Bl1) by lia.
  - apply IHr; try done. intros x. specialize (E x). revert E. get_at k x; [| |done];
      by rewrite (get_out _ _ r0 _ Br0), (get_out _ _ r1 _ Br1) by lia.
Qed.

Lemma to_map_eq m0 m1 : wf m0 -> wf m1 -> to_map m0 = to_map m1 <-> forall x, get m0 x = get m1 x.
Proof.
  intros W0 W1. split.
  - intros E x. by rewrite <- !lookup_to_map, E.
  - intros E. apply map_eq. intros x. by rewrite !lookup_to_map.
Qed.

(** A map specified binding by binding. *)
Lemma to_map_is m (M : gmap Z Z) : wf m -> (forall x, get m x = M !! x) -> to_map m = M.
Proof. intros Hm E. apply map_eq. intros x. by rewrite lookup_to_map. Qed.
