(* ===== verification/UcmapOps.v ===== *)
(** * Constructive integer maps: search, insertion and removal

    Each operation keeps [wf] and [compact], and acts on the bindings as its
    documentation says, with one exception: inserting the value [0] at the key of
    a branch node ([is_branch]) does nothing. *)

From S2P Require Export UcmapInv.

(** ** Search *)

Lemma find_get m x : wf m -> word x -> cucon_ucmap_find m x = get m x.
Proof.
  intros Hm Hx. induction m as [|k l IHl h r IHr v]; [done|].
  destruct Hm as (Hk & _ & Bl & Br & Wl & Wr). cbn [cucon_ucmap_find].
  destruct (Z.eqb_spec x k) as [->|Hne]; [rewrite get_eq; by destruct h|].
  destruct (key_coverseq k x) eqn:C.
  - destruct (Z.ltb_spec x k); [rewrite get_lt by done; auto|rewrite get_gt by lia; auto].
  - apply key_coverseq_false in C; [|done..]. pose proof (key_bounds k Hk). get_at k x.
    + by rewrite (get_out _ _ l x Bl) by lia.
    + done.
    + by rewrite (get_out _ _ r x Br) by lia.
Qed.

(** The other searches walk the same path. *)
Lemma contains_find m x : cucon_ucmap_contains m x = bool_decide (is_Some (cucon_ucmap_find m x)).
Proof.
  induction m as [|k l IHl h r IHr v]; [done|]. simpl.
  destruct (x =? k); [by destruct h|]. destruct (key_coverseq k x); [|done]. by destruct (x <? k).
Qed.

Lemma find_ptr_find m x : cucon_ucmap_find_ptr m x = default NULL (cucon_ucmap_find m x).
Proof.
  induction m as [|k l IHl h r IHr v]; [done|]. simpl.
  destruct (x =? k); [by destruct h|]. destruct (key_coverseq k x); [|done]. by destruct (x <? k).
Qed.

Lemma find_int_find m x :
  cucon_ucmap_find_int m x = default cucon_ucmap_int_none (to_int <$> cucon_ucmap_find m x).
Proof.
  induction m as [|k l IHl h r IHr v]; [done|]. simpl.
  destruct (x =? k); [by destruct h|]. destruct (key_coverseq k x); [|done]. by destruct (x <? k).
Qed.

(** The four searches of a well-formed map return what the finite map binds to
    the key: whether there is a binding, the value or nothing, the value as a
    pointer or [NULL], and the value converted to [int] or [INT_MIN]. *)
Theorem ucmap_find_correct m x :
  wf m -> word x ->
  cucon_ucmap_find m x = to_map m !! x /\
  cucon_ucmap_contains m x = bool_decide (x ∈ dom (to_map m)) /\
  cucon_ucmap_find_ptr m x = default NULL (to_map m !! x) /\
  cucon_ucmap_find_int m x = default cucon_ucmap_int_none (to_int <$> to_map m !! x).
Proof.
  intros Hm Hx. rewrite contains_find, find_ptr_find, find_int_find, find_get, <- lookup_to_map by done.
  split_and!; try done. apply bool_decide_ext. by rewrite elem_of_dom.
Qed.

Definition sample : ucmap := Eval vm_compute in
  foldl (fun m e => cucon_ucmap_insert m e.1 e.2) Null [(5, 50); (0, 7); (96, 1); (64, 2); (2 ^ 63 + 1, 3)].

(** ** Building nodes *)

Lemma ptr_eq_spec m0 m1 : ptr_eq m0 m1 = true <-> m0 = m1.
Proof. apply bool_decide_eq_true. Qed.

(** A node is rebuilt only if a child has changed. *)
Lemma relink_left k l h r v l' :
  (if negb (ptr_eq l' l) then node_new_lr (Node k l h r v) l' r else Node k l h r v) = Node k l' h r v.
Proof. destruct (ptr_eq l' l) eqn:E; [|done]. by apply ptr_eq_spec in E as ->. Qed.

Lemma relink_right k l h r v r' :
  (if negb (ptr_eq r' r) then node_new_lr (Node k l h r v) l r' else Node k l h r v) = Node k l h r' v.
Proof. destruct (ptr_eq r' r) eqn:E; [|done]. by apply ptr_eq_spec in E as ->. Qed.

(** Joining two trees whose roots are apart. *)
Lemma map_wf_join k0 l0 h0 r0 v0 k1 l1 h1 r1 v1 :
  let m0 := Node k0 l0 h0 r0 v0 in let m1 := Node k1 l1 h1 r1 v1 in
  wf m0 -> wf m1 -> k0 < k1 -> apart k0 k1 ->
  let m := node_new_noval (key_join k0 k1) m0 m1 in
  key_join k1 k0 = key_join k0 k1 /\ wf m /\
  (forall a b, bounded a b m0 -> bounded a b m1 -> bounded a b m) /\
  forall g x, get m x = union_with g (get m0 x) (get m1 x).
Proof.
  intros m0 m1 W0 W1 Hlt Ha m.
  destruct (key_join_klo k0 k1 (proj1 W0) (proj1 W1) Hlt Ha) as (Ec & Hj & ?&?&?&?).
  pose proof (key_bounds k0 (proj1 W0)). pose proof (key_bounds k1 (proj1 W1)).
  assert (B0 : bounded (klo (key_join k0 k1)) (key_join k0 k1 - 1) m0) by (apply wf_bounded_in; done || lia).
  assert (B1 : bounded (key_join k0 k1 + 1) (khi (key_join k0 k1)) m1) by (apply wf_bounded_in; done || lia).
  split; [done|]. split; [|split].
  - split; [done|]. split; [by right|]. by split_and!.
  - intros a b Ba Bb. apply bounded_node. split_and!; try done;
      apply bounded_node in Ba as (_ & ? & _); apply bounded_node in Bb as (_ & ? & _); lia.
  - intros g x. subst m. unfold node_new_noval. get_at (key_join k0 k1) x.
    + rewrite (get_out _ _ m1 x B1) by lia. by destruct (get m0 x).
    + by rewrite (get_out _ _ m0 _ B0), (get_out _ _ m1 _ B1) by lia.
    + rewrite (get_out _ _ m0 x B0) by lia. by destruct (get m1 x).
Qed.

(** ** Insertion *)

(** [x] is the key of a node without a value. *)
Fixpoint is_branch (m : ucmap) (x : Z) : bool :=
  match m with
  | Null => false
  | Node k l h r _ => if x <? k then is_branch l x else if x =? k then negb h else is_branch r x
  end.

Lemma branch_nkeys m x : is_branch m x = true -> x ∈ nkeys m.
Proof.
  induction m as [|k l IHl h r IHr w]; [done|]. cbn [is_branch nkeys]. rewrite elem_of_app, elem_of_cons.
  destruct (Z.ltb_spec x k); [auto|]. destruct (Z.eqb_spec x k); auto.
Qed.

Lemma branch_out lo hi m x : bounded lo hi m -> ~ (lo <= x <= hi) -> is_branch m x = false.
Proof.
  rewrite bounded_elem. intros Hb Hn. destruct (is_branch m x) eqn:E; [|done].
  by apply branch_nkeys, Hb in E.
Qed.

(** The binding of [x] after the insertion at [key]. *)
Definition get_insert (m : ucmap) (key val x : Z) : option Z :=
  if (x =? key) && negb (is_branch m key && (val =? 0)) then Some val else get m x.

Definition insert_spec (m : ucmap) (key val : Z) (m' : ucmap) : Prop :=
  wf m' /\ (forall a b, bounded a b m -> a <= key <= b -> bounded a b m') /\
  forall x, get m' x = get_insert m key val x.

Lemma wf_leaf k v : word k -> wf (node_new_val k Null Null v).
Proof. intros Hk. split; [done|]. split; [by left|]. by split_and!. Qed.

Lemma get_leaf k v x : get (node_new_val k Null Null v) x = if x =? k then Some v else None.
Proof. simpl. by destruct (x <? k) eqn:E, (Z.eqb_spec x k) as [->|]; rewrite ?Z.ltb_irrefl in E. Qed.

(** A new root above a tree that lies on one side of it. *)
Lemma insert_above k l h r v key val :
  let m := Node k l h r v in
  wf m -> word key -> k <> key -> key_covers key k = true -> key_covers k key = false ->
  insert_spec m key val (if k <? key then node_new_val key m Null val else node_new_val key Null m val).
Proof.
  intros m Hm Hk Hne C C'. pose proof (key_viewP k key (proj1 Hm) Hk Hne) as V. rewrite C, C' in V.
  pose proof (wf_bounded _ _ _ _ _ Hm) as Hb. fold m in Hb.
  pose proof (key_bounds key Hk). pose proof (key_bounds k (proj1 Hm)).
  assert (Hnb : is_branch m key = false) by (apply (branch_out _ _ _ _ Hb); inversion V; lia).
  assert (Hnk : get m key = None) by (apply (get_out _ _ _ _ Hb); inversion V; lia).
  inversion V as [| |B0 B1 Hlt|B0 B1 Hlt| |]; subst; clear V.
  - split; [|split].
    + split; [done|]. split; [by left|]. split; [apply wf_bounded_in; [done|lia..]|]. by split_and!.
    + intros a b Ba Hab. apply bounded_node. split_and!; done || lia.
    + intros x. unfold get_insert, node_new_val. rewrite Hnb. cbn [andb negb]. rewrite andb_true_r.
      get_at key x; rewrite ?Z.eqb_refl, ?(proj2 (Z.eqb_neq x key)) by lia; try done.
      symmetry. apply (get_out _ _ _ _ Hb). lia.
  - split; [|split].
    + split; [done|]. split; [by left|]. split; [done|]. split; [apply wf_bounded_in; [done|lia..]|]. by split_and!.
    + intros a b Ba Hab. apply bounded_node. split_and!; done || lia.
    + intros x. unfold get_insert, node_new_val. rewrite Hnb. cbn [andb negb]. rewrite andb_true_r.
      get_at key x; rewrite ?Z.eqb_refl, ?(proj2 (Z.eqb_neq x key)) by lia; try done.
      symmetry. apply (get_out _ _ _ _ Hb). lia.
Qed.

Lemma insert_apart k l h r v key val :
  let m := Node k l h r v in
  wf m -> word key -> k <> key -> key_covers key k = false -> key_covers k key = false ->
  insert_spec m key val (insert_beside m k key val).
Proof.
  intros m Hm Hk Hne C C'. unfold insert_beside. rewrite C.
  pose proof (key_viewP k key (proj1 Hm) Hk Hne) as V. rewrite C, C' in V.
  pose proof (wf_bounded _ _ _ _ _ Hm) as Hb. fold m in Hb.
  pose proof (key_bounds key Hk). pose proof (key_bounds k (proj1 Hm)).
  assert (Hnb : is_branch m key = false) by (apply (branch_out _ _ _ _ Hb); inversion V; lia).
  assert (Hnk : get m key = None) by (apply (get_out _ _ _ _ Hb); inversion V; lia).
  assert (Hg : forall x, get_insert m key val x =
    union_with (fun a _ => Some a) (get m x) (get (node_new_val key Null Null val) x)).
  { intros x. unfold get_insert. rewrite Hnb, get_leaf. cbn [andb negb]. rewrite andb_true_r.
    destruct (Z.eqb_spec x key) as [->|]; [by rewrite Hnk|by destruct (get m x)]. }
  assert (Hl : forall a b, a <= key <= b -> bounded a b (node_new_val key Null Null val)).
  { intros a b ?. apply bounded_node. split_and!; done || lia. }
  inversion V as [| | | |B0 Hlt Ha|B0 Hlt Ha]; subst; clear V.
  - rewrite (proj2 (Z.ltb_ge key k)) by lia.
    destruct (map_wf_join _ _ _ _ _ key Null true Null val Hm (wf_leaf key val Hk) Hlt Ha) as (-> & Hw & Hbd & Hget).
    split; [done|]. split; [auto|]. intros x. by rewrite Hg, (Hget (fun a _ => Some a)).
  - rewrite (proj2 (Z.ltb_lt key k)) by lia.
    destruct (map_wf_join key Null true Null val _ _ _ _ _ (wf_leaf key val Hk) Hm Hlt Ha) as (_ & Hw & Hbd & Hget).
    split; [done|]. split; [auto|]. intros x. rewrite Hg, (Hget (fun a _ => Some a)). fold (node_new_val key Null Null val).
    fold m. rewrite get_leaf. destruct (Z.eqb_spec x key) as [->|]; [by rewrite Hnk|by destruct (get m x)].
Qed.

(** Replacing a child by the result of inserting into it. *)
Lemma insert_left k l h r v key val l' :
  wf (Node k l h r v) -> klo k <= key < k -> insert_spec l key val l' ->
  insert_spec (Node k l h r v) key val (Node k l' h r v).
Proof.
  intros (Hk & Hv & Bl & Br & Wl & Wr) Hr (W' & B' & G'). split; [|split].
  - split_and!; try done. apply B'; [done|lia].
  - intros a b (Ba & ? & ?)%bounded_node Hab. apply bounded_node. split_and!; try lia; auto.
  - intros x. unfold get_insert in *. cbn [is_branch]. rewrite (proj2 (Z.ltb_lt key k)) by lia.
    get_at k x; [by rewrite G'|..]; by rewrite (proj2 (Z.eqb_neq _ key)) by lia.
Qed.

Lemma insert_right k l h r v key val r' :
  wf (Node k l h r v) -> k < key <= khi k -> insert_spec r key val r' ->
  insert_spec (Node k l h r v) key val (Node k l h r' v).
Proof.
  intros (Hk & Hv & Bl & Br & Wl & Wr) Hr (W' & B' & G'). split; [|split].
  - split_and!; try done. apply B'; [done|lia].
  - intros a b (Ba & ? & ?)%bounded_node Hab. apply bounded_node. split_and!; try lia; auto.
  - intros x. unfold get_insert in *. cbn [is_branch].
    rewrite (proj2 (Z.ltb_ge key k)), (proj2 (Z.eqb_neq key k)) by lia.
    get_at k x; [..|by rewrite G']; by rewrite (proj2 (Z.eqb_neq _ key)) by lia.
Qed.

Lemma insert_here k l h r v val :
  wf (Node k l h r v) ->
  insert_spec (Node k l h r v) k val (if v =? val then Node k l h r v else node_new_val k l r val).
Proof.
  intros Hm. pose proof Hm as (Hk & Hv & Bl & Br & Wl & Wr). split; [|split].
  - destruct (v =? val); [done|]. split; [done|]. split; [by left|]. by split_and!.
  - intros a b Ba _. apply bounded_node in Ba. destruct (v =? val); by apply bounded_node.
  - intros x. unfold get_insert. cbn [is_branch]. rewrite Z.ltb_irrefl, Z.eqb_refl.
    destruct (Z.eqb_spec v val) as [->|Hne].
    + destruct (Z.eqb_spec x k) as [->|]; [|done]. rewrite get_eq. cbn [andb]. destruct h; [done|].
      destruct Hv as [|E]; [done|]. by rewrite E.
    + assert (negb (negb h && (val =? 0)) = true) as ->.
      { destruct h; [done|]. destruct Hv as [|E]; [done|]. destruct (Z.eqb_spec val 0); [congruence|done]. }
      rewrite andb_true_r. unfold node_new_val.
      get_at k x; by rewrite ?Z.eqb_refl, ?(proj2 (Z.eqb_neq x k)) by lia.
Qed.

Lemma map_insert_wf m key val : wf m -> word key -> insert_spec m key val (cucon_ucmap_insert m key val).
Proof.
  intros Hm Hk. induction m as [|k l IHl h r IHr v].
  { split; [by apply wf_leaf|]. split.
    - intros a b _ ?. apply bounded_node. split_and!; done || lia.
    - intros x. unfold get_insert. simpl is_branch. cbn [cucon_ucmap_insert]. rewrite get_leaf.
      cbn [andb negb]. by rewrite andb_true_r. }
  cbn [cucon_ucmap_insert]. destruct (Z.eqb_spec k key) as [<-|Hne]; [by apply insert_here|].
  pose proof Hm as (Hkw & _ & _ & _ & Wl & Wr).
  destruct (key_covers k key) eqn:C.
  - apply map_key_covers_spec in C; [|done..]. destruct (Z.ltb_spec key k).
    + rewrite relink_left. apply insert_left; [done|lia|auto].
    + rewrite relink_right. apply insert_right; [done|lia|auto].
  - destruct (key_covers key k) eqn:C'.
    + unfold insert_beside. rewrite C'. by apply insert_above.
    + by apply insert_apart.
Qed.

Lemma insert_not_null m key val : is_null (cucon_ucmap_insert m key val) = false.
Proof.
  destruct m as [|k l h r v]; [done|]. cbn [cucon_ucmap_insert]. unfold insert_beside.
  rewrite relink_left, relink_right.
  destruct (k =? key), (v =? val), (key_covers k key), (key <? k), (key_covers key k), (k <? key); done.
Qed.

Lemma insert_compact m key val : compact m -> compact (cucon_ucmap_insert m key val).
Proof.
  induction m as [|k l IHl h r IHr v]; intros Hc; [by split; [left|]|].
  pose proof Hc as (Hh & Cl & Cr). cbn [cucon_ucmap_insert]. unfold insert_beside.
  rewrite relink_left, relink_right.
  pose proof (insert_not_null l key val). pose proof (insert_not_null r key val).
  destruct (k =? key), (v =? val), (key_covers k key), (key <? k), (key_covers key k), (k <? key);
    simpl; try done; tauto.
Qed.

Lemma to_map_insert m key val :
  wf m -> word key ->
  to_map (cucon_ucmap_insert m key val) =
    if is_branch m key && (val =? 0) then to_map m else <[key := val]> (to_map m).
Proof.
  intros Hm Hk. destruct (map_insert_wf m key val Hm Hk) as (W & _ & G).
  apply to_map_is; [done|]. intros x. rewrite G. unfold get_insert.
  destruct (_ && (val =? 0)); cbn [negb].
  - by rewrite andb_false_r, lookup_to_map.
  - rewrite andb_true_r, lookup_insert, lookup_to_map by done.
    destruct (Z.eqb_spec x key) as [->|]; [by rewrite decide_True|by rewrite decide_False].
Qed.

Lemma to_int_wrap i : - 2 ^ 31 <= i < 2 ^ 31 -> to_int (wrap i) = i.
Proof.
  intros Hi. unfold to_int, wrap, wrapw. cbn zeta.
  destruct (Z.ltb_spec ((i mod 2 ^ 64) mod 2 ^ 32) (2 ^ 31)); dlia.
Qed.

(** C27: [cucon_ucmap_insert] keeps the invariants and binds the key to the value,
    leaving all other bindings alone, except that inserting [0] at the key of a
    branch node changes nothing.  An [int] goes in and out unchanged. *)
Theorem ucmap_insert_correct m key val :
  wf m -> word key ->
  wf (cucon_ucmap_insert m key val) /\
  (compact m -> compact (cucon_ucmap_insert m key val)) /\
  to_map (cucon_ucmap_insert m key val) =
    (if is_branch m key && (val =? 0) then to_map m else <[key := val]> (to_map m)) /\
  (- 2 ^ 31 <= val < 2 ^ 31 -> is_branch m key = false \/ val <> 0 ->
   cucon_ucmap_find_int (cucon_ucmap_insert_int m key val) key = val).
Proof.
  intros Hm Hk. split; [by apply map_insert_wf|]. split; [apply insert_compact|]. split; [by apply to_map_insert|].
  intros Hi Hb. unfold cucon_ucmap_insert_int.
  destruct (map_insert_wf m key (wrap val) Hm Hk) as (W & _ & G). rewrite find_int_find, find_get, G by done.
  unfold get_insert. rewrite Z.eqb_refl.
  assert (is_branch m key && (wrap val =? 0) = false) as ->.
  { destruct Hb as [->|Hv]; [done|]. apply andb_false_iff. right. apply Z.eqb_neq.
    unfold wrap. dlia. }
  simpl. by apply to_int_wrap.
Qed.

Lemma ucmap_insert_correct_witness :
  wf sample /\ word 66 /\ to_map (cucon_ucmap_insert sample 66 9) = <[66 := 9]> (to_map sample) /\
  cucon_ucmap_find_int (cucon_ucmap_insert_int sample 66 (-9)) 66 = -9.
Proof.
  assert (Hm : wf sample) by wf_compute. assert (Hk : word 66) by wf_compute.
  split; [exact Hm|]. split; [exact Hk|]. split.
  - exact (proj1 (proj2 (proj2 (ucmap_insert_correct sample 66 9 Hm Hk)))).
  - refine (proj2 (proj2 (proj2 (ucmap_insert_correct sample 66 (-9) Hm Hk))) _ _); [lia|right; lia].
Defined.

(** The exception is real: the join [2] of the keys [1] and [3] is a branch node. *)
Lemma ucmap_insert_zero_lost :
  let m := cucon_ucmap_insert (cucon_ucmap_singleton 1 10) 3 30 in
  wf m /\ compact m /\ cucon_ucmap_insert m 2 0 = m /\ cucon_ucmap_contains (cucon_ucmap_insert m 2 0) 2 = false.
Proof. split; [wf_compute|]. split; [wf_compute|]. by split. Qed.

(** ** Removal *)

Definition erase_spec (m : ucmap) (key : Z) (m' : ucmap) : Prop :=
  wf m' /\ (forall a b, bounded a b m -> bounded a b m') /\
  forall x, get m' x = if x =? key then None else get m x.

(** A branch node with one child can be replaced by it. *)
Lemma erase_only_right k r v m key :
  erase_spec m key (Node k Null false r v) -> erase_spec m key r.
Proof.
  intros ((Hk & _ & _ & Br & _ & Wr) & B & G). split; [done|]. split.
  - intros a b Hb%B. by apply bounded_node in Hb as (_ & _ & ?).
  - intros x. rewrite <- G. get_at k x; [..|done]; by rewrite (get_out _ _ r _ Br) by lia.
Qed.

Lemma erase_only_left k l v m key :
  erase_spec m key (Node k l false Null v) -> erase_spec m key l.
Proof.
  intros ((Hk & _ & Bl & _ & Wl & _) & B & G). split; [done|]. split.
  - intros a b Hb%B. by apply bounded_node in Hb as (? & _ & _).
  - intros x. rewrite <- G. get_at k x; [done|..]; by rewrite (get_out _ _ l _ Bl) by lia.
Qed.

Lemma erase_left k l h r v key l' :
  wf (Node k l h r v) -> key < k -> erase_spec l key l' ->
  erase_spec (Node k l h r v) key (Node k l' h r v).
Proof.
  intros (Hk & Hv & Bl & Br & Wl & Wr) Hlt (W' & B' & G'). split; [|split].
  - split_and!; auto.
  - intros a b (Ba & ? & ?)%bounded_node. apply bounded_node. split_and!; try lia; auto.
  - intros x. get_at k x; [by rewrite G'|..]; by rewrite (proj2 (Z.eqb_neq _ key)) by lia.
Qed.

Lemma erase_right k l h r v key r' :
  wf (Node k l h r v) -> k < key -> erase_spec r key r' ->
  erase_spec (Node k l h r v) key (Node k l h r' v).
Proof.
  intros (Hk & Hv & Bl & Br & Wl & Wr) Hlt (W' & B' & G'). split; [|split].
  - split_and!; auto.
  - intros a b (Ba & ? & ?)%bounded_node. apply bounded_node. split_and!; try lia; auto.
  - intros x. get_at k x; [..|by rewrite G']; by rewrite (proj2 (Z.eqb_neq _ key)) by lia.
Qed.

Lemma erase_here k l h r v :
  wf (Node k l h r v) -> erase_spec (Node k l h r v) k (node_new_noval k l r).
Proof.
  intros (Hk & Hv & Bl & Br & Wl & Wr). split; [|split].
  - split; [done|]. split; [by right|]. by split_and!.
  - intros a b Ba. apply bounded_node in Ba. by apply bounded_node.
  - intros x. unfold node_new_noval.
    get_at k x; by rewrite ?Z.eqb_refl, ?(proj2 (Z.eqb_neq x k)) by lia.
Qed.

Lemma erase_absent m key : wf m -> get m key = None -> erase_spec m key m.
Proof.
  intros Hm Hn. split; [done|]. split; [done|]. intros x.
  by destruct (Z.eqb_spec x key) as [->|].
Qed.

Lemma is_null_eq m : is_null m = true -> m = Null.
Proof. by destruct m. Qed.

Lemma map_erase_wf m key : wf m -> word key -> erase_spec m key (cucon_ucmap_erase m key).
Proof.
  intros Hm Hk. induction m as [|k l IHl h r IHr v]; [by apply erase_absent|].
  cbn [cucon_ucmap_erase]. pose proof Hm as (Hkw & _ & Bl & Br & Wl & Wr).
  destruct (Z.eqb_spec k key) as [<-|Hne].
  { pose proof (erase_here k l h r v Hm) as E. destruct h; [|apply erase_absent; [done|by rewrite get_eq]].
    destruct (is_null l) eqn:El; [apply is_null_eq in El as ->; by eapply erase_only_right|].
    destruct (is_null r) eqn:Er; [apply is_null_eq in Er as ->; by eapply erase_only_left|done]. }
  destruct (key_covers k key) eqn:C.
  - apply map_key_covers_spec in C; [|done..]. destruct (Z.ltb_spec key k).
    + pose proof (erase_left k l h r v key _ Hm ltac:(lia) (IHl Wl)) as E. rewrite relink_left.
      destruct (is_null (cucon_ucmap_erase l key)) eqn:En; [|done]. apply is_null_eq in En.
      rewrite En in *. destruct h; [done|]. by eapply erase_only_right.
    + pose proof (erase_right k l h r v key _ Hm ltac:(lia) (IHr Wr)) as E. rewrite relink_right.
      destruct (is_null (cucon_ucmap_erase r key)) eqn:En; [|done]. apply is_null_eq in En.
      rewrite En in *. destruct h; [done|]. by eapply erase_only_left.
  - apply erase_absent; [done|]. apply (get_out _ _ _ _ (wf_bounded _ _ _ _ _ Hm)).
    intros Hr. rewrite (proj2 (map_key_covers_spec k key Hkw Hk Hne) Hr) in C. done.
Qed.

Lemma erase_compact m key : compact m -> compact (cucon_ucmap_erase m key).
Proof.
  induction m as [|k l IHl h r IHr v]; intros Hc; [done|]. pose proof Hc as (Hh & Cl & Cr).
  cbn [cucon_ucmap_erase]. rewrite relink_left, relink_right. specialize (IHl Cl). specialize (IHr Cr).
  destruct (k =? key), (key_covers k key), (key <? k), (is_null (cucon_ucmap_erase l key)) eqn:El,
    (is_null (cucon_ucmap_erase r key)) eqn:Er, (is_null l) eqn:El', (is_null r) eqn:Er', h;
    simpl; rewrite ?El, ?Er, ?El', ?Er'; try done; try tauto;
    destruct Hh as [|[]]; try done; tauto.
Qed.

(** C28: [cucon_ucmap_erase] keeps the invariants and removes exactly the binding of
    the key; a map without the key is returned as the same tree, and an insertion
    is undone by it. *)
Theorem ucmap_erase_correct m key val :
  wf m -> word key ->
  wf (cucon_ucmap_erase m key) /\
  (compact m -> compact (cucon_ucmap_erase m key)) /\
  to_map (cucon_ucmap_erase m key) = delete key (to_map m) /\
  (compact m -> to_map m !! key = None -> cucon_ucmap_erase m key = m /\
   cucon_ucmap_erase (cucon_ucmap_insert m key val) key = m).
Proof.
  intros Hm Hk. destruct (map_erase_wf m key Hm Hk) as (W & _ & G).
  split; [done|]. split; [apply erase_compact|]. split.
  - apply to_map_is; [done|]. intros x. rewrite G. destruct (Z.eqb_spec x key) as [->|].
    + by rewrite lookup_delete_eq.
    + by rewrite lookup_delete_ne, lookup_to_map by done.
  - rewrite lookup_to_map by done. intros Hc Hn. destruct (map_insert_wf m key val Hm Hk) as (Wi & _ & Gi).
    destruct (map_erase_wf _ key Wi Hk) as (Wei & _ & Gei).
    split; (apply map_wf_ext; [done|by repeat first [apply erase_compact|apply insert_compact]|done|done|]).
    + intros x. rewrite G. by destruct (Z.eqb_spec x key) as [->|].
    + intros x. rewrite Gei, Gi. unfold get_insert. by destruct (Z.eqb_spec x key) as [->|].
Qed.

Lemma ucmap_erase_correct_witness :
  wf sample /\ compact sample /\ to_map sample !! 66 = None /\
  cucon_ucmap_erase (cucon_ucmap_insert sample 66 9) 66 = sample /\
  to_map (cucon_ucmap_erase sample 64) = delete 64 (to_map sample).
Proof.
  assert (Hm : wf sample) by wf_compute. assert (Hc : compact sample) by wf_compute.
  assert (Hk : word 66) by wf_compute. assert (Hk' : word 64) by wf_compute.
  assert (Hn : to_map sample !! 66 = None) by (vm_compute; reflexivity).
  split; [exact Hm|]. split; [exact Hc|]. split; [exact Hn|]. split.
  - exact (proj2 (proj2 (proj2 (proj2 (ucmap_erase_correct sample 66 9 Hm Hk))) Hc Hn)).
  - exact (proj1 (proj2 (proj2 (ucmap_erase_correct sample 64 0 Hm Hk')))).
Defined.
