(* ===== verification/UcmapUnion.v ===== *)
(** * Constructive integer maps: unions

    [cucon_ucmap_combined_union] and [cucon_ucmap_left_union], which is the
    former with the callback that keeps the first value. *)

From S2P Require Export UcmapOps.

Section combined.
Variable f : Z -> Z -> Z.

Definition union_spec (g : Z -> Z -> Z) (M0 M1 M : ucmap) : Prop :=
  wf M /\ (forall a b, bounded a b M0 -> bounded a b M1 -> bounded a b M) /\
  forall x, get M x = union_with (fun u v => Some (g u v)) (get M0 x) (get M1 x).

Lemma union_spec_flip g M0 M1 M : union_spec (flip g) M1 M0 M -> union_spec g M0 M1 M.
Proof.
  intros (W & B & G). split; [done|]. split; [auto|]. intros x. rewrite G.
  by destruct (get M0 x), (get M1 x).
Qed.

Lemma union_with_none_r (g : Z -> Z -> option Z) (o : option Z) : union_with g o None = o.
Proof. by destruct o. Qed.

(** ** Grafting into one side of a node *)

Lemma graft_left g k l h r v M1 l' :
  wf (Node k l h r v) -> bounded (klo k) (k - 1) M1 -> union_spec g l M1 l' ->
  union_spec g (Node k l h r v) M1 (Node k l' h r v).
Proof.
  intros (Hk & Hv & Bl & Br & Wl & Wr) B1 (W & B & G). split; [|split].
  - split_and!; auto.
  - intros a b (? & ? & ?)%bounded_node ?. apply bounded_node. split_and!; try lia; auto.
  - intros x. get_at k x; [done|..]; by rewrite (get_out _ _ M1 _ B1), union_with_none_r by lia.
Qed.

Lemma graft_right g k l h r v M1 r' :
  wf (Node k l h r v) -> bounded (k + 1) (khi k) M1 -> union_spec g r M1 r' ->
  union_spec g (Node k l h r v) M1 (Node k l h r' v).
Proof.
  intros (Hk & Hv & Bl & Br & Wl & Wr) B1 (W & B & G). split; [|split].
  - split_and!; auto.
  - intros a b (? & ? & ?)%bounded_node ?. apply bounded_node. split_and!; try lia; auto.
  - intros x. get_at k x; [..|done]; by rewrite (get_out _ _ M1 _ B1), union_with_none_r by lia.
Qed.

(** Two nodes with the same key. *)
Lemma combined_node_spec k l0 h0 r0 v0 l1 h1 r1 v1 l r :
  let M0 := Node k l0 h0 r0 v0 in let M1 := Node k l1 h1 r1 v1 in
  wf M0 -> wf M1 -> union_spec f l0 l1 l -> union_spec f r0 r1 r ->
  union_spec f M0 M1 (combined_node f M0 M1 l r).
Proof.
  intros M0 M1 (Hk & Hv0 & Bl0 & Br0 & _) (_ & Hv1 & Bl1 & Br1 & _) (Wl & Bl & Gl) (Wr & Br & Gr).
  subst M0 M1. cbn [combined_node].
  set (h := h0 || h1). set (v := if h0 then (if h1 then f v0 v1 else v0) else if h1 then v1 else 0).
  replace (if negb h0 then _ else _) with (Node k l h r v) by (subst h v; by destruct h0, h1).
  split; [|split].
  - split; [done|]. split; [subst h v; destruct h0, h1; auto|]. split_and!; auto.
  - intros a b (?&?&?)%bounded_node (?&?&?)%bounded_node. apply bounded_node. split_and!; try lia; auto.
  - intros x. get_at k x; [done| |done]. subst h v. by destruct h0, h1.
Qed.

(** ** The union *)

Lemma combined_union_node k0 l0 h0 r0 v0 k1 l1 h1 r1 v1 :
  let M0 := Node k0 l0 h0 r0 v0 in let M1 := Node k1 l1 h1 r1 v1 in
  let union := cucon_ucmap_combined_union f in
  union M0 M1 =
  if k0 =? k1 then combined_node f M0 M1 (union l0 l1) (union r0 r1)
  else if key_covers k0 k1 then
    if k1 <? k0 then Node k0 (union l0 M1) h0 r0 v0 else Node k0 l0 h0 (union r0 M1) v0
  else if key_covers k1 k0 then
    if k0 <? k1 then Node k1 (union M0 l1) h1 r1 v1 else Node k1 l1 h1 (union M0 r1) v1
  else union_apart M0 M1 k0 k1.
Proof. reflexivity. Qed.

Lemma combined_union_null M : cucon_ucmap_combined_union f M Null = M.
Proof. by destruct M. Qed.

Lemma ltb_flip a b : a <> b -> (a <? b) = negb (b <? a).
Proof. intros Hne. destruct (Z.ltb_spec a b), (Z.ltb_spec b a); done || lia. Qed.

Lemma combined_union_wf M0 M1 :
  wf M0 -> wf M1 -> union_spec f M0 M1 (cucon_ucmap_combined_union f M0 M1).
Proof.
  revert M1. induction M0 as [|k0 l0 IHl0 h0 r0 IHr0 v0].
  { intros M1 _ W1. assert (cucon_ucmap_combined_union f Null M1 = M1) as -> by by destruct M1.
    split; [done|]. split; [done|]. intros x. by destruct (get M1 x). }
  intros M1 W0. induction M1 as [|k1 l1 IHl1 h1 r1 IHr1 v1]; intros W1.
  { rewrite combined_union_null. split; [done|]. split; [done|]. intros x. by destruct (get (Node _ _ _ _ _) x). }
  rewrite combined_union_node. cbn zeta. set (M0 := Node k0 l0 h0 r0 v0) in *. set (M1 := Node k1 l1 h1 r1 v1) in *.
  pose proof W0 as (Hk0 & _ & _ & _ & Wl0 & Wr0). pose proof W1 as (Hk1 & _ & _ & _ & Wl1 & Wr1).
  destruct (Z.eqb_spec k0 k1) as [E|Hne].
  { subst k1. apply combined_node_spec; [done|done|by apply IHl0|by apply IHr0]. }
  rewrite (ltb_flip k1 k0) by done.
  assert (J0 : k0 < k1 -> apart k0 k1 -> union_spec f M0 M1 (node_new_noval (key_join k0 k1) M0 M1)).
  { intros Hlt Ha. destruct (map_wf_join k0 l0 h0 r0 v0 k1 l1 h1 r1 v1 W0 W1 Hlt Ha) as (_ & W & B & G).
    split; [done|]. split; [done|]. intros x. apply G. }
  assert (J1 : k1 < k0 -> apart k1 k0 -> union_spec f M0 M1 (node_new_noval (key_join k0 k1) M1 M0)).
  { intros Hlt Ha. destruct (map_wf_join k1 l1 h1 r1 v1 k0 l0 h0 r0 v0 W1 W0 Hlt Ha) as (E & W & B & G).
    rewrite E. apply union_spec_flip. split; [done|]. split; [done|]. intros x. apply G. }
  pose proof (key_bounds k0 Hk0). pose proof (key_bounds k1 Hk1). unfold union_apart.
  destruct (key_viewP k0 k1 Hk0 Hk1 Hne) as [| | | | |]; cbn [negb].
  - apply graft_left; [done|apply wf_bounded_in; done || lia|by apply IHl0].
  - apply graft_right; [done|apply wf_bounded_in; done || lia|by apply IHr0].
  - apply union_spec_flip, graft_left; [done|apply wf_bounded_in; done || lia|apply union_spec_flip; by apply IHl1].
  - apply union_spec_flip, graft_right; [done|apply wf_bounded_in; done || lia|apply union_spec_flip; by apply IHr1].
  - by apply J0.
  - by apply J1.
Qed.

Lemma combined_union_is_null M0 M1 :
  is_null (cucon_ucmap_combined_union f M0 M1) = is_null M0 && is_null M1.
Proof.
  destruct M0 as [|k0 l0 h0 r0 v0]; [by destruct M1|]. destruct M1 as [|k1 l1 h1 r1 v1]; [done|].
  rewrite combined_union_node. unfold union_apart. simpl combined_node.
  destruct (k0 =? k1), (key_covers k0 k1), (key_covers k1 k0), (k0 <? k1), (k1 <? k0), h0, h1; done.
Qed.

Lemma combined_union_compact M0 M1 :
  compact M0 -> compact M1 -> compact (cucon_ucmap_combined_union f M0 M1).
Proof.
  revert M1. induction M0 as [|k0 l0 IHl0 h0 r0 IHr0 v0]; [by intros []|].
  intros M1 C0. induction M1 as [|k1 l1 IHl1 h1 r1 IHr1 v1]; intros C1; [done|].
  rewrite combined_union_node. cbn zeta. set (M0 := Node k0 l0 h0 r0 v0) in *. set (M1 := Node k1 l1 h1 r1 v1) in *.
  pose proof C0 as (H0 & Cl0 & Cr0). pose proof C1 as (H1 & Cl1 & Cr1).
  assert (Hn : compact (combined_node f M0 M1 (cucon_ucmap_combined_union f l0 l1) (cucon_ucmap_combined_union f r0 r1))).
  { pose proof (IHl0 l1 Cl0 Cl1). pose proof (IHr0 r1 Cr0 Cr1).
    subst M0 M1. destruct h0, h1; simpl; rewrite ?combined_union_is_null; auto.
    destruct H0 as [|[-> ->]]; [done|]. auto. }
  pose proof (IHl0 M1 Cl0 C1). pose proof (IHr0 M1 Cr0 C1). specialize (IHl1 Cl1). specialize (IHr1 Cr1).
  unfold union_apart.
  destruct (k0 =? k1), (key_covers k0 k1), (key_covers k1 k0), (k0 <? k1), (k1 <? k0); try done;
    cbn [compact node_new_noval is_null]; rewrite ?combined_union_is_null; subst M0 M1;
    cbn [is_null andb]; rewrite ?andb_false_r; try tauto; split; auto; tauto.
Qed.

End combined.

(** ** The left-biased union *)

Definition keep_first (u v : Z) : Z := u.

Lemma left_union_node k0 l0 h0 r0 v0 k1 l1 h1 r1 v1 :
  let M0 := Node k0 l0 h0 r0 v0 in let M1 := Node k1 l1 h1 r1 v1 in
  let union := cucon_ucmap_left_union in
  union M0 M1 =
  if k0 =? k1 then node_new_lr (if h0 then M0 else M1) (union l0 l1) (union r0 r1)
  else if key_covers k0 k1 then
    if k1 <? k0 then Node k0 (union l0 M1) h0 r0 v0 else Node k0 l0 h0 (union r0 M1) v0
  else if key_covers k1 k0 then
    if k0 <? k1 then Node k1 (union M0 l1) h1 r1 v1 else Node k1 l1 h1 (union M0 r1) v1
  else union_apart M0 M1 k0 k1.
Proof. reflexivity. Qed.

Lemma left_union_combined M0 M1 :
  wf M0 -> wf M1 -> cucon_ucmap_left_union M0 M1 = cucon_ucmap_combined_union keep_first M0 M1.
Proof.
  revert M1. induction M0 as [|k0 l0 IHl0 h0 r0 IHr0 v0]; [by intros []|].
  intros M1 W0. induction M1 as [|k1 l1 IHl1 h1 r1 IHr1 v1]; intros W1; [done|].
  rewrite left_union_node, combined_union_node. cbn zeta.
  pose proof W0 as (_ & Hv0 & _ & _ & Wl0 & Wr0). pose proof W1 as (_ & Hv1 & _ & _ & Wl1 & Wr1).
  destruct (Z.eqb_spec k0 k1) as [<-|Hne].
  { rewrite IHl0, IHr0 by done. destruct h0; [by destruct h1|]. destruct h1; [done|].
    destruct Hv1 as [| ->]; done. }
  rewrite (IHl0 _ Wl0 W1), (IHr0 _ Wr0 W1), (IHl1 Wl1), (IHr1 Wr1). done.
Qed.

(** C29: the combined union of two well-formed maps binds the keys of either, with
    the callback's result for the keys of both, and the left union is the map
    union that prefers the first; both keep the invariants. *)
Theorem ucmap_union_correct f M0 M1 :
  wf M0 -> wf M1 ->
  (wf (cucon_ucmap_combined_union f M0 M1) /\ wf (cucon_ucmap_left_union M0 M1)) /\
  (compact M0 -> compact M1 ->
   compact (cucon_ucmap_combined_union f M0 M1) /\ compact (cucon_ucmap_left_union M0 M1)) /\
  to_map (cucon_ucmap_combined_union f M0 M1)
    = union_with (fun u v => Some (f u v)) (to_map M0) (to_map M1) /\
  to_map (cucon_ucmap_left_union M0 M1) = to_map M0 ∪ to_map M1.
Proof.
  intros W0 W1. rewrite left_union_combined by done.
  destruct (combined_union_wf f M0 M1 W0 W1) as (W & _ & G).
  destruct (combined_union_wf keep_first M0 M1 W0 W1) as (W' & _ & G').
  split; [done|]. split; [intros; split; by apply combined_union_compact|]. split.
  - apply to_map_is; [done|]. intros x. by rewrite G, lookup_union_with, !lookup_to_map.
  - apply to_map_is; [done|]. intros x. rewrite G', lookup_union, !lookup_to_map by done.
    by destruct (get M0 x), (get M1 x).
Qed.

Definition sample2 : ucmap := Eval vm_compute in
  foldl (fun m e => cucon_ucmap_insert m e.1 e.2) Null [(96, 4); (97, 5); (32, 6); (2 ^ 63, 8)].

Lemma ucmap_union_correct_witness :
  wf sample /\ wf sample2 /\
  to_map (cucon_ucmap_combined_union Z.add sample sample2)
    = union_with (fun u v => Some (u + v)) (to_map sample) (to_map sample2) /\
  cucon_ucmap_find (cucon_ucmap_combined_union Z.add sample sample2) 96 = Some 5.
Proof.
  assert (H0 : wf sample) by wf_compute. assert (H1 : wf sample2) by wf_compute.
  split; [exact H0|]. split; [exact H1|]. split; [|vm_compute; reflexivity].
  exact (proj1 (proj2 (proj2 (ucmap_union_correct Z.add sample sample2 H0 H1)))).
Defined.
