(* ===== verification/UcmapTrav.v ===== *)
(** * Constructive integer maps: traversal and cardinality

    The iterations, conjunctions and counts of [Ucmap] against the ascending list
    of bindings [elems], as a whole and clipped to a range of keys. *)

From S2P Require Export UcmapUnion.

(** ** The bindings in a range of keys *)

Definition above (k_min : Z) (e : Z * Z) : Prop := k_min <= e.1.
Definition below (k_max : Z) (e : Z * Z) : Prop := e.1 <= k_max.

#[global] Instance above_dec k e : Decision (above k e).
Proof. unfold above. apply _. Defined.

#[global] Instance below_dec k e : Decision (below k e).
Proof. unfold below. apply _. Defined.

Definition within (k_min k_max : Z) (es : list (Z * Z)) : list (Z * Z) :=
  filter (above k_min) (filter (below k_max) es).

(** The keys up to the second bound and from the first one, if that is larger. *)
Definition clipped (k_min k_max : Z) (es : list (Z * Z)) : list (Z * Z) :=
  if k_min <=? k_max then within k_min k_max es
  else filter (below k_max) es ++ filter (above k_min) es.

Definition here (k : Z) (h : bool) (v : Z) : list (Z * Z) := if h then [(k, v)] else [].

Lemma elems_node k l h r v : elems (Node k l h r v) = elems l ++ here k h v ++ elems r.
Proof. reflexivity. Qed.

Lemma here_Forall (P : Z * Z -> Prop) k h v : P (k, v) -> Forall P (here k h v).
Proof. intros H. destruct h; repeat constructor; done. Qed.

Lemma bounds_above lo hi k m : wf m -> bounded lo hi m -> k <= lo -> Forall (above k) (elems m).
Proof.
  intros Hm Hb Hk. apply (Forall_impl _ (P := fun e => lo <= e.1 <= hi)); [unfold above; intros ? ?; lia|by apply elems_bounded].
Qed.

Lemma bounds_not_above lo hi k m :
  wf m -> bounded lo hi m -> hi < k -> Forall (fun e => ~ above k e) (elems m).
Proof.
  intros Hm Hb Hk. apply (Forall_impl _ (P := fun e => lo <= e.1 <= hi)); [unfold above; intros ? ?; lia|by apply elems_bounded].
Qed.

Lemma bounds_below lo hi k m : wf m -> bounded lo hi m -> hi <= k -> Forall (below k) (elems m).
Proof.
  intros Hm Hb Hk. apply (Forall_impl _ (P := fun e => lo <= e.1 <= hi)); [unfold below; intros ? ?; lia|by apply elems_bounded].
Qed.

Lemma bounds_not_below lo hi k m :
  wf m -> bounded lo hi m -> k < lo -> Forall (fun e => ~ below k e) (elems m).
Proof.
  intros Hm Hb Hk. apply (Forall_impl _ (P := fun e => lo <= e.1 <= hi)); [unfold below; intros ? ?; lia|by apply elems_bounded].
Qed.

(** Where a bound lies relative to a node decides which parts are filtered. *)
Lemma above_right k l h r v k_min :
  wf (Node k l h r v) -> k < k_min ->
  filter (above k_min) (elems (Node k l h r v)) = filter (above k_min) (elems r).
Proof.
  intros (_ & _ & Bl & _ & Wl & _) Hk. rewrite elems_node, !list.filter_app.
  rewrite (filter_none _ (elems l)) by (eapply bounds_not_above; [done|exact Bl|lia]).
  by rewrite (filter_none _ (here k h v)) by (apply here_Forall; unfold above; simpl; lia).
Qed.

Lemma above_left k l h r v k_min :
  wf (Node k l h r v) -> k_min <= k ->
  filter (above k_min) (elems (Node k l h r v)) =
  filter (above k_min) (elems l) ++ here k h v ++ elems r.
Proof.
  intros (_ & _ & _ & Br & _ & Wr) Hk. rewrite elems_node, !list.filter_app.
  rewrite (filter_all _ (elems r)) by (eapply bounds_above; [done|exact Br|lia]).
  by rewrite (filter_all _ (here k h v)) by (apply here_Forall; unfold above; simpl; lia).
Qed.

Lemma below_left k l h r v k_max :
  wf (Node k l h r v) -> k_max < k ->
  filter (below k_max) (elems (Node k l h r v)) = filter (below k_max) (elems l).
Proof.
  intros (_ & _ & _ & Br & _ & Wr) Hk. rewrite elems_node, !list.filter_app.
  rewrite (filter_none _ (elems r)) by (eapply bounds_not_below; [done|exact Br|lia]).
  rewrite (filter_none _ (here k h v)) by (apply here_Forall; unfold below; simpl; lia).
  by rewrite !app_nil_r.
Qed.

Lemma below_right k l h r v k_max :
  wf (Node k l h r v) -> k <= k_max ->
  filter (below k_max) (elems (Node k l h r v)) =
  elems l ++ here k h v ++ filter (below k_max) (elems r).
Proof.
  intros (_ & _ & Bl & _ & Wl & _) Hk. rewrite elems_node, !list.filter_app.
  rewrite (filter_all _ (elems l)) by (eapply bounds_below; [done|exact Bl|lia]).
  by rewrite (filter_all _ (here k h v)) by (apply here_Forall; unfold below; simpl; lia).
Qed.

Lemma within_swap k_min k_max es : within k_min k_max es = filter (below k_max) (filter (above k_min) es).
Proof. unfold within. rewrite !list_filter_filter. apply list_filter_iff. intros e. tauto. Qed.

Lemma within_right k l h r v k_min k_max :
  wf (Node k l h r v) -> k < k_min ->
  within k_min k_max (elems (Node k l h r v)) = within k_min k_max (elems r).
Proof. intros. by rewrite within_swap, above_right, <- within_swap. Qed.

Lemma within_left k l h r v k_min k_max :
  wf (Node k l h r v) -> k_max < k ->
  within k_min k_max (elems (Node k l h r v)) = within k_min k_max (elems l).
Proof. intros. unfold within. by rewrite below_left. Qed.

Lemma within_both k l h r v k_min k_max :
  wf (Node k l h r v) -> k_min <= k <= k_max ->
  within k_min k_max (elems (Node k l h r v)) =
  filter (above k_min) (elems l) ++ here k h v ++ filter (below k_max) (elems r).
Proof.
  intros Hm Hk. unfold within. rewrite below_right by (done || lia). rewrite !list.filter_app.
  destruct Hm as (_ & _ & _ & Br & _ & Wr).
  rewrite (filter_all (above k_min) (here k h v)) by (apply here_Forall; unfold above; simpl; lia).
  rewrite (filter_all (above k_min) (filter (below k_max) (elems r))); [done|].
  apply list.Forall_forall. intros e [_ He]%list_elem_of_filter.
  by apply (proj1 (list.Forall_forall _ _) (bounds_above _ _ k_min r Wr Br ltac:(lia))).
Qed.

(** ** Iteration with early exit *)

Section conjunctions.
Context {S : Type}.
Implicit Types f : S -> Z -> Z -> S * bool.

(** A callback on bindings. *)
Definition on_binding f (s : S) (e : Z * Z) : S * bool := f s e.1 e.2.
Definition on_binding_int f (s : S) (e : Z * Z) : S * bool := f s e.1 (to_int e.2).

Lemma conj_here f h k v es s :
  and_then (call_node f h k v s) (conj_list (on_binding f) es) = conj_list (on_binding f) (here k h v ++ es) s.
Proof. by destruct h. Qed.

Lemma conj_parts f es h k v es' s :
  and_then (conj_list (on_binding f) es s) (fun s =>
  and_then (call_node f h k v s) (fun s => conj_list (on_binding f) es' s)) =
  conj_list (on_binding f) (es ++ here k h v ++ es') s.
Proof.
  rewrite conj_list_app. unfold and_then at 1. destruct (conj_list _ es s) as [s' [|]]; [|done]. apply conj_here.
Qed.

Lemma and_then_ext (a : S * bool) b b' : (forall s, b s = b' s) -> and_then a b = and_then a b'.
Proof. intros E. unfold and_then. destruct a as [s [|]]; [apply E|done]. Qed.

Lemma iterA_spec f M s : cucon_ucmap_iterA f M s = conj_list (on_binding f) (elems M) s.
Proof.
  revert s. induction M as [|k l IHl h r IHr v]; intros s; [done|].
  cbn [cucon_ucmap_iterA]. rewrite IHl, elems_node, <- conj_parts.
  apply and_then_ext. intros s'. apply and_then_ext. apply IHr.
Qed.

Lemma iterA_above_spec f M k_min s :
  wf M -> iterA_above f M k_min s = conj_list (on_binding f) (filter (above k_min) (elems M)) s.
Proof.
  revert s. induction M as [|k l IHl h r IHr v]; intros s Hm; [done|]. pose proof Hm as (_&_&_&_&Wl&Wr).
  cbn [iterA_above]. destruct (Z.ltb_spec k k_min).
  - rewrite above_right by done. auto.
  - rewrite above_left, IHl, <- conj_parts by done. apply and_then_ext. intros s'. apply and_then_ext.
    intros s''. apply iterA_spec.
Qed.

Lemma iterA_below_spec f M k_max s :
  wf M -> iterA_below f M k_max s = conj_list (on_binding f) (filter (below k_max) (elems M)) s.
Proof.
  revert s. induction M as [|k l IHl h r IHr v]; intros s Hm; [done|]. pose proof Hm as (_&_&_&_&Wl&Wr).
  cbn [iterA_below]. destruct (Z.ltb_spec k_max k).
  - rewrite below_left by done. auto.
  - rewrite below_right, iterA_spec, <- conj_parts by done. apply and_then_ext. intros s'. apply and_then_ext.
    intros s''. by apply IHr.
Qed.

Lemma iterA_range_spec f M k_min k_max s :
  wf M -> iterA_range f M k_min k_max s = conj_list (on_binding f) (within k_min k_max (elems M)) s.
Proof.
  revert s. induction M as [|k l IHl h r IHr v]; intros s Hm; [done|]. pose proof Hm as (_&_&_&_&Wl&Wr).
  cbn [iterA_range]. destruct (Z.ltb_spec k k_min); [rewrite within_right by done; auto|].
  destruct (Z.ltb_spec k_max k); [rewrite within_left by done; auto|].
  rewrite within_both, iterA_above_spec, <- conj_parts by (done || lia).
  apply and_then_ext. intros s'. apply and_then_ext. intros s''. by apply iterA_below_spec.
Qed.

Lemma iterA_clipped_spec f M k_min k_max s :
  wf M ->
  cucon_ucmap_iterA_clipped f M k_min k_max s = conj_list (on_binding f) (clipped k_min k_max (elems M)) s.
Proof.
  intros Hm. unfold cucon_ucmap_iterA_clipped, clipped. destruct (k_min <=? k_max).
  - by apply iterA_range_spec.
  - rewrite conj_list_app, iterA_below_spec by done. unfold and_then.
    destruct (conj_list _ _ s) as [s' [|]]; [|done]. by apply iterA_above_spec.
Qed.

Lemma conj_ptr_spec f M s : cucon_ucmap_conj_ptr M f s = conj_list (on_binding f) (elems M) s.
Proof.
  revert s. induction M as [|k l IHl h r IHr v]; intros s; [done|].
  cbn [cucon_ucmap_conj_ptr]. rewrite elems_node, conj_list_app, IHl.
  destruct (conj_list _ _ s) as [s' [|]]; cbn [negb]; [|done].
  destruct h; cbn; [|apply IHr]. unfold on_binding at 1. simpl.
  destruct (f s' k v) as [s'' [|]]; [apply IHr|done].
Qed.

Lemma conj_int_spec f M s : cucon_ucmap_conj_int M f s = conj_list (on_binding_int f) (elems M) s.
Proof.
  revert s. induction M as [|k l IHl h r IHr v]; intros s; [done|].
  cbn [cucon_ucmap_conj_int]. rewrite elems_node, conj_list_app, IHl.
  destruct (conj_list _ _ s) as [s' [|]]; cbn [negb]; [|done].
  destruct h; cbn; [|apply IHr]. unfold on_binding_int at 1. simpl.
  destruct (f s' k (to_int v)) as [s'' [|]]; [apply IHr|done].
Qed.

(** ** Plain iteration *)

Lemma iter_ptr_spec (g : S -> Z -> Z -> S) M s :
  cucon_ucmap_iter_ptr M g s = foldl (fun s e => g s e.1 e.2) s (elems M).
Proof.
  revert s. induction M as [|k l IHl h r IHr v]; intros s; [done|].
  cbn [cucon_ucmap_iter_ptr]. rewrite elems_node, !foldl_app, <- IHl, IHr. by destruct h.
Qed.

Lemma iter_int_spec (g : S -> Z -> Z -> S) M s :
  cucon_ucmap_iter_int M g s = foldl (fun s e => g s e.1 (to_int e.2)) s (elems M).
Proof.
  revert s. induction M as [|k l IHl h r IHr v]; intros s; [done|].
  cbn [cucon_ucmap_iter_int]. rewrite elems_node, !foldl_app, <- IHl, IHr. by destruct h.
Qed.

End conjunctions.

(** ** Counting *)

Definition count (es : list (Z * Z)) : Z := wrap (Z.of_nat (length es)).

Lemma count_app es es' : count (es ++ es') = wadd (count es) (count es').
Proof. unfold count, wadd, wrap. rewrite length_app, Nat2Z.inj_add. apply Z.add_mod. done. Qed.

Lemma card_spec M : cucon_ucmap_card M = count (elems M).
Proof.
  induction M as [|k l IHl h r IHr v]; [done|]. cbn [cucon_ucmap_card].
  rewrite elems_node, app_assoc, !count_app, IHl, IHr. destruct h; [done|].
  cbn [here]. by rewrite <- (count_app (elems l) []), app_nil_r.
Qed.

Lemma wadd_comm a b : wadd a b = wadd b a.
Proof. unfold wadd. by rewrite Z.add_comm. Qed.

Lemma within_top k_min es :
  Forall (below UINTPTR_MAX) es -> within k_min UINTPTR_MAX es = filter (above k_min) es.
Proof. intros H. unfold within. by rewrite (filter_all _ es). Qed.

Lemma within_bottom k_max es : Forall (above 0) es -> within 0 k_max es = filter (below k_max) es.
Proof. intros H. rewrite within_swap. by rewrite (filter_all _ es). Qed.

Lemma elems_words M : wf M -> Forall (above 0) (elems M) /\ Forall (below UINTPTR_MAX) (elems M).
Proof.
  intros Hm.
  assert (Hw : forall e, e ∈ elems M -> word e.1).
  { intros [x w] He%map_elem_of_elems; [|done]. by eapply get_word. }
  split; apply list.Forall_forall; intros e He%Hw; unfold above, below, word, UINTPTR_MAX in *; lia.
Qed.

Lemma clipped_card_range_node k l h r v k_min k_max :
  clipped_card_range (Node k l h r v) k_min k_max =
  if k <? k_min then clipped_card_range r k_min k_max
  else if k_max <? k then clipped_card_range l k_min k_max
  else
    wadd (wadd (if h then 1 else 0) (clipped_card_range l k_min k_max)) (clipped_card_range r k_min k_max).
Proof. reflexivity. Qed.

Lemma clipped_card_range_spec M k_min k_max :
  wf M -> clipped_card_range M k_min k_max = count (within k_min k_max (elems M)).
Proof.
  induction M as [|k l IHl h r IHr v]; intros Hm; [done|]. pose proof Hm as (_&_&Bl&Br&Wl&Wr).
  rewrite clipped_card_range_node, (IHl Wl), (IHr Wr).
  destruct (Z.ltb_spec k k_min); [by rewrite within_right|].
  destruct (Z.ltb_spec k_max k); [by rewrite within_left|].
  rewrite within_both, app_assoc, !count_app by (done || lia). f_equal; [|f_equal].
  - rewrite wadd_comm. f_equal; [|by destruct h]. f_equal. unfold within.
    by rewrite (filter_all (below k_max) (elems l)) by (eapply bounds_below; [done|exact Bl|lia]).
  - rewrite within_swap. by rewrite (filter_all (above k_min) (elems r)) by (eapply bounds_above; [done|exact Br|lia]).
Qed.

Lemma clipped_card_spec M k_min k_max :
  wf M -> cucon_ucmap_clipped_card M k_min k_max = count (clipped k_min k_max (elems M)).
Proof.
  intros Hm. unfold cucon_ucmap_clipped_card, clipped. rewrite !clipped_card_range_spec by done.
  destruct (k_min <=? k_max); [done|]. destruct (elems_words M Hm).
  by rewrite count_app, wadd_comm, within_top, within_bottom.
Qed.

(** The traversals of a well-formed map call back for its bindings in ascending
    order of the keys, until a callback answers false, with the values as words or
    converted to [int]; the clipped ones for the keys from [k_min] to [k_max], or
    for those up to [k_max] and then those from [k_min] if these cross.  The two
    cardinalities count the same bindings, modulo the word size. *)
Theorem ucmap_traversal_correct {S : Type} (f : S -> Z -> Z -> S * bool) (g : S -> Z -> Z -> S) M k_min k_max s :
  wf M ->
  (StronglySorted key_lt (elems M) /\ map_to_list (to_map M) ≡ₚ elems M) /\
  (cucon_ucmap_iterA f M s = conj_list (on_binding f) (elems M) s /\
   cucon_ucmap_conj_ptr M f s = conj_list (on_binding f) (elems M) s /\
   cucon_ucmap_conj_int M f s = conj_list (on_binding_int f) (elems M) s) /\
  cucon_ucmap_iterA_clipped f M k_min k_max s = conj_list (on_binding f) (clipped k_min k_max (elems M)) s /\
  (cucon_ucmap_iter_ptr M g s = foldl (fun s e => g s e.1 e.2) s (elems M) /\
   cucon_ucmap_iter_int M g s = foldl (fun s e => g s e.1 (to_int e.2)) s (elems M)) /\
  (cucon_ucmap_card M = wrap (Z.of_nat (size (to_map M))) /\
   cucon_ucmap_clipped_card M k_min k_max = count (clipped k_min k_max (elems M))).
Proof.
  intros Hm. rewrite size_to_map by done. split_and!;
    eauto using map_elems_sorted, map_to_list_to_map, iterA_spec, conj_ptr_spec, conj_int_spec, iterA_clipped_spec,
      iter_ptr_spec, iter_int_spec, card_spec, clipped_card_spec.
Qed.

(** The test of [cucon_ucmap_is_singleton] is false on the maps of this library
    with one binding, since their [left] field carries the tag. *)
Lemma ucmap_is_singleton_false key val : cucon_ucmap_is_singleton (cucon_ucmap_singleton key val) = false.
Proof. reflexivity. Qed.
