(* ===== verification/UcmapCmp.v ===== *)
(** * Constructive integer maps: clipping, extremal keys, equality and ordering

    Clipping keeps the bindings in a range, but may leave branch nodes with fewer
    than two children, so that its results satisfy [wf] and not [compact].  The structural
    comparisons of two trees decide equality of maps, pointwise agreement under a callback,
    and a total order. *)

From S2P Require Export UcmapTrav.

(** The bindings of [m] whose key satisfies [P]. *)
Definition restrict_spec (P : Z -> bool) (m m' : ucmap) : Prop :=
  wf m' /\ (forall a b, bounded a b m -> bounded a b m') /\
  forall x, get m' x = if P x then get m x else None.

(** Dropping the left side and the node itself. *)
Lemma restrict_right P k l h r v m' :
  wf (Node k l h r v) -> (forall x, x <= k -> P x = false) -> restrict_spec P r m' ->
  restrict_spec P (Node k l h r v) m'.
Proof.
  intros (_ & _ & _ & Br & _ & Wr) HP (W & B & G). split; [done|]. split.
  - intros a b (_ & _ & ?)%bounded_node. auto.
  - intros x. rewrite G. get_at k x; [..|done];
      by rewrite ?(get_out _ _ r _ Br), HP by lia.
Qed.

Lemma restrict_left P k l h r v m' :
  wf (Node k l h r v) -> (forall x, k <= x -> P x = false) -> restrict_spec P l m' ->
  restrict_spec P (Node k l h r v) m'.
Proof.
  intros (_ & _ & Bl & _ & Wl & _) HP (W & B & G). split; [done|]. split.
  - intros a b (? & _ & _)%bounded_node. auto.
  - intros x. rewrite G. get_at k x; [done|..];
      by rewrite ?(get_out _ _ l _ Bl), HP by lia.
Qed.

(** Restricting both sides of a node that stays. *)
Lemma restrict_both P Pl Pr k l h r v l' r' :
  wf (Node k l h r v) -> P k = true ->
  (forall x, x < k -> P x = Pl x) -> (forall x, k < x -> P x = Pr x) ->
  restrict_spec Pl l l' -> restrict_spec Pr r r' ->
  restrict_spec P (Node k l h r v) (Node k l' h r' v).
Proof.
  intros (Hk & Hv & Bl & Br & _ & _) HP El Er (Wl & Bl' & Gl) (Wr & Br' & Gr). split; [|split].
  - split_and!; auto.
  - intros a b (? & ? & ?)%bounded_node. apply bounded_node. split_and!; try lia; auto.
  - intros x. get_at k x; [by rewrite Gl, El|by rewrite HP|by rewrite Gr, Er].
Qed.

Lemma restrict_all P m : wf m -> (forall x, P x = true) -> restrict_spec P m m.
Proof. intros Hm HP. split; [done|]. split; [done|]. intros x. by rewrite HP. Qed.

Lemma restrict_null P : restrict_spec P Null Null.
Proof. split; [done|]. split; [done|]. intros x. by destruct (P x). Qed.

Lemma uclip_upper_spec M k_min :
  wf M -> restrict_spec (fun x => k_min <=? x) M (uclip_upper M k_min).
Proof.
  induction M as [|k l IHl h r IHr v]; intros Hm; [apply restrict_null|].
  pose proof Hm as (_ & _ & _ & _ & Wl & Wr). cbn [uclip_upper]. destruct (Z.ltb_spec k k_min).
  - apply restrict_right; [done| |auto]. intros x ?. apply Z.leb_gt. lia.
  - apply (restrict_both _ (fun x => k_min <=? x) (fun _ => true)); auto; [by apply Z.leb_le| |by apply restrict_all].
    intros x ?. apply Z.leb_le. lia.
Qed.

Lemma uclip_lower_spec M k_max :
  wf M -> restrict_spec (fun x => x <=? k_max) M (uclip_lower M k_max).
Proof.
  induction M as [|k l IHl h r IHr v]; intros Hm; [apply restrict_null|].
  pose proof Hm as (_ & _ & _ & _ & Wl & Wr). cbn [uclip_lower]. destruct (Z.ltb_spec k_max k).
  - apply restrict_left; [done| |auto]. intros x ?. apply Z.leb_gt. lia.
  - apply (restrict_both _ (fun _ => true) (fun x => x <=? k_max)); auto; [by apply Z.leb_le| |by apply restrict_all].
    intros x ?. apply Z.leb_le. lia.
Qed.

Lemma uclip_spec M k_min k_max :
  wf M -> restrict_spec (fun x => (k_min <=? x) && (x <=? k_max)) M (cucon_ucmap_uclip M k_min k_max).
Proof.
  induction M as [|k l IHl h r IHr v]; intros Hm; [apply restrict_null|].
  pose proof Hm as (_ & _ & _ & _ & Wl & Wr). cbn [cucon_ucmap_uclip]. destruct (Z.ltb_spec k k_min).
  { apply restrict_right; [done| |auto]. intros x ?. by rewrite (proj2 (Z.leb_gt _ _)) by lia. }
  destruct (Z.ltb_spec k_max k).
  { apply restrict_left; [done| |auto]. intros x ?. by rewrite (proj2 (Z.leb_gt x k_max)), andb_false_r by lia. }
  apply (restrict_both _ (fun x => k_min <=? x) (fun x => x <=? k_max)); try done.
  - by rewrite !(proj2 (Z.leb_le _ _)) by lia.
  - intros x ?. by rewrite (proj2 (Z.leb_le x k_max)), andb_true_r by lia.
  - intros x ?. by rewrite (proj2 (Z.leb_le k_min x)) by lia.
  - by apply uclip_upper_spec.
  - by apply uclip_lower_spec.
Qed.

Lemma restrict_to_map P m m' :
  wf m -> restrict_spec P m m' -> to_map m' = filter (fun e => P e.1 = true) (to_map m).
Proof.
  intros Hm (W & _ & G). apply to_map_is; [done|]. intros x. rewrite G.
  destruct (P x) eqn:E.
  - rewrite <- lookup_to_map by done. destruct (to_map m !! x) as [v|] eqn:L; symmetry.
    + by apply map_lookup_filter_Some.
    + apply map_lookup_filter_None. by left.
  - symmetry. apply map_lookup_filter_None. right. intros v _. simpl. by rewrite E.
Qed.

(** The range of [cucon_ucmap_clip], which wraps around if the bounds cross. *)
Definition in_clip (k_min k_max x : Z) : bool :=
  if k_min <=? k_max then (k_min <=? x) && (x <=? k_max) else (x <=? k_max) || (k_min <=? x).

Lemma clip_to_map M k_min k_max :
  wf M ->
  wf (cucon_ucmap_clip M k_min k_max) /\
  to_map (cucon_ucmap_clip M k_min k_max) = filter (fun e => in_clip k_min k_max e.1 = true) (to_map M).
Proof.
  intros Hm. unfold cucon_ucmap_clip, in_clip. destruct (k_min <=? k_max).
  { pose proof (uclip_spec M k_min k_max Hm) as Hs. split; [apply Hs|]. by rewrite (restrict_to_map _ _ _ Hm Hs). }
  pose proof (uclip_lower_spec M k_max Hm) as (W0 & B0 & G0).
  pose proof (uclip_upper_spec M k_min Hm) as (W1 & B1 & G1).
  rewrite left_union_combined by done.
  destruct (combined_union_wf keep_first _ _ W0 W1) as (W & B & G). split; [done|].
  apply (restrict_to_map (fun x => (x <=? k_max) || (k_min <=? x)) M); [done|]. split; [done|]. split; [auto|].
  intros x. rewrite G, G0, G1. by destruct (x <=? k_max), (k_min <=? x), (get M x).
Qed.

(** ** Extremal keys *)

(** In a compact map the leftmost and the rightmost node carry a value. *)
Lemma min_ukey_spec m d :
  wf m -> compact m -> is_null m = false ->
  (exists v, get m (min_ukey_from m d) = Some v) /\
  forall x v, get m x = Some v -> min_ukey_from m d <= x.
Proof.
  revert d. induction m as [|k l IHl h r IHr v]; intros d Hm Hc Hn; [done|].
  destruct Hm as (_ & _ & Bl & Br & Wl & Wr), Hc as (Hh & Cl & Cr). cbn [min_ukey_from].
  destruct l as [|lk ll lh lr lv].
  - cbn [min_ukey_from]. rewrite get_eq. destruct h; [|by destruct Hh as [|[]]].
    split; [by exists v|]. intros x w. get_at k x; [done|lia|lia].
  - destruct (IHl k Wl Cl eq_refl) as [(w & Ew) Hmin].
    set (l := Node lk ll lh lr lv) in *. pose proof (get_in _ _ _ _ _ Bl Ew). split.
    + exists w. by rewrite get_lt by lia.
    + intros x u. get_at k x; [apply Hmin|lia|lia].
Qed.

Lemma max_ukey_spec m d :
  wf m -> compact m -> is_null m = false ->
  (exists v, get m (max_ukey_from m d) = Some v) /\
  forall x v, get m x = Some v -> x <= max_ukey_from m d.
Proof.
  revert d. induction m as [|k l IHl h r IHr v]; intros d Hm Hc Hn; [done|].
  destruct Hm as (_ & _ & Bl & Br & Wl & Wr), Hc as (Hh & Cl & Cr). cbn [max_ukey_from].
  destruct r as [|rk rl rh rr rv].
  - cbn [max_ukey_from]. rewrite get_eq. destruct h; [|by destruct Hh as [|[]]].
    split; [by exists v|]. intros x w. get_at k x; [lia|lia|done].
  - destruct (IHr k Wr Cr eq_refl) as [(w & Ew) Hmax].
    set (r := Node rk rl rh rr rv) in *. pose proof (get_in _ _ _ _ _ Br Ew). split.
    + exists w. by rewrite get_gt by lia.
    + intros x u. get_at k x; [lia|lia|apply Hmax].
Qed.

(** [cucon_ucmap_uclip] keeps the bindings with keys from [k_min] to [k_max], and
    [cucon_ucmap_clip] also those outside a crossed range; both results are
    well-formed.  In a compact map that is not empty, [cucon_ucmap_min_ukey] and
    [cucon_ucmap_max_ukey] are the least and the greatest key. *)
Theorem ucmap_clip_correct M k_min k_max :
  wf M ->
  (wf (cucon_ucmap_uclip M k_min k_max) /\
   to_map (cucon_ucmap_uclip M k_min k_max) = filter (fun e => k_min <= e.1 <= k_max) (to_map M)) /\
  (wf (cucon_ucmap_clip M k_min k_max) /\
   to_map (cucon_ucmap_clip M k_min k_max) = filter (fun e => in_clip k_min k_max e.1 = true) (to_map M)) /\
  (compact M -> M <> Null ->
   cucon_ucmap_min_ukey M ∈ dom (to_map M) /\ cucon_ucmap_max_ukey M ∈ dom (to_map M) /\
   forall x, x ∈ dom (to_map M) -> cucon_ucmap_min_ukey M <= x <= cucon_ucmap_max_ukey M).
Proof.
  intros Hm. pose proof (uclip_spec M k_min k_max Hm) as Hs. split; [split; [apply Hs|]|].
  { rewrite (restrict_to_map _ _ _ Hm Hs). apply map_filter_ext. intros x v _. simpl.
    by rewrite andb_true_iff, !Z.leb_le. }
  split; [by apply clip_to_map|]. intros Hc Hn.
  assert (is_null M = false) as En by by destruct M.
  destruct (min_ukey_spec M UINTPTR_MAX Hm Hc En) as [(v & Ev) Hmin].
  destruct (max_ukey_spec M 0 Hm Hc En) as [(w & Ew) Hmax].
  setoid_rewrite elem_of_dom. unfold is_Some. setoid_rewrite lookup_to_map; [|done..].
  split; [by exists v|]. split; [by exists w|]. intros x (u & Hu). split; [by eapply Hmin|by eapply Hmax].
Qed.

(** Clipping below the branch [2] of the keys [1] and [3] leaves the branch behind:
    the result has the bindings of a map without it, but is not the same tree, and
    its least key is wrong; an empty result need not be [NULL]. *)
Lemma ucmap_clip_not_compact :
  let m := cucon_ucmap_insert (cucon_ucmap_singleton 1 10) 3 30 in
  let c := cucon_ucmap_uclip m 2 3 in
  wf m /\ compact m /\ ~ compact c /\
  to_map c = to_map (cucon_ucmap_singleton 3 30) /\
  cucon_ucmap_eq c (cucon_ucmap_singleton 3 30) = false /\
  cucon_ucmap_min_ukey c = 2 /\
  to_map (cucon_ucmap_uclip m 2 2) = ∅ /\ cucon_ucmap_is_empty (cucon_ucmap_uclip m 2 2) = false.
Proof.
  split; [wf_compute|]. split; [wf_compute|]. split; [wf_compute|].
  by split_and!; try (vm_compute; reflexivity).
Qed.

Lemma map_ptr_eq_refl m : ptr_eq m m = true.
Proof. by apply ptr_eq_spec. Qed.

(** ** Equality *)

Lemma ucmap_eq_node k0 l0 h0 r0 v0 k1 l1 h1 r1 v1 :
  cucon_ucmap_eq (Node k0 l0 h0 r0 v0) (Node k1 l1 h1 r1 v1) =
  if ptr_eq (Node k0 l0 h0 r0 v0) (Node k1 l1 h1 r1 v1) then true
  else if negb (k0 =? k1) then false
  else if negb (eqb h0 h1) then false
  else if negb (v0 =? v1) then false
  else if negb (cucon_ucmap_eq l0 l1) then false
  else cucon_ucmap_eq r0 r1.
Proof. reflexivity. Qed.

Lemma ucmap_eq_spec m0 m1 : cucon_ucmap_eq m0 m1 = true <-> m0 = m1.
Proof.
  split; [|intros <-; destruct m0; [done|]; by rewrite ucmap_eq_node, map_ptr_eq_refl].
  revert m1. induction m0 as [|k0 l0 IHl h0 r0 IHr v0]; intros [|k1 l1 h1 r1 v1]; try done.
  rewrite ucmap_eq_node. destruct (ptr_eq _ _) eqn:E; [by apply ptr_eq_spec in E|].
  destruct (Z.eqb_spec k0 k1), (eqb h0 h1) eqn:Eh, (Z.eqb_spec v0 v1); try done. cbn [negb].
  destruct (cucon_ucmap_eq l0 l1) eqn:El; [|done]. cbn [negb]. intros Er.
  apply eqb_prop in Eh. apply IHl in El. apply IHr in Er. by subst.
Qed.

(** ** Maps with the same domain have the same shape *)

Fixpoint shape (m : ucmap) : ucmap :=
  match m with
  | Null => Null
  | Node k l h r _ => Node k (shape l) h (shape r) 0
  end.

Lemma nkeys_shape m : nkeys (shape m) = nkeys m.
Proof. induction m as [|k l IHl h r IHr v]; [done|]. cbn [shape nkeys]. by rewrite IHl, IHr. Qed.

Lemma bounded_shape lo hi m : bounded lo hi (shape m) <-> bounded lo hi m.
Proof. unfold bounded. by rewrite nkeys_shape. Qed.

Lemma wf_shape m : wf m -> wf (shape m).
Proof.
  induction m as [|k l IHl h r IHr v]; [done|]. intros (Hk & Hv & Bl & Br & Wl & Wr).
  cbn [shape wf]. rewrite !bounded_shape. split_and!; auto.
Qed.

Lemma is_null_shape m : is_null (shape m) = is_null m.
Proof. by destruct m. Qed.

Lemma compact_shape m : compact m -> compact (shape m).
Proof.
  induction m as [|k l IHl h r IHr v]; [done|]. intros (Hh & Cl & Cr).
  cbn [shape compact]. rewrite !is_null_shape. auto.
Qed.

Lemma get_shape m x : get (shape m) x = (fun _ => 0) <$> get m x.
Proof.
  induction m as [|k l IHl h r IHr v]; [done|]. cbn [shape get].
  destruct (x <? k); [done|]. destruct (x =? k); [by destruct h|done].
Qed.

Lemma shape_ext m0 m1 :
  wf m0 -> compact m0 -> wf m1 -> compact m1 ->
  (forall x, is_Some (get m0 x) <-> is_Some (get m1 x)) -> shape m0 = shape m1.
Proof.
  intros W0 C0 W1 C1 E. apply map_wf_ext; auto using wf_shape, compact_shape.
  intros x. rewrite !get_shape. specialize (E x). unfold is_Some in E.
  destruct (get m0 x) as [u|], (get m1 x) as [w|]; [done| | |done].
  - by destruct (proj1 E (ex_intro _ u eq_refl)).
  - by destruct (proj2 E (ex_intro _ w eq_refl)).
Qed.

(** ** Equality up to a callback *)

Section eq_ptr.
Variable f : Z -> Z -> bool.
Hypothesis f_refl : forall u, f u u = true.

Lemma eq_ptr_node k0 l0 h0 r0 v0 k1 l1 h1 r1 v1 :
  cucon_ucmap_eq_ptr f (Node k0 l0 h0 r0 v0) (Node k1 l1 h1 r1 v1) =
  if ptr_eq (Node k0 l0 h0 r0 v0) (Node k1 l1 h1 r1 v1) then true
  else if negb (k0 =? k1) then false
  else if negb (cucon_ucmap_eq_ptr f l0 l1) then false
  else if h0 then
    if h1 then if negb (f v0 v1) then false else cucon_ucmap_eq_ptr f r0 r1
    else false
  else if h1 then false
  else cucon_ucmap_eq_ptr f r0 r1.
Proof. reflexivity. Qed.

Lemma eq_ptr_refl m : cucon_ucmap_eq_ptr f m m = true.
Proof. destruct m; [done|]. by rewrite eq_ptr_node, map_ptr_eq_refl. Qed.

(** The shortcut for identical trees does not change the answer. *)
Lemma eq_ptr_true k0 l0 h0 r0 v0 k1 l1 h1 r1 v1 :
  cucon_ucmap_eq_ptr f (Node k0 l0 h0 r0 v0) (Node k1 l1 h1 r1 v1) = true <->
  k0 = k1 /\ cucon_ucmap_eq_ptr f l0 l1 = true /\ h0 = h1 /\ (h0 = true -> f v0 v1 = true) /\
  cucon_ucmap_eq_ptr f r0 r1 = true.
Proof.
  rewrite eq_ptr_node. destruct (ptr_eq _ _) eqn:E.
  - apply ptr_eq_spec in E as [= <- <- <- <- <-]. rewrite !eq_ptr_refl. naive_solver.
  - destruct (Z.eqb_spec k0 k1); cbn [negb]; [|naive_solver].
    destruct (cucon_ucmap_eq_ptr f l0 l1), h0, h1, (f v0 v1); cbn [negb]; naive_solver.
Qed.

Lemma eq_ptr_shape m0 m1 :
  wf m0 -> wf m1 ->
  cucon_ucmap_eq_ptr f m0 m1 = true <->
  shape m0 = shape m1 /\ forall x u v, get m0 x = Some u -> get m1 x = Some v -> f u v = true.
Proof.
  revert m1. induction m0 as [|k0 l0 IHl h0 r0 IHr v0]; intros [|k1 l1 h1 r1 v1] W0 W1; try by split; [|intros []].
  destruct W0 as (_ & _ & Bl0 & Br0 & Wl0 & Wr0), W1 as (_ & _ & Bl1 & Br1 & Wl1 & Wr1).
  rewrite eq_ptr_true, (IHl _ Wl0 Wl1), (IHr _ Wr0 Wr1). cbn [shape]. split.
  - intros (<- & [-> Fl] & <- & Fv & [-> Fr]). split; [done|]. intros x u v.
    get_at k0 x; [apply Fl| |apply Fr]. destruct h0; [|done]. intros [= <-] [= <-]. auto.
  - intros ([= <- -> <- ->] & F). split_and!; try done.
    + intros x u v Eu Ev. pose proof (get_in _ _ _ _ _ Bl0 Eu). apply (F x); by rewrite get_lt by lia.
    + intros ->. apply (F k0); by rewrite get_eq.
    + intros x u v Eu Ev. pose proof (get_in _ _ _ _ _ Br0 Eu). apply (F x); by rewrite get_gt by lia.
Qed.

Lemma eq_ptr_spec m0 m1 :
  wf m0 -> compact m0 -> wf m1 -> compact m1 ->
  cucon_ucmap_eq_ptr f m0 m1 = true <->
  forall x, option_Forall2 (fun u v => f u v = true) (to_map m0 !! x) (to_map m1 !! x).
Proof.
  intros W0 C0 W1 C1. rewrite eq_ptr_shape by done. setoid_rewrite lookup_to_map; [|done..]. split.
  - intros [E F] x. assert (G : get (shape m0) x = get (shape m1) x) by by rewrite E.
    rewrite !get_shape in G. specialize (F x).
    destruct (get m0 x), (get m1 x); try done; constructor. by apply F.
  - intros F. split.
    + apply shape_ext; try done. intros x. by destruct (F x).
    + intros x u v Eu Ev. specialize (F x). rewrite Eu, Ev in F. by inversion F.
Qed.

End eq_ptr.

(** ** Ordering *)

(** The comparison of the value slots. *)
Definition cmp_slot (f : Z -> Z -> Z) (h0 : bool) (v0 : Z) (h1 : bool) (v1 : Z) : Z :=
  match h0, h1 with
  | true, true => f v0 v1
  | true, false => 1
  | false, true => -1
  | false, false => 0
  end.

Definition cmp_word (a b : Z) : Z := if a <? b then -1 else if b <? a then 1 else 0.

(** The first component that differs decides. *)
Definition lex (a b : Z) : Z := if a =? 0 then b else a.

Lemma cmp_word_0 a b : cmp_word a b = 0 <-> a = b.
Proof. unfold cmp_word. bits_split; split; intros; done || lia. Qed.

Lemma cmp_word_flip a b : cmp_word b a = - cmp_word a b.
Proof. unfold cmp_word. bits_split; done || lia. Qed.

Section cmp_ptr.
Variable f : Z -> Z -> Z.
Hypothesis f_refl : forall u, f u u = 0.

Lemma cmp_ptr_refl m : cucon_ucmap_cmp_ptr f m m = 0.
Proof. destruct m as [|k l h r v]; [done|]. cbn [cucon_ucmap_cmp_ptr]. by rewrite map_ptr_eq_refl. Qed.

(** The shortcut for identical trees does not change the answer. *)
Lemma cmp_ptr_node k0 l0 h0 r0 v0 k1 l1 h1 r1 v1 :
  cucon_ucmap_cmp_ptr f (Node k0 l0 h0 r0 v0) (Node k1 l1 h1 r1 v1) =
  lex (cmp_word k0 k1) (lex (cucon_ucmap_cmp_ptr f l0 l1)
    (lex (cmp_slot f h0 v0 h1 v1) (cucon_ucmap_cmp_ptr f r0 r1))).
Proof.
  destruct (ptr_eq (Node k0 l0 h0 r0 v0) (Node k1 l1 h1 r1 v1)) eqn:E.
  - apply ptr_eq_spec in E as [= <- <- <- <- <-]. rewrite !cmp_ptr_refl.
    rewrite (proj2 (cmp_word_0 k0 k0)) by done. cbn [lex Z.eqb]. unfold cmp_slot. rewrite f_refl. by destruct h0.
  - cbn [cucon_ucmap_cmp_ptr]. rewrite E. unfold cmp_word, cmp_slot, lex.
    destruct (k0 <? k1), (k1 <? k0); try done. cbn [Z.eqb].
    destruct (cucon_ucmap_cmp_ptr f l0 l1 =? 0); cbn [negb]; [|done].
    destruct h0, h1; try done. by destruct (f v0 v1 =? 0).
Qed.

(** The ordering and the equality under a callback agree. *)
Lemma cmp_ptr_eq_ptr m0 m1 :
  cucon_ucmap_cmp_ptr f m0 m1 = 0 <-> cucon_ucmap_eq_ptr (fun u v => f u v =? 0) m0 m1 = true.
Proof.
  revert m1. induction m0 as [|k0 l0 IHl h0 r0 IHr v0]; intros [|k1 l1 h1 r1 v1]; try done.
  rewrite cmp_ptr_node, eq_ptr_true by (intros u; by rewrite f_refl).
  rewrite <- IHl, <- IHr, Z.eqb_eq, <- (cmp_word_0 k0 k1). unfold lex.
  destruct (Z.eqb_spec (cmp_word k0 k1) 0) as [->|]; [|tauto].
  destruct (Z.eqb_spec (cucon_ucmap_cmp_ptr f l0 l1) 0) as [->|]; [|tauto].
  destruct h0, h1; cbn [cmp_slot]; try (split; [done|by intros (_ & _ & ? & _)]).
  - destruct (Z.eqb_spec (f v0 v1) 0) as [->|]; [tauto|]. split; [done|]. intros (_ & _ & _ & F & _). by apply F.
  - cbn [Z.eqb]. intuition done.
Qed.

End cmp_ptr.

Lemma cmp_cmp_ptr m0 m1 : cucon_ucmap_cmp m0 m1 = cucon_ucmap_cmp_ptr cmp_word m0 m1.
Proof.
  revert m1. induction m0 as [|k0 l0 IHl h0 r0 IHr v0]; intros [|k1 l1 h1 r1 v1]; try done.
  assert (E : forall rest, (if negb (cmp_word v0 v1 =? 0) then cmp_word v0 v1 else rest) =
    if v0 <? v1 then -1 else if v1 <? v0 then 1 else rest).
  { intros rest. unfold cmp_word. by destruct (v0 <? v1), (v1 <? v0). }
  cbn [cucon_ucmap_cmp cucon_ucmap_cmp_ptr]. cbn zeta. by rewrite IHl, IHr, E.
Qed.

Lemma cmp_word_refl u : cmp_word u u = 0.
Proof. by apply cmp_word_0. Qed.

Lemma cmp_node k0 l0 h0 r0 v0 k1 l1 h1 r1 v1 :
  cucon_ucmap_cmp (Node k0 l0 h0 r0 v0) (Node k1 l1 h1 r1 v1) =
  lex (cmp_word k0 k1) (lex (cucon_ucmap_cmp l0 l1)
    (lex (cmp_slot cmp_word h0 v0 h1 v1) (cucon_ucmap_cmp r0 r1))).
Proof. rewrite !cmp_cmp_ptr. apply cmp_ptr_node, cmp_word_refl. Qed.

Lemma lex_flip a b : - lex a b = lex (- a) (- b).
Proof. unfold lex. by destruct (Z.eqb_spec a 0), (Z.eqb_spec (- a) 0); try lia. Qed.

Lemma lex_range a b : -1 <= a <= 1 -> -1 <= b <= 1 -> -1 <= lex a b <= 1.
Proof. unfold lex. by destruct (a =? 0). Qed.

Lemma cmp_slot_flip h0 v0 h1 v1 : cmp_slot cmp_word h1 v1 h0 v0 = - cmp_slot cmp_word h0 v0 h1 v1.
Proof. destruct h0, h1; try done. apply cmp_word_flip. Qed.

Lemma cmp_flip m0 m1 : cucon_ucmap_cmp m1 m0 = - cucon_ucmap_cmp m0 m1.
Proof.
  revert m1. induction m0 as [|k0 l0 IHl h0 r0 IHr v0]; intros [|k1 l1 h1 r1 v1]; try done.
  by rewrite !cmp_node, !lex_flip, cmp_word_flip, IHl, cmp_slot_flip, IHr.
Qed.

Lemma cmp_word_range a b : -1 <= cmp_word a b <= 1.
Proof. unfold cmp_word. bits_split; lia. Qed.

Lemma cmp_range m0 m1 : -1 <= cucon_ucmap_cmp m0 m1 <= 1.
Proof.
  revert m1. induction m0 as [|k0 l0 IHl h0 r0 IHr v0]; intros [|k1 l1 h1 r1 v1]; try done.
  rewrite cmp_node. repeat apply lex_range; auto using cmp_word_range.
  destruct h0, h1; cbn [cmp_slot]; auto using cmp_word_range; lia.
Qed.

Lemma cmp_0 m0 m1 : wf m0 -> wf m1 -> cucon_ucmap_cmp m0 m1 = 0 <-> m0 = m1.
Proof.
  rewrite cmp_cmp_ptr, (cmp_ptr_eq_ptr _ cmp_word_refl).
  revert m1. induction m0 as [|k0 l0 IHl h0 r0 IHr v0]; intros [|k1 l1 h1 r1 v1] W0 W1; try done.
  destruct W0 as (_ & Hv0 & _ & _ & Wl0 & Wr0), W1 as (_ & Hv1 & _ & _ & Wl1 & Wr1).
  rewrite eq_ptr_true by (intros u; by rewrite cmp_word_refl).
  rewrite (IHl _ Wl0 Wl1), (IHr _ Wr0 Wr1), Z.eqb_eq, cmp_word_0. split.
  - intros (-> & -> & <- & Hv & ->). f_equal. destruct h0; [auto|]. by destruct Hv0 as [| ->], Hv1 as [| ->].
  - by intros [= -> -> -> -> ->].
Qed.

(** The step of transitivity for one component of a lexicographic order. *)
Lemma lex_trans (a ab b : Z) (c0 c1 c2 : Z) :
  lex a c0 <= 0 -> lex b c1 <= 0 ->
  (a <= 0 -> b <= 0 -> ab <= 0) -> (ab = 0 -> a <= 0 -> b <= 0 -> a = 0 /\ b = 0) ->
  (a = 0 -> b = 0 -> c0 <= 0 -> c1 <= 0 -> c2 <= 0) ->
  lex ab c2 <= 0.
Proof.
  unfold lex. destruct (Z.eqb_spec a 0), (Z.eqb_spec b 0), (Z.eqb_spec ab 0); intros; try lia.
Qed.

Lemma cmp_word_trans a b c : cmp_word a b <= 0 -> cmp_word b c <= 0 -> cmp_word a c <= 0.
Proof. unfold cmp_word. bits_split; lia. Qed.

Lemma cmp_word_squeeze a b c :
  cmp_word a c = 0 -> cmp_word a b <= 0 -> cmp_word b c <= 0 -> cmp_word a b = 0 /\ cmp_word b c = 0.
Proof. unfold cmp_word. bits_split; lia. Qed.

Lemma cmp_trans m0 m1 m2 :
  wf m0 -> wf m1 -> wf m2 ->
  cucon_ucmap_cmp m0 m1 <= 0 -> cucon_ucmap_cmp m1 m2 <= 0 -> cucon_ucmap_cmp m0 m2 <= 0.
Proof.
  revert m1 m2. induction m0 as [|k0 l0 IHl h0 r0 IHr v0]; intros [|k1 l1 h1 r1 v1] [|k2 l2 h2 r2 v2] W0 W1 W2;
    try done.
  destruct W0 as (_ & _ & _ & _ & Wl0 & Wr0), W1 as (_ & _ & _ & _ & Wl1 & Wr1), W2 as (_ & _ & _ & _ & Wl2 & Wr2).
  rewrite !cmp_node. intros H0 H1.
  refine (lex_trans _ _ _ _ _ _ H0 H1 (cmp_word_trans _ _ _) (cmp_word_squeeze _ _ _) _).
  clear H0 H1. intros _ _ H0 H1.
  refine (lex_trans _ _ _ _ _ _ H0 H1 (IHl _ _ Wl0 Wl1 Wl2) _ _).
  { rewrite cmp_0 by done. intros <-. rewrite (cmp_flip l0 l1). lia. }
  clear H0 H1. intros _ _ H0 H1.
  refine (lex_trans _ _ _ _ _ _ H0 H1 _ _ _).
  - destruct h0, h1, h2; cbn [cmp_slot]; try lia. apply cmp_word_trans.
  - destruct h0, h1, h2; cbn [cmp_slot]; try lia. apply cmp_word_squeeze.
  - intros _ _. by apply IHr.
Qed.

(** On compact maps [cucon_ucmap_eq] decides equality of maps and
    [cucon_ucmap_eq_ptr] pointwise agreement under a reflexive callback;
    [cucon_ucmap_cmp] is a total order with results -1, 0 and 1, and
    [cucon_ucmap_cmp_ptr] answers 0 exactly if the callback does on every binding. *)
Theorem ucmap_cmp_correct (f : Z -> Z -> bool) (c : Z -> Z -> Z) m0 m1 m2 :
  wf m0 -> compact m0 -> wf m1 -> compact m1 -> wf m2 ->
  (forall u, f u u = true) -> (forall u, c u u = 0) ->
  (cucon_ucmap_eq m0 m1 = true <-> to_map m0 = to_map m1) /\
  (cucon_ucmap_eq_ptr f m0 m1 = true <->
   forall x, option_Forall2 (fun u v => f u v = true) (to_map m0 !! x) (to_map m1 !! x)) /\
  (cucon_ucmap_cmp m0 m1 = 0 <-> to_map m0 = to_map m1) /\
  -1 <= cucon_ucmap_cmp m0 m1 <= 1 /\
  cucon_ucmap_cmp m1 m0 = - cucon_ucmap_cmp m0 m1 /\
  (cucon_ucmap_cmp m0 m1 <= 0 -> cucon_ucmap_cmp m1 m2 <= 0 -> cucon_ucmap_cmp m0 m2 <= 0) /\
  (cucon_ucmap_cmp_ptr c m0 m1 = 0 <->
   forall x, option_Forall2 (fun u v => (c u v =? 0) = true) (to_map m0 !! x) (to_map m1 !! x)).
Proof.
  intros W0 C0 W1 C1 W2 Hf Hc.
  assert (E : m0 = m1 <-> to_map m0 = to_map m1).
  { rewrite to_map_eq by done. split; [by intros ->|by apply map_wf_ext]. }
  rewrite ucmap_eq_spec, cmp_0, eq_ptr_spec, cmp_ptr_eq_ptr, eq_ptr_spec by (done || intros u; by rewrite Hc).
  split_and!; try done; [apply cmp_range..|apply cmp_flip|by apply cmp_trans].
Qed.
