(* ===== verification/UcmapBuild.v ===== *)
(** * Constructive integer maps: construction from a sorted array

    [cucon_ucmap_from_sorted_array] builds the tree of the array's bindings in one
    pass; of several bindings of a key it keeps the first. *)

From S2P Require Export UcmapCmp.

(** ** The part of a sorted array up to a key *)

Definition key_le (e0 e1 : Z * Z) : Prop := e0.1 <= e1.1.
Definition ascending (arr : list (Z * Z)) : Prop := StronglySorted key_le arr.
Definition keys_words (arr : list (Z * Z)) : Prop := Forall (fun e => word e.1) arr.

#[global] Instance key_le_dec e0 e1 : Decision (key_le e0 e1).
Proof. unfold key_le. apply _. Defined.

(** The first binding of a key. *)
Definition first (arr : list (Z * Z)) (x : Z) : option Z := (list_to_map arr : gmap Z Z) !! x.

Definition consumed (m : Z) (arr rest : list (Z * Z)) : Prop :=
  exists pre, arr = pre ++ rest /\ (forall e, e ∈ pre -> e.1 <= m) /\ (forall e, e ∈ rest -> m < e.1).

Lemma first_cons k v arr x : first ((k, v) :: arr) x = if x =? k then Some v else first arr x.
Proof.
  unfold first. rewrite list_to_map_cons, lookup_insert.
  destruct (Z.eqb_spec x k) as [->|]; [by rewrite decide_True|by rewrite decide_False].
Qed.

Lemma first_none arr x : (forall e, e ∈ arr -> e.1 <> x) -> first arr x = None.
Proof.
  induction arr as [|[k v] arr IH]; intros H; [done|]. rewrite first_cons.
  pose proof (H (k, v) (list_elem_of_here _ _)). simpl in *.
  rewrite (proj2 (Z.eqb_neq x k)) by done. apply IH. intros e He. apply H. by right.
Qed.

Lemma first_consumed m arr rest x : consumed m arr rest -> m < x -> first arr x = first rest x.
Proof.
  intros (pre & -> & Hp & _) Hx. induction pre as [|[k v] pre IH]; [done|]. cbn [app].
  pose proof (Hp (k, v) (list_elem_of_here _ _)). simpl in *.
  rewrite first_cons, (proj2 (Z.eqb_neq x k)) by lia. apply IH. intros e He. apply Hp. by right.
Qed.

Lemma map_consumed_trans m1 m2 arr mid rest :
  m1 <= m2 -> consumed m1 arr mid -> consumed m2 mid rest -> consumed m2 arr rest.
Proof.
  intros Hm (pre & -> & Hp & _) (pre' & -> & Hp' & Hr). exists (pre ++ pre').
  split; [by rewrite app_assoc|]. split; [|done].
  intros x [Hx|Hx]%elem_of_app; [specialize (Hp x Hx); lia|by apply Hp'].
Qed.

Lemma consumed_sub m arr rest :
  consumed m arr rest -> ascending arr -> keys_words arr ->
  ascending rest /\ keys_words rest /\ (length rest <= length arr)%nat.
Proof.
  intros (pre & -> & _) Hs Hw. apply StronglySorted_app_1_r in Hs.
  apply list.Forall_app in Hw as [_ Hw]. rewrite length_app. split_and!; done || lia.
Qed.

Lemma consumed_head m e arr rest : consumed m (e :: arr) rest -> e.1 <= m -> (length rest <= length arr)%nat.
Proof.
  intros ([|e' pre] & E & _ & Hr) Hle.
  - simpl in E. specialize (Hr e). rewrite <- E in Hr. specialize (Hr (list_elem_of_here _ _)). lia.
  - simpl in E. injection E as -> ->. rewrite length_app. lia.
Qed.

Lemma map_ascending_head e arr e' : ascending (e :: arr) -> e' ∈ e :: arr -> e.1 <= e'.1.
Proof.
  intros [_ Hf]%StronglySorted_inv [->|Hy]%elem_of_cons; [lia|].
  by apply (proj1 (list.Forall_forall _ _) Hf).
Qed.

Lemma consumed_nothing m arr : (forall e, e ∈ arr -> m < e.1) -> consumed m arr arr.
Proof. intros H. exists []. split; [done|]. split; [by intros ? ?%elem_of_nil|done]. Qed.

Lemma map_drop_key_consumed key arr :
  ascending arr -> (forall e, e ∈ arr -> key <= e.1) -> consumed key arr (drop_key key arr).
Proof.
  induction arr as [|x arr IH]; intros Hs Hk; cbn [drop_key]; [apply consumed_nothing; by intros ? ?%elem_of_nil|].
  destruct (Z.eqb_spec x.1 key) as [E|Hne].
  - destruct IH as (pre & Ea & Hp & Hr).
    { by apply StronglySorted_inv in Hs as [? _]. }
    { intros y Hy. apply Hk. by right. }
    exists (x :: pre). split; [by rewrite Ea at 1|]. split; [|done].
    intros y [->|Hy]%elem_of_cons; [lia|by apply Hp].
  - apply consumed_nothing. intros y Hy. pose proof (map_ascending_head _ _ _ Hs Hy).
    pose proof (Hk x (list_elem_of_here _ _)). lia.
Qed.

Lemma map_skip_key_consumed key v arr :
  ascending ((key, v) :: arr) -> consumed key ((key, v) :: arr) (skip_key key ((key, v) :: arr)).
Proof.
  intros Hs. unfold skip_key. cbn [tail].
  destruct (map_drop_key_consumed key arr) as (pre & E & Hp & Hr).
  { by apply StronglySorted_inv in Hs as [? _]. }
  { intros y Hy. apply (map_ascending_head (key, v) arr); [done|by right]. }
  exists ((key, v) :: pre). split; [by rewrite E at 1|]. split; [|done].
  intros y [->|Hy]%elem_of_cons; [simpl; lia|by apply Hp].
Qed.

(** ** Trees built from a prefix of the array *)

(** [node] has the bindings of [arr0] up to [m], the others are in [rest]. *)
Definition built (lo m : Z) (arr0 : list (Z * Z)) (node : ucmap) (rest : list (Z * Z)) : Prop :=
  wf node /\ compact node /\ bounded lo m node /\ consumed m arr0 rest /\
  forall x, get node x = if x <=? m then first arr0 x else None.

Lemma built_extend lo m m' arr0 node rest :
  built lo m arr0 node rest -> m <= m' -> (forall e, e ∈ rest -> m' < e.1) -> built lo m' arr0 node rest.
Proof.
  intros (W & C & B & (pre & E & Hp & Hr) & G) Hm Hrest. split_and!; try done.
  - by apply (bounded_mono lo m).
  - exists pre. split; [done|]. split; [|done]. intros e He. specialize (Hp e He). lia.
  - intros x. rewrite G. destruct (Z.leb_spec x m), (Z.leb_spec x m'); try done; [lia|].
    symmetry. rewrite (first_consumed m arr0 rest); [|by exists pre|lia].
    apply first_none. intros e He. specialize (Hrest e He). lia.
Qed.

Lemma built_null lo m arr : (forall e, e ∈ arr -> m < e.1) -> built lo m arr Null arr.
Proof.
  intros H. split_and!; try done; [by apply consumed_nothing|]. intros x. cbn [get].
  destruct (Z.leb_spec x m); [|done]. symmetry. apply first_none. intros e He. specialize (H e He). lia.
Qed.

(** A node whose left child is built before its key, and whose right child after it. *)
Lemma built_node lo k h v arr0 l arr1 arr1' r arr2 :
  word k -> lo <= k -> (h = true \/ v = 0) ->
  built lo (k - 1) arr0 l arr1 -> bounded (klo k) (k - 1) l ->
  first arr0 k = (if h then Some v else None) -> consumed k arr1 arr1' ->
  built (k + 1) (khi k) arr1' r arr2 ->
  (h = true \/ (is_null l = false /\ is_null r = false)) ->
  built lo (khi k) arr0 (Node k l h r v) arr2.
Proof.
  intros Hk Hlo Hv (Wl & Cl & Bl & Dl & Gl) Bl' Fk D1 (Wr & Cr & Br & Dr & Gr) Hh.
  pose proof (key_bounds k Hk).
  assert (D2 : consumed k arr0 arr1') by (apply (map_consumed_trans (k - 1) _ _ arr1); done || lia).
  split; [by split_and!|]. split; [by split_and!|]. split; [|split].
  - apply bounded_node. split_and!; try lia.
    + by eapply bounded_mono; [exact Bl|lia|lia].
    + by eapply bounded_mono; [exact Br|lia|lia].
  - by apply (map_consumed_trans k _ _ arr1'); [lia|..].
  - intros x. get_at k x.
    + rewrite Gl, !(proj2 (Z.leb_le _ _)) by lia. done.
    + by rewrite (proj2 (Z.leb_le _ _)) by lia.
    + by rewrite Gr, (first_consumed k arr0 arr1').
Qed.

Lemma built_some_not_null lo m arr0 node rest e :
  built lo m arr0 node rest -> e ∈ arr0 -> e.1 <= m -> is_null node = false.
Proof.
  intros (W & C & _ & _ & G) He Hm. destruct node; [|done]. exfalso.
  specialize (G e.1). cbn [get] in G. rewrite (proj2 (Z.leb_le _ _)) in G by done.
  symmetry in G. unfold first in G. apply not_elem_of_list_to_map_2 in G. apply G.
  apply list_elem_of_fmap. by exists e.
Qed.

(** ** The recursion *)

(** The keys from [lo] to [max] are closed under the intervals of node keys. *)
Definition closed (lo max : Z) : Prop := forall j, word j -> lo <= j <= max -> khi j <= max.

Lemma map_closed_node j : word j -> closed (j + 1) (khi j).
Proof. intros Hj c Hc Hr. apply (map_nested_right j c); try done. lia. Qed.

Lemma map_closed_top : closed 0 UINTPTR_MAX.
Proof.
  intros j Hj _. unfold khi, UINTPTR_MAX. pose proof (lb_bounds j Hj).
  destruct (Z.eq_dec j 0) as [->|]; [change (lb 0) with (2 ^ 64)|]; lia.
Qed.

Lemma key_max_khi k : word k -> key_max k = khi k.
Proof.
  intros Hk. destruct (Z.eq_dec k 0) as [->|Hn]; [done|]. by rewrite key_max_spec.
Qed.

Definition array_ok (lo : Z) (arr : list (Z * Z)) : Prop :=
  ascending arr /\ keys_words arr /\ forall e, e ∈ arr -> lo <= e.1.

Definition loop_result lo max arr0 (o : option (ucmap * list (Z * Z))) : Prop :=
  exists u rest, o = Some (u, rest) /\ built lo max arr0 u rest.

(** What the recursive call does on arrays of up to [n] elements. *)
Definition rec_spec (n : nat) (rec : Z -> list (Z * Z) -> option (ucmap * list (Z * Z))) : Prop :=
  forall lo max arr, array_ok lo arr -> closed lo max -> (length arr <= n)%nat ->
  loop_result lo max arr (rec max arr).

Lemma array_ok_rest lo m arr rest : array_ok lo arr -> consumed m arr rest -> array_ok (m + 1) rest.
Proof.
  intros (Hs & Hw & _) Hc. destruct (consumed_sub _ _ _ Hc Hs Hw) as (Hs' & Hw' & _).
  split_and!; try done. destruct Hc as (_ & _ & _ & Hr). intros e He. specialize (Hr e He). lia.
Qed.

Lemma array_ok_weaken lo lo' arr : array_ok lo arr -> (forall e, e ∈ arr -> lo' <= e.1) -> array_ok lo' arr.
Proof. intros (? & ? & _) ?. by split_and!. Qed.

Definition root_is (k : Z) (m : ucmap) : Prop := exists l h r v, m = Node k l h r v.

Lemma root_bounded k m lo hi : root_is k m -> wf m -> lo <= klo k -> khi k <= hi -> bounded lo hi m.
Proof. intros (l & h & r & v & ->). apply wf_bounded_in. Qed.

(** ** The loop

    The invariant of the loop: the current node has the bindings up to the end of
    its interval. *)

Lemma words_of arr e : keys_words arr -> e ∈ arr -> word e.1.
Proof. intros H He. by apply (proj1 (list.Forall_forall _ _) H). Qed.

(** The next key covers the current node, which becomes its left child. *)
Lemma built_cover lo cur arr0 node x v arr r arr2 :
  built lo (khi cur) arr0 node ((x, v) :: arr) -> array_ok lo ((x, v) :: arr) ->
  word cur -> root_is cur node -> klo x <= klo cur -> khi cur < x ->
  built (x + 1) (khi x) (skip_key x ((x, v) :: arr)) r arr2 ->
  built lo (khi x) arr0 (node_new_val x node r v) arr2 /\ root_is x (node_new_val x node r v).
Proof.
  intros Hb (Hs & Hw & Hl) Hc Hroot Hlo Hhi Hr.
  pose proof (words_of _ (x, v) Hw (list_elem_of_here _ _)) as Hx. simpl in Hx.
  pose proof (Hl (x, v) (list_elem_of_here _ _)) as Hlx. simpl in Hlx.
  assert (Hge : forall e, e ∈ (x, v) :: arr -> x <= e.1) by (intros e He; by apply (map_ascending_head (x, v) arr)).
  pose proof Hb as (Wn & _ & _ & D & _).
  split; [|by eexists _, _, _, _]. eapply built_node; try done; [by left|..].
  - apply (built_extend lo (khi cur)); [done|lia|]. intros e He. specialize (Hge e He). lia.
  - apply (root_bounded cur); done || lia.
  - by rewrite (first_consumed _ _ _ _ D), first_cons, Z.eqb_refl by lia.
  - by apply map_skip_key_consumed.
  - by left.
Qed.

(** Neither covers the other: a branch node joins them. *)
Lemma built_join lo cur arr0 node x v arr r arr2 :
  built lo (khi cur) arr0 node ((x, v) :: arr) -> array_ok lo ((x, v) :: arr) ->
  word cur -> root_is cur node -> cur < x -> apart cur x -> lo <= cur ->
  let j := key_join cur x in
  built (j + 1) (khi j) ((x, v) :: arr) r arr2 ->
  built lo (khi j) arr0 (node_new_noval j node r) arr2 /\ root_is j (node_new_noval j node r).
Proof.
  intros Hb (Hs & Hw & Hl) Hc Hroot Hlt Ha Hlo j Hr.
  pose proof (words_of _ (x, v) Hw (list_elem_of_here _ _)) as Hx. simpl in Hx.
  destruct (key_join_klo cur x Hc Hx Hlt Ha) as (_ & Hj & ? & ? & ? & ?). fold j in Hj, H, H0, H1, H2.
  pose proof (key_bounds cur Hc). pose proof (key_bounds x Hx).
  assert (Hge : forall e, e ∈ (x, v) :: arr -> x <= e.1) by (intros e He; by apply (map_ascending_head (x, v) arr)).
  pose proof Hb as (Wn & _ & _ & D & _).
  split; [|by eexists _, _, _, _]. eapply built_node; try done; [lia|by right|..].
  - apply (built_extend lo (khi cur)); [done|lia|]. intros e He. specialize (Hge e He). lia.
  - apply (root_bounded cur); done || lia.
  - rewrite (first_consumed _ _ _ _ D) by lia. apply first_none. intros e He. specialize (Hge e He). lia.
  - apply consumed_nothing. intros e He. specialize (Hge e He). lia.
  - right. split; [by destruct Hroot as (?&?&?&?&->)|].
    apply (built_some_not_null _ _ _ _ _ (x, v) Hr); [by left|simpl; lia].
Qed.

Lemma built_done lo m max arr0 node :
  built lo m arr0 node [] -> m <= max -> loop_result lo max arr0 (Some (node, [])).
Proof.
  intros Hb Hm. eexists _, _. split; [done|]. apply (built_extend lo m); [done..|]. by intros ? ?%elem_of_nil.
Qed.

Lemma built_nil_null lo m r rest : built lo m [] r rest -> r = Null /\ rest = [].
Proof.
  intros (W & C & _ & (pre & E & _) & G). symmetry in E. apply app_eq_nil in E as [_ ->]. split; [|done].
  apply is_null_eq. apply compact_null; [done..|]. intros x. rewrite G. by destruct (x <=? m).
Qed.

(** The array after a call for a right child. *)
Lemma rest_ok lo k max arr r arr2 :
  built (k + 1) max arr r arr2 -> array_ok (k + 1) arr -> lo <= k -> k <= max ->
  array_ok lo arr2 /\ (length arr2 <= length arr)%nat.
Proof.
  intros (_ & _ & _ & D & _) Hok Hlo Hk. pose proof Hok as (Hs & Hw & _).
  destruct (consumed_sub _ _ _ D Hs Hw) as (_ & _ & Hlen). split; [|done].
  eapply array_ok_weaken; [by eapply array_ok_rest|]. destruct D as (_ & _ & _ & Hr).
  intros e He. specialize (Hr e He). lia.
Qed.

Lemma from_sorted_loop_spec rec n lo max :
  closed lo max -> rec_spec n rec ->
  forall fuel cur node arr0 arr, (length arr <= n)%nat -> (length arr < fuel)%nat ->
  built lo (khi cur) arr0 node arr -> array_ok lo arr -> word cur -> root_is cur node ->
  lo <= cur -> khi cur <= max ->
  loop_result lo max arr0 (from_sorted_loop rec fuel max cur node arr).
Proof.
  intros Hcl Hrec. induction fuel as [|fuel IH]; intros cur node arr0 arr Hn Hf Hb Hok Hc Hroot Hlo Hhi; [lia|].
  cbn [from_sorted_loop]. destruct arr as [|[x v] arr]; [by eapply built_done|].
  pose proof Hok as (Hs & Hw & Hl).
  pose proof (words_of _ (x, v) Hw (list_elem_of_here _ _)) as Hx. simpl in Hx.
  pose proof (proj1 (proj2 (proj2 (proj2 Hb)))) as (_ & _ & _ & Hgt).
  pose proof (Hgt (x, v) (list_elem_of_here _ _)) as Hxgt. simpl in Hxgt.
  pose proof (key_bounds cur Hc). pose proof (key_bounds x Hx).
  destruct (Z.ltb_spec max x) as [Hmx|Hmx].
  { eexists _, _. split; [done|]. apply (built_extend lo (khi cur)); [done..|].
    intros e He. pose proof (map_ascending_head _ _ _ Hs He). simpl in *. lia. }
  pose proof (Hcl x Hx ltac:(lia)) as Hxmax.
  pose proof (key_viewP cur x Hc Hx ltac:(lia)) as V.
  destruct (key_covers x cur) eqn:C.
  - assert (klo x <= klo cur /\ khi cur < x) as [? ?] by (inversion V; subst; try done; lia).
    pose proof (map_skip_key_consumed x v arr Hs) as D1.
    pose proof (consumed_head _ _ _ _ D1 ltac:(done)) as Hlen1.
    assert (Hok1 : array_ok (x + 1) (skip_key x ((x, v) :: arr))) by by eapply array_ok_rest.
    destruct (Hrec (x + 1) (khi x) _ Hok1 (map_closed_node x Hx)) as (r & arr2 & Er & Hr); [simpl in *; lia|].
    destruct (built_cover lo cur arr0 node x v arr r arr2) as [Hb' Hroot']; try done.
    destruct (rest_ok lo _ _ _ _ _ Hr Hok1) as [Hok2 Hlen2]; [lia|lia|].
    rewrite <- key_max_khi in Er by done.
    destruct (skip_key x ((x, v) :: arr)) as [|e1 arr1].
    + apply built_nil_null in Hr as [-> ->]. by eapply built_done.
    + cbn zeta. rewrite Er. cbn [mbind option_bind]. apply IH; try done; simpl in *; lia.
  - assert (apart cur x /\ key_covers cur x = false) as [Ha C'] by (inversion V; subst; try done; lia).
    rewrite C'. cbn [negb]. cbn zeta. assert (Hlt : cur < x) by lia.
    destruct (key_join_klo cur x Hc Hx Hlt Ha) as (_ & Hj & ? & ? & ? & ?).
    set (j := key_join cur x) in *. pose proof (Hcl j Hj ltac:(lia)).
    assert (Hok1 : array_ok (j + 1) ((x, v) :: arr)).
    { apply (array_ok_weaken lo); [done|]. intros e He. pose proof (map_ascending_head _ _ _ Hs He). simpl in *. lia. }
    destruct (Hrec (j + 1) (khi j) _ Hok1 (map_closed_node j Hj)) as (r & arr2 & Er & Hr); [done|].
    destruct (built_join lo cur arr0 node x v arr r arr2) as [Hb' Hroot']; try done.
    destruct (rest_ok lo _ _ _ _ _ Hr Hok1) as [Hok2 _]; [lia|lia|].
    pose proof (proj1 (proj2 (proj2 (proj2 Hr)))) as D2.
    pose proof (consumed_head _ _ _ _ D2 ltac:(simpl; lia)) as Hlen2.
    rewrite key_max_khi, Er by done. cbn [mbind option_bind]. apply IH; try done; simpl in *; lia.
Qed.

(** ** The function *)

Lemma from_sorted_rec_spec fuel n : (n < fuel)%nat -> rec_spec n (ucmap_from_sorted_array fuel).
Proof.
  revert n. induction fuel as [|fuel IH]; intros n Hf lo max arr Hok Hcl Hn; [lia|].
  cbn [ucmap_from_sorted_array]. destruct arr as [|[c v] arr].
  { eexists _, _. split; [done|]. apply built_null. by intros ? ?%elem_of_nil. }
  pose proof Hok as (Hs & Hw & Hl).
  pose proof (words_of _ (c, v) Hw (list_elem_of_here _ _)) as Hc. simpl in Hc.
  pose proof (Hl (c, v) (list_elem_of_here _ _)) as Hlc. simpl in Hlc.
  assert (Hge : forall e, e ∈ (c, v) :: arr -> c <= e.1) by (intros e He; by apply (map_ascending_head (c, v) arr)).
  pose proof (key_bounds c Hc).
  destruct (Z.ltb_spec max c) as [Hmc|Hmc].
  { eexists _, _. split; [done|]. apply built_null. intros e He. specialize (Hge e He). lia. }
  pose proof (Hcl c Hc ltac:(lia)) as Hcmax.
  pose proof (map_skip_key_consumed c v arr Hs) as D1.
  pose proof (consumed_head _ _ _ _ D1 ltac:(done)) as Hlen1. simpl in Hn.
  assert (Hok1 : array_ok (c + 1) (skip_key c ((c, v) :: arr))) by by eapply array_ok_rest.
  assert (Hstep : forall r arr2, built (c + 1) (khi c) (skip_key c ((c, v) :: arr)) r arr2 ->
    built lo (khi c) ((c, v) :: arr) (node_new_val c Null r v) arr2).
  { intros r arr2 Hr.
    eapply (built_node lo c true v _ Null ((c, v) :: arr));
      [done|done|by left| |done|by rewrite first_cons, Z.eqb_refl|exact D1|exact Hr|by left].
    apply built_null. intros e He. specialize (Hge e He). lia. }
  destruct (IH (length (skip_key c ((c, v) :: arr))) ltac:(lia) (c + 1) (khi c) _ Hok1 (map_closed_node c Hc))
    as (r & arr2 & Er & Hr); [done|].
  destruct (rest_ok lo _ _ _ _ _ Hr Hok1) as [Hok2 Hlen2]; [lia|lia|].
  rewrite <- key_max_khi in Er by done.
  assert (Hloop : forall r' arr', built lo (khi c) ((c, v) :: arr) (node_new_val c Null r' v) arr' ->
    array_ok lo arr' -> (length arr' <= length (skip_key c ((c, v) :: arr)))%nat ->
    loop_result lo max ((c, v) :: arr)
      (from_sorted_loop (ucmap_from_sorted_array fuel) fuel max c (node_new_val c Null r' v) arr')).
  { intros r' arr' Hb Hok' Hlen'.
    apply (from_sorted_loop_spec _ (length arr')); try done; [apply IH; lia|lia|by eexists _, _, _, _]. }
  revert Hstep Hok1 Er Hr Hlen1 Hlen2 Hloop D1.
  destruct (skip_key c ((c, v) :: arr)) as [|[y w] arr1]; intros Hstep Hok1 Er Hr Hlen1 Hlen2 Hloop D1.
  { apply built_nil_null in Hr as [-> ->]. eapply built_done; [|done]. apply Hstep. apply built_null.
    by intros ? ?%elem_of_nil. }
  destruct (key_covers c y) eqn:C.
  - rewrite Er. cbn [mbind option_bind]. by apply Hloop; [apply Hstep|..].
  - cbn [mbind option_bind]. apply Hloop; [apply Hstep, built_null| |done].
    + intros e He. pose proof (map_ascending_head _ _ _ (proj1 Hok1) He) as Hy. simpl in Hy.
      pose proof (proj2 (proj2 Hok1) (y, w) (list_elem_of_here _ _)) as Hcy. simpl in Hcy.
      pose proof (words_of _ (y, w) (proj1 (proj2 Hok1)) (list_elem_of_here _ _)) as Hyw. simpl in Hyw.
      destruct (Z.le_gt_cases y (khi c)); [|lia].
      rewrite (proj2 (map_key_covers_spec c y Hc Hyw ltac:(lia))) in C by lia. done.
    + eapply array_ok_weaken; [exact Hok1|]. intros e He. pose proof (proj2 (proj2 Hok1) e He). lia.
Qed.

Lemma from_sorted_run arr :
  ascending arr -> keys_words arr ->
  ucmap_from_sorted_array (S (length arr)) UINTPTR_MAX arr = Some (cucon_ucmap_from_sorted_array arr, []) /\
  wf (cucon_ucmap_from_sorted_array arr) /\ compact (cucon_ucmap_from_sorted_array arr) /\
  forall x, get (cucon_ucmap_from_sorted_array arr) x = first arr x.
Proof.
  intros Hs Hw.
  destruct (from_sorted_rec_spec (S (length arr)) (length arr) ltac:(lia) 0 UINTPTR_MAX arr) as (u & rest & E & Hb);
    [|apply map_closed_top|done|].
  { split_and!; try done. intros e He. by apply (words_of arr). }
  unfold cucon_ucmap_from_sorted_array. rewrite E. cbn [fmap option_fmap option_map fst default from_option id].
  destruct Hb as (W & C & _ & D & G).
  split; [|split; [done|split; [done|]]].
  - f_equal. f_equal. apply elem_of_nil_inv. intros e He. destruct D as (pre & Ea & _ & Hr).
    pose proof (Hr e He). assert (word e.1) as Hwe.
    { apply (words_of arr); [done|]. rewrite Ea. apply elem_of_app. by right. }
    unfold word, UINTPTR_MAX in *. lia.
  - intros x. rewrite G. destruct (Z.leb_spec x UINTPTR_MAX) as [|Hx]; [done|]. symmetry. apply first_none.
    intros e He. pose proof (words_of _ _ Hw He). unfold word, UINTPTR_MAX in *. lia.
Qed.

Lemma map_from_sorted_wf arr :
  ascending arr -> keys_words arr ->
  wf (cucon_ucmap_from_sorted_array arr) /\ compact (cucon_ucmap_from_sorted_array arr) /\
  forall x, get (cucon_ucmap_from_sorted_array arr) x = first arr x.
Proof. intros Hs Hw. by apply from_sorted_run. Qed.

(** [cucon_ucmap_from_sorted_array] on an array with ascending keys, repetitions
    allowed, consumes the whole array within the fuel the model gives it, and
    returns the compact map of the first binding of each key. *)
Theorem ucmap_from_sorted_array_correct arr :
  ascending arr -> keys_words arr ->
  ucmap_from_sorted_array (S (length arr)) UINTPTR_MAX arr = Some (cucon_ucmap_from_sorted_array arr, []) /\
  wf (cucon_ucmap_from_sorted_array arr) /\ compact (cucon_ucmap_from_sorted_array arr) /\
  to_map (cucon_ucmap_from_sorted_array arr) = list_to_map arr.
Proof.
  intros Hs Hw. destruct (from_sorted_run arr Hs Hw) as (E & W & C & G). split_and!; try done.
  apply to_map_is; [done|]. intros x. apply G.
Qed.
