(* ===== verification/WordSet.v ===== *)
(** * Sets of words as other components use them

    [WordSet] has the operations of [cucon/ucset.h] that [cucon/ucmultimap.c]
    calls, and [WordSetLaws] what it relies on: every operation keeps [set_ok] and
    acts on the ascending list of elements as its name says, and the representation
    is canonical, so that pointer equality is equality of sets. *)

From stdpp Require Export gmap sorting.
From S2P Require Export Prelude.

Class WordSet (SET : Type) := {
  set_null : SET;
  set_ptr_eq : SET -> SET -> bool;
  set_singleton : Z -> SET;
  set_is_singleton : SET -> bool;
  set_from_sorted_array : list Z -> SET;
  set_insert : SET -> Z -> SET;
  set_erase : SET -> Z -> SET;
  set_union : SET -> SET -> SET;
  set_compl : SET -> SET -> SET;
  set_find : SET -> Z -> bool;
  set_card : SET -> Z;
  set_conj : forall {S : Type}, SET -> (S -> Z -> S * bool) -> S -> S * bool;
}.

Class WordSetLaws (SET : Type) `{WordSet SET} := {
  set_ok : SET -> Prop;
  set_list : SET -> list Z;
  set_elems (s : SET) : gset Z := list_to_set (set_list s);
  set_ptr_eq_spec s t : set_ptr_eq s t = true <-> s = t;
  set_list_sorted s : set_ok s -> StronglySorted Z.lt (set_list s);
  set_ext s t : set_ok s -> set_ok t -> set_elems s = set_elems t -> s = t;
  set_null_ok : set_ok set_null /\ set_elems set_null = ∅;
  set_singleton_ok x : word x -> set_ok (set_singleton x) /\ set_elems (set_singleton x) = {[x]};
  set_from_sorted_array_ok xs :
    StronglySorted Z.le xs -> Forall word xs ->
    set_ok (set_from_sorted_array xs) /\ set_elems (set_from_sorted_array xs) = list_to_set xs;
  set_insert_ok s x :
    set_ok s -> word x -> set_ok (set_insert s x) /\ set_elems (set_insert s x) = {[x]} ∪ set_elems s;
  set_erase_ok s x :
    set_ok s -> word x -> set_ok (set_erase s x) /\ set_elems (set_erase s x) = set_elems s ∖ {[x]};
  set_union_ok s t :
    set_ok s -> set_ok t -> set_ok (set_union s t) /\ set_elems (set_union s t) = set_elems s ∪ set_elems t;
  set_compl_ok s t :
    set_ok s -> set_ok t -> set_ok (set_compl s t) /\ set_elems (set_compl s t) = set_elems s ∖ set_elems t;
  set_find_ok s x : set_ok s -> word x -> set_find s x = bool_decide (x ∈ set_elems s);
  set_card_ok s : set_ok s -> set_card s = wrap (Z.of_nat (size (set_elems s)));
  set_conj_ok {S : Type} s (cb : S -> Z -> S * bool) st :
    set_ok s -> set_conj s cb st = conj_list cb (set_list s) st;
}.

(** The address of a hash-consed node as an integer, and the node at an address:
    [NULL] is 0, and equal addresses belong to the same node. *)
Class Addressed (SET : Type) `{WordSet SET} := {
  addr : SET -> Z;
  deref : Z -> SET;
  addr_null : addr set_null = 0;
  deref_addr s : deref (addr s) = s;
}.

Section consequences.
Context {SET : Type} `{WordSetLaws SET} `{!Addressed SET}.

Lemma deref_0 : deref 0 = set_null.
Proof. rewrite <- addr_null. apply deref_addr. Qed.

Lemma addr_inj s t : addr s = addr t -> s = t.
Proof. intros E. by rewrite <- (deref_addr s), E, deref_addr. Qed.

Lemma addr_0 s : addr s = 0 -> s = set_null.
Proof. rewrite <- addr_null. apply addr_inj. Qed.

Lemma set_elems_empty s : set_ok s -> set_elems s = ∅ <-> s = set_null.
Proof.
  intros Hs. destruct set_null_ok as [Hn En]. split; [|by intros ->].
  intros E. apply set_ext; [done..|]. by rewrite E.
Qed.

End consequences.
