(* ===== verification/UcsetSet.v ===== *)
(** * Constructive integer sets as word sets

    [cucon/ucset.c] implements the interface of [WordSet]; a concrete assignment of
    addresses shows that the assumption about them can be met. *)

From stdpp Require Import countable.
From S2P Require Export UcsetBuild WordSet.

#[global] Instance ucset_wordset : WordSet ucset := {
  set_null := Null;
  set_ptr_eq := ptr_eq;
  set_singleton := cucon_ucset_singleton;
  set_is_singleton := cucon_ucset_is_singleton;
  set_from_sorted_array := cucon_ucset_from_sorted_array;
  set_insert := cucon_ucset_insert;
  set_erase := cucon_ucset_erase;
  set_union := cucon_ucset_union;
  set_compl := cucon_ucset_compl;
  set_find := cucon_ucset_find;
  set_card := cucon_ucset_card;
  set_conj := fun S => @cucon_ucset_conj S;
}.

Lemma elem_of_list_elems s x : x ∈@{gset Z} list_to_set (elems s) <-> mem s x = true.
Proof. apply to_set_spec. Qed.

#[global] Program Instance ucset_wordset_laws : WordSetLaws ucset := {
  set_ok := wf;
  set_list := elems;
}.
Next Obligation. intros s t. apply bool_decide_eq_true. Qed.
Next Obligation. apply elems_sorted. Qed.
Next Obligation. intros s t Hs Ht E. apply wf_ext; [done..|]. by apply to_set_eq. Qed.
Next Obligation. by split. Qed.
Next Obligation.
  intros x Hx. destruct (singleton_wf x Hx) as [W M]. split; [done|].
  apply set_eq. intros y. rewrite elem_of_list_elems, elem_of_singleton. simpl. by rewrite M, Z.eqb_eq.
Qed.
Next Obligation.
  intros xs Hs Hw. by apply from_sorted_array_wf.
Qed.
Next Obligation.
  intros s x Hs Hx. destruct (insert_wf s x Hs Hx) as [W M]. split; [done|].
  apply set_eq. intros y. rewrite elem_of_union, !elem_of_list_elems, elem_of_singleton. simpl.
  rewrite M, orb_true_iff, Z.eqb_eq. tauto.
Qed.
Next Obligation.
  intros s x Hs Hx. destruct (erase_wf s x Hs Hx) as [W M]. split; [done|].
  apply set_eq. intros y. rewrite elem_of_difference, !elem_of_list_elems, elem_of_singleton. simpl.
  by rewrite M, andb_true_iff, negb_true_iff, Z.eqb_neq.
Qed.
Next Obligation.
  intros s t Hs Ht. destruct (union_wf s t Hs Ht) as [W M]. split; [done|].
  apply set_eq. intros y. rewrite elem_of_union, !elem_of_list_elems. simpl. by rewrite M, orb_true_iff.
Qed.
Next Obligation.
  intros s t Hs Ht. destruct (compl_wf s t Hs Ht) as [W M]. split; [done|].
  apply set_eq. intros y. rewrite elem_of_difference, !elem_of_list_elems. simpl.
  by rewrite M, andb_true_iff, negb_true_iff, not_true_iff_false.
Qed.
Next Obligation.
  intros s x Hs Hx. simpl. rewrite find_mem by done. destruct (mem s x) eqn:E; symmetry.
  - by apply bool_decide_eq_true, elem_of_list_elems.
  - apply bool_decide_eq_false. by rewrite elem_of_list_elems, E.
Qed.
Next Obligation.
  intros s Hs. simpl. unfold cucon_ucset_card. rewrite card_from_spec by done.
  by rewrite Z.add_0_l, length_elems.
Qed.
Next Obligation. intros S s cb st Hs. by apply conj_spec. Qed.

(** ** A concrete assignment of addresses *)

Fixpoint to_tree (s : ucset) : gen_tree (Z + list Z) :=
  match s with
  | Null => GenNode 0 []
  | Leaf k bs => GenNode 1 [GenLeaf (inl k); GenLeaf (inr bs)]
  | Node k l r => GenNode 2 [GenLeaf (inl k); to_tree l; to_tree r]
  end.

Fixpoint of_tree (t : gen_tree (Z + list Z)) : ucset :=
  match t with
  | GenNode 1 [GenLeaf (inl k); GenLeaf (inr bs)] => Leaf k bs
  | GenNode 2 [GenLeaf (inl k); l; r] => Node k (of_tree l) (of_tree r)
  | _ => Null
  end.

#[global] Instance ucset_countable : Countable ucset.
Proof.
  apply (inj_countable' to_tree of_tree).
  intros s. induction s as [|k bs|k l IHl r IHr]; simpl; congruence.
Defined.

Definition ucset_addr (s : ucset) : Z := if is_null s then 0 else Z.pos (encode s).
Definition ucset_at (a : Z) : ucset := match a with Zpos p => default Null (decode p) | _ => Null end.

Lemma ucset_at_addr s : ucset_at (ucset_addr s) = s.
Proof. destruct s; [done|..]; unfold ucset_addr, ucset_at; cbn [is_null]; by rewrite decode_encode. Qed.

#[global] Instance ucset_addressed : Addressed ucset := {
  addr := ucset_addr;
  deref := ucset_at;
  addr_null := eq_refl;
  deref_addr := ucset_at_addr;
}.
