(* ===== verification/Ucmultimap.v ===== *)
(** * Constructive multi-maps

    [cucon/ucmultimap.c]: a multi-map is a map of [cucon/ucmap.c] whose values are
    the addresses of sets of [cucon/ucset.c].  The definitions use the sets through
    [WordSet]; the theorems need [WordSetLaws] and [Addressed] only, so that the
    composition of the two components is verified against their contracts. *)

From S2P Require Export UcmapBuild WordSet.
From S2P Require UcsetSet.

(** ** The operations *)

Definition cucon_ucmultimap_element_cmp (e0 e1 : Z * Z) : Z :=
  if e0.1 <? e1.1 then -1
  else if e1.1 <? e0.1 then 1
  else if e0.2 <? e1.2 then -1
  else if e1.2 <? e0.2 then 1
  else 0.

Section operations.
Context {SET : Type} `{WordSet SET} `{!Addressed SET}.

Definition cucon_ucmultimap_empty : ucmap := Null.
Definition cucon_ucmultimap_is_empty (M : ucmap) : bool := is_null M.
Definition cucon_ucmultimap_corange_card (M : ucmap) : Z := cucon_ucmap_card M.
Definition cucon_ucmultimap_corange_contains (M : ucmap) (k : Z) : bool := cucon_ucmap_contains M k.
Definition cucon_ucmultimap_clip (M : ucmap) (k_min k_max : Z) : ucmap := cucon_ucmap_clip M k_min k_max.

Definition cucon_ucmultimap_isokey_singleton (k : Z) (V : SET) : ucmap := cucon_ucmap_singleton k (addr V).
Definition cucon_ucmultimap_isokey_find (M : ucmap) (k : Z) : SET := deref (cucon_ucmap_find_ptr M k).
Definition cucon_ucmultimap_isokey_insert (M : ucmap) (k : Z) (V : SET) : ucmap := cucon_ucmap_insert M k (addr V).
Definition cucon_ucmultimap_isokey_erase (M : ucmap) (k : Z) : ucmap := cucon_ucmap_erase M k.

Definition cucon_ucmultimap_isokey_iterA {S : Type} (f : S -> Z -> SET -> S * bool) (M : ucmap) (s : S) : S * bool :=
  cucon_ucmap_conj_ptr M (fun s k a => f s k (deref a)) s.

Definition cucon_ucmultimap_isokey_merge (M : ucmap) (k : Z) (V : SET) : ucmap :=
  let Vi := cucon_ucmultimap_isokey_find M k in
  let Vn := set_union Vi V in
  if set_ptr_eq Vn Vi then M else cucon_ucmap_insert M k (addr Vn).

Definition cucon_ucmultimap_isokey_unmerge (M : ucmap) (k : Z) (V : SET) : ucmap :=
  let Vi := cucon_ucmultimap_isokey_find M k in
  let Vn := set_compl Vi V in
  if set_ptr_eq Vn Vi then M
  else if set_ptr_eq Vn set_null then cucon_ucmultimap_isokey_erase M k
  else cucon_ucmultimap_isokey_insert M k Vn.

Definition cucon_ucmultimap_singleton (k v : Z) : ucmap := cucon_ucmap_singleton k (addr (set_singleton v)).

Definition cucon_ucmultimap_is_singleton (M : ucmap) : bool :=
  if negb (cucon_ucmap_is_singleton M) then false
  else match M with Null => false | Node _ _ _ _ a => set_is_singleton (deref a) end.

(** The inner loop of [cucon_ucmultimap_from_sorted_array]: the values of a key at
    the front of the array, and the rest of the array. *)
Fixpoint take_key (key : Z) (arr : list (Z * Z)) : list Z * list (Z * Z) :=
  match arr with
  | [] => ([], [])
  | (k, v) :: arr' =>
      if k =? key then let '(vs, rest) := take_key key arr' in (v :: vs, rest) else ([], arr)
  end.

(** The outer loop: the keys with the arrays of their values. *)
Fixpoint isokey_groups (fuel : nat) (arr : list (Z * Z)) : option (list (Z * list Z)) :=
  match arr with
  | [] => Some []
  | (key, v) :: arr =>
      match fuel with
      | O => None
      | S fuel =>
          let '(vs, rest) := take_key key arr in
          gs ← isokey_groups fuel rest; Some ((key, v :: vs) :: gs)
      end
  end.

Definition isokey_element (g : Z * list Z) : Z * Z := (g.1, addr (set_from_sorted_array g.2)).

Definition cucon_ucmultimap_from_sorted_array (arr : list (Z * Z)) : ucmap :=
  cucon_ucmap_from_sorted_array (isokey_element <$> default [] (isokey_groups (length arr) arr)).

Definition cucon_ucmultimap_insert (M : ucmap) (k v : Z) : ucmap :=
  let Vo := deref (cucon_ucmap_find_ptr M k) in
  let Vn := set_insert Vo v in
  if set_ptr_eq Vn Vo then M else cucon_ucmap_insert M k (addr Vn).

Definition cucon_ucmultimap_erase (M : ucmap) (k v : Z) : ucmap :=
  let Vo := deref (cucon_ucmap_find_ptr M k) in
  let Vn := set_erase Vo v in
  if set_ptr_eq Vn Vo then M
  else if set_ptr_eq Vn set_null then cucon_ucmap_erase M k
  else cucon_ucmap_insert M k (addr Vn).

Definition cucon_ucmultimap_contains (M : ucmap) (k v : Z) : bool :=
  set_find (cucon_ucmultimap_isokey_find M k) v.

Definition card_counter (count k : Z) (V : SET) : Z * bool := (wadd count (set_card V), true).

Definition cucon_ucmultimap_card (M : ucmap) : Z :=
  (cucon_ucmultimap_isokey_iterA card_counter M 0).1.

(** [_ucmap_node_right] of this file calls [cucon_ucmap_node_left], so that the
    loop goes on with the left child. *)
Fixpoint cucon_ucmultimap_iterA {S : Type} (f : S -> Z -> Z -> S * bool) (node : ucmap) (s : S) : S * bool :=
  match node with
  | Null => (s, true)
  | Node k l h r a =>
      and_then (cucon_ucmultimap_iterA f l s) (fun s =>
      and_then (if h then set_conj (deref a) (fun s v => f s k v) s else (s, true)) (fun s =>
      cucon_ucmultimap_iterA f l s))
  end.

Definition cucon_ucmultimap_eq (M0 M1 : ucmap) : bool := ptr_eq M0 M1.

Definition union_merge (S0 S1 : Z) : Z := addr (set_union (deref S0) (deref S1)).

Definition cucon_ucmultimap_union (M0 M1 : ucmap) : ucmap := cucon_ucmap_combined_union union_merge M0 M1.

End operations.

(** ** Multi-maps as relations *)

Section relation.
Context {SET : Type} `{WordSetLaws SET} `{!Addressed SET}.

(** The invariant: a compact map to addresses of non-empty sets. *)
Definition mm_ok (M : ucmap) : Prop :=
  wf M /\ compact M /\ forall k a, get M k = Some a -> exists V : SET, a = addr V /\ set_ok V /\ V <> set_null.

(** The values of a key. *)
Definition image (M : ucmap) (k : Z) : gset Z :=
  match get M k with Some a => set_elems (deref a) | None => ∅ end.

Lemma mm_find M k :
  mm_ok M -> word k ->
  set_ok (cucon_ucmultimap_isokey_find M k) /\ set_elems (cucon_ucmultimap_isokey_find M k) = image M k.
Proof.
  intros (W & _ & A) Hk. unfold cucon_ucmultimap_isokey_find, image. rewrite find_ptr_find, find_get by done.
  destruct (get M k) as [a|] eqn:E; simpl.
  - destruct (A k a E) as (V & -> & HV & _). by rewrite deref_addr.
  - unfold NULL. rewrite deref_0. apply set_null_ok.
Qed.

(** Binding a key to a non-empty set. *)
Lemma mm_put M k V :
  mm_ok M -> word k -> set_ok V -> V <> set_null ->
  mm_ok (cucon_ucmap_insert M k (addr V)) /\
  forall x, image (cucon_ucmap_insert M k (addr V)) x = if x =? k then set_elems V else image M x.
Proof.
  intros (W & C & A) Hk HV Hn. destruct (map_insert_wf M k (addr V) W Hk) as (W' & _ & G).
  assert (Ha : addr V =? 0 = false) by (apply Z.eqb_neq; by intros ?%addr_0).
  assert (G' : forall x, get (cucon_ucmap_insert M k (addr V)) x = if x =? k then Some (addr V) else get M x).
  { intros x. rewrite G. unfold get_insert. by rewrite Ha, andb_false_r, andb_true_r. }
  split.
  - split; [done|]. split; [by apply insert_compact|]. intros x a. rewrite G'.
    destruct (x =? k); [intros [= <-]; by exists V|apply A].
  - intros x. unfold image. rewrite G'. destruct (x =? k); [by rewrite deref_addr|done].
Qed.

Lemma mm_drop M k :
  mm_ok M -> word k ->
  mm_ok (cucon_ucmap_erase M k) /\
  forall x, image (cucon_ucmap_erase M k) x = if x =? k then ∅ else image M x.
Proof.
  intros (W & C & A) Hk. destruct (map_erase_wf M k W Hk) as (W' & _ & G). split.
  - split; [done|]. split; [by apply erase_compact|]. intros x a. rewrite G.
    destruct (x =? k); [done|apply A].
  - intros x. unfold image. rewrite G. by destruct (x =? k).
Qed.

Definition updated (M : ucmap) (k : Z) (E : gset Z) (M' : ucmap) : Prop :=
  mm_ok M' /\ forall x, image M' x = if x =? k then E else image M x.

(** The update shared by the operations: nothing to do, removal of the key, or a
    new binding. *)
Lemma mm_update M k Vn :
  mm_ok M -> word k -> set_ok Vn ->
  let Vo := cucon_ucmultimap_isokey_find M k in
  updated M k (set_elems Vn)
    (if set_ptr_eq Vn Vo then M
     else if set_ptr_eq Vn set_null then cucon_ucmap_erase M k
     else cucon_ucmap_insert M k (addr Vn)).
Proof.
  intros Hm Hk Hn Vo. destruct (mm_find M k Hm Hk) as [Ho Eo]. fold Vo in Ho, Eo.
  destruct (set_ptr_eq Vn Vo) eqn:E1; [apply set_ptr_eq_spec in E1 as ->|].
  { split; [done|]. intros x. rewrite Eo. by destruct (Z.eqb_spec x k) as [->|]. }
  destruct (set_ptr_eq Vn set_null) eqn:E2; [apply set_ptr_eq_spec in E2 as ->|].
  { destruct (mm_drop M k Hm Hk) as [? E]. split; [done|]. intros x. rewrite E.
    by rewrite (proj2 set_null_ok). }
  apply mm_put; try done. intros ->. by rewrite (proj2 (set_ptr_eq_spec _ _)) in E2.
Qed.

(** Without the removal, if the new set is empty only when the old one is. *)
Lemma mm_extend M k Vn :
  mm_ok M -> word k -> set_ok Vn -> image M k ⊆ set_elems Vn ->
  let Vo := cucon_ucmultimap_isokey_find M k in
  updated M k (set_elems Vn) (if set_ptr_eq Vn Vo then M else cucon_ucmap_insert M k (addr Vn)).
Proof.
  intros Hm Hk Hn Hsub Vo. destruct (mm_find M k Hm Hk) as [Ho Eo]. fold Vo in Ho, Eo.
  pose proof (mm_update M k Vn Hm Hk Hn) as U. cbn zeta in U. fold Vo in U.
  destruct (set_ptr_eq Vn Vo) eqn:E1; [done|]. destruct (set_ptr_eq Vn set_null) eqn:E2; [|done].
  apply set_ptr_eq_spec in E2 as ->. rewrite (proj2 set_null_ok) in Hsub.
  assert (Vo = set_null) as Ev by (apply set_elems_empty; [done|]; rewrite Eo; set_solver).
  rewrite Ev, (proj2 (set_ptr_eq_spec _ _)) in E1 by done. done.
Qed.

(** Equal relations have the same representation. *)
Lemma mm_ext M0 M1 : mm_ok M0 -> mm_ok M1 -> (forall x, image M0 x = image M1 x) -> M0 = M1.
Proof.
  intros (W0 & C0 & A0) (W1 & C1 & A1) E. apply map_wf_ext; try done. intros x. specialize (E x).
  unfold image in E. destruct (get M0 x) as [a0|] eqn:E0, (get M1 x) as [a1|] eqn:E1; try done.
  - destruct (A0 x a0 E0) as (V0 & -> & K0 & _), (A1 x a1 E1) as (V1 & -> & K1 & _).
    rewrite !deref_addr in E. f_equal. f_equal. by apply set_ext.
  - destruct (A0 x a0 E0) as (V0 & -> & K0 & N0). rewrite deref_addr in E. by apply set_elems_empty in E.
  - destruct (A1 x a1 E1) as (V1 & -> & K1 & N1). rewrite deref_addr in E. symmetry in E.
    by apply set_elems_empty in E.
Qed.

(** C33: a multi-map is kept as a compact map to non-empty sets, and every update acts
    on the relation that it stands for: inserting and erasing a pair, merging a set
    into the values of a key and removing one, with a key vanishing together with
    its last value; membership is decided by [cucon_ucmultimap_contains]. *)
Theorem ucmultimap_update_correct M k v V :
  mm_ok M -> word k -> word v -> set_ok V ->
  updated M k ({[v]} ∪ image M k) (cucon_ucmultimap_insert M k v) /\
  updated M k (image M k ∖ {[v]}) (cucon_ucmultimap_erase M k v) /\
  updated M k (image M k ∪ set_elems V) (cucon_ucmultimap_isokey_merge M k V) /\
  updated M k (image M k ∖ set_elems V) (cucon_ucmultimap_isokey_unmerge M k V) /\
  updated Null k {[v]} (cucon_ucmultimap_singleton k v) /\
  cucon_ucmultimap_contains M k v = bool_decide (v ∈ image M k).
Proof.
  intros Hm Hk Hv HV. destruct (mm_find M k Hm Hk) as [Ho Eo].
  destruct (set_insert_ok _ v Ho Hv) as [Hi Ei], (set_erase_ok _ v Ho Hv) as [He Ee],
    (set_union_ok _ V Ho HV) as [Hu Eu], (set_compl_ok _ V Ho HV) as [Hc Ec],
    (set_singleton_ok v Hv) as [Hs Es].
  rewrite Eo in Ei, Ee, Eu, Ec.
  rewrite <- Ei, <- Ee, <- Eu, <- Ec, <- Es at 1. split_and!.
  - apply mm_extend; try done. rewrite Ei. set_solver.
  - by apply mm_update.
  - apply mm_extend; try done. rewrite Eu. set_solver.
  - by apply mm_update.
  - apply (mm_put Null k); [by split_and!|done|done|]. intros E.
    assert (v ∈ set_elems (set_singleton v)) as Hin by (rewrite Es; set_solver).
    rewrite E, (proj2 set_null_ok) in Hin. set_solver.
  - unfold cucon_ucmultimap_contains. by rewrite set_find_ok, Eo.
Qed.

(** ** Unions and cardinality *)

Lemma mm_union M0 M1 :
  mm_ok M0 -> mm_ok M1 ->
  mm_ok (cucon_ucmultimap_union M0 M1) /\
  forall x, image (cucon_ucmultimap_union M0 M1) x = image M0 x ∪ image M1 x.
Proof.
  intros (W0 & C0 & A0) (W1 & C1 & A1).
  destruct (combined_union_wf union_merge M0 M1 W0 W1) as (W & _ & G). unfold cucon_ucmultimap_union. split.
  - split; [done|]. split; [by apply combined_union_compact|]. intros x a. rewrite G.
    destruct (get M0 x) as [a0|] eqn:E0, (get M1 x) as [a1|] eqn:E1; cbn; intros [= <-];
      [|by eapply A0|by eapply A1].
    destruct (A0 x a0 E0) as (V0 & -> & K0 & N0), (A1 x a1 E1) as (V1 & -> & K1 & N1).
    unfold union_merge. rewrite !deref_addr. destruct (set_union_ok V0 V1 K0 K1) as [K E].
    exists (set_union V0 V1). split_and!; try done. intros En. apply N0. apply set_elems_empty; [done|].
    rewrite En, (proj2 set_null_ok) in E. set_solver.
  - intros x. unfold image. rewrite G.
    destruct (get M0 x) as [a0|] eqn:E0, (get M1 x) as [a1|] eqn:E1; cbn; [|set_solver..].
    destruct (A0 x a0 E0) as (V0 & -> & K0 & N0), (A1 x a1 E1) as (V1 & -> & K1 & N1).
    unfold union_merge. rewrite !deref_addr. by apply set_union_ok.
Qed.

(** The number of pairs whose keys are in a list. *)
Definition pairs (M : ucmap) (ks : list Z) : nat := sum_list_with (fun k => size (image M k)) ks.

Lemma card_counter_list (es : list (Z * Z)) (n : Z) :
  (forall e, e ∈ es -> set_ok (deref e.2)) ->
  (conj_list (on_binding (fun s k a => card_counter s k (deref a))) es (wrap n)).1 =
  wrap (n + Z.of_nat (sum_list_with (fun e => size (set_elems (deref e.2))) es)).
Proof.
  revert n. induction es as [|e es IH]; intros n Hok; cbn [conj_list sum_list_with].
  { by rewrite Z.add_0_r. }
  unfold on_binding at 1, card_counter at 1. cbn [fst].
  assert (wadd (wrap n) (set_card (deref e.2)) = wrap (n + Z.of_nat (size (set_elems (deref e.2))))) as ->.
  { rewrite set_card_ok by (apply Hok; by left). unfold wadd, wrap. by rewrite <- Z.add_mod. }
  rewrite IH by (intros e' He'; apply Hok; by right). f_equal.
  lia.
Qed.

Lemma mm_card M :
  mm_ok M -> cucon_ucmultimap_card M = wrap (Z.of_nat (pairs M (elems M).*1)).
Proof.
  intros (W & C & A). unfold cucon_ucmultimap_card, cucon_ucmultimap_isokey_iterA.
  rewrite conj_ptr_spec. change 0 with (wrap 0) at 1. rewrite card_counter_list.
  - rewrite Z.add_0_l. f_equal. f_equal. unfold pairs.
    assert (He : forall e, e ∈ elems M -> image M e.1 = set_elems (deref e.2)).
    { intros [x a] He%map_elem_of_elems; [|done]. unfold image. simpl. by rewrite He. }
    induction (elems M) as [|e es IH]; [done|]. rewrite fmap_cons. cbn [sum_list_with].
    rewrite (He e) by by left. f_equal. apply IH. intros e' He'. apply He. by right.
  - intros [x a] He%map_elem_of_elems; [|done]. destruct (A x a He) as (V & -> & K & _). simpl.
    by rewrite deref_addr.
Qed.

(** ** Construction from a sorted array *)

(** The order of [cucon_ucmultimap_element_cmp]. *)
Definition element_le (e0 e1 : Z * Z) : Prop := cucon_ucmultimap_element_cmp e0 e1 <= 0.

Definition values (k : Z) (arr : list (Z * Z)) : list Z := (filter (fun e => e.1 = k) arr).*2.

Lemma element_le_spec e0 e1 : element_le e0 e1 <-> e0.1 < e1.1 \/ (e0.1 = e1.1 /\ e0.2 <= e1.2).
Proof. unfold element_le, cucon_ucmultimap_element_cmp. bits_split; lia. Qed.

Lemma filter_sorted_sub (P : Z * Z -> Prop) `{!forall x, Decision (P x)} arr :
  StronglySorted element_le arr -> StronglySorted element_le (filter P arr).
Proof.
  induction 1 as [|e arr Hs IH Hf]; [by constructor|]. rewrite filter_cons. case_decide; [|done].
  constructor; [done|]. apply list.Forall_forall. intros e' [_ He']%list_elem_of_filter.
  by apply (proj1 (list.Forall_forall _ _) Hf).
Qed.

Lemma take_key_spec key arr :
  StronglySorted element_le arr -> (forall e, e ∈ arr -> key <= e.1) ->
  take_key key arr = (values key arr, filter (fun e => e.1 <> key) arr).
Proof.
  unfold values. induction 1 as [|[k v] arr Hs IH Hf]; intros Hk; [done|]. cbn [take_key].
  rewrite !filter_cons. cbn [fst]. destruct (Z.eqb_spec k key) as [->|Hne].
  - rewrite decide_True, decide_False by (done || by intros []). rewrite IH; [done|].
    intros e He. apply Hk. by right.
  - assert (Hall : forall e, e ∈ arr -> e.1 <> key).
    { intros e He. pose proof (proj1 (list.Forall_forall _ _) Hf e He) as Hle. apply element_le_spec in Hle.
      pose proof (Hk (k, v) (list_elem_of_here _ _)). simpl in *. lia. }
    rewrite decide_False, decide_True by done.
    rewrite filter_none, filter_all by (apply list.Forall_forall; auto). done.
Qed.

Lemma values_other k k' arr : k <> k' -> values k (filter (fun e => e.1 <> k') arr) = values k arr.
Proof.
  intros Hne. unfold values. rewrite list_filter_filter. f_equal. apply list_filter_iff.
  intros e. split; [by intros []|]. intros <-. by split.
Qed.

Lemma elem_of_values v k arr : v ∈ values k arr <-> (k, v) ∈ arr.
Proof.
  unfold values. rewrite list_elem_of_fmap. setoid_rewrite list_elem_of_filter. split.
  - intros ([k' v'] & -> & <- & Hin). done.
  - intros Hin. by exists (k, v).
Qed.

Lemma values_sorted k arr : StronglySorted element_le arr -> StronglySorted Z.le (values k arr).
Proof.
  intros Hs. unfold values. induction Hs as [|e arr Hs IH Hf]; [by constructor|]. rewrite filter_cons.
  case_decide as Hk; [|done]. rewrite fmap_cons. constructor; [done|].
  apply list.Forall_forall. intros v (e' & -> & [He' Hin]%list_elem_of_filter)%list_elem_of_fmap.
  pose proof (proj1 (list.Forall_forall _ _) Hf e' Hin) as Hle. apply element_le_spec in Hle. lia.
Qed.

(** The groups have ascending keys of the array, with all their values. *)
Definition groups_of (arr : list (Z * Z)) (gs : list (Z * list Z)) : Prop :=
  StronglySorted (fun g g' => g.1 < g'.1) gs /\
  (forall k vs, (k, vs) ∈ gs -> vs = values k arr /\ vs <> []) /\
  forall k v, (k, v) ∈ arr -> exists vs, (k, vs) ∈ gs.

Lemma isokey_groups_spec fuel arr :
  StronglySorted element_le arr -> (length arr <= fuel)%nat ->
  exists gs, isokey_groups fuel arr = Some gs /\ groups_of arr gs.
Proof.
  revert arr. induction fuel as [|fuel IH]; intros [|[key v] arr] Hs Hf; simpl in Hf; try lia;
    try (exists []; split; [done|]; split; [constructor|]; split; by intros ? ? ?%elem_of_nil).
  cbn [isokey_groups]. apply StronglySorted_inv in Hs as [Hs Hall].
  assert (Hle : forall e, e ∈ arr -> key < e.1 \/ (key = e.1 /\ v <= e.2)).
  { intros e He. apply (element_le_spec (key, v)). by apply (proj1 (list.Forall_forall _ _) Hall). }
  assert (Hv : values key ((key, v) :: arr) = v :: values key arr).
  { unfold values. by rewrite filter_cons, decide_True. }
  rewrite take_key_spec; [|done|intros e He; specialize (Hle e He); lia].
  destruct (IH (filter (fun e => e.1 <> key) arr)) as (gs & -> & Gs & Gv & Gk).
  { by apply filter_sorted_sub. }
  { pose proof (length_filter (fun e => e.1 <> key) arr). lia. }
  assert (Hgt : forall k vs, (k, vs) ∈ gs -> key < k).
  { intros k vs Hin. destruct (Gv k vs Hin) as [E Hn]. destruct vs as [|w vs]; [done|].
    assert (w ∈ values k (filter (fun e => e.1 <> key) arr)) as Hw by (rewrite <- E; by left).
    apply elem_of_values, list_elem_of_filter in Hw as [Hne Hin']. specialize (Hle _ Hin'). simpl in *. lia. }
  eexists. split; [done|]. split; [|split].
  - constructor; [done|]. apply list.Forall_forall. intros [k vs] Hin. simpl. by eapply Hgt.
  - intros k vs [[= -> ->]|Hin]%elem_of_cons; [by rewrite Hv|].
    pose proof (Hgt k vs Hin). destruct (Gv k vs Hin) as [-> Hn]. rewrite values_other in * by lia.
    split; [|done]. unfold values. rewrite filter_cons. by rewrite decide_False by (simpl; lia).
  - intros k w [[= -> ->]|Hin]%elem_of_cons; [eexists; by left|].
    destruct (Z.eq_dec k key) as [->|]; [eexists; by left|].
    destruct (Gk k w) as [vs Hvs]; [by apply list_elem_of_filter|]. exists vs. by right.
Qed.

Lemma mm_from_sorted arr :
  StronglySorted element_le arr -> Forall (fun e => word e.1 /\ word e.2) arr ->
  mm_ok (cucon_ucmultimap_from_sorted_array arr) /\
  forall x, image (cucon_ucmultimap_from_sorted_array arr) x = list_to_set (values x arr).
Proof.
  intros Hs Hw. rewrite list.Forall_forall in Hw.
  destruct (isokey_groups_spec (length arr) arr Hs) as (gs & E & Gs & Gv & Gk); [lia|].
  unfold cucon_ucmultimap_from_sorted_array. rewrite E. cbn [default from_option]. unfold id.
  assert (Hset : forall k vs, (k, vs) ∈ gs -> set_ok (set_from_sorted_array vs) /\
    set_elems (set_from_sorted_array vs) = list_to_set (values k arr) /\ vs <> [] /\ word k).
  { intros k vs Hin. destruct (Gv k vs Hin) as [-> Hn].
    destruct (set_from_sorted_array_ok (values k arr)) as [K Ek]; [by apply values_sorted| |].
    - apply list.Forall_forall. intros v Hv%elem_of_values. by apply (Hw (k, v)).
    - split_and!; try done. destruct (values k arr) as [|w ws] eqn:Ev; [done|].
      assert (w ∈ values k arr) as Hin' by (rewrite Ev; by left). apply elem_of_values in Hin'. by apply (Hw _ Hin'). }
  set (es := isokey_element <$> gs).
  assert (Hes : StronglySorted key_lt es).
  { subst es. clear -Gs. induction Gs as [|g gs Gs IH Gf]; [by constructor|]. rewrite fmap_cons. constructor; [done|].
    apply list.Forall_forall. intros e (g' & -> & Hin)%list_elem_of_fmap.
    by apply (proj1 (list.Forall_forall _ _) Gf). }
  destruct (map_from_sorted_wf es) as (W & C & G).
  { clear -Hes. induction Hes as [|e es Hs IH Hf]; [by constructor|]. constructor; [done|].
    apply (Forall_impl _ (P := key_lt e)); [unfold key_lt, key_le; intros; lia|done]. }
  { apply list.Forall_forall. intros e ([k vs] & -> & Hin)%list_elem_of_fmap. by apply (Hset k vs Hin). }
  assert (Hfirst : forall k a, first es k = Some a <-> exists vs, (k, vs) ∈ gs /\ a = addr (set_from_sorted_array vs)).
  { intros k a. unfold first. rewrite <- elem_of_list_to_map by by apply sorted_NoDup_fst.
    subst es. rewrite list_elem_of_fmap. unfold isokey_element. split.
    - intros ([k' vs] & [= -> ->] & Hin). by exists vs.
    - intros (vs & Hin & ->). by exists (k, vs). }
  split.
  - split; [done|]. split; [done|]. intros k a. rewrite G, Hfirst. intros (vs & Hin & ->).
    destruct (Hset k vs Hin) as (K & Ek & Hn & _). exists (set_from_sorted_array vs). split_and!; try done.
    destruct (Gv k vs Hin) as [Ev _]. intros E0. rewrite E0, (proj2 set_null_ok) in Ek.
    destruct vs as [|w vs]; [done|]. rewrite <- Ev in Ek. set_solver.
  - intros x. unfold image. rewrite G. destruct (first es x) as [a|] eqn:Ex.
    + apply Hfirst in Ex as (vs & Hin & ->). rewrite deref_addr. by apply (Hset x vs Hin).
    + destruct (values x arr) as [|v vs] eqn:Ev; [done|]. exfalso.
      assert (v ∈ values x arr) as Hin by (rewrite Ev; by left). apply elem_of_values in Hin.
      destruct (Gk x v Hin) as [vs' Hvs]. assert (first es x = Some (addr (set_from_sorted_array vs'))) as E1.
      { apply Hfirst. by exists vs'. }
      by rewrite Ex in E1.
Qed.

(** The union of two multi-maps is the union of their relations, equality of
    multi-maps, a comparison of pointers, is equality of relations, the cardinality
    counts the pairs modulo the word size, and an array of pairs in the order of
    [cucon_ucmultimap_element_cmp], repetitions allowed, gives its relation. *)
Theorem ucmultimap_whole_correct M0 M1 arr :
  mm_ok M0 -> mm_ok M1 ->
  StronglySorted element_le arr -> Forall (fun e => word e.1 /\ word e.2) arr ->
  (mm_ok (cucon_ucmultimap_union M0 M1) /\
   forall x, image (cucon_ucmultimap_union M0 M1) x = image M0 x ∪ image M1 x) /\
  (cucon_ucmultimap_eq M0 M1 = true <-> forall x, image M0 x = image M1 x) /\
  cucon_ucmultimap_card M0 = wrap (Z.of_nat (pairs M0 (elements (dom (to_map M0))))) /\
  (mm_ok (cucon_ucmultimap_from_sorted_array arr) /\
   forall x, image (cucon_ucmultimap_from_sorted_array arr) x = list_to_set (values x arr)).
Proof.
  intros Hm0 Hm1 Hs Hw. split; [by apply mm_union|]. split; [|split; [|by apply mm_from_sorted]].
  - unfold cucon_ucmultimap_eq. rewrite ptr_eq_spec. split; [by intros ->|by apply mm_ext].
  - rewrite mm_card by done. f_equal. f_equal. unfold pairs. apply sum_list_with_Permutation_proper.
    destruct Hm0 as (W & _). apply NoDup_Permutation.
    + apply sorted_NoDup_fst. by apply map_elems_sorted.
    + apply NoDup_elements.
    + intros x. rewrite elem_of_elements, elem_of_dom, lookup_to_map, list_elem_of_fmap by done. split.
      * intros ([y a] & -> & Hin%map_elem_of_elems); [|done]. by exists a.
      * intros [a Ha]. exists (x, a). split; [done|]. by apply map_elem_of_elems.
Qed.

End relation.

(** ** Instances *)

Definition mm_sample : ucmap := Eval vm_compute in
  foldl (fun M e => cucon_ucmultimap_insert M e.1 e.2) Null [(5, 50); (0, 7); (96, 1); (64, 2); (96, 300); (5, 51)].

Lemma mm_sample_ok : mm_ok mm_sample.
Proof.
  assert (E : mm_sample = foldl (fun M e => cucon_ucmultimap_insert M e.1 e.2) Null
    [(5, 50); (0, 7); (96, 1); (64, 2); (96, 300); (5, 51)]) by (vm_compute; reflexivity).
  rewrite E. assert (H0 : mm_ok Null) by (split; [done|split; [done|]]; done). revert H0. generalize Null as M.
  intros M. cbn [foldl fst snd].
  repeat match goal with |- context [cucon_ucmultimap_insert M ?k ?v] =>
    let M' := fresh "M" in let HM := fresh "HM" in
    intros HM; assert (mm_ok (cucon_ucmultimap_insert M k v)) as H' by
      (apply (proj1 (proj1 (ucmultimap_update_correct M k v set_null HM ltac:(wf_compute) ltac:(wf_compute) (proj1 set_null_ok)))));
    revert H'; clear HM; generalize (cucon_ucmultimap_insert M k v); clear M; intros M end.
  done.
Qed.

Lemma ucmultimap_update_correct_witness :
  mm_ok mm_sample /\ cucon_ucmultimap_contains mm_sample 96 300 = true /\
  updated mm_sample 96 (image mm_sample 96 ∖ {[300]}) (cucon_ucmultimap_erase mm_sample 96 300).
Proof.
  assert (Hk : word 96) by wf_compute. assert (Hv : word 300) by wf_compute.
  split; [exact mm_sample_ok|]. split; [vm_compute; reflexivity|].
  exact (proj1 (proj2 (ucmultimap_update_correct mm_sample 96 300 set_null mm_sample_ok Hk Hv (proj1 set_null_ok)))).
Defined.

(** The iteration misses the pairs to the right of a node: of the keys 1 and 2 of
    this multi-map it reports only those of the left subtree, and these twice. *)
Lemma ucmultimap_iterA_misses :
  let M := cucon_ucmultimap_union (cucon_ucmultimap_singleton 1 10)
    (cucon_ucmultimap_union (cucon_ucmultimap_singleton 3 30) (cucon_ucmultimap_singleton 2 20)) in
  cucon_ucmultimap_contains M 3 30 = true /\
  cucon_ucmultimap_iterA (fun s k v => (s ++ [(k, v)], true)) M [] = ([(1, 10); (2, 20); (1, 10)], true).
Proof. split; vm_compute; reflexivity. Qed.
