(* ===== verification/Bitarray.v ===== *)
(** * Arrays of bits: [cucon/bitarray.h], [cucon/bitarray.c]

    A [bitarray] is the structure, with the capacity in bytes, the size in bits and
    the pointer to its words in the block memory of [Mem].  A function that
    changes its structure argument returns the new structure.  [None] is an access
    outside of the words. *)

From S2P Require Export Int Wordarr.

(** ** Memory management

    [cu_galloc] and [cu_galloc_atomic] return a new block of uninitialised words;
    out of memory they do not return. *)

Class Allocator := {
  galloc : Z -> mem -> ptr * mem;
  galloc_spec n m :
    0 <= n -> n mod 8 = 0 ->
    off (galloc n m).1 = 0%nat /\ m !! blk (galloc n m).1 = None /\
    exists ws, length ws = Z.to_nat (n / 8) /\ Forall word ws /\
      (galloc n m).2 = <[blk (galloc n m).1 := ws]> m;
}.

(** [cu_gfree_atomic]: later accesses to the block are errors. *)
Definition gfree (p : ptr) (m : mem) : mem := delete (blk p) m.

(** [memcpy] and [memset] of whole words, [n] in bytes. *)
Definition memcpy (dst src : ptr) (n : Z) (m : mem) : option mem :=
  ws ← load_n m src (Z.to_nat (n / 8)); store_n m dst ws.

Definition memset (dst : ptr) (byte n : Z) (m : mem) : option mem :=
  store_n m dst (replicate (Z.to_nat (n / 8)) (byte * (UINTPTR_MAX / 255))).

(** [ *p = g( *p) ] *)
Definition update (p : ptr) (g : Z -> Z) (m : mem) : option mem := w ← load m p; store m p (g w).

(** ** The structure *)

Record bitarray := mk_bitarray { cap : Z; size : Z; arr : ptr }.

Definition WORD_BIT (n : Z) : Z := wshl 1 n.
Definition WORD_MASK (n : Z) : Z := wsub (WORD_BIT n) 1.

Definition word_at (ba : bitarray) (i : Z) : ptr := padd (arr ba) (Z.to_nat i).

Definition capacity_for (n : Z) : Z := wrap (8 * cu_size_ceil_div n 64).

(** ** Construction *)

Section construction.
Context `{Allocator}.

Definition cucon_bitarray_init (sz : Z) (m : mem) : bitarray * mem :=
  let cap := capacity_for sz in
  let '(p, m) := galloc cap m in
  (mk_bitarray cap sz p, m).

Definition cucon_bitarray_init_fill (sz : Z) (val : bool) (m : mem) : option (bitarray * mem) :=
  let cap := capacity_for sz in
  let '(p, m) := galloc cap m in
  m ← memset p (if val then 255 else 0) cap m;
  Some (mk_bitarray cap sz p, m).

Definition cucon_bitarray_init_copy (ba_src : bitarray) (m : mem) : option (bitarray * mem) :=
  let cap := capacity_for (size ba_src) in
  let '(p, m) := galloc cap m in
  m ← memcpy p (arr ba_src) cap m;
  Some (mk_bitarray cap (size ba_src) p, m).

End construction.

Definition cucon_bitarray_swap (ba0 ba1 : bitarray) : bitarray * bitarray :=
  (mk_bitarray (cap ba1) (size ba1) (arr ba1), mk_bitarray (cap ba0) (size ba0) (arr ba0)).

Definition cucon_bitarray_size (ba : bitarray) : Z := size ba.

(** ** Access *)

Definition cucon_bitarray_set_at (ba : bitarray) (i : Z) (value : bool) (m : mem) : option mem :=
  let mask := wshl 1 (i mod 64) in
  if value then update (word_at ba (i / 64)) (fun w => w ||| mask) m
  else update (word_at ba (i / 64)) (fun w => w &&& wnot mask) m.

Definition cucon_bitarray_at (ba : bitarray) (i : Z) (m : mem) : option bool :=
  w ← load m (word_at ba (i / 64));
  Some (negb ((w &&& wshl 1 (i mod 64)) =? 0)).

(** [while (++iword < jword) ba->arr[iword] = val;] *)
Fixpoint fill_loop (fuel : nat) (ba : bitarray) (iword jword val : Z) (m : mem) : option (Z * mem) :=
  match fuel with
  | O => None
  | S fuel =>
      let iword := iword + 1 in
      if iword <? jword then
        m ← store m (word_at ba iword) val;
        fill_loop fuel ba iword jword val m
      else Some (iword, m)
  end.

Definition fill_fuel (iword jword : Z) : nat := S (Z.to_nat (jword - iword)).

Definition cucon_bitarray_fill (ba : bitarray) (i j : Z) (val : bool) (m : mem) : option mem :=
  let iword := i / 64 in
  let ibit := i mod 64 in
  let jword := j / 64 in
  let jbit := j mod 64 in
  if val then
    if iword =? jword then
      if ibit =? jbit then Some m
      else update (word_at ba iword) (fun w => w ||| wsub (WORD_BIT jbit) (WORD_BIT ibit)) m
    else
      m ← update (word_at ba iword) (fun w => w ||| wnot (wsub (WORD_BIT ibit) 1)) m;
      '(iword, m) ← fill_loop (fill_fuel iword jword) ba iword jword (wnot 0) m;
      if jbit =? 0 then Some m
      else update (word_at ba iword) (fun w => w ||| wsub (WORD_BIT jbit) 1) m
  else
    if iword =? jword then
      if ibit =? jbit then Some m
      else update (word_at ba iword) (fun w => w &&& wnot (wsub (WORD_BIT jbit) (WORD_BIT ibit))) m
    else
      m ← update (word_at ba iword) (fun w => w &&& wsub (WORD_BIT ibit) 1) m;
      '(iword, m) ← fill_loop (fill_fuel iword jword) ba iword jword 0 m;
      if jbit =? 0 then Some m
      else update (word_at ba iword) (fun w => w &&& wnot (wsub (WORD_BIT jbit) 1)) m.

(** ** Comparison *)

(** [while (sizew--) { cmp = cu_word_rcmp( *arr0++, *arr1++); if (cmp) return cmp; }]:
    the answer, or the pointers after the loop. *)
Fixpoint cmp_loop (sizew : nat) (arr0 arr1 : ptr) (m : mem) : option (Z + ptr * ptr) :=
  match sizew with
  | O => Some (inr (arr0, arr1))
  | S sizew =>
      w0 ← load m arr0; w1 ← load m arr1;
      let cmp := cu_word_rcmp w0 w1 in
      if negb (cmp =? 0) then Some (inl cmp) else cmp_loop sizew (padd arr0 1) (padd arr1 1) m
  end.

Definition cmp_sizes (size0 size1 : Z) : Z :=
  if size0 <? size1 then -1 else if size1 <? size0 then 1 else 0.

Definition cucon_bitarray_cmp (ba0 ba1 : bitarray) (m : mem) : option Z :=
  let size0 := size ba0 in
  let size1 := size ba1 in
  let sz := cu_size_min size0 size1 in
  r ← cmp_loop (Z.to_nat (sz / 64)) (arr ba0) (arr ba1) m;
  match r with
  | inl cmp => Some cmp
  | inr (arr0, arr1) =>
      let rest := sz mod 64 in
      if negb (rest =? 0) then
        w0 ← load m arr0; w1 ← load m arr1;
        let cmp := cu_word_rcmp w0 w1 in
        if negb (cmp =? 0) then Some cmp else Some (cmp_sizes size0 size1)
      else Some (cmp_sizes size0 size1)
  end.

Fixpoint eq_loop (sizew : nat) (arr0 arr1 : ptr) (m : mem) : option (bool + ptr * ptr) :=
  match sizew with
  | O => Some (inr (arr0, arr1))
  | S sizew =>
      w0 ← load m arr0; w1 ← load m arr1;
      if negb (w0 =? w1) then Some (inl false) else eq_loop sizew (padd arr0 1) (padd arr1 1) m
  end.

Definition cucon_bitarray_eq (ba0 ba1 : bitarray) (m : mem) : option bool :=
  let size0 := size ba0 in
  let size1 := size ba1 in
  if negb (size0 =? size1) then Some false
  else
    r ← eq_loop (Z.to_nat (size0 / 64)) (arr ba0) (arr ba1) m;
    match r with
    | inl b => Some b
    | inr (arr0, arr1) =>
        let rest := size0 mod 64 in
        if negb (rest =? 0) then
          w0 ← load m arr0; w1 ← load m arr1;
          let mask := WORD_MASK rest in
          Some ((w0 &&& mask) =? (w1 &&& mask))
        else Some true
    end.

(** ** Search *)

Definition NOT_FOUND : Z := UINTPTR_MAX.

(** [return r >= size? (size_t)-1 : r;] *)
Definition found (r sz : Z) : Z := if sz <=? r then NOT_FOUND else r.

(** [for (; i < n; ++i) if (g(i) != 0) return found(i*64 + log2_lowbit(g(i)))], where
    [g] reads the words. *)
Fixpoint find_loop (fuel : nat) (g : Z -> mem -> option Z) (sz i n : Z) (m : mem) : option Z :=
  match fuel with
  | O => None
  | S fuel =>
      if i <? n then
        x ← g i m;
        if negb (x =? 0) then Some (found (wadd (wrap (i * 64)) (cu_size_log2_lowbit x)) sz)
        else find_loop fuel g sz (i + 1) n m
      else Some NOT_FOUND
  end.

Definition find_fuel (i n : Z) : nat := S (Z.to_nat (n - i)).

(** The word, or its complement. *)
Definition read_word (ba : bitarray) (val : bool) (i : Z) (m : mem) : option Z :=
  w ← load m (word_at ba i); Some (if val then w else wnot w).

Definition cucon_bitarray_find (ba : bitarray) (start : Z) (val : bool) (m : mem) : option Z :=
  let sz := size ba in
  let n := cu_size_ceil_div (size ba) 64 in
  let i := start / 64 in
  let l := start mod 64 in
  if negb (l =? 0) then
    w ← load m (word_at ba i);
    if negb (w =? 0) then
      Some (found (wadd (wadd (wrap (i * 64)) (cu_size_log2_lowbit (w >>> l))) l) sz)
    else find_loop (find_fuel (i + 1) n) (read_word ba val) sz (i + 1) n m
  else find_loop (find_fuel i n) (read_word ba val) sz i n m.

Definition read_words (ba0 ba1 : bitarray) (val0 val1 : bool) (i : Z) (m : mem) : option Z :=
  x0 ← read_word ba0 val0 i m; x1 ← read_word ba1 val1 i m; Some (x0 &&& x1).

Definition cucon_bitarray_find2 (ba0 ba1 : bitarray) (start : Z) (val0 val1 : bool) (m : mem) : option Z :=
  let sz := cu_size_min (size ba0) (size ba1) in
  let n := cu_size_ceil_div sz 64 in
  let i := start / 64 in
  let l := start mod 64 in
  if negb (l =? 0) then
    x01 ← read_words ba0 ba1 val0 val1 i m;
    if negb (x01 =? 0) then
      Some (found (wadd (wrap (i * 64)) (wadd (cu_size_log2_lowbit (x01 >>> l)) l)) sz)
    else find_loop (find_fuel (i + 1) n) (read_words ba0 ba1 val0 val1) sz (i + 1) n m
  else find_loop (find_fuel i n) (read_words ba0 ba1 val0 val1) sz i n m.

(** ** Resizing *)

Section resizing.
Context `{Allocator}.

Definition bitarray_realloc (ba : bitarray) (new_cap new_size : Z) (m : mem) : option (bitarray * mem) :=
  let old_arr := arr ba in
  let copy_cap := capacity_for (cu_size_min new_size (size ba)) in
  let '(p, m) := galloc new_cap m in
  m ← memcpy p old_arr copy_cap m;
  Some (mk_bitarray new_cap (size ba) p, gfree old_arr m).

Definition set_size (ba : bitarray) (sz : Z) : bitarray := mk_bitarray (cap ba) sz (arr ba).

Definition cucon_bitarray_resize_gp (ba : bitarray) (sz : Z) (m : mem) : option (bitarray * mem) :=
  let min_cap := capacity_for sz in
  let old_cap := cap ba in
  '(ba, m) ←
    (if old_cap <? min_cap then
       let new_cap := cu_size_max min_cap (wrap (old_cap * 2)) in
       bitarray_realloc ba new_cap sz m
     else if wrap (min_cap * 2) <? old_cap then bitarray_realloc ba min_cap sz m
     else Some (ba, m));
  Some (set_size ba sz, m).

Definition cucon_bitarray_resize_gpmax (ba : bitarray) (sz : Z) (m : mem) : option (bitarray * mem) :=
  let min_cap := capacity_for sz in
  let old_cap := cap ba in
  '(ba, m) ←
    (if old_cap <? min_cap then
       let new_cap := cu_size_max min_cap (wrap (old_cap * 2)) in
       bitarray_realloc ba new_cap sz m
     else Some (ba, m));
  Some (set_size ba sz, m).

Definition cucon_bitarray_resize_exact (ba : bitarray) (sz : Z) (m : mem) : option (bitarray * mem) :=
  let new_cap := capacity_for sz in
  '(ba, m) ← (if negb (new_cap =? cap ba) then bitarray_realloc ba new_cap sz m else Some (ba, m));
  Some (set_size ba sz, m).

Definition cucon_bitarray_resize_exactmax (ba : bitarray) (sz : Z) (m : mem) : option (bitarray * mem) :=
  let new_cap := capacity_for sz in
  '(ba, m) ← (if cap ba <? new_cap then bitarray_realloc ba new_cap sz m else Some (ba, m));
  Some (set_size ba sz, m).

Definition cucon_bitarray_resize_fill_gp (ba : bitarray) (new_size : Z) (fill_value : bool) (m : mem)
    : option (bitarray * mem) :=
  let old_size := size ba in
  '(ba, m) ← cucon_bitarray_resize_gp ba new_size m;
  if old_size <? new_size then
    m ← cucon_bitarray_fill ba old_size new_size fill_value m; Some (ba, m)
  else Some (ba, m).

Definition cucon_bitarray_resize_fill_exact (ba : bitarray) (new_size : Z) (fill_value : bool) (m : mem)
    : option (bitarray * mem) :=
  let old_size := size ba in
  '(ba, m) ← cucon_bitarray_resize_exact ba new_size m;
  if old_size <? new_size then
    m ← cucon_bitarray_fill ba old_size new_size fill_value m; Some (ba, m)
  else Some (ba, m).

Definition cucon_bitarray_resize_set_at (ba : bitarray) (i : Z) (fill_value set_value : bool) (m : mem)
    : option (bitarray * mem) :=
  let old_size := size ba in
  '(ba, m) ← cucon_bitarray_resize_gp ba (wadd i 1) m;
  m ← (if old_size <=? i then cucon_bitarray_fill ba old_size (wadd i 1) fill_value m else Some m);
  m ← cucon_bitarray_set_at ba i set_value m;
  Some (ba, m).

(** ** Images under boolean functions *)

Definition words_of_size (sz : Z) : nat := Z.to_nat (cu_size_ceil_div sz 64).

Definition cucon_bitarray_init_img_bool1f (f : Z) (arg : bitarray) (m : mem) : option (bitarray * mem) :=
  let '(ba, m) := cucon_bitarray_init (cucon_bitarray_size arg) m in
  m ← cu_wordarr_copy_bitimg f (words_of_size (size ba)) (arr ba) (arr arg) m;
  Some (ba, m).

Definition cucon_bitarray_init_img_bool2f (f : Z) (arg0 arg1 : bitarray) (m : mem) : option (bitarray * mem) :=
  let sz := cu_size_min (cucon_bitarray_size arg0) (cucon_bitarray_size arg1) in
  let '(ba, m) := cucon_bitarray_init sz m in
  m ← cu_wordarr_copy_bitimg2 f (words_of_size sz) (arr ba) (arr arg0) (arr arg1) m;
  Some (ba, m).

End resizing.

Definition cucon_bitarray_update_img_bool1f (f : Z) (ba : bitarray) (m : mem) : option mem :=
  cu_wordarr_copy_bitimg f (words_of_size (size ba)) (arr ba) (arr ba) m.

Definition cucon_bitarray_update_img_bool2f (f : Z) (ba ba_src : bitarray) (m : mem) : option mem :=
  cu_wordarr_copy_bitimg2 f (words_of_size (size ba)) (arr ba) (arr ba) (arr ba_src) m.
