(* ===== verification/BitarrayInv.v ===== *)
(** * Arrays of bits: representation and updates

    [repr m ba bs]: the structure [ba] holds, in the memory [m], the list of
    booleans [bs].  Setting a bit and filling a range are the corresponding
    updates of the list; other blocks are left alone. *)

From S2P Require Export Bitarray.

(** ** The representation *)

(** The words of the structure: its capacity is exactly their number. *)
Definition holds (m : mem) (ba : bitarray) (ws : list Z) : Prop :=
  off (arr ba) = 0%nat /\ m !! blk (arr ba) = Some ws /\ Forall word ws /\
  cap ba = 8 * Z.of_nat (length ws).

(** The first [sz] bits of the words. *)
Definition contents (ws : list Z) (sz : Z) : list bool := map (bitz ws) (seqZ 0 sz).

(** The size leaves room for rounding up to words in a [size_t]. *)
Definition repr (m : mem) (ba : bitarray) (bs : list bool) : Prop :=
  0 <= size ba < 2 ^ 64 - 64 /\
  exists ws, holds m ba ws /\ size ba <= 64 * Z.of_nat (length ws) /\ bs = contents ws (size ba).

Lemma length_contents ws sz : length (contents ws sz) = Z.to_nat sz.
Proof. unfold contents. rewrite length_map. apply length_seqZ. Qed.

Lemma lookup_contents ws sz i :
  0 <= i < sz -> contents ws sz !! Z.to_nat i = Some (bitz ws i).
Proof.
  intros Hi. unfold contents. apply list_lookup_fmap_Some_2.
  apply lookup_seqZ. lia.
Qed.

Lemma lookup_contents_nat ws sz (k : nat) :
  Z.of_nat k < sz -> contents ws sz !! k = Some (bitz ws (Z.of_nat k)).
Proof. intros Hk. rewrite <- (Nat2Z.id k) at 1. apply lookup_contents. lia. Qed.

(** A list with the right length and bits is the contents. *)
Lemma contents_ext bs ws sz :
  0 <= sz -> Z.of_nat (length bs) = sz ->
  (forall i, 0 <= i < sz -> bs !! Z.to_nat i = Some (bitz ws i)) -> bs = contents ws sz.
Proof.
  intros Hs Hl He. apply list_eq. intros k.
  destruct (decide (k < length bs)%nat) as [Hk|Hk].
  - rewrite lookup_contents_nat by lia. rewrite <- (Nat2Z.id k) at 1. apply He. lia.
  - rewrite !lookup_ge_None_2; [done| |lia]. rewrite length_contents. lia.
Qed.

(** ** Words of a structure *)

(** The memory with new words for the structure. *)
Definition put (m : mem) (ba : bitarray) (ws : list Z) : mem := <[blk (arr ba) := ws]> m.

Lemma holds_put m ba ws ws' :
  holds m ba ws -> length ws' = length ws -> Forall word ws' -> holds (put m ba ws') ba ws'.
Proof.
  intros (Ho & Hm & Hf & Hc) Hl Hf'. unfold holds, put.
  rewrite lookup_insert_eq. split_and!; [done..|]. by rewrite Hc, Hl.
Qed.

Lemma put_put m ba ws ws' : put (put m ba ws) ba ws' = put m ba ws'.
Proof. unfold put. apply insert_insert_eq. Qed.

Lemma put_id m ba ws : holds m ba ws -> put m ba ws = m.
Proof. intros (_ & Hm & _). unfold put. by apply insert_id. Qed.

Section words.
Context {m : mem} {ba : bitarray} {ws : list Z} (Hb : holds m ba ws).

Lemma load_word i :
  0 <= i < Z.of_nat (length ws) -> load m (word_at ba i) = Some (nth (Z.to_nat i) ws 0).
Proof.
  destruct Hb as (Ho & Hm & _). intros Hi. unfold word_at.
  rewrite (load_block _ _ ws) by done. simpl. rewrite Ho. simpl.
  destruct (lookup_lt_is_Some_2 ws (Z.to_nat i)) as [w Hw]; [lia|].
  by rewrite (nth_lookup_Some _ _ _ _ Hw).
Qed.

Lemma store_word i v :
  0 <= i < Z.of_nat (length ws) ->
  store m (word_at ba i) v = Some (put m ba (<[Z.to_nat i := v]> ws)).
Proof.
  destruct Hb as (Ho & Hm & _). intros Hi. unfold word_at, put.
  rewrite (store_block _ _ ws) by (done || simpl; lia). simpl. by rewrite Ho.
Qed.

Lemma update_word i g :
  0 <= i < Z.of_nat (length ws) ->
  update (word_at ba i) g m =
    Some (put m ba (<[Z.to_nat i := g (nth (Z.to_nat i) ws 0)]> ws)).
Proof. intros Hi. unfold update. rewrite load_word by done. simpl. by apply store_word. Qed.

End words.

Lemma load_words m ba ws n :
  holds m ba ws -> (n <= length ws)%nat -> load_n m (arr ba) n = Some (take n ws).
Proof.
  intros (Ho & Hm & _) Hn. rewrite (load_n_block _ _ ws) by (done || lia). by rewrite Ho.
Qed.

Lemma bitz_insert ws i x k :
  0 <= i < Z.of_nat (length ws) ->
  bitz (<[Z.to_nat i := x]> ws) k =
    if (Z.to_nat (k / 64) =? Z.to_nat i)%nat then Z.testbit x (k mod 64) else bitz ws k.
Proof.
  intros Hi. unfold bitz. rewrite !nth_lookup.
  destruct (Nat.eqb_spec (Z.to_nat (k / 64)) (Z.to_nat i)) as [->|Hne].
  - by rewrite list_lookup_insert_eq by lia.
  - by rewrite list_lookup_insert_ne by done.
Qed.

(** ** Ranges of bits *)

(** [ws'] is [ws] with the bits of [[i, j)] set to [v]. *)
Definition sets (i j : Z) (v : bool) (ws ws' : list Z) : Prop :=
  length ws' = length ws /\ Forall word ws' /\
  forall k, 0 <= k -> bitz ws' k = if (i <=? k) && (k <? j) then v else bitz ws k.

Lemma sets_nil i v ws : Forall word ws -> sets i i v ws ws.
Proof. intros Hf. split_and!; [done..|]. intros k Hk. bits_split; done. Qed.

Lemma sets_trans i j l v ws ws1 ws2 :
  i <= j <= l -> sets i j v ws ws1 -> sets j l v ws1 ws2 -> sets i l v ws ws2.
Proof.
  intros Hi (L1 & F1 & B1) (L2 & F2 & B2). split_and!; [congruence|done|].
  intros k Hk. rewrite B2, B1 by done. bits_split; done.
Qed.

(** One word changed in the bits [[lo, hi)]. *)
Lemma sets_word n g lo hi v ws :
  0 <= n < Z.of_nat (length ws) -> Forall word ws ->
  0 <= lo <= hi -> hi <= 64 ->
  word (g (nth (Z.to_nat n) ws 0)) ->
  (forall w b, 0 <= b < 64 ->
     Z.testbit (g w) b = if (lo <=? b) && (b <? hi) then v else Z.testbit w b) ->
  sets (64 * n + lo) (64 * n + hi) v ws (<[Z.to_nat n := g (nth (Z.to_nat n) ws 0)]> ws).
Proof.
  intros Hn Hf Hl Hh Hw Hg. split_and!; [apply length_insert|by apply Forall_insert|].
  intros k Hk. rewrite bitz_insert by done. pose proof (Z.mod_pos_bound k 64 eq_refl) as Hm.
  pose proof (Z.div_mod k 64) as Hd. assert (0 <= k / 64) by (apply Z.div_pos; lia).
  destruct (Nat.eqb_spec (Z.to_nat (k / 64)) (Z.to_nat n)) as [E|Hne].
  - assert (k / 64 = n) as En by lia. unfold bitz. rewrite Hg, En by done.
    bits_split; done.
  - assert (k / 64 <> n) by lia. bits_split; done.
Qed.

Lemma testbit_WORD_range i j b :
  0 <= i <= j -> j < 64 -> 0 <= b ->
  Z.testbit (wsub (WORD_BIT j) (WORD_BIT i)) b = (i <=? b) && (b <? j).
Proof.
  intros Hi Hj Hb. unfold wsub, WORD_BIT. rewrite !wshl_1 by lia.
  replace (2 ^ j - 2 ^ i) with (Z.ones (j - i) <<< i).
  - bits_rw. bits_split; done.
  - rewrite Z.shiftl_mul_pow2, Z.ones_equiv by lia.
    replace (2 ^ j) with (2 ^ (j - i) * 2 ^ i); [lia|].
    rewrite <- Z.pow_add_r by lia. f_equal. lia.
Qed.

Lemma testbit_WORD_MASK j b :
  0 <= j < 64 -> 0 <= b -> Z.testbit (wsub (WORD_BIT j) 1) b = (b <? j).
Proof.
  intros Hj Hb. change 1 with (WORD_BIT 0). rewrite testbit_WORD_range by lia.
  bits_split; done.
Qed.

#[export] Hint Rewrite testbit_WORD_range testbit_WORD_MASK using lia : wbits.

(** ** Filling *)

Definition fill_val (v : bool) : Z := if v then wnot 0 else 0.

Lemma testbit_fill_val v b : 0 <= b < 64 -> Z.testbit (fill_val v) b = v.
Proof.
  intros Hb. destruct v; unfold fill_val; [|apply Z.bits_0].
  bits_rw. bits_split. done.
Qed.

Lemma word_fill_val v : word (fill_val v).
Proof. destruct v; unfold fill_val; auto with wordb. Qed.

Lemma sets_whole n v ws :
  0 <= n < Z.of_nat (length ws) -> Forall word ws ->
  sets (64 * n) (64 * (n + 1)) v ws (<[Z.to_nat n := fill_val v]> ws).
Proof.
  intros Hn Hf. replace (64 * n) with (64 * n + 0) by lia.
  replace (64 * (n + 1)) with (64 * n + 64) by lia.
  apply (sets_word n (fun _ => fill_val v)); [done|done|lia|lia|apply word_fill_val|].
  intros w b Hb. rewrite testbit_fill_val by done. bits_split; done.
Qed.

Lemma fill_loop_spec fuel m ba ws iw jw v :
  holds m ba ws -> 0 <= iw < jw -> jw <= Z.of_nat (length ws) ->
  (Z.to_nat (jw - iw) <= fuel)%nat ->
  exists ws', fill_loop fuel ba iw jw (fill_val v) m = Some (jw, put m ba ws') /\
    sets (64 * (iw + 1)) (64 * jw) v ws ws'.
Proof.
  revert m ws iw. induction fuel as [|fuel IH]; intros m ws iw Hb Hi Hj Hf; [lia|]. simpl.
  assert (Hb' := Hb). destruct Hb' as (_ & _ & Hw & _).
  destruct (Z.ltb_spec (iw + 1) jw).
  - rewrite (store_word Hb) by lia. simpl.
    assert (Hs : sets (64 * (iw + 1)) (64 * (iw + 1 + 1)) v ws (<[Z.to_nat (iw + 1) := fill_val v]> ws))
      by (apply sets_whole; [lia|done]).
    destruct (IH (put m ba (<[Z.to_nat (iw + 1) := fill_val v]> ws))
                (<[Z.to_nat (iw + 1) := fill_val v]> ws) (iw + 1)) as (ws' & -> & Hs').
    + apply (holds_put _ _ ws); [done|apply Hs|apply Hs].
    + lia.
    + by rewrite length_insert.
    + lia.
    + exists ws'. rewrite put_put. split; [done|].
      refine (sets_trans _ _ _ _ _ _ _ _ Hs Hs'). lia.
  - assert (iw + 1 = jw) as -> by lia. exists ws. rewrite put_id by done.
    split; [done|]. by apply sets_nil.
Qed.

(** The three updates of [cucon_bitarray_fill]: inside a word, from a bit to the
    end of its word, from the start of a word to a bit. *)
Definition fill_in (v : bool) (i j w : Z) : Z :=
  if v then w ||| wsub (WORD_BIT j) (WORD_BIT i)
  else w &&& wnot (wsub (WORD_BIT j) (WORD_BIT i)).
Definition fill_from (v : bool) (i w : Z) : Z :=
  if v then w ||| wnot (wsub (WORD_BIT i) 1) else w &&& wsub (WORD_BIT i) 1.
Definition fill_to (v : bool) (j w : Z) : Z :=
  if v then w ||| wsub (WORD_BIT j) 1 else w &&& wnot (wsub (WORD_BIT j) 1).

Lemma fill_unfold ba i j v m :
  cucon_bitarray_fill ba i j v m =
  if i / 64 =? j / 64 then
    if i mod 64 =? j mod 64 then Some m
    else update (word_at ba (i / 64)) (fill_in v (i mod 64) (j mod 64)) m
  else
    m ← update (word_at ba (i / 64)) (fill_from v (i mod 64)) m;
    '(iword, m) ← fill_loop (fill_fuel (i / 64) (j / 64)) ba (i / 64) (j / 64) (fill_val v) m;
    if j mod 64 =? 0 then Some m else update (word_at ba iword) (fill_to v (j mod 64)) m.
Proof. by destruct v. Qed.

Lemma fill_in_bits v i j w b :
  0 <= i <= j -> j < 64 -> 0 <= b < 64 ->
  Z.testbit (fill_in v i j w) b = if (i <=? b) && (b <? j) then v else Z.testbit w b.
Proof. intros. unfold fill_in. destruct v; bits_rw; bits_split; bit_cases. Qed.

Lemma fill_from_bits v i w b :
  0 <= i < 64 -> 0 <= b < 64 ->
  Z.testbit (fill_from v i w) b = if (i <=? b) && (b <? 64) then v else Z.testbit w b.
Proof. intros. unfold fill_from. destruct v; bits_rw; bits_split; bit_cases. Qed.

Lemma fill_to_bits v j w b :
  0 <= j < 64 -> 0 <= b < 64 ->
  Z.testbit (fill_to v j w) b = if (0 <=? b) && (b <? j) then v else Z.testbit w b.
Proof. intros. unfold fill_to. destruct v; bits_rw; bits_split; bit_cases. Qed.

Lemma fill_in_word v i j w : word w -> word (fill_in v i j w).
Proof. intros. unfold fill_in. destruct v; auto with wordb. Qed.
Lemma fill_from_word v i w : word w -> word (fill_from v i w).
Proof. intros. unfold fill_from. destruct v; auto with wordb. Qed.
Lemma fill_to_word v j w : word w -> word (fill_to v j w).
Proof. intros. unfold fill_to. destruct v; auto with wordb. Qed.

Lemma fill_words m ba ws i j v :
  holds m ba ws -> 0 <= i <= j -> j <= 64 * Z.of_nat (length ws) ->
  exists ws', cucon_bitarray_fill ba i j v m = Some (put m ba ws') /\ sets i j v ws ws'.
Proof.
  intros Hb Hi Hj. rewrite fill_unfold. assert (Hw : Forall word ws) by apply Hb.
  pose proof (Z.div_mod i 64) as Di. pose proof (Z.mod_pos_bound i 64 eq_refl) as Mi.
  pose proof (Z.div_mod j 64) as Dj. pose proof (Z.mod_pos_bound j 64 eq_refl) as Mj.
  set (iw := i / 64) in *. set (ib := i mod 64) in *.
  set (jw := j / 64) in *. set (jb := j mod 64) in *.
  destruct (Z.eqb_spec iw jw) as [Ew|Nw].
  - destruct (Z.eqb_spec ib jb) as [Eb|Nb].
    { exists ws. rewrite put_id by done. split; [done|].
      replace j with i by lia. by apply sets_nil. }
    rewrite (update_word Hb) by lia. eexists. split; [done|].
    replace i with (64 * iw + ib) by lia. replace j with (64 * iw + jb) by lia.
    apply sets_word; [lia|done|lia|lia|by apply fill_in_word, nth_word|].
    intros w b Hb'. apply fill_in_bits; lia.
  - rewrite (update_word Hb) by lia. cbn [mbind option_bind].
    assert (Hs : sets i (64 * (iw + 1)) v ws
                   (<[Z.to_nat iw := fill_from v ib (nth (Z.to_nat iw) ws 0)]> ws)).
    { replace i with (64 * iw + ib) by lia. replace (64 * (iw + 1)) with (64 * iw + 64) by lia.
      apply sets_word; [lia|done|lia|lia|by apply fill_from_word, nth_word|].
      intros w b Hb'. apply fill_from_bits; lia. }
    set (ws1 := <[Z.to_nat iw := _]> ws) in *. assert (Hs1 := Hs). destruct Hs1 as (L1 & F1 & _).
    assert (Hb1 : holds (put m ba ws1) ba ws1) by by apply (holds_put _ _ ws).
    destruct (fill_loop_spec (fill_fuel iw jw) _ _ _ iw jw v Hb1) as (ws2 & -> & Hs2);
      [lia|lia|unfold fill_fuel; lia|].
    simpl. rewrite put_put.
    assert (Hs' : sets i (64 * jw) v ws ws2)
      by (apply (sets_trans _ (64 * (iw + 1)) _ _ _ ws1); [lia|done|done]).
    destruct (Z.eqb_spec jb 0) as [E0|N0].
    { exists ws2. split; [done|]. by replace j with (64 * jw) by lia. }
    assert (Hs1' := Hs'). destruct Hs1' as (L2 & F2 & _).
    rewrite (update_word (ws := ws2)) by (lia || by apply (holds_put _ _ ws)).
    rewrite put_put. eexists. split; [done|].
    apply (sets_trans _ (64 * jw) _ _ _ ws2); [lia|done|].
    replace (64 * jw) with (64 * jw + 0) by lia. replace j with (64 * jw + jb) by lia.
    apply sets_word; [lia|done|lia|lia|by apply fill_to_word, nth_word|].
    intros w b Hb'. apply fill_to_bits; lia.
Qed.

(** ** Updates of the list *)

(** A list with its elements in [[i, j)] replaced. *)
Definition fill_list (i j : Z) (v : bool) (bs : list bool) : list bool :=
  take (Z.to_nat i) bs ++ replicate (Z.to_nat (j - i)) v ++ drop (Z.to_nat j) bs.

(** Blocks other than [p]'s are unchanged. *)
Definition others (p : ptr) (m m' : mem) : Prop := forall b, b <> blk p -> m' !! b = m !! b.

Lemma others_put m ba ws : others (arr ba) m (put m ba ws).
Proof. intros b Hb. unfold put. by rewrite lookup_insert_ne. Qed.

Lemma length_fill_list i j v bs :
  0 <= i <= j -> j <= Z.of_nat (length bs) -> length (fill_list i j v bs) = length bs.
Proof.
  intros. unfold fill_list. rewrite !length_app, length_take, length_replicate, length_drop. lia.
Qed.

Lemma lookup_fill_list i j v bs k :
  0 <= i <= j -> j <= Z.of_nat (length bs) -> 0 <= k ->
  fill_list i j v bs !! Z.to_nat k = if (i <=? k) && (k <? j) then Some v else bs !! Z.to_nat k.
Proof.
  intros Hi Hj Hk. unfold fill_list.
  destruct (Z.leb_spec i k), (Z.ltb_spec k j); simpl.
  - rewrite lookup_app_r by (rewrite length_take; lia).
    rewrite lookup_app_l by (rewrite length_replicate, length_take; lia).
    apply lookup_replicate_2. rewrite length_take. lia.
  - rewrite lookup_app_r by (rewrite length_take; lia). rewrite length_take.
    rewrite lookup_app_r by (rewrite length_replicate; lia). rewrite length_replicate.
    rewrite lookup_drop. f_equal. lia.
  - rewrite lookup_app_l by (rewrite length_take; lia).
    by rewrite lookup_take_lt by lia.
  - lia.
Qed.

Lemma contents_sets ws ws' i j v sz :
  0 <= i <= j -> j <= sz -> sets i j v ws ws' ->
  contents ws' sz = fill_list i j v (contents ws sz).
Proof.
  intros Hi Hj (_ & _ & B). symmetry. apply contents_ext; [lia| |].
  - rewrite length_fill_list by (rewrite ?length_contents; lia). rewrite length_contents. lia.
  - intros k Hk. rewrite lookup_fill_list by (rewrite ?length_contents; lia).
    rewrite lookup_contents by done. rewrite B by lia. by destruct (_ && _).
Qed.

Lemma repr_sets m ba ws ws' i j v :
  0 <= size ba < 2 ^ 64 - 64 -> holds m ba ws -> size ba <= 64 * Z.of_nat (length ws) ->
  0 <= i <= j -> j <= size ba -> sets i j v ws ws' ->
  repr (put m ba ws') ba (fill_list i j v (contents ws (size ba))).
Proof.
  intros Hz Hb Hs Hi Hj Hw. split; [done|]. exists ws'. split_and!.
  - apply (holds_put _ _ ws); [done|apply Hw|apply Hw].
  - by rewrite (proj1 Hw).
  - symmetry. by apply contents_sets.
Qed.

Lemma repr_length m ba bs : repr m ba bs -> size ba = Z.of_nat (length bs).
Proof. intros (Hz & ws & _ & _ & ->). rewrite length_contents. lia. Qed.

Lemma at_spec m ba bs i :
  repr m ba bs -> 0 <= i < size ba -> cucon_bitarray_at ba i m = bs !! Z.to_nat i.
Proof.
  intros (Hz & ws & Hb & Hs & ->) Hi. rewrite lookup_contents by done.
  unfold cucon_bitarray_at. rewrite (load_word Hb) by dlia. simpl.
  rewrite wshl_1, land_pow2_neq0 by dlia. done.
Qed.

Definition set_word (j : Z) (v : bool) (w : Z) : Z :=
  if v then w ||| wshl 1 j else w &&& wnot (wshl 1 j).

Lemma set_word_bits j v w b :
  0 <= j < 64 -> 0 <= b < 64 ->
  Z.testbit (set_word j v w) b = if (j <=? b) && (b <? j + 1) then v else Z.testbit w b.
Proof.
  intros. unfold set_word. rewrite wshl_1 by done.
  destruct v; bits_rw; bits_split; bit_cases.
Qed.

Lemma set_at_words m ba ws i v :
  holds m ba ws -> 0 <= i < 64 * Z.of_nat (length ws) ->
  exists ws', cucon_bitarray_set_at ba i v m = Some (put m ba ws') /\ sets i (i + 1) v ws ws'.
Proof.
  intros Hb Hi. pose proof (Z.div_mod i 64) as Di. pose proof (Z.mod_pos_bound i 64 eq_refl) as Mi.
  exists (<[Z.to_nat (i / 64) := set_word (i mod 64) v (nth (Z.to_nat (i / 64)) ws 0)]> ws).
  split.
  - unfold cucon_bitarray_set_at. destruct v; by rewrite (update_word Hb) by dlia.
  - replace i with (64 * (i / 64) + i mod 64) at 1 by lia.
    replace (i + 1) with (64 * (i / 64) + (i mod 64 + 1)) by lia.
    apply sets_word; [dlia|apply Hb|lia|lia| |].
    + pose proof (nth_word ws (Z.to_nat (i / 64)) (proj1 (proj2 (proj2 Hb)))).
      unfold set_word. destruct v; auto with wordb.
    + intros w b Hw. apply set_word_bits; lia.
Qed.

Lemma fill_list_one i v bs :
  0 <= i < Z.of_nat (length bs) -> fill_list i (i + 1) v bs = <[Z.to_nat i := v]> bs.
Proof.
  intros Hi. unfold fill_list. rewrite insert_take_drop by lia.
  replace (i + 1 - i) with 1 by lia. simpl. do 3 f_equal. lia.
Qed.

(** C34: On a structure that holds a list of booleans, [cucon_bitarray_at] reads
    an element, [cucon_bitarray_set_at] replaces one and [cucon_bitarray_fill]
    replaces a range, within the words of the array and with every other block
    of the memory unchanged; the representation is preserved. *)
Theorem bitarray_update_correct m ba bs i j v :
  repr m ba bs -> 0 <= i <= j -> j <= size ba ->
  (i < size ba -> cucon_bitarray_at ba i m = bs !! Z.to_nat i) /\
  (i < size ba -> exists m', cucon_bitarray_set_at ba i v m = Some m' /\
     repr m' ba (<[Z.to_nat i := v]> bs) /\ others (arr ba) m m') /\
  (exists m', cucon_bitarray_fill ba i j v m = Some m' /\
     repr m' ba (fill_list i j v bs) /\ others (arr ba) m m').
Proof.
  intros Hr Hi Hj. split_and!.
  - intros. apply at_spec; [done|lia].
  - intros. destruct Hr as (Hz & ws & Hb & Hs & ->).
    destruct (set_at_words _ _ _ i v Hb) as (ws' & -> & Hw); [lia|].
    eexists. split_and!; [done| |apply others_put].
    rewrite <- fill_list_one by (rewrite length_contents; lia).
    apply repr_sets; auto; lia.
  - destruct Hr as (Hz & ws & Hb & Hs & ->).
    destruct (fill_words _ _ _ i j v Hb) as (ws' & -> & Hw); [lia..|].
    eexists. split_and!; [done| |apply others_put].
    by apply repr_sets.
Qed.

(** An array of 70 bits in two words, and a word of another block. *)
Definition sample_ba : bitarray := mk_bitarray 16 70 (Ptr 1 0).
Definition sample_words : list Z := [0x8000000000000001; 0xff].
Definition sample_mem : mem := {[ 1%N := sample_words; 2%N := [7] ]}.

Lemma sample_repr : repr sample_mem sample_ba (contents sample_words 70).
Proof.
  split; [done|]. exists sample_words. split_and!; [|done|done].
  split_and!; [done|done| |done]. apply (bool_decide_unpack _). vm_compute. exact I.
Qed.

Lemma bitarray_update_correct_witness :
  exists m', cucon_bitarray_fill sample_ba 60 66 false sample_mem = Some m' /\
    repr m' sample_ba (fill_list 60 66 false (contents sample_words 70)) /\
    others (arr sample_ba) sample_mem m'.
Proof.
  exact (proj2 (proj2 (bitarray_update_correct sample_mem sample_ba _ 60 66 false sample_repr
                         ltac:(lia) ltac:(simpl; lia)))).
Defined.

Example fill_ex :
  cucon_bitarray_fill sample_ba 60 66 false sample_mem
  = Some {[ 1%N := [1; 0xfc]; 2%N := [7] ]}.
Proof. vm_compute. reflexivity. Qed.
