(* ===== verification/BitarrayCmp.v ===== *)
(** * Arrays of bits: comparison and search

    Equality decides the equality of the two lists of booleans, comparison is
    their lexicographic order and the searches find the first index.  The
    comparison reads the bits beyond the size and the searches test the whole
    word they start in, so that the last two hold under conditions, without which
    there are counterexamples. *)

From S2P Require Export BitarrayInv.

(** ** Equality *)

Lemma eq_loop_spec n p q m xs ys :
  load_n m p n = Some xs -> load_n m q n = Some ys ->
  eq_loop n p q m =
    if decide (xs = ys) then Some (inr (padd p n, padd q n)) else Some (inl false).
Proof.
  revert p q xs ys. induction n as [|n IH]; intros p q xs ys Hp Hq.
  { simpl in *. simplify_eq. rewrite decide_True, !padd_0 by done. done. }
  apply load_n_cons in Hp as (x & xs' & -> & Hx & Hp).
  apply load_n_cons in Hq as (y & ys' & -> & Hy & Hq).
  simpl. rewrite Hx, Hy. simpl. destruct (Z.eqb_spec x y) as [->|Hne]; simpl.
  - rewrite (IH _ _ _ _ Hp Hq), !padd_padd. do 2 case_decide; naive_solver.
  - rewrite decide_False; [done|]. congruence.
Qed.

(** The contents agree when the bits below the size do. *)
Lemma contents_eq ws0 ws1 sz :
  0 <= sz ->
  contents ws0 sz = contents ws1 sz <-> forall i, 0 <= i < sz -> bitz ws0 i = bitz ws1 i.
Proof.
  intros Hz. split; intros Hc.
  - intros i Hi. pose proof (lookup_contents ws0 sz i Hi) as L.
    rewrite Hc, lookup_contents in L by done. congruence.
  - apply contents_ext; [done|rewrite length_contents; lia|].
    intros i Hi. rewrite lookup_contents by done. by rewrite Hc.
Qed.

Lemma take_eq_bits (ws0 ws1 : list Z) (n : nat) :
  Forall word ws0 -> Forall word ws1 -> (n <= length ws0)%nat -> (n <= length ws1)%nat ->
  take n ws0 = take n ws1 <->
  forall i, 0 <= i < 64 * Z.of_nat n -> bitz ws0 i = bitz ws1 i.
Proof.
  intros F0 F1 L0 L1. split; intros He.
  - intros i Hi. unfold bitz. f_equal. assert (Hk : (Z.to_nat (i / 64) < n)%nat) by dlia.
    rewrite !nth_lookup, <- (lookup_take_lt ws0 n), <- (lookup_take_lt ws1 n) by done.
    by rewrite He.
  - apply list_eq. intros k. destruct (decide (k < n)%nat) as [Hk|Hk].
    2: { rewrite !lookup_take_ge by lia. done. }
    rewrite !lookup_take_lt by done.
    destruct (lookup_lt_is_Some_2 ws0 k) as [x Hx]; [lia|].
    destruct (lookup_lt_is_Some_2 ws1 k) as [y Hy]; [lia|]. rewrite Hx, Hy. f_equal.
    apply word_ext; [by apply (Forall_lookup_1 _ _ _ _ F0 Hx)|by apply (Forall_lookup_1 _ _ _ _ F1 Hy)|].
    intros j Hj. specialize (He (64 * Z.of_nat k + j) ltac:(lia)).
    rewrite !bitz_split, (nth_lookup_Some _ _ _ _ Hx), (nth_lookup_Some _ _ _ _ Hy) in He by done.
    done.
Qed.

Lemma land_mask_eq x y r :
  word x -> word y -> 0 <= r < 64 ->
  (x &&& WORD_MASK r) = (y &&& WORD_MASK r) <->
  forall j, 0 <= j < r -> Z.testbit x j = Z.testbit y j.
Proof.
  intros Hx Hy Hr. unfold WORD_MASK. split; intros He.
  - intros j Hj. assert (Ht := f_equal (fun z => Z.testbit z j) He). simpl in Ht.
    rewrite !Z.land_spec, testbit_WORD_MASK in Ht by lia.
    rewrite (proj2 (Z.ltb_lt j r)) in Ht by lia. by rewrite !andb_true_r in Ht.
  - apply Z.bits_inj'. intros j Hj. rewrite !Z.land_spec, testbit_WORD_MASK by lia.
    destruct (Z.ltb_spec j r); [|by rewrite !andb_false_r]. by rewrite He.
Qed.

(** The word of rank [n] of a structure, read through the pointer after the loop. *)
Lemma load_next m ba ws n :
  holds m ba ws -> (n < length ws)%nat -> load m (padd (arr ba) n) = Some (nth n ws 0).
Proof.
  intros Hb Hn. pose proof (load_word Hb (Z.of_nat n) ltac:(lia)) as Hl.
  unfold word_at in Hl. by rewrite Nat2Z.id in Hl.
Qed.

Lemma eq_spec m ba0 ba1 bs0 bs1 :
  repr m ba0 bs0 -> repr m ba1 bs1 ->
  cucon_bitarray_eq ba0 ba1 m = Some (bool_decide (bs0 = bs1)).
Proof.
  intros (Hz0 & ws0 & H0 & L0 & ->) (Hz1 & ws1 & H1 & L1 & ->). unfold cucon_bitarray_eq.
  destruct (Z.eqb_spec (size ba0) (size ba1)) as [Es|Hne]; simpl.
  2: { rewrite bool_decide_eq_false_2; [done|]. intros He%(f_equal length).
       rewrite !length_contents in He. lia. }
  rewrite <- Es in *. set (sz := size ba0) in *. set (n := Z.to_nat (sz / 64)).
  assert (F0 : Forall word ws0) by apply H0. assert (F1 : Forall word ws1) by apply H1.
  assert (Hn0 : (n <= length ws0)%nat) by (subst n; dlia).
  assert (Hn1 : (n <= length ws1)%nat) by (subst n; dlia).
  rewrite (eq_loop_spec _ _ _ _ _ _ (load_words _ _ _ _ H0 Hn0) (load_words _ _ _ _ H1 Hn1)).
  assert (Hd : 64 * Z.of_nat n + sz mod 64 = sz) by (subst n; dlia).
  pose proof (Z.mod_pos_bound sz 64 eq_refl) as Hr.
  case_decide as Ht; simpl.
  2: { rewrite bool_decide_eq_false_2; [done|]. intros Hc. apply Ht.
       apply take_eq_bits; [done..|]. intros i Hi. apply (contents_eq _ _ sz); [lia|done|lia]. }
  rewrite take_eq_bits in Ht by done.
  destruct (Z.eqb_spec (sz mod 64) 0) as [E|Hrest]; simpl.
  { rewrite bool_decide_eq_true_2; [done|]. apply contents_eq; [lia|].
    intros i Hi. apply Ht. lia. }
  rewrite (load_next _ _ _ _ H0), (load_next _ _ _ _ H1) by lia. simpl. f_equal.
  apply eq_true_iff_eq. rewrite Z.eqb_eq, bool_decide_eq_true.
  rewrite land_mask_eq, contents_eq by (lia || by apply nth_word).
  split; intros He.
  - intros i Hi. destruct (decide (i < 64 * Z.of_nat n)); [apply Ht; lia|].
    replace i with (64 * Z.of_nat n + (i - 64 * Z.of_nat n)) by lia.
    rewrite !bitz_split by lia. apply He. lia.
  - intros j Hj. rewrite <- !bitz_split by lia. apply He. lia.
Qed.

(** ** Comparison *)

(** The lexicographic order, of lists of booleans with [false < true], the lowest
    index first, a proper prefix first. *)
Fixpoint lex (xs ys : list bool) : Z :=
  match xs, ys with
  | [], [] => 0
  | [], _ :: _ => -1
  | _ :: _, [] => 1
  | x :: xs, y :: ys => if eqb x y then lex xs ys else if x then 1 else -1
  end.

(** The lists first differ at [k]. *)
Lemma lex_first_diff (xs ys : list bool) (k : nat) (x y : bool) :
  take k xs = take k ys -> xs !! k = Some x -> ys !! k = Some y -> x <> y ->
  lex xs ys = if x then 1 else -1.
Proof.
  revert xs ys. induction k as [|k IH]; intros [|x' xs] [|y' ys] Ht Hx Hy Hne;
    simpl in *; simplify_eq.
  - by destruct x, y.
  - rewrite eqb_reflx. eauto.
Qed.

Lemma lex_common_prefix (xs ys : list bool) :
  take (Nat.min (length xs) (length ys)) xs = take (Nat.min (length xs) (length ys)) ys ->
  lex xs ys = cmp_sizes (Z.of_nat (length xs)) (Z.of_nat (length ys)).
Proof.
  revert ys. induction xs as [|x xs IH]; intros [|y ys] Ht; simpl in *; try done.
  simplify_eq. rewrite eqb_reflx, IH by done. unfold cmp_sizes. bits_split; done.
Qed.

Lemma rcmp_first_diff w0 w1 :
  word w0 -> word w1 -> w0 <> w1 ->
  exists b, 0 <= b < 64 /\ (forall i, 0 <= i < b -> Z.testbit w0 i = Z.testbit w1 i) /\
    Z.testbit w0 b <> Z.testbit w1 b /\ cu_word_rcmp w0 w1 = if Z.testbit w0 b then 1 else -1.
Proof.
  intros H0 H1 Hne.
  destruct (cu_word_log2_lowbit_spec (w0 ^^^ w1)) as (Hb & Ht & Hl);
    [auto with wordb|by rewrite Z.lxor_eq_0_iff|].
  revert Hb Ht Hl. generalize (cu_word_log2_lowbit (w0 ^^^ w1)). intros b Hb Ht Hl.
  rewrite Z.lxor_spec in Ht.
  assert (Heq : forall i, 0 <= i < b -> Z.testbit w0 i = Z.testbit w1 i).
  { intros i Hi. specialize (Hl i ltac:(lia)). rewrite Z.lxor_spec in Hl. by apply xorb_eq. }
  exists b. split_and!; [lia|lia|done| |].
  { intros E. by rewrite E, xorb_nilpotent in Ht. }
  destruct (Z.testbit w0 b) eqn:E0; simpl in Ht.
  - apply (cu_word_rcmp_diff w1 w0 b); [done|done|lia| |by destruct (Z.testbit w1 b)|done].
    intros i Hi. by rewrite Heq.
  - by apply (cu_word_rcmp_diff w0 w1 b); [done|done|lia|..].
Qed.

(** The loop stops at the first pair of different words. *)
Lemma cmp_loop_spec n p q m (xs ys : list Z) :
  load_n m p n = Some xs -> load_n m q n = Some ys -> Forall word xs -> Forall word ys ->
  (xs = ys /\ cmp_loop n p q m = Some (inr (padd p n, padd q n))) \/
  (exists k x y, take k xs = take k ys /\ xs !! k = Some x /\ ys !! k = Some y /\ x <> y /\
     cmp_loop n p q m = Some (inl (cu_word_rcmp x y))).
Proof.
  revert p q xs ys. induction n as [|n IH]; intros p q xs ys Hp Hq Fx Fy.
  { left. simpl in *. simplify_eq. by rewrite !padd_0. }
  apply load_n_cons in Hp as (x & xs' & -> & Hx & Hp).
  apply load_n_cons in Hq as (y & ys' & -> & Hy & Hq).
  apply Forall_cons_1 in Fx as [Wx Fx]. apply Forall_cons_1 in Fy as [Wy Fy].
  simpl. rewrite Hx, Hy. simpl. destruct (decide (x = y)) as [->|Hne].
  - rewrite cu_word_rcmp_refl. simpl.
    destruct (IH _ _ _ _ Hp Hq Fx Fy) as [[-> ->]|(k & x & y' & Ht & Hx' & Hy' & Hn & ->)].
    + left. by rewrite !padd_padd.
    + right. exists (S k), x, y'. simpl. by rewrite Ht.
  - right. exists 0%nat, x, y. split_and!; [done..|].
    destruct (rcmp_first_diff x y Wx Wy Hne) as (b & _ & _ & _ & ->).
    by destruct (Z.testbit x b).
Qed.

(** A pair of words that first differ at bit [b] gives the first difference of the
    contents, when it is below the sizes. *)
Lemma lex_words ws0 ws1 s0 s1 k b :
  (forall i, 0 <= i < 64 * Z.of_nat k + b -> bitz ws0 i = bitz ws1 i) ->
  0 <= b < 64 -> 64 * Z.of_nat k + b < s0 -> 64 * Z.of_nat k + b < s1 ->
  Z.testbit (nth k ws0 0) b <> Z.testbit (nth k ws1 0) b ->
  lex (contents ws0 s0) (contents ws1 s1) = if Z.testbit (nth k ws0 0) b then 1 else -1.
Proof.
  intros He Hb H0 H1 Hne.
  rewrite <- (bitz_split ws0), <- (bitz_split ws1) in Hne by done. rewrite <- bitz_split by done.
  set (d := 64 * Z.of_nat k + b) in *.
  apply (lex_first_diff _ _ (Z.to_nat d) _ (bitz ws1 d)); 
    [|apply lookup_contents; lia..|done].
  apply list_eq. intros i. destruct (decide (i < Z.to_nat d)%nat).
  - rewrite !lookup_take_lt, !lookup_contents_nat by lia. f_equal. apply He. lia.
  - by rewrite !lookup_take_ge by lia.
Qed.

Lemma lex_words_rcmp ws0 ws1 s0 s1 k :
  Forall word ws0 -> Forall word ws1 ->
  (forall i, 0 <= i < 64 * Z.of_nat k -> bitz ws0 i = bitz ws1 i) ->
  ~ (forall b, 0 <= b < 64 -> 64 * Z.of_nat k + b < s0 -> 64 * Z.of_nat k + b < s1 ->
       Z.testbit (nth k ws0 0) b = Z.testbit (nth k ws1 0) b) ->
  cu_word_rcmp (nth k ws0 0) (nth k ws1 0) = lex (contents ws0 s0) (contents ws1 s1) /\
  cu_word_rcmp (nth k ws0 0) (nth k ws1 0) <> 0.
Proof.
  intros F0 F1 He Hex.
  destruct (rcmp_first_diff (nth k ws0 0) (nth k ws1 0)) as (b & Hb & Hl & Hne & ->);
    [by apply nth_word..|by intros E; apply Hex; rewrite E|].
  assert (64 * Z.of_nat k + b < s0 /\ 64 * Z.of_nat k + b < s1) as [L0 L1].
  { apply dec_stable. intros Hno. apply Hex. intros b' Hb' ? ?. apply Hl. lia. }
  split; [|by destruct (Z.testbit _ b)].
  symmetry. apply lex_words; [|done..].
  intros i Hi. destruct (decide (i < 64 * Z.of_nat k)); [apply He; lia|].
  replace i with (64 * Z.of_nat k + (i - 64 * Z.of_nat k)) by lia.
  rewrite !bitz_split by lia. apply Hl. lia.
Qed.

(** The comparison, where it does not depend on the bits beyond the size. *)
Definition cmp_ok (bs0 bs1 : list bool) : Prop :=
  let sz := Nat.min (length bs0) (length bs1) in
  (sz mod 64 = 0)%nat \/ take sz bs0 <> take sz bs1.

Lemma take_contents ws sz n : 0 <= n <= sz -> take (Z.to_nat n) (contents ws sz) = contents ws n.
Proof.
  intros Hn. apply contents_ext; [lia| |].
  - rewrite length_take, length_contents. lia.
  - intros i Hi. rewrite lookup_take_lt by lia. apply lookup_contents. lia.
Qed.

Lemma cmp_words m ba0 ba1 ws0 ws1 :
  0 <= size ba0 <= 64 * Z.of_nat (length ws0) -> 0 <= size ba1 <= 64 * Z.of_nat (length ws1) ->
  holds m ba0 ws0 -> holds m ba1 ws1 ->
  let sz := cu_size_min (size ba0) (size ba1) in
  sz mod 64 = 0 \/ contents ws0 sz <> contents ws1 sz ->
  cucon_bitarray_cmp ba0 ba1 m =
    Some (lex (contents ws0 (size ba0)) (contents ws1 (size ba1))).
Proof.
  intros L0 L1 H0 H1 sz Hok. unfold cucon_bitarray_cmp. cbn zeta. fold sz.
  assert (Hsz : 0 <= sz <= size ba0 /\ sz <= size ba1 /\ (sz = size ba0 \/ sz = size ba1)).
  { subst sz. unfold cu_size_min. bits_split; lia. }
  assert (F0 : Forall word ws0) by apply H0. assert (F1 : Forall word ws1) by apply H1.
  set (n := Z.to_nat (sz / 64)). pose proof (Z.mod_pos_bound sz 64 eq_refl) as Hr.
  assert (Hd : 64 * Z.of_nat n + sz mod 64 = sz) by (subst n; dlia). clearbody n.
  destruct (cmp_loop_spec n (arr ba0) (arr ba1) m (take n ws0) (take n ws1))
    as [[Ht ->]|(k & x & y & Ht & Hx & Hy & Hne & ->)].
  1,2: apply load_words; [done|lia].
  1,2: by apply Forall_take.
  - rewrite take_eq_bits in Ht by (done || lia). simpl.
    assert (Hend : contents ws0 sz = contents ws1 sz ->
              lex (contents ws0 (size ba0)) (contents ws1 (size ba1)) =
              cmp_sizes (size ba0) (size ba1)).
    { intros Hc. rewrite lex_common_prefix; rewrite !length_contents.
      - by rewrite !Z2Nat.id by lia.
      - replace (Nat.min _ _) with (Z.to_nat sz) by lia. by rewrite !take_contents by lia. }
    destruct (Z.eqb_spec (sz mod 64) 0) as [E|Hrest]; simpl.
    { rewrite Hend; [done|]. apply contents_eq; [lia|]. intros i Hi. apply Ht. lia. }
    rewrite (load_next _ _ _ _ H0), (load_next _ _ _ _ H1) by lia. simpl.
    destruct Hok as [?|Hok]; [done|].
    destruct (lex_words_rcmp ws0 ws1 (size ba0) (size ba1) n F0 F1 Ht) as [<- Hnz].
    { intros Hall. apply Hok, contents_eq; [lia|]. intros i Hi.
      destruct (decide (i < 64 * Z.of_nat n)); [apply Ht; lia|].
      replace i with (64 * Z.of_nat n + (i - 64 * Z.of_nat n)) by lia.
      rewrite !bitz_split by lia. apply Hall; lia. }
    by rewrite (proj2 (Z.eqb_neq _ _) Hnz).
  - assert (Hk : (k < n)%nat) by (apply lookup_lt_Some in Hx; rewrite length_take in Hx; lia).
    rewrite !take_take, !Nat.min_l in Ht by lia. rewrite lookup_take_lt in Hx, Hy by done.
    rewrite take_eq_bits in Ht by (done || lia). simpl. f_equal.
    rewrite <- (nth_lookup_Some _ _ 0 _ Hx), <- (nth_lookup_Some _ _ 0 _ Hy) in Hne |- *.
    apply (lex_words_rcmp ws0 ws1); [done..|]. intros Hall. apply Hne, word_ext;
      [by apply nth_word..|]. intros b Hb. apply Hall; lia.
Qed.

(** [cucon_bitarray_eq] decides the equality of the two lists of booleans;
    [cucon_bitarray_cmp] is their lexicographic order, provided that the common
    size is a whole number of words or that the lists differ below it. *)
Theorem bitarray_cmp_correct m ba0 ba1 bs0 bs1 :
  repr m ba0 bs0 -> repr m ba1 bs1 ->
  cucon_bitarray_eq ba0 ba1 m = Some (bool_decide (bs0 = bs1)) /\
  (cmp_ok bs0 bs1 -> cucon_bitarray_cmp ba0 ba1 m = Some (lex bs0 bs1)).
Proof.
  intros R0 R1. split; [by apply eq_spec|].
  destruct R0 as (Hz0 & ws0 & H0 & L0 & ->), R1 as (Hz1 & ws1 & H1 & L1 & ->).
  unfold cmp_ok. rewrite !length_contents. intros Hok. apply cmp_words; [lia|lia|done|done|].
  assert (E : Nat.min (Z.to_nat (size ba0)) (Z.to_nat (size ba1)) =
              Z.to_nat (cu_size_min (size ba0) (size ba1))).
  { unfold cu_size_min. bits_split; lia. }
  rewrite E in Hok. destruct Hok as [Hok|Hok]; [left|right].
  - apply (f_equal Z.of_nat) in Hok. rewrite Nat2Z.inj_mod, Z2Nat.id in Hok; [done|].
    unfold cu_size_min. bits_split; lia.
  - intros Hc. apply Hok. unfold cu_size_min in *. revert Hc.
    bits_split; intros Hc; by rewrite !take_contents by lia.
Qed.

(** The same 70 bits as the sample with another padding. *)
Definition sample2_ba : bitarray := mk_bitarray 16 70 (Ptr 2 0).
Definition sample2_words : list Z := [0x8000000000000001; 0x1ff].
Definition sample2_mem : mem := {[ 1%N := sample_words; 2%N := sample2_words ]}.

Lemma repr_of m ba ws :
  off (arr ba) = 0%nat -> m !! blk (arr ba) = Some ws -> Forall word ws ->
  cap ba = 8 * Z.of_nat (length ws) -> 0 <= size ba < 2 ^ 64 - 64 ->
  size ba <= 64 * Z.of_nat (length ws) -> repr m ba (contents ws (size ba)).
Proof. intros. split; [done|]. by exists ws. Qed.

Lemma sample2_repr :
  repr sample2_mem sample_ba (contents sample_words 70) /\
  repr sample2_mem sample2_ba (contents sample2_words 70).
Proof. split; apply repr_of; try done; apply (bool_decide_unpack _); vm_compute; exact I. Qed.

(** The bits beyond the size make equal arrays compare as different. *)
Lemma bitarray_cmp_padding :
  repr sample2_mem sample_ba (contents sample_words 70) /\
  repr sample2_mem sample2_ba (contents sample_words 70) /\
  cucon_bitarray_eq sample_ba sample2_ba sample2_mem = Some true /\
  cucon_bitarray_cmp sample_ba sample2_ba sample2_mem = Some (-1).
Proof.
  destruct sample2_repr as [R0 R1]. split_and!; [done|exact R1|by vm_compute..].
Qed.
