(* ===== verification/BitarrayFind.v ===== *)
(** * Arrays of bits: search

    The loops of [cucon_bitarray_find] and [cucon_bitarray_find2] look for a
    non-zero word among words computed from the arrays, whose bits tell where the
    searched values are. *)

From S2P Require Export BitarrayCmp.

(** ** First index *)

(** [r] is the first index from [start] on where [xs] holds [x], or [NOT_FOUND]. *)
Definition finds {A : Type} (xs : list A) (start : Z) (x : A) (r : Z) : Prop :=
  (start <= r < Z.of_nat (length xs) /\ xs !! Z.to_nat r = Some x /\
     forall k, start <= k < r -> xs !! Z.to_nat k <> Some x) \/
  (r = NOT_FOUND /\ forall k, start <= k < Z.of_nat (length xs) -> xs !! Z.to_nat k <> Some x).

(** The same for a predicate on the indices below [sz]. *)
Definition first_bit (bit : Z -> bool) (start sz r : Z) : Prop :=
  (start <= r < sz /\ bit r = true /\ forall k, start <= k < r -> bit k = false) \/
  (r = NOT_FOUND /\ forall k, start <= k < sz -> bit k = false).

Lemma first_bit_finds {A : Type} (xs : list A) (bit : Z -> bool) start x r :
  0 <= start ->
  (forall k, 0 <= k < Z.of_nat (length xs) -> bit k = true <-> xs !! Z.to_nat k = Some x) ->
  first_bit bit start (Z.of_nat (length xs)) r -> finds xs start x r.
Proof.
  intros Hs Hb [(Hr & Ht & Hf)|(-> & Hf)]; [left|right]; split_and!; try done; try lia.
  - apply Hb; [lia|done].
  - intros k Hk E. rewrite <- Hb in E by lia. by rewrite Hf in E by lia.
  - intros k Hk E. rewrite <- Hb in E by lia. by rewrite Hf in E by lia.
Qed.

Lemma finds_intro {A : Type} (xs : list A) (bit : Z -> bool) start x (o : option Z) :
  0 <= start ->
  (forall k, 0 <= k < Z.of_nat (length xs) -> bit k = true <-> xs !! Z.to_nat k = Some x) ->
  (exists r, o = Some r /\ first_bit bit start (Z.of_nat (length xs)) r) ->
  exists r, o = Some r /\ finds xs start x r.
Proof.
  intros Hs Hb (r & -> & Hr). exists r. split; [done|]. by apply (first_bit_finds _ bit).
Qed.

Lemma first_bit_skip bit start start' sz r :
  start <= start' -> (forall k, start <= k < start' -> k < sz -> bit k = false) ->
  first_bit bit start' sz r -> first_bit bit start sz r.
Proof.
  intros Hs Hf [(Hr & Ht & Hk)|(-> & Hk)]; [left|right]; split_and!; try done; try lia.
  - intros k Hk'. destruct (decide (k < start')); [apply Hf; lia|apply Hk; lia].
  - intros k Hk'. destruct (decide (k < start')); [apply Hf; lia|apply Hk; lia].
Qed.

(** A set bit before which there is none, tested against the size. *)
Lemma first_bit_found bit start sz r :
  start <= r -> bit r = true -> (forall k, start <= k < r -> bit k = false) ->
  first_bit bit start sz (found r sz).
Proof.
  intros Hs Hr Hk. unfold found. destruct (Z.leb_spec sz r); [right|left].
  - split; [done|]. intros k Hk'. apply Hk. lia.
  - done.
Qed.

(** ** The loop *)

Lemma cu_size_log2_lowbit_word x : cu_size_log2_lowbit x = cu_word_log2_lowbit x.
Proof. unfold cu_size_log2_lowbit, cu_word_log2_lowbit. reflexivity. Qed.

Section words.
Context (g : Z -> mem -> option Z) (m : mem) (X : Z -> Z) (n sz : Z).
Context (Hg : forall i, 0 <= i < n -> g i m = Some (X i)).
Context (HX : forall i, word (X i)).
Context (Hn : 64 * n < 2 ^ 64) (Hsz : sz <= 64 * n).

(** The bit of an index in the computed words. *)
Definition xbit (i : Z) : bool := Z.testbit (X (i / 64)) (i mod 64).

Lemma xbit_split i j : 0 <= j < 64 -> xbit (64 * i + j) = Z.testbit (X i) j.
Proof.
  intros Hj. unfold xbit. rewrite (Z.mul_comm 64), Z.div_add_l, Z.div_small, Z.add_0_r by lia.
  by rewrite Z.add_comm, Z.mod_add, Z.mod_small by lia.
Qed.

(** The first bit of a word from its bit [l] on: its number, and the index
    computed from it. *)
Lemma first_in_shifted x l :
  word x -> 0 <= l < 64 -> x >>> l <> 0 ->
  0 <= cu_size_log2_lowbit (x >>> l) < 64 - l /\
  Z.testbit x (cu_size_log2_lowbit (x >>> l) + l) = true /\
  forall j, l <= j < cu_size_log2_lowbit (x >>> l) + l -> Z.testbit x j = false.
Proof.
  intros Hx Hl Hne. rewrite cu_size_log2_lowbit_word.
  destruct (cu_word_log2_lowbit_spec (x >>> l)) as (Hb & Ht & Hlow);
    [apply word_shiftr; [lia|done]|done|].
  rewrite testbit_shiftr in Ht. apply andb_true_iff in Ht as [_ Ht]. split_and!; [lia| |done|].
  - destruct (Z.lt_ge_cases (cu_word_log2_lowbit (x >>> l) + l) 64); [lia|].
    rewrite testbit_word_high in Ht by done. discriminate.
  - intros j Hj. specialize (Hlow (j - l) ltac:(lia)). rewrite testbit_shiftr in Hlow.
    apply andb_false_iff in Hlow as [Hlow|Hlow]; [apply Z.leb_gt in Hlow; lia|].
    rewrite <- Hlow. f_equal. lia.
Qed.

Lemma index_nowrap i b l :
  0 <= i < n -> 0 <= l < 64 -> 0 <= b < 64 - l ->
  wadd (wadd (wrap (i * 64)) b) l = 64 * i + (b + l) /\
  wadd (wrap (i * 64)) (wadd b l) = 64 * i + (b + l).
Proof.
  intros Hi Hl Hb. unfold wadd. rewrite (wrap_small (i * 64)) by (unfold word; lia).
  rewrite (wrap_small (i * 64 + b)) by (unfold word; lia).
  rewrite (wrap_small (b + l)) by (unfold word; lia).
  rewrite !wrap_small by (unfold word; lia). lia.
Qed.

Lemma first_in_word i l :
  0 <= i < n -> 0 <= l < 64 -> X i >>> l <> 0 ->
  first_bit xbit (64 * i + l) sz (found (64 * i + (cu_size_log2_lowbit (X i >>> l) + l)) sz).
Proof.
  intros Hi Hl Hne. destruct (first_in_shifted (X i) l (HX i) Hl Hne) as (Hb & Ht & Hlow).
  apply first_bit_found; [lia|by rewrite xbit_split by lia|].
  intros k Hk. replace k with (64 * i + (k - 64 * i)) by lia. rewrite xbit_split by lia.
  apply Hlow. lia.
Qed.

Lemma find_loop_spec fuel i :
  0 <= i -> (Z.to_nat (n - i) < fuel)%nat ->
  exists r, find_loop fuel g sz i n m = Some r /\ first_bit xbit (64 * i) sz r.
Proof.
  revert i. induction fuel as [|fuel IH]; intros i Hi Hf; [lia|]. simpl.
  destruct (Z.ltb_spec i n) as [Hin|Hin].
  2: { eexists. split; [done|]. right. split; [done|]. lia. }
  rewrite Hg by lia. simpl. destruct (Z.eqb_spec (X i) 0) as [E|Hne]; simpl.
  - destruct (IH (i + 1)) as (r & -> & Hr); [lia|lia|]. exists r. split; [done|].
    apply (first_bit_skip _ _ (64 * (i + 1))); [lia| |done].
    intros k Hk _. replace k with (64 * i + (k - 64 * i)) by lia.
    by rewrite xbit_split, E, Z.bits_0 by lia.
  - eexists. split; [done|].
    assert (H0 : X i >>> 0 <> 0) by by rewrite Z.shiftr_0_r.
    destruct (first_in_shifted (X i) 0 (HX i)) as (Hb & _ & _); [lia|done|].
    destruct (index_nowrap i (cu_size_log2_lowbit (X i >>> 0)) 0) as [E _]; [lia..|].
    assert (Hr := first_in_word i 0 ltac:(lia) ltac:(lia) H0).
    rewrite <- E, Z.add_0_r, Z.shiftr_0_r in Hr. unfold wadd in Hr at 1.
    rewrite Z.add_0_r, wrap_small in Hr by apply word_wadd. done.
Qed.

(** The search that starts inside a word. *)
Lemma word_start start :
  0 <= start < 64 * n -> X (start / 64) >>> (start mod 64) <> 0 ->
  let r := wadd (wrap (start / 64 * 64))
             (wadd (cu_size_log2_lowbit (X (start / 64) >>> (start mod 64))) (start mod 64)) in
  wadd (wadd (wrap (start / 64 * 64)) (cu_size_log2_lowbit (X (start / 64) >>> (start mod 64))))
    (start mod 64) = r /\
  first_bit xbit start sz (found r sz).
Proof.
  intros Hs Hne. pose proof (Z.div_mod start 64). pose proof (Z.mod_pos_bound start 64 eq_refl).
  destruct (first_in_shifted (X (start / 64)) (start mod 64) (HX _)) as (Hb & _ & _); [lia|done|].
  destruct (index_nowrap (start / 64) _ (start mod 64) ltac:(lia) ltac:(lia) Hb) as [-> ->].
  split; [done|]. assert (Hf := first_in_word (start / 64) (start mod 64) ltac:(lia) ltac:(lia) Hne).
  by replace (64 * (start / 64) + start mod 64) with start in Hf by lia.
Qed.

(** The search from a bit inside a word, when the word has a bit from there on. *)
Lemma xbit_shiftr_nz start r :
  start <= r -> r / 64 = start / 64 -> xbit r = true -> X (start / 64) >>> (start mod 64) <> 0.
Proof.
  intros Hr E Ht E0. unfold xbit in Ht. rewrite E in Ht.
  pose proof (Z.div_mod start 64). pose proof (Z.div_mod r 64).
  pose proof (Z.mod_pos_bound start 64 eq_refl).
  assert (Z.testbit (X (start / 64) >>> (start mod 64)) (r mod 64 - start mod 64) = true) as Hc.
  { rewrite testbit_shiftr. rewrite (proj2 (Z.leb_le _ _)) by lia. simpl. rewrite <- Ht.
    f_equal. lia. }
  by rewrite E0, Z.bits_0 in Hc.
Qed.

End words.

(** ** The words of the two searches *)

Definition flip (v : bool) (w : Z) : Z := if v then w else wnot w.

Lemma word_flip v w : word w -> word (flip v w).
Proof. destruct v; simpl; auto with wordb. Qed.

Lemma testbit_flip v w j : 0 <= j < 64 -> Z.testbit (flip v w) j = eqb (Z.testbit w j) v.
Proof. intros Hj. destruct v; simpl; bits_rw; bits_split; bit_cases. Qed.

Definition words1 (ws : list Z) (v : bool) (i : Z) : Z := flip v (nth (Z.to_nat i) ws 0).
Definition words2 (ws0 ws1 : list Z) (v0 v1 : bool) (i : Z) : Z :=
  words1 ws0 v0 i &&& words1 ws1 v1 i.

Lemma word_words1 ws v i : Forall word ws -> word (words1 ws v i).
Proof. intros. by apply word_flip, nth_word. Qed.

Lemma xbit_words1 ws v k : 0 <= k -> xbit (words1 ws v) k = eqb (bitz ws k) v.
Proof. intros Hk. unfold xbit, words1. rewrite testbit_flip by dlia. done. Qed.

Lemma xbit_words2 ws0 ws1 v0 v1 k :
  0 <= k -> xbit (words2 ws0 ws1 v0 v1) k = eqb (bitz ws0 k) v0 && eqb (bitz ws1 k) v1.
Proof.
  intros Hk. rewrite <- !xbit_words1 by done. unfold xbit, words2. by rewrite Z.land_spec.
Qed.

Lemma read_word_spec m ba ws v i :
  holds m ba ws -> 0 <= i < Z.of_nat (length ws) -> read_word ba v i m = Some (words1 ws v i).
Proof. intros Hb Hi. unfold read_word. by rewrite (load_word Hb). Qed.

Lemma read_words_spec m ba0 ba1 ws0 ws1 v0 v1 i :
  holds m ba0 ws0 -> holds m ba1 ws1 ->
  0 <= i < Z.of_nat (length ws0) -> i < Z.of_nat (length ws1) ->
  read_words ba0 ba1 v0 v1 i m = Some (words2 ws0 ws1 v0 v1 i).
Proof.
  intros H0 H1 Hi0 Hi1. unfold read_words.
  rewrite (read_word_spec _ _ _ _ _ H0), (read_word_spec _ _ _ _ _ H1) by lia. done.
Qed.

Lemma bitz_contents_iff ws sz k v :
  0 <= k < sz -> eqb (bitz ws k) v = true <-> contents ws sz !! Z.to_nat k = Some v.
Proof.
  intros Hk. rewrite lookup_contents by done. rewrite eqb_true_iff. naive_solver.
Qed.

Lemma lookup_zip_contents ws0 ws1 s0 s1 k v0 v1 :
  0 <= k < s0 -> k < s1 ->
  eqb (bitz ws0 k) v0 && eqb (bitz ws1 k) v1 = true <->
  zip (contents ws0 s0) (contents ws1 s1) !! Z.to_nat k = Some (v0, v1).
Proof.
  intros H0 H1. rewrite andb_true_iff, (bitz_contents_iff _ s0), (bitz_contents_iff _ s1) by lia.
  rewrite lookup_zip_Some. naive_solver.
Qed.

(** ** The searches *)

(** The search starts at a word boundary, or its first word has a match from the
    start on. *)
Definition find_ok {A : Type} (xs : list A) (start : Z) (x : A) : Prop :=
  start mod 64 = 0 \/
  exists r, start <= r < Z.of_nat (length xs) /\ r / 64 = start / 64 /\ xs !! Z.to_nat r = Some x.

Lemma aligned start : start mod 64 = 0 -> start = 64 * (start / 64).
Proof. pose proof (Z.div_mod start 64). lia. Qed.

Lemma ceil_words sz : 0 <= sz < 2 ^ 64 - 64 ->
  let n := cu_size_ceil_div sz 64 in sz <= 64 * n < sz + 64.
Proof.
  intros Hz n. pose proof (cu_size_ceil_div_least sz 64 eq_refl ltac:(lia) ltac:(lia)) as Hl.
  cbn zeta in Hl. fold n in Hl. lia.
Qed.

Lemma find2_spec m ba0 ba1 bs0 bs1 start v0 v1 :
  repr m ba0 bs0 -> repr m ba1 bs1 -> 0 <= start -> find_ok (zip bs0 bs1) start (v0, v1) ->
  exists r, cucon_bitarray_find2 ba0 ba1 start v0 v1 m = Some r /\
    finds (zip bs0 bs1) start (v0, v1) r.
Proof.
  intros (Hz0 & ws0 & H0 & L0 & ->) (Hz1 & ws1 & H1 & L1 & ->) Hs Hok.
  set (bs := zip _ _) in *. unfold cucon_bitarray_find2. cbn zeta.
  assert (Hl : Z.of_nat (length bs) = cu_size_min (size ba0) (size ba1)).
  { subst bs. rewrite length_zip_with, !length_contents. unfold cu_size_min. bits_split; lia. }
  rewrite <- Hl. set (sz := Z.of_nat (length bs)) in *.
  assert (Hsz : 0 <= sz <= size ba0 /\ sz <= size ba1).
  { rewrite Hl. unfold cu_size_min. bits_split; lia. }
  destruct (ceil_words sz) as [Hn1 Hn2]; [lia|]. set (n := cu_size_ceil_div sz 64) in *.
  set (X := words2 ws0 ws1 v0 v1).
  assert (Hg : forall i, 0 <= i < n -> read_words ba0 ba1 v0 v1 i m = Some (X i)).
  { intros i Hi. apply read_words_spec; [done|done|lia|lia]. }
  assert (HX : forall i, word (X i)).
  { intros i. apply word_land; apply word_words1; [apply H0|apply H1]. }
  assert (Hbit : forall k, 0 <= k < sz -> xbit X k = true <-> bs !! Z.to_nat k = Some (v0, v1)).
  { intros k Hk. subst X. rewrite xbit_words2 by lia. apply lookup_zip_contents; lia. }
  apply (finds_intro _ (xbit X)); [done|done|]. fold sz.
  destruct (Z.eqb_spec (start mod 64) 0) as [E|Hne]; cbn [negb].
  - destruct (find_loop_spec (read_words ba0 ba1 v0 v1) m X n sz Hg HX ltac:(lia) Hn1
                (find_fuel (start / 64) n) (start / 64)) as (r & -> & Hr);
      [dlia|unfold find_fuel; lia|].
    rewrite <- aligned in Hr by done. eauto.
  - destruct Hok as [?|(r & Hr & Er & Hm)]; [done|]. apply Hbit in Hm; [|lia].
    assert (Hw : X (start / 64) >>> (start mod 64) <> 0)
      by (apply (xbit_shiftr_nz X start r); [lia|done..]).
    rewrite Hg by dlia. cbn [mbind option_bind].
    destruct (Z.eqb_spec (X (start / 64)) 0) as [E|_]; cbn [negb].
    { by rewrite E, Z.shiftr_0_l in Hw. }
    destruct (word_start X n sz HX ltac:(lia) start) as [_ Hf]; [lia|done|]. eauto.
Qed.

Lemma find_spec m ba bs start v :
  repr m ba bs -> 0 <= start ->
  start mod 64 = 0 \/ (v = true /\ find_ok bs start v) ->
  exists r, cucon_bitarray_find ba start v m = Some r /\ finds bs start v r.
Proof.
  intros (Hz & ws & Hb & L & ->) Hs Hok.
  set (bs := contents _ _) in *. unfold cucon_bitarray_find. cbn zeta.
  assert (Hl : Z.of_nat (length bs) = size ba) by (subst bs; rewrite length_contents; lia).
  rewrite <- Hl. set (sz := Z.of_nat (length bs)) in *.
  destruct (ceil_words sz) as [Hn1 Hn2]; [lia|]. set (n := cu_size_ceil_div sz 64) in *.
  set (X := words1 ws v).
  assert (Hg : forall i, 0 <= i < n -> read_word ba v i m = Some (X i)).
  { intros i Hi. apply read_word_spec; [done|lia]. }
  assert (HX : forall i, word (X i)) by (intros i; apply word_words1, Hb).
  assert (Hbit : forall k, 0 <= k < sz -> xbit X k = true <-> bs !! Z.to_nat k = Some v).
  { intros k Hk. subst X. rewrite xbit_words1 by lia. apply bitz_contents_iff. lia. }
  apply (finds_intro _ (xbit X)); [done|done|]. fold sz.
  destruct (Z.eqb_spec (start mod 64) 0) as [E|Hne]; cbn [negb].
  - destruct (find_loop_spec (read_word ba v) m X n sz Hg HX ltac:(lia) Hn1
                (find_fuel (start / 64) n) (start / 64)) as (r & -> & Hr);
      [dlia|unfold find_fuel; lia|].
    rewrite <- aligned in Hr by done. eauto.
  - destruct Hok as [?|[-> [?|(r & Hr & Er & Hm)]]]; [done..|]. apply Hbit in Hm; [|lia].
    assert (Hw : X (start / 64) >>> (start mod 64) <> 0)
      by (apply (xbit_shiftr_nz X start r); [lia|done..]).
    rewrite (load_word Hb) by dlia. cbn [mbind option_bind].
    change (nth (Z.to_nat (start / 64)) ws 0) with (X (start / 64)).
    destruct (Z.eqb_spec (X (start / 64)) 0) as [E|_]; cbn [negb].
    { by rewrite E, Z.shiftr_0_l in Hw. }
    destruct (word_start X n sz HX ltac:(lia) start) as [-> Hf]; [lia|done|]. eauto.
Qed.

(** [cucon_bitarray_find] and [cucon_bitarray_find2] answer the first index
    from the start on at which the array, or the pair of arrays, holds the given
    value, and the greatest [size_t] when there is none below the size.  The
    start is at a word boundary, or (in [cucon_bitarray_find] for the value true
    only) its word has a match from the start on. *)
Theorem bitarray_find_correct m ba0 ba1 bs0 bs1 start v0 v1 :
  repr m ba0 bs0 -> repr m ba1 bs1 -> 0 <= start ->
  (start mod 64 = 0 \/ (v0 = true /\ find_ok bs0 start v0) ->
     exists r, cucon_bitarray_find ba0 start v0 m = Some r /\ finds bs0 start v0 r) /\
  (find_ok (zip bs0 bs1) start (v0, v1) ->
     exists r, cucon_bitarray_find2 ba0 ba1 start v0 v1 m = Some r /\
       finds (zip bs0 bs1) start (v0, v1) r).
Proof. intros. split; intros; [by apply find_spec|by apply find2_spec]. Qed.

(** Elsewhere the searches go wrong: the first word has a bit, but before the
    start; the search for a zero looks for a one. *)
Lemma bitarray_find_misses :
  let m := {[ 1%N := [1; 1; 0]; 2%N := [1; 1; 0] ]} in
  let ba k := mk_bitarray 24 192 (Ptr k 0) in
  cucon_bitarray_find (ba 1%N) 1 true m = Some 65 /\
  contents [1; 1; 0] 192 !! 64%nat = Some true /\
  cucon_bitarray_find2 (ba 1%N) (ba 2%N) 1 true true m = Some 65 /\
  cucon_bitarray_find (mk_bitarray 24 192 (Ptr 1 0)) 1 false {[ 1%N := [4; 0; 0] ]} = Some 2 /\
  contents [4; 0; 0] 192 !! 1%nat = Some false.
Proof. by vm_compute. Qed.
