(* ===== verification/BitarrayResize.v ===== *)
(** * Arrays of bits: construction and resizing

    The allocator of the program is the class [Allocator].  A resized array
    shares its first bits with the old one; its capacity is bounded as the policy
    of the function says; a reallocated array frees its old block, so that any
    later access through the old pointer is an error. *)

From S2P Require Export BitarrayInv.

(** ** Capacities *)

Lemma capacity_for_eq n :
  0 <= n < 2 ^ 64 - 64 ->
  capacity_for n = 8 * cu_size_ceil_div n 64 /\
  n <= 64 * cu_size_ceil_div n 64 < n + 64.
Proof.
  intros Hn. pose proof (cu_size_ceil_div_least n 64 eq_refl ltac:(lia) ltac:(lia)) as Hl.
  cbn zeta in Hl. unfold capacity_for. rewrite wrap_small by (unfold word; lia). lia.
Qed.

(** The number of words of a capacity. *)
Lemma capacity_words n :
  0 <= n < 2 ^ 64 - 64 ->
  exists k, capacity_for n = 8 * k /\ 0 <= k /\ n <= 64 * k < n + 64 /\
    capacity_for n / 8 = k.
Proof.
  intros Hn. destruct (capacity_for_eq n Hn) as [E Hk]. exists (cu_size_ceil_div n 64).
  rewrite E. split_and!; [done|lia|lia|lia|]. rewrite Z.mul_comm. by apply Z.div_mul.
Qed.

Lemma capacity_mono n n' :
  0 <= n <= n' -> n' < 2 ^ 64 - 64 -> capacity_for n <= capacity_for n'.
Proof.
  intros H H'. destruct (capacity_words n) as (k & -> & _ & Hk & _); [lia|].
  destruct (capacity_words n') as (k' & -> & _ & Hk' & _); [lia|]. lia.
Qed.

Lemma capacity_fits n ws :
  0 <= n < 2 ^ 64 - 64 -> capacity_for n <= 8 * Z.of_nat (length ws) ->
  n <= 64 * Z.of_nat (@length Z ws).
Proof. intros Hn Hc. destruct (capacity_words n) as (k & E & _ & Hk & _); [lia|]. lia. Qed.

Lemma size_capacity n (ws : list Z) :
  0 <= n < 2 ^ 64 - 64 -> n <= 64 * Z.of_nat (length ws) ->
  capacity_for n <= 8 * Z.of_nat (length ws).
Proof. intros Hn Hc. destruct (capacity_words n) as (k & E & _ & Hk & _); [lia|]. lia. Qed.

(** Equal words have equal bits. *)
Lemma bitz_take ws n i :
  0 <= i < 64 * Z.of_nat n -> bitz (take n ws) i = bitz ws i.
Proof.
  intros Hi. unfold bitz. f_equal. rewrite !nth_lookup, lookup_take_lt; [done|]. dlia.
Qed.

Lemma bitz_app_l ws ws' i :
  0 <= i < 64 * Z.of_nat (length ws) -> bitz (ws ++ ws') i = bitz ws i.
Proof.
  intros Hi. unfold bitz. f_equal. rewrite !nth_lookup, lookup_app_l; [done|]. dlia.
Qed.

Lemma contents_agree ws ws' sz :
  0 <= sz -> (forall i, 0 <= i < sz -> bitz ws i = bitz ws' i) -> contents ws sz = contents ws' sz.
Proof.
  intros Hz He. apply contents_ext; [done|rewrite length_contents; lia|].
  intros i Hi. rewrite lookup_contents by done. by rewrite He.
Qed.

Lemma take_contents_nat ws sz (n : nat) :
  Z.of_nat n <= sz -> take n (contents ws sz) = contents ws (Z.of_nat n).
Proof.
  intros Hn. apply contents_ext; [lia| |].
  - rewrite length_take, length_contents. lia.
  - intros i Hi. rewrite lookup_take_lt by lia. apply lookup_contents. lia.
Qed.

(** ** Construction *)

Section allocation.
Context `{Allocator}.

(** A new block of [c] bytes, for [k] words. *)
Lemma galloc_words m k :
  0 <= k -> exists p ws, galloc (8 * k) m = (p, <[blk p := ws]> m) /\
    off p = 0%nat /\ m !! blk p = None /\ Z.of_nat (length ws) = k /\ Forall word ws.
Proof.
  intros Hk. destruct (galloc_spec (8 * k) m) as (Ho & Hf & ws & Hl & Hw & E);
    [lia|by rewrite Z.mul_comm, Z.mod_mul|].
  destruct (galloc (8 * k) m) as [p m'] eqn:Eg. cbn [fst snd] in *. subst m'.
  exists p, ws. split_and!; try done. rewrite Hl, Z.mul_comm, Z.div_mul by done. lia.
Qed.

(** [memcpy] into a new block. *)
Lemma memcpy_new m p q ws0 ws k :
  off p = 0%nat -> off q = 0%nat -> m !! blk p = None -> m !! blk q = Some ws ->
  0 <= k <= Z.of_nat (length ws) -> k <= Z.of_nat (length ws0) ->
  memcpy p q (8 * k) (<[blk p := ws0]> m) =
    Some (<[blk p := take (Z.to_nat k) ws ++ drop (Z.to_nat k) ws0]> m).
Proof.
  intros Op Oq Hp Hq Hk Hk0. unfold memcpy.
  rewrite Z.mul_comm, Z.div_mul by done.
  assert (blk q <> blk p) by congruence.
  rewrite (load_n_block _ _ ws) by (rewrite ?lookup_insert_ne by done; done || lia). simpl.
  rewrite Oq. change (drop 0 ws) with ws. rewrite (store_n_block _ _ ws0); rewrite ?length_take, ?Op.
  - rewrite insert_insert_eq. simpl. do 4 f_equal. lia.
  - apply lookup_insert_eq.
  - lia.
Qed.

Lemma memset_new m p ws0 k (v : bool) :
  off p = 0%nat -> Z.of_nat (length ws0) = k ->
  memset p (if v then 255 else 0) (8 * k) (<[blk p := ws0]> m) =
    Some (<[blk p := replicate (Z.to_nat k) (fill_val v)]> m).
Proof.
  intros Op Hk. unfold memset. rewrite Z.mul_comm, Z.div_mul by lia.
  rewrite (store_n_block _ _ ws0); rewrite ?length_replicate, ?Op.
  - rewrite insert_insert_eq. simpl. rewrite drop_ge, app_nil_r by lia. do 2 f_equal. by destruct v.
  - apply lookup_insert_eq.
  - lia.
Qed.

(** [cucon_bitarray_init]: some list of the right length. *)
Lemma bitarray_init_spec m sz :
  0 <= sz < 2 ^ 64 - 64 ->
  exists ws, let '(ba, m') := cucon_bitarray_init sz m in
    holds m' ba ws /\ size ba = sz /\ cap ba = capacity_for sz /\
    m !! blk (arr ba) = None /\ m' = put m ba ws.
Proof.
  intros Hz. destruct (capacity_words sz Hz) as (k & E & Hk & Hs & _).
  destruct (galloc_words m k Hk) as (p & ws & Eg & Ho & Hf & Hl & Hw).
  exists ws. unfold cucon_bitarray_init. rewrite E, Eg. split_and!; try done.
  unfold holds. simpl. rewrite lookup_insert_eq. split_and!; try done. lia.
Qed.

Lemma bitz_replicate k v i :
  0 <= i < 64 * k -> bitz (replicate (Z.to_nat k) (fill_val v)) i = v.
Proof.
  intros Hi. unfold bitz. rewrite nth_lookup, lookup_replicate_2 by dlia. simpl.
  apply testbit_fill_val. dlia.
Qed.

Lemma contents_replicate k v sz :
  0 <= sz <= 64 * k ->
  contents (replicate (Z.to_nat k) (fill_val v)) sz = replicate (Z.to_nat sz) v.
Proof.
  intros Hz. symmetry. apply contents_ext; [lia|rewrite length_replicate; lia|].
  intros i Hi. rewrite bitz_replicate by lia. apply lookup_replicate_2. lia.
Qed.

(** [r] is a new structure that holds [bs]; the blocks of [m] are unchanged. *)
Definition creates (m : mem) (bs : list bool) (r : option (bitarray * mem)) : Prop :=
  exists ba m', r = Some (ba, m') /\ repr m' ba bs /\
    m !! blk (arr ba) = None /\ others (arr ba) m m'.

Lemma init_fill_spec m sz v :
  0 <= sz < 2 ^ 64 - 64 ->
  creates m (replicate (Z.to_nat sz) v) (cucon_bitarray_init_fill sz v m).
Proof.
  intros Hz. destruct (capacity_words sz Hz) as (k & E & Hk & Hs & _).
  destruct (galloc_words m k Hk) as (p & ws & Eg & Ho & Hf & Hl & Hw).
  unfold cucon_bitarray_init_fill. rewrite E, Eg, (memset_new _ _ ws) by done. simpl.
  exists (mk_bitarray (8 * k) sz p), (<[blk p := replicate (Z.to_nat k) (fill_val v)]> m).
  split_and!; [done| |done|intros b Hb; by rewrite lookup_insert_ne].
  split; [done|]. exists (replicate (Z.to_nat k) (fill_val v)). simpl.
  rewrite length_replicate, contents_replicate by lia. split_and!; [|lia|done].
  unfold holds. simpl. rewrite lookup_insert_eq, length_replicate.
  split_and!; [done|done| |lia]. apply Forall_replicate, word_fill_val.
Qed.

Lemma init_copy_spec m ba bs : repr m ba bs -> creates m bs (cucon_bitarray_init_copy ba m).
Proof.
  intros (Hz & ws & (Ob & Hm & Fw & _) & L & ->).
  destruct (capacity_words (size ba) Hz) as (k & E & Hk & Hs & _).
  destruct (galloc_words m k Hk) as (p & ws0 & Eg & Ho & Hf & Hl & Hw).
  unfold cucon_bitarray_init_copy. rewrite E, Eg, (memcpy_new _ _ _ _ ws) by (done || lia). simpl.
  rewrite (drop_ge ws0), app_nil_r by lia.
  exists (mk_bitarray (8 * k) (size ba) p), (<[blk p := take (Z.to_nat k) ws]> m).
  split_and!; [done| |done|intros b Hb; by rewrite lookup_insert_ne].
  assert (Hlt : Z.of_nat (length (take (Z.to_nat k) ws)) = k) by (rewrite length_take; lia).
  split; [done|]. exists (take (Z.to_nat k) ws). simpl. split_and!; [|lia|].
  - unfold holds. simpl. rewrite lookup_insert_eq.
    split_and!; [done|done|by apply Forall_take|lia].
  - apply contents_agree; [lia|]. intros i Hi. by rewrite bitz_take by lia.
Qed.

End allocation.

(** ** Resizing *)

(** [r] is the structure [ba] changed so that it holds [bs'], with a capacity
    satisfying [C].  Either the words are still in their block, or they are in a
    new one and an access through the old pointer is an error. *)
Definition moved (m : mem) (ba : bitarray) (bs' : list bool) (C : Z -> Prop)
    (r : option (bitarray * mem)) : Prop :=
  exists ba' m', r = Some (ba', m') /\ repr m' ba' bs' /\ C (cap ba') /\
    (arr ba' = arr ba \/
       (m !! blk (arr ba') = None /\ forall i, load m' (word_at ba i) = None)) /\
    (forall b, b <> blk (arr ba) -> b <> blk (arr ba') -> m' !! b = m !! b).

(** [r] is the structure resized to [sz]: it holds a list of that length that
    agrees with [bs] below both sizes. *)
Definition resized (m : mem) (ba : bitarray) (bs : list bool) (sz : Z) (C : Z -> Prop)
    (r : option (bitarray * mem)) : Prop :=
  exists bs', length bs' = Z.to_nat sz /\
    (let n := Nat.min (length bs) (length bs') in take n bs' = take n bs) /\
    moved m ba bs' C r.

(** An access through a pointer to a freed block is an error. *)
Lemma load_freed m p i : m !! blk p = None -> load m (padd p i) = None.
Proof. intros Hm. unfold load. simpl. by rewrite Hm. Qed.

(** The common prefix of two contents. *)
Lemma contents_common ws ws' s s' :
  0 <= s -> 0 <= s' -> (forall i, 0 <= i < Z.min s s' -> bitz ws' i = bitz ws i) ->
  let n := Nat.min (length (contents ws s)) (length (contents ws' s')) in
  take n (contents ws' s') = take n (contents ws s).
Proof.
  intros Hs Hs' He. rewrite !length_contents. cbn zeta.
  rewrite !take_contents_nat by lia. apply contents_agree; [lia|]. intros i Hi. apply He. lia.
Qed.

(** The structure keeps its words. *)
Lemma resized_same m ba bs sz C :
  repr m ba bs -> 0 <= sz < 2 ^ 64 - 64 -> capacity_for sz <= cap ba -> C (cap ba) ->
  resized m ba bs sz C (Some (set_size ba sz, m)).
Proof.
  intros (Hz & ws & Hb & L & ->) Hs Hc HC.
  exists (contents ws sz). split_and!; [apply length_contents|by apply contents_common; [lia..|]|].
  exists (set_size ba sz), m. split_and!; try done; [|by left].
  split; [done|]. exists ws. split_and!; [done| |done].
  apply capacity_fits; [done|]. by rewrite <- (proj2 (proj2 (proj2 Hb))).
Qed.

Section resizing.
Context `{Allocator}.

Lemma realloc_spec m ba ws new_cap sz :
  holds m ba ws -> 0 <= size ba < 2 ^ 64 - 64 -> size ba <= 64 * Z.of_nat (length ws) ->
  0 <= sz < 2 ^ 64 - 64 -> capacity_for sz <= new_cap -> new_cap mod 8 = 0 ->
  exists p m' ws', bitarray_realloc ba new_cap sz m = Some (mk_bitarray new_cap (size ba) p, m') /\
    holds m' (mk_bitarray new_cap (size ba) p) ws' /\
    (forall i, 0 <= i < Z.min sz (size ba) -> bitz ws' i = bitz ws i) /\
    m !! blk p = None /\ m' !! blk (arr ba) = None /\
    forall b, b <> blk (arr ba) -> b <> blk p -> m' !! b = m !! b.
Proof.
  intros (Ob & Hm & Fw & _) Hz L Hs Hc H8.
  assert (Hmin : 0 <= cu_size_min sz (size ba) <= sz /\ cu_size_min sz (size ba) <= size ba /\
            Z.min sz (size ba) = cu_size_min sz (size ba))
    by (unfold cu_size_min; bits_split; lia).
  destruct (capacity_words (cu_size_min sz (size ba))) as (k & E & Hk & Hks & _); [lia|].
  pose proof (capacity_mono (cu_size_min sz (size ba)) sz ltac:(lia) ltac:(lia)) as Hmono.
  rewrite E in Hmono.
  assert (Hn : exists n, new_cap = 8 * n /\ k <= n) by (exists (new_cap / 8); dlia).
  destruct Hn as (n & -> & Hn).
  destruct (galloc_words m n) as (p & ws0 & Eg & Ho & Hf & Hl & Hw); [lia|].
  unfold bitarray_realloc. rewrite E, Eg, (memcpy_new _ _ _ _ ws) by (done || lia).
  cbn [mbind option_bind]. set (ws' := take _ _ ++ drop _ _).
  assert (Hlt : Z.of_nat (length (take (Z.to_nat k) ws)) = k) by (rewrite length_take; lia).
  assert (Hne : blk (arr ba) <> blk p) by congruence.
  exists p, (gfree (arr ba) (<[blk p := ws']> m)), ws'. unfold gfree. split_and!; try done.
  - unfold holds. simpl. rewrite lookup_delete_ne, lookup_insert_eq by done.
    split_and!; [done|done| |].
    + apply Forall_app_2; [by apply Forall_take|by apply Forall_drop].
    + subst ws'. rewrite length_app, length_drop. lia.
  - intros i Hi. subst ws'. rewrite bitz_app_l by lia. apply bitz_take. lia.
  - by rewrite lookup_delete_eq.
  - intros b Hb Hp. by rewrite lookup_delete_ne, lookup_insert_ne.
Qed.

(** The structure moves to a new block. *)
Lemma resized_realloc m ba bs new_cap sz C :
  repr m ba bs -> 0 <= sz < 2 ^ 64 - 64 -> capacity_for sz <= new_cap -> new_cap mod 8 = 0 ->
  C new_cap ->
  resized m ba bs sz C
    ('(ba, m) ← bitarray_realloc ba new_cap sz m; Some (set_size ba sz, m)).
Proof.
  intros (Hz & ws & Hb & L & ->) Hs Hc H8 HC.
  destruct (realloc_spec _ _ _ new_cap sz Hb Hz L Hs Hc H8)
    as (p & m' & ws' & -> & Hb' & Hbits & Hp & Hf & Ho). simpl.
  exists (contents ws' sz). split_and!.
  { apply length_contents. }
  { apply contents_common; [lia|lia|]. intros i Hi. apply Hbits. lia. }
  exists (mk_bitarray new_cap sz p), m'. split_and!; try done.
  - split; [done|]. exists ws'. split_and!; [done| |done].
    apply (capacity_fits sz); [done|]. destruct Hb' as (_ & _ & _ & Hcap). cbn [cap] in Hcap. lia.
  - right. split; [done|]. intros i. by apply load_freed.
Qed.

Lemma repr_cap m ba bs :
  repr m ba bs -> 0 <= cap ba /\ cap ba mod 8 = 0 /\ capacity_for (size ba) <= cap ba.
Proof.
  intros (Hz & ws & (_ & _ & _ & ->) & L & _). split_and!; [lia| |by apply size_capacity].
  rewrite Z.mul_comm. by apply Z.mod_mul.
Qed.

Lemma bind_if {A B : Type} (b : bool) (x y : option A) (f : A -> option B) :
  ((if b then x else y) ≫= f) = if b then x ≫= f else y ≫= f.
Proof. by destruct b. Qed.

(** The capacities asked for are multiples of the word size and large enough. *)
Lemma capacity_mod n : 0 <= n < 2 ^ 64 - 64 -> capacity_for n mod 8 = 0 /\ 0 <= capacity_for n < 2 ^ 62.
Proof.
  intros Hn. destruct (capacity_words n Hn) as (k & -> & Hk & Hs & _).
  split; [rewrite Z.mul_comm; by apply Z.mod_mul|lia].
Qed.

Lemma grown_cap c n :
  0 <= n < 2 ^ 64 - 64 -> 0 <= c -> c mod 8 = 0 -> c < capacity_for n ->
  let c' := cu_size_max (capacity_for n) (wrap (c * 2)) in
  c' mod 8 = 0 /\ capacity_for n <= c' <= 2 * capacity_for n /\ 2 * c <= c'.
Proof.
  intros Hn Hc H8 Hl. destruct (capacity_mod n Hn) as [Hm Hb].
  rewrite wrap_small by (unfold word; lia). unfold cu_size_max.
  destruct (Z.ltb_spec (c * 2) (capacity_for n)); split_and!; try lia.
  rewrite Z.mul_mod, H8 by done. done.
Qed.

Section policies.
Context (m : mem) (ba : bitarray) (bs : list bool) (sz : Z).
Context (Hr : repr m ba bs) (Hs : 0 <= sz < 2 ^ 64 - 64).

Lemma resize_gp_spec :
  resized m ba bs sz
    (fun c => capacity_for sz <= c <= 2 * capacity_for sz /\
       (cap ba < capacity_for sz -> 2 * cap ba <= c))
    (cucon_bitarray_resize_gp ba sz m).
Proof.
  destruct (repr_cap _ _ _ Hr) as (Hc0 & Hc8 & _). destruct (capacity_mod sz Hs) as [H8 Hb].
  unfold cucon_bitarray_resize_gp. cbn zeta. rewrite !bind_if.
  rewrite (wrap_small (capacity_for sz * 2)) by (unfold word; lia).
  destruct (Z.ltb_spec (cap ba) (capacity_for sz));
    [|destruct (Z.ltb_spec (capacity_for sz * 2) (cap ba))].
  - destruct (grown_cap (cap ba) sz Hs Hc0 Hc8) as (? & ? & ?); [done|].
    apply resized_realloc; auto; lia.
  - apply resized_realloc; auto; lia.
  - apply resized_same; auto; lia.
Qed.

Lemma resize_gpmax_spec :
  resized m ba bs sz
    (fun c => capacity_for sz <= c /\ cap ba <= c /\ (c = cap ba \/ c <= 2 * capacity_for sz) /\
       (cap ba < capacity_for sz -> 2 * cap ba <= c))
    (cucon_bitarray_resize_gpmax ba sz m).
Proof.
  destruct (repr_cap _ _ _ Hr) as (Hc0 & Hc8 & _).
  unfold cucon_bitarray_resize_gpmax. cbn zeta. rewrite !bind_if.
  destruct (Z.ltb_spec (cap ba) (capacity_for sz)).
  - destruct (grown_cap (cap ba) sz Hs Hc0 Hc8) as (? & ? & ?); [done|].
    apply resized_realloc; auto; lia.
  - apply resized_same; auto; lia.
Qed.

Lemma resize_exact_spec :
  resized m ba bs sz (fun c => c = capacity_for sz) (cucon_bitarray_resize_exact ba sz m).
Proof.
  destruct (capacity_mod sz Hs) as [H8 Hb].
  unfold cucon_bitarray_resize_exact. cbn zeta. rewrite !bind_if.
  destruct (Z.eqb_spec (capacity_for sz) (cap ba)); simpl;
    [apply resized_same|apply resized_realloc]; auto; lia.
Qed.

Lemma resize_exactmax_spec :
  resized m ba bs sz (fun c => c = Z.max (capacity_for sz) (cap ba))
    (cucon_bitarray_resize_exactmax ba sz m).
Proof.
  destruct (capacity_mod sz Hs) as [H8 Hb].
  unfold cucon_bitarray_resize_exactmax. cbn zeta. rewrite !bind_if.
  destruct (Z.ltb_spec (cap ba) (capacity_for sz));
    [apply resized_realloc|apply resized_same]; auto; lia.
Qed.

End policies.

(** C30: Each of the four resizing functions answers a structure of the new size
    that holds the common prefix of the old list, with a capacity as its policy
    says: at least what the new size needs; exactly that ([resize_exact]); the
    old capacity if that is enough ([resize_exactmax], [resize_gpmax]); within a
    factor two of what is needed, at least doubled when it grows ([resize_gp],
    [resize_gpmax]).  When the words have moved, the old block is freed, and a
    later access through the old pointer is an error. *)
Theorem bitarray_resize_correct m ba bs sz :
  repr m ba bs -> 0 <= sz < 2 ^ 64 - 64 ->
  let need := capacity_for sz in
  let grows c := cap ba < need -> 2 * cap ba <= c in
  resized m ba bs sz (fun c => need <= c <= 2 * need /\ grows c)
    (cucon_bitarray_resize_gp ba sz m) /\
  resized m ba bs sz (fun c => need <= c /\ cap ba <= c /\ (c = cap ba \/ c <= 2 * need) /\ grows c)
    (cucon_bitarray_resize_gpmax ba sz m) /\
  resized m ba bs sz (fun c => c = need) (cucon_bitarray_resize_exact ba sz m) /\
  resized m ba bs sz (fun c => c = Z.max need (cap ba)) (cucon_bitarray_resize_exactmax ba sz m).
Proof.
  intros Hr Hs need grows. split_and!; [by apply resize_gp_spec|by apply resize_gpmax_spec|
    by apply resize_exact_spec|by apply resize_exactmax_spec].
Qed.

End resizing.

(** ** An allocator *)

(** The least number above those of the blocks. *)
Definition next_block (m : mem) : N := N.succ (foldr N.max 0%N (fst <$> map_to_list m)).

Lemma next_block_fresh (m : mem) : m !! next_block m = None.
Proof.
  destruct (m !! next_block m) as [ws|] eqn:E; [|done].
  assert (Hin : forall ks k, k ∈ ks -> (k <= foldr N.max 0 ks)%N).
  { induction ks as [|x ks IH]; intros k; rewrite ?elem_of_nil, ?elem_of_cons; [done|].
    intros [->|Hk]; simpl; [lia|]. specialize (IH _ Hk). lia. }
  apply elem_of_map_to_list, (list_elem_of_fmap_2 fst) in E. simpl in E.
  apply Hin in E. unfold next_block in E. lia.
Qed.

#[export] Program Instance next_allocator : Allocator := {|
  galloc n m := (Ptr (next_block m) 0, <[next_block m := replicate (Z.to_nat (n / 8)) 0]> m) |}.
Next Obligation.
  intros n m Hn H8. split_and!; [done|apply next_block_fresh|].
  exists (replicate (Z.to_nat (n / 8)) 0). rewrite length_replicate.
  split_and!; [done| |done]. by apply Forall_replicate.
Qed.

Lemma bitarray_resize_correct_witness :
  resized sample_mem sample_ba (contents sample_words 70) 200 (fun c => c = capacity_for 200)
    (cucon_bitarray_resize_exact sample_ba 200 sample_mem).
Proof.
  exact (proj1 (proj2 (proj2 (bitarray_resize_correct sample_mem sample_ba _ 200 sample_repr
                                ltac:(lia))))).
Defined.
