(* ===== verification/BitarrayImg.v ===== *)
(** * Arrays of bits: filling resizes and boolean images

    A resize that fills gives the bits beyond the old size a value.  The image of
    one or two arrays under an enumerated boolean function is computed word by word
    by [cu/wordarr.c], in a new array or in place. *)

From S2P Require Export BitarrayResize.

(** ** Resizing with a value for the new elements *)

(** The list cut or extended to the length [n]. *)
Definition extend (n : Z) (v : bool) (bs : list bool) : list bool :=
  take (Z.to_nat n) bs ++ replicate (Z.to_nat n - length bs) v.

Lemma length_extend n v bs : length (extend n v bs) = Z.to_nat n.
Proof. unfold extend. rewrite length_app, length_take, length_replicate. lia. Qed.

Lemma extend_shrink n v bs bs' :
  0 <= n <= Z.of_nat (length bs) -> length bs' = Z.to_nat n ->
  take (Nat.min (length bs) (length bs')) bs' = take (Nat.min (length bs) (length bs')) bs ->
  bs' = extend n v bs.
Proof.
  intros Hn Hl Ht. unfold extend. rewrite Nat.min_r in Ht by lia.
  rewrite firstn_all in Ht. rewrite Ht, Hl.
  by replace (Z.to_nat n - length bs)%nat with 0%nat by lia; rewrite app_nil_r.
Qed.

Lemma extend_grow n v bs bs' :
  Z.of_nat (length bs) <= n -> length bs' = Z.to_nat n ->
  take (Nat.min (length bs) (length bs')) bs' = take (Nat.min (length bs) (length bs')) bs ->
  fill_list (Z.of_nat (length bs)) n v bs' = extend n v bs.
Proof.
  intros Hn Hl Ht. rewrite Nat.min_l, firstn_all in Ht by lia.
  unfold fill_list, extend. rewrite Nat2Z.id, Ht, (drop_ge bs') by lia.
  rewrite (take_ge bs) by lia. rewrite app_nil_r. do 2 f_equal. lia.
Qed.

(** An update of the words of a moved structure. *)
Lemma moved_update m ba bs' bs2 C r (f : bitarray -> mem -> option mem) :
  is_Some (m !! blk (arr ba)) -> moved m ba bs' C r ->
  (forall ba' m', repr m' ba' bs' ->
     exists m2, f ba' m' = Some m2 /\ repr m2 ba' bs2 /\ others (arr ba') m' m2) ->
  moved m ba bs2 C ('(ba', m') ← r; m2 ← f ba' m'; Some (ba', m2)).
Proof.
  intros [l Hm] (ba' & m' & -> & Hr & HC & Hold & Ho) Hf. simpl.
  destruct (Hf _ _ Hr) as (m2 & -> & Hr2 & Ho2). simpl.
  exists ba', m2. split_and!; try done.
  - destruct Hold as [?|[Hn Hl]]; [by left|right]. split; [done|]. intros i.
    assert (blk (arr ba) <> blk (arr ba')) by congruence.
    rewrite <- (Hl i). unfold load. by rewrite Ho2.
  - intros b Hb Hb'. rewrite Ho2 by done. by apply Ho.
Qed.

Lemma repr_block m ba bs : repr m ba bs -> is_Some (m !! blk (arr ba)).
Proof. intros (_ & ws & (_ & -> & _) & _). by eexists. Qed.

Lemma fill_repr m ba bs i j v :
  repr m ba bs -> 0 <= i <= j -> j <= Z.of_nat (length bs) ->
  exists m', cucon_bitarray_fill ba i j v m = Some m' /\
    repr m' ba (fill_list i j v bs) /\ others (arr ba) m m'.
Proof.
  intros (Hz & ws & Hb & Hs & ->) Hi Hj. rewrite length_contents in Hj.
  destruct (fill_words _ _ _ i j v Hb) as (ws' & -> & Hw); [lia..|].
  eexists. split_and!; [done| |apply others_put]. apply repr_sets; auto; lia.
Qed.

Lemma set_at_repr m ba bs i v :
  repr m ba bs -> 0 <= i < Z.of_nat (length bs) ->
  exists m', cucon_bitarray_set_at ba i v m = Some m' /\
    repr m' ba (<[Z.to_nat i := v]> bs) /\ others (arr ba) m m'.
Proof.
  intros (Hz & ws & Hb & Hs & ->) Hi. rewrite length_contents in Hi.
  destruct (set_at_words _ _ _ i v Hb) as (ws' & -> & Hw); [lia|].
  eexists. split_and!; [done| |apply others_put].
  rewrite <- fill_list_one by (rewrite length_contents; lia). apply repr_sets; auto; lia.
Qed.

Section fills.
Context `{Allocator}.

(** A resize followed by the filling of the new elements. *)
Lemma resized_fill m ba bs sz v C r :
  repr m ba bs -> 0 <= sz -> resized m ba bs sz C r ->
  moved m ba (extend sz v bs) C
    ('(ba', m') ← r;
     m2 ← (if size ba <? sz then cucon_bitarray_fill ba' (size ba) sz v m' else Some m');
     Some (ba', m2)).
Proof.
  intros Hr Hs (bs' & Hl & Ht & Hm). cbn zeta in Ht.
  apply (moved_update _ _ bs' _ _ _ (fun ba' m' =>
    if size ba <? sz then cucon_bitarray_fill ba' (size ba) sz v m' else Some m'));
    [by eapply repr_block|done|].
  intros ba' m' Hr'. pose proof (repr_length _ _ _ Hr) as E.
  destruct (Z.ltb_spec (size ba) sz).
  - rewrite E, <- (extend_grow sz v bs bs') by (done || lia). apply fill_repr; [done|lia|lia].
  - exists m'. split_and!; [done| |done]. rewrite <- (extend_shrink sz v bs bs'); [done|lia|done..].
Qed.

Lemma bind_fill (b : bool) (r : option (bitarray * mem)) (f : bitarray -> mem -> option mem) :
  ('(ba, m) ← r; if b then m ← f ba m; Some (ba, m) else Some (ba, m)) =
  ('(ba, m) ← r; m2 ← (if b then f ba m else Some m); Some (ba, m2)).
Proof. destruct r as [[ba m]|]; [|done]. simpl. by destruct b. Qed.

(** [cucon_bitarray_resize_fill_gp] and [cucon_bitarray_resize_fill_exact] give
    the list cut or extended with the fill value to the new length;
    [cucon_bitarray_resize_set_at] resizes to [i + 1] bits (so that it also cuts a
    longer array) and sets the last one.  The capacities are those of the resizing
    functions. *)
Theorem bitarray_resize_fill_correct m ba bs sz v w :
  repr m ba bs -> 0 <= sz -> sz + 1 < 2 ^ 64 - 64 ->
  moved m ba (extend sz v bs) (fun c => capacity_for sz <= c <= 2 * capacity_for sz /\ (cap ba < capacity_for sz -> 2 * cap ba <= c))
    (cucon_bitarray_resize_fill_gp ba sz v m) /\
  moved m ba (extend sz v bs) (fun c => c = capacity_for sz)
    (cucon_bitarray_resize_fill_exact ba sz v m) /\
  moved m ba (<[Z.to_nat sz := w]> (extend (sz + 1) v bs))
    (fun c => capacity_for (sz + 1) <= c <= 2 * capacity_for (sz + 1) /\
       (cap ba < capacity_for (sz + 1) -> 2 * cap ba <= c))
    (cucon_bitarray_resize_set_at ba sz v w m).
Proof.
  intros Hr Hs Hb. split_and!.
  - unfold cucon_bitarray_resize_fill_gp. cbn zeta. rewrite bind_fill. apply resized_fill; [done..|].
    by apply resize_gp_spec; [|lia].
  - unfold cucon_bitarray_resize_fill_exact. cbn zeta. rewrite bind_fill.
    apply resized_fill; [done..|]. by apply resize_exact_spec; [|lia].
  - unfold cucon_bitarray_resize_set_at. cbn zeta.
    assert (wadd sz 1 = sz + 1) as -> by (apply wrap_small; unfold word; lia).
    pose proof (resized_fill m ba bs (sz + 1) v _ _ Hr ltac:(lia)
                  (resize_gp_spec m ba bs (sz + 1) Hr ltac:(lia))) as Hf.
    apply (moved_update _ _ _ (<[Z.to_nat sz := w]> (extend (sz + 1) v bs)) _ _
             (fun ba' m' => cucon_bitarray_set_at ba' sz w m')) in Hf.
    + revert Hf. destruct (cucon_bitarray_resize_gp ba (sz + 1) m) as [[ba' m']|]; [|done].
      simpl. destruct (Z.leb_spec (size ba) sz), (Z.ltb_spec (size ba) (sz + 1)); try lia; [|done].
      by destruct (cucon_bitarray_fill ba' (size ba) (sz + 1) v m').
    + by eapply repr_block.
    + intros ba' m' Hr'. apply set_at_repr; [done|]. rewrite length_extend. lia.
Qed.

End fills.

(** Setting an element of a longer array cuts it. *)
Lemma resize_set_at_cuts :
  exists ba' m', cucon_bitarray_resize_set_at sample_ba 3 false true sample_mem = Some (ba', m') /\
    size sample_ba = 70 /\ size ba' = 4.
Proof. by vm_compute; eauto. Qed.

(** ** Images *)

Lemma words_of_size_spec sz :
  0 <= sz < 2 ^ 64 - 64 ->
  sz <= 64 * Z.of_nat (words_of_size sz) /\ 8 * Z.of_nat (words_of_size sz) = capacity_for sz.
Proof.
  intros Hz. destruct (capacity_for_eq sz Hz) as [E Hk]. unfold words_of_size. rewrite E.
  rewrite Z2Nat.id by lia. lia.
Qed.

Lemma words_fit sz (ws : list Z) :
  0 <= sz < 2 ^ 64 - 64 -> sz <= 64 * Z.of_nat (length ws) -> (words_of_size sz <= length ws)%nat.
Proof.
  intros Hz Hl. destruct (words_of_size_spec sz Hz) as [_ E].
  pose proof (size_capacity sz ws Hz Hl). lia.
Qed.

Lemma no_clobber_holds m ba ba' ws ws' :
  holds m ba ws -> holds m ba' ws' -> no_clobber (arr ba) (arr ba').
Proof. intros (E & _) (E' & _). right. by rewrite E, E'. Qed.

(** Words stored at the start of a structure. *)
Lemma store_words m ba ws out :
  holds m ba ws -> (length out <= length ws)%nat ->
  store_n m (arr ba) out = Some (put m ba (out ++ drop (length out) ws)).
Proof.
  intros (Ho & Hm & _) Hl. rewrite (store_n_block _ _ ws) by (done || lia). by rewrite Ho.
Qed.

(** The structure after an image of its first [n] words, computed by [b]. *)
Definition imaged (m : mem) (ba : bitarray) (n : nat) (b : Z -> bool) (r : option mem) : Prop :=
  exists ws', r = Some (put m ba ws') /\ holds (put m ba ws') ba ws' /\
    forall i, 0 <= i < 64 * Z.of_nat n -> bitz ws' i = b i.

Lemma imaged_store m ba ws n out b :
  holds m ba ws -> length out = n -> (n <= length ws)%nat -> Forall word out ->
  (forall i, 0 <= i < 64 * Z.of_nat n -> bitz out i = b i) ->
  imaged m ba n b (store_n m (arr ba) out).
Proof.
  intros Hb Hl Hn Hw He. rewrite (store_words _ _ ws) by (done || lia).
  exists (out ++ drop (length out) ws). split_and!; [done| |].
  - apply (holds_put _ _ ws); [done| |].
    + rewrite length_app, length_drop. lia.
    + apply Forall_app_2; [done|]. apply Forall_drop, Hb.
  - intros i Hi. rewrite bitz_app_l by lia. by apply He.
Qed.

Lemma Forall_zip_words g xs ys :
  (forall x y, word x -> word y -> word (g x y)) -> Forall word xs -> Forall word ys ->
  Forall word (zip_with g xs ys).
Proof.
  intros Hg Hx. revert ys. induction Hx as [|x xs Wx _ IH]; intros [|y ys] Hy; simpl; try constructor.
  - apply Hg; [done|]. by apply Forall_cons_1 in Hy as [? _].
  - apply IH. by apply Forall_cons_1 in Hy as [_ ?].
Qed.

Lemma image2_words f m ba a0 a1 ws ws0 ws1 n :
  code2 f -> holds m ba ws -> holds m a0 ws0 -> holds m a1 ws1 ->
  (n <= length ws)%nat -> (n <= length ws0)%nat -> (n <= length ws1)%nat ->
  imaged m ba n (fun i => fun2 f (bitz ws0 i) (bitz ws1 i))
    (cu_wordarr_copy_bitimg2 f n (arr ba) (arr a0) (arr a1) m).
Proof.
  intros Hf Hb H0 H1 Hn Hn0 Hn1.
  destruct (copy_bitimg2_images f n (arr ba) (arr a0) (arr a1) m _ _ Hf
              (load_words _ _ _ _ H0 Hn0) (load_words _ _ _ _ H1 Hn1)) as (g & Hg & ->);
    [by eapply no_clobber_holds..|].
  apply (imaged_store _ _ ws); [done|rewrite length_zip_with, !length_take; lia|done| |].
  - apply Forall_zip_words; [apply Hg| |]; apply Forall_take; [apply H0|apply H1].
  - intros i Hi. rewrite (bitz_zip g f) by (rewrite ?length_take; done || lia).
    by rewrite !bitz_take by lia.
Qed.

Lemma map_id_words (xs : list Z) : map (fun w => w) xs = xs.
Proof. induction xs; simpl; congruence. Qed.

Lemma copy_bitimg_image f n dst src m xs :
  code1 f -> load_n m src n = Some xs -> no_clobber dst src ->
  exists g, bitop1 g f /\ cu_wordarr_copy_bitimg f n dst src m = store_n m dst (map g xs).
Proof.
  intros Hf Hl Hc. pose proof (load_n_length _ _ _ _ Hl) as El.
  code_cases Hf; simpl; unfold cu_wordarr_copy, cu_wordarr_copy_bitnot.
  all: first
    [ rewrite (map_loop_spec _ _ _ src _ xs) by done; eexists; split; [|done]; solve_bitop
    | rewrite fill_spec, <- El, <- map_const; eexists; split; [|done]; solve_bitop ].
Qed.

Lemma image1_words f m ba a ws ws0 n :
  code1 f -> holds m ba ws -> holds m a ws0 -> (n <= length ws)%nat -> (n <= length ws0)%nat ->
  imaged m ba n (fun i => fun1 f (bitz ws0 i)) (cu_wordarr_copy_bitimg f n (arr ba) (arr a) m).
Proof.
  intros Hf Hb H0 Hn Hn0.
  destruct (copy_bitimg_image f n (arr ba) (arr a) m _ Hf (load_words _ _ _ _ H0 Hn0))
    as (g & Hg & ->); [by eapply no_clobber_holds|].
  apply (imaged_store _ _ ws); [done|rewrite length_map, length_take; lia|done| |].
  - apply Forall_fmap. apply (Forall_impl _ (P := word)); [apply Hg|]. apply Forall_take, H0.
  - intros i Hi. rewrite (bitz_map g f) by (rewrite ?length_take; done || lia).
    by rewrite bitz_take by lia.
Qed.

(** The contents of a structure after an image. *)
Lemma imaged_repr m ba n b r sz :
  imaged m ba n b r -> size ba = sz -> 0 <= sz < 2 ^ 64 - 64 -> sz <= 64 * Z.of_nat n ->
  cap ba >= capacity_for sz ->
  exists m', r = Some m' /\ repr m' ba (map b (seqZ 0 sz)) /\ others (arr ba) m m'.
Proof.
  intros (ws' & -> & Hb & He) Hsz Hz Hn Hc. eexists. split_and!; [done| |apply others_put].
  split; [by rewrite Hsz|]. exists ws'. split_and!; [done| |].
  - rewrite Hsz. apply capacity_fits; [done|]. destruct Hb as (_ & _ & _ & E). lia.
  - rewrite Hsz. symmetry. unfold contents. apply List.map_ext_in.
    intros i Hi. apply He. apply list_elem_of_In, elem_of_seqZ in Hi. lia.
Qed.

Lemma contents_map1 f ws sz :
  map (fun i => fun1 f (bitz ws i)) (seqZ 0 sz) = map (fun1 f) (contents ws sz).
Proof. unfold contents. by rewrite map_map. Qed.

Lemma contents_map2 f ws0 ws1 s0 s1 :
  0 <= s0 -> 0 <= s1 ->
  map (fun i => fun2 f (bitz ws0 i) (bitz ws1 i)) (seqZ 0 (Z.min s0 s1)) =
    zip_with (fun2 f) (contents ws0 s0) (contents ws1 s1).
Proof.
  intros H0 H1. apply list_eq. intros k. rewrite lookup_zip_with.
  destruct (decide (Z.of_nat k < Z.min s0 s1)) as [Hk|Hk].
  - rewrite !lookup_contents_nat by lia. simpl.
    rewrite list_lookup_fmap, (proj2 (lookup_seqZ 0 (Z.min s0 s1) k (Z.of_nat k))) by lia. done.
  - rewrite lookup_ge_None_2 by (rewrite length_map, length_seqZ; lia).
    destruct (decide (s0 <= s1)).
    + by rewrite (lookup_ge_None_2 (contents ws0 s0)) by (rewrite length_contents; lia).
    + rewrite (lookup_ge_None_2 (contents ws1 s1)) by (rewrite length_contents; lia).
      by destruct (contents ws0 s0 !! k).
Qed.

Section images.
Context `{Allocator}.

Lemma holds_frame m m' ba ba' ws :
  holds m ba ws -> m !! blk (arr ba') = None -> others (arr ba') m m' -> holds m' ba ws.
Proof.
  intros (Ho & Hm & Hr) Hn Hf. unfold holds. rewrite Hf; [done|]. congruence.
Qed.

(** An image into a new structure. *)
Lemma init_imaged m sz b (F : bitarray -> mem -> option mem) :
  0 <= sz < 2 ^ 64 - 64 ->
  (forall ba ws, holds (put m ba ws) ba ws -> size ba = sz -> m !! blk (arr ba) = None ->
     sz <= 64 * Z.of_nat (length ws) -> (words_of_size sz <= length ws)%nat ->
     imaged (put m ba ws) ba (words_of_size sz) b (F ba (put m ba ws))) ->
  creates m (map b (seqZ 0 sz))
    (let '(ba, m) := cucon_bitarray_init sz m in m ← F ba m; Some (ba, m)).
Proof.
  intros Hz HF. destruct (bitarray_init_spec m sz Hz) as [ws Hi].
  destruct (cucon_bitarray_init sz m) as [ba m'] eqn:E. clear E.
  destruct Hi as (Hb & Hs & Hc & Hf & ->). destruct (words_of_size_spec sz Hz) as [Hw Hw8].
  assert (Hcap := Hb). destruct Hcap as (_ & _ & _ & Hcap).
  destruct (imaged_repr _ _ _ _ _ sz (HF ba ws Hb Hs Hf ltac:(lia) ltac:(lia)) Hs Hz Hw)
    as (m2 & -> & Hr & Ho); [lia|]. simpl.
  exists ba, m2. split_and!; [done..|]. intros b' Hb'. rewrite Ho by done. by apply others_put.
Qed.

(** The images of one and of two arrays under an enumerated boolean function
    are its images of the lists, in a new array or in place of the first one; the
    length is the shorter one, and in place it is that of the first, which must
    not be longer than the second.  In place, the two arrays may be the same. *)
Theorem bitarray_image_correct m f1 f ba0 ba1 bs0 bs1 :
  code1 f1 -> code2 f -> repr m ba0 bs0 -> repr m ba1 bs1 ->
  creates m (map (fun1 f1) bs0) (cucon_bitarray_init_img_bool1f f1 ba0 m) /\
  creates m (zip_with (fun2 f) bs0 bs1) (cucon_bitarray_init_img_bool2f f ba0 ba1 m) /\
  (exists m', cucon_bitarray_update_img_bool1f f1 ba0 m = Some m' /\
     repr m' ba0 (map (fun1 f1) bs0) /\ others (arr ba0) m m') /\
  (size ba0 <= size ba1 -> exists m', cucon_bitarray_update_img_bool2f f ba0 ba1 m = Some m' /\
     repr m' ba0 (zip_with (fun2 f) bs0 bs1) /\ others (arr ba0) m m').
Proof.
  intros F1 F2 R0 R1. pose proof (repr_cap _ _ _ R0) as (_ & _ & C0).
  destruct R0 as (Hz0 & ws0 & H0 & L0 & ->), R1 as (Hz1 & ws1 & H1 & L1 & ->).
  pose proof (words_fit _ _ Hz0 L0) as W0. pose proof (words_fit _ _ Hz1 L1) as W1.
  destruct (words_of_size_spec _ Hz0) as [S0 _].
  split_and!.
  - rewrite <- contents_map1.
    apply (init_imaged m (size ba0) _ (fun ba m =>
             cu_wordarr_copy_bitimg f1 (words_of_size (size ba)) (arr ba) (arr ba0) m)); [done|].
    intros ba ws Hb Es Hn Hl Hw. rewrite Es.
    apply (image1_words _ _ _ _ ws); [done|done| |done|done].
    by apply (holds_frame m _ _ ba); [..|apply others_put].
  - rewrite <- contents_map2 by lia. unfold cucon_bitarray_init_img_bool2f, cucon_bitarray_size.
    assert (E : cu_size_min (size ba0) (size ba1) = Z.min (size ba0) (size ba1))
      by (unfold cu_size_min; bits_split; lia).
    rewrite E. cbn zeta.
    apply (init_imaged m (Z.min (size ba0) (size ba1)) _ (fun ba m => cu_wordarr_copy_bitimg2 f
             (words_of_size (Z.min (size ba0) (size ba1))) (arr ba) (arr ba0) (arr ba1) m)); [lia|].
    intros ba ws Hb Es Hn Hl Hw.
    apply (image2_words _ _ _ _ _ ws); [done|done| | |done|..].
    + by apply (holds_frame m _ _ ba); [..|apply others_put].
    + by apply (holds_frame m _ _ ba); [..|apply others_put].
    + apply words_fit; lia.
    + apply words_fit; lia.
  - rewrite <- contents_map1. apply (imaged_repr _ _ (words_of_size (size ba0))); [|done..|lia].
    by apply (image1_words _ _ _ _ ws0).
  - intros Hle. rewrite <- contents_map2 by lia. rewrite Z.min_l by lia.
    apply (imaged_repr _ _ (words_of_size (size ba0))); [|done..|lia].
    apply (image2_words _ _ _ _ _ ws0); [done..|]. apply words_fit; lia.
Qed.

End images.
