(* ===== verification/Rbtree.v ===== *)
(** * Red-black trees: [cucon/rbtree.h], [cucon/rbtree.c]

    Nodes live in a heap, a finite map from addresses; a function that reads or
    writes nodes runs in a monad [M] of heaps with errors.  An error is an access
    through a pointer to no node, a failed [assert], or an access outside the
    stack that an update allocates for the path to a node.

    The two orientations of a step are one definition with a direction: the text of
    the C functions has both, mirror images of each other. *)

From stdpp Require Export gmap.
From S2P Require Export Int.

(** ** Nodes and the heap *)

Record rbnode (V : Type) := mk_rbnode { is_black : Z; lchild : N; rchild : N; slot : V }.
Arguments mk_rbnode {V}.
Arguments is_black {V}.
Arguments lchild {V}.
Arguments rchild {V}.
Arguments slot {V}.

Abbreviation heap V := (gmap N (rbnode V)).
Definition NULL : N := 0.

Inductive dir := L | R.
Definition flip (d : dir) : dir := match d with L => R | R => L end.

(** A state monad of heaps with errors. *)
Definition M (V A : Type) : Type := heap V -> option (A * heap V).

#[global] Instance M_ret V : MRet (M V) := fun A a h => Some (a, h).
#[global] Instance M_bind V : MBind (M V) := fun A B k m h =>
  match m h with Some (a, h) => k a h | None => None end.

Definition lift {V A} (o : option A) : M V A := fun h => a ← o; Some (a, h).
Definition cassert {V} (b : bool) : M V unit := fun h => if b then Some (tt, h) else None.
Definition get_heap {V} : M V (heap V) := fun h => Some (h, h).

(** What the trees use of the slot of a node: new slots are zeroed, and the
    functions for keys behind pointers use the leading pointer of a slot. *)
Class Slot (V : Type) := {
  zero_slot : V;
  slot_ptr : V -> Z;
  set_slot_ptr : Z -> V -> V;
  slot_ptr_set k v : slot_ptr (set_slot_ptr k v) = k;
}.

(** [cu_galloc] returns the address of a new node, zeroed. *)
Class NodeAlloc (V : Type) := {
  new_addr : heap V -> N;
  new_addr_spec h : new_addr h <> NULL /\ h !! new_addr h = None;
}.

Section nodes.
Context {V : Type}.
Implicit Types (p q : N) (sp : list N).

Definition node p : M V (rbnode V) := fun h =>
  if (p =? NULL)%N then None else n ← h !! p; Some (n, h).

Definition set_node p (n : rbnode V) : M V unit := fun h => Some (tt, <[p := n]> h).

Definition child (d : dir) (n : rbnode V) : N := match d with L => lchild n | R => rchild n end.

Definition CHILD (d : dir) p : M V N := n ← node p; mret (child d n).
Definition LEFT p : M V N := CHILD L p.
Definition RIGHT p : M V N := CHILD R p.

Definition with_child (d : dir) q (n : rbnode V) : rbnode V :=
  match d with
  | L => mk_rbnode (is_black n) q (rchild n) (slot n)
  | R => mk_rbnode (is_black n) (lchild n) q (slot n)
  end.

Definition SET_CHILD (d : dir) p q : M V unit := n ← node p; set_node p (with_child d q n).
Definition SET_LEFT p q : M V unit := SET_CHILD L p q.
Definition SET_RIGHT p q : M V unit := SET_CHILD R p q.

Definition COLOUR p : M V Z := n ← node p; mret (is_black n).
Definition SET_COLOUR p (c : Z) : M V unit :=
  n ← node p; set_node p (mk_rbnode c (lchild n) (rchild n) (slot n)).
Definition IS_BLACK p : M V bool := c ← COLOUR p; mret (negb (c =? 0)).
Definition IS_RED p : M V bool := b ← IS_BLACK p; mret (negb b).
Definition BECOME_BLACK p : M V unit := SET_COLOUR p 1.
Definition BECOME_RED p : M V unit := SET_COLOUR p 0.

Definition cucon_rbnode_mem p : M V V := n ← node p; mret (slot n).
Definition set_mem p (v : V) : M V unit :=
  n ← node p; set_node p (mk_rbnode (is_black n) (lchild n) (rchild n) v).

(** [p && IS_RED(p)] and [!p || IS_BLACK(p)] *)
Definition is_red_node p : M V bool := if (p =? NULL)%N then mret false else IS_RED p.
Definition is_nil_or_black p : M V bool := if (p =? NULL)%N then mret true else IS_BLACK p.

Definition cucon_rbtree_size (root : N) : M V Z := if (root =? NULL)%N then mret 0 else COLOUR root.
Definition cucon_rbtree_is_empty (root : N) : bool := (root =? NULL)%N.

(** ** The stack

    [sp[0]] is the head of the list, [sp[-1]] and below are not kept; the last
    entry is the [NULL] before the root.  [cap] is the number of entries allocated. *)

Definition peek sp (i : nat) : M V N := lift (sp !! i).
Definition poke sp (i : nat) q : M V (list N) :=
  lift (if decide (i < length sp)%nat then Some (<[i := q]> sp) else None).
Definition push (cap : nat) q sp : M V (list N) :=
  lift (if decide (length sp < cap)%nat then Some (q :: sp) else None).

(** [*sp_root]: the entry next to the last. *)
Definition sp_root sp : list N := drop (length sp - 2) sp.

Definition stack_size (tree_size : Z) : nat :=
  Z.to_nat (2 * cu_ulong_floor_log2 (wadd tree_size 1) + 3).

(** ** Rotations *)

(** [rotate R] is [cuconP_rbnode_rotate_right(sp + k)]: [z = sp[k]] goes down to
    the right of its left child. *)
Definition rotate (d : dir) sp (k : nat) : M V (list N) :=
  z ← peek sp k;
  x ← CHILD (flip d) z;
  xr ← CHILD d x;
  SET_CHILD (flip d) z xr;;
  p ← peek sp (S k);
  (if (p =? NULL)%N then mret tt
   else
     r ← RIGHT p;
     if (r =? z)%N then SET_RIGHT p x else SET_LEFT p x);;
  SET_CHILD d x z;;
  poke sp k x.

Definition rotate_right sp (k : nat) : M V (list N) := rotate R sp k.
Definition rotate_left sp (k : nat) : M V (list N) := rotate L sp k.

(** ** Insertion *)

(** One turn of the loop when [sp[1]] is the child [d] of [sp[2]]. *)
Definition rebalance_step (d : dir) sp : M V (list N) :=
  p ← peek sp 1;
  g ← peek sp 2;
  y ← CHILD (flip d) g;
  r ← is_red_node y;
  if r : bool then
    BECOME_BLACK p;;
    BECOME_BLACK y;;
    BECOME_RED g;;
    mret (drop 2 sp)
  else
    s0 ← peek sp 0;
    q ← CHILD (flip d) p;
    sp ← (if (s0 =? q)%N then rotate d sp 1 else mret sp);
    p ← peek sp 1;
    BECOME_BLACK p;;
    BECOME_RED g;;
    rotate (flip d) sp 2.

(** [while (sp[1] && IS_RED(sp[1]))] *)
Fixpoint rebalance_loop (fuel : nat) sp : M V (list N) :=
  match fuel with
  | O => lift None
  | S fuel =>
      p ← peek sp 1;
      r ← is_red_node p;
      if r : bool then
        g ← peek sp 2;
        l ← LEFT g;
        sp ← rebalance_step (if (p =? l)%N then L else R) sp;
        rebalance_loop fuel sp
      else mret sp
  end.

Definition rebalance_dtive sp : M V (list N) :=
  s0 ← peek sp 0; BECOME_RED s0;; rebalance_loop (length sp) sp.

(** The search for a node, shared by insertion and removal: the stack, the node
    that compares equal or [NULL], and the last comparison.  [compare] is what the
    C function computes from the slot of a node. *)
Fixpoint descend (fuel cap : nat) (compare : V -> Z) sp (x : N) (cmp : Z) : M V (list N * N * Z) :=
  match fuel with
  | O => lift None
  | S fuel =>
      if (x =? NULL)%N then mret (sp, NULL, cmp)
      else
        sp ← push cap x sp;
        v ← cucon_rbnode_mem x;
        let cmp := compare v in
        if cmp <? 0 then l ← LEFT x; descend fuel cap compare sp l cmp
        else if 0 <? cmp then r ← RIGHT x; descend fuel cap compare sp r cmp
        else mret (sp, x, cmp)
  end.

Context `{!Slot V, !NodeAlloc V}.

Definition galloc_node : M V N := fun h =>
  let p := new_addr h in Some (p, <[p := mk_rbnode 0 NULL NULL zero_slot]> h).

(** [cucon_rbtree_insert1m_mem] and [cucon_rbtree_insert2p_node], whose new slot
    is set to [init]: whether a node was inserted, its address or that of the equal
    node, and the root. *)
Definition rbtree_insert (compare : V -> Z) (init : V -> V) (root : N) : M V (bool * N * N) :=
  tree_size ← cucon_rbtree_size root;
  let cap := stack_size tree_size in
  sp ← push cap NULL [];
  b ← is_nil_or_black root; cassert b;;
  '(sp, x, cmp) ← descend (S cap) cap compare sp root 0;
  if negb (x =? NULL)%N then
    c ← COLOUR root; cassert (c =? tree_size);;
    mret (false, x, root)
  else
    x ← galloc_node;
    sp ← push cap x sp;
    p ← peek sp 1;
    (if negb (p =? NULL)%N then
       if cmp <? 0 then SET_LEFT p x else SET_RIGHT p x
     else mret tt);;
    v ← cucon_rbnode_mem x;
    set_mem x (init v);;
    sp ← rebalance_dtive sp;
    root ← peek (sp_root sp) 0;
    SET_COLOUR root (wadd tree_size 1);;
    mret (true, x, root).

Definition cucon_rbtree_insert1m_mem (root : N) (compare : V -> Z) : M V (bool * N * N) :=
  rbtree_insert compare (fun v => v) root.

Definition cucon_rbtree_insert2p_node (root : N) (compare : Z -> Z -> Z) (key : Z)
    : M V (bool * N * N) :=
  rbtree_insert (fun v => compare key (slot_ptr v)) (set_slot_ptr key) root.

(** The pointer argument is updated on insertion only. *)
Definition cucon_rbtree_insert2p_ptr (root : N) (compare : Z -> Z -> Z) (ptr : Z)
    : M V (bool * Z * N) :=
  '(b, x, root) ← cucon_rbtree_insert2p_node root compare ptr;
  if b : bool then v ← cucon_rbnode_mem x; mret (true, slot_ptr v, root) else mret (false, ptr, root).

(** ** Removal *)

(** [do { y = y->left; *--sp = y; } while (y->left);] *)
Fixpoint leftmost_loop (fuel cap : nat) sp (y : N) : M V (list N * N) :=
  match fuel with
  | O => lift None
  | S fuel =>
      y ← LEFT y;
      sp ← push cap y sp;
      l ← LEFT y;
      if negb (l =? NULL)%N then leftmost_loop fuel cap sp y else mret (sp, y)
  end.

(** [if (z == p->left) p->left = y; else p->right = y;] unless [p] is [NULL] *)
Definition replace_child (p z y : N) : M V unit :=
  if (p =? NULL)%N then mret tt
  else l ← LEFT p; if (z =? l)%N then SET_LEFT p y else SET_RIGHT p y.

(** The successor [y] of [z], in the subtree of [r = z->right], is unlinked: the
    stack with [y] on top, [y], and the subtree [x] that takes its place. *)
Definition unlink_successor (cap : nat) sp (z r : N) : M V (list N * N * N) :=
  sp ← push cap r sp;
  l ← LEFT r;
  if negb (l =? NULL)%N then
    '(sp, y) ← leftmost_loop cap cap sp r;
    x ← RIGHT y;
    p ← peek sp 1;
    SET_LEFT p x;;
    mret (sp, y, x)
  else
    x ← RIGHT r;
    SET_RIGHT z x;;
    mret (sp, r, x).

(** The node [z] on the top of the stack is extracted, or replaced by its
    successor: the stack with the subtree at the hole on top, and whether a black
    node is missing above it. *)
Definition extract (cap : nat) sp (z : N) : M V (list N * bool) :=
  l ← LEFT z;
  r ← RIGHT z;
  if (l =? NULL)%N || (r =? NULL)%N then
    let x := if (l =? NULL)%N then r else l in
    is_unbalanced ← IS_BLACK z;
    p ← peek sp 1;
    replace_child p z x;;
    sp ← poke sp 0 x;
    mret (sp, is_unbalanced)
  else
    let sp_z := sp in
    '(sp, y, x) ← unlink_successor cap sp z r;
    is_unbalanced ← IS_BLACK y;
    l ← LEFT z; SET_LEFT y l;;
    r ← RIGHT z; SET_RIGHT y r;;
    c ← COLOUR z; SET_COLOUR y c;;
    p ← peek sp_z 1;
    replace_child p z y;;
    sp ← poke sp (length sp - length sp_z) y;
    sp ← poke sp 0 x;
    mret (sp, is_unbalanced).

(** [assert(sp[i]->left == sp[j] || sp[i]->right == sp[j])] *)
Definition assert_child sp (i j : nat) : M V unit :=
  p ← peek sp i; q ← peek sp j;
  l ← LEFT p; r ← RIGHT p;
  cassert ((l =? q)%N || (r =? q)%N).

(** One turn of the loop when [x = sp[0]] is the child [d] of [sp[1]]: the stack,
    and whether the loop goes on.  First the part with a black sibling [y]. *)
Definition erase_rotate (d : dir) sp (y : N) : M V (list N) :=
  p ← peek sp 1;
  c ← COLOUR p;
  SET_COLOUR y c;;
  BECOME_BLACK p;;
  far ← CHILD (flip d) y;
  (if negb (far =? NULL)%N then BECOME_BLACK far else mret tt);;
  rotate d sp 1.

Definition erase_black (d : dir) sp (y : N) : M V (list N * bool) :=
  near ← CHILD d y; b ← is_nil_or_black near;
  far ← CHILD (flip d) y; b' ← is_nil_or_black far;
  if b && b' then
    BECOME_RED y;;
    mret (drop 1 sp, true)
  else
    '(sp, y) ←
      (if b' : bool then
         BECOME_BLACK near;;
         BECOME_RED y;;
         sp ← poke sp 0 y;
         sp ← rotate (flip d) sp 0;
         p ← peek sp 1;
         y ← CHILD (flip d) p;
         mret (sp, y)
       else mret (sp, y));
    sp ← erase_rotate d sp y;
    mret (sp_root sp, false).

Definition erase_step (cap : nat) (d : dir) sp (x : N) : M V (list N * bool) :=
  p ← peek sp 1;
  y ← CHILD (flip d) p;
  r ← IS_RED y;
  '(sp, y) ←
    (if r : bool then
       let z := p in
       BECOME_BLACK y;;
       BECOME_RED z;;
       sp ← rotate d sp 1;
       sp ← poke sp 0 z;
       sp ← push cap x sp;
       y ← CHILD (flip d) z;
       assert_child sp 2 1;;
       assert_child sp 1 0;;
       mret (sp, y)
     else mret (sp, y));
  erase_black d sp y.

(** [while (sp[1] && (!x || IS_BLACK(x)))] with [x = sp[0]] *)
Fixpoint erase_loop (fuel cap : nat) sp : M V (list N) :=
  match fuel with
  | O => lift None
  | S fuel =>
      p ← peek sp 1;
      x ← peek sp 0;
      b ← (if (p =? NULL)%N then mret false else is_nil_or_black x);
      if b : bool then
        l ← LEFT p;
        '(sp, go) ← erase_step cap (if (x =? l)%N then L else R) sp x;
        if go : bool then erase_loop fuel cap sp else mret sp
      else mret sp
  end.

(** The new root. *)
Definition rbtree_erase (cap : nat) (root : N) sp (z : N) : M V N :=
  tree_size ← cucon_rbtree_size root;
  '(sp, is_unbalanced) ← extract cap sp z;
  sp ← (if is_unbalanced : bool then erase_loop (S (length sp)) cap sp else mret sp);
  s0 ← peek sp 0;
  (if negb (s0 =? NULL)%N then BECOME_BLACK s0 else mret tt);;
  root ← peek (sp_root sp) 0;
  (if negb (root =? NULL)%N then SET_COLOUR root (wsub tree_size 1) else mret tt);;
  mret root.

(** [RBTREE_ERASE]: the erased node, or [NULL] if there is none, and the root. *)
Definition RBTREE_ERASE (compare : V -> Z) (root : N) : M V (N * N) :=
  tree_size ← cucon_rbtree_size root;
  let cap := stack_size tree_size in
  sp ← push cap NULL [];
  '(sp, z, _) ← descend (S cap) cap compare sp root 0;
  if (z =? NULL)%N then mret (NULL, root)
  else root ← rbtree_erase cap root sp z; mret (z, root).

Definition cucon_rbtree_erase2p (root : N) (compare : Z -> Z -> Z) (key : Z) : M V (N * N) :=
  RBTREE_ERASE (fun v => compare key (slot_ptr v)) root.

Definition cucon_rbtree_erase1m (root : N) (compare : V -> Z) : M V (N * N) :=
  RBTREE_ERASE compare root.

(** ** Search *)

(** The loop of the search functions, on a fuel above the height of the tree. *)
Fixpoint find_node (fuel : nat) (compare : V -> Z) (x : N) : M V N :=
  match fuel with
  | O => lift None
  | S fuel =>
      if (x =? NULL)%N then mret NULL
      else
        v ← cucon_rbnode_mem x;
        let cmp := compare v in
        if cmp <? 0 then l ← LEFT x; find_node fuel compare l
        else if 0 <? cmp then r ← RIGHT x; find_node fuel compare r
        else mret x
  end.

(** No path is longer than the heap. *)
Definition heap_fuel : M V nat := h ← get_heap; mret (S (size h)).

Definition cucon_rbtree_find2p_node (root : N) (compare : Z -> Z -> Z) (key : Z) : M V N :=
  fuel ← heap_fuel; find_node fuel (fun v => compare key (slot_ptr v)) root.

Definition cucon_rbtree_find1m_mem (root : N) (compare : V -> Z) : M V N :=
  fuel ← heap_fuel; find_node fuel compare root.

Definition cucon_rbtree_find2p_ptr (root : N) (compare : Z -> Z -> Z) (key : Z) : M V Z :=
  fuel ← heap_fuel;
  x ← find_node fuel (fun v => compare key (slot_ptr v)) root;
  if (x =? NULL)%N then mret 0 else v ← cucon_rbnode_mem x; mret (slot_ptr v).

(** [while (x != NULL) { last = x; x = x->d; }] *)
Fixpoint last_on (fuel : nat) (d : dir) (last x : N) : M V N :=
  match fuel with
  | O => lift None
  | S fuel => if (x =? NULL)%N then mret last else y ← CHILD d x; last_on fuel d x y
  end.

Fixpoint nearest_loop (fuel : nat) (compare : V -> Z) (below above x : N) : M V (N * N * N) :=
  match fuel with
  | O => lift None
  | S fuel =>
      if (x =? NULL)%N then mret (below, NULL, above)
      else
        v ← cucon_rbnode_mem x;
        let cmp := compare v in
        if cmp <? 0 then l ← LEFT x; nearest_loop fuel compare below x l
        else if 0 <? cmp then r ← RIGHT x; nearest_loop fuel compare x above r
        else
          l ← LEFT x; below ← last_on fuel R below l;
          r ← RIGHT x; above ← last_on fuel L above r;
          mret (below, x, above)
  end.

(** The nodes below, equal and above. *)
Definition cucon_rbtree_nearest2p (root : N) (compare : Z -> Z -> Z) (key : Z) : M V (N * N * N) :=
  fuel ← heap_fuel; nearest_loop fuel (fun v => compare key (slot_ptr v)) NULL NULL root.

(** ** Traversal *)

(** [while (node) { f(node->d); cb(node); node = node->flip d; }] where [f] is the
    function itself; the callback threads a state of its own. *)
Fixpoint rbnode_conj {S : Type} (d : dir) (fuel : nat) (cb : S -> V -> S * bool) (x : N) (s : S)
    : M V (S * bool) :=
  match fuel with
  | O => lift None
  | S fuel =>
      if (x =? NULL)%N then mret (s, true)
      else
        y ← CHILD d x;
        '(s, ok) ← rbnode_conj d fuel cb y s;
        if negb ok then mret (s, false)
        else
          v ← cucon_rbnode_mem x;
          let '(s, ok) := cb s v in
          if negb ok then mret (s, false)
          else y ← CHILD (flip d) x; rbnode_conj d fuel cb y s
  end.

Fixpoint rbnode_iter {S : Type} (d : dir) (fuel : nat) (cb : S -> V -> S) (x : N) (s : S) : M V S :=
  match fuel with
  | O => lift None
  | S fuel =>
      if (x =? NULL)%N then mret s
      else
        y ← CHILD d x;
        s ← rbnode_iter d fuel cb y s;
        v ← cucon_rbnode_mem x;
        let s := cb s v in
        y ← CHILD (flip d) x; rbnode_iter d fuel cb y s
  end.

Section traversal.
Context {S : Type}.
Implicit Types (s : S).

Definition cucon_rbtree_iter_mem (root : N) (cb : S -> V -> S) s : M V S :=
  fuel ← heap_fuel; rbnode_iter L fuel cb root s.
Definition cucon_rbtree_iter_ptr (root : N) (cb : S -> Z -> S) s : M V S :=
  fuel ← heap_fuel; rbnode_iter L fuel (fun s v => cb s (slot_ptr v)) root s.
Definition cucon_rbtree_rev_iter_mem (root : N) (cb : S -> V -> S) s : M V S :=
  fuel ← heap_fuel; rbnode_iter R fuel cb root s.
Definition cucon_rbtree_rev_iter_ptr (root : N) (cb : S -> Z -> S) s : M V S :=
  fuel ← heap_fuel; rbnode_iter R fuel (fun s v => cb s (slot_ptr v)) root s.

Definition cucon_rbtree_conj_mem (root : N) (cb : S -> V -> S * bool) s : M V (S * bool) :=
  fuel ← heap_fuel; rbnode_conj L fuel cb root s.
Definition cucon_rbtree_conj_ptr (root : N) (cb : S -> Z -> S * bool) s : M V (S * bool) :=
  fuel ← heap_fuel; rbnode_conj L fuel (fun s v => cb s (slot_ptr v)) root s.
Definition cucon_rbtree_rev_conj_mem (root : N) (cb : S -> V -> S * bool) s : M V (S * bool) :=
  fuel ← heap_fuel; rbnode_conj R fuel cb root s.
Definition cucon_rbtree_rev_conj_ptr (root : N) (cb : S -> Z -> S * bool) s : M V (S * bool) :=
  fuel ← heap_fuel; rbnode_conj R fuel (fun s v => cb s (slot_ptr v)) root s.

End traversal.

End nodes.
