(* ===== verification/RbtreeRep.v ===== *)
(** * Red-black trees: representation

    A tree labelled with the addresses of its nodes says what a part of the heap
    holds; a context, the list of nodes on the path from a subtree to the root, is what
    the stack of an update points to.  The rules of this file say what each primitive
    of [Rbtree] does in terms of the tree. *)

From S2P Require Export Rbtree.

(** ** Total correctness in the monad *)

Definition wp {V A} (m : M V A) (Q : A -> heap V -> Prop) (h : heap V) : Prop :=
  exists a h', m h = Some (a, h') /\ Q a h'.

Section wp.
Context {V : Type}.

Lemma wp_ret {A} (a : A) Q (h : heap V) : Q a h -> wp (mret a) Q h.
Proof. intros HQ. by exists a, h. Qed.

Lemma wp_bind {A B} (m : M V A) (k : A -> M V B) Q h :
  wp m (fun a => wp (k a) Q) h -> wp (m ≫= k) Q h.
Proof.
  intros (a & h' & E & b & h'' & E' & HQ). exists b, h''. split; [|done].
  unfold mbind, M_bind. by rewrite E.
Qed.

Lemma wp_mono {A} (m : M V A) (P Q : A -> heap V -> Prop) h :
  wp m P h -> (forall a h', P a h' -> Q a h') -> wp m Q h.
Proof. intros (a & h' & E & HP) HPQ. exists a, h'. auto. Qed.

Lemma wp_lift {A} (a : A) Q (h : heap V) : Q a h -> wp (lift (Some a)) Q h.
Proof. intros HQ. by exists a, h. Qed.

Lemma wp_assert (b : bool) Q (h : heap V) : b = true -> Q tt h -> wp (cassert b) Q h.
Proof. intros -> HQ. by exists tt, h. Qed.

Lemma wp_get_heap Q (h : heap V) : Q h h -> wp get_heap Q h.
Proof. intros HQ. by exists h, h. Qed.

Lemma wp_peek sp i p Q (h : heap V) : sp !! i = Some p -> Q p h -> wp (peek sp i) Q h.
Proof. intros E HQ. unfold peek. rewrite E. by apply wp_lift. Qed.

Lemma wp_poke sp i q Q (h : heap V) :
  (i < length sp)%nat -> Q (<[i := q]> sp) h -> wp (poke sp i q) Q h.
Proof. intros E HQ. unfold poke. rewrite decide_True by done. by apply wp_lift. Qed.

Lemma wp_push cap q sp Q (h : heap V) :
  (length sp < cap)%nat -> Q (q :: sp) h -> wp (push cap q sp) Q h.
Proof. intros E HQ. unfold push. rewrite decide_True by done. by apply wp_lift. Qed.

End wp.

(** ** Trees and contexts *)

Inductive tree (V : Type) :=
  | E
  | T (c : Z) (l : tree V) (a : N) (v : V) (r : tree V).
Arguments E {V}.
Arguments T {V}.

Record frame (V : Type) :=
  F { fdir : dir; fcol : Z; faddr : N; fval : V; fsib : tree V }.
Arguments F {V}.
Arguments fdir {V}.
Arguments fcol {V}.
Arguments faddr {V}.
Arguments fval {V}.
Arguments fsib {V}.

Section trees.
Context {V : Type}.
Implicit Types (t l r s : tree V) (f : frame V) (z : list (frame V)) (h : heap V) (d : dir).

Definition root t : N := match t with E => NULL | T _ _ a _ _ => a end.
Definition colour t : Z := match t with E => 1 | T c _ _ _ _ => c end.
Definition isred t : bool := colour t =? 0.

(** The node with child [t] in direction [d] and [s] in the other one. *)
Definition nd d (c : Z) t (a : N) (v : V) s : tree V :=
  match d with L => T c t a v s | R => T c s a v t end.

Definition plug1 f t : tree V := nd (fdir f) (fcol f) t (faddr f) (fval f) (fsib f).
Fixpoint plug z t : tree V := match z with [] => t | f :: z => plug z (plug1 f t) end.

(** The stack of a context. *)
Definition stk z : list N := map faddr z ++ [NULL].
Definition top z : N := match z with [] => NULL | f :: _ => faddr f end.

Fixpoint addrs t : list N :=
  match t with E => [] | T _ l a _ r => a :: addrs l ++ addrs r end.
Fixpoint zaddrs z : list N :=
  match z with [] => [] | f :: z => faddr f :: addrs (fsib f) ++ zaddrs z end.

(** The elements in order: addresses and slots. *)
Fixpoint elems t : list (N * V) :=
  match t with E => [] | T _ l a v r => elems l ++ (a, v) :: elems r end.
Fixpoint zl z : list (N * V) :=
  match z with
  | [] => []
  | f :: z => match fdir f with L => zl z | R => zl z ++ elems (fsib f) ++ [(faddr f, fval f)] end
  end.
Fixpoint zr z : list (N * V) :=
  match z with
  | [] => []
  | f :: z => match fdir f with L => (faddr f, fval f) :: elems (fsib f) ++ zr z | R => zr z end
  end.

Fixpoint height t : nat :=
  match t with E => 0%nat | T _ l _ _ r => S (Nat.max (height l) (height r)) end.

Lemma elems_nd d c t a v s :
  elems (nd d c t a v s) =
    match d with L => elems t ++ (a, v) :: elems s | R => elems s ++ (a, v) :: elems t end.
Proof. by destruct d. Qed.

Lemma elems_plug z t : elems (plug z t) = zl z ++ elems t ++ zr z.
Proof.
  revert t. induction z as [|[[] c a v s] z IH]; intros t; simpl; [by rewrite app_nil_r| |];
    rewrite IH; simpl; rewrite <- !app_assoc; done.
Qed.

Lemma addrs_plug z t : addrs (plug z t) ≡ₚ addrs t ++ zaddrs z.
Proof.
  revert t. induction z as [|[[] c a v s] z IH]; intros t; simpl; [by rewrite app_nil_r| |];
    rewrite IH; simpl.
  - rewrite <- app_assoc. apply Permutation_middle.
  - rewrite <- Permutation_middle. apply perm_skip.
    rewrite !app_assoc. f_equiv. apply Permutation_app_comm.
Qed.

Lemma addrs_elems t : addrs t ≡ₚ map fst (elems t).
Proof.
  induction t as [|c l IHl a v r IHr]; simpl; [done|].
  rewrite map_app. simpl. rewrite <- IHl, <- IHr. apply Permutation_middle.
Qed.

Lemma length_stk z : length (stk z) = S (length z).
Proof. unfold stk. rewrite length_app, length_map. simpl. lia. Qed.

Lemma plug_app z z' t : plug (z ++ z') t = plug z' (plug z t).
Proof. revert t. induction z as [|f z IH]; intros t; simpl; [done|]. apply IH. Qed.

(** ** Heaps *)

Fixpoint rep h t : Prop :=
  match t with
  | E => True
  | T c l a v r => a <> NULL /\ h !! a = Some (mk_rbnode c (root l) (root r) v) /\ rep h l /\ rep h r
  end.

(** The nodes of a context, above a subtree whose root is [p]. *)
Fixpoint repz h z (p : N) : Prop :=
  match z with
  | [] => True
  | f :: z =>
      faddr f <> NULL /\
      h !! faddr f = Some (match fdir f with
                           | L => mk_rbnode (fcol f) p (root (fsib f)) (fval f)
                           | R => mk_rbnode (fcol f) (root (fsib f)) p (fval f)
                           end) /\
      rep h (fsib f) /\ repz h z (faddr f)
  end.

(** The heap [h] holds the tree, in the addresses [A]; outside of them it is [h0]. *)
Definition owns h0 (A : list N) h t : Prop :=
  rep h t /\ NoDup (addrs t) /\ addrs t ≡ₚ A /\ forall a, a ∉ A -> h !! a = h0 !! a.

Lemma root_nd d c t a v s : root (nd d c t a v s) = a.
Proof. by destruct d. Qed.

Lemma rep_plug h z t : rep h (plug z t) <-> rep h t /\ repz h z (root t).
Proof.
  revert t. induction z as [|[d c a v s] z IH]; intros t; simpl.
  { split; [by intros ?|by intros [? _]]. }
  rewrite IH. unfold plug1. simpl. rewrite root_nd. destruct d; simpl; tauto.
Qed.

Lemma rep_ext h h' t : (forall a, a ∈ addrs t -> h' !! a = h !! a) -> rep h t -> rep h' t.
Proof.
  induction t as [|c l IHl a v r IHr]; simpl; [done|]. intros Ha (Hn & Hl & Rl & Rr).
  split_and!; [done| | |].
  - rewrite Ha; [done|by left].
  - apply IHl; [|done]. intros b Hb. apply Ha. right. apply elem_of_app. by left.
  - apply IHr; [|done]. intros b Hb. apply Ha. right. apply elem_of_app. by right.
Qed.

Lemma repz_ext h h' z p : (forall a, a ∈ zaddrs z -> h' !! a = h !! a) -> repz h z p -> repz h' z p.
Proof.
  revert p. induction z as [|f z IH]; intros p; simpl; [done|]. intros Ha (Hn & Hl & Rs & Rz).
  split_and!; [done| | |].
  - rewrite Ha; [done|by left].
  - apply (rep_ext h); [|done]. intros b Hb. apply Ha. right. apply elem_of_app. by left.
  - apply IH; [|done]. intros b Hb. apply Ha. right. apply elem_of_app. by right.
Qed.

Lemma rep_insert h t a n : a ∉ addrs t -> rep h t -> rep (<[a := n]> h) t.
Proof.
  intros Ha. apply rep_ext. intros b Hb. apply lookup_insert_ne. intros ->. done.
Qed.

Lemma repz_insert h z p a n : a ∉ zaddrs z -> repz h z p -> repz (<[a := n]> h) z p.
Proof.
  intros Ha. apply repz_ext. intros b Hb. apply lookup_insert_ne. intros ->. done.
Qed.

(** ** Rules on nodes *)

Lemma wp_node h p n Q : h !! p = Some n -> p <> NULL -> Q n h -> wp (node p) Q h.
Proof.
  intros E Hp HQ. exists n, h. unfold node.
  by rewrite (proj2 (N.eqb_neq p NULL) Hp), E.
Qed.

Lemma wp_CHILD d h p n Q : h !! p = Some n -> p <> NULL -> Q (child d n) h -> wp (CHILD d p) Q h.
Proof. intros. by apply wp_bind, (wp_node _ _ n), wp_ret. Qed.

Lemma wp_set_node h p n (Q : unit -> heap V -> Prop) :
  Q tt (<[p := n]> h) -> wp (set_node p n) Q h.
Proof. intros HQ. by exists tt, (<[p := n]> h). Qed.

Lemma wp_SET_CHILD d h p q n Q :
  h !! p = Some n -> p <> NULL -> Q tt (<[p := with_child d q n]> h) -> wp (SET_CHILD d p q) Q h.
Proof. intros. by apply wp_bind, (wp_node _ _ n), wp_set_node. Qed.

Lemma wp_COLOUR h p n Q : h !! p = Some n -> p <> NULL -> Q (is_black n) h -> wp (COLOUR p) Q h.
Proof. intros. by apply wp_bind, (wp_node _ _ n), wp_ret. Qed.

Lemma wp_mem h p n Q : h !! p = Some n -> p <> NULL -> Q (slot n) h -> wp (cucon_rbnode_mem p) Q h.
Proof. intros. by apply wp_bind, (wp_node _ _ n), wp_ret. Qed.

(** ** Rules on trees *)

Section owned.
Context {h0 : heap V} {A : list N}.

Lemma owns_rep h t : owns h0 A h t -> rep h t.
Proof. by intros (R & _). Qed.

(** A node in the tree. *)
Lemma owns_at h z c l a v r :
  owns h0 A h (plug z (T c l a v r)) ->
  h !! a = Some (mk_rbnode c (root l) (root r) v) /\ a <> NULL.
Proof. intros (R & _). apply rep_plug in R as [R _]. simpl in R. tauto. Qed.

Lemma owns_nd h z d c t a v s :
  owns h0 A h (plug z (nd d c t a v s)) ->
  h !! a = Some (match d with L => mk_rbnode c (root t) (root s) v
                            | R => mk_rbnode c (root s) (root t) v end) /\ a <> NULL.
Proof. destruct d; apply owns_at. Qed.

Lemma wp_child_near h z d c t a v s Q :
  owns h0 A h (plug z (nd d c t a v s)) -> Q (root t) h -> wp (CHILD d a) Q h.
Proof.
  intros Ho HQ. destruct (owns_nd _ _ _ _ _ _ _ _ Ho) as [E Hn].
  apply (wp_CHILD _ _ _ _ _ E Hn). by destruct d.
Qed.

Lemma wp_child_far h z d c t a v s Q :
  owns h0 A h (plug z (nd d c t a v s)) -> Q (root s) h -> wp (CHILD (flip d) a) Q h.
Proof.
  intros Ho HQ. destruct (owns_nd _ _ _ _ _ _ _ _ Ho) as [E Hn].
  apply (wp_CHILD _ _ _ _ _ E Hn). by destruct d.
Qed.

Lemma wp_colour h z d c t a v s Q :
  owns h0 A h (plug z (nd d c t a v s)) -> Q c h -> wp (COLOUR a) Q h.
Proof.
  intros Ho HQ. destruct (owns_nd _ _ _ _ _ _ _ _ Ho) as [E Hn].
  apply (wp_COLOUR _ _ _ _ E Hn). by destruct d.
Qed.

(** The colour of a subtree, through a pointer that may be [NULL]. *)
Lemma wp_is_red h z t Q :
  owns h0 A h (plug z t) -> Q (isred t) h -> wp (is_red_node (root t)) Q h.
Proof.
  intros Ho HQ. unfold is_red_node. destruct t as [|c l a v r]; simpl; [by apply wp_ret|].
  destruct (owns_at _ _ _ _ _ _ _ Ho) as [E Hn]. rewrite (proj2 (N.eqb_neq a NULL) Hn).
  apply wp_bind, wp_bind, (wp_COLOUR _ _ _ _ E Hn), wp_ret, wp_ret.
  by rewrite negb_involutive.
Qed.

Lemma wp_nil_or_black h z t Q :
  owns h0 A h (plug z t) -> Q (negb (isred t)) h -> wp (is_nil_or_black (root t)) Q h.
Proof.
  intros Ho HQ. unfold is_nil_or_black. destruct t as [|c l a v r]; simpl; [by apply wp_ret|].
  destruct (owns_at _ _ _ _ _ _ _ Ho) as [E Hn]. rewrite (proj2 (N.eqb_neq a NULL) Hn).
  by apply wp_bind, (wp_COLOUR _ _ _ _ E Hn), wp_ret.
Qed.

Lemma nodup_plug h z t : owns h0 A h (plug z t) -> NoDup (addrs t ++ zaddrs z).
Proof. intros (_ & Hd & _). by rewrite addrs_plug in Hd. Qed.

(** The same addresses, in the tree and outside. *)
Lemma owns_update h h' t t' :
  owns h0 A h t -> addrs t' ≡ₚ addrs t -> rep h' t' ->
  (forall a, a ∉ addrs t -> h' !! a = h !! a) -> owns h0 A h' t'.
Proof.
  intros (_ & Hd & Hp & Ho) Ha Hr Hf. split_and!; [done|by rewrite Ha|by rewrite Ha|].
  intros a Hn. rewrite Hf; [by apply Ho|]. by rewrite Hp.
Qed.

(** New contents for a node, with the same children. *)
Lemma wp_set_contents h z c c' l a v v' r (Q : unit -> heap V -> Prop) :
  owns h0 A h (plug z (T c l a v r)) ->
  (forall h', owns h0 A h' (plug z (T c' l a v' r)) -> Q tt h') ->
  wp (set_node a (mk_rbnode c' (root l) (root r) v')) Q h.
Proof.
  intros Ho HQ. apply wp_set_node, HQ.
  pose proof (nodup_plug _ _ _ Ho) as Hd. simpl in Hd.
  apply list.NoDup_cons in Hd as [Ha _]. rewrite !not_elem_of_app in Ha.
  apply (owns_update h _ (plug z (T c l a v r))); [done|by rewrite !addrs_plug| |].
  - apply owns_rep, rep_plug in Ho as [R Z]. simpl in R, Z. apply rep_plug. simpl.
    split_and!; [apply R|apply lookup_insert_eq|apply rep_insert; tauto|apply rep_insert; tauto|].
    apply repz_insert; [tauto|done].
  - intros b Hb. rewrite lookup_insert_ne; [done|]. intros <-. apply Hb.
    rewrite addrs_plug. by left.
Qed.

Lemma wp_set_colour h z c c' l a v r (Q : unit -> heap V -> Prop) :
  owns h0 A h (plug z (T c l a v r)) ->
  (forall h', owns h0 A h' (plug z (T c' l a v r)) -> Q tt h') -> wp (SET_COLOUR a c') Q h.
Proof.
  intros Ho HQ. destruct (owns_at _ _ _ _ _ _ _ Ho) as [E Hn].
  apply wp_bind, (wp_node _ _ _ _ E Hn). by apply (wp_set_contents h z c _ _ _ v).
Qed.

Lemma wp_set_colour_nd h z d c c' t a v s (Q : unit -> heap V -> Prop) :
  owns h0 A h (plug z (nd d c t a v s)) ->
  (forall h', owns h0 A h' (plug z (nd d c' t a v s)) -> Q tt h') -> wp (SET_COLOUR a c') Q h.
Proof. destruct d; apply wp_set_colour. Qed.

Lemma wp_set_mem h z c l a v v' r (Q : unit -> heap V -> Prop) :
  owns h0 A h (plug z (T c l a v r)) ->
  (forall h', owns h0 A h' (plug z (T c l a v' r)) -> Q tt h') -> wp (set_mem a v') Q h.
Proof.
  intros Ho HQ. destruct (owns_at _ _ _ _ _ _ _ Ho) as [E Hn].
  apply wp_bind, (wp_node _ _ _ _ E Hn). by apply (wp_set_contents h z c _ _ _ v).
Qed.

(** Putting a subtree into a hole of the context: the parent's pointer. *)
Lemma repz_child h f z p q :
  repz h (f :: z) p -> faddr f ∉ addrs (fsib f) ++ zaddrs z ->
  exists n, h !! faddr f = Some n /\ faddr f <> NULL /\
    child (fdir f) n = p /\ child (flip (fdir f)) n = root (fsib f) /\
    repz (<[faddr f := with_child (fdir f) q n]> h) (f :: z) q.
Proof.
  intros (Hn & E & Rs & Rz) Ha. rewrite not_elem_of_app in Ha. eexists. split_and!; [exact E|done|..].
  - by destruct (fdir f).
  - by destruct (fdir f).
  - simpl. split_and!; [done| |apply rep_insert; tauto|apply repz_insert; tauto].
    rewrite lookup_insert_eq. by destruct (fdir f).
Qed.

(** ** Rotation *)

Lemma rot_perm d cb ca o a va m b vb s (l : list N) :
  addrs (nd (flip d) cb (nd (flip d) ca o a va m) b vb s) ++ l
    ≡ₚ a :: b :: (addrs o ++ addrs m ++ addrs s) ++ l.
Proof. destruct d; simpl; solve_Permutation. Qed.

Lemma rot_perm' d cb ca o a va m b vb s (l : list N) :
  addrs (nd d ca (nd (flip d) cb m b vb s) a va o) ++ l
    ≡ₚ a :: b :: (addrs o ++ addrs m ++ addrs s) ++ l.
Proof. destruct d; simpl; solve_Permutation. Qed.

Lemma child_nd d c t a v s h z :
  rep h (plug z (nd d c t a v s)) ->
  exists n, h !! a = Some n /\ a <> NULL /\ child d n = root t /\ child (flip d) n = root s /\
    is_black n = c /\ slot n = v /\ rep h t /\ rep h s /\ repz h z a.
Proof.
  intros R. apply rep_plug in R as [R Z]. rewrite root_nd in Z.
  destruct d; simpl in R; destruct R as (Hn & E & R1 & R2); eexists; split_and!; try exact E; done.
Qed.

Lemma root_in t p : root t = p -> p <> NULL -> p ∈ addrs t.
Proof. destruct t; simpl; intros <- ?; [done|by left]. Qed.

(** The parent's pointer to the node that goes down. *)
Lemma parent_test h z p q (Q : unit -> heap V -> Prop) :
  repz h z p -> p <> NULL -> p ∉ zaddrs z -> NoDup (zaddrs z) -> 
  (forall h', repz h' z q -> (forall a, a ∉ zaddrs z -> h' !! a = h !! a) -> Q tt h') ->
  wp (if (top z =? NULL)%N then mret tt
      else r ← RIGHT (top z); if (r =? p)%N then SET_RIGHT (top z) q else SET_LEFT (top z) q) Q h.
Proof.
  intros Hz Hp Hn Hd HQ. destruct z as [|f z]; cbn [top].
  { apply wp_ret, HQ; [done|done]. }
  apply list.NoDup_cons in Hd as [Hf Hd].
  destruct (repz_child _ _ _ _ q Hz Hf) as (n & E & Hnn & Ec & Es & Hz').
  rewrite (proj2 (N.eqb_neq _ NULL) Hnn).
  apply wp_bind. unfold RIGHT. apply (wp_CHILD _ _ _ _ _ E Hnn).
  assert (Hout : forall a, a ∉ faddr f :: addrs (fsib f) ++ zaddrs z ->
            <[faddr f := with_child (fdir f) q n]> h !! a = h !! a).
  { intros a Ha. apply lookup_insert_ne. intros <-. apply Ha. by left. }
  destruct (fdir f) eqn:Ed; cbn [child flip] in Ec, Es |- *.
  - rewrite (proj2 (N.eqb_neq _ p)).
    + unfold SET_LEFT. apply (wp_SET_CHILD L _ _ _ _ _ E Hnn). by apply HQ.
    + rewrite Es. intros Er. apply Hn. right. apply elem_of_app. left.
      by apply root_in.
  - rewrite Ec, N.eqb_refl. unfold SET_RIGHT. apply (wp_SET_CHILD R _ _ _ _ _ E Hnn). by apply HQ.
Qed.

Lemma wp_rotate h d z cb ca o a va m b vb s sp k (Q : list N -> heap V -> Prop) :
  owns h0 A h (plug z (nd (flip d) cb (nd (flip d) ca o a va m) b vb s)) ->
  sp !! k = Some b -> sp !! S k = Some (top z) ->
  (forall h', owns h0 A h' (plug z (nd d ca (nd (flip d) cb m b vb s) a va o)) ->
     Q (<[k := a]> sp) h') ->
  wp (rotate d sp k) Q h.
Proof.
  intros Ho Hk Hk' HQ. pose proof (nodup_plug _ _ _ Ho) as Hd. rewrite rot_perm in Hd.
  apply list.NoDup_cons in Hd as [Ha Hd]. apply list.NoDup_cons in Hd as [Hb Hd].
  apply list.NoDup_app in Hd as (_ & Hds & Hdz).
  assert (Hab : a <> b) by (intros ->; apply Ha; by left).
  rewrite not_elem_of_cons, !not_elem_of_app in Ha. rewrite !not_elem_of_app in Hb.
  pose proof (owns_rep _ _ Ho) as Hr.
  destruct (child_nd _ _ _ _ _ _ _ _ Hr) as (nb & Eb & Nb & Cb & Fb & Kb & Vb & Rx & Rs & Rz).
  rewrite root_nd in Cb.
  destruct (child_nd (flip d) ca o a va m h [] Rx) as (na & Ea & Na & Ca & Fa & Ka & Va & Ro & Rm & _).
  assert (Ff : flip (flip d) = d) by by destruct d. rewrite Ff in Fa, Fb.
  unfold rotate. apply wp_bind, (wp_peek _ _ b); [done|].
  apply wp_bind, (wp_CHILD _ _ _ _ _ Eb Nb). rewrite Cb.
  apply wp_bind, (wp_CHILD _ _ _ _ _ Ea Na). rewrite Fa.
  apply wp_bind, (wp_SET_CHILD _ _ _ _ _ _ Eb Nb).
  apply wp_bind, (wp_peek _ _ (top z)); [done|]. apply wp_bind.
  apply (parent_test _ _ b a); [apply repz_insert; tauto|done|tauto|done|].
  intros h1 Rz1 H1. apply wp_bind.
  apply (wp_SET_CHILD _ _ _ _ na); [rewrite H1 by tauto; by rewrite lookup_insert_ne|done|].
  apply wp_poke; [by apply lookup_lt_Some in Hk|]. apply HQ.
  apply (owns_update h _ _ _ Ho).
  { by rewrite !addrs_plug, rot_perm, rot_perm'. }
  - apply rep_plug. rewrite root_nd. split; [|apply repz_insert; tauto].
    assert (Rk : forall t, a ∉ addrs t -> b ∉ addrs t -> (forall x, x ∈ addrs t -> x ∉ zaddrs z) ->
              rep h t -> rep (<[a := with_child d b na]> h1) t).
    { intros t Hat Hbt Hzt. apply rep_ext. intros x Hx.
      rewrite lookup_insert_ne by (intros <-; done). rewrite H1 by by apply Hzt.
      apply lookup_insert_ne. by intros <-. }
    assert (Hz3 : forall x, x ∈ addrs o \/ x ∈ addrs m \/ x ∈ addrs s -> x ∉ zaddrs z).
    { intros x Hx. apply Hds. rewrite !elem_of_app. tauto. }
    assert (Ro' := Rk o ltac:(tauto) ltac:(tauto) ltac:(auto) Ro).
    assert (Rm' := Rk m ltac:(tauto) ltac:(tauto) ltac:(auto) Rm).
    assert (Rs' := Rk s ltac:(tauto) ltac:(tauto) ltac:(auto) Rs).
    assert (Ln : <[a := with_child d b na]> h1 !! b = Some (with_child (flip d) (root m) nb)).
    { rewrite lookup_insert_ne, H1 by (done || tauto). apply lookup_insert_eq. }
    pose proof (lookup_insert_eq h1 a (with_child d b na)) as La.
    clear - Ln La Nb Na Ro' Rm' Rs' Cb Fb Kb Vb Ca Fa Ka Va.
    destruct na, nb, d; simpl in *; subst; split_and!; done.
  - intros x Hx. rewrite addrs_plug, rot_perm, !not_elem_of_cons, !not_elem_of_app in Hx.
    rewrite lookup_insert_ne by (intros <-; tauto). rewrite H1 by tauto.
    apply lookup_insert_ne. intros <-. tauto.
Qed.

End owned.

End trees.
