(* ===== verification/RbtreeInv.v ===== *)
(** * Red-black trees: the invariant

    [rb t]: no red node has a red child, and all paths have the same number of
    black nodes.  [zok z n]: a context that can take a subtree of black height [n].
    The height is at most twice the logarithm of the size, which bounds the stack of
    the updates. *)

From stdpp Require Export sorting.
From S2P Require Export RbtreeRep.

Section invariant.
Context {V : Type}.
Implicit Types (t l r s : tree V) (f : frame V) (z : list (frame V)) (d : dir).

Fixpoint nored t : Prop :=
  match t with
  | E => True
  | T c l _ _ r => (c = 0 -> isred l = false /\ isred r = false) /\ nored l /\ nored r
  end.

Fixpoint bh t (n : nat) : Prop :=
  match t with
  | E => n = 0%nat
  | T c l _ _ r =>
      if c =? 0 then bh l n /\ bh r n else exists m, n = S m /\ bh l m /\ bh r m
  end.

Definition rb t : Prop := nored t /\ exists n, bh t n.

(** The node that a subtree hangs from is there and black. *)
Definition black_top z : Prop := match z with [] => False | f :: _ => fcol f <> 0 end.

#[export] Instance black_top_dec z : Decision (z = [] \/ black_top z).
Proof. destruct z; [left; by left|]. simpl. destruct (decide (fcol f = 0)); [right; naive_solver|left; by right]. Defined.

Fixpoint zok z (n : nat) : Prop :=
  match z with
  | [] => True
  | f :: z =>
      nored (fsib f) /\ bh (fsib f) n /\
      (fcol f = 0 -> isred (fsib f) = false /\ black_top z) /\
      zok z (if fcol f =? 0 then n else S n)
  end.

Lemma nored_nd d c t a v s :
  nored (nd d c t a v s) <-> (c = 0 -> isred t = false /\ isred s = false) /\ nored t /\ nored s.
Proof. destruct d; simpl; tauto. Qed.

Lemma bh_nd d c t a v s n :
  bh (nd d c t a v s) n <->
    if c =? 0 then bh t n /\ bh s n else exists m, n = S m /\ bh t m /\ bh s m.
Proof. destruct d; simpl; destruct (c =? 0); naive_solver. Qed.

Lemma isred_nd d c t a v s : isred (nd d c t a v s) = (c =? 0).
Proof. by destruct d. Qed.

Lemma bh_red d t a v s n : bh (nd d 0 t a v s) n <-> bh t n /\ bh s n.
Proof. by rewrite bh_nd. Qed.

Lemma bh_black d c t a v s n :
  c <> 0 -> bh (nd d c t a v s) n <-> exists m, n = S m /\ bh t m /\ bh s m.
Proof. intros Hc. by rewrite bh_nd, (proj2 (Z.eqb_neq _ _) Hc). Qed.

(** A subtree put into a context. *)
Lemma zok_plug z n t :
  zok z n -> nored t -> bh t n -> (isred t = true -> z = [] \/ black_top z) -> rb (plug z t).
Proof.
  revert n t. induction z as [|f z IH]; intros n t Hz Hn Hb Ht; simpl in *.
  { split; [done|by exists n]. }
  destruct Hz as (Ns & Bs & Hf & Hz).
  apply (IH (if fcol f =? 0 then n else S n)); [done|..]; unfold plug1.
  - apply nored_nd. split_and!; [|done|done]. intros Hc. split; [|by apply Hf].
    destruct (isred t) eqn:E; [|done]. by destruct (Ht eq_refl).
  - apply bh_nd. destruct (fcol f =? 0); [done|eauto].
  - rewrite isred_nd. intros Hc%Z.eqb_eq. right. by apply Hf.
Qed.

(** Going down to a child. *)
Lemma zok_down z n d c t a v s :
  zok z n -> nored (nd d c t a v s) -> bh (nd d c t a v s) n -> (c = 0 -> black_top z) ->
  exists m, zok (F d c a v s :: z) m /\ nored t /\ bh t m /\
    (isred t = true -> black_top (F d c a v s :: z)).
Proof.
  intros Hz Hn Hb Hc. apply nored_nd in Hn as (Hr & Nt & Ns). apply bh_nd in Hb. simpl.
  destruct (Z.eqb_spec c 0) as [->|Hc0].
  - exists n. destruct Hb as [Bt Bs], (Hr eq_refl) as [Rt Rs].
    split_and!; try done; [naive_solver|]. by rewrite Rt.
  - destruct Hb as (m & -> & Bt & Bs). exists m. split_and!; try done.
Qed.

(** ** Height and size *)

Fixpoint tsize t : nat := match t with E => 0%nat | T _ l _ _ r => S (tsize l + tsize r) end.

Lemma tsize_elems t : tsize t = length (elems t).
Proof. induction t; simpl; [done|]. rewrite length_app. simpl. lia. Qed.

Lemma tsize_addrs t : tsize t = length (addrs t).
Proof. induction t; simpl; [done|]. rewrite length_app. lia. Qed.

Lemma bh_size t n : bh t n -> (2 ^ n <= S (tsize t))%nat.
Proof.
  revert n. induction t as [|c l IHl a v r IHr]; intros n Hb; simpl in *; [by subst|].
  destruct (c =? 0).
  - destruct Hb as [Bl Br]. apply IHl in Bl. lia.
  - destruct Hb as (m & -> & Bl & Br). apply IHl in Bl. apply IHr in Br. simpl. lia.
Qed.

Lemma bh_height t n :
  nored t -> bh t n -> (height t <= 2 * n + (if isred t then 1 else 0))%nat.
Proof.
  revert n. induction t as [|c l IHl a v r IHr]; intros n Hn Hb; simpl in *; [lia|].
  destruct Hn as (Hc & Nl & Nr). unfold isred at 1. simpl.
  destruct (Z.eqb_spec c 0) as [->|Hc0].
  - destruct Hb as [Bl Br], (Hc eq_refl) as [Rl Rr].
    specialize (IHl _ Nl Bl). specialize (IHr _ Nr Br). rewrite Rl in IHl. rewrite Rr in IHr. lia.
  - destruct Hb as (m & -> & Bl & Br). specialize (IHl _ Nl Bl). specialize (IHr _ Nr Br).
    destruct (isred l), (isred r); lia.
Qed.

(** A black-rooted tree of [n] nodes is at most [2 log2 (n + 1)] high. *)
Lemma rb_height t :
  rb t -> isred t = false ->
  Z.of_nat (height t) <= 2 * Z.log2 (Z.of_nat (tsize t) + 1).
Proof.
  intros [Hn [n Hb]] Hr. pose proof (bh_height t n Hn Hb) as Hh. rewrite Hr in Hh.
  pose proof (bh_size t n Hb) as Hs.
  assert (Z.of_nat n <= Z.log2 (Z.of_nat (tsize t) + 1)); [|lia].
  apply Z.log2_le_pow2; [lia|]. apply inj_le in Hs. rewrite Nat2Z.inj_pow in Hs. simpl in Hs. lia.
Qed.

Lemma length_height z t : (length z + height t <= height (plug z t))%nat.
Proof.
  revert t. induction z as [|[d c a v s] z IH]; intros t; simpl; [lia|].
  specialize (IH (nd d c t a v s)). unfold plug1. simpl.
  assert (S (height t) <= height (nd d c t a v s))%nat by (destruct d; simpl; lia). lia.
Qed.

(** ** Order *)

(** The elements are in order for the comparison with a key: those above the key
    ([compare] is positive) come first, those below it last, and at most one is equal. *)
Definition before (compare : V -> Z) (x y : N * V) : Prop := 0 < compare x.2 \/ compare y.2 < 0.
Definition ordered (compare : V -> Z) (es : list (N * V)) : Prop :=
  StronglySorted (before compare) es.

Definition all_pos (compare : V -> Z) (es : list (N * V)) : Prop :=
  Forall (fun x => 0 < compare x.2) es.
Definition all_neg (compare : V -> Z) (es : list (N * V)) : Prop :=
  Forall (fun x => compare x.2 < 0) es.

Lemma ordered_app compare xs ys :
  ordered compare (xs ++ ys) <->
  ordered compare xs /\ ordered compare ys /\
  forall x y, x ∈ xs -> y ∈ ys -> before compare x y.
Proof.
  unfold ordered. rewrite StronglySorted_app. tauto.
Qed.

(** What the comparison with an element says about the elements around it. *)
Lemma ordered_neg compare xs a v ys :
  ordered compare (xs ++ (a, v) :: ys) -> compare v <= 0 -> all_neg compare ys.
Proof.
  intros (_ & [_ Hs]%StronglySorted_inv & _)%ordered_app Hv. unfold all_neg.
  apply (Forall_impl _ (P := before compare (a, v))); [|done].
  intros y [Hy|Hy]; simpl in *; [lia|done].
Qed.

Lemma ordered_pos compare xs a v ys :
  ordered compare (xs ++ (a, v) :: ys) -> 0 <= compare v -> all_pos compare xs.
Proof.
  intros (_ & _ & Hs)%ordered_app Hv. apply list.Forall_forall. intros x Hx.
  destruct (Hs x (a, v) Hx) as [H|H]; [by left|done|]. simpl in H. lia.
Qed.

(** ** Trees with their size

    The colour of the root doubles as the number of nodes. *)

Definition valid_tree t : Prop := rb t /\ (t = E \/ colour t = Z.of_nat (tsize t)).

(** The heap holds a tree, whose root has the address [p]. *)
Definition is_rbtree (h : heap V) (p : N) t : Prop :=
  p = root t /\ rep h t /\ NoDup (addrs t) /\ valid_tree t.

Lemma valid_black t : valid_tree t -> isred t = false.
Proof.
  intros [_ [->|Hc]]; [done|]. destruct t; [done|]. apply Z.eqb_neq. cbn [colour tsize] in *. lia.
Qed.

Lemma is_rbtree_owns h p t : is_rbtree h p t -> owns h (addrs t) h t.
Proof. intros (_ & R & D & _). by split_and!. Qed.

(** A root recoloured with the size. *)
Lemma rb_recolour c c' l a v r : c' <> 0 -> rb (T c l a v r) -> rb (T c' l a v r).
Proof.
  intros Hc [(Hr & Nl & Nr) [n Hb]]. split; [simpl; naive_solver|]. simpl in *.
  rewrite (proj2 (Z.eqb_neq _ _) Hc). destruct (c =? 0); [exists (S n); eauto|eauto].
Qed.

Lemma valid_recolour c c' l a v r :
  rb (T c l a v r) -> c' = Z.of_nat (tsize (T c l a v r)) -> valid_tree (T c' l a v r).
Proof. intros Hrb ->. split; [|by right]. apply (rb_recolour c); [simpl; lia|done]. Qed.

(** ** The stack is large enough *)

Lemma stack_size_eq n :
  0 <= n -> n + 1 < 2 ^ 64 -> Z.of_nat (stack_size n) = 2 * Z.log2 (n + 1) + 3.
Proof.
  intros Hn Hb. unfold stack_size, wadd. rewrite wrap_small by (unfold word; lia).
  rewrite cu_ulong_floor_log2_word, cu_word_floor_log2_spec by (unfold word; lia).
  pose proof (Z.log2_nonneg (n + 1)). lia.
Qed.

Lemma stack_enough t :
  valid_tree t -> Z.of_nat (tsize t) + 1 < 2 ^ 64 ->
  (height t + 3 <= stack_size (Z.of_nat (tsize t)))%nat.
Proof.
  intros Hv Hs. pose proof (rb_height t (proj1 Hv) (valid_black t Hv)) as Hh.
  pose proof (stack_size_eq (Z.of_nat (tsize t)) ltac:(lia) Hs) as Hc. lia.
Qed.

Lemma wp_size h p t Q :
  is_rbtree h p t -> Q (Z.of_nat (tsize t)) h -> wp (cucon_rbtree_size p) Q h.
Proof.
  intros Ht HQ. pose proof (is_rbtree_owns _ _ _ Ht) as Ho.
  destruct Ht as (-> & _ & _ & [_ Hv]). unfold cucon_rbtree_size.
  destruct t as [|c l a v r]; simpl; [by apply wp_ret|].
  destruct (owns_at _ [] _ _ _ _ _ Ho) as [Ea Na].
  rewrite (proj2 (N.eqb_neq a NULL) Na). apply (wp_COLOUR _ _ _ _ Ea Na). simpl.
  destruct Hv as [|Hv]; [done|]. simpl in Hv. by rewrite Hv.
Qed.

Lemma wp_root_black h p t Q :
  is_rbtree h p t -> Q true h -> wp (is_nil_or_black p) Q h.
Proof.
  intros Ht HQ. pose proof (is_rbtree_owns _ _ _ Ht) as Ho.
  destruct Ht as (-> & _ & _ & Hv).
  apply (wp_nil_or_black _ [] _ _ Ho). by rewrite (valid_black t Hv).
Qed.

End invariant.
