(* ===== verification/RbtreeInsert.v ===== *)
(** * Red-black trees: insertion

    The search pushes the path to the hole, the new node is linked there, and the
    loop of rotations and recolourings restores the invariant on the way up. *)

From S2P Require Export RbtreeInv.

Section insert.
Context {V : Type}.
Implicit Types (t l r s : tree V) (f : frame V) (z : list (frame V)) (d : dir) (h : heap V).

(** ** Stacks of contexts *)

Lemma stk_top z : stk z !! 0%nat = Some (top z).
Proof. by destruct z. Qed.

Lemma root_plug z t t' : z <> [] -> root (plug z t) = root (plug z t').
Proof.
  revert t t'. induction z as [|f z IH]; intros t t' Hz; simpl; [done|].
  destruct z as [|f' z]; [simpl; unfold plug1; by rewrite !root_nd|]. by apply IH.
Qed.

Lemma sp_root_stk z t p :
  (z = [] -> p = root t) -> sp_root (p :: stk z) = [root (plug z t); NULL].
Proof.
  intros Hp. unfold sp_root. rewrite length_cons, length_stk.
  destruct z as [|f z] using rev_ind; [by rewrite Hp|]. clear IHz Hp.
  replace (S (S (length (z ++ [f]))) - 2)%nat with (S (length z)) by (rewrite length_app; simpl; lia).
  unfold stk. rewrite map_app, <- app_assoc. simpl.
  rewrite drop_app_length' by by rewrite length_map.
  rewrite plug_app. simpl. unfold plug1. by rewrite root_nd.
Qed.

Section owned.
Context {h0 : heap V} {A : list N}.

(** Two children of a node are not the same. *)
Lemma distinct_children h z d c t a v s :
  owns h0 A h (plug z (nd d c t a v s)) -> (root t <> NULL \/ root s <> NULL) -> root t <> root s.
Proof.
  intros Ho Hn E. apply nodup_plug, list.NoDup_app in Ho as [Hd _].
  assert (Hx : exists p, p ∈ addrs t /\ p ∈ addrs s).
  { exists (root t). split; apply root_in; try done; destruct Hn; congruence. }
  destruct Hx as (p & Ht & Hs).
  destruct d; simpl in Hd; apply list.NoDup_cons in Hd as [_ (_ & Hd & _)%list.NoDup_app];
    by apply (Hd p).
Qed.

(** The test whether a node is the left child of its parent. *)
Lemma wp_which h z d c t a v s p (B : Type) (k : dir -> M V B) Q :
  owns h0 A h (plug z (nd d c t a v s)) -> root t = p -> (root t <> NULL \/ root s <> NULL) ->
  wp (k d) Q h ->
  wp (l ← LEFT a; k (if (p =? l)%N then L else R)) Q h.
Proof.
  intros Ho <- Hn HQ. pose proof (distinct_children _ _ _ _ _ _ _ _ Ho Hn) as Hne.
  apply wp_bind. destruct d; simpl in Ho.
  - apply (wp_child_near _ _ L _ _ _ _ _ _ Ho). by rewrite N.eqb_refl.
  - apply (wp_child_far _ _ R _ _ _ _ _ _ Ho). by rewrite (proj2 (N.eqb_neq _ _)).
Qed.

Lemma wp_is_red_at h z t p Q :
  owns h0 A h (plug z t) -> root t = p -> Q (isred t) h -> wp (is_red_node p) Q h.
Proof. intros Ho <-. exact (wp_is_red h z t Q Ho). Qed.

(** The loop stops at a black or missing parent. *)
Lemma wp_rebalance_stop fuel sp p z t h (Q : list N -> heap V -> Prop) :
  owns h0 A h (plug z t) -> root t = p -> isred t = false -> sp !! 1%nat = Some p ->
  Q sp h -> wp (rebalance_loop (S fuel) sp) Q h.
Proof.
  intros Ho <- Hr Hp HQ. simpl. apply wp_bind, (wp_peek _ _ _ _ _ Hp), wp_bind.
  apply (wp_is_red _ _ _ _ Ho). rewrite Hr. by apply wp_ret.
Qed.

(** What the loop leaves. *)
Definition rebalanced (es : list (N * V)) (sp : list N) h : Prop :=
  exists t, owns h0 A h t /\ elems t = es /\ rb t /\ sp_root sp = [root t; NULL].

Lemma rebalanced_plug z t n p h :
  owns h0 A h (plug z t) -> zok z n -> nored t -> bh t n ->
  (isred t = true -> z = [] \/ black_top z) -> (z = [] -> p = root t) ->
  rebalanced (elems (plug z t)) (p :: stk z) h.
Proof.
  intros Ho Hz Hn Hb Ht Hp. exists (plug z t). split_and!; [done..| |].
  - by apply (zok_plug z n).
  - by apply sp_root_stk.
Qed.

(** ** One turn of the loop *)

Lemma plug_sib z d c t a v s : plug z (nd d c t a v s) = plug (F (flip d) c a v t :: z) s.
Proof. by destruct d. Qed.

Lemma plug_cons d c a v s z t : plug (F d c a v s :: z) t = plug z (nd d c t a v s).
Proof. done. Qed.

Lemma flip_flip d : flip (flip d) = d.
Proof. by destruct d. Qed.

Lemma nd_flip d c t a v s : nd d c t a v s = nd (flip d) c s a v t.
Proof. by destruct d. Qed.

Lemma sp_root_cons p sp : (2 <= length sp)%nat -> sp_root (p :: sp) = sp_root sp.
Proof.
  intros Hl. unfold sp_root. rewrite length_cons.
  by replace (S (length sp) - 2)%nat with (S (length sp - 2)) by lia.
Qed.

(** A red uncle: recolouring, two levels up. *)
Lemma wp_step_recolour h z d c2 d1 c1 t a1 v1 s1 a2 v2 s2 sp (Q : list N -> heap V -> Prop) :
  owns h0 A h (plug z (nd d c2 (nd d1 c1 t a1 v1 s1) a2 v2 s2)) -> isred s2 = true ->
  sp !! 1%nat = Some a1 -> sp !! 2%nat = Some a2 ->
  (forall h' l2 b2 w2 r2, s2 = T 0 l2 b2 w2 r2 ->
     owns h0 A h' (plug z (nd d 0 (nd d1 1 t a1 v1 s1) a2 v2 (T 1 l2 b2 w2 r2))) ->
     Q (drop 2 sp) h') ->
  wp (rebalance_step d sp) Q h.
Proof.
  intros Ho Hr H1 H2 HQ. unfold rebalance_step.
  apply wp_bind, (wp_peek _ _ _ _ _ H1), wp_bind, (wp_peek _ _ _ _ _ H2), wp_bind.
  apply (wp_child_far _ _ _ _ _ _ _ _ _ Ho), wp_bind.
  rewrite plug_sib in Ho. apply (wp_is_red _ _ _ _ Ho). rewrite Hr.
  destruct s2 as [|c l2 b2 w2 r2]; [done|]. apply Z.eqb_eq in Hr. simpl in Hr. subst c.
  rewrite <- plug_sib in Ho.
  apply wp_bind, (wp_set_colour_nd _ (F d c2 a2 v2 (T 0 l2 b2 w2 r2) :: z) _ _ _ _ _ _ _ _ Ho).
  clear h Ho. intros h Ho. rewrite plug_cons, plug_sib in Ho.
  apply wp_bind, (wp_set_colour _ _ _ _ _ _ _ _ _ Ho). clear h Ho. intros h Ho.
  rewrite <- plug_sib in Ho.
  apply wp_bind, (wp_set_colour_nd _ _ _ _ _ _ _ _ _ _ Ho). clear h Ho. intros h Ho.
  apply wp_ret. by eapply HQ.
Qed.

(** A black uncle on the other side of the parent: one rotation. *)
Lemma wp_step_outer h z d c2 c1 t a1 v1 s1 a2 v2 s2 (Q : list N -> heap V -> Prop) :
  owns h0 A h (plug z (nd d c2 (nd d c1 t a1 v1 s1) a2 v2 s2)) -> isred s2 = false ->
  root t <> NULL ->
  (forall h', owns h0 A h' (plug z (nd d 1 t a1 v1 (nd d 0 s1 a2 v2 s2))) ->
     Q (root t :: a1 :: a1 :: stk z) h') ->
  wp (rebalance_step d (root t :: a1 :: a2 :: stk z)) Q h.
Proof.
  intros Ho Hr Ht HQ. unfold rebalance_step.
  apply wp_bind, (wp_peek _ 1 a1); [done|]. apply wp_bind, (wp_peek _ 2 a2); [done|].
  apply wp_bind, (wp_child_far _ _ _ _ _ _ _ _ _ Ho), wp_bind.
  rewrite plug_sib in Ho. apply (wp_is_red _ _ _ _ Ho). rewrite Hr. rewrite <- plug_sib in Ho.
  apply wp_bind, (wp_peek _ 0 (root t)); [done|]. rewrite <- plug_cons in Ho.
  apply wp_bind, (wp_child_far _ _ _ _ _ _ _ _ _ Ho), wp_bind.
  rewrite (proj2 (N.eqb_neq (root t) (root s1))) by (eapply distinct_children; eauto).
  apply wp_ret, wp_bind, (wp_peek _ 1 a1); [done|].
  apply wp_bind, (wp_set_colour_nd _ _ _ _ _ _ _ _ _ _ Ho). clear h Ho. intros h Ho.
  rewrite plug_cons in Ho.
  apply wp_bind, (wp_set_colour_nd _ _ _ _ _ _ _ _ _ _ Ho). clear h Ho. intros h Ho.
  rewrite <- (flip_flip d) in Ho.
  apply (wp_rotate _ _ _ _ _ _ _ _ _ _ _ _ _ _ _ Ho); [done|apply stk_top|].
  clear h Ho. intros h Ho. simpl. rewrite flip_flip, <- nd_flip in Ho. by apply HQ.
Qed.

(** On the same side: the node is first rotated above its parent. *)
Lemma wp_step_inner h z d c2 c1 c m a v o a1 v1 s1 a2 v2 s2 (Q : list N -> heap V -> Prop) :
  owns h0 A h (plug z (nd d c2 (nd (flip d) c1 (nd d c m a v o) a1 v1 s1) a2 v2 s2)) ->
  isred s2 = false ->
  (forall h',
     owns h0 A h' (plug z (nd d 1 (nd d c1 s1 a1 v1 m) a v (nd d 0 o a2 v2 s2))) ->
     Q (a :: a :: a :: stk z) h') ->
  wp (rebalance_step d (a :: a1 :: a2 :: stk z)) Q h.
Proof.
  intros Ho Hr HQ. unfold rebalance_step.
  apply wp_bind, (wp_peek _ 1 a1); [done|]. apply wp_bind, (wp_peek _ 2 a2); [done|].
  apply wp_bind, (wp_child_far _ _ _ _ _ _ _ _ _ Ho), wp_bind.
  rewrite plug_sib in Ho. apply (wp_is_red _ _ _ _ Ho). rewrite Hr. rewrite <- plug_sib in Ho.
  apply wp_bind, (wp_peek _ 0 a); [done|]. rewrite <- plug_cons in Ho.
  apply wp_bind, (wp_child_near _ _ _ _ _ _ _ _ _ Ho), wp_bind.
  rewrite root_nd, N.eqb_refl, (nd_flip d c m) in *.
  apply (wp_rotate _ _ _ _ _ _ _ _ _ _ _ _ _ _ _ Ho); [done|done|].
  clear h Ho. intros h Ho. cbn [insert list_insert] in *.
  apply wp_bind, (wp_peek _ 1 a); [done|].
  apply wp_bind, (wp_set_colour_nd _ _ _ _ _ _ _ _ _ _ Ho). clear h Ho. intros h Ho.
  rewrite plug_cons in Ho.
  apply wp_bind, (wp_set_colour_nd _ _ _ _ _ _ _ _ _ _ Ho). clear h Ho. intros h Ho.
  rewrite <- (flip_flip d) in Ho.
  apply (wp_rotate _ _ _ _ _ _ _ _ _ _ _ _ _ _ _ Ho); [done|apply stk_top|].
  clear h Ho. intros h Ho. simpl. rewrite flip_flip, <- !nd_flip in Ho. by apply HQ.
Qed.

(** ** The loop *)

Lemma elems_rot_outer d c2 c1 t a1 v1 s1 a2 v2 s2 c c' :
  elems (nd d c t a1 v1 (nd d c' s1 a2 v2 s2)) = elems (nd d c2 (nd d c1 t a1 v1 s1) a2 v2 s2).
Proof. destruct d; simpl; rewrite <- ?app_assoc; simpl; by rewrite <- ?app_assoc. Qed.

Lemma elems_rot_inner d c2 c1 c m a v o a1 v1 s1 a2 v2 s2 c' c'' c3 :
  elems (nd d c' (nd d c'' s1 a1 v1 m) a v (nd d c3 o a2 v2 s2)) =
  elems (nd d c2 (nd (flip d) c1 (nd d c m a v o) a1 v1 s1) a2 v2 s2).
Proof. destruct d; simpl; rewrite <- ?app_assoc; simpl; by rewrite <- ?app_assoc. Qed.

Lemma elems_plug_eq z t t' : elems t = elems t' -> elems (plug z t) = elems (plug z t').
Proof. intros E. by rewrite !elems_plug, E. Qed.

(** The invariants of the subtrees that a red parent with a black uncle has. *)
Lemma bh_pos d c t a v s n : c <> 0 -> bh (nd d c t a v s) n -> exists m, n = S m /\ bh t m /\ bh s m.
Proof. intros Hc. by rewrite bh_black. Qed.

Lemma rebalanced_stop fuel p q z t n es h :
  owns h0 A h (plug z t) -> zok z n -> nored t -> bh t n -> isred t = false -> root t = p ->
  es = elems (plug z t) ->
  wp (rebalance_loop (S fuel) (q :: p :: p :: stk z)) (rebalanced es) h.
Proof.
  intros Ho Hz Hn Hb Hr Hp ->.
  apply (wp_rebalance_stop _ _ p z t); [done..|].
  assert (Hreb : rebalanced (elems (plug z t)) (p :: stk z) h).
  { apply (rebalanced_plug _ _ n); [done..|by rewrite Hr|done]. }
  destruct Hreb as (t' & Ho' & He & Hrb & Hs). exists t'. split_and!; [done..|].
  rewrite 2!sp_root_cons by (simpl; rewrite length_stk; lia). done.
Qed.

Lemma rebalance_loop_S fuel sp :
  rebalance_loop (V := V) (S fuel) sp =
    (p ← peek sp 1; r ← is_red_node p;
     if r : bool then
       g ← peek sp 2; l ← LEFT g;
       sp ← rebalance_step (if (p =? l)%N then L else R) sp; rebalance_loop fuel sp
     else mret sp).
Proof. done. Qed.

Lemma dir_cases d1 d : d1 = d \/ d1 = flip d.
Proof. destruct d1, d; auto. Qed.

Lemma red_nd d t : isred t = true -> exists m a v o, t = nd d 0 m a v o.
Proof.
  destruct t as [|c l a v r]; [done|]. intros Hc%Z.eqb_eq. simpl in Hc. subst.
  destruct d; [by exists l, a, v, r|by exists r, a, v, l].
Qed.

Lemma wp_rebalance_loop fuel z t n h :
  (length z < fuel)%nat -> owns h0 A h (plug z t) -> zok z n -> nored t -> bh t n ->
  isred t = true -> root t <> NULL ->
  wp (rebalance_loop fuel (root t :: stk z)) (rebalanced (elems (plug z t))) h.
Proof.
  revert z t n h. induction fuel as [|fuel IH]; intros z t n h Hf Ho Hz Hn Hb Hr Ht; [lia|].
  destruct (decide (z = [] \/ black_top z)) as [Hb0|Hb0].
  { simpl. apply wp_bind, (wp_peek _ 1 (top z)); [apply stk_top|]. apply wp_bind.
    assert (Hw : forall Q : bool -> heap V -> Prop, Q false h -> wp (is_red_node (top z)) Q h).
    { intros Q HQ. destruct z as [|f z]; [by apply wp_ret|].
      destruct Hb0 as [|Hb0]; [done|]. simpl in Ho, Hb0. destruct f as [d c a v s].
      unfold plug1 in Ho. simpl in *. rewrite <- (root_nd d c t a v s).
      apply (wp_is_red _ _ _ _ Ho). by rewrite isred_nd, (proj2 (Z.eqb_neq _ _) Hb0). }
    apply Hw, wp_ret, (rebalanced_plug _ _ n); auto. }
  destruct z as [|[d1 c1 a1 v1 s1] [|[d c2 a2 v2 s2] z]]; [naive_solver| |].
  { simpl in Hz, Hb0. destruct Hz as (_ & _ & Hc & _). destruct Hb0. right. tauto. }
  simpl in Hb0. assert (c1 = 0) as -> by (apply dec_stable; tauto). clear Hb0.
  simpl in Hz. destruct Hz as (Ns1 & Bs1 & Hc1 & Ns2 & Bs2 & Hc2 & Hz).
  destruct (Hc1 eq_refl) as [Rs1 Hc2']. clear Hc1.
  rewrite (proj2 (Z.eqb_neq _ _) Hc2') in Hz.
  change (plug _ t) with (plug z (nd d c2 (nd d1 0 t a1 v1 s1) a2 v2 s2)) in *.
  assert (H1 : a1 <> NULL) by apply (owns_nd _ (F d c2 a2 v2 s2 :: z) d1 0 t a1 v1 s1 Ho).
  rewrite rebalance_loop_S.
  apply wp_bind, (wp_peek _ 1 a1); [done|]. apply wp_bind.
  apply (wp_is_red_at _ (F d c2 a2 v2 s2 :: z) _ _ _ Ho); [apply root_nd|]. rewrite isred_nd.
  cbn [Z.eqb]. apply wp_bind, (wp_peek _ 2 a2); [done|].
  apply (wp_which _ z d c2 (nd d1 0 t a1 v1 s1) a2 v2 s2 a1 _
           (fun d => sp ← rebalance_step d (root t :: a1 :: a2 :: stk z); rebalance_loop fuel sp));
    [done|apply root_nd|left; by rewrite root_nd|].
  apply wp_bind. destruct (isred s2) eqn:Rs2.
  - apply (wp_step_recolour _ _ _ _ _ _ _ _ _ _ _ _ _ _ _ Ho); [done|done|done|].
    clear h Ho. intros h l2 b2 w2 r2 -> Ho. simpl in Bs2, Ns2 |- *.
    rewrite <- (root_nd d 0 (nd d1 1 t a1 v1 s1) a2 v2 (T 1 l2 b2 w2 r2)).
    rewrite (elems_plug_eq z _ (nd d 0 (nd d1 1 t a1 v1 s1) a2 v2 (T 1 l2 b2 w2 r2)))
      by (destruct d, d1; done).
    apply (IH z _ (S n)); [simpl in Hf; lia|done|done| | | |].
    + rewrite !nored_nd, !isred_nd. simpl. naive_solver.
    + rewrite bh_red, bh_black by done. split; [eauto|]. simpl. naive_solver.
    + by rewrite isred_nd.
    + rewrite root_nd. apply (owns_nd _ _ _ _ _ _ _ _ Ho).
  - destruct fuel as [|fuel]; [simpl in Hf; lia|].
    destruct (dir_cases d1 d) as [->| ->].
    + apply (wp_step_outer _ _ _ _ _ _ _ _ _ _ _ _ _ Ho); [done|done|].
      clear h Ho. intros h Ho. 
      rewrite <- (elems_plug_eq z _ _ (elems_rot_outer d c2 0 t a1 v1 s1 a2 v2 s2 1 0)).
      apply (rebalanced_stop _ _ _ _ _ (S n) _ _ Ho); [done| | | | |done].
      * rewrite !nored_nd, !isred_nd. simpl. naive_solver.
      * rewrite bh_black by done. exists n. by rewrite bh_red.
      * by rewrite isred_nd.
      * by apply root_nd.
    + destruct (red_nd d t Hr) as (m & a & v & o & ->).
      rewrite root_nd in *. rewrite nored_nd, bh_red in *.
      destruct Hn as (Hmo & Nm & No), (Hmo eq_refl) as [Rm Ro], Hb as [Bm Bo].
      apply (wp_step_inner _ _ _ _ _ _ _ _ _ _ _ _ _ _ _ _ _ Ho); [done|].
      clear h Ho. intros h Ho.
      rewrite <- (elems_plug_eq z _ _ (elems_rot_inner d c2 0 0 m a v o a1 v1 s1 a2 v2 s2 1 0 0)).
      apply (rebalanced_stop _ _ _ _ _ (S n) _ _ Ho); [done| | | | |done].
      * rewrite !nored_nd, !isred_nd. simpl. naive_solver.
      * rewrite bh_black by done. exists n. by rewrite !bh_red.
      * by rewrite isred_nd.
      * by apply root_nd.
Qed.

(** ** The search *)

(** The direction in which the search leaves a context. *)
Definition leaves z (cmp : Z) : Prop :=
  match z with
  | [] => True
  | f :: _ => match fdir f with L => cmp < 0 | R => 0 < cmp end
  end.

(** What the search finds: a node that compares equal, or a hole. *)
Definition found_at compare (u : tree V) z t (res : list N * N * Z) : Prop :=
  u = plug z t /\ all_pos compare (zl z) /\ all_neg compare (zr z) /\
  (exists n, zok z n /\ nored t /\ bh t n /\ (isred t = true -> black_top z)) /\
  match t with
  | E => res.1 = (stk z, NULL) /\ leaves z res.2
  | T _ _ a v _ => res.1 = (a :: stk z, a) /\ compare v = 0
  end.

Lemma wp_descend compare fuel cap z t n cmp h :
  (height t < fuel)%nat -> (length (stk z) + height t <= cap)%nat ->
  owns h0 A h (plug z t) -> ordered compare (elems (plug z t)) ->
  all_pos compare (zl z) -> all_neg compare (zr z) ->
  zok z n -> nored t -> bh t n -> (isred t = true -> black_top z) -> (t = E -> leaves z cmp) ->
  wp (descend fuel cap compare (stk z) (root t) cmp)
    (fun res h' => h' = h /\ exists z' t', found_at compare (plug z t) z' t' res) h.
Proof.
  revert z t n cmp. induction fuel as [|fuel IH]; intros z t n cmp Hf Hcap Ho Hs Hp Hn Hz Nt Bt Rt Hl;
    [lia|]. destruct t as [|c l a v r].
  { simpl. apply wp_ret. split; [done|]. exists z, E. unfold found_at. simpl.
    split_and!; eauto. }
  destruct (owns_at _ _ _ _ _ _ _ Ho) as [Ea Na]. simpl root. cbn [descend].
  rewrite (proj2 (N.eqb_neq a NULL) Na).
  rewrite length_stk in Hcap. apply wp_bind, wp_push; [rewrite length_stk; simpl in Hcap; lia|]. apply wp_bind, (wp_mem _ _ _ _ Ea Na). cbn [slot].
  assert (Hs0 := Hs).
  rewrite elems_plug in Hs. simpl in Hs. rewrite <- app_assoc, app_assoc in Hs. simpl in Hs.
  simpl in Hf, Hcap.
  destruct (Z.ltb_spec (compare v) 0) as [Hc|Hc]; [|destruct (Z.ltb_spec 0 (compare v)) as [Hc'|Hc']].
  - apply wp_bind. unfold LEFT. apply (wp_CHILD _ _ _ _ _ Ea Na). simpl child.
    destruct (zok_down z n L c l a v r Hz Nt Bt) as (m & Hz' & Nl & Bl & Rl).
    { intros ->. by apply Rt. }
    pose proof (ordered_neg _ _ _ _ _ Hs ltac:(lia)) as Hneg.
    change (a :: stk z) with (stk (F L c a v r :: z)).
    change (plug z (T c l a v r)) with (plug (F L c a v r :: z) l) in *.
    apply (IH _ _ m); simpl; try done; try lia.
    + change (length (stk (F L c a v r :: z)) + height l <= cap)%nat. rewrite length_stk. simpl. lia.
    + by constructor.
  - apply wp_bind. unfold RIGHT. apply (wp_CHILD _ _ _ _ _ Ea Na). simpl child.
    destruct (zok_down z n R c r a v l Hz) as (m & Hz' & Nl & Bl & Rl).
    { simpl in Nt |- *. naive_solver. }
    { apply bh_nd. simpl in Bt. destruct (c =? 0); naive_solver. }
    { intros ->. by apply Rt. }
    pose proof (ordered_pos _ _ _ _ _ Hs ltac:(lia)) as Hpos.
    change (a :: stk z) with (stk (F R c a v l :: z)).
    change (plug z (T c l a v r)) with (plug (F R c a v l :: z) r) in *.
    apply (IH _ _ m); simpl; try done; try lia.
    + change (length (stk (F R c a v l :: z)) + height r <= cap)%nat. rewrite length_stk. simpl. lia.
    + rewrite app_assoc. apply list.Forall_app. split; [done|by constructor].
  - apply wp_ret. split; [done|]. exists z, (T c l a v r). unfold found_at.
    split_and!; try done; [by exists n|simpl; lia].
Qed.

(** ** Linking a new node *)

Lemma rep_mapped h t a : rep h t -> a ∈ addrs t -> is_Some (h !! a).
Proof.
  induction t as [|c l IHl b v r IHr]; simpl; [intros _ []%not_elem_of_nil|].
  intros (_ & Eb & Rl & Rr). rewrite elem_of_cons, elem_of_app.
  intros [->|[Ha|Ha]]; [by eexists|auto|auto].
Qed.

Lemma wp_attach z x v0 cmp h (Q : unit -> heap V -> Prop) :
  owns h0 A h (plug z E) -> h !! x = None -> x <> NULL -> leaves z cmp ->
  (forall h', owns h0 (x :: A) h' (plug z (T 0 E x v0 E)) -> Q tt h') ->
  wp (if negb (top z =? NULL)%N then
        if cmp <? 0 then SET_LEFT (top z) x else SET_RIGHT (top z) x
      else mret tt) Q (<[x := mk_rbnode 0 NULL NULL v0]> h).
Proof.
  intros Ho Hx Nx Hl HQ. set (n0 := mk_rbnode 0 NULL NULL v0).
  pose proof (nodup_plug _ _ _ Ho) as Hd. simpl in Hd.
  destruct Ho as (Hr & _ & Hp & Hf). rewrite addrs_plug in Hp. simpl in Hp.
  assert (Hxz : x ∉ zaddrs z).
  { intros Hin. destruct (rep_mapped h (plug z E) x Hr) as [n E]; [|congruence].
    by rewrite addrs_plug. }
  apply rep_plug in Hr as [_ Hz]. simpl in Hz.
  assert (Hown : forall h', repz h' z x -> h' !! x = Some n0 ->
            (forall a, a ∉ x :: A -> h' !! a = h !! a) ->
            owns h0 (x :: A) h' (plug z (T 0 E x v0 E))).
  { intros h' Hz' Hx' Hf'. split_and!.
    - apply rep_plug. by split_and!.
    - rewrite addrs_plug. simpl. by apply list.NoDup_cons.
    - rewrite addrs_plug. simpl. by rewrite Hp.
    - intros a Ha. rewrite Hf' by done. apply Hf. intros Hin. apply Ha. by right. }
  destruct z as [|f z]; cbn [top].
  - apply wp_ret, HQ, Hown; [done|apply lookup_insert_eq|].
    intros a Ha. apply lookup_insert_ne. intros <-. apply Ha. by left.
  - apply (repz_insert _ _ _ x n0) in Hz; [|done]. simpl in Hd. apply list.NoDup_cons in Hd as [Hfd _].
    destruct (repz_child _ _ _ _ x Hz Hfd) as (n & En & Nf & Ec & Es & Hz').
    rewrite (proj2 (N.eqb_neq _ NULL) Nf). cbn [negb].
    assert (Hfx : faddr f <> x) by (intros <-; apply Hxz; by left).
    assert (Hw : wp (SET_CHILD (fdir f) (faddr f) x) Q (<[x := n0]> h)).
    { apply (wp_SET_CHILD _ _ _ _ n); [done|done|]. apply HQ, Hown; [done| |].
      - by rewrite lookup_insert_ne, lookup_insert_eq.
      - intros a Ha. rewrite not_elem_of_cons, <- Hp in Ha. destruct Ha as [Hax Ha].
        assert (a <> faddr f) by (intros ->; apply Ha; simpl; by left).
        by rewrite !lookup_insert_ne. }
    simpl in Hl. destruct (fdir f).
    + by rewrite (proj2 (Z.ltb_lt cmp 0) Hl).
    + by rewrite (proj2 (Z.ltb_ge cmp 0)) by lia.
Qed.

End owned.

(** ** The search from the root *)

Lemma wp_search compare h p t cap :
  is_rbtree h p t -> ordered compare (elems t) -> (height t + 3 <= cap)%nat ->
  wp (descend (S cap) cap compare [NULL] p 0)
    (fun res h' => h' = h /\ exists z u, found_at compare t z u res) h.
Proof.
  intros Ht Hord Hcap. pose proof (is_rbtree_owns _ _ _ Ht) as Ho.
  destruct Ht as (-> & _ & _ & Hv). pose proof (valid_black t Hv) as Hblack.
  destruct Hv as [[Hn [n Hb]] _].
  apply (wp_descend (h0 := h) (A := addrs t) compare _ _ [] t n 0); try done.
  - lia.
  - simpl. lia.
  - constructor.
  - constructor.
  - by rewrite Hblack.
Qed.

(** ** The whole operation *)

Context `{!Slot V, !NodeAlloc V}.

(** The result of an insertion into [t]: the node that compares equal, or the tree
    with a new node between the elements above and below the key. *)
Definition inserted (compare : V -> Z) (v0 : V) h t (res : bool * N * N) h' : Prop :=
  let '(b, x, p) := res in
  (b = false /\ p = root t /\ h' = h /\ exists v, (x, v) ∈ elems t /\ compare v = 0) \/
  (b = true /\ h !! x = None /\
     exists t' xs ys, is_rbtree h' p t' /\
       elems t = xs ++ ys /\ elems t' = xs ++ (x, v0) :: ys /\
       all_pos compare xs /\ all_neg compare ys /\
       forall a, a <> x -> a ∉ addrs t -> h' !! a = h !! a).

(** After the search: linking, the slot, rebalancing and the new size. *)
Lemma wp_insert_new compare init h t z cmp n :
  is_rbtree h (root t) t -> Z.of_nat (tsize t) + 1 < 2 ^ 64 -> t = plug z E ->
  all_pos compare (zl z) -> all_neg compare (zr z) -> zok z n -> bh (E (V := V)) n -> leaves z cmp ->
  wp (x ← galloc_node;
      sp ← push (stack_size (Z.of_nat (tsize t))) x (stk z);
      p ← peek sp 1;
      (if negb (p =? NULL)%N then
         if cmp <? 0 then SET_LEFT p x else SET_RIGHT p x
       else mret tt);;
      v ← cucon_rbnode_mem x;
      set_mem x (init v);;
      sp ← rebalance_dtive sp;
      root ← peek (sp_root sp) 0;
      SET_COLOUR root (wadd (Z.of_nat (tsize t)) 1);;
      mret (true, x, root)) (inserted compare (init zero_slot) h t) h.
Proof.
  intros Ht Hsmall -> Hp Hn Hz Hb Hl. pose proof (is_rbtree_owns _ _ _ Ht) as Ho.
  destruct Ht as (_ & _ & _ & Hv). pose proof (stack_enough _ Hv Hsmall) as Hcap.
  destruct (new_addr_spec h) as [Nx Hx]. set (x := new_addr h) in *.
  apply wp_bind. exists x, (<[x := mk_rbnode 0 NULL NULL zero_slot]> h). split; [done|].
  apply wp_bind, wp_push.
  { pose proof (length_height z (E (V := V))). rewrite length_stk. lia. }
  apply wp_bind, (wp_peek _ 1 (top z)); [apply stk_top|].
  apply wp_bind, (wp_attach _ _ _ _ _ _ Ho); [done..|]. intros h1 Ho1.
  destruct (owns_at _ _ _ _ _ _ _ Ho1) as [Ex _].
  apply wp_bind, (wp_mem _ _ _ _ Ex Nx). cbn [slot].
  apply wp_bind, (wp_set_mem _ _ _ _ _ _ _ _ _ Ho1). clear h1 Ho1 Ex. intros h1 Ho1.
  apply wp_bind. unfold rebalance_dtive. apply wp_bind, (wp_peek _ 0 x); [done|].
  apply wp_bind, (wp_set_colour _ _ _ _ _ _ _ _ _ Ho1). clear h1 Ho1. intros h1 Ho1.
  eapply wp_mono; [apply (wp_rebalance_loop (h0 := h) (A := x :: addrs (plug z E)) _ z (T 0 E x (init zero_slot) E) n); try done|].
  { simpl. rewrite length_stk. lia. }
  intros sp h2 (t' & Ho2 & He & Hrb & ->).
  apply wp_bind, (wp_peek _ 0 (root t')); [done|].
  rewrite elems_plug in He. simpl in He.
  destruct t' as [|c l a v r]; [by destruct (zl z)|].
  assert (Hsize : tsize (T c l a v r) = S (tsize (plug z E))).
  { rewrite !tsize_elems, He, elems_plug, !length_app. simpl. lia. }
  apply wp_bind, (wp_set_colour _ [] _ _ _ _ _ _ _ Ho2). clear h2 Ho2. intros h2 Ho2.
  apply wp_ret. right. split; [done|]. split; [done|].
  exists (T (wadd (Z.of_nat (tsize (plug z E))) 1) l a v r), (zl z), (zr z).
  destruct Ho2 as (R & D & P & F).
  split; [split; [done|split; [done|split; [done|]]]|split_and!; try done].
  - apply (valid_recolour c); [done|]. cbn [tsize] in Hsize |- *.
    unfold wadd. rewrite wrap_small by (unfold word; lia). lia.
  - by rewrite elems_plug.
  - intros b Hbx Hbt. apply F. by rewrite not_elem_of_cons.
Qed.

Lemma insert_spec compare init h p t :
  is_rbtree h p t -> Z.of_nat (tsize t) + 1 < 2 ^ 64 -> ordered compare (elems t) ->
  wp (rbtree_insert compare init p) (inserted compare (init zero_slot) h t) h.
Proof.
  intros Ht Hsmall Hord. pose proof (is_rbtree_owns _ _ _ Ht) as Ho.
  assert (Hp := Ht). destruct Hp as (-> & _ & _ & Hv).
  pose proof (stack_enough _ Hv Hsmall) as Hcap. unfold rbtree_insert. apply wp_bind, (wp_size _ _ _ _ Ht).
  apply wp_bind, wp_push; [simpl; lia|].
  apply wp_bind, (wp_root_black _ _ _ _ Ht), wp_bind, wp_assert; [done|]. apply wp_bind.
  eapply wp_mono; [by apply wp_search|].
  intros [[sp x] cmp] h' (-> & z & u & Hu & Hpos & Hneg & (m & Hz & Nu & Bu & Ru) & Hres). simpl in Hu.
  destruct u as [|c l a v r]; simpl in Hres; destruct Hres as [Hsp Hres]; injection Hsp as -> ->.
  - rewrite N.eqb_refl. cbn [negb]. by apply (wp_insert_new _ _ _ _ _ _ m).
  - rewrite Hu in Ho. destruct (owns_at _ _ _ _ _ _ _ Ho) as [Ea Na].
    rewrite (proj2 (N.eqb_neq a NULL) Na). cbn [negb]. rewrite <- Hu in Ho.
    assert (Hroot : exists c' l' a' v' r', t = T c' l' a' v' r').
    { destruct t as [|c' l' a' v' r']; [|by eexists _, _, _, _, _].
      apply (f_equal elems) in Hu. rewrite elems_plug in Hu. simpl in Hu. by destruct (zl z), (elems l). }
    destruct Hroot as (c' & l' & a' & v' & r' & ->).
    destruct (owns_at _ [] _ _ _ _ _ Ho) as [Er Nr].
    apply wp_bind, (wp_COLOUR _ _ _ _ Er Nr), wp_bind, wp_assert.
    { apply Z.eqb_eq. by destruct Hv as [_ [|]]. }
    apply wp_ret. left. split_and!; try done. exists v. split; [|done].
    rewrite Hu, elems_plug. simpl. set_solver.
Qed.

End insert.

(** ** An allocator and slots of two words *)

#[export] Program Instance fresh_alloc V : NodeAlloc V := {
  new_addr h := fresh (NULL :: elements (dom h));
}.
Next Obligation.
  intros V h. pose proof (infinite_is_fresh (NULL :: elements (dom h))) as Hf.
  rewrite not_elem_of_cons, elem_of_elements in Hf. split; [tauto|].
  apply not_elem_of_dom. tauto.
Qed.

#[export] Program Instance pair_slot : Slot (Z * Z) := {
  zero_slot := (0, 0);
  slot_ptr := fst;
  set_slot_ptr k v := (k, v.2);
}.
Next Obligation. done. Qed.

(** ** Properties *)

(** C20: insertion into a red-black tree: no assertion fails, no access is outside of the
    stack, and the result is a red-black tree of the same elements with, unless a node
    compares equal, one new zeroed node in its place in the order; the nodes of other
    trees are not touched. *)
Theorem rbtree_insert_correct {V} `{!Slot V, !NodeAlloc V} (compare : V -> Z) (h : heap V) p (t : tree V) :
  is_rbtree h p t -> Z.of_nat (tsize t) + 1 < 2 ^ 64 -> ordered compare (elems t) ->
  exists res h', cucon_rbtree_insert1m_mem p compare h = Some (res, h') /\
    inserted compare zero_slot h t res h'.
Proof. intros Ht Hs Ho. exact (insert_spec compare (fun v => v) h p t Ht Hs Ho). Qed.

Definition tree3 : tree (Z * Z) :=
  T 3 (T 0 E 1 (10, 1) E) 2%N (20, 2) (T 0 E 3 (30, 3) E).
Definition heap3 : heap (Z * Z) :=
  {[ 1%N := mk_rbnode 0 NULL NULL (10, 1); 2%N := mk_rbnode 3 1%N 3%N (20, 2);
     3%N := mk_rbnode 0 NULL NULL (30, 3) ]}.

Lemma heap3_tree3 : is_rbtree heap3 2%N tree3.
Proof.
  split; [done|]. split; [by repeat split|]. split; [by apply (bool_decide_unpack _); vm_compute|].
  split; [split; [by repeat split|]|by right]. exists 1%nat. simpl. by eauto 10.
Qed.

(** The key 25, after 20 and before 30. *)
Definition cmp25 (v : Z * Z) : Z := 25 - v.1.

Lemma tree3_ordered : ordered cmp25 (elems tree3).
Proof. repeat constructor; unfold before, cmp25; simpl; lia. Qed.

Lemma rbtree_insert_correct_witness :
  exists res h', cucon_rbtree_insert1m_mem 2%N cmp25 heap3 = Some (res, h') /\
    inserted cmp25 zero_slot heap3 tree3 res h'.
Proof. apply (rbtree_insert_correct cmp25 heap3 2%N tree3 heap3_tree3); [done|apply tree3_ordered]. Defined.
