(* ===== verification/RbtreeErase.v ===== *)
(** * Red-black trees: removal

    The node to remove, or its successor moved to its place, leaves a hole; when a
    black node is gone the subtree at the hole is one too low, and the loop of the
    removal goes up until a recolouring or a rotation makes up for it. *)

From S2P Require Export RbtreeInsert.

Section erase.
Context {V : Type}.
Implicit Types (t l r s : tree V) (f : frame V) (z : list (frame V)) (d : dir) (h : heap V).

Definition blacken t : tree V := match t with E => E | T _ l a v r => T 1 l a v r end.

Lemma elems_blacken t : elems (blacken t) = elems t.
Proof. by destruct t. Qed.

Lemma root_blacken t : root (blacken t) = root t.
Proof. by destruct t. Qed.

Lemma blacken_black t n : isred t = false -> nored t -> bh t n -> nored (blacken t) /\ bh (blacken t) n.
Proof.
  destruct t as [|c l a v r]; [done|]. intros Hc%Z.eqb_neq. simpl in *. intros Hn Hb.
  rewrite (proj2 (Z.eqb_neq _ _) Hc) in Hb. naive_solver.
Qed.

Lemma blacken_red t n : isred t = true -> bh t n -> bh (blacken t) (S n).
Proof.
  destruct t as [|c l a v r]; [done|]. intros Hc%Z.eqb_eq. simpl in *. subst. simpl. eauto.
Qed.

Lemma nored_blacken t : nored t -> nored (blacken t).
Proof. destruct t; simpl; naive_solver. Qed.

Lemma blacken_nored t : isred t = false -> nored (blacken t) -> nored t.
Proof. destruct t as [|c l a v r]; [done|]. intros Hc%Z.eqb_neq. simpl in *. naive_solver. Qed.

Lemma isred_blacken t : isred (blacken t) = false.
Proof. by destruct t. Qed.

(** A tree of positive black height, with a chosen direction. *)
Lemma pos_nd d t n : bh t (S n) -> exists c m a v o, t = nd d c m a v o.
Proof.
  destruct t as [|c l a v r]; [done|]. intros _.
  destruct d; [by exists c, l, a, v, r|by exists c, r, a, v, l].
Qed.

Section owned.
Context {h0 : heap V} {A : list N}.

(** What the loop leaves: a subtree on the top of the stack that makes a red-black tree
    once its root is black. *)
Definition unhurt (es : list (N * V)) (sp : list N) h : Prop :=
  exists z t, sp = root t :: stk z /\ owns h0 A h (plug z t) /\ elems (plug z t) = es /\
    rb (plug z (blacken t)).

Lemma unhurt_red z t n h :
  owns h0 A h (plug z t) -> zok z (S n) -> nored (blacken t) -> bh t n -> isred t = true ->
  unhurt (elems (plug z t)) (root t :: stk z) h.
Proof.
  intros Ho Hz Hn Hb Hr. exists z, t. split_and!; [done..|].
  apply (zok_plug z (S n)); [done|done|by apply blacken_red|]. by rewrite isred_blacken.
Qed.

Lemma unhurt_root t n h :
  owns h0 A h t -> nored (blacken t) -> bh t n -> unhurt (elems t) [root t; NULL] h.
Proof.
  intros Ho Hn Hb. exists [], t. split_and!; [done..|]. split; [done|].
  destruct (isred t) eqn:Hr.
  - exists (S n). by apply blacken_red.
  - exists n. apply (blacken_black t n); [done| |done]. by apply blacken_nored.
Qed.

(** ** One turn of the loop, with a black sibling *)

(** Both children of the sibling are black: the sibling becomes red. *)
Lemma wp_black_recolour h z d c t a v cb near b vb far (Q : list N * bool -> heap V -> Prop) p :
  owns h0 A h (plug z (nd d c t a v (nd d cb near b vb far))) ->
  isred near = false -> isred far = false ->
  (forall h', owns h0 A h' (plug z (nd d c t a v (nd d 0 near b vb far))) ->
     Q (a :: stk z, true) h') ->
  wp (erase_black d (p :: a :: stk z) b) Q h.
Proof.
  intros Ho Rn Rf HQ. rewrite plug_sib in Ho. unfold erase_black.
  apply wp_bind, (wp_child_near _ _ _ _ _ _ _ _ _ Ho), wp_bind.
  rewrite <- plug_cons in Ho. apply (wp_nil_or_black _ _ _ _ Ho). rewrite plug_cons in Ho.
  apply wp_bind, (wp_child_far _ _ _ _ _ _ _ _ _ Ho), wp_bind.
  rewrite plug_sib in Ho. apply (wp_nil_or_black _ _ _ _ Ho). rewrite <- plug_sib in Ho.
  rewrite Rn, Rf. cbn [negb andb].
  apply wp_bind, (wp_set_colour_nd _ _ _ _ _ _ _ _ _ _ Ho). clear h Ho. intros h Ho.
  apply wp_ret, HQ. by rewrite plug_sib.
Qed.

(** The two rotations of the removal. *)
Lemma wp_rotate_near h d z cb ca o a va m b vb s sp k (Q : list N -> heap V -> Prop) :
  owns h0 A h (plug z (nd d cb (nd d ca o a va m) b vb s)) ->
  sp !! k = Some b -> sp !! S k = Some (top z) ->
  (forall h', owns h0 A h' (plug z (nd d ca o a va (nd d cb m b vb s))) -> Q (<[k := a]> sp) h') ->
  wp (rotate (flip d) sp k) Q h.
Proof. destruct d; [apply (wp_rotate h R)|apply (wp_rotate h L)]. Qed.

Lemma wp_rotate_far h d z c cb t a v near b vb far sp k (Q : list N -> heap V -> Prop) :
  owns h0 A h (plug z (nd d c t a v (nd d cb near b vb far))) ->
  sp !! k = Some a -> sp !! S k = Some (top z) ->
  (forall h', owns h0 A h' (plug z (nd d cb (nd d c t a v near) b vb far)) -> Q (<[k := b]> sp) h') ->
  wp (rotate d sp k) Q h.
Proof. destruct d; [apply (wp_rotate h L)|apply (wp_rotate h R)]. Qed.

(** The last rotation, with a red node on the far side. *)
Lemma wp_erase_rotate h z d c t a v cb near b vb far p (Q : list N -> heap V -> Prop) :
  owns h0 A h (plug z (nd d c t a v (nd d cb near b vb far))) -> isred far = true ->
  (forall h', owns h0 A h' (plug z (nd d c (nd d 1 t a v near) b vb (blacken far))) ->
     Q (p :: b :: stk z) h') ->
  wp (erase_rotate d (p :: a :: stk z) b) Q h.
Proof.
  intros Ho Hr HQ. destruct far as [|c0 l e w r]; [done|]. simpl blacken in HQ. clear Hr.
  unfold erase_rotate. apply wp_bind, (wp_peek _ 1 a); [done|].
  apply wp_bind, (wp_colour _ _ _ _ _ _ _ _ _ Ho), wp_bind. rewrite plug_sib in Ho.
  apply (wp_set_colour_nd _ _ _ _ c _ _ _ _ _ Ho). clear h Ho. intros h Ho.
  rewrite <- plug_sib in Ho.
  apply wp_bind, (wp_set_colour_nd _ _ _ _ _ _ _ _ _ _ Ho). clear h Ho. intros h Ho.
  rewrite plug_sib in Ho. apply wp_bind, (wp_child_far _ _ _ _ _ _ _ _ _ Ho). simpl root.
  rewrite plug_sib in Ho. destruct (owns_at _ _ _ _ _ _ _ Ho) as [_ Ne].
  rewrite (proj2 (N.eqb_neq e NULL) Ne). cbn [negb].
  apply wp_bind, (wp_set_colour _ _ _ _ _ _ _ _ _ Ho). clear h Ho. intros h Ho.
  rewrite <- !plug_sib in Ho. rewrite (nd_flip d 1), (nd_flip d c near) in Ho.
  apply (wp_rotate _ d z 1 c (T 1 l e w r) b vb near a v t _ _ _ Ho); [done|apply stk_top|].
  clear h Ho. intros h Ho. simpl. apply HQ.
  by rewrite (nd_flip d 1 t), (nd_flip d c (nd _ _ _ _ _ _)), (nd_flip (flip d)), flip_flip.
Qed.

Lemma rb_blacken t : rb t -> rb (blacken t).
Proof. destruct t as [|c l a v r]; [done|]. by apply rb_recolour. Qed.

Lemma unhurt_final z t p q es h :
  owns h0 A h (plug z t) -> root t = q -> elems (plug z t) = es -> rb (plug z t) ->
  unhurt es (sp_root (p :: q :: stk z)) h.
Proof.
  intros Ho <- <- Hrb. exists [], (plug z t).
  rewrite sp_root_cons by (simpl; rewrite length_stk; lia). rewrite (sp_root_stk z t) by done.
  split_and!; [done..|]. by apply rb_blacken.
Qed.

(** The tree that the last rotation leaves has the black height that is expected. *)
Lemma rotated_rb z n d c t a v near b vb far :
  zok z (if c =? 0 then S n else S (S n)) -> (c = 0 -> black_top z) ->
  nored t -> bh t n -> nored near -> bh near n -> nored far -> bh far n -> isred far = true ->
  rb (plug z (nd d c (nd d 1 t a v near) b vb (blacken far))).
Proof.
  intros Hz Hc Nt Bt Nn Bn Nf Bf Rf. apply (zok_plug z _ _ Hz).
  - rewrite !nored_nd, !isred_nd, isred_blacken. split_and!; [done..|by apply nored_blacken].
  - apply blacken_red in Bf; [|done].
    assert (Bt1 : bh (nd d 1 t a v near) (S n)) by (apply bh_black; eauto).
    rewrite bh_nd. destruct (c =? 0); [done|eauto].
  - rewrite isred_nd. intros Hr%Z.eqb_eq. right. auto.
Qed.

Lemma blacken_nd d c t a v s : blacken (nd d c t a v s) = nd d 1 t a v s.
Proof. by destruct d. Qed.

(** What a turn of the loop leaves: the end, or a subtree one level up, that has taken
    the parent's colour. *)
Definition turned (c : Z) (es : list (N * V)) z (res : list N * bool) h : Prop :=
  if res.2 then
    exists t n, res.1 = root t :: stk z /\ owns h0 A h (plug z t) /\ elems (plug z t) = es /\
      zok z (S n) /\ nored (blacken t) /\ bh t n /\ isred t = (c =? 0)
  else unhurt es res.1 h.

Lemma elems_rot_single d c t a v cb near b vb far c' c'' :
  elems (nd d c' (nd d c'' t a v near) b vb (blacken far)) =
    elems (nd d c t a v (nd d cb near b vb far)).
Proof. rewrite !elems_nd, elems_blacken. destruct d; by rewrite <- ?app_assoc. Qed.

(** The near nephew is red, the far one is not: it is rotated above the sibling. *)
Lemma wp_black_inner h z d c t a v cb o e ve m b vb far p (Q : list N * bool -> heap V -> Prop) :
  owns h0 A h (plug z (nd d c t a v (nd d cb (nd d 0 o e ve m) b vb far))) -> isred far = false ->
  (forall h', owns h0 A h'
       (plug z (nd d c (nd d 1 t a v o) e ve (nd d 1 m b vb far))) ->
     Q (sp_root (e :: e :: stk z), false) h') ->
  wp (erase_black d (p :: a :: stk z) b) Q h.
Proof.
  intros Ho Rf HQ. rewrite plug_sib in Ho. unfold erase_black.
  apply wp_bind, (wp_child_near _ _ _ _ _ _ _ _ _ Ho), wp_bind.
  rewrite <- plug_cons in Ho. apply (wp_nil_or_black _ _ _ _ Ho).
  rewrite plug_cons in Ho. apply wp_bind, (wp_child_far _ _ _ _ _ _ _ _ _ Ho), wp_bind.
  rewrite plug_sib in Ho. apply (wp_nil_or_black _ _ _ _ Ho).
  rewrite <- plug_sib, <- plug_cons in Ho.
  rewrite Rf, isred_nd, root_nd. cbn [negb andb Z.eqb].
  apply wp_bind, wp_bind, (wp_set_colour_nd _ _ _ _ _ _ _ _ _ _ Ho). clear h Ho. intros h Ho.
  rewrite plug_cons in Ho.
  apply wp_bind, (wp_set_colour_nd _ _ _ _ _ _ _ _ _ _ Ho). clear h Ho. intros h Ho.
  apply wp_bind, wp_poke; [simpl; lia|]. cbn [insert list_insert].
  apply wp_bind, (wp_rotate_near _ _ _ _ _ _ _ _ _ _ _ _ _ _ _ Ho); [done|done|].
  clear h Ho. intros h Ho. cbn [insert list_insert].
  apply wp_bind, (wp_peek _ 1 a); [done|]. rewrite <- plug_sib in Ho.
  apply wp_bind, (wp_child_far _ _ _ _ _ _ _ _ _ Ho), wp_ret. rewrite root_nd.
  apply wp_bind, (wp_erase_rotate _ _ _ _ _ _ _ _ _ _ _ _ _ _ Ho); [by rewrite isred_nd|].
  clear h Ho. intros h Ho. rewrite blacken_nd in Ho. by apply wp_ret, HQ.
Qed.

(** The far nephew is red. *)
Lemma wp_black_outer h z d c t a v cb near b vb far p (Q : list N * bool -> heap V -> Prop) :
  owns h0 A h (plug z (nd d c t a v (nd d cb near b vb far))) -> isred far = true ->
  (forall h', owns h0 A h' (plug z (nd d c (nd d 1 t a v near) b vb (blacken far))) ->
     Q (sp_root (p :: b :: stk z), false) h') ->
  wp (erase_black d (p :: a :: stk z) b) Q h.
Proof.
  intros Ho Rf HQ. rewrite plug_sib in Ho. unfold erase_black.
  apply wp_bind, (wp_child_near _ _ _ _ _ _ _ _ _ Ho), wp_bind.
  rewrite <- plug_cons in Ho. apply (wp_nil_or_black _ _ _ _ Ho).
  rewrite plug_cons in Ho. apply wp_bind, (wp_child_far _ _ _ _ _ _ _ _ _ Ho), wp_bind.
  rewrite plug_sib in Ho. apply (wp_nil_or_black _ _ _ _ Ho). rewrite <- !plug_sib in Ho.
  rewrite Rf, andb_false_r. cbn [negb].
  apply wp_bind, wp_ret, wp_bind, (wp_erase_rotate _ _ _ _ _ _ _ _ _ _ _ _ _ _ Ho); [done|].
  clear h Ho. intros h Ho. by apply wp_ret, HQ.
Qed.

Lemma wp_erase_black h z n d c t a v cb near b vb far :
  owns h0 A h (plug z (nd d c t a v (nd d cb near b vb far))) -> cb <> 0 ->
  zok (F d c a v (nd d cb near b vb far) :: z) (S n) ->
  isred t = false -> nored t -> bh t n ->
  wp (erase_black d (root t :: a :: stk z) b)
    (turned c (elems (plug z (nd d c t a v (nd d cb near b vb far)))) z) h.
Proof.
  intros Ho Hcb (Ns & Bs & Hc & Hz) Rt Nt Bt. simpl in Ns, Bs, Hc, Hz.
  apply nored_nd in Ns as (_ & Nn & Nf). apply bh_black in Bs as (k & Hk & Bn & Bf); [|done].
  injection Hk as <-.
  destruct (isred far) eqn:Rf; [|destruct (isred near) eqn:Rn].
  - apply (wp_black_outer _ _ _ _ _ _ _ _ _ _ _ _ _ _ Ho); [done|]. clear h Ho. intros h Ho.
    apply (unhurt_final _ _ _ _ _ _ Ho); [apply root_nd|by apply elems_plug_eq, elems_rot_single|].
    apply (rotated_rb z n); try done. tauto.
  - destruct (red_nd d near Rn) as (o & e & ve & m & ->).
    apply nored_nd in Nn as (Hom & No & Nm). destruct (Hom eq_refl) as [Ro Rm]. apply bh_red in Bn as [Bo Bm].
    apply (wp_black_inner _ _ _ _ _ _ _ _ _ _ _ _ _ _ _ _ _ Ho); [done|]. clear h Ho. intros h Ho.
    apply (unhurt_final _ _ _ _ _ _ Ho); [apply root_nd| |].
    { apply elems_plug_eq. destruct d; simpl; rewrite <- ?app_assoc; simpl; by rewrite <- ?app_assoc. }
    rewrite <- (blacken_nd d 0 m).
    apply (rotated_rb z n); try done; [tauto| | |].
    + rewrite nored_nd. naive_solver.
    + by rewrite bh_red.
    + by rewrite isred_nd.
  - apply (wp_black_recolour _ _ _ _ _ _ _ _ _ _ _ _ _ _ Ho); [done|done|]. clear h Ho. intros h Ho.
    exists (nd d c t a v (nd d 0 near b vb far)), (if c =? 0 then n else S n).
    rewrite root_nd, blacken_nd, nored_nd, nored_nd.
    split_and!; try done; [apply elems_plug_eq; by destruct d|by destruct (c =? 0)| |by rewrite isred_nd].
    rewrite bh_nd. destruct (c =? 0); [|exists n]; by rewrite bh_red.
Qed.

(** ** The whole turn *)

(** The assertions of the source about the stack. *)
Lemma wp_assert_child h z d c t a v s sp i j q (Q : unit -> heap V -> Prop) :
  owns h0 A h (plug z (nd d c t a v s)) -> root t = q -> sp !! i = Some a -> sp !! j = Some q ->
  Q tt h -> wp (assert_child sp i j) Q h.
Proof.
  intros Ho Hq Hi Hj HQ. unfold assert_child.
  apply wp_bind, (wp_peek _ _ _ _ _ Hi), wp_bind, (wp_peek _ _ _ _ _ Hj).
  destruct d; simpl in Ho.
  - apply wp_bind, (wp_child_near _ _ L _ _ _ _ _ _ Ho), wp_bind.
    apply (wp_child_far _ _ L _ _ _ _ _ _ Ho), wp_assert; [|done].
    by rewrite Hq, N.eqb_refl.
  - apply wp_bind, (wp_child_far _ _ R _ _ _ _ _ _ Ho), wp_bind.
    apply (wp_child_near _ _ R _ _ _ _ _ _ Ho), wp_assert; [|done].
    by rewrite Hq, N.eqb_refl, orb_true_r.
Qed.

(** A red sibling is first rotated above the parent. *)
Lemma wp_erase_step h z n cap d c t a v s :
  owns h0 A h (plug z (nd d c t a v s)) -> zok (F d c a v s :: z) (S n) ->
  isred t = false -> nored t -> bh t n -> (length z + 4 <= cap)%nat ->
  wp (erase_step cap d (root t :: a :: stk z) (root t))
    (fun res h' => exists c' z', (z' = z \/ c' = 0) /\
       turned c' (elems (plug z (nd d c t a v s))) z' res h') h.
Proof.
  intros Ho Hz Rt Nt Bt Hcap.
  destruct (pos_nd d s n) as (cb & near & b & vb & far & ->); [by destruct Hz as (_ & ? & _)|].
  unfold erase_step. apply wp_bind, (wp_peek _ 1 a); [done|].
  apply wp_bind, (wp_child_far _ _ _ _ _ _ _ _ _ Ho). rewrite root_nd. apply wp_bind.
  unfold IS_RED, IS_BLACK. rewrite plug_sib in Ho.
  apply wp_bind, wp_bind, (wp_colour _ _ _ _ _ _ _ _ _ Ho), wp_ret, wp_ret.
  rewrite negb_involutive. destruct (Z.eqb_spec cb 0) as [->|Hcb].
  2: { rewrite <- plug_sib in Ho. apply wp_bind, wp_ret.
       eapply wp_mono; [by apply (wp_erase_black _ _ n)|]. eauto 10. }
  destruct Hz as (Ns & [Bn Bf]%bh_red & Hc & Hz). simpl in Hc, Hz.
  apply nored_nd in Ns as (Hnf & Nn & Nf). destruct (Hnf eq_refl) as [Rn Rf].
  rewrite isred_nd in Hc. destruct (Z.eqb_spec c 0) as [Hc0|Hc0]; [by destruct (Hc Hc0)|].
  destruct (pos_nd d near n Bn) as (cn & nn & e & ve & nf & ->). rewrite isred_nd in Rn.
  apply wp_bind, wp_bind, (wp_set_colour_nd _ _ _ _ _ _ _ _ _ _ Ho). clear h Ho. intros h Ho.
  rewrite <- plug_sib in Ho.
  apply wp_bind, (wp_set_colour_nd _ _ _ _ _ _ _ _ _ _ Ho). clear h Ho. intros h Ho.
  apply wp_bind, (wp_rotate_far _ _ _ _ _ _ _ _ _ _ _ _ _ _ _ Ho); [done|apply stk_top|].
  clear h Ho. intros h Ho. cbn [insert list_insert].
  apply wp_bind, wp_poke; [simpl; lia|]. cbn [insert list_insert].
  apply wp_bind, wp_push; [simpl; rewrite length_stk; lia|]. rewrite <- plug_cons in Ho.
  apply wp_bind, (wp_child_far _ _ _ _ _ _ _ _ _ Ho). rewrite root_nd. rewrite plug_cons in Ho.
  apply wp_bind, (wp_assert_child _ _ _ _ _ _ _ _ _ 2 1 a _ Ho); [apply root_nd|done|done|].
  rewrite <- plug_cons in Ho.
  apply wp_bind, (wp_assert_child _ _ _ _ _ _ _ _ _ 1 0 (root t) _ Ho); [done|done|done|].
  apply wp_ret. change (b :: stk z) with (stk (F d 1 b vb far :: z)).
  eapply wp_mono; [apply (wp_erase_black h (F d 1 b vb far :: z) n d 0 t a v cn nn e ve nf); try done|].
  - by apply Z.eqb_neq.
  - simpl. rewrite isred_nd. split_and!; done.
  - intros res h' Hres. exists 0, (F d 1 b vb far :: z). split; [by right|].
    replace (elems (plug z (nd d c t a v (nd d 0 (nd d cn nn e ve nf) b vb far))))
      with (elems (plug (F d 1 b vb far :: z) (nd d 0 t a v (nd d cn nn e ve nf)))); [done|].
    rewrite plug_cons. apply elems_plug_eq. destruct d; simpl; rewrite <- ?app_assoc; simpl;
      by rewrite <- ?app_assoc.
Qed.

(** ** The loop *)

Lemma wp_erase_stop fuel cap z t h (Q : list N -> heap V -> Prop) :
  owns h0 A h (plug z t) -> z = [] \/ isred t = true -> Q (root t :: stk z) h ->
  wp (erase_loop (S fuel) cap (root t :: stk z)) Q h.
Proof.
  intros Ho Hst HQ. simpl. apply wp_bind, (wp_peek _ 1 (top z)); [apply stk_top|].
  apply wp_bind, (wp_peek _ 0 (root t)); [done|]. apply wp_bind.
  destruct (N.eqb_spec (top z) NULL) as [Ht|Ht]; [by apply wp_ret, wp_ret|].
  destruct Hst as [->|Rt]; [done|]. apply (wp_nil_or_black _ _ _ _ Ho). rewrite Rt. by apply wp_ret.
Qed.

Lemma erase_loop_S fuel cap sp :
  erase_loop (V := V) (S fuel) cap sp =
    (p ← peek sp 1; x ← peek sp 0;
     b ← (if (p =? NULL)%N then mret false else is_nil_or_black x);
     if b : bool then
       l ← LEFT p;
       '(sp, go) ← erase_step cap (if (x =? l)%N then L else R) sp x;
       if go : bool then erase_loop fuel cap sp else mret sp
     else mret sp).
Proof. done. Qed.

Lemma wp_erase_loop fuel cap z t n h :
  (length z < fuel)%nat -> (length z + 3 <= cap)%nat -> owns h0 A h (plug z t) ->
  zok z (S n) -> nored (blacken t) -> bh t n ->
  wp (erase_loop fuel cap (root t :: stk z)) (unhurt (elems (plug z t))) h.
Proof.
  revert z t n h. induction fuel as [|fuel IH]; intros z t n h Hf Hcap Ho Hz Nt Bt; [lia|].
  destruct z as [|[d c a v s] z]; [|destruct (isred t) eqn:Rt].
  { apply (wp_erase_stop _ _ _ _ _ _ Ho); [by left|]. by apply (unhurt_root t n). }
  { apply (wp_erase_stop _ _ _ _ _ _ Ho); [by right|]. by apply (unhurt_red _ t n). }
  apply blacken_nored in Nt; [|done]. rewrite erase_loop_S.
  apply wp_bind, (wp_peek _ 1 a); [done|]. apply wp_bind, (wp_peek _ 0 (root t)); [done|].
  rewrite plug_cons in *. destruct (owns_nd _ _ _ _ _ _ _ _ Ho) as [_ Na].
  rewrite (proj2 (N.eqb_neq a NULL) Na), <- plug_cons in *. apply wp_bind.
  apply (wp_nil_or_black _ _ _ _ Ho). rewrite Rt. cbn [negb]. rewrite plug_cons in *.
  destruct (pos_nd d s n) as (cb & near & b & vb & far & Es); [by destruct Hz as (_ & ? & _)|].
  apply (wp_which (h0 := h0) (A := A) _ z d c t a v s (root t) _
           (fun d => '(sp, go) ← erase_step cap d (root t :: a :: stk z) (root t);
                     if go : bool then erase_loop fuel cap sp else mret sp)); [done|done| |].
  { right. rewrite Es, root_nd. rewrite Es, plug_sib in Ho. apply (owns_nd _ _ _ _ _ _ _ _ Ho). }
  simpl in Hf, Hcap.
  apply wp_bind. eapply wp_mono; [apply (wp_erase_step _ _ n); try done; lia|].
  intros [sp [|]] h' (c' & z' & Hz' & Hres); [|by apply wp_ret].
  destruct Hres as (t' & n' & Esp & Ho' & <- & Hzok & Nt' & Bt' & Rt'). simpl in Esp. subst sp.
  destruct Hz' as [->| ->]; [by apply (IH _ _ n'); try lia|].
  destruct fuel as [|fuel]; [lia|]. apply (wp_erase_stop _ _ _ _ _ _ Ho'); [by right|].
  by apply (unhurt_red _ t' n').
Qed.

(** ** Extraction *)

Lemma wp_replace_child h z p q (Q : unit -> heap V -> Prop) :
  repz h z p -> p <> NULL -> p ∉ zaddrs z -> NoDup (zaddrs z) ->
  (forall h', repz h' z q -> (forall a, a ∉ zaddrs z -> h' !! a = h !! a) -> Q tt h') ->
  wp (replace_child (top z) p q) Q h.
Proof.
  intros Hz Hp Hn Hd HQ. unfold replace_child. destruct z as [|f z]; cbn [top].
  { by apply wp_ret, HQ. }
  apply list.NoDup_cons in Hd as [Hf Hd].
  destruct (repz_child _ _ _ _ q Hz Hf) as (n & E & Nn & Ec & Es & Hz').
  rewrite (proj2 (N.eqb_neq _ NULL) Nn).
  apply wp_bind. unfold LEFT. apply (wp_CHILD _ _ _ _ _ E Nn).
  assert (Hw : wp (SET_CHILD (fdir f) (faddr f) q) Q h).
  { apply (wp_SET_CHILD _ _ _ _ _ _ E Nn), HQ; [done|].
    intros a Ha. apply lookup_insert_ne. intros <-. apply Ha. by left. }
  destruct (fdir f); cbn [child flip] in Ec, Es |- *.
  - by rewrite Ec, N.eqb_refl.
  - rewrite (proj2 (N.eqb_neq p _)); [done|]. rewrite Es. intros Er. apply Hn. right.
    apply elem_of_app. left. by apply root_in.
Qed.

(** What is left of a hole whose node had at most one child. *)
Lemma hole_filled z n d c x a v :
  zok z n -> nored (nd d c x a v E) -> bh (nd d c x a v E) n ->
  if negb (c =? 0) then exists m, zok z (S m) /\ nored x /\ bh x m else rb (plug z (blacken x)).
Proof.
  intros Hz (Hc & Nx & _)%nored_nd Hb. rewrite bh_nd in Hb.
  destruct (Z.eqb_spec c 0) as [->|Nc]; simpl.
  - destruct (Hc eq_refl) as [Rx _], (blacken_black x n Rx Nx) as [Nx' Bx']; [tauto|].
    apply (zok_plug z n); [done..|]. by rewrite isred_blacken.
  - destruct Hb as (m & -> & Bx & _). by exists m.
Qed.

Lemma wp_leftmost h fuel cap z c l a v r (Q : list N * N -> heap V -> Prop) :
  owns h0 A h (plug z (T c l a v r)) -> l <> E -> (height l <= fuel)%nat ->
  (length z + height l + 2 <= cap)%nat ->
  (forall w c' b vb x, plug w (T c' E b vb x) = T c l a v r -> w <> [] ->
     Forall (fun f => fdir f = L) w -> Q (b :: stk (w ++ z), b) h) ->
  wp (leftmost_loop fuel cap (a :: stk z) a) Q h.
Proof.
  revert z c l a v r Q. induction fuel as [|fuel IH]; intros z c l a v r Q Ho Hl Hf Hcap HQ;
    (destruct l as [|cl ll al vl rl]; [done|]); simpl in Hf; [lia|].
  simpl in Hcap |- *. change (T c _ a v r) with (nd L c (T cl ll al vl rl) a v r) in *.
  apply wp_bind, (wp_child_near _ _ _ _ _ _ _ _ _ Ho). simpl root.
  apply wp_bind, wp_push; [simpl; rewrite length_stk; lia|]. rewrite <- plug_cons in Ho.
  apply wp_bind, (wp_child_near _ _ L _ _ _ _ rl _ Ho).
  set (f := F L c a v r) in *. change (a :: stk z) with (stk (f :: z)).
  destruct ll as [|cll lll all vll rll]; simpl root.
  - rewrite N.eqb_refl. apply wp_ret, (HQ [f] cl al vl rl); [done|done|by repeat constructor].
  - assert (Na : all <> NULL).
    { change (owns h0 A h (plug z (plug [F L cl al vl rl; f] (T cll lll all vll rll)))) in Ho.
      rewrite <- plug_app in Ho. apply (owns_at _ _ _ _ _ _ _ Ho). }
    rewrite (proj2 (N.eqb_neq all NULL) Na). cbn [negb].
    apply (IH _ _ _ _ _ _ _ Ho); [done|lia|simpl in Hcap |- *; lia|].
    intros w c' b vb x Hw Nw Fw. replace (w ++ f :: z) with ((w ++ [f]) ++ z) by by rewrite <- app_assoc.
    apply (HQ (w ++ [f]) c' b vb x); [rewrite plug_app, Hw; done|by destruct w|].
    apply list.Forall_app. split; [done|by repeat constructor].
Qed.

(** A node hanging from [f] gives way to its only subtree. *)
Lemma unlinked h f z y c v x :
  owns h0 A h (plug (f :: z) (T c E y v x)) ->
  exists n h1, h !! faddr f = Some n /\ faddr f <> NULL /\
    h1 = <[faddr f := with_child (fdir f) (root x) n]> h /\
    rep h1 (plug (f :: z) x) /\ h1 !! y = Some (mk_rbnode c NULL (root x) v) /\ y <> NULL /\
    y ∉ addrs (plug (f :: z) x) /\ NoDup (addrs (plug (f :: z) x)) /\
    forall b, b ∉ A -> h1 !! b = h0 !! b.
Proof.
  intros Ho. destruct (owns_at _ _ _ _ _ _ _ Ho) as [Ey Ny].
  pose proof (nodup_plug _ _ _ Ho) as Hd. simpl in Hd. apply list.NoDup_cons in Hd as [Hy Hd].
  destruct Ho as (Hr & _ & Hp & Hfr). apply rep_plug in Hr as [Hr Hz]. simpl in Hr.
  destruct Hr as (_ & _ & _ & Rx). rewrite addrs_plug in Hp.
  assert (Hyf : y <> faddr f) by (intros ->; apply Hy; set_solver).
  pose proof Hd as (_ & Hxz & Hdz)%list.NoDup_app. simpl in Hdz. apply list.NoDup_cons in Hdz as [Hf _].
  destruct (repz_child _ _ _ _ (root x) Hz Hf) as (n & En & Nf & _ & _ & Hz').
  eexists n, _. split_and!; [exact En|done|reflexivity|..]; try done.
  - apply rep_plug. split; [|done]. apply rep_insert; [|done]. intros Hin. apply (Hxz _ Hin). simpl. by left.
  - by rewrite lookup_insert_ne.
  - by rewrite addrs_plug.
  - by rewrite addrs_plug.
  - intros b Hb. rewrite lookup_insert_ne; [by apply Hfr|]. intros <-. apply Hb. rewrite <- Hp. set_solver.
Qed.

(** The successor is unlinked, on either branch. *)
Lemma wp_unlink_successor h cap z c l a v r (Q : list N * N * N -> heap V -> Prop) :
  owns h0 A h (plug z (T c l a v r)) -> r <> E -> (length z + height r + 3 <= cap)%nat ->
  (forall w cy y vy x h1, plug w (T cy E y vy x) = r -> Forall (fun f => fdir f = L) w ->
     rep h1 (plug (w ++ F R c a v l :: z) x) -> h1 !! y = Some (mk_rbnode cy NULL (root x) vy) ->
     y <> NULL -> y ∉ addrs (plug (w ++ F R c a v l :: z) x) ->
     NoDup (addrs (plug (w ++ F R c a v l :: z) x)) ->
     (forall b, b ∉ A -> h1 !! b = h0 !! b) ->
     Q (y :: stk (w ++ F R c a v l :: z), y, root x) h1) ->
  wp (unlink_successor cap (a :: stk z) a (root r)) Q h.
Proof.
  intros Ho Hr Hcap HQ. destruct r as [|cr lr ar vr rr]; [done|]. simpl root. simpl in Hcap.
  unfold unlink_successor. apply wp_bind, wp_push; [simpl; rewrite length_stk; lia|].
  set (f := F R c a v l) in *. change (a :: stk z) with (stk (f :: z)).
  change (plug z (T c l a v _)) with (plug (f :: z) (T cr lr ar vr rr)) in Ho.
  apply wp_bind, (wp_child_near _ _ L _ _ _ _ rr _ Ho).
  destruct lr as [|cl ll al vl rl]; simpl root.
  - rewrite N.eqb_refl. cbn [negb]. apply wp_bind, (wp_child_far _ _ L _ _ _ _ rr _ Ho).
    destruct (unlinked _ _ _ _ _ _ _ Ho) as (n & h1 & En & Nf & -> & R1 & Ey & Ny & Hy & Hd & Hfr).
    apply wp_bind, (wp_SET_CHILD R _ _ _ _ _ En Nf), wp_ret.
    apply (HQ [] cr ar vr rr); try done.
  - assert (Na : al <> NULL).
    { change (owns h0 A h (plug (F L cr ar vr rr :: f :: z) (T cl ll al vl rl))) in Ho.
      apply (owns_at _ _ _ _ _ _ _ Ho). }
    rewrite (proj2 (N.eqb_neq al NULL) Na). cbn [negb].
    apply wp_bind, (wp_leftmost _ _ _ _ _ _ _ _ _ _ Ho); [done|simpl in Hcap |- *; lia|simpl in Hcap |- *; lia|].
    intros w cy y vy x Hw Nw Fw. rewrite <- Hw, <- plug_app in Ho.
    destruct w as [|g w]; [done|]. apply list.Forall_cons in Fw as Fw'. destruct Fw' as [Dg _].
    apply wp_bind, (wp_child_far _ _ L _ _ _ _ x _ Ho).
    apply wp_bind, (wp_peek _ 1 (faddr g)); [done|].
    destruct (unlinked _ _ _ _ _ _ _ Ho) as (n & h1 & En & Nf & -> & R1 & Ey & Ny & Hy & Hd & Hfr).
    rewrite Dg in *.
    apply wp_bind, (wp_SET_CHILD L _ _ _ _ _ En Nf), wp_ret.
    by apply (HQ (g :: w) cy y vy x).
Qed.

Lemma zok_path w z n t :
  zok z n -> nored (plug w t) -> bh (plug w t) n -> (isred (plug w t) = true -> black_top z) ->
  exists m, zok (w ++ z) m /\ nored t /\ bh t m /\ (isred t = true -> black_top (w ++ z)).
Proof.
  revert t. induction w as [|f w IH]; intros t Hz Hn Hb Hr; simpl in *; [by exists n|].
  destruct (IH (plug1 f t) Hz Hn Hb Hr) as (m & Hz' & Nt & Bt & Rt).
  destruct f as [d c a v s]. apply (zok_down _ m d c t a v s); try done.
  intros ->. apply Rt. unfold plug1. simpl. by rewrite isred_nd.
Qed.

Lemma zok_rename w d c a v b u s z n :
  zok (w ++ F d c a v s :: z) n -> zok (w ++ F d c b u s :: z) n.
Proof.
  revert n. induction w as [|f w IH]; intros n; simpl; [done|].
  intros (Ns & Bs & Hc & Hz). split_and!; [done|done| |by apply IH].
  intros Hf. destruct (Hc Hf) as [Rs Bt]. split; [done|]. by destruct w.
Qed.

Lemma zl_left w : Forall (fun f => fdir f = L) w -> zl w = [].
Proof. induction 1 as [|f w Hf Hw IH]; simpl; [done|]. by rewrite Hf. Qed.

(** What is left of the tree: a subtree [t] at a hole, and the removed node, whose
    slot is untouched. *)
Definition extracted (cap : nat) a v es (res : list N * bool) h : Prop :=
  exists A' z t, res.1 = root t :: stk z /\ A ≡ₚ a :: A' /\ owns h A' h (plug z t) /\
    elems (plug z t) = es /\ (length z + 3 <= cap)%nat /\
    (exists n, h !! a = Some n /\ slot n = v) /\ (forall b, b ∉ A -> h !! b = h0 !! b) /\
    if res.2 then exists n, zok z (S n) /\ nored t /\ bh t n else rb (plug z (blacken t)).

(** A node with at most one child. *)
Lemma wp_extract_one h z n cap d c x a v :
  owns h0 A h (plug z (nd d c x a v E)) -> zok z n -> nored (nd d c x a v E) ->
  bh (nd d c x a v E) n -> (length z + 3 <= cap)%nat ->
  wp (extract cap (a :: stk z) a) (extracted cap a v (zl z ++ elems x ++ zr z)) h.
Proof.
  intros Ho Hz Nt Bt Hcap. destruct (owns_nd _ _ _ _ _ _ _ _ Ho) as [Ea Na].
  pose proof (nodup_plug _ _ _ Ho) as Hd. destruct Ho as (Hr & _ & Hp & Hfr).
  rewrite addrs_plug in Hp. apply rep_plug in Hr as [Hr Hrz]. rewrite root_nd in Hrz.
  assert (Hax : addrs (nd d c x a v E) ≡ₚ a :: addrs x).
  { destruct d; simpl; by rewrite ?app_nil_r. }
  rewrite Hax in Hd, Hp. simpl in Hd, Hp. apply list.NoDup_cons in Hd as [Ha Hd].
  rewrite not_elem_of_app in Ha. pose proof Hd as (_ & Hxz & Hdz)%list.NoDup_app.
  assert (Rx : rep h x) by (destruct d; simpl in Hr; tauto). clear Hr.
  assert (Hw : wp (is_unbalanced ← IS_BLACK a; p ← peek (a :: stk z) 1; replace_child p a (root x);;
                   sp ← poke (a :: stk z) 0 (root x); mret (sp, is_unbalanced))
            (extracted cap a v (zl z ++ elems x ++ zr z)) h).
  { unfold IS_BLACK. apply wp_bind, wp_bind, (wp_COLOUR _ _ _ _ Ea Na), wp_ret.
    apply wp_bind, (wp_peek _ 1 (top z)); [apply stk_top|]. apply wp_bind.
    apply (wp_replace_child _ _ _ (root x)); [done|done|tauto|done|]. intros h' Hz' Hf'.
    apply wp_bind, wp_poke; [simpl; lia|]. apply wp_ret.
    exists (addrs x ++ zaddrs z), z, x. cbn [fst snd insert list_insert].
    assert (Rx' : rep h' x) by (apply (rep_ext h); [|done]; intros b Hb; apply Hf'; auto).
    split_and!; [done|by rewrite <- Hp| |by rewrite elems_plug|lia| | |].
    - split_and!; [by apply rep_plug|by rewrite addrs_plug|by rewrite addrs_plug|done].
    - eexists. rewrite Hf' by tauto. split; [exact Ea|]. by destruct d.
    - intros b Hb. rewrite <- Hp in Hb. rewrite Hf' by set_solver.
      apply Hfr. by rewrite <- Hp.
    - assert (Hk : is_black (match d with L => mk_rbnode c (root x) (root (E (V := V))) v
                                        | R => mk_rbnode c (root (E (V := V))) (root x) v end) = c)
        by by destruct d.
      rewrite Hk. by apply (hole_filled z n d c x a v). }
  unfold extract. apply wp_bind, (wp_CHILD _ _ _ _ _ Ea Na), wp_bind, (wp_CHILD _ _ _ _ _ Ea Na).
  destruct d; simpl child; [|by rewrite N.eqb_refl].
  rewrite N.eqb_refl, orb_true_r. destruct (N.eqb_spec (root x) NULL) as [Ex|_]; [|done].
  rewrite Ex in Hw. done.
Qed.

(** The successor gets the links and the colour of the node it replaces. *)
Lemma wp_copy_links h y cy p0 q0 vy a c p q v (B : Type) (k : M V B) Q :
  h !! y = Some (mk_rbnode cy p0 q0 vy) -> y <> NULL -> h !! a = Some (mk_rbnode c p q v) ->
  a <> NULL -> a <> y ->
  wp k Q (<[y := mk_rbnode c p q vy]> h) ->
  wp (pl ← LEFT a; SET_LEFT y pl;; pr ← RIGHT a; SET_RIGHT y pr;; c ← COLOUR a; SET_COLOUR y c;; k) Q h.
Proof.
  intros Ey Ny Ea Na Hay Hk. unfold LEFT, RIGHT.
  apply wp_bind, (wp_CHILD _ _ _ _ _ Ea Na), wp_bind, (wp_SET_CHILD _ _ _ _ _ _ Ey Ny), wp_bind.
  assert (Ea1 : forall n, <[y := n]> h !! a = Some (mk_rbnode c p q v)) by (intros; by rewrite lookup_insert_ne).
  apply (wp_CHILD _ _ _ _ _ (Ea1 _) Na), wp_bind, (wp_SET_CHILD _ _ _ _ _ _ (lookup_insert_eq _ _ _) Ny).
  rewrite insert_insert_eq. cbn [with_child child is_black lchild rchild slot].
  apply wp_bind, (wp_COLOUR _ _ _ _ (Ea1 _) Na), wp_bind, wp_bind.
  apply (wp_node _ _ _ _ (lookup_insert_eq _ _ _) Ny), wp_set_node.
  by rewrite insert_insert_eq.
Qed.

Lemma addrs_successor z c l a v w cy y vy x :
  addrs (plug z (T c l a v (plug w (T cy E y vy x)))) ≡ₚ
    a :: addrs (plug (w ++ F R c y vy l :: z) x).
Proof.
  rewrite plug_app, plug_cons, addrs_plug, (addrs_plug z). simpl. rewrite !addrs_plug. simpl.
  solve_Permutation.
Qed.

Lemma length_successor w f z y a :
  (length (y :: stk (w ++ f :: z)) - length (a :: stk z) = S (length w))%nat.
Proof. simpl. rewrite !length_stk, length_app. simpl. lia. Qed.

Lemma stk_successor w f g z p q :
  <[0%nat := q]> (<[S (length w) := faddr g]> (p :: stk (w ++ f :: z))) = q :: stk (w ++ g :: z).
Proof.
  unfold stk. rewrite !map_app, <- !app_assoc. simpl. f_equal.
  induction w as [|f' w IH]; simpl; [done|by f_equal].
Qed.

Lemma elems_successor w cy y vy x c l z :
  Forall (fun f => fdir f = L) w ->
  elems (plug (w ++ F R c y vy l :: z) x) =
    zl z ++ elems l ++ elems (plug w (T cy E y vy x)) ++ zr z.
Proof.
  intros Hw. rewrite plug_app, plug_cons, !elems_plug, elems_nd, !elems_plug, (zl_left w Hw).
  simpl. rewrite <- ?app_assoc. simpl. by rewrite <- ?app_assoc.
Qed.

(** The unlinked successor [y] is put in the place of [a]. *)
Lemma wp_put_successor h1 cap z w c l a v cy y vy x m :
  A ≡ₚ a :: addrs (plug (w ++ F R c y vy l :: z) x) ->
  rep h1 (plug (w ++ F R c a v l :: z) x) ->
  h1 !! y = Some (mk_rbnode cy NULL (root x) vy) -> y <> NULL ->
  y ∉ addrs (plug (w ++ F R c a v l :: z) x) -> NoDup (addrs (plug (w ++ F R c a v l :: z) x)) ->
  (forall b, b ∉ A -> h1 !! b = h0 !! b) -> Forall (fun f => fdir f = L) w ->
  zok (w ++ F R c a v l :: z) m -> nored (nd R cy x y vy E) -> bh (nd R cy x y vy E) m ->
  (length (w ++ F R c a v l :: z) + 3 <= cap)%nat ->
  wp (is_unbalanced ← IS_BLACK y;
      pl ← LEFT a; SET_LEFT y pl;; pr ← RIGHT a; SET_RIGHT y pr;; col ← COLOUR a; SET_COLOUR y col;;
      p ← peek (a :: stk z) 1; replace_child p a y;;
      sp ← poke (y :: stk (w ++ F R c a v l :: z))
             (length (y :: stk (w ++ F R c a v l :: z)) - length (a :: stk z)) y;
      sp ← poke sp 0 (root x); mret (sp, is_unbalanced))
    (extracted cap a v (zl z ++ elems l ++ elems (plug w (T cy E y vy x)) ++ zr z)) h1.
Proof.
  intros HpA R1 Ey Ny Hy Hd Hfr Fw Hz%(zok_rename _ _ _ _ _ y vy) Nt Bt Hcap.
  rewrite plug_app, plug_cons in R1, Hy, Hd. rewrite addrs_plug in Hy, Hd.
  apply rep_plug in R1 as [Rt1 Rz1]. simpl in Rt1, Rz1. destruct Rt1 as (Na & Ea1 & Rl1 & Rx1).
  simpl in Hy, Hd. rewrite not_elem_of_cons, !not_elem_of_app in Hy.
  apply list.NoDup_cons in Hd as [Ha Hd]. rewrite !not_elem_of_app in Ha.
  pose proof Hd as (_ & Hxz & Hdz)%list.NoDup_app.
  unfold IS_BLACK. apply wp_bind, wp_bind, (wp_COLOUR _ _ _ _ Ey Ny), wp_ret.
  apply (wp_copy_links _ _ _ _ _ _ _ _ _ _ _ _ _ _ Ey Ny Ea1 Na); [intros ->; tauto|].
  apply wp_bind, (wp_peek _ 1 (top z)); [apply stk_top|]. apply wp_bind.
  apply (wp_replace_child _ _ _ y); [apply repz_insert; tauto|done|tauto|done|]. intros h2 Rz2 Hf2.
  rewrite length_successor.
  apply wp_bind, wp_poke; [simpl; rewrite length_stk, length_app; simpl; lia|].
  apply wp_bind, wp_poke; [rewrite length_insert; simpl; lia|]. apply wp_ret.
  rewrite (stk_successor w _ (F R c y vy l)).
  assert (Rk : forall t, y ∉ addrs t -> (forall b, b ∈ addrs t -> b ∉ zaddrs z) -> rep h1 t -> rep h2 t).
  { intros t Hyt Htz. apply rep_ext. intros b Hb. rewrite Hf2 by auto.
    apply lookup_insert_ne. by intros ->. }
  exists (addrs (plug (w ++ F R c y vy l :: z) x)), (w ++ F R c y vy l :: z), x. cbn [fst snd].
  split_and!; [done|done| |by apply elems_successor|by rewrite length_app in *| | |].
  - split_and!; [|rewrite plug_app, plug_cons, addrs_plug; simpl|done|done].
    + rewrite plug_app, plug_cons. apply rep_plug. split; [|done]. simpl. split_and!; [done| | |].
      * rewrite Hf2 by tauto. apply lookup_insert_eq.
      * apply Rk; [tauto| |done]. intros b Hb. apply Hxz, elem_of_app. by left.
      * apply Rk; [tauto| |done]. intros b Hb. apply Hxz, elem_of_app. by right.
    + apply list.NoDup_cons. rewrite !not_elem_of_app. tauto.
  - eexists. rewrite Hf2 by tauto. rewrite lookup_insert_ne by (intros ->; tauto). by split; [exact Ea1|].
  - intros b Hb. rewrite HpA, plug_app, plug_cons, addrs_plug in Hb. simpl in Hb.
    rewrite !not_elem_of_cons, !not_elem_of_app in Hb. rewrite Hf2 by tauto.
    rewrite lookup_insert_ne by (intros ->; tauto). apply Hfr. rewrite HpA, plug_app, plug_cons, addrs_plug. simpl.
    rewrite !not_elem_of_cons, !not_elem_of_app. tauto.
  - by apply (hole_filled _ m R cy x y vy).
Qed.

(** A node with two children: its successor takes its place. *)
Lemma wp_extract_two h z n cap c l a v r :
  owns h0 A h (plug z (T c l a v r)) -> zok z n -> nored (T c l a v r) -> bh (T c l a v r) n ->
  (c = 0 -> black_top z) -> l <> E -> r <> E -> (length z + height r + 4 <= cap)%nat ->
  wp (extract cap (a :: stk z) a) (extracted cap a v (zl z ++ elems l ++ elems r ++ zr z)) h.
Proof.
  intros Ho Hz Nt Bt Hc Nl Nr Hcap. destruct (owns_at _ _ _ _ _ _ _ Ho) as [Ea Na].
  unfold extract. apply wp_bind, (wp_CHILD _ _ _ _ _ Ea Na), wp_bind, (wp_CHILD _ _ _ _ _ Ea Na).
  assert (Hroot : root l <> NULL /\ root r <> NULL).
  { destruct l as [|cl ll al vl rl], r as [|cr lr ar vr rr]; try done. split.
    - apply (owns_at _ (F L c a v (T cr lr ar vr rr) :: z) _ _ _ _ _ Ho).
    - apply (owns_at _ (F R c a v (T cl ll al vl rl) :: z) _ _ _ _ _ Ho). }
  simpl child. rewrite !(proj2 (N.eqb_neq _ NULL)) by tauto. cbn [orb].
  apply wp_bind, (wp_unlink_successor _ _ _ _ _ _ _ _ _ Ho); [done|lia|].
  intros w cy y vy x h1 <- Fw R1 Ey Ny Hy Hd Hfr.
  assert (Ht : bh (nd R c (plug w (T cy E y vy x)) a v l) n /\
               nored (nd R c (plug w (T cy E y vy x)) a v l)).
  { split; [apply bh_nd; simpl in Bt; destruct (c =? 0); naive_solver|simpl in Nt |- *; naive_solver]. }
  destruct Ht as [Bt' Nt'].
  destruct (zok_down z n R c _ a v l Hz Nt' Bt' Hc) as (m & Hz1 & Nr1 & Br1 & Rr1).
  destruct (zok_path w _ _ _ Hz1 Nr1 Br1 Rr1) as (m' & Hz2 & Ny2 & By2 & _).
  apply (wp_put_successor _ _ _ _ _ _ _ _ cy y vy x m'); try done.
  - destruct Ho as (_ & _ & Hp & _). by rewrite <- Hp, addrs_successor.
  - pose proof (length_height w (T cy E y vy x)) as Hl. rewrite length_app. simpl in *. lia.
Qed.

Lemma wp_extract h z n cap c l a v r :
  owns h0 A h (plug z (T c l a v r)) -> zok z n -> nored (T c l a v r) -> bh (T c l a v r) n ->
  (c = 0 -> black_top z) -> (length z + height (T c l a v r) + 3 <= cap)%nat ->
  wp (extract cap (a :: stk z) a) (extracted cap a v (zl z ++ elems l ++ elems r ++ zr z)) h.
Proof.
  intros Ho Hz Nt Bt Hc Hcap. destruct l as [|cl ll al vl rl]; [|destruct r as [|cr lr ar vr rr]].
  - apply (wp_extract_one h z n cap R c r a v Ho Hz Nt Bt). simpl in Hcap. lia.
  - apply (wp_extract_one h z n cap L c _ a v Ho Hz Nt Bt). simpl in Hcap. lia.
  - apply (wp_extract_two h z n cap c _ a v _ Ho Hz Nt Bt Hc); [done|done|]. simpl in Hcap |- *. lia.
Qed.

End owned.

(** ** The whole operation *)

(** The end of a removal: a black subtree, and the new size. *)
Lemma wp_finish (h0 : heap V) A es sp h (n : Z) :
  unhurt (h0 := h0) (A := A) es sp h -> n = Z.of_nat (length es) ->
  wp (s0 ← peek sp 0; (if negb (s0 =? NULL)%N then BECOME_BLACK s0 else mret tt);;
      root ← peek (sp_root sp) 0;
      (if negb (root =? NULL)%N then SET_COLOUR root n else mret tt);; mret root)
    (fun p h' => exists t, is_rbtree h' p t /\ elems t = es /\ forall a, a ∉ A -> h' !! a = h0 !! a) h.
Proof.
  intros (z & t & -> & Ho & <- & Hrb) ->. rewrite (sp_root_stk z t) by done.
  apply wp_bind, (wp_peek _ 0 (root t)); [done|]. apply wp_bind.
  assert (Hw : forall Q : unit -> heap V -> Prop,
            (forall h', owns h0 A h' (plug z (blacken t)) -> Q tt h') ->
            wp (if negb (root t =? NULL)%N then BECOME_BLACK (root t) else mret tt) Q h).
  { intros Q HQ. destruct t as [|c l a v r]; simpl root; [by apply wp_ret, HQ|].
    destruct (owns_at _ _ _ _ _ _ _ Ho) as [_ Na]. rewrite (proj2 (N.eqb_neq a NULL) Na).
    by apply (wp_set_colour _ _ _ _ _ _ _ _ _ Ho). }
  apply Hw. clear h Ho Hw. intros h Ho. apply wp_bind, (wp_peek _ 0 (root (plug z t))); [done|].
  assert (Hroot : root (plug z t) = root (plug z (blacken t))).
  { destruct z; [simpl; by rewrite root_blacken|by apply root_plug]. }
  assert (Hes : elems (plug z t) = elems (plug z (blacken t))) by by rewrite !elems_plug, elems_blacken.
  rewrite Hroot, Hes. destruct (plug z (blacken t)) as [|c l a v r]; apply wp_bind; simpl root.
  - apply wp_ret, wp_ret. exists E. destruct Ho as (R & D & _ & F). split_and!; try done.
    split_and!; [done..|]. split; [done|by left].
  - destruct (owns_at _ [] _ _ _ _ _ Ho) as [_ Na]. rewrite (proj2 (N.eqb_neq a NULL) Na).
    apply (wp_set_colour _ [] _ _ _ _ _ _ _ Ho). clear h Ho. intros h Ho. apply wp_ret.
    eexists. destruct Ho as (R & D & _ & F). split; [split_and!; [|exact R|done|]|by split_and!]; [done|].
    apply (valid_recolour c); [done|]. by rewrite tsize_elems.
Qed.

(** What a removal of the node that compares equal leaves of the tree [t]. *)
Definition erased (compare : V -> Z) h t (res : N * N) h' : Prop :=
  let '(x, p) := res in
  (x = NULL /\ p = root t /\ h' = h /\ Forall (fun y => compare y.2 <> 0) (elems t)) \/
  (exists t' xs v ys, is_rbtree h' p t' /\ elems t = xs ++ (x, v) :: ys /\ compare v = 0 /\
     elems t' = xs ++ ys /\ (exists n, h' !! x = Some n /\ slot n = v) /\
     forall a, a ∉ addrs t -> h' !! a = h !! a).

Lemma wp_rbtree_erase h cap z c l a v r n p :
  is_rbtree h p (plug z (T c l a v r)) -> Z.of_nat (tsize (plug z (T c l a v r))) < 2 ^ 64 ->
  zok z n -> nored (T c l a v r) -> bh (T c l a v r) n -> (c = 0 -> black_top z) ->
  (height (plug z (T c l a v r)) + 3 <= cap)%nat ->
  wp (rbtree_erase cap p (a :: stk z) a)
    (fun q h' => exists t', is_rbtree h' q t' /\ elems t' = zl z ++ elems l ++ elems r ++ zr z /\
       (exists n, h' !! a = Some n /\ slot n = v) /\
       forall b, b ∉ addrs (plug z (T c l a v r)) -> h' !! b = h !! b) h.
Proof.
  intros Ht Hs Hz Nt Bt Hc Hcap. pose proof (is_rbtree_owns _ _ _ Ht) as Ho.
  pose proof (length_height z (T c l a v r)) as Hl.
  unfold rbtree_erase. apply wp_bind, (wp_size _ _ _ _ Ht), wp_bind.
  eapply wp_mono; [apply (wp_extract _ _ _ _ _ _ _ _ _ Ho Hz Nt Bt Hc); lia|].
  intros [sp unb] h1 (A' & z' & t' & Hsp & HA & Ho1 & He & Hcap' & (na & Ea & Va) & Hfr & Hend).
  simpl in Hsp, Hend. subst sp.
  assert (Ha : a ∉ A').
  { destruct Ho as (_ & Hd & _). rewrite HA in Hd. by apply list.NoDup_cons in Hd as [? _]. }
  apply wp_bind. eapply wp_mono with (P := unhurt (elems (plug z' t'))).
  { destruct unb.
    - destruct Hend as (m & Hz' & Nt' & Bt').
      apply (wp_erase_loop (h0 := h1) (A := A') _ _ _ _ m); try done; [simpl; rewrite length_stk; lia|].
      by apply nored_blacken.
    - apply wp_ret. by exists z', t'. }
  intros sp h2 Hun. eapply wp_mono; [apply (wp_finish _ _ _ _ _ _ Hun)|].
  - rewrite He. assert (Hn : tsize (plug z (T c l a v r)) = S (length (zl z ++ elems l ++ elems r ++ zr z))).
    { rewrite tsize_elems, elems_plug. simpl. repeat (rewrite length_app; simpl). lia. }
    rewrite Hn in Hs |- *. unfold wsub. rewrite wrap_small; unfold word; lia.
  - intros q h3 (t3 & Ht3 & He3 & Hf3). exists t3. rewrite He3. split_and!; [done|done| |].
    + exists na. by rewrite Hf3.
    + intros b Hb. rewrite HA, not_elem_of_cons in Hb. rewrite Hf3 by tauto. apply Hfr.
      by rewrite HA, not_elem_of_cons.
Qed.

Lemma erase_spec compare h p t :
  is_rbtree h p t -> Z.of_nat (tsize t) + 1 < 2 ^ 64 -> ordered compare (elems t) ->
  wp (RBTREE_ERASE compare p) (erased compare h t) h.
Proof.
  intros Ht Hsmall Hord. pose proof (is_rbtree_owns _ _ _ Ht) as Ho.
  assert (Hp := Ht). destruct Hp as (-> & _ & _ & Hv).
  pose proof (stack_enough _ Hv Hsmall) as Hcap. unfold RBTREE_ERASE. apply wp_bind, (wp_size _ _ _ _ Ht).
  apply wp_bind, wp_push; [simpl; lia|]. apply wp_bind.
  eapply wp_mono; [by apply wp_search|].
  intros [[sp x] cmp] h' (-> & z & u & Hu & Hpos & Hneg & (m & Hz & Nu & Bu & Ru) & Hres). simpl in Hu.
  destruct u as [|c l a v r]; simpl in Hres; destruct Hres as [Hsp Hres]; injection Hsp as -> ->.
  - rewrite N.eqb_refl. apply wp_ret. left. split_and!; try done. rewrite Hu, elems_plug.
    apply list.Forall_app. split; apply list.Forall_forall; intros y Hy.
    + pose proof (proj1 (list.Forall_forall _ _) Hpos y Hy). simpl in *. lia.
    + pose proof (proj1 (list.Forall_forall _ _) Hneg y Hy). simpl in *. lia.
  - subst t. destruct (owns_at _ _ _ _ _ _ _ Ho) as [_ Na].
    rewrite (proj2 (N.eqb_neq a NULL) Na). apply wp_bind.
    eapply wp_mono; [apply (wp_rbtree_erase _ _ _ _ _ _ _ _ m _ Ht); try done; [lia|]|].
    { intros ->. by apply Ru. }
    intros q h' (t' & Ht' & He & Hn' & Hf). apply wp_ret. right.
    exists t', (zl z ++ elems l), v, (elems r ++ zr z). split_and!; try done.
    + rewrite elems_plug. simpl. by rewrite <- !app_assoc.
    + by rewrite He, <- !app_assoc.
Qed.

End erase.

(** ** Properties *)

(** C21: removal from a red-black tree: no assertion fails, no access is outside of the
    stack, and the result is a red-black tree of the same elements in the same order,
    without the node that compares equal, which is returned with its slot intact; the
    nodes of other trees are not touched. *)
Theorem rbtree_erase_correct {V} (compare : V -> Z) (h : heap V) p (t : tree V) :
  is_rbtree h p t -> Z.of_nat (tsize t) + 1 < 2 ^ 64 -> ordered compare (elems t) ->
  exists res h', cucon_rbtree_erase1m p compare h = Some (res, h') /\ erased compare h t res h'.
Proof. exact (erase_spec compare h p t). Qed.

Definition cmp20 (v : Z * Z) : Z := 20 - v.1.

Lemma rbtree_erase_correct_witness :
  exists res h', cucon_rbtree_erase1m 2%N cmp20 heap3 = Some (res, h') /\
    erased cmp20 heap3 tree3 res h'.
Proof.
  apply (rbtree_erase_correct cmp20 heap3 2%N tree3 heap3_tree3); [done|].
  repeat constructor; unfold before, cmp20; simpl; lia.
Defined.
