(* ===== verification/RbtreeFind.v ===== *)
(** * Red-black trees: search and traversal

    The read-only functions leave the heap alone.  [find], [nearest] and the eight
    traversals, against the list of elements in order. *)

From S2P Require Export RbtreeErase.

Section find.
Context {V : Type}.
Implicit Types (t l r : tree V) (h : heap V) (d : dir).

(** ** Fuel *)

Lemma height_tsize t : (height t <= tsize t)%nat.
Proof. induction t; simpl; lia. Qed.

Lemma tsize_heap h t : rep h t -> NoDup (addrs t) -> (tsize t <= size h)%nat.
Proof.
  intros Hr Hd. rewrite tsize_addrs, <- (size_list_to_set (C := gset N) _ Hd), <- size_dom.
  apply subseteq_size. intros a Ha%elem_of_list_to_set. apply elem_of_dom. by apply (rep_mapped h t).
Qed.

(** The fuel of the search functions is larger than the height. *)
Lemma wp_heap_fuel h p t (Q : nat -> heap V -> Prop) :
  is_rbtree h p t -> (forall fuel, (height t < fuel)%nat -> Q fuel h) -> wp heap_fuel Q h.
Proof.
  intros (_ & Hr & Hd & _) HQ. apply wp_bind, wp_get_heap, wp_ret, HQ.
  pose proof (height_tsize t). pose proof (tsize_heap h t Hr Hd). lia.
Qed.

Lemma rep_T h c l a v r :
  rep h (T c l a v r) ->
  h !! a = Some (mk_rbnode c (root l) (root r) v) /\ a <> NULL /\ rep h l /\ rep h r.
Proof. intros (Na & Ea & Rl & Rr). by split_and!. Qed.

(** ** Search *)

(** The address of the element that compares equal, or [NULL]. *)
Definition finds (compare : V -> Z) (es : list (N * V)) (x : N) : Prop :=
  (x = NULL /\ Forall (fun y => compare y.2 <> 0) es) \/
  (exists v, (x, v) ∈ es /\ compare v = 0).

Lemma finds_left compare xs a v ys x :
  ordered compare (xs ++ (a, v) :: ys) -> compare v < 0 ->
  finds compare xs x -> finds compare (xs ++ (a, v) :: ys) x.
Proof.
  intros Ho Hv [[-> Hf]|(w & Hw & E)]; [left|right; exists w; set_solver].
  split; [done|]. apply list.Forall_app. split; [done|]. constructor; [simpl; lia|].
  pose proof (ordered_neg _ _ _ _ _ Ho ltac:(lia)) as Hn.
  apply (Forall_impl _ (P := fun y => compare y.2 < 0)); [lia|done].
Qed.

Lemma finds_right compare xs a v ys x :
  ordered compare (xs ++ (a, v) :: ys) -> 0 < compare v ->
  finds compare ys x -> finds compare (xs ++ (a, v) :: ys) x.
Proof.
  intros Ho Hv [[-> Hf]|(w & Hw & E)]; [left|right; exists w; set_solver].
  split; [done|]. apply list.Forall_app. split; [|constructor; [simpl; lia|done]].
  pose proof (ordered_pos _ _ _ _ _ Ho ltac:(lia)) as Hp.
  apply (Forall_impl _ (P := fun y => 0 < compare y.2)); [lia|done].
Qed.

Lemma ordered_sub (compare : V -> Z) xs a v ys :
  ordered compare (xs ++ (a, v) :: ys) -> ordered compare xs /\ ordered compare ys.
Proof. intros (Hx & [Hy _]%StronglySorted_inv & _)%ordered_app. done. Qed.

Lemma wp_find_node compare fuel h t :
  rep h t -> (height t < fuel)%nat -> ordered compare (elems t) ->
  wp (find_node fuel compare (root t)) (fun x h' => h' = h /\ finds compare (elems t) x) h.
Proof.
  revert t. induction fuel as [|fuel IH]; intros t Hr Hf Ho; [lia|].
  destruct t as [|c l a v r]; [apply wp_ret; split; [done|by left]|].
  destruct (rep_T _ _ _ _ _ _ Hr) as (Ea & Na & Rl & Rr). simpl in Hf, Ho |- *.
  rewrite (proj2 (N.eqb_neq a NULL) Na). destruct (ordered_sub _ _ _ _ _ Ho) as [Ol Or].
  apply wp_bind, (wp_mem _ _ _ _ Ea Na). cbn [slot].
  destruct (Z.ltb_spec (compare v) 0); [|destruct (Z.ltb_spec 0 (compare v))].
  - apply wp_bind, (wp_CHILD _ _ _ _ _ Ea Na). simpl child.
    eapply wp_mono; [apply IH; [done|lia|done]|]. intros x h' [-> Hx]. split; [done|].
    by apply finds_left.
  - apply wp_bind, (wp_CHILD _ _ _ _ _ Ea Na). simpl child.
    eapply wp_mono; [apply IH; [done|lia|done]|]. intros x h' [-> Hx]. split; [done|].
    by apply finds_right.
  - apply wp_ret. split; [done|]. right. exists v. split; [set_solver|lia].
Qed.

(** ** Neighbours *)

Definition last_addr (d : N) (es : list (N * V)) : N := from_option fst d (list.last es).
Definition first_addr (d : N) (es : list (N * V)) : N := from_option fst d (list.head es).

Lemma last_addr_app p xs (ys : list (N * V)) : last_addr p (xs ++ ys) = last_addr (last_addr p xs) ys.
Proof. unfold last_addr. rewrite last_app. by destruct (list.last ys). Qed.

Lemma first_addr_app p xs (ys : list (N * V)) : first_addr p (xs ++ ys) = first_addr (first_addr p ys) xs.
Proof. unfold first_addr. by destruct xs. Qed.

Lemma wp_last_on d fuel h t p :
  rep h t -> (height t < fuel)%nat ->
  wp (last_on fuel d p (root t))
    (fun x h' => h' = h /\ x = match d with R => last_addr p (elems t) | L => first_addr p (elems t) end) h.
Proof.
  revert t p. induction fuel as [|fuel IH]; intros t p Hr Hf; [lia|].
  destruct t as [|c l a v r]; [apply wp_ret; by destruct d|].
  destruct (rep_T _ _ _ _ _ _ Hr) as (Ea & Na & Rl & Rr). simpl in Hf |- *.
  rewrite (proj2 (N.eqb_neq a NULL) Na). apply wp_bind, (wp_CHILD _ _ _ _ _ Ea Na).
  destruct d; simpl child.
  - eapply wp_mono; [apply IH; [done|lia]|]. intros x h' [-> ->]. by rewrite first_addr_app.
  - eapply wp_mono; [apply IH; [done|lia]|]. intros x h' [-> ->].
    by rewrite (cons_middle (a, v)), app_assoc, !last_addr_app.
Qed.

(** What the search for neighbours returns, with the values that it starts from. *)
Definition neighbours (compare : V -> Z) (es : list (N * V)) (b a : N) (res : N * N * N) : Prop :=
  exists xs mid ys, es = xs ++ mid ++ ys /\ all_pos compare xs /\ all_neg compare ys /\
    res.1.1 = last_addr b xs /\ res.2 = first_addr a ys /\
    ((mid = [] /\ res.1.2 = NULL) \/ exists v, mid = [(res.1.2, v)] /\ compare v = 0).

Lemma wp_nearest compare fuel h t b a :
  rep h t -> (height t < fuel)%nat -> ordered compare (elems t) ->
  wp (nearest_loop fuel compare b a (root t))
    (fun res h' => h' = h /\ neighbours compare (elems t) b a res) h.
Proof.
  revert t b a. induction fuel as [|fuel IH]; intros t b0 a0 Hr Hf Ho; [lia|].
  destruct t as [|c l a v r].
  { apply wp_ret. split; [done|]. exists [], [], []. split_and!; try done; [constructor..|by left]. }
  destruct (rep_T _ _ _ _ _ _ Hr) as (Ea & Na & Rl & Rr). simpl in Hf, Ho |- *.
  rewrite (proj2 (N.eqb_neq a NULL) Na). destruct (ordered_sub _ _ _ _ _ Ho) as [Ol Or].
  apply wp_bind, (wp_mem _ _ _ _ Ea Na). cbn [slot].
  destruct (Z.ltb_spec (compare v) 0); [|destruct (Z.ltb_spec 0 (compare v))].
  - apply wp_bind, (wp_CHILD _ _ _ _ _ Ea Na). simpl child.
    eapply wp_mono; [apply IH; [done|lia|done]|].
    intros res h' [-> (xs & mid & ys & E & Hx & Hy & Eb & Ea' & Hm)]. split; [done|].
    exists xs, mid, (ys ++ (a, v) :: elems r). rewrite E. split_and!; try done.
    + by rewrite <- !app_assoc.
    + apply list.Forall_app. split; [done|]. constructor; [done|]. apply (ordered_neg _ _ _ _ _ Ho). lia.
    + by rewrite first_addr_app.
  - apply wp_bind, (wp_CHILD _ _ _ _ _ Ea Na). simpl child.
    eapply wp_mono; [apply IH; [done|lia|done]|].
    intros res h' [-> (xs & mid & ys & E & Hx & Hy & Eb & Ea' & Hm)]. split; [done|].
    exists (elems l ++ (a, v) :: xs), mid, ys. rewrite E. split_and!; try done.
    + by rewrite <- !app_assoc.
    + apply list.Forall_app. split; [|by constructor]. apply (ordered_pos _ _ _ _ _ Ho). lia.
    + by rewrite (cons_middle (a, v)), app_assoc, !last_addr_app.
  - apply wp_bind, (wp_CHILD _ _ _ _ _ Ea Na), wp_bind.
    eapply wp_mono; [apply (wp_last_on R); [done|lia]|]. intros p h' [-> ->].
    apply wp_bind, (wp_CHILD _ _ _ _ _ Ea Na), wp_bind.
    eapply wp_mono; [apply (wp_last_on L); [done|lia]|]. intros q h' [-> ->].
    apply wp_ret. split; [done|]. exists (elems l), [(a, v)], (elems r). split_and!; try done.
    + apply (ordered_pos _ _ _ _ _ Ho). lia.
    + apply (ordered_neg _ _ _ _ _ Ho). lia.
    + right. exists v. split; [done|lia].
Qed.

(** ** Traversal *)

(** The slots, in order or in reverse. *)
Definition slots d t : list V :=
  match d with L => map snd (elems t) | R => rev (map snd (elems t)) end.

Lemma slots_T d c l a v r :
  slots d (T c l a v r) =
    slots d (match d with L => l | R => r end) ++ v :: slots d (match d with L => r | R => l end).
Proof.
  destruct d; simpl; rewrite map_app; simpl; [done|].
  rewrite rev_app_distr. simpl. by rewrite <- app_assoc.
Qed.

Lemma rep_dir h c l a v r d :
  rep h (T c l a v r) ->
  exists n, h !! a = Some n /\ a <> NULL /\ slot n = v /\
    child d n = root (match d with L => l | R => r end) /\
    child (flip d) n = root (match d with L => r | R => l end) /\
    rep h (match d with L => l | R => r end) /\ rep h (match d with L => r | R => l end).
Proof. intros (Na & Ea & Rl & Rr). eexists. by destruct d. Qed.

Lemma height_dir d c l a v r fuel :
  (height (T c l a v r) < S fuel)%nat ->
  (height (match d with L => l | R => r end) < fuel)%nat /\
  (height (match d with L => r | R => l end) < fuel)%nat.
Proof. simpl. destruct d; lia. Qed.

Lemma wp_rbnode_iter {S : Type} d fuel (cb : S -> V -> S) h t (s : S) :
  rep h t -> (height t < fuel)%nat ->
  wp (rbnode_iter d fuel cb (root t) s) (fun s' h' => h' = h /\ s' = fold_left cb (slots d t) s) h.
Proof.
  revert t s. induction fuel as [|fuel IH]; intros t s Hr Hf; [lia|].
  destruct t as [|c l a v r]; [apply wp_ret; by destruct d|]. rewrite slots_T, fold_left_app.
  destruct (rep_dir _ _ _ _ _ _ d Hr) as (n & Ea & Na & Hv & C1 & C2 & R1 & R2).
  destruct (height_dir d _ _ _ _ _ _ Hf) as [F1 F2]. simpl root. cbn [rbnode_iter fold_left].
  rewrite (proj2 (N.eqb_neq a NULL) Na).
  apply wp_bind, (wp_CHILD _ _ _ _ _ Ea Na). rewrite C1.
  apply wp_bind. eapply wp_mono; [by apply IH|]. intros s1 h' [-> ->].
  apply wp_bind, (wp_mem _ _ _ _ Ea Na). rewrite Hv.
  apply wp_bind, (wp_CHILD _ _ _ _ _ Ea Na). rewrite C2. by apply IH.
Qed.

Lemma wp_rbnode_conj {S : Type} d fuel (cb : S -> V -> S * bool) h t (s : S) :
  rep h t -> (height t < fuel)%nat ->
  wp (rbnode_conj d fuel cb (root t) s) (fun res h' => h' = h /\ res = conj_list cb (slots d t) s) h.
Proof.
  revert t s. induction fuel as [|fuel IH]; intros t s Hr Hf; [lia|].
  destruct t as [|c l a v r]; [apply wp_ret; by destruct d|]. rewrite slots_T, conj_list_app.
  destruct (rep_dir _ _ _ _ _ _ d Hr) as (n & Ea & Na & Hv & C1 & C2 & R1 & R2).
  destruct (height_dir d _ _ _ _ _ _ Hf) as [F1 F2]. simpl root. cbn [rbnode_conj conj_list].
  rewrite (proj2 (N.eqb_neq a NULL) Na).
  apply wp_bind, (wp_CHILD _ _ _ _ _ Ea Na). rewrite C1.
  apply wp_bind. eapply wp_mono; [by apply IH|]. intros [s1 ok] h' [-> <-].
  destruct ok; cbn [negb]; [|by apply wp_ret].
  apply wp_bind, (wp_mem _ _ _ _ Ea Na). rewrite Hv.
  destruct (cb s1 v) as [s2 [|]]; cbn [negb]; [|by apply wp_ret].
  apply wp_bind, (wp_CHILD _ _ _ _ _ Ea Na). rewrite C2. by apply IH.
Qed.

(** The read-only functions of [rbtree.c] on a tree, shared by their clients. *)
Lemma wp_find1m compare h p t :
  is_rbtree h p t -> ordered compare (elems t) ->
  wp (cucon_rbtree_find1m_mem p compare) (fun x h' => h' = h /\ finds compare (elems t) x) h.
Proof.
  intros Ht Ho. apply wp_bind, (wp_heap_fuel _ _ _ _ Ht). intros fuel Hf.
  destruct Ht as (-> & Hr & _). by apply wp_find_node.
Qed.

Lemma wp_conj d {S : Type} (cb : S -> V -> S * bool) h p t (s : S) :
  is_rbtree h p t ->
  wp (fuel ← heap_fuel; rbnode_conj d fuel cb p s)
    (fun res h' => h' = h /\ res = conj_list cb (slots d t) s) h.
Proof.
  intros Ht. apply wp_bind, (wp_heap_fuel _ _ _ _ Ht). intros fuel Hf.
  destruct Ht as (-> & Hr & _). by apply wp_rbnode_conj.
Qed.

Lemma wp_iter d {S : Type} (cb : S -> V -> S) h p t (s : S) :
  is_rbtree h p t ->
  wp (fuel ← heap_fuel; rbnode_iter d fuel cb p s)
    (fun s' h' => h' = h /\ s' = fold_left cb (slots d t) s) h.
Proof.
  intros Ht. apply wp_bind, (wp_heap_fuel _ _ _ _ Ht). intros fuel Hf.
  destruct Ht as (-> & Hr & _). by apply wp_rbnode_iter.
Qed.

Lemma wp_nearest2p `{!Slot V} (cmp : Z -> Z -> Z) key h p t :
  is_rbtree h p t -> ordered (fun v => cmp key (slot_ptr v)) (elems t) ->
  wp (cucon_rbtree_nearest2p p cmp key)
    (fun res h' => h' = h /\
       neighbours (fun v => cmp key (slot_ptr v)) (elems t) NULL NULL res) h.
Proof.
  intros Ht Ho. apply wp_bind, (wp_heap_fuel _ _ _ _ Ht). intros fuel Hf.
  destruct Ht as (-> & Hr & _). by apply wp_nearest.
Qed.

End find.

(** ** Properties *)

(** The search for neighbours returns the last element below the key, the equal one
    and the first above it, and [NULL] where there is none; it touches nothing. *)
Theorem rbtree_nearest_correct {V} `{!Slot V} (cmp : Z -> Z -> Z) key h p (t : tree V) :
  is_rbtree h p t -> ordered (fun v => cmp key (slot_ptr v)) (elems t) ->
  exists res, cucon_rbtree_nearest2p p cmp key h = Some (res, h) /\
    neighbours (fun v => cmp key (slot_ptr v)) (elems t) NULL NULL res.
Proof.
  intros Ht Ho. destruct (wp_nearest2p cmp key h p t Ht Ho) as (res & h' & E & -> & Hres).
  by exists res.
Qed.

(** The traversals call back on the slots in order, or in reverse, and those that
    conjoin stop at the first call that returns false; they touch nothing. *)
Theorem rbtree_traversal_correct {V S} (cb : S -> V -> S * bool) (f : S -> V -> S) h p (t : tree V) s :
  is_rbtree h p t ->
  cucon_rbtree_conj_mem p cb s h = Some (conj_list cb (map snd (elems t)) s, h) /\
  cucon_rbtree_rev_conj_mem p cb s h = Some (conj_list cb (rev (map snd (elems t))) s, h) /\
  cucon_rbtree_iter_mem p f s h = Some (fold_left f (map snd (elems t)) s, h) /\
  cucon_rbtree_rev_iter_mem p f s h = Some (fold_left f (rev (map snd (elems t))) s, h).
Proof.
  intros Ht. split_and!.
  - destruct (wp_conj L cb h p t s Ht) as (r & h' & E & -> & ->). exact E.
  - destruct (wp_conj R cb h p t s Ht) as (r & h' & E & -> & ->). exact E.
  - destruct (wp_iter L f h p t s Ht) as (r & h' & E & -> & ->). exact E.
  - destruct (wp_iter R f h p t s Ht) as (r & h' & E & -> & ->). exact E.
Qed.
