(* ===== verification/RbtreeKeys.v ===== *)
(** * Red-black trees as sorted lists

    The reference for the collections on top of red-black trees: the slots in a list,
    sorted by their keys under a comparison as of [strcmp], with the operations by
    recursion on the list; and what the operations of [rbtree.c] on keys do in terms
    of it. *)

From S2P Require Export RbtreeFind.

(** A comparison of keys in the style of [strcmp]: a total preorder. *)
Class KeyOrder (cmp : Z -> Z -> Z) : Prop := {
  cmp_flip x y : cmp x y < 0 <-> 0 < cmp y x;
  cmp_trans x y z : cmp x y <= 0 -> cmp y z <= 0 -> cmp x z <= 0;
}.

(** ** The reference *)

Section reference.
Context {V : Type} `{!Slot V} (cmp : Z -> Z -> Z).
Implicit Types (vs ws : list V) (key : Z) (v w : V).

Definition key_lt v w : Prop := cmp (slot_ptr v) (slot_ptr w) < 0.
Definition sorted vs : Prop := StronglySorted key_lt vs.

(** Whether there is no equal key, and the list with [v] in its place. *)
Fixpoint sl_insert key v vs : bool * list V :=
  match vs with
  | [] => (true, [v])
  | w :: vs' =>
      let c := cmp key (slot_ptr w) in
      if c <? 0 then (true, v :: vs)
      else if 0 <? c then let '(b, vs') := sl_insert key v vs' in (b, w :: vs')
      else (false, vs)
  end.

Fixpoint sl_find key vs : option V :=
  match vs with
  | [] => None
  | w :: vs => if cmp key (slot_ptr w) =? 0 then Some w else sl_find key vs
  end.

Fixpoint sl_erase key vs : bool * list V :=
  match vs with
  | [] => (false, [])
  | w :: vs =>
      if cmp key (slot_ptr w) =? 0 then (true, vs)
      else let '(b, vs) := sl_erase key vs in (b, w :: vs)
  end.

(** The last slot below the key, and the first one above it. *)
Definition sl_below key vs : option V := list.last (base.filter (fun w => 0 < cmp key (slot_ptr w)) vs).
Definition sl_above key vs : option V := list.head (base.filter (fun w => cmp key (slot_ptr w) < 0) vs).

Definition keys_pos key vs : Prop := Forall (fun w => 0 < cmp key (slot_ptr w)) vs.
Definition keys_neg key vs : Prop := Forall (fun w => cmp key (slot_ptr w) < 0) vs.

Lemma sl_insert_new key v xs ys :
  keys_pos key xs -> keys_neg key ys -> sl_insert key v (xs ++ ys) = (true, xs ++ v :: ys).
Proof.
  intros Hx Hy. induction Hx as [|x xs Hx _ IH]; simpl.
  - destruct Hy as [|y ys Hy _]; simpl; [done|]. by rewrite (proj2 (Z.ltb_lt _ 0) Hy).
  - rewrite (proj2 (Z.ltb_ge _ 0)), (proj2 (Z.ltb_lt 0 _) Hx), IH by lia. done.
Qed.

Lemma sl_insert_old key v w xs ys :
  keys_pos key xs -> cmp key (slot_ptr w) = 0 ->
  sl_insert key v (xs ++ w :: ys) = (false, xs ++ w :: ys).
Proof.
  intros Hx Hw. induction Hx as [|x xs Hx _ IH]; simpl.
  - by rewrite Hw.
  - rewrite (proj2 (Z.ltb_ge _ 0)), (proj2 (Z.ltb_lt 0 _) Hx), IH by lia. done.
Qed.

Lemma sl_erase_none key vs :
  Forall (fun w => cmp key (slot_ptr w) <> 0) vs -> sl_erase key vs = (false, vs).
Proof.
  intros Hv. induction Hv as [|w vs Hw _ IH]; simpl; [done|].
  by rewrite (proj2 (Z.eqb_neq _ 0) Hw), IH.
Qed.

Lemma sl_erase_some key v xs ys :
  keys_pos key xs -> cmp key (slot_ptr v) = 0 -> sl_erase key (xs ++ v :: ys) = (true, xs ++ ys).
Proof.
  intros Hx Hv. induction Hx as [|x xs Hx _ IH]; simpl; [by rewrite Hv|].
  rewrite (proj2 (Z.eqb_neq _ 0)), IH by lia. done.
Qed.

Lemma sl_find_none key vs :
  Forall (fun w => cmp key (slot_ptr w) <> 0) vs -> sl_find key vs = None.
Proof.
  intros Hv. induction Hv as [|w vs Hw _ IH]; simpl; [done|].
  by rewrite (proj2 (Z.eqb_neq _ 0) Hw).
Qed.

Lemma sl_find_some key v xs ys :
  keys_pos key xs -> cmp key (slot_ptr v) = 0 -> sl_find key (xs ++ v :: ys) = Some v.
Proof.
  intros Hx Hv. induction Hx as [|x xs Hx _ IH]; simpl; [by rewrite Hv|].
  rewrite (proj2 (Z.eqb_neq _ 0)) by lia. done.
Qed.

Lemma sl_split_near key xs mid ys :
  keys_pos key xs -> keys_neg key ys -> Forall (fun w => cmp key (slot_ptr w) = 0) mid ->
  sl_below key (xs ++ mid ++ ys) = list.last xs /\ sl_above key (xs ++ mid ++ ys) = list.head ys.
Proof.
  unfold sl_below, sl_above. intros Hx Hy Hm.
  assert (H0 : forall P `{!forall w : V, Decision (P w)} (Q : V -> Prop) zs, Forall Q zs ->
            (forall w, Q w -> ~ P w) -> base.filter P zs = []).
  { intros P ? Q zs Hz HPQ. induction Hz as [|z zs Hz _ IH]; [done|].
    rewrite list.filter_cons_False by auto. done. }
  assert (H1 : forall P `{!forall w : V, Decision (P w)} (Q : V -> Prop) zs, Forall Q zs ->
            (forall w, Q w -> P w) -> base.filter P zs = zs).
  { intros P ? Q zs Hz HPQ. induction Hz as [|z zs Hz _ IH]; [done|].
    rewrite list.filter_cons_True by auto. by rewrite IH. }
  rewrite !list.filter_app. split.
  - rewrite (H1 _ _ _ _ Hx), (H0 _ _ _ _ Hm), (H0 _ _ _ _ Hy) by (simpl; lia).
    by rewrite !app_nil_r.
  - rewrite (H0 _ _ _ _ Hx), (H0 _ _ _ _ Hm), (H1 _ _ _ _ Hy) by (simpl; lia). done.
Qed.

(** ** Order *)

Context `{!KeyOrder cmp}.

Lemma cmp_lt_trans x y z : cmp x y <= 0 -> cmp y z < 0 -> cmp x z < 0.
Proof.
  intros Hxy Hyz. destruct (Z.lt_ge_cases (cmp x z) 0) as [|Hxz]; [done|].
  assert (Hzx : cmp z x <= 0).
  { destruct (Z.lt_ge_cases 0 (cmp z x)) as [Hp|]; [|done]. apply cmp_flip in Hp. lia. }
  pose proof (cmp_trans z x y Hzx Hxy). apply cmp_flip in Hyz. lia.
Qed.

Lemma cmp_le_lt_trans x y z : cmp x y < 0 -> cmp y z <= 0 -> cmp x z < 0.
Proof.
  intros Hxy Hyz. destruct (Z.lt_ge_cases (cmp x z) 0) as [|Hxz]; [done|].
  assert (Hzx : cmp z x <= 0).
  { destruct (Z.lt_ge_cases 0 (cmp z x)) as [Hp|]; [|done]. apply cmp_flip in Hp. lia. }
  pose proof (cmp_trans y z x Hyz Hzx). apply cmp_flip in Hxy. lia.
Qed.

(** A sorted list is in order for the comparison with any key. *)
Lemma sorted_ordered key (es : list (N * V)) :
  sorted (map snd es) -> ordered (fun v => cmp key (slot_ptr v)) es.
Proof.
  unfold sorted, ordered. induction es as [|e es IH]; simpl; [constructor|].
  intros [Hs Hf]%StronglySorted_inv. constructor; [auto|].
  rewrite Forall_map in Hf. apply (Forall_impl _ (P := fun x => key_lt e.2 x.2)); [|done].
  intros x Hx. unfold before. simpl.
  destruct (Z.lt_ge_cases 0 (cmp key (slot_ptr e.2))) as [|Hle]; [by left|right].
  by apply (cmp_lt_trans _ (slot_ptr e.2)).
Qed.

Lemma sorted_app xs ys :
  sorted (xs ++ ys) <-> sorted xs /\ sorted ys /\ forall x y, x ∈ xs -> y ∈ ys -> key_lt x y.
Proof. unfold sorted. rewrite StronglySorted_app. tauto. Qed.

Lemma sorted_insert key v xs ys :
  slot_ptr v = key -> keys_pos key xs -> keys_neg key ys -> sorted (xs ++ ys) ->
  sorted (xs ++ v :: ys).
Proof.
  intros <- Hx Hy (Sx & Sy & Sxy)%sorted_app. apply sorted_app. split_and!; [done| |].
  - by constructor.
  - intros x y Hix. rewrite elem_of_cons. intros [->|]; [|auto].
    apply cmp_flip. by apply (proj1 (list.Forall_forall _ _) Hx).
Qed.

Lemma sorted_delete v xs ys : sorted (xs ++ v :: ys) -> sorted (xs ++ ys).
Proof.
  intros (Sx & [Sy _]%StronglySorted_inv & Sxy)%sorted_app. apply sorted_app.
  split_and!; [done..|]. intros x y Hx Hy. apply Sxy; [done|]. by right.
Qed.

Lemma sl_insert_forall (P : V -> Prop) key v vs :
  P v -> Forall P vs -> Forall P (sl_insert key v vs).2.
Proof.
  intros Hv Hf. induction Hf as [|w vs Hw Hf IH]; simpl; [by constructor|].
  destruct (_ <? _); [by repeat constructor|]. destruct (_ <? _); [|by constructor].
  destruct (sl_insert key v vs). by constructor.
Qed.

(** The reference keeps the list sorted. *)
Lemma sl_insert_sorted key v vs : slot_ptr v = key -> sorted vs -> sorted (sl_insert key v vs).2.
Proof.
  intros <- Hs. induction Hs as [|w vs Hs IH Hf]; simpl; [by repeat constructor|].
  destruct (Z.ltb_spec (cmp (slot_ptr v) (slot_ptr w)) 0) as [Hlt|Hge]; [|destruct (Z.ltb_spec 0 (cmp (slot_ptr v) (slot_ptr w))) as [Hgt|Hle]].
  - constructor; [by constructor|]. constructor; [done|].
    apply (Forall_impl _ (P := key_lt w)); [|done]. intros x Hx.
    apply (cmp_lt_trans _ (slot_ptr w)); [lia|done].
  - apply cmp_flip in Hgt. pose proof (sl_insert_forall (key_lt w) (slot_ptr v) v vs Hgt Hf) as Hi.
    destruct (sl_insert (slot_ptr v) v vs) as [b vs']. by constructor.
  - by constructor.
Qed.

End reference.

(** ** Trees that hold a sorted list *)

Lemma zl_app {V} (z z' : list (frame V)) : zl (z ++ z') = zl z' ++ zl z.
Proof.
  induction z as [|f z IH]; simpl; [by rewrite app_nil_r|].
  destruct (fdir f); rewrite IH; by rewrite <- ?app_assoc.
Qed.

Lemma zr_app {V} (z z' : list (frame V)) : zr (z ++ z') = zr z ++ zr z'.
Proof.
  induction z as [|f z IH]; simpl; [done|].
  destruct (fdir f); rewrite IH; simpl; by rewrite <- ?app_assoc.
Qed.

(** An element and the subtree at its node. *)
Lemma elems_split {V} (t : tree V) xs x v ys :
  elems t = xs ++ (x, v) :: ys ->
  exists z c l r, t = plug z (T c l x v r) /\ zl z ++ elems l = xs /\ elems r ++ zr z = ys.
Proof.
  revert xs ys. induction t as [|c l IHl a w r IHr]; intros xs ys E; simpl in E.
  { by destruct xs. }
  apply app_eq_inv in E as [([|e k] & El & Ek)|([|e k] & Ex & Ek)]; simplify_eq/=.
  - exists [], c, l, r. by rewrite El, !app_nil_r.
  - destruct (IHl _ _ El) as (z & c' & l' & r' & -> & <- & <-).
    exists (z ++ [F L c a w r]), c', l', r'. rewrite plug_app, zl_app, zr_app. simpl.
    by rewrite <- !app_assoc, app_nil_r.
  - exists [], c, l, r. by rewrite !app_nil_r.
  - destruct (IHr k ys) as (z & c' & l' & r' & -> & <- & <-); [done|].
    exists (z ++ [F R c a w l]), c', l', r'. rewrite plug_app, zl_app, zr_app. simpl.
    by rewrite app_nil_r, <- !app_assoc.
Qed.

Section holds.
Context {V : Type} `{!Slot V} (cmp : Z -> Z -> Z).
Implicit Types (vs : list V) (h : heap V) (t : tree V) (key : Z) (v w : V).

(** The tree at [p] holds the sorted list [vs], in nodes outside of the heap [h0],
    which is not touched. *)
Definition holds_tree (h0 h : heap V) (p : N) t : Prop :=
  is_rbtree h p t /\ sorted cmp (map snd (elems t)) /\
  forall a, is_Some (h0 !! a) -> a ∉ addrs t /\ h !! a = h0 !! a.

Definition holds (h0 h : heap V) (p : N) vs : Prop :=
  exists t, holds_tree h0 h p t /\ map snd (elems t) = vs.

Lemma holds_empty h : holds h h NULL [].
Proof.
  exists E. split; [|done]. split; [|split; [constructor|by intros a _; split; [apply not_elem_of_nil|]]].
  split_and!; [done|done|constructor|]. split; [|by left]. split; [done|by exists 0%nat].
Qed.

Lemma tsize_slots t : tsize t = length (map snd (elems t)).
Proof. by rewrite length_map, tsize_elems. Qed.

Lemma keys_pos_slots key (es : list (N * V)) :
  all_pos (fun v => cmp key (slot_ptr v)) es <-> keys_pos cmp key (map snd es).
Proof. unfold keys_pos. by rewrite Forall_map. Qed.

Lemma keys_neg_slots key (es : list (N * V)) :
  all_neg (fun v => cmp key (slot_ptr v)) es <-> keys_neg cmp key (map snd es).
Proof. unfold keys_neg. by rewrite Forall_map. Qed.

Lemma addrs_from_elems t t' : elems t ≡ₚ elems t' -> addrs t ≡ₚ addrs t'.
Proof. intros He. by rewrite !addrs_elems, He. Qed.

(** Trees of the same shape and colours. *)
Definition sim t t' : Prop :=
  colour t = colour t' /\ (nored t -> nored t') /\ (forall n, bh t n -> bh t' n) /\ tsize t = tsize t'.

Lemma sim_plug z t t' : sim t t' -> sim (plug z t) (plug z t').
Proof.
  revert t t'. induction z as [|[d c a v s] z IH]; intros t t' Hs; simpl; [done|]. apply IH.
  destruct Hs as (Hc & Hn & Hb & Hsz). unfold plug1, sim. simpl. rewrite !nored_nd. unfold isred.
  rewrite Hc. split_and!; [by destruct d|tauto| |destruct d; simpl; lia].
  intros n. rewrite !bh_nd. destruct (c =? 0); naive_solver.
Qed.

Lemma sim_valid t t' : sim t t' -> tsize t <> 0%nat -> valid_tree t -> valid_tree t'.
Proof.
  intros (Hc & Hn & Hb & Hs) Ht [[Nt [n Bt]] Hv]. split; [split; [auto|eauto]|right].
  destruct Hv as [->|Hv]; [done|]. by rewrite <- Hc, <- Hs.
Qed.

Context `{!KeyOrder cmp}.

Lemma sorted_ext vs ws : map slot_ptr vs = map slot_ptr ws -> sorted cmp vs -> sorted cmp ws.
Proof.
  unfold sorted. revert ws. induction vs as [|v vs IH]; intros [|w ws] He; try done.
  simpl in He. injection He as Hv He. intros [Hs Hf]%StronglySorted_inv. constructor; [auto|].
  apply (proj1 (Forall_map slot_ptr (fun k => cmp (slot_ptr w) k < 0) ws)). rewrite <- He, <- Hv.
  apply Forall_map. exact Hf.
Qed.

(** Writing the slot of a node, with the same key. *)
Lemma wp_holds_set_mem h0 h p t xs x v ys w :
  holds_tree h0 h p t -> elems t = xs ++ (x, v) :: ys -> slot_ptr w = slot_ptr v ->
  wp (set_mem x w) (fun _ h' => exists t', holds_tree h0 h' p t' /\ elems t' = xs ++ (x, w) :: ys) h.
Proof.
  intros (Ht & Hs & Hf) He Hw. pose proof (is_rbtree_owns _ _ _ Ht) as Ho.
  destruct (elems_split _ _ _ _ _ He) as (z & c & l & r & -> & <- & <-).
  apply (wp_set_mem _ _ _ _ _ _ _ _ _ Ho). intros h' (R & D & P & F).
  assert (He' : elems (plug z (T c l x w r)) = (zl z ++ elems l) ++ (x, w) :: elems r ++ zr z).
  { rewrite elems_plug. simpl. by rewrite <- !app_assoc. }
  exists (plug z (T c l x w r)). split; [|done]. destruct Ht as (-> & _ & _ & Hv). split; [|split].
  - split_and!; [|done|done|].
    + destruct z; [done|by apply root_plug].
    + apply (sim_valid (plug z (T c l x v r))); [by apply sim_plug| |done].
      rewrite tsize_elems, He, length_app. simpl. lia.
  - apply (sorted_ext (map snd (elems (plug z (T c l x v r))))); [|done].
    rewrite He, He', !map_app. simpl. by rewrite Hw.
  - intros a Ha. destruct (Hf a Ha) as [Hn <-]. rewrite P. split; [done|]. by apply F.
Qed.

(** ** The operations on keys *)

Lemma holds_ordered h0 h p t key :
  holds_tree h0 h p t -> ordered (fun v => cmp key (slot_ptr v)) (elems t).
Proof. intros (_ & Hs & _). by apply sorted_ordered. Qed.

(** What an insertion returns: the node with an equal key, and nothing changes; or the
    new node is in its place, with a slot that the caller can fill in. *)
Definition put h0 h (p : N) vs key (v0 : V) (res : bool * N * N) h' : Prop :=
  let '(b, x, q) := res in
  (b = false /\ q = p /\ h' = h /\ (forall w, sl_insert cmp key w vs = (false, vs)) /\
     exists t xs v ys, holds_tree h0 h p t /\ elems t = xs ++ (x, v) :: ys /\
       vs = map snd xs ++ v :: map snd ys /\ keys_pos cmp key (map snd xs) /\ cmp key (slot_ptr v) = 0) \/
  (b = true /\ exists t xs ys, holds_tree h0 h' q t /\ elems t = xs ++ (x, v0) :: ys /\
     forall w, sl_insert cmp key w vs = (true, map snd xs ++ w :: map snd ys)).

Lemma wp_put `{!NodeAlloc V} h0 h p vs key :
  holds h0 h p vs -> Z.of_nat (length vs) + 1 < 2 ^ 64 ->
  wp (cucon_rbtree_insert2p_node p cmp key) (put h0 h p vs key (set_slot_ptr key zero_slot)) h.
Proof.
  intros (t & Hh & <-) Hsz. rewrite <- tsize_slots in Hsz.
  pose proof (holds_ordered _ _ _ _ key Hh) as Hord. destruct Hh as (Ht & Hs & Hf).
  eapply wp_mono; [by apply (insert_spec _ (set_slot_ptr key))|].
  intros [[b x] q] h' [(-> & -> & -> & v & Hin & Hv)|(-> & Hx & t' & xs & ys & Ht' & He & He' & Hp & Hn & Hf')].
  - left. apply list_elem_of_split in Hin as (xs & ys & He).
    assert (Hpos : keys_pos cmp key (map snd xs)).
    { apply keys_pos_slots. rewrite He in Hord. apply (ordered_pos _ _ _ _ _ Hord). lia. }
    assert (Hvs : map snd (elems t) = map snd xs ++ v :: map snd ys) by by rewrite He, map_app.
    split_and!; [done|by destruct Ht as (-> & _)|done| |].
    + intros w. rewrite Hvs. by apply sl_insert_old.
    + exists t, xs, v, ys. split_and!; try done.
  - right. split; [done|]. exists t', xs, ys. rewrite He, He', !map_app in *. simpl in *.
    pose proof (proj1 (keys_pos_slots key xs) Hp). pose proof (proj1 (keys_neg_slots key ys) Hn).
    split_and!; [|done|intros w; by apply sl_insert_new].
    assert (Hadd : addrs t' ≡ₚ x :: addrs t).
    { rewrite !addrs_elems, He, He', !map_app. simpl. by rewrite Permutation_middle. }
    split; [done|split; [|]].
    + rewrite He', map_app. simpl. apply (sorted_insert _ key); [apply slot_ptr_set|done..].
    + intros a Ha. destruct (Hf a Ha) as [Hna Ea].
      assert (a <> x) by (intros ->; rewrite <- Ea, Hx in Ha; by destruct Ha).
      rewrite Hadd, not_elem_of_cons. split; [done|]. by rewrite Hf'.
Qed.

Lemma wp_del h0 h p vs key :
  holds h0 h p vs -> Z.of_nat (length vs) + 1 < 2 ^ 64 ->
  wp (cucon_rbtree_erase2p p cmp key)
    (fun res h' => let (b, vs') := sl_erase cmp key vs in
       negb (res.1 =? NULL)%N = b /\ holds h0 h' res.2 vs') h.
Proof.
  intros (t & Hh & <-) Hsz. rewrite <- tsize_slots in Hsz.
  pose proof (holds_ordered _ _ _ _ key Hh) as Hord. destruct Hh as (Ht & Hs & Hf).
  eapply wp_mono; [by apply erase_spec|].
  intros [x q] h' [(-> & -> & -> & Hne)|(t' & xs & v & ys & Ht' & He & Hv & He' & _ & Hf')].
  - rewrite sl_erase_none by by apply Forall_map. split; [done|]. exists t. by destruct Ht as (-> & ?).
  - assert (Hx : x <> NULL).
    { destruct (elems_split _ _ _ _ _ He) as (z & c & l & r & -> & _).
      apply (owns_at _ _ _ _ _ _ _ (is_rbtree_owns _ _ _ Ht)). }
    rewrite He in Hs, Hord |- *. rewrite map_app in *. simpl in *.
    rewrite sl_erase_some; [|apply keys_pos_slots, (ordered_pos _ _ _ _ _ Hord); lia|done].
    split; [by rewrite (proj2 (N.eqb_neq x NULL) Hx)|]. exists t'. rewrite He', map_app. split; [|done].
    split; [done|]. rewrite He', map_app. split; [by apply sorted_delete in Hs|].
    intros a Ha. destruct (Hf a Ha) as [Hna Ea]. rewrite Hf' by done. split; [|done].
    rewrite addrs_elems, He in Hna. rewrite addrs_elems, He'. rewrite map_app in *. simpl in Hna. set_solver.
Qed.

(** An optional slot, and the address that is returned for it. *)
Definition node_of h (o : option V) (x : N) : Prop :=
  match o with
  | None => x = NULL
  | Some v => x <> NULL /\ exists n, h !! x = Some n /\ slot n = v
  end.

Lemma node_of_elem h p t x v : is_rbtree h p t -> (x, v) ∈ elems t -> node_of h (Some v) x.
Proof.
  intros Ht (xs & ys & He)%list_elem_of_split.
  destruct (elems_split _ _ _ _ _ He) as (z & c & l & r & -> & _).
  destruct (owns_at _ _ _ _ _ _ _ (is_rbtree_owns _ _ _ Ht)) as [Ea Na]. split; [done|]. by eexists.
Qed.

Lemma wp_node_of h o x (Q : option V -> heap V -> Prop) :
  node_of h o x -> Q o h ->
  wp (if (x =? NULL)%N then mret None else v ← cucon_rbnode_mem x; mret (Some v)) Q h.
Proof.
  destruct o as [v|]; simpl; [|intros ->; by apply wp_ret].
  intros (Nx & n & En & <-) HQ. rewrite (proj2 (N.eqb_neq x NULL) Nx).
  by apply wp_bind, (wp_mem _ _ _ _ En Nx), wp_ret.
Qed.

(** Where the node is that a search returns. *)
Definition located h0 h (p : N) vs key (x : N) : Prop :=
  (x = NULL /\ sl_find cmp key vs = None) \/
  (exists t xs v ys, holds_tree h0 h p t /\ elems t = xs ++ (x, v) :: ys /\
     vs = map snd xs ++ v :: map snd ys /\ keys_pos cmp key (map snd xs) /\ cmp key (slot_ptr v) = 0).

Lemma located_node h0 h p vs key x :
  located h0 h p vs key x -> node_of h (sl_find cmp key vs) x.
Proof.
  intros [[-> Hn]|(t & xs & v & ys & (Ht & _) & He & -> & Hp & Hv)]; [by rewrite Hn|].
  rewrite sl_find_some by done. apply (node_of_elem _ p t); [done|]. rewrite He. set_solver.
Qed.

Lemma wp_locate h0 h p vs key :
  holds h0 h p vs ->
  wp (cucon_rbtree_find2p_node p cmp key) (fun x h' => h' = h /\ located h0 h p vs key x) h.
Proof.
  intros (t & Hh & <-). pose proof (holds_ordered _ _ _ _ key Hh) as Hord.
  pose proof Hh as (Ht & Hs & Hf). unfold cucon_rbtree_find2p_node.
  eapply wp_mono; [by apply (wp_find1m (fun v => cmp key (slot_ptr v)))|].
  intros x h' [-> [[-> Hne]|(v & Hin & Hv)]]; (split; [done|]).
  - left. by rewrite sl_find_none by by apply Forall_map.
  - apply list_elem_of_split in Hin as (xs & ys & He). right. exists t, xs, v, ys.
    split_and!; try done; [by rewrite He, map_app|]. apply keys_pos_slots. rewrite He in Hord.
    apply (ordered_pos _ _ _ _ _ Hord). lia.
Qed.

Lemma wp_lookup h0 h p vs key :
  holds h0 h p vs ->
  wp (cucon_rbtree_find2p_node p cmp key)
    (fun x h' => h' = h /\ node_of h (sl_find cmp key vs) x) h.
Proof.
  intros Hh. eapply wp_mono; [by apply (wp_locate h0)|]. intros x h' [-> Hx].
  split; [done|]. by apply (located_node h0 _ p).
Qed.

Lemma node_of_last h p t xs ys :
  is_rbtree h p t -> elems t = xs ++ ys -> node_of h (list.last (map snd xs)) (last_addr NULL xs).
Proof.
  intros Ht He. unfold last_addr. destruct xs as [|[x v] xs _] using rev_ind; [done|].
  rewrite map_app. simpl. rewrite !list.last_snoc. simpl.
  apply (node_of_elem _ p t); [done|]. rewrite He. set_solver.
Qed.

Lemma node_of_head h p t xs ys :
  is_rbtree h p t -> elems t = xs ++ ys -> node_of h (list.head (map snd ys)) (first_addr NULL ys).
Proof.
  intros Ht He. destruct ys as [|[x v] ys]; [done|]. simpl.
  apply (node_of_elem _ p t); [done|]. rewrite He. set_solver.
Qed.

Lemma wp_near h0 h p vs key :
  holds h0 h p vs ->
  wp (cucon_rbtree_nearest2p p cmp key)
    (fun res h' => h' = h /\ node_of h (sl_below cmp key vs) res.1.1 /\
       node_of h (sl_find cmp key vs) res.1.2 /\ node_of h (sl_above cmp key vs) res.2) h.
Proof.
  intros (t & Hh & <-). pose proof (holds_ordered _ _ _ _ key Hh) as Hord.
  destruct Hh as (Ht & Hs & Hf). eapply wp_mono; [by apply wp_nearest2p|].
  intros [[b e] a] h' [-> (xs & mid & ys & He & Hx & Hy & Hb & Ha & Hm)]. simpl in Hb, Ha, Hm.
  split; [done|]. simpl. rewrite keys_pos_slots in Hx. rewrite keys_neg_slots in Hy.
  assert (Hmid : Forall (fun w => cmp key (slot_ptr w) = 0) (map snd mid)).
  { destruct Hm as [[-> _]|(v & -> & Hv)]; by repeat constructor. }
  assert (Hb' : node_of h (list.last (map snd xs)) b) by (subst b; eapply node_of_last; eauto).
  assert (Ha' : node_of h (list.head (map snd ys)) a).
  { subst a. apply (node_of_head _ p t (xs ++ mid)); [done|by rewrite <- app_assoc]. }
  rewrite He, !map_app. destruct (sl_split_near cmp key _ _ _ Hx Hy Hmid) as [-> ->].
  split; [done|split; [|done]]. destruct Hm as [[-> ->]|(v & -> & Hv)]; simpl.
  - rewrite sl_find_none; [done|]. apply list.Forall_app. split.
    + apply (Forall_impl _ (P := fun w => 0 < cmp key (slot_ptr w))); [lia|done].
    + apply (Forall_impl _ (P := fun w => cmp key (slot_ptr w) < 0)); [lia|done].
  - rewrite sl_find_some by done. apply (node_of_elem _ p t); [done|]. rewrite He. set_solver.
Qed.

Lemma wp_traverse d {S : Type} (cb : S -> V -> S * bool) h0 h p vs (s : S) :
  holds h0 h p vs ->
  wp (fuel ← heap_fuel; rbnode_conj d fuel cb p s)
    (fun res h' => h' = h /\ res = conj_list cb (match d with L => vs | R => rev vs end) s) h.
Proof. intros (t & (Ht & _) & <-). by apply wp_conj. Qed.

Lemma wp_traverse_all d {S : Type} (cb : S -> V -> S) h0 h p vs (s : S) :
  holds h0 h p vs ->
  wp (fuel ← heap_fuel; rbnode_iter d fuel cb p s)
    (fun s' h' => h' = h /\ s' = fold_left cb (match d with L => vs | R => rev vs end) s) h.
Proof. intros (t & (Ht & _) & <-). by apply wp_iter. Qed.

End holds.
