(* ===== verification/Rbset.v ===== *)
(** * Sets as red-black trees: [cucon/rbset.h], [cucon/rbset.c]

    A set is a tree with its comparison; the slot of a node is the key itself.  The
    operations refine those of the sorted list of the keys: any sequence of them, from
    the empty set, returns what the list returns. *)

From S2P Require Export RbtreeKeys.

(** The slot of a node is one pointer. *)
#[export] Program Instance ptr_slot : Slot Z := {
  zero_slot := 0;
  slot_ptr v := v;
  set_slot_ptr k _ := k;
}.
Next Obligation. done. Qed.

Record rbset := mk_rbset { rbset_root : N; rbset_cmp : Z -> Z -> Z }.

Definition with_root (p : N) (set : rbset) : rbset := mk_rbset p (rbset_cmp set).

Section operations.
Context `{!NodeAlloc Z}.
Implicit Types (set : rbset) (key : Z).

Definition cucon_rbset_init (cmp : Z -> Z -> Z) : rbset := mk_rbset NULL cmp.
Definition cucon_rbset_new (cmp : Z -> Z -> Z) : rbset := mk_rbset NULL cmp.

Definition cucon_rbset_is_empty set : bool := cucon_rbtree_is_empty (rbset_root set).

Definition cucon_rbset_insert set key : M Z (bool * rbset) :=
  '(b, _, root) ← cucon_rbtree_insert2p_ptr (rbset_root set) (rbset_cmp set) key;
  mret (b, with_root root set).

Definition cucon_rbset_erase set key : M Z (bool * rbset) :=
  '(x, root) ← cucon_rbtree_erase2p (rbset_root set) (rbset_cmp set) key;
  mret (negb (x =? NULL)%N, with_root root set).

Definition cucon_rbset_find set key : M Z Z :=
  cucon_rbtree_find2p_ptr (rbset_root set) (rbset_cmp set) key.

(** [if (x) out = cucon_rbnode_ptr(x); else out = NULL;] *)
Definition ptr_or_null (x : N) : M Z Z :=
  if (x =? NULL)%N then mret 0 else v ← cucon_rbnode_mem x; mret (slot_ptr v).

Definition cucon_rbset_nearest set key : M Z (Z * Z * Z) :=
  '(below, equal, above) ← cucon_rbtree_nearest2p (rbset_root set) (rbset_cmp set) key;
  below ← ptr_or_null below;
  equal ← ptr_or_null equal;
  above ← ptr_or_null above;
  mret (below, equal, above).

Definition cucon_rbset_iter {S} set (cb : S -> Z -> S) (s : S) : M Z S :=
  cucon_rbtree_iter_ptr (rbset_root set) cb s.
Definition cucon_rbset_rev_iter {S} set (cb : S -> Z -> S) (s : S) : M Z S :=
  cucon_rbtree_rev_iter_ptr (rbset_root set) cb s.
Definition cucon_rbset_conj {S} set (cb : S -> Z -> S * bool) (s : S) : M Z (S * bool) :=
  cucon_rbtree_conj_ptr (rbset_root set) cb s.
Definition cucon_rbset_rev_conj {S} set (cb : S -> Z -> S * bool) (s : S) : M Z (S * bool) :=
  cucon_rbtree_rev_conj_ptr (rbset_root set) cb s.

(** ** Sequences of operations *)

(** The traversals run with a callback that collects the elements it sees, and stops
    after [n] of them. *)
Inductive op := Insert (key : Z) | Erase (key : Z) | Find (key : Z) | Nearest (key : Z)
  | Is_empty | Iter | Rev_iter | Conj (n : nat) | Rev_conj (n : nat).

Inductive ret := Bool (b : bool) | Ptr (p : Z) | Ptrs (below equal above : Z)
  | Elems (seen : list Z) | Seen (seen : list Z) (ok : bool).

Definition collect (seen : list Z) (v : Z) : list Z := v :: seen.
Definition collect_upto (n : nat) (seen : list Z) (v : Z) : list Z * bool :=
  (v :: seen, bool_decide (S (length seen) < n)%nat).

Definition run_op set (o : op) : M Z (ret * rbset) :=
  match o with
  | Insert key => '(b, set) ← cucon_rbset_insert set key; mret (Bool b, set)
  | Erase key => '(b, set) ← cucon_rbset_erase set key; mret (Bool b, set)
  | Find key => p ← cucon_rbset_find set key; mret (Ptr p, set)
  | Nearest key => '(b, e, a) ← cucon_rbset_nearest set key; mret (Ptrs b e a, set)
  | Is_empty => mret (Bool (cucon_rbset_is_empty set), set)
  | Iter => s ← cucon_rbset_iter set collect []; mret (Elems s, set)
  | Rev_iter => s ← cucon_rbset_rev_iter set collect []; mret (Elems s, set)
  | Conj n => '(s, ok) ← cucon_rbset_conj set (collect_upto n) []; mret (Seen s ok, set)
  | Rev_conj n => '(s, ok) ← cucon_rbset_rev_conj set (collect_upto n) []; mret (Seen s ok, set)
  end.

Fixpoint run set (os : list op) : M Z (list ret * rbset) :=
  match os with
  | [] => mret ([], set)
  | o :: os => '(r, set) ← run_op set o; '(rs, set) ← run set os; mret (r :: rs, set)
  end.

End operations.

(** The same on the sorted list of the keys. *)
Section reference_ops.
Context (cmp : Z -> Z -> Z).
Implicit Types (ks : list Z).

Definition ref_op ks (o : op) : ret * list Z :=
  match o with
  | Insert key => let '(b, ks) := sl_insert cmp key key ks in (Bool b, ks)
  | Erase key => let '(b, ks) := sl_erase cmp key ks in (Bool b, ks)
  | Find key => (Ptr (default 0 (sl_find cmp key ks)), ks)
  | Nearest key =>
      (Ptrs (default 0 (sl_below cmp key ks)) (default 0 (sl_find cmp key ks))
         (default 0 (sl_above cmp key ks)), ks)
  | Is_empty => (Bool (match ks with [] => true | _ => false end), ks)
  | Iter => (Elems (rev ks), ks)
  | Rev_iter => (Elems ks, ks)
  | Conj n => let '(s, ok) := conj_list (collect_upto n) ks [] in (Seen s ok, ks)
  | Rev_conj n => let '(s, ok) := conj_list (collect_upto n) (rev ks) [] in (Seen s ok, ks)
  end.

Fixpoint ref_run ks (os : list op) : list ret * list Z :=
  match os with
  | [] => ([], ks)
  | o :: os => let '(r, ks) := ref_op ks o in let '(rs, ks) := ref_run ks os in (r :: rs, ks)
  end.

End reference_ops.

(** ** Refinement *)

Section refinement.
Context `{!NodeAlloc Z} (cmp : Z -> Z -> Z) `{!KeyOrder cmp}.
Implicit Types (ks : list Z) (set : rbset) (h : heap Z).

Definition is_rbset (h0 h : heap Z) set ks : Prop :=
  rbset_cmp set = cmp /\ holds cmp h0 h (rbset_root set) ks.

Lemma wp_ptr_or_null h (o : option Z) x (Q : Z -> heap Z -> Prop) :
  node_of h o x -> Q (default 0 o) h -> wp (ptr_or_null x) Q h.
Proof.
  unfold ptr_or_null. destruct o as [v|]; simpl; [|intros ->; by apply wp_ret].
  intros (Nx & n & En & <-) HQ. rewrite (proj2 (N.eqb_neq x NULL) Nx).
  by apply wp_bind, (wp_mem _ _ _ _ En Nx), wp_ret.
Qed.

Lemma wp_insert h0 h set ks key :
  is_rbset h0 h set ks -> Z.of_nat (length ks) + 1 < 2 ^ 64 ->
  wp (cucon_rbset_insert set key)
    (fun res h' => res.1 = (sl_insert cmp key key ks).1 /\
       is_rbset h0 h' res.2 (sl_insert cmp key key ks).2) h.
Proof.
  intros [Hc Hh] Hs. unfold cucon_rbset_insert, cucon_rbtree_insert2p_ptr. rewrite Hc.
  apply wp_bind, wp_bind. eapply wp_mono; [by apply (wp_put cmp h0)|].
  intros [[b x] q] h' [(-> & -> & -> & Hi & _)|(-> & t & xs & ys & Ht & He & Hi)].
  - apply wp_ret, wp_ret. rewrite (Hi key). by split.
  - assert (Hn : node_of h' (Some key) x).
    { apply (node_of_elem _ q t); [apply Ht|]. rewrite He. set_solver. }
    destruct Hn as (Nx & n & En & _).
    apply wp_bind, (wp_mem _ _ _ _ En Nx), wp_ret, wp_ret. rewrite (Hi key). split; [done|].
    split; [done|]. exists t. split; [done|]. by rewrite He, map_app.
Qed.

Lemma wp_erase h0 h set ks key :
  is_rbset h0 h set ks -> Z.of_nat (length ks) + 1 < 2 ^ 64 ->
  wp (cucon_rbset_erase set key)
    (fun res h' => res.1 = (sl_erase cmp key ks).1 /\
       is_rbset h0 h' res.2 (sl_erase cmp key ks).2) h.
Proof.
  intros [Hc Hh] Hs. unfold cucon_rbset_erase. rewrite Hc. apply wp_bind.
  eapply wp_mono; [by apply (wp_del cmp h0)|]. intros [x q] h' Hres. apply wp_ret.
  destruct (sl_erase cmp key ks) as [b ks']. by destruct Hres.
Qed.

Lemma wp_find h0 h set ks key :
  is_rbset h0 h set ks ->
  wp (cucon_rbset_find set key) (fun p h' => h' = h /\ p = default 0 (sl_find cmp key ks)) h.
Proof.
  intros [Hc Hh]. unfold cucon_rbset_find. rewrite Hc.
  destruct (wp_lookup cmp h0 h _ ks key Hh) as (x & h' & Ex & -> & Hx).
  unfold cucon_rbtree_find2p_node in Ex. unfold cucon_rbtree_find2p_ptr.
  unfold mbind, M_bind in Ex |- *. unfold heap_fuel in *. cbn in Ex |- *.
  eapply (wp_bind (find_node _ _ _)). exists x, h. split; [exact Ex|].
  by apply (wp_ptr_or_null h (sl_find cmp key ks)).
Qed.

Lemma collect_all ks seen : fold_left collect ks seen = rev ks ++ seen.
Proof.
  revert seen. induction ks as [|k ks IH]; intros seen; simpl; [done|].
  rewrite IH. unfold collect. by rewrite <- app_assoc.
Qed.

Lemma wp_run_op h0 h set ks o :
  is_rbset h0 h set ks -> Z.of_nat (length ks) + 1 < 2 ^ 64 ->
  wp (run_op set o)
    (fun res h' => res.1 = (ref_op cmp ks o).1 /\ is_rbset h0 h' res.2 (ref_op cmp ks o).2) h.
Proof.
  intros Hset Hs. pose proof Hset as [Hc Hh].
  destruct o as [key|key|key|key| | | |n|n]; cbn [run_op ref_op].
  - apply wp_bind. eapply wp_mono; [by apply (wp_insert h0)|]. intros [b s'] h' [Hb Hr]. apply wp_ret.
    simpl in Hb. destruct (sl_insert cmp key key ks). by subst b.
  - apply wp_bind. eapply wp_mono; [by apply (wp_erase h0)|]. intros [b s'] h' [Hb Hr]. apply wp_ret.
    simpl in Hb. destruct (sl_erase cmp key ks). by subst b.
  - apply wp_bind. eapply wp_mono; [by apply (wp_find h0)|]. intros p h' [-> ->]. by apply wp_ret.
  - apply wp_bind, wp_bind. rewrite Hc. eapply wp_mono; [by apply (wp_near cmp h0)|].
    intros [[b e] a] h' (-> & Hb & He & Ha). simpl in *.
    apply wp_bind, (wp_ptr_or_null _ _ _ _ Hb), wp_bind, (wp_ptr_or_null _ _ _ _ He), wp_bind,
      (wp_ptr_or_null _ _ _ _ Ha), wp_ret. by apply wp_ret.
  - apply wp_ret. split; [|done]. simpl. f_equal. destruct Hh as (t & ((Hp & Ht) & _) & <-).
    unfold cucon_rbset_is_empty, cucon_rbtree_is_empty. rewrite Hp.
    destruct t as [|c l a v r]; [done|]. destruct Ht as ((Na & _) & _). simpl.
    rewrite (proj2 (N.eqb_neq a NULL) Na). by destruct (elems l).
  - apply wp_bind. eapply wp_mono; [by apply (wp_traverse_all cmp L collect h0)|].
    intros s h' [-> ->]. apply wp_ret. split; [|done]. simpl. by rewrite collect_all, app_nil_r.
  - apply wp_bind. eapply wp_mono; [by apply (wp_traverse_all cmp R collect h0)|].
    intros s h' [-> ->]. apply wp_ret. split; [|done]. simpl. by rewrite collect_all, app_nil_r, rev_involutive.
  - apply wp_bind. eapply wp_mono; [by apply (wp_traverse cmp L (collect_upto n) h0)|].
    intros [s ok] h' [-> Hr]. apply wp_ret. by rewrite <- Hr.
  - apply wp_bind. eapply wp_mono; [by apply (wp_traverse cmp R (collect_upto n) h0)|].
    intros [s ok] h' [-> Hr]. apply wp_ret. by rewrite <- Hr.
Qed.

Lemma length_sl_insert key ks : (length (sl_insert cmp key key ks).2 <= S (length ks))%nat.
Proof.
  induction ks as [|k ks IH]; simpl; [lia|]. destruct (_ <? _); [simpl; lia|].
  destruct (_ <? _); [|simpl; lia]. destruct (sl_insert cmp key key ks). simpl in *. lia.
Qed.

Lemma length_sl_erase key ks : (length (sl_erase cmp key ks).2 <= length ks)%nat.
Proof.
  induction ks as [|k ks IH]; simpl; [lia|]. destruct (_ =? _); [simpl; lia|].
  destruct (sl_erase cmp key ks). simpl in *. lia.
Qed.

Lemma length_ref_op ks o : (length (ref_op cmp ks o).2 <= S (length ks))%nat.
Proof.
  destruct o as [key|key|key|key| | | |n|n]; cbn [ref_op]; try (simpl; lia).
  - pose proof (length_sl_insert key ks). by destruct (sl_insert cmp key key ks).
  - pose proof (length_sl_erase key ks). destruct (sl_erase cmp key ks). simpl in *. lia.
  - destruct (conj_list _ ks []). simpl. lia.
  - destruct (conj_list _ (rev ks) []). simpl. lia.
Qed.

Lemma wp_run h0 h set ks os :
  is_rbset h0 h set ks -> Z.of_nat (length ks) + Z.of_nat (length os) < 2 ^ 64 ->
  wp (run set os)
    (fun res h' => res.1 = (ref_run cmp ks os).1 /\ is_rbset h0 h' res.2 (ref_run cmp ks os).2) h.
Proof.
  revert set ks h. induction os as [|o os IH]; intros set ks h Hset Hs; cbn [run ref_run].
  { apply wp_ret. by split. }
  cbn [length] in Hs. apply wp_bind. eapply wp_mono; [apply (wp_run_op h0); [done|lia]|].
  intros [r set'] h1 [Hr Hset1]. pose proof (length_ref_op ks o) as Hl. simpl in Hr, Hset1.
  destruct (ref_op cmp ks o) as [r' ks']. simpl in Hr, Hset1, Hl. subst r'. apply wp_bind.
  eapply wp_mono; [apply (IH _ ks'); [done|lia]|]. intros [rs set2] h2 [Hrs Hset2].
  simpl in Hrs, Hset2. destruct (ref_run cmp ks' os) as [rs' ks2]. apply wp_ret. simpl in *. by subst rs'.
Qed.

(** C22: sets refine sorted lists: any sequence of operations on a new set runs without a
    failed assertion, a stray access or an overflow of the stack, and returns what the
    operations on a sorted list of keys return; the final set holds the final list, and
    no node that was there before is touched. *)
Theorem rbset_refines_sorted_list h (os : list op) :
  Z.of_nat (length os) < 2 ^ 64 ->
  exists set h', run (cucon_rbset_init cmp) os h = Some (((ref_run cmp [] os).1, set), h') /\
    is_rbset h h' set (ref_run cmp [] os).2 /\ forall a, is_Some (h !! a) -> h' !! a = h !! a.
Proof.
  intros Hs. destruct (wp_run h h (cucon_rbset_init cmp) [] os) as ([rs set] & h' & E & Hrs & Hset).
  - split; [done|apply holds_empty].
  - simpl. lia.
  - exists set, h'. simpl in Hrs. subst rs. split_and!; [done|done|].
    destruct Hset as [_ (t & (_ & _ & Hf) & _)]. intros a Ha. by apply Hf.
Qed.

End refinement.

(** Keys compared as numbers. *)
#[export] Program Instance sub_order : KeyOrder Z.sub.
Next Obligation. intros x y. lia. Qed.
Next Obligation. intros x y z. lia. Qed.

Lemma rbset_refines_sorted_list_witness :
  exists set h', run (cucon_rbset_init Z.sub)
      [Insert 3; Insert 1; Insert 2; Insert 3; Erase 1; Find 3; Nearest 1; Iter] ∅ =
    Some (([Bool true; Bool true; Bool true; Bool false; Bool true; Ptr 3; Ptrs 0 0 2; Elems [3; 2]],
           set), h') /\
    is_rbset Z.sub ∅ h' set [2; 3] /\ forall a, is_Some ((∅ : heap Z) !! a) -> h' !! a = (∅ : heap Z) !! a.
Proof.
  apply (rbset_refines_sorted_list Z.sub ∅
           [Insert 3; Insert 1; Insert 2; Insert 3; Erase 1; Find 3; Nearest 1; Iter]). done.
Defined.
