(* ===== verification/Rbmap.v ===== *)
(** * Maps as red-black trees: [cucon/rbmap.h], [cucon/rbmap.c]

    A map is a tree with its comparison; the slot of a node is the key and one word for
    the value.  A pointer to the word of the value is the address of its node.  The
    operations refine those of a sorted list of pairs. *)

From S2P Require Export Rbset.

Record rbmap := mk_rbmap { rbmap_root : N; rbmap_cmp : Z -> Z -> Z }.

Section operations.
Context `{!NodeAlloc (Z * Z)}.
Implicit Types (map : rbmap) (key val : Z).

Definition cucon_rbmap_init (cmp : Z -> Z -> Z) : rbmap := mk_rbmap NULL cmp.
Definition cucon_rbmap_new (cmp : Z -> Z -> Z) : rbmap := mk_rbmap NULL cmp.

Definition cucon_rbmap_size map : M (Z * Z) Z := cucon_rbtree_size (rbmap_root map).

Definition cucon_rbmap_find_mem map key : M (Z * Z) N :=
  node ← cucon_rbtree_find2p_node (rbmap_root map) (rbmap_cmp map) key;
  if negb (node =? NULL)%N then mret node else mret NULL.

Definition cucon_rbmap_find_ptr map key : M (Z * Z) Z :=
  node ← cucon_rbtree_find2p_node (rbmap_root map) (rbmap_cmp map) key;
  if negb (node =? NULL)%N then v ← cucon_rbnode_mem node; mret v.2 else mret 0.

Definition set_value (node : N) val : M (Z * Z) unit :=
  v ← cucon_rbnode_mem node; set_mem node (v.1, val).

Definition cucon_rbmap_insert_mem map key : M (Z * Z) (bool * N * rbmap) :=
  '(st, node, root) ← cucon_rbtree_insert2p_node (rbmap_root map) (rbmap_cmp map) key;
  mret (st, node, mk_rbmap root (rbmap_cmp map)).

Definition cucon_rbmap_insert_ptr map key val : M (Z * Z) (bool * rbmap) :=
  '(st, node, root) ← cucon_rbtree_insert2p_node (rbmap_root map) (rbmap_cmp map) key;
  if st : bool then
    set_value node val;;
    mret (true, mk_rbmap root (rbmap_cmp map))
  else mret (false, mk_rbmap root (rbmap_cmp map)).

Definition cucon_rbmap_erase map key : M (Z * Z) (bool * rbmap) :=
  '(node, root) ← cucon_rbtree_erase2p (rbmap_root map) (rbmap_cmp map) key;
  mret (negb (node =? NULL)%N, mk_rbmap root (rbmap_cmp map)).

(** The callbacks see the key and a pointer to the value, or the value. *)
Fixpoint _rbmap_conj_mem {S} (fuel : nat) (cb : S -> Z -> N -> S * bool) (node : N) (s : S)
    : M (Z * Z) (S * bool) :=
  match fuel with
  | O => lift None
  | S fuel =>
      if (node =? NULL)%N then mret (s, true)
      else
        l ← LEFT node;
        '(s, ok) ← _rbmap_conj_mem fuel cb l s;
        if negb ok then mret (s, false)
        else
          slot ← cucon_rbnode_mem node;
          let '(s, ok) := cb s slot.1 node in
          if negb ok then mret (s, false)
          else r ← RIGHT node; _rbmap_conj_mem fuel cb r s
  end.

Definition cucon_rbmap_conj_mem {S} map (cb : S -> Z -> N -> S * bool) (s : S) : M (Z * Z) (S * bool) :=
  fuel ← heap_fuel; _rbmap_conj_mem fuel cb (rbmap_root map) s.

Fixpoint _rbmap_conj_ptr {S} (fuel : nat) (cb : S -> Z -> Z -> S * bool) (node : N) (s : S)
    : M (Z * Z) (S * bool) :=
  match fuel with
  | O => lift None
  | S fuel =>
      if (node =? NULL)%N then mret (s, true)
      else
        l ← LEFT node;
        '(s, ok) ← _rbmap_conj_ptr fuel cb l s;
        if negb ok then mret (s, false)
        else
          slot ← cucon_rbnode_mem node;
          let '(s, ok) := cb s slot.1 slot.2 in
          if negb ok then mret (s, false)
          else r ← RIGHT node; _rbmap_conj_ptr fuel cb r s
  end.

Definition cucon_rbmap_conj_ptr {S} map (cb : S -> Z -> Z -> S * bool) (s : S) : M (Z * Z) (S * bool) :=
  fuel ← heap_fuel; _rbmap_conj_ptr fuel cb (rbmap_root map) s.

(** ** Sequences of operations *)

(** [MPut] fills the slot that [insert_mem] returns, [MUpdate] the one that [find_mem]
    returns; [MConj] collects at most [n] pairs. *)
Inductive map_op := MInsert (key val : Z) | MPut (key val : Z) | MUpdate (key val : Z)
  | MErase (key : Z) | MFind (key : Z) | MSize | MConj (n : nat).

Inductive map_ret := MBool (b : bool) | MWord (w : Z) | MSeen (seen : list (Z * Z)) (ok : bool).

Definition collect_pair (n : nat) (seen : list (Z * Z)) (k v : Z) : list (Z * Z) * bool :=
  ((k, v) :: seen, bool_decide (S (length seen) < n)%nat).

Definition run_map_op map (o : map_op) : M (Z * Z) (map_ret * rbmap) :=
  match o with
  | MInsert key val => '(b, map) ← cucon_rbmap_insert_ptr map key val; mret (MBool b, map)
  | MPut key val =>
      '(b, slot, map) ← cucon_rbmap_insert_mem map key; set_value slot val;; mret (MBool b, map)
  | MUpdate key val =>
      slot ← cucon_rbmap_find_mem map key;
      if (slot =? NULL)%N then mret (MBool false, map)
      else set_value slot val;; mret (MBool true, map)
  | MErase key => '(b, map) ← cucon_rbmap_erase map key; mret (MBool b, map)
  | MFind key => w ← cucon_rbmap_find_ptr map key; mret (MWord w, map)
  | MSize => w ← cucon_rbmap_size map; mret (MWord w, map)
  | MConj n => '(s, ok) ← cucon_rbmap_conj_ptr map (collect_pair n) []; mret (MSeen s ok, map)
  end.

Fixpoint run_map map (os : list map_op) : M (Z * Z) (list map_ret * rbmap) :=
  match os with
  | [] => mret ([], map)
  | o :: os => '(r, map) ← run_map_op map o; '(rs, map) ← run_map map os; mret (r :: rs, map)
  end.

End operations.

Section reference_ops.
Context (cmp : Z -> Z -> Z).
Implicit Types (kvs : list (Z * Z)) (key val : Z).

(** A new value for the key that is there. *)
Fixpoint sl_update key val kvs : list (Z * Z) :=
  match kvs with
  | [] => []
  | kv :: kvs => if cmp key kv.1 =? 0 then (kv.1, val) :: kvs else kv :: sl_update key val kvs
  end.

Definition ref_map_op kvs (o : map_op) : map_ret * list (Z * Z) :=
  match o with
  | MInsert key val => let '(b, kvs) := sl_insert cmp key (key, val) kvs in (MBool b, kvs)
  | MPut key val =>
      let '(b, kvs') := sl_insert cmp key (key, val) kvs in
      (MBool b, if b : bool then kvs' else sl_update key val kvs)
  | MUpdate key val =>
      (MBool (match sl_find cmp key kvs with Some _ => true | None => false end), sl_update key val kvs)
  | MErase key => let '(b, kvs) := sl_erase cmp key kvs in (MBool b, kvs)
  | MFind key => (MWord (from_option snd 0 (sl_find cmp key kvs)), kvs)
  | MSize => (MWord (Z.of_nat (length kvs)), kvs)
  | MConj n =>
      let '(s, ok) := conj_list (fun s kv => collect_pair n s kv.1 kv.2) kvs [] in (MSeen s ok, kvs)
  end.

Fixpoint ref_map_run kvs (os : list map_op) : list map_ret * list (Z * Z) :=
  match os with
  | [] => ([], kvs)
  | o :: os =>
      let '(r, kvs) := ref_map_op kvs o in let '(rs, kvs) := ref_map_run kvs os in (r :: rs, kvs)
  end.

Lemma sl_update_some key val kv xs ys :
  keys_pos cmp key xs -> cmp key kv.1 = 0 ->
  sl_update key val (xs ++ kv :: ys) = xs ++ (kv.1, val) :: ys.
Proof.
  intros Hx Hv. induction Hx as [|x xs Hx _ IH]; simpl; [by rewrite Hv|].
  simpl in Hx. rewrite (proj2 (Z.eqb_neq _ 0)), IH by lia. done.
Qed.

Lemma sl_update_none key val kvs : sl_find cmp key kvs = None -> sl_update key val kvs = kvs.
Proof.
  induction kvs as [|kv kvs IH]; simpl; [done|]. destruct (_ =? _); [done|]. intros Hf. by rewrite IH.
Qed.

Lemma length_sl_update key val kvs : length (sl_update key val kvs) = length kvs.
Proof. induction kvs as [|kv kvs IH]; simpl; [done|]. destruct (_ =? _); simpl; by rewrite ?IH. Qed.

End reference_ops.

(** ** Refinement *)

Section refinement.
Context `{!NodeAlloc (Z * Z)} (cmp : Z -> Z -> Z) `{!KeyOrder cmp}.
Implicit Types (kvs : list (Z * Z)) (m : rbmap) (h : heap (Z * Z)) (key val : Z).

Definition is_rbmap (h0 h : heap (Z * Z)) m kvs : Prop :=
  rbmap_cmp m = cmp /\ holds cmp h0 h (rbmap_root m) kvs.

Lemma wp_set_value h0 h p t xs x kv ys val :
  holds_tree cmp h0 h p t -> elems t = xs ++ (x, kv) :: ys ->
  wp (set_value x val)
    (fun _ h' => holds cmp h0 h' p (map snd xs ++ (kv.1, val) :: map snd ys)) h.
Proof.
  intros Ht He. destruct (node_of_elem h p t x kv) as (Nx & n & En & Hn); [apply Ht|rewrite He; set_solver|].
  unfold set_value. apply wp_bind, (wp_mem _ _ _ _ En Nx). rewrite Hn.
  eapply wp_mono; [by apply (wp_holds_set_mem cmp h0 h p t xs x kv ys)|].
  intros _ h' (t' & Ht' & He'). exists t'. split; [done|]. by rewrite He', map_app.
Qed.

Lemma wp_insert_ptr h0 h m kvs key val :
  is_rbmap h0 h m kvs -> Z.of_nat (length kvs) + 1 < 2 ^ 64 ->
  wp (cucon_rbmap_insert_ptr m key val)
    (fun res h' => res.1 = (sl_insert cmp key (key, val) kvs).1 /\
       is_rbmap h0 h' res.2 (sl_insert cmp key (key, val) kvs).2) h.
Proof.
  intros [Hc Hh] Hs. unfold cucon_rbmap_insert_ptr. rewrite Hc.
  apply wp_bind. eapply wp_mono; [by apply (wp_put cmp h0)|].
  intros [[b x] q] h' [(-> & -> & -> & Hi & _)|(-> & t & xs & ys & Ht & He & Hi)]; rewrite Hi.
  - by apply wp_ret.
  - apply wp_bind. eapply wp_mono; [by apply (wp_set_value h0 _ q t xs x (key, 0) ys)|].
    intros ? h2 Hh2. by apply wp_ret.
Qed.

(** The slot that [insert_mem] returns, filled with a value. *)
Lemma wp_insert_mem h0 h m kvs key val :
  is_rbmap h0 h m kvs -> Z.of_nat (length kvs) + 1 < 2 ^ 64 ->
  wp ('(b, slot, m) ← cucon_rbmap_insert_mem m key; set_value slot val;; mret (MBool b, m))
    (fun res h' => res.1 = (ref_map_op cmp kvs (MPut key val)).1 /\
       is_rbmap h0 h' res.2 (ref_map_op cmp kvs (MPut key val)).2) h.
Proof.
  intros [Hc Hh] Hs. unfold cucon_rbmap_insert_mem. rewrite Hc. apply wp_bind, wp_bind.
  cbn [ref_map_op]. eapply wp_mono; [by apply (wp_put cmp h0)|].
  intros [[b x] q] h' [(-> & -> & -> & Hi & t & xs & kv & ys & Ht & He & -> & Hp & Hv)|(-> & t & xs & ys & Ht & He & Hi)];
    rewrite Hi; apply wp_ret, wp_bind.
  - eapply wp_mono; [by apply (wp_set_value h0 _ (rbmap_root m) t xs x kv ys)|].
    intros ? h2 Hh2. apply wp_ret. by rewrite sl_update_some.
  - eapply wp_mono; [by apply (wp_set_value h0 _ q t xs x (key, 0) ys)|]. intros ? h2 Hh2. by apply wp_ret.
Qed.

Lemma wp_update h0 h m kvs key val :
  is_rbmap h0 h m kvs ->
  wp (run_map_op m (MUpdate key val))
    (fun res h' => res.1 = (ref_map_op cmp kvs (MUpdate key val)).1 /\
       is_rbmap h0 h' res.2 (ref_map_op cmp kvs (MUpdate key val)).2) h.
Proof.
  intros [Hc Hh]. cbn [run_map_op ref_map_op]. unfold cucon_rbmap_find_mem. rewrite Hc.
  apply wp_bind, wp_bind. eapply wp_mono; [by apply (wp_locate cmp h0)|].
  intros x h' [-> Hx]. pose proof (located_node _ _ _ _ _ _ _ Hx) as Hnode.
  destruct Hx as [[-> Hf]|(t & xs & kv & ys & Ht & He & -> & Hp & Hv)].
  - rewrite N.eqb_refl, Hf. apply wp_ret, wp_ret. by rewrite sl_update_none.
  - rewrite sl_find_some in Hnode |- * by done. destruct Hnode as [Nx _].
    rewrite (proj2 (N.eqb_neq x NULL) Nx). cbn [negb]. apply wp_ret.
    rewrite (proj2 (N.eqb_neq x NULL) Nx). apply wp_bind.
    eapply wp_mono; [by apply (wp_set_value h0 _ (rbmap_root m) t xs x kv ys)|].
    intros ? h2 Hh2. apply wp_ret. by rewrite sl_update_some.
Qed.

(** The traversal with both arguments is that of the tree. *)
Lemma conj_ptr_eq {S} fuel (cb : S -> Z -> Z -> S * bool) x (s : S) h :
  _rbmap_conj_ptr fuel cb x s h = rbnode_conj L fuel (fun s kv => cb s kv.1 kv.2) x s h.
Proof.
  revert x s h. induction fuel as [|fuel IH]; intros x s h; [done|]. simpl.
  destruct (x =? NULL)%N; [done|]. unfold LEFT, RIGHT, mbind, M_bind.
  destruct (CHILD L x h) as [[l h1]|]; [|done]. rewrite IH.
  destruct (rbnode_conj L fuel _ l s h1) as [[[s1 ok] h2]|]; [|done]. destruct ok; [|done]. simpl.
  destruct (cucon_rbnode_mem x h2) as [[kv h3]|]; [|done].
  destruct (cb s1 kv.1 kv.2) as [s2 [|]]; [|done]. simpl.
  destruct (CHILD R x h3) as [[r h4]|]; [|done]. apply IH.
Qed.

(** The traversal with pointers sees the keys and the nodes. *)
Lemma wp_conj_mem {S} fuel (cb : S -> Z -> N -> S * bool) h (t : tree (Z * Z)) (s : S) :
  rep h t -> (height t < fuel)%nat ->
  wp (_rbmap_conj_mem fuel cb (root t) s)
    (fun res h' => h' = h /\ res = conj_list (fun s (e : N * (Z * Z)) => cb s e.2.1 e.1) (elems t) s) h.
Proof.
  revert t s. induction fuel as [|fuel IH]; intros t s Hr Hf; [lia|].
  destruct t as [|c l a v r]; [by apply wp_ret|]. simpl elems. rewrite conj_list_app.
  destruct (rep_T _ _ _ _ _ _ Hr) as (Ea & Na & R1 & R2). simpl in Hf.
  simpl root. cbn [_rbmap_conj_mem conj_list fst snd].
  rewrite (proj2 (N.eqb_neq a NULL) Na).
  apply wp_bind, (wp_CHILD _ _ _ _ _ Ea Na). simpl child.
  apply wp_bind. eapply wp_mono; [apply IH; [done|lia]|]. intros [s1 ok] h' [-> <-].
  destruct ok; cbn [negb]; [|by apply wp_ret].
  apply wp_bind, (wp_mem _ _ _ _ Ea Na). cbn [slot].
  destruct (cb s1 v.1 a) as [s2 [|]]; cbn [negb]; [|by apply wp_ret].
  apply wp_bind, (wp_CHILD _ _ _ _ _ Ea Na). simpl child. apply IH; [done|lia].
Qed.

Lemma wp_run_map_op h0 h m kvs o :
  is_rbmap h0 h m kvs -> Z.of_nat (length kvs) + 1 < 2 ^ 64 ->
  wp (run_map_op m o)
    (fun res h' => res.1 = (ref_map_op cmp kvs o).1 /\ is_rbmap h0 h' res.2 (ref_map_op cmp kvs o).2) h.
Proof.
  intros Hm Hs. pose proof Hm as [Hc Hh].
  destruct o as [key val|key val|key val|key|key| |n].
  - cbn [run_map_op ref_map_op]. apply wp_bind. eapply wp_mono; [by apply (wp_insert_ptr h0)|].
    intros [b m'] h' [Hb Hr]. apply wp_ret. simpl in Hb. destruct (sl_insert _ _ _ kvs). by subst b.
  - by apply wp_insert_mem.
  - by apply wp_update.
  - cbn [run_map_op ref_map_op]. unfold cucon_rbmap_erase. rewrite Hc. apply wp_bind, wp_bind.
    eapply wp_mono; [by apply (wp_del cmp h0)|]. intros [x q] h' Hres. apply wp_ret, wp_ret.
    destruct (sl_erase cmp key kvs) as [b kvs']. destruct Hres as [<- Hr]. by split.
  - cbn [run_map_op ref_map_op]. unfold cucon_rbmap_find_ptr. rewrite Hc. apply wp_bind, wp_bind.
    eapply wp_mono; [by apply (wp_lookup cmp h0)|]. intros x h' [-> Hx].
    destruct (sl_find cmp key kvs) as [kv|]; simpl in Hx |- *.
    + destruct Hx as (Nx & n & En & <-). rewrite (proj2 (N.eqb_neq x NULL) Nx). cbn [negb].
      by apply wp_bind, (wp_mem _ _ _ _ En Nx), wp_ret, wp_ret.
    + subst x. by apply wp_ret, wp_ret.
  - cbn [run_map_op ref_map_op]. apply wp_bind. pose proof Hh as (t & (Ht & _) & Hkvs).
    apply (wp_size _ _ _ _ Ht), wp_ret. split; [|done]. simpl. by rewrite <- Hkvs, <- tsize_slots.
  - cbn [run_map_op ref_map_op]. apply wp_bind.
    destruct (wp_traverse cmp L (fun s kv => collect_pair n s kv.1 kv.2) h0 h _ _ [] Hh)
      as ([s ok] & h' & E & -> & Hr).
    unfold cucon_rbmap_conj_ptr. exists (s, ok), h. split.
    + unfold mbind, M_bind in E |- *. destruct (heap_fuel h) as [[fuel h1]|]; [|done].
      by rewrite conj_ptr_eq.
    + apply wp_ret. by rewrite <- Hr.
Qed.

Lemma length_ref_map_op kvs o : (length (ref_map_op cmp kvs o).2 <= S (length kvs))%nat.
Proof.
  assert (Hins : forall key val, (length (sl_insert cmp key (key, val) kvs).2 <= S (length kvs))%nat).
  { intros key val. clear. induction kvs as [|kv kvs IH]; simpl; [lia|]. destruct (_ <? _); [simpl; lia|].
    destruct (_ <? _); [|simpl; lia]. destruct (sl_insert _ _ _ kvs). simpl in *. lia. }
  destruct o as [key val|key val|key val|key|key| |n]; cbn [ref_map_op]; try (simpl; lia).
  - pose proof (Hins key val). by destruct (sl_insert _ _ _ kvs).
  - pose proof (Hins key val). destruct (sl_insert _ _ _ kvs) as [[|] kvs']; simpl in *; [done|].
    rewrite length_sl_update. lia.
  - simpl. rewrite length_sl_update. lia.
  - clear Hins. induction kvs as [|kv kvs IH]; simpl; [lia|]. destruct (_ =? _); [simpl; lia|].
    destruct (sl_erase _ _ kvs). simpl in *. lia.
  - destruct (conj_list _ kvs []). simpl. lia.
Qed.

Lemma wp_run_map h0 h m kvs os :
  is_rbmap h0 h m kvs -> Z.of_nat (length kvs) + Z.of_nat (length os) < 2 ^ 64 ->
  wp (run_map m os)
    (fun res h' => res.1 = (ref_map_run cmp kvs os).1 /\ is_rbmap h0 h' res.2 (ref_map_run cmp kvs os).2) h.
Proof.
  revert m kvs h. induction os as [|o os IH]; intros m kvs h Hm Hs; cbn [run_map ref_map_run].
  { apply wp_ret. by split. }
  cbn [length] in Hs. apply wp_bind. eapply wp_mono; [apply (wp_run_map_op h0); [done|lia]|].
  intros [r m'] h1 [Hr Hm1]. pose proof (length_ref_map_op kvs o) as Hl. simpl in Hr, Hm1.
  destruct (ref_map_op cmp kvs o) as [r' kvs']. simpl in Hr, Hm1, Hl. subst r'. apply wp_bind.
  eapply wp_mono; [apply (IH _ kvs'); [done|lia]|]. intros [rs m2] h2 [Hrs Hm2].
  simpl in Hrs, Hm2. destruct (ref_map_run cmp kvs' os) as [rs' kvs2]. apply wp_ret. simpl in *. by subst rs'.
Qed.

(** C23: maps refine sorted lists of pairs: any sequence of insertions, updates through the
    returned slots, removals, searches and traversals on a new map runs without a failed
    assertion, a stray access or an overflow of the stack, and returns what the
    operations on the list return; no node that was there before is touched. *)
Theorem rbmap_refines_sorted_list h (os : list map_op) :
  Z.of_nat (length os) < 2 ^ 64 ->
  exists m h', run_map (cucon_rbmap_init cmp) os h = Some (((ref_map_run cmp [] os).1, m), h') /\
    is_rbmap h h' m (ref_map_run cmp [] os).2 /\ forall a, is_Some (h !! a) -> h' !! a = h !! a.
Proof.
  intros Hs. destruct (wp_run_map h h (cucon_rbmap_init cmp) [] os) as ([rs m] & h' & E & Hrs & Hm).
  - split; [done|apply holds_empty].
  - simpl. lia.
  - exists m, h'. simpl in Hrs. subst rs. split_and!; [done|done|].
    destruct Hm as [_ (t & (_ & _ & Hf) & _)]. intros a Ha. by apply Hf.
Qed.

End refinement.

Lemma rbmap_refines_sorted_list_witness :
  exists m h', run_map (cucon_rbmap_init Z.sub)
      [MInsert 3 30; MInsert 1 10; MPut 3 33; MUpdate 1 11; MErase 2; MFind 3; MSize; MConj 5] ∅ =
    Some (([MBool true; MBool true; MBool false; MBool true; MBool false; MWord 33; MWord 2;
            MSeen [(3, 33); (1, 11)] true], m), h') /\
    is_rbmap Z.sub ∅ h' m [(1, 11); (3, 33)] /\
    forall a, is_Some ((∅ : heap (Z * Z)) !! a) -> h' !! a = (∅ : heap (Z * Z)) !! a.
Proof.
  apply (rbmap_refines_sorted_list Z.sub ∅
           [MInsert 3 30; MInsert 1 10; MPut 3 33; MUpdate 1 11; MErase 2; MFind 3; MSize; MConj 5]). done.
Defined.
