(* ===== verification/Buckets.v ===== *)
(** * Hash tables as lists of buckets

    What the hash maps share: an array of lists of pairs in which every pair is in the
    bucket of the index of its key stands for the finite map of its pairs. *)

From stdpp Require Export gmap.
From S2P Require Export Int.

(** A mask is a remainder. *)
Lemma land_pow x e : 0 <= e -> x &&& (2 ^ e - 1) = x mod 2 ^ e.
Proof. intros He. by rewrite <- Z.land_ones, Z.ones_equiv, Z.sub_1_r by done. Qed.

(** ** Lists of lists *)

Section concat.
Context {A : Type}.
Implicit Types (a : list (list A)) (b : list A).

Lemma concat_insert a i b :
  a !! i = Some b ->
  exists rest, concat a ≡ₚ b ++ rest /\ forall b', concat (<[i := b']> a) ≡ₚ b' ++ rest.
Proof.
  intros Hi. exists (concat (take i a) ++ concat (drop (S i) a)).
  pose proof (lookup_lt_Some _ _ _ Hi) as Hl.
  assert (Hc : forall b', concat (take i a ++ b' :: drop (S i) a) ≡ₚ
                          b' ++ concat (take i a) ++ concat (drop (S i) a)).
  { intros b'. rewrite concat_app. simpl. rewrite !app_assoc. f_equiv. apply Permutation_app_comm. }
  split.
  - rewrite <- (take_drop_middle _ _ _ Hi) at 1. apply Hc.
  - intros b'. rewrite insert_take_drop by done. apply Hc.
Qed.

Lemma elem_nodes a (x : A) : x ∈ concat a <-> exists i b, a !! i = Some b /\ x ∈ b.
Proof.
  rewrite list_elem_of_In, in_concat. setoid_rewrite <- list_elem_of_In.
  setoid_rewrite list_elem_of_lookup at 1. naive_solver.
Qed.

Lemma concat_replicate_nil j : concat (replicate j ([] : list A)) = [].
Proof. by induction j. Qed.

Lemma take_set {B} (l : list B) i x : (i < length l)%nat -> take (S i) (<[i := x]> l) = take i l ++ [x].
Proof.
  intros Hi. rewrite (take_S_r _ _ x) by by apply list_lookup_insert_eq. by rewrite take_insert_ge.
Qed.

Lemma filter_concat (P : A -> Prop) `{!forall x, Decision (P x)} a :
  concat (map (base.filter P) a) = base.filter P (concat a).
Proof. induction a as [|b a IH]; simpl; [done|]. by rewrite list.filter_app, IH. Qed.

End concat.

(** ** Lists of pairs *)

Section pairs.
Context {K V : Type} `{Countable K}.
Implicit Types (n : K * V) (ns : list (K * V)) (P : K * V -> Prop).

Lemma elem_map_fst n ns : n ∈ ns -> n.1 ∈ map fst ns.
Proof. intros Hn. apply list_elem_of_In, in_map. by apply list_elem_of_In. Qed.

Lemma key_ne n n' ns : n.1 ∉ map fst ns -> n' ∈ ns -> n.1 <> n'.1.
Proof. intros Hn Hin E. apply Hn. rewrite E. by apply elem_map_fst. Qed.

Lemma keys_filter P `{!forall n, Decision (P n)} k ns :
  k ∈ map fst (base.filter P ns) -> k ∈ map fst ns.
Proof.
  intros (n & -> & Hn)%list_elem_of_fmap. apply list_elem_of_filter in Hn as [_ Hn].
  by apply elem_map_fst.
Qed.

Lemma nodup_filter P `{!forall n, Decision (P n)} ns :
  NoDup (map fst ns) -> NoDup (map fst (base.filter P ns)).
Proof.
  induction ns as [|n ns IH]; simpl; [done|]. intros [Hn Hd]%list.NoDup_cons.
  rewrite filter_cons. destruct (decide (P n)); simpl; [|auto].
  apply list.NoDup_cons. split; [|auto]. by intros ?%keys_filter.
Qed.

Lemma list_to_map_filter P `{!forall n, Decision (P n)} ns :
  NoDup (map fst ns) ->
  (list_to_map (base.filter P ns) : gmap K V) = base.filter P (list_to_map ns : gmap K V).
Proof.
  intros Hd. apply map_eq. intros k. apply option_eq. intros v.
  rewrite map_lookup_filter_Some, <- !elem_of_list_to_map by (try apply nodup_filter; done).
  rewrite list_elem_of_filter. tauto.
Qed.

(** Pairs with distinct keys are determined by their map. *)
Lemma list_to_map_perm ns ns' :
  NoDup (map fst ns) -> ns' ≡ₚ ns -> (list_to_map ns' : gmap K V) = list_to_map ns.
Proof. intros Hd Hp. apply list_to_map_proper; [by rewrite Hp|done]. Qed.

(** The first pair with a key. *)
Fixpoint assoc (key : K) ns : option (K * V) :=
  match ns with
  | [] => None
  | n :: ns => if decide (n.1 = key) then Some n else assoc key ns
  end.

Lemma assoc_map key ns : option_map snd (assoc key ns) = (list_to_map ns : gmap K V) !! key.
Proof.
  induction ns as [|[k v] ns IH]; simpl; [done|]. destruct (decide (k = key)) as [->|Hk].
  - by rewrite lookup_insert_eq.
  - by rewrite lookup_insert_ne.
Qed.

Lemma assoc_some key ns n : assoc key ns = Some n -> n ∈ ns /\ n.1 = key.
Proof.
  induction ns as [|n' ns IH]; simpl; [done|]. destruct (decide (n'.1 = key)).
  - intros [= ->]. split; [by left|done].
  - intros Hn. destruct (IH Hn). split; [by right|done].
Qed.

End pairs.

(** ** Tables *)

Section table.
Context {K V : Type} `{Countable K} (idx : K -> nat).
Implicit Types (a : list (list (K * V))) (b : list (K * V)) (n : K * V).

Definition at_index a : Prop := forall i b n, a !! i = Some b -> n ∈ b -> i = idx n.1.

Definition table a : Prop := at_index a /\ NoDup (map fst (concat a)).

Definition contents a : gmap K V := list_to_map (concat a).

Lemma table_lookup a key b :
  table a -> a !! idx key = Some b -> option_map snd (assoc key b) = contents a !! key.
Proof.
  intros [Ha Hd] Hb. rewrite assoc_map. apply option_eq. intros v.
  destruct (concat_insert _ _ _ Hb) as (rest & Hp & _).
  assert (Hdb : NoDup (map fst b)).
  { rewrite Hp, map_app in Hd. by apply list.NoDup_app in Hd as [? _]. }
  unfold contents. rewrite <- !elem_of_list_to_map by done. rewrite elem_nodes. split.
  - intros Hin. eauto.
  - intros (i & b' & Hi & Hin). pose proof (Ha _ _ _ Hi Hin) as ->. simpl in Hi. congruence.
Qed.

(** Another bucket. *)
Lemma table_update a i b :
  table a -> a !! i = Some b ->
  exists rest, concat a ≡ₚ b ++ rest /\
    forall b', (forall n, n ∈ b' -> i = idx n.1) -> NoDup (map fst (b' ++ rest)) ->
      table (<[i := b']> a) /\ concat (<[i := b']> a) ≡ₚ b' ++ rest /\
      contents (<[i := b']> a) = list_to_map (b' ++ rest).
Proof.
  intros [Ha Hd] Hi. destruct (concat_insert _ _ _ Hi) as (rest & Hp & Hp'). exists rest. split; [done|].
  intros b' Hb' Hd'. split_and!; [split| |].
  - intros j c n Hj Hin. destruct (decide (j = i)) as [->|Hji].
    + rewrite list_lookup_insert_eq in Hj by by eapply lookup_lt_Some. injection Hj as <-. auto.
    + rewrite list_lookup_insert_ne in Hj by done. by apply (Ha j c).
  - by rewrite Hp'.
  - done.
  - by apply list_to_map_perm.
Qed.

(** One more pair, anywhere in its bucket. *)
Lemma table_add a key v b b' :
  table a -> a !! idx key = Some b -> contents a !! key = None -> b' ≡ₚ (key, v) :: b ->
  table (<[idx key := b']> a) /\ concat (<[idx key := b']> a) ≡ₚ (key, v) :: concat a /\
  contents (<[idx key := b']> a) = <[key := v]> (contents a).
Proof.
  intros Ht Hb Hn Hp. destruct (table_update a _ b Ht Hb) as (rest & Hc & Hu).
  assert (Hk : key ∉ map fst (concat a)) by by apply not_elem_of_list_to_map.
  destruct (Hu b') as (Ht' & Hc' & Hm').
  - intros n. rewrite Hp, elem_of_cons. intros [->|Hin]; [done|]. by apply (proj1 Ht _ b).
  - rewrite Hp. simpl. rewrite <- Hc. apply list.NoDup_cons. split; [done|apply Ht].
  - assert (Hc2 : concat (<[idx key := b']> a) ≡ₚ (key, v) :: concat a).
    { rewrite Hc', Hp, Hc. done. }
    split_and!; [done|done|]. rewrite Hm'. unfold contents. rewrite <- list_to_map_cons.
    apply list_to_map_perm.
    + simpl. apply list.NoDup_cons. split; [done|apply Ht].
    + by rewrite Hp, Hc.
Qed.

(** One pair less. *)
Lemma table_remove a i b n b' :
  table a -> a !! i = Some b -> b ≡ₚ n :: b' ->
  table (<[i := b']> a) /\ concat a ≡ₚ n :: concat (<[i := b']> a) /\
  contents (<[i := b']> a) = delete n.1 (contents a) /\ contents a !! n.1 = Some n.2.
Proof.
  intros Ht Hb Hp. destruct (table_update a i b Ht Hb) as (rest & Hc & Hu). pose proof (proj2 Ht) as Hd.
  assert (Hc1 : concat a ≡ₚ n :: b' ++ rest) by by rewrite Hc, Hp.
  pose proof Hd as Hd'. rewrite Hc1 in Hd'. simpl in Hd'. apply list.NoDup_cons in Hd' as [Hn Hd'].
  destruct (Hu b') as (Ht' & Hc' & Hm'); [|done|].
  { intros n' Hin. apply (proj1 Ht _ b); [done|]. rewrite Hp. by right. }
  split_and!; [done|by rewrite Hc'| |].
  - rewrite Hm'. transitivity (delete n.1 (list_to_map (n :: b' ++ rest) : gmap K V)).
    + destruct n as [k v]. simpl. rewrite delete_insert_id; [done|]. by apply not_elem_of_list_to_map.
    + f_equal. symmetry. by apply list_to_map_perm; [|symmetry]; rewrite <- ?Hc1.
  - apply elem_of_list_to_map; [done|]. destruct n. rewrite Hc1. by left.
Qed.

(** Filtered buckets. *)
Lemma table_filter a (P : K * V -> Prop) `{!forall n, Decision (P n)} :
  table a -> table (map (base.filter P) a) /\ contents (map (base.filter P) a) = base.filter P (contents a).
Proof.
  intros [Ha Hd]. unfold table, contents. rewrite filter_concat. split; [split|].
  - intros i b n Hi Hin. rewrite list_lookup_fmap in Hi. destruct (a !! i) as [b0|] eqn:Hb; [|done].
    injection Hi as <-. apply list_elem_of_filter in Hin as [_ Hin]. by apply (Ha i b0).
  - by apply nodup_filter.
  - by apply list_to_map_filter.
Qed.

Lemma table_empty j : table (replicate j ([] : list (K * V))) /\ contents (replicate j ([] : list (K * V))) = ∅.
Proof.
  unfold table, contents. rewrite concat_replicate_nil. split; [split|done]; [|constructor].
  intros i b n [-> _]%lookup_replicate Hn. by apply elem_of_nil in Hn.
Qed.

Lemma contents_size a : table a -> base.size (contents a) = length (concat a).
Proof. intros [_ Hd]. by apply map_size_list_to_map. Qed.

Lemma contents_list a : table a -> concat a ≡ₚ map_to_list (contents a).
Proof. intros [_ Hd]. symmetry. by apply map_to_list_to_map. Qed.

End table.
