(* ===== verification/Umap.v ===== *)
(** * Hash maps: [cucon/umap.h], [cucon/umap.c]

    A map is an array of buckets.  A bucket, a list linked by pointers, is the list of
    its nodes, a node the pair of its key and the contents of its slot; since keys are
    unique, the pointer to a slot that a function returns is given by the key, and the
    slot is read and written with [slot_at] and [set_slot].  The sentinel behind the
    last bucket is no list: an access to it as to a bucket is an error, as is any other
    access outside of the array.

    The macros [MIN_FILL_NUMER] to [MAX_FILL_DENOM] have the values of the default
    configuration, without [CUCONF_OPT_SPEED]. *)

From stdpp Require Export gmap.
From S2P Require Export Int.

Definition MIN_SIZE : Z := 8.
Definition MIN_FILL_NUMER : Z := 1.
Definition MIN_FILL_DENOM : Z := 2.
Definition MAX_FILL_NUMER : Z := 3.
Definition MAX_FILL_DENOM : Z := 2.
Definition INT_MIN : Z := -2 ^ 31.

(** [HASH2], on words. *)
Definition HASH (key : Z) : Z :=
  wsub (Z.lxor key (key >>> 7)) (Z.lxor (key >>> 11) (key >>> 19)).

Definition wmul (x y : Z) : Z := wrap (x * y).

Abbreviation node V := (Z * V)%type.
Abbreviation bucket V := (list (Z * V)).

Record umap (V : Type) := mk_umap { size : Z; mask : Z; arr : list (bucket V) }.
Arguments mk_umap {V}.
Arguments size {V}.
Arguments mask {V}.
Arguments arr {V}.

(** ** Buckets: the loops over the links *)

Section buckets.
Context {V : Type}.
Implicit Types (b : bucket V) (key : Z) (v : V).

(** [while (node) { if (node->key == key) return node; node = node->next; }] *)
Fixpoint bucket_find key b : option (node V) :=
  match b with
  | [] => None
  | n :: b => if n.1 =? key then Some n else bucket_find key b
  end.

(** A node at the end, where the loop with [node0 = &( *node0)->next] has stopped. *)
Definition bucket_append b (n : node V) : bucket V := b ++ [n].

(** [*node0 = ( *node0)->next] at the node with the key: the node and the rest. *)
Fixpoint bucket_unlink key b : option (node V * bucket V) :=
  match b with
  | [] => None
  | n :: b =>
      if n.1 =? key then Some (n, b)
      else match bucket_unlink key b with Some (n', b) => Some (n', n :: b) | None => None end
  end.

(** Writing the slot of the node with the key. *)
Definition bucket_write key v b : bucket V :=
  map (fun n => if n.1 =? key then (n.1, v) else n) b.

End buckets.

(** [for (i = i0; n turns; ++i) f(arr[i])], until [f] says stop. *)
Fixpoint loop_buckets {V S} (f : S -> bucket V -> S * bool) (a : list (bucket V)) (n i : nat) (s : S)
    : option (S * bool) :=
  match n with
  | O => Some (s, true)
  | S n =>
      b ← a !! i;
      let '(s, ok) := f s b in
      if ok : bool then loop_buckets f a n (Datatypes.S i) s else Some (s, false)
  end.

Section umap.
Context {V : Type}.
Implicit Types (m : umap V) (key : Z) (v : V) (b : bucket V) (n : node V).

Definition cucon_umap_size m : Z := size m.
Definition cucon_umap_is_empty m : bool := size m =? 0.

Definition cucon_umap_init : umap V :=
  mk_umap 0 (MIN_SIZE - 1) (replicate (Z.to_nat MIN_SIZE) []).
Definition cucon_umap_new : umap V := cucon_umap_init.

(** [arr[HASH(key) & mask]] *)
Definition index (msk key : Z) : nat := Z.to_nat (HASH key &&& msk).
Definition bucket_of m key : option (bucket V) := arr m !! index (mask m) key.
Definition set_bucket m key b : umap V := mk_umap (size m) (mask m) (<[index (mask m) key := b]> (arr m)).
Definition with_size (f : Z -> Z) m : umap V := mk_umap (f (size m)) (mask m) (arr m).

(** The number of turns of a loop over all buckets. *)
Definition cap m : nat := Z.to_nat (mask m + 1).

(** ** Capacity *)

(** [node->next = new_arr[index]; new_arr[index] = node;] *)
Definition push_node (msk : Z) (a : list (bucket V)) n : option (list (bucket V)) :=
  b ← a !! index msk n.1; Some (<[index msk n.1 := n :: b]> a).

Fixpoint push_nodes (msk : Z) (a : list (bucket V)) (ns : bucket V) : option (list (bucket V)) :=
  match ns with [] => Some a | n :: ns => a ← push_node msk a n; push_nodes msk a ns end.

Fixpoint rehash (msk : Z) (a : list (bucket V)) (bs : list (bucket V)) : option (list (bucket V)) :=
  match bs with [] => Some a | b :: bs => a ← push_nodes msk a b; rehash msk a bs end.

Definition set_capacity m (new_cap : Z) : option (umap V) :=
  let old_cap := wadd (mask m) 1 in
  if old_cap =? new_cap then Some m
  else
    let new_mask := wsub new_cap 1 in
    new_arr ← rehash new_mask (replicate (Z.to_nat new_cap) []) (take (Z.to_nat old_cap) (arr m));
    Some (mk_umap (size m) new_mask new_arr).

Definition update_cap_after_erase m : option (umap V) :=
  if wmul (size m) MIN_FILL_DENOM <=? wmul (mask m) MIN_FILL_NUMER then
    let new_cap := cu_ulong_exp2_ceil_log2 (wadd (size m) 1) in
    if MIN_SIZE <? new_cap then set_capacity m new_cap else set_capacity m MIN_SIZE
  else Some m.

Definition update_cap_after_insert m : option (umap V) :=
  if wmul (mask m) MAX_FILL_NUMER <? wmul (size m) MAX_FILL_DENOM then
    set_capacity m (cu_ulong_exp2_ceil_log2 (wadd (size m) 1))
  else Some m.

Definition cucon_umap_update_cap m : option (umap V) :=
  if wmul (mask m) MAX_FILL_NUMER <? wmul (size m) MAX_FILL_DENOM then
    set_capacity m (cu_ulong_exp2_ceil_log2 (wadd (size m) 1))
  else if wmul (size m) MIN_FILL_DENOM <=? wmul (mask m) MIN_FILL_NUMER then
    let new_cap := cu_ulong_exp2_ceil_log2 (wadd (size m) 1) in
    if MIN_SIZE <? new_cap then set_capacity m new_cap else set_capacity m MIN_SIZE
  else Some m.

(** ** Search *)

Definition cucon_umap_find_node m key : option (option (node V)) :=
  b ← bucket_of m key; Some (bucket_find key b).

(** The slot at the pointer that is returned, if there is one. *)
Definition cucon_umap_find_mem m key : option (option V) :=
  n ← cucon_umap_find_node m key; Some (option_map snd n).

Definition cucon_umap_find_void m key : option bool :=
  n ← cucon_umap_find_node m key; Some (bool_decide (is_Some n)).

(** ** Slots behind pointers *)

Definition slot_at m key : option V := n ← cucon_umap_find_node m key; option_map snd n.
Definition set_slot m key v : option (umap V) :=
  b ← bucket_of m key; Some (set_bucket m key (bucket_write key v b)).

(** ** Insertion *)

(** A node at the end of its bucket, unless the key is there. *)
Definition insert_last m key v : option (bool * umap V) :=
  b ← bucket_of m key;
  match bucket_find key b with
  | Some _ => Some (false, m)
  | None =>
      let m := with_size (fun s => wadd s 1) (set_bucket m key (bucket_append b (key, v))) in
      m ← update_cap_after_insert m;
      Some (true, m)
  end.

(** A new slot has the contents [zero] of cleared memory. *)
Definition cucon_umap_insert_mem (zero : V) m key : option (bool * umap V) := insert_last m key zero.
Definition cucon_umap_insert_void (zero : V) m key : option (bool * umap V) :=
  cucon_umap_insert_mem zero m key.

(** The slot is that of the node that the callback allocates. *)
Definition cucon_umap_insert_general (alloc_node : V) m key : option (bool * umap V) :=
  insert_last m key alloc_node.

Definition cucon_umap_insert_init_node m n : option (bool * umap V) := insert_last m n.1 n.2.

(** At the head of its bucket. *)
Definition cucon_umap_insert_new_node (zero : V) m key : option (bool * umap V) :=
  head ← bucket_of m key;
  match bucket_find key head with
  | Some _ => Some (false, m)
  | None =>
      let m := with_size (fun s => wadd s 1) (set_bucket m key ((key, zero) :: head)) in
      m ← update_cap_after_insert m;
      Some (true, m)
  end.

(** ** Removal *)

Definition unlink_node m key : option (option (node V * umap V)) :=
  b ← bucket_of m key;
  Some (match bucket_unlink key b with
        | Some (n, b) => Some (n, with_size (fun s => wsub s 1) (set_bucket m key b))
        | None => None
        end).

Definition cucon_umap_erase_keep_cap m key : option (bool * umap V) :=
  r ← unlink_node m key;
  Some (match r with Some (_, m) => (true, m) | None => (false, m) end).

(** [erase], [erase_ptr] and [erase_int] share this: the removed node. *)
Definition erase_node m key : option (option (node V) * umap V) :=
  r ← unlink_node m key;
  match r with
  | Some (n, m) => m ← update_cap_after_erase m; Some (Some n, m)
  | None => Some (None, m)
  end.

Definition cucon_umap_erase m key : option (bool * umap V) :=
  '(n, m) ← erase_node m key; Some (bool_decide (is_Some n), m).

(** [while ( *head == NULL) { ++head; if (head - arr > mask) head = arr; }], on a fuel of
    one turn for each bucket and one more. *)
Fixpoint pop_loop (fuel : nat) m (head : Z) : option Z :=
  match fuel with
  | O => None
  | S fuel =>
      b ← arr m !! Z.to_nat head;
      match b with
      | [] => pop_loop fuel m (if mask m <? head + 1 then 0 else head + 1)
      | _ => Some head
      end
  end.

(** [r] is what [lrand48] returns. *)
Definition cucon_umap_pop_any_node (r : Z) m : option (node V * umap V) :=
  if cucon_umap_is_empty m then None
  else
    head ← pop_loop (S (cap m)) m (r &&& mask m);
    b ← arr m !! Z.to_nat head;
    match b with
    | [] => None
    | n :: b =>
        let m := with_size (fun s => wsub s 1) (mk_umap (size m) (mask m) (<[Z.to_nat head := b]> (arr m))) in
        m ← update_cap_after_erase m;
        Some (n, m)
    end.

Definition cucon_umap_pop_any_key (r : Z) m : option (Z * umap V) :=
  '(n, m) ← cucon_umap_pop_any_node r m; Some (n.1, m).

(** ** Traversal *)

Section traversal.
Context {S : Type}.
Implicit Types (s : S).

(** The callback on the nodes of a bucket, as long as it answers true; [iter] goes on
    always.  What a callback gets is the contents of a slot: it reads it. *)
Definition cucon_umap_conj_node m (cb : S -> node V -> S * bool) s : option (S * bool) :=
  loop_buckets (fun s b => conj_list cb b s) (arr m) (cap m) 0 s.

Definition cucon_umap_conj_mem m (cb : S -> Z -> V -> S * bool) s : option (S * bool) :=
  loop_buckets (fun s b => conj_list (fun s n => cb s n.1 n.2) b s) (arr m) (cap m) 0 s.

(** The pointer is that of the node, at an offset. *)
Definition cucon_umap_conj_general m (cb : S -> Z -> node V -> S * bool) s : option (S * bool) :=
  loop_buckets (fun s b => conj_list (fun s n => cb s n.1 n) b s) (arr m) (cap m) 0 s.

Definition cucon_umap_conj_keys m (cb : S -> Z -> S * bool) s : option (S * bool) :=
  loop_buckets (fun s b => conj_list (fun s n => cb s n.1) b s) (arr m) (cap m) 0 s.

Definition cucon_umap_iter_mem m (cb : S -> Z -> V -> S) s : option S :=
  '(s, _) ← loop_buckets (fun s b => (fold_left (fun s n => cb s n.1 n.2) b s, true)) (arr m) (cap m) 0 s;
  Some s.

Definition cucon_umap_iter_keys m (cb : S -> Z -> S) s : option S :=
  '(s, _) ← loop_buckets (fun s b => (fold_left (fun s n => cb s n.1) b s, true)) (arr m) (cap m) 0 s;
  Some s.

(** The same loops for maps from pointers, [pmap.h]; [iter_ptr] and [conj_ptr] pass on the
    pointer in the slot. *)

Definition cucon_pmap_iter_mem m (cb : S -> Z -> V -> S) s : option S :=
  '(s, _) ← loop_buckets (fun s b => (fold_left (fun s n => cb s n.1 n.2) b s, true)) (arr m) (cap m) 0 s;
  Some s.

Definition cucon_pmap_iter_ptr m (cb : S -> Z -> V -> S) s : option S :=
  '(s, _) ← loop_buckets (fun s b => (fold_left (fun s n => cb s n.1 n.2) b s, true)) (arr m) (cap m) 0 s;
  Some s.

Definition cucon_pmap_iter_keys m (cb : S -> Z -> S) s : option S :=
  '(s, _) ← loop_buckets (fun s b => (fold_left (fun s n => cb s n.1) b s, true)) (arr m) (cap m) 0 s;
  Some s.

Definition cucon_pmap_conj_general m (cb : S -> Z -> node V -> S * bool) s : option (S * bool) :=
  loop_buckets (fun s b => conj_list (fun s n => cb s n.1 n) b s) (arr m) (cap m) 0 s.

Definition cucon_pmap_conj_mem m (cb : S -> Z -> V -> S * bool) s : option (S * bool) :=
  loop_buckets (fun s b => conj_list (fun s n => cb s n.1 n.2) b s) (arr m) (cap m) 0 s.

Definition cucon_pmap_conj_ptr m (cb : S -> Z -> V -> S * bool) s : option (S * bool) :=
  loop_buckets (fun s b => conj_list (fun s n => cb s n.1 n.2) b s) (arr m) (cap m) 0 s.

Definition cucon_pmap_conj_keys m (cb : S -> Z -> S * bool) s : option (S * bool) :=
  loop_buckets (fun s b => conj_list (fun s n => cb s n.1) b s) (arr m) (cap m) 0 s.

(** [qsort] with [_uintptr_cmp], whose result is an [int]: the sorted array is a
    parameter, what the C library makes of the keys and the comparison. *)
Definition uintptr_cmp (x y : Z) : Z := let d := wsub x y mod 2 ^ 32 in if d <? 2 ^ 31 then d else d - 2 ^ 32.

Definition cucon_umap_iter_increasing_keys (qsort : (Z -> Z -> Z) -> list Z -> list Z)
    m (cb : S -> Z -> S) s : option S :=
  '(keys, _) ← loop_buckets (fun ks b => (ks ++ map fst b, true)) (arr m) (cap m) 0 [];
  Some (fold_left cb (take (Z.to_nat (size m)) (qsort uintptr_cmp keys)) s).

End traversal.

(** ** Copies *)

(** The nodes of a bucket are copied in order: [f] makes the new slot. *)
Definition copy_buckets {W} (f : Z -> V -> W) m : option (umap W) :=
  let N := wadd (mask m) 1 in
  '(a, _) ← loop_buckets (fun a b => (a ++ [map (fun n => (n.1, f n.1 n.2)) b], true))
              (arr m) (Z.to_nat N) 0 [];
  Some (mk_umap (size m) (mask m) a).

Definition cucon_umap_init_copy_void m : option (umap unit) := copy_buckets (fun _ _ => tt) m.
Definition cucon_umap_init_copy_mem m : option (umap V) := copy_buckets (fun _ v => v) m.
Definition cucon_umap_init_copy_mem_ctor (value_cct_copy : V -> Z -> V) m : option (umap V) :=
  copy_buckets (fun k v => value_cct_copy v k) m.
Definition cucon_umap_init_copy_node {W} (node_new_copy : V -> Z -> W) m : option (umap W) :=
  copy_buckets (fun k v => node_new_copy v k) m.

Definition cucon_umap_swap (m0 m1 : umap V) : umap V * umap V := (m1, m0).

(** ** Comparison and hashes *)

(** The loop over a bucket does not go on to the next node: it ends only if the slots
    differ or the key is missing.  On a fuel of turns. *)
Fixpoint eq_mem_loop `{EqDecision V} (fuel : nat) (m1 : umap V) n : option bool :=
  match fuel with
  | O => None
  | S fuel =>
      slot ← cucon_umap_find_mem m1 n.1;
      match slot with
      | None => Some false
      | Some slot => if decide (n.2 = slot) then eq_mem_loop fuel m1 n else Some false
      end
  end.

Fixpoint eq_mem_buckets `{EqDecision V} (fuel : nat) (m1 : umap V) (a : list (bucket V)) : option bool :=
  match a with
  | [] => Some true
  | [] :: a => eq_mem_buckets fuel m1 a
  | (n :: _) :: _ => eq_mem_loop fuel m1 n
  end.

Definition cucon_umap_eq_mem `{EqDecision V} (fuel : nat) m (m1 : umap V) : option bool :=
  if negb (cucon_umap_size m =? cucon_umap_size m1) then Some false
  else eq_mem_buckets fuel m1 (take (cap m) (arr m)).

(** The loop runs up to [size], not [mask]. *)
Definition cucon_umap_hash_keys m : option Z :=
  '(hash, _) ← loop_buckets (fun h b => (fold_left (fun h n => wadd h (HASH n.1)) b h, true))
                 (arr m) (Z.to_nat (size m + 1)) 0 178841123;
  Some (HASH hash).

(** [slot_words] are the words of a slot. *)
Definition cucon_umap_hash_mem (slot_words : V -> list Z) m : option Z :=
  '(hash, _) ← loop_buckets (fun h b =>
                   (fold_left (fun h n =>
                      wadd h (fold_left (fun sub w => HASH (wadd sub w)) (slot_words n.2) (HASH n.1))) b h,
                    true)) (arr m) (Z.to_nat (size m + 1)) 0 178841123;
  Some (HASH hash).

(** ** Operations on two and three maps *)

(** [while ( *node0)] over a bucket [b] of the first map: what stays there, and both maps
    with the other nodes moved to bucket [j] of the second. *)
Fixpoint isecn_union_bucket b (kept : bucket V) m0 m1 : option (bucket V * umap V * umap V) :=
  match b with
  | [] => Some (kept, m0, m1)
  | n :: b =>
      let j := index (mask m0) n.1 in
      b1 ← arr m1 !! j;
      match bucket_find n.1 b1 with
      | Some _ => isecn_union_bucket b (kept ++ [n]) m0 m1
      | None =>
          isecn_union_bucket b kept (with_size (fun s => wsub s 1) m0)
            (mk_umap (wadd (size m1) 1) (mask m1) (<[j := n :: b1]> (arr m1)))
      end
  end.

Fixpoint isecn_union_loop (turns i : nat) m0 m1 : option (umap V * umap V) :=
  match turns with
  | O => Some (m0, m1)
  | S turns =>
      b ← arr m0 !! i;
      '(kept, m0, m1) ← isecn_union_bucket b [] m0 m1;
      isecn_union_loop turns (S i) (mk_umap (size m0) (mask m0) (<[i := kept]> (arr m0))) m1
  end.

Definition cucon_umap_assign_isecn_union m0 (m1 : umap V) : option (umap V * umap V) :=
  let '(m0, m1) :=
    if cucon_umap_size m1 <? cucon_umap_size m0 then cucon_umap_swap m0 m1 else (m0, m1) in
  '(m0, m1) ← isecn_union_loop (cap m0) 0 m0 m1;
  m0 ← update_cap_after_erase m0;
  m1 ← update_cap_after_insert m1;
  Some (m0, m1).

Fixpoint move_isecn_bucket b (kept : bucket V) (dst src0 src1 : umap V)
    : option (bucket V * umap V * umap V * umap V) :=
  match b with
  | [] => Some (kept, dst, src0, src1)
  | n :: b =>
      '(found, src1) ← cucon_umap_erase_keep_cap src1 n.1;
      if found : bool then
        bk ← bucket_of dst n.1;
        move_isecn_bucket b kept (with_size (fun s => wadd s 1) (set_bucket dst n.1 (n :: bk)))
          (with_size (fun s => wsub s 1) src0) src1
      else move_isecn_bucket b (kept ++ [n]) dst src0 src1
  end.

Fixpoint move_isecn_loop (turns i : nat) (dst src0 src1 : umap V)
    : option (umap V * umap V * umap V) :=
  match turns with
  | O => Some (dst, src0, src1)
  | S turns =>
      b ← arr src0 !! i;
      '(kept, dst, src0, src1) ← move_isecn_bucket b [] dst src0 src1;
      move_isecn_loop turns (S i) dst (mk_umap (size src0) (mask src0) (<[i := kept]> (arr src0))) src1
  end.

(** The smaller of the sources is walked through; three maps that are not the same. *)
Definition cucon_umap_move_isecn (dst src0 src1 : umap V) : option (umap V * umap V * umap V) :=
  let swap := cucon_umap_size src1 <? cucon_umap_size src0 in
  let '(a, b) := if swap then (src1, src0) else (src0, src1) in
  '(dst, a, b) ← move_isecn_loop (cap a) 0 dst a b;
  a ← update_cap_after_erase a;
  b ← update_cap_after_erase b;
  dst ← update_cap_after_insert dst;
  Some (if swap then (dst, b, a) else (dst, a, b)).

(** ** Iterators

    [node_head] is the index of a bucket, [node] what is left of it from the node on, or
    the sentinel. *)

Record umap_it := mk_it { node_head : nat; it_node : option (bucket V) }.

(** [while ( *node_head == NULL) ++node_head;] on the array and its sentinel. *)
Fixpoint seek (a : list (bucket V)) (i : nat) : umap_it :=
  match a with
  | [] => mk_it i None
  | [] :: a => seek a (S i)
  | b :: _ => mk_it i (Some b)
  end.

Definition cucon_umap_end m : umap_it := mk_it (cap m) None.
Definition cucon_umap_begin m : umap_it :=
  if size m =? 0 then cucon_umap_end m else seek (take (cap m) (arr m)) 0.

Definition cucon_umap_end_eq (it : umap_it) : bool :=
  match it_node it with None => true | Some _ => false end.

(** An error at the end. *)
Definition cucon_umap_it_next m (it : umap_it) : option umap_it :=
  b ← it_node it;
  match b with
  | [] => None
  | [_] => Some (seek (drop (S (node_head it)) (take (cap m) (arr m))) (S (node_head it)))
  | _ :: b => Some (mk_it (node_head it) (Some b))
  end.

Definition cucon_umap_it_node (it : umap_it) : option (node V) := b ← it_node it; head b.

End umap.

(** ** Two maps with slots of different kinds *)

Section umap2.
Context {V W : Type}.

(** A failed search ends the loop; an access outside of the array is an error. *)
Definition cucon_umap_eq_keys (m : umap V) (m1 : umap W) : option bool :=
  if negb (cucon_umap_size m =? cucon_umap_size m1) then Some false
  else
    '(s, ok) ← loop_buckets (fun s b => conj_list (fun s n =>
                  match cucon_umap_find_mem m1 n.1 with
                  | Some slot => (s, bool_decide (is_Some slot))
                  | None => (None, false)
                  end) b s) (arr m) (cap m) 0 (Some tt);
    _ ← s; Some ok.

(** The nodes whose key is not in [src] are unlinked; the size is not updated. *)
Fixpoint isecn_bucket (src : umap W) (b : bucket V) : option (bucket V) :=
  match b with
  | [] => Some []
  | n :: b =>
      found ← cucon_umap_find_mem src n.1;
      b ← isecn_bucket src b;
      Some (match found with Some _ => n :: b | None => b end)
  end.

Fixpoint isecn_loop (src : umap W) (turns i : nat) (m : umap V) : option (umap V) :=
  match turns with
  | O => Some m
  | S turns =>
      b ← arr m !! i;
      b ← isecn_bucket src b;
      isecn_loop src turns (S i) (mk_umap (size m) (mask m) (<[i := b]> (arr m)))
  end.

Definition cucon_umap_assign_isecn (m : umap V) (src : umap W) : option (umap V) := isecn_loop src (cap m) 0 m.

Definition cucon_umap_assign_union_void (zero : V) (m : umap V) (src : umap W) : option (umap V) :=
  '(r, _) ← loop_buckets (fun r b =>
               (fold_left (fun r n => m ← r; '(_, m) ← cucon_umap_insert_void zero m n.1; Some m) b r, true))
               (arr src) (cap src) 0 (Some m);
  r.

End umap2.

(** ** Maps to pointers and integers *)

Section ptr.
Implicit Types (m : umap Z) (key ptr val : Z).

Definition cucon_umap_insert_ptr m key ptr : option (bool * umap Z) :=
  '(b, m) ← cucon_umap_insert_mem 0 m key;
  if b : bool then m ← set_slot m key ptr; Some (true, m) else Some (false, m).

Definition cucon_umap_insert_int m key val : option (bool * umap Z) :=
  '(b, m) ← cucon_umap_insert_mem 0 m key;
  if b : bool then m ← set_slot m key val; Some (true, m) else Some (false, m).

(** [0] is [NULL]. *)
Definition cucon_umap_erase_ptr m key : option (Z * umap Z) :=
  '(n, m) ← erase_node m key; Some (from_option snd 0 n, m).

Definition cucon_umap_erase_int m key : option (Z * umap Z) :=
  '(n, m) ← erase_node m key; Some (from_option snd INT_MIN n, m).

Definition cucon_umap_replace_ptr m key ptr : option (Z * umap Z) :=
  if ptr =? 0 then cucon_umap_erase_ptr m key
  else
    '(b, m) ← cucon_umap_insert_mem 0 m key;
    if b : bool then m ← set_slot m key ptr; Some (0, m)
    else oldptr ← slot_at m key; m ← set_slot m key ptr; Some (oldptr, m).

Definition cucon_umap_replace_int m key val : option (Z * umap Z) :=
  if val =? INT_MIN then cucon_umap_erase_int m key
  else
    '(b, m) ← cucon_umap_insert_mem 0 m key;
    if b : bool then m ← set_slot m key val; Some (INT_MIN, m)
    else old_val ← slot_at m key; m ← set_slot m key val; Some (old_val, m).

Definition cucon_umap_find_ptr m key : option Z :=
  n ← cucon_umap_find_node m key; Some (from_option snd 0 n).

Definition cucon_umap_find_int m key : option Z :=
  n ← cucon_umap_find_node m key; Some (from_option snd INT_MIN n).

End ptr.
