(* ===== verification/UmapInv.v ===== *)
(** * Hash maps: the invariant

    A map is well formed when its capacity is a power of two, every node is in the
    bucket of its hash, no key occurs twice and the size is the number of nodes;
    between operations there are also at most three nodes for two buckets.  What it
    stands for is the finite map of its nodes. *)

From S2P Require Export Buckets Umap.

(** ** Indices *)

Lemma umap_word_wsub x y : word (wsub x y).
Proof. unfold word, wsub, wrap. by apply Z.mod_pos_bound. Qed.

Lemma HASH_word key : word (HASH key).
Proof. apply umap_word_wsub. Qed.

(** The masks of a capacity. *)
Definition is_mask (msk : Z) : Prop := exists k, 3 <= k <= 60 /\ msk = 2 ^ k - 1.

Lemma is_mask_bounds msk : is_mask msk -> 7 <= msk < 2 ^ 60.
Proof.
  intros (k & Hk & ->). pose proof (Z.pow_le_mono_r 2 3 k ltac:(lia) ltac:(lia)).
  pose proof (Z.pow_le_mono_r 2 k 60 ltac:(lia) ltac:(lia)). lia.
Qed.

Lemma index_lt msk key : is_mask msk -> (index msk key < Z.to_nat (msk + 1))%nat.
Proof.
  intros Hm. pose proof (is_mask_bounds _ Hm). destruct Hm as (k & Hk & ->). unfold index.
  rewrite land_pow by lia. pose proof (Z.mod_pos_bound (HASH key) (2 ^ k) ltac:(lia)). lia.
Qed.

Section inv.
Context {V : Type}.
Implicit Types (m : umap V) (key : Z) (v : V) (b : bucket V) (n : node V) (a : list (bucket V)).

Definition nodes m : list (node V) := concat (arr m).
Definition keys m : list Z := map fst (nodes m).

(** Every node is in the bucket of its hash. *)
Definition placed (msk : Z) a : Prop :=
  forall i b n, a !! i = Some b -> n ∈ b -> word n.1 /\ i = index msk n.1.

Record wf0 m : Prop := {
  wf_mask : is_mask (mask m);
  wf_cap : length (arr m) = cap m;
  wf_placed : placed (mask m) (arr m);
  wf_nodup : NoDup (keys m);
  wf_size : size m = Z.of_nat (length (nodes m));
  wf_small : size m <= 2 ^ 59;
}.

Definition loaded m : Prop := 2 * size m <= 3 * mask m.
Definition wf m : Prop := wf0 m /\ loaded m.

Definition to_map m : gmap Z V := list_to_map (nodes m).

(** ** Buckets *)

Lemma bucket_of_some m key : wf0 m -> exists b, bucket_of m key = Some b.
Proof.
  intros Hm. apply lookup_lt_is_Some. rewrite (wf_cap m Hm). by apply index_lt, wf_mask.
Qed.

Lemma bucket_find_some key b n : bucket_find key b = Some n -> n ∈ b /\ n.1 = key.
Proof.
  induction b as [|n' b IH]; simpl; [done|]. destruct (Z.eqb_spec n'.1 key) as [E|].
  - intros [= ->]. split; [by left|done].
  - intros Hf. destruct (IH Hf). split; [by right|done].
Qed.

Lemma bucket_find_none key b : bucket_find key b = None -> key ∉ map fst b.
Proof.
  induction b as [|n b IH]; simpl; [intros _; apply not_elem_of_nil|].
  destruct (Z.eqb_spec n.1 key) as [|Hn]; [done|]. intros Hf. apply not_elem_of_cons. auto.
Qed.

(** A search sees what the map binds. *)
Lemma find_to_map m key b :
  wf0 m -> word key -> bucket_of m key = Some b -> option_map snd (bucket_find key b) = to_map m !! key.
Proof.
  intros Hm Hk Hb. unfold to_map. destruct (bucket_find key b) as [n|] eqn:Hf.
  - destruct (bucket_find_some _ _ _ Hf) as [Hin <-]. symmetry. apply elem_of_list_to_map_1.
    + exact (wf_nodup m Hm).
    + destruct n. apply elem_nodes. by eexists _, b.
  - symmetry. apply not_elem_of_list_to_map_1. intros (n & -> & Hin)%list_elem_of_fmap.
    apply elem_nodes in Hin as (i & b' & Hi & Hin).
    destruct (wf_placed m Hm _ _ _ Hi Hin) as [_ ->]. unfold bucket_of in Hb. rewrite Hi in Hb.
    injection Hb as ->. apply (bucket_find_none _ _ Hf). apply list_elem_of_In, in_map.
    by apply list_elem_of_In.
Qed.

(** Replacing a bucket. *)
Lemma wf_update m i b :
  wf0 m -> arr m !! i = Some b ->
  exists rest, nodes m ≡ₚ b ++ rest /\
    forall b' sz, (forall n, n ∈ b' -> word n.1 /\ i = index (mask m) n.1) ->
      NoDup (map fst (b' ++ rest)) -> sz = Z.of_nat (length (b' ++ rest)) -> sz <= 2 ^ 59 ->
      wf0 (mk_umap sz (mask m) (<[i := b']> (arr m))) /\
      nodes (mk_umap sz (mask m) (<[i := b']> (arr m))) ≡ₚ b' ++ rest.
Proof.
  intros Hm Hi. destruct (concat_insert _ _ _ Hi) as (rest & Hc & Hc'). exists rest. split; [done|].
  intros b' sz Hp Hn Hs Hsmall. split; [|apply Hc'].
  destruct Hm as [Hk Hl Hpl _ _ _]. constructor; unfold keys, nodes; simpl; [done| | | | |done].
  - by rewrite length_insert.
  - intros j c n Hj Hin. destruct (decide (j = i)) as [->|Hji].
    + rewrite list_lookup_insert_eq in Hj by by eapply lookup_lt_Some. injection Hj as <-. auto.
    + rewrite list_lookup_insert_ne in Hj by done. by apply (Hpl j c).
  - rewrite Hc'. done.
  - by rewrite Hc'.
Qed.

Lemma to_map_perm m m' : NoDup (keys m) -> nodes m' ≡ₚ nodes m -> to_map m' = to_map m.
Proof.
  intros Hn Hp. unfold to_map. apply list_to_map_proper; [|done]. by rewrite Hp.
Qed.

Lemma wf0_init : wf0 (cucon_umap_init (V := V)).
Proof.
  constructor; unfold keys, nodes; simpl.
  - exists 3. done.
  - done.
  - intros i b n. do 8 (destruct i as [|i]; simpl; [intros [= <-] Hn%elem_of_nil; done|]). done.
  - constructor.
  - done.
  - done.
Qed.

Lemma wf_init : wf (@cucon_umap_init V) /\ to_map (@cucon_umap_init V) = ∅.
Proof. split; [split; [apply wf0_init|done]|done]. Qed.

(** ** Capacity *)

Lemma push_node_spec msk a n :
  is_mask msk -> length a = Z.to_nat (msk + 1) -> placed msk a -> word n.1 ->
  exists a', push_node msk a n = Some a' /\ length a' = length a /\ placed msk a' /\
    concat a' ≡ₚ n :: concat a.
Proof.
  intros Hm Hl Hp Hn.
  destruct (lookup_lt_is_Some_2 a (index msk n.1)) as [b Hb]; [rewrite Hl; by apply index_lt|].
  unfold push_node. rewrite Hb. simpl. eexists. split; [done|]. split; [by rewrite length_insert|]. split.
  - intros j c n' Hj Hin. destruct (decide (j = index msk n.1)) as [->|Hne].
    + rewrite list_lookup_insert_eq in Hj by by eapply lookup_lt_Some. injection Hj as <-.
      apply elem_of_cons in Hin as [->|Hin]; [done|]. by apply (Hp _ b).
    + rewrite list_lookup_insert_ne in Hj by done. by apply (Hp j c).
  - destruct (concat_insert _ _ _ Hb) as (rest & Hc & Hc'). by rewrite Hc', Hc.
Qed.

Lemma push_nodes_spec msk a ns :
  is_mask msk -> length a = Z.to_nat (msk + 1) -> placed msk a -> Forall (fun n => word n.1) ns ->
  exists a', push_nodes msk a ns = Some a' /\ length a' = length a /\ placed msk a' /\
    concat a' ≡ₚ ns ++ concat a.
Proof.
  intros Hm Hl Hp Hns. revert a Hl Hp.
  induction Hns as [|n ns Hn _ IH]; intros a Hl Hp; simpl; [by exists a|].
  destruct (push_node_spec msk a n Hm Hl Hp Hn) as (a1 & -> & Hl1 & Hp1 & Hc1).
  simpl. destruct (IH a1) as (a2 & -> & Hl2 & Hp2 & Hc2); [congruence|done|].
  exists a2. split_and!; [done|congruence|done|]. rewrite Hc2, Hc1. by rewrite Permutation_middle.
Qed.

Lemma rehash_spec msk a bs :
  is_mask msk -> length a = Z.to_nat (msk + 1) -> placed msk a ->
  Forall (fun n => word n.1) (concat bs) ->
  exists a', rehash msk a bs = Some a' /\ length a' = length a /\ placed msk a' /\
    concat a' ≡ₚ concat bs ++ concat a.
Proof.
  intros Hm. revert a. induction bs as [|b bs IH]; intros a Hl Hp Hw; simpl; [by exists a|].
  simpl in Hw. apply list.Forall_app in Hw as [Hb Hbs].
  destruct (push_nodes_spec msk a b Hm Hl Hp Hb) as (a1 & -> & Hl1 & Hp1 & Hc1).
  simpl. destruct (IH a1) as (a2 & -> & Hl2 & Hp2 & Hc2); [congruence|done|done|].
  exists a2. split_and!; [done|congruence|done|]. rewrite Hc2, Hc1.
  rewrite !app_assoc. f_equiv. apply Permutation_app_comm.
Qed.

Lemma wf_words m : wf0 m -> Forall (fun n => word n.1) (nodes m).
Proof.
  intros Hm. apply list.Forall_forall. intros n (i & b & Hi & Hn)%elem_nodes.
  by destruct (wf_placed m Hm i b n Hi Hn).
Qed.

Lemma placed_empty msk j : placed msk (replicate j ([] : bucket V)).
Proof. intros i b n [-> _]%lookup_replicate Hn. by apply elem_of_nil in Hn. Qed.

(** A change of the capacity keeps the nodes. *)
Lemma set_capacity_spec m k :
  wf0 m -> 3 <= k <= 60 ->
  exists m', set_capacity m (2 ^ k) = Some m' /\ wf0 m' /\ nodes m' ≡ₚ nodes m /\
    size m' = size m /\ mask m' = 2 ^ k - 1.
Proof.
  intros Hm Hk. pose proof (is_mask_bounds _ (wf_mask m Hm)) as Hb.
  assert (Hk' : is_mask (2 ^ k - 1)) by by exists k. pose proof (is_mask_bounds _ Hk') as Hb'.
  unfold set_capacity, wadd, wsub. rewrite !wrap_small by (unfold word; lia).
  destruct (Z.eqb_spec (mask m + 1) (2 ^ k)) as [E|E].
  { exists m. split_and!; try done. lia. }
  destruct (rehash_spec (2 ^ k - 1) (replicate (Z.to_nat (2 ^ k)) []) (take (Z.to_nat (mask m + 1)) (arr m)))
    as (a & -> & Hl & Hp & Hc); [done| |apply placed_empty| |].
  { rewrite length_replicate. f_equal. lia. }
  { rewrite firstn_all2 by (rewrite (wf_cap m Hm); done). by apply wf_words. }
  rewrite firstn_all2, concat_replicate_nil, app_nil_r in Hc by (rewrite (wf_cap m Hm); done).
  simpl. eexists. split; [done|]. rewrite length_replicate in Hl.
  assert (Hn : nodes (mk_umap (size m) (2 ^ k - 1) a) ≡ₚ nodes m) by done.
  split_and!; try done. constructor; simpl; [done| |done| | |by destruct Hm].
  - rewrite Hl. unfold cap. simpl. f_equal. lia.
  - unfold keys. rewrite Hn. apply Hm.
  - rewrite Hn. apply Hm.
Qed.

Lemma new_cap_pow m :
  0 <= size m <= 2 ^ 59 ->
  exists k, 0 <= k <= 60 /\ cu_ulong_exp2_ceil_log2 (wadd (size m) 1) = 2 ^ k /\ size m + 1 <= 2 ^ k.
Proof.
  intros Hs. unfold wadd. rewrite wrap_small by (unfold word; lia).
  exists (Z.log2_up (size m + 1)). rewrite exp2_ceil_log2_correct by lia.
  rewrite (proj2 (Z.ltb_lt _ _)), (proj2 (Z.leb_le _ _)) by lia. simpl.
  pose proof (Z.log2_up_nonneg (size m + 1)).
  assert (Z.log2_up (size m + 1) <= 60) by (apply Z.log2_up_le_pow2; lia).
  split_and!; try done. destruct (Z.eq_dec (size m) 0) as [->|]; [done|].
  apply Z.log2_up_spec. lia.
Qed.

(** What all updates of the capacity promise. *)
Definition recapped m m' : Prop := wf m' /\ nodes m' ≡ₚ nodes m /\ size m' = size m.

Lemma recapped_refl m : wf m -> recapped m m.
Proof. intros Hm. unfold recapped. by split_and!. Qed.

Lemma size_bounds m : wf0 m -> 0 <= size m <= 2 ^ 59.
Proof. intros Hm. rewrite (wf_size m Hm). pose proof (wf_small m Hm). rewrite (wf_size m Hm) in *. lia. Qed.

Lemma grow_spec m :
  wf0 m -> 7 <= size m ->
  exists m', set_capacity m (cu_ulong_exp2_ceil_log2 (wadd (size m) 1)) = Some m' /\ recapped m m'.
Proof.
  intros Hm Hs. pose proof (size_bounds m Hm). destruct (new_cap_pow m) as (k & Hk & -> & Hc); [lia|].
  assert (3 <= k). { destruct (Z.lt_ge_cases k 3); [|done]. pose proof (Z.pow_le_mono_r 2 k 2). lia. }
  destruct (set_capacity_spec m k Hm ltac:(lia)) as (m' & -> & Hm' & Hn & Hs' & Hk').
  exists m'. split; [done|]. split_and!; [split; [done|]|done|done]. unfold loaded. lia.
Qed.

Lemma shrink_spec m :
  wf0 m ->
  exists m', (let new_cap := cu_ulong_exp2_ceil_log2 (wadd (size m) 1) in
     if MIN_SIZE <? new_cap then set_capacity m new_cap else set_capacity m MIN_SIZE) = Some m' /\
    recapped m m'.
Proof.
  intros Hm. pose proof (size_bounds m Hm). destruct (new_cap_pow m) as (k & Hk & -> & Hc); [lia|].
  cbv zeta. unfold MIN_SIZE. destruct (Z.ltb_spec 8 (2 ^ k)) as [Hlt|Hge].
  - assert (3 <= k). { destruct (Z.lt_ge_cases k 3); [|done]. pose proof (Z.pow_le_mono_r 2 k 2). lia. }
    destruct (set_capacity_spec m k Hm ltac:(lia)) as (m' & -> & Hm' & Hn & Hs' & Hk').
    exists m'. split; [done|]. split_and!; [split; [done|]|done|done]. unfold loaded. lia.
  - destruct (set_capacity_spec m 3 Hm ltac:(lia)) as (m' & E & Hm' & Hn & Hs' & Hk').
    exists m'. split; [done|]. split_and!; [split; [done|]|done|done]. unfold loaded. lia.
Qed.

(** The products do not wrap around. *)
Lemma fill_products m : wf0 m ->
  wmul (size m) 2 = 2 * size m /\ wmul (mask m) 3 = 3 * mask m /\ wmul (mask m) 1 = mask m.
Proof.
  intros Hm. pose proof (size_bounds m Hm). pose proof (is_mask_bounds _ (wf_mask m Hm)).
  unfold wmul. rewrite !wrap_small by (unfold word; lia). lia.
Qed.

Lemma update_cap_after_insert_spec m :
  wf0 m -> exists m', update_cap_after_insert m = Some m' /\ recapped m m'.
Proof.
  intros Hm. unfold update_cap_after_insert, MAX_FILL_NUMER, MAX_FILL_DENOM.
  destruct (fill_products m Hm) as (-> & -> & _). pose proof (is_mask_bounds _ (wf_mask m Hm)).
  destruct (Z.ltb_spec (3 * mask m) (2 * size m)); [by apply grow_spec; try lia|].
  exists m. split; [done|]. by apply recapped_refl.
Qed.

Lemma update_cap_after_erase_spec m :
  wf m -> exists m', update_cap_after_erase m = Some m' /\ recapped m m'.
Proof.
  intros Hm. unfold update_cap_after_erase, MIN_FILL_NUMER, MIN_FILL_DENOM.
  destruct (fill_products m (proj1 Hm)) as (-> & _ & ->).
  destruct (Z.leb_spec (2 * size m) (mask m)); [by apply shrink_spec, Hm|].
  exists m. split; [done|]. by apply recapped_refl.
Qed.

Lemma update_cap_spec m :
  wf0 m -> exists m', cucon_umap_update_cap m = Some m' /\ recapped m m'.
Proof.
  intros Hm. unfold cucon_umap_update_cap, MAX_FILL_NUMER, MAX_FILL_DENOM, MIN_FILL_NUMER, MIN_FILL_DENOM.
  destruct (fill_products m Hm) as (-> & -> & ->). pose proof (is_mask_bounds _ (wf_mask m Hm)).
  destruct (Z.ltb_spec (3 * mask m) (2 * size m)); [by apply grow_spec; try lia|].
  destruct (Z.leb_spec (2 * size m) (mask m)); [by apply shrink_spec|].
  exists m. split; [done|]. by apply recapped_refl.
Qed.

(** ** Maps that stand for a finite map *)

Definition is_umap m (M : gmap Z V) : Prop := wf m /\ to_map m = M.

Lemma recapped_is m m' : wf0 m -> recapped m m' -> is_umap m' (to_map m).
Proof. intros Hm (Hw & Hn & _). split; [done|]. apply to_map_perm; [apply Hm|done]. Qed.

Lemma umap_size_to_map m : wf0 m -> size m = Z.of_nat (base.size (to_map m)).
Proof.
  intros Hm. rewrite (wf_size m Hm). f_equal. unfold to_map.
  symmetry. apply map_size_list_to_map. exact (wf_nodup m Hm).
Qed.

End inv.
