(* ===== verification/UmapOps.v ===== *)
(** * Hash maps: search, insertion and removal

    Each operation does on the array of buckets what the operation on finite maps does,
    for every key and every result of the random number generator, and keeps the map
    well formed. *)

From S2P Require Export UmapInv.

Section ops.
Context {V : Type}.
Implicit Types (m : umap V) (M : gmap Z V) (key : Z) (v : V) (b : bucket V) (n : node V).

(** ** Search *)

Lemma umap_find_spec m M key :
  is_umap m M -> word key ->
  exists b, bucket_of m key = Some b /\ option_map snd (bucket_find key b) = M !! key /\
    forall n, bucket_find key b = Some n -> n.1 = key.
Proof.
  intros [[Hm _] <-] Hk. destruct (bucket_of_some m key Hm) as [b Hb]. exists b.
  split_and!; [done|by apply find_to_map|]. intros n Hn. by apply bucket_find_some in Hn as [_ ?].
Qed.

Lemma find_node_spec m M key :
  is_umap m M -> word key ->
  exists o, cucon_umap_find_node m key = Some o /\ option_map snd o = M !! key /\
    forall n, o = Some n -> n.1 = key.
Proof.
  intros Hm Hk. destruct (umap_find_spec m M key Hm Hk) as (b & Hb & Hf & Hn).
  exists (bucket_find key b). unfold cucon_umap_find_node. by rewrite Hb.
Qed.

Lemma find_mem_spec m M key : is_umap m M -> word key -> cucon_umap_find_mem m key = Some (M !! key).
Proof.
  intros Hm Hk. destruct (find_node_spec m M key Hm Hk) as (o & Ho & <- & _).
  unfold cucon_umap_find_mem. by rewrite Ho.
Qed.

Lemma slot_at_spec m M key : is_umap m M -> word key -> slot_at m key = M !! key.
Proof.
  intros Hm Hk. destruct (find_node_spec m M key Hm Hk) as (o & Ho & <- & _).
  unfold slot_at. by rewrite Ho.
Qed.

(** ** Insertion *)

Lemma nodup_app_keys b b' (rest : list (node V)) :
  b' ≡ₚ b -> NoDup (map fst (b ++ rest)) -> NoDup (map fst (b' ++ rest)).
Proof. intros Hp Hn. by rewrite Hp. Qed.

(** One more node in its bucket, at either end. *)
Lemma wf_add m key v b b' :
  wf0 m -> word key -> to_map m !! key = None -> size m < 2 ^ 59 -> bucket_of m key = Some b ->
  b' ≡ₚ (key, v) :: b ->
  let m' := with_size (fun s => wadd s 1) (set_bucket m key b') in
  wf0 m' /\ to_map m' = <[key := v]> (to_map m) /\ size m' = size m + 1.
Proof.
  intros Hm Hk Hn Hs Hb Hp. pose proof (size_bounds m Hm) as Hsz.
  destruct (wf_update m _ b Hm Hb) as (rest & Hnodes & Hupd).
  assert (Hnk : key ∉ map fst (b ++ rest)).
  { rewrite <- Hnodes. intros Hin. apply not_elem_of_list_to_map_2 in Hn. done. }
  assert (Hd : NoDup (map fst (b' ++ rest))).
  { rewrite Hp. simpl. apply list.NoDup_cons. split; [done|]. rewrite <- Hnodes. apply Hm. }
  assert (Hlen : size m + 1 = Z.of_nat (length (b' ++ rest))).
  { rewrite Hp. simpl. rewrite <- Hnodes, Nat2Z.inj_succ, <- (wf_size m Hm). lia. }
  assert (Hw : wadd (size m) 1 = size m + 1) by (unfold wadd; apply wrap_small; unfold word; lia).
  destruct (Hupd b' (wadd (size m) 1)) as [Hwf Hnodes']; [|done|by rewrite Hw|lia|].
  { intros n. rewrite Hp, elem_of_cons. intros [->|Hin]; [done|]. by apply (wf_placed m Hm _ b). }
  unfold with_size, set_bucket. simpl. split_and!; [done| |done].
  unfold to_map. rewrite <- list_to_map_cons. apply list_to_map_proper.
  - change (NoDup (map fst (nodes (mk_umap (wadd (size m) 1) (mask m) (<[index (mask m) key := b']> (arr m)))))).
    by rewrite Hnodes'.
  - rewrite Hnodes', Hp. simpl. by rewrite Hnodes.
Qed.

(** What the insertions promise. *)
Definition inserts M key v m (res : option (bool * umap V)) : Prop :=
  match M !! key with
  | Some _ => res = Some (false, m)
  | None => exists m', res = Some (true, m') /\ is_umap m' (<[key := v]> M)
  end.

Lemma insert_spec_general m M key v b b' :
  is_umap m M -> word key -> M !! key = None -> size m < 2 ^ 59 -> bucket_of m key = Some b ->
  b' ≡ₚ (key, v) :: b ->
  exists m', (m ← update_cap_after_insert (with_size (fun s => wadd s 1) (set_bucket m key b'));
              Some (true, m)) = Some (true, m') /\ is_umap m' (<[key := v]> M).
Proof.
  intros [Hm <-] Hk Hn Hs Hb Hp. destruct (wf_add m key v b b' (proj1 Hm) Hk Hn Hs Hb Hp) as (Hw & HM & _).
  destruct (update_cap_after_insert_spec _ Hw) as (m' & -> & Hr). exists m'. split; [done|].
  rewrite <- HM. by apply recapped_is.
Qed.

Lemma insert_last_spec m M key v :
  is_umap m M -> word key -> size m < 2 ^ 59 -> inserts M key v m (insert_last m key v).
Proof.
  intros Hm Hk Hs. destruct (umap_find_spec m M key Hm Hk) as (b & Hb & Hf & _).
  unfold inserts, insert_last. rewrite Hb. simpl. rewrite <- Hf.
  destruct (bucket_find key b) as [n|] eqn:E; simpl; [done|].
  apply (insert_spec_general m M key v b); try done.
  unfold bucket_append. by rewrite Permutation_app_comm.
Qed.

Lemma insert_new_node_spec m M key v :
  is_umap m M -> word key -> size m < 2 ^ 59 ->
  inserts M key v m (cucon_umap_insert_new_node v m key).
Proof.
  intros Hm Hk Hs. destruct (umap_find_spec m M key Hm Hk) as (b & Hb & Hf & _).
  unfold inserts, cucon_umap_insert_new_node. rewrite Hb. simpl. rewrite <- Hf.
  destruct (bucket_find key b) as [n|] eqn:E; simpl; [done|].
  by apply (insert_spec_general m M key v b).
Qed.

(** ** Removal *)

Lemma bucket_unlink_spec key b :
  match bucket_find key b with
  | Some n => exists b', bucket_unlink key b = Some (n, b') /\ b ≡ₚ n :: b'
  | None => bucket_unlink key b = None
  end.
Proof.
  induction b as [|n b IH]; simpl; [done|]. destruct (n.1 =? key); [by exists b|].
  destruct (bucket_find key b) as [n'|]; [|by rewrite IH].
  destruct IH as (b' & -> & Hp). exists (n :: b'). split; [done|]. rewrite Hp. apply Permutation_swap.
Qed.

(** One node less. *)
Lemma wf_remove m i b n b' :
  wf m -> arr m !! i = Some b -> b ≡ₚ n :: b' ->
  let m' := with_size (fun s => wsub s 1) (mk_umap (size m) (mask m) (<[i := b']> (arr m))) in
  wf m' /\ to_map m' = delete n.1 (to_map m) /\ to_map m !! n.1 = Some n.2 /\
    size m' = size m - 1 /\ nodes m ≡ₚ n :: nodes m'.
Proof.
  intros [Hm Hl] Hb Hp. pose proof (size_bounds m Hm) as Hsz.
  destruct (wf_update m i b Hm Hb) as (rest & Hnodes & Hupd).
  rewrite Hp in Hnodes. simpl in Hnodes.
  pose proof (wf_nodup m Hm) as Hd. unfold keys in Hd. rewrite Hnodes in Hd. simpl in Hd.
  apply list.NoDup_cons in Hd as [Hn Hd].
  assert (Hlen : size m = Z.of_nat (length (b' ++ rest)) + 1).
  { rewrite (wf_size m Hm), Hnodes. simpl. lia. }
  assert (Hw : wsub (size m) 1 = size m - 1) by (unfold wsub; apply wrap_small; unfold word; lia).
  destruct (Hupd b' (wsub (size m) 1)) as [Hwf Hnodes']; [|done|lia|lia|].
  { intros n' Hin. apply (wf_placed m Hm _ b); [done|]. rewrite Hp. by right. }
  unfold with_size. simpl. split_and!.
  - split; [done|]. unfold loaded in *. simpl. lia.
  - unfold to_map. symmetry. transitivity (delete n.1 (list_to_map (n :: b' ++ rest) : gmap Z V)).
    + f_equal. apply list_to_map_proper; [|done]. apply Hm.
    + destruct n as [key v]. simpl. rewrite delete_insert_id.
      * symmetry. apply list_to_map_proper; [|done]. 
        change (NoDup (map fst (nodes (mk_umap (wsub (size m) 1) (mask m) (<[i := b']> (arr m)))))).
        by rewrite Hnodes'.
      * by apply not_elem_of_list_to_map_1.
  - unfold to_map. apply elem_of_list_to_map_1; [apply Hm|]. destruct n. rewrite Hnodes. by left.
  - done.
  - by rewrite Hnodes, Hnodes'.
Qed.

Lemma unlink_spec m M key :
  is_umap m M -> word key ->
  match M !! key with
  | Some v => exists m', unlink_node m key = Some (Some ((key, v), m')) /\ is_umap m' (delete key M) /\
                size m' = size m - 1
  | None => unlink_node m key = Some None
  end.
Proof.
  intros Hm Hk. destruct (umap_find_spec m M key Hm Hk) as (b & Hb & Hf & Hn). unfold unlink_node.
  rewrite Hb, <- Hf. simpl. pose proof (bucket_unlink_spec key b) as Hu.
  destruct (bucket_find key b) as [[k v]|]; simpl; [|by rewrite Hu].
  destruct Hu as (b' & -> & Hp). specialize (Hn _ eq_refl). simpl in Hn. subst k.
  destruct Hm as [Hm <-]. destruct (wf_remove m _ b (key, v) b' Hm Hb Hp) as (Hw & HM & _ & Hs & _).
  eexists. split; [done|]. split; [by split|done].
Qed.

Lemma erase_keep_cap_spec m M key :
  is_umap m M -> word key ->
  exists m', cucon_umap_erase_keep_cap m key = Some (bool_decide (is_Some (M !! key)), m') /\
    is_umap m' (delete key M) /\ (is_Some (M !! key) -> size m' = size m - 1) /\ (M !! key = None -> m' = m).
Proof.
  intros Hm Hk. pose proof (unlink_spec m M key Hm Hk) as Hu. unfold cucon_umap_erase_keep_cap.
  destruct (M !! key) as [v|] eqn:E.
  - destruct Hu as (m' & -> & Hm' & Hs). by exists m'.
  - rewrite Hu. exists m. rewrite delete_id by done. by split_and!.
Qed.

Lemma erase_node_spec m M key :
  is_umap m M -> word key ->
  exists m', erase_node m key = Some (option_map (pair key) (M !! key), m') /\ is_umap m' (delete key M).
Proof.
  intros Hm Hk. pose proof (unlink_spec m M key Hm Hk) as Hu. unfold erase_node.
  destruct (M !! key) as [v|] eqn:E.
  - destruct Hu as (m1 & -> & [Hm1 <-] & _). simpl.
    destruct (update_cap_after_erase_spec m1 Hm1) as (m' & -> & Hr). exists m'. split; [done|].
    by apply recapped_is; [apply Hm1|].
  - rewrite Hu. exists m. rewrite delete_id by done. done.
Qed.

(** ** Writing a slot *)

Lemma bucket_write_spec key v w b b' :
  b ≡ₚ (key, w) :: b' -> NoDup (map fst b) -> bucket_write key v b ≡ₚ (key, v) :: b'.
Proof.
  intros Hp Hd. unfold bucket_write. rewrite Hp in Hd |- *. simpl in Hd |- *. rewrite Z.eqb_refl.
  apply list.NoDup_cons in Hd as [Hn _]. apply perm_skip. clear Hp.
  induction b' as [|n b' IH]; simpl; [done|]. simpl in Hn. apply not_elem_of_cons in Hn as [Hne Hn].
  rewrite (proj2 (Z.eqb_neq _ _)) by congruence. by rewrite IH.
Qed.

Lemma set_slot_spec m M key v w :
  is_umap m M -> word key -> M !! key = Some w ->
  exists m', set_slot m key v = Some m' /\ is_umap m' (<[key := v]> M) /\ size m' = size m.
Proof.
  intros Hu Hk HM. destruct (umap_find_spec m M key Hu Hk) as (b & Hb & Hf & Hn). unfold set_slot.
  rewrite Hb. simpl. eexists. split; [done|]. split; [|done].
  rewrite HM in Hf. pose proof (bucket_unlink_spec key b) as Hul.
  destruct (bucket_find key b) as [[k w']|]; [|done]. injection Hf as ->.
  specialize (Hn _ eq_refl). simpl in Hn. subst k. destruct Hul as (b' & _ & Hp).
  destruct Hu as [[Hm Hl] <-]. destruct (wf_update m _ b Hm Hb) as (rest & Hnodes & Hupd).
  pose proof (wf_nodup m Hm) as Hd. unfold keys in Hd. rewrite Hnodes in Hd.
  assert (Hdb : NoDup (map fst b)).
  { rewrite map_app in Hd. by apply list.NoDup_app in Hd as [? _]. }
  pose proof (bucket_write_spec key v w b b' Hp Hdb) as Hw. rewrite Hp in Hnodes, Hd. simpl in Hnodes, Hd.
  destruct (Hupd (bucket_write key v b) (size m)) as [Hwf Hnodes'].
  - intros n. rewrite Hw, elem_of_cons. intros [->|Hin]; [done|].
    apply (wf_placed m Hm _ b); [done|]. rewrite Hp. by right.
  - by rewrite Hw.
  - rewrite (wf_size m Hm), Hnodes, Hw. done.
  - by destruct Hm.
  - assert (Hnodes2 : nodes (mk_umap (size m) (mask m) (<[index (mask m) key := bucket_write key v b]> (arr m)))
              ≡ₚ (key, v) :: b' ++ rest).
    { etransitivity; [exact Hnodes'|]. by rewrite Hw. }
    split; [by split|]. unfold to_map.
    transitivity (list_to_map ((key, v) :: b' ++ rest) : gmap Z V).
    + apply list_to_map_proper; [|exact Hnodes2]. by apply wf_nodup.
    + simpl. rewrite <- (insert_insert_eq (list_to_map (b' ++ rest)) key v w). f_equal.
      change (list_to_map ((key, w) :: b' ++ rest) = (list_to_map (nodes m) : gmap Z V)).
      symmetry. apply list_to_map_proper; [apply Hm|done].
Qed.

(** ** Removal of any node *)

Lemma pop_loop_found fuel m head i b :
  arr m !! i = Some b -> b <> [] -> 0 <= mask m -> length (arr m) = cap m ->
  0 <= head <= Z.of_nat i -> (i - Z.to_nat head < fuel)%nat ->
  exists j b', pop_loop fuel m head = Some j /\ arr m !! Z.to_nat j = Some b' /\ b' <> [].
Proof.
  intros Hi Hb Hk Hl. revert head. induction fuel as [|fuel IH]; intros head Hh Hf; [lia|].
  pose proof (lookup_lt_Some _ _ _ Hi) as Hlt. rewrite Hl in Hlt. unfold cap in Hlt.
  destruct (lookup_lt_is_Some_2 (arr m) (Z.to_nat head)) as [b0 Hb0]; [rewrite Hl; unfold cap; lia|].
  simpl. rewrite Hb0. simpl. destruct b0 as [|n b0]; [|by exists head, (n :: b0)].
  destruct (Z.eq_dec head (Z.of_nat i)) as [->|Hne].
  { rewrite Nat2Z.id, Hi in Hb0. congruence. }
  rewrite (proj2 (Z.ltb_ge _ _)) by lia. apply IH; lia.
Qed.

(** From any start: the search wraps around once. *)
Lemma pop_loop_wrap fuel m head i b :
  arr m !! i = Some b -> b <> [] -> 0 <= mask m -> length (arr m) = cap m ->
  0 <= head <= mask m -> (i + 1 + (Z.to_nat (mask m) - Z.to_nat head) < fuel)%nat ->
  exists j b', pop_loop fuel m head = Some j /\ arr m !! Z.to_nat j = Some b' /\ b' <> [].
Proof.
  intros Hi Hb Hk Hl. revert head. induction fuel as [|fuel IH]; intros head Hh Hf; [lia|].
  destruct (lookup_lt_is_Some_2 (arr m) (Z.to_nat head)) as [b0 Hb0]; [rewrite Hl; unfold cap; lia|].
  simpl. rewrite Hb0. simpl. destruct b0 as [|n b0]; [|by exists head, (n :: b0)].
  destruct (Z.ltb_spec (mask m) (head + 1)).
  - apply (pop_loop_found fuel m 0 i b); try done; lia.
  - apply IH; lia.
Qed.

Lemma land_mask r k : 0 <= k -> 0 <= r &&& (2 ^ k - 1) <= 2 ^ k - 1.
Proof. intros Hk. rewrite land_pow by done. pose proof (Z.mod_pos_bound r (2 ^ k) ltac:(lia)). lia. Qed.

Lemma nodes_nonempty m : wf0 m -> size m <> 0 -> exists i b, arr m !! i = Some b /\ b <> [].
Proof.
  intros Hm Hs. rewrite (wf_size m Hm) in Hs. destruct (nodes m) as [|n ns] eqn:E; [done|].
  assert (Hin : n ∈ nodes m) by (rewrite E; by left).
  apply elem_nodes in Hin as (i & b & Hi & Hn). exists i, b. split; [done|]. by intros ->; apply elem_of_nil in Hn.
Qed.

(** The removed node is one of the map, whatever the random number. *)
Lemma pop_any_node_spec m M r :
  is_umap m M -> M <> ∅ ->
  exists key v m', cucon_umap_pop_any_node r m = Some ((key, v), m') /\ M !! key = Some v /\
    is_umap m' (delete key M).
Proof.
  intros [[Hm Hl] <-] Hne. pose proof (size_bounds m Hm).
  assert (Hs : size m <> 0).
  { rewrite (umap_size_to_map m Hm). intros E. apply Hne, map_size_empty_inv. lia. }
  destruct (nodes_nonempty m Hm Hs) as (i & b & Hi & Hb). pose proof (lookup_lt_Some _ _ _ Hi) as Hlt.
  rewrite (wf_cap m Hm) in Hlt. unfold cap in Hlt.
  pose proof (is_mask_bounds _ (wf_mask m Hm)) as Hk.
  assert (Hh : 0 <= r &&& mask m <= mask m).
  { destruct (wf_mask m Hm) as (k & Hk' & ->). apply land_mask. lia. }
  assert (Hpop : exists j b', pop_loop (S (cap m)) m (r &&& mask m) = Some j /\
            arr m !! Z.to_nat j = Some b' /\ b' <> []).
  { destruct (Z.le_gt_cases (r &&& mask m) (Z.of_nat i)).
    - apply (pop_loop_found _ m _ i b); try done; [lia|apply Hm|lia|unfold cap; lia].
    - apply (pop_loop_wrap _ m _ i b); try done; [lia|apply Hm|unfold cap; lia]. }
  destruct Hpop as (j & b' & Hj & Hb' & Hne'). unfold cucon_umap_pop_any_node, cucon_umap_is_empty.
  rewrite (proj2 (Z.eqb_neq _ 0) Hs), Hj. simpl. rewrite Hb'. simpl. destruct b' as [|[key v] b']; [done|].
  destruct (wf_remove m _ _ (key, v) b' (conj Hm Hl) Hb' (Permutation_refl _)) as (Hw & HM & Hv & _ & _).
  destruct (update_cap_after_erase_spec _ Hw) as (m' & -> & Hr). exists key, v, m'. split; [done|].
  split; [done|]. change key with (key, v).1. rewrite <- HM. apply recapped_is; [apply Hw|done].
Qed.

End ops.

(** ** Sequences of operations on a map to pointers *)

Inductive op := Insert (key ptr : Z) | Insert_new (key : Z) | Replace (key ptr : Z) | Erase (key : Z)
  | Erase_ptr (key : Z) | Erase_keep_cap (key : Z) | Update_cap | Find (key : Z) | Size.

Inductive ret := Bool (b : bool) | Word (w : Z) | Unit.

(** Keys are words. *)
Definition op_ok (o : op) : Prop :=
  match o with
  | Insert key _ | Insert_new key | Replace key _ | Erase key | Erase_ptr key | Erase_keep_cap key
  | Find key => word key
  | Update_cap | Size => True
  end.

Definition run_op (m : umap Z) (o : op) : option (ret * umap Z) :=
  match o with
  | Insert key ptr => '(b, m) ← cucon_umap_insert_ptr m key ptr; Some (Bool b, m)
  | Insert_new key => '(b, m) ← cucon_umap_insert_new_node 0 m key; Some (Bool b, m)
  | Replace key ptr => '(w, m) ← cucon_umap_replace_ptr m key ptr; Some (Word w, m)
  | Erase key => '(b, m) ← cucon_umap_erase m key; Some (Bool b, m)
  | Erase_ptr key => '(w, m) ← cucon_umap_erase_ptr m key; Some (Word w, m)
  | Erase_keep_cap key => '(b, m) ← cucon_umap_erase_keep_cap m key; Some (Bool b, m)
  | Update_cap => m ← cucon_umap_update_cap m; Some (Unit, m)
  | Find key => w ← cucon_umap_find_ptr m key; Some (Word w, m)
  | Size => Some (Word (cucon_umap_size m), m)
  end.

Fixpoint run (m : umap Z) (os : list op) : option (list ret * umap Z) :=
  match os with
  | [] => Some ([], m)
  | o :: os => '(r, m) ← run_op m o; '(rs, m) ← run m os; Some (r :: rs, m)
  end.

(** The same on a finite map. *)
Definition ref_op (M : gmap Z Z) (o : op) : ret * gmap Z Z :=
  match o with
  | Insert key ptr =>
      match M !! key with Some _ => (Bool false, M) | None => (Bool true, <[key := ptr]> M) end
  | Insert_new key =>
      match M !! key with Some _ => (Bool false, M) | None => (Bool true, <[key := 0]> M) end
  | Replace key ptr =>
      (Word (default 0 (M !! key)), if ptr =? 0 then delete key M else <[key := ptr]> M)
  | Erase key | Erase_keep_cap key => (Bool (bool_decide (is_Some (M !! key))), delete key M)
  | Erase_ptr key => (Word (default 0 (M !! key)), delete key M)
  | Update_cap => (Unit, M)
  | Find key => (Word (default 0 (M !! key)), M)
  | Size => (Word (Z.of_nat (base.size M)), M)
  end.

Fixpoint ref_run (M : gmap Z Z) (os : list op) : list ret * gmap Z Z :=
  match os with
  | [] => ([], M)
  | o :: os => let '(r, M) := ref_op M o in let '(rs, M) := ref_run M os in (r :: rs, M)
  end.

Section runs.
Implicit Types (m : umap Z) (M : gmap Z Z) (key ptr : Z).

(** A new slot that is filled in. *)
Lemma insert_fill m M key v :
  is_umap m M -> word key -> M !! key = None -> size m < 2 ^ 59 ->
  exists m1 m2, cucon_umap_insert_mem 0 m key = Some (true, m1) /\ set_slot m1 key v = Some m2 /\
    is_umap m2 (<[key := v]> M).
Proof.
  intros Hm Hk HM Hs. pose proof (insert_last_spec m M key 0 Hm Hk Hs) as Hi. unfold inserts in Hi.
  rewrite HM in Hi. destruct Hi as (m1 & Hi & Hm1).
  destruct (set_slot_spec m1 _ key v 0 Hm1 Hk (lookup_insert_eq _ _ _)) as (m2 & Hs2 & Hm2 & _).
  exists m1, m2. rewrite insert_insert_eq in Hm2. done.
Qed.

Lemma insert_old m M key v :
  is_umap m M -> word key -> M !! key = Some v -> size m < 2 ^ 59 ->
  cucon_umap_insert_mem 0 m key = Some (false, m).
Proof.
  intros Hm Hk HM Hs. pose proof (insert_last_spec m M key 0 Hm Hk Hs) as Hi. unfold inserts in Hi.
  by rewrite HM in Hi.
Qed.

Lemma insert_ptr_spec m M key ptr :
  is_umap m M -> word key -> size m < 2 ^ 59 ->
  exists m', run_op m (Insert key ptr) = Some ((ref_op M (Insert key ptr)).1, m') /\
    is_umap m' (ref_op M (Insert key ptr)).2.
Proof.
  intros Hm Hk Hs. cbn [run_op ref_op]. unfold cucon_umap_insert_ptr.
  destruct (M !! key) as [v|] eqn:HM.
  - rewrite (insert_old m M key v) by done. by exists m.
  - destruct (insert_fill m M key ptr) as (m1 & m2 & -> & Hs2 & Hm2); try done.
    simpl. rewrite Hs2. by exists m2.
Qed.

Lemma erase_ptr_spec m M key :
  is_umap m M -> word key ->
  exists m', cucon_umap_erase_ptr m key = Some (default 0 (M !! key), m') /\ is_umap m' (delete key M).
Proof.
  intros Hm Hk. destruct (erase_node_spec m M key Hm Hk) as (m' & E & Hm'). exists m'. split; [|done].
  unfold cucon_umap_erase_ptr. rewrite E. by destruct (M !! key).
Qed.

Lemma replace_ptr_spec m M key ptr :
  is_umap m M -> word key -> size m < 2 ^ 59 ->
  exists m', run_op m (Replace key ptr) = Some ((ref_op M (Replace key ptr)).1, m') /\
    is_umap m' (ref_op M (Replace key ptr)).2.
Proof.
  intros Hm Hk Hs. cbn [run_op ref_op]. unfold cucon_umap_replace_ptr. destruct (Z.eqb_spec ptr 0).
  { destruct (erase_ptr_spec m M key Hm Hk) as (m' & -> & Hm'). by exists m'. }
  destruct (M !! key) as [v|] eqn:HM.
  - rewrite (insert_old m M key v) by done. simpl. rewrite (slot_at_spec m M) by done. rewrite HM. simpl.
    destruct (set_slot_spec m M key ptr v Hm Hk HM) as (m' & -> & Hm' & _). by exists m'.
  - destruct (insert_fill m M key ptr) as (m1 & m2 & -> & Hs2 & Hm2); try done.
    simpl. rewrite Hs2. by exists m2.
Qed.

Lemma run_op_spec m M o :
  is_umap m M -> op_ok o -> size m < 2 ^ 59 ->
  exists m', run_op m o = Some ((ref_op M o).1, m') /\ is_umap m' (ref_op M o).2.
Proof.
  intros Hm Hk Hs. destruct o as [key ptr|key|key ptr|key|key|key| |key|].
  - by apply insert_ptr_spec.
  - pose proof (insert_new_node_spec m M key 0 Hm Hk Hs) as Hi. unfold inserts in Hi. cbn [run_op ref_op].
    destruct (M !! key); [rewrite Hi; by exists m|]. destruct Hi as (m' & -> & Hm'). by exists m'.
  - by apply replace_ptr_spec.
  - destruct (erase_node_spec m M key Hm Hk) as (m' & E & Hm'). exists m'. split; [|done].
    cbn [run_op ref_op]. unfold cucon_umap_erase. rewrite E. by destruct (M !! key).
  - destruct (erase_ptr_spec m M key Hm Hk) as (m' & E & Hm'). exists m'. split; [|done].
    cbn [run_op ref_op]. by rewrite E.
  - destruct (erase_keep_cap_spec m M key Hm Hk) as (m' & E & Hm' & _). exists m'. split; [|done].
    cbn [run_op ref_op]. by rewrite E.
  - destruct Hm as [[Hm Hl] <-]. destruct (update_cap_spec m Hm) as (m' & E & Hr). exists m'.
    cbn [run_op ref_op]. rewrite E. split; [done|]. by apply recapped_is.
  - destruct (find_node_spec m M key Hm Hk) as (n & E & Hn & _). exists m. split; [|done].
    cbn [run_op ref_op]. unfold cucon_umap_find_ptr. rewrite E, <- Hn. by destruct n.
  - exists m. split; [|done]. cbn [run_op ref_op fst]. unfold cucon_umap_size.
    destruct Hm as [[Hm Hl] <-]. by rewrite <- umap_size_to_map.
Qed.

Lemma size_ref_op M o : (base.size (ref_op M o).2 <= S (base.size M))%nat.
Proof.
  assert (Hins : forall key v, (base.size (<[key := v]> M) <= S (base.size M))%nat).
  { intros key v. destruct (M !! key) as [w|] eqn:E.
    - rewrite map_size_insert_Some; [lia|by exists w].
    - by rewrite map_size_insert_None. }
  assert (Hdel : forall key, (base.size (delete key M) <= S (base.size M))%nat).
  { intros key. rewrite map_size_delete. destruct (M !! key); simpl; lia. }
  destruct o as [key ptr|key|key ptr|key|key|key| |key|]; cbn [ref_op]; try (simpl; auto; lia).
  - destruct (M !! key); simpl; auto; lia.
  - destruct (M !! key); simpl; auto; lia.
  - simpl. destruct (ptr =? 0); auto.
Qed.

Lemma umap_run_spec m M os :
  is_umap m M -> Forall op_ok os -> size m + Z.of_nat (length os) <= 2 ^ 59 ->
  exists m', run m os = Some ((ref_run M os).1, m') /\ is_umap m' (ref_run M os).2.
Proof.
  intros Hm Hos. revert m M Hm. induction Hos as [|o os Ho Hos IH]; intros m M Hm Hs; [by exists m|].
  cbn [length] in Hs. destruct (run_op_spec m M o Hm Ho ltac:(lia)) as (m1 & E1 & Hm1).
  cbn [run ref_run]. rewrite E1. simpl. pose proof (size_ref_op M o) as Hsz.
  destruct (ref_op M o) as [r M1]. simpl in Hm1, Hsz.
  destruct (IH m1 M1 Hm1) as (m2 & E2 & Hm2).
  { destruct Hm as [[Hm _] <-], Hm1 as [[Hm1 _] <-].
    rewrite (umap_size_to_map m Hm) in Hs. rewrite (umap_size_to_map m1 Hm1). lia. }
  rewrite E2. exists m2. simpl. by destruct (ref_run M1 os).
Qed.

End runs.

(** C17: a hash map refines a finite map: any sequence of insertions, replacements,
    removals, searches and changes of the capacity on a new map stays inside of its
    array and returns what the operations on a finite map return; afterwards the map
    is well formed, at most one and a half times full, and holds the final contents.  Replacing
    by NULL (0) removes the key, as the code does it, where the documentation of
    cucon_umap_replace_ptr says that the value is replaced; the finite map of the statement ([ref_op])
    follows the code. *)
Theorem umap_refines_finite_map (os : list op) :
  Forall op_ok os -> Z.of_nat (length os) <= 2 ^ 59 ->
  exists m, run cucon_umap_init os = Some ((ref_run ∅ os).1, m) /\ wf m /\ to_map m = (ref_run ∅ os).2.
Proof.
  intros Hos Hs. destruct (umap_run_spec (@cucon_umap_init Z) ∅ os wf_init Hos Hs) as (m & E & Hm & HM).
  by exists m.
Qed.

Lemma umap_refines_finite_map_witness :
  exists m, run cucon_umap_init [Insert 3 30; Insert 11 40; Replace 3 31; Erase 11; Find 3; Size] =
    Some ([Bool true; Bool true; Word 30; Bool true; Word 31; Word 1], m) /\
    wf m /\ to_map m = {[3 := 31]}.
Proof.
  apply (umap_refines_finite_map [Insert 3 30; Insert 11 40; Replace 3 31; Erase 11; Find 3; Size]); [|done].
  by repeat constructor.
Defined.

(** Removals with the random numbers of a list. *)
Fixpoint pop_all {V} (rs : list Z) (m : umap V) : option (list (node V) * umap V) :=
  match rs with
  | [] => Some ([], m)
  | r :: rs => '(n, m) ← cucon_umap_pop_any_node r m; '(ns, m) ← pop_all rs m; Some (n :: ns, m)
  end.

(** C18: progress of [pop_any]: on a nonempty map the search for a nonempty bucket ends,
    for every random number; as many removals as the map has elements all succeed,
    return every pair of the map exactly once, and leave a map that is empty. *)
Theorem umap_pop_any_correct {V} (m : umap V) M rs :
  is_umap m M -> length rs = base.size M ->
  exists ns m', pop_all rs m = Some (ns, m') /\ ns ≡ₚ map_to_list M /\ is_umap m' ∅ /\
    cucon_umap_is_empty m' = true.
Proof.
  revert m M. induction rs as [|r rs IH]; intros m M Hm Hl; simpl in *.
  - symmetry in Hl. apply map_size_empty_inv in Hl as ->. exists [], m. split_and!; [done| |done|].
    + by rewrite map_to_list_empty.
    + destruct Hm as [[Hm _] HM]. unfold cucon_umap_is_empty. by rewrite (umap_size_to_map m Hm), HM.
  - assert (HM : M <> ∅) by (intros ->; by rewrite map_size_empty in Hl).
    destruct (pop_any_node_spec m M r Hm HM) as (key & v & m1 & -> & Hv & Hm1). simpl.
    destruct (IH m1 _ Hm1) as (ns & m2 & -> & Hp & Hm2).
    { rewrite map_size_delete, Hv. simpl. lia. }
    exists ((key, v) :: ns), m2. split; [done|]. split; [|done].
    rewrite Hp. by apply map_to_list_delete.
Qed.

Definition small_umap : umap Z := mk_umap 1 7 [[]; []; []; [(3, 30)]; []; []; []; []].
Definition small_contents : gmap Z Z := {[3%Z := 30%Z]}.

Lemma small_umap_is : is_umap small_umap small_contents.
Proof.
  split; [split; [|done]|done]. constructor; unfold keys, nodes; simpl.
  - by exists 3.
  - done.
  - intros i b n. do 8 (destruct i as [|i]; simpl;
      [intros [= <-]; rewrite ?list_elem_of_singleton; (intros ->; done) || (by intros ?%elem_of_nil)|]). done.
  - repeat constructor. apply not_elem_of_nil.
  - done.
  - done.
Qed.

Lemma umap_pop_any_correct_witness :
  exists ns m', pop_all [12345] small_umap = Some (ns, m') /\ ns ≡ₚ map_to_list small_contents /\ is_umap m' ∅ /\
    cucon_umap_is_empty m' = true.
Proof. by apply (umap_pop_any_correct small_umap small_contents [12345] small_umap_is). Defined.
