(* ===== verification/UmapTrav.v ===== *)
(** * Hash maps: traversal, copies, comparison, iterators

    Every traversal visits the nodes bucket by bucket, [nodes m], which are the pairs of
    the map, each once; copies and comparisons are stated on the finite maps. *)

From S2P Require Export UmapOps.

(** ** The loop over the buckets *)

Lemma loop_buckets_step {V S} (f : S -> bucket V -> S * bool) a n i s b :
  a !! i = Some b ->
  loop_buckets f a (Datatypes.S n) i s =
  let '(s, ok) := f s b in if ok : bool then loop_buckets f a n (Datatypes.S i) s else Some (s, false).
Proof. intros Hb. simpl. by rewrite Hb. Qed.

(** A loop whose body goes through a bucket goes through all the nodes behind [i]. *)
Lemma loop_buckets_conj {V S} (cb : S -> node V -> S * bool) a n i s :
  length a = (i + n)%nat ->
  loop_buckets (fun s b => conj_list cb b s) a n i s = Some (conj_list cb (concat (drop i a)) s).
Proof.
  revert i s. induction n as [|n IH]; intros i s Hl.
  - rewrite drop_ge by lia. done.
  - destruct (lookup_lt_is_Some_2 a i) as [b Hb]; [lia|].
    rewrite (loop_buckets_step _ _ _ _ _ b Hb), (drop_S _ b) by done. simpl. rewrite conj_list_app.
    destruct (conj_list cb b s) as [s' [|]]; [apply IH; lia|done].
Qed.

Lemma loop_buckets_fold {V S} (f : S -> bucket V -> S) a n i s :
  length a = (i + n)%nat ->
  loop_buckets (fun s b => (f s b, true)) a n i s = Some (fold_left f (drop i a) s, true).
Proof.
  revert i s. induction n as [|n IH]; intros i s Hl.
  - rewrite drop_ge by lia. done.
  - destruct (lookup_lt_is_Some_2 a i) as [b Hb]; [lia|].
    rewrite (loop_buckets_step _ _ _ _ _ b Hb), (drop_S _ b) by done. apply IH. lia.
Qed.

Lemma fold_left_concat {A S} (f : S -> A -> S) (ls : list (list A)) s :
  fold_left (fun s b => fold_left f b s) ls s = fold_left f (concat ls) s.
Proof.
  revert s. induction ls as [|l ls IH]; intros s; simpl; [done|]. by rewrite IH, fold_left_app.
Qed.

Lemma fold_left_snoc {A B} (f : A -> B) (ls : list A) (acc : list B) :
  fold_left (fun acc x => acc ++ [f x]) ls acc = acc ++ map f ls.
Proof.
  revert acc. induction ls as [|l ls IH]; intros acc; simpl; [by rewrite app_nil_r|].
  by rewrite IH, <- app_assoc.
Qed.

Lemma fold_left_app_concat {A B} (f : A -> list B) (ls : list A) (acc : list B) :
  fold_left (fun acc x => acc ++ f x) ls acc = acc ++ concat (map f ls).
Proof.
  revert acc. induction ls as [|l ls IH]; intros acc; simpl; [by rewrite app_nil_r|].
  by rewrite IH, <- app_assoc.
Qed.

Section trav.
Context {V : Type}.
Implicit Types (m : umap V) (M : gmap Z V) (key : Z) (v : V) (b : bucket V) (n : node V).

(** The nodes are the pairs of the map. *)
Lemma nodes_to_list m M : is_umap m M -> nodes m ≡ₚ map_to_list M.
Proof.
  intros [[Hm _] <-]. symmetry. apply map_to_list_to_map. exact (wf_nodup m Hm).
Qed.

Lemma elem_nodes_map m M k v : is_umap m M -> (k, v) ∈ nodes m <-> M !! k = Some v.
Proof. intros Hm. rewrite (nodes_to_list m M Hm). apply elem_of_map_to_list. Qed.

Lemma conj_node_eq {S} m (cb : S -> node V -> S * bool) s :
  wf0 m -> cucon_umap_conj_node m cb s = Some (conj_list cb (nodes m) s).
Proof. intros Hm. unfold cucon_umap_conj_node. by rewrite loop_buckets_conj by apply (wf_cap m Hm). Qed.

Lemma conj_mem_eq {S} m (cb : S -> Z -> V -> S * bool) s :
  wf0 m -> cucon_umap_conj_mem m cb s = Some (conj_list (fun s n => cb s n.1 n.2) (nodes m) s).
Proof. intros Hm. unfold cucon_umap_conj_mem. by rewrite loop_buckets_conj by apply (wf_cap m Hm). Qed.

Lemma conj_general_eq {S} m (cb : S -> Z -> node V -> S * bool) s :
  wf0 m -> cucon_umap_conj_general m cb s = Some (conj_list (fun s n => cb s n.1 n) (nodes m) s).
Proof. intros Hm. unfold cucon_umap_conj_general. by rewrite loop_buckets_conj by apply (wf_cap m Hm). Qed.

Lemma conj_list_map {A B S} (cb : S -> B -> S * bool) (f : A -> B) xs s :
  conj_list (fun s x => cb s (f x)) xs s = conj_list cb (map f xs) s.
Proof. revert s. induction xs as [|x xs IH]; intros s; simpl; [done|]. destruct (cb s (f x)) as [s' []]; auto. Qed.

Lemma conj_keys_eq {S} m (cb : S -> Z -> S * bool) s :
  wf0 m -> cucon_umap_conj_keys m cb s = Some (conj_list cb (keys m) s).
Proof.
  intros Hm. unfold cucon_umap_conj_keys. rewrite loop_buckets_conj by apply (wf_cap m Hm). f_equal.
  unfold keys. by rewrite <- conj_list_map.
Qed.

Lemma iter_mem_eq {S} m (cb : S -> Z -> V -> S) s :
  wf0 m -> cucon_umap_iter_mem m cb s = Some (fold_left (fun s n => cb s n.1 n.2) (nodes m) s).
Proof.
  intros Hm. unfold cucon_umap_iter_mem. rewrite loop_buckets_fold by apply (wf_cap m Hm). simpl.
  by rewrite fold_left_concat.
Qed.

Lemma fold_left_map {A B S} (f : S -> B -> S) (g : A -> B) xs s :
  fold_left (fun s x => f s (g x)) xs s = fold_left f (map g xs) s.
Proof. revert s. induction xs as [|x xs IH]; intros s; simpl; auto. Qed.

Lemma iter_keys_eq {S} m (cb : S -> Z -> S) s :
  wf0 m -> cucon_umap_iter_keys m cb s = Some (fold_left cb (keys m) s).
Proof.
  intros Hm. unfold cucon_umap_iter_keys. rewrite loop_buckets_fold by apply (wf_cap m Hm). simpl.
  unfold keys. by rewrite fold_left_concat, fold_left_map.
Qed.

(** ** Copies *)

Lemma copy_buckets_eq {W} (f : Z -> V -> W) m :
  wf0 m ->
  copy_buckets f m = Some (mk_umap (size m) (mask m) (map (map (fun n => (n.1, f n.1 n.2))) (arr m))).
Proof.
  intros Hm. unfold copy_buckets. pose proof (is_mask_bounds _ (wf_mask m Hm)).
  unfold wadd. rewrite wrap_small by (unfold word; lia).
  rewrite loop_buckets_fold by apply (wf_cap m Hm). simpl. by rewrite fold_left_snoc.
Qed.

Lemma map_fst_copy {W} (f : Z -> V -> W) (ns : bucket V) :
  map fst (map (fun n => (n.1, f n.1 n.2)) ns) = map fst ns.
Proof. by rewrite map_map. Qed.

Lemma to_map_copy {W} (f : Z -> V -> W) (ns : bucket V) :
  list_to_map (map (fun n => (n.1, f n.1 n.2)) ns) =
  (map_imap (fun k v => Some (f k v)) (list_to_map ns : gmap Z V) : gmap Z W).
Proof.
  induction ns as [|[k v] ns IH]; simpl; [by rewrite map_imap_empty|].
  rewrite IH. by rewrite map_imap_insert.
Qed.

(** A copy holds the new slots under the old keys, in an array of its own. *)
Lemma copy_buckets_spec {W} (f : Z -> V -> W) m M :
  is_umap m M ->
  exists c, copy_buckets f m = Some c /\ is_umap c (map_imap (fun k v => Some (f k v)) M).
Proof.
  intros [[Hm Hl] <-]. rewrite copy_buckets_eq by done. eexists. split; [done|].
  set (g := fun n : node V => (n.1, f n.1 n.2)).
  assert (Hn : nodes (mk_umap (size m) (mask m) (map (map g) (arr m))) = map g (nodes m)).
  { unfold nodes. simpl. by rewrite concat_map. }
  split; [split; [|done]|].
  - destruct Hm as [Hk Hc Hp Hd Hs Hsm]. constructor; simpl; try done.
    + by rewrite length_map.
    + intros i b n Hi Hin. rewrite list_lookup_fmap in Hi. destruct (arr m !! i) as [b0|] eqn:Hb; [|done].
      injection Hi as <-. apply list_elem_of_fmap in Hin as (n0 & -> & Hn0). by apply (Hp i b0).
    + unfold keys. rewrite Hn. unfold g. by rewrite map_fst_copy.
    + by rewrite Hn, length_map.
  - unfold to_map. rewrite Hn. apply to_map_copy.
Qed.

(** ** Iterators *)

Lemma seek_spec a i :
  match concat a with
  | [] => seek a i = mk_it (i + length a)%nat None
  | n :: ns => exists j b, seek a i = mk_it (i + j)%nat (Some (n :: b)) /\
                 a !! j = Some (n :: b) /\ ns = b ++ concat (drop (S j) a)
  end.
Proof.
  revert i. induction a as [|b a IH]; intros i; simpl; [by rewrite Nat.add_0_r|].
  destruct b as [|n b]; simpl; [|exists 0%nat, b; by rewrite Nat.add_0_r].
  specialize (IH (S i)). destruct (concat a) as [|n ns].
  - rewrite IH. f_equal. lia.
  - destruct IH as (j & b & -> & Hj & Hns). exists (S j), b. split; [f_equal; lia|done].
Qed.

(** What is left of a traversal at an iterator. *)
Definition rest_at m (it : umap_it (V := V)) (ns : list (node V)) : Prop :=
  match it_node it with
  | None => ns = []
  | Some b => b <> [] /\ (node_head it < length (arr m))%nat /\ ns = b ++ concat (drop (S (node_head it)) (arr m))
  end.

Lemma rest_at_seek m i : (i <= length (arr m))%nat -> rest_at m (seek (drop i (arr m)) i) (concat (drop i (arr m))).
Proof.
  intros Hi. pose proof (seek_spec (drop i (arr m)) i) as Hs. unfold rest_at.
  destruct (concat (drop i (arr m))) as [|n ns]; [by rewrite Hs|].
  destruct Hs as (j & b & -> & Hj & ->). simpl. rewrite lookup_drop in Hj.
  rewrite drop_drop. replace (i + S j)%nat with (S (i + j)) by lia.
  split_and!; [done| |done]. by eapply lookup_lt_Some.
Qed.

Lemma begin_spec m : wf0 m -> rest_at m (cucon_umap_begin m) (nodes m).
Proof.
  intros Hm. unfold cucon_umap_begin. destruct (Z.eqb_spec (size m) 0) as [E|E].
  - rewrite (wf_size m Hm) in E. unfold rest_at. simpl. destruct (nodes m); [done|simpl in E; lia].
  - rewrite firstn_all2 by (rewrite (wf_cap m Hm); done). apply (rest_at_seek m 0). lia.
Qed.

Lemma end_eq_spec m it ns : rest_at m it ns -> cucon_umap_end_eq it = bool_decide (ns = []).
Proof.
  unfold rest_at, cucon_umap_end_eq. destruct (it_node it) as [b|]; [|intros ->; done].
  intros (Hb & _ & ->). symmetry. apply bool_decide_eq_false_2. by destruct b.
Qed.

Lemma it_next_spec m it n ns :
  wf0 m -> rest_at m it (n :: ns) ->
  cucon_umap_it_node it = Some n /\ exists it', cucon_umap_it_next m it = Some it' /\ rest_at m it' ns.
Proof.
  intros Hm. unfold rest_at, cucon_umap_it_node, cucon_umap_it_next.
  destruct it as [i [b|]]; simpl; [|done]. intros (Hb & Hi & E). destruct b as [|n' b]; [done|].
  simpl in E. injection E as <- ->. split; [done|]. destruct b as [|n2 b]; simpl.
  - rewrite (firstn_all2 (arr m)) by (rewrite (wf_cap m Hm); done). eexists. split; [done|].
    apply (rest_at_seek m (S i)). lia.
  - by eexists.
Qed.

(** [for (it = begin(m); !end_eq(m, it); it = it_next(it))], with its nodes. *)
Fixpoint walk (fuel : nat) m (it : umap_it) : option (list (node V)) :=
  match fuel with
  | O => None
  | S fuel =>
      if cucon_umap_end_eq it then Some []
      else
        n ← cucon_umap_it_node it;
        it ← cucon_umap_it_next m it;
        ns ← walk fuel m it;
        Some (n :: ns)
  end.

Lemma walk_spec m it ns fuel :
  wf0 m -> rest_at m it ns -> (length ns < fuel)%nat -> walk fuel m it = Some ns.
Proof.
  intros Hm. revert it fuel. induction ns as [|n ns IH]; intros it [|fuel] Hr Hf; simpl in *; try lia;
    rewrite (end_eq_spec m it _ Hr); simpl; [done|].
  destruct (it_next_spec m it n ns Hm Hr) as (-> & it' & -> & Hr'). simpl.
  rewrite (IH it' fuel Hr') by lia. done.
Qed.

End trav.

(** ** Comparison of the keys *)

Section compare.
Context {V W : Type}.
Implicit Types (m : umap V) (u : umap W) (M : gmap Z V) (U : gmap Z W).

Lemma is_umap_key_word {A} (m : umap A) (M : gmap Z A) k v : is_umap m M -> (k, v) ∈ nodes m -> word k.
Proof.
  intros [[Hm _] _] Hin. pose proof (wf_words m Hm) as Hw. rewrite list.Forall_forall in Hw.
  exact (Hw _ Hin).
Qed.

(** The body of the loop of [eq_keys], over nodes with word keys. *)
Lemma eq_keys_loop u U (ns : list (node V)) :
  is_umap u U -> Forall (fun n => word n.1) ns ->
  conj_list (fun s n => match cucon_umap_find_mem u n.1 with
                        | Some slot => (s, bool_decide (is_Some slot))
                        | None => (None, false)
                        end) ns (Some tt) =
  (Some tt, bool_decide (Forall (fun n => is_Some (U !! n.1)) ns)).
Proof.
  intros Hu Hw. induction Hw as [|n ns Hn _ IH]; simpl; [done|].
  rewrite (find_mem_spec u U n.1 Hu Hn), IH. destruct (U !! n.1) as [w|] eqn:E.
  - rewrite bool_decide_eq_true_2 by by exists w. f_equal. apply bool_decide_ext.
    rewrite list.Forall_cons. rewrite E. split; [intros H; split; [by exists w|done]|by intros [_ ?]].
  - rewrite bool_decide_eq_false_2 by by intros [? ?]. f_equal. symmetry. apply bool_decide_eq_false_2.
    rewrite list.Forall_cons, E. by intros [[? ?] _].
Qed.

Lemma nodes_all_dom m M U :
  is_umap m M -> Forall (fun n => is_Some (U !! n.1)) (nodes m) <-> dom M ⊆ dom U.
Proof.
  intros Hm. rewrite list.Forall_forall. split.
  - intros H k. rewrite !elem_of_dom. intros [v Hv]. apply (H (k, v)). by apply (elem_nodes_map m M).
  - intros H [k v] Hin%(elem_nodes_map m M); [|done]. apply elem_of_dom, H, elem_of_dom. by exists v.
Qed.

Lemma eq_keys_spec m M u U :
  is_umap m M -> is_umap u U -> cucon_umap_eq_keys m u = Some (bool_decide (dom M = dom U)).
Proof.
  intros Hm Hu. unfold cucon_umap_eq_keys, cucon_umap_size.
  assert (Hs : size m = Z.of_nat (base.size (dom M))).
  { rewrite size_dom. destruct Hm as [[Hm _] <-]. by apply umap_size_to_map. }
  assert (Hs1 : size u = Z.of_nat (base.size (dom U))).
  { rewrite size_dom. destruct Hu as [[Hu _] <-]. by apply umap_size_to_map. }
  destruct (Z.eqb_spec (size m) (size u)) as [E|E]; simpl.
  - rewrite loop_buckets_conj by apply Hm. simpl. change (concat (arr m)) with (nodes m).
    rewrite (eq_keys_loop u U) by (try apply wf_words; try done; apply Hm). simpl. f_equal.
    apply bool_decide_ext. rewrite (nodes_all_dom m M U Hm). split; [|by intros ->].
    intros Hsub. apply set_subseteq_size_eq; [done|]. lia.
  - symmetry. f_equal. apply bool_decide_eq_false_2. intros Hd. rewrite Hd in Hs. lia.
Qed.

End compare.

(** ** Comparison of the slots: the loop does not advance *)

Section slots.
Context {V : Type} `{!EqDecision V}.
Implicit Types (m : umap V) (M : gmap Z V).

Lemma eq_mem_loop_stuck fuel m M k v :
  is_umap m M -> word k -> M !! k = Some v -> eq_mem_loop fuel m (k, v) = None.
Proof.
  intros Hm Hk HM. induction fuel as [|fuel IH]; simpl; [done|].
  rewrite (find_mem_spec m M k Hm Hk), HM. simpl. by rewrite decide_True.
Qed.

Lemma eq_mem_buckets_stuck fuel m M (a : list (bucket V)) :
  is_umap m M -> concat a <> [] -> (forall n, n ∈ concat a -> word n.1 /\ M !! n.1 = Some n.2) ->
  eq_mem_buckets fuel m a = None.
Proof.
  intros Hm. induction a as [|[|[k v] b] a IH]; simpl; [done|exact IH|]. intros _ Hin.
  destruct (Hin (k, v)) as [Hk HM]; [by left|]. by eapply eq_mem_loop_stuck.
Qed.

End slots.

(** ** Hashes: buckets up to the size *)

Lemma loop_buckets_short {V St} (f : St -> bucket V -> St) a n i s :
  loop_buckets (fun s b => (f s b, true)) a n i s =
  if (i + n <=? length a)%nat || (n =? 0)%nat then Some (fold_left f (take n (drop i a)) s, true) else None.
Proof.
  revert i s. induction n as [|n IH]; intros i s; [by rewrite orb_true_r|].
  rewrite orb_false_r. destruct (a !! i) as [b|] eqn:Hb.
  - rewrite (loop_buckets_step _ _ _ _ _ b Hb), (drop_S _ b) by done. simpl. rewrite IH.
    pose proof (lookup_lt_Some _ _ _ Hb). replace (S i + n)%nat with (i + S n)%nat by lia.
    destruct (Nat.leb_spec (i + S n) (length a)), (Nat.eqb_spec n 0); simpl; try done. lia.
  - simpl. rewrite Hb. simpl. apply lookup_ge_None in Hb. destruct (Nat.leb_spec (i + S n) (length a)); [lia|done].
Qed.

(** Every traversal of a hash map passes the pairs of the finite map it stands for
    to its callback, each exactly once and all in one order: the loops that go on
    always, those that stop at the first false answer, and the loop with an iterator,
    which ends after as many steps as the map has elements. *)
Theorem umap_traversal_correct {V St} (m : umap V) M :
  is_umap m M ->
  exists ns, ns ≡ₚ map_to_list M /\
    (forall (cb : St -> Z -> V -> St) s,
       cucon_umap_iter_mem m cb s = Some (fold_left (fun s n => cb s n.1 n.2) ns s)) /\
    (forall (cb : St -> Z -> St) s, cucon_umap_iter_keys m cb s = Some (fold_left cb (map fst ns) s)) /\
    (forall (cb : St -> node V -> St * bool) s, cucon_umap_conj_node m cb s = Some (conj_list cb ns s)) /\
    (forall (cb : St -> Z -> V -> St * bool) s,
       cucon_umap_conj_mem m cb s = Some (conj_list (fun s n => cb s n.1 n.2) ns s)) /\
    (forall (cb : St -> Z -> St * bool) s, cucon_umap_conj_keys m cb s = Some (conj_list cb (map fst ns) s)) /\
    walk (S (base.size M)) m (cucon_umap_begin m) = Some ns.
Proof.
  intros Hm. exists (nodes m). split; [by apply nodes_to_list|]. pose proof (proj1 (proj1 Hm)) as Hw.
  split_and!; intros; [by apply iter_mem_eq|by apply iter_keys_eq|by apply conj_node_eq|by apply conj_mem_eq
    |by apply conj_keys_eq|].
  apply walk_spec; [done|by apply begin_spec|]. rewrite (nodes_to_list m M Hm), length_map_to_list. lia.
Qed.

(** [eq_keys] decides whether two hash maps, of any capacities and with slots of any
    kinds, have the same keys. *)
Theorem umap_eq_keys_correct {V W} (m : umap V) (u : umap W) (M : gmap Z V) (U : gmap Z W) :
  is_umap m M -> is_umap u U -> cucon_umap_eq_keys m u = Some (bool_decide (dom M = dom U)).
Proof. apply eq_keys_spec. Qed.

(** [eq_mem] does not end on equal maps, unless they are empty: the loop over a bucket
    stays at its first node when the slots agree, so no number of turns is enough. *)
Theorem umap_eq_mem_never_ends {V} `{!EqDecision V} (m u : umap V) M fuel :
  is_umap m M -> is_umap u M -> M <> ∅ -> cucon_umap_eq_mem fuel m u = None.
Proof.
  intros Hm Hu HM. unfold cucon_umap_eq_mem, cucon_umap_size.
  pose proof (proj1 (proj1 Hm)) as Hw. rewrite (umap_size_to_map m Hw), (umap_size_to_map u) by apply Hu.
  rewrite (proj2 Hm), (proj2 Hu), Z.eqb_refl. simpl.
  rewrite firstn_all2 by (rewrite (wf_cap m Hw); done).
  apply (eq_mem_buckets_stuck fuel u M); [done| |].
  - change (concat (arr m)) with (nodes m). intros E. pose proof (nodes_to_list m M Hm) as Hp.
    rewrite E in Hp. symmetry in Hp. apply Permutation_nil_r in Hp. by apply HM, map_to_list_empty_iff.
  - intros [k v] Hin. split; [by apply (is_umap_key_word m M k v)|by apply (elem_nodes_map m M)].
Qed.

(** The hash of the keys reads the buckets up to the size of the map, not up to its
    mask: it fails, at the sentinel behind the buckets, exactly for the maps with at
    least as many elements as buckets, and else takes only the first buckets into
    account. *)
Theorem umap_hash_keys_reads_size_buckets {V} (m : umap V) :
  wf0 m ->
  cucon_umap_hash_keys m =
    if size m <=? mask m
    then Some (HASH (fold_left (fun h k => wadd h (HASH k))
                 (map fst (concat (take (Z.to_nat (size m + 1)) (arr m)))) 178841123))
    else None.
Proof.
  intros Hm. unfold cucon_umap_hash_keys. rewrite loop_buckets_short. simpl.
  pose proof (size_bounds m Hm) as Hs. rewrite (wf_cap m Hm). unfold cap.
  pose proof (is_mask_bounds _ (wf_mask m Hm)).
  destruct (Z.leb_spec (size m) (mask m)), (Nat.leb_spec (Z.to_nat (size m + 1)) (Z.to_nat (mask m + 1))),
    (Nat.eqb_spec (Z.to_nat (size m + 1)) 0); try lia; simpl; [|done].
  rewrite fold_left_concat. by rewrite <- fold_left_map.
Qed.

(** A map with eight elements, in eight buckets. *)
Definition full_umap : umap Z := mk_umap 8 7 (map (fun i => [(i, 0)]) [0; 1; 2; 3; 4; 5; 6; 7]).

Lemma full_umap_wf0 : wf0 full_umap.
Proof.
  constructor; unfold keys, nodes; simpl; [by exists 3|done| |apply (bool_decide_unpack _); by vm_compute|done|done].
  intros i b n. do 8 (destruct i as [|i]; simpl;
    [intros [= <-]; rewrite list_elem_of_singleton; intros ->; done|]). done.
Qed.
