(* ===== verification/UmapSets.v ===== *)
(** * Hash maps: operations on two and three maps

    The loops that move the nodes of one map to another: at every node both maps are well
    formed apart from their capacity, which is adjusted at the end. *)

From S2P Require Export UmapTrav.

(** ** Lists of nodes and maps *)

Section lists.
Context {V : Type}.
Implicit Types (m : umap V) (C D : gmap Z V) (key : Z) (v : V) (b ns : bucket V) (n : node V).

(** The nodes whose key is bound in a map, and the others. *)
Definition bound {W} (C : gmap Z W) n : Prop := is_Some (C !! n.1).
#[global] Instance bound_dec {W} (C : gmap Z W) n : Decision (bound C n).
Proof. unfold bound. apply _. Defined.
Definition present {W} (C : gmap Z W) ns : bucket V := base.filter (bound C) ns.
Definition missing {W} (C : gmap Z W) ns : bucket V := base.filter (fun n => ~ bound C n) ns.

Lemma list_filter_ext_in (P Q : node V -> Prop) `{!forall n, Decision (P n), !forall n, Decision (Q n)} ns :
  (forall n, n ∈ ns -> P n <-> Q n) -> base.filter P ns = base.filter Q ns.
Proof.
  induction ns as [|n ns IH]; intros Hpq; [done|]. rewrite !filter_cons, IH by (intros; apply Hpq; by right).
  destruct (Hpq n) as [HP HQ]; [by left|].
  destruct (decide (P n)), (decide (Q n)); done || (exfalso; auto).
Qed.

Lemma present_ext {W} (C D : gmap Z W) ns :
  (forall n, n ∈ ns -> C !! n.1 = D !! n.1) -> present C ns = present D ns.
Proof. intros H. apply list_filter_ext_in. intros n Hn. unfold bound. by rewrite H. Qed.

Lemma missing_ext {W} (C D : gmap Z W) ns :
  (forall n, n ∈ ns -> C !! n.1 = D !! n.1) -> missing C ns = missing D ns.
Proof. intros H. apply list_filter_ext_in. intros n Hn. unfold bound. by rewrite H. Qed.

Lemma length_present_missing {W} (C : gmap Z W) ns :
  (length (present C ns) + length (missing C ns))%nat = length ns.
Proof.
  unfold present, missing. induction ns as [|n ns IH]; [done|]. rewrite !filter_cons.
  destruct (decide (bound C n)), (decide (~ bound C n)); simpl; try done; lia.
Qed.

Lemma key_notin n ns : n.1 ∉ map fst ns -> (list_to_map ns : gmap Z V) !! n.1 = None.
Proof. apply not_elem_of_list_to_map_1. Qed.

Lemma delete_diff C key v ns :
  delete key C ∖ (list_to_map ns : gmap Z V) = C ∖ (<[key := v]> (list_to_map ns) : gmap Z V).
Proof.
  apply map_eq. intros k. apply option_eq. intros w. rewrite !lookup_difference_Some, lookup_delete_Some.
  destruct (decide (key = k)) as [->|Hne].
  - rewrite lookup_insert_eq. naive_solver.
  - rewrite lookup_insert_ne by done. naive_solver.
Qed.

Lemma diff_none C key v ns :
  C !! key = None -> C ∖ (list_to_map ns : gmap Z V) = C ∖ (<[key := v]> (list_to_map ns) : gmap Z V).
Proof. intros HC. by rewrite <- delete_diff, delete_id. Qed.

(** ** A map whose buckets are filtered *)

Lemma wf_filter m (P : node V -> Prop) `{!forall n, Decision (P n)} :
  wf m ->
  let m' := mk_umap (Z.of_nat (length (base.filter P (nodes m)))) (mask m) (map (base.filter P) (arr m)) in
  is_umap m' (base.filter P (to_map m)).
Proof.
  intros [Hm Hl] m'. pose proof (size_bounds m Hm) as Hs.
  assert (Hn : nodes m' = base.filter P (nodes m)) by apply filter_concat.
  assert (Hle : Z.of_nat (length (base.filter P (nodes m))) <= size m).
  { rewrite (wf_size m Hm). pose proof (length_filter P (nodes m)). lia. }
  split; [split|].
  - destruct Hm as [Hk Hc Hp Hd Hsz Hsm]. constructor; simpl; [done| | | |by rewrite Hn|lia].
    + by rewrite length_map.
    + intros i b n Hi Hin. rewrite list_lookup_fmap in Hi. destruct (arr m !! i) as [b0|] eqn:Hb; [|done].
      injection Hi as <-. apply list_elem_of_filter in Hin as [_ Hin]. by apply (Hp i b0).
    + unfold keys. rewrite Hn. by apply nodup_filter.
  - unfold loaded in *. simpl. lia.
  - unfold to_map. rewrite Hn. apply list_to_map_filter. apply Hm.
Qed.

End lists.

Section moves.
Context {V : Type}.
Implicit Types (m dst src : umap V) (C D : gmap Z V) (key : Z) (v : V) (b ns : bucket V) (n : node V).

(** ** [move_isecn] *)

(** What the first map keeps of its size and its array when nodes are moved away. *)
Definition taken (src : umap V) (taken : nat) (a : list (bucket V)) : umap V :=
  mk_umap (size src - Z.of_nat taken) (mask src) a.

(** The nodes that are left to visit can be moved. *)
Record movable (dst src : umap V) (D C : gmap Z V) (ns : bucket V) : Prop := {
  mv_keys : NoDup (map fst ns);
  mv_words : Forall (fun n => word n.1) ns;
  mv_new : forall n, n ∈ ns -> bound C n -> D !! n.1 = None;
  mv_room : size dst + Z.of_nat (length ns) <= 2 ^ 59;
  mv_size : Z.of_nat (length ns) <= size src < 2 ^ 60;
}.

(** What the visit of nodes leads to: the nodes in [C] are in [dst], not in [c]. *)
Record moved (dst' c' dst : umap V) (D C : gmap Z V) (ns : bucket V) : Prop := {
  md_wf : wf0 dst';
  md_map : to_map dst' = (list_to_map (present C ns) : gmap Z V) ∪ D;
  md_src : is_umap c' (C ∖ (list_to_map ns : gmap Z V));
  md_size : size dst' = size dst + Z.of_nat (length (present C ns));
}.

Lemma present_cons C n ns : bound C n -> present C (n :: ns) = n :: present C ns.
Proof. intros Hb. unfold present. by rewrite filter_cons, decide_True. Qed.
Lemma present_cons_no C n ns : ~ bound C n -> present C (n :: ns) = present C ns.
Proof. intros Hb. unfold present. by rewrite filter_cons, decide_False. Qed.
Lemma missing_cons C n ns : ~ bound C n -> missing C (n :: ns) = n :: missing C ns.
Proof. intros Hb. unfold missing. by rewrite filter_cons, decide_True. Qed.
Lemma missing_cons_no C n ns : bound C n -> missing C (n :: ns) = missing C ns.
Proof. intros Hb. unfold missing. rewrite filter_cons, decide_False; [done|]. intros Hn. by apply Hn. Qed.

Lemma present_delete C n ns : n.1 ∉ map fst ns -> present (delete n.1 C) ns = present C ns.
Proof.
  intros Hn. apply present_ext. intros n' Hin. apply lookup_delete_ne. by eapply key_ne.
Qed.
Lemma missing_delete C n ns : n.1 ∉ map fst ns -> missing (delete n.1 C) ns = missing C ns.
Proof.
  intros Hn. apply missing_ext. intros n' Hin. apply lookup_delete_ne. by eapply key_ne.
Qed.

Lemma taken_taken src i j a : taken (taken src i (arr src)) j a = taken src (i + j) a.
Proof. unfold taken. simpl. f_equal. lia. Qed.

Lemma taken_0 src : taken src 0 (arr src) = src.
Proof. unfold taken. destruct src. simpl. by rewrite Z.sub_0_r. Qed.

(** A node that is not in [c] stays, one that is moves. *)
Lemma moved_skip dst' c' dst D C n ns :
  ~ bound C n -> moved dst' c' dst D C ns -> moved dst' c' dst D C (n :: ns).
Proof.
  intros Hb [Hw HM Hc Hs]. constructor; rewrite ?present_cons_no by done; try done.
  destruct n as [k v]. simpl. rewrite <- diff_none; [done|]. apply eq_None_not_Some. exact Hb.
Qed.

Lemma moved_cons dst' c' dst1 dst D C n ns :
  bound C n -> D !! n.1 = None -> n.1 ∉ map fst ns -> size dst1 = size dst + 1 ->
  moved dst' c' dst1 (<[n.1 := n.2]> D) (delete n.1 C) ns -> moved dst' c' dst D C (n :: ns).
Proof.
  intros Hb HD Hn Hs1 [Hw HM Hc Hs]. rewrite present_delete in HM, Hs by done.
  constructor; rewrite ?present_cons by done; try done.
  - rewrite HM. destruct n as [k v]. simpl. rewrite <- insert_union_r, <- insert_union_l; [done|].
    apply (key_notin (k, v)). by intros ?%keys_filter.
  - destruct n as [k v]. simpl. by rewrite <- delete_diff.
  - simpl. lia.
Qed.

Lemma move_bucket_spec b kept dst src c D C :
  wf0 dst -> to_map dst = D -> is_umap c C -> movable dst src D C b ->
  exists dst' c', move_isecn_bucket b kept dst src c =
      Some (kept ++ missing C b, dst', taken src (length (present C b)) (arr src), c') /\
    moved dst' c' dst D C b.
Proof.
  revert kept dst src c D C. induction b as [|n b IH]; intros kept dst src c D C Hdst HD Hc Hmv.
  - exists dst, c. simpl. rewrite taken_0, app_nil_r. split; [done|].
    constructor; [done| | |simpl; lia].
    + simpl. by rewrite map_empty_union.
    + simpl. by rewrite map_difference_empty.
  - destruct Hmv as [Hk Hw Hnew Hroom Hsz]. simpl in Hk, Hroom, Hsz.
    apply list.NoDup_cons in Hk as [Hn Hk]. apply list.Forall_cons in Hw as [Hwn Hw].
    destruct (erase_keep_cap_spec c C n.1 Hc Hwn) as (c1 & Ec & Hc1 & _ & Hc1').
    cbn [move_isecn_bucket]. rewrite Ec. simpl. destruct (decide (bound C n)) as [Hb|Hb].
    + rewrite bool_decide_eq_true_2 by exact Hb. destruct (bucket_of_some dst n.1 Hdst) as (bk & Hbk). rewrite Hbk. simpl.
      pose proof (Hnew n ltac:(by left) Hb) as HDn.
      destruct (wf_add dst n.1 n.2 bk (n :: bk)) as (Hw1 & HM1 & Hs1); try done; [by rewrite HD|lia|by destruct n|].
      set (dst1 := with_size _ (set_bucket dst _ _)) in *.
      assert (E1 : with_size (fun s => wsub s 1) src = taken src 1 (arr src)).
      { unfold with_size, taken, wsub. rewrite wrap_small by (unfold word; lia). done. }
      rewrite E1. destruct (IH kept dst1 (taken src 1 (arr src)) c1 (<[n.1 := n.2]> D) (delete n.1 C))
        as (dst' & c' & E & Hm'); [done|by rewrite HM1, HD|done| |].
      { constructor; [done|done| |lia|unfold taken; simpl; lia]. intros n' Hin Hb'.
        pose proof (key_ne _ _ _ Hn Hin). rewrite lookup_insert_ne by done.
        unfold bound in Hb'. rewrite lookup_delete_ne in Hb' by done. apply Hnew; [by right|done]. }
      exists dst', c'. rewrite E, present_delete, missing_delete, missing_cons_no, present_cons by done.
      split; [|apply (moved_cons dst' c' dst1 dst D C n b); done].
      change (arr (taken src 1 (arr src))) with (arr src). by rewrite taken_taken.
    + rewrite bool_decide_eq_false_2 by exact Hb.
      assert (c1 = c) as -> by (apply Hc1'; by apply eq_None_not_Some).
      destruct (IH (kept ++ [n]) dst src c D C) as (dst' & c' & E & Hm'); [done|done|done| |].
      { constructor; [done|done| |lia|lia]. intros n' Hin. apply Hnew. by right. }
      exists dst', c'. rewrite E, missing_cons, present_cons_no by done. rewrite <- app_assoc.
      split; [done|]. by apply moved_skip.
Qed.

Lemma umap_disjoint_keys b ns n :
  NoDup (map fst (b ++ ns)) -> n ∈ ns -> (list_to_map b : gmap Z V) !! n.1 = None.
Proof.
  rewrite map_app. intros (_ & Hd & _)%list.NoDup_app Hin. apply key_notin. intros Hb.
  apply (Hd _ Hb). by apply elem_map_fst.
Qed.

Lemma lookup_diff_new C b ns n :
  NoDup (map fst (b ++ ns)) -> n ∈ ns -> (C ∖ (list_to_map b : gmap Z V)) !! n.1 = C !! n.1.
Proof.
  intros Hd Hin. pose proof (umap_disjoint_keys b ns n Hd Hin) as Hn. apply option_eq. intros v.
  rewrite lookup_difference_Some, Hn. naive_solver.
Qed.

Lemma moved_app dst2 c2 dst1 c1 dst D C b ns :
  NoDup (map fst (b ++ ns)) -> moved dst1 c1 dst D C b ->
  moved dst2 c2 dst1 ((list_to_map (present C b) : gmap Z V) ∪ D) (C ∖ (list_to_map b : gmap Z V)) ns ->
  moved dst2 c2 dst D C (b ++ ns).
Proof.
  intros Hd [_ HM1 _ Hs1] [Hw HM Hc Hs].
  rewrite (present_ext _ C) in HM, Hs by (intros n Hn; by apply (lookup_diff_new C b ns)).
  assert (Happ : present C (b ++ ns) = present C b ++ present C ns) by apply list.filter_app.
  constructor; [done| | |rewrite Happ, length_app; lia].
  - rewrite HM, Happ, list_to_map_app, map_union_assoc. f_equal. apply map_union_comm.
    apply map_disjoint_spec. intros k v w Hk Hb.
    apply elem_of_list_to_map_2 in Hk, Hb. apply list_elem_of_filter in Hk as [_ Hk].
    apply list_elem_of_filter in Hb as [_ Hb]. rewrite map_app in Hd.
    apply list.NoDup_app in Hd as (_ & Hd & _). apply (Hd k).
    + by apply (elem_map_fst (k, w)).
    + by apply (elem_map_fst (k, v)).
  - replace (C ∖ (list_to_map (b ++ ns) : gmap Z V)) with
      (C ∖ (list_to_map b : gmap Z V) ∖ (list_to_map ns : gmap Z V)); [done|].
    rewrite list_to_map_app. apply map_eq. intros k. apply option_eq. intros v.
    rewrite !lookup_difference_Some, lookup_union_None. tauto.
Qed.

(** After a bucket the rest can still be moved. *)
Lemma movable_rest dst1 c1 dst src src1 D C b ns :
  movable dst src D C (b ++ ns) -> moved dst1 c1 dst D C b ->
  size src1 = size src - Z.of_nat (length (present C b)) ->
  movable dst1 src1 (to_map dst1) (C ∖ (list_to_map b : gmap Z V)) ns.
Proof.
  intros [Hk Hw Hnew Hroom Hsz] Hm1 Hs1. rewrite length_app in Hroom, Hsz.
  pose proof (length_present_missing C b) as Hlen. apply list.Forall_app in Hw as [_ Hw].
  pose proof Hk as Hk'. rewrite map_app in Hk'. apply list.NoDup_app in Hk' as (_ & _ & Hkn).
  constructor; [done|done| | |lia].
  - intros n Hn. unfold bound. rewrite (lookup_diff_new C b ns n Hk Hn). intros Hbn.
    rewrite (md_map _ _ _ _ _ _ Hm1). apply lookup_union_None. split.
    + apply key_notin. intros Hin%keys_filter. apply (not_elem_of_list_to_map_2 (M := gmap Z)) in Hin; [done|].
      by apply (umap_disjoint_keys b ns).
    + apply Hnew; [|done]. apply elem_of_app. by right.
  - rewrite (md_size _ _ _ _ _ _ Hm1). lia.
Qed.

Lemma movable_bucket dst src D C b ns : movable dst src D C (b ++ ns) -> movable dst src D C b.
Proof.
  intros [Hk Hw Hnew Hroom Hsz]. rewrite length_app in Hroom, Hsz. rewrite map_app in Hk.
  apply list.NoDup_app in Hk as (Hkb & _ & _). apply list.Forall_app in Hw as [Hwb _].
  constructor; [done|done| |lia|lia]. intros n Hn. apply Hnew. apply elem_of_app. by left.
Qed.

Lemma move_loop_spec turns i dst src c D C :
  length (arr src) = (i + turns)%nat -> wf0 dst -> to_map dst = D -> is_umap c C ->
  movable dst src D C (concat (drop i (arr src))) ->
  exists dst' c', move_isecn_loop turns i dst src c =
      Some (dst', taken src (length (present C (concat (drop i (arr src)))))
                    (take i (arr src) ++ map (missing C) (drop i (arr src))), c') /\
    moved dst' c' dst D C (concat (drop i (arr src))).
Proof.
  revert i dst src c D C. induction turns as [|turns IH]; intros i dst src c D C Hl Hdst HD Hc Hmv.
  - rewrite drop_ge by lia. exists dst, c. simpl. rewrite firstn_all2 by lia.
    rewrite app_nil_r, taken_0. split; [done|]. constructor; [done| | |simpl; lia].
    + simpl. by rewrite map_empty_union.
    + simpl. by rewrite map_difference_empty.
  - destruct (lookup_lt_is_Some_2 (arr src) i) as [b Hb]; [lia|].
    rewrite (drop_S _ b) in Hmv |- * by done. cbn [concat] in Hmv |- *.
    set (ns := concat (drop (S i) (arr src))) in *. pose proof (mv_keys _ _ _ _ _ Hmv) as Hk.
    destruct (move_bucket_spec b [] dst src c D C) as (dst1 & c1 & E & Hm1); [done|done|done| |].
    { by eapply movable_bucket. }
    cbn [move_isecn_loop]. rewrite Hb. simpl. rewrite E. simpl.
    set (src1 := mk_umap _ _ _). destruct (IH (S i) dst1 src1 c1 (to_map dst1) (C ∖ (list_to_map b : gmap Z V)))
      as (dst2 & c2 & E2 & Hm2); [by simpl; rewrite length_insert; lia|apply Hm1|done|apply Hm1| |].
    { simpl. rewrite drop_insert_lt by lia. by eapply movable_rest. }
    exists dst2, c2. rewrite E2. simpl in Hm2 |- *. rewrite drop_insert_lt in Hm2 |- * by lia. fold ns in Hm2 |- *.
    rewrite (md_map _ _ _ _ _ _ Hm1) in Hm2. split; [|by apply (moved_app _ _ dst1 c1)].
    assert (Hap : present C (b ++ ns) = present C b ++ present C ns) by apply list.filter_app.
    rewrite Hap, length_app. rewrite (present_ext _ C ns) by (intros n Hn; by apply (lookup_diff_new C b ns)).
    rewrite (map_ext_in _ (missing C)).
    + unfold taken. simpl. rewrite (take_set _ i) by (apply lookup_lt_Some in Hb; done).
      rewrite <- app_assoc, Nat2Z.inj_add, Z.sub_add_distr. done.
    + intros b' Hb'%list_elem_of_In. apply missing_ext. intros n Hn. apply (lookup_diff_new C b ns); [done|].
      apply list_elem_of_In, in_concat. exists b'. by rewrite <- !list_elem_of_In.
Qed.

(** The map of which nodes were taken. *)
Lemma taken_is src C :
  wf src ->
  is_umap (taken src (length (present C (nodes src))) (map (missing C) (arr src))) (to_map src ∖ C).
Proof.
  intros Hw. pose proof (wf_filter src (fun n => ~ bound C n) Hw) as Hf. simpl in Hf.
  replace (to_map src ∖ C) with (base.filter (fun n : node V => ~ bound C n) (to_map src)).
  - unfold taken. rewrite (wf_size src (proj1 Hw)). pose proof (length_present_missing C (nodes src)).
    replace (_ - _) with (Z.of_nat (length (missing C (nodes src)))) by lia. exact Hf.
  - apply map_eq. intros k. apply option_eq. intros v.
    rewrite map_lookup_filter_Some, lookup_difference_Some. unfold bound. simpl.
    by rewrite <- eq_None_not_Some.
Qed.

Lemma present_map A C src :
  is_umap src A ->
  (list_to_map (present C (nodes src)) : gmap Z V) = base.filter (bound C) A.
Proof. intros [[Hm _] <-]. apply list_to_map_filter, (wf_nodup src Hm). Qed.

(** The walk through the smaller map. *)
Lemma move_walk dst a c A C D :
  is_umap dst D -> is_umap a A -> is_umap c C -> (forall k, is_Some (A !! k) -> is_Some (C !! k) -> D !! k = None) ->
  size dst + size a <= 2 ^ 59 ->
  exists dst' a' c', ('(dst, a, b) ← move_isecn_loop (cap a) 0 dst a c;
      a ← update_cap_after_erase a; b ← update_cap_after_erase b; dst ← update_cap_after_insert dst;
      Some (dst, a, b)) = Some (dst', a', c') /\
    is_umap dst' (base.filter (bound C) A ∪ D) /\ is_umap a' (A ∖ C) /\ is_umap c' (C ∖ A).
Proof.
  intros [Hd HD] Ha Hc Hnew Hroom. pose proof (proj1 (proj1 Ha)) as Hwa. pose proof (size_bounds a Hwa).
  destruct (move_loop_spec (cap a) 0 dst a c D C) as (d1 & c1 & E & Hm); [apply Hwa|apply Hd|done|done| |].
  { constructor; [apply Hwa|by apply wf_words| | |]; rewrite ?drop_0; change (concat (arr a)) with (nodes a).
    - intros [k v] Hin Hb. apply (elem_nodes_map a A k v Ha) in Hin. apply Hnew; [by exists v|done].
    - rewrite <- (wf_size a Hwa). lia.
    - rewrite <- (wf_size a Hwa). lia. }
  rewrite drop_0 in E, Hm. change (concat (arr a)) with (nodes a) in E, Hm. rewrite E. simpl.
  destruct Hm as [Hw1 HM1 Hc1 _]. rewrite (present_map A C a Ha) in HM1.
  change (list_to_map (nodes a) : gmap Z V) with (to_map a) in Hc1. rewrite (proj2 Ha) in Hc1.
  pose proof (taken_is a C (proj1 Ha)) as Ha1. rewrite (proj2 Ha) in Ha1. set (a1 := taken _ _ _) in *.
  destruct (update_cap_after_erase_spec a1 (proj1 Ha1)) as (a2 & -> & Ra).
  destruct (update_cap_after_erase_spec c1 (proj1 Hc1)) as (c2 & -> & Rc).
  destruct (update_cap_after_insert_spec d1 Hw1) as (d2 & -> & Rd).
  exists d2, a2, c2. split; [done|]. rewrite <- HM1, <- (proj2 Ha1), <- (proj2 Hc1).
  split_and!; apply recapped_is; try done; [apply Ha1|apply Hc1].
Qed.

End moves.

(** ** [assign_union_void] *)

Section union.
Context {V W : Type}.
Implicit Types (m : umap V) (src : umap W).

Lemma union_void_nodes (zero : V) (ns : bucket W) m M :
  is_umap m M -> Forall (fun n => word n.1) ns -> size m + Z.of_nat (length ns) <= 2 ^ 59 ->
  exists m', fold_left (fun r n => m ← r; '(_, m) ← cucon_umap_insert_void zero m n.1; Some m) ns (Some m) = Some m' /\
    is_umap m' (M ∪ ((fun _ => zero) <$> (list_to_map ns : gmap Z W))).
Proof.
  intros Hm Hw. revert m M Hm. induction Hw as [|[k w] ns Hk _ IH]; intros m M Hm Hs.
  { exists m. simpl. by rewrite fmap_empty, map_union_empty. }
  cbn [length] in Hs. simpl. simpl in Hk.
  assert (Hi : inserts M k zero m (cucon_umap_insert_void zero m k)) by (apply insert_last_spec; done || lia).
  unfold inserts in Hi.
  rewrite fmap_insert. destruct (M !! k) as [v|] eqn:HM.
  - rewrite Hi. simpl. destruct (IH m M Hm) as (m' & -> & Hm'); [lia|]. exists m'. split; [done|].
    replace (M ∪ <[k := zero]> _) with (M ∪ ((fun _ => zero) <$> (list_to_map ns : gmap Z W))); [done|].
    apply map_eq. intros j. rewrite !lookup_union. destruct (decide (j = k)) as [->|Hj].
    + rewrite HM, lookup_insert_eq, lookup_fmap. by destruct (list_to_map ns !! k).
    + by rewrite lookup_insert_ne by done.
  - destruct Hi as (m1 & -> & Hm1). simpl.
    assert (Hs1 : size m1 <= size m + 1).
    { rewrite (umap_size_to_map m1), (umap_size_to_map m), (proj2 Hm), (proj2 Hm1) by (apply Hm || apply Hm1).
      rewrite map_size_insert_None by done. lia. }
    destruct (IH m1 _ Hm1) as (m' & -> & Hm'); [lia|]. exists m'. split; [done|].
    by rewrite <- insert_union_r, insert_union_l.
Qed.

Lemma assign_union_void_spec (zero : V) m M src U :
  is_umap m M -> is_umap src U -> size m + size src <= 2 ^ 59 ->
  exists m', cucon_umap_assign_union_void zero m src = Some m' /\ is_umap m' (M ∪ ((fun _ => zero) <$> U)).
Proof.
  intros Hm Hu Hs. pose proof (proj1 (proj1 Hu)) as Hw.
  destruct (union_void_nodes zero (nodes src) m M Hm) as (m' & E & Hm').
  - by apply wf_words.
  - by rewrite <- (wf_size src Hw).
  - exists m'. split; [|by rewrite <- (proj2 Hu)]. unfold cucon_umap_assign_union_void.
    rewrite loop_buckets_fold by apply (wf_cap src Hw). simpl. by rewrite fold_left_concat.
Qed.

(** ** [assign_isecn] *)

Lemma isecn_bucket_eq src U (b : bucket V) :
  is_umap src U -> Forall (fun n => word n.1) b -> isecn_bucket src b = Some (present U b).
Proof.
  intros Hu Hw. unfold present. induction Hw as [|n b Hn _ IH]; [done|]. cbn [isecn_bucket].
  rewrite (find_mem_spec src U n.1 Hu Hn). simpl. rewrite IH. simpl. rewrite filter_cons.
  destruct (U !! n.1) as [w|] eqn:E, (decide _) as [Hb|Hb]; try done.
  - exfalso. apply Hb. by exists w.
  - destruct Hb as [w Hw']. congruence.
Qed.

Lemma isecn_loop_eq src U turns i m :
  is_umap src U -> length (arr m) = (i + turns)%nat -> Forall (fun n => word n.1) (concat (drop i (arr m))) ->
  isecn_loop src turns i m =
    Some (mk_umap (size m) (mask m) (take i (arr m) ++ map (present U) (drop i (arr m)))).
Proof.
  intros Hu. revert i m. induction turns as [|turns IH]; intros i m Hl Hw.
  - rewrite drop_ge, firstn_all2, app_nil_r by lia. by destruct m.
  - destruct (lookup_lt_is_Some_2 (arr m) i) as [b Hb]; [lia|]. cbn [isecn_loop]. rewrite Hb. simpl.
    rewrite (drop_S _ b) in Hw |- * by done. simpl in Hw. apply list.Forall_app in Hw as [Hwb Hw].
    rewrite (isecn_bucket_eq src U b Hu Hwb). simpl. rewrite IH; simpl.
    + rewrite drop_insert_lt, take_set, <- app_assoc by lia. done.
    + rewrite length_insert. lia.
    + by rewrite drop_insert_lt by lia.
Qed.

End union.

(** ** [assign_isecn_union], on maps of one capacity *)

Section isecn_union.
Context {V : Type}.
Implicit Types (m src : umap V) (C D : gmap Z V) (key : Z) (v : V) (b ns : bucket V) (n : node V).

(** The nodes that are left to visit can be moved to [dst]. *)
Record unitable (src dst : umap V) ns : Prop := {
  un_keys : NoDup (map fst ns);
  un_words : Forall (fun n => word n.1) ns;
  un_mask : mask src = mask dst;
  un_room : size dst + Z.of_nat (length ns) <= 2 ^ 59;
  un_size : Z.of_nat (length ns) <= size src < 2 ^ 60;
}.

Record united (dst' dst : umap V) D ns : Prop := {
  ud_wf : wf0 dst';
  ud_mask : mask dst' = mask dst;
  ud_map : to_map dst' = D ∪ (list_to_map ns : gmap Z V);
  ud_size : size dst' = size dst + Z.of_nat (length (missing D ns));
}.

Lemma united_nil dst D : wf0 dst -> to_map dst = D -> united dst dst D [].
Proof. intros Hw HD. constructor; [done|done| |simpl; lia]. simpl. by rewrite map_union_empty. Qed.

Lemma union_bound D key v (X : gmap Z V) : is_Some (D !! key) -> D ∪ <[key := v]> X = D ∪ X.
Proof.
  intros [w Hw]. apply map_eq. intros j. rewrite !lookup_union. destruct (decide (key = j)) as [->|Hj].
  - rewrite Hw, lookup_insert_eq. by destruct (X !! j).
  - by rewrite lookup_insert_ne.
Qed.

Lemma lookup_insert_key D key v n : key <> n.1 -> (<[key := v]> D) !! n.1 = D !! n.1.
Proof. intros Hn. by rewrite lookup_insert_ne. Qed.

Lemma union_bucket_spec b kept src dst D :
  wf0 dst -> to_map dst = D -> unitable src dst b ->
  exists dst', isecn_union_bucket b kept src dst =
      Some (kept ++ present D b, taken src (length (missing D b)) (arr src), dst') /\ united dst' dst D b.
Proof.
  revert kept src dst D. induction b as [|n b IH]; intros kept src dst D Hdst HD Hun.
  { exists dst. simpl. rewrite taken_0, app_nil_r. split; [done|]. by apply united_nil. }
  destruct Hun as [Hk Hw Hmask Hroom Hsz]. simpl in Hk, Hroom, Hsz.
  apply list.NoDup_cons in Hk as [Hn Hk]. apply list.Forall_cons in Hw as [Hwn Hw].
  destruct (bucket_of_some dst n.1 Hdst) as (bk & Hbk). cbn [isecn_union_bucket]. rewrite Hmask.
  unfold bucket_of in Hbk. rewrite Hbk. simpl. pose proof (find_to_map dst n.1 bk Hdst Hwn Hbk) as Hf.
  rewrite HD in Hf. destruct (bucket_find n.1 bk) as [n'|].
  - assert (Hb : bound D n) by (unfold bound; rewrite <- Hf; by eexists).
    destruct (IH (kept ++ [n]) src dst D Hdst HD) as (dst' & E & [H1 H2 H3 H4]); [by constructor; try lia|].
    exists dst'. rewrite E, missing_cons_no, present_cons, <- app_assoc by done. split; [done|].
    constructor; rewrite ?missing_cons_no by done; try done.
    destruct n as [k v]. simpl. by rewrite union_bound.
  - assert (HDn : D !! n.1 = None) by by rewrite <- Hf.
    assert (Hb : ~ bound D n) by by apply eq_None_not_Some.
    destruct (wf_add dst n.1 n.2 bk (n :: bk)) as (Hw1 & HM1 & Hs1); try done; [by rewrite HD|lia|by destruct n|].
    set (dst1 := with_size _ (set_bucket dst _ _)) in *. change (mk_umap _ _ (<[_ := n :: bk]> _)) with dst1.
    assert (E1 : with_size (fun s => wsub s 1) src = taken src 1 (arr src)).
    { unfold with_size, taken, wsub. rewrite wrap_small by (unfold word; lia). done. }
    rewrite E1. destruct (IH kept (taken src 1 (arr src)) dst1 (<[n.1 := n.2]> D))
      as (dst' & E & [H1 H2 H3 H4]); [done|by rewrite HM1, HD| |].
    { constructor; [done|done|done|lia|unfold taken; simpl; lia]. }
    assert (Hext : forall n', n' ∈ b -> (<[n.1 := n.2]> D) !! n'.1 = D !! n'.1).
    { intros n' Hin. apply lookup_insert_key. by eapply key_ne. }
    rewrite (missing_ext _ D) in E, H4 by done. rewrite (present_ext _ D) in E by done.
    exists dst'. rewrite E, missing_cons, present_cons_no by done.
    change (arr (taken src 1 (arr src))) with (arr src). rewrite taken_taken. split; [done|].
    constructor; [done|by rewrite H2| |rewrite missing_cons by done; simpl; lia].
    rewrite H3. destruct n as [k v]. simpl. by rewrite <- insert_union_l, insert_union_r.
Qed.

Lemma union_lookup_new D b ns n :
  NoDup (map fst (b ++ ns)) -> n ∈ ns -> (D ∪ (list_to_map b : gmap Z V)) !! n.1 = D !! n.1.
Proof.
  intros Hd Hin. rewrite lookup_union, (umap_disjoint_keys b ns n Hd Hin). by destruct (D !! n.1).
Qed.

Lemma unitable_bucket src dst b ns : unitable src dst (b ++ ns) -> unitable src dst b.
Proof.
  intros [Hk Hw Hm Hr Hs]. rewrite length_app in Hr, Hs. rewrite map_app in Hk.
  apply list.NoDup_app in Hk as (Hkb & _ & _). apply list.Forall_app in Hw as [Hwb _].
  constructor; try done; lia.
Qed.

Lemma unitable_rest src src1 dst dst1 D b ns :
  unitable src dst (b ++ ns) -> united dst1 dst D b -> mask src1 = mask src ->
  size src1 = size src - Z.of_nat (length (missing D b)) -> unitable src1 dst1 ns.
Proof.
  intros [Hk Hw Hm Hr Hs] [_ Hm1 _ Hs1] Hmask Hsz. rewrite length_app in Hr, Hs. rewrite map_app in Hk.
  pose proof (length_present_missing D b). apply list.NoDup_app in Hk as (_ & _ & Hkn).
  apply list.Forall_app in Hw as [_ Hwn]. constructor; try done; [congruence|lia|lia].
Qed.

Lemma union_loop_spec turns i src dst D :
  length (arr src) = (i + turns)%nat -> wf0 dst -> to_map dst = D ->
  unitable src dst (concat (drop i (arr src))) ->
  exists dst', isecn_union_loop turns i src dst =
      Some (taken src (length (missing D (concat (drop i (arr src)))))
              (take i (arr src) ++ map (present D) (drop i (arr src))), dst') /\
    united dst' dst D (concat (drop i (arr src))).
Proof.
  revert i src dst D. induction turns as [|turns IH]; intros i src dst D Hl Hdst HD Hun.
  { rewrite drop_ge by lia. exists dst. simpl. rewrite firstn_all2, app_nil_r, taken_0 by lia.
    split; [done|]. by apply united_nil. }
  destruct (lookup_lt_is_Some_2 (arr src) i) as [b Hb]; [lia|].
  rewrite (drop_S _ b) in Hun |- * by done. cbn [concat] in Hun |- *.
  set (ns := concat (drop (S i) (arr src))) in *. pose proof (un_keys _ _ _ Hun) as Hk.
  destruct (union_bucket_spec b [] src dst D Hdst HD) as (dst1 & E & Hu1); [by eapply unitable_bucket|].
  cbn [isecn_union_loop]. rewrite Hb. simpl. rewrite E. simpl. set (src1 := mk_umap _ _ _).
  destruct (IH (S i) src1 dst1 (D ∪ (list_to_map b : gmap Z V))) as (dst2 & E2 & Hu2);
    [by simpl; rewrite length_insert; lia|apply Hu1|apply Hu1| |].
  { simpl. rewrite drop_insert_lt by lia. by eapply unitable_rest. }
  exists dst2. rewrite E2. simpl in Hu2 |- *. rewrite drop_insert_lt in Hu2 |- * by lia. fold ns in Hu2 |- *.
  assert (Hap : missing D (b ++ ns) = missing D b ++ missing D ns) by apply list.filter_app.
  assert (Hext : forall n, n ∈ ns -> (D ∪ (list_to_map b : gmap Z V)) !! n.1 = D !! n.1).
  { intros n Hn. by apply (union_lookup_new D b ns). }
  destruct Hu1 as [_ Hm1 _ Hs1], Hu2 as [H1 H2 H3 H4]. rewrite (missing_ext _ D ns) in H4 |- * by done. split.
  - rewrite (map_ext_in _ (present D)).
    + unfold taken. simpl. rewrite (take_set _ i) by (apply lookup_lt_Some in Hb; done).
      rewrite <- app_assoc, Hap, length_app, Nat2Z.inj_add, Z.sub_add_distr. done.
    + intros b' Hb'%list_elem_of_In. apply present_ext. intros n Hn. apply Hext.
      apply list_elem_of_In, in_concat. exists b'. by rewrite <- !list_elem_of_In.
  - constructor; [done|congruence| |rewrite Hap, length_app; lia].
    by rewrite H3, list_to_map_app, map_union_assoc.
Qed.

End isecn_union.

(** ** The operations *)

Section operations.
Context {V : Type}.
Implicit Types (m : umap V) (A C D : gmap Z V).

Lemma size_compare (a c : umap V) A C :
  is_umap a A -> is_umap c C -> (size c <? size a) = bool_decide (base.size C < base.size A)%nat.
Proof.
  intros [[Ha _] <-] [[Hc _] <-]. rewrite (umap_size_to_map a Ha), (umap_size_to_map c Hc).
  destruct (Z.ltb_spec (Z.of_nat (base.size (to_map c))) (Z.of_nat (base.size (to_map a)))); symmetry;
    [apply bool_decide_eq_true_2|apply bool_decide_eq_false_2]; lia.
Qed.

Lemma move_isecn_swapped (dst a c : umap V) :
  size c <? size a = true ->
  cucon_umap_move_isecn dst a c =
    '(dst, c, a) ← ('(dst, a, b) ← move_isecn_loop (cap c) 0 dst c a;
      a ← update_cap_after_erase a; b ← update_cap_after_erase b; dst ← update_cap_after_insert dst;
      Some (dst, a, b)); Some (dst, a, c).
Proof.
  intros Hs. unfold cucon_umap_move_isecn, cucon_umap_size. rewrite Hs.
  destruct (move_isecn_loop _ _ _ _ _) as [[[d x] y]|]; simpl; [|done].
  destruct (update_cap_after_erase x); simpl; [|done]. destruct (update_cap_after_erase y); simpl; [|done].
  by destruct (update_cap_after_insert d).
Qed.

(** [move_isecn] moves the intersection of two hash maps to a third: the smaller
    source is walked through, its pairs with a key of the other are added to [dst], which
    must not have these keys, both sources lose the common keys and keep the others, and
    all three maps are well formed with an adjusted capacity. *)
Theorem umap_move_isecn_correct (dst src0 src1 : umap V) D A C :
  is_umap dst D -> is_umap src0 A -> is_umap src1 C ->
  (forall k, is_Some (A !! k) -> is_Some (C !! k) -> D !! k = None) ->
  size dst + Z.min (size src0) (size src1) <= 2 ^ 59 ->
  exists dst' src0' src1', cucon_umap_move_isecn dst src0 src1 = Some (dst', src0', src1') /\
    is_umap dst' ((if bool_decide (base.size C < base.size A)%nat
                   then base.filter (bound A) C else base.filter (bound C) A) ∪ D) /\
    is_umap src0' (A ∖ C) /\ is_umap src1' (C ∖ A).
Proof.
  intros Hd Ha Hc Hnew Hroom. pose proof (size_compare src0 src1 A C Ha Hc) as Hcmp.
  destruct (size src1 <? size src0) eqn:E; rewrite <- Hcmp.
  - destruct (move_walk dst src1 src0 C A D Hd Hc Ha) as (d & c & a & Ew & H1 & H2 & H3).
    { intros k HC HA. by apply Hnew. }
    { apply Z.ltb_lt in E. lia. }
    exists d, a, c. rewrite move_isecn_swapped, Ew by done. done.
  - destruct (move_walk dst src0 src1 A C D Hd Ha Hc Hnew) as (d & a & c & Ew & H1 & H2 & H3).
    { apply Z.ltb_ge in E. lia. }
    exists d, a, c. unfold cucon_umap_move_isecn, cucon_umap_size. rewrite E. rewrite Ew. done.
Qed.

Lemma isecn_union_walk (a c : umap V) A C :
  is_umap a A -> is_umap c C -> mask a = mask c -> size a + size c <= 2 ^ 59 ->
  exists a' c', ('(m0, m1) ← isecn_union_loop (cap a) 0 a c; m0 ← update_cap_after_erase m0;
      m1 ← update_cap_after_insert m1; Some (m0, m1)) = Some (a', c') /\
    is_umap a' (base.filter (bound C) A) /\ is_umap c' (C ∪ A).
Proof.
  intros Ha [[Hwc _] HC] Hmask Hroom. pose proof (proj1 (proj1 Ha)) as Hwa. pose proof (size_bounds a Hwa).
  destruct (union_loop_spec (cap a) 0 a c C) as (c1 & E & Hu); [apply Hwa|done|done| |].
  { rewrite drop_0. change (concat (arr a)) with (nodes a).
    constructor; [apply Hwa|by apply wf_words|done| |]; rewrite <- (wf_size a Hwa); lia. }
  rewrite drop_0 in E, Hu. change (concat (arr a)) with (nodes a) in E, Hu. rewrite E. simpl.
  destruct Hu as [Hw1 _ HM1 _]. change (list_to_map (nodes a) : gmap Z V) with (to_map a) in HM1.
  rewrite (proj2 Ha) in HM1.
  assert (Ha1 : is_umap (taken a (length (missing C (nodes a))) (map (present C) (arr a))) (base.filter (bound C) A)).
  { rewrite <- (proj2 Ha). pose proof (wf_filter a (bound C) (proj1 Ha)) as Hf. simpl in Hf.
    unfold taken. rewrite (wf_size a Hwa). pose proof (length_present_missing C (nodes a)).
    replace (_ - _) with (Z.of_nat (length (present C (nodes a)))) by lia. exact Hf. }
  set (a1 := taken _ _ _) in *.
  destruct (update_cap_after_erase_spec a1 (proj1 Ha1)) as (a2 & -> & Ra).
  destruct (update_cap_after_insert_spec c1 Hw1) as (c2 & -> & Rc).
  exists a2, c2. split; [done|]. rewrite <- HM1, <- (proj2 Ha1).
  split; apply recapped_is; try done. apply Ha1.
Qed.

(** [assign_isecn_union] on two hash maps of the same capacity leaves the pairs of the
    smaller map with a key of the larger one in the first map, and moves the others to
    the larger map, which becomes the second: their union. *)
Theorem umap_isecn_union_correct (m0 m1 : umap V) A C :
  is_umap m0 A -> is_umap m1 C -> mask m0 = mask m1 -> size m0 + size m1 <= 2 ^ 59 ->
  exists m0' m1', cucon_umap_assign_isecn_union m0 m1 = Some (m0', m1') /\
    if bool_decide (base.size C < base.size A)%nat
    then is_umap m0' (base.filter (bound A) C) /\ is_umap m1' (A ∪ C)
    else is_umap m0' (base.filter (bound C) A) /\ is_umap m1' (C ∪ A).
Proof.
  intros Ha Hc Hmask Hroom. rewrite <- (size_compare m0 m1 A C Ha Hc).
  unfold cucon_umap_assign_isecn_union, cucon_umap_size, cucon_umap_swap.
  destruct (size m1 <? size m0); [apply isecn_union_walk; done || lia|by apply isecn_union_walk].
Qed.

(** [assign_isecn] unlinks the right nodes, but the size stays what it was: after an
    intersection that drops a key the size of the hash map is wrong. *)
Theorem umap_assign_isecn_stale_size {W} (m : umap V) (src : umap W) M (U : gmap Z W) :
  is_umap m M -> is_umap src U ->
  exists m', cucon_umap_assign_isecn m src = Some m' /\ to_map m' = base.filter (bound U) M /\
    cucon_umap_size m' = Z.of_nat (base.size M) /\
    (wf0 m' <-> base.filter (bound U) M = M).
Proof.
  intros Hm Hu. pose proof (proj1 (proj1 Hm)) as Hw. unfold cucon_umap_assign_isecn.
  rewrite (isecn_loop_eq src U); [|done|apply Hw|by rewrite drop_0; apply wf_words]. rewrite drop_0. simpl.
  set (m' := mk_umap _ _ _). exists m'. split; [done|].
  assert (Hmap : to_map m' = base.filter (bound U) M).
  { rewrite <- (proj2 Hm). unfold to_map, nodes. simpl. unfold present. rewrite filter_concat.
    apply list_to_map_filter, Hw. }
  split; [done|]. assert (Hs : size m' = Z.of_nat (base.size M)) by by rewrite <- (proj2 Hm), <- umap_size_to_map.
  split; [done|]. split.
  - intros Hw'. pose proof (umap_size_to_map m' Hw') as Hs'. rewrite Hs, Hmap in Hs'.
    apply map_eq. intros k. destruct (base.filter (bound U) M !! k) as [v|] eqn:E.
    { apply map_lookup_filter_Some in E as [E _]. by rewrite E. }
    destruct (M !! k) as [v|] eqn:EM; [|done]. exfalso.
    assert (Hsub : base.filter (bound U) M ⊆ delete k M).
    { apply map_subseteq_spec. intros j w Hj. apply lookup_delete_Some. split; [congruence|].
      by apply map_lookup_filter_Some in Hj as [? _]. }
    apply map_subseteq_size in Hsub. rewrite map_size_delete, EM in Hsub. simpl in Hsub.
    destruct (base.size M) eqn:Es; [by apply map_size_empty_inv in Es; rewrite Es in EM|lia].
  - intros Hf. pose proof (wf_filter m (bound U) (proj1 Hm)) as [[Hwf _] HM]. rewrite (proj2 Hm), Hf in HM.
    pose proof (umap_size_to_map _ Hwf) as Hsz. rewrite HM, <- Hs in Hsz. simpl in Hsz. by rewrite Hsz in Hwf.
Qed.

End operations.

(** ** Concrete maps *)

Definition no_contents : gmap Z Z := ∅.

(** The key 9 is in bucket 1 of eight buckets and in bucket 9 of sixteen: the union of
    maps of these capacities holds it twice, and the intersection not at all. *)
Definition nine8 : umap Z := mk_umap 1 7 [[]; [(9, 0)]; []; []; []; []; []; []].
Definition nine16 : umap Z := mk_umap 1 15 (<[9%nat := [(9, 0)]]> (replicate 16 [])).

Lemma isecn_union_wrong_bucket :
  match cucon_umap_assign_isecn_union nine8 nine16 with
  | Some (m0, m1) => keys m0 = [] /\ keys m1 = [9; 9] /\ size m1 = 2
  | None => False
  end.
Proof. by vm_compute. Qed.

(** The other way round the search leaves the array. *)
Lemma isecn_union_out_of_bounds : cucon_umap_assign_isecn_union nine16 nine8 = None.
Proof. by vm_compute. Qed.

(** A common key of the sources that is in the destination already is there twice. *)
Lemma move_isecn_duplicate :
  match cucon_umap_move_isecn nine8 nine8 nine8 with
  | Some (dst, _, _) => keys dst = [9; 9]
  | None => False
  end.
Proof. by vm_compute. Qed.
