(* ===== verification/Hash.v ===== *)
(** * Hash functions: [cu/hash.h], [cu/hash.c]

    The functions for 64-bit words and 64-bit [cu_hash_t].  An array is the list of its
    words; reading behind its end is the error [None]. *)

From S2P Require Export Int.

Definition wmul64 (x y : Z) : Z := wrap (x * y).

Definition CUP_PRIME32_A : Z := 0x5d5692d9.
Definition CUP_PRIME32_B : Z := 0x916c5adf.
Definition CUP_PRIME32_C : Z := 0xc45d771d.

(** ** Mixing of one word *)

Definition cu_hash_mix3 (key : Z) : Z := wsub (key ^^^ (key >>> 7)) ((key >>> 11) ^^^ (key >>> 19)).

Definition cu_hash_mix4 (key : Z) : Z :=
  wadd (wadd (key >>> 7) ((key >>> 11) ^^^ (key >>> 19))) (wmul64 key 1030739).

Definition cu_hash_mix5 (key : Z) : Z :=
  let key := wmul64 key CUP_PRIME32_A in
  key ^^^ (key >>> 32).

Definition cu_hash_mix6 (key : Z) : Z :=
  let key := wmul64 key CUP_PRIME32_A in
  let key := key ^^^ (key >>> 32) in
  key ^^^ (key >>> 16).

Definition cu_hash_rot (x k : Z) : Z := wshl x k ||| (x >>> (64 - k)).

Definition cu_word_rot (n x : Z) : Z :=
  let n := Z.rem n 64 in
  wshl x n ||| (x >>> (64 - n)).

(** ** Bob Jenkins' function *)

Definition CU_HASH_BJMIX64 (abc : Z * Z * Z) : Z * Z * Z :=
  let '(a, b, c) := abc in
  let a := wsub a (wadd b c) in let a := a ^^^ (c >>> 43) in
  let b := wsub b (wadd c a) in let b := b ^^^ wshl a 9 in
  let c := wsub c (wadd a b) in let c := c ^^^ (b >>> 8) in
  let a := wsub a (wadd b c) in let a := a ^^^ (c >>> 38) in
  let b := wsub b (wadd c a) in let b := b ^^^ wshl a 23 in
  let c := wsub c (wadd a b) in let c := c ^^^ (b >>> 5) in
  let a := wsub a (wadd b c) in let a := a ^^^ (c >>> 35) in
  let b := wsub b (wadd c a) in let b := b ^^^ wshl a 49 in
  let c := wsub c (wadd a b) in let c := c ^^^ (b >>> 11) in
  let a := wsub a (wadd b c) in let a := a ^^^ (c >>> 12) in
  let b := wsub b (wadd c a) in let b := b ^^^ wshl a 18 in
  let c := wsub c (wadd a b) in let c := c ^^^ (b >>> 22) in
  (a, b, c).

(** [while (n >= 3)]: the rest of the array, its length and the state. *)
Fixpoint bj_loop (arr : list Z) (n : Z) (abc : Z * Z * Z) : option (list Z * Z * (Z * Z * Z)) :=
  if n <? 3 then Some (arr, n, abc)
  else
    match arr with
    | x :: y :: z :: arr =>
        let '(a, b, c) := abc in
        bj_loop arr (n - 3) (CU_HASH_BJMIX64 (wadd a x, wadd b y, wadd c z))
    | _ => None
    end.

(** The switch, with its fall-through, and the last mixing. *)
Definition bj_tail (count : Z) (rest : list Z * Z * (Z * Z * Z)) : option Z :=
  let '(arr, n, (a, b, c)) := rest in
  let c := wadd c (wshl count 3) in
  b ← (if n =? 2 then y ← arr !! 1%nat; Some (wadd b y) else Some b);
  a ← (if (n =? 2) || (n =? 1) then x ← arr !! 0%nat; Some (wadd a x) else Some a);
  Some (CU_HASH_BJMIX64 (a, b, c)).2.

Definition cu_wordarr_hash_bj (count : Z) (arr : list Z) (init : Z) : option Z :=
  rest ← bj_loop arr count (init, init, 0x9e3779b97f4a7c13); bj_tail count rest.

Definition cu_1word_hash_bj (d0 init : Z) : Z :=
  (CU_HASH_BJMIX64 (wadd init d0, init, 0x9e3779b97f4a7c1b)).2.

Definition cu_2word_hash_bj (d0 d1 init : Z) : Z :=
  (CU_HASH_BJMIX64 (wadd init d0, wadd init d1, 0x9e3779b97f4a7c23)).2.

Definition cu_wordarr_hash_noinit_bj (count : Z) (arr : list Z) : option Z :=
  rest ← bj_loop arr count (0, 0, 0x9e3779b97f4a7c13); bj_tail count rest.

Definition cu_1word_hash_noinit_bj (d0 : Z) : Z := (CU_HASH_BJMIX64 (d0, 0, 0x9e3779b97f4a7c1b)).2.

Definition cu_2word_hash_noinit_bj (d0 d1 : Z) : Z := (CU_HASH_BJMIX64 (d0, d1, 0x9e3779b97f4a7c23)).2.

(** ** Products with primes *)

(** The statements after the products, on two and on three words. *)
Definition pm2_step (a b : Z) : Z * Z :=
  let a := wmul64 a CUP_PRIME32_A in
  let b := wmul64 b CUP_PRIME32_B in
  let a := a ^^^ (b >>> 35) in
  let b := b ^^^ (a >>> 30) in
  (a, b).

(** [while (count--)] *)
Fixpoint pm2_loop (arr : list Z) (count : nat) (a b : Z) : option (Z * Z) :=
  match count with
  | O => Some (a, b)
  | S count =>
      match arr with
      | x :: arr => let '(a, b) := pm2_step (a ^^^ x) (b ^^^ cu_word_rot 32 x) in pm2_loop arr count a b
      | [] => None
      end
  end.

Definition cu_wordarr_hash_2pm (count : Z) (arr : list Z) (x : Z) : option Z :=
  let '(a, b) := pm2_step x (cu_word_rot 32 x) in
  '(a, b) ← pm2_loop arr (Z.to_nat count) a b;
  let b := b ^^^ (a >>> 7) in
  Some (b ^^^ (a >>> 2)).

Definition pm3_step (a b c : Z) : Z * Z * Z :=
  let a := wmul64 a CUP_PRIME32_A in
  let b := wmul64 b CUP_PRIME32_B in
  let c := wmul64 c CUP_PRIME32_C in
  let a := a ^^^ (c >>> 35) in
  let b := b ^^^ (a >>> 31) in
  let c := c ^^^ (b >>> 30) in
  (a, b, c).

Fixpoint pm3_loop (arr : list Z) (count : nat) (a b c : Z) : option (Z * Z * Z) :=
  match count with
  | O => Some (a, b, c)
  | S count =>
      match arr with
      | x :: arr =>
          let '(a, b, c) := pm3_step (a ^^^ x) (b ^^^ cu_word_rot 24 x) (c ^^^ cu_word_rot 48 x) in
          pm3_loop arr count a b c
      | [] => None
      end
  end.

Definition cu_wordarr_hash_3pm (count : Z) (arr : list Z) (x : Z) : option Z :=
  let '(a, b, c) := pm3_step x (cu_word_rot 24 x) (cu_word_rot 48 x) in
  '(a, b, c) ← pm3_loop arr (Z.to_nat count) a b c;
  let c := c ^^^ (a >>> 7) in
  let c := c ^^^ (a >>> 2) in
  let c := c ^^^ (b >>> 11) in
  Some (c ^^^ (b >>> 3)).

(** ** Words *)

Lemma wadd_0_l x : word x -> wadd 0 x = x.
Proof. intros Hx. unfold wadd. by rewrite Z.add_0_l, wrap_small. Qed.

Definition word3 (t : Z * Z * Z) : Prop := let '(a, b, c) := t in word a /\ word b /\ word c.

(** ** Mixing is reversible *)

(** The twelve lines of [CU_HASH_BJMIX64], each of which changes one of the words. *)
Definition mix_a (f : Z -> Z) (t : Z * Z * Z) : Z * Z * Z :=
  let '(a, b, c) := t in (wsub a (wadd b c) ^^^ f c, b, c).
Definition mix_b (f : Z -> Z) (t : Z * Z * Z) : Z * Z * Z :=
  let '(a, b, c) := t in (a, wsub b (wadd c a) ^^^ f a, c).
Definition mix_c (f : Z -> Z) (t : Z * Z * Z) : Z * Z * Z :=
  let '(a, b, c) := t in (a, b, wsub c (wadd a b) ^^^ f b).

Definition mix_lines : list (Z * Z * Z -> Z * Z * Z) :=
  [mix_a (fun c => c >>> 43); mix_b (fun a => wshl a 9); mix_c (fun b => b >>> 8);
   mix_a (fun c => c >>> 38); mix_b (fun a => wshl a 23); mix_c (fun b => b >>> 5);
   mix_a (fun c => c >>> 35); mix_b (fun a => wshl a 49); mix_c (fun b => b >>> 11);
   mix_a (fun c => c >>> 12); mix_b (fun a => wshl a 18); mix_c (fun b => b >>> 22)].

Lemma mix_lines_eq t : CU_HASH_BJMIX64 t = fold_left (fun t f => f t) mix_lines t.
Proof. by destruct t as [[a b] c]. Qed.

Lemma lxor_cancel x y s : x ^^^ s = y ^^^ s -> x = y.
Proof.
  intros E. rewrite <- (Z.lxor_0_r x), <- (Z.lxor_0_r y), <- (Z.lxor_nilpotent s), <- !Z.lxor_assoc.
  by rewrite E.
Qed.

Lemma wsub_cancel x y k : word x -> word y -> wsub x k = wsub y k -> x = y.
Proof. unfold word, wsub, wrap. intros Hx Hy E. dlia. Qed.

Lemma sub_xor_cancel x y k s : word x -> word y -> wsub x k ^^^ s = wsub y k ^^^ s -> x = y.
Proof. intros Hx Hy E%lxor_cancel. by apply (wsub_cancel _ _ k). Qed.

(** What a line promises. *)
Record reversible (f : Z * Z * Z -> Z * Z * Z) : Prop := {
  rev_word : forall t, word3 t -> word3 (f t);
  rev_inj : forall t u, word3 t -> word3 u -> f t = f u -> t = u;
}.

Lemma mix_a_rev f : (forall x, word x -> word (f x)) -> reversible (mix_a f).
Proof.
  intros Hf. constructor.
  - intros [[a b] c] (Ha & Hb & Hc). split_and!; [|done|done]. apply word_lxor; auto with wordb.
  - intros [[a b] c] [[a' b'] c'] (Ha & _) (Ha' & _). simpl. intros E. injection E as E -> ->.
    apply sub_xor_cancel in E as ->; done.
Qed.
Lemma mix_b_rev f : (forall x, word x -> word (f x)) -> reversible (mix_b f).
Proof.
  intros Hf. constructor.
  - intros [[a b] c] (Ha & Hb & Hc). split_and!; [done| |done]. apply word_lxor; auto with wordb.
  - intros [[a b] c] [[a' b'] c'] (_ & Hb & _) (_ & Hb' & _). simpl. intros E. injection E as -> E ->.
    apply sub_xor_cancel in E as ->; done.
Qed.
Lemma mix_c_rev f : (forall x, word x -> word (f x)) -> reversible (mix_c f).
Proof.
  intros Hf. constructor.
  - intros [[a b] c] (Ha & Hb & Hc). split_and!; [done|done|]. apply word_lxor; auto with wordb.
  - intros [[a b] c] [[a' b'] c'] (_ & _ & Hc) (_ & _ & Hc'). simpl. intros E. injection E as -> -> E.
    apply sub_xor_cancel in E as ->; done.
Qed.

Lemma mix_lines_rev : Forall reversible mix_lines.
Proof.
  repeat (apply Forall_cons; [first [apply mix_a_rev | apply mix_b_rev | apply mix_c_rev]; intros;
    first [apply word_wshl | apply word_shiftr; [lia|done]]|]). apply Forall_nil.
Qed.

Lemma fold_reversible fs : Forall reversible fs -> reversible (fun t => fold_left (fun t f => f t) fs t).
Proof.
  induction 1 as [|f fs [Hw Hi] _ [IHw IHi]]; constructor; simpl; auto.
Qed.

Lemma mix_reversible : reversible CU_HASH_BJMIX64.
Proof.
  destruct (fold_reversible _ mix_lines_rev) as [Hw Hi]. constructor.
  - intros t Ht. rewrite mix_lines_eq. by apply Hw.
  - intros t u Ht Hu. rewrite !mix_lines_eq. by apply Hi.
Qed.

(** The mixing takes different states to different states. *)
Theorem bjmix64_injective t u :
  word3 t -> word3 u -> CU_HASH_BJMIX64 t = CU_HASH_BJMIX64 u -> t = u.
Proof. apply mix_reversible. Qed.

(** ** Reading the array *)

Lemma list_ind3 {A} (P : list A -> Prop) :
  P [] -> (forall x, P [x]) -> (forall x y, P [x; y]) -> (forall x y z l, P l -> P (x :: y :: z :: l)) ->
  forall l, P l.
Proof. intros H0 H1 H2 H3. fix IH 1. intros [|x [|y [|z l]]]; [done|done|done|apply H3, IH]. Qed.

(** The loop takes three words at a time and leaves fewer than three. *)
Lemma bj_loop_spec arr t :
  Forall word arr -> word3 t ->
  exists rest u, word3 u /\ Forall word rest /\ (length rest < 3)%nat /\
    forall extra, bj_loop (arr ++ extra) (Z.of_nat (length arr)) t =
                    Some (rest ++ extra, Z.of_nat (length rest), u).
Proof.
  revert t. induction arr as [|x|x y|x y z arr IH] using list_ind3; intros t Hw Ht.
  - exists [], t. split_and!; [done|done|simpl; lia|]. by intros [].
  - exists [x], t. by split_and!; [| |simpl; lia|].
  - exists [x; y], t. by split_and!; [| |simpl; lia|].
  - inversion Hw as [|? ? Hx Hw1]; inversion Hw1 as [|? ? Hy Hw2]; inversion Hw2 as [|? ? Hz Hw3]; subst.
    destruct t as [[a b] c]. destruct (IH (CU_HASH_BJMIX64 (wadd a x, wadd b y, wadd c z))) as (rest & u & H1 & H2 & H3 & H4).
    { done. }
    { apply mix_reversible. split_and!; auto with wordb. }
    exists rest, u. split_and!; [done|done|done|]. intros extra. cbn [app bj_loop].
    replace (_ <? 3) with false by (symmetry; apply Z.ltb_ge; simpl length; lia).
    replace (Z.of_nat (length (x :: y :: z :: arr)) - 3) with (Z.of_nat (length arr)) by (simpl length; lia).
    apply H4.
Qed.

Lemma bj_tail_spec count rest u :
  word3 u -> Forall word rest -> (length rest < 3)%nat ->
  exists h, word h /\ forall extra, bj_tail count (rest ++ extra, Z.of_nat (length rest), u) = Some h.
Proof.
  intros Hu Hw Hl. destruct u as [[a b] c]. destruct Hu as (Ha & Hb & Hc).
  assert (Hmix : forall x y z, word x -> word y -> word z -> word (CU_HASH_BJMIX64 (x, y, z)).2).
  { intros x y z Hx Hy Hz. destruct (rev_word _ mix_reversible (x, y, z)) as (_ & _ & ?); [done|]. done. }
  destruct rest as [|x [|y [|z rest]]]; [| | |simpl in Hl; lia]; (eexists; split; [|intros extra; reflexivity]);
    apply Hmix; auto with wordb.
Qed.

(** The hash of an array exists, is a word and depends on nothing behind the array. *)
Lemma wordarr_hash_bj_spec arr init :
  Forall word arr -> word init ->
  exists h, word h /\ forall extra, cu_wordarr_hash_bj (Z.of_nat (length arr)) (arr ++ extra) init = Some h.
Proof.
  intros Hw Hi. unfold cu_wordarr_hash_bj.
  destruct (bj_loop_spec arr (init, init, 0x9e3779b97f4a7c13)) as (rest & u & H1 & H2 & H3 & H4); [done|done|].
  destruct (bj_tail_spec (Z.of_nat (length arr)) rest u H1 H2 H3) as (h & Hh & E). exists h. split; [done|].
  intros extra. rewrite H4. apply E.
Qed.

Lemma wordarr_hash_noinit_eq count arr : cu_wordarr_hash_noinit_bj count arr = cu_wordarr_hash_bj count arr 0.
Proof. done. Qed.

Lemma bj_one a b c d0 : bj_tail 1 ([d0], 1, (a, b, c)) = Some (CU_HASH_BJMIX64 (wadd a d0, b, wadd c 8)).2.
Proof. done. Qed.
Lemma bj_two a b c d0 d1 :
  bj_tail 2 ([d0; d1], 2, (a, b, c)) = Some (CU_HASH_BJMIX64 (wadd a d0, wadd b d1, wadd c 16)).2.
Proof. done. Qed.

Lemma word_hash_eq d0 d1 init :
  cu_wordarr_hash_bj 1 [d0] init = Some (cu_1word_hash_bj d0 init) /\
  cu_wordarr_hash_bj 2 [d0; d1] init = Some (cu_2word_hash_bj d0 d1 init).
Proof.
  assert (E1 : wadd 0x9e3779b97f4a7c13 8 = 0x9e3779b97f4a7c1b) by by vm_compute.
  assert (E2 : wadd 0x9e3779b97f4a7c13 16 = 0x9e3779b97f4a7c23) by by vm_compute.
  unfold cu_1word_hash_bj, cu_2word_hash_bj. rewrite <- E1, <- E2, <- bj_one, <- bj_two. done.
Qed.

(** The functions for one and two words are the function for arrays at these
    lengths, with and without an initial value, so that a key can be searched with one and
    inserted with the other; the function for arrays reads no word behind the array. *)
Theorem word_hash_correct d0 d1 init arr :
  word d0 -> word d1 -> word init -> Forall word arr ->
  cu_wordarr_hash_bj 1 [d0] init = Some (cu_1word_hash_bj d0 init) /\
  cu_wordarr_hash_bj 2 [d0; d1] init = Some (cu_2word_hash_bj d0 d1 init) /\
  cu_wordarr_hash_noinit_bj 1 [d0] = Some (cu_1word_hash_noinit_bj d0) /\
  cu_wordarr_hash_noinit_bj 2 [d0; d1] = Some (cu_2word_hash_noinit_bj d0 d1) /\
  exists h, word h /\
    forall extra, cu_wordarr_hash_bj (Z.of_nat (length arr)) (arr ++ extra) init = Some h.
Proof.
  intros H0 H1 Hi Hw. destruct (word_hash_eq d0 d1 init) as [-> ->]. rewrite !wordarr_hash_noinit_eq.
  destruct (word_hash_eq d0 d1 0) as [-> ->].
  unfold cu_1word_hash_bj, cu_2word_hash_bj, cu_1word_hash_noinit_bj, cu_2word_hash_noinit_bj.
  rewrite !wadd_0_l by done. split_and!; [done..|]. by apply wordarr_hash_bj_spec.
Qed.
