(* ===== verification/Str.v ===== *)
(** * Strings: [cu/str.h], [cu/str.c]

    A string object points into an array of bytes, which other strings may share.  [cap] is 0 unless the
    object owns the bytes of the array behind its own: it may write to them, and must give them up when it lets
    another string share them.  The state has the arrays, as blocks of bytes, and the objects; a
    character array or C string that is passed by a client is the list of its bytes.  [None] is the error of
    an assertion, of an access outside an array, and of [memcpy] between regions that overlap.  Allocated
    bytes are those of the parameter [junk]. *)

From S2P Require Export Mem Hash.

Record cu_str := mk_str { arr : ptr; len : Z; cap : Z }.
Record heap := mk_heap { blocks : gmap N (list Z); strs : gmap N cu_str }.

(** A state monad with errors. *)
Definition M (A : Type) : Type := heap -> option (A * heap).
#[global] Instance M_ret : MRet M := fun A a h => Some (a, h).
#[global] Instance M_bind : MBind M := fun A B k m h => match m h with Some (a, h) => k a h | None => None end.
Definition fail {A} : M A := fun h => None.
Definition check (b : bool) : M unit := if b then mret tt else fail.

Definition str_get (s : N) : M cu_str := fun h => S ← strs h !! s; Some (S, h).
Definition str_put (s : N) (S : cu_str) : M unit := fun h => Some (tt, mk_heap (blocks h) (<[s := S]> (strs h))).
Definition with_cap (S : cu_str) (c : Z) : cu_str := mk_str (arr S) (len S) c.

Definition nullptr : ptr := Ptr 0 0.

(** ** Bytes in blocks *)

Definition bytes_at (m : mem) (p : ptr) (n : nat) : option (list Z) :=
  if decide (n = 0%nat) then Some []
  else l ← m !! blk p; if decide (off p + n <= length l)%nat then Some (take n (drop (off p) l)) else None.

Definition write_at (m : mem) (p : ptr) (ws : list Z) : option mem :=
  if decide (ws = []) then Some m
  else l ← m !! blk p;
    if decide (off p + length ws <= length l)%nat then Some (<[blk p := list_inserts (off p) ws l]> m) else None.

Definition read (p : ptr) (n : Z) : M (list Z) := fun h => ws ← bytes_at (blocks h) p (Z.to_nat n); Some (ws, h).
Definition write (p : ptr) (ws : list Z) : M unit := fun h =>
  m ← write_at (blocks h) p ws; Some (tt, mk_heap m (strs h)).

(** The regions do not overlap. *)
Definition apart (p q : ptr) (n : nat) : bool :=
  negb (blk p =? blk q)%N || (off p + n <=? off q)%nat || (off q + n <=? off p)%nat.
Definition memcpy (dst src : ptr) (n : Z) : M unit :=
  check (apart dst src (Z.to_nat n));; ws ← read src n; write dst ws.
Definition memmove (dst src : ptr) (n : Z) : M unit := ws ← read src n; write dst ws.
Definition at_off (p : ptr) (n : Z) : ptr := padd p (Z.to_nat n).

Section str.
Context (junk : N -> nat -> Z).

Definition cu_galloc (n : Z) : M ptr := fun h =>
  let b := fresh ({[0%N]} ∪ dom (blocks h)) in
  Some (Ptr b 0, mk_heap (<[b := map (junk b) (seq 0 (Z.to_nat n))]> (blocks h)) (strs h)).
(** A new object, with its fields cleared. *)
Definition cu_gnew : M N := fun h =>
  let s := fresh (dom (strs h)) in Some (s, mk_heap (blocks h) (<[s := mk_str nullptr 0 0]> (strs h))).
Definition new (init : N -> M unit) : M N := s ← cu_gnew; init s;; mret s.

Implicit Types (str x y dest src dst : N) (ptr cstr : list Z) (ch : Z).

(** ** Capacity *)

Definition cu_str_grab_cap str : M Z := S ← str_get str; str_put str (with_cap S 0);; mret (cap S).
Definition SHARING x : M unit := S ← str_get x; str_put x (with_cap S 0).
Definition cu_str_set_capacity str (capacity : Z) : M unit :=
  S ← str_get str;
  a ← cu_galloc capacity;
  str_put str (mk_str a (len S) capacity);;
  memcpy a (arr S) (len S).

(** ** Construction *)

Definition cu_str_init str : M unit := str_put str (mk_str nullptr 0 0).
Definition cu_str_new : M N := new cu_str_init.

Definition cu_str_init_charr str ptr : M unit :=
  let n := Z.of_nat (length ptr) in
  a ← cu_galloc (wadd n 1);
  str_put str (mk_str a n (wadd n 1));;
  write a ptr;;
  write (at_off a n) [0].
Definition cu_str_new_charr ptr : M N := new (fun str => cu_str_init_charr str ptr).
Definition cu_str_new_cstr cstr : M N := cu_str_new_charr cstr.

Definition cu_str_init_uninit str (n : Z) : M unit := a ← cu_galloc (wadd n 1); str_put str (mk_str a n (wadd n 1)).
Definition cu_str_new_uninit (n : Z) : M N := new (fun str => cu_str_init_uninit str n).

(** A string on the bytes of [src]. *)
Definition cu_str_new_copy src : M N := new (fun str =>
  S ← str_get src; str_put src (with_cap S 0);; str_put str (mk_str (arr S) (len S) 0)).
Definition cu_str_assign dest src : M unit :=
  S ← str_get src; str_put dest (mk_str (arr S) (len S) 0);; SHARING src.

Definition cu_str_init_2charr str (s0 s1 : list Z) : M unit :=
  let n0 := Z.of_nat (length s0) in let n1 := Z.of_nat (length s1) in
  let n := wadd (wadd n0 n1) 1 in
  a ← cu_galloc n;
  str_put str (mk_str a (wsub n 1) n);;
  write a s0;;
  write (at_off a n0) s1.
Definition cu_str_new_2charr (s0 s1 : list Z) : M N := new (fun str => cu_str_init_2charr str s0 s1).
Definition cu_str_new_2cstr (x y : list Z) : M N := cu_str_new_2charr x y.

Definition cu_str_init_3charr str (s0 s1 s2 : list Z) : M unit :=
  let n0 := Z.of_nat (length s0) in let n1 := Z.of_nat (length s1) in let n2 := Z.of_nat (length s2) in
  let n := wadd (wadd (wadd n0 n1) n2) 1 in
  a ← cu_galloc n;
  str_put str (mk_str a (wsub n 1) n);;
  write a s0;;
  write (at_off a n0) s1;;
  write (at_off a (wadd n0 n1)) s2.
Definition cu_str_new_3charr (s0 s1 s2 : list Z) : M N := new (fun str => cu_str_init_3charr str s0 s1 s2).

(** Concatenations take over the capacity of [x] when it is enough. *)
Definition cu_str_init_2str str x y : M unit :=
  X ← str_get x; Y ← str_get y;
  let newsz := wadd (len X) (len Y) in
  (if cap X <? newsz then
     a ← cu_galloc (wadd newsz 1);
     str_put str (mk_str a newsz (wadd newsz 1));;
     memcpy a (arr X) (len X)
   else
     str_put str (mk_str (arr X) newsz (cap X));;
     str_put x (with_cap X 0));;
  S ← str_get str;
  memcpy (at_off (arr S) (len X)) (arr Y) (len Y).
Definition cu_str_new_2str x y : M N := new (fun str => cu_str_init_2str str x y).

(** The capacity that is grabbed, if it is enough. *)
Definition grab_enough x (n : Z) : M (option Z) :=
  X ← str_get x;
  if cap X <? n then mret None
  else c ← cu_str_grab_cap x; mret (if c <? n then None else Some c).

Definition cu_str_init_str_cstr str x (y : list Z) : M unit :=
  X ← str_get x;
  let n_y := Z.of_nat (length y) in
  let n_str := wadd (len X) n_y in
  c ← grab_enough x n_str;
  a ← (match c with
       | None =>
           a ← cu_galloc (wadd n_str 1);
           str_put str (mk_str a n_str (wadd n_str 1));;
           memcpy a (arr X) (len X);;
           mret a
       | Some c => str_put str (mk_str (arr X) n_str c);; mret (arr X)
       end);
  write (at_off a (len X)) y.
Definition cu_str_new_str_cstr x (y : list Z) : M N := new (fun str => cu_str_init_str_cstr str x y).

Definition cu_str_init_cstr_str str (x : list Z) y : M unit :=
  Y ← str_get y;
  let n_x := Z.of_nat (length x) in
  let n_new := wadd n_x (len Y) in
  a ← cu_galloc (wadd n_new 1);
  str_put str (mk_str a n_new (wadd n_new 1));;
  write a x;;
  memcpy (at_off a n_x) (arr Y) (len Y).
Definition cu_str_new_cstr_str (x : list Z) y : M N := new (fun str => cu_str_init_cstr_str str x y).

Definition cu_str_init_str_char str x ch : M unit :=
  X ← str_get x;
  let n := wadd (len X) 1 in
  c ← grab_enough x n;
  a ← (match c with
       | None => a ← cu_galloc n; str_put str (mk_str a n n);; memcpy a (arr X) (wsub n 1);; mret a
       | Some c => str_put str (mk_str (arr X) n c);; mret (arr X)
       end);
  write (at_off a (wsub n 1)) [ch].
Definition cu_str_new_str_char x ch : M N := new (fun str => cu_str_init_str_char str x ch).

(** Objects with a dynamic type differ in their header, which is not modelled. *)
Definition cu_str_onew : M N := new cu_str_init.
Definition cu_str_onew_charr ptr : M N := new (fun str => cu_str_init_charr str ptr).
Definition cu_str_onew_cstr cstr : M N := cu_str_onew_charr cstr.
Definition cu_str_onew_uninit (n : Z) : M N := new (fun str => cu_str_init_uninit str n).
Definition cu_str_onew_copy src : M N := cu_str_new_copy src.
Definition cu_str_onew_2str x y : M N := new (fun str => cu_str_init_2str str x y).
Definition cu_str_onew_2charr (s0 s1 : list Z) : M N := new (fun str => cu_str_init_2charr str s0 s1).
Definition cu_str_onew_3charr (s0 s1 s2 : list Z) : M N := new (fun str => cu_str_init_3charr str s0 s1 s2).
Definition cu_str_onew_str_cstr x (y : list Z) : M N := new (fun str => cu_str_init_str_cstr str x y).
Definition cu_str_onew_cstr_str (x : list Z) y : M N := new (fun str => cu_str_init_cstr_str str x y).
Definition cu_str_onew_2cstr (x y : list Z) : M N := cu_str_onew_2charr x y.
Definition cu_str_onew_str_char x ch : M N := new (fun str => cu_str_init_str_char str x ch).

(** ** Observers *)

Definition cu_str_is_empty str : M bool := S ← str_get str; mret (len S =? 0).
Definition cu_str_size str : M Z := S ← str_get str; mret (len S).
Definition cu_str_at str (i : Z) : M Z :=
  S ← str_get str; u ← read (at_off (arr S) i) 1; mret (default 0 (head u)).

(** ** Substrings *)

Definition cu_str_substr x (pos n : Z) : M N :=
  new (fun str =>
    X ← str_get x;
    check (wadd pos n <=? len X);;
    str_put str (mk_str (at_off (arr X) pos) n 0);;
    SHARING x).
Definition cu_str_suffix x (pos : Z) : M N :=
  new (fun str =>
    X ← str_get x;
    check (pos <=? len X);;
    str_put str (mk_str (at_off (arr X) pos) (wsub (len X) pos) 0);;
    SHARING x).
Definition cu_str_assign_substr x (pos n : Z) : M unit :=
  X ← str_get x; str_put x (mk_str (at_off (arr X) pos) n (wsub (cap X) pos)).

(** ** Changes of a string *)

(** A new array for [dest] with [c] bytes. *)
Definition move_to dest (c : Z) : M unit :=
  D ← str_get dest;
  a ← cu_galloc c;
  str_put dest (mk_str a (len D) c);;
  memcpy a (arr D) (len D).

Definition cu_str_append_str x y : M unit :=
  X ← str_get x; Y ← str_get y;
  let newsz := wadd (len X) (len Y) in
  (if cap X <? newsz then move_to x (if newsz <? wmul64 (cap X) 2 then wmul64 (cap X) 2 else newsz) else mret tt);;
  X ← str_get x; Y ← str_get y;
  memcpy (at_off (arr X) (len X)) (arr Y) (len Y);;
  str_put x (mk_str (arr X) newsz (cap X)).

Definition cu_str_append_char dest ch : M unit :=
  D ← str_get dest;
  (if cap D <=? len D then move_to dest (wadd (wmul64 2 (len D)) 4) else mret tt);;
  D ← str_get dest;
  write (at_off (arr D) (len D)) [ch];;
  str_put dest (mk_str (arr D) (wadd (len D) 1) (cap D)).

Definition cu_str_append_charr dest cstr : M unit :=
  D ← str_get dest;
  let newlen := wadd (len D) (Z.of_nat (length cstr)) in
  (if cap D <? newlen then
     let c := wmul64 (cap D) 2 in
     move_to dest (if c <? newlen then newlen else c)
   else mret tt);;
  D ← str_get dest;
  write (at_off (arr D) (len D)) cstr;;
  str_put dest (mk_str (arr D) newlen (cap D)).
Definition cu_str_append_cstr dest cstr : M unit := cu_str_append_charr dest cstr.

Definition cu_str_unappend str (char_count : Z) : M unit :=
  S ← str_get str;
  check (negb (len S <? char_count));;
  str_put str (mk_str (arr S) (wsub (len S) char_count) (cap S)).

Definition cu_str_insert_substr dst src (pos : Z) : M unit :=
  D ← str_get dst; S ← str_get src;
  check (pos <? len D);;
  (if (cap D =? 0) || (cap D <? wadd (len S) (len D))
   then cu_str_set_capacity dst (wadd (wadd (len S) (len D)) 1) else mret tt);;
  D ← str_get dst; S ← str_get src;
  let s := at_off (arr D) pos in
  memmove (at_off s (len S)) s (wsub (len D) pos);;
  memcpy s (arr S) (len S);;
  str_put dst (mk_str (arr D) (wadd (len D) (len S)) (cap D)).

Definition cu_str_erase_substr dst (pos n : Z) : M unit :=
  D ← str_get dst;
  let endpos := wadd pos n in
  (if cap D =? 0 then cu_str_set_capacity dst (wadd (wsub (len D) n) 1) else mret tt);;
  check (wadd pos n <=? len D);;
  D ← str_get dst;
  memmove (at_off (arr D) pos) (at_off (arr D) endpos) (wsub (len D) endpos);;
  str_put dst (mk_str (arr D) (wsub (len D) n) (cap D)).

(** The array of a C string: the array of [src] if a terminator can be put behind its bytes. *)
Definition cu_str_to_cstr src : M ptr :=
  S ← str_get src;
  c ← (if len S <? cap S then cu_str_grab_cap src else mret 0);
  if negb (c =? 0) then
    write (at_off (arr S) (len S)) [0];;
    S ← str_get src; str_put src (with_cap S 0);;
    mret (arr S)
  else
    a ← cu_galloc (wadd (len S) 1);
    memcpy a (arr S) (len S);;
    write (at_off a (len S)) [0];;
    mret a.

(** ** Comparison *)

Definition cu_str_bytes str : M (list Z) := S ← str_get str; read (arr S) (len S).

(** [strncmp] and [memcmp] of arrays of the same length: only the sign of the answer is specified. *)
Fixpoint strncmp (u v : list Z) : Z :=
  match u, v with
  | a :: u, b :: v => if a =? b then if a =? 0 then 0 else strncmp u v else if a <? b then -1 else 1
  | _, _ => 0
  end.
Fixpoint memcmp (u v : list Z) : Z :=
  match u, v with
  | a :: u, b :: v => if a =? b then memcmp u v else if a <? b then -1 else 1
  | _, _ => 0
  end.

Definition cu_str_cmp x y : M Z :=
  X ← str_get x; Y ← str_get y;
  let n := Z.min (len X) (len Y) in
  u ← read (arr X) n; v ← read (arr Y) n;
  let i := strncmp u v in
  mret (if len X =? len Y then i
        else if len X <? len Y then if i =? 0 then -1 else i
        else if i =? 0 then 1 else i).

Definition cu_str_cmp_charr x (y : list Z) : M Z :=
  X ← str_get x;
  let y_size := Z.of_nat (length y) in
  if len X <? y_size then mret (-1)
  else if y_size <? len X then mret 1
  else u ← read (arr X) (len X); mret (memcmp u y).
Definition cu_str_cmp_cstr x (y : list Z) : M Z := cu_str_cmp_charr x y.

Definition cu_str_eq x y : M bool :=
  X ← str_get x; Y ← str_get y;
  if negb (len X =? len Y) then mret false
  else u ← read (arr X) (len X); v ← read (arr Y) (len X); mret (memcmp u v =? 0).

(** A [char] is signed. *)
Definition schar (b : Z) : Z := if b <? 128 then b else b - 256.
Definition PRIME0 : Z := 10000019.
Definition PRIME2 : Z := 10000103.
Definition cu_str_hash x : M Z :=
  u ← cu_str_bytes x; mret (fold_left (fun h b => wadd (wmul64 h PRIME2) (wrap (schar b))) u PRIME0).

(** ** Search *)

Definition cu_str_index_none : Z := 2 ^ 64 - 1.

(** The first of the bytes from [i] on that is [ch]. *)
Fixpoint chr_from (i : Z) (u : list Z) ch : Z :=
  match u with
  | [] => cu_str_index_none
  | b :: u => if b =? ch then i else chr_from (i + 1) u ch
  end.
(** The loop downwards goes over the bytes in reverse, with [i] the end. *)
Fixpoint rchr_from (i : Z) (u : list Z) ch : Z :=
  match u with
  | [] => cu_str_index_none
  | b :: u => if b =? ch then i - 1 else rchr_from (i - 1) u ch
  end.

Definition cu_str_chr str ch : M Z := u ← cu_str_bytes str; mret (chr_from 0 u ch).
Definition cu_str_rchr str ch : M Z := u ← cu_str_bytes str; mret (rchr_from (Z.of_nat (length u)) (rev u) ch).
Definition cu_str_chr_in_substr str (pos n : Z) ch : M Z :=
  S ← str_get str;
  let e := wadd pos n in
  check ((pos <=? e) && (e <=? len S));;
  u ← read (at_off (arr S) pos) n; mret (chr_from pos u ch).
Definition cu_str_rchr_in_substr str (pos n : Z) ch : M Z :=
  S ← str_get str;
  let e := wadd pos n in
  check ((pos <=? e) && (e <=? len S));;
  u ← read (at_off (arr S) pos) n; mret (rchr_from e (rev u) ch).

Definition cu_str_subeq_charr str (pos : Z) (a : list Z) : M bool :=
  S ← str_get str;
  let n := Z.of_nat (length a) in
  if len S <? wadd pos n then mret false
  else u ← read (at_off (arr S) pos) n; mret (strncmp u a =? 0).
Definition cu_str_subeq str (pos : Z) (substr : N) : M bool := a ← cu_str_bytes substr; cu_str_subeq_charr str pos a.
Definition cu_str_subeq_cstr str (pos : Z) cstr : M bool := cu_str_subeq_charr str pos cstr.

(** ** Spaces, quotes *)

(** In the locale "C". *)
Definition isspace (b : Z) : bool := (b =? 32) || (9 <=? b) && (b <=? 13).

(** The number of spaces at the start. *)
Fixpoint spaces (p : Z -> bool) (u : list Z) : nat :=
  match u with b :: u => if p b then S (spaces p u) else 0 | [] => 0 end.

(** The length is an [int] in between: at most [2 ^ 31 - 1]. *)
Definition cu_str_chop_space str : M unit :=
  S ← str_get str;
  check (len S <? 2 ^ 31);;
  u ← read (arr S) (len S);
  let s := spaces isspace u in
  let u := drop s u in
  let n := (length u - spaces isspace (rev u))%nat in
  str_put str (mk_str (padd (arr S) s) (Z.of_nat n) (wsub (cap S) (wsub (len S) (Z.of_nat n)))).

(** The next word from position [pos + n] on: its position and length. *)
Definition cu_str_next_space_delimited str (pos n : Z) : M (option (Z * Z)) :=
  S ← str_get str;
  u ← read (arr S) (len S);
  let start := wadd pos n in
  if len S <? start then mret (Some (start, 0))
  else
    let u := drop (Z.to_nat start) u in
    let k := spaces isspace u in
    let u := drop k u in
    mret (match u with
          | [] => None
          | _ => Some (start + Z.of_nat k, Z.of_nat (spaces (fun b => negb (isspace b)) u))
          end).

Definition quote_char (b : Z) : option (list Z) :=
  if b =? 10 then Some [92; 110] else if b =? 9 then Some [92; 116] else if b =? 11 then Some [92; 118]
  else if b =? 12 then Some [92; 102] else if b =? 8 then Some [92; 98] else if b =? 13 then Some [92; 114]
  else if b =? 92 then Some [92; 92] else if b =? 34 then Some [92; 34] else None.

Fixpoint quote_loop (res : N) (u : list Z) : M unit :=
  match u with
  | [] => mret tt
  | b :: u =>
      (match quote_char b with Some e => cu_str_append_charr res e | None => cu_str_append_char res b end);;
      quote_loop res u
  end.
Definition cu_str_quote str : M N :=
  res ← cu_str_new_charr [34];
  u ← cu_str_bytes str;
  quote_loop res u;;
  cu_str_append_char res 34;;
  mret res.

(** The loop of [cu_str_toupper] and [cu_str_tolower]: its condition does not depend on [i].  [f] is the
    conversion of a byte; [None] is an access outside an array, or the end of the fuel. *)
Fixpoint case_loop (f : Z -> Z) (newstr str : N) (fuel : nat) (i : Z) : M unit :=
  match fuel with
  | O => fail
  | S fuel =>
      T ← str_get newstr; S ← str_get str;
      if len T =? 0 then mret tt
      else
        u ← read (at_off (arr S) i) 1;
        write (at_off (arr T) i) (map f u);;
        case_loop f newstr str fuel (i + 1)
  end.
Definition cu_str_map_case (f : Z -> Z) (fuel : nat) str : M N :=
  S ← str_get str;
  newstr ← cu_str_new_uninit (len S);
  case_loop f newstr str fuel 0;;
  mret newstr.
(** In the locale "C". *)
Definition toupper (b : Z) : Z := if (97 <=? b) && (b <=? 122) then b - 32 else b.
Definition tolower (b : Z) : Z := if (65 <=? b) && (b <=? 90) then b + 32 else b.
Definition cu_str_toupper : nat -> N -> M N := cu_str_map_case toupper.
Definition cu_str_tolower : nat -> N -> M N := cu_str_map_case tolower.
End str.
