(* ===== verification/StrOps.v ===== *)
(** * Strings: values and ownership

    [good] is the invariant of sharing: the bytes that an object owns, behind its own, are in no
    other string.  [rep h V] says that the state is good and that the objects have the values [V]; an operation
    that changes one string changes one value. *)

From S2P Require Export Str.

(** ** Bytes in blocks *)

Lemma bytes_at_some m p n l : m !! blk p = Some l -> (off p + n <= length l)%nat -> bytes_at m p n = Some (take n (drop (off p) l)).
Proof. intros E Hl. unfold bytes_at. destruct (decide (n = 0%nat)) as [->|]; [done|]. rewrite E. cbn. by rewrite decide_True. Qed.

Lemma bytes_at_0 m p : bytes_at m p 0 = Some [].
Proof. done. Qed.

Lemma bytes_at_length m p n u : bytes_at m p n = Some u -> length u = n.
Proof.
  unfold bytes_at. destruct (decide (n = 0%nat)) as [->|]; [by intros [= <-]|].
  destruct (m !! blk p) as [l|]; [|done]. cbn. case_decide; [|done]. intros [= <-]. rewrite length_take, length_drop. lia.
Qed.

(** A byte is read at a position inside the block. *)
Definition byte_at (m : mem) (b : N) (i : nat) : option Z := m !! b ≫= (.!! i).

Lemma bytes_at_lookup m p n u i : bytes_at m p n = Some u -> (i < n)%nat -> byte_at m (blk p) (off p + i) = u !! i.
Proof.
  unfold bytes_at, byte_at. destruct (decide (n = 0%nat)) as [->|]; [lia|].
  destruct (m !! blk p) as [l|]; [|done]. cbn. case_decide; [|done]. intros [= <-] Hi.
  by rewrite lookup_take_lt, lookup_drop by done.
Qed.

Lemma bytes_at_intro m p n u : length u = n -> (forall i, (i < n)%nat -> byte_at m (blk p) (off p + i) = u !! i) ->
  bytes_at m p n = Some u.
Proof.
  intros Hl Hi. unfold bytes_at. destruct (decide (n = 0%nat)) as [->|Hn]; [by destruct u|].
  destruct (m !! blk p) as [l|] eqn:E.
  - cbn. assert (off p + n <= length l)%nat as Ho.
    { destruct (lookup_lt_is_Some_2 u (n - 1)) as [x Hx]; [lia|]. pose proof (Hi (n - 1)%nat ltac:(lia)) as Hb.
      unfold byte_at in Hb. rewrite E, Hx in Hb. cbn in Hb. apply lookup_lt_Some in Hb. lia. }
    rewrite decide_True by done. f_equal. apply list_eq. intros i. destruct (decide (i < n)%nat).
    + rewrite lookup_take_lt, lookup_drop by done. rewrite <- Hi by done. unfold byte_at. by rewrite E.
    + rewrite !lookup_ge_None_2; [done|lia|rewrite length_take; lia].
  - destruct (lookup_lt_is_Some_2 u 0) as [x Hx]; [lia|]. specialize (Hi 0%nat ltac:(lia)). unfold byte_at in Hi.
    by rewrite E, Hx in Hi.
Qed.

(** Which block has which length. *)
Definition same_sizes (m m' : mem) : Prop := forall b, length <$> m !! b = length <$> m' !! b.

Lemma write_at_spec m p ws l : m !! blk p = Some l -> (off p + length ws <= length l)%nat ->
  exists m', write_at m p ws = Some m' /\ same_sizes m m' /\
    (forall i, (i < length ws)%nat -> byte_at m' (blk p) (off p + i) = ws !! i) /\
    (forall b i, b <> blk p \/ (i < off p)%nat \/ (off p + length ws <= i)%nat -> byte_at m' b i = byte_at m b i).
Proof.
  intros E Hl. unfold write_at. destruct (decide (ws = [])) as [->|Hne].
  { exists m. split; [done|]. split; [done|]. split; [cbn; lia|done]. }
  rewrite E. cbn. rewrite decide_True by done. eexists. split; [done|]. split_and!.
  - intros b. destruct (decide (b = blk p)) as [->|]; [|by rewrite lookup_insert_ne].
    rewrite lookup_insert_eq, E. cbn. by rewrite length_inserts.
  - intros i Hi. unfold byte_at. rewrite lookup_insert_eq. cbn. rewrite list_lookup_inserts by lia. f_equal. lia.
  - intros b i Hb. unfold byte_at. destruct (decide (b = blk p)) as [->|]; [|by rewrite lookup_insert_ne].
    rewrite lookup_insert_eq, E. cbn. destruct Hb as [?|[?|?]]; [done| |].
    + by rewrite list_lookup_inserts_lt.
    + by rewrite list_lookup_inserts_ge.
Qed.

(** ** Runs *)

Definition runs {A} (h : heap) (m : M A) (Q : A -> heap -> Prop) : Prop := exists a h', m h = Some (a, h') /\ Q a h'.

Lemma runs_mret {A} h (a : A) (Q : A -> heap -> Prop) : Q a h -> runs h (mret a) Q.
Proof. intros H. by exists a, h. Qed.
Lemma runs_bind {A B} h (m : M A) (k : A -> M B) (Q : B -> heap -> Prop) :
  runs h m (fun a h' => runs h' (k a) Q) -> runs h (m ≫= k) Q.
Proof. intros (a & h' & E & b & h'' & E' & H). exists b, h''. split; [|done]. unfold mbind, M_bind. by rewrite E. Qed.
Lemma runs_mono {A} h (m : M A) (Q Q' : A -> heap -> Prop) : runs h m Q -> (forall a h', Q a h' -> Q' a h') -> runs h m Q'.
Proof. intros (a & h' & E & H) HQ. exists a, h'. auto. Qed.
Lemma runs_get h s S (Q : cu_str -> heap -> Prop) : strs h !! s = Some S -> Q S h -> runs h (str_get s) Q.
Proof. intros E H. exists S, h. unfold str_get. by rewrite E. Qed.
Lemma runs_put h s S (Q : unit -> heap -> Prop) : Q tt (mk_heap (blocks h) (<[s := S]> (strs h))) -> runs h (str_put s S) Q.
Proof. intros H. by eexists _, _. Qed.
Lemma runs_check h b (Q : unit -> heap -> Prop) : b = true -> Q tt h -> runs h (check b) Q.
Proof. intros -> H. by exists tt, h. Qed.

(** ** Ownership *)

Definition slen (X : cu_str) : nat := Z.to_nat (len X).
Definition scap (X : cu_str) : nat := Z.to_nat (cap X).

(** The addresses that [X] may write to, and those that it may read or write. *)
Definition own (X : cu_str) (b : N) (i : nat) : Prop := b = blk (arr X) /\ (off (arr X) + slen X <= i < off (arr X) + scap X)%nat.
Definition ext (X : cu_str) (b : N) (i : nat) : Prop := b = blk (arr X) /\ (off (arr X) <= i < off (arr X) + Nat.max (slen X) (scap X))%nat.
Definition sep (X Y : cu_str) : Prop := forall b i, own X b i -> ~ ext Y b i.

(** The length that keeps the sizes of arrays in range. *)
Definition limit : Z := 2 ^ 61.

Record str_ok (m : mem) (X : cu_str) : Prop := {
  ok_len : 0 <= len X < limit;
  ok_cap : 0 <= cap X <= 2 * limit + 4;
  ok_byte b i : ext X b i -> is_Some (byte_at m b i);
}.

(** A C string that was handed out: its bytes are not owned by any string. *)
Definition held (h : heap) (p : ptr) (w : list Z) : Prop :=
  bytes_at (blocks h) p (length w) = Some w /\
  forall i s X, (i < length w)%nat -> strs h !! s = Some X -> ~ own X (blk p) (off p + i).

Record good (h : heap) : Prop := {
  good_ok s X : strs h !! s = Some X -> str_ok (blocks h) X;
  good_sep s t X Y : s <> t -> strs h !! s = Some X -> strs h !! t = Some Y -> sep X Y;
}.

Definition sbytes (m : mem) (X : cu_str) : list Z := default [] (bytes_at m (arr X) (slen X)).
Definition values (h : heap) : gmap N (list Z) := sbytes (blocks h) <$> strs h.

Record rep (h : heap) (V : gmap N (list Z)) (P : list (ptr * list Z)) : Prop := {
  rep_good : good h;
  rep_values : values h = V;
  rep_held p w : (p, w) ∈ P -> held h p w;
}.

Lemma bytes_at_total m p n : (forall i, (i < n)%nat -> is_Some (byte_at m (blk p) (off p + i))) -> exists u, bytes_at m p n = Some u.
Proof.
  intros H. assert (forall k, (k <= n)%nat -> exists u, bytes_at m p k = Some u) as Hk; [|by apply Hk].
  induction k as [|k IH]; intros Hk; [by exists []|]. destruct IH as [u Hu]; [lia|]. destruct (H k) as [x Hx]; [lia|].
  pose proof (bytes_at_length _ _ _ _ Hu). exists (u ++ [x]). apply bytes_at_intro; [rewrite length_app; cbn; lia|].
  intros i Hi. destruct (decide (i < k)%nat).
  - rewrite lookup_app_l by lia. by eapply bytes_at_lookup.
  - rewrite lookup_app_r by lia. assert (i = k) as -> by lia. replace (k - length u)%nat with 0%nat by lia. done.
Qed.

Lemma str_ok_bytes m X : str_ok m X -> bytes_at m (arr X) (slen X) = Some (sbytes m X).
Proof.
  intros [_ _ H]. destruct (bytes_at_total m (arr X) (slen X)) as [u Hu]; [|unfold sbytes; by rewrite Hu].
  intros i Hi. apply H. split; [done|lia].
Qed.
Lemma sbytes_length m X : str_ok m X -> length (sbytes m X) = slen X.
Proof. intros H. by eapply bytes_at_length, str_ok_bytes. Qed.
Lemma sbytes_eq m X u : bytes_at m (arr X) (slen X) = Some u -> sbytes m X = u.
Proof. unfold sbytes. by intros ->. Qed.

Lemma bytes_at_same m m' p n u : bytes_at m p n = Some u ->
  (forall i, (i < n)%nat -> byte_at m' (blk p) (off p + i) = byte_at m (blk p) (off p + i)) -> bytes_at m' p n = Some u.
Proof.
  intros Hu H. apply bytes_at_intro; [by eapply bytes_at_length|]. intros i Hi. rewrite H by done. by eapply bytes_at_lookup.
Qed.

(** The address is not in use. *)
Definition unused (h : heap) (b : N) (i : nat) : Prop := byte_at (blocks h) b i = None.

Lemma own_relaxed X b i : ~ own (with_cap X 0) b i.
Proof. intros [_ ?]. unfold slen, scap in *. cbn in *. lia. Qed.
Lemma ext_relaxed X b i : ext (with_cap X 0) b i -> ext X b i.
Proof. intros [? ?]. split; [done|]. unfold slen, scap in *. cbn in *. lia. Qed.
Lemma own_ext X b i : own X b i -> ext X b i.
Proof. intros [? ?]. split; [done|lia]. Qed.

(** An operation gives up the capacity of [X], the string [x], writes to the bytes it owned and to new ones, and
    makes them part of the string [d]. *)
Section good_step.
Context (h : heap) (m' : mem) (d x : N) (X D : cu_str).
Hypothesis Hgood : good h.
Hypothesis Ex : strs h !! x = Some X.
Hypothesis Hgrow : forall b i, is_Some (byte_at (blocks h) b i) -> is_Some (byte_at m' b i).
Hypothesis Hkeep : forall b i v, byte_at (blocks h) b i = Some v -> ~ own X b i -> byte_at m' b i = Some v.
Hypothesis HD : str_ok m' D.
Hypothesis Hown : forall b i, own D b i -> unused h b i \/ own X b i.
Hypothesis Hext : forall b i, ext D b i -> unused h b i \/ ext X b i.

Let relaxed := <[x := with_cap X 0]> (strs h).

(** A string without the capacity of [x]. *)
Lemma relaxed_ok t T : relaxed !! t = Some T ->
  str_ok (blocks h) T /\ (forall b i, own X b i -> ~ ext T b i) /\ (forall b i, own T b i -> ~ ext X b i).
Proof.
  destruct Hgood as [Hok Hsep]. intros Et. unfold relaxed in Et. destruct (decide (t = x)) as [->|Htx].
  - rewrite lookup_insert_eq in Et. injection Et as <-. pose proof (Hok _ _ Ex) as [Hl Hc Hb]. split_and!.
    + split; [done|cbn; unfold limit; lia|]. intros b i Hi. by apply Hb, ext_relaxed.
    + intros b i [-> ?] [_ ?]. unfold slen, scap in *. cbn in *. lia.
    + intros b i Ho. by apply own_relaxed in Ho.
  - rewrite lookup_insert_ne in Et by done. split; [by eapply Hok|]. split; [exact (Hsep x t X T (not_eq_sym Htx) Ex Et)|].
    exact (Hsep t x T X Htx Et Ex).
Qed.

Lemma relaxed_sep s t S T : s <> t -> relaxed !! s = Some S -> relaxed !! t = Some T -> sep S T.
Proof.
  intros Hst Es Et b i Ho. destruct (relaxed_ok s S Es) as (_ & _ & Hx). unfold relaxed in Es, Et. destruct (decide (s = x)) as [->|Hsx].
  { rewrite lookup_insert_eq in Es. injection Es as <-. by apply own_relaxed in Ho. }
  rewrite lookup_insert_ne in Es by done. destruct (decide (t = x)) as [->|Htx].
  - rewrite lookup_insert_eq in Et. injection Et as <-. intros He%ext_relaxed. by eapply Hx.
  - rewrite lookup_insert_ne in Et by done. by apply (good_sep h Hgood s t S T).
Qed.

Lemma relaxed_kept t T : relaxed !! t = Some T -> str_ok m' T /\ sbytes m' T = sbytes (blocks h) T.
Proof.
  intros Et. destruct (relaxed_ok t T Et) as ([Hl Hc Hb] & Ho & _). split; [split; eauto|].
  pose proof (str_ok_bytes (blocks h) T ltac:(by split)) as Hu. apply sbytes_eq. eapply bytes_at_same; [done|]. intros i Hi.
  assert (ext T (blk (arr T)) (off (arr T) + i)) as He by (split; [done|lia]). destruct (Hb _ _ He) as [v Ev]. rewrite Ev.
  apply Hkeep; [done|]. intros Hox. by eapply Ho.
Qed.

Lemma unused_ext T b i : str_ok (blocks h) T -> ext T b i -> ~ unused h b i.
Proof. intros [_ _ Hb] He Hu. destruct (Hb _ _ He) as [v Ev]. unfold unused in Hu. congruence. Qed.

Lemma step_good : good (mk_heap m' (<[d := D]> relaxed)).
Proof.
  split; cbn [blocks strs].
  - intros t T [[-> <-]|[_ Et]]%lookup_insert_Some; [done|]. by apply (relaxed_kept t).
  - intros s t S T Hst [[-> <-]|[Hsd Es]]%lookup_insert_Some [[-> <-]|[Htd Et]]%lookup_insert_Some; [done|..|exact (relaxed_sep s t S T Hst Es Et)].
    + destruct (relaxed_ok t T Et) as (Hok & Ho & _). intros b i [Hu|Ho']%Hown He; [by eapply unused_ext|by eapply Ho].
    + destruct (relaxed_ok s S Es) as (Hok & _ & Hx). intros b i Ho [Hu|He]%Hext; [|by eapply Hx].
      by apply (unused_ext S b i Hok (own_ext S b i Ho)).
Qed.

Lemma step_values : values (mk_heap m' (<[d := D]> relaxed)) = <[d := sbytes m' D]> (values h).
Proof.
  unfold values. cbn [blocks strs]. rewrite fmap_insert. f_equal. apply map_eq. intros t. rewrite !lookup_fmap.
  destruct (relaxed !! t) as [T|] eqn:Et.
  - cbn. rewrite (proj2 (relaxed_kept t T Et)). unfold relaxed in Et. destruct (decide (t = x)) as [->|Htx].
    + rewrite lookup_insert_eq in Et. injection Et as <-. by rewrite Ex.
    + rewrite lookup_insert_ne in Et by done. by rewrite Et.
  - unfold relaxed in Et. destruct (decide (t = x)) as [->|Htx]; [by rewrite lookup_insert_eq in Et|].
    rewrite lookup_insert_ne in Et by done. by rewrite Et.
Qed.

Lemma step_held p w : held h p w -> held (mk_heap m' (<[d := D]> relaxed)) p w.
Proof.
  intros [Hb Hno]. assert (forall i, (i < length w)%nat -> is_Some (byte_at (blocks h) (blk p) (off p + i))) as Hs.
  { intros i Hi. rewrite (bytes_at_lookup _ _ _ _ _ Hb Hi). by apply lookup_lt_is_Some. }
  split; cbn [blocks strs].
  - eapply bytes_at_same; [done|]. intros i Hi. destruct (Hs i Hi) as [v Ev]. rewrite Ev. apply Hkeep; [done|]. by apply (Hno i x).
  - intros i s S Hi [[-> <-]|[Hsd Es]]%lookup_insert_Some Ho.
    + apply Hown in Ho as [Hu|Ho]; [|by apply (Hno i x X)]. destruct (Hs i Hi) as [v Ev]. unfold unused in Hu. congruence.
    + apply lookup_insert_Some in Es as [[-> <-]|[_ Es]]; [by apply own_relaxed in Ho|by apply (Hno i s S)].
Qed.

End good_step.

Lemma good_step h V P m' d x X D : rep h V P -> strs h !! x = Some X ->
  (forall b i, is_Some (byte_at (blocks h) b i) -> is_Some (byte_at m' b i)) ->
  (forall b i v, byte_at (blocks h) b i = Some v -> ~ own X b i -> byte_at m' b i = Some v) ->
  str_ok m' D ->
  (forall b i, own D b i -> unused h b i \/ own X b i) ->
  (forall b i, ext D b i -> unused h b i \/ ext X b i) ->
  rep (mk_heap m' (<[d := D]> (<[x := with_cap X 0]> (strs h)))) (<[d := sbytes m' D]> V) P.
Proof.
  intros [Hg <- HP] Ex Hgrow Hkeep HD Hown Hext. split; [by apply step_good|by apply step_values|].
  intros p w Hp. by apply step_held, HP.
Qed.

(** The value of an object, and its fields. *)
Lemma rep_lookup h V P x u : rep h V P -> V !! x = Some u -> exists X, strs h !! x = Some X /\
  bytes_at (blocks h) (arr X) (length u) = Some u /\ len X = Z.of_nat (length u) /\ str_ok (blocks h) X.
Proof.
  intros [[Hok _] <- _] Hx. unfold values in Hx. rewrite lookup_fmap in Hx. destruct (strs h !! x) as [X|] eqn:E; [|done].
  injection Hx as <-. exists X. pose proof (Hok x X E) as H. rewrite (sbytes_length (blocks h)) by done. split_and!; try done; [by apply str_ok_bytes|].
  destruct H as [? _ _]. unfold slen. lia.
Qed.

Lemma rep_dom h V P : rep h V P -> dom V = dom (strs h).
Proof. intros [_ <- _]. apply dom_fmap_L. Qed.

(** ** Memory operations *)

Definition written (m m' : mem) (p : ptr) (ws : list Z) : Prop :=
  (forall i, (i < length ws)%nat -> byte_at m' (blk p) (off p + i) = ws !! i) /\
  (forall b i, ~ (b = blk p /\ (off p <= i < off p + length ws)%nat) -> byte_at m' b i = byte_at m b i).

Lemma runs_write h p ws (Q : unit -> heap -> Prop) :
  (forall i, (i < length ws)%nat -> is_Some (byte_at (blocks h) (blk p) (off p + i))) ->
  (forall m', written (blocks h) m' p ws -> Q tt (mk_heap m' (strs h))) -> runs h (write p ws) Q.
Proof.
  intros Hf HQ. assert (exists m', write_at (blocks h) p ws = Some m' /\ written (blocks h) m' p ws) as (m' & E & H).
  { destruct (decide (ws = [])) as [->|Hne].
    { exists (blocks h). unfold write_at. rewrite decide_True by done. split; [done|]. split; [cbn; lia|done]. }
    assert (length ws <> 0)%nat by (by destruct ws). destruct (Hf (length ws - 1)%nat ltac:(lia)) as [x Ex]. unfold byte_at in Ex.
    destruct (blocks h !! blk p) as [l|] eqn:El; [|done]. cbn in Ex. apply lookup_lt_Some in Ex.
    destruct (write_at_spec (blocks h) p ws l El ltac:(lia)) as (m' & E & _ & Hin & Hout). exists m'. split; [done|]. split; [done|].
    intros b i Hb. apply Hout. destruct (decide (b = blk p)); [|by left]. right. lia. }
  exists tt, (mk_heap m' (strs h)). unfold write. rewrite E. split; [done|]. by apply HQ.
Qed.

Lemma runs_read h p n u (Q : list Z -> heap -> Prop) : bytes_at (blocks h) p (Z.to_nat n) = Some u -> Q u h -> runs h (read p n) Q.
Proof. intros E H. exists u, h. unfold read. by rewrite E. Qed.

(** [memcpy] of bytes [u] to a place that they do not overlap. *)
Lemma runs_memcpy h p q n u (Q : unit -> heap -> Prop) : n = Z.of_nat (length u) -> bytes_at (blocks h) q (length u) = Some u ->
  (forall i j, (i < length u)%nat -> (j < length u)%nat -> blk p = blk q -> (off p + i <> off q + j)%nat) ->
  (forall i, (i < length u)%nat -> is_Some (byte_at (blocks h) (blk p) (off p + i))) ->
  (forall m', written (blocks h) m' p u -> Q tt (mk_heap m' (strs h))) -> runs h (memcpy p q n) Q.
Proof.
  intros -> Hu Hd Hf HQ. unfold memcpy. apply runs_bind, runs_check.
  - unfold apart. rewrite Nat2Z.id. destruct (N.eqb_spec (blk p) (blk q)) as [E|]; [|done]. cbn.
    destruct (Nat.leb_spec (off p + length u) (off q)); [done|]. destruct (Nat.leb_spec (off q + length u) (off p)); [done|].
    exfalso. destruct (decide (off p <= off q)%nat).
    + apply (Hd (off q - off p) 0)%nat; [lia|lia|done|lia].
    + apply (Hd 0 (off p - off q))%nat; [lia|lia|done|lia].
  - apply runs_bind. eapply runs_read; [by rewrite Nat2Z.id|]. by apply runs_write.
Qed.

(** [m] is [m0] and a new array with [c] bytes, [u] the first. *)
Record new_array (m0 m : mem) (a : ptr) (u : list Z) (c : nat) : Prop := {
  na_unused i : byte_at m0 (blk a) i = None;
  na_off : off a = 0%nat;
  na_bytes i : (i < length u)%nat -> byte_at m (blk a) i = u !! i;
  na_fits i : (i < c)%nat -> is_Some (byte_at m (blk a) i);
  na_old b i : b <> blk a -> byte_at m b i = byte_at m0 b i;
}.

Lemma runs_galloc junk h n (Q : ptr -> heap -> Prop) :
  (forall a m', new_array (blocks h) m' a [] (Z.to_nat n) -> Q a (mk_heap m' (strs h))) -> runs h (cu_galloc junk n) Q.
Proof.
  intros HQ. unfold runs, cu_galloc. cbv beta zeta. match goal with |- context [Ptr ?x 0] => assert (blocks h !! x = None) as Hb; [|set (b := x) in *; clearbody b] end.
  { apply not_elem_of_dom. intros Hb. pose proof (is_fresh ({[0%N]} ∪ dom (blocks h))) as Hf. set_solver. }
  eexists _, _. split; [done|]. apply HQ.
  split; cbn [blocks strs blk off].
  - intros i. unfold byte_at. by rewrite Hb.
  - done.
  - cbn. lia.
  - intros i Hi. unfold byte_at. rewrite lookup_insert_eq. cbn. apply lookup_lt_is_Some. rewrite length_map, length_seq. lia.
  - intros b' i Hne. unfold byte_at. by rewrite lookup_insert_ne.
Qed.

Lemma at_off_off a n : off a = 0%nat -> blk (at_off a n) = blk a /\ off (at_off a n) = Z.to_nat n.
Proof. unfold at_off, padd. cbn. intros ->. done. Qed.

Lemma new_array_write m0 m m' a u ws c k : new_array m0 m a u c -> blk k = blk a -> off k = length u -> written m m' k ws ->
  new_array m0 m' a (u ++ ws) c.
Proof.
  intros [Hu Ho Hb Hf Hold] Ek Eo [Hin Hout]. split; [done|done|..].
  - intros i Hi. rewrite length_app in Hi. destruct (decide (i < length u)%nat).
    + rewrite lookup_app_l, Hout by (done || lia). by apply Hb.
    + rewrite lookup_app_r by lia. rewrite <- Hin by lia. rewrite Ek, Eo. f_equal. lia.
  - intros i Hi. destruct (decide (off k <= i < off k + length ws)%nat) as [Hw|Hw].
    + destruct (lookup_lt_is_Some_2 ws (i - off k)) as [x Hx]; [lia|]. specialize (Hin (i - off k)%nat ltac:(lia)). rewrite Hx in Hin.
      exists x. rewrite <- Hin, Ek. f_equal. lia.
    + rewrite Hout by (intros [_ ?]; done). by apply Hf.
  - intros b i Hne. rewrite Hout by (intros [-> _]; done). by apply Hold.
Qed.

(** The bytes of another array are not changed. *)
Lemma new_array_old m0 m a u c p n w : new_array m0 m a u c -> bytes_at m0 p n = Some w -> bytes_at m p n = Some w.
Proof.
  intros H Hw. eapply bytes_at_same; [done|]. intros i Hi. apply (na_old _ _ _ _ _ H). intros E.
  pose proof (bytes_at_length _ _ _ _ Hw). pose proof (bytes_at_lookup _ _ _ _ _ Hw Hi) as Hb. rewrite E, (na_unused _ _ _ _ _ H) in Hb.
  symmetry in Hb. apply lookup_ge_None in Hb. lia.
Qed.

Lemma runs_write_new h m0 a u ws c k (Q : unit -> heap -> Prop) :
  new_array m0 (blocks h) a u c -> (length u + length ws <= c)%nat -> k = Z.of_nat (length u) ->
  (forall m', new_array m0 m' a (u ++ ws) c -> Q tt (mk_heap m' (strs h))) -> runs h (write (at_off a k) ws) Q.
Proof.
  intros Hn Hl -> HQ. destruct (at_off_off a (Z.of_nat (length u)) (na_off _ _ _ _ _ Hn)) as [Eb Eo]. rewrite Nat2Z.id in Eo. apply runs_write.
  - intros i Hi. rewrite Eb, Eo. apply (na_fits _ _ _ _ _ Hn). lia.
  - intros m' Hm'. apply HQ. by eapply new_array_write.
Qed.

Lemma runs_memcpy_new h m0 a u ws c k q n (Q : unit -> heap -> Prop) :
  new_array m0 (blocks h) a u c -> (length u + length ws <= c)%nat -> k = Z.of_nat (length u) ->
  n = Z.of_nat (length ws) -> bytes_at m0 q (length ws) = Some ws ->
  (forall m', new_array m0 m' a (u ++ ws) c -> Q tt (mk_heap m' (strs h))) -> runs h (memcpy (at_off a k) q n) Q.
Proof.
  intros Hn Hl -> -> Hq HQ. destruct (at_off_off a (Z.of_nat (length u)) (na_off _ _ _ _ _ Hn)) as [Eb Eo]. rewrite Nat2Z.id in Eo.
  eapply runs_memcpy; [done|by eapply new_array_old|..].
  - intros i j Hi Hj E. rewrite Eb in E. pose proof (bytes_at_lookup _ _ _ _ _ Hq Hj) as Hb. rewrite <- E, (na_unused _ _ _ _ _ Hn) in Hb.
    symmetry in Hb. apply lookup_ge_None in Hb. lia.
  - intros i Hi. rewrite Eb, Eo. apply (na_fits _ _ _ _ _ Hn). lia.
  - intros m' Hm'. apply HQ. by eapply new_array_write.
Qed.

Lemma at_off_0 a : at_off a 0 = a.
Proof. apply padd_0. Qed.

(** ** Steps *)

(** A string on a new array. *)
Lemma rep_new_array h V P m' d D a u l c : rep h V P -> strs h !! d = Some D ->
  new_array (blocks h) m' a u (Z.to_nat c) -> l = Z.of_nat (length u) -> l < limit -> l <= c <= 2 * limit + 4 ->
  rep (mk_heap m' (<[d := mk_str a l c]> (strs h))) (<[d := u]> V) P.
Proof.
  intros Hr Ed Hn -> Hl Hc. pose proof (na_off _ _ _ _ _ Hn) as Ho.
  assert (bytes_at m' a (length u) = Some u) as Hu.
  { apply bytes_at_intro; [done|]. intros i Hi. rewrite Ho. by apply (na_bytes _ _ _ _ _ Hn). }
  pose proof (good_step h V P m' d d D (mk_str a (Z.of_nat (length u)) c) Hr Ed) as Hs. rewrite insert_insert_eq in Hs.
  rewrite (sbytes_eq m' _ u) in Hs by (unfold slen; cbn; by rewrite Nat2Z.id). apply Hs.
  - intros b i [v Ev]. rewrite (na_old _ _ _ _ _ Hn); [by exists v|]. intros ->. by rewrite (na_unused _ _ _ _ _ Hn) in Ev.
  - intros b i v Ev _. rewrite (na_old _ _ _ _ _ Hn); [done|]. intros ->. by rewrite (na_unused _ _ _ _ _ Hn) in Ev.
  - split; cbn; [lia|lia|]. intros b i [-> Hi]. unfold slen, scap in Hi. cbn in *. apply (na_fits _ _ _ _ _ Hn). lia.
  - intros b i [-> _]. left. apply (na_unused _ _ _ _ _ Hn).
  - intros b i [-> _]. left. apply (na_unused _ _ _ _ _ Hn).
Qed.

(** A string that takes over the array of [x] and writes behind it. *)
Lemma rep_in_place h V P m' d x X u ws l : rep h V P -> strs h !! x = Some X -> V !! x = Some u ->
  written (blocks h) m' (at_off (arr X) (len X)) ws -> l = Z.of_nat (length u + length ws) -> l <= cap X -> l < limit ->
  rep (mk_heap m' (<[d := mk_str (arr X) l (cap X)]> (<[x := with_cap X 0]> (strs h)))) (<[d := u ++ ws]> V) P.
Proof.
  intros Hr Ex Hx [Hin Hout] -> Hc Hl. destruct (rep_lookup h V P x u Hr Hx) as (X' & Ex' & Hu & Hlen & [Hk1 Hk2 Hk3]).
  rewrite Ex in Ex'. injection Ex' as <-. unfold at_off, padd in *. cbn in Hin, Hout. rewrite Hlen, Nat2Z.id in *.
  pose proof (bytes_at_length _ _ _ _ Hu) as Hul.
  assert (bytes_at m' (arr X) (length u + length ws) = Some (u ++ ws)) as Hb.
  { apply bytes_at_intro; [by rewrite length_app|]. intros i Hi. destruct (decide (i < length u)%nat).
    - rewrite lookup_app_l by done. rewrite Hout by lia. by eapply bytes_at_lookup.
    - rewrite lookup_app_r by lia. rewrite <- Hin by lia. f_equal. lia. }
  assert (forall b i, is_Some (byte_at (blocks h) b i) -> is_Some (byte_at m' b i)) as Hgrow.
  { intros b i Hs. destruct (decide (b = blk (arr X) /\ (off (arr X) + length u <= i < off (arr X) + length u + length ws)%nat)) as [[-> Hw]|Hw].
    - specialize (Hin (i - off (arr X) - length u)%nat ltac:(lia)). replace (off (arr X) + length u + (i - off (arr X) - length u))%nat with i in Hin by lia.
      rewrite Hin. apply lookup_lt_is_Some. lia.
    - by rewrite Hout. }
  pose proof (good_step h V P m' d x X (mk_str (arr X) (Z.of_nat (length u + length ws)) (cap X)) Hr Ex) as Hs.
  rewrite (sbytes_eq m' _ (u ++ ws)) in Hs by (unfold slen; cbn [arr len]; by rewrite Nat2Z.id). apply Hs.
  - done.
  - intros b i v Ev Hno. rewrite Hout; [done|]. intros [-> Hw]. apply Hno. split; [done|]. unfold slen, scap. lia.
  - split; cbn; [lia|lia|]. intros b i [-> Hi]. apply Hgrow, Hk3. split; [done|]. unfold slen, scap in *. cbn in *. lia.
  - intros b i [-> Hi]. right. split; [done|]. unfold slen, scap in *. cbn in *. lia.
  - intros b i [-> Hi]. right. split; [done|]. unfold slen, scap in *. cbn in *. lia.
Qed.
