(* ===== verification/StrProg.v ===== *)
(** * Strings: programs

    The specification of the operations on values: a program of constructors, assignments, substrings,
    concatenations and conversions to C strings computes the values that it computes without any sharing. *)

From S2P Require Export StrOps.

Section program.
Context (junk : N -> nat -> Z).

Implicit Types (h : heap) (V : gmap N (list Z)) (P : list (ptr * list Z)) (d x y : N) (u v w : list Z).

(** What an operation on the values gives. *)
Definition gives h (V' : gmap N (list Z)) P {A} (m : M A) : Prop := runs h m (fun _ h' => rep h' V' P).

(** ** New objects *)

Lemma rep_gnew h V P : rep h V P ->
  rep (mk_heap (blocks h) (<[fresh (dom (strs h)) := mk_str nullptr 0 0]> (strs h))) (<[fresh (dom V) := []]> V) P.
Proof.
  intros Hr. rewrite (rep_dom _ _ _ Hr). destruct Hr as [[Hok Hsep] <- HP]. set (s := fresh (dom (strs h))).
  assert (forall b i, own (mk_str nullptr 0 0) b i -> False) as Ho by (intros b i [_ ?]; unfold slen, scap in *; cbn in *; lia).
  assert (forall b i, ext (mk_str nullptr 0 0) b i -> False) as He by (intros b i [_ ?]; unfold slen, scap in *; cbn in *; lia).
  split; [split|..]; cbn [blocks strs].
  - intros t X [[-> <-]|[? Et]]%lookup_insert_Some; [|by eapply Hok]. split; [done|done|]. intros b i Hx. by destruct (He b i).
  - intros t t' X Y Ht [[-> <-]|[? Et]]%lookup_insert_Some [[-> <-]|[? Et']]%lookup_insert_Some b i Hx Hy; try done; eauto.
    by eapply (Hsep t t').
  - unfold values. cbn [blocks strs]. by rewrite fmap_insert.
  - intros p w Hp. destruct (HP p w Hp) as [Hb Hno]. split; [done|]. cbn [strs].
    intros i t X Hi [[-> <-]|[? Et]]%lookup_insert_Some Hx; eauto. by eapply Hno.
Qed.

(** The object that the constructors make is new: the others are as they were. *)
Lemma new_ok h V P u init : rep h V P ->
  (forall h1 D, rep h1 (<[fresh (dom V) := []]> V) P -> strs h1 !! fresh (dom V) = Some D ->
    gives h1 (<[fresh (dom V) := u]> (<[fresh (dom V) := []]> V)) P (init (fresh (dom V)))) ->
  runs h (new init) (fun s h' => s = fresh (dom V) /\ rep h' (<[fresh (dom V) := u]> V) P).
Proof.
  intros Hr Hi. pose proof (rep_gnew h V P Hr) as Hr1. unfold new. apply runs_bind. eexists _, _. split; [done|].
  rewrite <- (rep_dom _ _ _ Hr) in *. apply runs_bind. eapply runs_mono; [eapply Hi; [done|]; cbn; apply lookup_insert_eq|].
  cbn beta. intros _ h'. rewrite insert_insert_eq. intros Hr'. by apply runs_mret.
Qed.

Lemma wadd_limit a b : 0 <= a -> 0 <= b -> a + b <= 2 * limit + 4 -> wadd a b = a + b.
Proof. unfold limit. intros. unfold wadd. apply wrap_small. unfold word. lia. Qed.
Lemma wsub_limit a b : 0 <= b <= a -> a <= 2 * limit + 4 -> wsub a b = a - b.
Proof. unfold limit. intros. unfold wsub. apply wrap_small. unfold word. lia. Qed.
Lemma wmul64_limit a : 0 <= a <= 2 * limit + 4 -> wmul64 a 2 = 2 * a /\ wmul64 2 a = 2 * a.
Proof. unfold limit. intros. unfold wmul64. rewrite !wrap_small by (unfold word; lia). lia. Qed.

(** ** Strings on new arrays *)

(** Sums in range, the innermost first. *)
Ltac wsimpl := repeat match goal with
  | |- context [wadd ?a ?b] => lazymatch a with context [wadd _ _] => fail | _ => rewrite (wadd_limit a b) by lia end
  | |- context [wsub ?a ?b] => lazymatch a with context [wadd _ _] => fail | _ => rewrite (wsub_limit a b) by lia end
  end.
Ltac galloc a m Hn := apply runs_bind, runs_galloc; intros a m Hn; cbn [blocks strs].
Ltac put := apply runs_bind, runs_put; cbn [blocks strs].

Lemma init_charr_ok h V P d D u : rep h V P -> strs h !! d = Some D -> Z.of_nat (length u) < limit ->
  gives h (<[d := u]> V) P (cu_str_init_charr junk d u).
Proof.
  intros Hr Ed Hl. unfold cu_str_init_charr. wsimpl. galloc a m Hn. put.
  apply runs_bind. rewrite <- (at_off_0 a). eapply runs_write_new; [exact Hn|cbn; lia|done|]. intros m' Hn'. cbn [blocks strs app] in *.
  rewrite at_off_0. eapply runs_write_new; [exact Hn'|cbn; lia|done|]. intros m'' Hn''. cbn [blocks strs] in *.
  eapply rep_new_array; [done|done| |done|done|lia]. destruct Hn'' as [H1 H2 H3 H4 H5]. split; [done|done| |done|done].
  intros i Hi. rewrite H3 by (rewrite length_app; lia). by rewrite lookup_app_l.
Qed.

Lemma init_2charr_ok h V P d D u v : rep h V P -> strs h !! d = Some D -> Z.of_nat (length (u ++ v)) < limit ->
  gives h (<[d := u ++ v]> V) P (cu_str_init_2charr junk d u v).
Proof.
  intros Hr Ed Hl. pose proof (length_app u v) as Hlen. unfold cu_str_init_2charr. wsimpl.
  galloc a m Hn. put. apply runs_bind. rewrite <- (at_off_0 a). eapply runs_write_new; [exact Hn|cbn; lia|done|].
  intros m' Hn'. cbn [blocks strs app] in *. rewrite at_off_0. eapply runs_write_new; [exact Hn'|lia|done|]. intros m'' Hn''. cbn [blocks strs] in *.
  eapply rep_new_array; [done|done|exact Hn''|lia|lia|lia].
Qed.

Lemma init_3charr_ok h V P d D u v w : rep h V P -> strs h !! d = Some D -> Z.of_nat (length (u ++ v ++ w)) < limit ->
  gives h (<[d := u ++ v ++ w]> V) P (cu_str_init_3charr junk d u v w).
Proof.
  intros Hr Ed Hl. assert (length (u ++ v ++ w) = length u + length v + length w)%nat as Hlen by (rewrite !length_app; lia).
  unfold cu_str_init_3charr. wsimpl.
  galloc a m Hn. put. apply runs_bind. rewrite <- (at_off_0 a). eapply runs_write_new; [exact Hn|cbn; lia|done|].
  intros m1 Hn1. cbn [blocks strs app] in *. rewrite at_off_0. apply runs_bind. eapply runs_write_new; [exact Hn1|lia|done|]. intros m2 Hn2.
  cbn [blocks strs] in *. eapply runs_write_new; [exact Hn2|rewrite length_app; lia|rewrite length_app; lia|]. intros m3 Hn3. cbn [blocks strs] in *.
  rewrite <- app_assoc in Hn3. eapply rep_new_array; [done|done|exact Hn3|lia|lia|lia].
Qed.

Lemma init_cstr_str_ok h V P d D u y v : rep h V P -> strs h !! d = Some D -> V !! y = Some v ->
  Z.of_nat (length (u ++ v)) < limit -> gives h (<[d := u ++ v]> V) P (cu_str_init_cstr_str junk d u y).
Proof.
  intros Hr Ed Hy Hl. pose proof (length_app u v) as Hlen. destruct (rep_lookup h V P y v Hr Hy) as (Y & Ey & Hv & Hly & Hok).
  unfold cu_str_init_cstr_str. apply runs_bind. eapply runs_get; [done|]. rewrite Hly. wsimpl.
  galloc a m Hn. put. apply runs_bind. rewrite <- (at_off_0 a). eapply runs_write_new; [exact Hn|cbn; lia|done|].
  intros m1 Hn1. cbn [blocks strs app] in *. rewrite at_off_0. eapply (runs_memcpy_new _ _ _ u v); [exact Hn1|lia|done|done|done|]. intros m2 Hn2.
  cbn [blocks strs] in *. eapply rep_new_array; [done|done|exact Hn2|lia|lia|lia].
Qed.

(** ** Strings on shared arrays *)

(** [d] becomes the part of the array of [x] from [k] on. *)
Lemma rep_share h V P d x X u k n : rep h V P -> strs h !! x = Some X -> V !! x = Some u -> (k + n <= length u)%nat ->
  rep (mk_heap (blocks h) (<[d := mk_str (padd (arr X) k) (Z.of_nat n) 0]> (<[x := with_cap X 0]> (strs h))))
    (<[d := take n (drop k u)]> V) P.
Proof.
  intros Hr Ex Hx Hk. destruct (rep_lookup h V P x u Hr Hx) as (X' & Ex' & Hu & Hlen & [Hk1 Hk2 Hk3]).
  rewrite Ex in Ex'. injection Ex' as <-. set (S' := mk_str _ _ 0).
  assert (forall b i, ext S' b i -> ext X b i) as He.
  { intros b i [-> Hi]. split; [done|]. unfold S', slen, scap, padd in *. cbn in *. lia. }
  assert (sbytes (blocks h) S' = take n (drop k u)) as <-.
  { apply sbytes_eq. unfold S', slen, padd. cbn [arr len]. rewrite Nat2Z.id. apply bytes_at_intro; [rewrite length_take, length_drop; lia|].
    intros i Hi. cbn. rewrite lookup_take_lt, lookup_drop by done. rewrite <- (bytes_at_lookup _ _ _ _ _ Hu) by lia. f_equal. lia. }
  apply good_step; eauto.
  - split; cbn; [lia|unfold limit; lia|]. intros b i Hi. by apply Hk3, He.
  - intros b i [-> Hi]. unfold S', slen, scap in *. cbn in *. lia.
Qed.

Lemma init_copy_ok h V P d x u D : rep h V P -> V !! x = Some u -> strs h !! d = Some D -> d <> x ->
  gives h (<[d := u]> V) P
    (S ← str_get x; str_put x (with_cap S 0);; str_put d (mk_str (arr S) (len S) 0)).
Proof.
  intros Hr Hx Ed Hne. destruct (rep_lookup h V P x u Hr Hx) as (X & Ex & _ & Hlen & _).
  apply runs_bind. eapply runs_get; [done|]. put. apply runs_put. cbn [blocks strs].
  pose proof (rep_share h V P d x X u 0 (length u) Hr Ex Hx ltac:(lia)) as H. rewrite padd_0, drop_0, firstn_all in H. by rewrite Hlen.
Qed.

Lemma assign_ok h V P d x u : rep h V P -> V !! x = Some u -> gives h (<[d := u]> V) P (cu_str_assign d x).
Proof.
  intros Hr Hx. destruct (rep_lookup h V P x u Hr Hx) as (X & Ex & _ & Hlen & _). unfold cu_str_assign, SHARING.
  apply runs_bind. eapply runs_get; [done|]. put. apply runs_bind.
  pose proof (rep_share h V P d x X u 0 (length u) Hr Ex Hx ltac:(lia)) as H. rewrite padd_0, drop_0, firstn_all in H. rewrite <- Hlen in H.
  destruct (decide (d = x)) as [->|Hne].
  - eapply runs_get; [cbn; apply lookup_insert_eq|]. apply runs_put. cbn [blocks strs]. rewrite insert_insert_eq in H |- *. done.
  - eapply runs_get; [cbn; by rewrite lookup_insert_ne|]. apply runs_put. cbn [blocks strs]. by rewrite insert_insert_ne.
Qed.

Lemma sub_ok h V P d D x u k n l : rep h V P -> V !! x = Some u -> strs h !! d = Some D -> d <> x -> (k + n <= length u)%nat -> l = Z.of_nat n ->
  exists X, strs h !! x = Some X /\ len X = Z.of_nat (length u) /\
  gives h (<[d := take n (drop k u)]> V) P (str_put d (mk_str (at_off (arr X) (Z.of_nat k)) l 0);; SHARING x).
Proof.
  intros Hr Hx Ed Hne Hk ->. destruct (rep_lookup h V P x u Hr Hx) as (X & Ex & _ & Hlen & _). exists X. split; [done|]. split; [done|].
  put. unfold SHARING. apply runs_bind. eapply runs_get; [cbn; by rewrite lookup_insert_ne|]. apply runs_put. cbn [blocks strs].
  rewrite insert_insert_ne by done. unfold at_off. rewrite Nat2Z.id. by apply rep_share.
Qed.

(** ** Writing to the capacity *)

Lemma own_fits h V P x X u k i : rep h V P -> strs h !! x = Some X -> V !! x = Some u -> (k <= scap X - length u)%nat -> (i < k)%nat ->
  own X (blk (at_off (arr X) (len X))) (off (at_off (arr X) (len X)) + i) /\
  is_Some (byte_at (blocks h) (blk (at_off (arr X) (len X))) (off (at_off (arr X) (len X)) + i)).
Proof.
  intros Hr Ex Hx Hk Hi. destruct (rep_lookup h V P x u Hr Hx) as (X' & Ex' & _ & Hlen & [Hk1 Hk2 Hk3]). rewrite Ex in Ex'. injection Ex' as <-.
  assert (own X (blk (at_off (arr X) (len X))) (off (at_off (arr X) (len X)) + i)) as Ho.
  { unfold at_off, padd, own, slen. cbn. split; [done|]. lia. }
  split; [done|]. apply Hk3. destruct Ho as [? ?]. split; [done|lia].
Qed.

Lemma runs_write_own h V P hc x X u ws (Q : unit -> heap -> Prop) : rep h V P -> blocks hc = blocks h -> strs h !! x = Some X -> V !! x = Some u ->
  Z.of_nat (length u + length ws) <= cap X ->
  (forall m', written (blocks h) m' (at_off (arr X) (len X)) ws -> Q tt (mk_heap m' (strs hc))) ->
  runs hc (write (at_off (arr X) (len X)) ws) Q.
Proof.
  intros Hr Eb Ex Hx Hc HQ. apply runs_write; [|by rewrite Eb]. intros i Hi. rewrite Eb.
  apply (own_fits h V P x X u (length ws)); [done|done|done|unfold scap; lia|done].
Qed.

Lemma runs_memcpy_own h V P hc x X u y Y v (Q : unit -> heap -> Prop) : rep h V P -> blocks hc = blocks h -> strs h !! x = Some X -> V !! x = Some u ->
  strs h !! y = Some Y -> V !! y = Some v -> Z.of_nat (length u + length v) <= cap X ->
  (forall m', written (blocks h) m' (at_off (arr X) (len X)) v -> Q tt (mk_heap m' (strs hc))) ->
  runs hc (memcpy (at_off (arr X) (len X)) (arr Y) (len Y)) Q.
Proof.
  intros Hr Eb Ex Hx Ey Hy Hc HQ. destruct (rep_lookup h V P y v Hr Hy) as (Y' & Ey' & Hv & Hly & _). rewrite Ey in Ey'. injection Ey' as <-.
  assert (forall i, (i < length v)%nat -> own X (blk (at_off (arr X) (len X))) (off (at_off (arr X) (len X)) + i) /\
    is_Some (byte_at (blocks h) (blk (at_off (arr X) (len X))) (off (at_off (arr X) (len X)) + i))) as Hf.
  { intros i Hi. apply (own_fits h V P x X u (length v)); [done|done|done|unfold scap; lia|done]. }
  eapply runs_memcpy; [done|by rewrite Eb|..|by rewrite Eb].
  - intros i j Hi Hj E Heq. destruct (Hf i Hi) as [Ho _]. rewrite E, Heq in Ho.
    assert (ext Y (blk (arr Y)) (off (arr Y) + j)) as He by (split; [done|unfold slen; lia]).
    destruct (decide (x = y)) as [->|Hxy]; [|by eapply (good_sep h (rep_good _ _ _ Hr) x y)].
    rewrite Ex in Ey. injection Ey as <-. rewrite Hx in Hy. injection Hy as <-. destruct Ho as [_ Ho]. unfold slen in Ho. lia.
  - intros i Hi. rewrite Eb. by apply Hf.
Qed.

(** A new array for [x], with room for [c] bytes. *)
Lemma move_to_ok h V P x u c : rep h V P -> V !! x = Some u -> Z.of_nat (length u) <= c <= 2 * limit + 4 ->
  runs h (move_to junk x c) (fun _ h' => rep h' V P /\ exists X, strs h' !! x = Some X /\ cap X = c).
Proof.
  intros Hr Hx Hc. destruct (rep_lookup h V P x u Hr Hx) as (X & Ex & Hu & Hlen & [Hk1 Hk2 Hk3]). unfold move_to.
  apply runs_bind. eapply runs_get; [done|]. galloc a m Hn. put. rewrite <- (at_off_0 a) at 2. eapply (runs_memcpy_new _ _ _ [] u); [exact Hn|cbn; lia|done|done|done|].
  intros m' Hn'. cbn [blocks strs app] in *. rewrite Hlen. split; [|eexists; split; [apply lookup_insert_eq|done]].
  pose proof (rep_new_array h V P m' x X a u _ c Hr Ex Hn' eq_refl) as H. rewrite (insert_id V) in H by done. apply H; lia.
Qed.

(** Room for [n] more bytes, if it must be made. *)
Lemma room_ok h V P x u c k (b : bool) X : rep h V P -> V !! x = Some u -> strs h !! x = Some X -> Z.of_nat (length u) <= k ->
  (b = true -> k <= c <= 2 * limit + 4) -> (b = false -> k <= cap X) ->
  runs h (if b then move_to junk x c else mret tt) (fun _ h' => rep h' V P /\ exists X, strs h' !! x = Some X /\ k <= cap X).
Proof.
  intros Hr Hx Ex Hu Hc Hb. destruct b.
  - specialize (Hc eq_refl). eapply runs_mono; [apply (move_to_ok h V P x u c); [done|done|lia]|]. cbn beta. intros _ h' [Hr' (X' & Ex' & Ec)].
    split; [done|]. exists X'. split; [done|lia].
  - apply runs_mret. split; [done|]. exists X. auto.
Qed.

Lemma append_charr_ok h V P x u ws : rep h V P -> V !! x = Some u -> Z.of_nat (length (u ++ ws)) < limit ->
  gives h (<[x := u ++ ws]> V) P (cu_str_append_charr junk x ws).
Proof.
  intros Hr Hx Hl. pose proof (length_app u ws) as Hlen. destruct (rep_lookup h V P x u Hr Hx) as (X & Ex & _ & HlX & [_ Hk2 _]).
  unfold cu_str_append_charr. apply runs_bind. eapply runs_get; [done|]. rewrite HlX. destruct (wmul64_limit (cap X)) as [Em _]; [done|]. wsimpl. rewrite Em.
  apply runs_bind. eapply runs_mono; [eapply (room_ok h V P x u _ (Z.of_nat (length u) + Z.of_nat (length ws)) _ X); try done; [lia|..]|].
  { intros Hb%Z.ltb_lt. destruct (Z.ltb_spec (2 * cap X) (Z.of_nat (length u) + Z.of_nat (length ws))); lia. }
  { intros Hb%Z.ltb_ge. lia. }
  cbn beta. intros _ h1 [Hr1 (X1 & Ex1 & Hc1)]. destruct (rep_lookup h1 V P x u Hr1 Hx) as (X' & Ex' & _ & HlX1 & _). rewrite Ex1 in Ex'. injection Ex' as <-.
  apply runs_bind. eapply runs_get; [done|]. apply runs_bind. eapply (runs_write_own h1 V P); [done|done|done|done|lia|]. intros m' Hw. apply runs_put. cbn [blocks strs].
  pose proof (rep_in_place h1 V P m' x x X1 u ws _ Hr1 Ex1 Hx Hw eq_refl ltac:(lia) ltac:(lia)) as H. rewrite insert_insert_eq in H.
  by replace (Z.of_nat (length u) + Z.of_nat (length ws)) with (Z.of_nat (length u + length ws)) by lia.
Qed.

Lemma append_char_ok h V P x u ch : rep h V P -> V !! x = Some u -> Z.of_nat (length (u ++ [ch])) < limit ->
  gives h (<[x := u ++ [ch]]> V) P (cu_str_append_char junk x ch).
Proof.
  intros Hr Hx Hl. pose proof (length_app u [ch]) as Hlen. cbn [length] in Hlen. destruct (rep_lookup h V P x u Hr Hx) as (X & Ex & _ & HlX & [_ Hk2 _]).
  unfold cu_str_append_char. apply runs_bind. eapply runs_get; [done|]. rewrite HlX. destruct (wmul64_limit (Z.of_nat (length u))) as [_ Em]; [lia|]. rewrite Em. wsimpl.
  apply runs_bind. eapply runs_mono; [eapply (room_ok h V P x u _ (Z.of_nat (length u) + 1) _ X); try done; [lia|lia|]|].
  { intros Hb%Z.leb_gt. lia. }
  cbn beta. intros _ h1 [Hr1 (X1 & Ex1 & Hc1)]. destruct (rep_lookup h1 V P x u Hr1 Hx) as (X' & Ex' & _ & HlX1 & _). rewrite Ex1 in Ex'. injection Ex' as <-.
  apply runs_bind. eapply runs_get; [done|]. apply runs_bind. eapply (runs_write_own h1 V P); [done|done|done|done|cbn; lia|]. intros m' Hw. apply runs_put. cbn [blocks strs].
  pose proof (rep_in_place h1 V P m' x x X1 u [ch] _ Hr1 Ex1 Hx Hw eq_refl ltac:(cbn; lia) ltac:(cbn; lia)) as H. rewrite insert_insert_eq in H.
  rewrite HlX1. wsimpl. cbn [length] in H. by replace (Z.of_nat (length u) + 1) with (Z.of_nat (length u + 1)) by lia.
Qed.

Lemma append_str_ok h V P x u y v : rep h V P -> V !! x = Some u -> V !! y = Some v -> Z.of_nat (length (u ++ v)) < limit ->
  gives h (<[x := u ++ v]> V) P (cu_str_append_str junk x y).
Proof.
  intros Hr Hx Hy Hl. pose proof (length_app u v) as Hlen. destruct (rep_lookup h V P x u Hr Hx) as (X & Ex & _ & HlX & [_ Hk2 _]).
  destruct (rep_lookup h V P y v Hr Hy) as (Y & Ey & _ & HlY & _).
  unfold cu_str_append_str. apply runs_bind. eapply runs_get; [done|]. apply runs_bind. eapply runs_get; [done|]. rewrite HlX, HlY.
  destruct (wmul64_limit (cap X)) as [Em _]; [done|]. wsimpl. rewrite Em.
  apply runs_bind. eapply runs_mono; [eapply (room_ok h V P x u _ (Z.of_nat (length u) + Z.of_nat (length v)) _ X); try done; [lia|..]|].
  { intros Hb%Z.ltb_lt. destruct (Z.ltb_spec (Z.of_nat (length u) + Z.of_nat (length v)) (2 * cap X)); lia. }
  { intros Hb%Z.ltb_ge. lia. }
  cbn beta. intros _ h1 [Hr1 (X1 & Ex1 & Hc1)]. destruct (rep_lookup h1 V P x u Hr1 Hx) as (X' & Ex' & _ & HlX1 & _). rewrite Ex1 in Ex'. injection Ex' as <-.
  destruct (rep_lookup h1 V P y v Hr1 Hy) as (Y1 & Ey1 & _ & HlY1 & _).
  apply runs_bind. eapply runs_get; [done|]. apply runs_bind. eapply runs_get; [done|]. apply runs_bind.
  eapply (runs_memcpy_own h1 V P h1 x X1 u y Y1 v); [done|done|done|done|done|done|lia|]. intros m' Hw. apply runs_put. cbn [blocks strs].
  pose proof (rep_in_place h1 V P m' x x X1 u v _ Hr1 Ex1 Hx Hw eq_refl ltac:(lia) ltac:(lia)) as H. rewrite insert_insert_eq in H.
  by replace (Z.of_nat (length u) + Z.of_nat (length v)) with (Z.of_nat (length u + length v)) by lia.
Qed.

(** ** Concatenations *)

Lemma init_2str_ok h V P d D x u y v : rep h V P -> strs h !! d = Some D -> d <> x -> V !! x = Some u -> V !! y = Some v ->
  Z.of_nat (length (u ++ v)) < limit -> gives h (<[d := u ++ v]> V) P (cu_str_init_2str junk d x y).
Proof.
  intros Hr Ed Hne Hx Hy Hl. pose proof (length_app u v) as Hlen. destruct (rep_lookup h V P x u Hr Hx) as (X & Ex & Hu & HlX & _).
  destruct (rep_lookup h V P y v Hr Hy) as (Y & Ey & Hv & HlY & _). unfold cu_str_init_2str.
  apply runs_bind. eapply runs_get; [done|]. apply runs_bind. eapply runs_get; [done|]. rewrite HlX, HlY. wsimpl. apply runs_bind.
  destruct (Z.ltb_spec (cap X) (Z.of_nat (length u) + Z.of_nat (length v))) as [Hc|Hc].
  - galloc a m Hn. put. rewrite <- (at_off_0 a) at 2. eapply (runs_memcpy_new _ _ _ [] u); [exact Hn|cbn; lia|done|done|done|]. intros m1 Hn1.
    cbn [blocks strs app] in *. apply runs_bind. eapply runs_get; [apply lookup_insert_eq|]. cbn [arr].
    eapply (runs_memcpy_new _ _ _ u v); [exact Hn1|lia|done|done|done|]. intros m2 Hn2. cbn [blocks strs] in *.
    eapply rep_new_array; [done|done|exact Hn2|lia|lia|lia].
  - put. apply runs_put. cbn [blocks strs]. apply runs_bind.
    eapply runs_get; [cbn; rewrite lookup_insert_ne by done; apply lookup_insert_eq|]. cbn [arr]. rewrite <- HlX, <- HlY.
    eapply (runs_memcpy_own h V P _ x X u y Y v); [done|done|done|done|done|done|lia|]. intros m' Hw. cbn [blocks strs].
    rewrite insert_insert_ne by done. eapply rep_in_place; [done|done|done|exact Hw|lia|lia|lia].
Qed.

(** The grabbed capacity is enough, and [x] has lost it; or it stays as it is. *)
Lemma grab_enough_ok h x X n : strs h !! x = Some X ->
  runs h (grab_enough x n) (fun o h' => if cap X <? n then o = None /\ h' = h else
    o = Some (cap X) /\ h' = mk_heap (blocks h) (<[x := with_cap X 0]> (strs h))).
Proof.
  intros Ex. unfold grab_enough. apply runs_bind. eapply runs_get; [done|]. destruct (cap X <? n) eqn:Hc; [by apply runs_mret|].
  unfold cu_str_grab_cap. apply runs_bind. apply runs_bind. eapply runs_get; [done|]. put. apply runs_mret. apply runs_mret. by rewrite Hc.
Qed.

Lemma init_str_cstr_ok h V P d D x u ws : rep h V P -> strs h !! d = Some D -> d <> x -> V !! x = Some u ->
  Z.of_nat (length (u ++ ws)) < limit -> gives h (<[d := u ++ ws]> V) P (cu_str_init_str_cstr junk d x ws).
Proof.
  intros Hr Ed Hne Hx Hl. pose proof (length_app u ws) as Hlen. destruct (rep_lookup h V P x u Hr Hx) as (X & Ex & Hu & HlX & _).
  unfold cu_str_init_str_cstr. apply runs_bind. eapply runs_get; [done|]. rewrite HlX. wsimpl. apply runs_bind.
  eapply runs_mono; [by apply grab_enough_ok|]. cbn beta. intros o h'.
  destruct (Z.ltb_spec (cap X) (Z.of_nat (length u) + Z.of_nat (length ws))) as [Hc|Hc]; intros [-> ->].
  - apply runs_bind. galloc a m Hn. put. apply runs_bind. rewrite <- (at_off_0 a) at 2. eapply (runs_memcpy_new _ _ _ [] u); [exact Hn|cbn; lia|done|done|done|].
    intros m1 Hn1. cbn [blocks strs app] in *. apply runs_mret. eapply runs_write_new; [exact Hn1|lia|done|]. intros m2 Hn2. cbn [blocks strs] in *.
    eapply rep_new_array; [done|done|exact Hn2|lia|lia|lia].
  - apply runs_bind. put. apply runs_mret. rewrite <- HlX. eapply (runs_write_own h V P); [done|done|done|done|lia|]. intros m' Hw. cbn [blocks strs].
    eapply rep_in_place; [done|done|done|exact Hw|lia|lia|lia].
Qed.

Lemma init_str_char_ok h V P d D x u ch : rep h V P -> strs h !! d = Some D -> d <> x -> V !! x = Some u ->
  Z.of_nat (length (u ++ [ch])) < limit -> gives h (<[d := u ++ [ch]]> V) P (cu_str_init_str_char junk d x ch).
Proof.
  intros Hr Ed Hne Hx Hl. pose proof (length_app u [ch]) as Hlen. cbn [length] in Hlen. destruct (rep_lookup h V P x u Hr Hx) as (X & Ex & Hu & HlX & _).
  unfold cu_str_init_str_char. apply runs_bind. eapply runs_get; [done|]. rewrite HlX. wsimpl. rewrite Z.add_simpl_r. apply runs_bind.
  eapply runs_mono; [by apply grab_enough_ok|]. cbn beta. intros o h'.
  destruct (Z.ltb_spec (cap X) (Z.of_nat (length u) + 1)) as [Hc|Hc]; intros [-> ->].
  - apply runs_bind. galloc a m Hn. put. apply runs_bind. rewrite <- (at_off_0 a) at 2. eapply (runs_memcpy_new _ _ _ [] u); [exact Hn|cbn; lia|done|done|done|].
    intros m1 Hn1. cbn [blocks strs app] in *. apply runs_mret. eapply runs_write_new; [exact Hn1|cbn; lia|done|]. intros m2 Hn2. cbn [blocks strs] in *.
    eapply rep_new_array; [done|done|exact Hn2|lia|lia|lia].
  - apply runs_bind. put. apply runs_mret. rewrite <- HlX. eapply (runs_write_own h V P); [done|done|done|done|cbn; lia|]. intros m' Hw. cbn [blocks strs].
    eapply rep_in_place; [done|done|done|exact Hw|cbn; lia|cbn; lia|cbn; lia].
Qed.

(** ** C strings *)

Lemma rep_hold h V P p w : rep h V P -> held h p w -> rep h V (P ++ [(p, w)]).
Proof. intros [H1 H2 H3] Hh. split; [done|done|]. intros p' w' [?|Hp%list_elem_of_singleton]%elem_of_app; [by apply H3|by injection Hp as -> ->]. Qed.

(** The terminator is put behind the bytes of [x], which gives up its capacity. *)
Lemma terminate_ok h V P m' x X u : rep h V P -> strs h !! x = Some X -> V !! x = Some u -> len X < cap X ->
  written (blocks h) m' (at_off (arr X) (len X)) [0] ->
  rep (mk_heap m' (<[x := with_cap X 0]> (strs h))) V (P ++ [(arr X, u ++ [0])]).
Proof.
  intros Hr Ex Hx Hc [Hin Hout]. destruct (rep_lookup h V P x u Hr Hx) as (X' & Ex' & Hu & HlX & [Hk1 Hk2 Hk3]). rewrite Ex in Ex'. injection Ex' as <-.
  pose proof (bytes_at_length _ _ _ _ Hu) as Hul. pose proof (length_app u [0]) as Hlen. cbn [length] in Hlen.
  unfold at_off, padd in Hin, Hout. cbn in Hin, Hout. rewrite HlX, Nat2Z.id in Hin, Hout.
  assert (bytes_at m' (arr X) (length u) = Some u) as Hu'.
  { eapply bytes_at_same; [done|]. intros i Hi. apply Hout. lia. }
  assert (forall b i, is_Some (byte_at (blocks h) b i) -> is_Some (byte_at m' b i)) as Hgrow.
  { intros b i Hs. destruct (decide (b = blk (arr X) /\ i = (off (arr X) + length u)%nat)) as [[-> ->]|Hno]; [|rewrite Hout; [done|]].
    - rewrite <- (Nat.add_0_r (off (arr X) + length u)), Hin by lia. done.
    - intros [-> Hi]. apply Hno. split; [done|lia]. }
  pose proof (good_step h V P m' x x X (with_cap X 0) Hr Ex Hgrow) as H. rewrite insert_insert_eq in H.
  rewrite (sbytes_eq m' _ u), (insert_id V) in H by (done || (unfold slen; cbn; by rewrite HlX, Nat2Z.id)).
  apply rep_hold; [apply H|split]; cbn [blocks strs].
  - intros b i w Ew Ho. rewrite Hout; [done|]. intros [-> Hi]. apply Ho. split; [done|]. unfold slen, scap. lia.
  - split; cbn; [lia|unfold limit; lia|]. intros b i Hi%ext_relaxed. by apply Hgrow, Hk3.
  - intros b i Ho. by apply own_relaxed in Ho.
  - intros b i Hi%ext_relaxed. by right.
  - apply bytes_at_intro; [done|]. intros i Hi. destruct (decide (i < length u)%nat).
    + rewrite lookup_app_l by done. by eapply bytes_at_lookup.
    + rewrite lookup_app_r by lia. rewrite <- Hin by (cbn; lia). f_equal. lia.
  - intros i s S Hi [[-> <-]|[Hsx Es]]%lookup_insert_Some Ho; [by apply own_relaxed in Ho|].
    apply (good_sep h (rep_good _ _ _ Hr) s x S X (not_eq_sym Hsx) Es Ex _ _ Ho). split; [done|unfold slen, scap; lia].
Qed.

(** The C string is on a new array. *)
Lemma new_cstr_ok h V P m' a w c : rep h V P -> new_array (blocks h) m' a w c -> rep (mk_heap m' (strs h)) V (P ++ [(a, w)]).
Proof.
  intros [[Hok Hsep] HV HP] Hn.
  assert (forall b i (z : Z), byte_at (blocks h) b i = Some z -> byte_at m' b i = Some z) as Hkeep.
  { intros b i z Ez. rewrite (na_old _ _ _ _ _ Hn); [done|]. intros ->. by rewrite (na_unused _ _ _ _ _ Hn) in Ez. }
  apply rep_hold; [split; [split; [|exact Hsep]|..]|split]; cbn [blocks strs].
  - intros s S Es. destruct (Hok s S Es) as [H1 H2 H3]. split; [done|done|]. intros b i [z Ez]%H3. exists z. auto.
  - rewrite <- HV. unfold values. cbn [blocks strs]. apply map_fmap_ext. intros s S Es. apply sbytes_eq. eapply bytes_at_same; [by apply str_ok_bytes, (Hok s)|].
    intros i Hi. destruct (ok_byte _ _ (Hok s S Es) (blk (arr S)) (off (arr S) + i)%nat) as [z Ez]; [split; [done|lia]|]. by rewrite Ez, (Hkeep _ _ _ Ez).
  - intros p w' Hp. destruct (HP p w' Hp) as [Hb Hno]. split; [|done]. cbn [blocks]. eapply bytes_at_same; [done|]. intros i Hi.
    pose proof (bytes_at_lookup _ _ _ _ _ Hb Hi) as Hz. destruct (lookup_lt_is_Some_2 w' i Hi) as [z Ez]. rewrite Ez in Hz. by rewrite Hz, (Hkeep _ _ _ Hz).
  - apply bytes_at_intro; [done|]. intros i Hi. rewrite (na_off _ _ _ _ _ Hn). by apply (na_bytes _ _ _ _ _ Hn).
  - intros i s S Hi Es Ho%own_ext. destruct (ok_byte _ _ (Hok s S Es) _ _ Ho) as [z Ez]. by rewrite (na_unused _ _ _ _ _ Hn) in Ez.
Qed.

Lemma to_cstr_ok h V P x u : rep h V P -> V !! x = Some u -> Z.of_nat (length u) < limit ->
  runs h (cu_str_to_cstr junk x) (fun p h' => rep h' V (P ++ [(p, u ++ [0])])).
Proof.
  intros Hr Hx Hl. destruct (rep_lookup h V P x u Hr Hx) as (X & Ex & Hu & HlX & _). pose proof (length_app u [0]) as Hlen. cbn [length] in Hlen.
  unfold cu_str_to_cstr. apply runs_bind. eapply runs_get; [done|]. destruct (Z.ltb_spec (len X) (cap X)) as [Hc|Hc].
  - unfold cu_str_grab_cap. apply runs_bind, runs_bind. eapply runs_get; [done|]. put. apply runs_mret.
    replace (cap X =? 0) with false by lia. cbn [negb]. apply runs_bind. eapply (runs_write_own h V P); [done|done|done|done|cbn; lia|].
    intros m' Hw. cbn [blocks strs]. apply runs_bind. eapply runs_get; [cbn; apply lookup_insert_eq|]. put. apply runs_mret.
    rewrite insert_insert_eq. cbn [with_cap arr len cap]. by apply (terminate_ok h V P m' x X u).
  - apply runs_bind, runs_mret. cbn [Z.eqb negb]. rewrite HlX. wsimpl. galloc a m Hn. apply runs_bind. rewrite <- (at_off_0 a) at 1.
    eapply (runs_memcpy_new _ _ _ [] u); [exact Hn|cbn; lia|done|done|done|]. intros m1 Hn1. cbn [blocks strs app] in *. apply runs_bind.
    eapply runs_write_new; [exact Hn1|cbn; lia|done|]. intros m2 Hn2. cbn [blocks strs] in *. apply runs_mret. by eapply new_cstr_ok.
Qed.

(** ** Programs *)

Inductive op :=
  | New | New_charr (u : list Z) | New_copy (x : N) | New_2charr (u v : list Z) | New_3charr (u v w : list Z)
  | New_2str (x y : N) | New_str_cstr (x : N) (u : list Z) | New_cstr_str (u : list Z) (y : N) | New_str_char (x : N) (ch : Z)
  | Substr (x : N) (pos n : Z) | Suffix (x : N) (pos : Z) | Assign (d x : N)
  | Append_str (x y : N) | Append_char (x : N) (ch : Z) | Append_charr (x : N) (u : list Z) | To_cstr (x : N).

(** What an operation returns: a string, a C string of type [A], or nothing. *)
Inductive res (A : Type) := Obj (s : N) | Cstr (p : A) | Nothing.
#[global] Arguments Obj {A} s.
#[global] Arguments Cstr {A} p.
#[global] Arguments Nothing {A}.

Definition obj (m : M N) : M (res ptr) := s ← m; mret (Obj s).
Definition proc (m : M unit) : M (res ptr) := m;; mret Nothing.

Definition exec (o : op) : M (res ptr) :=
  match o with
  | New => obj cu_str_new
  | New_charr u => obj (cu_str_new_charr junk u)
  | New_copy x => obj (cu_str_new_copy x)
  | New_2charr u v => obj (cu_str_new_2charr junk u v)
  | New_3charr u v w => obj (cu_str_new_3charr junk u v w)
  | New_2str x y => obj (cu_str_new_2str junk x y)
  | New_str_cstr x u => obj (cu_str_new_str_cstr junk x u)
  | New_cstr_str u y => obj (cu_str_new_cstr_str junk u y)
  | New_str_char x ch => obj (cu_str_new_str_char junk x ch)
  | Substr x pos n => obj (cu_str_substr x pos n)
  | Suffix x pos => obj (cu_str_suffix x pos)
  | Assign d x => proc (cu_str_assign d x)
  | Append_str x y => proc (cu_str_append_str junk x y)
  | Append_char x ch => proc (cu_str_append_char junk x ch)
  | Append_charr x u => proc (cu_str_append_charr junk x u)
  | To_cstr x => p ← cu_str_to_cstr junk x; mret (Cstr p)
  end.

(** The same on values: each string has its own. *)
Definition small u : option (list Z) := if Z.of_nat (length u) <? limit then Some u else None.
Definition vnew V (u : option (list Z)) : option (gmap N (list Z) * res (list Z)) :=
  u ← u; u ← small u; Some (<[fresh (dom V) := u]> V, Obj (fresh (dom V))).
Definition vset V x (u : option (list Z)) : option (gmap N (list Z) * res (list Z)) :=
  u ← u; u ← small u; Some (<[x := u]> V, Nothing).
Definition sub u (pos n : Z) : option (list Z) :=
  if (0 <=? pos) && (0 <=? n) && (pos + n <=? Z.of_nat (length u)) then Some (take (Z.to_nat n) (drop (Z.to_nat pos) u)) else None.

Definition vexec (o : op) V : option (gmap N (list Z) * res (list Z)) :=
  match o with
  | New => vnew V (Some [])
  | New_charr u => vnew V (Some u)
  | New_copy x => vnew V (V !! x)
  | New_2charr u v => vnew V (Some (u ++ v))
  | New_3charr u v w => vnew V (Some (u ++ v ++ w))
  | New_2str x y => vnew V (u ← V !! x; v ← V !! y; Some (u ++ v))
  | New_str_cstr x v => vnew V (u ← V !! x; Some (u ++ v))
  | New_cstr_str u y => vnew V (v ← V !! y; Some (u ++ v))
  | New_str_char x ch => vnew V (u ← V !! x; Some (u ++ [ch]))
  | Substr x pos n => vnew V (u ← V !! x; sub u pos n)
  | Suffix x pos => vnew V (u ← V !! x; sub u pos (Z.of_nat (length u) - pos))
  | Assign d x => vset V d (V !! x)
  | Append_str x y => vset V x (u ← V !! x; v ← V !! y; Some (u ++ v))
  | Append_char x ch => vset V x (u ← V !! x; Some (u ++ [ch]))
  | Append_charr x v => vset V x (u ← V !! x; Some (u ++ v))
  | To_cstr x => u ← V !! x; u ← small u; Some (V, Cstr (u ++ [0]))
  end.

Fixpoint run (os : list op) : M (list (res ptr)) :=
  match os with [] => mret [] | o :: os => r ← exec o; rs ← run os; mret (r :: rs) end.
Fixpoint vrun (os : list op) V : option (gmap N (list Z) * list (res (list Z))) :=
  match os with
  | [] => Some (V, [])
  | o :: os => '(V, r) ← vexec o V; '(V, rs) ← vrun os V; Some (V, r :: rs)
  end.

(** A result of the program is that of the specification; [held] says where the C strings are. *)
Definition matches P (r : res ptr) (r' : res (list Z)) : Prop :=
  match r, r' with
  | Obj s, Obj t => s = t
  | Cstr p, Cstr w => (p, w) ∈ P
  | Nothing, Nothing => True
  | _, _ => False
  end.
Definition result_ok h (r : res ptr) (r' : res (list Z)) : Prop :=
  match r, r' with
  | Obj s, Obj t => s = t
  | Cstr p, Cstr w => bytes_at (blocks h) p (length w) = Some w
  | Nothing, Nothing => True
  | _, _ => False
  end.

Lemma obj_ok h V P u init V' r : rep h V P -> vnew V (Some u) = Some (V', r) ->
  (forall h1 D, rep h1 (<[fresh (dom V) := []]> V) P -> strs h1 !! fresh (dom V) = Some D -> Z.of_nat (length u) < limit ->
    gives h1 (<[fresh (dom V) := u]> (<[fresh (dom V) := []]> V)) P (init (fresh (dom V)))) ->
  runs h (obj (new init)) (fun r' h' => rep h' V' P /\ matches P r' r).
Proof.
  intros Hr Hv Hi. unfold vnew, small in Hv. cbn in Hv. destruct (Z.ltb_spec (Z.of_nat (length u)) limit); [|done]. injection Hv as <- <-.
  unfold obj. apply runs_bind. eapply runs_mono; [apply (new_ok h V P u); [done|intros h1 D ? ?; by apply (Hi h1 D)]|]. cbn beta. intros s h' [-> Hr']. by apply runs_mret.
Qed.

Lemma proc_ok h V P x u m V' r : rep h V P -> vset V x (Some u) = Some (V', r) ->
  (Z.of_nat (length u) < limit -> gives h (<[x := u]> V) P m) -> runs h (proc m) (fun r' h' => rep h' V' P /\ matches P r' r).
Proof.
  intros Hr Hv Hm. unfold vset, small in Hv. cbn in Hv. destruct (Z.ltb_spec (Z.of_nat (length u)) limit); [|done]. injection Hv as <- <-.
  unfold proc. apply runs_bind. eapply runs_mono; [by apply Hm|]. cbn beta. intros _ h' Hr'. by apply runs_mret.
Qed.

Lemma fresh_other V x u : V !! x = Some u -> fresh (dom V) <> x.
Proof. intros Hx <-. apply (is_fresh (dom V)). by eapply elem_of_dom_2. Qed.

Lemma init_null_ok h V P d D : rep h V P -> strs h !! d = Some D -> gives h (<[d := []]> V) P (cu_str_init d).
Proof.
  intros Hr Ed. apply runs_put. pose proof (good_step h V P (blocks h) d d D (mk_str nullptr 0 0) Hr Ed) as H. rewrite insert_insert_eq in H.
  apply H; [done|done|split; cbn; [done|done|]|..]; intros b i [_ ?]; unfold slen, scap in *; cbn in *; lia.
Qed.

Lemma sub_some u pos n w : sub u pos n = Some w -> exists k m, pos = Z.of_nat k /\ n = Z.of_nat m /\ (k + m <= length u)%nat /\ w = take m (drop k u).
Proof.
  unfold sub. destruct ((0 <=? pos) && (0 <=? n) && (pos + n <=? Z.of_nat (length u))) eqn:E; [|done]. intros [= <-].
  exists (Z.to_nat pos), (Z.to_nat n). split_and!; try done; lia.
Qed.

Lemma substr_ok h V P x u pos n w V' r : rep h V P -> V !! x = Some u -> fresh (dom V) <> x -> sub u pos n = Some w ->
  vnew V (Some w) = Some (V', r) -> runs h (obj (cu_str_substr x pos n)) (fun r' h' => rep h' V' P /\ matches P r' r).
Proof.
  intros Hr Hx Hne Hw Hv. apply sub_some in Hw as (k & m & -> & -> & Hk & ->). eapply obj_ok; [done|exact Hv|]. intros h1 D Hr1 Ed Hl.
  assert (<[fresh (dom V) := []]> V !! x = Some u) as Hx1 by (by rewrite lookup_insert_ne).
  destruct (sub_ok h1 _ P (fresh (dom V)) D x u k m (Z.of_nat m) Hr1 Hx1 Ed Hne Hk eq_refl) as (X & Ex & HlX & H).
  destruct (rep_lookup _ _ _ _ _ Hr1 Hx1) as (X' & Ex' & _ & _ & [Hk1 _ _]). rewrite Ex in Ex'. injection Ex' as <-.
  apply runs_bind. eapply runs_get; [done|]. rewrite wadd_limit by lia. apply runs_bind, runs_check; [lia|]. exact H.
Qed.

Lemma suffix_ok h V P x u pos w V' r : rep h V P -> V !! x = Some u -> fresh (dom V) <> x -> sub u pos (Z.of_nat (length u) - pos) = Some w ->
  vnew V (Some w) = Some (V', r) -> runs h (obj (cu_str_suffix x pos)) (fun r' h' => rep h' V' P /\ matches P r' r).
Proof.
  intros Hr Hx Hne Hw Hv. apply sub_some in Hw as (k & m & -> & Hm & Hk & ->). eapply obj_ok; [done|exact Hv|]. intros h1 D Hr1 Ed Hl.
  assert (<[fresh (dom V) := []]> V !! x = Some u) as Hx1 by (by rewrite lookup_insert_ne).
  destruct (sub_ok h1 _ P (fresh (dom V)) D x u k m (Z.of_nat m) Hr1 Hx1 Ed Hne Hk eq_refl) as (X & Ex & HlX & H).
  destruct (rep_lookup _ _ _ _ _ Hr1 Hx1) as (X' & Ex' & _ & _ & [Hk1 _ _]). rewrite Ex in Ex'. injection Ex' as <-.
  apply runs_bind. eapply runs_get; [done|]. apply runs_bind, runs_check; [lia|]. rewrite HlX, wsub_limit, Hm by lia. exact H.
Qed.

(** One step of a program. *)
Lemma exec_ok h V P o V' r : rep h V P -> vexec o V = Some (V', r) ->
  runs h (exec o) (fun r' h' => exists P', rep h' V' (P ++ P') /\ matches (P ++ P') r' r).
Proof.
  intros Hr Hv.
  assert (forall m : M (res ptr), runs h m (fun r' h' => rep h' V' P /\ matches P r' r) ->
    runs h m (fun r' h' => exists P', rep h' V' (P ++ P') /\ matches (P ++ P') r' r)) as Hsame.
  { intros m Hm. eapply runs_mono; [exact Hm|]. cbn beta. intros r' h' H. exists []. by rewrite app_nil_r. }
  assert (forall (d : N) x u, V !! x = Some u -> d = fresh (dom V) -> <[d := []]> V !! x = Some u) as Hi.
  { intros d x u Hx ->. by rewrite lookup_insert_ne by (by eapply fresh_other). }
  destruct o as [|u|x|u v|u v w|x y|x v|u y|x ch|x pos n|x pos|d x|x y|x ch|x v|x]; cbn [vexec exec] in *.
  1-15: apply Hsame.
  all: try (destruct (V !! x) as [u|] eqn:Hx; [|done]); try (destruct (V !! y) as [v'|] eqn:Hy; [|done]).
  all: try (assert (fresh (dom V) <> x) by (by eapply fresh_other)).
  all: try (eapply proc_ok; [done|exact Hv|]; intros Hl).
  - eapply obj_ok; [done|exact Hv|]. intros h1 D Hr1 Ed _. by eapply init_null_ok.
  - eapply obj_ok; [done|exact Hv|]. intros h1 D Hr1 Ed Hl. by eapply init_charr_ok.
  - eapply obj_ok; [done|exact Hv|]. intros h1 D Hr1 Ed Hl. eapply init_copy_ok; eauto.
  - eapply obj_ok; [done|exact Hv|]. intros h1 D Hr1 Ed Hl. by eapply init_2charr_ok.
  - eapply obj_ok; [done|exact Hv|]. intros h1 D Hr1 Ed Hl. by eapply init_3charr_ok.
  - eapply obj_ok; [done|exact Hv|]. intros h1 D Hr1 Ed Hl. eapply init_2str_ok; eauto.
  - eapply obj_ok; [done|exact Hv|]. intros h1 D Hr1 Ed Hl. eapply init_str_cstr_ok; eauto.
  - eapply obj_ok; [done|exact Hv|]. intros h1 D Hr1 Ed Hl. eapply init_cstr_str_ok; eauto.
  - eapply obj_ok; [done|exact Hv|]. intros h1 D Hr1 Ed Hl. eapply init_str_char_ok; eauto.
  - cbn [mbind option_bind] in Hv. destruct (sub u pos n) as [w|] eqn:Hw; [|done]. by eapply substr_ok.
  - cbn [mbind option_bind] in Hv. destruct (sub u pos _) as [w|] eqn:Hw; [|done]. by eapply suffix_ok.
  - by eapply assign_ok.
  - by eapply append_str_ok.
  - by eapply append_char_ok.
  - by eapply append_charr_ok.
  - unfold small in Hv. cbn in Hv. destruct (Z.ltb_spec (Z.of_nat (length u)) limit); [|done]. injection Hv as <- <-.
    apply runs_bind. eapply runs_mono; [by apply to_cstr_ok|]. cbn beta. intros p h' Hr'. apply runs_mret. eexists. split; [exact Hr'|].
    cbn. set_solver.
Qed.

Lemma matches_app P P' r r' : matches P r r' -> matches (P ++ P') r r'.
Proof. destruct r, r'; cbn; try done. set_solver. Qed.

Lemma run_ok os h V P V' rs : rep h V P -> vrun os V = Some (V', rs) ->
  runs h (run os) (fun rs' h' => exists P', rep h' V' (P ++ P') /\ Forall2 (matches (P ++ P')) rs' rs).
Proof.
  revert h V P rs. induction os as [|o os IH]; cbn; intros h V P rs Hr Hv.
  - injection Hv as <- <-. apply runs_mret. exists []. rewrite app_nil_r. auto.
  - destruct (vexec o V) as [[V1 r]|] eqn:Eo; [|done]. cbn in Hv. destruct (vrun os V1) as [[V2 rs2]|] eqn:Eos; [|done]. injection Hv as <- <-.
    apply runs_bind. eapply runs_mono; [by eapply exec_ok|]. cbn beta. intros r' h1 (P1 & Hr1 & Hm). apply runs_bind.
    eapply runs_mono; [by eapply IH|]. cbn beta. intros rs' h2 (P2 & Hr2 & Hms). apply runs_mret. exists (P1 ++ P2). rewrite app_assoc.
    split; [done|]. constructor; [by apply matches_app|done].
Qed.

Definition empty_heap : heap := mk_heap ∅ ∅.
Lemma rep_empty_heap : rep empty_heap ∅ [].
Proof. split; [split|..]; cbn; try done. by intros p w ?%elem_of_nil. Qed.

(** C7: A program of string operations from the empty heap that the specification on values defines does not
    fail: in the end every string object has the value that the specification, in which no storage is
    shared, gives it, whatever arrays objects came to share and whatever capacity they grabbed from each other;
    the objects returned are those of the specification; and every C string that [cu_str_to_cstr]
    returned still is in memory, with its terminator. *)
Theorem cu_str_sharing_invisible os V rs : vrun os ∅ = Some (V, rs) ->
  exists rs' h, run os empty_heap = Some (rs', h) /\ values h = V /\ Forall2 (result_ok h) rs' rs.
Proof.
  intros Hv. destruct (run_ok os empty_heap ∅ [] V rs) as (rs' & h & E & P & Hr & Hms); [apply rep_empty_heap|done|].
  exists rs', h. destruct Hr as [_ <- HP]. split_and!; [done|done|]. eapply Forall2_impl; [|exact Hms]. cbn.
  intros [s|p|] [t|w|]; cbn; try done. intros Hp. by apply HP.
Qed.

(** ** Quotes *)

Definition quote_byte (b : Z) : list Z := default [b] (quote_char b).
Definition quote u : list Z := 34 :: (u ≫= quote_byte) ++ [34].

(** What a reader of the quoted string takes [\x] for. *)
Definition unescape (b : Z) : option Z :=
  if b =? 110 then Some 10 else if b =? 116 then Some 9 else if b =? 118 then Some 11 else if b =? 102 then Some 12
  else if b =? 98 then Some 8 else if b =? 114 then Some 13 else if b =? 92 then Some 92 else if b =? 34 then Some 34 else None.
(** The string up to the quote, and the rest. *)
Fixpoint unquote_body u : option (list Z * list Z) :=
  match u with
  | [] => None
  | b :: u' =>
      if b =? 34 then Some ([], u')
      else if b =? 92 then
        match u' with
        | [] => None
        | e :: u'' => x ← unescape e; '(v, r) ← unquote_body u''; Some (x :: v, r)
        end
      else '(v, r) ← unquote_body u'; Some (b :: v, r)
  end.
Definition unquote u : option (list Z * list Z) :=
  match u with b :: u' => if b =? 34 then unquote_body u' else None | [] => None end.

Lemma unquote_body_byte b u : unquote_body (quote_byte b ++ u) = '(v, r) ← unquote_body u; Some (b :: v, r).
Proof.
  unfold quote_byte, quote_char. repeat match goal with |- context [b =? ?k] => destruct (Z.eqb_spec b k) as [->|?]; [by destruct (unquote_body u) as [[??]|] eqn:E; cbn; rewrite ?E|] end.
  cbn.
  rewrite (proj2 (Z.eqb_neq b 34)), (proj2 (Z.eqb_neq b 92)) by done. done.
Qed.

Lemma unquote_quote u w : unquote (quote u ++ w) = Some (u, w).
Proof.
  unfold quote, unquote. cbn [app]. rewrite <- app_assoc. cbn [Z.eqb Pos.eqb]. induction u as [|b u IH]; [done|].
  rewrite bind_cons, <- app_assoc, unquote_body_byte. cbn [app] in IH |- *. by rewrite IH.
Qed.

Lemma quote_byte_length b : (1 <= length (quote_byte b) <= 2)%nat.
Proof. unfold quote_byte, quote_char. repeat (destruct (_ =? _); [cbn; lia|]). cbn. lia. Qed.
Lemma quote_bytes_length u : (length u <= length (u ≫= quote_byte) <= 2 * length u)%nat.
Proof. induction u as [|b u IH]; [done|]. rewrite bind_cons, length_app. pose proof (quote_byte_length b). cbn [length]. lia. Qed.

Lemma quote_loop_ok u h V P x w : rep h V P -> V !! x = Some w -> Z.of_nat (length w + length (u ≫= quote_byte)) < limit ->
  gives h (<[x := w ++ (u ≫= quote_byte)]> V) P (quote_loop junk x u).
Proof.
  revert h V w. induction u as [|b u IH]; intros h V w Hr Hx Hl.
  { apply runs_mret. cbn. rewrite app_nil_r. by rewrite insert_id. }
  rewrite bind_cons in *. rewrite length_app in Hl. cbn [quote_loop]. apply runs_bind.
  assert (gives h (<[x := w ++ quote_byte b]> V) P (match quote_char b with Some e => cu_str_append_charr junk x e | None => cu_str_append_char junk x b end)) as H.
  { pose proof (eq_refl (quote_byte b)) as Hb. unfold quote_byte at 2 in Hb. destruct (quote_char b) as [e|]; cbn in Hb; rewrite Hb in *.
    - apply append_charr_ok; [done|done|]. rewrite length_app. lia.
    - apply append_char_ok; [done|done|]. rewrite length_app. lia. }
  eapply runs_mono; [exact H|]. cbn beta. intros _ h1 Hr1.
  pose proof (IH h1 _ (w ++ quote_byte b) Hr1 (lookup_insert_eq _ _ _)) as H1. rewrite insert_insert_eq, <- app_assoc in H1. apply H1.
  rewrite length_app. lia.
Qed.

Lemma runs_bytes h V P x u (Q : list Z -> heap -> Prop) : rep h V P -> V !! x = Some u -> Q u h -> runs h (cu_str_bytes x) Q.
Proof.
  intros Hr Hx HQ. destruct (rep_lookup h V P x u Hr Hx) as (X & Ex & Hu & Hl & _). unfold cu_str_bytes. apply runs_bind. eapply runs_get; [done|].
  eapply runs_read; [|done]. by rewrite Hl, Nat2Z.id.
Qed.

(** C8: [cu_str_quote] returns a new string between quotes from which a reader of escape sequences gets the
    bytes of the argument back, and knows where they end; no other string changes. *)
Theorem cu_str_quote_roundtrip h V P x u : rep h V P -> V !! x = Some u -> 2 * Z.of_nat (length u) + 2 < limit ->
  exists s h' q, cu_str_quote junk x h = Some (s, h') /\ V !! s = None /\ rep h' (<[s := q]> V) P /\
    forall w, unquote (q ++ w) = Some (u, w).
Proof.
  intros Hr Hx Hl. pose proof (quote_bytes_length u) as Hq. assert (fresh (dom V) <> x) as Hne by (by eapply fresh_other).
  assert (runs h (cu_str_quote junk x) (fun s h' => s = fresh (dom V) /\ rep h' (<[s := quote u]> V) P)) as (s & h' & E & -> & Hr').
  { unfold cu_str_quote, cu_str_new_charr. apply runs_bind. eapply runs_mono; [apply (new_ok h V P [34]); [done|]|].
    { intros h1 D Hr1 Ed. by eapply init_charr_ok. }
    cbn beta. intros s h1 [-> Hr1]. apply runs_bind. eapply runs_bytes; [exact Hr1|by rewrite lookup_insert_ne|]. apply runs_bind.
    eapply runs_mono; [apply (quote_loop_ok u h1 _ P _ [34] Hr1); [apply lookup_insert_eq|cbn [length]; lia]|]. cbn beta. intros _ h2 Hr2. apply runs_bind.
    eapply runs_mono; [apply (append_char_ok h2 _ P _ ([34] ++ (u ≫= quote_byte)) 34 Hr2); [apply lookup_insert_eq|rewrite !length_app; cbn [length]; lia]|].
    cbn beta. intros _ h3 Hr3. apply runs_mret. split; [done|]. by rewrite !insert_insert_eq in Hr3. }
  exists (fresh (dom V)), h', (quote u). split_and!; [done| |done|apply unquote_quote]. apply not_elem_of_dom, is_fresh.
Qed.

(** ** Comparison *)

Lemma memcmp_eq u v : length u = length v -> (memcmp u v =? 0) = bool_decide (u = v).
Proof.
  revert v. induction u as [|a u IH]; intros [|b v] Hl; try done. cbn in *. destruct (Z.eqb_spec a b) as [->|Hne].
  - rewrite IH by lia. apply bool_decide_ext. split; [by intros ->|by intros [= ->]].
  - rewrite bool_decide_false by (by intros [= ? _]). by destruct (a <? b).
Qed.

(** [cu_str_eq] decides equality of the values. *)
Theorem cu_str_eq_correct h V P x y u v : rep h V P -> V !! x = Some u -> V !! y = Some v ->
  cu_str_eq x y h = Some (bool_decide (u = v), h).
Proof.
  intros Hr Hx Hy. destruct (rep_lookup h V P x u Hr Hx) as (X & Ex & Hu & HlX & _). destruct (rep_lookup h V P y v Hr Hy) as (Y & Ey & Hv & HlY & _).
  assert (runs h (cu_str_eq x y) (fun b h' => b = bool_decide (u = v) /\ h' = h)) as (b & h' & E & -> & ->); [|done].
  unfold cu_str_eq. apply runs_bind. eapply runs_get; [done|]. apply runs_bind. eapply runs_get; [done|]. rewrite HlX, HlY.
  destruct (Z.eqb_spec (Z.of_nat (length u)) (Z.of_nat (length v))) as [El|El]; cbn [negb].
  - apply runs_bind. eapply runs_read; [by rewrite Nat2Z.id|]. apply runs_bind. eapply runs_read; [rewrite Nat2Z.id; by replace (length u) with (length v) by lia|].
    apply runs_mret. split; [|done]. apply memcmp_eq. lia.
  - apply runs_mret. rewrite bool_decide_false; [done|]. intros ->. done.
Qed.

End program.

(** [strncmp] of bytes without NUL tells equal arrays. *)
Lemma strncmp_eq u v : length u = length v -> Forall (fun b => b <> 0) u -> (strncmp u v = 0 <-> u = v).
Proof.
  intros Hl Hz. revert v Hl. induction Hz as [|a u Ha Hz IH]; intros [|b v] Hl; try done. cbn in *. destruct (Z.eqb_spec a b) as [->|Hne].
  - destruct (Z.eqb_spec b 0); [done|]. rewrite IH by lia. split; [by intros ->|by intros [= ->]].
  - split; [by destruct (a <? b)|by intros [= ? _]].
Qed.

(** The first position of a byte. *)
Lemma chr_from_spec i u ch : chr_from i u ch =
  match list_find (fun b => b = ch) u with Some (k, _) => i + Z.of_nat k | None => cu_str_index_none end.
Proof.
  revert i. induction u as [|b u IH]; intros i; cbn; [done|]. destruct (Z.eqb_spec b ch) as [->|Hne].
  - rewrite decide_True by done. lia.
  - rewrite decide_False by done. rewrite IH. destruct (list_find _ u) as [[k ?]|]; cbn; [lia|done].
Qed.

(** [cu_str_chr] returns the first position of a byte. *)
Theorem cu_str_chr_correct h V P x u ch : rep h V P -> V !! x = Some u -> cu_str_chr x ch h =
  Some (match list_find (fun b => b = ch) u with Some (k, _) => Z.of_nat k | None => cu_str_index_none end, h).
Proof.
  intros Hr Hx. assert (runs h (cu_str_chr x ch) (fun i h' => i = chr_from 0 u ch /\ h' = h)) as (i & h' & E & -> & ->).
  { unfold cu_str_chr. apply runs_bind. destruct (rep_lookup h V P x u Hr Hx) as (X & Ex & Hu & Hl & _). apply runs_bind. eapply runs_get; [done|].
    eapply runs_read; [by rewrite Hl, Nat2Z.id|]. by apply runs_mret. }
  rewrite E, chr_from_spec. done.
Qed.

(** ** Samples *)

Module StrSamples.
Definition junk : N -> nat -> Z := fun _ _ => 7.

(** "ab" gives its capacity to "abc", which shares its array and then grows into one of its own. *)
Definition prog : list op :=
  [New_charr [97; 98]; New_str_char 0 99; New_copy 0; Append_str 1 0; Substr 1 1 3; To_cstr 0; Append_char 2 100; New_2str 1 1; To_cstr 3].

Example prog_runs : option_map fst (vrun prog ∅) =
  Some (list_to_map [(0%N, [97; 98]); (1%N, [97; 98; 99; 97; 98]); (2%N, [97; 98; 100]); (3%N, [98; 99; 97]);
    (4%N, [97; 98; 99; 97; 98; 97; 98; 99; 97; 98])]).
Proof. vm_compute. reflexivity. Qed.

Definition prog_result : option (gmap N (list Z) * list (res (list Z))) := vrun prog ∅.

(** The string "abc" made from "ab" has its capacity; when two of its bytes are taken away and another one
    is appended, the byte is written to "ab". *)
Definition shrink_and_append : M (list Z) :=
  x ← cu_str_new_charr junk [97; 98]; y ← cu_str_new_str_char junk x 99;
  cu_str_unappend y 2;; cu_str_append_char junk y 90;; cu_str_bytes x.

Theorem unappend_changes_other_string : option_map fst (shrink_and_append empty_heap) = Some [97; 90].
Proof. vm_compute. reflexivity. Qed.

(** Erasing writes to a string that shares the array. *)
Definition erase_shared : M (list Z) :=
  x ← cu_str_new_charr junk [97; 98]; y ← cu_str_new_str_char junk x 99;
  cu_str_erase_substr junk y 0 1;; cu_str_bytes x.

Theorem erase_changes_other_string : option_map fst (erase_shared empty_heap) = Some [98; 99].
Proof. vm_compute. reflexivity. Qed.

(** Erasing from a string without capacity copies too much. *)
Definition erase_copy : M (list Z) :=
  x ← cu_str_new_charr junk [97; 98; 99]; y ← cu_str_new_copy x; cu_str_erase_substr junk y 0 2;; cu_str_bytes y.

Theorem erase_overflows : erase_copy empty_heap = None.
Proof. vm_compute. reflexivity. Qed.

(** The capacity of a string that owns nothing wraps around when spaces are chopped. *)
Definition chop_copy : M Z :=
  x ← cu_str_new_charr junk [32; 97]; y ← cu_str_new_copy x; cu_str_chop_space y;; S ← str_get y; mret (cap S).

Theorem chop_wraps_capacity : option_map fst (chop_copy empty_heap) = Some (2 ^ 64 - 1).
Proof. vm_compute. reflexivity. Qed.

(** A conversion of a string that is not empty does not end before it runs off the array. *)
Definition upper_copy (fuel : nat) : M N := x ← cu_str_new_charr junk [97; 98]; cu_str_toupper junk fuel x.

Theorem toupper_overflows : forall fuel, upper_copy fuel empty_heap = None.
Proof. intros [|[|[|[|fuel]]]]; reflexivity. Qed.

(** Different strings with a NUL compare as equal. *)
Theorem strncmp_stops_at_nul : strncmp [97; 0; 98] [97; 0; 99] = 0 /\ memcmp [97; 0; 98] [97; 0; 99] = -1.
Proof. done. Qed.
End StrSamples.

Lemma cu_str_sharing_invisible_witness : exists V rs, StrSamples.prog_result = Some (V, rs) /\ V !! 2%N = Some [97; 98; 100] /\
  exists rs' h, run StrSamples.junk StrSamples.prog empty_heap = Some (rs', h) /\ values h = V /\ Forall2 (result_ok h) rs' rs.
Proof.
  destruct StrSamples.prog_result as [[V rs]|] eqn:E; [|by vm_compute in E]. exists V, rs. split; [done|]. split.
  - vm_compute in E. by injection E as <- _.
  - apply (cu_str_sharing_invisible StrSamples.junk StrSamples.prog V rs E).
Defined.

Lemma cu_str_quote_roundtrip_witness : exists h V P, rep h V P /\ V !! 0%N = Some [97; 10; 34] /\
  exists s h' q, cu_str_quote StrSamples.junk 0 h = Some (s, h') /\ V !! s = None /\ rep h' (<[s := q]> V) P /\
    forall w, unquote (q ++ w) = Some ([97; 10; 34], w).
Proof.
  destruct (run_ok StrSamples.junk [New_charr [97; 10; 34]] empty_heap ∅ [] (<[0%N := [97; 10; 34]]> ∅) [Obj 0%N]) as (rs & h & _ & P & Hr & _).
  - apply rep_empty_heap.
  - vm_compute. reflexivity.
  - exists h, (<[0%N := [97; 10; 34]]> ∅), ([] ++ P). split; [exact Hr|]. split; [reflexivity|].
    apply (cu_str_quote_roundtrip StrSamples.junk h _ ([] ++ P) 0%N [97; 10; 34] Hr); [reflexivity|vm_compute; reflexivity].
Defined.
