(* ===== verification/Hzmap.v ===== *)
(** * Hash maps with flat keys: [cucon/hzmap.h], [cucon/hzmap.c]

    The keys are arrays of [key_size_w] words in the nodes; a node is the pair of its key
    and what follows it.  The configuration is that of the header, in which the capacity
    is kept as its exponent ([CUCON_HZMAP_COMPACT]), without [CUCONF_OPT_SPEED].
    A failed assertion and an access outside of the array are the error [None]. *)

From S2P Require Export Hash Buckets.

Definition INIT_CAP_EXPT : Z := 2.
Definition INIT_CAP : Z := wshl 1 INIT_CAP_EXPT.
Definition MINFILL_NUMER : Z := 1.
Definition MINFILL_DENOM : Z := 2.
Definition MAXFILL_NUMER : Z := 3.
Definition MAXFILL_DENOM : Z := 2.

Abbreviation key := (list Z).

(** [key_hash], [key_hash_1w], [key_hash_2w] *)
Definition key_hash (key_size_w : Z) (k : key) : option Z := cu_wordarr_hash_noinit_bj key_size_w k.
Definition key_hash_1w (k : key) : option Z := d0 ← k !! 0%nat; Some (cu_1word_hash_noinit_bj d0).
Definition key_hash_2w (k : key) : option Z :=
  d0 ← k !! 0%nat; d1 ← k !! 1%nat; Some (cu_2word_hash_noinit_bj d0 d1).

(** [key_eq] and [key_copy] look at [key_size_w] words. *)
Definition key_copy (key_size_w : Z) (k : key) : key := take (Z.to_nat key_size_w) k.
Definition key_eq (key_size_w : Z) (k0 k1 : key) : bool :=
  bool_decide (take (Z.to_nat key_size_w) k0 = take (Z.to_nat key_size_w) k1).

Record hzmap (V : Type) := mk_hzmap {
  key_size_w : Z; cap_expt : Z; hz_size : Z; hz_arr : list (list (key * V));
}.
Arguments mk_hzmap {V}.
Arguments key_size_w {V}.
Arguments cap_expt {V}.
Arguments hz_size {V}.
Arguments hz_arr {V}.

(** Loops over the heads of the buckets: [f] goes through a bucket until it says stop. *)
Fixpoint loop_heads {V S} (f : S -> list (key * V) -> S * bool) (a : list (list (key * V))) (n i : nat) (s : S)
    : option (S * bool) :=
  match n with
  | O => Some (s, true)
  | S n =>
      b ← a !! i;
      let '(s, ok) := f s b in
      if ok : bool then loop_heads f a n (Datatypes.S i) s else Some (s, false)
  end.

Section hzmap.
Context {V : Type}.
Implicit Types (map : hzmap V) (k : key) (node : key * V) (b : list (key * V)).

Definition map_cap map : Z := wshl 1 (cap_expt map).
Definition map_cap_est map : Z := map_cap map.
Definition map_mask map : Z := wsub (map_cap map) 1.
Definition cucon_hzmap_size map : Z := hz_size map.
Definition cucon_hzmap_capacity map : Z := wshl 1 (cap_expt map).

Definition with_arr (a : list (list (key * V))) map : hzmap V :=
  mk_hzmap (key_size_w map) (cap_expt map) (hz_size map) a.
Definition with_hz_size (f : Z -> Z) map : hzmap V :=
  mk_hzmap (key_size_w map) (cap_expt map) (f (hz_size map)) (hz_arr map).

Definition cucon_hzmap_init (key_size_w : Z) : hzmap V :=
  mk_hzmap key_size_w INIT_CAP_EXPT 0 (replicate (Z.to_nat INIT_CAP) []).
Definition cucon_hzmap_new (key_size_w : Z) : hzmap V := cucon_hzmap_init key_size_w.

(** ** Capacity *)

(** [for (i = new_cap; i < old_cap; ++i)]: an upper bucket goes to the end of a lower one. *)
Fixpoint shrink_loop (old_arr : list (list (key * V))) (new_mask : Z) (turns i : nat) (new_arr : list (list (key * V)))
    : option (list (list (key * V))) :=
  match turns with
  | O => Some new_arr
  | S turns =>
      b ← old_arr !! i;
      new_arr ← match b with
                | [] => Some new_arr
                | _ =>
                    let j := Z.to_nat (Z.of_nat i &&& new_mask) in
                    p ← new_arr !! j; Some (<[j := p ++ b]> new_arr)
                end;
      shrink_loop old_arr new_mask turns (S i) new_arr
  end.

Definition shrink map (new_cap : Z) : option (hzmap V) :=
  if new_cap <? INIT_CAP then Some map
  else
    let old_cap := map_cap map in
    if (0 <? new_cap) && (new_cap <? old_cap) && (wsub new_cap 1 &&& new_cap =? 0) then
      let new_mask := wsub new_cap 1 in
      new_arr ← shrink_loop (hz_arr map) new_mask (Z.to_nat (old_cap - new_cap)) (Z.to_nat new_cap)
                  (take (Z.to_nat new_cap) (hz_arr map));
      Some (mk_hzmap (key_size_w map) (cu_size_ceil_log2 new_cap) (hz_size map) new_arr)
    else None.

(** The nodes of a bucket go to the heads of new ones. *)
Fixpoint expand_bucket (key_size_w new_mask : Z) b (new_arr : list (list (key * V)))
    : option (list (list (key * V))) :=
  match b with
  | [] => Some new_arr
  | node :: b =>
      h ← key_hash key_size_w node.1;
      let j := Z.to_nat (h &&& new_mask) in
      p ← new_arr !! j;
      expand_bucket key_size_w new_mask b (<[j := node :: p]> new_arr)
  end.

Fixpoint expand_loop (key_size_w new_mask : Z) (old_arr new_arr : list (list (key * V)))
    : option (list (list (key * V))) :=
  match old_arr with
  | [] => Some new_arr
  | b :: old_arr =>
      new_arr ← expand_bucket key_size_w new_mask b new_arr;
      expand_loop key_size_w new_mask old_arr new_arr
  end.

Definition expand map (new_cap : Z) : option (hzmap V) :=
  let old_cap := map_cap map in
  if (old_cap <? new_cap) && (wsub new_cap 1 &&& new_cap =? 0) then
    let new_mask := wsub new_cap 1 in
    new_arr ← expand_loop (key_size_w map) new_mask (take (Z.to_nat old_cap) (hz_arr map))
                (replicate (Z.to_nat new_cap) []);
    Some (mk_hzmap (key_size_w map) (cu_size_ceil_log2 new_cap) (hz_size map) new_arr)
  else None.

Definition cucon_hzmap_prepare_insert map (count : Z) : option (hzmap V) :=
  let new_size := wadd (hz_size map) count in
  if wmul64 (map_cap_est map) MAXFILL_NUMER <? wmul64 new_size MAXFILL_DENOM then
    expand map (cu_size_exp2ceil (wmul64 new_size MINFILL_DENOM / MINFILL_NUMER))
  else Some map.

(** ** Search *)

Fixpoint node_find (key_size_w : Z) k b : option (key * V) :=
  match b with
  | [] => None
  | node :: b => if key_eq key_size_w node.1 k then Some node else node_find key_size_w k b
  end.

Definition find_at map k (h : option Z) : option (option (key * V)) :=
  h ← h; b ← hz_arr map !! Z.to_nat (h &&& map_mask map); Some (node_find (key_size_w map) k b).

Definition cucon_hzmap_find map k : option (option (key * V)) := find_at map k (key_hash (key_size_w map) k).

Definition cucon_hzmap_1w_find map k : option (option (key * V)) :=
  if key_size_w map =? 1 then find_at map k (key_hash_1w k) else None.

Definition cucon_hzmap_2w_find map k : option (option (key * V)) :=
  if key_size_w map =? 2 then find_at map k (key_hash_2w k) else None.

(** ** Insertion *)

Definition maybe_expand map : option (hzmap V) :=
  if wmul64 (map_cap_est map) MAXFILL_NUMER <? wmul64 (hz_size map) MAXFILL_DENOM
  then expand map (wmul64 (map_cap map) 2) else Some map.

(** The loop over the bucket: the node that has the key, or the bucket with [node] linked at its end.
    [CU_GCLEAR_PTR] does nothing, so that the link of [node] stays as it is: [next] are the nodes
    that it leads to, and they are linked with it. *)
Definition insert_at map k node (next : list (key * V)) : option (option (key * V) * hzmap V) :=
  h ← key_hash (key_size_w map) k;
  let index := Z.to_nat (h &&& map_mask map) in
  p ← hz_arr map !! index;
  match node_find (key_size_w map) k p with
  | Some found => Some (Some found, map)
  | None =>
      Some (None, with_hz_size (fun s => wadd s 1) (with_arr (<[index := p ++ node :: next]> (hz_arr map)) map))
  end.

(** [next] are the nodes that the link of the client's node leads to when it is linked.  The buckets are those that
    a traversal sees after the call; nodes in two buckets are the same objects, which a later change reaches through
    both, and a link back into the bucket makes a cycle: neither has a representation here. *)
Definition cucon_hzmap_insert_node map node (next : list (key * V)) : option (bool * hzmap V) :=
  map ← maybe_expand map;
  '(found, map) ← insert_at map node.1 node next;
  Some (match found with Some _ => false | None => true end, map).

(** With the result, the node that is assigned to [*node_out].  New memory is cleared: the link is [NULL], and
    behind the key there is [zero]. *)
Definition cucon_hzmap_insert (zero : V) map k : option (bool * (key * V) * hzmap V) :=
  map ← maybe_expand map;
  let node := (key_copy (key_size_w map) k, zero) in
  '(found, map) ← insert_at map k node [];
  Some (match found with Some node0 => (false, node0) | None => (true, node) end, map).

Definition cucon_hzmap_insert_void (void : V) map k : option (bool * hzmap V) :=
  map ← maybe_expand map;
  '(found, map) ← insert_at map k (key_copy (key_size_w map) k, void) [];
  Some (match found with Some _ => false | None => true end, map).

(** ** Removal *)

Fixpoint node_unlink (key_size_w : Z) k b : option (list (key * V)) :=
  match b with
  | [] => None
  | node :: b =>
      if key_eq key_size_w node.1 k then Some b
      else match node_unlink key_size_w k b with Some b => Some (node :: b) | None => None end
  end.

Definition cucon_hzmap_step_erase map k : option (bool * hzmap V) :=
  h ← key_hash (key_size_w map) k;
  let index := Z.to_nat (h &&& map_mask map) in
  p ← hz_arr map !! index;
  match node_unlink (key_size_w map) k p with
  | Some p => Some (true, with_hz_size (fun s => wsub s 1) (with_arr (<[index := p]> (hz_arr map)) map))
  | None => Some (false, map)
  end.

Definition cucon_hzmap_finish_erase map : option (hzmap V) :=
  if wmul64 (hz_size map) MINFILL_DENOM <? wmul64 (map_cap_est map) MINFILL_NUMER
  then shrink map (map_cap map / 2) else Some map.

Definition cucon_hzmap_erase map k : option (bool * hzmap V) :=
  '(found, map) ← cucon_hzmap_step_erase map k;
  if found : bool then
    map ← (if wmul64 (hz_size map) MINFILL_DENOM <? wmul64 (map_cap_est map) MINFILL_NUMER
           then shrink map (map_cap map / 2) else Some map);
    Some (true, map)
  else Some (false, map).

(** ** Traversal *)

Section traversal.
Context {S : Type}.
Implicit Types (s : S).

Definition cucon_hzmap_forall (f : S -> key * V -> S * bool) map s : option (S * bool) :=
  loop_heads (fun s b => conj_list f b s) (hz_arr map) (Z.to_nat (map_cap map)) 0 s.

Definition cucon_hzmap_forall_keys (f : S -> key -> S * bool) map s : option (S * bool) :=
  loop_heads (fun s b => conj_list (fun s node => f s node.1) b s) (hz_arr map) (Z.to_nat (map_cap map)) 0 s.

(** The nodes of a bucket that the callback wants to keep; the size counts down. *)
Fixpoint filter_bucket (f : S -> key * V -> S * bool) b (size : Z) s : list (key * V) * Z * S :=
  match b with
  | [] => ([], size, s)
  | node :: b =>
      let '(s, keep) := f s node in
      if keep : bool then let '(b, size, s) := filter_bucket f b size s in (node :: b, size, s)
      else filter_bucket f b (wsub size 1) s
  end.

Fixpoint filter_loop (f : S -> key * V -> S * bool) (turns i : nat) map s : option (hzmap V * S) :=
  match turns with
  | O => Some (map, s)
  | Datatypes.S turns =>
      b ← hz_arr map !! i;
      let '(b, size, s) := filter_bucket f b (hz_size map) s in
      filter_loop f turns (Datatypes.S i)
        (mk_hzmap (key_size_w map) (cap_expt map) size (<[i := b]> (hz_arr map))) s
  end.

Definition cucon_hzmap_filter (f : S -> key * V -> S * bool) map s : option (hzmap V * S) :=
  '(map, s) ← filter_loop f (Z.to_nat (map_cap map)) 0 map s;
  map ← cucon_hzmap_finish_erase map;
  Some (map, s).

Definition cucon_hzmap_filter_keys (f : S -> key -> S * bool) map s : option (hzmap V * S) :=
  '(map, s) ← filter_loop (fun s node => f s node.1) (Z.to_nat (map_cap map)) 0 map s;
  map ← cucon_hzmap_finish_erase map;
  Some (map, s).

End traversal.

(** ** Iterators: the buckets from [arr_cur] to [arr_end], and what is left of one *)

Record hzmap_itr := mk_hzmap_itr { arr_cur : list (list (key * V)); itr_node : list (key * V) }.

Definition cucon_hzmap_itr_init map : hzmap_itr :=
  mk_hzmap_itr (take (Z.to_nat (cucon_hzmap_capacity map)) (hz_arr map)) [].

(** [while (!node)] *)
Fixpoint itr_seek (cur : list (list (key * V))) : option (key * V) * hzmap_itr :=
  match cur with
  | [] => (None, mk_hzmap_itr [] [])
  | [] :: cur => itr_seek cur
  | (node :: b) :: cur => (Some node, mk_hzmap_itr cur b)
  end.

Definition cucon_hzmap_itr_get (itr : hzmap_itr) : option (key * V) * hzmap_itr :=
  match itr_node itr with
  | node :: b => (Some node, mk_hzmap_itr (arr_cur itr) b)
  | [] => itr_seek (arr_cur itr)
  end.

Definition cucon_hzmap_itr_get_key (itr : hzmap_itr) : option key * hzmap_itr :=
  let '(node, itr) := cucon_hzmap_itr_get itr in (option_map fst node, itr).

End hzmap.
