(* ===== verification/HzmapInv.v ===== *)
(** * Hash maps with flat keys: the invariant

    A map is well formed when its capacity is a power of two from four on, every key has
    the size of the map and is in the bucket of its hash, no key occurs twice and the
    size is the number of nodes. *)

From S2P Require Export Hzmap.

(** ** Keys and their hashes *)

Definition key_ok (kw : Z) (k : key) : Prop := Z.of_nat (length k) = kw /\ Forall word k.

Definition hz_hash (k : key) : Z := default 0 (key_hash (Z.of_nat (length k)) k).
Definition hz_index (e : Z) (k : key) : nat := Z.to_nat (hz_hash k mod 2 ^ e).

Lemma key_hash_ok kw k : key_ok kw k -> key_hash kw k = Some (hz_hash k) /\ word (hz_hash k).
Proof.
  intros [<- Hw]. unfold hz_hash, key_hash. rewrite wordarr_hash_noinit_eq.
  destruct (wordarr_hash_bj_spec k 0 Hw word_0) as (h & Hh & E). specialize (E []).
  rewrite app_nil_r in E. rewrite E. done.
Qed.

Lemma key_hash_1w_ok k : key_ok 1 k -> key_hash_1w k = Some (hz_hash k).
Proof.
  intros Hk. destruct (key_hash_ok 1 k Hk) as [<- _]. destruct Hk as [Hl Hw].
  destruct k as [|d0 [|d1 k]]; simpl in Hl; try lia. unfold key_hash, key_hash_1w.
  rewrite wordarr_hash_noinit_eq, (proj1 (word_hash_eq d0 0 0)). simpl.
  unfold cu_1word_hash_bj, cu_1word_hash_noinit_bj. inversion Hw. by rewrite wadd_0_l.
Qed.

Lemma key_hash_2w_ok k : key_ok 2 k -> key_hash_2w k = Some (hz_hash k).
Proof.
  intros Hk. destruct (key_hash_ok 2 k Hk) as [<- _]. destruct Hk as [Hl Hw].
  destruct k as [|d0 [|d1 [|d2 k]]]; simpl in Hl; try lia. unfold key_hash, key_hash_2w.
  rewrite wordarr_hash_noinit_eq, (proj2 (word_hash_eq d0 d1 0)). simpl.
  unfold cu_2word_hash_bj, cu_2word_hash_noinit_bj. inversion Hw as [|? ? ? Hw']. inversion Hw'.
  by rewrite !wadd_0_l.
Qed.

Lemma key_eq_ok kw k0 k1 : key_ok kw k0 -> key_ok kw k1 -> key_eq kw k0 k1 = bool_decide (k0 = k1).
Proof. intros [<- _] [H1 _]. unfold key_eq. by rewrite !firstn_all2 by lia. Qed.

Lemma key_copy_ok kw k : key_ok kw k -> key_copy kw k = k.
Proof. intros [<- _]. unfold key_copy. apply firstn_all2. lia. Qed.

(** ** Powers of two *)

Lemma pow_bounds e : 2 <= e <= 60 -> 4 <= 2 ^ e <= 2 ^ 60.
Proof.
  intros He. pose proof (Z.pow_le_mono_r 2 2 e ltac:(lia) ltac:(lia)).
  pose proof (Z.pow_le_mono_r 2 e 60 ltac:(lia) ltac:(lia)). lia.
Qed.

Lemma wshl_1_pow e : 0 <= e <= 60 -> wshl 1 e = 2 ^ e.
Proof.
  intros He. unfold wshl. rewrite Z.shiftl_1_l, wrap_small; [done|].
  pose proof (Z.pow_le_mono_r 2 e 60 ltac:(lia) ltac:(lia)). unfold word.
  pose proof (Z.pow_pos_nonneg 2 e). lia.
Qed.

Lemma wsub_pow e : 2 <= e <= 60 -> wsub (2 ^ e) 1 = 2 ^ e - 1.
Proof. intros He. pose proof (pow_bounds e He). unfold wsub. apply wrap_small. unfold word. lia. Qed.

Lemma pow_power_of_two e : 2 <= e <= 60 -> (wsub (2 ^ e) 1 &&& 2 ^ e =? 0) = true.
Proof.
  intros He. rewrite wsub_pow, Z.land_comm, land_pow, Z.mod_same by (try lia; apply Z.pow_nonzero; lia). done.
Qed.

Lemma ceil_log2_pow e : 2 <= e <= 60 -> cu_size_ceil_log2 (2 ^ e) = e.
Proof.
  intros He. pose proof (pow_bounds e He). unfold cu_size_ceil_log2.
  destruct log2_correct as (_ & _ & Hlog). rewrite (proj2 (Hlog (2 ^ e) ltac:(lia))). apply Z.log2_up_pow2. lia.
Qed.

(** ** The invariant *)

Section inv.
Context {V : Type}.
Implicit Types (map : hzmap V) (k : key) (node : key * V) (b : list (key * V)) (a : list (list (key * V))).

Record hz_wf map : Prop := {
  hw_kw : 0 <= key_size_w map;
  hw_expt : 2 <= cap_expt map <= 60;
  hw_len : length (hz_arr map) = Z.to_nat (2 ^ cap_expt map);
  hw_table : table (hz_index (cap_expt map)) (hz_arr map);
  hw_keys : Forall (fun node => key_ok (key_size_w map) node.1) (concat (hz_arr map));
  hw_size : hz_size map = Z.of_nat (length (concat (hz_arr map)));
  hw_small : hz_size map <= 2 ^ 59;
}.

Definition is_hzmap map (M : gmap key V) : Prop := hz_wf map /\ contents (hz_arr map) = M.

Lemma map_cap_eq map : hz_wf map -> map_cap map = 2 ^ cap_expt map.
Proof. intros Hm. apply wshl_1_pow. pose proof (hw_expt map Hm). lia. Qed.

Lemma map_mask_eq map : hz_wf map -> map_mask map = 2 ^ cap_expt map - 1.
Proof. intros Hm. unfold map_mask. rewrite map_cap_eq by done. apply wsub_pow, Hm. Qed.

Lemma index_eq map h : hz_wf map -> h &&& map_mask map = h mod 2 ^ cap_expt map.
Proof. intros Hm. rewrite map_mask_eq by done. apply land_pow. pose proof (hw_expt map Hm). lia. Qed.

Lemma hz_index_lt e k : 0 <= e -> (hz_index e k < Z.to_nat (2 ^ e))%nat.
Proof.
  intros He. unfold hz_index. pose proof (Z.mod_pos_bound (hz_hash k) (2 ^ e) ltac:(lia)). lia.
Qed.

Lemma bucket_exists map k : hz_wf map -> exists b, hz_arr map !! hz_index (cap_expt map) k = Some b.
Proof.
  intros Hm. apply lookup_lt_is_Some. rewrite (hw_len map Hm). apply hz_index_lt.
  pose proof (hw_expt map Hm). lia.
Qed.

Lemma bucket_keys map i b :
  hz_wf map -> hz_arr map !! i = Some b -> Forall (fun node => key_ok (key_size_w map) node.1) b.
Proof.
  intros Hm Hi. pose proof (hw_keys map Hm) as Hk. rewrite list.Forall_forall in Hk |- *.
  intros node Hin. apply Hk, elem_nodes. eauto.
Qed.

Lemma node_find_assoc kw k b :
  key_ok kw k -> Forall (fun node => key_ok kw node.1) b -> node_find kw k b = assoc k b.
Proof.
  intros Hk. induction 1 as [|node b Hn _ IH]; [done|]. simpl. rewrite (key_eq_ok kw) by done. rewrite IH.
  by destruct (decide (node.1 = k)), (bool_decide_reflect (node.1 = k)).
Qed.

Lemma node_unlink_spec kw k b :
  key_ok kw k -> Forall (fun node => key_ok kw node.1) b ->
  match assoc k b with
  | Some node => exists b', node_unlink kw k b = Some b' /\ b ≡ₚ node :: b'
  | None => node_unlink kw k b = None
  end.
Proof.
  intros Hk. induction 1 as [|node b Hn _ IH]; [done|]. simpl. rewrite (key_eq_ok kw) by done.
  destruct (decide (node.1 = k)), (bool_decide_reflect (node.1 = k)); try done; [by exists b|].
  destruct (assoc k b) as [n'|]; [|by rewrite IH]. destruct IH as (b' & -> & Hp).
  exists (node :: b'). split; [done|]. rewrite Hp. apply Permutation_swap.
Qed.

(** The size is that of the finite map. *)
Lemma hz_size_contents map : hz_wf map -> hz_size map = Z.of_nat (base.size (contents (hz_arr map))).
Proof. intros Hm. by rewrite (contents_size (hz_index (cap_expt map))), <- hw_size by apply Hm. Qed.

Lemma hz_init kw : 0 <= kw -> is_hzmap (cucon_hzmap_init kw) (∅ : gmap key V).
Proof.
  intros Hk. destruct (table_empty (V := V) (hz_index 2) 4) as [Ht Hc]. split; [|exact Hc].
  constructor; simpl; done.
Qed.

(** ** Capacity *)

(** Other buckets with the same nodes. *)
Lemma rearranged map e a :
  hz_wf map -> 2 <= e <= 60 -> length a = Z.to_nat (2 ^ e) -> at_index (hz_index e) a ->
  concat a ≡ₚ concat (hz_arr map) ->
  is_hzmap (mk_hzmap (key_size_w map) e (hz_size map) a) (contents (hz_arr map)).
Proof.
  intros Hm He Hl Ha Hp. destruct Hm as [Hkw _ _ [_ Hd] Hk Hs Hsm]. split.
  - constructor; simpl; [done|done|done| | | |done].
    + split; [done|]. by rewrite Hp.
    + by rewrite Hp.
    + by rewrite Hp.
  - by apply list_to_map_perm.
Qed.

Lemma mod_pow_half x e : 0 <= e -> (x mod 2 ^ (e + 1)) mod 2 ^ e = x mod 2 ^ e.
Proof.
  intros He. apply Z.bits_inj'. intros n Hn. rewrite !Z.testbit_mod_pow2 by lia.
  destruct (Z.ltb_spec n e), (Z.ltb_spec n (e + 1)); try lia; done.
Qed.

(** A bucket of the double capacity belongs to that of the remainder. *)
Lemma hz_index_half e k i : 0 <= e -> i = hz_index (e + 1) k -> hz_index e k = Z.to_nat (Z.of_nat i mod 2 ^ e).
Proof.
  intros He ->. unfold hz_index. rewrite Z2Nat.id by (apply Z.mod_pos_bound; lia).
  by rewrite mod_pow_half.
Qed.

Lemma shrink_loop_spec e (old : list (list (key * V))) turns i new :
  0 <= e -> length old = (i + turns)%nat -> at_index (hz_index (e + 1)) old ->
  length new = Z.to_nat (2 ^ e) -> at_index (hz_index e) new ->
  exists new', shrink_loop old (2 ^ e - 1) turns i new = Some new' /\ length new' = length new /\
    at_index (hz_index e) new' /\ concat new' ≡ₚ concat new ++ concat (drop i old).
Proof.
  intros He Hl Hold. revert i new Hl. induction turns as [|turns IH]; intros i new Hl Hn Hnew; simpl.
  - rewrite drop_ge by lia. exists new. by rewrite app_nil_r.
  - destruct (lookup_lt_is_Some_2 old i) as [b Hb]; [lia|]. rewrite Hb, (drop_S _ b) by done. simpl.
    rewrite land_pow by done. set (j := Z.to_nat (Z.of_nat i mod 2 ^ e)).
    assert (Hj : (j < length new)%nat).
    { pose proof (Z.mod_pos_bound (Z.of_nat i) (2 ^ e) ltac:(lia)). lia. }
    destruct (lookup_lt_is_Some_2 new j Hj) as [p Hp]. rewrite Hp. simpl.
    assert (Hstep : exists new1, match b with [] => Some new | _ => Some (<[j := p ++ b]> new) end = Some new1 /\
      length new1 = length new /\ at_index (hz_index e) new1 /\ concat new1 ≡ₚ b ++ concat new).
    { destruct b as [|n0 b]; [by exists new|]. eexists. split; [done|]. split; [by rewrite length_insert|]. split.
      - intros j' c n Hj' Hin. destruct (decide (j' = j)) as [->|Hne].
        + rewrite list_lookup_insert_eq in Hj' by done. injection Hj' as <-.
          apply elem_of_app in Hin as [Hin|Hin]; [by apply (Hnew _ p)|].
          symmetry. apply hz_index_half; [done|]. by apply (Hold _ (n0 :: b)).
        + rewrite list_lookup_insert_ne in Hj' by done. by apply (Hnew j' c).
      - destruct (concat_insert _ _ _ Hp) as (rest & Hc & Hc'). rewrite Hc', Hc.
        rewrite (Permutation_app_comm p), <- app_assoc. done. }
    destruct Hstep as (new1 & -> & Hl1 & Hnew1 & Hc1). simpl.
    destruct (IH (S i) new1) as (new' & -> & Hl' & Hnew' & Hc'); [lia|lia|done|].
    exists new'. split_and!; [done|lia|done|]. rewrite Hc', Hc1, (Permutation_app_comm b), <- app_assoc. done.
Qed.

Lemma shrink_spec_half map :
  hz_wf map -> exists map', shrink map (map_cap map / 2) = Some map' /\
    is_hzmap map' (contents (hz_arr map)) /\ key_size_w map' = key_size_w map.
Proof.
  intros Hm. unfold shrink, INIT_CAP. change (wshl 1 INIT_CAP_EXPT) with 4. rewrite map_cap_eq by done.
  pose proof (hw_expt map Hm) as He. set (e := cap_expt map - 1).
  assert (Ee : cap_expt map = e + 1) by lia. rewrite Ee, Z.pow_add_r by lia.
  change (2 ^ 1) with 2. rewrite Z.div_mul by lia. destruct (Z.ltb_spec (2 ^ e) 4) as [Hlt|Hge]; [by exists map|].
  assert (He2 : 2 <= e) by (destruct (Z.le_gt_cases 2 e); [done|]; pose proof (Z.pow_le_mono_r 2 e 1); lia).
  pose proof (pow_bounds e ltac:(lia)) as Hb.
  rewrite (proj2 (Z.ltb_lt 0 _)), (proj2 (Z.ltb_lt _ (2 ^ e * 2))), pow_power_of_two by lia. simpl.
  rewrite wsub_pow, ceil_log2_pow by lia. pose proof (hw_len map Hm) as Hlen.
  rewrite Ee, Z.pow_add_r in Hlen by lia. change (2 ^ 1) with 2 in Hlen.
  destruct (hw_table map Hm) as [Hat Hd]. rewrite Ee in Hat.
  destruct (shrink_loop_spec e (hz_arr map) (Z.to_nat (2 ^ e * 2 - 2 ^ e)) (Z.to_nat (2 ^ e))
              (take (Z.to_nat (2 ^ e)) (hz_arr map))) as (a & E & Hl & Ha & Hc).
  - lia.
  - lia.
  - done.
  - rewrite length_take. lia.
  - intros i b n [Hi Hlt]%lookup_take_Some Hin. pose proof (Hat _ _ _ Hi Hin) as Hi'.
    rewrite (hz_index_half e _ i), Z.mod_small by lia. lia.
  - rewrite E. simpl. eexists. split; [done|]. split; [|done]. apply rearranged; try done; try lia.
    + rewrite Hl, length_take. lia.
    + rewrite Hc, <- concat_app, take_drop. done.
Qed.

Lemma expand_bucket_spec kw e b new :
  0 <= e -> Forall (fun node => key_ok kw node.1) b -> length new = Z.to_nat (2 ^ e) -> at_index (hz_index e) new ->
  exists new', expand_bucket kw (2 ^ e - 1) b new = Some new' /\ length new' = length new /\
    at_index (hz_index e) new' /\ concat new' ≡ₚ b ++ concat new.
Proof.
  intros He Hk. revert new. induction Hk as [|node b Hn _ IH]; intros new Hl Hnew; simpl; [by exists new|].
  rewrite (proj1 (key_hash_ok kw _ Hn)). simpl. rewrite land_pow by done. fold (hz_index e node.1).
  destruct (lookup_lt_is_Some_2 new (hz_index e node.1)) as [p Hp]; [rewrite Hl; by apply hz_index_lt|].
  rewrite Hp. simpl. destruct (IH (<[hz_index e node.1 := node :: p]> new)) as (new' & -> & Hl' & Hnew' & Hc).
  - by rewrite length_insert.
  - intros j c n Hj Hin. destruct (decide (j = hz_index e node.1)) as [->|Hne].
    + rewrite list_lookup_insert_eq in Hj by by eapply lookup_lt_Some. injection Hj as <-.
      apply elem_of_cons in Hin as [->|Hin]; [done|]. by apply (Hnew _ p).
    + rewrite list_lookup_insert_ne in Hj by done. by apply (Hnew j c).
  - exists new'. rewrite length_insert in Hl'. split_and!; [done|done|done|].
    destruct (concat_insert _ _ _ Hp) as (rest & H1 & H2). rewrite Hc, H2, H1. symmetry. apply (Permutation_middle b (p ++ rest) node).
Qed.

Lemma expand_loop_spec kw e bs new :
  0 <= e -> Forall (fun node => key_ok kw node.1) (concat bs) -> length new = Z.to_nat (2 ^ e) ->
  at_index (hz_index e) new ->
  exists new', expand_loop kw (2 ^ e - 1) bs new = Some new' /\ length new' = length new /\
    at_index (hz_index e) new' /\ concat new' ≡ₚ concat bs ++ concat new.
Proof.
  intros He. revert new. induction bs as [|b bs IH]; intros new Hk Hl Hnew; simpl; [by exists new|].
  simpl in Hk. apply list.Forall_app in Hk as [Hb Hk].
  destruct (expand_bucket_spec kw e b new He Hb Hl Hnew) as (n1 & -> & Hl1 & Hn1 & Hc1). simpl.
  destruct (IH n1 Hk) as (n2 & -> & Hl2 & Hn2 & Hc2); [lia|done|]. exists n2. split_and!; [done|lia|done|].
  rewrite Hc2, Hc1, !app_assoc. f_equiv. apply Permutation_app_comm.
Qed.

Lemma expand_spec map e :
  hz_wf map -> cap_expt map < e <= 60 ->
  exists map', expand map (2 ^ e) = Some map' /\ is_hzmap map' (contents (hz_arr map)) /\
    key_size_w map' = key_size_w map.
Proof.
  intros Hm He. pose proof (hw_expt map Hm) as Hx. unfold expand. rewrite map_cap_eq by done.
  rewrite (proj2 (Z.ltb_lt _ _)) by (apply Z.pow_lt_mono_r; lia). rewrite pow_power_of_two by lia. simpl.
  rewrite wsub_pow, ceil_log2_pow by lia. rewrite firstn_all2 by (rewrite (hw_len map Hm); done).
  destruct (table_empty (V := V) (hz_index e) (Z.to_nat (2 ^ e))) as [[Ht _] _].
  destruct (expand_loop_spec (key_size_w map) e (hz_arr map) (replicate (Z.to_nat (2 ^ e)) []))
    as (a & -> & Hl & Ha & Hc); [lia|apply Hm|by rewrite length_replicate|done|].
  rewrite concat_replicate_nil, app_nil_r in Hc. rewrite length_replicate in Hl.
  eexists. split; [done|]. split; [|done]. apply rearranged; try done. lia.
Qed.

End inv.
