(* ===== verification/HzmapOps.v ===== *)
(** * Hash maps with flat keys: the operations

    Search, insertion, removal, changes of the capacity, filters and iterators do what
    the operations on a finite map from keys do. *)

From S2P Require Export HzmapInv.

Section ops.
Context {V : Type}.
Implicit Types (map : hzmap V) (M : gmap key V) (k : key) (v : V) (node : key * V) (b : list (key * V)).

(** The products in the tests do not wrap around. *)
Lemma hz_products map n :
  hz_wf map -> 0 <= n <= 2 ^ 60 ->
  wmul64 (map_cap_est map) MAXFILL_NUMER = 3 * 2 ^ cap_expt map /\
  wmul64 (map_cap_est map) MINFILL_NUMER = 2 ^ cap_expt map /\
  wmul64 n 2 = 2 * n /\ wmul64 (map_cap map) 2 = 2 ^ (cap_expt map + 1).
Proof.
  intros Hm Hn. pose proof (hw_expt map Hm). pose proof (pow_bounds _ (hw_expt map Hm)).
  unfold map_cap_est. rewrite map_cap_eq by done. unfold wmul64, MAXFILL_NUMER, MINFILL_NUMER.
  rewrite Z.pow_add_r by lia. rewrite !wrap_small by (unfold word; lia). lia.
Qed.

Lemma hz_size_bounds map : hz_wf map -> 0 <= hz_size map <= 2 ^ 59.
Proof. intros Hm. pose proof (hw_small map Hm). rewrite (hw_size map Hm) in *. lia. Qed.

(** A capacity below a bound can be doubled. *)
Lemma cap_below map n : hz_wf map -> 3 * 2 ^ cap_expt map < 2 * n -> n <= 2 ^ 59 -> cap_expt map < 60.
Proof.
  intros Hm H1 H2. destruct (Z.lt_ge_cases (cap_expt map) 60) as [|Hge]; [done|].
  pose proof (Z.pow_le_mono_r 2 60 (cap_expt map)). lia.
Qed.

Lemma maybe_expand_spec map M :
  is_hzmap map M ->
  exists map', maybe_expand map = Some map' /\ is_hzmap map' M /\ key_size_w map' = key_size_w map.
Proof.
  intros [Hm <-]. pose proof (hz_size_bounds map Hm). unfold maybe_expand, MAXFILL_DENOM.
  destruct (hz_products map (hz_size map) Hm) as (-> & _ & -> & ->); [lia|].
  destruct (Z.ltb_spec (3 * 2 ^ cap_expt map) (2 * hz_size map)) as [Hlt|_]; [|by exists map].
  apply expand_spec; [done|]. pose proof (cap_below map _ Hm Hlt). lia.
Qed.

Lemma size_exp2ceil_eq n : cu_size_exp2ceil n = cu_ulong_exp2_ceil_log2 n.
Proof. unfold cu_size_exp2ceil, cu_ulong_exp2_ceil_log2, cu_size_dcover, cu_ulong_dcover. exact eq_refl. Qed.

(** [prepare_insert] makes room and keeps the map. *)
Lemma prepare_insert_spec map M count :
  is_hzmap map M -> 0 <= count -> hz_size map + count <= 2 ^ 59 ->
  exists map', cucon_hzmap_prepare_insert map count = Some map' /\ is_hzmap map' M /\
    key_size_w map' = key_size_w map.
Proof.
  intros [Hm <-] Hc Hs. pose proof (hz_size_bounds map Hm). unfold cucon_hzmap_prepare_insert, MAXFILL_DENOM, MINFILL_DENOM, MINFILL_NUMER.
  unfold wadd. rewrite wrap_small by (unfold word; lia). set (n := hz_size map + count).
  destruct (hz_products map n Hm) as (-> & _ & -> & _); [lia|].
  destruct (Z.ltb_spec (3 * 2 ^ cap_expt map) (2 * n)) as [Hlt|_]; [|by exists map].
  rewrite Z.div_1_r. pose proof (pow_bounds _ (hw_expt map Hm)).
  assert (E : cu_size_exp2ceil (2 * n) = 2 ^ Z.log2_up (2 * n)).
  { rewrite size_exp2ceil_eq, exp2_ceil_log2_correct, (proj2 (Z.ltb_lt _ _)), (proj2 (Z.leb_le _ _)) by lia. done. }
  rewrite E. apply expand_spec; [done|]. split.
  - apply (Z.pow_lt_mono_r_iff 2); [lia|apply Z.log2_up_nonneg|]. pose proof (Z.log2_up_spec (2 * n)). lia.
  - apply Z.log2_up_le_pow2; lia.
Qed.

(** ** Search *)

Lemma find_at_spec map M k :
  is_hzmap map M -> key_ok (key_size_w map) k ->
  exists o, find_at map k (Some (hz_hash k)) = Some o /\ o = option_map (pair k) (M !! k).
Proof.
  intros [Hm <-] Hk. destruct (bucket_exists map k Hm) as [b Hb]. unfold find_at. simpl.
  rewrite index_eq by done. fold (hz_index (cap_expt map) k). rewrite Hb. simpl. eexists. split; [done|].
  rewrite node_find_assoc by (done || by eapply bucket_keys).
  rewrite <- (table_lookup _ _ _ _ (hw_table map Hm) Hb).
  destruct (assoc k b) as [[k' v]|] eqn:E; [|done]. apply assoc_some in E as [_ E]. simpl in E. by rewrite E.
Qed.

Lemma hz_find_spec map M k :
  is_hzmap map M -> key_ok (key_size_w map) k ->
  cucon_hzmap_find map k = Some (option_map (pair k) (M !! k)).
Proof.
  intros Hm Hk. unfold cucon_hzmap_find. rewrite (proj1 (key_hash_ok _ _ Hk)).
  by destruct (find_at_spec map M k Hm Hk) as (o & -> & ->).
Qed.

(** The searches for keys of one and two words are the search. *)
Lemma hz_1w_find_spec map M k :
  is_hzmap map M -> key_size_w map = 1 -> key_ok 1 k -> cucon_hzmap_1w_find map k = cucon_hzmap_find map k.
Proof.
  intros Hm Hw Hk. unfold cucon_hzmap_1w_find, cucon_hzmap_find. rewrite Hw. simpl.
  by rewrite key_hash_1w_ok, (proj1 (key_hash_ok 1 k Hk)).
Qed.
Lemma hz_2w_find_spec map M k :
  is_hzmap map M -> key_size_w map = 2 -> key_ok 2 k -> cucon_hzmap_2w_find map k = cucon_hzmap_find map k.
Proof.
  intros Hm Hw Hk. unfold cucon_hzmap_2w_find, cucon_hzmap_find. rewrite Hw. simpl.
  by rewrite key_hash_2w_ok, (proj1 (key_hash_ok 2 k Hk)).
Qed.

(** ** Insertion *)

Lemma insert_at_spec map M k v :
  is_hzmap map M -> key_ok (key_size_w map) k -> hz_size map < 2 ^ 59 ->
  exists map', insert_at map k (k, v) [] =
      Some (option_map (pair k) (M !! k), map') /\ key_size_w map' = key_size_w map /\
    is_hzmap map' (match M !! k with Some _ => M | None => <[k := v]> M end).
Proof.
  intros [Hm HM] Hk Hs. destruct (bucket_exists map k Hm) as [b Hb]. unfold insert_at.
  rewrite (proj1 (key_hash_ok _ _ Hk)). simpl. rewrite index_eq by done. fold (hz_index (cap_expt map) k).
  rewrite Hb. simpl. rewrite node_find_assoc by (done || by eapply bucket_keys).
  pose proof (table_lookup _ _ _ _ (hw_table map Hm) Hb) as Hl. rewrite HM in Hl. rewrite <- Hl.
  destruct (assoc k b) as [[k' v']|] eqn:Ea; simpl in *.
  { apply assoc_some in Ea as [_ Ea]. simpl in Ea. subst k'. by exists map. }
  eexists. split; [done|]. split; [done|].
  destruct (table_add _ (hz_arr map) k v b (b ++ [(k, v)]) (hw_table map Hm) Hb) as (Ht & Hc & Hm').
  { by rewrite HM. }
  { by rewrite Permutation_app_comm. }
  pose proof (hz_size_bounds map Hm). split; [|by rewrite <- HM, <- Hm'].
  assert (E : wadd (hz_size map) 1 = hz_size map + 1) by (unfold wadd; apply wrap_small; unfold word; lia).
  destruct Hm as [H1 H2 H3 H4 H5 H6 H7]. constructor; simpl; rewrite ?E; [done|done| |done| | |lia].
  - by rewrite length_insert.
  - rewrite Hc. by apply list.Forall_cons.
  - rewrite Hc. simpl. lia.
Qed.

(** ** Removal *)

Lemma step_erase_spec map M k :
  is_hzmap map M -> key_ok (key_size_w map) k ->
  exists map', cucon_hzmap_step_erase map k = Some (bool_decide (is_Some (M !! k)), map') /\
    key_size_w map' = key_size_w map /\ is_hzmap map' (delete k M).
Proof.
  intros [Hm HM] Hk. destruct (bucket_exists map k Hm) as [b Hb]. unfold cucon_hzmap_step_erase.
  rewrite (proj1 (key_hash_ok _ _ Hk)). simpl. rewrite index_eq by done. fold (hz_index (cap_expt map) k).
  rewrite Hb. simpl. pose proof (table_lookup _ _ _ _ (hw_table map Hm) Hb) as Hl. rewrite HM in Hl.
  pose proof (node_unlink_spec (key_size_w map) k b Hk (bucket_keys map _ b Hm Hb)) as Hu. rewrite <- Hl.
  destruct (assoc k b) as [n|] eqn:Ea; simpl in *.
  - destruct Hu as (b' & -> & Hp). apply assoc_some in Ea as [_ Ea].
    destruct (table_remove _ (hz_arr map) _ b n b' (hw_table map Hm) Hb Hp) as (Ht & Hc & Hd & Hin).
    eexists. split; [done|]. split; [done|]. rewrite Ea, HM in Hd. split; [|done].
    pose proof (hz_size_bounds map Hm). destruct Hm as [H1 H2 H3 H4 H5 H6 H7]. rewrite Hc in H5, H6. simpl in H6.
    assert (E : wsub (hz_size map) 1 = hz_size map - 1) by (unfold wsub; apply wrap_small; unfold word; lia).
    constructor; simpl; rewrite ?E; [done|done| |done| |lia|lia].
    + by rewrite length_insert.
    + by inversion H5.
  - rewrite Hu. exists map. split; [done|]. split; [done|]. rewrite delete_id by done. done.
Qed.

Lemma maybe_shrink_spec map M :
  is_hzmap map M ->
  exists map', cucon_hzmap_finish_erase map = Some map' /\ key_size_w map' = key_size_w map /\ is_hzmap map' M.
Proof.
  intros [Hm <-]. unfold cucon_hzmap_finish_erase, MINFILL_DENOM. pose proof (hz_size_bounds map Hm).
  destruct (hz_products map (hz_size map) Hm) as (_ & -> & -> & _); [lia|].
  destruct (2 * hz_size map <? 2 ^ cap_expt map); [|by exists map].
  destruct (shrink_spec_half map Hm) as (m' & E & H1 & H2). by exists m'.
Qed.

Lemma hz_erase_spec map M k :
  is_hzmap map M -> key_ok (key_size_w map) k ->
  exists map', cucon_hzmap_erase map k = Some (bool_decide (is_Some (M !! k)), map') /\
    key_size_w map' = key_size_w map /\ is_hzmap map' (delete k M).
Proof.
  intros Hm Hk. destruct (step_erase_spec map M k Hm Hk) as (m1 & E & Hk1 & Hm1).
  unfold cucon_hzmap_erase. rewrite E. simpl. destruct (bool_decide (is_Some (M !! k))); [|by exists m1].
  destruct (maybe_shrink_spec m1 _ Hm1) as (m2 & E2 & Hk2 & Hm2). unfold cucon_hzmap_finish_erase in E2.
  rewrite E2. exists m2. split_and!; [done|congruence|done].
Qed.

End ops.

(** ** Sequences of operations *)

Inductive hz_op :=
  | Hz_insert (k : key) | Hz_insert_node (k : key) (v : Z) (next : list (key * Z)) | Hz_insert_void (k : key)
  | Hz_erase (k : key) | Hz_step_erase (k : key) | Hz_finish_erase | Hz_prepare_insert (count : Z)
  | Hz_find (k : key) | Hz_1w_find (k : key) | Hz_2w_find (k : key) | Hz_size.

Inductive hz_ret := Hz_bool (b : bool) | Hz_out (b : bool) (node_out : key * Z) | Hz_node (n : option (key * Z)) | Hz_word (w : Z) | Hz_unit.

(** Keys of the size of the map; the searches for one and two words in maps of that size.  The link of a node
    that the client inserts is [NULL]. *)
Definition hz_op_ok (kw : Z) (o : hz_op) : Prop :=
  match o with
  | Hz_insert k | Hz_insert_void k | Hz_erase k | Hz_step_erase k | Hz_find k => key_ok kw k
  | Hz_insert_node k _ next => key_ok kw k /\ next = []
  | Hz_1w_find k => key_ok kw k /\ kw = 1
  | Hz_2w_find k => key_ok kw k /\ kw = 2
  | Hz_prepare_insert count => 0 <= count <= 2 ^ 58
  | Hz_finish_erase | Hz_size => True
  end.

Definition hz_run_op (map : hzmap Z) (o : hz_op) : option (hz_ret * hzmap Z) :=
  match o with
  | Hz_insert k => '(b, node_out, map) ← cucon_hzmap_insert 0 map k; Some (Hz_out b node_out, map)
  | Hz_insert_node k v next => '(b, map) ← cucon_hzmap_insert_node map (k, v) next; Some (Hz_bool b, map)
  | Hz_insert_void k => '(b, map) ← cucon_hzmap_insert_void 0 map k; Some (Hz_bool b, map)
  | Hz_erase k => '(b, map) ← cucon_hzmap_erase map k; Some (Hz_bool b, map)
  | Hz_step_erase k => '(b, map) ← cucon_hzmap_step_erase map k; Some (Hz_bool b, map)
  | Hz_finish_erase => map ← cucon_hzmap_finish_erase map; Some (Hz_unit, map)
  | Hz_prepare_insert count => map ← cucon_hzmap_prepare_insert map count; Some (Hz_unit, map)
  | Hz_find k => n ← cucon_hzmap_find map k; Some (Hz_node n, map)
  | Hz_1w_find k => n ← cucon_hzmap_1w_find map k; Some (Hz_node n, map)
  | Hz_2w_find k => n ← cucon_hzmap_2w_find map k; Some (Hz_node n, map)
  | Hz_size => Some (Hz_word (cucon_hzmap_size map), map)
  end.

(** The same on a finite map. *)
Definition hz_ref_op (M : gmap key Z) (o : hz_op) : hz_ret * gmap key Z :=
  let put k v := match M !! k with Some _ => M | None => <[k := v]> M end in
  match o with
  | Hz_insert k => (Hz_out (bool_decide (M !! k = None)) (k, default 0 (M !! k)), put k 0)
  | Hz_insert_void k => (Hz_bool (bool_decide (M !! k = None)), put k 0)
  | Hz_insert_node k v _ => (Hz_bool (bool_decide (M !! k = None)), put k v)
  | Hz_erase k | Hz_step_erase k => (Hz_bool (bool_decide (is_Some (M !! k))), delete k M)
  | Hz_finish_erase | Hz_prepare_insert _ => (Hz_unit, M)
  | Hz_find k | Hz_1w_find k | Hz_2w_find k => (Hz_node (option_map (pair k) (M !! k)), M)
  | Hz_size => (Hz_word (Z.of_nat (base.size M)), M)
  end.

Fixpoint hz_run (map : hzmap Z) (os : list hz_op) : option (list hz_ret * hzmap Z) :=
  match os with
  | [] => Some ([], map)
  | o :: os => '(r, map) ← hz_run_op map o; '(rs, map) ← hz_run map os; Some (r :: rs, map)
  end.

Fixpoint hz_ref_run (M : gmap key Z) (os : list hz_op) : list hz_ret * gmap key Z :=
  match os with
  | [] => ([], M)
  | o :: os => let '(r, M) := hz_ref_op M o in let '(rs, M) := hz_ref_run M os in (r :: rs, M)
  end.

Lemma hz_insert_spec (map : hzmap Z) M k v :
  is_hzmap map M -> key_ok (key_size_w map) k -> hz_size map < 2 ^ 59 ->
  exists m1 map', maybe_expand map = Some m1 /\ key_copy (key_size_w m1) k = k /\
    insert_at m1 k (k, v) [] = Some (option_map (pair k) (M !! k), map') /\ key_size_w map' = key_size_w map /\
    is_hzmap map' (match M !! k with Some _ => M | None => <[k := v]> M end).
Proof.
  intros Hm Hk Hs. destruct (maybe_expand_spec map M Hm) as (m1 & E & Hm1 & Hk1).
  destruct (insert_at_spec m1 M k v Hm1) as (m2 & E2 & Hk2 & Hm2).
  - by rewrite Hk1.
  - destruct Hm as [Hm HM], Hm1 as [Hm1 HM1]. by rewrite (hz_size_contents m1 Hm1), HM1, <- HM, <- hz_size_contents.
  - exists m1, m2. split_and!; [done|apply key_copy_ok; by rewrite Hk1|done|congruence|done].
Qed.

Lemma hz_run_op_spec (map : hzmap Z) M o :
  is_hzmap map M -> hz_op_ok (key_size_w map) o -> hz_size map < 2 ^ 58 ->
  exists map', hz_run_op map o = Some ((hz_ref_op M o).1, map') /\ key_size_w map' = key_size_w map /\
    is_hzmap map' (hz_ref_op M o).2.
Proof.
  intros Hm Hk Hs. destruct o as [k|k v next|k|k|k| |count|k|k|k|]; cbn [hz_run_op hz_ref_op hz_op_ok fst snd] in *.
  - destruct (hz_insert_spec map M k 0 Hm Hk ltac:(lia)) as (m1 & m2 & E1 & Ec & E2 & Hk2 & Hm2).
    exists m2. unfold cucon_hzmap_insert. rewrite E1. simpl. rewrite Ec, E2. simpl. by destruct (M !! k).
  - destruct Hk as [Hk ->]. destruct (hz_insert_spec map M k v Hm Hk ltac:(lia)) as (m1 & m2 & E1 & _ & E2 & Hk2 & Hm2).
    exists m2. unfold cucon_hzmap_insert_node. rewrite E1. simpl. rewrite E2. simpl. by destruct (M !! k).
  - destruct (hz_insert_spec map M k 0 Hm Hk ltac:(lia)) as (m1 & m2 & E1 & Ec & E2 & Hk2 & Hm2).
    exists m2. unfold cucon_hzmap_insert_void. rewrite E1. simpl. rewrite Ec, E2. simpl. by destruct (M !! k).
  - destruct (hz_erase_spec map M k Hm Hk) as (m' & E & H1 & H2). exists m'. by rewrite E.
  - destruct (step_erase_spec map M k Hm Hk) as (m' & E & H1 & H2). exists m'. by rewrite E.
  - destruct (maybe_shrink_spec map M Hm) as (m' & E & H1 & H2). exists m'. by rewrite E.
  - destruct (prepare_insert_spec map M count Hm) as (m' & E & H1 & H2); [lia|lia|]. exists m'. by rewrite E.
  - exists map. by rewrite (hz_find_spec map M k Hm Hk).
  - destruct Hk as [Hk Hw]. exists map. rewrite (hz_1w_find_spec map M k Hm Hw) by by rewrite <- Hw.
    by rewrite (hz_find_spec map M k Hm Hk).
  - destruct Hk as [Hk Hw]. exists map. rewrite (hz_2w_find_spec map M k Hm Hw) by by rewrite <- Hw.
    by rewrite (hz_find_spec map M k Hm Hk).
  - exists map. unfold cucon_hzmap_size. by rewrite (hz_size_contents map (proj1 Hm)), (proj2 Hm).
Qed.

Lemma hz_ref_op_size M o : (base.size (hz_ref_op M o).2 <= S (base.size M))%nat.
Proof.
  assert (Hput : forall k v, (base.size (match M !! k with Some _ => M | None => <[k := v]> M end) <= S (base.size M))%nat).
  { intros k v. destruct (M !! k) eqn:E; [lia|]. by rewrite map_size_insert_None. }
  assert (Hdel : forall k, (base.size (delete k M) <= S (base.size M))%nat).
  { intros k. rewrite map_size_delete. destruct (M !! k); simpl; lia. }
  destruct o; simpl; auto; lia.
Qed.

Lemma hz_run_spec (map : hzmap Z) M os :
  is_hzmap map M -> Forall (hz_op_ok (key_size_w map)) os -> hz_size map + Z.of_nat (length os) <= 2 ^ 58 ->
  exists map', hz_run map os = Some ((hz_ref_run M os).1, map') /\ is_hzmap map' (hz_ref_run M os).2.
Proof.
  intros Hm Hos. revert map M Hm Hos. induction os as [|o os IH]; intros map M Hm Hos Hs; [by exists map|].
  apply list.Forall_cons in Hos as [Ho Hos]. cbn [length] in Hs.
  destruct (hz_run_op_spec map M o Hm Ho ltac:(lia)) as (m1 & E1 & Hk1 & Hm1).
  cbn [hz_run hz_ref_run]. rewrite E1. simpl. pose proof (hz_ref_op_size M o) as Hsz.
  destruct (hz_ref_op M o) as [r M1]. simpl in Hm1, Hsz.
  destruct (IH m1 M1 Hm1) as (m2 & E2 & Hm2).
  - by rewrite Hk1.
  - destruct Hm as [Hm <-], Hm1 as [Hm1 <-]. rewrite (hz_size_contents map Hm) in Hs.
    rewrite (hz_size_contents m1 Hm1). lia.
  - rewrite E2. exists m2. simpl. by destruct (hz_ref_run M1 os).
Qed.

(** C19: a hash map with flat keys refines a finite map from keys of any number of words:
    any sequence of insertions, removals, changes of the capacity and searches, those
    specialised to one and two words included, runs without a failed assertion or an
    access outside of the array, returns what the operations on a finite map return, the node
    of the key included, and leaves a well-formed map with the final contents.  The link of a node
    that is inserted by [cucon_hzmap_insert_node] must be [NULL] before the call: the code does not
    clear it, although the documentation says that the node is initialised. *)
Theorem hzmap_refines_finite_map (kw : Z) (os : list hz_op) :
  0 <= kw -> Forall (hz_op_ok kw) os -> Z.of_nat (length os) <= 2 ^ 58 ->
  exists map, hz_run (cucon_hzmap_init kw) os = Some ((hz_ref_run ∅ os).1, map) /\
    hz_wf map /\ contents (hz_arr map) = (hz_ref_run ∅ os).2.
Proof.
  intros Hk Hos Hs. destruct (hz_run_spec (cucon_hzmap_init kw) ∅ os (hz_init kw Hk) Hos Hs) as (m & E & Hm & HM).
  by exists m.
Qed.

Lemma hzmap_refines_finite_map_witness :
  exists map, hz_run (cucon_hzmap_init 2) [Hz_insert_node [1; 2] 7 []; Hz_prepare_insert 100; Hz_insert [1; 2];
      Hz_2w_find [1; 2]; Hz_erase [1; 2]; Hz_size] =
    Some ([Hz_bool true; Hz_unit; Hz_out false ([1; 2], 7); Hz_node (Some ([1; 2], 7)); Hz_bool true; Hz_word 0], map) /\
    hz_wf map /\ contents (hz_arr map) = ∅.
Proof.
  apply (hzmap_refines_finite_map 2 [Hz_insert_node [1; 2] 7 []; Hz_prepare_insert 100; Hz_insert [1; 2];
      Hz_2w_find [1; 2]; Hz_erase [1; 2]; Hz_size]); [done| |done].
  by repeat constructor.
Defined.

(** A node that was the first of its bucket in one map is erased from it and inserted into another: its link still
    leads to the next node of the first map, which is found in the second one as well, of size 1. *)
Theorem insert_node_keeps_link :
  exists k0 k1 map, key_ok 1 k0 /\ key_ok 1 k1 /\
    cucon_hzmap_insert_node (cucon_hzmap_init 1) (k0, 50) [(k1, 90)] = Some (true, map) /\
    cucon_hzmap_find map k1 = Some (Some (k1, 90)) /\ cucon_hzmap_size map = 1.
Proof.
  exists [5], [6]. eexists. split_and!; [by repeat constructor|by repeat constructor|vm_compute; reflexivity..].
Qed.

(** ** Traversal, filters, iterators *)

Section trav.
Context {V : Type}.
Implicit Types (map : hzmap V) (M : gmap key V) (node : key * V) (b ns : list (key * V)).

Lemma loop_heads_conj {S} (cb : S -> key * V -> S * bool) (a : list (list (key * V))) n i s :
  length a = (i + n)%nat ->
  loop_heads (fun s b => conj_list cb b s) a n i s = Some (conj_list cb (concat (drop i a)) s).
Proof.
  revert i s. induction n as [|n IH]; intros i s Hl; cbn [loop_heads].
  - rewrite drop_ge by lia. done.
  - destruct (lookup_lt_is_Some_2 a i) as [b Hb]; [lia|]. rewrite Hb, (drop_S _ b) by done. simpl.
    rewrite conj_list_app. destruct (conj_list cb b s) as [s' [|]]; [apply IH; lia|done].
Qed.

Lemma hz_cap_turns map : hz_wf map -> length (hz_arr map) = Z.to_nat (map_cap map).
Proof. intros Hm. by rewrite map_cap_eq, (hw_len map Hm). Qed.

Lemma hz_nodes map M : is_hzmap map M -> concat (hz_arr map) ≡ₚ map_to_list M.
Proof. intros [Hm <-]. apply (contents_list (hz_index (cap_expt map))), Hm. Qed.

(** ** Filters with a callback that has no state *)

Lemma filter_bucket_pure {S} (f : key * V -> bool) b size (s : S) :
  Z.of_nat (length b) <= size < 2 ^ 64 ->
  filter_bucket (fun s node => (s, f node)) b size s =
    (base.filter f b, size - Z.of_nat (length b - length (base.filter f b)), s).
Proof.
  revert size. induction b as [|node b IH]; intros size Hs; simpl in *; [do 2 f_equal; lia|].
  rewrite filter_cons. pose proof (length_filter f b) as Hle.
  destruct (decide (f node)) as [Hf|Hf].
  - apply Is_true_true in Hf. rewrite Hf, IH by lia. done.
  - apply Is_true_false in Hf. rewrite Hf. unfold wsub. rewrite wrap_small by (unfold word; lia).
    rewrite IH by lia. do 2 f_equal. lia.
Qed.

Lemma filter_loop_pure {S} (f : key * V -> bool) turns i map (s : S) :
  length (hz_arr map) = (i + turns)%nat -> Z.of_nat (length (concat (drop i (hz_arr map)))) <= hz_size map < 2 ^ 64 ->
  filter_loop (fun s node => (s, f node)) turns i map s =
    Some (mk_hzmap (key_size_w map) (cap_expt map)
            (hz_size map - Z.of_nat (length (concat (drop i (hz_arr map))) -
                                     length (base.filter f (concat (drop i (hz_arr map))))))
            (take i (hz_arr map) ++ List.map (base.filter f) (drop i (hz_arr map))), s).
Proof.
  revert i map. induction turns as [|turns IH]; intros i map Hl Hs; cbn [filter_loop].
  - rewrite drop_ge, firstn_all2, app_nil_r by lia. simpl. rewrite Z.sub_0_r. by destruct map.
  - destruct (lookup_lt_is_Some_2 (hz_arr map) i) as [b Hb]; [lia|]. rewrite Hb. simpl.
    rewrite (drop_S _ b) in Hs |- * by done. cbn [concat List.map] in Hs |- *. rewrite length_app in Hs.
    set (rest := drop (Datatypes.S i) (hz_arr map)) in *.
    rewrite filter_bucket_pure by lia. pose proof (length_filter f b) as Hle.
    pose proof (length_filter f (concat rest)) as Hle2.
    rewrite IH; cbn [hz_arr hz_size key_size_w cap_expt].
    + rewrite drop_insert_lt by lia. fold rest. rewrite (take_set _ i), <- app_assoc by (apply lookup_lt_Some in Hb; done).
      rewrite list.filter_app, !length_app. do 3 f_equal. lia.
    + rewrite length_insert. lia.
    + rewrite drop_insert_lt by lia. fold rest. lia.
Qed.

Lemma hz_filter_spec {S} (f : key * V -> bool) map M (s : S) :
  is_hzmap map M ->
  exists map', cucon_hzmap_filter (fun s node => (s, f node)) map s = Some (map', s) /\
    is_hzmap map' (base.filter f M).
Proof.
  intros [Hm <-]. pose proof (hz_size_bounds map Hm) as Hs. unfold cucon_hzmap_filter.
  pose proof (length_filter f (concat (hz_arr map))) as Hle. pose proof (hw_size map Hm) as Hsz.
  rewrite filter_loop_pure by (rewrite ?drop_0; try apply hz_cap_turns; try done; lia). rewrite drop_0. simpl.
  set (m1 := mk_hzmap _ _ _ _).
  assert (Hm1 : is_hzmap m1 (base.filter f (contents (hz_arr map)))).
  { destruct (table_filter _ (hz_arr map) f (hw_table map Hm)) as [Ht Hc]. split; [|exact Hc].
    destruct Hm as [H1 H2 H3 H4 H5 H6 H7].
    constructor; unfold m1; simpl; rewrite ?filter_concat; [done|done|by rewrite length_map|done| |lia|lia].
    rewrite list.Forall_forall in H5 |- *. intros n [_ Hn]%list_elem_of_filter. by apply H5. }
  destruct (maybe_shrink_spec m1 _ Hm1) as (m2 & -> & _ & Hm2). simpl. by exists m2.
Qed.

(** ** Iterators *)

(** What is left of a traversal. *)
Definition itr_rest (itr : hzmap_itr (V := V)) : list (key * V) := itr_node itr ++ concat (arr_cur itr).

Lemma itr_seek_spec (cur : list (list (key * V))) :
  match concat cur with
  | [] => (itr_seek cur).1 = None
  | node :: ns => (itr_seek cur).1 = Some node /\ itr_rest (itr_seek cur).2 = ns
  end.
Proof. induction cur as [|[|node b] cur IH]; simpl; [done|exact IH|done]. Qed.

Lemma itr_get_spec (itr : hzmap_itr (V := V)) :
  match itr_rest itr with
  | [] => (cucon_hzmap_itr_get itr).1 = None
  | node :: ns => (cucon_hzmap_itr_get itr).1 = Some node /\ itr_rest (cucon_hzmap_itr_get itr).2 = ns
  end.
Proof.
  destruct itr as [cur [|node b]]; [|done]. unfold itr_rest at 1, cucon_hzmap_itr_get. simpl. apply itr_seek_spec.
Qed.

(** The results of calls of [itr_get] up to the first [NULL], on a fuel of calls. *)
Fixpoint itr_all (fuel : nat) (itr : hzmap_itr (V := V)) : option (list (key * V)) :=
  match fuel with
  | O => None
  | S fuel =>
      let '(node, itr) := cucon_hzmap_itr_get itr in
      match node with
      | None => Some []
      | Some node => ns ← itr_all fuel itr; Some (node :: ns)
      end
  end.

Lemma itr_all_spec fuel itr ns :
  itr_rest itr = ns -> (length ns < fuel)%nat -> itr_all fuel itr = Some ns.
Proof.
  revert itr ns. induction fuel as [|fuel IH]; intros itr ns Hr Hf; [lia|]. simpl.
  pose proof (itr_get_spec itr) as Hg. rewrite Hr in Hg. destruct (cucon_hzmap_itr_get itr) as [o itr'].
  destruct ns as [|node ns]; simpl in Hg; [by rewrite Hg|]. destruct Hg as [-> Hr'].
  simpl in Hf. rewrite (IH itr' ns Hr') by lia. done.
Qed.

End trav.

(** The traversals of a hash map with flat keys pass its pairs, each once, until the
    callback says stop; an iterator returns them in the same order and then [NULL]; a
    filter keeps exactly the pairs the callback accepts, in a map that is well formed
    again with the capacity adjusted. *)
Theorem hzmap_traversal_correct {V St} (map : hzmap V) M :
  is_hzmap map M ->
  exists ns, ns ≡ₚ map_to_list M /\
    (forall (f : St -> key * V -> St * bool) s, cucon_hzmap_forall f map s = Some (conj_list f ns s)) /\
    (forall (f : St -> key -> St * bool) s,
       cucon_hzmap_forall_keys f map s = Some (conj_list (fun s node => f s node.1) ns s)) /\
    itr_all (S (base.size M)) (cucon_hzmap_itr_init map) = Some ns /\
    (forall (f : key * V -> bool) (s : St),
       exists map', cucon_hzmap_filter (fun s node => (s, f node)) map s = Some (map', s) /\
         is_hzmap map' (base.filter f M)).
Proof.
  intros Hm. exists (concat (hz_arr map)). split; [by apply hz_nodes|]. pose proof (hz_cap_turns map (proj1 Hm)) as Hc.
  split_and!.
  - intros f s. unfold cucon_hzmap_forall. by rewrite loop_heads_conj.
  - intros f s. unfold cucon_hzmap_forall_keys. by rewrite loop_heads_conj.
  - apply itr_all_spec.
    + unfold itr_rest, cucon_hzmap_itr_init. simpl. by rewrite firstn_all2 by (rewrite Hc; done).
    + rewrite (hz_nodes map M Hm), length_map_to_list. lia.
  - intros f s. by apply hz_filter_spec.
Qed.

Definition hz_small : hzmap Z := mk_hzmap 1 2 1 (<[hz_index 2 [5] := [([5], 50)]]> (replicate 4 [])).

Lemma hz_small_is : is_hzmap hz_small {[ [5] := 50 ]}.
Proof.
  pose proof (hz_init (V := Z) 1 ltac:(lia)) as [Hi Hc].
  destruct (table_add (hz_index 2) (hz_arr (cucon_hzmap_init 1)) [5] 50 [] [([5], 50)]) as (Ht & Hp & Hm);
    [apply Hi|by vm_compute|done|done|].
  change (hz_arr (cucon_hzmap_init 1)) with (replicate 4 ([] : list (key * Z))) in Ht, Hp, Hm.
  split; [|exact Hm]. constructor; [simpl; lia|simpl; lia|by vm_compute|exact Ht| | |simpl; lia].
  - change (concat (hz_arr hz_small)) with (concat (<[hz_index 2 [5] := [([5], 50)]]> (replicate 4 ([] : list (key * Z))))).
    rewrite Hp. by repeat constructor.
  - by vm_compute.
Qed.
