(* ===== verification/Hmap.v ===== *)
(** * General hash maps: [cucon/hmap.h], [cucon/hmap.c], [cucon/hset.h], [cucon/hset.c]

    The keys are pointers to objects of the client, which supplies their equality and
    their hashes; a node is the pair of its key and the contents of its slot.  The
    sentinel behind the last bucket is no bucket: an access to it is the error [None]. *)

From S2P Require Export Buckets.

Definition CUCON_HMAP_CAPACITY_MIN : Z := 32.
Definition CUCON_HMAP_CAPACITY_INIT : Z := 8.

(** The size is an [int]: counting beyond its range is the error [None]. *)
Definition int_incr (n : Z) : option Z := if n <? 2 ^ 31 - 1 then Some (n + 1) else None.
Definition int_decr (n : Z) : option Z := if - 2 ^ 31 <? n then Some (n - 1) else None.

Section hmap.
Context {K V : Type} (eq : K -> K -> bool) (hash : K -> Z).

Record hmap := mk_hmap { hm_table : list (list (K * V)); hm_size : Z; hm_mask : Z }.

Implicit Types (map : hmap) (key : K) (node : K * V) (b : list (K * V)).

Definition cucon_hmap_init : hmap :=
  mk_hmap (replicate (Z.to_nat CUCON_HMAP_CAPACITY_INIT) []) 0 (CUCON_HMAP_CAPACITY_INIT - 1).
Definition cucon_hmap_new : hmap := cucon_hmap_init.

(** The [int] is converted to a [size_t]. *)
Definition cucon_hmap_card map : Z := wrap (hm_size map).
Definition cucon_hmap_is_empty map : bool := negb (hm_size map =? 0).

Definition hm_idx map key : nat := Z.to_nat (hash key &&& hm_mask map).

(** ** Search *)

Fixpoint hm_find key b : option (K * V) :=
  match b with
  | [] => None
  | node :: b => if eq node.1 key then Some node else hm_find key b
  end.

(** The slot at the pointer that is returned. *)
Definition cucon_hmap_find_mem map key : option (option V) :=
  b ← hm_table map !! hm_idx map key; Some (option_map snd (hm_find key b)).

(** ** Capacity *)

(** A node at the head of its bucket; the size stays. *)
Definition cucon_hmap_multi_insert_node map node : option (bool * hmap) :=
  let idx := hm_idx map node.1 in
  b ← hm_table map !! idx;
  Some (true, mk_hmap (<[idx := node :: b]> (hm_table map)) (hm_size map) (hm_mask map)).

Fixpoint reinsert_bucket map b : option hmap :=
  match b with
  | [] => Some map
  | node :: b => '(_, map) ← cucon_hmap_multi_insert_node map node; reinsert_bucket map b
  end.

Fixpoint reinsert map (bs : list (list (K * V))) : option hmap :=
  match bs with
  | [] => Some map
  | b :: bs => map ← reinsert_bucket map b; reinsert map bs
  end.

Definition cucon_hmap_set_capacity map (cap : Z) : option hmap :=
  let u := take (Z.to_nat (wadd (hm_mask map) 1)) (hm_table map) in
  reinsert (mk_hmap (replicate (Z.to_nat cap) []) 0 (wsub cap 1)) u.

(** ** Insertion *)

(** The contents of a new slot are [init]. *)
Definition cucon_hmap_insert_mem (init : V) map key : option (bool * hmap) :=
  let idx := hm_idx map key in
  b ← hm_table map !! idx;
  match hm_find key b with
  | Some _ => Some (false, map)
  | None =>
      let size := hm_size map in
      size' ← int_incr size;
      let map := mk_hmap (<[idx := (key, init) :: b]> (hm_table map)) size' (hm_mask map) in
      map ← (if hm_mask map >>> 1 <? wrap size then cucon_hmap_set_capacity map (wrap (2 * wadd (hm_mask map) 1))
             else Some map);
      Some (true, map)
  end.

(** The loop over the bucket does not go on to the next node; on a fuel of turns. *)
Fixpoint insert_node_loop (fuel : nat) key b : option bool :=
  match fuel with
  | O => None
  | S fuel =>
      match b with
      | [] => Some false
      | node :: _ => if eq node.1 key then Some true else insert_node_loop fuel key b
      end
  end.

Definition cucon_hmap_insert_node (fuel : nat) map newnode : option (bool * hmap) :=
  let idx := hm_idx map newnode.1 in
  b ← hm_table map !! idx;
  found ← insert_node_loop fuel newnode.1 b;
  if found : bool then Some (false, map)
  else Some (true, mk_hmap (<[idx := newnode :: b]> (hm_table map)) (hm_size map) (hm_mask map)).

(** ** Removal *)

Fixpoint hm_unlink key b : option ((K * V) * list (K * V)) :=
  match b with
  | [] => None
  | node :: b =>
      if eq node.1 key then Some (node, b)
      else match hm_unlink key b with Some (n, b) => Some (n, node :: b) | None => None end
  end.

(** The slot that is returned, or [NULL]. *)
Definition cucon_hmap_isocap_pop_mem map key : option (option V * hmap) :=
  let idx := hm_idx map key in
  b ← hm_table map !! idx;
  match hm_unlink key b with
  | Some (node, b) =>
      size' ← int_decr (hm_size map);
      Some (Some node.2, mk_hmap (<[idx := b]> (hm_table map)) size' (hm_mask map))
  | None => Some (None, map)
  end.

Definition cucon_hmap_pop_mem map key : option (option V * hmap) :=
  let idx := hm_idx map key in
  b ← hm_table map !! idx;
  match hm_unlink key b with
  | Some (node, b) =>
      let size := hm_size map in
      size' ← int_decr size;
      let map := mk_hmap (<[idx := b]> (hm_table map)) size' (hm_mask map) in
      map ← (if (wrap size <? hm_mask map >>> 2) && (CUCON_HMAP_CAPACITY_MIN <? hm_mask map)
             then cucon_hmap_set_capacity map (wadd (hm_mask map) 1 / 2) else Some map);
      Some (Some node.2, map)
  | None => Some (None, map)
  end.

Definition cucon_hmap_erase map key : option (bool * hmap) :=
  '(p, map) ← cucon_hmap_pop_mem map key; Some (bool_decide (is_Some p), map).
Definition cucon_hmap_isocap_erase map key : option (bool * hmap) :=
  '(p, map) ← cucon_hmap_isocap_pop_mem map key; Some (bool_decide (is_Some p), map).

(** The nodes are only walked through: freeing them is commented out. *)
Definition cucon_hmap_clear map : hmap := map.

(** ** Traversal *)

Fixpoint loop_table {S} (f : S -> list (K * V) -> S * bool) (a : list (list (K * V))) (n i : nat) (s : S)
    : option (S * bool) :=
  match n with
  | O => Some (s, true)
  | Datatypes.S n =>
      b ← a !! i;
      let '(s, ok) := f s b in
      if ok : bool then loop_table f a n (Datatypes.S i) s else Some (s, false)
  end.

Definition cucon_hmap_conj_keys {S} map (f : S -> K -> S * bool) (s : S) : option (S * bool) :=
  loop_table (fun s b => conj_list (fun s node => f s node.1) b s) (hm_table map)
    (Z.to_nat (wadd (hm_mask map) 1)) 0 s.

Definition cucon_hmap_conj_mem {S} map (cb : S -> K -> V -> S * bool) (s : S) : option (S * bool) :=
  loop_table (fun s b => conj_list (fun s node => cb s node.1 node.2) b s) (hm_table map)
    (Z.to_nat (wadd (hm_mask map) 1)) 0 s.

End hmap.

Arguments hmap : clear implicits.
Arguments mk_hmap {K V}.

(** ** Maps to pointers; [0] is [NULL] *)

Section hmap_ptr.
Context {K : Type} (eq : K -> K -> bool) (hash : K -> Z).
Implicit Types (map : hmap K Z) (key : K).

Definition cucon_hmap_find_ptr map key : option Z :=
  p ← cucon_hmap_find_mem eq hash map key; Some (default 0 p).
Definition cucon_hmap_pop_ptr map key : option (Z * hmap K Z) :=
  '(p, map) ← cucon_hmap_pop_mem eq hash map key; Some (default 0 p, map).
Definition cucon_hmap_isocap_pop_ptr map key : option (Z * hmap K Z) :=
  '(p, map) ← cucon_hmap_isocap_pop_mem eq hash map key; Some (default 0 p, map).

End hmap_ptr.

(** ** Sets: [cucon/hset.h], [cucon/hset.c] *)

Section hset.
Context {K : Type} (eq : K -> K -> bool) (hash : K -> Z).
Implicit Types (set hs : hmap K unit) (key : K).

Definition cucon_hset_init : hmap K unit := cucon_hmap_init.
Definition cucon_hset_card set : Z := cucon_hmap_card set.
Definition cucon_hset_is_empty set : bool := cucon_hmap_is_empty set.
Definition cucon_hset_contains set key : option bool :=
  p ← cucon_hmap_find_mem eq hash set key; Some (bool_decide (is_Some p)).
Definition cucon_hset_insert set key : option (bool * hmap K unit) := cucon_hmap_insert_mem eq hash tt set key.
Definition cucon_hset_erase set key : option (bool * hmap K unit) := cucon_hmap_erase eq hash set key.
Definition cucon_hset_isocap_erase set key : option (bool * hmap K unit) := cucon_hmap_isocap_erase eq hash set key.
Definition cucon_hset_set_capacity set (cap : Z) : option (hmap K unit) := cucon_hmap_set_capacity hash set cap.
Definition cucon_hset_conj {S} set (f : S -> K -> S * bool) (s : S) : option (S * bool) :=
  cucon_hmap_conj_keys set f s.

(** The callback: an access outside of the table of [hs1] is an error. *)
Definition hset_subeq_cb hs1 (s : option unit) key : option unit * bool :=
  match cucon_hset_contains hs1 key with Some b => (s, b) | None => (None, false) end.

Definition hset_conj_in hs0 hs1 : option bool :=
  '(s, ok) ← cucon_hset_conj hs0 (hset_subeq_cb hs1) (Some tt); _ ← s; Some ok.

Definition cucon_hset_subeq hs0 hs1 : option bool :=
  if cucon_hset_card hs1 <? cucon_hset_card hs0 then Some false else hset_conj_in hs0 hs1.

Definition cucon_hset_sub hs0 hs1 : option bool :=
  if cucon_hset_card hs1 <=? cucon_hset_card hs0 then Some false else hset_conj_in hs0 hs1.

Definition cucon_hset_eq hs0 hs1 : option bool :=
  if negb (cucon_hset_card hs0 =? cucon_hset_card hs1) then Some false else hset_conj_in hs0 hs1.

End hset.
