(* ===== verification/HmapOps.v ===== *)
(** * General hash maps: what the operations do

    The pairs in the buckets are always those of a finite map, whatever the size field
    says; the size field itself is lost at every change of the capacity. *)

From S2P Require Export Hmap.

Section ops.
Context {K V : Type} `{Countable K} (eq : K -> K -> bool) (hash : K -> Z).
Hypothesis eq_spec : forall x y, eq x y = bool_decide (x = y).
Implicit Types (map : hmap K V) (M : gmap K V) (key : K) (v : V) (node : K * V) (b : list (K * V)).

Definition hm_index (e : Z) key : nat := Z.to_nat (hash key mod 2 ^ e).

Record hm_wf (e : Z) map : Prop := {
  hmw_expt : 0 <= e <= 60;
  hmw_mask : hm_mask map = 2 ^ e - 1;
  hmw_len : length (hm_table map) = Z.to_nat (2 ^ e);
  hmw_table : table (hm_index e) (hm_table map);
}.

Definition is_hmap map M : Prop := (exists e, hm_wf e map) /\ contents (hm_table map) = M.

Lemma hm_pow_bounds e : 0 <= e <= 60 -> 1 <= 2 ^ e <= 2 ^ 60.
Proof.
  intros He. pose proof (Z.pow_le_mono_r 2 e 60 ltac:(lia) ltac:(lia)).
  pose proof (Z.pow_pos_nonneg 2 e). lia.
Qed.

Lemma hm_idx_eq e map key : hm_wf e map -> hm_idx hash map key = hm_index e key.
Proof.
  intros Hm. unfold hm_idx. rewrite (hmw_mask e map Hm). pose proof (hmw_expt e map Hm).
  by rewrite land_pow by lia.
Qed.

Lemma hm_index_lt e key : 0 <= e -> (hm_index e key < Z.to_nat (2 ^ e))%nat.
Proof.
  intros He. unfold hm_index. pose proof (Z.mod_pos_bound (hash key) (2 ^ e) ltac:(lia)). lia.
Qed.

Lemma hm_bucket e map key : hm_wf e map -> exists b, hm_table map !! hm_index e key = Some b.
Proof.
  intros Hm. apply lookup_lt_is_Some. rewrite (hmw_len e map Hm). apply hm_index_lt.
  pose proof (hmw_expt e map Hm). lia.
Qed.

(** The searches in a bucket. *)
Lemma hm_find_assoc key b : hm_find eq key b = assoc key b.
Proof.
  induction b as [|node b IH]; [done|]. simpl. rewrite eq_spec, IH.
  by destruct (decide (node.1 = key)), (bool_decide_reflect (node.1 = key)).
Qed.

Lemma hm_unlink_spec key b :
  match assoc key b with
  | Some node => exists b', hm_unlink eq key b = Some (node, b') /\ b ≡ₚ node :: b'
  | None => hm_unlink eq key b = None
  end.
Proof.
  induction b as [|node b IH]; [done|]. simpl. rewrite eq_spec.
  destruct (decide (node.1 = key)), (bool_decide_reflect (node.1 = key)); try done; [by exists b|].
  destruct (assoc key b) as [n'|]; [|by rewrite IH]. destruct IH as (b' & -> & Hp).
  exists (node :: b'). split; [done|]. rewrite Hp. apply Permutation_swap.
Qed.

Lemma hm_init : is_hmap cucon_hmap_init ∅.
Proof.
  destruct (table_empty (V := V) (hm_index 3) 8) as [Ht Hc]. split; [|exact Hc].
  exists 3. constructor; [lia|done|done|exact Ht].
Qed.

Lemma hm_find_mem_spec map M key : is_hmap map M -> cucon_hmap_find_mem eq hash map key = Some (M !! key).
Proof.
  intros [[e Hm] <-]. destruct (hm_bucket e map key Hm) as [b Hb]. unfold cucon_hmap_find_mem.
  rewrite (hm_idx_eq e map key Hm), Hb. simpl. rewrite hm_find_assoc. f_equal.
  by apply (table_lookup (hm_index e)); [apply Hm|].
Qed.

(** ** Capacity *)

(** Another table with the same pairs, whatever the size. *)
Lemma reinsert_bucket_spec e (bk : list (K * V)) map :
  0 <= e <= 60 -> hm_mask map = 2 ^ e - 1 -> length (hm_table map) = Z.to_nat (2 ^ e) ->
  at_index (hm_index e) (hm_table map) ->
  exists map', reinsert_bucket hash map bk = Some map' /\ hm_mask map' = hm_mask map /\
    hm_size map' = hm_size map /\ length (hm_table map') = length (hm_table map) /\
    at_index (hm_index e) (hm_table map') /\ concat (hm_table map') ≡ₚ bk ++ concat (hm_table map).
Proof.
  intros He. revert map. induction bk as [|node bk IH]; intros map Hk Hl Ha; simpl; [by exists map|].
  unfold cucon_hmap_multi_insert_node.
  assert (Hi : hm_idx hash map node.1 = hm_index e node.1) by (unfold hm_idx; rewrite Hk, land_pow by lia; done).
  rewrite Hi. destruct (lookup_lt_is_Some_2 (hm_table map) (hm_index e node.1)) as [p Hp]; [rewrite Hl; apply hm_index_lt; lia|].
  rewrite Hp. simpl. set (m1 := mk_hmap _ _ _). destruct (IH m1) as (m' & -> & X1 & X2 & X3 & X4 & X5).
  - done.
  - simpl. by rewrite length_insert.
  - simpl. intros j c n Hj Hin. destruct (decide (j = hm_index e node.1)) as [->|Hne].
    + rewrite list_lookup_insert_eq in Hj by by eapply lookup_lt_Some. injection Hj as <-.
      apply elem_of_cons in Hin as [->|Hin]; [done|]. by apply (Ha _ p).
    + rewrite list_lookup_insert_ne in Hj by done. by apply (Ha j c).
  - exists m'. simpl in X3. rewrite length_insert in X3. split_and!; [done|done|done|done|done|].
    simpl in X5. destruct (concat_insert _ _ _ Hp) as (rest & Y1 & Y2). rewrite X5, Y2, Y1. symmetry.
    apply (Permutation_middle bk (p ++ rest) node).
Qed.

Lemma reinsert_spec e bs map :
  0 <= e <= 60 -> hm_mask map = 2 ^ e - 1 -> length (hm_table map) = Z.to_nat (2 ^ e) ->
  at_index (hm_index e) (hm_table map) ->
  exists map', reinsert hash map bs = Some map' /\ hm_mask map' = hm_mask map /\
    hm_size map' = hm_size map /\ length (hm_table map') = length (hm_table map) /\
    at_index (hm_index e) (hm_table map') /\ concat (hm_table map') ≡ₚ concat bs ++ concat (hm_table map).
Proof.
  intros He. revert map. induction bs as [|b bs IH]; intros map Hk Hl Ha; simpl; [by exists map|].
  destruct (reinsert_bucket_spec e b map He Hk Hl Ha) as (m1 & -> & X1 & X2 & X3 & X4 & X5). simpl.
  destruct (IH m1) as (m2 & -> & G1 & G2 & G3 & G4 & G5); [congruence|congruence|done|].
  exists m2. split_and!; [done|congruence|congruence|congruence|done|].
  rewrite G5, X5, !app_assoc. f_equiv. apply Permutation_app_comm.
Qed.

Lemma hm_set_capacity_spec map M e' :
  is_hmap map M -> 0 <= e' <= 60 ->
  exists map', cucon_hmap_set_capacity hash map (2 ^ e') = Some map' /\ is_hmap map' M /\
    hm_wf e' map' /\ hm_size map' = 0.
Proof.
  intros [[e Hm] <-] He'. pose proof (hm_pow_bounds e (hmw_expt e map Hm)). pose proof (hm_pow_bounds e' He').
  unfold cucon_hmap_set_capacity. rewrite (hmw_mask e map Hm). unfold wadd, wsub.
  rewrite !wrap_small by (unfold word; lia). rewrite Z.sub_add.
  rewrite firstn_all2 by (rewrite (hmw_len e map Hm); done).
  destruct (table_empty (V := V) (hm_index e') (Z.to_nat (2 ^ e'))) as [[Ht _] _].
  destruct (reinsert_spec e' (hm_table map) (mk_hmap (replicate (Z.to_nat (2 ^ e')) []) 0 (2 ^ e' - 1)))
    as (m' & -> & X1 & X2 & X3 & X4 & X5); [lia|done|by simpl; rewrite length_replicate|done|].
  simpl in *. rewrite concat_replicate_nil, app_nil_r in X5. rewrite length_replicate in X3.
  destruct (hmw_table e map Hm) as [_ Hd].
  assert (Hw : hm_wf e' m') by (constructor; [done|done|done|split; [done|by rewrite X5]]).
  exists m'. split_and!; [done| |done|done]. split; [by exists e'|]. by apply list_to_map_perm.
Qed.

(** ** Insertion and removal *)

(** The size field plays no role for what a map holds, as long as it can be counted. *)
Lemma hm_insert_spec map M key v :
  is_hmap map M -> hm_mask map < 2 ^ 59 -> ~ (M !! key = None /\ 2 ^ 31 - 1 <= hm_size map) ->
  exists map', cucon_hmap_insert_mem eq hash v map key = Some (bool_decide (M !! key = None), map') /\
    is_hmap map' (match M !! key with Some _ => M | None => <[key := v]> M end).
Proof.
  intros [[e Hm] <-] Hk Hs. destruct (hm_bucket e map key Hm) as [b Hb]. unfold cucon_hmap_insert_mem.
  rewrite (hm_idx_eq e map key Hm), Hb. simpl. rewrite hm_find_assoc.
  pose proof (table_lookup _ _ _ _ (hmw_table e map Hm) Hb) as Hl. rewrite <- Hl.
  rewrite <- Hl in Hs. destruct (assoc key b) as [n|]; simpl in *; [exists map; by split; [|split; [exists e|]]|].
  assert (Hs' : hm_size map < 2 ^ 31 - 1) by (apply Z.nle_gt; intros ?; by apply Hs).
  unfold int_incr. rewrite (proj2 (Z.ltb_lt _ _) Hs'). cbn [mbind option_bind].
  destruct (table_add _ (hm_table map) key v b ((key, v) :: b) (hmw_table e map Hm) Hb) as (Ht & _ & Hm');
    [done|done|].
  set (m1 := mk_hmap _ _ _). assert (Hm1 : is_hmap m1 (<[key := v]> (contents (hm_table map)))).
  { split; [|exact Hm']. exists e. destruct Hm as [X1 X2 X3 X4]. constructor; [done|done| |done].
    unfold m1. simpl. by rewrite length_insert. }
  pose proof (hm_pow_bounds e (hmw_expt e map Hm)) as He. rewrite (hmw_mask e map Hm) in Hk.
  destruct (_ <? _); [|by exists m1]. rewrite (hmw_mask e map Hm). unfold wadd.
  rewrite (wrap_small (_ + 1)) by (unfold word; lia). rewrite Z.sub_add, <- Z.pow_succ_r by apply Hm.
  assert (He' : e < 60).
  { destruct (Z.lt_ge_cases e 60) as [|Hge]; [done|]. pose proof (Z.pow_le_mono_r 2 60 e). lia. }
  pose proof (hmw_expt e map Hm). pose proof (hm_pow_bounds (Z.succ e) ltac:(lia)).
  rewrite wrap_small by (unfold word; lia).
  destruct (hm_set_capacity_spec m1 _ (Z.succ e) Hm1) as (m2 & -> & Hm2 & _ & _); [lia|]. by exists m2.
Qed.

Lemma hm_isocap_pop_spec map M key :
  is_hmap map M -> ~ (is_Some (M !! key) /\ hm_size map <= - 2 ^ 31) ->
  exists map', cucon_hmap_isocap_pop_mem eq hash map key = Some (M !! key, map') /\ is_hmap map' (delete key M).
Proof.
  intros [[e Hm] <-] Hs. destruct (hm_bucket e map key Hm) as [b Hb]. unfold cucon_hmap_isocap_pop_mem, int_decr.
  rewrite (hm_idx_eq e map key Hm), Hb. simpl. pose proof (table_lookup _ _ _ _ (hmw_table e map Hm) Hb) as Hl.
  pose proof (hm_unlink_spec key b) as Hu. rewrite <- Hl in *. destruct (assoc key b) as [n|] eqn:Ea; simpl in *.
  - destruct Hu as (b' & -> & Hp). apply assoc_some in Ea as [_ Ea].
    rewrite (proj2 (Z.ltb_lt _ _)) by (apply Z.nle_gt; eauto).
    destruct (table_remove _ (hm_table map) _ b n b' (hmw_table e map Hm) Hb Hp) as (Ht & _ & Hd & _).
    eexists. split; [done|]. rewrite Ea in Hd. split; [|exact Hd]. exists e.
    destruct Hm as [X1 X2 X3 X4]. constructor; simpl; [done|done|by rewrite length_insert|done].
  - rewrite Hu. exists map. split; [done|]. rewrite delete_id by done. split; [by exists e|done].
Qed.

Lemma hm_pop_spec map M key :
  is_hmap map M -> ~ (is_Some (M !! key) /\ hm_size map <= - 2 ^ 31) ->
  exists map', cucon_hmap_pop_mem eq hash map key = Some (M !! key, map') /\ is_hmap map' (delete key M).
Proof.
  intros Hm Hs. destruct (hm_isocap_pop_spec map M key Hm Hs) as (m1 & Y1 & Hm1).
  unfold cucon_hmap_isocap_pop_mem in Y1. unfold cucon_hmap_pop_mem.
  destruct (hm_table map !! hm_idx hash map key) as [b|]; simpl in *; [|done].
  destruct (hm_unlink eq key b) as [[n b']|]; simpl in *; [|injection Y1 as <- <-; by exists map].
  destruct (int_decr (hm_size map)) as [size'|]; simpl in *; [|done]. injection Y1 as <- <-. set (m1 := mk_hmap _ _ _) in *.
  destruct ((_ <? _) && (_ <? _)) eqn:Ec; [|by exists m1]. apply andb_true_iff in Ec as [_ Ec%Z.ltb_lt].
  destruct Hm as [[e Hm] _]. rewrite (hmw_mask e map Hm) in Ec |- *. unfold CUCON_HMAP_CAPACITY_MIN in Ec.
  pose proof (hmw_expt e map Hm). pose proof (hm_pow_bounds e ltac:(done)). unfold wadd.
  rewrite wrap_small by (unfold word; lia). rewrite Z.sub_add.
  assert (He : 1 <= e) by (destruct (Z.le_gt_cases 1 e); [done|]; pose proof (Z.pow_le_mono_r 2 e 0); lia).
  replace (2 ^ e) with (2 ^ (e - 1) * 2) by (rewrite (Z.mul_comm _ 2), <- Z.pow_succ_r by lia; f_equal; lia).
  rewrite Z.div_mul by lia.
  destruct (hm_set_capacity_spec m1 _ (e - 1) Hm1) as (m2 & -> & Hm2 & _ & _); [lia|]. by exists m2.
Qed.

(** Counting beyond the range of the size is undefined. *)
Lemma hm_insert_overflow map M key v :
  is_hmap map M -> M !! key = None -> 2 ^ 31 - 1 <= hm_size map -> cucon_hmap_insert_mem eq hash v map key = None.
Proof.
  intros [[e Hm] <-] Hn Hs. destruct (hm_bucket e map key Hm) as [b Hb]. unfold cucon_hmap_insert_mem, int_incr.
  rewrite (hm_idx_eq e map key Hm), Hb. simpl. rewrite hm_find_assoc.
  rewrite <- (table_lookup _ _ _ _ (hmw_table e map Hm) Hb) in Hn. destruct (assoc key b) as [n|]; [done|]. simpl.
  by rewrite (proj2 (Z.ltb_ge _ _) Hs).
Qed.

Lemma hm_pop_overflow map M key :
  is_hmap map M -> is_Some (M !! key) -> hm_size map <= - 2 ^ 31 ->
  cucon_hmap_pop_mem eq hash map key = None /\ cucon_hmap_isocap_pop_mem eq hash map key = None.
Proof.
  intros [[e Hm] <-] [v Hn] Hs. destruct (hm_bucket e map key Hm) as [b Hb].
  unfold cucon_hmap_pop_mem, cucon_hmap_isocap_pop_mem, int_decr.
  rewrite (hm_idx_eq e map key Hm), Hb. simpl. pose proof (hm_unlink_spec key b) as Hu.
  rewrite <- (table_lookup _ _ _ _ (hmw_table e map Hm) Hb) in Hn. destruct (assoc key b) as [n|]; [|done].
  destruct Hu as (b' & -> & _). by rewrite (proj2 (Z.ltb_ge _ _) Hs).
Qed.

(** ** Traversal *)

Lemma loop_table_conj {S} (cb : S -> K * V -> S * bool) (a : list (list (K * V))) n i s :
  length a = (i + n)%nat ->
  loop_table (fun s b => conj_list cb b s) a n i s = Some (conj_list cb (concat (drop i a)) s).
Proof.
  revert i s. induction n as [|n IH]; intros i s Hl; cbn [loop_table].
  - rewrite drop_ge by lia. done.
  - destruct (lookup_lt_is_Some_2 a i) as [b Hb]; [lia|]. rewrite Hb, (drop_S _ b) by done. simpl.
    rewrite conj_list_app. destruct (conj_list cb b s) as [s' [|]]; [apply IH; lia|done].
Qed.

Lemma hm_turns e map : hm_wf e map -> length (hm_table map) = Z.to_nat (wadd (hm_mask map) 1).
Proof.
  intros Hm. pose proof (hm_pow_bounds e (hmw_expt e map Hm)). rewrite (hmw_len e map Hm), (hmw_mask e map Hm).
  unfold wadd. rewrite wrap_small by (unfold word; lia). f_equal. lia.
Qed.

Lemma hm_conj_keys_spec {S} map M (f : S -> K -> S * bool) s :
  is_hmap map M ->
  cucon_hmap_conj_keys map f s = Some (conj_list (fun s node => f s node.1) (concat (hm_table map)) s).
Proof. intros [[e Hm] _]. unfold cucon_hmap_conj_keys. by rewrite loop_table_conj by by apply (hm_turns e). Qed.

Lemma hm_conj_mem_spec {S} map M (f : S -> K -> V -> S * bool) s :
  is_hmap map M ->
  cucon_hmap_conj_mem map f s = Some (conj_list (fun s node => f s node.1 node.2) (concat (hm_table map)) s).
Proof. intros [[e Hm] _]. unfold cucon_hmap_conj_mem. by rewrite loop_table_conj by by apply (hm_turns e). Qed.

Lemma hm_nodes map M : is_hmap map M -> concat (hm_table map) ≡ₚ map_to_list M.
Proof. intros [[e Hm] <-]. apply (contents_list (hm_index e)), Hm. Qed.

(** C36: what a general hash map holds is right whatever its size field says: for an
    equality of the client that decides equality of keys, searches, insertions, removals
    and changes of the capacity do what the operations on a finite map do, and a
    traversal passes each pair once.  The only exception is that the size, an [int], overflows: then
    a new key and the removal of a key are undefined ([None]). *)
Theorem hmap_contents_correct map M key v :
  is_hmap map M -> hm_mask map < 2 ^ 59 ->
  let no_incr := M !! key = None /\ 2 ^ 31 - 1 <= hm_size map in
  let no_decr := is_Some (M !! key) /\ hm_size map <= - 2 ^ 31 in
  cucon_hmap_find_mem eq hash map key = Some (M !! key) /\
  (~ no_incr -> exists map', cucon_hmap_insert_mem eq hash v map key = Some (bool_decide (M !! key = None), map') /\
     is_hmap map' (match M !! key with Some _ => M | None => <[key := v]> M end)) /\
  (no_incr -> cucon_hmap_insert_mem eq hash v map key = None) /\
  (~ no_decr ->
     (exists map', cucon_hmap_pop_mem eq hash map key = Some (M !! key, map') /\ is_hmap map' (delete key M)) /\
     (exists map', cucon_hmap_isocap_pop_mem eq hash map key = Some (M !! key, map') /\ is_hmap map' (delete key M))) /\
  (no_decr -> cucon_hmap_pop_mem eq hash map key = None /\ cucon_hmap_isocap_pop_mem eq hash map key = None) /\
  (forall e, 0 <= e <= 60 -> exists map', cucon_hmap_set_capacity hash map (2 ^ e) = Some map' /\ is_hmap map' M) /\
  (exists ns, ns ≡ₚ map_to_list M /\
     forall (f : list K -> K -> V -> list K * bool) s,
       cucon_hmap_conj_mem map f s = Some (conj_list (fun s node => f s node.1 node.2) ns s)).
Proof.
  intros Hm Hk. cbn zeta. split_and!.
  - by apply hm_find_mem_spec.
  - by apply hm_insert_spec.
  - intros [Hn Hs]. by apply (hm_insert_overflow map M).
  - intros Hs. split; [by apply hm_pop_spec|by apply hm_isocap_pop_spec].
  - intros [Hn Hs]. by apply (hm_pop_overflow map M).
  - intros e He. destruct (hm_set_capacity_spec map M e Hm He) as (m' & Y1 & Hm' & _). by exists m'.
  - exists (concat (hm_table map)). split; [by apply hm_nodes|]. intros f s. by eapply hm_conj_mem_spec.
Qed.

(** A change of the capacity sets the size of a general hash map to zero and does not
    count the nodes again, so that [card] is 0 afterwards whatever the map holds; the
    answer of [is_empty] is negated: it is true for the maps whose size is not zero. *)
Theorem hmap_set_capacity_forgets_size map M e :
  is_hmap map M -> 0 <= e <= 60 ->
  exists map', cucon_hmap_set_capacity hash map (2 ^ e) = Some map' /\ is_hmap map' M /\
    cucon_hmap_card map' = 0 /\ cucon_hmap_is_empty map' = false /\
    (hm_size map <> 0 -> cucon_hmap_is_empty map = true).
Proof.
  intros Hm He. destruct (hm_set_capacity_spec map M e Hm He) as (m' & Y1 & Hm' & _ & Hs).
  exists m'. unfold cucon_hmap_card, cucon_hmap_is_empty. rewrite Hs. split_and!; try done.
  intros Hz. by apply negb_true_iff, Z.eqb_neq.
Qed.

End ops.

(** ** Sets: the relations, for sets whose sizes are right *)

Section hset.
Context {K : Type} `{Countable K} (eq : K -> K -> bool) (hash : K -> Z).
Hypothesis eq_spec : forall x y, eq x y = bool_decide (x = y).
Implicit Types (hs : hmap K unit) (S : gmap K unit) (key : K).

Definition keys_of (S : gmap K unit) : gset K := dom S.

Lemma hset_contains_spec hs S key :
  is_hmap hash hs S -> cucon_hset_contains eq hash hs key = Some (bool_decide (is_Some (S !! key))).
Proof. intros Hs. unfold cucon_hset_contains. by rewrite (hm_find_mem_spec eq hash eq_spec hs S). Qed.

Lemma hset_conj_in_list hs S (ns : list (K * unit)) :
  is_hmap hash hs S ->
  conj_list (fun s node => hset_subeq_cb eq hash hs s node.1) ns (Some tt) =
    (Some tt, bool_decide (Forall (fun n => is_Some (S !! n.1)) ns)).
Proof.
  intros Hs. induction ns as [|n ns IH]; simpl; [done|]. unfold hset_subeq_cb at 1.
  rewrite (hset_contains_spec hs S n.1 Hs). destruct (bool_decide_reflect (is_Some (S !! n.1))) as [Hn|Hn].
  - rewrite IH. f_equal. apply bool_decide_ext. rewrite list.Forall_cons. tauto.
  - f_equal. symmetry. apply bool_decide_eq_false_2. rewrite list.Forall_cons. tauto.
Qed.

Lemma hset_conj_in_spec hs hs' S S' :
  is_hmap hash hs S -> is_hmap hash hs' S' ->
  hset_conj_in eq hash hs hs' = Some (bool_decide (keys_of S ⊆ keys_of S')).
Proof.
  intros Hs Hs'. unfold hset_conj_in, cucon_hset_conj.
  rewrite (hm_conj_keys_spec hash hs S _ _ Hs), (hset_conj_in_list hs' S' _ Hs'). simpl. f_equal.
  apply bool_decide_ext. pose proof (hm_nodes hash hs S Hs) as Hn. rewrite list.Forall_forall. split.
  - intros Hf k. unfold keys_of. rewrite !elem_of_dom. intros [[] Hk]. apply (Hf (k, tt)). rewrite Hn. by apply elem_of_map_to_list.
  - intros Hf [k []]. rewrite Hn, elem_of_map_to_list. intros Hk. apply (elem_of_dom (D := gset K)), Hf, elem_of_dom. by exists tt.
Qed.

(** The size that the set should have. *)
Definition sized hs S : Prop := hm_size hs = Z.of_nat (base.size (keys_of S)) /\ hm_size hs < 2 ^ 64.

(** The relations of sets are right when the size fields are. *)
Theorem hset_relations_correct hs hs' S S' :
  is_hmap hash hs S -> is_hmap hash hs' S' -> sized hs S -> sized hs' S' ->
  cucon_hset_subeq eq hash hs hs' = Some (bool_decide (keys_of S ⊆ keys_of S')) /\
  cucon_hset_sub eq hash hs hs' = Some (bool_decide (keys_of S ⊂ keys_of S')) /\
  cucon_hset_eq eq hash hs hs' = Some (bool_decide (keys_of S = keys_of S')).
Proof.
  intros Hs Hs' [Ec Hc] [Ec' Hc']. unfold cucon_hset_subeq, cucon_hset_sub, cucon_hset_eq.
  rewrite (hset_conj_in_spec hs hs' S S' Hs Hs'). unfold cucon_hset_card, cucon_hmap_card.
  rewrite !wrap_small by (unfold word; lia). rewrite Ec, Ec'.
  assert (Hle : keys_of S ⊆ keys_of S' -> (base.size (keys_of S) <= base.size (keys_of S'))%nat) by apply subseteq_size.
  assert (Heq : keys_of S ⊆ keys_of S' -> (base.size (keys_of S') <= base.size (keys_of S))%nat -> keys_of S = keys_of S').
  { intros Hsub Hz. by apply set_subseteq_size_eq. }
  split_and!.
  - destruct (Z.ltb_spec (Z.of_nat (base.size (keys_of S'))) (Z.of_nat (base.size (keys_of S)))); f_equal.
    symmetry. apply bool_decide_eq_false_2. intros Hsub%Hle. lia.
  - destruct (Z.leb_spec (Z.of_nat (base.size (keys_of S'))) (Z.of_nat (base.size (keys_of S)))) as [Hz|Hz]; f_equal.
    + symmetry. apply bool_decide_eq_false_2. intros [Hsub Hn]. apply Hn.
      pose proof (Heq Hsub ltac:(lia)) as E. by rewrite E.
    + apply bool_decide_ext. split; [|by intros []]. intros Hsub. split; [done|]. intros Hsub'%subseteq_size. lia.
  - destruct (Z.eqb_spec (Z.of_nat (base.size (keys_of S))) (Z.of_nat (base.size (keys_of S')))) as [Hz|Hz]; simpl; f_equal.
    + apply bool_decide_ext. split; [|by intros ->]. intros Hsub. apply Heq; [done|lia].
    + symmetry. apply bool_decide_eq_false_2. intros E. apply Hz. by rewrite E.
Qed.

End hset.

(** Keys that are numbers, with themselves as hashes. *)
Definition hm_small : hmap Z Z := mk_hmap [[]; [(1, 10)]; []; []; []; []; []; []] 1 7.

Lemma Zeqb_spec (x y : Z) : (x =? y) = bool_decide (x = y).
Proof. by destruct (Z.eqb_spec x y), (bool_decide_reflect (x = y)). Qed.

Lemma hm_small_is : is_hmap (fun x : Z => x) hm_small {[1 := 10]}.
Proof.
  split; [|done]. exists 3. constructor; [lia|done|done|]. split.
  - intros i b n. do 8 (destruct i as [|i]; simpl;
      [intros [= <-]; rewrite ?list_elem_of_singleton; (intros ->; done) || (by intros ?%elem_of_nil)|]). done.
  - repeat constructor. apply not_elem_of_nil.
Qed.

Lemma hmap_contents_correct_witness :
  cucon_hmap_find_mem Z.eqb (fun x : Z => x) hm_small 1 = Some (({[1 := 10]} : gmap Z Z) !! 1) /\
  exists map', cucon_hmap_insert_mem Z.eqb (fun x : Z => x) 20 hm_small 2 = Some (true, map') /\
    is_hmap (fun x : Z => x) map' (<[2 := 20]> {[1 := 10]}).
Proof.
  split.
  - exact (proj1 (hmap_contents_correct Z.eqb (fun x : Z => x) Zeqb_spec hm_small {[1 := 10]} 1 20 hm_small_is
      ltac:(by vm_compute))).
  - destruct (hmap_contents_correct Z.eqb (fun x : Z => x) Zeqb_spec hm_small {[1 := 10]} 2 20 hm_small_is
      ltac:(by vm_compute)) as (_ & H & _). apply H. intros [_ Hs]. revert Hs. vm_compute. intros Hs. by apply Hs.
Defined.

(** Five insertions into a new map: the capacity has grown, and the size is 0. *)
Lemma hmap_size_after_growth :
  match foldr (fun k r => m ← r; '(_, m) ← cucon_hmap_insert_mem Z.eqb (fun x : Z => x) 0 m k; Some m)
          (Some cucon_hmap_init) [1; 2; 3; 4; 5] with
  | Some m => cucon_hmap_card m = 0 /\ hm_mask m = 15
  | None => False
  end.
Proof. by vm_compute. Qed.

(** The insertion of a node into a bucket that starts with another key does not end. *)
Lemma hmap_insert_node_never_ends fuel :
  cucon_hmap_insert_node Z.eqb (fun x : Z => x) fuel hm_small (9, 90) = None.
Proof.
  unfold cucon_hmap_insert_node. change (hm_table hm_small !! _) with (Some [(1, 10)] : option (list (Z * Z))).
  simpl. by replace (insert_node_loop Z.eqb fuel 9 [(1, 10)]) with (None : option bool) by by induction fuel.
Qed.
