(* ===== verification/Priq.v ===== *)
(** * Priority queues in arrays: [cucon/priq.h], [cucon/priq.c]

    A queue is an array of pointers, of which the first [count] are a heap for the
    client's relation [prior].  The array is the list of its [capacity] words; new memory
    is cleared ([0] is [NULL]), and an access outside of the array is the error [None].

    The first [count] words of the array are a heap ([heap_on]); [elems] are these words.
    Insertion and removal keep the heap, within the array, whether [prior] is a strict
    order or not, and are the operations of a multiset that removes an element
    prior to all others. *)

From stdpp Require Export sorting.
From S2P Require Export Int.

Section priq.
Context (prior : Z -> Z -> bool).

Record priq := mk_priq { count : Z; capacity : Z; arr : list Z }.

Implicit Types (q : priq) (a : list Z) (key : Z).

Definition cucon_priq_init : priq := mk_priq 0 0 [].
Definition cucon_priq_new : priq := mk_priq 0 0 [].

(** [memcpy] of the first [n] words to new memory of [size] words. *)
Definition copy_words (size n : Z) a : option (list Z) :=
  if Z.of_nat (length a) <? n then None
  else Some (take (Z.to_nat n) a ++ replicate (Z.to_nat (size - n)) 0).

Definition cucon_priq_init_copy (q_src : priq) : option priq :=
  a ← copy_words (capacity q_src) (capacity q_src) (arr q_src);
  Some (mk_priq (count q_src) (capacity q_src) a).

Definition expand_by_2 q : option priq :=
  let old_capacity := capacity q in
  if old_capacity =? 0 then Some (mk_priq (count q) 4 (replicate 4 0))
  else
    let capacity := wrap (old_capacity * 2) in
    a ← copy_words capacity old_capacity (arr q);
    Some (mk_priq (count q) capacity a).

Definition reduce_by_4 q : option priq :=
  let capacity := capacity q / 4 in
  a ← copy_words capacity capacity (arr q);
  Some (mk_priq (count q) capacity a).

(** Reading and writing a word of the array. *)
Definition at_ a (i : nat) : option Z := a !! i.
Definition store (i : nat) key a : option (list Z) :=
  if (i <? length a)%nat then Some (<[i := key]> a) else None.

(** [while (n > 0)], on a fuel of [n] turns. *)
Fixpoint insert_loop (fuel : nat) (n : nat) a : option (list Z) :=
  if (n =? 0)%nat then Some a
  else
    match fuel with
    | O => None
    | S fuel =>
        let m := ((n + 1) / 2 - 1)%nat in
        am ← at_ a m; an ← at_ a n;
        if prior am an then Some a
        else
          a ← store m an a;
          a ← store n am a;
          insert_loop fuel m a
    end.

Definition cucon_priq_insert q key : option priq :=
  let n := count q in
  q ← (if capacity q <=? n then expand_by_2 q else Some q);
  a ← store (Z.to_nat n) key (arr q);
  a ← insert_loop (Z.to_nat n) (Z.to_nat n) a;
  Some (mk_priq (wadd (count q) 1) (capacity q) a).

(** [for (;;)], on a fuel of [n + 1] turns. *)
Fixpoint pop_loop (fuel : nat) (i n : nat) a : option (list Z) :=
  match fuel with
  | O => None
  | S fuel =>
      let j0 := (2 * i + 1)%nat in
      if (n <=? j0)%nat then Some a
      else
        r ← at_ a (j0 + 1); l ← at_ a j0;
        let j0 := if prior r l then (j0 + 1)%nat else j0 in
        ai ← at_ a i; aj ← at_ a j0;
        if prior ai aj then Some a
        else
          a ← store i aj a;
          a ← store j0 ai a;
          pop_loop fuel j0 n a
  end.

(** [NULL] from an empty queue. *)
Definition cucon_priq_pop_front q : option (Z * priq) :=
  if count q =? 0 then Some (0, q)
  else
    let n := wsub (count q) 1 in
    result ← at_ (arr q) 0;
    last ← at_ (arr q) (Z.to_nat n);
    a ← store 0 last (arr q);
    a ← pop_loop (S (Z.to_nat n)) 0 (Z.to_nat n) a;
    let q := mk_priq n (capacity q) a in
    q ← (if (8 <? count q) && (count q <=? capacity q / 4) then reduce_by_4 q else Some q);
    Some (result, q).

Definition cucon_priq_front q : option Z := at_ (arr q) 0.
Definition cucon_priq_is_empty q : bool := count q =? 0.
Definition cucon_priq_count q : Z := count q.

End priq.

(** A relation [prior] that decides a total preorder [le], strictly or not. *)
Class PriorityOrder (prior : Z -> Z -> bool) (le : Z -> Z -> Prop) := {
  prior_true x y : prior x y = true -> le x y;
  prior_false x y : prior x y = false -> le y x;
  #[global] le_trans :: Transitive le;
}.

#[global] Instance leb_order : PriorityOrder Z.leb Z.le.
Proof. split; [intros; lia..|]; intros ???; lia. Qed.
#[global] Instance ltb_order : PriorityOrder Z.ltb Z.le.
Proof. split; [intros; lia..|]; intros ???; lia. Qed.

Definition parent (n : nat) : nat := ((n + 1) / 2 - 1)%nat.

Lemma parent_cases n : (0 < n)%nat -> (n = 2 * parent n + 1 \/ n = 2 * parent n + 2)%nat.
Proof.
  intros Hn. unfold parent. pose proof (Nat.div_mod_eq (n + 1) 2).
  pose proof (Nat.mod_upper_bound (n + 1) 2). lia.
Qed.

(** *** Exchanging two words *)

Section swap.
Implicit Types (a : list Z) (i j k n : nat).

Definition swap i j a : list Z := <[j := a !!! i]> (<[i := a !!! j]> a).

Lemma at_lt a i : (i < length a)%nat -> at_ a i = Some (a !!! i).
Proof. apply list_lookup_lookup_total_lt. Qed.

Lemma store_swap i j a : (i < length a)%nat -> (j < length a)%nat ->
  (a1 ← store i (a !!! j) a; store j (a !!! i) a1) = Some (swap i j a).
Proof.
  intros Hi Hj. unfold store. rewrite (proj2 (Nat.ltb_lt _ _) Hi). cbn [mbind option_bind].
  by rewrite length_insert, (proj2 (Nat.ltb_lt _ _) Hj).
Qed.

Lemma length_swap i j a : length (swap i j a) = length a.
Proof. unfold swap. by rewrite !length_insert. Qed.

Lemma lookup_swap i j k a : (i < length a)%nat -> (j < length a)%nat ->
  swap i j a !!! k = a !!! (if decide (k = j) then i else if decide (k = i) then j else k).
Proof.
  intros Hi Hj. unfold swap. destruct (decide (k = j)) as [->|].
  { by rewrite list_lookup_total_insert_eq by (by rewrite length_insert). }
  rewrite list_lookup_total_insert_ne by done. destruct (decide (k = i)) as [->|].
  - by rewrite list_lookup_total_insert_eq by done.
  - by rewrite list_lookup_total_insert_ne by done.
Qed.

Lemma swap_id i j a : (i < length a)%nat -> (j < length a)%nat ->
  a !!! i = a !!! j -> swap i j a = a.
Proof.
  intros Hi Hj E. unfold swap. rewrite <- E at 1.
  rewrite (list_insert_id a i), list_insert_id; [done|..];
    rewrite ?list_lookup_lookup_total_lt, ?E by done; done.
Qed.

Lemma swap_permutation i j n a : (i < n)%nat -> (j < n)%nat -> (n <= length a)%nat ->
  take n (swap i j a) ≡ₚ take n a.
Proof.
  intros Hi Hj Hn. apply Permutation_inj. split; [by rewrite !length_take, length_swap|].
  exists (fun k => if decide (k = j) then i else if decide (k = i) then j else k). split.
  - intros x y. repeat case_decide; congruence.
  - intros k. destruct (decide (k < n)%nat) as [Hk|Hk].
    + rewrite !lookup_take_lt by (repeat case_decide; lia).
      rewrite !list_lookup_lookup_total_lt by (rewrite ?length_swap; repeat case_decide; lia).
      f_equal. rewrite lookup_swap by lia. done.
    + rewrite !lookup_ge_None_2; [done|..]; rewrite !length_take, ?length_swap; [|lia].
      repeat case_decide; lia.
Qed.

End swap.

Section heap.
Context (prior : Z -> Z -> bool) (le : Z -> Z -> Prop) `{PO : !PriorityOrder prior le}.
Implicit Types (q : priq) (a : list Z) (i j k n : nat).

Lemma le_refl_ x : le x x.
Proof using PO prior. destruct (prior x x) eqn:E; [exact (prior_true x x E)|exact (prior_false x x E)]. Qed.

(** Heap order of the first [n] words: everywhere, but above [k], and but below [k]. *)
Definition heap_on a n : Prop := forall j, (0 < j < n)%nat -> le (a !!! parent j) (a !!! j).
Definition over_hole a n k : Prop :=
  forall j, (0 < j < n)%nat -> parent j = k -> (0 < k)%nat -> le (a !!! parent k) (a !!! j).
Definition up_heap a n k : Prop :=
  (forall j, (0 < j < n)%nat -> j <> k -> le (a !!! parent j) (a !!! j)) /\ over_hole a n k.
Definition down_heap a n k : Prop :=
  (forall j, (0 < j < n)%nat -> parent j <> k -> le (a !!! parent j) (a !!! j)) /\
  over_hole a n k.

Lemma heap_front a n j : heap_on a n -> (j < n)%nat -> le (a !!! 0%nat) (a !!! j).
Proof using PO prior.
  intros Hh. induction (lt_wf j) as [j _ IH]; intros Hj.
  destruct (decide (j = 0)%nat) as [->|]; [apply le_refl_|].
  pose proof (parent_cases j ltac:(lia)).
  transitivity (a !!! parent j); [apply IH; lia|apply Hh; lia].
Qed.

Lemma up_heap_swap a n k : (n <= length a)%nat -> (0 < k < n)%nat ->
  le (a !!! k) (a !!! parent k) -> up_heap a n k -> up_heap (swap (parent k) k a) n (parent k).
Proof using PO prior.
  intros Hn Hk Hle [H1 H2]. pose proof (parent_cases k ltac:(lia)) as Hp. split.
  - intros j Hj Hne. pose proof (parent_cases j ltac:(lia)).
    rewrite !lookup_swap by lia. destruct (decide (j = k)) as [->|Hjk].
    { rewrite (decide_False (P := parent k = k)) by lia. by rewrite decide_True by done. }
    rewrite (decide_False (P := j = parent k)) by done.
    destruct (decide (parent j = k)) as [Hjp|Hjp]; [apply H2; [done..|lia]|].
    destruct (decide (parent j = parent k)) as [Hjs|Hjs]; [|by apply H1].
    transitivity (a !!! parent k); [done|]. rewrite <- Hjs. by apply H1.
  - intros j Hj Hjp H0. pose proof (parent_cases j ltac:(lia)).
    pose proof (parent_cases (parent k) ltac:(lia)).
    rewrite !lookup_swap by lia. rewrite (decide_False (P := parent (parent k) = k)) by lia.
    rewrite (decide_False (P := parent (parent k) = parent k)) by lia.
    assert (le (a !!! parent (parent k)) (a !!! parent k)) by (apply H1; lia).
    destruct (decide (j = k)) as [->|Hjk]; [done|].
    rewrite decide_False by lia. transitivity (a !!! parent k); [done|].
    rewrite <- Hjp. by apply H1.
Qed.

Lemma up_heap_done a n k : (k = 0%nat \/ le (a !!! parent k) (a !!! k)) ->
  up_heap a n k -> heap_on a n.
Proof using.
  intros Hk [H1 _] j Hj. destruct (decide (j = k)) as [->|]; [|by apply H1].
  destruct Hk; [lia|done].
Qed.

Lemma insert_loop_spec fuel k n a : (k <= fuel)%nat -> (k < n)%nat -> (n <= length a)%nat ->
  up_heap a n k -> exists a', insert_loop prior fuel k a = Some a' /\ heap_on a' n /\
    length a' = length a /\ take n a' ≡ₚ take n a.
Proof using PO.
  revert k a. induction fuel as [|fuel IH]; intros k a Hf Hk Hn Hu; cbn [insert_loop].
  { rewrite (proj2 (Nat.eqb_eq k 0)) by lia. exists a. split_and!; auto.
    apply (up_heap_done a n k); [lia|done]. }
  destruct (Nat.eqb_spec k 0) as [->|Hk0].
  { exists a. split_and!; auto. apply (up_heap_done a n 0); [lia|done]. }
  pose proof (parent_cases k ltac:(lia)) as Hp. fold (parent k).
  rewrite !at_lt by lia. cbn [mbind option_bind].
  destruct (prior (a !!! parent k) (a !!! k)) eqn:E.
  { exists a. split_and!; auto. apply (up_heap_done a n k); [|done].
    right. by apply prior_true. }
  pose proof (store_swap (parent k) k a ltac:(lia) ltac:(lia)) as HS.
  destruct (store _ _ a) as [a1|] eqn:E1; [|done]. cbn [mbind option_bind] in HS |- *. rewrite HS. cbn [mbind option_bind].
  destruct (IH (parent k) (swap (parent k) k a)) as (a' & -> & Hh & Hl & HP);
    rewrite ?length_swap; try lia.
  { apply up_heap_swap; [lia..| |done]. by apply prior_false. }
  exists a'. rewrite length_swap in Hl. split_and!; auto.
  rewrite HP. apply swap_permutation; lia.
Qed.

Lemma down_heap_swap a n i k : (n <= length a)%nat -> (0 < k < n)%nat -> parent k = i ->
  (forall j, (0 < j < n)%nat -> parent j = i -> le (a !!! k) (a !!! j)) ->
  le (a !!! k) (a !!! i) -> down_heap a n i -> down_heap (swap i k a) n k.
Proof using.
  intros Hn Hk Hi Hmin Hle [H1 H2]. pose proof (parent_cases k ltac:(lia)) as Hp. split.
  - intros j Hj Hjk. pose proof (parent_cases j ltac:(lia)).
    rewrite !lookup_swap by lia. rewrite (decide_False (P := parent j = k)) by done.
    destruct (decide (parent j = i)) as [Hji|Hji].
    { destruct (decide (j = k)) as [->|]; [done|]. rewrite decide_False by lia. by apply Hmin. }
    destruct (decide (j = k)) as [->|]; [done|].
    destruct (decide (j = i)) as [->|]; [apply H2; [done..|lia]|by apply H1].
  - intros j Hj Hjk _. pose proof (parent_cases j ltac:(lia)).
    rewrite !lookup_swap by lia. rewrite Hi, (decide_False (P := i = k)) by lia.
    rewrite decide_True by done. rewrite !decide_False by lia.
    rewrite <- Hjk. apply H1; [done|lia].
Qed.

Lemma down_heap_done a n i :
  (forall j, (0 < j < n)%nat -> parent j = i -> le (a !!! i) (a !!! j)) ->
  down_heap a n i -> heap_on a n.
Proof using.
  intros Hi [H1 _] j Hj. destruct (decide (parent j = i)) as [E|]; [|by apply H1].
  rewrite E. by apply Hi.
Qed.

Lemma down_heap_end a n i : heap_on a n -> (n <= i)%nat -> down_heap a n i.
Proof using.
  intros Hh Hi. split; [intros; by apply Hh|]. intros j Hj Hp.
  pose proof (parent_cases j ltac:(lia)). lia.
Qed.

(** One turn of the loop: the child that it compares with, which is word [n], equal to
    word [i], when the right child is missing and [prior] puts it before the left one. *)
Definition pop_child i a : nat :=
  let j0 := (2 * i + 1)%nat in if prior (a !!! (j0 + 1)%nat) (a !!! j0) then (j0 + 1)%nat else j0.

Lemma pop_loop_step fuel i n a : (n < length a)%nat -> (2 * i + 1 < n)%nat ->
  pop_loop prior (S fuel) i n a =
  if prior (a !!! i) (a !!! pop_child i a) then Some a
  else pop_loop prior fuel (pop_child i a) n (swap i (pop_child i a) a).
Proof using.
  intros Hn Hi. cbn [pop_loop]. rewrite (proj2 (Nat.leb_gt _ _)) by lia.
  rewrite !at_lt by lia. cbn [mbind option_bind]. fold (pop_child i a).
  assert (pop_child i a < length a)%nat as Hc by (unfold pop_child; case_match; lia).
  rewrite at_lt by done. cbn [mbind option_bind].
  destruct (prior (a !!! i) _); [done|].
  pose proof (store_swap i (pop_child i a) a ltac:(lia) Hc) as HS.
  destruct (store _ _ a) as [a1|] eqn:E1; [|done].
  cbn [mbind option_bind] in HS |- *. by rewrite HS.
Qed.

Lemma pop_child_min i n a j : (2 * i + 1 < n)%nat -> parent j = i -> (0 < j)%nat ->
  le (a !!! pop_child i a) (a !!! j).
Proof using PO.
  intros Hi Hp Hj. pose proof (parent_cases j Hj) as Hc. unfold pop_child.
  replace (2 * i + 1 + 1)%nat with (2 * i + 2)%nat by lia. rewrite Hp in Hc.
  destruct (prior _ _) eqn:E; [apply prior_true in E|apply prior_false in E];
    destruct Hc as [->| ->]; done || apply le_refl_.
Qed.

Lemma pop_loop_spec fuel i n a : (n < length a)%nat -> (i <= n < i + fuel)%nat ->
  a !!! n = a !!! i -> down_heap a n i ->
  exists a', pop_loop prior fuel i n a = Some a' /\ heap_on a' n /\
    length a' = length a /\ take n a' ≡ₚ take n a.
Proof using PO.
  revert i a. induction fuel as [|fuel IH]; intros i a Hn Hf Hni Hd; [lia|].
  destruct (decide (n <= 2 * i + 1)%nat) as [Hle|Hgt].
  { cbn [pop_loop]. rewrite (proj2 (Nat.leb_le _ _)) by done. exists a. split_and!; auto.
    apply (down_heap_done a n i); [|done]. intros j Hj Hp.
    pose proof (parent_cases j ltac:(lia)). lia. }
  rewrite pop_loop_step by lia. set (k := pop_child i a).
  pose proof (fun j => pop_child_min i n a j ltac:(lia)) as Hmin.
  destruct (prior (a !!! i) (a !!! k)) eqn:E.
  { exists a. split_and!; auto. apply (down_heap_done a n i); [|done]. intros j Hj Hp.
    transitivity (a !!! k); [by apply (prior_true _ _ E)|apply Hmin; lia]. }
  apply prior_false in E. assert (k <= n)%nat as Hkn by (unfold k, pop_child; case_match; lia).
  assert (k = 2 * i + 1 \/ k = 2 * i + 2)%nat as Hk by (unfold k, pop_child; case_match; lia).
  destruct (decide (k = n)) as [Hkn'|Hkn'].
  - rewrite swap_id by (lia || congruence).
    apply IH; [done|lia|by rewrite <- Hkn'|]. rewrite Hkn'. apply down_heap_end; [|done].
    apply (down_heap_done a n i); [|done]. intros j Hj Hp. rewrite <- Hni, <- Hkn'.
    apply Hmin; lia.
  - assert (parent k = i) as Hpk by (pose proof (parent_cases k ltac:(lia)); lia).
    destruct (IH k (swap i k a)) as (a' & -> & Hh & Hl & HP); rewrite ?length_swap; try lia.
    { rewrite !lookup_swap by lia. rewrite !(decide_False (P := n = _)) by lia.
      by rewrite decide_True by done. }
    { apply down_heap_swap; [lia..|done| |done|done]. intros j Hj Hp. apply Hmin; lia. }
    exists a'. rewrite length_swap in Hl. split_and!; auto.
    rewrite HP. apply swap_permutation; lia.
Qed.

(** *** Queues *)

Definition elems q : list Z := take (Z.to_nat (count q)) (arr q).

(** Every queue that the functions make; [2 ^ 60] words are half of the address space. *)
Record wf q : Prop := {
  wf_count : 0 <= count q <= capacity q;
  wf_capacity : capacity q <= 2 ^ 60;
  wf_length : Z.of_nat (length (arr q)) = capacity q;
  wf_heap : heap_on (arr q) (Z.to_nat (count q));
}.

Lemma wf_new : wf cucon_priq_new.
Proof using. split; cbn; try lia. intros j Hj. lia. Qed.

Lemma length_queue q : wf q -> Z.of_nat (length (elems q)) = count q.
Proof using. intros [? ? ? ?]. unfold elems. rewrite length_take. lia. Qed.

Lemma elems_lookup q x : wf q -> x ∈ elems q ->
  exists j, (j < Z.to_nat (count q))%nat /\ arr q !!! j = x.
Proof using.
  intros Hw [j Hj]%list_elem_of_lookup. unfold elems in Hj.
  apply lookup_take_Some in Hj as [Hj Hlt]. exists j. split; [done|].
  by apply list_lookup_total_correct.
Qed.

Lemma copy_words_spec (size m : Z) a : 0 <= m <= Z.of_nat (length a) -> m <= size ->
  exists a', copy_words size m a = Some a' /\ Z.of_nat (length a') = size /\
    take (Z.to_nat m) a' = take (Z.to_nat m) a.
Proof using.
  intros Hn Hs. unfold copy_words. rewrite (proj2 (Z.ltb_ge _ _)) by lia.
  eexists. split; [done|]. rewrite length_app, length_replicate, length_take.
  split; [lia|]. rewrite take_app_le by (rewrite length_take; lia).
  by rewrite take_take, Nat.min_id.
Qed.

(** The array can be replaced by one with the same first words. *)
Lemma heap_on_take a a' n m : (n <= m)%nat -> (m <= length a)%nat -> (m <= length a')%nat ->
  take m a' = take m a -> heap_on a n -> heap_on a' n.
Proof using.
  intros Hn Hl Hl' E Hh j Hj.
  assert (forall i, (i < n)%nat -> a' !!! i = a !!! i) as Heq.
  { intros i Hi. apply (f_equal (lookup i)) in E. rewrite !lookup_take_lt in E by lia.
    by rewrite !list_lookup_lookup_total_lt in E by lia; injection E. }
  pose proof (parent_cases j ltac:(lia)). rewrite !Heq by lia. by apply Hh.
Qed.

Lemma wf_resize q (m cap : Z) a' : wf q -> count q <= m <= capacity q -> m <= cap <= 2 ^ 60 ->
  Z.of_nat (length a') = cap -> take (Z.to_nat m) a' = take (Z.to_nat m) (arr q) ->
  wf (mk_priq (count q) cap a') /\ elems (mk_priq (count q) cap a') = elems q.
Proof using.
  intros [? ? ? Hh] Hm Hc Hl E. split.
  - split; cbn; try lia. apply (heap_on_take (arr q) a' _ (Z.to_nat m)); try lia; done.
  - unfold elems. cbn. apply (f_equal (take (Z.to_nat (count q)))) in E.
    rewrite !take_take, Nat.min_l in E by lia. done.
Qed.

Lemma expand_by_2_spec q : wf q -> count q < 2 ^ 59 -> count q = capacity q ->
  exists q', expand_by_2 q = Some q' /\ wf q' /\ elems q' = elems q /\
    count q' = count q /\ count q' < capacity q'.
Proof using.
  intros Hw Hc He. pose proof Hw as [? ? ? ?]. unfold expand_by_2.
  destruct (Z.eqb_spec (capacity q) 0) as [E|E].
  - exists (mk_priq (count q) 4 (replicate 4 0)). split; [done|].
    destruct (wf_resize q 0 4 (replicate 4 0)) as [Hw' Ee]; [done|lia..|done|done|].
    rewrite Ee. cbn. split_and!; auto; lia.
  - rewrite wrap_small by (unfold word in *; lia).
    destruct (copy_words_spec (capacity q * 2) (capacity q) (arr q)) as (a' & -> & Hl & Ht);
      [lia..|]. cbn [mbind option_bind]. eexists. split; [done|].
    destruct (wf_resize q (capacity q) (capacity q * 2) a') as [Hw' Ee]; [done|lia..|done|].
    rewrite Ee. cbn. split_and!; auto; lia.
Qed.

Lemma insert_prepared q : wf q -> count q < 2 ^ 59 ->
  exists q1, (if capacity q <=? count q then expand_by_2 q else Some q) = Some q1 /\
    wf q1 /\ elems q1 = elems q /\ count q1 = count q /\ count q < capacity q1.
Proof using.
  intros Hw Hc. pose proof Hw as [? ? ? ?]. destruct (Z.leb_spec (capacity q) (count q)).
  - destruct (expand_by_2_spec q) as (q1 & -> & Hw1 & He & Hq & Hl); [done|lia..|].
    exists q1. split_and!; auto. lia.
  - exists q. split_and!; auto.
Qed.

Lemma cucon_priq_insert_spec q key : wf q -> count q < 2 ^ 59 ->
  exists q', cucon_priq_insert prior q key = Some q' /\ wf q' /\
    count q' = count q + 1 /\ elems q' ≡ₚ key :: elems q.
Proof using PO.
  intros Hw Hc. destruct (insert_prepared q Hw Hc) as (q1 & E & Hw1 & He & Hq & Hl).
  unfold cucon_priq_insert. rewrite E. cbn [mbind option_bind].
  destruct Hw1 as [Hc1 Hm1 Hl1 Hh1]. rewrite Hq in *.
  set (n := Z.to_nat (count q)) in *. assert (n < length (arr q1))%nat as Hn by lia.
  unfold store. rewrite (proj2 (Nat.ltb_lt _ _) Hn). cbn [mbind option_bind].
  destruct (insert_loop_spec n n (S n) (<[n := key]> (arr q1))) as (a' & -> & Hh & Hla & HP).
  { lia. } { lia. } { rewrite length_insert. lia. }
  { split.
    - intros j Hj Hjn. pose proof (parent_cases j ltac:(lia)).
      rewrite !list_lookup_total_insert_ne by lia. apply Hh1. lia.
    - intros j Hj Hp. pose proof (parent_cases j ltac:(lia)). lia. }
  rewrite length_insert in Hla. unfold wadd. rewrite wrap_small by (unfold word in *; lia).
  cbn [mbind option_bind]. eexists. split; [done|]. split_and!; [|done|].
  - split; cbn; try lia. by replace (Z.to_nat (count q + 1)) with (S n) by lia.
  - unfold elems at 1. cbn. replace (Z.to_nat (count q + 1)) with (S n) by lia. rewrite HP.
    rewrite (take_S_r _ _ key) by (by rewrite list_lookup_insert_eq).
    rewrite take_insert_ge, <- He by lia. unfold elems. rewrite Hq. fold n.
    by rewrite Permutation_app_comm.
Qed.

(** The front of the heap is taken away, and the last word moved to its place. *)
Lemma elems_front a n : (n < length a)%nat ->
  take (S n) a ≡ₚ a !!! 0%nat :: take n (<[0%nat := a !!! n]> a).
Proof using.
  intros Hn. destruct a as [|x a]; [cbn in Hn; lia|]. cbn [insert list_insert].
  destruct n as [|n]; [done|]. cbn in Hn. change ((x :: a) !!! S n) with (a !!! n).
  rewrite !firstn_cons. constructor.
  rewrite (take_S_r _ n (a !!! n)) by (apply list_lookup_lookup_total_lt; lia).
  by rewrite Permutation_app_comm.
Qed.

Lemma reduce_spec q : wf q ->
  exists q1, (if (8 <? count q) && (count q <=? capacity q / 4) then reduce_by_4 q else Some q)
    = Some q1 /\ wf q1 /\ elems q1 = elems q /\ count q1 = count q.
Proof using.
  intros Hw. pose proof Hw as [? ? ? ?].
  destruct (Z.ltb_spec 8 (count q)); [|by exists q].
  destruct (Z.leb_spec (count q) (capacity q / 4)); [|by exists q]. cbn [andb].
  unfold reduce_by_4. set (c := capacity q / 4) in *.
  assert (c <= capacity q) by (subst c; apply Z.div_le_upper_bound; lia).
  destruct (copy_words_spec c c (arr q)) as (a' & -> & Hl & Ht); [lia..|].
  cbn [mbind option_bind]. eexists. split; [done|].
  destruct (wf_resize q c c a') as [Hw' Ee]; [done|lia..|done|]. by split_and!.
Qed.

Lemma cucon_priq_pop_front_spec q : wf q -> 0 < count q ->
  exists x q', cucon_priq_pop_front prior q = Some (x, q') /\ wf q' /\
    cucon_priq_front q = Some x /\ count q' = count q - 1 /\
    elems q ≡ₚ x :: elems q' /\ Forall (le x) (elems q).
Proof using PO.
  intros Hw Hc. pose proof Hw as [Hcq Hm Hl Hh]. unfold cucon_priq_pop_front.
  rewrite (proj2 (Z.eqb_neq _ _)) by lia. unfold wsub. rewrite wrap_small by (unfold word in *; lia).
  set (n := Z.to_nat (count q - 1)). assert (Z.to_nat (count q) = S n) as Hn by lia.
  set (a0 := <[0%nat := arr q !!! n]> (arr q)).
  rewrite !at_lt by lia. cbn [mbind option_bind]. unfold store.
  rewrite (proj2 (Nat.ltb_lt _ _)) by lia. cbn [mbind option_bind]. fold a0.
  destruct (pop_loop_spec (S n) 0 n a0) as (a' & -> & Hh' & Hl' & HP);
    subst a0; rewrite ?length_insert in *; try lia.
  { rewrite list_lookup_total_insert_eq by lia. destruct (decide (n = 0)%nat) as [->|].
    - by rewrite list_lookup_total_insert_eq by lia.
    - by rewrite list_lookup_total_insert_ne by lia. }
  { split.
    - intros j Hj Hp. pose proof (parent_cases j ltac:(lia)).
      rewrite !list_lookup_total_insert_ne by lia. apply Hh. lia.
    - intros j _ _ ?. lia. }
  cbn [mbind option_bind].
  destruct (reduce_spec (mk_priq (count q - 1) (capacity q) a')) as (q1 & -> & Hw1 & He & Hc1).
  { split; cbn; try lia. done. }
  cbn [mbind option_bind]. eexists _, q1. split; [done|]. split_and!; [done| |by rewrite Hc1| |].
  - unfold cucon_priq_front. rewrite at_lt by lia. done.
  - rewrite He. unfold elems at 2. cbn. fold n. rewrite HP. unfold elems. rewrite Hn.
    apply elems_front. lia.
  - apply list.Forall_forall. intros x Hx. destruct (elems_lookup q x Hw Hx) as (j & Hj & <-).
    apply (heap_front _ (Z.to_nat (count q))); done.
Qed.

(** *** Sequences of operations *)

Inductive op := Insert (key : Z) | Pop_front.

(** The functions on a queue, with the results of the removals. *)
Fixpoint run (ops : list op) q : option (list Z * priq) :=
  match ops with
  | [] => Some ([], q)
  | Insert key :: ops => q ← cucon_priq_insert prior q key; run ops q
  | Pop_front :: ops =>
      '(x, q) ← cucon_priq_pop_front prior q; '(xs, q) ← run ops q; Some (x :: xs, q)
  end.

(** A multiset, a list up to permutation, whose removals give an element prior to all
    others, or [NULL]. *)
Inductive bag_run : list op -> list Z -> list Z -> list Z -> Prop :=
| bag_nil m m' : m ≡ₚ m' -> bag_run [] m [] m'
| bag_insert key ops m xs m' :
    bag_run ops (key :: m) xs m' -> bag_run (Insert key :: ops) m xs m'
| bag_pop x ops m m1 xs m' : m ≡ₚ x :: m1 -> Forall (le x) m ->
    bag_run ops m1 xs m' -> bag_run (Pop_front :: ops) m (x :: xs) m'
| bag_pop_null ops xs m' : bag_run ops [] xs m' -> bag_run (Pop_front :: ops) [] (0 :: xs) m'.

Lemma bag_run_permutation ops m1 m2 xs m' : m1 ≡ₚ m2 ->
  bag_run ops m1 xs m' -> bag_run ops m2 xs m'.
Proof using.
  intros HP HR. revert m2 HP. induction HR as [m m' E|key ops m xs m' _ IH|x ops m m1 xs m' E Hx
    HR _|ops xs m' HR IH]; intros m2 HP.
  - constructor. by rewrite <- HP.
  - constructor. apply IH. by rewrite HP.
  - apply (bag_pop x ops m2 m1); [by rewrite <- HP|by rewrite <- HP|done].
  - apply Permutation_nil_l in HP as <-. by constructor.
Qed.

Lemma pop_front_empty q : count q = 0 -> cucon_priq_pop_front prior q = Some (0, q).
Proof using. intros E. unfold cucon_priq_pop_front. by rewrite E. Qed.

Lemma run_bag ops q : wf q -> count q + Z.of_nat (length ops) < 2 ^ 59 ->
  exists xs q', run ops q = Some (xs, q') /\ wf q' /\ bag_run ops (elems q) xs (elems q').
Proof using PO.
  revert q. induction ops as [|[key|] ops IH]; intros q Hw Hl; cbn [length] in Hl.
  - exists [], q. split_and!; [done..|by constructor].
  - destruct (cucon_priq_insert_spec q key Hw) as (q1 & E1 & Hw1 & Hc1 & HP); [lia|].
    destruct (IH q1 Hw1) as (xs & q' & E & Hw' & HR); [lia|].
    exists xs, q'. cbn [run]. rewrite E1. cbn [mbind option_bind]. split_and!; [done..|].
    constructor. by apply (bag_run_permutation _ (elems q1)).
  - pose proof (wf_count q Hw). cbn [run]. destruct (decide (count q = 0)) as [E0|E0].
    + rewrite pop_front_empty by done. destruct (IH q Hw) as (xs & q' & E & Hw' & HR); [lia|].
      exists (0 :: xs), q'. cbn [mbind option_bind]. rewrite E. split_and!; [done..|].
      assert (elems q = []) as E1 by (apply nil_length_inv; pose proof (length_queue q Hw); lia).
      rewrite E1 in *. by constructor.
    + destruct (cucon_priq_pop_front_spec q Hw) as (x & q1 & E1 & Hw1 & _ & Hc1 & HP & HF);
        [lia|].
      destruct (IH q1 Hw1) as (xs & q' & E & Hw' & HR); [lia|].
      exists (x :: xs), q'. rewrite E1. cbn [mbind option_bind]. rewrite E.
      split_and!; [done..|]. by apply (bag_pop x ops (elems q) (elems q1)).
Qed.

(** Inserting every key and removing as many. *)
Definition priq_sort (keys : list Z) : option (list Z) :=
  '(xs, _) ← run (map Insert keys ++ replicate (length keys) Pop_front) cucon_priq_new; Some xs.

Lemma bag_run_pops n m xs m' : length m = n ->
  bag_run (replicate n Pop_front) m xs m' -> m ≡ₚ xs /\ StronglySorted le xs.
Proof using.
  revert m xs. induction n as [|n IH]; intros m xs Hl HR; cbn in HR.
  - inversion HR; subst. apply nil_length_inv in Hl as ->. split; [done|constructor].
  - inversion HR as [| |x ops m0 m1 xs1 m2 HP HF HR1|]; subst; [|done].
    rewrite HP in Hl. cbn in Hl. destruct (IH m1 xs1) as [HP1 HS]; [lia|done|].
    rewrite HP, HP1. split; [done|]. constructor; [done|].
    rewrite <- HP1. rewrite HP in HF. by inversion HF.
Qed.

Lemma bag_run_inserts keys ops m xs m' :
  bag_run (map Insert keys ++ ops) m xs m' -> bag_run ops (reverse keys ++ m) xs m'.
Proof using.
  revert m. induction keys as [|key keys IH]; intros m HR; [done|].
  cbn in HR. inversion HR; subst. rewrite reverse_cons, <- app_assoc. by apply IH.
Qed.

(** C16: starting from the empty queue, any sequence of insertions and removals runs
    within the array, and is one of a multiset whose removals take an element prior to
    all others ([0], for [NULL], when there is none); the queue at the end holds the
    elements of the multiset, its front is one prior to all, and its count theirs. *)
Theorem priq_refines_multiset (ops : list op) (Hl : Z.of_nat (length ops) < 2 ^ 59) :
  exists xs q, run ops cucon_priq_new = Some (xs, q) /\ bag_run ops [] xs (elems q) /\
    cucon_priq_count q = Z.of_nat (length (elems q)) /\
    cucon_priq_is_empty q = bool_decide (elems q = []) /\
    (elems q <> [] -> exists x, cucon_priq_front q = Some x /\ x ∈ elems q /\
      Forall (le x) (elems q)).
Proof using PO.
  destruct (run_bag ops cucon_priq_new wf_new) as (xs & q & E & Hw & HR); [cbn; lia|].
  exists xs, q. pose proof (length_queue q Hw) as HL. split_and!; [done..| |].
  - unfold cucon_priq_is_empty. destruct (Z.eqb_spec (count q) 0) as [E0|E0].
    + rewrite bool_decide_eq_true_2; [done|]. apply nil_length_inv. lia.
    + rewrite bool_decide_eq_false_2; [done|]. intros E1. rewrite E1 in HL. cbn in HL. lia.
  - intros Hne. destruct (cucon_priq_pop_front_spec q Hw) as (x & q' & _ & _ & Hx & _ & HP & HF).
    { destruct (elems q); [done|]. cbn in HL. lia. }
    exists x. split_and!; [done| |done]. rewrite HP. by left.
Qed.

(** Inserting keys and removing them all sorts them by priority. *)
Theorem priq_sort_correct (keys : list Z) (Hl : Z.of_nat (length keys) < 2 ^ 58) :
  exists xs, priq_sort keys = Some xs /\ keys ≡ₚ xs /\ StronglySorted le xs.
Proof using PO.
  unfold priq_sort. destruct (run_bag (map Insert keys ++ replicate (length keys) Pop_front)
    cucon_priq_new wf_new) as (xs & q & E & _ & HR).
  { rewrite length_app, length_map, length_replicate. cbn. lia. }
  rewrite E. exists xs. split; [done|]. apply bag_run_inserts, bag_run_pops in HR.
  - by rewrite app_nil_r, reverse_Permutation in HR.
  - by rewrite app_nil_r, length_reverse.
Qed.

End heap.

Lemma priq_refines_multiset_witness :
  exists xs q, run Z.ltb [Insert 3; Insert 1; Pop_front; Pop_front; Pop_front; Insert 2]
      cucon_priq_new = Some (xs, q) /\
    bag_run Z.le [Insert 3; Insert 1; Pop_front; Pop_front; Pop_front; Insert 2] [] xs (elems q) /\
    cucon_priq_count q = Z.of_nat (length (elems q)) /\
    cucon_priq_is_empty q = bool_decide (elems q = []) /\
    (elems q <> [] -> exists x, cucon_priq_front q = Some x /\ x ∈ elems q /\
      Forall (Z.le x) (elems q)).
Proof. apply (priq_refines_multiset Z.ltb Z.le). vm_compute. reflexivity. Defined.

Example priq_sort_run : priq_sort Z.ltb [5; 2; 9; 2; 7; 1; 8; 4; 3; 6; 0; 5] =
  Some [0; 1; 2; 2; 3; 4; 5; 5; 6; 7; 8; 9].
Proof. reflexivity. Qed.
