(* ===== verification/Expr.v ===== *)
(** * Expressions: [cuoo/meta.h], [cuex/ex.h], [cuex/opn.h], [cuex/var.h], [cuex/qcode.h]

    An expression is a dynamic object, headed by its meta word: a variable or a constant,
    which is identified by its address, or an operation, which hash-consing makes
    the same object for the same operator and operands, so that comparing pointers is
    comparing expressions.  (What the constructor of an operator with [CUEX_OPRFLAG_CTOR]
    caches behind the operands is not part of the identity of the operation and is left out.) *)

From stdpp Require Export gmap.
From S2P Require Export Int.

(** ** Meta words *)

Definition CUEX_META_MASK (shift width : Z) : Z := wshl (wsub (wshl 1 width) 1) shift.

Definition CUEX_METAKIND_WIDTH : Z := 2.
Definition CUEX_OPR_FLAGS_WIDTH : Z := 1.
Definition CUEX_OPR_ARITY_WIDTH : Z := 24.
Definition CUEX_OPR_SELECT_WIDTH : Z := 37.
Definition CUEX_OPR_FLAGS_SHIFT : Z := CUEX_METAKIND_WIDTH.
Definition CUEX_OPR_ARITY_SHIFT : Z := CUEX_OPR_FLAGS_SHIFT + CUEX_OPR_FLAGS_WIDTH.
Definition CUEX_OPR_SELECT_SHIFT : Z := CUEX_OPR_ARITY_SHIFT + CUEX_OPR_ARITY_WIDTH.
Definition CUEX_OPR_ARITY_MASK : Z := CUEX_META_MASK CUEX_OPR_ARITY_SHIFT CUEX_OPR_ARITY_WIDTH.
Definition CUEX_OPR_SELECT_MASK : Z :=
  CUEX_META_MASK CUEX_OPR_SELECT_SHIFT CUEX_OPR_SELECT_WIDTH.
Definition CUEX_OPRFLAG_CTOR : Z := wshl 1 CUEX_OPR_FLAGS_SHIFT.

Definition cuex_meta_kind_type : Z := 0.
Definition cuex_meta_kind_opr : Z := 1.
Definition cuex_meta_kind_other : Z := 2.
Definition cuex_meta_kind (meta : Z) : Z := meta &&& 3.

Definition cuex_meta_is_type (meta : Z) : bool := cuex_meta_kind meta =? cuex_meta_kind_type.
Definition cuex_meta_is_opr (meta : Z) : bool := cuex_meta_kind meta =? cuex_meta_kind_opr.
Definition cuex_opr_r (opr : Z) : Z := (opr &&& CUEX_OPR_ARITY_MASK) >>> CUEX_OPR_ARITY_SHIFT.
Definition cuex_meta_is_opr_r (r meta : Z) : bool :=
  cuex_meta_is_opr meta && (cuex_opr_r meta =? r).

Definition cuex_opr (index arity : Z) : Z :=
  wshl index CUEX_OPR_SELECT_SHIFT ||| wshl arity CUEX_OPR_ARITY_SHIFT ||| 1.
Definition cuex_opr_with_ctor (index arity : Z) : Z := cuex_opr index arity ||| CUEX_OPRFLAG_CTOR.
Definition cuex_opr_index (opr : Z) : Z := (opr &&& CUEX_OPR_SELECT_MASK) >>> CUEX_OPR_SELECT_SHIFT.
Definition cuex_opr_has_ctor (opr : Z) : bool := negb ((opr &&& CUEX_OPRFLAG_CTOR) =? 0).
Definition cuex_opr_null : Z := cuex_opr 0 0.

(** The meta words of variables. *)
Definition CUEXP_VARMETA_SELECT_WIDTH : Z := 3.
Definition CUEXP_VARMETA_SELECT_MASK : Z := 7.
Definition CUEXP_VARMETA_SELECT_VALUE : Z := 6.
Definition CUEXP_VARMETA_WSIZE_SHIFT : Z := CUEXP_VARMETA_SELECT_WIDTH.
Definition CUEXP_VARMETA_WSIZE_WIDTH : Z := 2.
Definition CUEXP_VARMETA_QCODE_WIDTH : Z := 2.
Definition CUEXP_VARMETA_KIND_WIDTH : Z := 3.
Definition CUEXP_VARMETA_INDEX_WIDTH : Z := 54.
Definition CUEXP_VARMETA_QCODE_SHIFT : Z := CUEXP_VARMETA_WSIZE_SHIFT + CUEXP_VARMETA_WSIZE_WIDTH.
Definition CUEXP_VARMETA_KIND_SHIFT : Z := CUEXP_VARMETA_QCODE_SHIFT + CUEXP_VARMETA_QCODE_WIDTH.
Definition CUEXP_VARMETA_INDEX_SHIFT : Z := CUEXP_VARMETA_KIND_SHIFT + CUEXP_VARMETA_KIND_WIDTH.
Definition CUEXP_VARMETA_QCODE_MASK : Z :=
  CUEX_META_MASK CUEXP_VARMETA_QCODE_SHIFT CUEXP_VARMETA_QCODE_WIDTH.
Definition CUEXP_VARMETA_INDEX_MASK : Z :=
  CUEX_META_MASK CUEXP_VARMETA_INDEX_SHIFT CUEXP_VARMETA_INDEX_WIDTH.

Definition cuex_varkind_svar : Z := 0.
Definition cuex_varkind_ivar : Z := 5.

Definition cuex_varmeta_kqis (kind qcode index wsize : Z) : Z :=
  CUEXP_VARMETA_SELECT_VALUE ||| wshl wsize CUEXP_VARMETA_WSIZE_SHIFT
  ||| wshl kind CUEXP_VARMETA_KIND_SHIFT ||| wshl qcode CUEXP_VARMETA_QCODE_SHIFT
  ||| wshl index CUEXP_VARMETA_INDEX_SHIFT.
Definition cuex_varmeta_kqi (kind qcode index : Z) : Z := cuex_varmeta_kqis kind qcode index 0.

Definition cuex_is_varmeta (meta : Z) : bool :=
  (CUEXP_VARMETA_SELECT_MASK &&& meta) =? cuex_varmeta_kqi 0 0 0.
Definition cuex_varmeta_qcode (meta : Z) : Z :=
  (meta &&& CUEXP_VARMETA_QCODE_MASK) >>> CUEXP_VARMETA_QCODE_SHIFT.
Definition cuex_varmeta_index (meta : Z) : Z :=
  (meta &&& CUEXP_VARMETA_INDEX_MASK) >>> CUEXP_VARMETA_INDEX_SHIFT.

(** ** Quantification codes and sets of them *)

Definition cuex_qcode_u : Z := 0.
Definition cuex_qcode_e : Z := 1.
Definition cuex_qcode_w : Z := 2.
Definition cuex_qcode_n : Z := 3.
Definition cuex_qcode_active_w : Z := cuex_qcode_w.

Definition cuex_qcset_singleton (qc : Z) : Z := 1 <<< qc.
Definition cuex_qcset_union (s0 s1 : Z) : Z := s0 ||| s1.
Definition cuex_qcset_isecn (s0 s1 : Z) : Z := s0 &&& s1.
Definition cuex_qcset_complement (s : Z) : Z := Z.lnot s.
Definition cuex_qcset_contains (s qc : Z) : bool := negb (((1 <<< qc) &&& s) =? 0).
Definition cuex_qcset_uw : Z := 5.
Definition cuex_qcset_top : Z := 15.

(** ** Expressions *)

Inductive ex :=
| Obj (meta addr : Z)
| Opn (opr : Z) (operand_arr : list ex).

Definition cuex_meta (e : ex) : Z := match e with Obj meta _ => meta | Opn opr _ => opr end.

Definition cuex_is_opn (e : ex) : bool := cuex_meta_kind (cuex_meta e) =? cuex_meta_kind_opr.
Definition cuex_is_obj (e : ex) : bool := cuex_meta_kind (cuex_meta e) =? cuex_meta_kind_type.
Definition cuex_is_var (e : ex) : bool := cuex_is_varmeta (cuex_meta e).
Definition cuex_var_qcode (e : ex) : Z := cuex_varmeta_qcode (cuex_meta e).

(** The operands of an operation; there are none to read in other objects. *)
Definition operands (e : ex) : list ex := match e with Obj _ _ => [] | Opn _ l => l end.
Definition cuex_opn_at (e : ex) (i : nat) : option ex := operands e !! i.

(** [CUEX_OPN_TRAN]: the loop leaves the operation as it is ([None]) until a first
    operand that changes. *)
Section tran.
Context (f : ex -> ex) (eq : ex -> ex -> bool).

Fixpoint tran_operands (l : list ex) : option (list ex) :=
  match l with
  | [] => None
  | x :: l =>
      let y := f x in
      if eq x y then cons x <$> tran_operands l else Some (y :: map f l)
  end.

Definition opn_tran (opr : Z) (opn : ex) (l : list ex) : ex :=
  match tran_operands l with None => opn | Some l => Opn opr l end.
End tran.

(** *** Induction, equality and an encoding as tree, for maps by pointer *)

Section ex_ind.
Context (P : ex -> Prop) (HO : forall meta addr, P (Obj meta addr))
  (HN : forall opr l, Forall P l -> P (Opn opr l)).

Fixpoint ex_induction (e : ex) : P e :=
  match e with
  | Obj meta addr => HO meta addr
  | Opn opr l =>
      HN opr l ((fix go l : Forall P l :=
        match l with [] => List.Forall_nil P | x :: l => List.Forall_cons P x l (ex_induction x) (go l) end) l)
  end.
End ex_ind.

#[global] Instance ex_eq_dec : EqDecision ex.
Proof.
  refine (fix go e e' : Decision (e = e') :=
    match e, e' with
    | Obj m a, Obj m' a' => cast_if_and (decide (m = m')) (decide (a = a'))
    | Opn o l, Opn o' l' =>
        let _ : EqDecision ex := go in cast_if_and (decide (o = o')) (decide (l = l'))
    | _, _ => right _
    end); congruence.
Defined.

Fixpoint ex_to_tree (e : ex) : gen_tree (Z * Z + Z) :=
  match e with
  | Obj m a => GenLeaf (inl (m, a))
  | Opn o l => GenNode 0 (GenLeaf (inr o) :: map ex_to_tree l)
  end.

Fixpoint ex_of_tree (t : gen_tree (Z * Z + Z)) : ex :=
  match t with
  | GenLeaf (inl (m, a)) => Obj m a
  | GenNode _ (GenLeaf (inr o) :: l) => Opn o (map ex_of_tree l)
  | _ => Obj 0 0
  end.

Lemma ex_of_to_tree e : ex_of_tree (ex_to_tree e) = e.
Proof.
  induction e as [|o l IH] using ex_induction; cbn; [done|]. f_equal.
  induction IH as [|x l Hx _ IHl]; cbn; [done|]. by rewrite Hx, IHl.
Qed.

#[global] Instance ex_countable : Countable ex := inj_countable' ex_to_tree ex_of_tree ex_of_to_tree.

(** ** What the meta words say *)

(** The objects that the library constructs: the kind of a meta word tells operations from
    others, and its arity field the number of operands. *)
Inductive wf_ex : ex -> Prop :=
| wf_obj meta addr : cuex_meta_is_opr meta = false -> wf_ex (Obj meta addr)
| wf_opn opr l : cuex_meta_is_opr opr = true -> cuex_opr_r opr = Z.of_nat (length l) ->
    Forall wf_ex l -> wf_ex (Opn opr l).
#[export] Hint Constructors wf_ex : core.

Lemma CUEX_OPR_ARITY_MASK_eq : CUEX_OPR_ARITY_MASK = Z.ones 24 <<< 3.
Proof. reflexivity. Qed.
Lemma CUEX_OPR_SELECT_MASK_eq : CUEX_OPR_SELECT_MASK = Z.ones 37 <<< 27.
Proof. reflexivity. Qed.
Lemma CUEXP_VARMETA_QCODE_MASK_eq : CUEXP_VARMETA_QCODE_MASK = Z.ones 2 <<< 5.
Proof. reflexivity. Qed.

Lemma cuex_opr_eq index arity : cuex_opr index arity =
  wshl index 27 ||| wshl arity 3 ||| Z.ones 1.
Proof. reflexivity. Qed.

(** Equality of words, bit by bit, with numbers below [2 ^ w]. *)
Ltac field_bits :=
  apply Z.bits_inj'; intros i Hi; bits_rw; bits_split;
  repeat match goal with
    | H : 0 <= ?a < 2 ^ ?w |- context [Z.testbit ?a ?n] =>
        rewrite (testbit_high a w n H) by lia
    | |- context [Z.testbit ?a ?n] => rewrite (Z.testbit_neg_r a n) by lia
    end;
  rewrite ?orb_false_r, ?andb_false_r, ?andb_true_r, ?orb_true_r; cbn [orb andb];
  try done; try (f_equal; lia).

Lemma cuex_meta_is_opr_opr index arity : cuex_meta_is_opr (cuex_opr index arity) = true.
Proof.
  unfold cuex_meta_is_opr, cuex_meta_kind. rewrite cuex_opr_eq. apply Z.eqb_eq.
  change 3 with (Z.ones 2) at 2. change cuex_meta_kind_opr with (Z.ones 1). field_bits.
Qed.

Lemma cuex_opr_r_opr index arity : 0 <= arity < 2 ^ 24 -> cuex_opr_r (cuex_opr index arity) = arity.
Proof.
  intros Ha. unfold cuex_opr_r. rewrite cuex_opr_eq, CUEX_OPR_ARITY_MASK_eq.
  change CUEX_OPR_ARITY_SHIFT with 3. field_bits.
Qed.

Lemma cuex_opr_index_opr index arity : 0 <= index < 2 ^ 37 -> 0 <= arity < 2 ^ 24 ->
  cuex_opr_index (cuex_opr index arity) = index.
Proof.
  intros Hx Ha. unfold cuex_opr_index. rewrite cuex_opr_eq, CUEX_OPR_SELECT_MASK_eq.
  change CUEX_OPR_SELECT_SHIFT with 27. field_bits.
Qed.

Lemma cuex_varmeta_kqi_eq kind qcode index : cuex_varmeta_kqi kind qcode index =
  Z.ones 3 ^^^ Z.ones 1 ||| wshl kind 7 ||| wshl qcode 5 ||| wshl index 10.
Proof.
  unfold cuex_varmeta_kqi, cuex_varmeta_kqis. change (wshl 0 CUEXP_VARMETA_WSIZE_SHIFT) with 0.
  by rewrite Z.lor_0_r.
Qed.

Lemma cuex_is_varmeta_kqi kind qcode index : cuex_is_varmeta (cuex_varmeta_kqi kind qcode index) = true.
Proof.
  unfold cuex_is_varmeta. rewrite cuex_varmeta_kqi_eq. apply Z.eqb_eq.
  change (cuex_varmeta_kqi 0 0 0) with (Z.ones 3 ^^^ Z.ones 1).
  change CUEXP_VARMETA_SELECT_MASK with (Z.ones 3). field_bits.
Qed.

Lemma cuex_varmeta_qcode_kqi kind qcode index : 0 <= qcode < 2 ^ 2 ->
  cuex_varmeta_qcode (cuex_varmeta_kqi kind qcode index) = qcode.
Proof.
  intros Hq. unfold cuex_varmeta_qcode. rewrite cuex_varmeta_kqi_eq, CUEXP_VARMETA_QCODE_MASK_eq.
  change CUEXP_VARMETA_QCODE_SHIFT with 5. field_bits.
Qed.

(** A variable is not an operation. *)
Lemma varmeta_not_opr meta : cuex_is_varmeta meta = true -> cuex_meta_is_opr meta = false.
Proof.
  unfold cuex_is_varmeta, cuex_meta_is_opr, cuex_meta_kind. intros E%Z.eqb_eq.
  apply Z.eqb_neq. intros E1. apply (f_equal (fun z => Z.testbit z 0)) in E, E1.
  revert E E1. change CUEXP_VARMETA_SELECT_MASK with (Z.ones 3). change 3 with (Z.ones 2) at 2.
  bits_rw. cbn. change (Z.odd (cuex_varmeta_kqi 0 0 0)) with false. by destruct (Z.odd meta).
Qed.

Lemma wf_ex_cases e : wf_ex e ->
  (cuex_meta_is_opr (cuex_meta e) = false /\ operands e = []) \/
  exists opr l, e = Opn opr l /\ cuex_meta_is_opr opr = true /\ cuex_is_varmeta opr = false /\
    cuex_opr_r opr = Z.of_nat (length l) /\ Forall wf_ex l.
Proof.
  intros [meta addr E|opr l E Hr Hl]; [by left|right]. exists opr, l. split_and!; auto.
  destruct (cuex_is_varmeta opr) eqn:E1; [|done]. apply varmeta_not_opr in E1. congruence.
Qed.

(** [CUEX_OPN_TRAN] makes the operation on the transformed operands. *)
Lemma opn_tran_map (f : ex -> ex) opr l :
  opn_tran f (fun x y => bool_decide (x = y)) opr (Opn opr l) l = Opn opr (map f l).
Proof.
  unfold opn_tran. assert (forall l, match tran_operands f (fun x y => bool_decide (x = y)) l with
    None => map f l = l | Some l' => l' = map f l end) as H0.
  { clear l. intros l. induction l as [|x l IH]; cbn; [done|].
    destruct (decide (x = f x)) as [E|E];
      [rewrite bool_decide_eq_true_2 by done|by rewrite bool_decide_eq_false_2 by done].
    destruct (tran_operands f _ l) as [l'|]; cbn; [by rewrite IH, <- E|by rewrite <- E, IH]. }
  specialize (H0 l). destruct (tran_operands f _ l) as [l'|]; [by subst|by rewrite H0].
Qed.

(** ** Hash-consed object types

    Object types as [cuoo/hctem.h] makes them: [hctem_new] is the one object of the type with these
    fields, and [hctem_fields] reads them back; the meta word of the type is no operator. *)
Class HcType (A : Type) := {
  type_to_meta : Z;
  hctem_new : A -> ex;
  hctem_fields : ex -> option A;
}.
Arguments type_to_meta A {_}.

Class HcTypeLaws (A : Type) `{HcType A} : Prop := {
  hctem_meta a : cuex_meta (hctem_new a) = type_to_meta A;
  hctem_fields_new a : hctem_fields (hctem_new a) = Some a;
}.

#[global] Instance hctem_new_inj `{HcTypeLaws A} : Inj (=) (=) (@hctem_new A _).
Proof. intros a b E. apply (f_equal hctem_fields) in E. rewrite !hctem_fields_new in E. by injection E. Qed.
