(* ===== verification/Subst.v ===== *)
(** * Substitutions and unification: [cuex/subst.h], [cuex/subst.c]

    A substitution is a map from variables to their equivalence classes ([cuex_veqv]),
    which the variables of a class share, possibly on top of a substitution that it
    shadows.  Classes and substitutions are mutable objects in a heap; functions run
    in a monad [M] of heaps with errors: a failed assertion, an access through [NULL] or
    to no object, and running out of fuel. *)

From S2P Require Export Expr.

Record cuex_veqv := mk_veqv { qcode : Z; var_link : list ex; value : option ex }.

Record cuex_subst := mk_subst {
  clone_cnt : Z;
  shadow_access_cnt : Z;
  shadowed : Z;
  var_to_veqv : gmap ex Z;
  qcset : Z;
  is_idem : bool;
}.

(** Addresses from [brk] are free. *)
Record store := mk_store {
  veqvs : gmap Z cuex_veqv;
  substs : gmap Z cuex_subst;
  brk : Z;
}.

Definition NULL : Z := 0.

Definition M (A : Type) : Type := store -> option (A * store).

Definition ret {A} (a : A) : M A := fun h => Some (a, h).
Definition bind {A B} (m : M A) (k : A -> M B) : M B := fun h =>
  match m h with Some (a, h) => k a h | None => None end.

Declare Scope subst_scope.
Delimit Scope subst_scope with subst.
Notation "x ← y ; z" := (bind y (fun x => z)) : subst_scope.
#[local] Open Scope subst_scope.

Definition err {A} : M A := fun _ => None.
Definition cassert (b : bool) : M unit := if b then ret tt else err.
Definition get : M store := fun h => Some (h, h).

Definition get_veqv (l : Z) : M cuex_veqv := fun h =>
  match veqvs h !! l with Some q => Some (q, h) | None => None end.
Definition set_veqv (l : Z) (q : cuex_veqv) : M unit := fun h =>
  Some (tt, mk_store (<[l := q]> (veqvs h)) (substs h) (brk h)).
Definition new_veqv (q : cuex_veqv) : M Z := fun h =>
  Some (brk h, mk_store (<[brk h := q]> (veqvs h)) (substs h) (brk h + 1)).

Definition get_subst (p : Z) : M cuex_subst := fun h =>
  match substs h !! p with Some s => Some (s, h) | None => None end.
Definition put_subst (p : Z) (s : cuex_subst) : M unit := fun h =>
  Some (tt, mk_store (veqvs h) (<[p := s]> (substs h)) (brk h)).
Definition new_subst (s : cuex_subst) : M Z := fun h =>
  Some (brk h, mk_store (veqvs h) (<[brk h := s]> (substs h)) (brk h + 1)).

(** [cuex_var_new]: a new address. *)
Definition cuex_var_new (qcode : Z) : M ex := fun h =>
  Some (Obj (cuex_varmeta_kqi cuex_varkind_svar qcode 0) (brk h),
        mk_store (veqvs h) (substs h) (brk h + 1)).

Definition set_value (l : Z) (v : option ex) : M unit :=
  q ← get_veqv l; set_veqv l (mk_veqv (qcode q) (var_link q) v).

Definition with_map (m : gmap ex Z) (s : cuex_subst) : cuex_subst :=
  mk_subst (clone_cnt s) (shadow_access_cnt s) (shadowed s) m (qcset s) (is_idem s).

(** The operands that a loop up to the arity of the operator reads. *)
Definition read_operands (e : ex) : M (list ex) :=
  let r := Z.to_nat (cuex_opr_r (cuex_meta e)) in
  if (r <=? length (operands e))%nat then ret (take r (operands e)) else err.

(** Loops over operands. *)
Section loops.
Context (f : ex -> M ex) (b : ex -> M bool).

(** ... that return when [b] is true, or is false, *)
Fixpoint disj_operands (l : list ex) : M bool :=
  match l with [] => ret false | x :: l => c ← b x; if c then ret true else disj_operands l end.
Fixpoint conj_operands (l : list ex) : M bool :=
  match l with [] => ret true | x :: l => c ← b x; if c then conj_operands l else ret false end.

(** ... and [CUEX_OPN_TRAN]. *)
Fixpoint map_operands (l : list ex) : M (list ex) :=
  match l with [] => ret [] | x :: l => y ← f x; l ← map_operands l; ret (y :: l) end.
Fixpoint changed_operands (l : list ex) : M (option (list ex)) :=
  match l with
  | [] => ret None
  | x :: l =>
      y ← f x;
      if decide (x = y) then r ← changed_operands l; ret (cons x <$> r)
      else l ← map_operands l; ret (Some (y :: l))
  end.
Definition tran_opn (e : ex) : M ex :=
  l ← read_operands e;
  r ← changed_operands l;
  match r with None => ret e | Some l => ret (Opn (cuex_meta e) l) end.
End loops.

(** Pointer maps are iterated in an order that depends on their hash function. *)
Class PmapOrder := {
  pmap_elems : gmap ex Z -> list (ex * Z);
  pmap_elems_perm m : pmap_elems m ≡ₚ map_to_list m;
}.

Fixpoint iter_list (f : ex -> Z -> M unit) (l : list (ex * Z)) : M unit :=
  match l with [] => ret tt | (v, q) :: l => _ ← f v q; iter_list f l end.
Fixpoint conj_list (f : ex -> Z -> M bool) (l : list (ex * Z)) : M bool :=
  match l with [] => ret true | (v, q) :: l => c ← f v q; if c then conj_list f l else ret false end.

(** ** Classes of variables *)

Definition cuex_veqv_new (var : ex) : M Z :=
  new_veqv (mk_veqv (wrapw 8 (cuex_varmeta_qcode (cuex_meta var))) [var] None).

Definition cuex_veqv_new_copy (src_veqv : Z) : M Z := q ← get_veqv src_veqv; new_veqv q.

Definition veqv_primary_var (q : cuex_veqv) : M ex :=
  match var_link q with [] => err | v :: _ => ret v end.

(** The variables of [l] that are not in [varset], in front of [dst], last to first. *)
Definition prepend_new (varset : gset ex) (l dst : list ex) : list ex :=
  fold_left (fun dst var => if decide (var ∈ varset) then dst else var :: dst) l dst.

Definition cuex_veqv_unify (veqv0 veqv1 : Z) (new_value : option ex) : M Z :=
  q0 ← get_veqv veqv0; q1 ← get_veqv veqv1;
  let qc := if qcode q1 =? cuex_qcode_active_w then qcode q0 else qcode q1 in
  match var_link q0, var_link q1 with
  | _ :: _, head_var :: rest =>
      let varset := list_to_set (var_link q1) in
      _ ← set_veqv veqv1 (mk_veqv qc (head_var :: prepend_new varset (var_link q0) rest) new_value);
      ret veqv1
  | _, _ => err
  end.

(** ** Substitutions *)

Definition subst_init (src_subst qcset : Z) (is_idem : bool) : cuex_subst :=
  mk_subst 1 0 src_subst ∅ (wrapw 8 qcset) is_idem.

Definition cuex_subst_init (subst qcset : Z) : M unit := put_subst subst (subst_init NULL qcset true).
Definition cuex_subst_new (qcset : Z) : M Z := new_subst (subst_init NULL qcset true).
Definition cuex_subst_init_nonidem (subst qcset : Z) : M unit :=
  put_subst subst (subst_init NULL qcset false).
Definition cuex_subst_new_nonidem (qcset : Z) : M Z := new_subst (subst_init NULL qcset false).

(** The loops over the substitutions below one run on a turn for each substitution. *)
Fixpoint skip_empty (fuel : nat) (src_subst : Z) : M Z :=
  match fuel with
  | O => err
  | S fuel =>
      if src_subst =? NULL then ret NULL
      else
        s ← get_subst src_subst;
        if bool_decide (var_to_veqv s = ∅) then skip_empty fuel (shadowed s) else ret src_subst
  end.

Definition frames (h : store) : nat := S (S (size (substs h))).

Definition cuex_subst_new_clone (src_subst qcs : Z) : M Z :=
  h ← get;
  src_subst ← skip_empty (frames h) src_subst;
  if src_subst =? NULL then new_subst (subst_init NULL qcs true)
  else
    s ← get_subst src_subst;
    subst ← new_subst (subst_init src_subst qcs (is_idem s));
    _ ← put_subst src_subst (mk_subst (wadd (clone_cnt s) 1) (shadow_access_cnt s) (shadowed s)
          (var_to_veqv s) (qcset s) (is_idem s));
    _ ← cassert (qcs =? qcset s);
    ret subst.

Definition cuex_subst_delete (subst : Z) : M unit :=
  s ← get_subst subst;
  if shadowed s =? NULL then ret tt
  else
    t ← get_subst (shadowed s);
    put_subst (shadowed s) (mk_subst (wsub (clone_cnt t) 1) (shadow_access_cnt t) (shadowed t)
      (var_to_veqv t) (qcset t) (is_idem t)).

Section subst.
Context `{!PmapOrder} (CUEX_O1_SUBST_BLOCK : Z).
Implicit Types (subst veqv : Z) (var : ex) (e : ex).

(** *** Lookup *)

Definition replace_ptr subst var veqv : M unit :=
  s ← get_subst subst; put_subst subst (with_map (<[var := veqv]> (var_to_veqv s)) s).

Fixpoint replace_vars subst veqv (l : list ex) : M unit :=
  match l with [] => ret tt | v :: l => _ ← replace_ptr subst v veqv; replace_vars subst veqv l end.

(** The callbacks of [cuexP_subst_merge]. *)
Definition subst_merge_cb_move (dst : Z) var veqv : M unit := replace_ptr dst var veqv.

Definition subst_merge_cb_copy (dst : Z) var veqv : M unit :=
  q ← get_veqv veqv;
  v ← veqv_primary_var q;
  if decide (var = v) then
    s ← get_subst dst;
    match var_to_veqv s !! var with
    | Some _ => ret tt
    | None =>
        copy ← cuex_veqv_new_copy veqv;
        _ ← replace_ptr dst var copy;
        replace_vars dst copy (tail (var_link q))
    end
  else ret tt.

Definition subst_merge (dst : Z) : M unit :=
  d ← get_subst dst;
  let src := shadowed d in
  s ← get_subst src;
  _ ← (if clone_cnt s =? 1 then
         let swap := (size (var_to_veqv d) <? size (var_to_veqv s))%nat in
         let md := if swap then var_to_veqv s else var_to_veqv d in
         let ms := if swap then var_to_veqv d else var_to_veqv s in
         _ ← put_subst dst (with_map md d);
         _ ← put_subst src (with_map ms s);
         iter_list (subst_merge_cb_move dst) (pmap_elems ms)
       else iter_list (subst_merge_cb_copy dst) (pmap_elems (var_to_veqv s)));
  d ← get_subst dst;
  s ← get_subst src;
  put_subst dst (mk_subst (clone_cnt d) (shadow_access_cnt d) (shadowed s) (var_to_veqv d)
    (qcset d) (is_idem d)).

Fixpoint merge_all (fuel : nat) subst : M unit :=
  match fuel with
  | O => err
  | S fuel =>
      s ← get_subst subst;
      if shadowed s =? NULL then ret tt else _ ← subst_merge subst; merge_all fuel subst
  end.

Definition cuex_subst_flatten subst : M unit :=
  if subst =? NULL then ret tt else h ← get; merge_all (frames h) subst.

Definition cuex_subst_new_copy (src_subst : Z) : M Z :=
  if src_subst =? NULL then ret NULL
  else
    s ← get_subst src_subst;
    subst ← cuex_subst_new_clone src_subst (qcset s);
    h ← get;
    _ ← merge_all (frames h) subst;
    ret subst.

Fixpoint subst_size (fuel : nat) (sum : Z) subst : M Z :=
  match fuel with
  | O => err
  | S fuel =>
      if subst =? NULL then ret sum
      else s ← get_subst subst;
        subst_size fuel (wadd sum (Z.of_nat (size (var_to_veqv s)))) (shadowed s)
  end.
Definition cuex_subst_size subst : M Z := h ← get; subst_size (frames h) 0 subst.

Fixpoint cref_loop (fuel : nat) subst var : M Z :=
  match fuel with
  | O => err
  | S fuel =>
      s ← get_subst subst;
      match var_to_veqv s !! var with
      | Some veqv => ret veqv
      | None =>
          let subst_sh := shadowed s in
          if subst_sh =? NULL then ret NULL
          else
            t ← get_subst subst_sh;
            let cnt := wadd (shadow_access_cnt s) 1 in
            _ ← put_subst subst (mk_subst (clone_cnt s) cnt (shadowed s) (var_to_veqv s)
                  (qcset s) (is_idem s));
            if wrap (4 * Z.of_nat (size (var_to_veqv t))) <? cnt then
              _ ← subst_merge subst; cref_loop fuel subst var
            else cref_loop fuel subst_sh var
      end
  end.

Definition cuex_subst_cref subst var : M Z :=
  if subst =? NULL then ret NULL else h ← get; cref_loop (frames h) subst var.

Definition cuex_subst_mref subst var : M Z :=
  s ← get_subst subst;
  match var_to_veqv s !! var with
  | Some veqv => ret veqv
  | None =>
      veqv_src ← (if shadowed s =? NULL then ret NULL else cuex_subst_cref (shadowed s) var);
      if veqv_src =? NULL then
        slot ← cuex_veqv_new var;
        _ ← replace_ptr subst var slot;
        ret slot
      else
        slot ← cuex_veqv_new_copy veqv_src;
        _ ← replace_ptr subst var slot;
        q ← get_veqv veqv_src;
        _ ← veqv_primary_var q;
        _ ← replace_vars subst slot (filter (fun v => v <> var) (var_link q));
        ret slot
  end.

Definition subst_is_identity_cb var veqv : M bool :=
  q ← get_veqv veqv;
  _ ← veqv_primary_var q;
  ret (match value q, var_link q with None, [_] => true | _, _ => false end).

(** [while (subst)] on [fuel] turns; the body does not change [subst]. *)
Fixpoint cuex_subst_is_identity (fuel : nat) subst : M bool :=
  match fuel with
  | O => err
  | S fuel =>
      if subst =? NULL then ret true
      else
        s ← get_subst subst;
        c ← conj_list subst_is_identity_cb (pmap_elems (var_to_veqv s));
        if c then cuex_subst_is_identity fuel subst else ret false
  end.

(** *** Unification *)

Fixpoint cuex_subst_ex_contains_veqv (fuel : nat) subst e veqv : M bool :=
  match fuel with
  | O => err
  | S fuel =>
      let meta := cuex_meta e in
      if cuex_meta_is_opr meta then
        l ← read_operands e;
        disj_operands (fun x => cuex_subst_ex_contains_veqv fuel subst x veqv) l
      else if cuex_is_varmeta meta then
        subveqv ← cuex_subst_cref subst e;
        if subveqv =? veqv then ret true
        else if subveqv =? NULL then ret false
        else
          q ← get_veqv subveqv;
          match value q with
          | Some v => cuex_subst_ex_contains_veqv fuel subst v veqv
          | None => ret false
          end
      else ret false
  end.

Definition occur_check_and_set_var (fuel : nat) subst veqv e : M bool :=
  s ← get_subst subst;
  c ← (if is_idem s then cuex_subst_ex_contains_veqv fuel subst e veqv else ret false);
  if c then ret false else _ ← set_value veqv (Some e); ret true.

(** Unifying operands from left to right, up to a first failure ([None], for [NULL]). *)
Section unify_operands.
Context (u : ex -> ex -> M (option ex)).
Fixpoint unify_operands (l0 l1 : list ex) : M (option (list ex)) :=
  match l0, l1 with
  | [], [] => ret (Some [])
  | x :: l0, y :: l1 =>
      r ← u x y;
      match r with
      | None => ret None
      | Some z => rs ← unify_operands l0 l1; ret (cons z <$> rs)
      end
  | _, _ => err
  end.
End unify_operands.

Definition active (s : cuex_subst) (meta : Z) : bool :=
  cuex_is_varmeta meta && cuex_qcset_contains (qcset s) (cuex_varmeta_qcode meta).

(** The occur checks on two classes with the values [val0] and [val1]. *)
Definition contains_crosswise (fuel : nat) subst (vq0 vq1 : Z) (val0 val1 : option ex) : M bool :=
  c0 ← match val0 with Some v => cuex_subst_ex_contains_veqv fuel subst v vq1 | None => ret false end;
  if (c0 : bool) then ret true
  else match val1 with Some v => cuex_subst_ex_contains_veqv fuel subst v vq0 | None => ret false end.

(** Every variable of [l] refers to the class [vq2]. *)
Fixpoint update_vars subst (vq2 : Z) (l : list ex) : M unit :=
  match l with
  | [] => ret tt
  | var :: l =>
      vq ← cuex_subst_cref subst var;
      _ ← (if vq =? vq2 then ret tt else replace_ptr subst var vq2);
      update_vars subst vq2 l
  end.

Section unify.
Context (aux_unify : option (Z -> ex -> ex -> M (option ex))).

Fixpoint cuex_subst_unify_aux (fuel : nat) subst (ex0 ex1 : ex) : M (option ex) :=
  match fuel with
  | O => err
  | S fuel =>
      let unify := cuex_subst_unify_aux fuel subst in
      s ← get_subst subst;
      _ ← cassert (clone_cnt s =? 1);
      let meta0 := cuex_meta ex0 in
      let meta1 := cuex_meta ex1 in
      if decide (ex0 = ex1) then ret (Some ex0)
      else if active s meta0 then
        vq0 ← cuex_subst_mref subst ex0;
        if active s meta1 then
          vq1 ← cuex_subst_mref subst ex1;
          if vq0 =? vq1 then ret (Some ex0)
          else
            q0 ← get_veqv vq0; q1 ← get_veqv vq1;
            c ← (if is_idem s then contains_crosswise fuel subst vq0 vq1 (value q0) (value q1)
                 else ret false);
            if (c : bool) then ret None
            else
              val ← match value q0, value q1 with
                      | Some v0, Some v1 =>
                          r ← unify v0 v1; ret (match r with None => None | Some v => Some (Some v) end)
                      | Some v0, None => ret (Some (Some v0))
                      | None, v1 => ret (Some v1)
                      end;
              match val with
              | None => ret None
              | Some value =>
                  vq2 ← cuex_veqv_unify vq0 vq1 value;
                  q2 ← get_veqv vq2;
                  _ ← update_vars subst vq2 (var_link q2);
                  ret (Some (default ex0 value))
              end
        else
          q0 ← get_veqv vq0;
          match value q0 with
          | Some v0 =>
              r ← unify v0 ex1;
              match r with
              | None => ret None
              | Some v => _ ← set_value vq0 (Some v); ret (Some v)
              end
          | None =>
              ok ← occur_check_and_set_var fuel subst vq0 ex1;
              ret (if (ok : bool) then Some ex0 else None)
          end
      else if active s meta1 then
        vq1 ← cuex_subst_mref subst ex1;
        q1 ← get_veqv vq1;
        match value q1 with
        | Some v1 =>
            r ← unify ex0 v1;
            match r with
            | None => ret None
            | Some v => _ ← set_value vq1 (Some v); ret (Some v)
            end
        | None =>
            ok ← occur_check_and_set_var fuel subst vq1 ex0;
            ret (if (ok : bool) then Some ex1 else None)
        end
      else
        r ← (if (meta0 =? meta1) && cuex_meta_is_opr meta0 then
               l0 ← read_operands ex0; l1 ← read_operands ex1;
               rs ← unify_operands unify l0 l1;
               ret (Opn meta0 <$> rs)
             else ret None);
        match r, aux_unify with
        | Some _, _ | None, None => ret r
        | None, Some f => f subst ex0 ex1
        end
  end.
End unify.

Definition cuex_subst_unify (fuel : nat) subst (ex0 ex1 : ex) : M bool :=
  r ← cuex_subst_unify_aux None fuel subst ex0 ex1; ret (bool_decide (is_Some r)).

(** *** Blocks *)

Definition is_block (v : option ex) : bool :=
  match v with Some v => cuex_meta v =? CUEX_O1_SUBST_BLOCK | None => false end.

Definition cuex_subst_block subst var : M unit :=
  vq ← cuex_subst_mref subst var;
  q ← get_veqv vq;
  match value q with
  | Some v => cassert (cuex_meta v =? CUEX_O1_SUBST_BLOCK)
  | None => w ← cuex_var_new cuex_qcode_n; set_value vq (Some (Opn CUEX_O1_SUBST_BLOCK [w]))
  end.

Definition cuex_subst_unblock subst var : M unit :=
  vq ← cuex_subst_mref subst var;
  q ← get_veqv vq;
  _ ← cassert (is_block (value q));
  set_value vq None.

(** The callbacks of [cuex_subst_unblock_all] with the variables visited before. *)
Definition unblock_all_cb0 veqv : M unit :=
  q ← get_veqv veqv; if is_block (value q) then set_value veqv None else ret tt.
Definition unblock_all_cb1 subst var veqv : M unit :=
  q ← get_veqv veqv;
  if is_block (value q) then l ← cuex_subst_mref subst var; set_value l None else ret tt.

Fixpoint visit (f : ex -> Z -> M unit) (visited : gset ex) (l : list (ex * Z)) : M (gset ex) :=
  match l with
  | [] => ret visited
  | (var, veqv) :: l =>
      if decide (var ∈ visited) then visit f visited l
      else _ ← f var veqv; visit f ({[var]} ∪ visited) l
  end.

Fixpoint unblock_shadowed (fuel : nat) (visited : gset ex) subst : M unit :=
  match fuel with
  | O => err
  | S fuel =>
      if subst =? NULL then ret tt
      else
        s ← get_subst subst;
        visited ← visit (unblock_all_cb1 subst) visited (pmap_elems (var_to_veqv s));
        unblock_shadowed fuel visited (shadowed s)
  end.

Definition cuex_subst_unblock_all subst : M unit :=
  if subst =? NULL then ret tt
  else
    s ← get_subst subst;
    visited ← visit (fun _ veqv => unblock_all_cb0 veqv) ∅ (pmap_elems (var_to_veqv s));
    h ← get;
    unblock_shadowed (frames h) visited (shadowed s).

(** *** Lookup and application *)

(** The primary variable of a class with more than one. *)
Definition primary_if_many (q : cuex_veqv) : M (option ex) :=
  match var_link q with [] => err | [_] => ret None | v :: _ => ret (Some v) end.

Definition cuex_subst_lookup subst var : M (option ex) :=
  vq ← cuex_subst_cref subst var;
  if vq =? NULL then ret None
  else
    q ← get_veqv vq;
    match value q with
    | Some v => if cuex_meta v =? CUEX_O1_SUBST_BLOCK then primary_if_many q else ret (Some v)
    | None => primary_if_many q
    end.

Fixpoint subst_apply (fuel : nat) subst e : M ex :=
  match fuel with
  | O => err
  | S fuel =>
      let meta := cuex_meta e in
      if cuex_is_varmeta meta then
        vq ← cuex_subst_cref subst e;
        if vq =? NULL then ret e
        else
          q ← get_veqv vq;
          match value q with
          | Some v => if cuex_meta v =? CUEX_O1_SUBST_BLOCK then ret e else subst_apply fuel subst v
          | None => veqv_primary_var q
          end
      else if cuex_meta_is_opr meta then tran_opn (subst_apply fuel subst) e
      else ret e
  end.

Definition cuex_subst_apply (fuel : nat) subst e : M ex :=
  if subst =? NULL then ret e
  else s ← get_subst subst; if is_idem s then subst_apply fuel subst e else err.

Definition subst_expand (fuel : nat) subst e : M ex :=
  let meta := cuex_meta e in
  if cuex_is_varmeta meta then
    vq ← cuex_subst_cref subst e;
    if vq =? NULL then ret e
    else
      q ← get_veqv vq;
      match value q with
      | Some v => if cuex_meta v =? CUEX_O1_SUBST_BLOCK then ret e else ret v
      | None => veqv_primary_var q
      end
  else if cuex_meta_is_opr meta then tran_opn (subst_apply fuel subst) e
  else ret e.

Definition cuex_subst_expand (fuel : nat) subst e : M ex :=
  if subst =? NULL then ret e else subst_expand fuel subst e.

(** *** Variables *)

(** The last operands first, the first one last. *)
Definition rest_then_first (l : list ex) : list ex :=
  match l with [] => [] | x :: l => l ++ [x] end.

Fixpoint collect_veqvset (fuel : nat) subst e (veqvset : gset Z) : M (gset Z) :=
  match fuel with
  | O => err
  | S fuel =>
      let meta := cuex_meta e in
      if cuex_meta_is_opr meta then
        l ← read_operands e;
        foldr (fun x k set => set ← collect_veqvset fuel subst x set; k set) ret
          (rest_then_first l) veqvset
      else
        s ← get_subst subst;
        if active s meta then vq ← cuex_subst_mref subst e; ret ({[vq]} ∪ veqvset)
        else ret veqvset
  end.

Fixpoint cuex_subst_free_vars_conj (fuel : nat) subst e (cb : ex -> M bool) : M bool :=
  match fuel with
  | O => err
  | S fuel =>
      let meta := cuex_meta e in
      if cuex_meta_is_opr meta then
        l ← read_operands e;
        conj_operands (fun x => cuex_subst_free_vars_conj fuel subst x cb) (rest_then_first l)
      else
        s ← get_subst subst;
        if active s meta then
          veqv ← cuex_subst_cref subst e;
          if veqv =? NULL then cb e
          else
            q ← get_veqv veqv;
            match value q with
            | Some v =>
                if cuex_meta v =? CUEX_O1_SUBST_BLOCK then rv ← veqv_primary_var q; cb rv
                else cuex_subst_free_vars_conj fuel subst v cb
            | None => rv ← veqv_primary_var q; cb rv
            end
        else ret true
  end.

(** *** Iteration over classes *)

Definition subst_iter_cb (cb : Z -> M unit) var veqv : M unit :=
  q ← get_veqv veqv;
  v ← veqv_primary_var q;
  if decide (var = v) then
    match value q, var_link q with None, [_] => ret tt | _, _ => cb veqv end
  else ret tt.

Fixpoint iter_veqv (fuel : nat) (cb : Z -> M unit) (visited : gset ex) subst : M unit :=
  match fuel with
  | O => err
  | S fuel =>
      if subst =? NULL then ret tt
      else
        s ← get_subst subst;
        visited ← visit (subst_iter_cb cb) visited (pmap_elems (var_to_veqv s));
        iter_veqv fuel cb visited (shadowed s)
  end.

Definition cuex_subst_iter_veqv subst (cb : Z -> M unit) : M unit :=
  h ← get; iter_veqv (frames h) cb ∅ subst.

(** *** Fresh variables *)

Fixpoint cuex_depth_conj_vars (fuel : nat) e (cb : ex -> M bool) : M bool :=
  match fuel with
  | O => err
  | S fuel =>
      let meta := cuex_meta e in
      if cuex_meta_is_opr meta then
        l ← read_operands e; conj_operands (fun x => cuex_depth_conj_vars fuel x cb) l
      else if cuex_is_varmeta meta then cb e
      else ret true
  end.

Definition subst_freshen_var_cb (fuel : nat) subst var : M bool :=
  s ← get_subst subst;
  if active s (cuex_meta var) then
    v ← cuex_subst_lookup subst var;
    match v with
    | Some _ => ret true
    | None =>
        new_var ← cuex_var_new (cuex_var_qcode var);
        _ ← cuex_subst_block subst new_var;
        ok ← cuex_subst_unify fuel subst var new_var;
        _ ← cassert ok;
        ret true
    end
  else ret true.

Definition cuex_subst_freshen_and_block_vars_in (fuel : nat) subst e : M unit :=
  _ ← cuex_depth_conj_vars fuel e (subst_freshen_var_cb fuel subst); ret tt.

(** [cuex/algo.c]: whether [ex0] is an instance of [ex1], whose variables alone may be bound. *)
Definition lgr_block_cb subst var : M bool :=
  s ← get_subst subst;
  if active s (cuex_meta var) then
    v ← cuex_subst_lookup subst var;
    match v with Some _ => ret true | None => _ ← cuex_subst_block subst var; ret true end
  else ret true.

Definition cuex_lgr (fuel : nat) (ex0 ex1 : ex) subst : M bool :=
  _ ← cuex_depth_conj_vars fuel ex0 (lgr_block_cb subst);
  cuex_subst_unify fuel subst ex1 ex0.

End subst.
