(* ===== verification/SubstInv.v ===== *)
(** * Substitutions: terms, solutions, weights and the invariant

    The classes of variables and their values are equations; an assignment of terms to
    variables that satisfies them is a solution.  A substitution without cycles has
    weights: numbers for its variables, above the size of their values; they bound every
    traversal and give a solution.  The definitions are relative to a set of variables closed
    under the classes and values, because unification depends on the variables that it
    reaches and changes no others. *)

From S2P Require Export Subst.

Section terms.
Context (s0 : cuex_subst).
Implicit Types (e t u v : ex) (V : gmap Z cuex_veqv) (m : gmap ex Z) (th : ex -> ex)
  (w : ex -> nat) (Q : ex -> Prop) (l : Z).

(** *** Terms *)

(** The variables that the substitution may bind. *)
Definition act e : bool := active s0 (cuex_meta e).

Fixpoint inst th e : ex :=
  match e with
  | Obj meta a => if active s0 meta then th (Obj meta a) else Obj meta a
  | Opn opr args => Opn opr (map (inst th) args)
  end.

Fixpoint avars e : gset ex :=
  match e with
  | Obj meta a => if active s0 meta then {[Obj meta a]} else ∅
  | Opn opr args => ⋃ (map avars args)
  end.

Fixpoint wsize w e : nat :=
  match e with
  | Obj meta a => if active s0 meta then w (Obj meta a) else 0
  | Opn opr args => S (sum_list (map (wsize w) args))
  end.

(** The number of nodes of a term. *)
Definition tsize e : nat := wsize (fun _ => 0)%nat e.

Lemma act_not_opr e : act e = true -> cuex_meta_is_opr (cuex_meta e) = false.
Proof.
  unfold act, active. intros [E _]%andb_true_iff. by apply varmeta_not_opr.
Qed.

Lemma act_obj e : wf_ex e -> act e = true -> exists meta a, e = Obj meta a.
Proof.
  intros [meta a _|opr args E _ _] Ha; [eauto|]. apply act_not_opr in Ha. cbn in Ha. congruence.
Qed.

Lemma inst_act th e : wf_ex e -> act e = true -> inst th e = th e.
Proof. intros Hw Ha. destruct (act_obj e Hw Ha) as (meta & a & ->). unfold act in Ha. cbn in *. by rewrite Ha. Qed.
Lemma avars_act e : wf_ex e -> act e = true -> avars e = {[e]}.
Proof. intros Hw Ha. destruct (act_obj e Hw Ha) as (meta & a & ->). unfold act in Ha. cbn in *. by rewrite Ha. Qed.
Lemma wsize_act w e : wf_ex e -> act e = true -> wsize w e = w e.
Proof. intros Hw Ha. destruct (act_obj e Hw Ha) as (meta & a & ->). unfold act in Ha. cbn in *. by rewrite Ha. Qed.

Lemma avars_act_in e v : v ∈ avars e -> act v = true /\ exists meta a, v = Obj meta a.
Proof.
  induction e as [meta a|opr args IH] using ex_induction; cbn.
  - unfold act. destruct (active s0 meta) eqn:E; [|set_solver].
    intros ->%elem_of_singleton. eauto.
  - intros (X & HX & Hv)%elem_of_union_list.
    apply list_elem_of_fmap in HX as (x & -> & Hx). rewrite list.Forall_forall in IH. eauto.
Qed.

Lemma elem_of_avars_opn opr args v : v ∈ avars (Opn opr args) <-> exists x, x ∈ args /\ v ∈ avars x.
Proof.
  cbn. rewrite elem_of_union_list. split.
  - intros (X & HX & Hv). apply list_elem_of_fmap in HX as (x & -> & Hx). eauto.
  - intros (x & Hx & Hv). exists (avars x). split; [|done]. apply list_elem_of_fmap. eauto.
Qed.

Lemma sum_list_elem (f : ex -> nat) x xs : x ∈ xs -> (f x <= sum_list (map f xs))%nat.
Proof. induction 1; cbn; lia. Qed.

Lemma wsize_arg w opr args x : x ∈ args -> (wsize w x < wsize w (Opn opr args))%nat.
Proof. intros Hx. cbn. pose proof (sum_list_elem (wsize w) x args Hx). lia. Qed.

Lemma wsize_le w w' k e : (forall v, v ∈ avars e -> w' v <= k * w v)%nat -> (1 <= k)%nat ->
  (wsize w' e <= k * wsize w e)%nat.
Proof.
  intros Hv Hk. induction e as [meta a|opr args IH] using ex_induction.
  - cbn in *. destruct (active s0 meta); [apply Hv; set_solver|lia].
  - cbn. assert (sum_list (map (wsize w') args) <= k * sum_list (map (wsize w) args))%nat; [|nia].
    assert (forall x, x ∈ args -> wsize w' x <= k * wsize w x)%nat as Hx.
    { intros x Hx. rewrite list.Forall_forall in IH. apply IH; [done|]. intros v Hin. apply Hv.
      apply elem_of_avars_opn. eauto. }
    clear -Hx Hk. induction args as [|x args IHa]; cbn; [lia|].
    pose proof (Hx x ltac:(left)). assert (forall y, y ∈ args -> wsize w' y <= k * wsize w y)%nat.
    { intros; apply Hx; by right. } specialize (IHa ltac:(done)). lia.
Qed.

Lemma wsize_ext w w' e : (forall v, v ∈ avars e -> w' v = w v) -> wsize w' e = wsize w e.
Proof.
  intros Hv. apply Nat.le_antisymm.
  - rewrite <- (Nat.mul_1_l (wsize w e)). apply wsize_le; [|lia]. intros v Hin. rewrite Hv by done. lia.
  - rewrite <- (Nat.mul_1_l (wsize w' e)). apply wsize_le; [|lia]. intros v Hin. rewrite Hv by done. lia.
Qed.

Lemma inst_ext th th' e : (forall v, v ∈ avars e -> th v = th' v) -> inst th e = inst th' e.
Proof.
  intros Hv. induction e as [meta a|opr args IH] using ex_induction; cbn in *.
  - destruct (active s0 meta); [apply Hv; set_solver|done].
  - f_equal. apply map_ext_in. intros x Hx. apply list_elem_of_In in Hx.
    rewrite list.Forall_forall in IH. apply IH; [done|]. intros v Hin. apply Hv.
    apply elem_of_union_list. exists (avars x). split; [|done]. apply list_elem_of_fmap. eauto.
Qed.

Lemma inst_inst th th' e : inst th (inst th' e) = inst (fun v => inst th (th' v)) e.
Proof.
  induction e as [meta a|opr args IH] using ex_induction; cbn.
  - destruct (active s0 meta) eqn:E; cbn; [done|by rewrite E].
  - f_equal. rewrite map_map. apply map_ext_in. intros x Hx. apply list_elem_of_In in Hx.
    rewrite list.Forall_forall in IH. by apply IH.
Qed.

(** A variable in a term is no larger, and smaller unless it is the term. *)
Lemma tsize_var th e v : v ∈ avars e -> (tsize (th v) <= tsize (inst th e))%nat /\
  (act e = false -> tsize (th v) < tsize (inst th e))%nat.
Proof.
  induction e as [meta a|opr args IH] using ex_induction; intros Hv.
  - cbn in *. unfold act. cbn. destruct (active s0 meta); [|set_solver].
    apply elem_of_singleton in Hv as ->. split; [done|done].
  - apply elem_of_avars_opn in Hv as (x & Hx & Hv). rewrite list.Forall_forall in IH.
    destruct (IH x Hx Hv) as [Hle _].
    assert (tsize (inst th x) < tsize (inst th (Opn opr args)))%nat; [|lia].
    unfold tsize. cbn [inst]. apply wsize_arg. apply list_elem_of_fmap. eauto.
Qed.

(** *** Classes and values *)

Definition val V m v : option ex := l ← m !! v; q ← V !! l; value q.

Definition same m u v : Prop := u = v \/ exists l, m !! u = Some l /\ m !! v = Some l.

#[global] Instance same_dec m u v : Decision (same m u v).
Proof.
  refine (match decide (u = v) with
    | left E => left _
    | right N => match m !! u as a, m !! v as b return m !! u = a -> m !! v = b -> _ with
        | Some a, Some b => fun Ea Eb => match decide (a = b) with left _ => left _ | right _ => right _ end
        | _, _ => fun _ _ => right _ end eq_refl eq_refl end); unfold same; naive_solver.
Defined.

Lemma same_sym m u v : same m u v -> same m v u.
Proof. unfold same. naive_solver. Qed.
Lemma same_trans m u v t : same m u v -> same m v t -> same m u t.
Proof. unfold same. intros [->|(l & ? & ?)] [->|(l' & ? & ?)]; [eauto..|]. right. exists l. split; congruence. Qed.
Lemma same_val V m u v : same m u v -> val V m u = val V m v.
Proof. unfold val. intros [->|(l & -> & ->)]; done. Qed.

(** What an operation needs of the substitution: every variable refers to a class that
    holds it and whose variables refer to it, and values are not variables to bind. *)
Record good V m (b : Z) : Prop := {
  good_key v l : m !! v = Some l -> act v = true /\ wf_ex v;
  good_class v l : m !! v = Some l -> exists q, V !! l = Some q /\ v ∈ var_link q /\
    (forall u, u ∈ var_link q -> m !! u = Some l) /\ l <> NULL;
  good_value v t : val V m v = Some t -> wf_ex t /\ act t = false;
  good_brk l q : V !! l = Some q -> l < b;
  good_brk_pos : 0 < b;
}.

(** *** Solutions *)

Record solves Q V m th : Prop := {
  solves_class u v : Q u -> same m u v -> th u = th v;
  solves_value v t : Q v -> val V m v = Some t -> th v = inst th t;
}.

(** *** Weights *)

Record weights V m w : Prop := {
  weights_pos v : (0 < w v)%nat;
  weights_class u v : same m u v -> w u = w v;
  weights_value v t : val V m v = Some t -> (wsize w t < w v)%nat;
}.

(** *** Closed sets of variables and what is reached from a term *)

Record closed V m Q : Prop := {
  closed_class u v : Q u -> same m u v -> Q v;
  closed_value v t u : Q v -> val V m v = Some t -> u ∈ avars t -> Q u;
}.

Definition covers Q e : Prop := forall v, v ∈ avars e -> Q v.

Lemma avars_single x Q : wf_ex x -> act x = true -> covers Q x -> Q x.
Proof. intros Hwf Ha HQ. apply HQ. rewrite avars_act by done. set_solver. Qed.

Inductive reach V m e : ex -> Prop :=
| reach_here v : v ∈ avars e -> reach V m e v
| reach_class u v : reach V m e u -> same m u v -> reach V m e v
| reach_value v t u : reach V m e v -> val V m v = Some t -> u ∈ avars t -> reach V m e u.

Lemma reach_closed V m e : closed V m (reach V m e).
Proof. split; [apply reach_class|apply reach_value]. Qed.

Lemma reach_covers V m e : covers (reach V m e) e.
Proof. intros v. apply reach_here. Qed.

Lemma reach_least V m Q e v : closed V m Q -> covers Q e -> reach V m e v -> Q v.
Proof.
  intros HQ He. induction 1 as [v Hv|u v _ IH Hs|v t u _ IH Hv Hu].
  - by apply He.
  - by apply (closed_class _ _ _ HQ u).
  - by apply (closed_value _ _ _ HQ v t).
Qed.

Lemma closed_or V m Q Q' : closed V m Q -> closed V m Q' -> closed V m (fun v => Q v \/ Q' v).
Proof.
  intros [H1 H2] [H1' H2']. split.
  - intros u v [Hu|Hu] Hs; [left; eauto|right; eauto].
  - intros v t u [Hv|Hv] Ht Hu; [left; eauto|right; eauto].
Qed.

Lemma closed_true V m : closed V m (fun _ => True).
Proof. by split. Qed.

Lemma reach_same V m e u v : same m u v -> reach V m e u <-> reach V m e v.
Proof. intros Hs. split; intros Hr; eapply reach_class; eauto using same_sym. Qed.

Lemma reach_mono V m e e' v : covers (reach V m e') e -> reach V m e v -> reach V m e' v.
Proof. intros Hc. apply reach_least; [apply reach_closed|done]. Qed.

Lemma reach_opn V m opr args v : reach V m (Opn opr args) v <-> exists x, x ∈ args /\ reach V m x v.
Proof.
  split.
  - induction 1 as [v Hv|u v _ (x & Hx & IH) Hs|v t u _ (x & Hx & IH) Hv Hu].
    + apply elem_of_avars_opn in Hv as (x & Hx & Hv). exists x. split; [done|]. by apply reach_here.
    + exists x. split; [done|]. by apply (reach_class V m x u).
    + exists x. split; [done|]. by apply (reach_value V m x v t).
  - intros (x & Hx & Hr). revert Hr. apply reach_mono. intros u Hu. apply reach_here.
    apply elem_of_avars_opn. eauto.
Qed.

Lemma reach_var V m v u : wf_ex v -> act v = true -> reach V m v u <->
  same m v u \/ exists t, val V m v = Some t /\ reach V m t u.
Proof.
  intros Hw Ha. split.
  - induction 1 as [u Hu|u u' _ IH Hs|u t u' _ IH Ht Hu'].
    + rewrite avars_act in Hu by done. apply elem_of_singleton in Hu as ->. left. by left.
    + destruct IH as [IH|(t & Ht & IH)]; [left; by eapply same_trans|].
      right. exists t. split; [done|]. by eapply reach_class.
    + right. destruct IH as [IH|(t' & Ht' & IH)].
      * exists t. rewrite (same_val _ _ v u) by done. split; [done|]. by apply reach_here.
      * exists t'. split; [done|]. by apply (reach_value V m t' u t).
  - assert (reach V m v v) as Hv by (apply reach_here; rewrite avars_act by done; set_solver).
    intros [Hs|(t & Ht & Hr)]; [by apply (reach_class V m v v)|].
    revert Hr. apply reach_mono. intros x Hx. by apply (reach_value V m v v t).
Qed.

Lemma reach_none V m meta a u : active s0 meta = false -> ~ reach V m (Obj meta a) u.
Proof.
  intros Ha. induction 1 as [u Hu|u u' _ IH Hs|u t u' _ IH Ht Hu']; [|done..].
  cbn in Hu. rewrite Ha in Hu. set_solver.
Qed.

(** In a solution what is reached is no larger, and smaller than a term that is not
    a variable. *)
Lemma reach_tsize Q V m th e v : closed V m Q -> covers Q e -> solves Q V m th ->
  (forall v t, val V m v = Some t -> act t = false) -> reach V m e v ->
  (tsize (th v) <= tsize (inst th e))%nat /\ (act e = false -> tsize (th v) < tsize (inst th e))%nat.
Proof.
  intros HQ Hc Hs Hna Hr.
  induction Hr as [v Hv|u v Hu IH Huv|v t u Hv IH Ht Hu].
  - by apply tsize_var.
  - rewrite <- (solves_class _ _ _ _ Hs u v); [done| |done]. by eapply reach_least.
  - destruct (tsize_var th t u Hu) as [_ Hlt]. specialize (Hlt (Hna v t Ht)).
    rewrite <- (solves_value _ _ _ _ Hs v t) in Hlt; [lia| |done]. by eapply reach_least.
Qed.

(** Weights exclude cycles. *)
Lemma reach_weight V m w e v : weights V m w -> reach V m e v -> (w v <= wsize w e)%nat.
Proof.
  intros Hw Hr. assert (forall e v, v ∈ avars e -> w v <= wsize w e)%nat as Hin.
  { clear. intros e v. induction e as [meta a|opr args IH] using ex_induction; intros Hv.
    - cbn in *. destruct (active s0 meta); [|set_solver]. by apply elem_of_singleton in Hv as ->.
    - apply elem_of_avars_opn in Hv as (x & Hx & Hv). rewrite list.Forall_forall in IH.
      pose proof (IH x Hx Hv). pose proof (wsize_arg w opr args x Hx). lia. }
  induction Hr as [v Hv|u v _ IH Hs|v t u _ IH Ht Hu]; [by apply Hin| |].
  - by rewrite <- (weights_class _ _ _ Hw u v).
  - pose proof (weights_value _ _ _ Hw v t Ht). pose proof (Hin t u Hu). lia.
Qed.

Lemma value_not_reached V m w v t : weights V m w -> val V m v = Some t -> ~ reach V m t v.
Proof.
  intros Hw Ht Hr. pose proof (reach_weight V m w t v Hw Hr).
  pose proof (weights_value _ _ _ Hw v t Ht). lia.
Qed.

(** *** The solution that the weights give *)

Section resolve.
Context (V : gmap Z cuex_veqv) (m : gmap ex Z).

(** The primary variable of the class of [v]. *)
Definition primary v : ex :=
  match m !! v with
  | Some l => match V !! l with Some q => default v (head (var_link q)) | None => v end
  | None => v
  end.

Fixpoint resolve (n : nat) v : ex :=
  match n with
  | O => v
  | S n => match val V m v with Some t => inst (resolve n) t | None => primary v end
  end.

Lemma resolve_enough w n v : weights V m w -> (w v <= n)%nat -> resolve n v = resolve (w v) v.
Proof.
  intros Hw. revert v. induction n as [n IH] using lt_wf_ind. intros v Hn.
  pose proof (weights_pos _ _ _ Hw v). destruct n as [|n]; [lia|].
  destruct (w v) as [|k] eqn:E; [lia|]. cbn. destruct (val V m v) as [t|] eqn:Ht; [|done].
  pose proof (weights_value _ _ _ Hw v t Ht). apply inst_ext. intros u Hu.
  pose proof (reach_weight V m w t u Hw ltac:(by apply reach_here)).
  rewrite (IH n), (IH k) by lia. done.
Qed.

Lemma resolve_solves b w : good V m b -> weights V m w -> solves (fun _ => True) V m (fun v => resolve (w v) v).
Proof.
  intros Hg Hw. split.
  - intros u v _ Hs. rewrite (weights_class _ _ _ Hw u v Hs). pose proof (weights_pos _ _ _ Hw v).
    destruct (w v) as [|k]; [lia|]. cbn. rewrite (same_val _ _ u v Hs).
    destruct (val V m v); [done|]. destruct Hs as [->|(l & Hu & Hv)]; [done|].
    unfold primary. rewrite Hu, Hv. destruct (good_class _ _ _ Hg u l Hu) as (q & -> & Hin & _).
    by destruct (var_link q); [set_solver|].
  - intros v t _ Ht. pose proof (weights_pos _ _ _ Hw v).
    pose proof (weights_value _ _ _ Hw v t Ht). destruct (w v) as [|k] eqn:E; [lia|]. cbn.
    rewrite Ht. apply inst_ext. intros u Hu.
    pose proof (reach_weight V m w t u Hw ltac:(by apply reach_here)).
    apply resolve_enough; [done|lia].
Qed.

(** Every other solution is an instance of it. *)
Lemma resolve_general th n v b : good V m b -> solves (fun _ => True) V m th -> act v = true -> wf_ex v ->
  inst th (resolve n v) = th v.
Proof.
  intros Hg Hs. revert v. induction n as [|n IH]; intros v Ha Hv; cbn; [by apply inst_act|].
  destruct (val V m v) as [t|] eqn:Ht.
  - rewrite inst_inst, (solves_value _ _ _ _ Hs v t I Ht). apply inst_ext. intros u Hu.
    destruct (avars_act_in t u Hu) as [Hau (meta & a & ->)]. apply IH; [done|].
    constructor. by apply (act_not_opr (Obj meta a)).
  - unfold primary. destruct (m !! v) as [l|] eqn:El; [|by apply inst_act].
    destruct (good_class _ _ _ Hg v l El) as (q & -> & Hin & Hall & _).
    destruct (var_link q) as [|u vs]; [set_solver|]. cbn.
    assert (m !! u = Some l) as Hu by (apply Hall; by left).
    destruct (good_key _ _ _ Hg u l Hu). rewrite inst_act by done.
    apply (solves_class _ _ _ _ Hs); [done|]. right. eauto.
Qed.
End resolve.

End terms.
