(* ===== verification/SubstStep.v ===== *)
(** * Substitutions: the steps of unification

    The store of a substitution that shadows no other; references to classes, the occur
    check, and what binding and merging classes do to solutions, weights and closed sets. *)

From S2P Require Export SubstInv.

(** A computation with enough fuel. *)
Definition ends {A} (f : nat -> M A) (h : store) (a : A) (h' : store) : Prop :=
  exists k, forall n, (k <= n)%nat -> f n h = Some (a, h').

Lemma bind_st {A B} (f : M A) (k : A -> M B) h a h1 : f h = Some (a, h1) -> bind f k h = k a h1.
Proof. intros E. unfold bind. by rewrite E. Qed.

Lemma ends_const {A} (f : M A) h a h' : f h = Some (a, h') -> ends (fun _ => f) h a h'.
Proof. intros E. by exists 0%nat. Qed.

Lemma ends_bind {A B} (f : nat -> M A) (g : nat -> A -> M B) h a h1 r h2 :
  ends f h a h1 -> ends (fun n => g n a) h1 r h2 -> ends (fun n => bind (f n) (g n)) h r h2.
Proof.
  intros [k Hk] [k' Hk']. exists (k `max` k')%nat. intros n Hn. unfold bind.
  rewrite Hk by lia. apply Hk'. lia.
Qed.

Lemma ends_step {A} (f : nat -> M A) (g : nat -> M A) h h1 a h' :
  (forall n, f (S n) h = g n h1) -> ends g h1 a h' -> ends f h a h'.
Proof.
  intros E [k Hk]. exists (S k). intros [|n] Hn; [lia|]. rewrite E. apply Hk. lia.
Qed.

Lemma ends_eq {A} (f g : nat -> M A) h h1 a h' :
  (forall n, f n h = g n h1) -> ends g h1 a h' -> ends f h a h'.
Proof. intros E [k Hk]. exists k. intros n Hn. rewrite E. by apply Hk. Qed.

Lemma ends_disj (c : nat -> ex -> M bool) (P : ex -> Prop) h xs :
  Forall (fun x => exists r, ends (fun n => c n x) h r h /\ (r = true <-> P x)) xs ->
  exists r, ends (fun n => disj_operands (c n) xs) h r h /\ (r = true <-> exists x, x ∈ xs /\ P x).
Proof.
  induction 1 as [|x xs (r & Hr & HP) _ (r' & Hr' & HP')].
  - exists false. split; [by apply ends_const|]. split; [done|]. intros (x & Hx & _). set_solver.
  - destruct r.
    + exists true. split; [|split; [|done]; intros _; exists x; split; [by left|by apply HP]].
      apply (ends_bind _ _ _ true h); [done|]. by apply ends_const.
    + exists r'. split; [by apply (ends_bind _ _ _ false h)|]. rewrite HP'. split.
      * intros (y & Hy & Hp). exists y. split; [by right|done].
      * intros (y & [->|Hy]%elem_of_cons & Hp); [by apply HP in Hp|eauto].
Qed.

Lemma read_operands_opn opr args h : wf_ex (Opn opr args) -> read_operands (Opn opr args) h = Some (args, h).
Proof.
  inversion 1 as [|? ? _ Hr _]; subst. unfold read_operands. cbn [cuex_meta operands].
  rewrite Hr, Nat2Z.id, (proj2 (Nat.leb_le _ _)), take_ge by lia. done.
Qed.

Section step.
Context `{!PmapOrder} (p : Z) (s0 : cuex_subst) (others : gmap Z cuex_subst).
Context (Hp : p <> NULL) (Hclone : clone_cnt s0 = 1) (Hsh : shadowed s0 = NULL)
  (Hidem : is_idem s0 = true).
Implicit Types (e t u v : ex) (V : gmap Z cuex_veqv) (m : gmap ex Z) (th : ex -> ex)
  (w : ex -> nat) (Q : ex -> Prop) (l b : Z).

(** *** The store *)

Definition st V m b : store := mk_store V (<[p := with_map m s0]> others) b.

Lemma get_subst_st V m b : get_subst p (st V m b) = Some (with_map m s0, st V m b).
Proof. unfold get_subst, st. cbn. by rewrite lookup_insert_eq. Qed.

Lemma replace_ptr_st V m b v l : replace_ptr p v l (st V m b) = Some (tt, st V (<[v := l]> m) b).
Proof.
  unfold replace_ptr, bind. rewrite get_subst_st. unfold put_subst, st. cbn.
  by rewrite insert_insert_eq.
Qed.

Lemma get_veqv_st V m b l q : V !! l = Some q -> get_veqv l (st V m b) = Some (q, st V m b).
Proof. unfold get_veqv, st. cbn. by intros ->. Qed.

Lemma cref_st V m b v : cuex_subst_cref p v (st V m b) = Some (default NULL (m !! v), st V m b).
Proof.
  unfold cuex_subst_cref. rewrite (proj2 (Z.eqb_neq _ _) Hp). unfold bind, get, frames.
  cbn [cref_loop]. unfold bind. rewrite get_subst_st. cbn [with_map var_to_veqv shadowed].
  destruct (m !! v); [done|]. by rewrite Hsh.
Qed.

(** A state that only knows more variables. *)
Record knows V m b V' m' b' v : Prop := {
  knows_same u u' : same m' u u' <-> same m u u';
  knows_val u : val V' m' u = val V m u;
  knows_ne u : u <> v -> m' !! u = m !! u;
  knows_old l : l < b -> V' !! l = V !! l;
  knows_some l : m !! v = Some l -> m' !! v = Some l;
}.

Lemma good_lt V m b v l : good s0 V m b -> m !! v = Some l -> l < b.
Proof.
  intros Hg El. destruct (good_class _ _ _ _ Hg v l El) as (q & Hq & _).
  by apply (good_brk _ _ _ _ Hg l q).
Qed.

Lemma mref_st V m b v : good s0 V m b -> act s0 v = true -> wf_ex v ->
  exists V' m' b' l, cuex_subst_mref p v (st V m b) = Some (l, st V' m' b') /\
    knows V m b V' m' b' v /\ m' !! v = Some l /\ good s0 V' m' b'.
Proof.
  intros Hg Ha Hv. unfold cuex_subst_mref, bind. rewrite get_subst_st.
  cbn [with_map var_to_veqv shadowed]. destruct (m !! v) as [l|] eqn:El.
  { exists V, m, b, l. split_and!; [done| |done|done]. by split. }
  rewrite Hsh. cbn -[replace_ptr]. unfold cuex_veqv_new, new_veqv. cbn -[replace_ptr].
  set (q := mk_veqv _ [v] None).
  change (mk_store (<[b:=q]> V) _ (b + 1)) with (st (<[b := q]> V) m (b + 1)).
  rewrite replace_ptr_st. eexists _, _, _, b. split; [done|].
  assert (forall u l, m !! u = Some l -> l <> b) as Hnb.
  { intros u l Hu. pose proof (good_lt V m b u l Hg Hu). lia. }
  assert (forall u, val (<[b := q]> V) (<[v := b]> m) u = val V m u) as Hval.
  { intros u. unfold val. destruct (decide (u = v)) as [->|Hne].
    - by rewrite lookup_insert_eq; cbn; rewrite lookup_insert_eq, El.
    - rewrite lookup_insert_ne by done. destruct (m !! u) as [l|] eqn:Eu; cbn; [|done].
      rewrite lookup_insert_ne; [done|]. intros ->. by apply (Hnb u l). }
  split_and!; [split| |split].
  - intros u u'. unfold same. split; (intros [->|(l & Hu & Hu')]; [by left|]).
    + rewrite lookup_insert in Hu, Hu'. repeat case_decide; subst; simplify_eq.
      all: try (by left); try (by right; eauto); exfalso; by eapply Hnb.
    + right. exists l. rewrite !lookup_insert_ne by congruence. done.
  - apply Hval.
  - intros u Hu. by rewrite lookup_insert_ne.
  - intros l Hl. rewrite lookup_insert_ne by lia. done.
  - congruence.
  - by rewrite lookup_insert_eq.
  - intros u l. destruct (decide (u = v)) as [->|]; [done|].
    rewrite lookup_insert_ne by done. apply (good_key _ _ _ _ Hg).
  - intros u l Hu. pose proof (good_brk_pos _ _ _ _ Hg). destruct (decide (u = v)) as [->|Hne].
    + rewrite lookup_insert_eq in Hu. injection Hu as <-. exists q. rewrite lookup_insert_eq.
      split_and!; [done|by left| |unfold NULL; lia].
      intros u ->%list_elem_of_singleton. by rewrite lookup_insert_eq.
    + rewrite lookup_insert_ne in Hu by done.
      destruct (good_class _ _ _ _ Hg u l Hu) as (q' & Hq' & Hin & Hall & Hnz).
      exists q'. rewrite lookup_insert_ne by (intros <-; by apply (Hnb u b)).
      split_and!; [done..| |done]. intros u' Hu'. destruct (decide (u' = v)) as [->|].
      * apply Hall in Hu'. congruence.
      * rewrite lookup_insert_ne by done. by apply Hall.
  - intros u t. rewrite Hval. apply (good_value _ _ _ _ Hg).
  - intros l q'. destruct (decide (l = b)) as [->|]; [lia|]. rewrite lookup_insert_ne by done.
    intros Hq. pose proof (good_brk _ _ _ _ Hg l q' Hq). lia.
  - pose proof (good_brk_pos _ _ _ _ Hg). lia.
Qed.

(** *** The occur check *)

Lemma contains_spec V m b w e l : good s0 V m b -> weights s0 V m w -> wf_ex e -> l <> NULL ->
  exists r, ends (fun n => cuex_subst_ex_contains_veqv n p e l) (st V m b) r (st V m b) /\
    (r = true <-> exists v, reach s0 V m e v /\ m !! v = Some l).
Proof.
  intros Hg Hw He Hl. remember (wsize s0 w e) as k eqn:Ek. revert e He Ek.
  induction k as [k IH] using lt_wf_ind. intros e He Ek.
  destruct (act s0 e) eqn:Ha.
  - pose proof (act_not_opr _ _ Ha) as Hno. assert (cuex_is_varmeta (cuex_meta e) = true) as Hvm.
    { unfold act, active in Ha. by apply andb_true_iff in Ha as [? _]. }
    assert (forall r, ends (fun n => match m !! e with None => ret false | Some l' =>
        if l' =? l then ret true else bind (get_veqv l') (fun q =>
          match value q with Some v => cuex_subst_ex_contains_veqv n p v l | None => ret false end) end)
        (st V m b) r (st V m b) ->
      ends (fun n => cuex_subst_ex_contains_veqv n p e l) (st V m b) r (st V m b)) as Hunf.
    { intros r. apply ends_step. intros n. cbn [cuex_subst_ex_contains_veqv].
      rewrite Hno, Hvm. unfold bind at 1. rewrite cref_st.
      destruct (m !! e) as [l'|] eqn:El; cbn [from_option id].
      - destruct (l' =? l); [done|]. destruct (good_class _ _ _ _ Hg e l' El) as (_ & _ & _ & _ & Hnz).
        by rewrite (proj2 (Z.eqb_neq _ _) Hnz).
      - rewrite (proj2 (Z.eqb_neq NULL l)) by done. done. }
    revert Hunf. destruct (m !! e) as [l'|] eqn:El; intros Hunf.
    + revert Hunf. destruct (Z.eqb_spec l' l) as [->|Hne]; intros Hunf.
      { exists true. split; [by apply Hunf, ends_const|]. split; [|done]. intros _. exists e.
        split; [|done]. apply reach_var; [done..|]. left. by left. }
      destruct (good_class _ _ _ _ Hg e l' El) as (q & Hq & _).
      assert (val V m e = value q) as Hval by (unfold val; rewrite El; cbn; by rewrite Hq).
      destruct (value q) as [t|] eqn:Et.
      * destruct (good_value _ _ _ _ Hg e t Hval) as [Ht _].
        pose proof (weights_value _ _ _ _ Hw e t Hval).
        destruct (IH (wsize s0 w t)) with (e := t) as (r & Hr & HP); [|done|done|].
        { rewrite Ek, (wsize_act s0 w e) by done. done. }
        exists r. split.
        { apply Hunf. apply (ends_eq _ (fun n => cuex_subst_ex_contains_veqv n p t l) _ (st V m b)); [|done].
          intros n. unfold bind. rewrite (get_veqv_st _ _ _ _ q) by done. by rewrite Et. }
        rewrite HP. split; intros (v & Hv & Hm); exists v; (split; [|done]).
        -- apply reach_var; [done..|]. right. eauto.
        -- apply reach_var in Hv as [[->|(l2 & H1 & H2)]|(t' & Ht' & Hv)]; [..|congruence]; congruence.
      * exists false. split.
        { apply Hunf, (ends_eq _ (fun _ => ret false) _ (st V m b)); [|by apply ends_const].
          intros n. unfold bind. rewrite (get_veqv_st _ _ _ _ q) by done. by rewrite Et. }
        split; [done|]. intros (v & Hv & Hm).
        apply reach_var in Hv as [[->|(l2 & H1 & H2)]|(t' & Ht' & Hv)]; [..|congruence]; congruence.
    + exists false. split; [by apply Hunf, ends_const|]. split; [done|]. intros (v & Hv & Hm).
      assert (val V m e = None) as Hval by (unfold val; by rewrite El).
      apply reach_var in Hv as [[->|(l2 & H1 & H2)]|(t' & Ht' & Hv)]; congruence.
  - destruct He as [meta a Hno|opr args Ho Hr Hargs].
    + exists false. split.
      * apply (ends_step _ (fun _ => ret false) _ (st V m b)); [|by apply ends_const]. intros n.
        cbn [cuex_subst_ex_contains_veqv cuex_meta]. rewrite Hno. destruct (cuex_is_varmeta meta); [|done].
        unfold bind. rewrite cref_st. destruct (m !! Obj meta a) as [l'|] eqn:El.
        { destruct (good_key _ _ _ _ Hg _ _ El). congruence. }
        cbn [from_option id]. by rewrite (proj2 (Z.eqb_neq NULL l)) by done.
      * split; [done|]. intros (v & Hv & _). by apply reach_none in Hv.
    + destruct (ends_disj (fun n x => cuex_subst_ex_contains_veqv n p x l)
        (fun x => exists v, reach s0 V m x v /\ m !! v = Some l) (st V m b) args) as (r & He & HP).
      { apply list.Forall_forall. intros x Hx. rewrite list.Forall_forall in Hargs.
        apply (IH (wsize s0 w x)); [|by apply Hargs|done].
        rewrite Ek. by apply wsize_arg. }
      exists r. split.
      * apply (ends_step _ (fun n => disj_operands (fun x => cuex_subst_ex_contains_veqv n p x l) args) _ (st V m b)); [|done].
        intros n. cbn [cuex_subst_ex_contains_veqv cuex_meta]. rewrite Ho. unfold bind.
        rewrite read_operands_opn by (by constructor). done.
      * rewrite HP. setoid_rewrite reach_opn. naive_solver.
Qed.

(** *** Changing a class, or merging two *)

(** The classes [l0] and [l1] become one, at [l1], with the value [ov]. *)
Record update V m l0 l1 (ov : option ex) V' m' : Prop := {
  update_V : exists qc vs, V' = <[l1 := mk_veqv qc vs ov]> V /\
    forall u, u ∈ vs <-> m !! u = Some l0 \/ m !! u = Some l1;
  update_in u : m !! u = Some l0 \/ m !! u = Some l1 -> m' !! u = Some l1;
  update_out u : ~ (m !! u = Some l0 \/ m !! u = Some l1) -> m' !! u = m !! u;
}.

Section update.
Context V m b l0 l1 ov V' m' (Hg : good s0 V m b) (HU : update V m l0 l1 ov V' m').
Context (x0 x1 : ex) (Hx0 : m !! x0 = Some l0) (Hx1 : m !! x1 = Some l1).
Context (Hov : forall t, ov = Some t -> wf_ex t /\ act s0 t = false).

Definition touched u : Prop := m !! u = Some l0 \/ m !! u = Some l1.

#[local] Instance touched_dec u : Decision (touched u).
Proof. unfold touched. apply _. Qed.

Lemma update_val u : val V' m' u = if decide (touched u) then ov else val V m u.
Proof.
  destruct (update_V _ _ _ _ _ _ _ HU) as (qc & vs & -> & Hvs). unfold val. case_decide as Ht.
  - rewrite (update_in _ _ _ _ _ _ _ HU u Ht). cbn. by rewrite lookup_insert_eq.
  - rewrite (update_out _ _ _ _ _ _ _ HU u Ht). destruct (m !! u) as [l|] eqn:El; [|done].
    cbn. rewrite lookup_insert_ne; [done|]. intros <-. apply Ht. by right.
Qed.

Lemma update_same u v : same m' u v <-> same m u v \/ (touched u /\ touched v).
Proof.
  clear -HU. unfold same. destruct (decide (touched u)) as [Hu|Hu]; destruct (decide (touched v)) as [Hv|Hv].
  all: rewrite ?(update_in _ _ _ _ _ _ _ HU u Hu), ?(update_in _ _ _ _ _ _ _ HU v Hv),
    ?(update_out _ _ _ _ _ _ _ HU u Hu), ?(update_out _ _ _ _ _ _ _ HU v Hv); unfold touched in *.
  - split; [by right|]. intros _. right. eauto.
  - split; [|naive_solver]. intros [->|(l & E & E')]; [done|]. simplify_eq. destruct Hv. by right.
  - split; [|naive_solver]. intros [->|(l & E & E')]; [done|]. simplify_eq. destruct Hu. by right.
  - naive_solver.
Qed.

Lemma update_good : good s0 V' m' b.
Proof.
  destruct (update_V _ _ _ _ _ _ _ HU) as (qc & vs & HV & Hvs).
  assert (forall u l, m' !! u = Some l -> exists l', m !! u = Some l') as Hdom.
  { intros u l Hu. destruct (decide (touched u)) as [[E|E]|E]; [eauto..|].
    rewrite (update_out _ _ _ _ _ _ _ HU u E) in Hu. eauto. }
  split.
  - intros v l (l' & Hv)%Hdom. by apply (good_key _ _ _ _ Hg v l').
  - intros v l Hv. destruct (decide (touched v)) as [Ht|Ht].
    + rewrite (update_in _ _ _ _ _ _ _ HU v Ht) in Hv. injection Hv as <-.
      exists (mk_veqv qc vs ov). rewrite HV, lookup_insert_eq. split_and!; [done|by apply Hvs| |].
      * intros u Hu%Hvs. by apply (update_in _ _ _ _ _ _ _ HU).
      * by destruct (good_class _ _ _ _ Hg x1 l1 Hx1) as (_ & _ & _ & _ & ?).
    + rewrite (update_out _ _ _ _ _ _ _ HU v Ht) in Hv.
      destruct (good_class _ _ _ _ Hg v l Hv) as (q & Hq & Hin & Hall & Hnz).
      assert (l <> l1) as Hne by (intros ->; apply Ht; by right).
      exists q. rewrite HV, lookup_insert_ne by done. split_and!; [done..| |done].
      intros u Hu. rewrite (update_out _ _ _ _ _ _ _ HU); [by apply Hall|].
      apply Hall in Hu. intros [E|E]; apply Ht; [left|right]; congruence.
  - intros v t. rewrite update_val. case_decide; [apply Hov|apply (good_value _ _ _ _ Hg)].
  - intros l q. rewrite HV. destruct (decide (l = l1)) as [->|].
    + intros _. by apply (good_lt V m b x1).
    + rewrite lookup_insert_ne by done. apply (good_brk _ _ _ _ Hg).
  - apply (good_brk_pos _ _ _ _ Hg).
Qed.

Lemma touched_same u v : same m u v -> touched u -> touched v.
Proof.
  unfold touched, same. intros [->|(l & E & E')]; [done|]. intros [?|?]; [left|right]; congruence.
Qed.

Lemma reach_dec w e v : weights s0 V m w -> wf_ex e -> {reach s0 V m e v} + {~ reach s0 V m e v}.
Proof.
  intros Hw He. remember (wsize s0 w e) as k eqn:Ek. revert e He Ek.
  induction k as [k IH] using (well_founded_induction_type lt_wf). intros e He Ek.
  destruct (act s0 e) eqn:Ha.
  - assert (same m e v \/ (exists t, val V m e = Some t /\ reach s0 V m t v) <-> reach s0 V m e v) as HR
      by (by rewrite reach_var).
    destruct (decide (same m e v)) as [Hs|Hs]; [left; apply HR; by left|].
    destruct (val V m e) as [t|] eqn:Ht.
    + destruct (IH (wsize s0 w t)) with (e := t) as [Hr|Hr]; [| |done|left|right].
      * rewrite Ek, (wsize_act s0 w e) by done. by apply (weights_value _ _ _ _ Hw).
      * by apply (good_value _ _ _ _ Hg) in Ht as [? _].
      * apply HR. eauto.
      * intros [?|(t' & [= <-] & ?)]%HR; done.
    + right. intros [?|(t' & ? & ?)]%HR; done.
  - destruct e as [meta a|opr args].
    + right. by apply reach_none.
    + assert (Forall wf_ex args) as Hargs by (by inversion He).
      assert (forall x, x ∈ args -> {reach s0 V m x v} + {~ reach s0 V m x v}) as Hd.
      { intros x Hx. apply (IH (wsize s0 w x)); [|by eapply list.Forall_forall|done].
        rewrite Ek. by apply wsize_arg. }
      assert ({exists x, x ∈ args /\ reach s0 V m x v} + {~ exists x, x ∈ args /\ reach s0 V m x v}) as HD.
      { clear -Hd. induction args as [|x args IHa]; [right; intros (x & Hx & _); set_solver|].
        destruct (Hd x) as [Hr|Hr]; [by left|left; exists x; split; [by left|done]|].
        destruct IHa as [Hi|Hi]; [intros y Hy; apply Hd; by right|left|right].
        - destruct Hi as (y & Hy & Hr'). exists y. split; [by right|done].
        - intros (y & [->|Hy]%elem_of_cons & Hr'); [done|eauto]. }
      destruct HD as [HD|HD]; [left|right]; by rewrite reach_opn.
Qed.

Definition value_term : ex := default (Opn 0 []) ov.

Lemma update_weights w : weights s0 V m w ->
  (forall v, touched v -> ~ reach s0 V m value_term v) -> exists w', weights s0 V' m' w'.
Proof using HU Hg Hov Hx0 Hx1.
  clear Hp Hclone Hsh Hidem p. intros Hw Hnr. set (t := value_term) in *. set (D := S (wsize s0 w t)).
  assert (forall v, {reach s0 V m t v} + {~ reach s0 V m t v}) as Hdec.
  { intros v. unfold t, value_term in *. destruct ov as [t'|]; cbn.
    - apply (reach_dec w); [done|]. by apply Hov.
    - right. rewrite reach_opn. intros (x & Hx & _). set_solver. }
  set (w' := fun v => if decide (touched v) then D else if Hdec v then w v else (D * w v)%nat).
  assert (forall v, 0 < w v)%nat as Hpos by apply (weights_pos _ _ _ _ Hw).
  assert (forall v, w' v <= D * w v)%nat as Hle.
  { intros v. specialize (Hpos v). unfold w'. case_decide; [nia|]. destruct (Hdec v); nia. }
  assert (forall v, reach s0 V m t v -> w' v = w v) as Hin.
  { intros v Hv. unfold w'. rewrite decide_False by (intros ?; by apply (Hnr v)). by destruct (Hdec v). }
  exists w'. split.
  - intros v. specialize (Hpos v). unfold w'. case_decide; [unfold D; lia|]. destruct (Hdec v); [done|nia].
  - intros u v [Hs|[Hu Hv]]%update_same; [|unfold w'; by rewrite !decide_True by done].
    unfold w'. rewrite (weights_class _ _ _ _ Hw u v Hs). destruct (decide (touched u)) as [Hu|Hu].
    + by rewrite decide_True by (by apply (touched_same u)).
    + rewrite decide_False by (intros ?; apply Hu; apply (touched_same v); [by apply same_sym|done]).
      pose proof (reach_same s0 V m t u v Hs). destruct (Hdec u), (Hdec v); tauto.
  - intros v t'. rewrite update_val. case_decide as Hv.
    + intros Ht'. assert (t = t') as <- by (unfold t, value_term; by rewrite Ht').
      rewrite (wsize_ext s0 w w'); [|intros u Hu; apply Hin; by apply reach_here].
      unfold w'. rewrite decide_True by done. unfold D. lia.
    + intros Ht'. pose proof (weights_value _ _ _ _ Hw v t' Ht') as Hlt.
      unfold w' at 2. rewrite decide_False by done. destruct (Hdec v) as [Hr|Hr].
      * rewrite (wsize_ext s0 w w'); [done|]. intros u Hu. apply Hin. by apply (reach_value _ _ _ _ v t').
      * assert (wsize s0 w' t' <= D * wsize s0 w t')%nat; [|nia].
        apply wsize_le; [|unfold D; lia]. intros u _. apply Hle.
Qed.

(** When the value has less weight than the classes, the weights stay. *)
Lemma update_weights_same w : l0 = l1 -> weights s0 V m w ->
  (forall v t, touched v -> ov = Some t -> (wsize s0 w t < w v)%nat) -> weights s0 V' m' w.
Proof.
  intros E Hw Hlt. split.
  - apply (weights_pos _ _ _ _ Hw).
  - intros u v [Hs|[Hu Hv]]%update_same; [by apply (weights_class _ _ _ _ Hw)|].
    apply (weights_class _ _ _ _ Hw). right. exists l0. unfold touched in *. rewrite E in *. tauto.
  - intros v t. rewrite update_val. case_decide; [eauto|apply (weights_value _ _ _ _ Hw)].
Qed.

Lemma update_closed Q : closed s0 V m Q -> Q x0 -> Q x1 -> (forall t, ov = Some t -> covers s0 Q t) ->
  closed s0 V' m' Q.
Proof.
  intros HQ H0 H1 Ht. assert (forall u, touched u -> Q u) as HtQ.
  { intros u [Hu|Hu]; [apply (closed_class _ _ _ _ HQ x0)|apply (closed_class _ _ _ _ HQ x1)];
      try done; right; eauto. }
  split.
  - intros u v Hu [Hs|[_ Hv]]%update_same; [by apply (closed_class _ _ _ _ HQ u)|by apply HtQ].
  - intros v t u Hv. rewrite update_val. case_decide; [intros E; by apply Ht|].
    by apply (closed_value _ _ _ _ HQ).
Qed.

(** The solutions of the new equations. *)
Lemma update_solves Q th : closed s0 V m Q -> Q x0 -> Q x1 ->
  solves s0 Q V' m' th <->
    (forall u v, Q u -> same m u v -> th u = th v) /\ th x0 = th x1 /\
    (forall t, ov = Some t -> th x1 = inst s0 th t) /\
    (forall v t, Q v -> ~ touched v -> val V m v = Some t -> th v = inst s0 th t).
Proof.
  intros HQ H0 H1. assert (forall u, touched u -> Q u) as HtQ.
  { intros u [Hu|Hu]; [apply (closed_class _ _ _ _ HQ x0)|apply (closed_class _ _ _ _ HQ x1)];
      try done; right; eauto. }
  split.
  - intros [Hc Hv]. split_and!.
    + intros u v Hu Hs. apply Hc; [done|]. apply update_same. by left.
    + apply Hc; [done|]. apply update_same. right. split; [by left|by right].
    + intros t Ht. apply Hv; [done|]. rewrite update_val, decide_True by (by right). done.
    + intros v t HQv Hnt Ht. apply Hv; [done|]. by rewrite update_val, decide_False.
  - intros (Hc & H01 & Ht & Hv). assert (forall u, touched u -> th u = th x1) as Htx.
    { intros u [Hu|Hu]; [rewrite <- H01|]; symmetry; apply Hc; try done; right; eauto. }
    split.
    + intros u v Hu [Hs|[Htu Htv]]%update_same; [by apply Hc|]. by rewrite (Htx u), (Htx v).
    + intros v t HQv. rewrite update_val. case_decide; [|by apply Hv].
      intros E. rewrite Htx by done. by apply Ht.
Qed.

Lemma update_local Q u : closed s0 V m Q -> Q x0 -> Q x1 -> ~ Q u ->
  m' !! u = m !! u /\ forall l, m !! u = Some l -> V' !! l = V !! l.
Proof.
  intros HQ H0 H1 Hu. assert (~ touched u) as Hnt.
  { intros [E|E]; apply Hu; [apply (closed_class _ _ _ _ HQ x0)|apply (closed_class _ _ _ _ HQ x1)];
      try done; right; eauto. }
  split; [by apply (update_out _ _ _ _ _ _ _ HU)|]. intros l Hl.
  destruct (update_V _ _ _ _ _ _ _ HU) as (qc & vs & -> & _). rewrite lookup_insert_ne; [done|].
  intros <-. apply Hnt. by right.
Qed.
End update.

(** *** The functions that change classes *)

Lemma set_value_st V m b l q ov : V !! l = Some q ->
  set_value l ov (st V m b) = Some (tt, st (<[l := mk_veqv (qcode q) (var_link q) ov]> V) m b).
Proof. intros Hq. unfold set_value, bind. by rewrite (get_veqv_st _ _ _ _ q). Qed.

Lemma set_value_update V m b x l ov : good s0 V m b -> m !! x = Some l ->
  exists V', set_value l ov (st V m b) = Some (tt, st V' m b) /\ update V m l l ov V' m.
Proof.
  intros Hg Hx. destruct (good_class _ _ _ _ Hg x l Hx) as (q & Hq & Hin & Hall & _).
  eexists. split; [by apply set_value_st|]. split.
  - eexists _, _. split; [done|]. intros u. split; [intros; left; by apply Hall|].
    intros [Hu|Hu]; destruct (good_class _ _ _ _ Hg u l Hu) as (q' & Hq' & ? & _); by simplify_eq.
  - intros u [?|?]; done.
  - done.
Qed.

Lemma elem_of_prepend_new (vs : gset ex) xs dst u :
  u ∈ prepend_new vs xs dst <-> u ∈ dst \/ (u ∈ xs /\ u ∉ vs).
Proof using.
  clear -dst. unfold prepend_new. revert dst. induction xs as [|x xs IH]; intros dst; cbn; [set_solver|].
  rewrite IH. case_decide; set_solver.
Qed.

Lemma update_vars_st V m b l vs : l <> NULL -> exists m', update_vars p l vs (st V m b) = Some (tt, st V m' b) /\
  (forall u, u ∈ vs -> m' !! u = Some l) /\ (forall u, u ∉ vs -> m' !! u = m !! u).
Proof using Hp Hsh.
  clear Hclone Hidem. intros Hl. revert m. induction vs as [|v vs IH]; intros m.
  { exists m. split_and!; [done|set_solver|done]. }
  assert (exists m1, (vq ← cuex_subst_cref p v;
      (if vq =? l then ret tt else replace_ptr p v l))%subst (st V m b) = Some (tt, st V m1 b) /\
    m1 !! v = Some l /\ forall u, u <> v -> m1 !! u = m !! u) as (m1 & E1 & Hv & Hne).
  { unfold bind. rewrite cref_st. destruct (m !! v) as [l'|] eqn:El; cbn [from_option id].
    - destruct (Z.eqb_spec l' l) as [->|]; [by exists m|].
      rewrite replace_ptr_st. exists (<[v:=l]> m). rewrite lookup_insert_eq.
      split_and!; [done..|]. intros u Hu. by rewrite lookup_insert_ne.
    - rewrite (proj2 (Z.eqb_neq _ _)) by done.
      rewrite replace_ptr_st. exists (<[v:=l]> m). rewrite lookup_insert_eq.
      split_and!; [done..|]. intros u Hu. by rewrite lookup_insert_ne. }
  destruct (IH m1) as (m' & E' & Hin & Hout). exists m'. split_and!.
  - cbn [update_vars]. unfold bind in *. destruct (cuex_subst_cref p v _) as [[vq h]|]; [|done].
    by rewrite E1.
  - intros u [->|Hu]%elem_of_cons; [|by apply Hin].
    destruct (decide (v ∈ vs)); [by apply Hin|by rewrite Hout].
  - intros u [Hu Hvs]%not_elem_of_cons. by rewrite Hout, Hne.
Qed.

Lemma veqv_unify_update V m b x0 x1 l0 l1 ov : good s0 V m b -> m !! x0 = Some l0 -> m !! x1 = Some l1 ->
  exists V' m', bind (cuex_veqv_unify l0 l1 ov) (fun l => bind (get_veqv l) (fun q => update_vars p l (var_link q)))
    (st V m b) = Some (tt, st V' m' b) /\ update V m l0 l1 ov V' m'.
Proof using Hp Hsh.
  clear Hclone Hidem. intros Hg H0 H1.
  destruct (good_class _ _ _ _ Hg x0 l0 H0) as (q0 & Hq0 & Hin0 & Hall0 & _).
  destruct (good_class _ _ _ _ Hg x1 l1 H1) as (q1 & Hq1 & Hin1 & Hall1 & Hnz).
  unfold cuex_veqv_unify, bind at 2. unfold bind at 1. rewrite (get_veqv_st _ _ _ _ q0) by done.
  unfold bind at 1. rewrite (get_veqv_st _ _ _ _ q1) by done.
  destruct (var_link q0) as [|y0 ys0] eqn:E0; [set_solver|].
  destruct (var_link q1) as [|y1 ys1] eqn:E1; [set_solver|].
  set (vs := y1 :: prepend_new _ _ ys1). set (qc := if _ : bool then _ else _).
  assert (forall u, u ∈ vs <-> m !! u = Some l0 \/ m !! u = Some l1) as Hvs.
  { intros u. unfold vs. rewrite elem_of_cons, elem_of_prepend_new, elem_of_list_to_set. split.
    - intros [->|[Hu|[Hu _]]]; [right; apply Hall1; by left|right; apply Hall1; by right|left; by apply Hall0].
    - intros Hu. destruct (decide (u ∈ y1 :: ys1)) as [Hin|Hin].
      + apply elem_of_cons in Hin as [->|Hin]; [by left|right; by left].
      + right. right. split; [|done]. destruct Hu as [Hu|Hu].
        * destruct (good_class _ _ _ _ Hg u l0 Hu) as (q & Hq & ? & _). simplify_eq. by rewrite <- E0.
        * destruct (good_class _ _ _ _ Hg u l1 Hu) as (q & Hq & ? & _). simplify_eq. congruence. }
  unfold bind at 1. unfold set_veqv. cbn [st veqvs substs brk]. unfold ret.
  change (mk_store (<[l1:=mk_veqv qc vs ov]> V) _ b) with (st (<[l1:=mk_veqv qc vs ov]> V) m b).
  unfold bind. rewrite (get_veqv_st _ _ _ _ (mk_veqv qc vs ov)) by (by rewrite lookup_insert_eq).
  destruct (update_vars_st (<[l1:=mk_veqv qc vs ov]> V) m b l1 vs Hnz) as (m' & E & Hin & Hout).
  cbn [var_link]. exists (<[l1:=mk_veqv qc vs ov]> V), m'. split; [done|]. split.
  - eauto.
  - intros u Hu. apply Hin. by apply Hvs.
  - intros u Hu. apply Hout. by rewrite Hvs.
Qed.
End step.
