(* ===== verification/SubstPost.v ===== *)
(** * Substitutions: what a call of the unification function leaves

    [post] relates the state before and after a call on two terms to its result: the
    solutions afterwards are those before that make the terms equal, other variables
    keep their classes, and a measure decreases unless the sizes of terms do. *)

From S2P Require Export SubstStep.

Section post.
Context (s0 : cuex_subst) (U : gset ex).
Implicit Types (e t u v x : ex) (V : gmap Z cuex_veqv) (m : gmap ex Z) (th : ex -> ex)
  (w : ex -> nat) (Q : ex -> Prop) (l b : Z) (r : option ex).

(** *** The measure

    Pairs of variables of [U] that are not equivalent, and variables without a value. *)

Definition apart m : gset (ex * ex) := base.filter (fun uv => ~ same m uv.1 uv.2) (cprod U U).
Definition unbound V m : gset ex := base.filter (fun u => val V m u = None) U.
Definition measure V m : nat := (size (apart m) + size (unbound V m))%nat.

Definition grows V m V' m' : Prop :=
  (forall u v, same m u v -> same m' u v) /\
  (forall u, val V' m' u = None -> val V m u = None).

Lemma grows_refl V m : grows V m V m.
Proof. by split. Qed.
Lemma grows_trans V m V1 m1 V' m' : grows V m V1 m1 -> grows V1 m1 V' m' -> grows V m V' m'.
Proof. unfold grows. naive_solver. Qed.

Lemma apart_subseteq V m V' m' : grows V m V' m' -> apart m' ⊆ apart m.
Proof.
  intros [Hs _] [u v]. unfold apart. rewrite !elem_of_filter, !elem_of_gset_cprod. cbn. naive_solver.
Qed.
Lemma unbound_subseteq V m V' m' : grows V m V' m' -> unbound V' m' ⊆ unbound V m.
Proof. intros [_ Hv] u. unfold unbound. rewrite !elem_of_filter. naive_solver. Qed.

Lemma measure_le V m V' m' : grows V m V' m' -> (measure V' m' <= measure V m)%nat.
Proof.
  intros Hg. pose proof (subseteq_size _ _ (apart_subseteq _ _ _ _ Hg)).
  pose proof (subseteq_size _ _ (unbound_subseteq _ _ _ _ Hg)). unfold measure. lia.
Qed.

Lemma measure_lt_same V m V' m' u v : grows V m V' m' -> u ∈ U -> v ∈ U ->
  ~ same m u v -> same m' u v -> (measure V' m' < measure V m)%nat.
Proof.
  intros Hg Hu Hv Hn Hs. pose proof (apart_subseteq _ _ _ _ Hg) as Ha.
  pose proof (subseteq_size _ _ (unbound_subseteq _ _ _ _ Hg)).
  assert (apart m' ⊂ apart m) as Hlt%subset_size; [|unfold measure; lia].
  split; [done|]. intros Hsub. specialize (Hsub (u, v)). unfold apart in Hsub.
  rewrite !elem_of_filter, !elem_of_gset_cprod in Hsub. cbn in Hsub. naive_solver.
Qed.

Lemma measure_lt_val V m V' m' u : grows V m V' m' -> u ∈ U ->
  val V m u = None -> val V' m' u <> None -> (measure V' m' < measure V m)%nat.
Proof.
  intros Hg Hu Hn Hs. pose proof (subseteq_size _ _ (apart_subseteq _ _ _ _ Hg)).
  pose proof (unbound_subseteq _ _ _ _ Hg) as Ha.
  assert (unbound V' m' ⊂ unbound V m) as Hlt%subset_size; [|unfold measure; lia].
  split; [done|]. intros Hsub. specialize (Hsub u). unfold unbound in Hsub.
  rewrite !elem_of_filter in Hsub. naive_solver.
Qed.

(** *** Postconditions *)

(** Every operator of a term satisfies [ok]. *)
Fixpoint clean (ok : Z -> Prop) e : Prop :=
  match e with Obj _ _ => True | Opn opr args => ok opr /\ foldr (fun x P => clean ok x /\ P) True args end.

Lemma clean_opn (ok : Z -> Prop) opr args : clean ok (Opn opr args) <-> ok opr /\ Forall (clean ok) args.
Proof.
  cbn. assert (foldr (fun x P => clean ok x /\ P) True args <-> Forall (clean ok) args) as ->; [|done].
  induction args as [|x args IH]; cbn; [split; [constructor|done]|]. by rewrite list.Forall_cons, IH.
Qed.

Definition clean_values (ok : Z -> Prop) V m : Prop := forall v t, val V m v = Some t -> clean ok t.

Definition spans V m Q e0 e1 : Prop := closed s0 V m Q /\ covers s0 Q e0 /\ covers s0 Q e1.

Record success V m e0 e1 w t V' m' : Prop := {
  suc_act : act s0 e0 = false -> act s0 e1 = false -> act s0 t = false;
  suc_covers Q : spans V m Q e0 e1 -> covers s0 Q t;
  suc_solves Q th : spans V m Q e0 e1 ->
    solves s0 Q V' m' th <-> solves s0 Q V m th /\ inst s0 th e0 = inst s0 th e1;
  suc_inst Q th : spans V m Q e0 e1 -> solves s0 Q V' m' th -> inst s0 th t = inst s0 th e0;
  suc_progress : (measure V' m' < measure V m)%nat \/
    (weights s0 V' m' w /\ wsize s0 w t <= wsize s0 w e0 /\ wsize s0 w t <= wsize s0 w e1)%nat;
}.

Record post V m e0 e1 w r V' m' b' : Prop := {
  post_good : good s0 V' m' b';
  post_weights : exists w', weights s0 V' m' w';
  post_grows : grows V m V' m';
  post_closed Q : spans V m Q e0 e1 -> closed s0 V' m' Q;
  post_local Q u : spans V m Q e0 e1 -> ~ Q u ->
    m' !! u = m !! u /\ forall l, m !! u = Some l -> V' !! l = V !! l;
  post_clean ok : clean_values ok V m -> clean ok e0 -> clean ok e1 ->
    clean_values ok V' m' /\ forall t, r = Some t -> clean ok t;
  post_some t : r = Some t -> success V m e0 e1 w t V' m';
  post_none th : r = None -> solves s0 (fun _ => True) V m th -> inst s0 th e0 <> inst s0 th e1;
}.

Lemma post_measure V m e0 e1 w r V' m' b' : post V m e0 e1 w r V' m' b' ->
  (measure V' m' <= measure V m)%nat.
Proof. intros HP. apply measure_le, HP. Qed.

Lemma post_local_val V m e0 e1 w r V' m' b' Q u : post V m e0 e1 w r V' m' b' ->
  spans V m Q e0 e1 -> ~ Q u -> val V' m' u = val V m u.
Proof.
  intros HP HQ Hu. destruct (post_local _ _ _ _ _ _ _ _ _ HP Q u HQ Hu) as [E EV].
  unfold val. rewrite E. destruct (m !! u) as [l|]; [|done]. cbn. by rewrite EV.
Qed.

Lemma spans_true V m e0 e1 : spans V m (fun _ => True) e0 e1.
Proof. split_and!; [apply closed_true|done..]. Qed.

(** The variables reached from two terms. *)
Definition reached V m e0 e1 v : Prop := reach s0 V m e0 v \/ reach s0 V m e1 v.

Lemma reached_spans V m e0 e1 : spans V m (reached V m e0 e1) e0 e1.
Proof.
  split_and!.
  - apply closed_or; apply reach_closed.
  - intros v Hv. left. by apply reach_here.
  - intros v Hv. right. by apply reach_here.
Qed.

Lemma reached_least V m Q e0 e1 v : spans V m Q e0 e1 -> reached V m e0 e1 v -> Q v.
Proof. intros (Hc & H0 & H1) [Hr|Hr]; [by apply (reach_least s0 V m Q e0)|by apply (reach_least s0 V m Q e1)]. Qed.

(** Nothing to do when every solution makes the terms equal. *)
Lemma post_unchanged V m b e0 e1 w : good s0 V m b -> weights s0 V m w ->
  (forall Q th, spans V m Q e0 e1 -> solves s0 Q V m th -> inst s0 th e0 = inst s0 th e1) ->
  (wsize s0 w e0 <= wsize s0 w e1)%nat -> post V m e0 e1 w (Some e0) V m b.
Proof.
  intros Hg Hw Heq Hle. split; try done.
  - eauto.
  - by intros Q (? & _).
  - intros ok Hv H0 _. split; [done|]. by intros t [= <-].
  - intros t [= <-]. split; [done|by intros Q (_ & ? & _)| |done|by right].
    intros Q th HQ. split; [|by intros [? _]]. intros Hs. split; [done|by eapply Heq].
Qed.

(** Knowing more variables changes nothing. *)
Section knows.
Context V m b V' m' b' v (HK : knows V m b V' m' b' v) (Hg : good s0 V m b).

Lemma knows_closed Q : closed s0 V' m' Q <-> closed s0 V m Q.
Proof using HK.
  destruct HK as [Hs Hv _ _ _]. split; intros [H1 H2]; split; intros u u'.
  - intros Hu Hs'%Hs. by apply (H1 u).
  - intros t Hu. rewrite <- Hv. by apply H2.
  - intros Hu Hs'%Hs. by apply (H1 u).
  - intros t Hu. rewrite Hv. by apply H2.
Qed.

Lemma knows_solves Q th : solves s0 Q V' m' th <-> solves s0 Q V m th.
Proof using HK.
  destruct HK as [Hs Hv _ _ _]. split; intros [H1 H2]; split; intros u u' Hu.
  - intros Hs'%Hs. by apply H1.
  - rewrite <- Hv. by apply H2.
  - intros Hs'%Hs. by apply H1.
  - rewrite Hv. by apply H2.
Qed.

Lemma knows_weights w : weights s0 V' m' w <-> weights s0 V m w.
Proof using HK.
  destruct HK as [Hs Hv _ _ _]. split; intros [H0 H1 H2]; (split; [done|..]); intros u u'.
  - intros Hs'%Hs. by apply H1.
  - rewrite <- Hv. apply H2.
  - intros Hs'%Hs. by apply H1.
  - rewrite Hv. apply H2.
Qed.

Lemma knows_grows : grows V m V' m' /\ grows V' m' V m.
Proof using HK. destruct HK as [Hs Hv _ _ _]. unfold grows. split; split; try naive_solver; intros; by rewrite ?Hv in *. Qed.

Lemma knows_measure : measure V' m' = measure V m.
Proof using HK. destruct knows_grows as [H1%measure_le H2%measure_le]. lia. Qed.

Lemma knows_spans Q e0 e1 : spans V' m' Q e0 e1 <-> spans V m Q e0 e1.
Proof using HK. unfold spans. by rewrite knows_closed. Qed.

Lemma post_knows e0 e1 w r V2 m2 b2 : v ∈ avars s0 e0 ∪ avars s0 e1 ->
  post V' m' e0 e1 w r V2 m2 b2 -> post V m e0 e1 w r V2 m2 b2.
Proof using HK Hg.
  intros Hv [Pg Pw Pgr Pc Pl Pcl Ps Pn]. destruct knows_grows as [Hg1 _]. split; try done.
  - by apply (grows_trans _ _ V' m').
  - intros Q HQ. apply Pc. by apply knows_spans.
  - intros Q u HQ Hu. destruct (Pl Q u) as [E EV]; [by apply knows_spans|done|].
    assert (u <> v) as Hne. { intros ->. destruct HQ as (_ & H0 & H1). set_solver. }
    rewrite (knows_ne _ _ _ _ _ _ _ HK u Hne) in *. split; [done|]. intros l Hl.
    rewrite EV by done. apply (knows_old _ _ _ _ _ _ _ HK).
    by apply (good_lt s0 V m b u).
  - intros ok Hc. apply Pcl. intros u t. rewrite (knows_val _ _ _ _ _ _ _ HK). apply Hc.
  - intros t Ht. destruct (Ps t Ht) as [Sa Sc Ss Si Sp]. split; try done.
    + intros Q HQ. apply Sc. by apply knows_spans.
    + intros Q th HQ. rewrite <- knows_solves. apply Ss. by apply knows_spans.
    + intros Q th HQ. apply Si. by apply knows_spans.
    + by rewrite <- knows_measure.
  - intros th Hr Hs. apply Pn; [done|]. by apply knows_solves.
Qed.
End knows.

(** *** Binding and merging, after the values have been unified

    The state [V1], [m1] between is [V], [m] or what unifying the values left; the
    latter only differs in variables of [Q'], which are not those of the classes. *)
Section update.
Context V m e0 e1 w V1 m1 (b1 : Z) l0 l1 (ov : option ex) V' m' x0 x1 t (Q' : ex -> Prop).
Context (Hg1 : good s0 V1 m1 b1) (Hw1 : exists w1, weights s0 V1 m1 w1) (Hgr : grows V m V1 m1).
Context (Hx0 : m1 !! x0 = Some l0) (Hx1 : m1 !! x1 = Some l1).
Context (HU : update V1 m1 l0 l1 ov V' m').
Context (Hov : forall t, ov = Some t -> wf_ex t /\ act s0 t = false).
Context (Hnr : forall t v, ov = Some t -> touched m1 l0 l1 v -> ~ reach s0 V1 m1 t v).
Context (Hnone : ov = None -> val V1 m1 x0 = None /\ val V1 m1 x1 = None).
Context (Hdec : forall v, {Q' v} + {~ Q' v}) (HQt : forall v, touched m1 l0 l1 v -> ~ Q' v).
Context (Hout : forall v, ~ Q' v -> m1 !! v = m !! v /\ forall l, m !! v = Some l -> V1 !! l = V !! l).
Context (Hspan : forall Q, spans V m Q e0 e1 -> closed s0 V1 m1 Q /\ Q x0 /\ Q x1 /\
  (forall v, Q' v -> Q v) /\ covers s0 Q t /\ forall t, ov = Some t -> covers s0 Q t).
Context (Hcl' : closed s0 V m Q').
Context (Hfwd : forall Q th, spans V m Q e0 e1 -> solves s0 Q V m th -> inst s0 th e0 = inst s0 th e1 ->
  solves s0 Q V1 m1 th /\ th x0 = th x1 /\ forall t, ov = Some t -> th x1 = inst s0 th t).
Context (Hbwd : forall th, solves s0 Q' V1 m1 th -> th x0 = th x1 ->
  (forall t, ov = Some t -> th x1 = inst s0 th t) ->
  solves s0 Q' V m th /\ inst s0 th e0 = inst s0 th e1 /\ inst s0 th t = inst s0 th e0 /\
  (forall t, val V m x0 = Some t -> th x0 = inst s0 th t) /\
  (forall t, val V m x1 = Some t -> th x1 = inst s0 th t)).
Context (Hclean : forall ok, clean_values ok V m -> clean ok e0 -> clean ok e1 ->
  clean_values ok V1 m1 /\ (forall t, ov = Some t -> clean ok t) /\ clean ok t).
Context (Hact : act s0 e0 = false -> act s0 e1 = false -> act s0 t = false).
Context (Hprog : (measure V' m' < measure V m)%nat \/
    (weights s0 V' m' w /\ wsize s0 w t <= wsize s0 w e0 /\ wsize s0 w t <= wsize s0 w e1)%nat).

Lemma update_grows : grows V1 m1 V' m'.
Proof using HU Hg1 Hx0 Hx1 Hnone.
  split.
  - intros u v Hs. apply (update_same _ _ _ _ _ _ _ HU). by left.
  - intros u. rewrite (update_val _ _ _ _ _ _ _ HU). case_decide as Ht; [|done].
    intros E. destruct (Hnone E) as [E0 E1].
    assert (forall x l, m1 !! x = Some l -> m1 !! u = Some l -> val V1 m1 u = val V1 m1 x) as Hs.
    { intros x l Hx Hu. apply same_val. right. eauto. }
    destruct Ht as [Ht|Ht]; [by rewrite (Hs x0 l0)|by rewrite (Hs x1 l1)].
Qed.

Lemma out_val v : ~ Q' v -> val V1 m1 v = val V m v.
Proof using Hout.
  intros Hv. destruct (Hout v Hv) as [E EV]. unfold val. rewrite E.
  destruct (m !! v) as [l|]; [|done]. cbn. by rewrite EV.
Qed.

(** The solutions of the new equations are those of the old ones that make the terms equal. *)
Lemma update_solves_iff Q th : spans V m Q e0 e1 ->
  solves s0 Q V' m' th <-> solves s0 Q V m th /\ inst s0 th e0 = inst s0 th e1.
Proof using HU Hg1 Hx0 Hx1 Hgr Hspan Hfwd Hbwd Hdec HQt Hout.
  intros HQ. destruct (Hspan Q HQ) as (Hc1 & HQ0 & HQ1 & HQQ & _ & _).
  rewrite (update_solves s0 V1 m1 l0 l1 ov V' m' HU x0 x1 Hx0 Hx1 Q th Hc1 HQ0 HQ1). split.
  - intros (Ha & Hb & Hc & Hd).
    destruct (Hbwd th) as (Hs & Heq & _ & Hv0 & Hv1); [|done..|].
    { split; [intros u v Hu; apply Ha; auto|]. intros v t' Hv Ht'. apply Hd; auto. intros Hto. by apply (HQt v). }
    split; [|done]. assert (forall u v, Q u -> same m u v -> th u = th v) as Hcl.
    { intros u v Hu Hs'. apply Ha; [done|]. by apply Hgr. }
    split; [done|]. intros v t' Hv Ht'. destruct (Hdec v) as [Hq|Hq]; [by apply (solves_value _ _ _ _ _ Hs)|].
    destruct (decide (touched m1 l0 l1 v)) as [Ht|Ht].
    + assert (forall x l, m1 !! x = Some l -> ~ Q' x -> m1 !! v = Some l -> same m v x) as Hsx.
      { intros x l Hx Hqx Hvl. right. exists l. by rewrite <- (proj1 (Hout x Hqx)), <- (proj1 (Hout v Hq)). }
      destruct Ht as [Ht|Ht].
      * assert (same m v x0) as Hvx by (apply (Hsx x0 l0); auto; apply HQt; by left).
        rewrite (Hcl v x0 Hv Hvx). apply Hv0. by rewrite <- (same_val _ _ v x0).
      * assert (same m v x1) as Hvx by (apply (Hsx x1 l1); auto; apply HQt; by right).
        rewrite (Hcl v x1 Hv Hvx). apply Hv1. by rewrite <- (same_val _ _ v x1).
    + apply Hd; [done..|]. by rewrite out_val.
  - intros [Hs Heq]. destruct (Hfwd Q th HQ Hs Heq) as ([Ha Hb] & H01 & Ht). split_and!; auto.
Qed.

Lemma update_post : post V m e0 e1 w (Some t) V' m' b1.
Proof using All.
  assert (good s0 V' m' b1) as Hg' by (eapply update_good; eauto).
  split; [done| | | | | | |done].
  - destruct Hw1 as [w1 Hw1']. apply (update_weights s0 V1 m1 b1 l0 l1 ov V' m' Hg1 HU x0 x1) with (w := w1); auto.
    intros v Hv. unfold value_term. destruct ov as [t'|]; cbn; [by apply (Hnr t')|].
    rewrite reach_opn. intros (x & Hx & _). set_solver.
  - apply (grows_trans _ _ V1 m1); [done|apply update_grows].
  - intros Q HQ. destruct (Hspan Q HQ) as (Hc1 & HQ0 & HQ1 & _ & _ & Hc).
    by apply (update_closed s0 V1 m1 l0 l1 ov V' m' HU x0 x1).
  - intros Q u HQ Hu. destruct (Hspan Q HQ) as (Hc1 & HQ0 & HQ1 & HQQ & _).
    destruct (Hout u) as [E EV]; [intros ?; apply Hu; auto|].
    destruct (update_local s0 V1 m1 l0 l1 ov V' m' HU x0 x1 Hx0 Hx1 Q u) as [E' EV']; [done..|].
    split; [congruence|]. intros l Hl. rewrite EV' by congruence. by apply EV.
  - intros ok Hv H0 H1. destruct (Hclean ok Hv H0 H1) as (Hv1 & Ho & Ht). split; [|by intros t' [= <-]].
    intros v t'. rewrite (update_val _ _ _ _ _ _ _ HU). case_decide; [apply Ho|apply Hv1].
  - intros t' [= <-]. split; [done| |by apply update_solves_iff| |done].
    + intros Q HQ. by destruct (Hspan Q HQ) as (_ & _ & _ & _ & ? & _).
    + intros Q th HQ Hs. destruct (Hspan Q HQ) as (Hc1 & HQ0 & HQ1 & HQQ & _ & _).
      revert Hs. rewrite (update_solves s0 V1 m1 l0 l1 ov V' m' HU x0 x1 Hx0 Hx1 Q th Hc1 HQ0 HQ1).
      intros (Ha & Hb & Hc & Hd). destruct (Hbwd th) as (_ & _ & Heq & _); [|done..].
      split; [intros u v Hu; apply Ha; auto|]. intros v t' Hv Ht'. apply Hd; auto. intros Hto. by apply (HQt v).
Qed.
End update.

(** The case without unification of values. *)
Section update_simple.
Context V m (b : Z) e0 e1 w l0 l1 (ov : option ex) V' m' x0 x1 t.
Context (Hg : good s0 V m b) (Hw : weights s0 V m w).
Context (Hx0 : m !! x0 = Some l0) (Hx1 : m !! x1 = Some l1) (HU : update V m l0 l1 ov V' m').
Context (Hov : forall t, ov = Some t -> wf_ex t /\ act s0 t = false).
Context (Hnr : forall t v, ov = Some t -> touched m l0 l1 v -> ~ reach s0 V m t v).
Context (Hnone : ov = None -> val V m x0 = None /\ val V m x1 = None).
Context (Hspan : forall Q, spans V m Q e0 e1 -> Q x0 /\ Q x1 /\ covers s0 Q t /\
  forall t, ov = Some t -> covers s0 Q t).
Context (Hfwd : forall Q th, spans V m Q e0 e1 -> solves s0 Q V m th -> inst s0 th e0 = inst s0 th e1 ->
  th x0 = th x1 /\ forall t, ov = Some t -> th x1 = inst s0 th t).
Context (Hbwd : forall th, th x0 = th x1 -> (forall t, ov = Some t -> th x1 = inst s0 th t) ->
  inst s0 th e0 = inst s0 th e1 /\ inst s0 th t = inst s0 th e0 /\
  (forall t, val V m x0 = Some t -> th x0 = inst s0 th t) /\
  (forall t, val V m x1 = Some t -> th x1 = inst s0 th t)).
Context (Hclean : forall ok, clean_values ok V m -> clean ok e0 -> clean ok e1 ->
  (forall t, ov = Some t -> clean ok t) /\ clean ok t).
Context (Hact : act s0 e0 = false -> act s0 e1 = false -> act s0 t = false).
Context (Hlt : (measure V' m' < measure V m)%nat).

Lemma update_post_simple : post V m e0 e1 w (Some t) V' m' b.
Proof using All.
  assert (forall Q, spans V m Q e0 e1 -> closed s0 V m Q /\ Q x0 /\ Q x1 /\
    (forall v, False -> Q v) /\ covers s0 Q t /\ forall t, ov = Some t -> covers s0 Q t) as Hspan'.
  { intros Q HQ. destruct (Hspan Q HQ) as (? & ? & ? & ?). destruct HQ as (? & _). split_and!; auto. done. }
  assert (forall Q th, spans V m Q e0 e1 -> solves s0 Q V m th -> inst s0 th e0 = inst s0 th e1 ->
    solves s0 Q V m th /\ th x0 = th x1 /\ forall t, ov = Some t -> th x1 = inst s0 th t) as Hfwd'.
  { intros Q th HQ Hs Heq. destruct (Hfwd Q th HQ Hs Heq). auto. }
  apply (update_post V m e0 e1 w V m b l0 l1 ov V' m' x0 x1 t (fun _ => False)); eauto using grows_refl.
  by split.
Qed.
End update_simple.

Lemma post_fail V m b e0 e1 w V' m' b' : good s0 V' m' b' -> (exists w', weights s0 V' m' w') ->
  grows V m V' m' -> (forall Q, spans V m Q e0 e1 -> closed s0 V' m' Q) ->
  (forall Q u, spans V m Q e0 e1 -> ~ Q u ->
    m' !! u = m !! u /\ forall l, m !! u = Some l -> V' !! l = V !! l) ->
  (forall ok, clean_values ok V m -> clean ok e0 -> clean ok e1 -> clean_values ok V' m') ->
  (forall th, solves s0 (fun _ => True) V m th -> inst s0 th e0 <> inst s0 th e1) ->
  post V m e0 e1 w None V' m' b'.
Proof. intros. split; auto; [|done]. intros ok Hv H0' H1'. split; [eauto|done]. Qed.

Lemma post_fail_here V m b e0 e1 w : good s0 V m b -> weights s0 V m w ->
  (forall th, solves s0 (fun _ => True) V m th -> inst s0 th e0 <> inst s0 th e1) ->
  post V m e0 e1 w None V m b.
Proof.
  intros Hg Hw Hn. apply (post_fail V m b); eauto using grows_refl. by intros Q (? & _).
Qed.

(** A failure on terms that must be equal for [e0] and [e1] to be. *)
Lemma post_fail_sub V m b e0 e1 t0 t1 w w' V' m' b' :
  post V m t0 t1 w' None V' m' b' -> (forall Q, spans V m Q e0 e1 -> spans V m Q t0 t1) ->
  (forall ok, clean_values ok V m -> clean ok e0 -> clean ok e1 -> clean ok t0 /\ clean ok t1) ->
  (forall th, solves s0 (fun _ => True) V m th -> inst s0 th e0 = inst s0 th e1 ->
    inst s0 th t0 = inst s0 th t1) ->
  post V m e0 e1 w None V' m' b'.
Proof.
  intros [Pg Pw Pgr Pc Pl Pcl _ Pn] Hsub Hcl Heq. apply (post_fail V m b); auto.
  - intros Q u HQ. apply Pl. auto.
  - intros ok Hv H0 H1. destruct (Hcl ok Hv H0 H1). by apply Pcl.
  - intros th Hs E. apply (Pn th eq_refl Hs). auto.
Qed.

Lemma spans_sym V m Q e0 e1 : spans V m Q e0 e1 -> spans V m Q e1 e0.
Proof. unfold spans. tauto. Qed.

Lemma post_sym V m e0 e1 w r V' m' b' : post V m e0 e1 w r V' m' b' -> post V m e1 e0 w r V' m' b'.
Proof.
  intros [Pg Pw Pgr Pc Pl Pcl Ps Pn]. split; auto.
  - intros Q HQ. by apply Pc, spans_sym.
  - intros Q u HQ. by apply Pl, spans_sym.
  - intros t Ht. destruct (Ps t Ht) as [Sa Sc Ss Si Sp]. split; auto.
    + intros Q HQ. by apply Sc, spans_sym.
    + intros Q th HQ. rewrite Ss by (by apply spans_sym). split; intros [? ?]; done.
    + intros Q th HQ%spans_sym Hs. rewrite (Si Q) by done. by apply (Ss Q th HQ).
    + destruct Sp as [?|(? & ? & ?)]; [by left|by right].
  - intros th Hr Hs E. by apply (Pn th Hr Hs).
Qed.

End post.
