(* ===== verification/SubstUnify.v ===== *)
(** * Unification: termination and correctness

    By induction on the measure of [SubstPost] and on the size of the terms under the
    weights of the substitution, a call on a substitution without cycles ends, and leaves
    what [post] says. *)

From S2P Require Export SubstPost.

Section unify.
Context `{!PmapOrder} (p : Z) (s0 : cuex_subst) (others : gmap Z cuex_subst) (U : gset ex).
Context (Hp : p <> NULL) (Hclone : clone_cnt s0 = 1) (Hsh : shadowed s0 = NULL)
  (Hidem : is_idem s0 = true).
Implicit Types (e t u v x : ex) (V : gmap Z cuex_veqv) (m : gmap ex Z) (th : ex -> ex)
  (w : ex -> nat) (Q : ex -> Prop) (l b : Z) (r : option ex).

Notation stp := (st p s0 others).
Notation unify n := (cuex_subst_unify_aux None n p).

(** A computation on terms ends as it should. *)
Definition runs (f : nat -> M (option ex)) V m b w e0 e1 : Prop :=
  exists r V' m' b', ends f (stp V m b) r (stp V' m' b') /\ post s0 U V m e0 e1 w r V' m' b' /\
    forall t, r = Some t -> wf_ex t.

Lemma runs_eq f g V m b w e0 e1 : (forall n, f n (stp V m b) = g n (stp V m b)) ->
  runs g V m b w e0 e1 -> runs f V m b w e0 e1.
Proof.
  intros E (r & V' & m' & b' & He & HP). exists r, V', m', b'. split; [|done].
  by apply (ends_eq _ g _ (stp V m b)).
Qed.

Lemma runs_ret V m b w e0 e1 r : post s0 U V m e0 e1 w r V m b -> (forall t, r = Some t -> wf_ex t) ->
  runs (fun _ => ret r) V m b w e0 e1.
Proof. intros HP Hw. exists r, V, m, b. split; [by apply ends_const|done]. Qed.

(** *** Merging two classes *)

Definition merge_classes (vq0 vq1 : Z) (ov : option ex) (z : ex) : M (option ex) :=
  bind (cuex_veqv_unify vq0 vq1 ov) (fun vq2 => bind (get_veqv vq2) (fun q2 =>
    bind (update_vars p vq2 (var_link q2)) (fun _ => ret (Some z)))).

Lemma merge_classes_st V m b x0 x1 l0 l1 ov z : good s0 V m b -> m !! x0 = Some l0 -> m !! x1 = Some l1 ->
  exists V' m', merge_classes l0 l1 ov z (stp V m b) = Some (Some z, stp V' m' b) /\
    update V m l0 l1 ov V' m'.
Proof.
  intros Hg H0 H1. destruct (veqv_unify_update p s0 others Hp Hsh V m b x0 x1 l0 l1 ov Hg H0 H1)
    as (V' & m' & E & HU).
  exists V', m'. split; [|done]. unfold merge_classes, bind in *.
  destruct (cuex_veqv_unify l0 l1 ov _) as [[l h]|]; [|done].
  destruct (get_veqv l h) as [[q h']|]; [|done]. by rewrite E.
Qed.

Section known.
Context V m b (w : ex -> nat) (Hg : good s0 V m b) (Hw : weights s0 V m w).

Lemma touched_reach l x u t : m !! x = Some l -> m !! u = Some l -> reach s0 V m t u -> reach s0 V m t x.
Proof. intros Hx Hu Hr. apply (reach_class s0 V m t u); [done|]. right. eauto. Qed.

Lemma val_get x l q : m !! x = Some l -> V !! l = Some q -> val V m x = value q.
Proof. intros Hx Hq. unfold val. rewrite Hx. cbn. by rewrite Hq. Qed.

(** Of two classes at most one has a value. *)
Lemma merge_simple x0 x1 l0 l1 ov : wf_ex x0 -> wf_ex x1 -> act s0 x0 = true -> act s0 x1 = true ->
  x0 ∈ U -> x1 ∈ U -> m !! x0 = Some l0 -> m !! x1 = Some l1 -> l0 <> l1 ->
  (val V m x0 = None /\ val V m x1 = ov \/ val V m x0 = ov /\ val V m x1 = None) ->
  (forall t, val V m x0 = Some t -> ~ reach s0 V m t x1) ->
  (forall t, val V m x1 = Some t -> ~ reach s0 V m t x0) ->
  runs (fun _ => merge_classes l0 l1 ov (default x0 ov)) V m b w x0 x1.
Proof.
  intros Hwf0 Hwf1 Ha0 Ha1 HU0 HU1 H0 H1 Hne Hval Hn0 Hn1.
  destruct (merge_classes_st V m b x0 x1 l0 l1 ov (default x0 ov) Hg H0 H1) as (V' & m' & E & HU).
  assert (forall t, ov = Some t -> wf_ex t /\ act s0 t = false) as Hov.
  { intros t ->. destruct Hval as [[_ Ht]|[Ht _]]; by apply (good_value _ _ _ _ Hg _ _ Ht). }
  exists (Some (default x0 ov)), V', m', b. split; [by apply ends_const|]. split.
  2:{ intros t [= <-]. destruct ov; cbn; [by apply Hov|done]. }
  assert (forall Q, spans s0 V m Q x0 x1 -> Q x0 /\ Q x1) as HQ01.
  { intros Q (_ & HQ0 & HQ1). split; [apply HQ0|apply HQ1]; rewrite avars_act by done; set_solver. }
  apply (update_post_simple s0 U V m b x0 x1 w l0 l1 ov V' m' x0 x1); auto.
  - intros t v -> [Hv|Hv] Hr; destruct Hval as [[Hv0 Hv1]|[Hv0 Hv1]].
    + apply (Hn1 t); [done|]. by apply (touched_reach l0 x0 v).
    + apply (value_not_reached s0 V m w x0 t); [done..|]. by apply (touched_reach l0 x0 v).
    + apply (value_not_reached s0 V m w x1 t); [done..|]. by apply (touched_reach l1 x1 v).
    + apply (Hn0 t); [done|]. by apply (touched_reach l1 x1 v).
  - intros ->. tauto.
  - intros Q HQ. destruct (HQ01 Q HQ) as [? ?].
    assert (forall t, ov = Some t -> covers s0 Q t) as Hc.
    { intros t -> u Hu. destruct HQ as (HQ & _).
      destruct Hval as [[_ Ht]|[Ht _]]; [by apply (closed_value _ _ _ _ HQ x1 t)|by apply (closed_value _ _ _ _ HQ x0 t)]. }
    split_and!; auto. destruct ov; cbn; [by apply Hc|apply HQ].
  - intros Q th HQ Hs Heq. destruct (HQ01 Q HQ) as [? ?]. rewrite !inst_act in Heq by done.
    split; [done|]. intros t ->. destruct Hval as [[_ Ht]|[Ht _]].
    + by apply (solves_value _ _ _ _ _ Hs).
    + rewrite <- Heq. by apply (solves_value _ _ _ _ _ Hs).
  - intros th Heq Ht. rewrite !inst_act by done. split_and!; [done| | |].
    + destruct ov as [t|]; cbn; [|by apply inst_act]. by rewrite Heq, (Ht t).
    + intros t Hv. destruct Hval as [[Hv0 _]|[Hv0 _]]; [congruence|]. rewrite Heq. apply Ht. congruence.
    + intros t Hv. destruct Hval as [[_ Hv1]|[_ Hv1]]; [|congruence]. apply Ht. congruence.
  - intros ok Hv Hc0 Hc1. assert (forall t, ov = Some t -> clean ok t) as Hco.
    { intros t ->. destruct Hval as [[_ Ht]|[Ht _]]; by apply (Hv _ _ Ht). }
    split; [done|]. destruct ov; [by apply Hco|done].
  - congruence.
  - assert (grows V m V' m') as Hgr.
    { apply (update_grows s0 V m b l0 l1 ov V' m' x0 x1); auto. intros ->. tauto. }
    apply (measure_lt_same U V m V' m' x0 x1); auto.
    + intros [->|(l & E0 & E1)]; congruence.
    + apply (update_same _ _ _ _ _ _ _ HU). right. split; [by left|by right].
Qed.

(** *** Binding a class to a term *)

(** A variable without a value and a term that does not contain it. *)
Lemma bind_unbound x e l : wf_ex x -> wf_ex e -> act s0 x = true -> act s0 e = false ->
  x ∈ U -> m !! x = Some l -> val V m x = None -> (forall v, reach s0 V m e v -> m !! v <> Some l) ->
  runs (fun _ => bind (set_value l (Some e)) (fun _ => ret (Some x))) V m b w x e.
Proof.
  intros Hwf Hwe Ha Hae HxU Hx Hval Hnr.
  destruct (set_value_update p s0 others V m b x l (Some e) Hg Hx) as (V' & E & HU).
  exists (Some x), V', m, b. split; [apply ends_const; unfold bind; by rewrite E|].
  split; [|by intros t [= <-]].
  assert (forall Q, spans s0 V m Q x e -> Q x) as HQx.
  { intros Q (_ & HQ & _). by apply (avars_single s0). }
  apply (update_post_simple s0 U V m b x e w l l (Some e) V' m x x x); auto.
  - intros t [= <-]. done.
  - intros t v [= <-] [Hv|Hv] Hr; by apply (Hnr v).
  - intros Q HQ. pose proof (HQx Q HQ). destruct HQ as (_ & ? & ?). split_and!; auto. by intros t [= <-].
  - intros Q th HQ Hs Heq. split; [done|]. intros t [= <-]. by rewrite inst_act in Heq.
  - intros th _ Ht. rewrite (inst_act s0 th x) by done.
    split; [by apply Ht|]. split; [done|]. split; congruence.
  - intros ok _ Hcx Hce. split; [|done]. by intros t [= <-].
  - assert (grows V m V' m) as Hgr by (apply (update_grows s0 V m b l l (Some e) V' m x x); auto; done).
    apply (measure_lt_val U V m V' m x); auto. rewrite (update_val _ _ _ _ _ _ _ HU).
    rewrite decide_True by (by left). done.
Qed.

(** A variable with a value that has been unified with the term: the class is not touched. *)
Lemma not_reached x e v0 t V1 m1 b1 : wf_ex x -> act s0 x = true -> act s0 e = false ->
  val V m x = Some v0 -> post s0 U V m v0 e w (Some t) V1 m1 b1 -> ~ reached s0 V m v0 e x.
Proof.
  intros Hwf Ha Hae Hval HP. destruct HP as [Pg [w1 Pw] Pgr Pc Pl _ Ps Pn].
  pose proof (resolve_solves s0 V1 m1 b1 w1 Pg Pw) as Hs.
  set (th := fun v => resolve s0 V1 m1 (w1 v) v) in Hs.
  destruct (Ps t eq_refl) as [_ _ Ss _ _].
  apply Ss in Hs as [Hs Heq]; [|apply spans_true].
  assert (forall v t, val V m v = Some t -> act s0 t = false) as Hna.
  { intros v t' Ht'. by apply (good_value _ _ _ _ Hg v). }
  pose proof (solves_value _ _ _ _ _ Hs x v0 I Hval) as Hx.
  intros [Hr|Hr]; destruct (reach_tsize s0 _ V m th _ x (closed_true _ V m) (fun _ _ => I) Hs Hna Hr) as [_ Hlt].
  - specialize (Hlt (Hna x v0 Hval)). rewrite Hx in Hlt. lia.
  - specialize (Hlt Hae). rewrite Hx, Heq in Hlt. lia.
Qed.

Lemma reached_dec v0 e v : wf_ex v0 -> wf_ex e -> {reached s0 V m v0 e v} + {~ reached s0 V m v0 e v}.
Proof.
  intros H0 He. unfold reached.
  destruct (reach_dec s0 V m b Hg w v0 v Hw H0); [left; by left|].
  destruct (reach_dec s0 V m b Hg w e v Hw He); [left; by right|right; tauto].
Qed.

(** Assigning the unified value. *)
Lemma bind_value (f : nat -> M (option ex)) x e l v0 : wf_ex x -> wf_ex e -> act s0 x = true ->
  act s0 e = false -> m !! x = Some l -> val V m x = Some v0 -> runs f V m b w v0 e ->
  runs (fun n => bind (f n) (fun r => match r with
    | None => ret None
    | Some v => bind (set_value l (Some v)) (fun _ => ret (Some v)) end)) V m b w x e.
Proof.
  intros Hwf Hwe Ha Hae Hx Hval (r & V1 & m1 & b1 & He & HP & Hwt).
  destruct (good_value _ _ _ _ Hg x v0 Hval) as [Hwv Hav].
  assert (forall Q, spans s0 V m Q x e -> Q x /\ spans s0 V m Q v0 e) as Hsub.
  { intros Q (HQ & HQx & HQe). pose proof (avars_single s0 x Q Hwf Ha HQx) as Hin. split_and!; auto.
    split_and!; auto. intros u Hu. by apply (closed_value _ _ _ _ HQ x v0). }
  destruct r as [t|].
  2:{ exists None, V1, m1, b1. split.
      { apply (ends_bind f (fun _ r => match r with None => ret None | Some v => _ end) _ None (stp V1 m1 b1)); [done|].
        by apply ends_const. }
      split; [|done]. apply (post_fail_sub s0 U V m b1 x e v0 e w w); auto.
      - intros Q HQ. by apply Hsub.
      - intros ok Hv _ Hce. split; [by apply (Hv x)|done].
      - intros th Hs Heq. rewrite inst_act in Heq by done. rewrite <- Heq. symmetry.
        by apply (solves_value _ _ _ _ _ Hs). }
  pose proof (not_reached x e v0 t V1 m1 b1 Hwf Ha Hae Hval HP) as Hxr.
  destruct HP as [Pg Pw Pgr Pc Pl Pcl Ps _]. destruct (Ps t eq_refl) as [Sa Sc Ss Si Sp].
  set (Q' := reached s0 V m v0 e) in *. pose proof (reached_spans s0 V m v0 e : spans s0 V m Q' v0 e) as HQ'.
  destruct (Pl Q' x HQ' Hxr) as [Ex EVx].
  assert (m1 !! x = Some l) as Hx1 by congruence.
  assert (forall v, m1 !! v = Some l -> ~ Q' v) as Htq.
  { intros v Hv HQv. destruct (good_class _ _ _ _ Hg x l Hx) as (q & Hq & Hin & Hall & _).
    rewrite <- EVx in Hq by done. destruct (good_class _ _ _ _ Pg v l Hv) as (q1 & Hq1 & Hin1 & _).
    assert (q1 = q) as -> by congruence. apply Hall in Hin1. apply Hxr.
    apply (closed_class s0 V m Q' (proj1 HQ') v); [done|]. right. eauto. }
  destruct (set_value_update p s0 others V1 m1 b1 x l (Some t) Pg Hx1) as (V' & E & HU).
  exists (Some t), V', m1, b1. split.
  { apply (ends_bind f (fun _ r => match r with None => ret None | Some v => _ end) _ (Some t) (stp V1 m1 b1)); [done|].
    apply ends_const. unfold bind. by rewrite E. }
  split; [|done].
  assert (forall v, ~ Q' v -> m1 !! v = m !! v /\ forall l, m !! v = Some l -> V1 !! l = V !! l) as Hout
    by (intros v; by apply Pl).
  assert (closed s0 V1 m1 Q' /\ covers s0 Q' t) as [Hc1 Hct] by (split; [by apply Pc|by apply Sc]).
  apply (update_post s0 U V m x e w V1 m1 b1 l l (Some t) V' m1 x x t Q'); auto.
  - intros t' [= <-]. auto.
  - intros t' v [= <-] [Hv|Hv] Hr; apply (Htq v Hv); by apply (reach_least s0 V1 m1 Q' t).
  - done.
  - intros v. by apply reached_dec.
  - intros v [Hv|Hv]; by apply Htq.
  - intros Q HQ. destruct (Hsub Q HQ) as [HQx HQs]. split_and!; auto.
    + intros v. by apply (reached_least s0 V m Q v0 e).
    + intros t' [= <-]. auto.
  - apply HQ'.
  - intros Q th HQ Hs Heq. destruct (Hsub Q HQ) as [HQx HQs]. rewrite inst_act in Heq by done.
    pose proof (solves_value _ _ _ _ _ Hs x v0 HQx Hval) as Hv0.
    assert (solves s0 Q V1 m1 th) as Hs1 by (apply (Ss Q th HQs); split; [done|congruence]).
    split_and!; auto. intros t' [= <-]. rewrite Hv0. symmetry. by apply (Si Q th HQs).
  - intros th Hs1 _ Ht. specialize (Ht t eq_refl). apply (Ss Q' th HQ') in Hs1 as Hs.
    destruct Hs as [Hs Heq]. pose proof (Si Q' th HQ' Hs1) as Hi. rewrite (inst_act s0 th x) by done.
    split_and!; [done|congruence|congruence|..]; intros t' Ht'; congruence.
  - intros ok Hv _ Hce. destruct (Pcl ok Hv) as [Hv1 Hct']; [by apply (Hv x)|done|].
    split_and!; [done| |by apply Hct']. intros t' [= <-]. by apply Hct'.
  - destruct Sp as [Hlt|(Hw1 & Hs0 & Hs1)]; [left|right].
    + assert (measure U V' m1 <= measure U V1 m1)%nat; [|lia]. apply measure_le.
      by apply (update_grows s0 V1 m1 b1 l l (Some t) V' m1 x x).
    + pose proof (weights_value _ _ _ _ Hw x v0 Hval). rewrite (wsize_act s0 w x) by done.
      split_and!; [|lia|done]. apply (update_weights_same s0 V1 m1 l l (Some t) V' m1 HU x Hx1); auto.
      intros v t' Hv [= <-]. assert (same m1 v x) as Hsx by (right; exists l; unfold touched in Hv; tauto).
      rewrite (weights_class _ _ _ _ Hw1 v x Hsx). lia.
Qed.

(** Two classes with values, after the values have been unified. *)
Lemma merge_values (f : nat -> M (option ex)) x0 x1 l0 l1 v0 v1 : wf_ex x0 -> wf_ex x1 ->
  act s0 x0 = true -> act s0 x1 = true -> x0 ∈ U -> x1 ∈ U -> m !! x0 = Some l0 -> m !! x1 = Some l1 ->
  l0 <> l1 -> val V m x0 = Some v0 -> val V m x1 = Some v1 ->
  ~ reach s0 V m v0 x1 -> ~ reach s0 V m v1 x0 -> runs f V m b w v0 v1 ->
  runs (fun n => bind (f n) (fun r => match r with
    | None => ret None
    | Some v => merge_classes l0 l1 (Some v) v end)) V m b w x0 x1.
Proof.
  intros Hwf0 Hwf1 Ha0 Ha1 HU0 HU1 H0 H1 Hne Hval0 Hval1 Hn0 Hn1 (r & V1 & m1 & b1 & He & HP & Hwt).
  destruct (good_value _ _ _ _ Hg x0 v0 Hval0) as [Hwv0 Hav0].
  destruct (good_value _ _ _ _ Hg x1 v1 Hval1) as [Hwv1 Hav1].
  assert (forall Q, spans s0 V m Q x0 x1 -> Q x0 /\ Q x1 /\ spans s0 V m Q v0 v1) as Hsub.
  { intros Q (HQ & HQ0 & HQ1). pose proof (avars_single s0 x0 Q Hwf0 Ha0 HQ0) as Hin0.
    pose proof (avars_single s0 x1 Q Hwf1 Ha1 HQ1) as Hin1. split_and!; auto. split_and!; auto.
    - intros u Hu. by apply (closed_value _ _ _ _ HQ x0 v0).
    - intros u Hu. by apply (closed_value _ _ _ _ HQ x1 v1). }
  destruct r as [t|].
  2:{ exists None, V1, m1, b1. split.
      { apply (ends_bind f (fun _ r => match r with None => ret None | Some v => _ end) _ None (stp V1 m1 b1)); [done|].
        by apply ends_const. }
      split; [|done]. apply (post_fail_sub s0 U V m b1 x0 x1 v0 v1 w w); auto.
      - intros Q HQ. by apply Hsub.
      - intros ok Hv _ _. split; [by apply (Hv x0)|by apply (Hv x1)].
      - intros th Hs Heq. rewrite !inst_act in Heq by done.
        rewrite <- (solves_value _ _ _ _ _ Hs x0 v0), <- (solves_value _ _ _ _ _ Hs x1 v1); done. }
  destruct HP as [Pg Pw Pgr Pc Pl Pcl Ps _]. destruct (Ps t eq_refl) as [Sa Sc Ss Si Sp].
  set (Q' := reached s0 V m v0 v1) in *. pose proof (reached_spans s0 V m v0 v1 : spans s0 V m Q' v0 v1) as HQ'.
  assert (~ Q' x0) as Hq0 by (intros [Hr|Hr]; [by apply (value_not_reached s0 V m w x0 v0)|done]).
  assert (~ Q' x1) as Hq1 by (intros [Hr|Hr]; [done|by apply (value_not_reached s0 V m w x1 v1)]).
  destruct (Pl Q' x0 HQ' Hq0) as [E0 EV0]. destruct (Pl Q' x1 HQ' Hq1) as [E1 EV1].
  assert (m1 !! x0 = Some l0 /\ m1 !! x1 = Some l1) as [Hx0 Hx1] by (split; congruence).
  assert (forall x l, m !! x = Some l -> m1 !! x = Some l -> ~ Q' x -> V1 !! l = V !! l ->
    forall v, m1 !! v = Some l -> ~ Q' v) as Htq.
  { intros x l Hx Hx' Hxr EVx v Hv HQv. destruct (good_class _ _ _ _ Hg x l Hx) as (q & Hq & Hin & Hall & _).
    rewrite <- EVx in Hq. destruct (good_class _ _ _ _ Pg v l Hv) as (q1 & Hq1' & Hin1 & _).
    assert (q1 = q) as -> by congruence. apply Hall in Hin1. apply Hxr.
    apply (closed_class s0 V m Q' (proj1 HQ') v); [done|]. right. eauto. }
  assert (forall v, touched m1 l0 l1 v -> ~ Q' v) as Ht.
  { intros v [Hv|Hv]; [apply (Htq x0 l0)|apply (Htq x1 l1)]; auto. }
  destruct (merge_classes_st V1 m1 b1 x0 x1 l0 l1 (Some t) t Pg Hx0 Hx1) as (V' & m' & E & HU).
  exists (Some t), V', m', b1. split.
  { apply (ends_bind f (fun _ r => match r with None => ret None | Some v => _ end) _ (Some t) (stp V1 m1 b1)); [done|].
    by apply ends_const. }
  split; [|done].
  assert (forall v, ~ Q' v -> m1 !! v = m !! v /\ forall l, m !! v = Some l -> V1 !! l = V !! l) as Hout
    by (intros v; by apply Pl).
  assert (closed s0 V1 m1 Q' /\ covers s0 Q' t) as [Hc1 Hct] by (split; [by apply Pc|by apply Sc]).
  apply (update_post s0 U V m x0 x1 w V1 m1 b1 l0 l1 (Some t) V' m' x0 x1 t Q'); auto.
  - intros t' [= <-]. auto.
  - intros t' v [= <-] Hv Hr. apply (Ht v Hv). by apply (reach_least s0 V1 m1 Q' t).
  - done.
  - intros v. by apply reached_dec.
  - intros Q HQ. destruct (Hsub Q HQ) as (HQ0 & HQ1 & HQs). split_and!; auto.
    + intros v. by apply (reached_least s0 V m Q v0 v1).
    + intros t' [= <-]. auto.
  - apply HQ'.
  - intros Q th HQ Hs Heq. destruct (Hsub Q HQ) as (HQ0 & HQ1 & HQs). rewrite !inst_act in Heq by done.
    pose proof (solves_value _ _ _ _ _ Hs x0 v0 HQ0 Hval0) as Hv0.
    pose proof (solves_value _ _ _ _ _ Hs x1 v1 HQ1 Hval1) as Hv1.
    assert (solves s0 Q V1 m1 th) as Hs1 by (apply (Ss Q th HQs); split; [done|congruence]).
    split_and!; auto. intros t' [= <-]. rewrite <- Heq, Hv0. symmetry. by apply (Si Q th HQs).
  - intros th Hs1 H01 Heqt. specialize (Heqt t eq_refl). apply (Ss Q' th HQ') in Hs1 as Hs.
    destruct Hs as [Hs Heq]. pose proof (Si Q' th HQ' Hs1) as Hi. rewrite !inst_act by done.
    split_and!; [done..|congruence| |]; intros t' Ht'; congruence.
  - intros ok Hv _ _. destruct (Pcl ok Hv) as [Hv1 Hct']; [by apply (Hv x0)|by apply (Hv x1)|].
    split_and!; [done| |by apply Hct']. intros t' [= <-]. by apply Hct'.
  - left. assert (grows V1 m1 V' m') as Hgr by (by apply (update_grows s0 V1 m1 b1 l0 l1 (Some t) V' m' x0 x1)).
    apply (measure_lt_same U V m V' m' x0 x1); auto.
    + by apply (grows_trans _ _ V1 m1).
    + intros [->|(l & E0' & E1')]; congruence.
    + apply (update_same _ _ _ _ _ _ _ HU). right. split; [by left|by right].
Qed.

(** *** The occur checks *)

Lemma hits_same e l x : m !! x = Some l -> (exists v, reach s0 V m e v /\ m !! v = Some l) <-> reach s0 V m e x.
Proof.
  intros Hx. split; [|eauto]. intros (v & Hr & Hv). by apply (touched_reach l x v).
Qed.

Lemma contains_ends e l x : wf_ex e -> m !! x = Some l ->
  exists c, ends (fun n => cuex_subst_ex_contains_veqv n p e l) (stp V m b) c (stp V m b) /\
    (c = true <-> reach s0 V m e x).
Proof.
  intros He Hx. destruct (good_class _ _ _ _ Hg x l Hx) as (_ & _ & _ & _ & Hnz).
  destruct (contains_spec p s0 others Hp Hsh V m b w e l Hg Hw He Hnz) as (c & Hc & HP).
  exists c. split; [done|]. by rewrite HP, (hits_same e l x).
Qed.

(** A term that contains a variable is not equal to it. *)
Lemma contained_not_equal Q x e th : closed s0 V m Q -> covers s0 Q e -> solves s0 Q V m th ->
  act s0 e = false -> reach s0 V m e x -> th x <> inst s0 th e.
Proof.
  intros HQ Hc Hs Hae Hr E.
  assert (forall v t, val V m v = Some t -> act s0 t = false) as Hna.
  { intros v t' Ht'. by apply (good_value _ _ _ _ Hg v). }
  destruct (reach_tsize s0 Q V m th e x HQ Hc Hs Hna Hr) as [_ Hlt].
  specialize (Hlt Hae). rewrite E in Hlt. lia.
Qed.

Lemma crosswise_ends x0 x1 l0 l1 : m !! x0 = Some l0 -> m !! x1 = Some l1 ->
  exists c, ends (fun n => contains_crosswise n p l0 l1 (val V m x0) (val V m x1)) (stp V m b) c (stp V m b) /\
    (c = true <-> (exists t, val V m x0 = Some t /\ reach s0 V m t x1) \/
                  (exists t, val V m x1 = Some t /\ reach s0 V m t x0)).
Proof.
  intros H0 H1.
  assert (forall y x l, m !! x = Some l -> exists c, ends (fun n => match val V m y with
      Some v => cuex_subst_ex_contains_veqv n p v l | None => ret false end) (stp V m b) c (stp V m b) /\
      (c = true <-> exists t, val V m y = Some t /\ reach s0 V m t x)) as Hone.
  { intros y x l Hx. destruct (val V m y) as [t|] eqn:Ht.
    - destruct (good_value _ _ _ _ Hg y t Ht) as [Hwt _].
      destruct (contains_ends t l x Hwt Hx) as (c & Hc & HP). exists c. split; [done|].
      rewrite HP. naive_solver.
    - exists false. split; [by apply ends_const|]. naive_solver. }
  destruct (Hone x0 x1 l1 H1) as (c0 & Hc0 & HP0). destruct (Hone x1 x0 l0 H0) as (c1 & Hc1 & HP1).
  unfold contains_crosswise. destruct c0.
  - exists true. split; [|naive_solver].
    apply (ends_bind _ (fun n c0 => if (c0 : bool) then ret true else _) _ true (stp V m b)); [done|].
    by apply ends_const.
  - exists c1. split; [|rewrite HP1; naive_solver].
    by apply (ends_bind _ (fun n c0 => if (c0 : bool) then ret true else _) _ false (stp V m b)).
Qed.

(** *** Two variables *)

Definition merge_values_of (n : nat) x0 (l0 l1 : Z) (a0 a1 : option ex) : M (option ex) :=
  bind (match a0, a1 with
        | Some v0, Some v1 => bind (unify n v0 v1)
            (fun r => ret (match r with None => None | Some v => Some (Some v) end))
        | Some v0, None => ret (Some (Some v0))
        | None, v1 => ret (Some v1)
        end) (fun val =>
    match val with
    | None => ret None
    | Some value => merge_classes l0 l1 value (default x0 value)
    end).

Definition check_and_merge (n : nat) x0 (l0 l1 : Z) (a0 a1 : option ex) : M (option ex) :=
  bind (contains_crosswise n p l0 l1 a0 a1) (fun c : bool =>
    if c then ret None else merge_values_of n x0 l0 l1 a0 a1).

Definition after_mref_vars (n : nat) x0 (l0 l1 : Z) : M (option ex) :=
  if l0 =? l1 then ret (Some x0)
  else
    bind (get_veqv l0) (fun q0 => bind (get_veqv l1) (fun q1 =>
      check_and_merge n x0 l0 l1 (value q0) (value q1))).

Lemma vars_known x0 x1 l0 l1 : wf_ex x0 -> wf_ex x1 -> act s0 x0 = true -> act s0 x1 = true ->
  x0 ∈ U -> x1 ∈ U -> m !! x0 = Some l0 -> m !! x1 = Some l1 ->
  (forall v0 v1, val V m x0 = Some v0 -> val V m x1 = Some v1 -> runs (fun n => unify n v0 v1) V m b w v0 v1) ->
  runs (fun n => after_mref_vars n x0 l0 l1) V m b w x0 x1.
Proof.
  intros Hwf0 Hwf1 Ha0 Ha1 HU0 HU1 H0 H1 IH. unfold after_mref_vars.
  destruct (Z.eqb_spec l0 l1) as [<-|Hne].
  { apply runs_ret; [|by intros t [= <-]]. assert (same m x0 x1) as Hs by (right; eauto).
    apply post_unchanged; auto.
    - intros Q th HQ Hsol. rewrite !inst_act by done. apply (solves_class _ _ _ _ _ Hsol); [|done].
      apply (avars_single s0); [done..|apply HQ].
    - rewrite !wsize_act by done. by rewrite (weights_class _ _ _ _ Hw x0 x1 Hs). }
  destruct (good_class _ _ _ _ Hg x0 l0 H0) as (q0 & Hq0 & _).
  destruct (good_class _ _ _ _ Hg x1 l1 H1) as (q1 & Hq1 & _).
  pose proof (val_get x0 l0 q0 H0 Hq0) as Hv0. pose proof (val_get x1 l1 q1 H1 Hq1) as Hv1.
  destruct (crosswise_ends x0 x1 l0 l1 H0 H1) as (c & Hc & HP).
  rewrite Hv0, Hv1 in Hc.
  apply (runs_eq _ (fun n => check_and_merge n x0 l0 l1 (value q0) (value q1))).
  { intros n. rewrite (bind_st _ _ _ _ _ (get_veqv_st p s0 others V m b l0 q0 Hq0)).
    by rewrite (bind_st _ _ _ _ _ (get_veqv_st p s0 others V m b l1 q1 Hq1)). }
  unfold check_and_merge.
  destruct c.
  - exists None, V, m, b. split; [|split; [|done]].
    { eapply ends_bind; [exact Hc|]. by apply ends_const. }
    apply post_fail_here; auto. intros th Hs Heq. rewrite !inst_act in Heq by done.
    destruct (proj1 HP eq_refl) as [(t & Ht & Hr)|(t & Ht & Hr)];
      destruct (good_value _ _ _ _ Hg _ t Ht) as [_ Hat];
      pose proof (solves_value _ _ _ _ _ Hs _ t I Ht) as E;
      apply (contained_not_equal _ _ t th (closed_true _ _ _) (fun _ _ => I) Hs Hat Hr); congruence.
  - assert (~ ((exists t, val V m x0 = Some t /\ reach s0 V m t x1) \/
      (exists t, val V m x1 = Some t /\ reach s0 V m t x0))) as Hno by (rewrite <- HP; done).
    assert (forall g, runs g V m b w x0 x1 ->
      runs (fun n => bind (contains_crosswise n p l0 l1 (value q0) (value q1))
        (fun c : bool => if c then ret None else g n)) V m b w x0 x1) as Hskip.
    { intros g (r & V' & m' & b' & He & HPo). exists r, V', m', b'. split; [|done].
      by eapply (ends_bind _ (fun n (c : bool) => if c then ret None else g n)); [exact Hc|]. }
    apply Hskip. unfold merge_values_of. destruct (value q0) as [v0|], (value q1) as [v1|].
    + eapply runs_eq; [|apply (merge_values (fun n => unify n v0 v1) x0 x1 l0 l1 v0 v1); auto].
      * intros n. unfold bind. destruct (unify n v0 v1 _) as [[[t|] h]|]; done.
      * intros Hr. apply Hno. left. eauto.
      * intros Hr. apply Hno. right. eauto.
    + apply (runs_eq _ (fun _ => merge_classes l0 l1 (Some v0) v0)); [done|]. apply (merge_simple x0 x1 l0 l1 (Some v0)); auto.
      * intros t Ht Hr. apply Hno. left. eauto.
      * intros t Ht. congruence.
    + apply (runs_eq _ (fun _ => merge_classes l0 l1 (Some v1) v1)); [done|]. apply (merge_simple x0 x1 l0 l1 (Some v1)); auto.
      * intros t Ht. congruence.
      * intros t Ht Hr. apply Hno. right. eauto.
    + apply (runs_eq _ (fun _ => merge_classes l0 l1 None x0)); [done|]. apply (merge_simple x0 x1 l0 l1 None); auto; congruence.
Qed.

(** *** A variable and another term *)

Definition bind_value_of (n : nat) (inner : ex -> M (option ex)) x e (l : Z) (a : option ex) : M (option ex) :=
  match a with
  | Some v0 => bind (inner v0) (fun r => match r with
      | None => ret None
      | Some v => bind (set_value l (Some v)) (fun _ => ret (Some v)) end)
  | None => bind (occur_check_and_set_var n p l e) (fun ok => ret (if (ok : bool) then Some x else None))
  end.

Definition after_mref_term (n : nat) (inner : ex -> M (option ex)) x e (l : Z) : M (option ex) :=
  bind (get_veqv l) (fun q => bind_value_of n inner x e l (value q)).

Lemma term_known (inner : nat -> ex -> M (option ex)) x e l : wf_ex x -> wf_ex e -> act s0 x = true ->
  act s0 e = false -> x ∈ U -> m !! x = Some l ->
  (forall v0, val V m x = Some v0 -> runs (fun n => inner n v0) V m b w v0 e) ->
  runs (fun n => after_mref_term n (inner n) x e l) V m b w x e.
Proof.
  intros Hwf Hwe Ha Hae HxU Hx IH. destruct (good_class _ _ _ _ Hg x l Hx) as (q & Hq & _).
  pose proof (val_get x l q Hx Hq) as Hv. unfold after_mref_term.
  apply (runs_eq _ (fun n => bind_value_of n (inner n) x e l (value q))).
  { intros n. by rewrite (bind_st _ _ _ _ _ (get_veqv_st p s0 others V m b l q Hq)). }
  unfold bind_value_of. destruct (value q) as [v0|].
  - apply (bind_value (fun n => inner n v0) x e l v0); auto.
  - destruct (contains_ends e l x Hwe Hx) as (c & Hc & HP).
    assert (forall g (z : bool) V' m' b', ends (fun n => if (c : bool) then ret false else g) (stp V m b) z (stp V' m' b') ->
      ends (fun n => bind (cuex_subst_ex_contains_veqv n p e l) (fun c : bool => if c then ret false else g))
        (stp V m b) z (stp V' m' b')) as Hocc.
    { intros g z V' m' b' He. by eapply (ends_bind _ (fun n (c : bool) => if c then ret false else g)). }
    assert (forall n, occur_check_and_set_var n p l e (stp V m b) =
      bind (cuex_subst_ex_contains_veqv n p e l) (fun c : bool => if c then ret false else
        bind (set_value l (Some e)) (fun _ => ret true)) (stp V m b)) as Hunf.
    { intros n. unfold occur_check_and_set_var. rewrite (bind_st _ _ _ _ _ (get_subst_st p s0 others V m b)).
      cbn [with_map is_idem]. by rewrite Hidem. }
    destruct c.
    + exists None, V, m, b. split.
      { eapply (ends_bind (fun n => occur_check_and_set_var n p l e)
          (fun _ ok => ret (if (ok : bool) then Some x else None)) _ false); [|by apply ends_const].
        apply (ends_eq _ (fun n => bind (cuex_subst_ex_contains_veqv n p e l) (fun c : bool =>
          if c then ret false else bind (set_value l (Some e)) (fun _ => ret true))) _ (stp V m b)); [exact Hunf|]. apply Hocc. by apply ends_const. }
      split; [|done]. apply post_fail_here; auto. intros th Hs. rewrite (inst_act s0 th x) by done.
      apply (contained_not_equal _ _ e th (closed_true _ _ _) (fun _ _ => I) Hs Hae). by apply HP.
    + destruct (bind_unbound x e l) as (r & V' & m' & b' & [k He] & HPo); auto.
      { intros v Hr Hm. assert (reach s0 V m e x) as Hrx by (by apply (touched_reach l x v)).
        apply HP in Hrx. done. }
      exists r, V', m', b'. split; [|done]. specialize (He k (le_n k)). unfold bind in He.
      destruct (set_value l (Some e) (stp V m b)) as [[[] h]|] eqn:E; [|done].
      injection He as <- ->.
      eapply (ends_bind (fun n => occur_check_and_set_var n p l e)
          (fun _ ok => ret (if (ok : bool) then Some x else None)) _ true); [|by apply ends_const].
      apply (ends_eq _ (fun n => bind (cuex_subst_ex_contains_veqv n p e l) (fun c : bool =>
          if c then ret false else bind (set_value l (Some e)) (fun _ => ret true))) _ (stp V m b)); [exact Hunf|]. apply Hocc. apply ends_const. unfold bind. by rewrite E.
Qed.
End known.

(** *** Operands *)

Lemma spans_cons V m Q opr x y xs ys : spans s0 V m Q (Opn opr (x :: xs)) (Opn opr (y :: ys)) <->
  spans s0 V m Q x y /\ spans s0 V m Q (Opn opr xs) (Opn opr ys).
Proof.
  unfold spans, covers. cbn. set_solver.
Qed.

Lemma post_cons V m opr x y z xs ys w w1 V1 m1 b1 (rs : option (list ex)) V2 m2 b2 :
  post s0 U V m x y w (Some z) V1 m1 b1 ->
  post s0 U V1 m1 (Opn opr xs) (Opn opr ys) w1 (Opn opr <$> rs) V2 m2 b2 ->
  (w1 = w \/ measure U V1 m1 < measure U V m)%nat ->
  post s0 U V m (Opn opr (x :: xs)) (Opn opr (y :: ys)) w
    ((fun ts => Opn opr (z :: ts)) <$> rs) V2 m2 b2.
Proof.
  intros P1 P2 Hw1. pose proof (post_measure _ _ _ _ _ _ _ _ _ _ _ P2) as Hm2.
  destruct P1 as [Pg Pw Pgr Pc Pl Pcl Ps _]. destruct P2 as [Pg2 Pw2 Pgr2 Pc2 Pl2 Pcl2 Ps2 Pn2].
  destruct (Ps z eq_refl) as [Sa Sc Ss Si Sp].
  assert (forall Q, spans s0 V m Q (Opn opr (x :: xs)) (Opn opr (y :: ys)) ->
    spans s0 V m Q x y /\ spans s0 V1 m1 Q (Opn opr xs) (Opn opr ys)) as Hsub.
  { intros Q [HQ1 HQ2]%spans_cons. split; [done|]. destruct HQ2 as (_ & ? & ?). split_and!; auto. }
  assert (forall th, inst s0 th (Opn opr (x :: xs)) = inst s0 th (Opn opr (y :: ys)) <->
    inst s0 th x = inst s0 th y /\ inst s0 th (Opn opr xs) = inst s0 th (Opn opr ys)) as Heq.
  { intros th. cbn. split; [intros [= -> ->]; done|intros [-> [= ->]]; done]. }
  split; auto.
  - by apply (grows_trans _ _ V1 m1).
  - intros Q HQ. apply Pc2. by apply Hsub.
  - intros Q u HQ Hu. destruct (Hsub Q HQ) as [HQ1 HQ2].
    destruct (Pl Q u HQ1 Hu) as [E EV]. destruct (Pl2 Q u HQ2 Hu) as [E2 EV2].
    split; [congruence|]. intros l Hl. rewrite EV2 by congruence. by apply EV.
  - intros ok Hv [Ho Hc0]%clean_opn [_ Hc1]%clean_opn.
    apply list.Forall_cons in Hc0 as [Hx Hc0]. apply list.Forall_cons in Hc1 as [Hy Hc1].
    destruct (Pcl ok Hv Hx Hy) as [Hv1 Hz]. destruct (Pcl2 ok Hv1) as [Hv2 Hts]; [by apply clean_opn..|].
    split; [done|]. intros t Ht. destruct rs as [ts|]; [|done]. injection Ht as <-.
    specialize (Hts _ eq_refl). apply clean_opn in Hts as [_ Hts]. apply clean_opn. split; [done|].
    constructor; [by apply Hz|done].
  - intros t Ht. destruct rs as [ts|]; [|done]. injection Ht as <-.
    destruct (Ps2 _ eq_refl) as [Sa2 Sc2 Ss2 Si2 Sp2]. split; auto.
    + intros Q HQ. destruct (Hsub Q HQ) as [HQ1 HQ2]. specialize (Sc Q HQ1). specialize (Sc2 Q HQ2).
      unfold covers in *. cbn in *. set_solver.
    + intros Q th HQ. destruct (Hsub Q HQ) as [HQ1 HQ2]. rewrite (Ss2 Q th HQ2), (Ss Q th HQ1), Heq. tauto.
    + intros Q th HQ Hs. destruct (Hsub Q HQ) as [HQ1 HQ2]. pose proof (Si2 Q th HQ2 Hs) as [= E2].
      apply (Ss2 Q th HQ2) in Hs as [Hs _]. pose proof (Si Q th HQ1 Hs) as E1. cbn. congruence.
    + destruct Sp2 as [Hlt|(Hw2 & Hs0 & Hs1)]; [left; destruct Sp as [?|(? & _)]|].
      * lia.
      * assert (measure U V1 m1 <= measure U V m)%nat by (by apply measure_le). lia.
      * destruct Sp as [?|(Hwv & Hz0 & Hz1)]; [left; lia|].
        destruct Hw1 as [->|?]; [|left; lia]. right. cbn in *. split_and!; [done|lia..].
  - intros th Hr Hs E%Heq. destruct rs; [done|]. destruct E as [E1 E2].
    apply (Pn2 th eq_refl); [|done]. by apply (Ss _ th (spans_true s0 V m x y)).
Qed.

Section step.
Context (N k : nat).

Definition below V m w (s : nat) : Prop :=
  (measure U V m < N)%nat \/ (measure U V m <= N)%nat /\ (s < k)%nat.

Context (IH : forall V m b w e0 e1, good s0 V m b -> weights s0 V m w -> wf_ex e0 -> wf_ex e1 ->
  spans s0 V m (fun v => v ∈ U) e0 e1 -> below V m w (wsize s0 w e0 + wsize s0 w e1) ->
  runs (fun n => unify n e0 e1) V m b w e0 e1).

Lemma operands_run opr xs ys : Forall wf_ex xs -> Forall wf_ex ys -> length xs = length ys ->
  forall V m b w, good s0 V m b -> weights s0 V m w ->
  spans s0 V m (fun v => v ∈ U) (Opn opr xs) (Opn opr ys) ->
  below V m w (sum_list (map (wsize s0 w) xs) + sum_list (map (wsize s0 w) ys)) ->
  exists rs V' m' b', ends (fun n => unify_operands (fun x y => unify n x y) xs ys) (stp V m b) rs (stp V' m' b') /\
    post s0 U V m (Opn opr xs) (Opn opr ys) w (Opn opr <$> rs) V' m' b' /\
    forall ts, rs = Some ts -> Forall wf_ex ts /\ length ts = length xs.
Proof.
  intros Hl0. revert ys. induction Hl0 as [|x xs Hx Hl0 IHl]; intros [|y ys] Hl1 Hlen V m b w Hg Hw HQ Hb;
    try discriminate.
  { exists (Some []), V, m, b. split; [by apply ends_const|]. split; [|by intros ts [= <-]].
    by apply post_unchanged. }
  apply list.Forall_cons in Hl1 as [Hy Hl1]. injection Hlen as Hlen.
  apply spans_cons in HQ as [HQ1 HQ2].
  destruct (IH V m b w x y) as (r & V1 & m1 & b1 & He & HP & Hwr); auto.
  { destruct Hb as [?|[? Hk]]; [by left|right; split; [done|]]. cbn in Hk. lia. }
  destruct r as [z|].
  2:{ exists None, V1, m1, b1. split; [|split; [|done]].
      - cbn [unify_operands]. eapply (ends_bind _ (fun n r => match r with None => ret None | Some z => _ end)); [exact He|].
        by apply ends_const.
      - apply (post_fail_sub s0 U V m b1 _ _ x y w w); auto.
        + intros Q HQ. apply spans_cons in HQ. tauto.
        + intros ok _ [_ Hc0]%clean_opn [_ Hc1]%clean_opn.
          apply list.Forall_cons in Hc0 as [? _]. by apply list.Forall_cons in Hc1 as [? _].
        + intros th Hs. cbn. by intros [= -> _]. }
  assert (exists w1, weights s0 V1 m1 w1 /\ (w1 = w \/ measure U V1 m1 < measure U V m)%nat) as (w1 & Hw1 & Hor).
  { destruct (suc_progress _ _ _ _ _ _ _ _ _ _ (post_some _ _ _ _ _ _ _ _ _ _ _ HP z eq_refl)) as [Hlt|(Hw1 & _)];
      [|eauto]. destruct (post_weights _ _ _ _ _ _ _ _ _ _ _ HP) as [w1 Hw1]. eauto. }
  assert (measure U V1 m1 <= measure U V m)%nat as Hm1 by (by eapply post_measure).
  destruct (IHl ys Hl1 Hlen V1 m1 b1 w1) as (rs & V2 & m2 & b2 & He2 & HP2 & Hwr2); auto.
  { apply HP. }
  { destruct HQ2 as (_ & ? & ?). split_and!; auto. by apply HP. }
  { destruct Hor as [->|Hlt]; [|left; destruct Hb as [?|[? _]]; lia].
    destruct Hb as [?|[? Hk]]; [left; lia|right; split; [lia|]]. cbn in Hk. lia. }
  exists (cons z <$> rs), V2, m2, b2. split; [|split].
  - cbn [unify_operands]. eapply (ends_bind _ (fun n r => match r with None => ret None | Some z => _ end)); [exact He|].
    eapply (ends_bind _ (fun n rs => ret (cons z <$> rs))); [exact He2|]. by apply ends_const.
  - assert (Opn opr <$> (cons z <$> rs) = (fun ts => Opn opr (z :: ts)) <$> rs) as -> by (by destruct rs).
    by apply (post_cons V m opr x y z xs ys w w1 V1 m1 b1).
  - intros ts Hts. destruct rs as [ts'|]; [|done]. injection Hts as <-.
    destruct (Hwr2 ts' eq_refl) as [? Hlen2]. split; [|cbn; by rewrite Hlen2]. constructor; auto.
Qed.

(** Terms with different heads, or different constants, are not equal. *)
Definition unify_others (n : nat) (e0 e1 : ex) : M (option ex) :=
  if (cuex_meta e0 =? cuex_meta e1) && cuex_meta_is_opr (cuex_meta e0) then
    bind (read_operands e0) (fun xs => bind (read_operands e1) (fun ys =>
      bind (unify_operands (fun x y => unify n x y) xs ys) (fun rs => ret (Opn (cuex_meta e0) <$> rs))))
  else ret None.

Lemma others_run V m b w e0 e1 : good s0 V m b -> weights s0 V m w -> wf_ex e0 -> wf_ex e1 ->
  act s0 e0 = false -> act s0 e1 = false -> e0 <> e1 -> spans s0 V m (fun v => v ∈ U) e0 e1 ->
  (measure U V m <= N)%nat -> (wsize s0 w e0 + wsize s0 w e1 <= k)%nat ->
  runs (fun n => unify_others n e0 e1) V m b w e0 e1.
Proof.
  intros Hg Hw He0 He1 Ha0 Ha1 Hne HQ HN Hk. unfold unify_others.
  assert ((forall th, inst s0 th e0 <> inst s0 th e1) ->
    runs (fun _ => ret None) V m b w e0 e1) as Hfail.
  { intros Hn. apply runs_ret; [|done]. apply post_fail_here; auto. }
  destruct He0 as [meta0 a0 Hno0|opr0 xs Ho0 Hr0 Hl0]; destruct He1 as [meta1 a1 Hno1|opr1 ys Ho1 Hr1 Hl1];
    cbn [cuex_meta].
  - rewrite Hno0, andb_false_r. apply Hfail. intros th. cbn. unfold act in *. cbn in *. by rewrite Ha0, Ha1.
  - rewrite Hno0, andb_false_r. apply Hfail. intros th. cbn. unfold act in *. cbn in *. by rewrite Ha0.
  - destruct (Z.eqb_spec opr0 meta1) as [->|]; [congruence|]. apply Hfail. intros th. cbn.
    unfold act in *. cbn in *. by rewrite Ha1.
  - destruct (Z.eqb_spec opr0 opr1) as [<-|Hneo]; [|apply Hfail; intros th; cbn; congruence].
    rewrite Ho0. cbn [andb]. assert (length xs = length ys) as Hlen by lia.
    destruct (operands_run opr0 xs ys Hl0 Hl1 Hlen V m b w Hg Hw HQ) as (rs & V' & m' & b' & He & HP & Hwr).
    { right. split; [done|]. cbn in Hk. lia. }
    exists (Opn opr0 <$> rs), V', m', b'. split; [|split; [done|]].
    + apply (ends_eq _ (fun n => bind (unify_operands (fun x y => unify n x y) xs ys) (fun rs => ret (Opn opr0 <$> rs)))
        _ (stp V m b)).
      * intros n. rewrite (bind_st _ _ _ xs (stp V m b)) by (apply read_operands_opn; by constructor).
        by rewrite (bind_st _ _ _ ys (stp V m b)) by (apply read_operands_opn; by constructor).
      * eapply (ends_bind _ (fun n rs => ret (Opn opr0 <$> rs))); [exact He|]. by apply ends_const.
    + intros t Ht. destruct rs as [ts|]; [|done]. injection Ht as <-. destruct (Hwr ts eq_refl) as [? Hlt].
      constructor; [done|lia|done].
Qed.

(** One call. *)
Lemma unify_S n e0 e1 V m b : unify (S n) e0 e1 (stp V m b) =
  (if decide (e0 = e1) then ret (Some e0)
   else if act s0 e0 then
     bind (cuex_subst_mref p e0) (fun vq0 =>
       if act s0 e1 then bind (cuex_subst_mref p e1) (fun vq1 => after_mref_vars n e0 vq0 vq1)
       else after_mref_term n (fun v => unify n v e1) e0 e1 vq0)
   else if act s0 e1 then
     bind (cuex_subst_mref p e1) (fun vq1 => after_mref_term n (fun v => unify n e0 v) e1 e0 vq1)
   else bind (unify_others n e0 e1) ret) (stp V m b).
Proof.
  cbn [cuex_subst_unify_aux]. rewrite (bind_st _ _ _ _ _ (get_subst_st p s0 others V m b)).
  cbn [with_map clone_cnt is_idem]. rewrite Hclone, Hidem.
  rewrite (bind_st (cassert (1 =? 1)) _ _ tt (stp V m b)) by done.
  change (active (with_map m s0) (cuex_meta e0)) with (act s0 e0).
  change (active (with_map m s0) (cuex_meta e1)) with (act s0 e1).
  destruct (decide (e0 = e1)); [done|]. destruct (act s0 e0), (act s0 e1); try reflexivity.
  transitivity (bind (unify_others n e0 e1) (fun r => match r with Some _ => ret r | None => ret r end) (stp V m b)).
  { reflexivity. }
  unfold bind at 1 2. by destruct (unify_others n e0 e1 _) as [[[?|] ?]|].
Qed.

(** The class of a variable is looked up, or made, before the rest. *)
Lemma runs_mref (f : nat -> M (option ex)) (g : Z -> nat -> M (option ex)) V m b w e0 e1 v :
  good s0 V m b -> weights s0 V m w -> wf_ex v -> act s0 v = true -> v ∈ avars s0 e0 ∪ avars s0 e1 ->
  (forall n, f n (stp V m b) = bind (cuex_subst_mref p v) (fun vq => g vq n) (stp V m b)) ->
  (forall l V' m' b', knows V m b V' m' b' v -> good s0 V' m' b' -> weights s0 V' m' w ->
    m' !! v = Some l -> runs (g l) V' m' b' w e0 e1) ->
  runs f V m b w e0 e1.
Proof.
  intros Hg Hw Hv Ha Hin Hf Hrun.
  destruct (mref_st p s0 others Hsh V m b v Hg Ha Hv) as (V' & m' & b' & l & E & HK & Hl & Hg').
  assert (weights s0 V' m' w) as Hw' by (by apply (knows_weights s0 V m b V' m' b' v HK)).
  destruct (Hrun l V' m' b' HK Hg' Hw' Hl) as (r & V2 & m2 & b2 & He & HP & Hwr).
  exists r, V2, m2, b2. split; [|split; [|done]].
  - apply (ends_eq _ (g l) _ (stp V' m' b')); [|done]. intros n. by rewrite Hf, (bind_st _ _ _ _ _ E).
  - by apply (post_knows s0 U V m b V' m' b' v HK Hg).
Qed.

Lemma unify_step V m b w e0 e1 : good s0 V m b -> weights s0 V m w -> wf_ex e0 -> wf_ex e1 ->
  spans s0 V m (fun v => v ∈ U) e0 e1 -> (measure U V m <= N)%nat ->
  (wsize s0 w e0 + wsize s0 w e1 <= k)%nat -> runs (fun n => unify n e0 e1) V m b w e0 e1.
Proof.
  intros Hg Hw He0 He1 HQ HN Hk.
  assert (forall f, runs f V m b w e0 e1 -> (forall n, unify (S n) e0 e1 (stp V m b) = f n (stp V m b)) ->
    runs (fun n => unify n e0 e1) V m b w e0 e1) as Hstep.
  { intros f (r & V' & m' & b' & He & HP) E. exists r, V', m', b'. split; [|done].
    by apply (ends_step _ f _ (stp V m b)). }
  pose proof (fun n => unify_S n e0 e1 V m b) as HS.
  destruct (decide (e0 = e1)) as [->|Hne].
  { apply (Hstep (fun _ => ret (Some e1))); [|done]. apply runs_ret; [by apply post_unchanged|].
    by intros t [= <-]. }
  destruct HQ as (HcU & HU0 & HU1).
  destruct (act s0 e0) eqn:Ha0; [pose proof (avars_single s0 e0 _ He0 Ha0 HU0) as Hin0|];
    (destruct (act s0 e1) eqn:Ha1; [pose proof (avars_single s0 e1 _ He1 Ha1 HU1) as Hin1|]).
  - apply (Hstep (fun n => bind (cuex_subst_mref p e0) (fun vq0 => bind (cuex_subst_mref p e1)
      (fun vq1 => after_mref_vars n e0 vq0 vq1)))); [|exact HS].
    apply (runs_mref _ (fun l0 n => bind (cuex_subst_mref p e1) (fun l1 => after_mref_vars n e0 l0 l1))
      V m b w e0 e1 e0); auto.
    { rewrite (avars_act s0 e0) by done. set_solver. }
    intros l0 V1 m1 b1 HK1 Hg1 Hw1 Hl0.
    apply (runs_mref _ (fun l1 n => after_mref_vars n e0 l0 l1) V1 m1 b1 w e0 e1 e1); auto.
    { rewrite (avars_act s0 e1) by done. set_solver. }
    intros l1 V2 m2 b2 HK2 Hg2 Hw2 Hl1.
    apply (vars_known V2 m2 b2 w Hg2 Hw2 e0 e1 l0 l1); auto.
    { by rewrite (knows_ne _ _ _ _ _ _ _ HK2). }
    intros v0 v1 Hv0 Hv1. destruct (good_value _ _ _ _ Hg2 _ _ Hv0), (good_value _ _ _ _ Hg2 _ _ Hv1).
    pose proof (weights_value _ _ _ _ Hw2 _ _ Hv0). pose proof (weights_value _ _ _ _ Hw2 _ _ Hv1).
    assert (closed s0 V2 m2 (fun v => v ∈ U)) as Hc2.
    { apply (knows_closed s0 _ _ _ _ _ _ _ HK2), (knows_closed s0 _ _ _ _ _ _ _ HK1), HcU. }
    apply IH; auto.
    + split_and!; [done|intros u Hu; by apply (closed_value _ _ _ _ Hc2 e0 v0)|
        intros u Hu; by apply (closed_value _ _ _ _ Hc2 e1 v1)].
    + right. rewrite (knows_measure U _ _ _ _ _ _ _ HK2), (knows_measure U _ _ _ _ _ _ _ HK1).
      rewrite !wsize_act in Hk by done. split; [done|lia].
  - apply (Hstep (fun n => bind (cuex_subst_mref p e0) (fun vq0 =>
      after_mref_term n (fun v => unify n v e1) e0 e1 vq0))); [|exact HS].
    apply (runs_mref _ (fun l n => after_mref_term n (fun v => unify n v e1) e0 e1 l) V m b w e0 e1 e0); auto.
    { rewrite (avars_act s0 e0) by done. set_solver. }
    intros l V1 m1 b1 HK1 Hg1 Hw1 Hl. apply (term_known V1 m1 b1 w Hg1 Hw1 (fun n v => unify n v e1) e0 e1 l); auto.
    intros v0 Hv0. destruct (good_value _ _ _ _ Hg1 _ _ Hv0).
    pose proof (weights_value _ _ _ _ Hw1 _ _ Hv0).
    assert (closed s0 V1 m1 (fun v => v ∈ U)) as Hc1 by (apply (knows_closed s0 _ _ _ _ _ _ _ HK1), HcU).
    apply IH; auto.
    + split_and!; [done|intros u Hu; by apply (closed_value _ _ _ _ Hc1 e0 v0)|done].
    + right. rewrite (knows_measure U _ _ _ _ _ _ _ HK1). rewrite (wsize_act s0 w e0) in Hk by done.
      split; [done|lia].
  - apply (Hstep (fun n => bind (cuex_subst_mref p e1) (fun vq1 =>
      after_mref_term n (fun v => unify n e0 v) e1 e0 vq1))); [|exact HS].
    apply (runs_mref _ (fun l n => after_mref_term n (fun v => unify n e0 v) e1 e0 l) V m b w e0 e1 e1); auto.
    { rewrite (avars_act s0 e1) by done. set_solver. }
    intros l V1 m1 b1 HK1 Hg1 Hw1 Hl.
    assert (runs (fun n => after_mref_term n (fun v => unify n e0 v) e1 e0 l) V1 m1 b1 w e1 e0) as (r & V' & m' & b' & He & HP & Hwr).
    2:{ exists r, V', m', b'. split; [done|]. split; [by apply post_sym|done]. }
    apply (term_known V1 m1 b1 w Hg1 Hw1 (fun n v => unify n e0 v) e1 e0 l); auto.
    intros v1 Hv1. destruct (good_value _ _ _ _ Hg1 _ _ Hv1).
    pose proof (weights_value _ _ _ _ Hw1 _ _ Hv1).
    assert (closed s0 V1 m1 (fun v => v ∈ U)) as Hc1 by (apply (knows_closed s0 _ _ _ _ _ _ _ HK1), HcU).
    assert (runs (fun n => unify n e0 v1) V1 m1 b1 w e0 v1) as (r & V' & m' & b' & He & HP & Hwr).
    2:{ exists r, V', m', b'. split; [done|]. split; [by apply post_sym|done]. }
    apply IH; auto.
    + split_and!; [done..|intros u Hu; by apply (closed_value _ _ _ _ Hc1 e1 v1)].
    + right. rewrite (knows_measure U _ _ _ _ _ _ _ HK1). rewrite (wsize_act s0 w e1) in Hk by done.
      split; [done|lia].
  - destruct (others_run V m b w e0 e1) as (r & V' & m' & b' & He & HP); auto; [by split_and!|].
    apply (Hstep (fun n => bind (unify_others n e0 e1) ret)); [|done].
    exists r, V', m', b'. split; [|done]. eapply (ends_bind _ (fun _ => ret)); [exact He|]. by apply ends_const.
Qed.
End step.

(** Every call on a substitution without cycles ends, as [post] says. *)
Lemma unify_runs V m b w e0 e1 : good s0 V m b -> weights s0 V m w -> wf_ex e0 -> wf_ex e1 ->
  spans s0 V m (fun v => v ∈ U) e0 e1 -> runs (fun n => unify n e0 e1) V m b w e0 e1.
Proof.
  remember (measure U V m) as N eqn:EN. assert (measure U V m <= N)%nat as HN by lia. clear EN.
  remember (wsize s0 w e0 + wsize s0 w e1)%nat as k eqn:Ek.
  assert (wsize s0 w e0 + wsize s0 w e1 <= k)%nat as Hk by lia. clear Ek.
  revert k V m b w e0 e1 HN Hk. induction N as [N IHN] using lt_wf_ind.
  induction k as [k IHk] using lt_wf_ind. intros V m b w e0 e1 HN Hk Hg Hw He0 He1 HQ.
  apply (unify_step N k); auto. intros V' m' b' w' x y Hg' Hw' Hx Hy HQ' [Hlt|[Hle Hlt]].
  - by apply (IHN (measure U V' m') Hlt (wsize s0 w' x + wsize s0 w' y)%nat).
  - by apply (IHk (wsize s0 w' x + wsize s0 w' y)%nat).
Qed.

End unify.
