(* ===== verification/SubstOps.v ===== *)
(** * Substitutions: the theorems on unification and application

    [is_subst] holds of a new substitution, and unification keeps it.  Its solutions are
    the assignments that satisfy its equations; application computes the solution of
    which all others are instances. *)

From S2P Require Export SubstUnify.

(** A substitution that shadows no other, without cycles. *)
Record is_subst (h : store) (p : Z) (s : cuex_subst) : Prop := {
  is_subst_here : substs h !! p = Some s;
  is_subst_addr : p <> NULL;
  is_subst_owned : clone_cnt s = 1;
  is_subst_bottom : shadowed s = NULL;
  is_subst_idem : is_idem s = true;
  is_subst_good : good s (veqvs h) (var_to_veqv s) (brk h);
  is_subst_weights : exists w, weights s (veqvs h) (var_to_veqv s) w;
}.

Definition solution (h : store) (s : cuex_subst) (th : ex -> ex) : Prop :=
  solves s (fun _ => True) (veqvs h) (var_to_veqv s) th.

(** No variable of the substitution is blocked. *)
Definition unblocked (block : Z) (h : store) (s : cuex_subst) : Prop :=
  forall v t, val (veqvs h) (var_to_veqv s) v = Some t -> cuex_meta t <> block.

Lemma with_map_same s : with_map (var_to_veqv s) s = s.
Proof. by destruct s. Qed.

Lemma is_subst_store h p s : is_subst h p s ->
  h = st p s (substs h) (veqvs h) (var_to_veqv s) (brk h).
Proof.
  intros [Hs _ _ _ _ _ _]. unfold st. rewrite with_map_same, insert_id by done. by destruct h.
Qed.

(** What the terms and the equations depend on is only the set of quantifiers. *)
Lemma good_with_map s V m m' b : good (with_map m' s) V m b <-> good s V m b.
Proof. split; intros [H1 H2 H3 H4 H5]; split; auto. Qed.

Lemma inst_with_map s m th e : inst (with_map m s) th e = inst s th e.
Proof. done. Qed.

Lemma solves_with_map s Q V m m' th : solves (with_map m' s) Q V m th <-> solves s Q V m th.
Proof. split; intros [H1 H2]; split; auto. Qed.

Lemma weights_with_map s V m m' w : weights (with_map m' s) V m w <-> weights s V m w.
Proof. split; intros [H1 H2 H3]; split; auto. Qed.

(** A finite set of variables around terms and substitution. *)
Definition universe (h : store) (s : cuex_subst) (e0 e1 : ex) : gset ex :=
  dom (var_to_veqv s) ∪ avars s e0 ∪ avars s e1 ∪
  ⋃ (map (fun vl => default ∅ (avars s <$> val (veqvs h) (var_to_veqv s) vl.1)) (map_to_list (var_to_veqv s))).

Lemma universe_spans h s e0 e1 :
  spans s (veqvs h) (var_to_veqv s) (fun v => v ∈ universe h s e0 e1) e0 e1.
Proof.
  unfold universe. split_and!; [split| |].
  - intros u v Hu [->|(l & _ & Hv)]; [done|]. apply elem_of_dom_2 in Hv. set_solver.
  - intros v t u _ Ht Hu. apply elem_of_union. right. apply elem_of_union_list. exists (avars s t).
    split; [|done]. apply list_elem_of_fmap. unfold val in Ht.
    destruct (var_to_veqv s !! v) as [l|] eqn:El; [|done]. exists (v, l). cbn.
    split; [|by apply elem_of_map_to_list]. unfold val. by rewrite El, Ht.
  - intros v Hv. set_solver.
  - intros v Hv. set_solver.
Qed.

Section ops.
Context `{!PmapOrder}.
Implicit Types (h : store) (p : Z) (s : cuex_subst) (e : ex) (th : ex -> ex).

Lemma unify_spec h p s e0 e1 : is_subst h p s -> wf_ex e0 -> wf_ex e1 ->
  exists k r h' m', let s' := with_map m' s in
    (forall n, (k <= n)%nat -> cuex_subst_unify_aux None n p e0 e1 h = Some (r, h')) /\
    is_subst h' p s' /\
    (forall t, r = Some t -> wf_ex t /\ forall th,
        (solution h' s' th <-> solution h s th /\ inst s th e0 = inst s th e1) /\
        (solution h' s' th -> inst s th t = inst s th e0)) /\
    (r = None -> forall th, solution h s th -> inst s th e0 <> inst s th e1) /\
    forall ok, clean_values ok (veqvs h) (var_to_veqv s) -> clean ok e0 -> clean ok e1 ->
      clean_values ok (veqvs h') m'.
Proof.
  intros Hs He0 He1. pose proof Hs as [_ Hp Hc Hb Hi Hg [w Hw]].
  destruct (unify_runs p s (substs h) (universe h s e0 e1) Hp Hc Hb Hi _ _ _ w e0 e1 Hg Hw He0 He1
    (universe_spans h s e0 e1)) as (r & V' & m' & b' & [k Hk] & HP & Hwr).
  exists k, r, (st p s (substs h) V' m' b'), m'. cbn zeta.
  rewrite <- is_subst_store in Hk by done. split; [done|]. split; [|split; [|split]].
  - split; cbn; try done.
    + by rewrite lookup_insert_eq.
    + apply good_with_map, HP.
    + destruct (post_weights _ _ _ _ _ _ _ _ _ _ _ HP) as [w' Hw']. exists w'. by apply weights_with_map.
  - intros t ->. split; [by apply Hwr|]. intros th. unfold solution. cbn. rewrite solves_with_map.
    pose proof (post_some _ _ _ _ _ _ _ _ _ _ _ HP t eq_refl) as HS.
    pose proof (spans_true s (veqvs h) (var_to_veqv s) e0 e1) as HT.
    split; [by apply (suc_solves _ _ _ _ _ _ _ _ _ _ HS)|by apply (suc_inst _ _ _ _ _ _ _ _ _ _ HS)].
  - intros -> th. by apply (post_none _ _ _ _ _ _ _ _ _ _ _ HP).
  - intros ok Hv H0 H1. by apply (post_clean _ _ _ _ _ _ _ _ _ _ _ HP).
Qed.

(** C2: on a substitution that is idempotent (is_idem), is owned by one reference (clone_cnt is 1, so that
    no clone shares it), shadows no other substitution, and has no cycles, with enough fuel,
    [cuex_subst_unify_aux] without an auxiliary function returns, and leaves a substitution of the same
    kind: when it returns an expression, the solutions afterwards are the
    solutions before that make the two expressions equal, and the result is equal to them in each;
    when it returns [NULL], no solution makes the expressions equal.  Clones, substitutions that shadow
    others, and those that are not idempotent are outside of the statement: for clones it fails, since
    a merge of classes can lose bindings of the shadowed substitution. *)
Theorem unify_aux_correct h p s e0 e1 (Hs : is_subst h p s) (He0 : wf_ex e0) (He1 : wf_ex e1) :
  exists k r h' m', let s' := with_map m' s in
    (forall n, (k <= n)%nat -> cuex_subst_unify_aux None n p e0 e1 h = Some (r, h')) /\
    is_subst h' p s' /\
    match r with
    | Some t => forall th,
        (solution h' s' th <-> solution h s th /\ inst s th e0 = inst s th e1) /\
        (solution h' s' th -> inst s th t = inst s th e0)
    | None => forall th, solution h s th -> inst s th e0 <> inst s th e1
    end.
Proof.
  destruct (unify_spec h p s e0 e1 Hs He0 He1) as (k & r & h' & m' & Hk & Hs' & Hsome & Hnone & _).
  exists k, r, h', m'. split_and!; [done..|]. destruct r as [t|]; [by apply Hsome|by apply Hnone].
Qed.

(** *** Application *)

Lemma ends_map_operands (f : nat -> ex -> M ex) (F : ex -> ex) h xs :
  Forall (fun x => ends (fun n => f n x) h (F x) h) xs ->
  ends (fun n => map_operands (f n) xs) h (map F xs) h.
Proof.
  induction 1 as [|x xs Hx _ IH]; [by apply ends_const|]. cbn [map_operands map].
  apply (ends_bind _ (fun n y => bind (map_operands (f n) xs) (fun l => ret (y :: l))) _ (F x) h); [done|].
  apply (ends_bind _ (fun n l => ret (F x :: l)) _ (map F xs) h); [done|]. by apply ends_const.
Qed.

Lemma ends_changed_operands (f : nat -> ex -> M ex) (F : ex -> ex) h xs :
  Forall (fun x => ends (fun n => f n x) h (F x) h) xs ->
  ends (fun n => changed_operands (f n) xs) h (if decide (map F xs = xs) then None else Some (map F xs)) h.
Proof.
  induction 1 as [|x xs Hx Hxs IH]; [by apply ends_const|]. cbn [changed_operands map].
  apply (ends_bind _ (fun n y => if decide (x = y)
    then bind (changed_operands (f n) xs) (fun r => ret (cons x <$> r))
    else bind (map_operands (f n) xs) (fun l => ret (Some (y :: l)))) _ (F x) h); [done|].
  destruct (decide (x = F x)) as [E|E].
  - rewrite <- E. eapply (ends_bind _ (fun n r => ret (cons x <$> r))); [exact IH|].
    apply ends_const. destruct (decide (map F xs = xs)) as [E'|E'].
    + rewrite decide_True by congruence. done.
    + rewrite decide_False by congruence. done.
  - rewrite decide_False by congruence.
    apply (ends_bind _ (fun n l => ret (Some (F x :: l))) _ (map F xs) h); [by apply ends_map_operands|].
    by apply ends_const.
Qed.

Lemma ends_tran_opn (f : nat -> ex -> M ex) (F : ex -> ex) h opr args : wf_ex (Opn opr args) ->
  Forall (fun x => ends (fun n => f n x) h (F x) h) args ->
  ends (fun n => tran_opn (f n) (Opn opr args)) h (Opn opr (map F args)) h.
Proof.
  intros Hwf Hf. apply (ends_eq _ (fun n => bind (changed_operands (f n) args)
    (fun r => match r with None => ret (Opn opr args) | Some l => ret (Opn opr l) end)) _ h).
  { intros n. unfold tran_opn. by rewrite (bind_st _ _ _ args h) by (by apply read_operands_opn). }
  eapply (ends_bind _ (fun n r => match r with None => ret (Opn opr args) | Some l => ret (Opn opr l) end));
    [by apply ends_changed_operands|].
  apply ends_const. destruct (decide (map F args = args)) as [E|]; [by rewrite E|done].
Qed.

Section apply.
Context (block : Z) h p s (Hs : is_subst h p s) (Hub : unblocked block h s).
Context (w : ex -> nat) (Hw : weights s (veqvs h) (var_to_veqv s) w).

(** The most general solution. *)
Definition mgs (v : ex) : ex := resolve s (veqvs h) (var_to_veqv s) (w v) v.

Lemma cref_here v : cuex_subst_cref p v h = Some (default NULL (var_to_veqv s !! v), h).
Proof using Hs.
  pose proof Hs as [_ Hp _ Hb _ _ _]. pose proof (cref_st p s (substs h) Hp Hb (veqvs h) (var_to_veqv s) (brk h) v) as E.
  by rewrite <- is_subst_store in E.
Qed.

Lemma get_veqv_here l q : veqvs h !! l = Some q -> get_veqv l h = Some (q, h).
Proof using. intros Hq. unfold get_veqv. by rewrite Hq. Qed.

Lemma mgs_value v t : val (veqvs h) (var_to_veqv s) v = Some t -> mgs v = inst s mgs t.
Proof using Hs Hw.
  pose proof Hs as [_ _ _ _ _ Hg _]. apply (solves_value _ _ _ _ _ (resolve_solves s _ _ _ w Hg Hw) v t I).
Qed.

Lemma mgs_no_value v : val (veqvs h) (var_to_veqv s) v = None -> mgs v = primary (veqvs h) (var_to_veqv s) v.
Proof using Hw.
  intros Hv. unfold mgs. pose proof (weights_pos _ _ _ _ Hw v). destruct (w v); [lia|]. cbn. by rewrite Hv.
Qed.

Lemma subst_apply_ends e : wf_ex e ->
  ends (fun n => subst_apply block n p e) h (inst s mgs e) h.
Proof using Hs Hub Hw.
  pose proof Hs as [_ Hp _ Hb _ Hg _].
  remember (wsize s w e) as k eqn:Ek. revert e Ek.
  induction k as [k IH] using lt_wf_ind. intros e Ek He.
  destruct He as [meta a Hno|opr args Ho Hr Hargs].
  - assert (forall z, ends (fun n => match var_to_veqv s !! Obj meta a with None => ret (Obj meta a)
        | Some l => bind (get_veqv l) (fun q => match value q with
           | Some v => subst_apply block n p v | None => veqv_primary_var q end) end) h z h ->
      cuex_is_varmeta meta = true -> ends (fun n => subst_apply block n p (Obj meta a)) h z h) as Hvar.
    { intros z Hz Hvm. eapply ends_step; [|exact Hz]. intros n. cbn [subst_apply cuex_meta]. rewrite Hvm.
      rewrite (bind_st _ _ _ _ _ (cref_here (Obj meta a))).
      destruct (var_to_veqv s !! Obj meta a) as [l|] eqn:El; cbn [from_option id]; [|done].
      destruct (good_class _ _ _ _ Hg _ l El) as (q & Hq & _ & _ & Hnz).
      rewrite (proj2 (Z.eqb_neq _ _) Hnz), !(bind_st _ _ _ _ _ (get_veqv_here l q Hq)).
      destruct (value q) as [v|] eqn:Ev; [|done].
      assert (val (veqvs h) (var_to_veqv s) (Obj meta a) = Some v) as Hval.
      { unfold val. rewrite El. cbn. by rewrite Hq. }
      by rewrite (proj2 (Z.eqb_neq _ _) (Hub _ v Hval)). }
    cbn [inst]. destruct (active s meta) eqn:Ha.
    + assert (cuex_is_varmeta meta = true) as Hvm by (unfold active in Ha; by apply andb_true_iff in Ha as [? _]).
      apply Hvar; [|done]. destruct (var_to_veqv s !! Obj meta a) as [l|] eqn:El.
      * destruct (good_class _ _ _ _ Hg _ l El) as (q & Hq & _ & _ & Hnz).
        assert (val (veqvs h) (var_to_veqv s) (Obj meta a) = value q) as Hval.
        { unfold val. rewrite El. cbn. by rewrite Hq. }
        apply (ends_eq _ (fun n => match value q with Some v => subst_apply block n p v | None => veqv_primary_var q end) _ h).
        { intros n. by rewrite (bind_st _ _ _ _ _ (get_veqv_here l q Hq)). }
        destruct (value q) as [v|] eqn:Ev.
        -- rewrite (mgs_value _ v Hval). destruct (good_value _ _ _ _ Hg _ v Hval) as [Hwv _].
           apply (IH (wsize s w v)); [|done..].
           rewrite Ek. cbn. rewrite Ha. by apply (weights_value _ _ _ _ Hw).
        -- rewrite (mgs_no_value _ Hval). apply ends_const. unfold veqv_primary_var, primary. rewrite El, Hq.
           destruct (good_class _ _ _ _ Hg _ l El) as (q' & Hq' & Hin & _). simplify_eq.
           destruct (var_link q); [set_solver|done].
      * apply ends_const. rewrite mgs_no_value by (unfold val; by rewrite El). unfold primary. by rewrite El.
    + destruct (cuex_is_varmeta meta) eqn:Hvm.
      * apply Hvar; [|done]. destruct (var_to_veqv s !! Obj meta a) as [l|] eqn:El; [|by apply ends_const].
        destruct (good_key _ _ _ _ Hg _ l El) as [Hact _]. unfold act in Hact. cbn in Hact. congruence.
      * apply (ends_step _ (fun _ => ret (Obj meta a)) _ h); [|by apply ends_const].
        intros n. cbn [subst_apply cuex_meta]. by rewrite Hvm, Hno.
  - apply (ends_step _ (fun n => tran_opn (subst_apply block n p) (Opn opr args)) _ h).
    { intros n. cbn [subst_apply cuex_meta]. rewrite Ho. destruct (cuex_is_varmeta opr) eqn:Hvm; [|done].
      apply varmeta_not_opr in Hvm. congruence. }
    cbn [inst]. apply ends_tran_opn; [by constructor|]. apply list.Forall_forall. intros x Hx.
    rewrite list.Forall_forall in Hargs. apply (IH (wsize s w x)); [|done|by apply Hargs].
    rewrite Ek. by apply wsize_arg.
Qed.

Lemma mgs_general th e : wf_ex e -> solution h s th -> inst s th (inst s mgs e) = inst s th e.
Proof using Hs.
  intros He Hth. pose proof Hs as [_ _ _ _ _ Hg _]. rewrite inst_inst. apply inst_ext. intros v Hv.
  destruct (avars_act_in s e v Hv) as [Ha (meta & a & ->)].
  apply (resolve_general s _ _ th _ _ _ Hg Hth Ha). constructor. by apply (act_not_opr s (Obj meta a)).
Qed.
End apply.

Lemma apply_spec block h p s : is_subst h p s -> unblocked block h s ->
  exists sigma, solution h s sigma /\
    (forall e, wf_ex e -> exists k, forall n, (k <= n)%nat ->
      cuex_subst_apply block n p e h = Some (inst s sigma e, h)) /\
    forall th e, wf_ex e -> solution h s th -> inst s th (inst s sigma e) = inst s th e.
Proof.
  intros Hs Hub. pose proof Hs as [Hh Hp _ _ Hi Hg [w Hw]]. exists (mgs h s w).
  split; [by apply (resolve_solves s _ _ (brk h))|]. split.
  - intros e He. destruct (subst_apply_ends block h p s Hs Hub w Hw e He) as [k Hk]. exists k. intros n Hn.
    unfold cuex_subst_apply. rewrite (proj2 (Z.eqb_neq _ _) Hp).
    rewrite (bind_st _ _ _ s h) by (unfold get_subst; by rewrite Hh). rewrite Hi. by apply Hk.
  - intros th e He Hth. by apply (mgs_general h p s Hs w th e).
Qed.

(** C37: applying a substitution that is idempotent (is_idem), is owned by one reference (clone_cnt is 1),
    shadows no other substitution, has no cycles, and is unblocked (no class has a value with the
    blocking operator), returns, with enough fuel and with the store as it was, the expression under one
    solution of its equations, of which every other solution is an instance.  Nothing is stated of
    clones and of substitutions that shadow others: there the search for a variable may change the store. *)
Theorem subst_apply_correct block h p s (Hs : is_subst h p s) (Hub : unblocked block h s) :
  exists sigma, solution h s sigma /\
    forall e, wf_ex e ->
      (exists k, forall n, (k <= n)%nat -> cuex_subst_apply block n p e h = Some (inst s sigma e, h)) /\
      forall th, solution h s th -> inst s th (inst s sigma e) = inst s th e.
Proof.
  destruct (apply_spec block h p s Hs Hub) as (sigma & H1 & H2 & H3). exists sigma. eauto.
Qed.

(** *** A new substitution *)

Definition store_ok h : Prop := 0 < brk h /\ forall l q, veqvs h !! l = Some q -> l < brk h.

Lemma val_empty (V : gmap Z cuex_veqv) v : val V ∅ v = None.
Proof. unfold val. by rewrite lookup_empty. Qed.

Lemma new_subst_ok qcs h : store_ok h -> exists h', cuex_subst_new qcs h = Some (brk h, h') /\
  is_subst h' (brk h) (subst_init NULL qcs true) /\ forall th, solution h' (subst_init NULL qcs true) th.
Proof.
  intros [Hb Hv]. eexists. split; [done|]. split.
  - split; cbn; try done; [by rewrite lookup_insert_eq|unfold NULL; lia|split; cbn|].
    + done.
    + done.
    + intros v t. by rewrite val_empty.
    + intros l q Hq. pose proof (Hv l q Hq). lia.
    + lia.
    + exists (fun _ => 1%nat). split; [lia|done|]. intros v t. by rewrite val_empty.
  - intros th. split.
    + intros u v _ [->|(l & Hu & _)]; [done|]. cbn in Hu. by rewrite lookup_empty in Hu.
    + intros v t _. cbn. by rewrite val_empty.
Qed.

(** C1: unifying two expressions (without the blocking operator) under a new substitution
    returns, with enough fuel; it returns true only if some assignment of terms to the
    variables of the active quantifiers makes them equal, and then applying the
    substitution to any expression gives its instance under a most general one of these. *)
Theorem unify_most_general block qcs h e0 e1 (Hb : cuex_meta_is_opr block = true)
  (Hh : store_ok h) (He0 : wf_ex e0) (He1 : wf_ex e1)
  (Hc0 : clean (fun opr => opr <> block) e0) (Hc1 : clean (fun opr => opr <> block) e1) :
  let s := subst_init NULL qcs true in
  exists h1 k r h2, cuex_subst_new qcs h = Some (brk h, h1) /\
    (forall n, (k <= n)%nat -> cuex_subst_unify n (brk h) e0 e1 h1 = Some (r, h2)) /\
    if r then exists sigma, inst s sigma e0 = inst s sigma e1 /\
      (forall e, wf_ex e -> exists k', forall n, (k' <= n)%nat ->
        cuex_subst_apply block n (brk h) e h2 = Some (inst s sigma e, h2)) /\
      forall th, inst s th e0 = inst s th e1 -> forall e, wf_ex e -> inst s th (inst s sigma e) = inst s th e
    else forall th, inst s th e0 <> inst s th e1.
Proof.
  cbn zeta. set (s := subst_init NULL qcs true).
  destruct (new_subst_ok qcs h Hh) as (h1 & E1 & Hs & Hall). fold s in Hs, Hall.
  destruct (unify_spec h1 (brk h) s e0 e1 Hs He0 He1) as (k & r & h2 & m' & Hk & Hs' & Hsome & Hnone & Hcl).
  exists h1, k, (bool_decide (is_Some r)), h2. split; [done|]. split.
  { intros n Hn. unfold cuex_subst_unify. by rewrite (bind_st _ _ _ _ _ (Hk n Hn)). }
  destruct r as [t|]; cbn.
  2:{ intros th. by apply Hnone. }
  destruct (Hsome t eq_refl) as [_ Hsol].
  assert (clean_values (fun opr => opr <> block) (veqvs h2) m') as Hcv.
  { apply Hcl; [|done..]. intros v t'. cbn. by rewrite val_empty. }
  destruct (apply_spec block h2 (brk h) (with_map m' s) Hs') as (sigma & H1 & H2 & H3).
  { intros v t' Ht' E. destruct Hs' as [_ _ _ _ _ Hg _]. destruct (good_value _ _ _ _ Hg v t' Ht') as [Hwt _].
    specialize (Hcv v t' Ht'). destruct Hwt as [meta a Hno|opr args]; cbn in *; [|by destruct Hcv].
    congruence. }
  exists sigma. split_and!.
  - by apply (Hsol sigma).
  - done.
  - intros th Heq e He. apply H3; [done|]. by apply Hsol.
Qed.

(** *** Lookup and free variables *)

Lemma lookup_correct block h p s v : is_subst h p s -> unblocked block h s ->
  cuex_subst_lookup block p v h = Some (match val (veqvs h) (var_to_veqv s) v with
    | Some t => Some t
    | None => l ← var_to_veqv s !! v; q ← veqvs h !! l;
        match var_link q with u :: _ :: _ => Some u | _ => None end
    end, h).
Proof.
  intros Hs Hub. pose proof Hs as [_ _ _ _ _ Hg _]. unfold cuex_subst_lookup.
  rewrite (bind_st _ _ _ _ _ (cref_here h p s Hs v)). unfold val.
  destruct (var_to_veqv s !! v) as [l|] eqn:El; cbn [from_option id mbind option_bind]; [|done].
  destruct (good_class _ _ _ _ Hg v l El) as (q & Hq & Hin & _ & Hnz).
  rewrite (proj2 (Z.eqb_neq _ _) Hnz), (bind_st _ _ _ _ _ (get_veqv_here h l q Hq)), Hq.
  cbn [mbind option_bind]. unfold primary_if_many. destruct (value q) as [t|] eqn:Et.
  - assert (val (veqvs h) (var_to_veqv s) v = Some t) as Hv by (unfold val; rewrite El; cbn; by rewrite Hq).
    by rewrite (proj2 (Z.eqb_neq _ _) (Hub v t Hv)).
  - destruct (var_link q) as [|u [|u' us]]; [set_solver|done..].
Qed.

Lemma ends_conj (c : nat -> ex -> M bool) (P : ex -> Prop) h xs :
  Forall (fun x => exists r, ends (fun n => c n x) h r h /\ (r = true <-> P x)) xs ->
  exists r, ends (fun n => conj_operands (c n) xs) h r h /\ (r = true <-> Forall P xs).
Proof.
  induction 1 as [|x xs (r & Hr & HP) _ (r' & Hr' & HP')].
  - exists true. split; [by apply ends_const|]. split; [constructor|done].
  - destruct r.
    + exists r'. split; [by apply (ends_bind _ (fun n (c0 : bool) => if c0 then conj_operands (c n) xs else ret false) _ true h)|].
      rewrite list.Forall_cons, HP'. naive_solver.
    + exists false. split; [|rewrite list.Forall_cons; naive_solver].
      apply (ends_bind _ (fun n (c0 : bool) => if c0 then conj_operands (c n) xs else ret false) _ false h); [done|].
      by apply ends_const.
Qed.

Lemma elem_of_rest_then_first (xs : list ex) x : x ∈ rest_then_first xs <-> x ∈ xs.
Proof. destruct xs as [|y xs]; cbn; [done|]. set_solver. Qed.

Section free_vars.
Context (block : Z) h p s (Hs : is_subst h p s) (Hub : unblocked block h s).
Context (w : ex -> nat) (Hw : weights s (veqvs h) (var_to_veqv s) w).
Notation sigma := (mgs h s w).

Lemma free_vars_conj_ends (c : ex -> bool) e : wf_ex e ->
  exists r, ends (fun n => cuex_subst_free_vars_conj block n p e (fun v => ret (c v))) h r h /\
    (r = true <-> forall v, v ∈ avars s (inst s sigma e) -> c v = true).
Proof using Hs Hub Hw.
  pose proof Hs as [Hh Hp _ _ _ Hg _].
  remember (wsize s w e) as k eqn:Ek. revert e Ek.
  induction k as [k IH] using lt_wf_ind. intros e Ek He.
  destruct He as [meta a Hno|opr args Ho Hr Hargs].
  - assert (forall n, cuex_subst_free_vars_conj block (S n) p (Obj meta a) (fun v => ret (c v)) h =
      (if active s meta then
         match var_to_veqv s !! Obj meta a with
         | None => ret (c (Obj meta a))
         | Some l => bind (get_veqv l) (fun q => match value q with
             | Some v => cuex_subst_free_vars_conj block n p v (fun v => ret (c v))
             | None => bind (veqv_primary_var q) (fun rv => ret (c rv)) end)
         end else ret true) h) as HS.
    { intros n. cbn [cuex_subst_free_vars_conj cuex_meta]. rewrite Hno.
      rewrite (bind_st _ _ _ s h) by (unfold get_subst; by rewrite Hh).
      destruct (active s meta); [|done]. rewrite (bind_st _ _ _ _ _ (cref_here h p s Hs (Obj meta a))).
      destruct (var_to_veqv s !! Obj meta a) as [l|] eqn:El; cbn [from_option id]; [|done].
      destruct (good_class _ _ _ _ Hg _ l El) as (q & Hq & _ & _ & Hnz).
      rewrite (proj2 (Z.eqb_neq _ _) Hnz), !(bind_st _ _ _ _ _ (get_veqv_here h l q Hq)).
      destruct (value q) as [v|] eqn:Ev; [|done].
      assert (val (veqvs h) (var_to_veqv s) (Obj meta a) = Some v) as Hval.
      { unfold val. rewrite El. cbn. by rewrite Hq. }
      by rewrite (proj2 (Z.eqb_neq _ _) (Hub _ v Hval)). }
    cbn [inst]. destruct (active s meta) eqn:Ha.
    2:{ exists true. split; [|cbn; rewrite Ha; set_solver].
        apply (ends_step _ (fun _ => ret true) _ h); [intros n; by rewrite HS|by apply ends_const]. }
    assert (forall u, act s u = true -> wf_ex u -> sigma (Obj meta a) = u ->
      c u = true <-> forall v, v ∈ avars s (sigma (Obj meta a)) -> c v = true) as Hone.
    { intros u Hau Hwu ->. rewrite avars_act by done. set_solver. }
    destruct (var_to_veqv s !! Obj meta a) as [l|] eqn:El.
    + destruct (good_class _ _ _ _ Hg _ l El) as (q & Hq & Hin & Hall & Hnz).
      assert (val (veqvs h) (var_to_veqv s) (Obj meta a) = value q) as Hval.
      { unfold val. rewrite El. cbn. by rewrite Hq. }
      destruct (value q) as [v|] eqn:Ev.
      * destruct (good_value _ _ _ _ Hg _ v Hval) as [Hwv _].
        destruct (IH (wsize s w v)) with (e := v) as (r & Hr & HP); [|done..|].
        { rewrite Ek. cbn. rewrite Ha. by apply (weights_value _ _ _ _ Hw). }
        exists r. split; [|by rewrite (mgs_value h p s Hs w Hw _ v Hval)].
        eapply ends_step; [|exact Hr]. intros n. rewrite HS.
        by rewrite (bind_st _ _ _ _ _ (get_veqv_here h l q Hq)), Ev.
      * destruct (var_link q) as [|u us] eqn:Evl; [set_solver|].
        destruct (good_key _ _ _ _ Hg u l) as [Hau Hwu]; [apply Hall; by left|].
        exists (c u). split.
        -- apply (ends_step _ (fun _ => ret (c u)) _ h); [|by apply ends_const]. intros n. rewrite HS.
           rewrite (bind_st _ _ _ _ _ (get_veqv_here h l q Hq)), Ev. unfold veqv_primary_var. by rewrite Evl.
        -- apply Hone; [done..|]. rewrite (mgs_no_value h s w Hw _ Hval). unfold primary. by rewrite El, Hq, Evl.
    + exists (c (Obj meta a)). split.
      * apply (ends_step _ (fun _ => ret (c (Obj meta a))) _ h); [intros n; by rewrite HS|by apply ends_const].
      * apply Hone; [done|by constructor|]. rewrite (mgs_no_value h s w Hw) by (unfold val; by rewrite El).
        unfold primary. by rewrite El.
  - destruct (ends_conj (fun n x => cuex_subst_free_vars_conj block n p x (fun v => ret (c v)))
      (fun x => forall v, v ∈ avars s (inst s sigma x) -> c v = true) h (rest_then_first args)) as (r & He & HP).
    { apply list.Forall_forall. intros x Hx. apply (proj1 (elem_of_rest_then_first _ _)) in Hx. rewrite list.Forall_forall in Hargs.
      apply (IH (wsize s w x)); [|done|by apply Hargs]. rewrite Ek. by apply wsize_arg. }
    exists r. split.
    + eapply ends_step; [|exact He]. intros n. cbn [cuex_subst_free_vars_conj cuex_meta]. rewrite Ho.
      by rewrite (bind_st _ _ _ args h) by (apply read_operands_opn; by constructor).
    + rewrite HP. rewrite list.Forall_forall. setoid_rewrite elem_of_rest_then_first.
      cbn [inst]. setoid_rewrite elem_of_avars_opn. split.
      * intros Hc v (y & (x & -> & Hx)%list_elem_of_fmap & Hv). by apply (Hc x).
      * intros Hc x Hx v Hv. apply Hc. exists (inst s sigma x). split; [|done]. apply list_elem_of_fmap. eauto.
Qed.
End free_vars.

(** *** The identity test

    [while (subst)] does not go on to the substitution below. *)

Definition identity h s : Prop := forall v l, var_to_veqv s !! v = Some l ->
  exists q u, veqvs h !! l = Some q /\ value q = None /\ var_link q = [u].

Lemma conj_list_identity h xs : (forall v l, (v, l) ∈ xs -> exists q u, veqvs h !! l = Some q /\
    value q = None /\ var_link q = [u]) -> conj_list subst_is_identity_cb xs h = Some (true, h).
Proof.
  induction xs as [|[v l] xs IH]; intros Hx; [done|]. cbn [conj_list].
  destruct (Hx v l) as (q & u & Hq & Hv & Hl); [by left|].
  rewrite (bind_st _ _ _ true h).
  - apply IH. intros v' l' Hin. apply (Hx v' l'). by right.
  - unfold subst_is_identity_cb, bind, get_veqv, veqv_primary_var. by rewrite Hq, Hv, Hl.
Qed.

(** The test whether a substitution is the identity never returns when it is. *)
Theorem subst_is_identity_never_ends h p s fuel (Hp : p <> NULL) (Hs : substs h !! p = Some s)
  (Hi : identity h s) : cuex_subst_is_identity fuel p h = None.
Proof.
  induction fuel as [|fuel IH]; [done|]. cbn [cuex_subst_is_identity].
  rewrite (proj2 (Z.eqb_neq _ _) Hp).
  rewrite (bind_st _ _ _ s h) by (unfold get_subst; by rewrite Hs).
  rewrite (bind_st _ _ _ true h); [done|]. apply conj_list_identity. intros v l Hin.
  apply (Hi v). apply elem_of_map_to_list. by rewrite <- pmap_elems_perm.
Qed.

(** *** Cyclic substitutions

    Without the occur check, two variables can be bound to terms that contain them;
    then their unification does not end. *)

Lemma unify_cyclic h p s opr x0 x1 l0 l1 q0 q1 fuel : substs h !! p = Some s -> clone_cnt s = 1 ->
  is_idem s = false -> wf_ex (Opn opr [x0]) -> wf_ex (Opn opr [x1]) -> active s opr = false ->
  active s (cuex_meta x0) = true -> active s (cuex_meta x1) = true -> x0 <> x1 -> l0 <> l1 ->
  var_to_veqv s !! x0 = Some l0 -> var_to_veqv s !! x1 = Some l1 ->
  veqvs h !! l0 = Some q0 -> veqvs h !! l1 = Some q1 ->
  value q0 = Some (Opn opr [x0]) -> value q1 = Some (Opn opr [x1]) ->
  cuex_subst_unify_aux None fuel p x0 x1 h = None /\
  cuex_subst_unify_aux None fuel p (Opn opr [x0]) (Opn opr [x1]) h = None.
Proof.
  intros Hs Hc Hi Hw0 Hw1 Hao Ha0 Ha1 Hne Hnl Hx0 Hx1 Hq0 Hq1 Hv0 Hv1.
  assert (get_subst p h = Some (s, h)) as Hg by (unfold get_subst; by rewrite Hs).
  assert (get_veqv l0 h = Some (q0, h) /\ get_veqv l1 h = Some (q1, h)) as [Hg0 Hg1].
  { unfold get_veqv. by rewrite Hq0, Hq1. }
  assert (forall x l, var_to_veqv s !! x = Some l -> cuex_subst_mref p x h = Some (l, h)) as Hm.
  { intros x l Hx. unfold cuex_subst_mref. by rewrite (bind_st _ _ _ _ _ Hg), Hx. }
  induction fuel as [|fuel [IH1 IH2]]; [done|].
  split; cbn [cuex_subst_unify_aux]; rewrite (bind_st _ _ _ _ _ Hg), Hc;
    rewrite (bind_st (cassert (1 =? 1)) _ _ tt h) by done; rewrite decide_False by congruence.
  - rewrite Ha0, Ha1, (bind_st _ _ _ _ _ (Hm x0 l0 Hx0)), (bind_st _ _ _ _ _ (Hm x1 l1 Hx1)).
    rewrite (proj2 (Z.eqb_neq _ _) Hnl), (bind_st _ _ _ _ _ Hg0), (bind_st _ _ _ _ _ Hg1), Hi.
    rewrite (bind_st (ret false) _ _ false h) by done. rewrite Hv0, Hv1. unfold bind at 1 2. by rewrite IH2.
  - cbn [cuex_meta]. rewrite Hao, Z.eqb_refl. inversion Hw0 as [|? ? Ho _ _]; subst. rewrite Ho. cbn [andb].
    unfold bind at 1 2. rewrite (read_operands_opn _ _ _ Hw0). unfold bind at 1.
    rewrite (read_operands_opn _ _ _ Hw1). cbn [unify_operands]. unfold bind at 1 2. by rewrite IH1.
Qed.

End ops.

(** ** Runs *)

Module Runs.
#[local] Instance pmap_order : PmapOrder :=
  {| pmap_elems m := map_to_list m; pmap_elems_perm m := reflexivity _ |}.

Definition block : Z := cuex_opr 100 1.
Definition f (x y : ex) : ex := Opn (cuex_opr 1 2) [x; y].
Definition g (x : ex) : ex := Opn (cuex_opr 2 1) [x].
Definition var (i : Z) : ex := Obj (cuex_varmeta_kqi cuex_varkind_svar cuex_qcode_u 0) i.
Definition h0 : store := mk_store ∅ ∅ 100.

Definition s1 : cuex_subst := subst_init NULL cuex_qcset_uw true.
Definition h1 : store := mk_store ∅ {[100 := s1]} 101.

(** The results of a computation. *)
Definition result {A} (m : M A) : option A := fst <$> m h0.
#[local] Open Scope subst_scope.

Lemma wf_f x y : wf_ex x -> wf_ex y -> wf_ex (f x y).
Proof. intros. constructor; [done..|]. by repeat constructor. Qed.
Lemma wf_g x : wf_ex x -> wf_ex (g x).
Proof. intros. constructor; [done..|]. by repeat constructor. Qed.
Lemma wf_var i : wf_ex (var i).
Proof. by constructor. Qed.
#[local] Hint Resolve wf_f wf_g wf_var : core.

Lemma h0_ok : store_ok h0.
Proof. split; [done|]. intros l q Hq. change (veqvs h0) with (∅ : gmap Z cuex_veqv) in Hq. by rewrite lookup_empty in Hq. Qed.

Lemma h1_ok : is_subst h1 100 s1.
Proof. destruct (new_subst_ok cuex_qcset_uw h0 h0_ok) as (h & E & Hs & _). by inversion E; subst h. Qed.

Lemma unify_aux_correct_witness :
  exists k r h' m', let s' := with_map m' s1 in
    (forall n, (k <= n)%nat ->
      cuex_subst_unify_aux None n 100 (f (var 1) (g (var 2))) (f (var 2) (var 3)) h1 = Some (r, h')) /\
    is_subst h' 100 s' /\
    match r with
    | Some t => forall th,
        (solution h' s' th <-> solution h1 s1 th /\
           inst s1 th (f (var 1) (g (var 2))) = inst s1 th (f (var 2) (var 3))) /\
        (solution h' s' th -> inst s1 th t = inst s1 th (f (var 1) (g (var 2))))
    | None => forall th, solution h1 s1 th ->
        inst s1 th (f (var 1) (g (var 2))) <> inst s1 th (f (var 2) (var 3))
    end.
Proof. apply (unify_aux_correct h1 100 s1); [exact h1_ok|auto..]. Defined.

Lemma subst_apply_correct_witness : exists sigma, solution h1 s1 sigma /\
  forall e, wf_ex e ->
    (exists k, forall n, (k <= n)%nat -> cuex_subst_apply block n 100 e h1 = Some (inst s1 sigma e, h1)) /\
    forall th, solution h1 s1 th -> inst s1 th (inst s1 sigma e) = inst s1 th e.
Proof.
  apply (subst_apply_correct block h1 100 s1); [exact h1_ok|].
  intros v t. cbn [var_to_veqv s1 subst_init]. rewrite val_empty. discriminate.
Defined.

Lemma unify_most_general_witness :
  exists h1 k r h2, cuex_subst_new cuex_qcset_uw h0 = Some (100, h1) /\
    (forall n, (k <= n)%nat ->
      cuex_subst_unify n 100 (f (var 1) (g (var 2))) (f (var 2) (var 3)) h1 = Some (r, h2)) /\
    if r then exists sigma, inst s1 sigma (f (var 1) (g (var 2))) = inst s1 sigma (f (var 2) (var 3)) /\
      (forall e, wf_ex e -> exists k', forall n, (k' <= n)%nat ->
        cuex_subst_apply block n 100 e h2 = Some (inst s1 sigma e, h2)) /\
      forall th, inst s1 th (f (var 1) (g (var 2))) = inst s1 th (f (var 2) (var 3)) ->
        forall e, wf_ex e -> inst s1 th (inst s1 sigma e) = inst s1 th e
    else forall th, inst s1 th (f (var 1) (g (var 2))) <> inst s1 th (f (var 2) (var 3)).
Proof.
  apply (unify_most_general block cuex_qcset_uw h0); [reflexivity|exact h0_ok|auto|auto|..];
    repeat (split || constructor || discriminate).
Defined.

(** [f (x, y) = f (g (y), g (z))] *)
Example unify_run : result (
    p ← cuex_subst_new cuex_qcset_uw;
    b ← cuex_subst_unify 50 p (f (var 1) (var 2)) (f (g (var 2)) (g (var 3)));
    t ← cuex_subst_apply block 50 p (f (var 1) (var 2));
    ret (b, t)) = Some (true, f (g (g (var 3))) (g (var 3))).
Proof. reflexivity. Qed.

Example unify_occurs : result (
    p ← cuex_subst_new cuex_qcset_uw;
    b ← cuex_subst_unify 50 p (f (var 1) (var 2)) (f (g (var 2)) (g (var 1)));
    ret b) = Some false.
Proof. reflexivity. Qed.

(** A blocked variable and a variable unified with it are not made equal by application,
    though they are by lookup. *)
Example apply_blocked : result (
    p ← cuex_subst_new cuex_qcset_uw;
    _ ← cuex_subst_block block p (var 1);
    b ← cuex_subst_unify 50 p (var 1) (var 2);
    t1 ← cuex_subst_apply block 50 p (var 1);
    t2 ← cuex_subst_apply block 50 p (var 2);
    u1 ← cuex_subst_lookup block p (var 1);
    u2 ← cuex_subst_lookup block p (var 2);
    ret (b, t1, t2, u1, u2)) = Some (true, var 1, var 2, Some (var 2), Some (var 2)).
Proof. reflexivity. Qed.

(** [b] is a clone of [a] and [c] one of [b]; after [b] has been deleted, flattening [c] makes
    the variables of [a] what they were in [a], and so loses the binding made in [c]. *)
Example flatten_loses : result (
    a ← cuex_subst_new cuex_qcset_uw;
    _ ← cuex_subst_unify 50 a (var 1) (var 2);
    b ← cuex_subst_new_clone a cuex_qcset_uw;
    _ ← cuex_subst_unify 50 b (var 3) (g (var 4));
    c ← cuex_subst_new_clone b cuex_qcset_uw;
    _ ← cuex_subst_unify 50 c (var 1) (g (var 5));
    _ ← cuex_subst_unify 50 c (var 6) (g (var 5));
    _ ← cuex_subst_delete b;
    _ ← cuex_subst_flatten c;
    u ← cuex_subst_lookup block c (var 1);
    ret u) = Some (Some (var 2)).
Proof. vm_compute. reflexivity. Qed.
End Runs.
