(* ===== verification/Algo.v ===== *)
(** * Algorithms on expressions: [cuex/algo.c], and [cuex_opn2_left], [cuex_opn2_right] of [cuex/opn.c]

    The functions recurse into operations.  On the expressions that the library
    constructs ([wf_ex]) the test [cuex_meta_is_opr] is the match on the constructor, and
    the loop up to the arity of an operator goes over the list of the operands.
    Closures that are passed as arguments run in a state [S] of their own. *)

From S2P Require Export Expr.

(** ** Closures with a state *)

Definition clop (S A : Type) : Type := S -> A * S.

Section clop.
Context {S : Type}.

Definition cret {A} (a : A) : clop S A := fun s => (a, s).
Definition cbind {A B} (m : clop S A) (k : A -> clop S B) : clop S B := fun s =>
  let (a, s) := m s in k a s.
End clop.

Declare Scope clop_scope.
Notation "x <- y ;; z" := (cbind y (fun x => z)) (at level 100, y at next level, right associativity) : clop_scope.
#[local] Open Scope clop_scope.

Section loops.
Context {S : Type}.

(** [CUEX_OPN_TRAN] with a closure. *)
Fixpoint cmap (f : ex -> clop S ex) (l : list ex) : clop S (list ex) :=
  match l with [] => cret [] | x :: l => y <- f x;; l <- cmap f l;; cret (y :: l) end.

Fixpoint ctran (f : ex -> clop S ex) (l : list ex) : clop S (option (list ex)) :=
  match l with
  | [] => cret None
  | x :: l =>
      y <- f x;;
      if decide (x = y) then r <- ctran f l;; cret (cons x <$> r)
      else l <- cmap f l;; cret (Some (y :: l))
  end.

Definition copn_tran (f : ex -> clop S ex) (opr : Z) (l : list ex) : clop S ex :=
  r <- ctran f l;; match r with None => cret (Opn opr l) | Some l => cret (Opn opr l) end.

(** [CUEX_OPN_CONJ_RETURN] *)
Fixpoint cconj (f : ex -> clop S bool) (l : list ex) : clop S bool :=
  match l with [] => cret true | x :: l => c <- f x;; if c then cconj f l else cret false end.

Fixpoint citer (f : ex -> clop S unit) (l : list ex) : clop S unit :=
  match l with [] => cret tt | x :: l => _ <- f x;; citer f l end.

(** ** Transformation and traversal *)

Fixpoint cuex_fallback_tran (e : ex) (cb : ex -> clop S (option ex)) : clop S ex :=
  r <- cb e;;
  match r with
  | Some r => cret r
  | None =>
      match e with
      | Obj _ _ => cret e
      | Opn opr l => copn_tran (fun se => cuex_fallback_tran se cb) opr l
      end
  end.

Fixpoint cuex_depthout_conj (e : ex) (cb : ex -> clop S bool) : clop S bool :=
  match e with
  | Obj _ _ => cb e
  | Opn _ l => c <- cconj (fun x => cuex_depthout_conj x cb) l;; if c then cb e else cret false
  end.

Fixpoint cuex_depthout_tran (e : ex) (cb : ex -> clop S ex) : clop S ex :=
  match e with
  | Obj _ _ => cb e
  | Opn opr l => e <- copn_tran (fun x => cuex_depthout_tran x cb) opr l;; cb e
  end.

Fixpoint cuex_depth_tran_leaves (e : ex) (cb : ex -> clop S ex) : clop S ex :=
  match e with
  | Obj _ _ => cb e
  | Opn opr l => copn_tran (fun x => cuex_depth_tran_leaves x cb) opr l
  end.

Fixpoint cuex_depth_tran_vars (e : ex) (cb : ex -> clop S ex) : clop S ex :=
  match e with
  | Obj meta _ => if cuex_is_varmeta meta then cb e else cret e
  | Opn opr l => copn_tran (fun x => cuex_depth_tran_vars x cb) opr l
  end.

(** ** Maximal subtrees *)

(** The answers for the operands, in an array, *)
Fixpoint answers (f : ex -> clop S bool) (l : list ex) : clop S (list bool) :=
  match l with [] => cret [] | x :: l => c <- f x;; cs <- answers f l;; cret (c :: cs) end.

(** ... the operands with the answer [true], *)
Definition chosen (l : list ex) (cs : list bool) : list ex :=
  fst <$> filter (fun xc => xc.2 = true) (zip l cs).

Fixpoint cuex_maxtrees_of_leaftest_iter (e : ex) (test : ex -> clop S bool) (recv : ex -> clop S unit) :
  clop S bool :=
  match e with
  | Obj _ _ => test e
  | Opn _ l =>
      cs <- answers (fun x => cuex_maxtrees_of_leaftest_iter x test recv) l;;
      let acc := forallb id cs in
      _ <- (if acc then cret tt else citer recv (chosen l cs));;
      cret acc
  end.

(** ... and their transformation in place. *)
Fixpoint sub_trees (f : ex -> clop S (bool * ex)) (l : list ex) : clop S (list (bool * ex)) :=
  match l with [] => cret [] | x :: l => c <- f x;; cs <- sub_trees f l;; cret (c :: cs) end.
Fixpoint tran_chosen (tran : ex -> clop S ex) (l : list (bool * ex)) : clop S (list ex) :=
  match l with
  | [] => cret []
  | (c, x) :: l => y <- (if c : bool then tran x else cret x);; l <- tran_chosen tran l;; cret (y :: l)
  end.

Fixpoint maxtrees_of_leaftest_tran (e : ex) (test : ex -> clop S bool) (tran : ex -> clop S ex) :
  clop S (bool * ex) :=
  match e with
  | Obj _ _ => c <- test e;; cret (c, e)
  | Opn opr l =>
      x <- sub_trees (fun x => maxtrees_of_leaftest_tran x test tran) l;;
      let acc := length (filter (fun cx => cx.1 = true) x) in
      if (acc =? length l)%nat then cret (true, e)
      else
        x <- (if (0 <? acc)%nat then tran_chosen tran x else cret (map snd x));;
        cret (false, Opn opr x)
  end.

Definition cuex_maxtrees_of_leaftest_tran (e : ex) (test : ex -> clop S bool) (tran : ex -> clop S ex) :
  clop S ex :=
  ce <- maxtrees_of_leaftest_tran e test tran;;
  if ce.1 : bool then tran ce.2 else cret ce.2.

(** ** Structural generalisation *)

Section msg_operands.
Context (u : ex -> ex -> clop S ex).
Fixpoint msg_operands (l0 l1 : list ex) : clop S (list ex) :=
  match l0, l1 with
  | x :: l0, y :: l1 => z <- u x y;; l <- msg_operands l0 l1;; cret (z :: l)
  | _, _ => cret []
  end.
End msg_operands.

Fixpoint cuex_msg_unify (e0 e1 : ex) (f : ex -> ex -> clop S ex) : clop S ex :=
  if decide (e0 = e1) then cret e0
  else match e0 with
    | Opn opr l =>
        if cuex_meta e1 =? opr
        then tpl <- msg_operands (fun x y => cuex_msg_unify x y f) l (operands e1);; cret (Opn opr tpl)
        else f e0 e1
    | Obj _ _ => f e0 e1
    end.

(** Column by column through the operands of several operations. *)
Section msg_columns.
Context (u : ex -> list ex -> clop S ex).
Fixpoint msg_columns (l : list ex) (rows : list (list ex)) : clop S (list ex) :=
  match l with
  | [] => cret []
  | x :: l => z <- u x (omap head rows);; tpl <- msg_columns l (map tail rows);; cret (z :: tpl)
  end.
End msg_columns.

(** The array is [e0] followed by [es]. *)
Fixpoint msg_unify_by_arr (e0 : ex) (es : list ex) (f : list ex -> clop S ex) : clop S ex :=
  match e0 with
  | Opn opr l =>
      if forallb (fun e => cuex_meta e =? opr) es
      then tpl <- msg_columns (fun x xs => msg_unify_by_arr x xs f) l (map operands es);; cret (Opn opr tpl)
      else f (e0 :: es)
  | Obj _ _ =>
      if forallb (fun e => bool_decide (e = e0)) es then cret e0 else f (e0 :: es)
  end.

Definition cuex_msg_unify_by_arr (arr : list ex) (f : list ex -> clop S ex) : option (clop S ex) :=
  match arr with [] => None | e0 :: es => Some (msg_unify_by_arr e0 es f) end.
End loops.

(** ** Depth, matching and unification of hash-consed expressions *)

Fixpoint cuex_max_depth (e : ex) : Z :=
  match e with
  | Obj _ _ => 0
  | Opn _ l => fold_left (fun d ep => Z.max d (cuex_max_depth ep)) l 0 + 1
  end.

Section match_operands.
Context (m : ex -> ex -> gmap ex ex -> bool * gmap ex ex).
Fixpoint match_operands (l0 l1 : list ex) (vm : gmap ex ex) : bool * gmap ex ex :=
  match l0, l1 with
  | x :: l0, y :: l1 => let (b, vm) := m x y vm in if b then match_operands l0 l1 vm else (false, vm)
  | _, _ => (true, vm)
  end.
End match_operands.

Fixpoint cuex_match_pmap (patn e : ex) (vm : gmap ex ex) : bool * gmap ex ex :=
  match patn with
  | Opn patn_meta l =>
      if negb (cuex_is_opn e) then (false, vm)
      else if negb (cuex_opr_r patn_meta =? cuex_opr_r (cuex_meta e)) then (false, vm)
      else match_operands cuex_match_pmap l (operands e) vm
  | Obj patn_meta _ =>
      if cuex_is_varmeta patn_meta then
        match vm !! patn with
        | None => (true, <[patn := e]> vm)
        | Some x => (bool_decide (x = e), vm)
        end
      else (bool_decide (patn = e), vm)
  end.

(** [cuex_null] and [cuex_unknown] are operations without operands; the operator of the
    latter, [CUEX_O0_UNKNOWN], is assigned when the library is built. *)
Definition cuex_null : ex := Opn cuex_opr_null [].
Definition cuex_unify (cuex_unknown ex0 ex1 : ex) : ex :=
  if decide (ex0 = ex1) then ex0
  else if decide (ex0 = cuex_unknown) then ex1
  else if decide (ex1 = cuex_unknown) then ex0
  else cuex_null.

(** ** Occurrences *)

(** The keys of the cache are a set. *)
Section count_operands.
Context (c : ex -> gset ex -> Z * gset ex).
Fixpoint count_operands (l : list ex) (count : Z) (cache : gset ex) : Z * gset ex :=
  match l with
  | [] => (count, cache)
  | x :: l => let (n, cache) := c x cache in count_operands l (wadd count n) cache
  end.
End count_operands.

Fixpoint cuex_count_unique_nodes_except (e : ex) (cache : gset ex) : Z * gset ex :=
  if decide (e ∈ cache) then (0, cache)
  else
    let cache := {[e]} ∪ cache in
    match e with Opn _ l => count_operands cuex_count_unique_nodes_except l 1 cache | Obj _ _ => (1, cache) end.

Definition cuex_count_unique_nodes (e : ex) : Z := (cuex_count_unique_nodes_except e ∅).1.

Fixpoint cuex_contains_ex (e sub : ex) : bool :=
  if decide (e = sub) then true
  else match e with Opn _ l => existsb (fun x => cuex_contains_ex x sub) l | Obj _ _ => false end.

Fixpoint cuex_substitute_ex (e var value : ex) : ex :=
  if decide (e = var) then value
  else match e with
    | Opn opr l => opn_tran (fun x => cuex_substitute_ex x var value) (fun x y => bool_decide (x = y)) opr e l
    | Obj _ _ => e
    end.

Fixpoint cuex_substitute_pmap (e : ex) (pmap : gmap ex ex) : ex :=
  match pmap !! e with
  | Some repl => repl
  | None =>
      match e with
      | Opn opr l => opn_tran (fun x => cuex_substitute_pmap x pmap) (fun x y => bool_decide (x = y)) opr e l
      | Obj _ _ => e
      end
  end.

(** ** First and last nodes *)

(** The first result of a loop over operands. *)
Section first_result.
Context (f : ex -> option ex).
Fixpoint first_result (l : list ex) : option ex :=
  match l with [] => None | x :: l => match f x with Some r => Some r | None => first_result l end end.
(** ... and of one from the last operand down to the first. *)
Fixpoint last_result (l : list ex) : option ex :=
  match l with [] => None | x :: l => match last_result l with Some r => Some r | None => f x end end.
End first_result.

Fixpoint cuex_leftmost_with_meta (e : ex) (search_meta : Z) : option ex :=
  let here := if cuex_meta e =? search_meta then Some e else None in
  match e with
  | Opn _ l =>
      match first_result (fun x => cuex_leftmost_with_meta x search_meta) l with
      | Some res => Some res
      | None => here
      end
  | Obj _ _ => here
  end.

(** From operand [i] down to the first, with the errors of [f] and of reading ([None]). *)
Section last_from.
Context (f : ex -> option (option ex)) (l : list ex).
Fixpoint last_from (i : nat) : option (option ex) :=
  x ← l !! i;
  res ← f x;
  match res, i with
  | Some res, _ => Some (Some res)
  | None, O => Some None
  | None, Datatypes.S i => last_from i
  end.
End last_from.

(** The loop starts at [cuex_opn_end], which is behind the last operand. *)
Fixpoint cuex_rightmost_with_meta (fuel : nat) (e : ex) (search_meta : Z) : option (option ex) :=
  match fuel with
  | O => None
  | Datatypes.S fuel =>
      let here := if cuex_meta e =? search_meta then Some e else None in
      match e with
      | Opn opr l =>
          res ← last_from (fun x => cuex_rightmost_with_meta fuel x search_meta) l (Z.to_nat (cuex_opr_r opr));
          Some (match res with Some res => Some res | None => here end)
      | Obj _ _ => Some here
      end
  end.

Definition var_in (qcset : Z) (e : ex) : option ex :=
  if cuex_is_varmeta (cuex_meta e) && cuex_qcset_contains qcset (cuex_varmeta_qcode (cuex_meta e))
  then Some e else None.

Fixpoint cuex_leftmost_var (e : ex) (qcset : Z) : option ex :=
  match e with
  | Opn _ l => first_result (fun x => cuex_leftmost_var x qcset) l
  | Obj _ _ => var_in qcset e
  end.

Fixpoint cuex_rightmost_var (e : ex) (qcset : Z) : option ex :=
  match e with
  | Opn _ l => last_result (fun x => cuex_rightmost_var x qcset) l
  | Obj _ _ => var_in qcset e
  end.

(** ** Chains of one operator *)

(** The depth of the chain through operand [i]; [None] for a failed assertion and an
    operand that is not there. *)
Fixpoint opr_depth (opr : Z) (i : nat) (e : ex) : option Z :=
  match e with
  | Opn opr' l =>
      if opr' =? opr then d ← mjoin (map (opr_depth opr i) l !! i); Some (d + 1) else Some 0
  | Obj _ _ => Some 0
  end.
Definition cuex_opr_depth_at (opr : Z) (i : nat) (e : ex) : option Z :=
  if cuex_meta_is_opr opr && (Z.of_nat i <? cuex_opr_r opr) then opr_depth opr i e else None.

Fixpoint binary_subex (opr : Z) (i : nat) (e : ex) (depth : nat) : option ex :=
  match depth with
  | O => Some e
  | Datatypes.S depth =>
      if cuex_meta e =? opr then e ← cuex_opn_at e i; binary_subex opr i e depth else None
  end.
Definition cuex_binary_left_subex (opr : Z) (e : ex) (depth : nat) : option ex := binary_subex opr 0 e depth.
Definition cuex_binary_right_subex (opr : Z) (e : ex) (depth : nat) : option ex := binary_subex opr 1 e depth.

Fixpoint cuex_binary_inject_left (opr : Z) (e lhs : ex) : ex :=
  match e with
  | Opn opr' [x; y] =>
      if opr' =? opr then Opn opr [cuex_binary_inject_left opr x lhs; y] else Opn opr [lhs; e]
  | _ => Opn opr [lhs; e]
  end.

(** [cuex_opn2_left] splits [y], [cuex_opn2_right] splits [x]. *)
Fixpoint cuex_opn2_left (opr : Z) (x y : ex) {struct y} : ex :=
  match y with
  | Opn opr' [y0; y1] =>
      if opr' =? opr then cuex_opn2_left opr (cuex_opn2_left opr x y0) y1 else Opn opr [x; y]
  | _ => Opn opr [x; y]
  end.
Fixpoint cuex_opn2_right (opr : Z) (x y : ex) {struct x} : ex :=
  match x with
  | Opn opr' [x0; x1] =>
      if opr' =? opr then cuex_opn2_right opr x0 (cuex_opn2_right opr x1 y) else Opn opr [x; y]
  | _ => Opn opr [x; y]
  end.
