(* ===== verification/AlgoOps.v ===== *)
(** * Algorithms on expressions: the theorems

    Generalisation is compared with instances under maps of leaves, matching with
    instances of patterns, counting with the set of subexpressions, the joining of
    chains with folds, and traversals with lists of nodes. *)

From S2P Require Export Algo.
#[local] Open Scope clop_scope.

(** A closure without effects. *)
Definition pure {S A} (a : A) : clop S A := cret a.

(** The image of an expression under a map of its leaves. *)
Fixpoint leaf_map (th : ex -> ex) (e : ex) : ex :=
  match e with Obj _ _ => th e | Opn opr l => Opn opr (map (leaf_map th) l) end.

Fixpoint leaves (e : ex) : list ex :=
  match e with Obj _ _ => [e] | Opn _ l => concat (map leaves l) end.

(** Subexpressions, operands first, *)
Fixpoint postorder (e : ex) : list ex :=
  match e with Obj _ _ => [e] | Opn _ l => concat (map postorder l) ++ [e] end.
Definition subterms (e : ex) : gset ex := list_to_set (postorder e).

Lemma elem_of_concat_map {A B} (f : A -> list B) l y : y ∈ concat (map f l) <-> exists x, x ∈ l /\ y ∈ f x.
Proof.
  induction l as [|x l IH]; cbn; [set_solver|]. rewrite elem_of_app, IH. set_solver.
Qed.

(** ** Structural generalisation *)

Section msg.
Context {T : Type} (g : ex -> ex -> ex).

(** The generalisation without the state. *)
Fixpoint msg_of (e0 e1 : ex) : ex :=
  if decide (e0 = e1) then e0
  else match e0 with
    | Opn opr l => if cuex_meta e1 =? opr then Opn opr (zip_with msg_of l (operands e1)) else g e0 e1
    | Obj _ _ => g e0 e1
    end.

Lemma msg_pure e0 : forall e1 (s : T), cuex_msg_unify e0 e1 (fun x y => pure (g x y)) s = (msg_of e0 e1, s).
Proof.
  induction e0 as [m a|o l IH] using ex_induction; intros e1 s; cbn [cuex_msg_unify msg_of];
    destruct (decide _) as [E|E]; [done..|].
  destruct (cuex_meta e1 =? o) eqn:Em; [|done].
  assert (forall l1 (s : T), msg_operands (fun x y => cuex_msg_unify x y (fun x y => pure (g x y))) l l1 s =
    (zip_with msg_of l l1, s)) as H.
  { clear -IH. induction IH as [|x l Hx _ IHl]; intros [|y l1] s; try done. cbn. unfold cbind.
    by rewrite Hx, IHl. }
  unfold cbind. by rewrite H.
Qed.

Lemma msg_of_same e : msg_of e e = e.
Proof. destruct e; cbn [msg_of]; by rewrite decide_True. Qed.

Lemma wf_opn_meta opr l e : wf_ex (Opn opr l) -> wf_ex e -> cuex_meta e = opr ->
  exists l', e = Opn opr l' /\ length l' = length l /\ Forall wf_ex l /\ Forall wf_ex l'.
Proof.
  intros Hw He Em. inversion Hw as [|? ? Ho Hr Hl]; subst.
  destruct He as [meta a Hno|opr l' _ Hr' Hl']; cbn in *; [congruence|]. exists l'. split_and!; [done|lia|done..].
Qed.

(** On two operations with the same operator it works operand by operand. *)
Lemma msg_of_opn opr l0 l1 : length l0 = length l1 ->
  msg_of (Opn opr l0) (Opn opr l1) = Opn opr (zip_with msg_of l0 l1).
Proof.
  intros Hl. cbn [msg_of]. destruct (decide _) as [E|E]; [|cbn; by rewrite Z.eqb_refl].
  inversion E; subst l1. f_equal. clear. induction l0 as [|x l IH]; cbn; [done|]. by rewrite msg_of_same, <- IH.
Qed.

(** It generalises both arguments, *)
Context (Hleaf : forall a b, exists m x, g a b = Obj m x).

Lemma leaf_map_g th a b : leaf_map th (g a b) = th (g a b).
Proof using Hleaf. by destruct (Hleaf a b) as (m & x & ->). Qed.

Lemma leaf_map_id th e : (forall x, x ∈ leaves e -> th x = x) -> leaf_map th e = e.
Proof.
  induction e as [m a|o l IH] using ex_induction; cbn; intros H; [apply H; set_solver|]. f_equal.
  induction IH as [|x l Hx _ IHl]; cbn in *; [done|]. f_equal.
  - apply Hx. intros z Hz. apply H. set_solver.
  - apply IHl. intros z Hz. apply H. set_solver.
Qed.

(** [side] is the first or the second argument. *)
Lemma msg_generalises (side : ex -> ex -> ex) th : side = (fun a b => a) \/ side = (fun a b => b) ->
  (forall a b, th (g a b) = side a b) -> forall e0 e1, wf_ex e0 -> wf_ex e1 ->
  (forall x, x ∈ leaves e0 ++ leaves e1 -> th x = x) -> leaf_map th (msg_of e0 e1) = side e0 e1.
Proof using Hleaf.
  intros Hside Hth. assert (forall a, side a a = a) as Hsame by (intros a; by destruct Hside as [-> | ->]).
  induction e0 as [m a|o l IH] using ex_induction; intros e1 H0 H1 Hx; cbn [msg_of];
    destruct (decide _) as [<-|E].
  1,3: rewrite Hsame; apply leaf_map_id; intros x Hin; apply Hx; set_solver.
  { by rewrite leaf_map_g, Hth. }
  destruct (cuex_meta e1 =? o) eqn:Em; [|by rewrite leaf_map_g, Hth].
  apply Z.eqb_eq in Em. destruct (wf_opn_meta o l e1 H0 H1 Em) as (l' & -> & Hlen & Hl & Hl').
  assert (side (Opn o l) (Opn o l') = Opn o (zip_with side l l')) as ->.
  { destruct Hside as [-> | ->]; f_equal; clear -Hlen; revert l' Hlen;
      induction l as [|x l IHl]; intros [|y l'] Hlen; try done; cbn; f_equal; auto. }
  cbn. f_equal. cbn in Hx. clear E Em H0 H1. revert l' Hlen Hl Hl' Hx.
  induction IH as [|x l IHx _ IHl]; intros [|y l'] Hlen Hl Hl' Hx; try done.
  apply list.Forall_cons in Hl as [Hwx Hl], Hl' as [Hwy Hl']. cbn in *. f_equal.
  - apply IHx; [done..|]. intros z Hz. apply Hx. set_solver.
  - apply IHl; [lia|done..|]. intros z Hz. apply Hx. set_solver.
Qed.

(** ... and is an instance of every other generalisation. *)
Lemma msg_specific s0 s1 e : exists t, (forall x, s0 x = x -> s1 x = x -> t x = x) /\
  leaf_map t e = msg_of (leaf_map s0 e) (leaf_map s1 e).
Proof.
  exists (fun x => msg_of (s0 x) (s1 x)). split.
  { intros x H0 H1. by rewrite H0, H1, msg_of_same. }
  induction e as [m a|o l IH] using ex_induction; [done|]. cbn [leaf_map].
  rewrite msg_of_opn by (by rewrite !length_map). f_equal.
  induction IH as [|x l Hx _ IHl]; cbn; [done|]. by rewrite Hx, IHl.
Qed.
End msg.

(** C13: [cuex_msg_unify] computes the most specific generalisation of two expressions, for
    a callback that stands for each pair of different subexpressions with a leaf of
    its own: the result has both as instances, and is itself an instance of
    every expression of which both are, under a map that fixes the leaves the two fix. *)
Theorem msg_unify_most_specific {T} (g : ex -> ex -> ex) th0 th1 e0 e1
  (H0 : wf_ex e0) (H1 : wf_ex e1)
  (Hleaf : forall a b, exists m x, g a b = Obj m x)
  (Hth : forall a b, th0 (g a b) = a /\ th1 (g a b) = b)
  (Hnew : forall x, x ∈ leaves e0 ++ leaves e1 -> th0 x = x /\ th1 x = x) :
  exists e, (forall s : T, cuex_msg_unify e0 e1 (fun x y => pure (g x y)) s = (e, s)) /\
    leaf_map th0 e = e0 /\ leaf_map th1 e = e1 /\
    forall e' s0 s1, leaf_map s0 e' = e0 -> leaf_map s1 e' = e1 ->
      exists t, leaf_map t e' = e /\ forall x, s0 x = x -> s1 x = x -> t x = x.
Proof.
  exists (msg_of g e0 e1). split; [apply msg_pure|]. split; [|split].
  - apply (msg_generalises g Hleaf (fun a b => a)); auto; [intros a b; apply Hth|intros x Hx; by apply Hnew].
  - apply (msg_generalises g Hleaf (fun a b => b)); auto; [intros a b; apply Hth|intros x Hx; by apply Hnew].
  - intros e' s0 s1 <- <-. destruct (msg_specific g s0 s1 e') as (t & Ht & E). by exists t.
Qed.

(** The variant for arrays, on two expressions. *)
Lemma msg_by_arr_same {T} (f : list ex -> clop T ex) e : forall s, msg_unify_by_arr e [e] f s = (e, s).
Proof.
  induction e as [m a|o l IH] using ex_induction; intros s; cbn; [by rewrite bool_decide_eq_true_2|].
  rewrite Z.eqb_refl. cbn. unfold cbind. enough (forall s, msg_columns (fun x xs => msg_unify_by_arr x xs f) l [l] s = (l, s)) as ->
    by done. clear s. induction IH as [|x l Hx _ IHl]; intros s; cbn; [done|]. unfold cbind. by rewrite Hx, IHl.
Qed.

Lemma msg_by_arr_two {T} (f : list ex -> clop T ex) e0 : forall e1 s, wf_ex e0 -> wf_ex e1 ->
  msg_unify_by_arr e0 [e1] f s = cuex_msg_unify e0 e1 (fun x y => f [x; y]) s.
Proof.
  induction e0 as [m a|o l IH] using ex_induction; intros e1 s H0 H1.
  { cbn. case_bool_decide as E; destruct (decide _) as [E'|E']; congruence || done. }
  destruct (decide (Opn o l = e1)) as [<-|E].
  { rewrite msg_by_arr_same. cbn. by rewrite decide_True. }
  cbn. rewrite decide_False by done. rewrite andb_true_r. destruct (cuex_meta e1 =? o) eqn:Em; [|done].
  apply Z.eqb_eq in Em. destruct (wf_opn_meta o l e1 H0 H1 Em) as (l' & -> & Hlen & Hl & Hl'). cbn.
  unfold cbind. enough (forall s, msg_columns (fun x xs => msg_unify_by_arr x xs f) l [l'] s =
    msg_operands (fun x y => cuex_msg_unify x y (fun x y => f [x; y])) l l' s) as -> by done.
  clear s E Em H0 H1. revert l' Hlen Hl Hl'.
  induction IH as [|x l Hx _ IHl]; intros [|y l'] Hlen Hl Hl' s; try done. cbn. unfold cbind.
  apply list.Forall_cons in Hl as [Hwx Hl], Hl' as [Hwy Hl']. rewrite Hx by done.
  destruct (cuex_msg_unify x y _ s) as [z s']. by rewrite IHl by (done || (cbn in Hlen; lia)).
Qed.

Lemma msg_unify_by_arr_correct {T} (f : list ex -> clop T ex) e0 e1 : wf_ex e0 -> wf_ex e1 ->
  exists m, cuex_msg_unify_by_arr [e0; e1] f = Some m /\
    forall s, m s = cuex_msg_unify e0 e1 (fun x y => f [x; y]) s.
Proof. intros H0 H1. eexists. split; [done|]. intros s. by apply msg_by_arr_two. Qed.

(** ** Matching *)

(** The pattern becomes the expression under the assignment, up to the operators. *)
Inductive fits (vm : gmap ex ex) : ex -> ex -> Prop :=
| fits_var m a e : cuex_is_varmeta m = true -> vm !! Obj m a = Some e -> fits vm (Obj m a) e
| fits_const m a : cuex_is_varmeta m = false -> fits vm (Obj m a) (Obj m a)
| fits_opn o o' l l' : Forall2 (fits vm) l l' -> fits vm (Opn o l) (Opn o' l').

Lemma fits_mono vm vm' p : vm ⊆ vm' -> forall e, fits vm p e -> fits vm' p e.
Proof.
  intros Hs. induction p as [m a|o l IH] using ex_induction; intros e Hf; inversion Hf as [? ? ? Hv Hl| |? ? ? l' Hl]; subst.
  - constructor; [done|]. by apply (lookup_weaken vm).
  - by constructor.
  - constructor. clear Hf. revert l' Hl. induction IH as [|x l Hx _ IHl]; intros l' Hl; inversion Hl; subst; constructor; auto.
Qed.

Definition match_result (vm : gmap ex ex) (P : gmap ex ex -> Prop) (r : bool * gmap ex ex) : Prop :=
  if r.1 then vm ⊆ r.2 /\ P r.2 /\ forall th, vm ⊆ th -> P th -> r.2 ⊆ th
  else forall th, vm ⊆ th -> ~ P th.

Lemma match_operands_spec l : Forall (fun p => forall e vm, wf_ex p -> wf_ex e ->
    match_result vm (fun th => fits th p e) (cuex_match_pmap p e vm)) l ->
  forall l' vm, Forall wf_ex l -> Forall wf_ex l' -> length l = length l' ->
    match_result vm (fun th => Forall2 (fits th) l l') (match_operands cuex_match_pmap l l' vm).
Proof.
  induction 1 as [|p l Hp _ IH]; intros [|e l'] vm Hw Hw' Hlen; try done.
  apply list.Forall_cons in Hw as [Hwp Hw], Hw' as [Hwe Hw']. cbn.
  specialize (Hp e vm Hwp Hwe). unfold match_result in Hp. destruct (cuex_match_pmap p e vm) as [[] vm1]; cbn in Hp.
  - destruct Hp as (Hs & Hf & Hl). specialize (IH l' vm1 Hw Hw' ltac:(cbn in Hlen; lia)).
    unfold match_result in IH |- *. destruct (match_operands _ l l' vm1) as [[] vm2]; cbn in *.
    + destruct IH as (Hs2 & Hf2 & Hl2). split_and!.
      * by etrans.
      * constructor; [by apply (fits_mono vm1)|done].
      * intros th Hth HF. inversion HF; subst. auto.
    + intros th Hth HF. inversion HF; subst. apply (IH th); auto.
  - intros th Hth HF. inversion HF; subst. by apply (Hp th).
Qed.

Lemma match_spec p : forall e vm, wf_ex p -> wf_ex e ->
  match_result vm (fun th => fits th p e) (cuex_match_pmap p e vm).
Proof.
  induction p as [m a|o l IH] using ex_induction; intros e vm Hp He.
  - cbn. destruct (cuex_is_varmeta m) eqn:Em.
    + destruct (vm !! Obj m a) as [x|] eqn:Ev.
      * unfold match_result; case_bool_decide as E; cbn.
        -- subst x. split_and!; [done|by constructor|done].
        -- intros th Hth HF. inversion HF as [? ? ? _ Hv| |]; subst; [|congruence].
           pose proof (lookup_weaken _ _ _ _ Ev Hth). congruence.
      * unfold match_result; cbn. split_and!.
        -- by apply insert_subseteq.
        -- constructor; [done|]. by rewrite lookup_insert_eq.
        -- intros th Hth HF. inversion HF as [? ? ? _ Hv| |]; subst; [|congruence].
           by apply insert_subseteq_l.
    + unfold match_result; case_bool_decide as E; cbn.
      * subst e. split_and!; [done|by constructor|done].
      * intros th _ HF. inversion HF; congruence.
  - inversion Hp as [|? ? Ho Hr Hl]; subst. cbn. destruct He as [m a Hm|o' l' Ho' Hr' Hl'].
    + unfold cuex_is_opn. cbn. unfold cuex_meta_is_opr in Hm. rewrite Hm. cbn. intros th _ HF. inversion HF.
    + unfold cuex_is_opn. cbn. unfold cuex_meta_is_opr in Ho'. rewrite Ho'. cbn.
      destruct (Z.eqb_spec (cuex_opr_r o) (cuex_opr_r o')) as [E|E]; cbn.
      * pose proof (match_operands_spec l IH l' vm Hl Hl' ltac:(lia)) as HM.
        destruct (match_operands _ l l' vm) as [[] vm']; unfold match_result in *; cbn in *.
        -- destruct HM as (H1 & H2 & H3). split_and!; [done|by constructor|]. intros th Hth HF.
           inversion HF; subst. auto.
        -- intros th Hth HF. inversion HF; subst. by apply (HM th).
      * intros th _ HF. inversion HF as [| |? ? ? ? HL]; subst. apply Forall2_length in HL. lia.
Qed.

(** Matching a pattern extends the assignment to the least one under which the pattern becomes
    the expression, up to the operators, which it does not compare, and fails
    only if there is none. *)
Theorem match_pmap_correct patn e vm (Hp : wf_ex patn) (He : wf_ex e) :
  let (b, vm') := cuex_match_pmap patn e vm in
  if b then vm ⊆ vm' /\ fits vm' patn e /\ forall th, vm ⊆ th -> fits th patn e -> vm' ⊆ th
  else forall th, vm ⊆ th -> ~ fits th patn e.
Proof.
  pose proof (match_spec patn e vm Hp He) as H. by destruct (cuex_match_pmap patn e vm) as [[] vm'].
Qed.

(** ** Subexpressions *)

Lemma elem_of_postorder_opn opr l x : x ∈ postorder (Opn opr l) <-> x = Opn opr l \/ exists y, y ∈ l /\ x ∈ postorder y.
Proof. cbn. rewrite elem_of_app, elem_of_concat_map, list_elem_of_singleton. tauto. Qed.

Lemma postorder_self e : e ∈ postorder e.
Proof. destruct e; cbn; set_solver. Qed.

Lemma postorder_trans x y z : x ∈ postorder y -> y ∈ postorder z -> x ∈ postorder z.
Proof.
  intros Hx. induction z as [m a|o l IH] using ex_induction; intros Hy.
  - cbn in Hy. apply list_elem_of_singleton in Hy. by subst.
  - apply elem_of_postorder_opn in Hy as [->|(u & Hu & Hy)]; [done|].
    rewrite list.Forall_forall in IH. apply elem_of_postorder_opn. right. exists u. auto.
Qed.

Fixpoint ex_size (e : ex) : nat :=
  match e with Obj _ _ => 1 | Opn _ l => Datatypes.S (list_sum (map ex_size l)) end.

Lemma ex_size_operand x opr l : x ∈ l -> (ex_size x < ex_size (Opn opr l))%nat.
Proof.
  intros Hx. cbn. apply Nat.lt_succ_r. induction Hx as [x l|x y l _ IH]; cbn; fold (list_sum (map ex_size l)) in *; lia.
Qed.

Lemma postorder_size x e : x ∈ postorder e -> (ex_size x <= ex_size e)%nat.
Proof.
  induction e as [m a|o l IH] using ex_induction; intros Hx.
  - cbn in Hx. apply list_elem_of_singleton in Hx. by subst.
  - apply elem_of_postorder_opn in Hx as [->|(u & Hu & Hx)]; [done|]. rewrite list.Forall_forall in IH.
    specialize (IH u Hu Hx). pose proof (ex_size_operand u o l Hu). lia.
Qed.

Lemma not_subterm_of_operand x opr l : x ∈ l -> Opn opr l ∉ postorder x.
Proof. intros Hx Hin. apply postorder_size in Hin. pose proof (ex_size_operand x opr l Hx). lia. Qed.

(** Whether an expression occurs in another. *)
Lemma contains_ex_spec e sub : cuex_contains_ex e sub = true <-> sub ∈ postorder e.
Proof.
  induction e as [m a|o l IH] using ex_induction; cbn [cuex_contains_ex]; destruct (decide _) as [E|E].
  1,3: subst; split; [intros _; apply postorder_self|done].
  - cbn. rewrite list_elem_of_singleton. naive_solver.
  - rewrite elem_of_postorder_opn, existsb_exists. rewrite list.Forall_forall in IH.
    setoid_rewrite <- list_elem_of_In. naive_solver.
Qed.

(** *** Counting *)

Definition opened (cache : gset ex) e : Prop := forall x, x ∈ cache -> x ∈ subterms e -> subterms x ⊆ cache.

Lemma elem_of_subterms x e : x ∈ subterms e <-> x ∈ postorder e.
Proof. unfold subterms. by rewrite elem_of_list_to_set. Qed.

Lemma empty_difference_L (X : gset ex) : ∅ ∖ X = ∅.
Proof. set_solver. Qed.

Lemma wadd_wrap n m : wadd (wrap n) (wrap m) = wrap (n + m).
Proof. unfold wadd, wrap. by rewrite <- Zplus_mod. Qed.

Definition counted e : Prop := forall cache, opened cache e ->
  cuex_count_unique_nodes_except e cache = (wrap (Z.of_nat (size (subterms e ∖ cache))), cache ∪ subterms e).

Lemma count_operands_spec l : Forall counted l -> forall k cache,
  (forall x, x ∈ l -> opened cache x) ->
  count_operands cuex_count_unique_nodes_except l (wrap k) cache =
  (wrap (k + Z.of_nat (size (⋃ (map subterms l) ∖ cache))), cache ∪ ⋃ (map subterms l)).
Proof.
  induction 1 as [|e l He _ IH]; intros k cache Ho.
  { cbn. rewrite union_empty_r_L, (empty_difference_L cache), size_empty. by rewrite Z.add_0_r. }
  cbn [count_operands map union_list foldr]. rewrite He by (apply Ho; by left). rewrite wadd_wrap, IH.
  - f_equal; [|set_solver]. f_equal. rewrite <- Z.add_assoc. f_equal. rewrite <- Nat2Z.inj_add. f_equal.
    rewrite <- size_union by set_solver. f_equal. apply set_eq. intros x. destruct (decide (x ∈ subterms e)); set_solver.
  - intros x Hx y Hy Hyx. apply elem_of_union in Hy as [Hy|Hy].
    + pose proof (Ho x ltac:(by right) y Hy Hyx). set_solver.
    + intros z Hz. apply elem_of_union. right. apply elem_of_subterms in Hy, Hz. apply elem_of_subterms.
      by apply (postorder_trans z y).
Qed.

Lemma subterms_opn opr l : subterms (Opn opr l) = {[Opn opr l]} ∪ ⋃ (map subterms l).
Proof.
  apply set_eq. intros x. rewrite elem_of_subterms, elem_of_postorder_opn, elem_of_union, elem_of_singleton, elem_of_union_list.
  apply or_iff_compat_l. split.
  - intros (y & Hy & Hx). exists (subterms y). split; [by apply list_elem_of_fmap; eauto|by apply elem_of_subterms].
  - intros (X & HX & Hx). apply list_elem_of_fmap in HX as (y & -> & Hy). exists y. split; [done|by apply elem_of_subterms].
Qed.

Lemma count_spec e : counted e.
Proof.
  induction e as [m a|o l IH] using ex_induction; intros cache Ho; cbn [cuex_count_unique_nodes_except];
    destruct (decide _) as [E|E].
  1,3: pose proof (Ho _ E ltac:(apply elem_of_subterms, postorder_self)) as Hs;
    rewrite (subseteq_empty_difference_L _ _ Hs), size_empty; f_equal; set_solver.
  - assert (subterms (Obj m a) = {[Obj m a]}) as -> by (unfold subterms; cbn; set_solver).
    assert ({[Obj m a]} ∖ cache = {[Obj m a]}) as -> by (apply set_eq; set_solver). rewrite size_singleton. f_equal. set_solver.
  - change 1 with (wrap 1). rewrite count_operands_spec; [|done|].
    + rewrite subterms_opn. f_equal; [|set_solver]. f_equal.
      assert (({[Opn o l]} ∪ ⋃ map subterms l) ∖ cache =
        {[Opn o l]} ∪ (⋃ map subterms l ∖ ({[Opn o l]} ∪ cache))) as ->.
      { apply set_eq. intros x. destruct (decide (x = Opn o l)); set_solver. }
      pose proof (size_union ({[Opn o l]} : gset ex) (⋃ (map subterms l) ∖ ({[Opn o l]} ∪ cache)) ltac:(set_solver)) as ->.
      rewrite size_singleton. lia.
    + intros x Hx y Hy Hyx. apply elem_of_union in Hy as [->%elem_of_singleton|Hy].
      * apply elem_of_subterms in Hyx. by destruct (not_subterm_of_operand x o l Hx).
      * enough (subterms y ⊆ cache) by set_solver. apply Ho; [done|]. apply elem_of_subterms.
        apply elem_of_postorder_opn. right. exists x. split; [done|by apply elem_of_subterms].
Qed.

(** The number of unique nodes is the number of different subexpressions that are not in
    the cache, if with an expression the cache holds its subexpressions; they are added to it. *)
Theorem count_unique_nodes_correct e cache
  (Hc : forall x, x ∈ cache -> x ∈ subterms e -> subterms x ⊆ cache) :
  cuex_count_unique_nodes_except e cache =
    (wrap (Z.of_nat (size (subterms e ∖ cache))), cache ∪ subterms e) /\
  cuex_count_unique_nodes e = wrap (Z.of_nat (size (subterms e))).
Proof.
  split; [by apply count_spec|]. unfold cuex_count_unique_nodes.
  rewrite count_spec by (intros x; set_solver). cbn. by rewrite difference_empty_L.
Qed.

(** ** Substitution *)

Lemma opn_tran_ext (f g : ex -> ex) opr l : Forall (fun x => f x = g x) l ->
  opn_tran f (fun x y => bool_decide (x = y)) opr (Opn opr l) l = Opn opr (map g l).
Proof.
  intros H. rewrite opn_tran_map. f_equal. induction H as [|x l Hx _ IH]; cbn; congruence.
Qed.

(** Substituting for a leaf is a map of leaves; for an expression that does not occur,
    nothing changes; a map with one key acts as the substitution. *)
Lemma substitute_leaf e m a value :
  cuex_substitute_ex e (Obj m a) value = leaf_map (fun x => if decide (x = Obj m a) then value else x) e.
Proof.
  induction e as [m' a'|o l IH] using ex_induction; cbn [cuex_substitute_ex leaf_map]; [done|].
  rewrite decide_False by done. by apply opn_tran_ext.
Qed.

Lemma substitute_absent e var value : cuex_contains_ex e var = false -> cuex_substitute_ex e var value = e.
Proof.
  induction e as [m a|o l IH] using ex_induction; cbn [cuex_substitute_ex cuex_contains_ex];
    destruct (decide _) as [E|E]; [done..|]. intros H.
  rewrite (opn_tran_ext _ id), map_id; [done|]. apply list.Forall_forall. intros x Hx. rewrite list.Forall_forall in IH.
  apply IH; [done|]. destruct (cuex_contains_ex x var) eqn:Ex; [|done].
  rewrite (proj2 (existsb_exists _ _)) in H; [done|]. exists x. by rewrite <- list_elem_of_In.
Qed.

Lemma substitute_pmap_singleton e var value :
  cuex_substitute_pmap e {[var := value]} = cuex_substitute_ex e var value.
Proof.
  induction e as [m a|o l IH] using ex_induction; cbn [cuex_substitute_ex cuex_substitute_pmap];
    destruct (decide _) as [<-|E].
  1,3: by rewrite lookup_singleton_eq.
  all: rewrite lookup_singleton_ne by done.
  { done. }
  rewrite (opn_tran_ext _ (fun x => cuex_substitute_ex x var value)) by done. by rewrite opn_tran_map.
Qed.

(** ** Chains of one operator *)

(** The operands that a chain of a binary operator joins. *)
Fixpoint chain (opr : Z) (e : ex) : list ex :=
  match e with
  | Opn opr' [x; y] => if opr' =? opr then chain opr x ++ chain opr y else [e]
  | _ => [e]
  end.

(** Induction on the chain. *)
Lemma chain_ind opr (P : ex -> Prop) :
  (forall e, chain opr e = [e] -> (forall x y, e <> Opn opr [x; y]) -> P e) ->
  (forall x y, P x -> P y -> P (Opn opr [x; y])) -> forall e, P e.
Proof.
  intros H1 H2 e. induction e as [m a|o l IH] using ex_induction; [by apply H1|].
  destruct l as [|x [|y [|z l]]]; try by apply H1.
  destruct (Z.eqb_spec o opr) as [->|Ho].
  - inversion IH as [|? ? Hx IH']; subst. inversion IH' as [|? ? Hy _]; subst. auto.
  - apply H1; [cbn; by rewrite (proj2 (Z.eqb_neq _ _) Ho)|]. intros ? ? [= ? _ _]. done.
Qed.

Notation opn2 opr := (fun x y => Opn opr [x; y]).

Lemma chain_opn2 opr x y : chain opr (Opn opr [x; y]) = chain opr x ++ chain opr y.
Proof. cbn. by rewrite Z.eqb_refl. Qed.

Lemma opn2_left_end opr x y : (forall y0 y1, y <> Opn opr [y0; y1]) -> cuex_opn2_left opr x y = Opn opr [x; y].
Proof.
  intros H. destruct y as [m a|o [|y0 [|y1 [|y2 l]]]]; try done. cbn.
  destruct (Z.eqb_spec o opr) as [->|]; [by destruct (H y0 y1)|done].
Qed.

Lemma opn2_right_end opr x y : (forall x0 x1, x <> Opn opr [x0; x1]) -> cuex_opn2_right opr x y = Opn opr [x; y].
Proof.
  intros H. destruct x as [m a|o [|y0 [|y1 [|y2 l]]]]; try done. cbn.
  destruct (Z.eqb_spec o opr) as [->|]; [by destruct (H y0 y1)|done].
Qed.

Lemma opn2_left_fold opr y : forall x, cuex_opn2_left opr x y = fold_left (opn2 opr) (chain opr y) x.
Proof.
  induction y as [y Hc Hn|y0 y1 IH0 IH1] using (chain_ind opr); intros x.
  - by rewrite Hc, opn2_left_end.
  - rewrite chain_opn2, fold_left_app. cbn [cuex_opn2_left]. by rewrite Z.eqb_refl, IH0, IH1.
Qed.

Lemma opn2_right_fold opr x : forall y, cuex_opn2_right opr x y = fold_right (opn2 opr) y (chain opr x).
Proof.
  induction x as [x Hc Hn|x0 x1 IH0 IH1] using (chain_ind opr); intros y.
  - by rewrite Hc, opn2_right_end.
  - rewrite chain_opn2, fold_right_app. cbn [cuex_opn2_right]. by rewrite Z.eqb_refl, IH0, IH1.
Qed.

Lemma chain_of_chain opr e x : x ∈ chain opr e -> chain opr x = [x].
Proof.
  induction e as [e Hc Hn|x0 x1 IH0 IH1] using (chain_ind opr).
  - rewrite Hc, list_elem_of_singleton. by intros ->.
  - rewrite chain_opn2, elem_of_app. tauto.
Qed.

Lemma chain_fold_left opr l x : (forall z, z ∈ l -> chain opr z = [z]) ->
  chain opr (fold_left (opn2 opr) l x) = chain opr x ++ l.
Proof.
  revert x. induction l as [|y l IH]; intros x Hl; cbn [fold_left]; [by rewrite app_nil_r|].
  rewrite IH by (intros z Hz; apply Hl; by right). rewrite chain_opn2, (Hl y) by (by left). by rewrite <- app_assoc.
Qed.

Lemma chain_fold_right opr l y : (forall z, z ∈ l -> chain opr z = [z]) ->
  chain opr (fold_right (opn2 opr) y l) = l ++ chain opr y.
Proof.
  induction l as [|x l IH]; intros Hl; cbn [fold_right]; [done|].
  rewrite chain_opn2, (Hl x) by (by left). rewrite IH by (intros z Hz; apply Hl; by right). done.
Qed.

(** Joining two chains of a binary operator appends them: the left-associated result is the
    fold of the second chain onto the first expression, the right-associated one that of the
    first chain onto the second expression; injecting on the left adds in front. *)
Theorem opn2_assoc_correct opr x y :
  (cuex_opn2_left opr x y = fold_left (opn2 opr) (chain opr y) x /\
   chain opr (cuex_opn2_left opr x y) = chain opr x ++ chain opr y) /\
  (cuex_opn2_right opr x y = fold_right (opn2 opr) y (chain opr x) /\
   chain opr (cuex_opn2_right opr x y) = chain opr x ++ chain opr y) /\
  chain opr (cuex_binary_inject_left opr y x) = chain opr x ++ chain opr y.
Proof.
  split; [|split].
  - rewrite opn2_left_fold. split; [done|]. apply chain_fold_left. intros z. apply chain_of_chain.
  - rewrite opn2_right_fold. split; [done|]. apply chain_fold_right. intros z. apply chain_of_chain.
  - induction y as [y Hc Hn|y0 y1 IH0 IH1] using (chain_ind opr).
    + assert (cuex_binary_inject_left opr y x = Opn opr [x; y]) as ->; [|by rewrite chain_opn2].
      destruct y as [m a|o [|y0 [|y1 [|y2 l]]]]; try done. cbn.
      destruct (Z.eqb_spec o opr) as [->|]; [by destruct (Hn y0 y1)|done].
    + cbn [cuex_binary_inject_left]. rewrite Z.eqb_refl, !chain_opn2, IH0. by rewrite app_assoc.
Qed.

(** ** Traversal *)

Section traversal.
Context {T : Type}.
Implicit Types (s : T).

Lemma cconj_app (f : ex -> clop T bool) l0 l1 s :
  cconj f (l0 ++ l1) s = cbind (cconj f l0) (fun c : bool => if c then cconj f l1 else cret false) s.
Proof.
  revert s. induction l0 as [|x l0 IH]; intros s; [done|]. cbn. unfold cbind. destruct (f x s) as [[] s']; [|done].
  by rewrite IH.
Qed.

(** The nodes are visited operands first, until the closure returns false. *)
Lemma depthout_conj_spec cb e s : cuex_depthout_conj e cb s = cconj cb (postorder e) s.
Proof.
  revert s. induction e as [m a|o l IH] using ex_induction; intros s.
  { cbn. unfold cbind. by destruct (cb (Obj m a) s) as [[] s']. }
  cbn [cuex_depthout_conj postorder]. rewrite cconj_app. unfold cbind at 1 2.
  assert (cconj (fun x => cuex_depthout_conj x cb) l s = cconj cb (concat (map postorder l)) s) as ->.
  { revert s. induction IH as [|x l Hx _ IHl]; intros s; [done|]. cbn. rewrite cconj_app. unfold cbind. rewrite Hx.
    destruct (cconj cb (postorder x) s) as [[] s']; auto. }
  destruct (cconj cb _ s) as [[] s']; [|done]. cbn. unfold cbind. by destruct (cb (Opn o l) s') as [[] s''].
Qed.

Lemma cmap_pure (f : ex -> clop T ex) g l s : Forall (fun x => forall s, f x s = (g x, s)) l ->
  cmap f l s = (map g l, s).
Proof.
  intros H. revert s. induction H as [|x l Hx _ IH]; intros s; [done|]. cbn. unfold cbind. by rewrite Hx, IH.
Qed.

Lemma copn_tran_pure (f : ex -> clop T ex) g opr l s : Forall (fun x => forall s, f x s = (g x, s)) l ->
  copn_tran f opr l s = (Opn opr (map g l), s).
Proof.
  intros H. unfold copn_tran, cbind. assert (forall s, exists r, ctran f l s = (r, s) /\
    match r with None => map g l = l | Some l' => l' = map g l end) as H0.
  { clear s. induction H as [|x l Hx Hl IH]; intros s; [by exists None|]. cbn. unfold cbind. rewrite Hx.
    destruct (decide (x = g x)) as [E|E].
    - destruct (IH s) as (r & -> & Hr). eexists. split; [done|]. destruct r; cbn; [by rewrite Hr, <- E|by rewrite Hr, <- E].
    - rewrite (cmap_pure f g) by done. by eexists. }
  destruct (H0 s) as (r & -> & Hr). destruct r as [l'|]; cbn; [by subst|by rewrite Hr].
Qed.

(** Transforming the leaves or the variables by a function without effects maps them; *)
Lemma depth_tran_leaves_pure g e s : cuex_depth_tran_leaves e (fun x => pure (g x)) s = (leaf_map g e, s).
Proof.
  revert s. induction e as [m a|o l IH] using ex_induction; intros s; [done|]. cbn.
  by apply (copn_tran_pure _ (leaf_map g)).
Qed.

Lemma depth_tran_vars_pure g e s : cuex_depth_tran_vars e (fun x => pure (g x)) s =
  (leaf_map (fun x => if cuex_is_var x then g x else x) e, s).
Proof.
  revert s. induction e as [m a|o l IH] using ex_induction; intros s; cbn.
  - unfold cuex_is_var. cbn. by destruct (cuex_is_varmeta m).
  - by apply (copn_tran_pure _ (leaf_map _)).
Qed.

(** ... and the fall-back transformation does it too, when the closure knows just the leaves. *)
Lemma fallback_tran_leaves g e s :
  cuex_fallback_tran e (fun x => pure (match x with Obj _ _ => Some (g x) | Opn _ _ => None end)) s = (leaf_map g e, s).
Proof.
  revert s. induction e as [m a|o l IH] using ex_induction; intros s; [done|]. cbn. unfold cbind. cbn.
  by apply (copn_tran_pure _ (leaf_map g)).
Qed.

(** *** Maximal subtrees *)

Context (test : ex -> bool).
Notation ptest := (fun x => pure (test x) : clop T bool).

(** All leaves pass the test. *)
Definition good (e : ex) : bool := forallb test (leaves e).

Lemma good_opn opr l : good (Opn opr l) = forallb good l.
Proof.
  unfold good. cbn. induction l as [|x l IH]; [done|]. cbn. by rewrite forallb_app, IH.
Qed.

(** The good operands of nodes that are not good, in the order of the nodes. *)
Definition maximal (e : ex) : list ex :=
  concat (map (fun p => if good p then [] else filter (fun x => good x = true) (operands p)) (postorder e)).

Lemma citer_app (f : ex -> clop T unit) l0 l1 s : citer f (l0 ++ l1) s = cbind (citer f l0) (fun _ => citer f l1) s.
Proof.
  revert s. induction l0 as [|x l0 IH]; intros s; [done|]. cbn. unfold cbind. destruct (f x s) as [[] s']. by rewrite IH.
Qed.

Lemma chosen_map (p : ex -> bool) l : chosen l (map p l) = filter (fun x => p x = true) l.
Proof.
  induction l as [|x l IH]; [done|]. unfold chosen in *. cbn [map zip zip_with]. rewrite !filter_cons. cbn [snd].
  destruct (decide (p x = true)); cbn [fmap list_fmap fst]; by rewrite IH.
Qed.

Lemma maxtrees_iter_spec recv e s :
  cuex_maxtrees_of_leaftest_iter e ptest recv s = (good e, (citer recv (maximal e) s).2).
Proof.
  revert s. induction e as [m a|o l IH] using ex_induction; intros s.
  { unfold good, maximal, good. cbn. rewrite andb_true_r. by destruct (test (Obj m a)). }
  unfold maximal. cbn [cuex_maxtrees_of_leaftest_iter postorder operands]. rewrite map_app, concat_app.
  set (k := fun p => if good p then [] else filter (fun x => good x = true) (operands p)) in *.
  assert (forall s, answers (fun x => cuex_maxtrees_of_leaftest_iter x ptest recv) l s =
    (map good l, (citer recv (concat (map k (concat (map postorder l)))) s).2)) as HA.
  { clear s. induction IH as [|x l Hx _ IHl]; intros s; [done|]. cbn. unfold cbind. rewrite Hx, IHl. cbn.
    rewrite map_app, concat_app, citer_app. unfold cbind, maximal. fold k.
    by destruct (citer recv (concat (map k (postorder x))) s) as [[] s']. }
  unfold cbind at 1. rewrite HA. rewrite citer_app. unfold cbind.
  assert (forallb id (map good l) = good (Opn o l)) as Hacc.
  { rewrite good_opn. clear. induction l as [|x l IH]; [done|]. cbn. by rewrite IH. }
  destruct (citer recv _ s) as [[] s']. cbn [map concat operands snd]. rewrite app_nil_r, Hacc. unfold k.
  cbn [operands]. rewrite chosen_map. destruct (good (Opn o l)); [done|]. by destruct (citer recv _ s') as [[] s''].
Qed.

(** Membership: the good subexpressions whose parent is not good. *)
Lemma elem_of_maximal x e : x ∈ maximal e <->
  good x = true /\ exists p, p ∈ postorder e /\ good p = false /\ x ∈ operands p.
Proof.
  unfold maximal. rewrite elem_of_concat_map. split.
  - intros (p & Hp & Hx). destruct (good p) eqn:E; [set_solver|]. apply list_elem_of_filter in Hx as [Hg Hx]. eauto 6.
  - intros (Hg & p & Hp & E & Hx). exists p. rewrite E. split; [done|]. by apply list_elem_of_filter.
Qed.

(** Every maximal good subtree is transformed. *)
Fixpoint tran_max (tran : ex -> ex) (e : ex) : ex :=
  if good e then tran e else match e with Obj _ _ => e | Opn opr l => Opn opr (map (tran_max tran) l) end.

Lemma maxtrees_tran_spec tran e s : maxtrees_of_leaftest_tran e ptest (fun x => pure (tran x)) s =
  ((good e, if good e then e else tran_max tran e), s).
Proof.
  revert s. induction e as [m a|o l IH] using ex_induction; intros s.
  { cbn. unfold cbind, good; cbn. rewrite andb_true_r. by destruct (test (Obj m a)). }
  cbn [maxtrees_of_leaftest_tran tran_max]. set (f := fun x => (good x, if good x then x else tran_max tran x)).
  assert (forall s, sub_trees (fun x => maxtrees_of_leaftest_tran x ptest (fun x => pure (tran x))) l s = (map f l, s)) as HS.
  { clear s. induction IH as [|x l Hx _ IHl]; intros s; [done|]. cbn. unfold cbind. by rewrite Hx, IHl. }
  unfold cbind at 1. rewrite HS. clear HS IH.
  assert (forall s, tran_chosen (fun x => pure (tran x)) (map f l) s = (map (tran_max tran) l, s)) as HT.
  { clear s. induction l as [|x l IHl]; intros s; [done|]. cbn. unfold cbind. destruct (good x) eqn:Ex; cbn; rewrite IHl;
      [|done]. destruct x; cbn [tran_max]; by rewrite Ex. }
  assert (length (filter (fun cx => cx.1 = true) (map f l)) = length (filter (fun x => good x = true) l)) as ->.
  { clear. induction l as [|x l IH]; [done|]. cbn [map]. rewrite !filter_cons. unfold f at 1. cbn [fst].
    destruct (decide (good x = true)); cbn [length]; by rewrite IH. }
  pose proof (length_filter (fun x => good x = true) l) as Hle. rewrite good_opn.
  destruct (forallb good l) eqn:Eg.
  - assert (length (filter (fun x => good x = true) l) = length l) as ->; [|by rewrite Nat.eqb_refl].
    f_equal. clear -Eg. induction l as [|x l IH]; [done|]. cbn in Eg. apply andb_true_iff in Eg as [Ex El].
    rewrite filter_cons_True by done. f_equal. auto.
  - rewrite (proj2 (Nat.eqb_neq _ _)).
    2:{ intros E. apply not_true_iff_false in Eg. apply Eg, forallb_forall. intros x Hx%list_elem_of_In.
        destruct (good x) eqn:Ex; [done|].
        pose proof (length_filter_lt (fun x => good x = true) l x Hx ltac:(cbn; congruence)). lia. }
    unfold cbind. destruct (Nat.ltb_spec 0 (length (filter (fun x => good x = true) l))) as [Hlt|Hlt]; [by rewrite HT|].
    cbn. do 3 f_equal. rewrite map_map. apply map_ext_in. intros x Hx%list_elem_of_In. unfold f.
    destruct (good x) eqn:Ex; [|done]. assert (x ∈ filter (fun x => good x = true) l) as Hin by (by apply list_elem_of_filter).
    destruct (filter _ l); [set_solver|cbn in Hlt; lia].
Qed.
End traversal.

(** The maximal subtrees of which all leaves pass the test are, for the iteration, the good operands
    of nodes that are not good, in the order of the nodes; the transformation replaces these
    subtrees, or the whole expression if it is good. *)
Theorem maxtrees_correct {T} (test : ex -> bool) (tran : ex -> ex) (recv : ex -> clop T unit) e s :
  (cuex_maxtrees_of_leaftest_iter e (fun x => pure (test x)) recv s =
     (good test e, (citer recv (maximal test e) s).2) /\
   forall x, x ∈ maximal test e <->
     good test x = true /\ exists p, p ∈ postorder e /\ good test p = false /\ x ∈ operands p) /\
  cuex_maxtrees_of_leaftest_tran e (fun x => pure (test x)) (fun x => pure (tran x)) s =
    (tran_max test tran e, s).
Proof.
  split; [split; [apply maxtrees_iter_spec|intros x; apply elem_of_maximal]|].
  unfold cuex_maxtrees_of_leaftest_tran, cbind. rewrite maxtrees_tran_spec. cbn.
  destruct (good test e) eqn:Eg; [|done]. destruct e; cbn [tran_max]; by rewrite Eg.
Qed.

(** ** First and last nodes *)

Lemma first_result_spec {A} (f : ex -> option ex) (k : ex -> list A) (p : A -> option ex) l :
  Forall (fun x => f x = head (omap p (k x))) l -> first_result f l = head (omap p (concat (map k l))).
Proof.
  induction 1 as [|x l Hx _ IH]; [done|]. cbn [first_result map concat]. rewrite Hx, omap_app.
  destruct (omap p (k x)); [done|]. done.
Qed.

Lemma last_result_spec {A} (f : ex -> option ex) (k : ex -> list A) (p : A -> option ex) l :
  Forall (fun x => f x = list.last (omap p (k x))) l -> last_result f l = list.last (omap p (concat (map k l))).
Proof.
  induction 1 as [|x l Hx _ IH]; [done|]. cbn [last_result map concat]. rewrite IH, omap_app, list.last_app, Hx.
  by destruct (list.last (omap p (concat (map k l)))).
Qed.

Definition with_meta (search_meta : Z) (e : ex) : option ex :=
  if cuex_meta e =? search_meta then Some e else None.

Lemma leftmost_with_meta_spec m e : cuex_leftmost_with_meta e m = head (omap (with_meta m) (postorder e)).
Proof.
  induction e as [m' a|o l IH] using ex_induction.
  - cbn. unfold with_meta. cbn. by destruct (m' =? m).
  - cbn [cuex_leftmost_with_meta postorder]. rewrite (first_result_spec _ postorder (with_meta m)) by done.
    rewrite omap_app. destruct (omap (with_meta m) (concat _)); [|done].
    cbn. unfold with_meta. cbn. by destruct (o =? m).
Qed.

Lemma leftmost_var_spec qcset e : cuex_leftmost_var e qcset = head (omap (var_in qcset) (leaves e)).
Proof.
  induction e as [m' a|o l IH] using ex_induction.
  - cbn. by destruct (var_in qcset (Obj m' a)).
  - by apply first_result_spec.
Qed.

Lemma rightmost_var_spec qcset e : cuex_rightmost_var e qcset = list.last (omap (var_in qcset) (leaves e)).
Proof.
  induction e as [m' a|o l IH] using ex_induction.
  - cbn. by destruct (var_in qcset (Obj m' a)).
  - by apply last_result_spec.
Qed.

(** The searches for the first node with a meta and for the first and last variables
    return the first and last of them in depth-first order, but that for the last node with
    a meta reads behind the operands of every operation. *)
Theorem extreme_nodes_correct e m qcset :
  cuex_leftmost_with_meta e m = head (omap (with_meta m) (postorder e)) /\
  cuex_leftmost_var e qcset = head (omap (var_in qcset) (leaves e)) /\
  cuex_rightmost_var e qcset = list.last (omap (var_in qcset) (leaves e)) /\
  forall fuel opr l, wf_ex (Opn opr l) -> cuex_rightmost_with_meta fuel (Opn opr l) m = None.
Proof.
  split_and!; [apply leftmost_with_meta_spec|apply leftmost_var_spec|apply rightmost_var_spec|].
  intros [|fuel] opr l Hw; [done|]. inversion Hw as [|? ? _ Hr _]; subst. cbn. rewrite Hr, Nat2Z.id.
  assert (forall f, last_from f l (length l) = None) as ->; [|done].
  intros f. unfold last_from. assert (l !! length l = None) as E by (apply lookup_ge_None; lia).
  destruct l; cbn in *; [done|]. by rewrite E.
Qed.

(** The depth of a chain through an operand is the number of steps into that operand. *)
Lemma opr_depth_spec opr i e : cuex_meta_is_opr opr = true -> Z.of_nat i < cuex_opr_r opr -> wf_ex e ->
  exists d x, cuex_opr_depth_at opr i e = Some (Z.of_nat d) /\
    binary_subex opr i e d = Some x /\ cuex_meta x <> opr /\
    forall k, (d < k)%nat -> binary_subex opr i e k = None.
Proof.
  intros Ho Hi. unfold cuex_opr_depth_at. rewrite Ho, (proj2 (Z.ltb_lt _ _) Hi). cbn [andb].
  induction e as [m a|o l IH] using ex_induction; intros He.
  - inversion He as [? ? Hm|]; subst. exists 0%nat, (Obj m a). split_and!; [done..|cbn; congruence|].
    intros [|k] Hk; [lia|]. cbn. destruct (Z.eqb_spec m opr); [congruence|done].
  - inversion He as [|? ? Hm Hr Hl]; subst. cbn [opr_depth]. destruct (Z.eqb_spec o opr) as [->|Hne].
    + destruct (lookup_lt_is_Some_2 l i) as [x Hx]; [lia|]. rewrite list.Forall_forall in IH, Hl.
      apply list_elem_of_lookup_2 in Hx as Hin. destruct (IH x Hin (Hl x Hin)) as (d & y & Hd & Hy & Hn & Hk).
      exists (Datatypes.S d), y. rewrite list_lookup_fmap, Hx. cbn. rewrite Hd, Z.eqb_refl. cbn.
      unfold cuex_opn_at. cbn. rewrite Hx. cbn. split_and!; [f_equal; lia|done..|].
      intros [|k] Hlt; [lia|]. cbn. rewrite Z.eqb_refl. unfold cuex_opn_at. cbn. rewrite Hx. cbn. apply Hk. lia.
    + exists 0%nat, (Opn o l). split_and!; [done..|]. intros [|k] Hk; [lia|]. cbn.
      by rewrite (proj2 (Z.eqb_neq _ _) Hne).
Qed.

(** ** Examples *)

Module Samples.
Definition f (l : list ex) : ex := Opn (cuex_opr 1 (Z.of_nat (length l))) l.
Definition g (x : ex) : ex := Opn (cuex_opr 2 1) [x].
Definition var (i : Z) : ex := Obj (cuex_varmeta_kqi cuex_varkind_svar cuex_qcode_u 0) i.

(** Constants, and one variable for each pair of expressions. *)
Definition const (i : Z) : ex := Obj 0 i.
Definition pair_var (a b : ex) : ex := Obj (cuex_meta (var 0)) (Zpos (encode (a, b))).
Definition unpair {A} (k : ex * ex -> A) (d : A) (e : ex) : A :=
  match e with
  | Obj m (Zpos p) => if m =? cuex_meta (var 0) then default d (k <$> decode p) else d
  | _ => d
  end.

Lemma unpair_pair_var {A} (k : ex * ex -> A) d a b : unpair k d (pair_var a b) = k (a, b).
Proof. cbn [unpair pair_var]. by rewrite Z.eqb_refl, decode_encode. Qed.

Lemma wf_sample l : (length l < 3)%nat -> Forall wf_ex l -> wf_ex (f l).
Proof.
  intros Hl Hw. constructor; [apply cuex_meta_is_opr_opr|apply cuex_opr_r_opr; lia|done].
Qed.
Lemma wf_sample_const i : wf_ex (const i).
Proof. by constructor. Qed.
Lemma wf_sample_var i : wf_ex (var i).
Proof. by constructor. Qed.
#[local] Hint Resolve wf_sample wf_sample_const wf_sample_var : core.

Lemma msg_unify_most_specific_witness :
  exists e, (forall s : unit, cuex_msg_unify (f [const 1; f [const 1]]) (f [const 2; f [const 2]])
      (fun x y => pure (pair_var x y)) s = (e, s)) /\
    leaf_map (fun x => unpair fst x x) e = f [const 1; f [const 1]] /\
    leaf_map (fun x => unpair snd x x) e = f [const 2; f [const 2]] /\
    forall e' s0 s1, leaf_map s0 e' = f [const 1; f [const 1]] -> leaf_map s1 e' = f [const 2; f [const 2]] ->
      exists t, leaf_map t e' = e /\ forall x, s0 x = x -> s1 x = x -> t x = x.
Proof.
  apply (msg_unify_most_specific pair_var (fun x => unpair fst x x) (fun x => unpair snd x x)).
  - apply wf_sample; [cbn; lia|]. repeat constructor.
  - apply wf_sample; [cbn; lia|]. repeat constructor.
  - intros a b. unfold pair_var. eauto.
  - intros a b. by rewrite !unpair_pair_var.
  - intros x Hx. cbn in Hx. rewrite !elem_of_cons in Hx. by destruct Hx as [->|[->|[->|[->|Hx%elem_of_nil]]]].
Defined.

(** Matching does not compare operators. *)
Example match_other_operator : cuex_match_pmap (f [var 1]) (g (var 2)) ∅ = (true, {[var 1 := var 2]}).
Proof. reflexivity. Qed.
End Samples.
