(* ===== verification/Ltree.v ===== *)
(** * Left-packed trees: [cuex/ltree.h], [cuex/ltree.c]

    A sequence of expressions as a tree of operations with up to four operands, in which
    every operand but the last is full.  The operators come from the header that
    [cuex/otab.c] generates from [cuex/oprdefs.otab], and are parameters ([LtreeOpr]).
    [None] is the error of a failed assertion, of reading outside an array or through [NULL], and of
    shifting an [int] too far; a tree is [option ex], with [None] for [NULL]. *)

From S2P Require Export Algo.

Class LtreeOpr := {
  CUEXP_OR_LTREE : Z -> Z;
  CUEXP_OA_LTREE_DEPTH : Z -> Z;
  cuexP_og_ltree_strip : Z -> Z;
  cuexP_oa_ltree_depth : Z -> Z;
}.

Definition CUEX_LTREE_LOG2_FANOUT : Z := 2.
Definition CUEX_LTREE_FANOUT : Z := 1 <<< CUEX_LTREE_LOG2_FANOUT.
Definition CUEX_LTREE_FANOUT_MASK : Z := CUEX_LTREE_FANOUT - 1.
Notation LOG2_FANOUT := CUEX_LTREE_LOG2_FANOUT.
Notation FANOUT := CUEX_LTREE_FANOUT.
Notation FANOUT_MASK := CUEX_LTREE_FANOUT_MASK.

(** [oprdefs.otab] declares 5 bits for the depth. *)
Definition CUEXP_OA_LTREE_DEPTH_WIDTH : Z := 5.
Definition CUEXP_OA_LTREE_DEPTH_MAXP : Z := 1 <<< CUEXP_OA_LTREE_DEPTH_WIDTH.
Definition CUEX_LTREE_END : Z := 2 ^ 63 - 1.

Definition cuex_opr_sans_arity (opr : Z) : Z := opr &&& wnot CUEX_OPR_ARITY_MASK.

Definition cuex_opn_arity (opn : ex) : Z := cuex_opr_r (cuex_meta opn).

(** [1 << n] in [int]. *)
Definition int_shl1 (n : Z) : option Z := if (0 <=? n) && (n <? 31) then Some (1 <<< n) else None.
Definition oassert (b : bool) : option unit := if b then Some tt else None.

Record itr := mk_itr { i_cur : Z; i_end : Z; stack : list (option ex) }.

Section ltree.
Context `{!LtreeOpr}.

Definition CUEXP_OXR_LTREE (depth arity : Z) : Z := CUEXP_OR_LTREE arity ||| CUEXP_OA_LTREE_DEPTH depth.

Definition cuex_is_oR_ltree (opr : Z) : bool :=
  cuex_opr_sans_arity (cuexP_og_ltree_strip opr) =? CUEXP_OR_LTREE 0.

Definition cuex_ltree_empty : option ex := None.
Definition cuex_ltree_is_empty (tree : option ex) : bool := match tree with None => true | _ => false end.
Definition cuexP_is_ltree_node (tree : ex) : bool := cuex_is_oR_ltree (cuex_meta tree).
Definition cuex_ltree_is_singleton (tree : option ex) : bool :=
  match tree with None => false | Some x => negb (cuex_is_oR_ltree (cuex_meta x)) end.
Definition cuex_ltree_is_composite (tree : option ex) : bool :=
  match tree with None => false | Some x => cuex_is_oR_ltree (cuex_meta x) end.

Definition ltree_opn (depth : Z) (v : list ex) : ex := Opn (CUEXP_OXR_LTREE depth (Z.of_nat (length v))) v.

(** ** Size and elements *)

(** The loop goes on with operand [r] (here, with one of the images of the operands). *)
Fixpoint ltree_size (accu : Z) (x : ex) : option Z :=
  if negb (cuex_is_oR_ltree (cuex_meta x)) then Some (wadd accu 1)
  else match x with
    | Obj _ _ => None
    | Opn meta l =>
        let k := cuexP_oa_ltree_depth meta in
        let r := cuex_opr_r meta in
        _ ← oassert (0 <? k);
        _ ← oassert (0 <? r);
        s ← int_shl1 (LOG2_FANOUT * (k - 1));
        mjoin (map (ltree_size (wadd accu ((r - 1) * s))) l !! Z.to_nat (r - 1))
    end.
Definition cuex_ltree_size (x : option ex) : option Z :=
  match x with None => Some 0 | Some x => ltree_size 0 x end.

Fixpoint ltree_at (x : ex) (i : Z) : option ex :=
  if cuexP_is_ltree_node x then
    match x with
    | Obj _ _ => None
    | Opn meta l =>
        let k := cuexP_oa_ltree_depth meta in
        subnode_size ← int_shl1 (LOG2_FANOUT * (k - 1));
        mjoin (map (fun x => ltree_at x (i mod subnode_size)) l !! Z.to_nat (i / subnode_size))
    end
  else if i =? 0 then Some x else None.
Definition cuex_ltree_at (x : option ex) (i : Z) : option ex :=
  match x with
  | None => None
  | Some t =>
      i ← (if i <? 0 then n ← cuex_ltree_size x; _ ← oassert (0 <=? i + n); Some (i + n) else Some i);
      ltree_at t i
  end.

Fixpoint ltree_last (x : ex) : option ex :=
  if cuexP_is_ltree_node x then
    match x with
    | Obj _ _ => None
    | Opn meta l => mjoin (map ltree_last l !! Z.to_nat (cuex_opr_r meta - 1))
    end
  else Some x.
Definition cuex_ltree_last (x : option ex) : option ex := x ← x; ltree_last x.

(** ** Iteration *)

Definition cuex_ltree_itr_is_end (it : itr) : bool := i_cur it =? i_end it.

Definition stack_get (st : list (option ex)) (k : nat) : option ex := mjoin (st !! k).
Definition stack_set (st : list (option ex)) (k : nat) (x : ex) : option (list (option ex)) :=
  if decide (k < length st)%nat then Some (<[k := Some x]> st) else None.

(** The stack below level [k], for element [j]. *)
Fixpoint itr_descend (j : Z) (k : nat) (st : list (option ex)) : option (list (option ex)) :=
  match k with
  | O => Some st
  | S k' =>
      let index := (j >>> (LOG2_FANOUT * Z.of_nat k')) &&& FANOUT_MASK in
      y ← stack_get st k;
      x ← (if negb (cuexP_is_ltree_node y) then _ ← oassert (index =? 0); Some y
           else if cuexP_oa_ltree_depth (cuex_meta y) <? Z.of_nat k then _ ← oassert (index =? 0); Some y
           else cuex_opn_at y (Z.to_nat index));
      st ← stack_set st k' x;
      itr_descend j k' st
  end.

Definition cuex_ltree_itr_get (it : itr) : option (option ex * itr) :=
  let i := i_cur it in
  let j := wadd i 1 in
  if i_end it <=? j then
    if i_end it <? j then Some (None, it)
    else r ← stack it !! 0%nat; Some (r, mk_itr j (i_end it) (stack it))
  else
    let k := (cu_ulong_bit_count (i ^^^ j) - 1) / LOG2_FANOUT in
    r ← stack it !! 0%nat;
    st ← itr_descend j (Z.to_nat (k + 1)) (stack it);
    Some (r, mk_itr j (i_end it) st).

Definition new_stack : list (option ex) := replicate (Z.to_nat CUEXP_OA_LTREE_DEPTH_MAXP) None.

Fixpoint itr_leftmost (k : nat) (x : ex) (st : list (option ex)) : option (ex * list (option ex)) :=
  match k with
  | O => Some (x, st)
  | S k' =>
      st ← stack_set st k x;
      _ ← oassert (cuexP_oa_ltree_depth (cuex_meta x) =? Z.of_nat k);
      x ← cuex_opn_at x 0;
      itr_leftmost k' x st
  end.

Definition cuex_ltree_itr_init_full (x : option ex) : option itr :=
  match x with
  | None => Some (mk_itr 0 0 new_stack)
  | Some t =>
      if cuexP_is_ltree_node t then
        let k := cuexP_oa_ltree_depth (cuex_meta t) in
        _ ← oassert (0 <? k);
        n ← cuex_ltree_size x;
        '(y, st) ← itr_leftmost (Z.to_nat k) t new_stack;
        st ← stack_set st 0 y;
        Some (mk_itr 0 n st)
      else st ← stack_set new_stack 0 t; Some (mk_itr 0 1 st)
  end.

(** The path to element [i]. *)
Fixpoint itr_path (i : Z) (k : nat) (x : ex) (st : list (option ex)) : option (ex * list (option ex)) :=
  match k with
  | O => Some (x, st)
  | S k' =>
      let index := (i >>> (LOG2_FANOUT * Z.of_nat k')) &&& FANOUT_MASK in
      st ← stack_set st k x;
      x ← (if cuexP_is_ltree_node x && (cuexP_oa_ltree_depth (cuex_meta x) =? Z.of_nat k)
           then cuex_opn_at x (Z.to_nat index)
           else _ ← oassert (index =? 0); Some x);
      itr_path i k' x st
  end.

(** Indices relative to the end. *)
Definition relative (x : option ex) (i j : Z) : option (Z * Z) :=
  if i <? 0 then n ← cuex_ltree_size x; Some (i + n, if j <? 0 then j + n else j)
  else if j <? 0 then n ← cuex_ltree_size x; Some (i, j + n)
  else Some (i, j).

Definition cuex_ltree_itr_init_slice (x : option ex) (i j : Z) : option itr :=
  '(i, j) ← relative x i j;
  _ ← oassert ((0 <=? i) && (i <=? j));
  let finish (n : Z) (st : list (option ex)) : option itr :=
    e ← (if j <? n then Some j else _ ← oassert ((j =? n) || (j =? CUEX_LTREE_END)); Some n);
    Some (mk_itr i e st) in
  match x with
  | None => finish 0 new_stack
  | Some t =>
      if cuexP_is_ltree_node t then
        let k := cuexP_oa_ltree_depth (cuex_meta t) in
        _ ← oassert (0 <? k);
        n ← cuex_ltree_size x;
        if i =? n then Some (mk_itr i n new_stack)
        else
          _ ← oassert (i <=? n);
          '(y, st) ← itr_path i (Z.to_nat k) t new_stack;
          st ← stack_set st 0 y;
          finish n st
      else st ← stack_set new_stack 0 t; finish 1 st
  end.

(** ** Construction *)

(** Elements of [v] up to the fan-out, as long as the iterator is not at its end. *)
Section fill_array.
Context (fresh : itr -> option (ex * itr)).
Fixpoint fill_array (n : nat) (v : list ex) (it : itr) : option (list ex * itr) :=
  match n with
  | O => Some (v, it)
  | S n =>
      if cuex_ltree_itr_is_end it then Some (v, it)
      else '(x, it) ← fresh it; fill_array n (v ++ [x]) it
  end.
End fill_array.

Definition rest_of (v : list ex) : nat := (Z.to_nat FANOUT - length v)%nat.

Fixpoint ltree_fresh (depth : nat) (it : itr) : option (ex * itr) :=
  match depth with
  | O => '(x, it) ← cuex_ltree_itr_get it; x ← x; Some (x, it)
  | S d =>
      '(v, it) ← fill_array (ltree_fresh d) (Z.to_nat FANOUT) [] it;
      match v with
      | [x] => Some (x, it)
      | _ => Some (ltree_opn (Z.of_nat depth) v, it)
      end
  end.

(** The [do] loop of [ltree_fill]; the depth of the node is [S d]. *)
Fixpoint fill_levels (fuel d : nat) (xdepth : nat) (v : list ex) (it : itr) : option (ex * itr) :=
  match fuel with
  | O => None
  | S fuel =>
      '(v, it) ← fill_array (ltree_fresh d) (rest_of v) v it;
      let x := ltree_opn (Z.of_nat (S d)) v in
      if (S (S d) <=? xdepth)%nat && negb (cuex_ltree_itr_is_end it)
      then fill_levels fuel (S d) xdepth [x] it
      else Some (x, it)
  end.

Fixpoint ltree_fill (fuel xdepth : nat) (x : ex) (it : itr) : option (ex * itr) :=
  match fuel with
  | O => None
  | S fuel' =>
      if negb (cuexP_is_ltree_node x) then
        if (xdepth =? 0)%nat then Some (x, it) else fill_levels fuel 0 xdepth [x] it
      else
        let r := cuex_opn_arity x in
        _ ← oassert (0 <? r);
        let v := take (Z.to_nat (r - 1)) (operands x) in
        let depth := cuexP_oa_ltree_depth (cuex_meta x) in
        _ ← oassert (0 <? depth);
        y ← cuex_opn_at x (Z.to_nat (r - 1));
        '(y, it) ← (if 1 <? depth then ltree_fill fuel' (Z.to_nat depth - 1) y it else Some (y, it));
        fill_levels fuel (Z.to_nat depth - 1) xdepth (v ++ [y]) it
  end.

(** The same with a source of elements. *)
Definition cu_ptr_source_get (source : list ex) : option ex * list ex :=
  match source with [] => (None, []) | x :: source => (Some x, source) end.

Section fill_from_source.
Context (fresh : list ex -> option ex * list ex).
(** ... up to the fan-out; the answer tells whether the source has ended. *)
Fixpoint fill_from_source (n : nat) (v : list ex) (source : list ex) : bool * list ex * list ex :=
  match n with
  | O => (false, v, source)
  | S n =>
      let (x, source) := fresh source in
      match x with
      | None => (true, v, source)
      | Some x => fill_from_source n (v ++ [x]) source
      end
  end.
End fill_from_source.

Fixpoint ltree_fresh_source (depth : nat) (source : list ex) : option ex * list ex :=
  match depth with
  | O => cu_ptr_source_get source
  | S d =>
      let '(_, v, source) := fill_from_source (ltree_fresh_source d) (Z.to_nat FANOUT) [] source in
      (match v with [] => None | [x] => Some x | _ => Some (ltree_opn (Z.of_nat depth) v) end, source)
  end.

Fixpoint fill_levels_source (fuel d xdepth : nat) (v : list ex) (source : list ex) : option (ex * list ex) :=
  match fuel with
  | O => None
  | S fuel =>
      let '(stop, v, source) := fill_from_source (ltree_fresh_source d) (rest_of v) v source in
      let x := ltree_opn (Z.of_nat (S d)) v in
      if (stop : bool) then Some (x, source)
      else if (S (S d) <=? xdepth)%nat then fill_levels_source fuel (S d) xdepth [x] source
      else Some (x, source)
  end.

Fixpoint ltree_fill_source (fuel xdepth : nat) (x : ex) (source : list ex) : option (ex * list ex) :=
  match fuel with
  | O => None
  | S fuel' =>
      if negb (cuexP_is_ltree_node x) then
        if (xdepth =? 0)%nat then Some (x, source) else fill_levels_source fuel 0 xdepth [x] source
      else
        let r := cuex_opn_arity x in
        _ ← oassert (0 <? r);
        let v := take (Z.to_nat (r - 1)) (operands x) in
        let depth := cuexP_oa_ltree_depth (cuex_meta x) in
        _ ← oassert (0 <? depth);
        y ← cuex_opn_at x (Z.to_nat (r - 1));
        '(y, source) ← (if 1 <? depth then ltree_fill_source fuel' (Z.to_nat depth - 1) y source
                        else Some (y, source));
        fill_levels_source fuel (Z.to_nat depth - 1) xdepth (v ++ [y]) source
  end.

(** There are at most [CUEXP_OA_LTREE_DEPTH_MAXP] levels. *)
Definition levels : nat := Z.to_nat CUEXP_OA_LTREE_DEPTH_MAXP.

Fixpoint concat_levels (fuel depth : nat) (x : ex) (it : itr) : option ex :=
  if cuex_ltree_itr_is_end it then Some x
  else match fuel with
    | O => None
    | S fuel =>
        '(v, it) ← fill_array (ltree_fresh depth) (Z.to_nat FANOUT - 1) [x] it;
        concat_levels fuel (S depth) (ltree_opn (Z.of_nat (S depth)) v) it
    end.

Definition cuex_ltree_concat (x y : option ex) : option (option ex) :=
  match x, y with
  | None, _ => Some y
  | _, None => Some x
  | Some t, Some _ =>
      it ← cuex_ltree_itr_init_full y;
      t ← (if cuexP_is_ltree_node t then
             let depth := cuexP_oa_ltree_depth (cuex_meta t) in
             _ ← oassert (0 <? depth);
             '(t, it) ← ltree_fill levels (Z.to_nat depth) t it;
             concat_levels levels (Z.to_nat depth) t it
           else concat_levels levels 0 t it);
      Some (Some t)
  end.

Fixpoint append_levels (fuel depth : nat) (x : ex) (source : list ex) : option ex :=
  match fuel with
  | O => None
  | S fuel =>
      let '(stop, v, source) := fill_from_source (ltree_fresh_source depth) (Z.to_nat FANOUT - 1) [x] source in
      let y := match v with [y] => y | _ => ltree_opn (Z.of_nat (S depth)) v end in
      if (stop : bool) then Some y else append_levels fuel (S depth) y source
  end.

Definition cuex_ltree_append_from_source (x : option ex) (source : list ex) : option (option ex) :=
  match x with
  | None =>
      let (y, source) := cu_ptr_source_get source in
      match y with
      | None => Some cuex_ltree_empty
      | Some y => t ← append_levels levels 0 y source; Some (Some t)
      end
  | Some t =>
      t ← (if cuexP_is_ltree_node t then
             let depth := cuexP_oa_ltree_depth (cuex_meta t) in
             _ ← oassert (0 <? depth);
             '(t, source) ← ltree_fill_source levels (Z.to_nat depth) t source;
             append_levels levels (Z.to_nat depth) t source
           else append_levels levels 0 t source);
      Some (Some t)
  end.

Definition cuex_ltree_append_from_array (x : option ex) (arr : list ex) : option (option ex) :=
  cuex_ltree_append_from_source x arr.
Definition cuex_ltree_from_source (source : list ex) : option (option ex) :=
  cuex_ltree_append_from_source cuex_ltree_empty source.
Definition cuex_ltree_from_array (elt_array : list ex) : option (option ex) :=
  cuex_ltree_append_from_source cuex_ltree_empty elt_array.

(** The arguments are appended in groups of 32. *)
Fixpoint from_valist (fuel : nat) (ltree : option ex) (vl : list ex) : option (option ex) :=
  match fuel with
  | O => None
  | S fuel =>
      let buf := take 32 vl in
      ltree ← cuex_ltree_append_from_array ltree buf;
      if (length buf <? 32)%nat then Some ltree else from_valist fuel ltree (drop 32 vl)
  end.
Definition cuex_ltree_from_valist (vl : list ex) : option (option ex) :=
  from_valist (S (length vl)) cuex_ltree_empty vl.

(** ** Slices *)

Fixpoint ltree_prefix (x : ex) (n : Z) : option ex :=
  if cuexP_is_ltree_node x then
    match x with
    | Obj _ _ => None
    | Opn meta l =>
        let k := cuexP_oa_ltree_depth meta in
        subnode_size ← int_shl1 (LOG2_FANOUT * (k - 1));
        let m := n / subnode_size in
        let rest := n mod subnode_size in
        if m =? 0 then mjoin (map (fun x => ltree_prefix x n) l !! 0%nat)
        else if (m =? 1) && (rest =? 0) then l !! 0%nat
        else
          _ ← oassert (m <=? FANOUT);
          _ ← oassert (m <=? Z.of_nat (length l));
          let v := take (Z.to_nat m) l in
          v ← (if rest =? 0 then Some v
               else y ← mjoin (map (fun x => ltree_prefix x rest) l !! Z.to_nat m); Some (v ++ [y]));
          _ ← oassert (Z.of_nat (length v) <=? FANOUT);
          Some (ltree_opn k v)
    end
  else _ ← oassert (n =? 1); Some x.

Definition cuex_ltree_prefix (x : option ex) (n : Z) : option (option ex) :=
  n ← (if n <? 0 then m ← cuex_ltree_size x; Some (n + m) else Some n);
  if n =? 0 then Some cuex_ltree_empty
  else x ← x; y ← ltree_prefix x n; Some (Some y).

Definition cuex_ltree_slice (x : option ex) (i j : Z) : option (option ex) :=
  '(i, j) ← relative x i j;
  if i =? j then Some cuex_ltree_empty
  else if i =? 0 then
    if j =? CUEX_LTREE_END then Some x else cuex_ltree_prefix x j
  else
    it ← cuex_ltree_itr_init_slice x i j;
    '(y, _) ← ltree_fresh (levels - 1) it;
    Some (Some y).

(** ** Traversal *)

Section forall_elements.
Context {T : Type} (fn : ex -> clop T bool).

(** The last operand is the last turn of the loop. *)
Fixpoint ltree_forall (x : ex) : clop T bool :=
  if cuex_is_oR_ltree (cuex_meta x) then
    match x with Obj _ _ => cret true | Opn _ l => cconj ltree_forall l end
  else fn x.

Definition cuex_ltree_forall (x : option ex) : clop T bool :=
  match x with
  | None => cret true
  | Some x => if cuexP_is_ltree_node x then ltree_forall x else fn x
  end.
End forall_elements.
End ltree.
