(* ===== verification/LtreeInv.v ===== *)
(** * Left-packed trees: the tree of a sequence, sizes, elements, prefixes and traversal

    [tree_of l] is the one tree that the functions of [cuex/ltree.c] build for the
    elements [l]: [l] is cut into up to four pieces, all but the last with a power of
    four elements, and a piece with one element is that element. *)

From S2P Require Export AlgoOps Ltree.
#[local] Open Scope nat_scope.

Definition p4 (d : nat) : nat := 4 ^ d.

Lemma p4_S d : p4 (S d) = 4 * p4 d.
Proof. unfold p4. cbn. lia. Qed.
Lemma p4_pos d : 0 < p4 d.
Proof. unfold p4. induction d; cbn; lia. Qed.
Lemma p4_le d d' : d <= d' -> p4 d <= p4 d'.
Proof. intros H. unfold p4. apply Nat.pow_le_mono_r; lia. Qed.
Lemma p4_0 : p4 0 = 1.
Proof. done. Qed.
Lemma p4_Z d : Z.of_nat (p4 d) = (2 ^ (2 * Z.of_nat d))%Z.
Proof. unfold p4. rewrite Nat2Z.inj_pow, Z.pow_mul_r by lia. done. Qed.
Lemma p4_add d e : p4 (d + e) = p4 d * p4 e.
Proof. unfold p4. by rewrite Nat.pow_add_r. Qed.
#[global] Opaque p4.

(** ** Pieces *)

Section chunk.
Context {A : Type}.
Implicit Types (l : list A).

Fixpoint chunk (n B : nat) l : list (list A) :=
  match n with
  | O => []
  | S n => match l with [] => [] | _ => take B l :: chunk n B (drop B l) end
  end.

Lemma chunk_nil n B : chunk n B [] = [].
Proof. by destruct n. Qed.

Lemma chunk_cons n B l : l <> [] -> chunk (S n) B l = take B l :: chunk n B (drop B l).
Proof. by destruct l. Qed.

Lemma length_chunk_le n B l : length (chunk n B l) <= n.
Proof. revert l. induction n as [|n IH]; intros [|x l]; cbn; try lia. specialize (IH (drop B (x :: l))). lia. Qed.

Lemma chunk_lookup n B l j : 0 < B -> j < n -> j * B < length l ->
  chunk n B l !! j = Some (take B (drop (j * B) l)).
Proof.
  intros HB. revert l j. induction n as [|n IH]; intros l j Hj Hl; [lia|].
  rewrite chunk_cons by (intros ->; cbn in Hl; lia). destruct j as [|j]; [done|].
  cbn [lookup list_lookup]. rewrite IH, drop_drop by (rewrite ?length_drop; lia). done.
Qed.

(** All pieces but the last are full. *)
Lemma length_chunk n B l : 0 < B -> l <> [] -> length l <= n * B ->
  0 < length (chunk n B l) /\ (length (chunk n B l) - 1) * B < length l <= length (chunk n B l) * B.
Proof.
  intros HB. revert l. induction n as [|n IH]; intros l Hne Hl.
  { destruct l; [done|cbn in Hl; lia]. }
  rewrite chunk_cons by done. cbn [length]. assert (0 < length l) by (destruct l; [done|cbn; lia]).
  destruct (decide (length l <= B)) as [Hs|Hs].
  - rewrite drop_ge by lia. rewrite chunk_nil. cbn. lia.
  - destruct (IH (drop B l)) as [H1 H2]; [intros E; apply (f_equal length) in E; rewrite length_drop in E; cbn in E; lia|
      rewrite length_drop; lia|]. rewrite length_drop in H2. nia.
Qed.

Lemma elem_of_chunk n B l c : 0 < B -> length l <= n * B -> c ∈ chunk n B l -> c <> [] /\ length c <= B.
Proof.
  intros HB. revert l. induction n as [|n IH]; intros l Hl Hc; [by apply elem_of_nil in Hc|].
  destruct l as [|x l]; [by apply elem_of_nil in Hc|]. rewrite chunk_cons in Hc by done.
  apply elem_of_cons in Hc as [->|Hc].
  - split; [destruct B; [lia|done]|]. rewrite length_take. lia.
  - apply (IH (drop B (x :: l))); [rewrite length_drop; lia|done].
Qed.

Lemma chunk_app n m B l l' : 0 < B -> length l = m * B -> m <= n ->
  chunk n B (l ++ l') = chunk m B l ++ chunk (n - m) B l'.
Proof.
  intros HB. revert n l. induction m as [|m IH]; intros n l Hl Hm.
  { destruct l; [|cbn in Hl; lia]. cbn. by rewrite Nat.sub_0_r. }
  destruct n as [|n]; [lia|]. assert (l <> []) as Hne by (intros ->; cbn in Hl; lia).
  rewrite (chunk_cons m) by done. rewrite chunk_cons by (by destruct l). cbn [app Nat.sub].
  rewrite take_app_le, drop_app_le by lia. rewrite IH by (rewrite ?length_drop; lia). done.
Qed.

Lemma chunk_single n B l : 0 < n -> l <> [] -> length l <= B -> chunk n B l = [l].
Proof.
  intros Hn Hne Hl. destruct n; [lia|]. rewrite chunk_cons by done. rewrite take_ge, drop_ge by lia.
  by rewrite chunk_nil.
Qed.

(** The pieces beyond the end do not count. *)
Lemma chunk_take n B l : 0 < B -> chunk n B (take (n * B) l) = chunk n B l.
Proof.
  intros HB. revert l. induction n as [|n IH]; intros l; [done|]. destruct l as [|x l]; [by rewrite take_nil|].
  change (S n * B) with (B + n * B).
  rewrite (chunk_cons n B (x :: l)) by done. rewrite chunk_cons by (destruct B; [lia|done]).
  by rewrite take_take, <- take_drop_commute, Nat.min_l, IH by lia.
Qed.

Lemma concat_chunk n B l : length l <= n * B -> concat (chunk n B l) = l.
Proof.
  revert l. induction n as [|n IH]; intros l Hl; [by destruct l; [|cbn in Hl; lia]|].
  destruct l as [|x l]; [done|]. rewrite chunk_cons by done. cbn [concat].
  rewrite IH by (rewrite length_drop; lia). apply take_drop.
Qed.

(** The first pieces. *)
Lemma take_chunk n m B l : 0 < B -> m <= n -> m * B <= length l -> take m (chunk n B l) = chunk m B (take (m * B) l).
Proof.
  intros HB Hm Hl. assert (length (take (m * B) l) = m * B) as Hlen by (rewrite length_take; lia).
  rewrite <- (take_drop (m * B) l) at 1. rewrite (chunk_app n m) by done.
  assert (length (chunk m B (take (m * B) l)) = m) as Hc.
  { destruct (decide (m = 0)) as [->|Hm0]; [done|].
    pose proof (length_chunk m B (take (m * B) l) HB) as H1. pose proof (length_chunk_le m B (take (m * B) l)).
    assert (take (m * B) l <> []) as Hne by (intros E; rewrite E in Hlen; cbn in Hlen; nia). specialize (H1 Hne). nia. }
  rewrite <- Hc at 1. apply take_app_length.
Qed.
End chunk.

(** ** The tree of a sequence *)

Section pack.
Context `{OP : !LtreeOpr}.

Fixpoint pack (d : nat) (l : list ex) : ex :=
  match d with
  | O => hd (Obj 0 0) l
  | S d' =>
      if length l <=? p4 d' then pack d' l
      else ltree_opn (Z.of_nat d) (map (pack d') (chunk 4 (p4 d') l))
  end.

(** A depth that is enough. *)
Definition pack_depth (l : list ex) : nat := Z.to_nat (Z.log2_up (Z.of_nat (length l))).
Definition tree_of (l : list ex) : ex := pack (pack_depth l) l.
Definition ltree (l : list ex) : option ex := match l with [] => None | _ => Some (tree_of l) end.

Lemma pack_depth_enough l : length l <= p4 (pack_depth l).
Proof.
  apply Nat2Z.inj_le. rewrite p4_Z. unfold pack_depth. rewrite Z2Nat.id by apply Z.log2_up_nonneg.
  destruct (Z.le_gt_cases (Z.of_nat (length l)) 1) as [Hn|Hn].
  - pose proof (Z.pow_pos_nonneg 2 (2 * Z.log2_up (Z.of_nat (length l)))). pose proof (Z.log2_up_nonneg (Z.of_nat (length l))). lia.
  - pose proof (Z.log2_up_spec (Z.of_nat (length l)) ltac:(lia)) as [_ H2]. etrans; [exact H2|].
    apply Z.pow_le_mono_r; [lia|]. pose proof (Z.log2_up_nonneg (Z.of_nat (length l))). lia.
Qed.

Lemma pack_ge d d' l : length l <= p4 d -> d <= d' -> pack d' l = pack d l.
Proof.
  intros Hl Hd. induction Hd as [|d' Hd IH]; [done|]. cbn. rewrite (proj2 (Nat.leb_le _ _)); [done|].
  etrans; [exact Hl|]. by apply p4_le.
Qed.

Lemma pack_tree_of d l : length l <= p4 d -> pack d l = tree_of l.
Proof.
  intros Hl. unfold tree_of. pose proof (pack_depth_enough l).
  destruct (Nat.le_ge_cases d (pack_depth l)); [symmetry; by apply pack_ge|by apply pack_ge].
Qed.

Lemma tree_of_single x : tree_of [x] = x.
Proof. by rewrite <- (pack_tree_of 0) by done. Qed.

Lemma tree_of_node d l : p4 d < length l <= p4 (S d) ->
  tree_of l = ltree_opn (Z.of_nat (S d)) (map tree_of (chunk 4 (p4 d) l)).
Proof.
  intros [H1 H2]. rewrite <- (pack_tree_of (S d)) by done. cbn [pack].
  rewrite (proj2 (Nat.leb_gt _ _)) by done. f_equal. apply map_ext_in. intros c Hc%list_elem_of_In.
  apply pack_tree_of. apply (elem_of_chunk 4 (p4 d) l); [apply p4_pos|by rewrite <- p4_S|done].
Qed.

(** The level of a sequence with more than one element. *)
Lemma level_of (l : list ex) : 1 < length l -> exists d, p4 d < length l <= p4 (S d).
Proof.
  intros Hl. assert (forall d, length l <= p4 d -> exists d, p4 d < length l <= p4 (S d)) as Hex.
  { induction d as [|d IH]; intros Hd; [rewrite p4_0 in Hd; lia|].
    destruct (Nat.le_gt_cases (length l) (p4 d)); [by apply IH|by exists d]. }
  apply (Hex _ (pack_depth_enough l)).
Qed.

(** Induction on the pieces. *)
Lemma tree_ind (P : list ex -> Prop) :
  (forall x, P [x]) ->
  (forall d l, p4 d < length l <= p4 (S d) -> (forall c, c ∈ chunk 4 (p4 d) l -> P c) -> P l) ->
  forall l, l <> [] -> P l.
Proof.
  intros H1 H2 l. remember (length l) as n eqn:En. revert l En.
  induction n as [n IH] using lt_wf_ind. intros l En Hl.
  destruct l as [|x [|y l]]; [done|apply H1|]. destruct (level_of (x :: y :: l)) as [d Hd]; [cbn; lia|].
  apply (H2 d); [done|]. intros c Hc.
  destruct (elem_of_chunk 4 (p4 d) (x :: y :: l) c (p4_pos d) ltac:(rewrite <- p4_S; lia) Hc) as [Hne Hle].
  apply (IH (length c)); [lia|done..].
Qed.

(** ** The operators, and elements that are no trees *)

Class LtreeOprLaws : Prop := {
  oxr_is depth arity : (0 <= depth < 32)%Z -> (0 <= arity <= 4)%Z ->
    cuex_is_oR_ltree (CUEXP_OXR_LTREE depth arity) = true;
  oxr_depth depth arity : (0 <= depth < 32)%Z -> (0 <= arity <= 4)%Z ->
    cuexP_oa_ltree_depth (CUEXP_OXR_LTREE depth arity) = depth;
  oxr_arity depth arity : (0 <= depth < 32)%Z -> (0 <= arity <= 4)%Z ->
    cuex_opr_r (CUEXP_OXR_LTREE depth arity) = arity;
}.

Definition elements (l : list ex) : Prop := Forall (fun x => cuexP_is_ltree_node x = false) l.

(** Sequences that the theorems are about: nodes of depth at most 16, for which the shifts in
    [int] are defined. *)
Definition sequence (l : list ex) : Prop := elements l /\ length l <= p4 16.

Lemma elements_chunk n B l c : elements l -> c ∈ chunk n B l -> elements c.
Proof.
  unfold elements. revert l. induction n as [|n IH]; intros l Hl Hc; [by apply elem_of_nil in Hc|].
  destruct l as [|x l]; [by apply elem_of_nil in Hc|]. rewrite chunk_cons in Hc by done.
  apply elem_of_cons in Hc as [->|Hc]; [by apply Forall_take|]. apply (IH (drop B (x :: l))); [by apply Forall_drop|done].
Qed.

Lemma sequence_chunk d l c : sequence l -> length l <= p4 (S d) -> c ∈ chunk 4 (p4 d) l -> sequence c.
Proof.
  intros [He Hl] Hd Hc. split; [by apply (elements_chunk 4 (p4 d) l)|].
  destruct (decide (d < 16)).
  - pose proof (elem_of_chunk 4 (p4 d) l c (p4_pos d) ltac:(rewrite <- p4_S; lia) Hc).
    pose proof (p4_le d 16). lia.
  - pose proof (p4_le 16 d). revert Hc. destruct l as [|x l]; [intros Hc; by apply elem_of_nil in Hc|].
    rewrite chunk_single by (done || lia). by intros ->%list_elem_of_singleton.
Qed.
End pack.

Section ops.
Context `{OP : !LtreeOpr, OL : !LtreeOprLaws}.

Lemma int_shl1_p4 d : d < 16 -> int_shl1 (LOG2_FANOUT * (Z.of_nat (S d) - 1)) = Some (Z.of_nat (p4 d)).
Proof.
  intros Hd. unfold int_shl1, CUEX_LTREE_LOG2_FANOUT. rewrite (proj2 (Z.leb_le _ _)), (proj2 (Z.ltb_lt _ _)) by lia.
  cbn [andb]. rewrite Z.shiftl_mul_pow2, p4_Z by lia. do 2 f_equal. rewrite Z.mul_1_l. f_equal. lia.
Qed.

(** What is to know about the tree of a sequence with more than one element. *)
Record node_of (d : nat) (l : list ex) (opr : Z) (v : list ex) : Prop := {
  node_tree : tree_of l = Opn opr v;
  node_is : cuex_is_oR_ltree opr = true;
  node_depth : cuexP_oa_ltree_depth opr = Z.of_nat (S d);
  node_arity : cuex_opr_r opr = Z.of_nat (length v);
  node_opr : opr = CUEXP_OXR_LTREE (Z.of_nat (S d)) (Z.of_nat (length v));
  node_level : d < 16;
  node_length : 2 <= length v <= 4;
  node_size : (length v - 1) * p4 d < length l <= length v * p4 d;
  node_subs : v = map tree_of (chunk 4 (p4 d) l);
  node_lookup j : j * p4 d < length l -> v !! j = Some (tree_of (take (p4 d) (drop (j * p4 d) l)));
}.

Lemma tree_node d l : sequence l -> p4 d < length l <= p4 (S d) -> exists opr v, node_of d l opr v.
Proof.
  intros [He Hmax] Hd. set (v := map tree_of (chunk 4 (p4 d) l)).
  exists (CUEXP_OXR_LTREE (Z.of_nat (S d)) (Z.of_nat (length v))), v.
  pose proof (p4_pos d). pose proof (p4_S d). assert (l <> []) as Hne by (intros ->; cbn in Hd; lia).
  pose proof (length_chunk 4 (p4 d) l ltac:(done) Hne ltac:(lia)) as [H1 H2].
  pose proof (length_chunk_le 4 (p4 d) l) as H3.
  assert (length v = length (chunk 4 (p4 d) l)) as Hv by apply length_map.
  assert (d < 16) as Hd16. { destruct (decide (d < 16)); [done|]. pose proof (p4_le 16 d). lia. }
  split; try done; rewrite ?Hv; try done.
  - rewrite (tree_of_node d) by done. unfold ltree_opn. by rewrite length_map.
  - apply oxr_is; lia.
  - apply oxr_depth; lia.
  - apply oxr_arity; lia.
  - split; [|lia]. destruct (length (chunk 4 (p4 d) l)) as [|[|]]; lia.
  - intros j Hj. subst v. rewrite list_lookup_fmap, chunk_lookup by nia. done.
Qed.

Lemma single_element l x : sequence l -> l = [x] -> cuexP_is_ltree_node x = false.
Proof. intros [He _] ->. by apply list.Forall_cons in He as [? _]. Qed.

(** Induction with the facts about nodes. *)
Lemma node_ind (P : list ex -> Prop) :
  (forall x, cuexP_is_ltree_node x = false -> P [x]) ->
  (forall d l opr v, sequence l -> node_of d l opr v -> (forall c, c ∈ chunk 4 (p4 d) l -> sequence c /\ P c) -> P l) ->
  forall l, l <> [] -> sequence l -> P l.
Proof.
  intros H1 H2. apply (tree_ind (fun l => sequence l -> P l)).
  - intros x Hs. apply H1. by apply (single_element [x]).
  - intros d l Hd IH Hs. destruct (tree_node d l Hs Hd) as (opr & v & Hn). apply (H2 d l opr v); [done..|].
    intros c Hc. assert (sequence c) by (apply (sequence_chunk d l); [done|apply Hd|done]). auto.
Qed.

Lemma piece_in d l opr v j : node_of d l opr v -> j * p4 d < length l ->
  take (p4 d) (drop (j * p4 d) l) ∈ chunk 4 (p4 d) l.
Proof.
  intros Hn Hj. pose proof (node_size _ _ _ _ Hn). pose proof (node_length _ _ _ _ Hn).
  apply list_elem_of_lookup. exists j. apply chunk_lookup; [apply p4_pos|nia|done].
Qed.

Lemma is_node_tree d l opr v : node_of d l opr v -> cuexP_is_ltree_node (tree_of l) = true.
Proof. intros Hn. rewrite (node_tree _ _ _ _ Hn). by apply Hn. Qed.

(** ** Size *)

Lemma ltree_size_spec l : l <> [] -> sequence l ->
  forall accu, (0 <= accu)%Z -> (accu + Z.of_nat (length l) < 2 ^ 64)%Z ->
    ltree_size accu (tree_of l) = Some (accu + Z.of_nat (length l))%Z.
Proof.
  revert l. apply (node_ind (fun l => forall accu, (0 <= accu)%Z -> (accu + Z.of_nat (length l) < 2 ^ 64)%Z ->
    ltree_size accu (tree_of l) = Some (accu + Z.of_nat (length l))%Z)).
  - intros x Hx accu Ha Hl. rewrite tree_of_single. cbn in Hl. unfold cuexP_is_ltree_node in Hx.
    destruct x; cbn in *; rewrite Hx; cbn; unfold wadd; rewrite wrap_small by (unfold word; lia); done.
  - intros d l opr v Hs Hn IH accu Ha Hl. pose proof Hn as [Et Eis Ed Er _ Hd Hv Hsz _ Hlk].
    rewrite Et. cbn [ltree_size cuex_meta]. rewrite Eis, Ed, Er. cbn [negb].
    rewrite (int_shl1_p4 d) by done. unfold oassert.
    rewrite (proj2 (Z.ltb_lt 0 _)), (proj2 (Z.ltb_lt 0 _)) by lia. cbn [mbind option_bind].
    replace (Z.to_nat (Z.of_nat (length v) - 1)) with (length v - 1) by lia.
    rewrite list_lookup_fmap, Hlk by lia. cbn [fmap option_fmap option_map mjoin option_join].
    set (c := take (p4 d) (drop ((length v - 1) * p4 d) l)).
    destruct (IH c) as [Hc IHc]; [apply (piece_in d l opr v); [done|apply Hsz]|].
    assert (length c = length l - (length v - 1) * p4 d) as Hlc.
    { unfold c. rewrite length_take, length_drop. nia. }
    unfold wadd. rewrite wrap_small by (unfold word; nia). rewrite IHc by nia. f_equal. nia.
Qed.

Lemma p4_16 : Z.of_nat (p4 16) = (2 ^ 32)%Z.
Proof. by rewrite p4_Z. Qed.

Lemma cuex_ltree_size_spec l : sequence l -> cuex_ltree_size (ltree l) = Some (Z.of_nat (length l)).
Proof.
  intros Hs. destruct l as [|x l]; [done|]. cbn [ltree cuex_ltree_size].
  rewrite ltree_size_spec; [done|done|done|lia|]. destruct Hs as [_ Hl]. pose proof p4_16. lia.
Qed.

(** ** Elements *)

Lemma piece_lookup {A} (l : list A) B i : 0 < B -> take B (drop (i / B * B) l) !! (i mod B) = l !! i.
Proof.
  intros HB. rewrite lookup_take_lt, lookup_drop by (apply Nat.mod_upper_bound; lia). f_equal.
  pose proof (Nat.div_mod_eq i B). lia.
Qed.

Lemma piece_start i B n : 0 < B -> i < n -> i / B * B < n.
Proof. intros HB Hi. pose proof (Nat.Div0.mul_div_le i B). lia. Qed.

Lemma ltree_at_spec l : l <> [] -> sequence l -> forall i, i < length l -> ltree_at (tree_of l) (Z.of_nat i) = l !! i.
Proof.
  revert l. apply (node_ind (fun l => forall i, i < length l -> ltree_at (tree_of l) (Z.of_nat i) = l !! i)).
  - intros x Hx i Hi. cbn in Hi. assert (i = 0) as -> by lia. rewrite tree_of_single.
    destruct x; cbn [ltree_at]; by rewrite Hx.
  - intros d l opr v Hs Hn IH i Hi. pose proof Hn as [Et Eis Ed Er _ Hd Hv Hsz _ Hlk].
    rewrite Et. cbn [ltree_at]. unfold cuexP_is_ltree_node. cbn [cuex_meta]. rewrite Eis, Ed.
    rewrite (int_shl1_p4 d) by done. cbn [mbind option_bind]. pose proof (p4_pos d).
    rewrite <- Nat2Z.inj_div, <- Nat2Z.inj_mod, Nat2Z.id.
    pose proof (piece_start i (p4 d) (length l) ltac:(done) Hi) as Hst.
    rewrite list_lookup_fmap, Hlk by done. cbn [fmap option_fmap option_map mjoin option_join].
    destruct (IH _ (piece_in d l opr v _ Hn Hst)) as [_ IHc].
    rewrite IHc; [by apply piece_lookup|]. rewrite length_take, length_drop.
    pose proof (Nat.mod_upper_bound i (p4 d)). pose proof (Nat.div_mod_eq i (p4 d)). lia.
Qed.

Lemma ltree_last_spec l : l <> [] -> sequence l -> ltree_last (tree_of l) = list.last l.
Proof.
  revert l. apply (node_ind (fun l => ltree_last (tree_of l) = list.last l)).
  - intros x Hx. rewrite tree_of_single. destruct x; cbn [ltree_last]; by rewrite Hx.
  - intros d l opr v Hs Hn IH. pose proof Hn as [Et Eis Ed Er _ Hd Hv Hsz _ Hlk].
    rewrite Et. cbn [ltree_last]. unfold cuexP_is_ltree_node. cbn [cuex_meta]. rewrite Eis, Er.
    replace (Z.to_nat (Z.of_nat (length v) - 1)) with (length v - 1) by lia.
    rewrite list_lookup_fmap, Hlk by lia. cbn [fmap option_fmap option_map mjoin option_join].
    destruct (IH _ (piece_in d l opr v (length v - 1) Hn ltac:(lia))) as [_ ->].
    rewrite take_ge by (rewrite length_drop; nia).
    rewrite <- (take_drop ((length v - 1) * p4 d) l) at 2. rewrite list.last_app.
    destruct (drop _ l) as [|x l'] eqn:E; [|by rewrite list.last_cons; destruct (list.last l')].
    apply (f_equal length) in E. rewrite length_drop in E. cbn in E. lia.
Qed.

(** ** Prefixes *)

Lemma prefix_pieces d l n : length l <= p4 (S d) -> p4 d < n <= length l ->
  map tree_of (chunk 4 (p4 d) (take n l)) =
  take (n / p4 d) (map tree_of (chunk 4 (p4 d) l)) ++
  (if decide (n mod p4 d = 0) then []
   else [tree_of (take (n mod p4 d) (take (p4 d) (drop (n / p4 d * p4 d) l)))]).
Proof.
  intros Hl Hn. pose proof (p4_pos d). rewrite p4_S in Hl. set (B := p4 d) in *.
  pose proof (Nat.div_mod_eq n B) as Edm. pose proof (Nat.mod_upper_bound n B ltac:(lia)).
  set (m := n / B) in *. set (r := n mod B) in *. assert (m * B <= length l) by lia. assert (m <= 4) by nia.
  assert (take n l = take (m * B) l ++ take r (drop (m * B) l)) as ->.
  { rewrite take_take_drop. f_equal. lia. }
  rewrite (chunk_app 4 m) by (rewrite ?length_take; lia). rewrite map_app.
  assert (take m (map tree_of (chunk 4 B l)) = map tree_of (chunk m B (take (m * B) l))) as ->.
  { rewrite <- (take_chunk 4) by lia. symmetry. apply fmap_take. }
  f_equal. destruct (decide (r = 0)) as [Hr|Hr]; [by rewrite Hr, take_0, chunk_nil|].
  assert (length (take r (drop (m * B) l)) = r) by (rewrite length_take, length_drop; lia).
  rewrite chunk_single; [|nia|intros E; rewrite E in *; cbn in *; lia|lia].
  rewrite take_take, Nat.min_l by lia. done.
Qed.

Lemma ltree_prefix_spec l : l <> [] -> sequence l -> forall n, 0 < n <= length l ->
  ltree_prefix (tree_of l) (Z.of_nat n) = Some (tree_of (take n l)).
Proof.
  revert l. apply (node_ind (fun l => forall n, 0 < n <= length l ->
    ltree_prefix (tree_of l) (Z.of_nat n) = Some (tree_of (take n l)))).
  - intros x Hx n Hn. cbn in Hn. assert (n = 1) as -> by lia. cbn [take]. rewrite tree_of_single.
    destruct x; cbn [ltree_prefix]; by rewrite Hx.
  - intros d l opr v Hs Hn IH n Hle. pose proof Hn as [Et Eis Ed Er _ Hd Hv Hsz Esub Hlk].
    rewrite Et. cbn [ltree_prefix]. unfold cuexP_is_ltree_node. cbn [cuex_meta]. rewrite Eis, Ed.
    rewrite (int_shl1_p4 d) by done. cbn [mbind option_bind]. pose proof (p4_pos d).
    pose proof (node_length _ _ _ _ Hn). assert (length l <= p4 (S d)) as HlS by (rewrite p4_S; nia).
    rewrite <- Nat2Z.inj_div, <- Nat2Z.inj_mod, !Nat2Z.id. pose proof (Nat.div_mod_eq n (p4 d)) as Edm.
    pose proof (Nat.mod_upper_bound n (p4 d) ltac:(lia)) as Hmod.
    destruct (decide (n <= p4 d)) as [Hsmall|Hbig].
    { assert (take n l = take n (take (p4 d) l)) as -> by (by rewrite take_take, Nat.min_l).
      destruct (IH _ (piece_in d l opr v 0 Hn ltac:(lia))) as [_ IHc]. cbn [Nat.mul drop] in IHc.
      destruct (decide (n = p4 d)) as [->|Hne].
      - rewrite Nat.div_same, Nat.Div0.mod_same by lia. cbn. rewrite take_take, Nat.min_id.
        by rewrite (Hlk 0) by lia.
      - rewrite Nat.div_small by lia. cbn [Z.of_nat Z.eqb]. rewrite list_lookup_fmap, (Hlk 0) by lia.
        change (Z.of_nat 0) with 0%Z. cbn [Z.eqb fmap option_fmap option_map mjoin option_join Nat.mul drop].
        apply IHc. rewrite length_take, drop_0. lia. }
    assert (1 <= n / p4 d) by (apply Nat.div_le_lower_bound; lia).
    rewrite (proj2 (Z.eqb_neq _ _)) by lia.
    assert ((Z.of_nat (n / p4 d) =? 1)%Z && (Z.of_nat (n mod p4 d) =? 0)%Z = false) as ->.
    { apply andb_false_iff. destruct (decide (n / p4 d = 1)) as [E1|]; [right|left]; apply Z.eqb_neq; lia || nia. }
    assert (n / p4 d <= 4) by nia. assert (n / p4 d <= length v) by nia.
    unfold oassert. rewrite (proj2 (Z.leb_le _ FANOUT)) by (change FANOUT with 4%Z; lia).
    rewrite (proj2 (Z.leb_le _ (Z.of_nat (length v)))) by lia. cbn [mbind option_bind].
    rewrite (tree_of_node d (take n l)) by (rewrite length_take; lia).
    rewrite (prefix_pieces d l n HlS) by lia. rewrite <- Esub.
    destruct (decide (n mod p4 d = 0)) as [E0|E0].
    + rewrite E0. change (Z.of_nat 0 =? 0)%Z with true. cbn [mbind option_bind]. rewrite app_nil_r.
      rewrite (proj2 (Z.leb_le _ _)) by (rewrite length_take; change FANOUT with 4%Z; lia). done.
    + rewrite (proj2 (Z.eqb_neq _ _)) by lia. rewrite list_lookup_fmap, Hlk by nia.
      cbn [fmap option_fmap option_map mjoin option_join].
      destruct (IH _ (piece_in d l opr v (n / p4 d) Hn ltac:(nia))) as [_ IHc].
      rewrite IHc by (rewrite length_take, length_drop; nia). cbn [mbind option_bind].
      rewrite (proj2 (Z.leb_le _ _)) by (rewrite length_app, length_take; cbn [length]; change FANOUT with 4%Z; nia).
      done.
Qed.

(** ** Traversal *)

Lemma ltree_forall_spec {T} (fn : ex -> clop T bool) l : l <> [] -> sequence l ->
  forall s, ltree_forall fn (tree_of l) s = cconj fn l s.
Proof.
  revert l. apply (node_ind (fun l => forall s, ltree_forall fn (tree_of l) s = cconj fn l s)).
  - intros x Hx s. rewrite tree_of_single. unfold cuexP_is_ltree_node in Hx.
    destruct x; cbn [ltree_forall]; rewrite Hx; cbn; unfold cbind; by destruct (fn _ s) as [[] s'].
  - intros d l opr v Hs Hn IH s. pose proof Hn as [Et Eis _ _ _ _ _ Hsz Esub _].
    pose proof (node_length _ _ _ _ Hn). rewrite Et. cbn [ltree_forall cuex_meta]. rewrite Eis, Esub.
    rewrite <- (concat_chunk 4 (p4 d) l) at 2 by nia. clear Et Esub Hn. revert s.
    induction (chunk 4 (p4 d) l) as [|c cs IHcs]; intros s; [done|]. cbn [map cconj concat]. rewrite cconj_app.
    unfold cbind. destruct (IH c) as [_ ->]; [by left|]. destruct (cconj fn c s) as [[] s']; [|done].
    apply IHcs. intros c' Hc'. apply IH. by right.
Qed.
End ops.
