(* ===== verification/LtreeItr.v ===== *)
(** * Left-packed trees: iterators and construction

    [rep it rest] says that an iterator has the elements [rest] before it: its stack has, for every
    level, the subtree of that level with the current element. *)

From S2P Require Export LtreeInv.
#[local] Open Scope nat_scope.

(** ** Words that differ in a successor *)

Lemma lxor_double a b : Z.lxor (2 * a + 1) (2 * b) = (2 * Z.lxor a b + 1)%Z.
Proof.
  apply Z.bits_inj'. intros n Hn. rewrite Z.lxor_spec. destruct (Z.eq_dec n 0%Z) as [->|H0].
  - by rewrite Z.testbit_odd_0, Z.testbit_even_0, Z.testbit_odd_0.
  - replace n with (Z.succ (n - 1)) by lia.
    rewrite Z.testbit_odd_succ, Z.testbit_even_succ, Z.testbit_odd_succ by lia. by rewrite Z.lxor_spec.
Qed.

(** The bits below the lowest zero change, and that one. *)
Lemma lxor_succ (i : nat) : exists t q : nat, i = 2 ^ (S t) * q + (2 ^ t - 1) /\
  Z.lxor (Z.of_nat i) (Z.of_nat i + 1) = Z.ones (Z.of_nat (S t)).
Proof.
  induction i as [i IH] using lt_wf_ind. destruct (Nat.Even_or_Odd i) as [[a ->]|[a ->]].
  - exists 0, a. split; [cbn; lia|]. rewrite Nat2Z.inj_mul. change (Z.of_nat 2) with 2%Z.
    rewrite Z.lxor_comm, lxor_double, Z.lxor_nilpotent. done.
  - destruct (IH a ltac:(lia)) as (t & q & Ea & Ex). exists (S t), q. split.
    + rewrite Nat.pow_succ_r'. rewrite Ea at 1. pose proof (Nat.pow_nonzero 2 t ltac:(lia)). cbn [Nat.pow] in *. lia.
    + rewrite Nat2Z.inj_add, Nat2Z.inj_mul. change (Z.of_nat 2) with 2%Z. change (Z.of_nat 1) with 1%Z.
      replace (2 * Z.of_nat a + 1 + 1)%Z with (2 * (Z.of_nat a + 1))%Z by lia.
      rewrite lxor_double, Ex, !Z.ones_equiv. rewrite (Nat2Z.inj_succ (S t)), Z.pow_succ_r by lia. lia.
Qed.

Lemma bit_count_ones_check :
  forallb (fun t => (cu_ulong_bit_count (Z.ones (Z.of_nat t)) =? Z.of_nat t)%Z) (seq 0 65) = true.
Proof. vm_compute. reflexivity. Qed.

Lemma bit_count_ones t : t <= 64 -> cu_ulong_bit_count (Z.ones (Z.of_nat t)) = Z.of_nat t.
Proof.
  intros Ht. pose proof bit_count_ones_check as H. rewrite forallb_forall in H.
  apply Z.eqb_eq, H. apply in_seq. lia.
Qed.

Lemma take_drop_take {A} n m k (l : list A) : m + n <= k -> take n (drop m (take k l)) = take n (drop m l).
Proof. intros H. by rewrite !take_drop_commute, take_take, Nat.min_l. Qed.

Lemma p4_pow2 k : p4 k = 2 ^ (2 * k).
Proof. apply Nat2Z.inj. rewrite p4_Z, Nat2Z.inj_pow, Nat2Z.inj_mul. done. Qed.

(** The subtree of level [k] with element [i]. *)
Definition block (k i : nat) (L : list ex) : list ex := take (p4 k) (drop (i / p4 k * p4 k) L).

Lemma block_index j k : ((Z.of_nat j >>> (LOG2_FANOUT * Z.of_nat k)) &&& FANOUT_MASK)%Z = Z.of_nat ((j / p4 k) mod 4).
Proof.
  change FANOUT_MASK with (Z.ones 2). change LOG2_FANOUT with 2%Z.
  rewrite Z.shiftr_div_pow2, Z.land_ones, <- p4_Z, <- Nat2Z.inj_div by lia.
  change (2 ^ 2)%Z with (Z.of_nat 4). by rewrite <- Nat2Z.inj_mod.
Qed.

Lemma block_up k j : j / p4 (S k) * p4 (S k) + (j / p4 k) mod 4 * p4 k = j / p4 k * p4 k.
Proof.
  rewrite p4_S, (Nat.mul_comm 4 (p4 k)), <- Nat.Div0.div_div. pose proof (Nat.div_mod_eq (j / p4 k) 4). nia.
Qed.

Lemma block_top k i L : i < p4 k -> length L <= p4 k -> block k i L = L.
Proof. intros Hi HL. unfold block. rewrite Nat.div_small by lia. cbn. by rewrite take_ge. Qed.

Lemma block_0 i L x : L !! i = Some x -> block 0 i L = [x].
Proof.
  intros Hx. unfold block. rewrite p4_0, Nat.div_1_r, Nat.mul_1_r. by rewrite (drop_S _ _ _ Hx).
Qed.

Lemma length_block k i L : length (block k i L) = Nat.min (p4 k) (length L - i / p4 k * p4 k).
Proof. unfold block. by rewrite length_take, length_drop. Qed.

Lemma block_nonempty k i L : i < length L -> block k i L <> [].
Proof.
  intros Hi E. apply (f_equal length) in E. rewrite length_block in E. cbn in E. pose proof (p4_pos k).
  pose proof (Nat.Div0.mul_div_le i (p4 k)). lia.
Qed.

Section itr.
Context `{OP : !LtreeOpr, OL : !LtreeOprLaws}.

Lemma sequence_sub L n m : sequence L -> sequence (take n (drop m L)).
Proof.
  intros [He Hl]. split; [by apply Forall_take, Forall_drop|]. rewrite length_take, length_drop. lia.
Qed.

(** One level down: a subtree that is not of its full level stays, and otherwise it is operand [index]. *)
Lemma block_down k j L : sequence L -> j < length L ->
  let y := tree_of (block (S k) j L) in let index := (j / p4 k) mod 4 in
  (index = 0 /\ block k j L = block (S k) j L /\
     (cuexP_is_ltree_node y = false \/
      cuexP_is_ltree_node y = true /\ (cuexP_oa_ltree_depth (cuex_meta y) < Z.of_nat (S k))%Z)) \/
  (cuexP_is_ltree_node y = true /\ cuexP_oa_ltree_depth (cuex_meta y) = Z.of_nat (S k) /\
   cuex_opn_at y index = Some (tree_of (block k j L))).
Proof.
  intros Hs Hj. cbn zeta. pose proof (block_up k j) as Eup. pose proof (p4_pos k). pose proof (p4_S k) as E4.
  pose proof (length_block (S k) j L) as Hlen. set (s := j / p4 (S k) * p4 (S k)) in *.
  pose proof (Nat.mod_upper_bound (j / p4 k) 4 ltac:(lia)) as Hix. set (ix := (j / p4 k) mod 4) in *.
  pose proof (Nat.Div0.mul_div_le j (p4 k)) as Hle.
  assert (sequence (block (S k) j L)) as Hsb by (by apply sequence_sub).
  destruct (Nat.le_gt_cases (length (block (S k) j L)) (p4 k)) as [Hb|Hb].
  - left. assert (ix = 0) as Hix0 by nia. rewrite Hix0 in Eup. split; [done|].
    assert (block k j L = block (S k) j L) as Eb.
    { unfold block. fold s. rewrite <- Eup, Nat.add_0_r. rewrite !take_ge by (rewrite length_drop; lia). done. }
    split; [done|]. destruct (Nat.le_gt_cases (length (block (S k) j L)) 1) as [H1|H1].
    + left. destruct (block (S k) j L) as [|x [|y l]] eqn:E; [by apply block_nonempty in E|
        |cbn in H1; lia]. rewrite tree_of_single. by apply (single_element [x]).
    + right. destruct (level_of _ H1) as [d Hd]. destruct (tree_node d _ Hsb Hd) as (opr & v & Hn).
      split; [by apply (is_node_tree d _ opr v)|]. rewrite (node_tree _ _ _ _ Hn). cbn [cuex_meta].
      rewrite (node_depth _ _ _ _ Hn). assert (d < k); [|lia]. destruct (decide (d < k)); [done|].
      pose proof (p4_le k d). lia.
  - right. destruct (tree_node k _ Hsb ltac:(lia)) as (opr & v & Hn).
    split; [by apply (is_node_tree k _ opr v)|]. rewrite (node_tree _ _ _ _ Hn). cbn [cuex_meta cuex_opn_at operands].
    split; [by apply Hn|]. unfold cuex_opn_at. cbn [operands].
    rewrite (node_lookup _ _ _ _ Hn) by nia. do 2 f_equal. unfold block. fold s.
    rewrite take_drop_take by nia. by rewrite drop_drop, Eup.
Qed.

(** ** The stack *)

Definition path_from (lo hi i : nat) (L : list ex) (st : list (option ex)) : Prop :=
  forall k, lo <= k <= hi -> st !! k = Some (Some (tree_of (block k i L))).

Lemma stack_set_spec st k x : k < length st -> stack_set st k x = Some (<[k := Some x]> st).
Proof. intros Hk. unfold stack_set. by rewrite decide_True. Qed.

Lemma itr_descend_spec L j k : sequence L -> j < length L -> forall st, k < length st ->
  st !! k = Some (Some (tree_of (block k j L))) ->
  exists st', itr_descend (Z.of_nat j) k st = Some st' /\ length st' = length st /\
    path_from 0 k j L st' /\ forall k', k < k' -> st' !! k' = st !! k'.
Proof.
  intros Hs Hj. induction k as [|k IH]; intros st Hlen Hk.
  { exists st. split_and!; [done|done| |done]. intros k' Hk'. by assert (k' = 0) as -> by lia. }
  cbn [itr_descend]. unfold stack_get. rewrite Hk. cbn [mjoin option_join mbind option_bind].
  rewrite block_index, Nat2Z.id. set (y := tree_of (block (S k) j L)).
  assert (forall o : option ex, o = Some (tree_of (block k j L)) -> exists st', (x ← o; st ← stack_set st k x;
    itr_descend (Z.of_nat j) k st) = Some st' /\ length st' = length st /\
    path_from 0 (S k) j L st' /\ forall k', S k < k' -> st' !! k' = st !! k') as Hcont.
  { intros o ->. cbn [mbind option_bind]. rewrite stack_set_spec by lia. cbn [mbind option_bind].
    destruct (IH (<[k := Some (tree_of (block k j L))]> st)) as (st' & E & Hl & Hp & Ho).
    - rewrite length_insert. lia.
    - apply list_lookup_insert_eq. lia.
    - exists st'. rewrite length_insert in Hl. split_and!; [done..| |].
      + intros k' Hk'. destruct (decide (k' = S k)) as [->|]; [|apply Hp; lia].
        rewrite Ho, list_lookup_insert_ne by lia. exact Hk.
      + intros k' Hk'. rewrite Ho, list_lookup_insert_ne by lia. done. }
  destruct (block_down k j L Hs Hj) as [(E0 & Eb & [Hn|[Hn Hd]])|(Hn & Hd & Ho)]; fold y in Hn, Hd || fold y in Hn; rewrite Hn; cbn [negb].
  - rewrite E0. cbn [Z.of_nat]. unfold oassert. rewrite Z.eqb_refl. cbn [mbind option_bind]. apply (Hcont (Some y)).
    unfold y. by rewrite Eb.
  - rewrite (proj2 (Z.ltb_lt _ _) Hd), E0. unfold oassert. cbn [Z.of_nat]. rewrite Z.eqb_refl. cbn [mbind option_bind].
    apply (Hcont (Some y)). unfold y. by rewrite Eb.
  - rewrite Hd, Z.ltb_irrefl. by apply Hcont.
Qed.

(** What remains of an iteration. *)
Inductive rep (it : itr) (rest : list ex) : Prop :=
| rep_intro L (i n D : nat) : sequence L -> i <= n <= length L -> length L <= p4 D -> D <= 16 ->
    i_cur it = Z.of_nat i -> i_end it = Z.of_nat n -> length (stack it) = 32 ->
    (i < n -> path_from 0 D i L (stack it)) -> rest = take (n - i) (drop i L) -> rep it rest.

Lemma rep_sequence it rest : rep it rest -> sequence rest.
Proof. intros [L i n D Hs _ _ _ _ _ _ _ ->]. by apply sequence_sub. Qed.

Lemma is_end_spec it rest : rep it rest -> cuex_ltree_itr_is_end it = bool_decide (rest = []).
Proof.
  intros [L i n D _ Hi _ _ Ei En _ _ ->]. unfold cuex_ltree_itr_is_end. rewrite Ei, En.
  destruct (decide (i = n)) as [->|Hne].
  - by rewrite Z.eqb_refl, Nat.sub_diag, take_0, bool_decide_eq_true_2.
  - rewrite (proj2 (Z.eqb_neq _ _)), bool_decide_eq_false_2; [done| |lia]. intros E.
    apply (f_equal length) in E. rewrite length_take, length_drop in E. cbn in E. lia.
Qed.

Lemma itr_get_end it : rep it [] -> cuex_ltree_itr_get it = Some (None, it).
Proof.
  intros Hr. pose proof (is_end_spec it [] Hr) as He. destruct Hr as [L i n D Hs Hi _ _ Ei En _ _ E].
  rewrite bool_decide_eq_true_2 in He by done. unfold cuex_ltree_itr_is_end in He. apply Z.eqb_eq in He.
  destruct Hs as [_ Hmax]. pose proof p4_16. unfold cuex_ltree_itr_get. rewrite <- He, Ei.
  unfold wadd. rewrite wrap_small by (unfold word; lia).
  rewrite (proj2 (Z.leb_le _ _)), (proj2 (Z.ltb_lt _ _)) by lia. done.
Qed.

(** The step from [i] to [S i] changes the blocks of levels up to [k], and moves within one block of level [S k]. *)
Lemma step_level i L D : S i < p4 D -> D <= 16 -> exists k, k < D /\
  ((cu_ulong_bit_count (Z.of_nat i ^^^ Z.of_nat (S i)) - 1) / LOG2_FANOUT = Z.of_nat k)%Z /\
  forall k', k < k' -> block k' (S i) L = block k' i L.
Proof.
  intros HD HD16. destruct (lxor_succ i) as (t & q & Et & Ex).
  pose proof (Nat.pow_nonzero 2 t ltac:(lia)) as H0. rewrite Nat.pow_succ_r' in Et.
  assert (2 ^ t <= S i) as Ht by nia. exists (t / 2).
  pose proof (Nat.div_mod_eq t 2) as Edm. pose proof (Nat.mod_upper_bound t 2 ltac:(lia)).
  set (k := t / 2) in *.
  assert (p4 k <= 2 ^ t) as Hk4 by (rewrite p4_pow2; apply Nat.pow_le_mono_r; lia).
  assert (k < D) as HkD. { destruct (decide (k < D)); [done|]. pose proof (p4_le D k). lia. }
  split; [done|]. split.
  - replace (Z.of_nat (S i)) with (Z.of_nat i + 1)%Z by lia. rewrite Ex, bit_count_ones by lia.
    change LOG2_FANOUT with 2%Z. replace (Z.of_nat (S t) - 1)%Z with (Z.of_nat t) by lia.
    change 2%Z with (Z.of_nat 2). by rewrite <- Nat2Z.inj_div.
  - intros k' Hk'. unfold block. do 3 f_equal. rewrite p4_pow2.
    replace (2 * k') with (S t + (2 * k' - S t)) by lia. rewrite Nat.pow_add_r, <- !Nat.Div0.div_div. f_equal.
    rewrite Nat.pow_succ_r'.
    rewrite <- (Nat.div_unique (S i) (2 * 2 ^ t) q (2 ^ t)), <- (Nat.div_unique i (2 * 2 ^ t) q (2 ^ t - 1)) by lia. done.
Qed.

Lemma itr_get_next it i k r st : i_cur it = Z.of_nat i -> i < p4 16 -> (Z.of_nat (S i) < i_end it)%Z ->
  stack it !! 0 = Some r ->
  ((cu_ulong_bit_count (Z.of_nat i ^^^ Z.of_nat (S i)) - 1) / LOG2_FANOUT = Z.of_nat k)%Z ->
  itr_descend (Z.of_nat (S i)) (S k) (stack it) = Some st ->
  cuex_ltree_itr_get it = Some (r, mk_itr (Z.of_nat (S i)) (i_end it) st).
Proof.
  intros Ei Hi He Hr Hk Hd. pose proof p4_16. unfold cuex_ltree_itr_get. rewrite Ei.
  assert (wadd (Z.of_nat i) 1 = Z.of_nat (S i)) as ->.
  { unfold wadd. rewrite wrap_small by (unfold word; lia). lia. }
  rewrite (proj2 (Z.leb_gt _ _)), Hr, Hk by lia. cbn [mbind option_bind].
  replace (Z.to_nat (Z.of_nat k + 1)) with (S k) by lia. by rewrite Hd.
Qed.

Lemma ltree_itr_get_spec it x rest : rep it (x :: rest) ->
  exists it', cuex_ltree_itr_get it = Some (Some x, it') /\ rep it' rest.
Proof.
  intros [L i n D Hs Hi HD HD16 Ei En Hlen Hst E]. destruct (decide (i < n)) as [Hlt|Hge].
  2:{ by replace (n - i) with 0 in E by lia. }
  specialize (Hst Hlt). destruct (lookup_lt_is_Some_2 L i) as [y Hy]; [lia|].
  rewrite (drop_S _ _ _ Hy) in E. replace (n - i) with (S (n - S i)) in E by lia. cbn in E. injection E as <- ->.
  pose proof (Hst 0 ltac:(lia)) as H0. rewrite (block_0 i L x Hy), tree_of_single in H0.
  pose proof Hs as [_ Hmax]. destruct (decide (S i = n)) as [<-|Hn].
  - pose proof p4_16. unfold cuex_ltree_itr_get. rewrite Ei, En.
    assert (wadd (Z.of_nat i) 1 = Z.of_nat (S i)) as ->.
    { unfold wadd. rewrite wrap_small by (unfold word; lia). lia. }
    rewrite (proj2 (Z.leb_le _ _)), (proj2 (Z.ltb_ge _ _)), H0 by lia. eexists. split; [reflexivity|].
    apply (rep_intro _ _ L (S i) (S i) D); cbn [i_cur i_end stack];
      [exact Hs|lia|exact HD|exact HD16|reflexivity|reflexivity|exact Hlen|lia|by rewrite Nat.sub_diag, take_0].
  - destruct (step_level i L D) as (k & HkD & Ek & Hup); [lia|done|].
    destruct (itr_descend_spec L (S i) (S k) Hs ltac:(lia) (stack it)) as (st' & Ed & Hl' & Hp & Ho); [lia| |].
    { rewrite Hup by lia. apply Hst. lia. }
    exists (mk_itr (Z.of_nat (S i)) (i_end it) st'). split; [apply (itr_get_next it i k); [done|lia|lia|done..]|].
    apply (rep_intro _ _ L (S i) n D); cbn [i_cur i_end stack];
      [exact Hs|lia|exact HD|exact HD16|reflexivity|exact En|by rewrite Hl'| |reflexivity].
    intros _ k' Hk'. destruct (decide (k' <= S k)); [apply Hp; lia|]. rewrite Ho, Hup by lia. apply Hst. lia.
Qed.

(** ** New iterators *)

Lemma length_new_stack : length new_stack = 32.
Proof. done. Qed.

Lemma block_start k L : block k 0 L = take (p4 k) L.
Proof. unfold block. by rewrite Nat.Div0.div_0_l, Nat.mul_0_l, drop_0. Qed.

Lemma itr_leftmost_spec L k : sequence L -> L <> [] -> (0 < k -> p4 (k - 1) < length L) -> forall st, k < length st ->
  exists st', itr_leftmost k (tree_of (block k 0 L)) st = Some (tree_of (block 0 0 L), st') /\
    length st' = length st /\ path_from 1 k 0 L st' /\ forall k', k < k' -> st' !! k' = st !! k'.
Proof.
  intros Hs Hne. induction k as [|k IH]; intros Hk st Hlen.
  { exists st. split_and!; [done|done| |done]. intros k' Hk'. lia. }
  specialize (Hk ltac:(lia)). rewrite Nat.sub_succ, Nat.sub_0_r in Hk. pose proof (p4_pos k). pose proof (p4_S k).
  destruct (tree_node k (block (S k) 0 L)) as (opr & v & Hn).
  { rewrite block_start. rewrite <- (drop_0 L). by apply sequence_sub. }
  { rewrite block_start, length_take. lia. }
  assert (cuexP_oa_ltree_depth (cuex_meta (tree_of (block (S k) 0 L))) = Z.of_nat (S k)) as Ed.
  { rewrite (node_tree _ _ _ _ Hn). apply Hn. }
  assert (cuex_opn_at (tree_of (block (S k) 0 L)) 0 = Some (tree_of (block k 0 L))) as Eo.
  { rewrite (node_tree _ _ _ _ Hn). unfold cuex_opn_at. cbn [operands].
    rewrite (node_lookup _ _ _ _ Hn) by (rewrite block_start, length_take; lia). rewrite Nat.mul_0_l, drop_0.
    do 2 f_equal. rewrite !block_start, take_take. f_equal. lia. }
  cbn [itr_leftmost]. rewrite stack_set_spec by done. cbn [mbind option_bind]. rewrite Ed, Z.eqb_refl, Eo.
  cbn [oassert mbind option_bind].
  destruct (IH ltac:(intros; assert (p4 (k - 1) <= p4 k) by (apply p4_le; lia); lia)
    (<[S k := Some (tree_of (block (S k) 0 L))]> st)) as (st' & -> & Hl & Hp & Ho); [rewrite length_insert; lia|].
  exists st'. rewrite length_insert in Hl. split_and!; [done|done| |].
  - intros k' Hk'. destruct (decide (k' = S k)) as [->|]; [|apply Hp; lia].
    rewrite Ho by lia. apply list_lookup_insert_eq. lia.
  - intros k' Hk'. rewrite Ho, list_lookup_insert_ne by lia. done.
Qed.

(** The stack of a tree with its current element. *)
Lemma path_whole D i L y st : path_from 1 D i L st -> 0 < length st -> y = tree_of (block 0 i L) ->
  path_from 0 D i L (<[0 := Some y]> st).
Proof.
  intros Hp Hst -> k Hk. destruct (decide (k = 0)) as [->|Hk0]; [by apply list_lookup_insert_eq|].
  rewrite list_lookup_insert_ne by done. apply Hp. lia.
Qed.

Lemma rep_single x i n : sequence [x] -> i <= n <= 1 ->
  rep (mk_itr (Z.of_nat i) (Z.of_nat n) (<[0 := Some x]> new_stack)) (take (n - i) (drop i [x])).
Proof.
  intros Hs Hn. apply (rep_intro _ _ [x] i n 0); [exact Hs|cbn; lia|done|lia|done|done|done| |done].
  intros Hi k Hk. assert (k = 0) as -> by lia. assert (i = 0) as -> by lia. by rewrite (block_0 0 [x] x), tree_of_single.
Qed.

Lemma rep_empty i : (0 <= i)%Z -> i = 0%Z -> rep (mk_itr i 0 new_stack) [].
Proof.
  intros _ ->. apply (rep_intro _ _ [] 0 0 0); [split; [constructor|cbn; lia]|done|cbn; lia|lia|done|done|done|lia|done].
Qed.

(** The cases of a tree. *)
Lemma ltree_cases l : sequence l -> l <> [] ->
  (exists x, l = [x] /\ tree_of l = x /\ cuexP_is_ltree_node (tree_of l) = false) \/
  (exists d opr v, node_of d l opr v /\ cuexP_is_ltree_node (tree_of l) = true /\
    cuexP_oa_ltree_depth (cuex_meta (tree_of l)) = Z.of_nat (S d) /\ p4 d < length l <= p4 (S d)).
Proof.
  intros Hs Hne. destruct (Nat.le_gt_cases (length l) 1) as [H1|H1].
  - left. destruct l as [|x [|y l]]; [done| |cbn in H1; lia]. exists x. split; [done|].
    rewrite tree_of_single. split; [done|]. by apply (single_element [x]).
  - right. destruct (level_of l H1) as [d Hd]. destruct (tree_node d l Hs Hd) as (opr & v & Hn).
    exists d, opr, v. split_and!; [done|by apply (is_node_tree d l opr v)| |lia|lia].
    rewrite (node_tree _ _ _ _ Hn). apply Hn.
Qed.

Lemma cuex_ltree_itr_init_full_spec l : sequence l -> exists it, cuex_ltree_itr_init_full (ltree l) = Some it /\ rep it l.
Proof.
  intros Hs. destruct (decide (l = [])) as [->|Hne].
  { eexists. split; [reflexivity|]. by apply rep_empty. }
  assert (ltree l = Some (tree_of l)) as El by (by destruct l).
  unfold cuex_ltree_itr_init_full. rewrite cuex_ltree_size_spec by done. rewrite El.
  destruct (ltree_cases l Hs Hne) as [(x & -> & -> & ->)|(d & opr & v & Hn & -> & -> & Hd)].
  - eexists. split; [reflexivity|]. apply (rep_single x 0 1 Hs). lia.
  - cbn zeta. replace (0 <? Z.of_nat (S d))%Z with true by (symmetry; apply Z.ltb_lt; lia). rewrite Nat2Z.id.
    pose proof (node_level _ _ _ _ Hn).
    destruct (itr_leftmost_spec l (S d) Hs Hne) with (st := new_stack) as (st' & E & Hl & Hp & _);
      [intros _; replace (S d - 1) with d by lia; lia|rewrite length_new_stack; lia|].
    rewrite block_start, take_ge in E by lia. cbn [oassert mbind option_bind]. rewrite E. cbn [mbind option_bind].
    rewrite stack_set_spec by (rewrite Hl, length_new_stack; lia). cbn [mbind option_bind].
    eexists. split; [reflexivity|].
    apply (rep_intro _ _ l 0 (length l) (S d)); cbn [i_cur i_end stack];
      [exact Hs|lia|lia|lia|reflexivity|reflexivity|by rewrite length_insert, Hl| |].
    + intros _. apply path_whole; [done|rewrite Hl, length_new_stack; lia|done].
    + by rewrite Nat.sub_0_r, drop_0, take_ge.
Qed.

Lemma itr_path_spec L j k : sequence L -> j < length L -> forall st, k < length st ->
  exists st', itr_path (Z.of_nat j) k (tree_of (block k j L)) st = Some (tree_of (block 0 j L), st') /\
    length st' = length st /\ path_from 1 k j L st' /\ forall k', k < k' -> st' !! k' = st !! k'.
Proof.
  intros Hs Hj. induction k as [|k IH]; intros st Hlen.
  { exists st. split_and!; [done|done| |done]. intros k' Hk'. lia. }
  cbn [itr_path]. rewrite stack_set_spec by done. cbn [mbind option_bind]. rewrite block_index, Nat2Z.id.
  set (y := tree_of (block (S k) j L)). set (o := if _ && _ then _ else _).
  assert (o = Some (tree_of (block k j L))) as ->.
  { unfold o. destruct (block_down k j L Hs Hj) as [(E0 & Eb & Hc)|(Hn & Hd & Ho)].
    - assert (cuexP_is_ltree_node y && (cuexP_oa_ltree_depth (cuex_meta y) =? Z.of_nat (S k))%Z = false) as ->.
      { destruct Hc as [Hn|[_ Hd]]; [unfold y; by rewrite Hn|]. rewrite (proj2 (Z.eqb_neq _ _)), andb_false_r by (fold y in Hd; lia). done. }
      rewrite E0. unfold y. by rewrite Eb.
    - fold y in Hn, Hd, Ho. by rewrite Hn, Hd, Z.eqb_refl, Ho. }
  cbn [mbind option_bind].
  destruct (IH (<[S k := Some y]> st)) as (st' & -> & Hl & Hp & Ho); [rewrite length_insert; lia|].
  exists st'. rewrite length_insert in Hl. split_and!; [done|done| |].
  - intros k' Hk'. destruct (decide (k' = S k)) as [->|]; [|apply Hp; lia].
    rewrite Ho by lia. apply list_lookup_insert_eq. lia.
  - intros k' Hk'. rewrite Ho, list_lookup_insert_ne by lia. done.
Qed.
End itr.
