(* ===== verification/LtreeFill.v ===== *)
(** * Left-packed trees: filling up and concatenation

    [ltree_fresh], [ltree_fill] and [cuex_ltree_concat] build the tree of the elements that they
    take from an iterator; the same of the functions that take them from a source. *)

From S2P Require Export LtreeItr.
#[local] Open Scope nat_scope.

Section fill.
Context `{OP : !LtreeOpr, OL : !LtreeOprLaws}.

(** The pieces of [l] at level [d], and their node. *)
Definition pieces (d : nat) (l : list ex) : list ex := map tree_of (chunk 4 (p4 d) l).

Lemma pieces_single d l : l <> [] -> length l <= p4 d -> pieces d l = [tree_of l].
Proof. intros Hne Hl. unfold pieces. by rewrite chunk_single by (done || lia). Qed.

Lemma pieces_node d l : p4 d < length l <= p4 (S d) -> ltree_opn (Z.of_nat (S d)) (pieces d l) = tree_of l.
Proof. intros Hl. symmetry. by apply tree_of_node. Qed.

Lemma pieces_take d l : pieces d (take (p4 (S d)) l) = pieces d l.
Proof. unfold pieces. rewrite p4_S, chunk_take by apply p4_pos. done. Qed.

Lemma pieces_many d l : p4 d < length l -> 2 <= length (pieces d l).
Proof.
  intros Hl. rewrite <- pieces_take. unfold pieces. rewrite length_map. pose proof (p4_pos d). pose proof (p4_S d).
  assert (p4 d < length (take (p4 (S d)) l) <= 4 * p4 d) as [H1 H2] by (rewrite length_take; lia).
  pose proof (length_chunk 4 (p4 d) (take (p4 (S d)) l) (p4_pos d)) as [H3 H4];
    [intros E; rewrite E in H1; cbn in H1; lia|done|]. nia.
Qed.

(** The node that is left out when it would have one operand. *)
Lemma pieces_pack {R} d l (f : ex -> R) (g : R) : l <> [] -> length l <= p4 (S d) ->
  (match pieces d l with [] => g | [x] => f x | v => f (ltree_opn (Z.of_nat (S d)) v) end) = f (tree_of l).
Proof.
  intros Hne Hl. destruct (Nat.le_gt_cases (length l) (p4 d)) as [H1|H1]; [by rewrite pieces_single|].
  pose proof (pieces_many d l H1) as H2. rewrite <- (pieces_node d l) by done.
  destruct (pieces d l) as [|x [|y v]]; cbn in H2; [lia..|done].
Qed.

(** Pieces of a sequence in two parts. *)
Lemma pieces_app d m l l' : length l = m * p4 d -> m <= 4 ->
  pieces d (l ++ l') = pieces d l ++ map tree_of (chunk (4 - m) (p4 d) l').
Proof.
  intros Hl Hm. unfold pieces. rewrite (chunk_app 4 m) by (done || apply p4_pos). rewrite map_app. f_equal.
  rewrite <- (app_nil_r l) at 2. by rewrite (chunk_app 4 m), chunk_nil, app_nil_r by (done || apply p4_pos).
Qed.

Lemma length_pieces d m l : length l = m * p4 d -> m <= 4 -> length (pieces d l) = m.
Proof.
  intros Hl Hm. pose proof (p4_pos d). unfold pieces. rewrite length_map. destruct (decide (l = [])) as [->|Hne].
  { rewrite chunk_nil. cbn in Hl |- *. nia. }
  pose proof (length_chunk 4 (p4 d) l (p4_pos d) Hne ltac:(nia)) as [H1 H2]. nia.
Qed.

(** ** From an iterator *)

Definition fresh_ok (d : nat) : Prop := forall it rest, rep it rest -> rest <> [] ->
  exists it', ltree_fresh d it = Some (tree_of (take (p4 d) rest), it') /\ rep it' (drop (p4 d) rest).

Lemma fill_array_spec d : fresh_ok d -> forall n v it rest, rep it rest ->
  exists it', fill_array (ltree_fresh d) n v it = Some (v ++ map tree_of (chunk n (p4 d) rest), it') /\
    rep it' (drop (n * p4 d) rest).
Proof.
  intros Hf n. induction n as [|n IH]; intros v it rest Hr.
  { exists it. cbn. by rewrite app_nil_r, drop_0. }
  cbn [fill_array]. rewrite (is_end_spec it rest Hr). case_bool_decide as E.
  - exists it. subst rest. cbn [chunk map]. by rewrite app_nil_r, drop_nil.
  - destruct (Hf it rest Hr E) as (it1 & -> & Hr1). cbn [mbind option_bind].
    destruct (IH (v ++ [tree_of (take (p4 d) rest)]) it1 _ Hr1) as (it2 & -> & Hr2). exists it2.
    rewrite chunk_cons by done. cbn [map]. rewrite <- app_assoc. split; [done|].
    rewrite drop_drop in Hr2. exact Hr2.
Qed.

Lemma ltree_fresh_spec d : fresh_ok d.
Proof.
  induction d as [|d IH]; intros it rest Hr Hne.
  - destruct rest as [|x rest]; [done|]. destruct (ltree_itr_get_spec it x rest Hr) as (it' & E & Hr'). exists it'.
    cbn [ltree_fresh]. rewrite E. cbn [mbind option_bind]. rewrite p4_0. cbn [take drop]. by rewrite tree_of_single.
  - cbn [ltree_fresh]. destruct (fill_array_spec d IH 4 [] it rest Hr) as (it' & E & Hr').
    change (Z.to_nat FANOUT) with 4. rewrite E. cbn [mbind option_bind app]. fold (pieces d rest).
    rewrite <- pieces_take. exists it'. rewrite <- p4_S in Hr'. split; [|done].
    rewrite <- (pieces_pack d (take (p4 (S d)) rest) (fun x => Some (x, it')) None).
    + pose proof (p4_pos (S d)). destruct (pieces d (take (p4 (S d)) rest)) as [|x [|y v]] eqn:Ep; [|done..].
      exfalso. apply (f_equal length) in Ep. revert Ep. unfold pieces. rewrite length_map.
      destruct rest as [|z rest]; [done|]. destruct (p4 (S d)); [lia|done].
    + pose proof (p4_pos (S d)). destruct rest; [done|]. by destruct (p4 (S d)); [lia|].
    + rewrite length_take. lia.
Qed.

(** What is taken in two steps. *)
Lemma take_two {A} a n k (R : list A) : a <= n - k ->
  take a R ++ take (n - (k + length (take a R))) (drop a R) = take (n - k) R /\
  drop (n - (k + length (take a R))) (drop a R) = drop (n - k) R.
Proof.
  intros Ha. rewrite length_take. destruct (Nat.le_gt_cases (length R) a) as [H|H].
  - rewrite (drop_ge R a), take_nil, drop_nil, app_nil_r, !take_ge, drop_ge by lia. done.
  - rewrite Nat.min_l by lia. rewrite drop_drop. replace (a + (n - (k + a))) with (n - k) by lia. split; [|done].
    rewrite take_drop_commute. replace (a + (n - (k + a))) with (n - k) by lia.
    rewrite <- (take_drop a (take (n - k) R)) at 2. by rewrite take_take, Nat.min_l by lia.
Qed.

Lemma fill_levels_spec fuel : forall d xdepth l0 it rest, rep it rest ->
  (p4 d < length l0 \/ length l0 = p4 d /\ rest <> []) -> length l0 <= p4 (S d) ->
  (rest = [] \/ exists m, length l0 = m * p4 d) -> S d <= xdepth -> xdepth <= d + fuel ->
  exists it', fill_levels fuel d xdepth (pieces d l0) it =
      Some (tree_of (l0 ++ take (p4 xdepth - length l0) rest), it') /\
    rep it' (drop (p4 xdepth - length l0) rest).
Proof.
  induction fuel as [|fuel IH]; intros d xdepth l0 it rest Hr Hmore Hl Hal Hd Hf; [lia|]. cbn [fill_levels].
  pose proof (p4_pos d). pose proof (p4_S d) as E4.
  destruct (fill_array_spec d (ltree_fresh_spec d) (rest_of (pieces d l0)) (pieces d l0) it rest Hr) as (it1 & -> & Hr1).
  cbn [mbind option_bind]. set (a := p4 (S d) - length l0).
  assert (pieces d l0 ++ map tree_of (chunk (rest_of (pieces d l0)) (p4 d) rest) = pieces d (l0 ++ take a rest) /\
    drop (rest_of (pieces d l0) * p4 d) rest = drop a rest) as [-> E2].
  { destruct Hal as [->|[m Hm]]; [by rewrite chunk_nil, take_nil, !drop_nil, !app_nil_r|].
    assert (m <= 4) by nia. unfold rest_of. rewrite (length_pieces d m) by done. change (Z.to_nat FANOUT) with 4.
    replace ((4 - m) * p4 d) with a by (unfold a; nia). split; [|done].
    rewrite (pieces_app d m) by done. replace a with ((4 - m) * p4 d) by (unfold a; nia).
    rewrite chunk_take by done. done. }
  rewrite E2 in Hr1. set (l1 := l0 ++ take a rest).
  assert (length l1 <= p4 (S d)) by (unfold l1; rewrite length_app, length_take; lia).
  assert (p4 d < length l1).
  { unfold l1. rewrite length_app, length_take. destruct Hmore as [Hm|[Hm Hne]]; [lia|]. destruct rest; [done|]. cbn. lia. }
  rewrite pieces_node by done. rewrite (is_end_spec it1 _ Hr1). pose proof (p4_le (S d) xdepth Hd) as Hx.
  destruct (take_two a (p4 xdepth) (length l0) rest ltac:(lia)) as [T1 T2].
  assert (length l1 = length l0 + length (take a rest)) as El1 by apply length_app. rewrite <- El1 in T1, T2.
  destruct (decide (S (S d) <= xdepth /\ drop a rest <> [])) as [[Hc1 Hc2]|Hc].
  - rewrite (proj2 (Nat.leb_le _ _)) by done. rewrite bool_decide_eq_false_2 by done. cbn [andb negb].
    assert (length l1 = p4 (S d)) as Efull.
    { rewrite El1, length_take. assert (0 < length (drop a rest)) as Hp by (destruct (drop a rest); [done|cbn; lia]).
      rewrite length_drop in Hp. lia. }
    rewrite <- (pieces_single (S d) l1) by (lia || (intros E; rewrite E in Efull; cbn in Efull; lia)).
    destruct (IH (S d) xdepth l1 it1 (drop a rest) Hr1) as (it2 & -> & Hr2);
      [auto|rewrite p4_S; lia|right; exists 1; lia|done|lia|].
    exists it2. rewrite T2 in Hr2. split; [|done]. unfold l1 at 1. rewrite <- app_assoc. by rewrite T1.
  - replace ((S (S d) <=? xdepth) && negb (bool_decide (drop a rest = []))) with false.
    2:{ symmetry. destruct (Nat.leb_spec (S (S d)) xdepth); [|done]. rewrite bool_decide_eq_true_2; [done|].
        destruct (decide (drop a rest = [])); [done|]. exfalso. auto. }
    exists it1. assert (take (p4 xdepth - length l1) (drop a rest) = [] /\
      drop (p4 xdepth - length l1) (drop a rest) = drop a rest) as [T3 T4].
    { destruct (decide (drop a rest = [])) as [->|Hne]; [by rewrite take_nil, drop_nil|].
      assert (xdepth = S d) as -> by (destruct (decide (S (S d) <= xdepth)); [exfalso; auto|lia]).
      assert (length l1 = p4 (S d)) as ->; [|by rewrite Nat.sub_diag, take_0, drop_0].
      rewrite El1, length_take. assert (0 < length (drop a rest)) as Hp by (destruct (drop a rest); [done|cbn; lia]).
      rewrite length_drop in Hp. lia. }
    rewrite T3, app_nil_r in T1. rewrite T4 in T2. rewrite <- T1, <- T2. done.
Qed.

(** A node without its last operand, and that operand. *)
Lemma node_split d l opr v : sequence l -> node_of d l opr v -> exists a c, l = a ++ c /\ length a = (length v - 1) * p4 d /\
  0 < length c <= p4 d /\ sequence c /\ take (length v - 1) v = pieces d a /\ v !! (length v - 1) = Some (tree_of c) /\
  forall c', 0 < length c' <= p4 d -> pieces d a ++ [tree_of c'] = pieces d (a ++ c').
Proof.
  intros Hs Hn. pose proof (node_size _ _ _ _ Hn) as Hsz. pose proof (node_length _ _ _ _ Hn) as Hv.
  set (r := length v - 1) in *. pose proof (p4_pos d). exists (take (r * p4 d) l), (drop (r * p4 d) l).
  assert (length (take (r * p4 d) l) = r * p4 d) as Ha by (rewrite length_take; lia).
  assert (0 < length (drop (r * p4 d) l) <= p4 d) as Hc by (rewrite length_drop; nia).
  split_and!; [by rewrite take_drop|done|lia|lia| | | |].
  - rewrite <- (take_ge (drop (r * p4 d) l) (length l)) by (rewrite length_drop; lia). by apply sequence_sub.
  - rewrite (node_subs _ _ _ _ Hn) at 1. unfold pieces. rewrite firstn_map. rewrite (take_chunk 4 r) by lia.
    rewrite <- (app_nil_r (take (r * p4 d) l)) at 2. by rewrite (chunk_app 4 r), chunk_nil, app_nil_r by (done || lia).
  - rewrite (node_lookup _ _ _ _ Hn) by lia. by rewrite take_ge by lia.
  - intros c' Hc'. rewrite (pieces_app d r) by (done || lia). f_equal. rewrite chunk_single; [done|lia| |lia].
    intros ->. cbn in Hc'. lia.
Qed.

Lemma ltree_fill_spec fuel : forall xdepth l it rest, sequence l -> l <> [] -> rep it rest -> rest <> [] ->
  length l <= p4 xdepth -> xdepth < fuel ->
  exists it', ltree_fill fuel xdepth (tree_of l) it = Some (tree_of (l ++ take (p4 xdepth - length l) rest), it') /\
    rep it' (drop (p4 xdepth - length l) rest).
Proof.
  induction fuel as [|fuel IH]; intros xdepth l it rest Hs Hne Hr Hrne Hl Hf; [lia|].
  unfold ltree_fill; fold ltree_fill. destruct (ltree_cases l Hs Hne) as [(x & El & Et & Hx)|(d & opr & v & Hn & Hx & Hd & Hsz)].
  - rewrite Hx. cbn [negb]. destruct (decide (xdepth = 0)) as [->|H0].
    + subst l. cbn [Nat.eqb length]. rewrite p4_0, take_0, drop_0, app_nil_r. by exists it.
    + rewrite (proj2 (Nat.eqb_neq _ _)) by done.
      rewrite <- (pieces_single 0 l) by (done || subst l; cbn; rewrite ?p4_0; lia).
      apply fill_levels_spec; [done|right; subst l; by rewrite p4_0|subst l; pose proof (p4_pos 1); cbn; lia| |lia|lia].
      right. exists 1. subst l. by rewrite p4_0.
  - rewrite Hx, Hd. cbn [negb]. cbn zeta. pose proof (p4_pos d). pose proof (p4_S d).
    destruct (node_split d l opr v Hs Hn) as (a & c & El & Ha & Hc & Hcs & Ea & Ec & Hap).
    pose proof (node_length _ _ _ _ Hn) as Hv.
    assert (cuex_opn_arity (tree_of l) = Z.of_nat (length v)) as ->
      by (rewrite (node_tree _ _ _ _ Hn); apply (node_arity _ _ _ _ Hn)).
    assert (operands (tree_of l) = v) as Ev by (by rewrite (node_tree _ _ _ _ Hn)).
    unfold cuex_opn_at. rewrite Ev. replace (Z.to_nat (Z.of_nat (length v) - 1)) with (length v - 1) by lia.
    rewrite Ea, Ec. replace (0 <? Z.of_nat (length v))%Z with true by (symmetry; apply Z.ltb_lt; lia).
    replace (0 <? Z.of_nat (S d))%Z with true by (symmetry; apply Z.ltb_lt; lia).
    cbn [oassert mbind option_bind]. replace (Z.to_nat (Z.of_nat (S d)) - 1) with d by lia.
    replace (Z.to_nat (Z.of_nat (S d) - 1)) with d by lia.
    set (k := p4 d - length c). assert (c <> []) as Hcne by (intros ->; cbn in Hc; lia).
    assert (d < xdepth) as Hdx. { destruct (decide (d < xdepth)); [done|]. pose proof (p4_le xdepth d). lia. }
    assert (exists it1, (if (1 <? Z.of_nat (S d))%Z then ltree_fill fuel d (tree_of c) it else Some (tree_of c, it)) =
      Some (tree_of (c ++ take k rest), it1) /\ rep it1 (drop k rest)) as (it1 & -> & Hr1).
    { destruct (Z.ltb_spec 1 (Z.of_nat (S d))) as [H1|H1].
      - apply IH; [done..|lia|lia].
      - assert (k = 0) as -> by (unfold k; assert (d = 0) as -> by lia; rewrite p4_0; lia). exists it.
        by rewrite take_0, drop_0, app_nil_r. }
    cbn [mbind option_bind]. rewrite Hap by (rewrite length_app, length_take; lia).
    rewrite app_assoc, <- El. set (l0 := l ++ take k rest).
    assert (length l0 = length l + length (take k rest)) as El0 by apply length_app.
    assert (length l = (length v - 1) * p4 d + length c) as Ell by (rewrite El, length_app; lia).
    pose proof (p4_le (S d) xdepth ltac:(lia)).
    assert (length v * p4 d = (length v - 1) * p4 d + p4 d) as Em by nia.
    assert (length v * p4 d <= 4 * p4 d) by nia.
    destruct (take_two k (p4 xdepth) (length l) rest) as [T1 T2]; [unfold k; lia|]. rewrite <- El0 in T1, T2.
    destruct (fill_levels_spec (S fuel) d xdepth l0 it1 (drop k rest)) as (it2 & -> & Hr2);
      [done|lia|rewrite El0, length_take; lia| |lia|lia|].
    { destruct (decide (drop k rest = [])) as [|Hk]; [by left|right]. exists (length v).
      assert (0 < length (drop k rest)) as Hp by (destruct (drop k rest); [done|cbn; lia]).
      rewrite length_drop in Hp. rewrite El0, length_take. lia. }
    exists it2. rewrite T2 in Hr2. split; [|done]. unfold l0 at 1. rewrite <- app_assoc. by rewrite T1.
Qed.

Lemma concat_levels_spec fuel : forall depth l it rest, l <> [] -> rep it rest ->
  (length l = p4 depth \/ rest = []) -> length (l ++ rest) <= p4 (depth + fuel) ->
  concat_levels fuel depth (tree_of l) it = Some (tree_of (l ++ rest)).
Proof.
  induction fuel as [|fuel IH]; intros depth l it rest Hne Hr Hal Hl; cbn [concat_levels];
    rewrite (is_end_spec it rest Hr); case_bool_decide as E; try (by rewrite E, app_nil_r).
  - exfalso. rewrite Nat.add_0_r, length_app in Hl. destruct rest; [done|]. cbn in Hl. destruct Hal; [lia|done].
  - destruct Hal as [Hal|]; [|done]. pose proof (p4_pos depth). pose proof (p4_S depth).
    change (Z.to_nat FANOUT - 1) with 3.
    destruct (fill_array_spec depth (ltree_fresh_spec depth) 3 [tree_of l] it rest Hr) as (it1 & -> & Hr1).
    cbn [mbind option_bind]. set (a := 3 * p4 depth) in *. set (l1 := l ++ take a rest).
    assert (0 < length rest) by (destruct rest; [done|cbn; lia]).
    assert (length l1 = p4 depth + Nat.min a (length rest)) as El1 by (unfold l1; rewrite length_app, length_take; lia).
    rewrite <- (pieces_single depth l) by (done || lia).
    assert (pieces depth l ++ map tree_of (chunk 3 (p4 depth) rest) = pieces depth l1) as ->.
    { unfold l1. rewrite (pieces_app depth 1) by lia. f_equal. f_equal. unfold a. symmetry. by apply chunk_take. }
    rewrite pieces_node by lia. rewrite IH with (rest := drop a rest); [|by intros E1; rewrite E1 in El1; cbn in El1; lia|done| |].
    + unfold l1. by rewrite <- app_assoc, take_drop.
    + destruct (decide (drop a rest = [])) as [|Hk]; [by right|left].
      assert (0 < length (drop a rest)) as Hp by (destruct (drop a rest); [done|cbn; lia]).
      rewrite length_drop in Hp. lia.
    + unfold l1. rewrite <- app_assoc, take_drop. by replace (S depth + fuel) with (depth + S fuel) by lia.
Qed.

Lemma ltree_some l : l <> [] -> ltree l = Some (tree_of l).
Proof. by destruct l. Qed.

Lemma sequence_app l l' : sequence (l ++ l') -> sequence l /\ sequence l'.
Proof.
  intros [He Hl]. apply Forall_app in He as [H1 H2]. rewrite length_app in Hl. split; split; done || lia.
Qed.

Lemma sequence_levels l depth : sequence l -> length l <= p4 (depth + levels).
Proof. intros [_ Hl]. change levels with (16 + 16). etrans; [exact Hl|]. apply p4_le. lia. Qed.

Lemma cuex_ltree_concat_spec l l' : sequence (l ++ l') ->
  cuex_ltree_concat (ltree l) (ltree l') = Some (ltree (l ++ l')).
Proof.
  intros Hs. destruct (sequence_app l l' Hs) as [Hs1 Hs2]. destruct (decide (l = [])) as [->|H1]; [done|].
  destruct (decide (l' = [])) as [->|H2]; [rewrite app_nil_r; by destruct l|].
  unfold cuex_ltree_concat. destruct (cuex_ltree_itr_init_full_spec l' Hs2) as (it & Ei & Hr).
  rewrite (ltree_some l H1). rewrite Ei. rewrite (ltree_some l' H2). cbn [mbind option_bind].
  rewrite ltree_some by (by destruct l).
  destruct (ltree_cases l Hs1 H1) as [(x & El & Et & Hx)|(d & opr & v & Hn & Hx & Hd & Hsz)]; rewrite Hx.
  - rewrite (concat_levels_spec levels 0 l it l'); [done..|left; by rewrite El, p4_0|by apply (sequence_levels _ 0)].
  - rewrite Hd. cbn zeta. replace (0 <? Z.of_nat (S d))%Z with true by (symmetry; apply Z.ltb_lt; lia).
    rewrite Nat2Z.id. cbn [oassert mbind option_bind]. pose proof (node_level _ _ _ _ Hn).
    destruct (ltree_fill_spec levels (S d) l it l') as (it1 & -> & Hr1); [done..|lia|change levels with 32; lia|].
    cbn [mbind option_bind]. set (a := p4 (S d) - length l) in *.
    assert (length (l ++ take a l') = length l + Nat.min a (length l')) as El1 by (by rewrite length_app, length_take, Nat.min_comm).
    rewrite (concat_levels_spec levels (S d) _ it1 (drop a l')); [|by destruct l|done| |].
    + by rewrite <- app_assoc, take_drop.
    + destruct (decide (drop a l' = [])) as [|Hk]; [by right|left].
      assert (0 < length (drop a l')) as Hp by (destruct (drop a l'); [done|cbn; lia]).
      rewrite length_drop in Hp. lia.
    + rewrite <- app_assoc, take_drop. by apply sequence_levels.
Qed.

(** C4: cuex_ltree_concat of the trees of two sequences (the iteration over the second tree, the
    filling up of the last operands of the first one, and the new levels above it) gives the tree
    of their concatenation, [ltree (l ++ l')], which depends on the sequence alone.  Nothing is said of
    trees that are built in other ways: cuex_ltree_append_from_source and cuex_ltree_from_valist can
    give another tree of the same elements, when a source ends before it has filled up the tree. *)
Theorem cuex_ltree_concat_correct l l' : sequence (l ++ l') ->
  cuex_ltree_concat (ltree l) (ltree l') = Some (ltree (l ++ l')).
Proof. apply cuex_ltree_concat_spec. Qed.
End fill.
