(* ===== verification/LtreeSlice.v ===== *)
(** * Left-packed trees: elements, slices, and trees from sources

    The functions of [cuex/ltree.h] on whole trees, with indices relative to the end, and the
    functions that build trees from arrays and sources. *)

From S2P Require Export LtreeFill.
#[local] Open Scope nat_scope.

Section slice.
Context `{OP : !LtreeOpr, OL : !LtreeOprLaws}.

(** An index, which is relative to the end when it is negative. *)
Definition from_end (n : nat) (i : Z) : Z := if (i <? 0)%Z then (i + Z.of_nat n)%Z else i.

Lemma relative_spec l i j : sequence l ->
  relative (ltree l) i j = Some (from_end (length l) i, from_end (length l) j).
Proof.
  intros Hs. unfold relative, from_end. rewrite cuex_ltree_size_spec by done.
  destruct (i <? 0)%Z; [done|]. by destruct (j <? 0)%Z.
Qed.

(** The end of a slice. *)
Definition slice_end (n : nat) (j : Z) : Z := if (j =? CUEX_LTREE_END)%Z then Z.of_nat n else from_end n j.

Lemma from_end_nat n (a : nat) : from_end n (Z.of_nat a) = Z.of_nat a.
Proof. unfold from_end. by rewrite (proj2 (Z.ltb_ge _ _)) by lia. Qed.

Lemma sequence_max l : sequence l -> (Z.of_nat (length l) < CUEX_LTREE_END)%Z.
Proof. intros [_ Hl]. pose proof p4_16. change CUEX_LTREE_END with 9223372036854775807%Z. lia. Qed.

(** The end of a slice against the size. *)
Lemma finish_spec l j b : sequence l -> b <= length l -> (j = Z.of_nat b \/ j = CUEX_LTREE_END /\ b = length l) ->
  (if (j <? Z.of_nat (length l))%Z then Some j
   else _ ← oassert ((j =? Z.of_nat (length l)) || (j =? CUEX_LTREE_END))%Z; Some (Z.of_nat (length l))) = Some (Z.of_nat b).
Proof.
  intros Hs Hb Hj. pose proof (sequence_max l Hs). destruct Hj as [->|[-> ->]].
  - destruct (Z.ltb_spec (Z.of_nat b) (Z.of_nat (length l))); [done|].
    assert (b = length l) as -> by lia. by rewrite Z.eqb_refl.
  - rewrite (proj2 (Z.ltb_ge _ _)), Z.eqb_refl, orb_true_r by lia. done.
Qed.

Lemma init_slice_spec l a b j : sequence l -> a < b <= length l ->
  (j = Z.of_nat b \/ j = CUEX_LTREE_END /\ b = length l) ->
  exists it, cuex_ltree_itr_init_slice (ltree l) (Z.of_nat a) j = Some it /\ rep it (take (b - a) (drop a l)).
Proof.
  intros Hs Hab Hj. assert (l <> []) as Hne by (intros ->; cbn in Hab; lia).
  assert (Z.of_nat a <= j)%Z as Haj by (pose proof (sequence_max l Hs); destruct Hj as [->|[-> _]]; lia).
  unfold cuex_ltree_itr_init_slice. rewrite relative_spec, from_end_nat by done.
  assert (from_end (length l) j = j) as -> by (unfold from_end; rewrite (proj2 (Z.ltb_ge _ _)) by lia; done).
  cbn [mbind option_bind]. rewrite !(proj2 (Z.leb_le _ _)) by lia. cbn [oassert andb mbind option_bind].
  rewrite cuex_ltree_size_spec by done. rewrite ltree_some by done.
  destruct (ltree_cases l Hs Hne) as [(x & -> & -> & ->)|(d & opr & v & Hn & -> & -> & Hd)].
  - rewrite stack_set_spec by (rewrite length_new_stack; lia). cbn [mbind option_bind].
    pose proof (finish_spec [x] j b Hs ltac:(lia) Hj) as Hfin. cbn [length] in Hfin, Hab. change (Z.of_nat 1) with 1%Z in Hfin.
    rewrite Hfin. cbn [mbind option_bind]. eexists. split; [reflexivity|]. apply (rep_single x a b Hs). lia.
  - cbn zeta. replace (0 <? Z.of_nat (S d))%Z with true by (symmetry; apply Z.ltb_lt; lia). rewrite Nat2Z.id.
    pose proof (node_level _ _ _ _ Hn). cbn [oassert mbind option_bind].
    rewrite (proj2 (Z.eqb_neq _ _)), (proj2 (Z.leb_le _ _)) by lia. cbn [mbind option_bind].
    destruct (itr_path_spec l a (S d) Hs ltac:(lia) new_stack) as (st' & E & Hl & Hp & _); [rewrite length_new_stack; lia|].
    rewrite block_top in E by lia. rewrite E. cbn [mbind option_bind].
    rewrite stack_set_spec by (rewrite Hl, length_new_stack; lia). cbn [mbind option_bind].
    rewrite (finish_spec l j b Hs) by (done || lia). cbn [mbind option_bind].
    eexists. split; [reflexivity|].
    apply (rep_intro _ _ l a b (S d)); cbn [i_cur i_end stack];
      [exact Hs|lia|lia|lia|reflexivity|reflexivity|by rewrite length_insert, Hl| |reflexivity].
    intros _. apply path_whole; [done|rewrite Hl, length_new_stack; lia|done].
Qed.

Lemma cuex_ltree_prefix_spec l n : sequence l -> n <= length l ->
  cuex_ltree_prefix (ltree l) (Z.of_nat n) = Some (ltree (take n l)).
Proof.
  intros Hs Hn. unfold cuex_ltree_prefix. rewrite (proj2 (Z.ltb_ge _ _)) by lia. cbn [mbind option_bind].
  destruct (Z.eqb_spec (Z.of_nat n) 0) as [E|E]; [by assert (n = 0) as -> by lia|].
  assert (l <> []) as Hne by (intros ->; cbn in Hn; lia). rewrite (ltree_some l Hne). cbn [mbind option_bind].
  rewrite ltree_prefix_spec by (done || lia). cbn [mbind option_bind]. rewrite ltree_some; [done|].
  intros E'. apply (f_equal length) in E'. rewrite length_take in E'. cbn in E'. lia.
Qed.

Lemma cuex_ltree_slice_spec l i j a b : sequence l -> a <= b <= length l ->
  from_end (length l) i = Z.of_nat a -> slice_end (length l) j = Z.of_nat b ->
  (j = CUEX_LTREE_END -> a < length l \/ a = 0) ->
  cuex_ltree_slice (ltree l) i j = Some (ltree (take (b - a) (drop a l))).
Proof.
  intros Hs Hab Ei Ej Hend. unfold cuex_ltree_slice. rewrite relative_spec, Ei by done. cbn [mbind option_bind].
  pose proof (sequence_max l Hs) as Hmax. unfold slice_end in Ej. destruct (Z.eqb_spec j CUEX_LTREE_END) as [->|Hj].
  - assert (b = length l) as -> by lia.
    assert (from_end (length l) CUEX_LTREE_END = CUEX_LTREE_END) as -> by done.
    rewrite (proj2 (Z.eqb_neq _ _)) by lia. specialize (Hend eq_refl).
    destruct (Z.eqb_spec (Z.of_nat a) 0) as [E|E].
    + assert (a = 0) as -> by lia. by rewrite Z.eqb_refl, Nat.sub_0_r, drop_0, take_ge.
    + destruct (init_slice_spec l a (length l) CUEX_LTREE_END Hs) as (it & -> & Hr); [lia|auto|].
      cbn [mbind option_bind]. assert (take (length l - a) (drop a l) <> []) as Hne.
      { intros E'. apply (f_equal length) in E'. rewrite length_take, length_drop in E'. cbn in E'. lia. }
      destruct (ltree_fresh_spec (levels - 1) it _ Hr Hne) as (it' & -> & _). cbn [mbind option_bind].
      rewrite ltree_some, (take_ge _ (p4 (levels - 1))); [done| |done].
      rewrite length_take, length_drop. destruct Hs as [_ Hl]. pose proof (p4_le 16 (levels - 1) ltac:(change levels with 32; lia)). lia.
  - rewrite Ej. destruct (Z.eqb_spec (Z.of_nat a) (Z.of_nat b)) as [E|E].
    { assert (a = b) as -> by lia. by rewrite Nat.sub_diag, take_0. }
    destruct (Z.eqb_spec (Z.of_nat a) 0) as [E0|E0].
    + assert (a = 0) as -> by lia. rewrite (proj2 (Z.eqb_neq _ _)) by lia.
      rewrite Nat.sub_0_r, drop_0. apply cuex_ltree_prefix_spec; [done|lia].
    + destruct (init_slice_spec l a b (Z.of_nat b) Hs) as (it & -> & Hr); [lia|auto|].
      cbn [mbind option_bind]. assert (take (b - a) (drop a l) <> []) as Hne.
      { intros E'. apply (f_equal length) in E'. rewrite length_take, length_drop in E'. cbn in E'. lia. }
      destruct (ltree_fresh_spec (levels - 1) it _ Hr Hne) as (it' & -> & _). cbn [mbind option_bind].
      rewrite ltree_some, (take_ge _ (p4 (levels - 1))); [done| |done].
      rewrite length_take, length_drop. destruct Hs as [_ Hl]. pose proof (p4_le 16 (levels - 1) ltac:(change levels with 32; lia)). lia.
Qed.

(** The empty slice from the size to [CUEX_LTREE_END]: an operation without operands. *)
Lemma ltree_fresh_at_end d it : cuex_ltree_itr_is_end it = true ->
  ltree_fresh (S d) it = Some (ltree_opn (Z.of_nat (S d)) [], it).
Proof. intros E. cbn [ltree_fresh]. change (Z.to_nat FANOUT) with 4. cbn [fill_array]. by rewrite E. Qed.

Lemma init_slice_at_end l : sequence l -> l <> [] ->
  exists it, cuex_ltree_itr_init_slice (ltree l) (Z.of_nat (length l)) CUEX_LTREE_END = Some it /\
    cuex_ltree_itr_is_end it = true.
Proof.
  intros Hs Hne. pose proof (sequence_max l Hs). unfold cuex_ltree_itr_init_slice. rewrite relative_spec, from_end_nat by done.
  assert (from_end (length l) CUEX_LTREE_END = CUEX_LTREE_END) as -> by done.
  cbn [mbind option_bind]. rewrite !(proj2 (Z.leb_le _ _)) by lia. cbn [oassert andb mbind option_bind].
  rewrite cuex_ltree_size_spec by done. rewrite ltree_some by done.
  destruct (ltree_cases l Hs Hne) as [(x & -> & -> & ->)|(d & opr & v & Hn & -> & -> & Hd)].
  - eexists. split; [reflexivity|]. reflexivity.
  - cbn zeta. replace (0 <? Z.of_nat (S d))%Z with true by (symmetry; apply Z.ltb_lt; lia).
    cbn [oassert mbind option_bind]. rewrite Z.eqb_refl. eexists. split; [reflexivity|]. apply Z.eqb_refl.
Qed.

Lemma cuex_ltree_slice_at_end l i : sequence l -> l <> [] -> from_end (length l) i = Z.of_nat (length l) ->
  cuex_ltree_slice (ltree l) i CUEX_LTREE_END = Some (Some (ltree_opn (Z.of_nat (levels - 1)) [])).
Proof.
  intros Hs Hne Ei. pose proof (sequence_max l Hs). unfold cuex_ltree_slice. rewrite relative_spec, Ei by done.
  assert (from_end (length l) CUEX_LTREE_END = CUEX_LTREE_END) as -> by done. cbn [mbind option_bind].
  assert (length l <> 0) by (by destruct l). rewrite !(proj2 (Z.eqb_neq _ _)) by lia.
  destruct (init_slice_at_end l Hs Hne) as (it & -> & E). cbn [mbind option_bind].
  change (levels - 1) with (S 30). by rewrite ltree_fresh_at_end.
Qed.

(** C14: for indices that are in range, negative ones relative to the end and CUEX_LTREE_END for the
    end, cuex_ltree_slice gives the tree of the elements from the first index up to the second, by
    sharing the subtrees of a prefix or by building a new tree along an iteration; but not for
    the empty slice from the size to CUEX_LTREE_END. *)
Theorem cuex_ltree_slice_correct l i j a b : sequence l -> a <= b <= length l ->
  from_end (length l) i = Z.of_nat a -> slice_end (length l) j = Z.of_nat b ->
  (j = CUEX_LTREE_END -> a < length l \/ a = 0) ->
  cuex_ltree_slice (ltree l) i j = Some (ltree (take (b - a) (drop a l))).
Proof. apply cuex_ltree_slice_spec. Qed.

(** What [n] calls of [cuex_ltree_itr_get] return. *)
Fixpoint itr_gets (n : nat) (it : itr) : option (list (option ex) * itr) :=
  match n with
  | O => Some ([], it)
  | S n => '(x, it) ← cuex_ltree_itr_get it; '(xs, it) ← itr_gets n it; Some (x :: xs, it)
  end.

Lemma itr_gets_spec rest : forall it, rep it rest ->
  exists it', itr_gets (length rest) it = Some (map Some rest, it') /\ rep it' [].
Proof.
  induction rest as [|x rest IH]; intros it Hr; [by exists it|]. cbn [length itr_gets map].
  destruct (ltree_itr_get_spec it x rest Hr) as (it1 & -> & Hr1). cbn [mbind option_bind].
  destruct (IH it1 Hr1) as (it2 & -> & Hr2). by exists it2.
Qed.

(** C15: an iterator over a slice of a tree, or over a whole tree, is not at its end, and
    cuex_ltree_itr_get returns the elements of the slice in their order; then it is at its end, and
    cuex_ltree_itr_get returns NULL and leaves it as it is. *)
Theorem cuex_ltree_itr_correct l a b j : sequence l -> a < b <= length l ->
  (j = Z.of_nat b \/ j = CUEX_LTREE_END /\ b = length l) ->
  forall init, init = cuex_ltree_itr_init_slice (ltree l) (Z.of_nat a) j \/
    a = 0 /\ b = length l /\ init = cuex_ltree_itr_init_full (ltree l) ->
  exists it it', init = Some it /\ cuex_ltree_itr_is_end it = false /\
    itr_gets (b - a) it = Some (map Some (take (b - a) (drop a l)), it') /\
    cuex_ltree_itr_is_end it' = true /\ cuex_ltree_itr_get it' = Some (None, it').
Proof.
  intros Hs Hab Hj init Hi.
  assert (exists it, init = Some it /\ rep it (take (b - a) (drop a l))) as (it & -> & Hr).
  { destruct Hi as [->|(-> & -> & ->)]; [by apply init_slice_spec|].
    rewrite Nat.sub_0_r, drop_0, take_ge by done. by apply cuex_ltree_itr_init_full_spec. }
  destruct (itr_gets_spec _ it Hr) as (it' & Eg & Hr'). exists it, it'.
  assert (length (take (b - a) (drop a l)) = b - a) as El by (rewrite length_take, length_drop; lia).
  rewrite El in Eg. split_and!; [done| |done| |by apply itr_get_end].
  - rewrite (is_end_spec it _ Hr). apply bool_decide_eq_false_2. intros E. rewrite E in El. cbn in El. lia.
  - rewrite (is_end_spec it' [] Hr'). by apply bool_decide_eq_true_2.
Qed.

Lemma cuex_ltree_at_spec l i (a : nat) : sequence l -> from_end (length l) i = Z.of_nat a -> a < length l ->
  cuex_ltree_at (ltree l) i = l !! a.
Proof.
  intros Hs Hi Ha. assert (l <> []) as Hne by (intros ->; cbn in Ha; lia).
  unfold cuex_ltree_at. rewrite cuex_ltree_size_spec by done. rewrite (ltree_some l Hne). unfold from_end in Hi.
  rewrite <- ltree_at_spec, <- Hi by done. destruct (Z.ltb_spec i 0); [|done]. cbn [mbind option_bind].
  rewrite (proj2 (Z.leb_le _ _)) by lia. done.
Qed.

(** The trees are correct containers: the size is the number of elements, an index counts
    from the start or, when negative, from the end, the last element is the last one, and the
    traversal calls the function on the elements in their order until it fails. *)
Theorem cuex_ltree_observers_correct l : sequence l ->
  cuex_ltree_size (ltree l) = Some (Z.of_nat (length l)) /\
  (forall i (a : nat), from_end (length l) i = Z.of_nat a -> a < length l -> cuex_ltree_at (ltree l) i = l !! a) /\
  cuex_ltree_last (ltree l) = list.last l /\
  (forall T (fn : ex -> clop T bool) s, cuex_ltree_forall fn (ltree l) s = cconj fn l s).
Proof.
  intros Hs. split_and!; [by apply cuex_ltree_size_spec| | |].
  - intros i a. by apply cuex_ltree_at_spec.
  - destruct (decide (l = [])) as [->|Hne]; [done|]. rewrite (ltree_some l Hne). by apply ltree_last_spec.
  - intros T fn s. destruct (decide (l = [])) as [->|Hne]; [done|]. rewrite (ltree_some l Hne). unfold cuex_ltree_forall.
    rewrite <- ltree_forall_spec by done. destruct (cuexP_is_ltree_node (tree_of l)) eqn:E; [done|].
    unfold cuexP_is_ltree_node in E. destruct (tree_of l); cbn [ltree_forall]; by rewrite E.
Qed.
End slice.

(** ** Sources

    [cuex_ltree_from_source], [cuex_ltree_from_array] and [cuex_ltree_append_from_source].  When an
    append ends before the tree is filled up, [ltree_fill_source] can make a node with one operand, around a
    subtree that it has just completed or filled into the last quarter: the
    theorem about appending leaves these cases out, and the samples show two. *)

Section source.
Context `{OP : !LtreeOpr, OL : !LtreeOprLaws}.

Lemma fill_from_source_spec d : (forall src, ltree_fresh_source d src = (ltree (take (p4 d) src), drop (p4 d) src)) ->
  forall n v src, fill_from_source (ltree_fresh_source d) n v src =
    (length (chunk n (p4 d) src) <? n, v ++ map tree_of (chunk n (p4 d) src), drop (n * p4 d) src).
Proof.
  intros Hf n. pose proof (p4_pos d). induction n as [|n IH]; intros v src; [cbn; by rewrite app_nil_r, drop_0|].
  cbn [fill_from_source]. rewrite Hf. destruct (decide (src = [])) as [->|Hne].
  { rewrite take_nil, !drop_nil. cbn. by rewrite app_nil_r. }
  rewrite ltree_some by (destruct (p4 d); [lia|by destruct src]). rewrite IH, chunk_cons by done.
  cbn [length map]. rewrite <- app_assoc, drop_drop. done.
Qed.

Lemma ltree_fresh_source_spec d src : ltree_fresh_source d src = (ltree (take (p4 d) src), drop (p4 d) src).
Proof.
  revert src. induction d as [|d IH]; intros src.
  { rewrite p4_0. destruct src as [|x src]; [done|]. cbn [ltree_fresh_source cu_ptr_source_get take drop ltree].
    by rewrite tree_of_single. }
  cbn [ltree_fresh_source]. change (Z.to_nat FANOUT) with 4. rewrite (fill_from_source_spec d IH). cbn [app].
  fold (pieces d src). rewrite <- pieces_take, <- p4_S. f_equal.
  destruct (decide (src = [])) as [->|Hne]; [by rewrite take_nil|]. pose proof (p4_pos (S d)).
  assert (take (p4 (S d)) src <> []) as Ht by (destruct (p4 (S d)); [lia|by destruct src]).
  rewrite ltree_some by done. rewrite <- (pieces_pack d _ Some None Ht) by (rewrite length_take; lia).
  by destruct (pieces d _) as [|x [|y v]].
Qed.

(** A source that is long enough for the tree of depth [xdepth]. *)
Lemma fill_levels_source_spec fuel : forall d xdepth l0 src m,
  length l0 = m * p4 d -> 1 <= m <= 4 -> p4 xdepth <= length l0 + length src ->
  S d <= xdepth -> xdepth <= d + fuel ->
  fill_levels_source fuel d xdepth (pieces d l0) src =
    Some (tree_of (l0 ++ take (p4 xdepth - length l0) src), drop (p4 xdepth - length l0) src).
Proof.
  induction fuel as [|fuel IH]; intros d xdepth l0 src m Hm Hm4 Hsrc Hd Hf; [lia|]. cbn [fill_levels_source].
  pose proof (p4_pos d). pose proof (p4_S d) as E4. pose proof (p4_le (S d) xdepth Hd) as Hx.
  rewrite (fill_from_source_spec d (ltree_fresh_source_spec d)). unfold rest_of. rewrite (length_pieces d m) by lia.
  change (Z.to_nat FANOUT) with 4. set (a := p4 (S d) - length l0). assert ((4 - m) * p4 d = a) as Ea by (unfold a; nia).
  assert (length l0 <= p4 (S d)) by nia. set (l1 := l0 ++ take a src).
  assert (pieces d l0 ++ map tree_of (chunk (4 - m) (p4 d) src) = pieces d l1) as ->.
  { unfold l1. rewrite (pieces_app d m), <- Ea, chunk_take by (done || lia). done. }
  assert (length l1 = p4 (S d)) as El1 by (unfold l1; rewrite length_app, length_take; lia).
  assert ((length (chunk (4 - m) (p4 d) src) <? 4 - m) = false) as ->.
  { apply Nat.ltb_ge. rewrite <- chunk_take, Ea by done. destruct (decide (take a src = [])) as [E0|Hne].
    - rewrite E0, chunk_nil. apply (f_equal length) in E0. rewrite length_take in E0. cbn [length] in E0 |- *.
      assert ((4 - m) * p4 d = 0) as Hz by (unfold a in *; lia). apply Nat.mul_eq_0 in Hz. lia.
    - assert (length (take a src) = a) as Ela by (rewrite length_take; lia).
      pose proof (length_chunk (4 - m) (p4 d) (take a src) ltac:(lia) Hne ltac:(lia)) as [H1 H2]. nia. }
  rewrite pieces_node by lia. rewrite Ea.
  assert (length l1 = length l0 + length (take a src)) as El by apply length_app.
  destruct (take_two a (p4 xdepth) (length l0) src ltac:(lia)) as [T1 T2]. rewrite <- El in T1, T2.
  destruct (Nat.leb_spec (S (S d)) xdepth) as [Hc|Hc].
  - rewrite <- (pieces_single (S d) l1) by (lia || (intros E; rewrite E in El1; cbn in El1; lia)).
    rewrite (IH (S d) xdepth l1 (drop a src) 1); [|lia|lia|rewrite length_drop; lia|done|lia].
    rewrite T2. unfold l1 at 1. by rewrite <- app_assoc, T1.
  - assert (xdepth = S d) as -> by lia. done.
Qed.

Lemma ltree_fill_source_spec fuel : forall xdepth l src, sequence l -> l <> [] ->
  length l <= p4 xdepth -> p4 xdepth <= length l + length src -> xdepth < fuel ->
  ltree_fill_source fuel xdepth (tree_of l) src =
    Some (tree_of (l ++ take (p4 xdepth - length l) src), drop (p4 xdepth - length l) src).
Proof.
  induction fuel as [|fuel IH]; intros xdepth l src Hs Hne Hl Hsrc Hf; [lia|].
  unfold ltree_fill_source; fold ltree_fill_source.
  destruct (ltree_cases l Hs Hne) as [(x & El & Et & Hx)|(d & opr & v & Hn & Hx & Hd & Hsz)].
  - rewrite Hx. cbn [negb]. assert (length l = 1) as E1 by (by rewrite El). destruct (decide (xdepth = 0)) as [->|H0].
    + rewrite E1, p4_0, take_0, drop_0, app_nil_r. done.
    + rewrite (proj2 (Nat.eqb_neq _ _)) by done.
      rewrite <- (pieces_single 0 l) by (done || rewrite E1, ?p4_0; lia).
      apply (fill_levels_source_spec _ _ _ _ _ 1); rewrite ?p4_0; lia.
  - rewrite Hx, Hd. cbn [negb]. cbn zeta. pose proof (p4_pos d). pose proof (p4_S d).
    destruct (node_split d l opr v Hs Hn) as (a & c & El & Ha & Hc & Hcs & Ea & Ec & Hap).
    pose proof (node_length _ _ _ _ Hn) as Hv.
    assert (cuex_opn_arity (tree_of l) = Z.of_nat (length v)) as ->
      by (rewrite (node_tree _ _ _ _ Hn); apply (node_arity _ _ _ _ Hn)).
    assert (operands (tree_of l) = v) as Ev by (by rewrite (node_tree _ _ _ _ Hn)).
    unfold cuex_opn_at. rewrite Ev. replace (Z.to_nat (Z.of_nat (length v) - 1)) with (length v - 1) by lia.
    rewrite Ea, Ec. replace (0 <? Z.of_nat (length v))%Z with true by (symmetry; apply Z.ltb_lt; lia).
    replace (0 <? Z.of_nat (S d))%Z with true by (symmetry; apply Z.ltb_lt; lia).
    cbn [oassert mbind option_bind]. replace (Z.to_nat (Z.of_nat (S d)) - 1) with d by lia.
    replace (Z.to_nat (Z.of_nat (S d) - 1)) with d by lia.
    set (k := p4 d - length c). assert (c <> []) as Hcne by (intros ->; cbn in Hc; lia).
    assert (d < xdepth) as Hdx. { destruct (decide (d < xdepth)); [done|]. pose proof (p4_le xdepth d). lia. }
    assert (length l = (length v - 1) * p4 d + length c) as Ell by (rewrite El, length_app; lia).
    pose proof (p4_le (S d) xdepth ltac:(lia)).
    assert (length v * p4 d = (length v - 1) * p4 d + p4 d) as Em by nia.
    assert (length v * p4 d <= 4 * p4 d) by nia.
    assert ((if (1 <? Z.of_nat (S d))%Z then ltree_fill_source fuel d (tree_of c) src else Some (tree_of c, src)) =
      Some (tree_of (c ++ take k src), drop k src)) as ->.
    { destruct (Z.ltb_spec 1 (Z.of_nat (S d))) as [Hgt|Hle].
      - apply IH; [done..|lia| |lia]. lia.
      - assert (k = 0) as -> by (unfold k; assert (d = 0) as -> by lia; rewrite p4_0; lia).
        by rewrite take_0, drop_0, app_nil_r. }
    cbn [mbind option_bind]. rewrite Hap by (rewrite length_app, length_take; lia).
    rewrite app_assoc, <- El. set (l0 := l ++ take k src).
    assert (length l0 = length l + length (take k src)) as El0 by apply length_app.
    assert (length (take k src) = k) as Ek by (rewrite length_take; lia).
    destruct (take_two k (p4 xdepth) (length l) src) as [T1 T2]; [unfold k; lia|]. rewrite <- El0 in T1, T2.
    rewrite (fill_levels_source_spec (S fuel) d xdepth l0 (drop k src) (length v)); [|lia|lia| |lia|lia].
    + rewrite T2. unfold l0 at 1. by rewrite <- app_assoc, T1.
    + rewrite length_drop. lia.
Qed.

Lemma append_levels_spec fuel : forall depth l src, l <> [] ->
  (length l = p4 depth \/ src = []) -> length (l ++ src) <= p4 (depth + fuel) ->
  append_levels (S fuel) depth (tree_of l) src = Some (tree_of (l ++ src)).
Proof.
  induction fuel as [|fuel IH]; intros depth l src Hne Hal Hl; rewrite length_app in Hl;
    (destruct (decide (src = [])) as [->|Hsrc];
      [cbn [append_levels]; rewrite (fill_from_source_spec depth (ltree_fresh_source_spec depth)), chunk_nil;
       cbn; by rewrite app_nil_r|]); (destruct Hal as [Hal|]; [|done]);
    assert (0 < length src) by (destruct src; [done|cbn; lia]).
  { rewrite Nat.add_0_r in Hl. lia. }
  cbn [append_levels]. fold (append_levels (S fuel)). pose proof (p4_pos depth). pose proof (p4_S depth).
  rewrite (fill_from_source_spec depth (ltree_fresh_source_spec depth)). change (Z.to_nat FANOUT - 1) with 3.
  set (a := 3 * p4 depth) in *. set (l1 := l ++ take a src).
  assert (length l1 = p4 depth + Nat.min a (length src)) as El1 by (unfold l1; rewrite length_app, length_take; lia).
  rewrite <- (pieces_single depth l) by (done || lia).
  assert (pieces depth l ++ map tree_of (chunk 3 (p4 depth) src) = pieces depth l1) as ->.
  { unfold l1. rewrite (pieces_app depth 1) by lia. f_equal. f_equal. unfold a. symmetry. by apply chunk_take. }
  assert (l1 ++ drop a src = l ++ src) as Eall by (unfold l1; by rewrite <- app_assoc, take_drop).
  assert (match pieces depth l1 with [y] => y | _ => ltree_opn (Z.of_nat (S depth)) (pieces depth l1) end = tree_of l1) as Enode.
  { rewrite <- (pieces_node depth l1) by lia. pose proof (pieces_many depth l1 ltac:(lia)) as H2.
    destruct (pieces depth l1) as [|x [|y v]]; cbn in H2; [lia..|done]. }
  rewrite Enode. destruct (Nat.ltb_spec (length (chunk 3 (p4 depth) src)) 3) as [Hstop|Hgo].
  - assert (length src <= a) as Hsa. { destruct (Nat.le_gt_cases (length src) a) as [|Hgt]; [done|]. exfalso.
      rewrite <- chunk_take in Hstop by done. fold a in Hstop. assert (length (take a src) = a) as Ela by (rewrite length_take; lia).
      assert (take a src <> []) as Ht by (intros E; rewrite E in Ela; cbn in Ela; lia).
      pose proof (length_chunk 3 (p4 depth) (take a src) ltac:(lia) Ht ltac:(lia)) as [Hc1 Hc2]. nia. }
    unfold l1. by rewrite take_ge.
  - change (append_levels (S fuel) (S depth) (tree_of l1) (drop a src) = Some (tree_of (l ++ src))).
    rewrite <- Eall. apply IH; [by intros E; rewrite E in El1; cbn in El1; lia| |].
    + destruct (decide (drop a src = [])) as [|Hk]; [by right|left].
      assert (0 < length (drop a src)) as Hp by (destruct (drop a src); [done|cbn; lia]).
      rewrite length_drop in Hp. lia.
    + rewrite Eall, length_app. by replace (S depth + fuel) with (depth + S fuel) by lia.
Qed.

Lemma append_levels_full depth l src : l <> [] -> (length l = p4 depth \/ src = []) -> sequence (l ++ src) ->
  append_levels levels depth (tree_of l) src = Some (tree_of (l ++ src)).
Proof.
  intros Hne Hal [_ Hl]. change levels with (S 31). apply append_levels_spec; [done..|].
  etrans; [exact Hl|]. apply p4_le. lia.
Qed.

(** [cuex_ltree_append_from_source] (so also cuex_ltree_from_source, cuex_ltree_from_array and
    cuex_ltree_append_from_array) gives the tree of the elements followed by those of the source,
    if the tree is empty or one element, or if the source has enough elements to fill the
    tree up to its depth. *)
Theorem cuex_ltree_append_spec l src : sequence (l ++ src) ->
  (length l <= 1 \/ exists d, p4 d < length l /\ length l <= p4 (S d) <= length l + length src) ->
  cuex_ltree_append_from_source (ltree l) src = Some (ltree (l ++ src)).
Proof.
  intros Hs Hc. destruct (sequence_app l src Hs) as [Hs1 _]. destruct (decide (l = [])) as [->|Hne].
  { destruct src as [|y src]; [done|]. cbn [ltree cuex_ltree_append_from_source cu_ptr_source_get app].
    rewrite <- (tree_of_single y) at 1. rewrite append_levels_full; [done|done|left; by rewrite p4_0|done]. }
  rewrite (ltree_some l), ltree_some by (done || by destruct l). unfold cuex_ltree_append_from_source.
  destruct (ltree_cases l Hs1 Hne) as [(x & El & Et & ->)|(d & opr & v & Hn & -> & -> & Hsz)].
  - rewrite append_levels_full; [done|done|left; by rewrite El, p4_0|done].
  - destruct Hc as [Hc|(d' & Hd1 & Hd2)]; [pose proof (p4_pos d); lia|].
    assert (d' = d) as ->. { destruct (Nat.lt_trichotomy d d') as [Hlt|[|Hlt]]; [|done|].
      - pose proof (p4_le (S d) d' Hlt). lia.
      - pose proof (p4_le (S d') d Hlt). lia. }
    cbn zeta. replace (0 <? Z.of_nat (S d))%Z with true by (symmetry; apply Z.ltb_lt; lia). rewrite Nat2Z.id.
    cbn [oassert mbind option_bind]. pose proof (node_level _ _ _ _ Hn).
    rewrite ltree_fill_source_spec; [|done|done|lia|lia|change levels with 32; lia]. cbn [mbind option_bind].
    set (a := p4 (S d) - length l) in *.
    rewrite append_levels_full; [by rewrite <- app_assoc, take_drop|by destruct l| |by rewrite <- app_assoc, take_drop].
    left. rewrite length_app, length_take. lia.
Qed.
End source.

(** ** Samples

    The operators with the layout that [cuex/otab.c] gives them satisfy the laws; the theorems on
    trees of small numbers of elements, and the cases that they leave out. *)

Module Samples.
(** The depth is above four bits of the index. *)
#[local] Instance ops : LtreeOpr := {
  CUEXP_OR_LTREE arity := cuex_opr 0x6000 arity;
  CUEXP_OA_LTREE_DEPTH depth := wshl depth 31;
  cuexP_og_ltree_strip opr := (opr &&& wnot (31 <<< 31))%Z;
  cuexP_oa_ltree_depth opr := ((opr >>> 31) &&& 31)%Z;
}.

Lemma ops_laws_check : forallb (fun depth => forallb (fun arity =>
  let opr := CUEXP_OXR_LTREE (Z.of_nat depth) (Z.of_nat arity) in
  cuex_is_oR_ltree opr && (cuexP_oa_ltree_depth opr =? Z.of_nat depth)%Z && (cuex_opr_r opr =? Z.of_nat arity)%Z)
  (seq 0 5)) (seq 0 32) = true.
Proof. vm_compute. reflexivity. Qed.

#[local] Instance ops_laws : LtreeOprLaws.
Proof.
  assert (forall depth arity : Z, (0 <= depth < 32)%Z -> (0 <= arity <= 4)%Z ->
    cuex_is_oR_ltree (CUEXP_OXR_LTREE depth arity) = true /\
    cuexP_oa_ltree_depth (CUEXP_OXR_LTREE depth arity) = depth /\
    cuex_opr_r (CUEXP_OXR_LTREE depth arity) = arity) as H.
  { intros depth arity Hd Ha. pose proof ops_laws_check as Hc. rewrite forallb_forall in Hc.
    specialize (Hc (Z.to_nat depth) ltac:(apply in_seq; lia)). rewrite forallb_forall in Hc.
    specialize (Hc (Z.to_nat arity) ltac:(apply in_seq; lia)). cbn zeta in Hc. rewrite !Z2Nat.id in Hc by lia.
    apply andb_true_iff in Hc as [[H1 H2]%andb_true_iff H3]. rewrite H1. split; [done|]. lia. }
  split; intros depth arity Hd Ha; destruct (H depth arity Hd Ha) as (H1 & H2 & H3); assumption.
Qed.

(** [n] elements from the number [m]. *)
Definition elts (m n : nat) : list ex := map (fun i => Obj 0 (Z.of_nat i)) (seq m n).

Lemma sequence_elts m n : n <= 64 -> sequence (elts m n).
Proof.
  intros Hn. split.
  - apply list.Forall_forall. intros x Hx. apply list_elem_of_fmap in Hx as (i & -> & _). by vm_compute.
  - unfold elts. rewrite length_map, length_seq. etrans; [exact Hn|]. apply (p4_le 3 16). lia.
Qed.

Lemma cuex_ltree_concat_correct_witness :
  cuex_ltree_concat (ltree (elts 0 6)) (ltree (elts 6 30)) = Some (ltree (elts 0 36)).
Proof. apply (cuex_ltree_concat_correct (elts 0 6) (elts 6 30)). exact (sequence_elts 0 36 ltac:(lia)). Defined.

Lemma cuex_ltree_slice_correct_witness :
  cuex_ltree_slice (ltree (elts 0 30)) (-25) 9 = Some (ltree (elts 5 4)).
Proof.
  apply (cuex_ltree_slice_correct (elts 0 30) (-25) 9 5 9); [apply sequence_elts; lia|cbn; lia|reflexivity|reflexivity|].
  intros H. discriminate H.
Defined.

Lemma cuex_ltree_itr_correct_witness : exists it it',
  cuex_ltree_itr_init_slice (ltree (elts 0 30)) 14 CUEX_LTREE_END = Some it /\ cuex_ltree_itr_is_end it = false /\
  itr_gets 16 it = Some (map Some (elts 14 16), it') /\ cuex_ltree_itr_is_end it' = true /\
  cuex_ltree_itr_get it' = Some (None, it').
Proof.
  apply (cuex_ltree_itr_correct (elts 0 30) 14 30 CUEX_LTREE_END); [apply sequence_elts; lia|cbn; lia|auto|].
  left. reflexivity.
Defined.

(** A source that ends on the border of a subtree: a node with one operand, which is another tree than
    that of the elements, although it has the same size. *)
Example append_border : exists t, cuex_ltree_append_from_source (ltree (elts 0 5)) [] = Some t /\
  t <> ltree (elts 0 5) /\ cuex_ltree_size t = Some 5%Z.
Proof. eexists. split; [vm_compute; reflexivity|]. split; [|reflexivity]. vm_compute. discriminate. Qed.

(** A source that ends in the last quarter of the last subtree: the same. *)
Example append_quarter : exists t, cuex_ltree_append_from_source (ltree (elts 0 65)) (elts 65 14) = Some t /\
  t <> ltree (elts 0 79) /\ cuex_ltree_append_from_source (ltree (elts 0 65)) (elts 65 11) = Some (ltree (elts 0 76)).
Proof. eexists. split; [vm_compute; reflexivity|]. split; [vm_compute; discriminate|vm_compute; reflexivity]. Qed.

(** The groups of 32 of [cuex_ltree_from_valist] meet such a border. *)
Example from_valist_border : exists t, cuex_ltree_from_valist (elts 0 320) = Some t /\ t <> ltree (elts 0 320) /\
  cuex_ltree_from_array (elts 0 320) = Some (ltree (elts 0 320)).
Proof. eexists. split; [vm_compute; reflexivity|]. split; [vm_compute; discriminate|vm_compute; reflexivity]. Qed.

(** The empty slice from the size to [CUEX_LTREE_END] is an operation without operands. *)
Example slice_at_end : exists x, cuex_ltree_slice (ltree (elts 0 5)) 5 CUEX_LTREE_END = Some (Some x) /\ operands x = [] /\
  cuex_ltree_slice (ltree (elts 0 5)) 5 5 = Some None.
Proof. eexists. split; [vm_compute; reflexivity|]. split; reflexivity. Qed.
End Samples.
