(* ===== verification/Monoid.v ===== *)
(** * Free monoids of expressions: [cuex/monoid.h], [cuex/monoid.c], [cuex/tmonoid.h], [cuex/tmonoid.c]

    An element of a monoid is a hash-consed object with an operator and a left-packed tree of
    factors.  In [monoid.c] a single factor is itself the element, in [tmonoid.c] every
    element is tagged.  Sources are lists, or iterators where the code makes them from trees; the
    builders collect a list; [None] is the error of [cu_bugf], of a failed
    assertion, and of the functions on trees.  The theorems say that these are the free monoids on the factors. *)

From S2P Require Export LtreeSlice.
#[local] Open Scope nat_scope.

(** ** Sources of factors *)

Section sources.
Context `{OP : !LtreeOpr}.
Definition cuex_ltree_full_source (x : option ex) : option itr := cuex_ltree_itr_init_full x.
Definition cuex_ltree_slice_source (x : option ex) (i j : Z) : option itr := cuex_ltree_itr_init_slice x i j.
Definition iter_source_get (source : itr) : option (option ex * itr) := cuex_ltree_itr_get source.
End sources.

(** ** Monoids whose generators are themselves *)

Record cuex_monoid := mk_monoid { monoid_opr : Z; monoid_ltree : option ex }.

Section monoid.
Context `{OP : !LtreeOpr, HC : !HcType cuex_monoid}.
Implicit Types (mult i j : Z) (x y : ex) (src : list ex).

Definition CUEX_MONOID_END : Z := CUEX_LTREE_END.

Definition cuex_is_monoid_meta (meta : Z) : bool := (meta =? type_to_meta cuex_monoid)%Z.
Definition cuex_is_any_monoid_nongen x : bool := (cuex_meta x =? type_to_meta cuex_monoid)%Z.
Definition MONOID x : option cuex_monoid := hctem_fields x.
Definition cuex_monoid_opr x : option Z := monoid_opr <$> MONOID x.
Definition cuex_check_monoid x : option Z := if cuex_is_any_monoid_nongen x then cuex_monoid_opr x else None.
Definition cuex_is_monoid_nongen mult x : bool := cuex_is_any_monoid_nongen x && bool_decide (cuex_monoid_opr x = Some mult).
Definition ltree_is_empty_at x : bool := bool_decide (monoid_ltree <$> MONOID x = Some cuex_ltree_empty).
Definition cuex_is_monoid_identity mult x : bool := cuex_is_monoid_nongen mult x && ltree_is_empty_at x.
Definition cuex_is_monoid_composite mult x : bool := cuex_is_monoid_nongen mult x && negb (ltree_is_empty_at x).

Definition monoid_wrap mult (ltree : option ex) : ex := hctem_new (mk_monoid mult ltree).

Definition cuex_monoid_identity mult : ex := monoid_wrap mult cuex_ltree_empty.

Definition cuex_monoid_product mult x y : option ex :=
  if cuex_is_monoid_nongen mult x then
    mx ← MONOID x;
    if cuex_ltree_is_empty (monoid_ltree mx) then Some y
    else if cuex_is_monoid_nongen mult y then
      my ← MONOID y;
      if cuex_ltree_is_empty (monoid_ltree my) then Some x
      else monoid_wrap mult <$> cuex_ltree_concat (monoid_ltree mx) (monoid_ltree my)
    else monoid_wrap mult <$> cuex_ltree_concat (monoid_ltree mx) (Some y)
  else if cuex_is_monoid_nongen mult y then
    my ← MONOID y;
    if cuex_ltree_is_empty (monoid_ltree my) then Some x
    else monoid_wrap mult <$> cuex_ltree_concat (Some x) (monoid_ltree my)
  else monoid_wrap mult <$> cuex_ltree_concat (Some x) (Some y).

Definition cuex_monoid_rightmult mult x y : option ex :=
  if cuex_is_monoid_nongen mult x then
    mx ← MONOID x;
    if cuex_ltree_is_empty (monoid_ltree mx) then Some y
    else monoid_wrap mult <$> cuex_ltree_concat (monoid_ltree mx) (Some y)
  else monoid_wrap mult <$> cuex_ltree_concat (Some x) (Some y).

Definition cuex_monoid_from_array mult (array : list ex) : option ex :=
  match array with
  | [x] => Some x
  | _ => monoid_wrap mult <$> cuex_ltree_from_array array
  end.

(** A tree that is a single factor is the element, any other one is wrapped. *)
Definition single_or_wrap mult (ltree : option ex) : option ex :=
  if cuex_ltree_is_singleton ltree then ltree else Some (monoid_wrap mult ltree).

Definition cuex_monoid_from_source mult src : option ex := cuex_ltree_from_source src ≫= single_or_wrap mult.

Definition cuex_monoid_rightmult_source mult x src : option ex :=
  if cuex_is_monoid_nongen mult x then
    mx ← MONOID x;
    if cuex_ltree_is_empty (monoid_ltree mx) then cuex_ltree_from_source src ≫= single_or_wrap mult
    else monoid_wrap mult <$> cuex_ltree_append_from_source (monoid_ltree mx) src
  else cuex_ltree_append_from_source (Some x) src ≫= single_or_wrap mult.

Definition cuex_monoid_rightmult_array mult x (array : list ex) : option ex := cuex_monoid_rightmult_source mult x array.

Definition cuex_monoid_length mult x : option Z :=
  if cuex_is_monoid_nongen mult x then mx ← MONOID x; cuex_ltree_size (monoid_ltree mx) else Some 1%Z.

Definition cuex_monoid_factor_at mult x i : option ex :=
  if cuex_is_monoid_nongen mult x then mx ← MONOID x; cuex_ltree_at (monoid_ltree mx) i
  else if (i =? 0)%Z || (i =? -1)%Z then Some x
  else None.

Definition cuex_monoid_factor_slice mult x i j : option ex :=
  if cuex_is_monoid_nongen mult x then
    mx ← MONOID x;
    cuex_ltree_slice (monoid_ltree mx) i j ≫= single_or_wrap mult
  else
    let i := (if i <? 0 then i + 1 else i)%Z in
    let j := (if j <? 0 then j + 1 else j)%Z in
    if (i =? j)%Z then Some (cuex_monoid_identity mult)
    else if (i =? 0)%Z && ((j =? 1)%Z || (j =? CUEX_MONOID_END)%Z) then Some x
    else None.

Definition cuex_monoid_itr_init_full mult e : option itr :=
  if cuex_is_monoid_nongen mult e then m ← MONOID e; cuex_ltree_itr_init_full (monoid_ltree m)
  else cuex_ltree_itr_init_full (Some e).
Definition cuex_monoid_itr_init_slice mult e i j : option itr :=
  if cuex_is_monoid_nongen mult e then m ← MONOID e; cuex_ltree_itr_init_slice (monoid_ltree m) i j
  else cuex_ltree_itr_init_slice (Some e) i j.
Definition cuex_monoid_itr_get (it : itr) : option (option ex * itr) := cuex_ltree_itr_get it.
Definition cuex_monoid_itr_is_end (it : itr) : bool := cuex_ltree_itr_is_end it.

Definition monoid_factor_source x : option itr := m ← MONOID x; cuex_ltree_full_source (monoid_ltree m).
Definition cuex_any_monoid_factor_source x i j : option itr :=
  if cuex_is_any_monoid_nongen x then m ← MONOID x; cuex_ltree_slice_source (monoid_ltree m) i j
  else cuex_ltree_slice_source (Some x) i j.

(** A builder for the monoid of [tpl]. *)
Definition monoid_build_sinktor (tpl : ex) : option (Z * list ex) :=
  _ ← oassert (cuex_is_any_monoid_nongen tpl); m ← MONOID tpl; Some (monoid_opr m, []).
Definition monoid_build_sinktor_put (self : Z * list ex) x : Z * list ex := (fst self, snd self ++ [x]).
Definition monoid_build_sinktor_finish (self : Z * list ex) : option ex :=
  match snd self with
  | [x] => Some x
  | l => cuex_monoid_from_source (fst self) l
  end.
End monoid.

(** ** Monoids with tagged generators *)

Record cuex_tmonoid := mk_tmonoid { tmonoid_opr : Z; tmonoid_ltree : option ex }.

Section tmonoid.
Context `{OP : !LtreeOpr, HC : !HcType cuex_tmonoid}.
Implicit Types (mult i j : Z) (x y : ex) (src : list ex).

Definition TMONOID x : option cuex_tmonoid := hctem_fields x.
Definition cuex_any_tmonoid_contains x : bool := (cuex_meta x =? type_to_meta cuex_tmonoid)%Z.
Definition cuex_tmonoid_opr x : option Z := tmonoid_opr <$> TMONOID x.
Definition cuex_tmonoid_contains mult x : bool := cuex_any_tmonoid_contains x && bool_decide (cuex_tmonoid_opr x = Some mult).
Definition cuex_tmonoid_is_identity x : option bool := m ← TMONOID x; Some (cuex_ltree_is_empty (tmonoid_ltree m)).
Definition cuex_tmonoid_is_generator x : option bool := m ← TMONOID x; Some (cuex_ltree_is_singleton (tmonoid_ltree m)).
Definition cuex_tmonoid_is_composite x : option bool := m ← TMONOID x; Some (cuex_ltree_is_composite (tmonoid_ltree m)).

Definition tmonoid_wrap mult (ltree : option ex) : ex := hctem_new (mk_tmonoid mult ltree).

Definition cuex_tmonoid_identity mult : ex := tmonoid_wrap mult cuex_ltree_empty.
Definition cuex_tmonoid_generator mult x : ex := tmonoid_wrap mult (Some x).

(** The fields of [x] after the assertion that it is in the monoid of [mult], or in some. *)
Definition member mult x : option cuex_tmonoid := _ ← oassert (cuex_tmonoid_contains mult x); TMONOID x.
Definition any_member x : option cuex_tmonoid := _ ← oassert (cuex_any_tmonoid_contains x); TMONOID x.

Definition cuex_tmonoid_product mult x y : option ex :=
  mx ← member mult x; my ← member mult y;
  tmonoid_wrap (tmonoid_opr mx) <$> cuex_ltree_concat (tmonoid_ltree mx) (tmonoid_ltree my).
Definition cuex_any_tmonoid_product x y : option ex :=
  mx ← any_member x; my ← any_member y;
  _ ← oassert (tmonoid_opr mx =? tmonoid_opr my)%Z;
  tmonoid_wrap (tmonoid_opr mx) <$> cuex_ltree_concat (tmonoid_ltree mx) (tmonoid_ltree my).
Definition cuex_tmonoid_rightmult mult x y : option ex :=
  mx ← member mult x; tmonoid_wrap (tmonoid_opr mx) <$> cuex_ltree_concat (tmonoid_ltree mx) (Some y).
Definition cuex_any_tmonoid_rightmult x y : option ex :=
  mx ← any_member x; tmonoid_wrap (tmonoid_opr mx) <$> cuex_ltree_concat (tmonoid_ltree mx) (Some y).
Definition cuex_tmonoid_from_valist mult (vl : list ex) : option ex := tmonoid_wrap mult <$> cuex_ltree_from_valist vl.
Definition cuex_tmonoid_from_args mult (args : list ex) : option ex := cuex_tmonoid_from_valist mult args.
Definition cuex_tmonoid_from_array mult (array : list ex) : option ex := tmonoid_wrap mult <$> cuex_ltree_from_array array.
Definition cuex_tmonoid_from_source mult src : option ex := tmonoid_wrap mult <$> cuex_ltree_from_source src.
Definition cuex_tmonoid_rightmult_source mult x src : option ex :=
  mx ← member mult x; tmonoid_wrap (tmonoid_opr mx) <$> cuex_ltree_append_from_source (tmonoid_ltree mx) src.
Definition cuex_any_tmonoid_rightmult_source x src : option ex :=
  mx ← any_member x; tmonoid_wrap (tmonoid_opr mx) <$> cuex_ltree_append_from_source (tmonoid_ltree mx) src.
Definition cuex_tmonoid_rightmult_array mult x (array : list ex) : option ex := cuex_tmonoid_rightmult_source mult x array.
Definition cuex_any_tmonoid_rightmult_array x (array : list ex) : option ex := cuex_any_tmonoid_rightmult_source x array.
Definition cuex_tmonoid_length mult x : option Z := m ← member mult x; cuex_ltree_size (tmonoid_ltree m).
Definition cuex_any_tmonoid_length x : option Z := m ← any_member x; cuex_ltree_size (tmonoid_ltree m).
Definition cuex_tmonoid_factor_at mult x i : option ex := m ← member mult x; cuex_ltree_at (tmonoid_ltree m) i.
Definition cuex_any_tmonoid_factor_at x i : option ex := m ← any_member x; cuex_ltree_at (tmonoid_ltree m) i.
Definition cuex_tmonoid_factor_slice mult x i j : option ex :=
  m ← member mult x; tmonoid_wrap (tmonoid_opr m) <$> cuex_ltree_slice (tmonoid_ltree m) i j.
Definition cuex_any_tmonoid_factor_slice x i j : option ex :=
  m ← any_member x; tmonoid_wrap (tmonoid_opr m) <$> cuex_ltree_slice (tmonoid_ltree m) i j.
Definition cuex_tmonoid_itr_init_full mult x : option itr := m ← member mult x; cuex_ltree_itr_init_full (tmonoid_ltree m).
Definition cuex_any_tmonoid_itr_init_full x : option itr := m ← any_member x; cuex_ltree_itr_init_full (tmonoid_ltree m).
Definition cuex_tmonoid_itr_init_slice mult x i j : option itr :=
  m ← member mult x; cuex_ltree_itr_init_slice (tmonoid_ltree m) i j.
Definition cuex_any_tmonoid_itr_init_slice x i j : option itr :=
  m ← any_member x; cuex_ltree_itr_init_slice (tmonoid_ltree m) i j.
Definition cuex_tmonoid_itr_get (it : itr) : option (option ex * itr) := cuex_ltree_itr_get it.
Definition cuex_tmonoid_itr_is_end (it : itr) : bool := cuex_ltree_itr_is_end it.

(** The source is made of the element, not of its tree. *)
Definition cuex_tmonoid_factor_source mult x i j : option itr :=
  _ ← oassert (cuex_tmonoid_contains mult x); cuex_ltree_slice_source (Some x) i j.
Definition cuex_any_tmonoid_factor_source x i j : option itr :=
  _ ← oassert (cuex_any_tmonoid_contains x); cuex_ltree_slice_source (Some x) i j.

Definition tmonoid_factor_source x : option itr := m ← TMONOID x; cuex_ltree_full_source (tmonoid_ltree m).
Definition tmonoid_build_sinktor (tpl : ex) : option (Z * list ex) := m ← any_member tpl; Some (tmonoid_opr m, []).
Definition tmonoid_build_sinktor_put (self : Z * list ex) x : Z * list ex := (fst self, snd self ++ [x]).
Definition tmonoid_build_sinktor_finish (self : Z * list ex) : option ex := cuex_tmonoid_from_source (fst self) (snd self).
End tmonoid.

(** ** The trees of sequences *)

Section trees.
Context `{OP : !LtreeOpr, OL : !LtreeOprLaws}.

Lemma ltree_inj l l' : sequence l -> sequence l' -> ltree l = ltree l' -> l = l'.
Proof.
  intros Hs Hs' E. assert (length l = length l') as El.
  { pose proof (cuex_ltree_size_spec l Hs) as H. rewrite E, cuex_ltree_size_spec in H by done. injection H. lia. }
  apply list_eq. intros i. destruct (decide (i < length l)) as [Hi|Hi].
  - rewrite <- (cuex_ltree_at_spec l (Z.of_nat i) i), <- (cuex_ltree_at_spec l' (Z.of_nat i) i), E
      by (done || lia || apply from_end_nat). done.
  - rewrite !lookup_ge_None_2 by lia. done.
Qed.

Lemma sequence_one x : cuexP_is_ltree_node x = false -> sequence [x].
Proof. intros Hx. split; [by constructor|]. etrans; [|apply (p4_le 0 16); lia]. by rewrite p4_0. Qed.

Lemma ltree_single x : ltree [x] = Some x.
Proof. cbn. by rewrite tree_of_single. Qed.

Lemma is_empty_ltree l : cuex_ltree_is_empty (ltree l) = bool_decide (l = []).
Proof. by destruct l. Qed.

Lemma is_singleton_ltree l : sequence l -> cuex_ltree_is_singleton (ltree l) = bool_decide (length l = 1).
Proof.
  intros Hs. destruct (decide (l = [])) as [->|Hne]; [done|]. rewrite (ltree_some l Hne). cbn [cuex_ltree_is_singleton].
  fold (cuexP_is_ltree_node (tree_of l)). destruct (ltree_cases l Hs Hne) as [(x & -> & _ & ->)|(d & opr & v & _ & -> & _ & Hl)]; [done|].
  rewrite bool_decide_eq_false_2; [done|]. pose proof (p4_pos d). lia.
Qed.

Lemma is_composite_ltree l : sequence l -> cuex_ltree_is_composite (ltree l) = bool_decide (2 <= length l).
Proof.
  intros Hs. destruct (decide (l = [])) as [->|Hne]; [done|]. rewrite (ltree_some l Hne). cbn [cuex_ltree_is_composite].
  fold (cuexP_is_ltree_node (tree_of l)). destruct (ltree_cases l Hs Hne) as [(x & -> & _ & ->)|(d & opr & v & _ & -> & _ & Hl)]; [done|].
  rewrite bool_decide_eq_true_2; [done|]. pose proof (p4_pos d). lia.
Qed.

Lemma from_source_ltree src : sequence src -> cuex_ltree_from_source src = Some (ltree src).
Proof.
  intros Hs. unfold cuex_ltree_from_source. change cuex_ltree_empty with (ltree []).
  rewrite (cuex_ltree_append_spec [] src); [done|done|]. left. cbn. lia.
Qed.
End trees.

(** ** The monoid of untagged factors *)

Section free.
Context `{OP : !LtreeOpr, OL : !LtreeOprLaws, HC : !HcType cuex_monoid, HL : !HcTypeLaws cuex_monoid}.
Implicit Types (mult i j : Z) (x y : ex) (l src : list ex).

(** The element with the factors [l]; factors that are no products themselves. *)
Definition monoid mult l : ex := match l with [x] => x | _ => monoid_wrap mult (ltree l) end.
Definition generators mult l : Prop := Forall (fun x => cuex_is_monoid_nongen mult x = false) l.
Definition factors mult l : Prop := sequence l /\ generators mult l.

Lemma MONOID_wrap mult t : MONOID (monoid_wrap mult t) = Some (mk_monoid mult t).
Proof. apply hctem_fields_new. Qed.

Lemma nongen_wrap mult mult' t : cuex_is_monoid_nongen mult (monoid_wrap mult' t) = bool_decide (mult' = mult).
Proof.
  unfold cuex_is_monoid_nongen, cuex_is_any_monoid_nongen, cuex_monoid_opr. rewrite MONOID_wrap.
  unfold monoid_wrap. rewrite hctem_meta, Z.eqb_refl. cbn. apply bool_decide_ext. split; [by intros [= ->]|by intros ->].
Qed.

Lemma nongen_wrap_same mult t : cuex_is_monoid_nongen mult (monoid_wrap mult t) = true.
Proof. rewrite nongen_wrap. by apply bool_decide_eq_true_2. Qed.

Lemma monoid_cases mult l : generators mult l ->
  (exists x, l = [x] /\ cuex_is_monoid_nongen mult x = false) \/ (length l <> 1 /\ monoid mult l = monoid_wrap mult (ltree l)).
Proof.
  intros Hg. destruct l as [|x [|y l]]; [by right| |by right]. left. exists x. split; [done|]. by inversion Hg.
Qed.

Lemma single_or_wrap_spec mult l : sequence l -> single_or_wrap mult (ltree l) = Some (monoid mult l).
Proof.
  intros Hs. unfold single_or_wrap. rewrite is_singleton_ltree by done. case_bool_decide as E.
  - destruct l as [|x [|y l]]; [done| |done]. apply ltree_single.
  - by destruct l as [|x [|y l]].
Qed.

Lemma monoid_inj mult l l' : factors mult l -> factors mult l' -> monoid mult l = monoid mult l' -> l = l'.
Proof.
  intros [Hs Hg] [Hs' Hg'] E. destruct (monoid_cases mult l Hg) as [(x & -> & Hx)|[Hl El]];
    destruct (monoid_cases mult l' Hg') as [(y & -> & Hy)|[Hl' El']].
  - cbn in E. by subst.
  - rewrite El' in E. cbn in E. by rewrite E, nongen_wrap_same in Hx.
  - rewrite El in E. cbn in E. by rewrite <- E, nongen_wrap_same in Hy.
  - rewrite El, El' in E. apply ltree_inj; [done..|]. unfold monoid_wrap in E. apply (inj hctem_new) in E. by injection E.
Qed.

Lemma factors_app mult l l' : factors mult (l ++ l') -> factors mult l /\ factors mult l'.
Proof. intros [Hs [H1 H2]%Forall_app]. apply sequence_app in Hs as [Hs1 Hs2]. done. Qed.

(** The tree behind an element, for functions that take it from the object or treat the element as one. *)
Lemma on_monoid {R} mult l (f : option ex -> option R) : generators mult l ->
  (if cuex_is_monoid_nongen mult (monoid mult l) then m ← MONOID (monoid mult l); f (monoid_ltree m)
   else f (Some (monoid mult l))) = f (ltree l).
Proof.
  intros Hg. destruct (monoid_cases mult l Hg) as [(x & -> & Hx)|[Hl ->]].
  - cbn [monoid]. by rewrite Hx, ltree_single.
  - by rewrite nongen_wrap_same, MONOID_wrap.
Qed.

Lemma monoid_wrapped mult l : length l <> 1 -> monoid mult l = monoid_wrap mult (ltree l).
Proof. by destruct l as [|x [|y l]]. Qed.

Lemma concat_wrapped mult l l' : sequence (l ++ l') -> l <> [] -> l' <> [] ->
  monoid_wrap mult <$> cuex_ltree_concat (ltree l) (ltree l') = Some (monoid mult (l ++ l')).
Proof.
  intros Hs Hl Hl'. rewrite cuex_ltree_concat_spec by done. cbn [fmap option_fmap option_map]. f_equal. symmetry.
  apply monoid_wrapped. rewrite length_app. destruct l; [done|]. destruct l'; [done|]. cbn. lia.
Qed.

Lemma product_spec mult l l' : factors mult (l ++ l') ->
  cuex_monoid_product mult (monoid mult l) (monoid mult l') = Some (monoid mult (l ++ l')).
Proof.
  intros Hf. pose proof Hf as [Hs _]. destruct (factors_app mult l l' Hf) as [[_ Hg] [_ Hg']]. unfold cuex_monoid_product.
  destruct (monoid_cases mult l Hg) as [(x & -> & Hx)|[Hl El]]; destruct (monoid_cases mult l' Hg') as [(y & -> & Hy)|[Hl' El']].
  - cbn [monoid]. rewrite Hx, Hy, <- !ltree_single. by apply concat_wrapped.
  - rewrite El'. cbn [monoid]. rewrite Hx, nongen_wrap_same, MONOID_wrap. cbn [mbind option_bind monoid_ltree].
    rewrite is_empty_ltree. case_bool_decide as E; [by rewrite E|]. rewrite <- ltree_single. by apply concat_wrapped.
  - rewrite El. cbn [monoid]. rewrite Hy, nongen_wrap_same, MONOID_wrap. cbn [mbind option_bind monoid_ltree].
    rewrite is_empty_ltree. case_bool_decide as E; [by rewrite E|]. rewrite <- ltree_single. by apply concat_wrapped.
  - rewrite El, El', !nongen_wrap_same, !MONOID_wrap. cbn [mbind option_bind monoid_ltree]. rewrite !is_empty_ltree.
    case_bool_decide as E; [by rewrite E, <- El'|]. case_bool_decide as E'; [by rewrite E', app_nil_r, El|]. by apply concat_wrapped.
Qed.

Lemma from_array_spec mult l : sequence l -> cuex_monoid_from_array mult l = Some (monoid mult l).
Proof.
  intros Hs. unfold cuex_monoid_from_array. change (cuex_ltree_from_array l) with (cuex_ltree_from_source l).
  rewrite from_source_ltree by done. by destruct l as [|x [|y l]].
Qed.

Lemma from_source_spec mult l : sequence l -> cuex_monoid_from_source mult l = Some (monoid mult l).
Proof. intros Hs. unfold cuex_monoid_from_source. rewrite from_source_ltree by done. by apply single_or_wrap_spec. Qed.

(** C5: the elements of a monoid are the sequences of its generators, each in one way: equal expressions
    have the same factors.  The product is the concatenation of the factors, whether an operand
    is the identity, a generator or a product, the identity has no factors, and arrays and
    sources of factors give the element with these factors. *)
Theorem cuex_monoid_is_free mult l l' : factors mult (l ++ l') ->
  cuex_monoid_product mult (monoid mult l) (monoid mult l') = Some (monoid mult (l ++ l')) /\
  (monoid mult l = monoid mult l' -> l = l') /\
  cuex_monoid_identity mult = monoid mult [] /\
  cuex_is_monoid_identity mult (monoid mult l) = bool_decide (l = []) /\
  cuex_is_monoid_composite mult (monoid mult l) = bool_decide (2 <= length l) /\
  cuex_monoid_from_array mult l = Some (monoid mult l) /\
  cuex_monoid_from_source mult l = Some (monoid mult l).
Proof.
  intros Hf. destruct (factors_app mult l l' Hf) as [Hl Hl']. pose proof Hl as [Hs Hg]. split_and!.
  - by apply product_spec.
  - by apply monoid_inj.
  - done.
  - unfold cuex_is_monoid_identity, ltree_is_empty_at. destruct (monoid_cases mult l Hg) as [(x & -> & Hx)|[_ ->]]; [cbn [monoid]; by rewrite Hx|].
    rewrite nongen_wrap_same, MONOID_wrap. by destruct l.
  - unfold cuex_is_monoid_composite, ltree_is_empty_at. destruct (monoid_cases mult l Hg) as [(x & -> & Hx)|[Hne ->]]; [cbn [monoid]; by rewrite Hx|].
    rewrite nongen_wrap_same, MONOID_wrap. destruct l as [|x [|y l]]; [done|done|].
    by rewrite (bool_decide_eq_true_2 (2 <= _)) by (cbn; lia).
  - by apply from_array_spec.
  - by apply from_source_spec.
Qed.

(** ** Factors *)

Lemma slice_spec mult l i j a b : factors mult l -> a <= b <= length l ->
  from_end (length l) i = Z.of_nat a -> slice_end (length l) j = Z.of_nat b ->
  (j = CUEX_MONOID_END -> a < length l \/ a = 0) ->
  cuex_monoid_factor_slice mult (monoid mult l) i j = Some (monoid mult (take (b - a) (drop a l))).
Proof.
  intros [Hs Hg] Hab Hi Hj Hend. unfold cuex_monoid_factor_slice. destruct (monoid_cases mult l Hg) as [(x & -> & Hx)|[Hne ->]].
  - cbn [monoid]. rewrite Hx. unfold from_end, slice_end, from_end in *. cbn [length] in *. change (Z.of_nat 1) with 1%Z in *.
    rewrite Hi. destruct (Z.eqb_spec j CUEX_LTREE_END) as [->|Hj1].
    + assert (b = 1) as -> by lia. assert (a = 0) as -> by (destruct (Hend eq_refl); lia).
      change (CUEX_LTREE_END <? 0)%Z with false. change (CUEX_MONOID_END) with CUEX_LTREE_END. rewrite Z.eqb_refl, orb_true_r.
      by change (Z.of_nat 0 =? CUEX_LTREE_END)%Z with false.
    + rewrite Hj. destruct (Z.eqb_spec (Z.of_nat a) (Z.of_nat b)) as [E|E].
      * assert (a = b) as -> by lia. by rewrite Nat.sub_diag, take_0.
      * assert (a = 0 /\ b = 1) as [-> ->] by lia. done.
  - rewrite nongen_wrap_same, MONOID_wrap. cbn [mbind option_bind monoid_ltree].
    rewrite (cuex_ltree_slice_spec l i j a b) by done. cbn [mbind option_bind]. apply single_or_wrap_spec.
    destruct Hs as [He Hl]. split; [by apply Forall_take, Forall_drop|]. rewrite length_take, length_drop. lia.
Qed.

(** The empty slice from the length to [CUEX_MONOID_END] is not the identity. *)
Lemma slice_at_end_spec mult l i : factors mult l -> l <> [] -> from_end (length l) i = Z.of_nat (length l) ->
  cuex_monoid_factor_slice mult (monoid mult l) i CUEX_MONOID_END =
    if decide (length l = 1) then None else Some (monoid_wrap mult (Some (ltree_opn (Z.of_nat (levels - 1)) []))).
Proof.
  intros [Hs Hg] Hne Hi. unfold cuex_monoid_factor_slice. destruct (monoid_cases mult l Hg) as [(x & -> & Hx)|[Hl ->]].
  - cbn [monoid]. rewrite Hx. unfold from_end in Hi. cbn [length] in *. change (Z.of_nat 1) with 1%Z in *.
    destruct (Z.ltb_spec i 0); [lia|]. subst i. done.
  - rewrite nongen_wrap_same, MONOID_wrap. cbn [mbind option_bind monoid_ltree]. unfold CUEX_MONOID_END.
    rewrite cuex_ltree_slice_at_end, decide_False by done. cbn [mbind option_bind].
    unfold single_or_wrap, cuex_ltree_is_singleton, ltree_opn. cbn [cuex_meta length]. rewrite oxr_is; [done|done|lia].
Qed.

Lemma bare_node_no_ltree l : sequence l -> ltree l <> Some (ltree_opn (Z.of_nat (levels - 1)) []).
Proof.
  intros Hs E. destruct (decide (l = [])) as [->|Hne]; [done|]. rewrite (ltree_some l Hne) in E. injection E as E.
  destruct (ltree_cases l Hs Hne) as [(x & _ & _ & Hn)|(d & opr & v & Hn & _ & Hd & _)]; rewrite E in *.
  - unfold cuexP_is_ltree_node, ltree_opn in Hn. cbn [cuex_meta length] in Hn. rewrite oxr_is in Hn; [done|done|lia].
  - unfold ltree_opn in Hd. cbn [cuex_meta length] in Hd. rewrite oxr_depth in Hd; [|done|lia].
    pose proof (node_level _ _ _ _ Hn). change (levels - 1) with 31 in Hd. lia.
Qed.

Lemma slice_no_element mult l l' i : factors mult l -> factors mult l' -> l <> [] -> from_end (length l) i = Z.of_nat (length l) ->
  cuex_monoid_factor_slice mult (monoid mult l) i CUEX_MONOID_END <> Some (monoid mult l').
Proof.
  intros Hf [Hs' Hg'] Hne Hi E. rewrite slice_at_end_spec in E by done. case_decide; [done|]. injection E as E.
  destruct (monoid_cases mult l' Hg') as [(y & -> & Hy)|[_ El']].
  - cbn [monoid] in E. by rewrite <- E, nongen_wrap_same in Hy.
  - rewrite El' in E. unfold monoid_wrap in E. apply (inj hctem_new) in E. injection E as E. by apply (bare_node_no_ltree l').
Qed.

Lemma itr_spec mult l : factors mult l -> exists it it',
  cuex_monoid_itr_init_full mult (monoid mult l) = Some it /\ cuex_monoid_itr_is_end it = bool_decide (l = []) /\
  itr_gets (length l) it = Some (map Some l, it') /\ cuex_monoid_itr_get it' = Some (None, it').
Proof.
  intros [Hs Hg]. unfold cuex_monoid_itr_init_full. rewrite on_monoid by done.
  destruct (cuex_ltree_itr_init_full_spec l Hs) as (it & -> & Hr). destruct (itr_gets_spec l it Hr) as (it' & E & Hr').
  exists it, it'. split_and!; [done|by apply is_end_spec|done|by apply itr_get_end].
Qed.

(** C39: the observers of an element are those of the sequence of its factors: the length, the factor at an
    index from the start or the end, slices, as elements of the monoid, and iteration, which returns the factors
    in their order and then NULL; a generator counts as its one factor.  The exception is the empty slice from the
    length to CUEX_MONOID_END: it is the identity only of the identity, an error of a generator, and of a product
    an object around an operation without operands, which is no element of the monoid. *)
Theorem cuex_monoid_factors_correct mult l : factors mult l ->
  cuex_monoid_length mult (monoid mult l) = Some (Z.of_nat (length l)) /\
  (forall i (a : nat), from_end (length l) i = Z.of_nat a -> a < length l ->
    cuex_monoid_factor_at mult (monoid mult l) i = l !! a) /\
  (forall i j a b, a <= b <= length l ->
    from_end (length l) i = Z.of_nat a -> slice_end (length l) j = Z.of_nat b ->
    (j = CUEX_MONOID_END -> a < length l \/ a = 0) ->
    cuex_monoid_factor_slice mult (monoid mult l) i j = Some (monoid mult (take (b - a) (drop a l)))) /\
  (forall i, l <> [] -> from_end (length l) i = Z.of_nat (length l) ->
    cuex_monoid_factor_slice mult (monoid mult l) i CUEX_MONOID_END =
      (if decide (length l = 1) then None else Some (monoid_wrap mult (Some (ltree_opn (Z.of_nat (levels - 1)) [])))) /\
    forall l', factors mult l' ->
      cuex_monoid_factor_slice mult (monoid mult l) i CUEX_MONOID_END <> Some (monoid mult l')) /\
  exists it it', cuex_monoid_itr_init_full mult (monoid mult l) = Some it /\
    cuex_monoid_itr_is_end it = bool_decide (l = []) /\
    itr_gets (length l) it = Some (map Some l, it') /\ cuex_monoid_itr_get it' = Some (None, it').
Proof.
  intros Hf. pose proof Hf as [Hs Hg]. split_and!;
    [| |by intros; apply slice_spec|intros; split; [by apply slice_at_end_spec|by intros; apply slice_no_element]|by apply itr_spec].
  - unfold cuex_monoid_length. destruct (monoid_cases mult l Hg) as [(x & -> & Hx)|[_ ->]]; [cbn [monoid]; by rewrite Hx|].
    rewrite nongen_wrap_same, MONOID_wrap. by apply cuex_ltree_size_spec.
  - intros i a Hi Ha. unfold cuex_monoid_factor_at. destruct (monoid_cases mult l Hg) as [(x & -> & Hx)|[_ ->]].
    + cbn [monoid]. rewrite Hx. cbn [length] in *. assert (a = 0) as -> by lia. unfold from_end in Hi. cbn [Z.of_nat] in *.
      destruct (Z.ltb_spec i 0); [assert (i = -1)%Z as -> by lia; done|]. by subst.
    + rewrite nongen_wrap_same, MONOID_wrap. by apply cuex_ltree_at_spec.
Qed.

(** ** Multiplication by single factors *)

Lemma rightmult_spec mult l y : generators mult l -> sequence (l ++ [y]) ->
  cuex_monoid_rightmult mult (monoid mult l) y = Some (monoid mult (l ++ [y])).
Proof.
  intros Hg Hs. unfold cuex_monoid_rightmult. rewrite <- (ltree_single y).
  destruct (monoid_cases mult l Hg) as [(x & -> & Hx)|[Hl ->]].
  - cbn [monoid]. rewrite Hx, <- (ltree_single x). by apply concat_wrapped.
  - rewrite nongen_wrap_same, MONOID_wrap. cbn [mbind option_bind monoid_ltree]. rewrite is_empty_ltree.
    case_bool_decide as E; [by rewrite E|]. by apply concat_wrapped.
Qed.

(** A source that fills up the tree of [l] to its depth, or a sequence that has no tree to be filled up. *)
Definition append_fits l src : Prop :=
  length l <= 1 \/ exists d, p4 d < length l /\ length l <= p4 (S d) <= length l + length src.

Lemma rightmult_source_spec mult l src : generators mult l -> sequence (l ++ src) -> append_fits l src ->
  cuex_monoid_rightmult_source mult (monoid mult l) src = Some (monoid mult (l ++ src)).
Proof.
  intros Hg Hs Hc. unfold cuex_monoid_rightmult_source. destruct (sequence_app l src Hs) as [_ Hs2].
  destruct (monoid_cases mult l Hg) as [(x & -> & Hx)|[Hl ->]].
  - cbn [monoid]. rewrite Hx, <- (ltree_single x), cuex_ltree_append_spec by done. cbn [mbind option_bind]. by apply single_or_wrap_spec.
  - rewrite nongen_wrap_same, MONOID_wrap. cbn [mbind option_bind monoid_ltree]. rewrite is_empty_ltree. case_bool_decide as E.
    { subst. rewrite from_source_ltree by done. by apply single_or_wrap_spec. }
    rewrite cuex_ltree_append_spec by done. cbn [fmap option_fmap option_map]. f_equal. symmetry. apply monoid_wrapped.
    rewrite length_app. destruct l as [|x [|y l]]; [done..|]. cbn. lia.
Qed.

Lemma sinktor_puts src : forall mult l, fold_left monoid_build_sinktor_put src (mult, l) = (mult, l ++ src).
Proof.
  induction src as [|x src IH]; intros mult l; cbn [fold_left]; [by rewrite app_nil_r|].
  unfold monoid_build_sinktor_put at 2. cbn [fst snd]. by rewrite IH, <- app_assoc.
Qed.

(** An expression that is multiplied from the right as a single factor, even one that is itself an element of
    the monoid, becomes the last factor; so do the elements of an array or a source, if there are
    enough of them to fill up the tree of the element; and a builder that is made for any element other than a
    generator returns the product of what is put into it. *)
Theorem cuex_monoid_build_correct mult l src : generators mult l -> sequence (l ++ src) ->
  (forall y, src = [y] -> cuex_monoid_rightmult mult (monoid mult l) y = Some (monoid mult (l ++ [y]))) /\
  (append_fits l src ->
    cuex_monoid_rightmult_source mult (monoid mult l) src = Some (monoid mult (l ++ src)) /\
    cuex_monoid_rightmult_array mult (monoid mult l) src = Some (monoid mult (l ++ src))) /\
  (length l <> 1 -> exists sinktor, monoid_build_sinktor (monoid mult l) = Some sinktor /\
    monoid_build_sinktor_finish (fold_left monoid_build_sinktor_put src sinktor) = Some (monoid mult src)).
Proof.
  intros Hg Hs. split_and!.
  - intros y ->. by apply rightmult_spec.
  - intros Hc. unfold cuex_monoid_rightmult_array. by rewrite rightmult_source_spec.
  - intros Hl. rewrite monoid_wrapped by done. exists (mult, []). unfold monoid_build_sinktor, cuex_is_any_monoid_nongen.
    rewrite MONOID_wrap. unfold monoid_wrap at 1. rewrite hctem_meta, Z.eqb_refl. split; [done|].
    destruct (sequence_app l src Hs) as [_ Hs2]. rewrite sinktor_puts. unfold monoid_build_sinktor_finish. cbn [fst snd app].
    pose proof (from_source_spec mult src Hs2) as E.
    by destruct src as [|x [|y src]].
Qed.
End free.

(** ** The monoid of tagged factors *)

Section tagged.
Context `{OP : !LtreeOpr, OL : !LtreeOprLaws, HC : !HcType cuex_tmonoid, HL : !HcTypeLaws cuex_tmonoid}.
Implicit Types (mult i j : Z) (x y : ex) (l src : list ex).

Definition tmonoid mult l : ex := tmonoid_wrap mult (ltree l).

Lemma TMONOID_wrap mult t : TMONOID (tmonoid_wrap mult t) = Some (mk_tmonoid mult t).
Proof. apply hctem_fields_new. Qed.

Lemma contains_wrap mult t : cuex_any_tmonoid_contains (tmonoid_wrap mult t) = true.
Proof. unfold cuex_any_tmonoid_contains, tmonoid_wrap. by rewrite hctem_meta, Z.eqb_refl. Qed.

Lemma any_member_wrap mult t : any_member (tmonoid_wrap mult t) = Some (mk_tmonoid mult t).
Proof. unfold any_member. by rewrite contains_wrap, TMONOID_wrap. Qed.

Lemma member_wrap mult mult' t : member mult (tmonoid_wrap mult' t) = if (mult' =? mult)%Z then Some (mk_tmonoid mult' t) else None.
Proof.
  unfold member, cuex_tmonoid_contains, cuex_tmonoid_opr. rewrite contains_wrap, TMONOID_wrap. cbn [fmap option_fmap option_map tmonoid_opr andb].
  destruct (Z.eqb_spec mult' mult) as [->|Hne]; [by rewrite bool_decide_eq_true_2|]. rewrite bool_decide_eq_false_2; [done|]. by intros [= ?].
Qed.

Lemma member_same mult t : member mult (tmonoid_wrap mult t) = Some (mk_tmonoid mult t).
Proof. by rewrite member_wrap, Z.eqb_refl. Qed.

Lemma tmonoid_inj mult mult' l l' : sequence l -> sequence l' -> tmonoid mult l = tmonoid mult' l' -> mult = mult' /\ l = l'.
Proof.
  intros Hs Hs' E. unfold tmonoid, tmonoid_wrap in E. apply (inj hctem_new) in E. injection E as -> E.
  split; [done|]. by apply ltree_inj.
Qed.

(** C40: the elements of a tagged monoid are the sequences of arbitrary factors, the elements of the
    same monoid included: product and multiplication from the right by one factor append, also in the forms without
    a given operator, and the operator is checked.  The elements of the product, of multiplication by one factor and
    of construction from an array or a source are in one form: when they are equal, they have the same operator and
    factors.  Multiplication from the right by the factors of a source appends in this form if the element has at
    most one factor, or if the source has enough factors to fill up its tree to its depth ([append_fits]); otherwise
    it can give another tree of the same factors. *)
Theorem cuex_tmonoid_is_free mult mult' l l' y : sequence (l ++ l') -> sequence (l ++ [y]) ->
  cuex_tmonoid_product mult (tmonoid mult l) (tmonoid mult l') = Some (tmonoid mult (l ++ l')) /\
  cuex_any_tmonoid_product (tmonoid mult l) (tmonoid mult l') = Some (tmonoid mult (l ++ l')) /\
  (mult <> mult' -> cuex_tmonoid_product mult (tmonoid mult l) (tmonoid mult' l') = None /\
    cuex_any_tmonoid_product (tmonoid mult l) (tmonoid mult' l') = None) /\
  (tmonoid mult l = tmonoid mult' l' -> mult = mult' /\ l = l') /\
  cuex_tmonoid_rightmult mult (tmonoid mult l) y = Some (tmonoid mult (l ++ [y])) /\
  cuex_any_tmonoid_rightmult (tmonoid mult l) y = Some (tmonoid mult (l ++ [y])) /\
  (append_fits l l' ->
    cuex_tmonoid_rightmult_source mult (tmonoid mult l) l' = Some (tmonoid mult (l ++ l')) /\
    cuex_any_tmonoid_rightmult_source (tmonoid mult l) l' = Some (tmonoid mult (l ++ l'))) /\
  cuex_tmonoid_from_array mult l = Some (tmonoid mult l) /\
  cuex_tmonoid_from_source mult l = Some (tmonoid mult l) /\
  cuex_tmonoid_identity mult = tmonoid mult [] /\
  cuex_tmonoid_generator mult y = tmonoid mult [y].
Proof.
  intros Hs Hy. destruct (sequence_app l l' Hs) as [Hl Hl']. unfold tmonoid.
  unfold cuex_tmonoid_product, cuex_any_tmonoid_product, cuex_tmonoid_rightmult, cuex_any_tmonoid_rightmult,
    cuex_tmonoid_rightmult_source, cuex_any_tmonoid_rightmult_source.
  rewrite !any_member_wrap, !member_same. cbn [mbind option_bind tmonoid_opr tmonoid_ltree]. rewrite Z.eqb_refl.
  rewrite <- (ltree_single y), !cuex_ltree_concat_spec by done.
  split_and!; try done.
  - intros Hne. rewrite member_wrap, (proj2 (Z.eqb_neq _ _)) by done. split; [done|]. cbn [tmonoid_opr].
    by rewrite (proj2 (Z.eqb_neq _ _)).
  - by apply tmonoid_inj.
  - intros Hc. by rewrite cuex_ltree_append_spec.
  - unfold cuex_tmonoid_from_array. change (cuex_ltree_from_array l) with (cuex_ltree_from_source l). by rewrite from_source_ltree.
  - unfold cuex_tmonoid_from_source. by rewrite from_source_ltree.
Qed.

(** The observers of tagged elements; but the factor source has the element itself as its only factor. *)
Theorem cuex_tmonoid_factors mult l : sequence l -> cuexP_is_ltree_node (tmonoid mult l) = false ->
  cuex_tmonoid_length mult (tmonoid mult l) = Some (Z.of_nat (length l)) /\
  (forall i (a : nat), from_end (length l) i = Z.of_nat a -> a < length l ->
    cuex_tmonoid_factor_at mult (tmonoid mult l) i = l !! a) /\
  (forall i j a b, a <= b <= length l ->
    from_end (length l) i = Z.of_nat a -> slice_end (length l) j = Z.of_nat b ->
    (j = CUEX_LTREE_END -> a < length l \/ a = 0) ->
    cuex_tmonoid_factor_slice mult (tmonoid mult l) i j = Some (tmonoid mult (take (b - a) (drop a l)))) /\
  (exists it it', cuex_tmonoid_itr_init_full mult (tmonoid mult l) = Some it /\
    itr_gets (length l) it = Some (map Some l, it') /\ cuex_tmonoid_itr_get it' = Some (None, it')) /\
  (exists it it', cuex_tmonoid_factor_source mult (tmonoid mult l) 0 CUEX_LTREE_END = Some it /\
    itr_gets 1 it = Some ([Some (tmonoid mult l)], it') /\ cuex_tmonoid_itr_get it' = Some (None, it')).
Proof.
  intros Hs Hn. unfold cuex_tmonoid_length, cuex_tmonoid_factor_at, cuex_tmonoid_factor_slice, cuex_tmonoid_itr_init_full, tmonoid in *.
  rewrite member_same. cbn [mbind option_bind tmonoid_opr tmonoid_ltree]. split_and!.
  - by apply cuex_ltree_size_spec.
  - intros i a Hi Ha. by apply cuex_ltree_at_spec.
  - intros i j a b Hab Hi Hj Hend. by rewrite (cuex_ltree_slice_spec l i j a b).
  - destruct (cuex_ltree_itr_init_full_spec l Hs) as (it & -> & Hr). destruct (itr_gets_spec l it Hr) as (it' & E & Hr').
    exists it, it'. split_and!; [done|done|by apply itr_get_end].
  - set (x := tmonoid_wrap mult (ltree l)) in *. pose proof (sequence_one x Hn) as Hx.
    unfold cuex_tmonoid_factor_source, cuex_ltree_slice_source. rewrite <- (ltree_single x).
    destruct (init_slice_spec [x] 0 1 CUEX_LTREE_END Hx) as (it & Ei & Hr); [cbn; lia|by right|]. cbn [Z.of_nat Nat.sub drop take] in Ei, Hr.
    destruct (itr_gets_spec _ it Hr) as (it' & E & Hr'). exists it, it'. split_and!; [|done|by apply itr_get_end].
    pose proof (member_same mult (ltree l)) as Hm. unfold member in Hm. subst x.
    by destruct (cuex_tmonoid_contains mult (tmonoid_wrap mult (ltree l))).
Qed.
End tagged.

(** ** Samples

    Objects whose address encodes their fields, with different meta words for the types. *)

Module MonoidSamples.
Definition fields_of (meta : Z) (e : ex) : option (Z * option ex) :=
  match e with Obj m (Zpos p) => if (m =? meta)%Z then decode p else None | _ => None end.

#[local] Instance monoid_type : HcType cuex_monoid := {
  type_to_meta := 16;
  hctem_new m := Obj 16 (Zpos (encode (monoid_opr m, monoid_ltree m)));
  hctem_fields e := (fun '(opr, t) => mk_monoid opr t) <$> fields_of 16 e;
}.
#[local] Instance monoid_type_laws : HcTypeLaws cuex_monoid.
Proof.
  split; [done|]. intros [opr t]. cbn [hctem_fields monoid_type fields_of hctem_new monoid_opr monoid_ltree].
  rewrite Z.eqb_refl. by rewrite decode_encode.
Qed.

#[local] Instance tmonoid_type : HcType cuex_tmonoid := {
  type_to_meta := 32;
  hctem_new m := Obj 32 (Zpos (encode (tmonoid_opr m, tmonoid_ltree m)));
  hctem_fields e := (fun '(opr, t) => mk_tmonoid opr t) <$> fields_of 32 e;
}.
#[local] Instance tmonoid_type_laws : HcTypeLaws cuex_tmonoid.
Proof.
  split; [done|]. intros [opr t]. cbn [hctem_fields tmonoid_type fields_of hctem_new tmonoid_opr tmonoid_ltree].
  rewrite Z.eqb_refl. by rewrite decode_encode.
Qed.

#[local] Existing Instances LtreeSlice.Samples.ops LtreeSlice.Samples.ops_laws.

Definition g (n : nat) : ex := Obj 0 (Z.of_nat n).
Definition gs (m n : nat) : list ex := map g (seq m n).

Lemma factors_gs m n : n <= 64 -> factors 7 (gs m n).
Proof.
  intros Hn. split; [by apply LtreeSlice.Samples.sequence_elts|]. apply list.Forall_forall.
  intros x Hx. apply list_elem_of_fmap in Hx as (i & -> & _). reflexivity.
Qed.

Lemma factors_gs_app n k : n + k <= 64 -> factors 7 (gs 0 n ++ gs n k).
Proof. intros Hn. unfold gs. rewrite <- map_app, <- seq_app. by apply factors_gs. Qed.

Lemma cuex_monoid_is_free_witness :
  cuex_monoid_product 7 (monoid 7 (gs 0 6)) (monoid 7 (gs 6 10)) = Some (monoid 7 (gs 0 6 ++ gs 6 10)).
Proof. destruct (cuex_monoid_is_free 7 (gs 0 6) (gs 6 10)) as [H _]; [apply factors_gs_app; lia|exact H]. Defined.

Lemma cuex_monoid_factors_correct_witness :
  cuex_monoid_length 7 (monoid 7 (gs 0 6)) = Some 6%Z /\
  cuex_monoid_factor_slice 7 (monoid 7 (gs 0 6)) 2 (-1) = Some (monoid 7 (take 3 (drop 2 (gs 0 6)))).
Proof.
  destruct (cuex_monoid_factors_correct 7 (gs 0 6) (factors_gs 0 6 ltac:(lia))) as (H1 & _ & H2 & _).
  split; [exact H1|]. apply (H2 2%Z (-1)%Z 2 5); [cbn; lia|reflexivity|reflexivity|]. intros E. discriminate E.
Defined.

Lemma cuex_monoid_build_correct_witness :
  cuex_monoid_rightmult_source 7 (monoid 7 (gs 0 6)) (gs 6 30) = Some (monoid 7 (gs 0 6 ++ gs 6 30)).
Proof.
  destruct (cuex_monoid_build_correct 7 (gs 0 6) (gs 6 30)) as (_ & H & _); [apply factors_gs; lia|apply (factors_gs_app 6 30); lia|].
  apply H. right. exists 1. rewrite !p4_S, p4_0. cbn. lia.
Defined.

Lemma cuex_tmonoid_is_free_witness :
  cuex_tmonoid_product 7 (tmonoid 7 (gs 0 6)) (tmonoid 7 (gs 6 30)) = Some (tmonoid 7 (gs 0 6 ++ gs 6 30)).
Proof.
  destruct (cuex_tmonoid_is_free 7 7 (gs 0 6) (gs 6 30) (g 6)) as [H _]; [apply (factors_gs_app 6 30); lia|
    apply (factors_gs_app 6 1); lia|exact H].
Defined.

(** The identity times a product as a single factor is the product: the length is not 1. *)
Example rightmult_identity : cuex_monoid_rightmult 7 (monoid 7 []) (monoid 7 (gs 0 2)) = Some (monoid 7 (gs 0 2)) /\
  cuex_monoid_length 7 (monoid 7 (gs 0 2)) = Some 2%Z.
Proof. split; reflexivity. Qed.

(** The empty slice of a generator from its end to [CUEX_MONOID_END] is an error. *)
Example generator_slice_at_end : cuex_monoid_factor_slice 7 (g 0) 1 CUEX_MONOID_END = None /\
  cuex_monoid_factor_slice 7 (g 0) 1 1 = Some (cuex_monoid_identity 7).
Proof. split; reflexivity. Qed.
End MonoidSamples.
