(* ===== verification/Atree.v ===== *)
(** * Associative trees: [cuex/atree.h], [cuex/atree.c]

    Collections of expressions that are keyed on a word computed from the expression, as binary
    radix trees.  A node has a centre: the keys of its left subtree are below it, those of its right
    subtree are not.  Nodes are hash-consed, so that the pointer comparisons of the source are the
    equality of [atree]; the elements are expressions that are no nodes, and [NULL] is [None] of
    [option atree].  The callbacks of the source are functions. *)

From S2P Require Export Algo RadixKey.
#[local] Open Scope clop_scope.

Inductive cu_order_t := cu_order_none | cu_order_lt | cu_order_gt | cu_order_eq.

#[export] Instance cu_order_eq_dec : EqDecision cu_order_t.
Proof. solve_decision. Defined.

(** As a truth value; [cu_order_none] is 0. *)
Definition order_truth (o : cu_order_t) : bool := match o with cu_order_none => false | _ => true end.

Inductive atree :=
| Leaf (e : ex)
| Node (centre : Z) (lhs rhs : atree).

#[export] Instance atree_eq_dec : EqDecision atree.
Proof. solve_decision. Defined.

(** ** Centres *)

Definition cu_word_dcover (x : Z) : Z := cu_ulong_dcover x.

Definition pair_centre (lhs rhs : Z) : Z :=
  let mask := cu_word_dcover (lhs ^^^ rhs) in
  (lhs &&& wnot mask) ||| (wadd mask 1 >>> 1).

Definition centre_to_min (centre : Z) : Z :=
  let mask := centre ^^^ wsub centre 1 in centre &&& wnot mask.

Definition centre_to_max (centre : Z) : Z :=
  let mask := centre ^^^ wsub centre 1 in centre ||| mask.

Definition node_new (centre : Z) (lhs rhs : atree) : atree := Node centre lhs rhs.

Definition cuex_atree_empty : option atree := None.
Definition cuex_atree_is_empty (tree : option atree) : bool := match tree with None => true | _ => false end.
Definition cuex_atree_singleton (e : ex) : option atree := Some (Leaf e).
Definition cuex_atree_is_singleton (tree : option atree) : bool :=
  match tree with Some (Leaf _) => true | _ => false end.
Definition cuex_atree_is_empty_or_singleton (tree : option atree) : bool :=
  match tree with Some (Node _ _ _) => false | _ => true end.

(** ** Callbacks *)

Definition merge_as_first (e0 e1 : ex) : option ex := Some e0.
Definition merge_as_second (e0 e1 : ex) : option ex := Some e1.
Definition merge_disjoin (e0 e1 : ex) : option ex := None.
Definition subseteq_true (e0 e1 : ex) : bool := true.
Definition order_eq (e0 e1 : ex) : cu_order_t := cu_order_eq.

(** Adaptors that pass operands of the elements.  The caller has to see to it that the elements are
    operations with these operands. *)
Definition merge_iv_adaptor (value_index : nat) (value_merge : ex -> ex -> option ex) (e0 e1 : ex) : option ex :=
  x ← cuex_opn_at e0 value_index; y ← cuex_opn_at e1 value_index; value_merge x y.
Definition merge_kv_adaptor (merge : ex -> ex -> ex -> option ex) (e0 e1 : ex) : option ex :=
  k ← cuex_opn_at e0 0; x ← cuex_opn_at e0 1; y ← cuex_opn_at e1 1; merge k x y.
Definition subseteq_iv_adaptor (value_index : nat) (value_subseteq : ex -> ex -> bool) (e0 e1 : ex) : bool :=
  default false (x ← cuex_opn_at e0 value_index; y ← cuex_opn_at e1 value_index; Some (value_subseteq x y)).
Definition subseteq_kv_adaptor (value_subseteq : ex -> ex -> ex -> bool) (e0 e1 : ex) : bool :=
  default false (k ← cuex_opn_at e0 0; x ← cuex_opn_at e0 1; y ← cuex_opn_at e1 1; Some (value_subseteq k x y)).
Definition order_iv_adaptor (value_index : nat) (value_order : ex -> ex -> cu_order_t) (e0 e1 : ex) : cu_order_t :=
  default cu_order_none (x ← cuex_opn_at e0 value_index; y ← cuex_opn_at e1 value_index; Some (value_order x y)).
Definition order_kv_adaptor (value_order : ex -> ex -> ex -> cu_order_t) (e0 e1 : ex) : cu_order_t :=
  default cu_order_none (k ← cuex_opn_at e0 0; x ← cuex_opn_at e0 1; y ← cuex_opn_at e1 1; Some (value_order k x y)).

(** ** Cardinality and depth *)

Fixpoint atree_card_loop (card : Z) (tree : atree) : Z :=
  match tree with
  | Leaf _ => card
  | Node _ lhs rhs => atree_card_loop (wadd card (atree_card_loop 1 lhs)) rhs
  end.
Definition atree_card (tree : atree) : Z := atree_card_loop 1 tree.
Definition cuex_atree_card (tree : option atree) : Z :=
  match tree with None => 0 | Some tree => atree_card tree end.

Fixpoint atree_depth_loop (max_depth depth : Z) (tree : atree) : Z :=
  match tree with
  | Leaf _ => max_depth
  | Node _ lhs rhs =>
      let depth := depth + 1 in
      let left_depth := depth + atree_depth_loop 0 0 lhs in
      atree_depth_loop (if max_depth <? left_depth then left_depth else max_depth) depth rhs
  end.
Definition atree_depth (tree : atree) : Z := atree_depth_loop 0 0 tree.
Definition cuex_atree_depth (tree : option atree) : Z :=
  match tree with None => 0 | Some tree => atree_depth tree end.

Section atree_ops.
Context (get_key : ex -> Z).

(** ** Search *)

Fixpoint atree_find (tree : atree) (key : Z) : option ex :=
  match tree with
  | Leaf e => if get_key e =? key then Some e else None
  | Node centre lhs rhs =>
      if key <? centre then
        if key <? centre_to_min centre then None else atree_find lhs key
      else if centre_to_max centre <? key then None
      else atree_find rhs key
  end.
Definition cuex_atree_find (tree : option atree) (key : Z) : option ex :=
  match tree with None => None | Some tree => atree_find tree key end.

Fixpoint find_index_loop (index : Z) (tree : atree) (key : Z) : Z :=
  match tree with
  | Leaf e => if negb (get_key e =? key) then wrap (-1) else index
  | Node centre lhs rhs =>
      if key <? centre then
        if key <? centre_to_min centre then wrap (-1) else find_index_loop index lhs key
      else if centre_to_max centre <? key then wrap (-1)
      else find_index_loop (wadd index (atree_card lhs)) rhs key
  end.
Definition cuex_atree_find_index (tree : option atree) (key : Z) : Z :=
  match tree with None => wrap (-1) | Some tree => find_index_loop 0 tree key end.

(** ** Insertion *)

Section insert.
Context (merge_values : ex -> ex -> option ex).

Fixpoint atree_insert (tree : atree) (value : ex) : option atree :=
  let value_key := get_key value in
  match tree with
  | Leaf e =>
      let atree_key := get_key e in
      if value_key =? atree_key then Leaf <$> merge_values e value
      else if value_key <? atree_key then Some (node_new (pair_centre value_key atree_key) (Leaf value) tree)
      else Some (node_new (pair_centre atree_key value_key) tree (Leaf value))
  | Node centre lhs rhs =>
      if value_key <? centre then
        if value_key <? centre_to_min centre
        then Some (node_new (pair_centre value_key centre) (Leaf value) tree)
        else lhs ← atree_insert lhs value; Some (node_new centre lhs rhs)
      else if centre_to_max centre <? value_key
      then Some (node_new (pair_centre centre value_key) tree (Leaf value))
      else rhs ← atree_insert rhs value; Some (node_new centre lhs rhs)
  end.

(** The same with the arguments of the callback reversed. *)
Fixpoint atree_insert_rev (tree : atree) (value : ex) : option atree :=
  let value_key := get_key value in
  match tree with
  | Leaf e =>
      let atree_key := get_key e in
      if value_key =? atree_key then Leaf <$> merge_values value e
      else if value_key <? atree_key then Some (node_new (pair_centre value_key atree_key) (Leaf value) tree)
      else Some (node_new (pair_centre atree_key value_key) tree (Leaf value))
  | Node centre lhs rhs =>
      if value_key <? centre then
        if value_key <? centre_to_min centre
        then Some (node_new (pair_centre value_key centre) (Leaf value) tree)
        else lhs ← atree_insert_rev lhs value; Some (node_new centre lhs rhs)
      else if centre_to_max centre <? value_key
      then Some (node_new (pair_centre centre value_key) tree (Leaf value))
      else rhs ← atree_insert_rev rhs value; Some (node_new centre lhs rhs)
  end.

Definition cuex_atree_deep_insert (tree : option atree) (value : ex) : option atree :=
  match tree with None => Some (Leaf value) | Some tree => atree_insert tree value end.
End insert.

Definition cuex_atree_insert (tree : option atree) (value : ex) : option atree :=
  match tree with None => Some (Leaf value) | Some tree => atree_insert merge_as_first tree value end.
Definition cuex_atree_replace (tree : option atree) (value : ex) : option atree :=
  match tree with None => Some (Leaf value) | Some tree => atree_insert merge_as_second tree value end.
Definition cuex_atree_deep_insert_iv (i : nat) (merge_values : ex -> ex -> option ex)
    (tree : option atree) (value : ex) : option atree :=
  cuex_atree_deep_insert (merge_iv_adaptor i merge_values) tree value.

(** ** Removal *)

(** The tree and the element that was removed. *)
Fixpoint atree_erase (tree : atree) (key : Z) (elt : option ex) : option atree * option ex :=
  match tree with
  | Leaf e => if key =? get_key e then (None, Some e) else (Some tree, elt)
  | Node centre lhs rhs =>
      if key <? centre then
        if key <? centre_to_min centre then (Some tree, elt)
        else
          let (new_left, elt) := atree_erase lhs key elt in
          (match new_left with None => Some rhs | Some new_left => Some (node_new centre new_left rhs) end, elt)
      else if centre_to_max centre <? key then (Some tree, elt)
      else
        let (new_right, elt) := atree_erase rhs key elt in
        (match new_right with None => Some lhs | Some new_right => Some (node_new centre lhs new_right) end, elt)
  end.

Definition cuex_atree_erase (tree : option atree) (key : Z) : option atree :=
  match tree with
  | None => tree
  | Some tree => match fst (atree_erase tree key None) with None => cuex_atree_empty | res => res end
  end.

(** The removed element and the new tree. *)
Definition cuex_atree_find_erase (tree : option atree) (key : Z) : option ex * option atree :=
  match tree with
  | None => (None, tree)
  | Some t =>
      let (tree, elt) := atree_erase t key None in
      (elt, match tree with None => cuex_atree_empty | _ => tree end)
  end.
End atree_ops.

(** ** Algebra *)

Section algebra.
Context (get_key : ex -> Z).

Section union.
Context (merge_values : ex -> ex -> option ex).

Fixpoint atree_union (tree0 : atree) : atree -> option atree :=
  fix union1 (tree1 : atree) : option atree :=
    match tree0, tree1 with
    | Leaf e0, _ => atree_insert_rev get_key merge_values tree1 e0
    | _, Leaf e1 => atree_insert get_key merge_values tree0 e1
    | Node centre0 left0 right0, Node centre1 left1 right1 =>
        if centre0 =? centre1 then
          lhs ← atree_union left0 left1;
          rhs ← atree_union right0 right1;
          Some (node_new centre0 lhs rhs)
        else if centre0 <? centre1 then
          let max0 := centre_to_max centre0 in
          if max0 <? centre1 then
            let min1 := centre_to_min centre1 in
            if max0 <? min1 then Some (node_new (pair_centre centre0 centre1) tree0 tree1)
            else lhs ← union1 left1; Some (node_new centre1 lhs right1)
          else rhs ← atree_union right0 tree1; Some (node_new centre0 left0 rhs)
        else
          let max1 := centre_to_max centre1 in
          if max1 <? centre0 then
            let min0 := centre_to_min centre0 in
            if max1 <? min0 then Some (node_new (pair_centre centre1 centre0) tree1 tree0)
            else lhs ← atree_union left0 tree1; Some (node_new centre0 lhs right0)
          else rhs ← union1 right1; Some (node_new centre1 left1 rhs)
    end.

Definition cuex_atree_deep_union (tree0 tree1 : option atree) : option atree :=
  match tree0, tree1 with
  | None, _ => tree1
  | _, None => tree0
  | Some tree0, Some tree1 => atree_union tree0 tree1
  end.
End union.

Definition cuex_atree_left_union (tree0 tree1 : option atree) : option atree :=
  match tree0, tree1 with
  | None, _ => tree1
  | _, None => tree0
  | Some tree0, Some tree1 => atree_union merge_as_first tree0 tree1
  end.
Definition cuex_atree_disjoint_union (tree0 tree1 : option atree) : option atree :=
  match tree0, tree1 with
  | None, _ => tree1
  | _, None => tree0
  | Some tree0, Some tree1 => atree_union merge_disjoin tree0 tree1
  end.
Definition cuex_atree_deep_union_iv (value_index : nat) (value_merge : ex -> ex -> option ex)
    (tree0 tree1 : option atree) : option atree :=
  cuex_atree_deep_union (merge_iv_adaptor value_index value_merge) tree0 tree1.

Section isecn.
Context (merge_values : ex -> ex -> option ex).

Fixpoint atree_isecn (tree0 : atree) : atree -> option atree :=
  fix isecn1 (tree1 : atree) : option atree :=
    match tree0, tree1 with
    | Leaf e0, _ =>
        match atree_find get_key tree1 (get_key e0) with
        | Some leaf1 => Leaf <$> merge_values e0 leaf1
        | None => None
        end
    | _, Leaf e1 =>
        match atree_find get_key tree0 (get_key e1) with
        | Some leaf0 => Leaf <$> merge_values leaf0 e1
        | None => None
        end
    | Node centre0 left0 right0, Node centre1 left1 right1 =>
        if centre0 =? centre1 then
          let new_left := atree_isecn left0 left1 in
          let new_right := atree_isecn right0 right1 in
          match new_left, new_right with
          | None, _ => new_right
          | _, None => new_left
          | Some new_left, Some new_right => Some (node_new centre0 new_left new_right)
          end
        else if centre0 <? centre1 then
          let max0 := centre_to_max centre0 in
          if max0 <? centre1 then
            let min1 := centre_to_min centre1 in
            if max0 <? min1 then None else isecn1 left1
          else atree_isecn right0 tree1
        else
          let max1 := centre_to_max centre1 in
          if max1 <? centre0 then
            let min0 := centre_to_min centre0 in
            if max1 <? min0 then None else atree_isecn left0 tree1
          else isecn1 right1
    end.

Definition cuex_atree_deep_isecn (tree0 tree1 : option atree) : option atree :=
  match tree0, tree1 with
  | None, _ => tree0
  | _, None => tree1
  | Some tree0, Some tree1 => atree_isecn tree0 tree1
  end.
End isecn.

Definition cuex_atree_left_isecn (tree0 tree1 : option atree) : option atree :=
  match tree0, tree1 with
  | None, _ => tree0
  | _, None => tree1
  | Some tree0, Some tree1 => atree_isecn merge_as_first tree0 tree1
  end.
Definition cuex_atree_deep_isecn_iv (value_index : nat) (value_merge : ex -> ex -> option ex)
    (tree0 tree1 : option atree) : option atree :=
  cuex_atree_deep_isecn (merge_iv_adaptor value_index value_merge) tree0 tree1.

(** ** Inclusion and order *)

Section subseteq.
Context (value_subseteq : ex -> ex -> bool).

Fixpoint atree_subseteq (tree0 : atree) : atree -> bool :=
  fix subseteq1 (tree1 : atree) : bool :=
    if decide (tree0 = tree1) then true
    else match tree0, tree1 with
    | Leaf e0, _ =>
        match atree_find get_key tree1 (get_key e0) with
        | Some leaf1 => value_subseteq e0 leaf1
        | None => false
        end
    | _, Leaf _ => false
    | Node centre0 left0 right0, Node centre1 left1 right1 =>
        if centre0 =? centre1 then
          if negb (atree_subseteq left0 left1) then false else atree_subseteq right0 right1
        else if centre0 <? centre1 then
          let min1 := centre_to_min centre1 in
          if min1 <? centre0 then subseteq1 left1 else false
        else
          let max1 := centre_to_max centre1 in
          if centre0 <? max1 then subseteq1 right1 else false
    end.

Definition cuex_atree_deep_subseteq (tree0 tree1 : option atree) : bool :=
  if decide (tree0 = tree1) then true
  else match tree0, tree1 with
  | None, _ => true
  | _, None => false
  | Some tree0, Some tree1 => atree_subseteq tree0 tree1
  end.
End subseteq.

Definition cuex_atree_subseteq (tree0 tree1 : option atree) : bool :=
  if decide (tree0 = tree1) then true
  else match tree0, tree1 with
  | None, _ => true
  | _, None => false
  | Some tree0, Some tree1 => atree_subseteq subseteq_true tree0 tree1
  end.
Definition cuex_atree_deep_subseteq_iv (value_index : nat) (value_subseteq : ex -> ex -> bool)
    (tree0 tree1 : option atree) : bool :=
  cuex_atree_deep_subseteq (subseteq_iv_adaptor value_index value_subseteq) tree0 tree1.

Section order.
Context (value_subseteq : ex -> ex -> bool) (value_order : ex -> ex -> cu_order_t).

Fixpoint atree_order (tree0 tree1 : atree) : cu_order_t :=
  if decide (tree0 = tree1) then cu_order_eq
  else match tree0, tree1 with
  | Leaf e0, Leaf e1 => if get_key e0 =? get_key e1 then value_order e0 e1 else cu_order_none
  | Leaf e0, Node _ _ _ =>
      match atree_find get_key tree1 (get_key e0) with
      | Some leaf1 => if value_subseteq e0 leaf1 then cu_order_lt else cu_order_none
      | None => cu_order_none
      end
  | Node _ _ _, Leaf e1 =>
      match atree_find get_key tree0 (get_key e1) with
      | Some leaf0 => if value_subseteq e1 leaf0 then cu_order_gt else cu_order_none
      | None => cu_order_none
      end
  | Node centre0 left0 right0, Node centre1 left1 right1 =>
      if centre0 =? centre1 then
        let left_order := atree_order left0 left1 in
        if decide (left_order = cu_order_none) then cu_order_none
        else
          let right_order := atree_order right0 right1 in
          if decide (left_order = right_order) then left_order
          else if decide (left_order = cu_order_eq) then right_order
          else if decide (right_order = cu_order_eq) then left_order
          else cu_order_none
      else if centre0 <? centre1 then
        let max0 := centre_to_max centre0 in
        if max0 <? centre1 then
          let min1 := centre_to_min centre1 in
          if max0 <? min1 then cu_order_none
          else if atree_subseteq value_subseteq tree0 left1 then cu_order_lt else cu_order_none
        else if atree_subseteq value_subseteq tree1 right0 then cu_order_gt else cu_order_none
      else
        let max1 := centre_to_max centre1 in
        if max1 <? centre0 then
          let min0 := centre_to_min centre0 in
          if max1 <? min0 then cu_order_none
          else if atree_subseteq value_subseteq tree1 left0 then cu_order_gt else cu_order_none
        else if atree_subseteq value_subseteq tree0 right1 then cu_order_lt else cu_order_none
  end.

End order.

Definition cuex_atree_order (tree0 tree1 : option atree) : cu_order_t :=
  if decide (tree0 = tree1) then cu_order_eq
  else match tree0, tree1 with
  | None, _ => cu_order_lt
  | _, None => cu_order_gt
  | Some tree0, Some tree1 => atree_order subseteq_true order_eq tree0 tree1
  end.

(** [value_order] is passed for [value_subseteq] as well. *)
Definition cuex_atree_deep_order_iv (value_index : nat) (value_subseteq : ex -> ex -> bool)
    (value_order : ex -> ex -> cu_order_t) (tree0 tree1 : option atree) : cu_order_t :=
  if decide (tree0 = tree1) then cu_order_eq
  else match tree0, tree1 with
  | None, _ => cu_order_lt
  | _, None => cu_order_gt
  | Some tree0, Some tree1 =>
      atree_order (subseteq_iv_adaptor value_index (fun x y => order_truth (value_order x y)))
        (order_iv_adaptor value_index value_order) tree0 tree1
  end.
End algebra.

(** ** Traversal *)

Section traversal.
Context {T : Type}.

Fixpoint atree_iter (f : ex -> clop T unit) (tree : atree) : clop T unit :=
  match tree with
  | Leaf e => f e
  | Node _ lhs rhs => _ <- atree_iter f lhs;; atree_iter f rhs
  end.
Definition cuex_atree_iter (tree : option atree) (f : ex -> clop T unit) : clop T unit :=
  match tree with None => cret tt | Some tree => atree_iter f tree end.

Fixpoint atree_conj (f : ex -> clop T bool) (tree : atree) : clop T bool :=
  match tree with
  | Leaf e => f e
  | Node _ lhs rhs => c <- atree_conj f lhs;; if negb c then cret false else atree_conj f rhs
  end.
Definition cuex_atree_conj (tree : option atree) (f : ex -> clop T bool) : clop T bool :=
  match tree with None => cret true | Some tree => atree_conj f tree end.

(** An element without the operand is the error [None]. *)
Fixpoint atree_conj_iv (i : nat) (f : ex -> clop T bool) (tree : atree) : clop T (option bool) :=
  match tree with
  | Leaf e => match cuex_opn_at e i with None => cret None | Some x => c <- f x;; cret (Some c) end
  | Node _ lhs rhs =>
      c <- atree_conj_iv i f lhs;;
      match c with Some true => atree_conj_iv i f rhs | _ => cret c end
  end.
Definition cuex_atree_conj_iv (tree : option atree) (i : nat) (f : ex -> clop T bool) : clop T (option bool) :=
  match tree with None => cret (Some true) | Some tree => atree_conj_iv i f tree end.

Fixpoint atree_conj_kv (f : ex -> ex -> clop T bool) (tree : atree) : clop T (option bool) :=
  match tree with
  | Leaf e =>
      match cuex_opn_at e 0, cuex_opn_at e 1 with
      | Some x, Some y => c <- f x y;; cret (Some c)
      | _, _ => cret None
      end
  | Node _ lhs rhs =>
      c <- atree_conj_kv f lhs;;
      match c with Some true => atree_conj_kv f rhs | _ => cret c end
  end.
Definition cuex_atree_conj_kv (tree : option atree) (f : ex -> ex -> clop T bool) : clop T (option bool) :=
  match tree with None => cret (Some true) | Some tree => atree_conj_kv f tree end.
End traversal.

(** ** Images *)

Fixpoint atree_image (f : ex -> ex) (get_key : ex -> Z) (tree : atree) (accu : option atree) : option atree :=
  match tree with
  | Leaf e0 =>
      let e := f e0 in
      match accu with
      | None => Some (Leaf e)
      | Some accu => atree_insert get_key merge_as_first accu e
      end
  | Node _ lhs rhs => atree_image f get_key rhs (atree_image f get_key lhs accu)
  end.
Definition cuex_atree_image (tree : option atree) (f : ex -> ex) (get_key : ex -> Z) : option atree :=
  match tree with None => tree | Some t => atree_image f get_key t None end.

Fixpoint atree_isokey_image (f : ex -> ex) (tree : atree) : atree :=
  match tree with
  | Leaf e => Leaf (f e)
  | Node centre lhs rhs => node_new centre (atree_isokey_image f lhs) (atree_isokey_image f rhs)
  end.
Definition cuex_atree_isokey_image (tree : option atree) (f : ex -> ex) : option atree :=
  atree_isokey_image f <$> tree.

Fixpoint atree_isokey_image_iv (i : nat) (f : ex -> ex) (tree : atree) : option atree :=
  match tree with
  | Leaf e => x ← cuex_opn_at e i; Some (Leaf (Opn (cuex_meta e) (<[i := f x]> (operands e))))
  | Node centre lhs rhs =>
      lhs ← atree_isokey_image_iv i f lhs; rhs ← atree_isokey_image_iv i f rhs; Some (node_new centre lhs rhs)
  end.
Definition cuex_atree_isokey_image_iv (tree : option atree) (i : nat) (f : ex -> ex) : option (option atree) :=
  match tree with None => Some tree | Some t => t ← atree_isokey_image_iv i f t; Some (Some t) end.

Fixpoint atree_isokey_image_kv (f : ex -> ex -> ex) (tree : atree) : option atree :=
  match tree with
  | Leaf e =>
      x ← cuex_opn_at e 0; y ← cuex_opn_at e 1;
      Some (Leaf (Opn (cuex_meta e) (<[1%nat := f x y]> (operands e))))
  | Node centre lhs rhs =>
      lhs ← atree_isokey_image_kv f lhs; rhs ← atree_isokey_image_kv f rhs; Some (node_new centre lhs rhs)
  end.
Definition cuex_atree_isokey_image_kv (tree : option atree) (f : ex -> ex -> ex) : option (option atree) :=
  match tree with None => Some tree | Some t => t ← atree_isokey_image_kv f t; Some (Some t) end.

(** ** Elements that are operations on a key and a value

    The key is the address of the first operand. *)
Section key_value.
Context (address : ex -> Z).

Definition get_key_0 (e : ex) : Z := default 0 (address <$> cuex_opn_at e 0).

Definition cuex_atree_deep_insert_kv (merge_values : ex -> ex -> ex -> option ex) (tree : option atree) (value : ex)
    : option atree :=
  cuex_atree_deep_insert get_key_0 (merge_kv_adaptor merge_values) tree value.
Definition cuex_atree_deep_union_kv (merge : ex -> ex -> ex -> option ex) (tree0 tree1 : option atree) : option atree :=
  cuex_atree_deep_union get_key_0 (merge_kv_adaptor merge) tree0 tree1.
Definition cuex_atree_deep_isecn_kv (merge : ex -> ex -> ex -> option ex) (tree0 tree1 : option atree) : option atree :=
  cuex_atree_deep_isecn get_key_0 (merge_kv_adaptor merge) tree0 tree1.
Definition cuex_atree_deep_subseteq_kv (value_subseteq : ex -> ex -> ex -> bool) (tree0 tree1 : option atree) : bool :=
  cuex_atree_deep_subseteq get_key_0 (subseteq_kv_adaptor value_subseteq) tree0 tree1.
Definition cuex_atree_deep_order_kv (value_subseteq : ex -> ex -> ex -> bool)
    (value_order : ex -> ex -> ex -> cu_order_t) (tree0 tree1 : option atree) : cu_order_t :=
  if decide (tree0 = tree1) then cu_order_eq
  else match tree0, tree1 with
  | None, _ => cu_order_lt
  | _, None => cu_order_gt
  | Some tree0, Some tree1 =>
      atree_order get_key_0 (subseteq_kv_adaptor value_subseteq) (order_kv_adaptor value_order) tree0 tree1
  end.
End key_value.

(** ** Iterators

    The stack of subtrees, whose bottom is [NULL], and the index of its top; [None] is an access
    outside the array. *)
Record atree_itr := mk_atree_itr { sp : nat; stack : list (option atree) }.

(** The number of entries of the array. *)
Definition atree_itr_entries (tree : option atree) : nat := Z.to_nat (cuex_atree_depth tree + 1) + 1.

Definition push_at (itr : list (option atree)) (i : nat) (x : option atree) : option (list (option atree)) :=
  if decide (i < length itr)%nat then Some (<[i := x]> itr) else None.

Definition cuex_atree_itr_init (memory : list (option atree)) (tree : option atree) : option atree_itr :=
  st ← push_at memory 0 None;
  match tree with
  | None => Some (mk_atree_itr 0 st)
  | Some t => st ← push_at st 1 tree; Some (mk_atree_itr 1 st)
  end.

(** The stack with the right branches on the way down to the first element; [sp] is the number of
    entries below the tree. *)
Fixpoint itr_push (tree : atree) (sp : nat) (st : list (option atree)) : option (ex * nat * list (option atree)) :=
  match tree with
  | Leaf e => Some (e, sp, st)
  | Node _ lhs rhs => st ← push_at st sp (Some rhs); itr_push lhs (S sp) st
  end.

Definition cuex_atree_itr_get (itr : atree_itr) : option (option ex * atree_itr) :=
  tree ← stack itr !! sp itr;
  match tree with
  | None => Some (None, itr)
  | Some tree => '(e, n, st) ← itr_push tree (sp itr) (stack itr); Some (Some e, mk_atree_itr (n - 1) st)
  end.

Definition cuex_atree_itr_get_at_1 (itr : atree_itr) : option (option ex * atree_itr) :=
  tree ← stack itr !! sp itr;
  match tree with
  | None => Some (None, itr)
  | Some tree =>
      '(e, n, st) ← itr_push tree (sp itr) (stack itr);
      x ← cuex_opn_at e 1;
      Some (Some x, mk_atree_itr (n - 1) st)
  end.
