(* ===== verification/AtreeInv.v ===== *)
(** * Associative trees: centres, well-formed trees and operations on one tree

    [within lo hi t] says that the centres of [t] are consistent with its keys, which are between [lo] and [hi].
    The contents of a tree are a finite map from keys to elements; two well-formed trees with
    the same contents are equal.  Search, insertion and removal are operations on the contents. *)

From S2P Require Export Atree.

(** ** Centres *)

Lemma centre_to_max_spec c : word c -> c <> 0 -> centre_to_max c = c + lb c - 1.
Proof.
  intros Hw Hn. rewrite <- key_max_spec by done. unfold centre_to_max, key_max. cbn zeta.
  apply Z.bits_inj'. intros i Hi. rewrite !Z.lor_spec, Z.lxor_spec.
  by destruct (Z.testbit c i), (Z.testbit (wsub c 1) i).
Qed.

Lemma centre_to_min_spec c : word c -> c <> 0 -> centre_to_min c = c - lb c.
Proof. intros Hw Hn. by destruct (key_mask_spec c c) as (E & _). Qed.

(** Keys are below [2^63]: the centre of keys that differ in the highest bit is 0. *)
Definition is_key (x : Z) : Prop := 0 <= x < 2 ^ 63.

Lemma is_key_word x : is_key x -> word x.
Proof. unfold is_key, word. lia. Qed.

Lemma pair_centre_join a b : is_key a -> is_key b -> a < b -> pair_centre a b = key_join a b.
Proof.
  intros Ha Hb Hlt. unfold pair_centre, key_join. cbn zeta. f_equal.
  unfold cu_word_dcover, cu_ulong_dcover, cu_uintptr_dcover.
  assert (Hx : 0 <= a ^^^ b < 2 ^ 63).
  { assert (0 <= a ^^^ b) by (apply Z.lxor_nonneg; unfold is_key in *; lia). split; [done|].
    destruct (Z.eq_dec (a ^^^ b) 0) as [->|]; [lia|]. apply Z.log2_lt_pow2; [lia|].
    unfold is_key in *. pose proof (Z.log2_lxor a b). assert (Z.log2 a < 63) by (destruct (Z.eq_dec a 0) as [->|]; [done|apply Z.log2_lt_pow2; lia]).
    assert (Z.log2 b < 63) by (apply Z.log2_lt_pow2; lia). lia. }
  assert (a ^^^ b <> 0) by (intros E; apply Z.lxor_eq in E; lia).
  rewrite cu_uint64_dcover_cover by (unfold word; lia). rewrite cover_mask_ones by lia.
  set (t := Z.log2 (a ^^^ b)). assert (0 <= t < 63).
  { unfold t. split; [apply Z.log2_nonneg|]. apply Z.log2_lt_pow2; lia. }
  pose proof (pow2_pos t). pose proof (pow2_succ t). assert (2 ^ (t + 1) <= 2 ^ 63) by (apply Z.pow_le_mono_r; lia).
  rewrite Z.ones_equiv, !Z.shiftr_div_pow2 by lia. unfold wadd.
  replace (Z.pred (2 ^ (t + 1)) + 1) with (2 ^ (t + 1)) by lia. rewrite wrap_small by (unfold word; lia).
  replace (Z.pred (2 ^ (t + 1))) with (1 + (2 ^ t - 1) * 2 ^ 1) by lia.
  rewrite Z.div_add by lia. change (1 / 2 ^ 1) with 0. rewrite wrap_small by (unfold word; lia).
  replace (2 ^ (t + 1)) with (2 ^ t * 2 ^ 1) by lia. rewrite Z.div_mul by lia. lia.
Qed.

(** Intervals of centres are nested or disjoint. *)
Lemma centres_laminar c0 c1 : word c0 -> word c1 -> c0 <> 0 -> c0 < c1 ->
  (c0 + lb c0 <= c1 - lb c1) \/
  (c1 - lb c1 <= c0 - lb c0 /\ c0 + lb c0 <= c1 /\ c1 - lb c1 < c0 + lb c0) \/
  (c1 < c0 + lb c0 /\ c0 <= c1 - lb c1 /\ c1 + lb c1 <= c0 + lb c0).
Proof.
  intros H0 H1 Hn Hlt. assert (c1 <> 0) as Hn1 by (unfold word in *; lia).
  pose proof (lb_bounds c0 H0) as [Hl0 Hb0]. pose proof (lb_bounds c1 H1) as [Hl1 Hb1].
  destruct (Z.lt_ge_cases c1 (c0 + lb c0)) as [Hin|Hout].
  { right; right. pose proof (inside_right c0 c1 H0 H1 ltac:(lia)). lia. }
  destruct (Z.le_gt_cases (c0 + lb c0) (c1 - lb c1)) as [|Hover]; [by left|]. right; left.
  destruct (Z.lt_ge_cases (c1 - lb c1) c0) as [Hm|Hm].
  { pose proof (inside_left c1 c0 H1 H0 Hn ltac:(lia)). lia. }
  exfalso. pose proof (low_end_lb c1 H1 Hn1 ltac:(lia)) as Hlow.
  destruct (Z.eq_dec c0 (c1 - lb c1)) as [E|Hne]; [rewrite <- E in Hlow; lia|].
  assert (word (c1 - lb c1)) by (unfold word in *; lia).
  pose proof (inside_right c0 (c1 - lb c1) H0 ltac:(done) ltac:(lia)). lia.
Qed.

(** The centre of a pair of intervals (or keys) that are disjoint. *)
Lemma pair_centre_keys a b : is_key a -> is_key b -> a < b -> let c := pair_centre a b in
  word c /\ c <> 0 /\ 0 <= c - lb c <= a /\ a < c <= b /\ b < c + lb c <= 2 ^ 63.
Proof.
  intros Ha Hb Hlt c. unfold c. rewrite pair_centre_join by done.
  destruct (key_join_base a b (is_key_word a Ha) (is_key_word b Hb) Hlt) as (_ & Hw & Hn & H0 & H1 & Hl).
  set (j := key_join a b) in *. pose proof (lb_bounds j Hw) as [Hj1 Hj2]. specialize (Hj2 Hn).
  split_and!; [done|done|lia|lia|lia|lia|lia|].
  destruct (Z.le_gt_cases (j + lb j) (2 ^ 63)) as [|Hgt]; [done|]. exfalso.
  assert (lb (2 ^ 63) = 2 ^ 63) as E63 by reflexivity. unfold is_key in *.
  pose proof (centres_laminar j (2 ^ 63) Hw ltac:(unfold word; lia) Hn ltac:(lia)). lia.
Qed.

Lemma pair_centre_low a c : is_key a -> word c -> c <> 0 -> c + lb c <= 2 ^ 63 -> a < c - lb c -> let j := pair_centre a c in
  word j /\ j <> 0 /\ 0 <= j - lb j <= a /\ a < j <= c - lb c /\ c + lb c <= j + lb j <= 2 ^ 63.
Proof.
  intros Ha Hc Hn Hc63 Hlt j. pose proof (lb_bounds c Hc) as [Hl1 Hl2]. assert (is_key c) as Hkc by (unfold is_key, word in *; lia).
  destruct (pair_centre_keys a c Ha Hkc ltac:(lia)) as (Hw & Hj & H1 & H2 & H3). fold j in Hw, Hj, H1, H2, H3.
  destruct (Z.eq_dec j c) as [E|Hne]; [rewrite E in *; lia|].
  pose proof (inside_right j c Hw Hc ltac:(lia)). split_and!; done || lia.
Qed.

Lemma pair_centre_high c b : is_key b -> word c -> c <> 0 -> c + lb c <= b -> let j := pair_centre c b in
  word j /\ j <> 0 /\ 0 <= j - lb j <= c - lb c /\ c + lb c <= j <= b /\ b < j + lb j <= 2 ^ 63.
Proof.
  intros Hb Hc Hn Hlt j. pose proof (lb_bounds c Hc) as [Hl1 Hl2]. assert (is_key c) as Hkc by (unfold is_key, word in *; lia).
  destruct (pair_centre_keys c b Hkc Hb ltac:(lia)) as (Hw & Hj & H1 & H2 & H3). fold j in Hw, Hj, H1, H2, H3.
  destruct (Z.eq_dec (j - lb j) c) as [E|Hne].
  - pose proof (low_end_lb j Hw Hj ltac:(lia)) as Hlow. rewrite E in Hlow. lia.
  - pose proof (inside_left j c Hw Hc Hn ltac:(lia)). split_and!; done || lia.
Qed.

Lemma pair_centre_trees c0 c1 : word c0 -> word c1 -> c0 <> 0 -> c1 + lb c1 <= 2 ^ 63 -> c0 + lb c0 <= c1 - lb c1 ->
  let j := pair_centre c0 c1 in
  word j /\ j <> 0 /\ 0 <= j - lb j <= c0 - lb c0 /\ c0 + lb c0 <= j <= c1 - lb c1 /\ c1 + lb c1 <= j + lb j <= 2 ^ 63.
Proof.
  intros H0 H1 Hn H63 Hd j. pose proof (lb_bounds c0 H0) as [Ha1 Ha2]. pose proof (lb_bounds c1 H1) as [Hb1 Hb2].
  assert (c1 <> 0) as Hn1 by (unfold word in *; lia). assert (is_key c0 /\ is_key c1) as [K0 K1] by (unfold is_key, word in *; lia).
  destruct (pair_centre_high c0 c1 K1 H0 Hn ltac:(lia)) as (Hw & Hj & P1 & P2 & P3).
  destruct (pair_centre_low c0 c1 K0 H1 Hn1 H63 ltac:(lia)) as (_ & _ & Q1 & Q2 & Q3). fold j in Hw, Hj, P1, P2, P3, Q1, Q2, Q3. split_and!; done || lia.
Qed.

(** ** Well-formed trees *)

Section inv.
Context (get_key : ex -> Z).

Fixpoint within (lo hi : Z) (t : atree) : Prop :=
  match t with
  | Leaf e => lo <= get_key e < hi
  | Node c l r => word c /\ c <> 0 /\ lo <= c - lb c /\ c + lb c <= hi /\ within (c - lb c) c l /\ within c (c + lb c) r
  end.

Definition wf_atree (t : atree) : Prop := within 0 (2 ^ 63) t.
Definition wf (t : option atree) : Prop := match t with None => True | Some t => wf_atree t end.

Lemma within_mono lo hi lo' hi' t : within lo hi t -> lo' <= lo -> hi <= hi' -> within lo' hi' t.
Proof. destruct t as [e|c l r]; cbn; [lia|]. intros (?&?&?&?&?&?) ??. split_and!; done || lia. Qed.

(** ** Contents *)

Fixpoint contents (t : atree) : gmap Z ex :=
  match t with Leaf e => {[get_key e := e]} | Node _ l r => contents l ∪ contents r end.
Definition content (t : option atree) : gmap Z ex := match t with None => ∅ | Some t => contents t end.

Lemma contents_bounds lo hi t x e : within lo hi t -> contents t !! x = Some e -> lo <= x < hi /\ get_key e = x.
Proof.
  revert lo hi. induction t as [e'|c l IHl r IHr]; intros lo hi Hw Hx; cbn in Hw, Hx.
  - apply lookup_singleton_Some in Hx as [<- <-]. done.
  - destruct Hw as (Hc & Hn & H1 & H2 & Hl & Hr). pose proof (lb_bounds c Hc).
    apply lookup_union_Some_raw in Hx as [Hx|[_ Hx]]; [apply (IHl _ _ Hl) in Hx|apply (IHr _ _ Hr) in Hx]; lia.
Qed.

Lemma contents_outside lo hi t x : within lo hi t -> x < lo \/ hi <= x -> contents t !! x = None.
Proof.
  intros Hw Hx. destruct (contents t !! x) as [e|] eqn:E; [|done]. apply (contents_bounds lo hi) in E; [lia|done].
Qed.

Lemma contents_node lo hi c l r x : within lo hi (Node c l r) ->
  contents (Node c l r) !! x = if x <? c then contents l !! x else contents r !! x.
Proof.
  intros (Hc & Hn & H1 & H2 & Hl & Hr). cbn. destruct (Z.ltb_spec x c) as [Hx|Hx].
  - rewrite lookup_union_l; [done|]. apply (contents_outside c (c + lb c)); [done|lia].
  - rewrite lookup_union_r; [done|]. apply (contents_outside (c - lb c) c); [done|lia].
Qed.

Lemma contents_inhabited lo hi t : within lo hi t -> exists x e, contents t !! x = Some e /\ lo <= x < hi.
Proof.
  revert lo hi. induction t as [e|c l IHl r IHr]; intros lo hi Hw.
  - exists (get_key e), e. cbn in Hw |- *. rewrite lookup_singleton_eq. done.
  - pose proof Hw as (Hc & Hn & H1 & H2 & Hl & Hr). destruct (IHl _ _ Hl) as (x & e & Hx & Hb). exists x, e.
    rewrite (contents_node lo hi) by done. rewrite (proj2 (Z.ltb_lt _ _)) by lia. pose proof (lb_bounds c Hc). split; [done|lia].
Qed.

(** The contents of a node on both sides of its centre. *)
Lemma node_sides lo hi c l r : within lo hi (Node c l r) ->
  (exists x e, contents (Node c l r) !! x = Some e /\ c - lb c <= x < c) /\
  (exists x e, contents (Node c l r) !! x = Some e /\ c <= x < c + lb c).
Proof.
  intros Hw. pose proof Hw as (Hc & Hn & H1 & H2 & Hl & Hr). split.
  - destruct (contents_inhabited _ _ l Hl) as (x & e & Hx & Hb). exists x, e.
    rewrite (contents_node lo hi) by done. by rewrite (proj2 (Z.ltb_lt _ _)) by lia.
  - destruct (contents_inhabited _ _ r Hr) as (x & e & Hx & Hb). exists x, e.
    rewrite (contents_node lo hi) by done. by rewrite (proj2 (Z.ltb_ge _ _)) by lia.
Qed.

Lemma node_range lo hi c l r x e : within lo hi (Node c l r) -> contents (Node c l r) !! x = Some e ->
  c - lb c <= x < c + lb c.
Proof.
  intros (Hc & Hn & H1 & H2 & Hl & Hr) Hx.
  apply (contents_bounds (c - lb c) (c + lb c)) in Hx; [lia|]. cbn. split_and!; done || lia.
Qed.

(** Nodes with the same keys have the same centre. *)
Lemma same_centre lo hi c l r c' l' r' : within lo hi (Node c l r) -> within lo hi (Node c' l' r') ->
  (forall x, is_Some (contents (Node c l r) !! x) <-> is_Some (contents (Node c' l' r') !! x)) -> c <= c'.
Proof.
  intros Hw Hw' Heq. destruct (Z.le_gt_cases c c') as [|Hgt]; [done|]. exfalso.
  pose proof Hw as (Hc & Hn & _). pose proof Hw' as (Hc' & Hn' & _).
  destruct (node_sides _ _ _ _ _ Hw) as [(x & e & Hx & Bx) (y & f & Hy & By)].
  destruct (node_sides _ _ _ _ _ Hw') as [(x' & e' & Hx' & Bx') (y' & f' & Hy' & By')].
  destruct (proj1 (Heq x) (mk_is_Some _ _ Hx)) as [? Ex]. destruct (proj1 (Heq y) (mk_is_Some _ _ Hy)) as [? Ey].
  destruct (proj2 (Heq x') (mk_is_Some _ _ Hx')) as [? Ex']. destruct (proj2 (Heq y') (mk_is_Some _ _ Hy')) as [? Ey'].
  apply (node_range _ _ _ _ _ _ _ Hw') in Ex, Ey. apply (node_range _ _ _ _ _ _ _ Hw) in Ex', Ey'.
  destruct (centres_laminar c' c Hc' Hc Hn') as [|[|]]; lia.
Qed.

Lemma contents_leaf_node lo hi e c l r : within lo hi (Node c l r) -> contents (Node c l r) <> contents (Leaf e).
Proof.
  intros Hw E. destruct (node_sides _ _ _ _ _ Hw) as [(x & e1 & Hx & Bx) (y & e2 & Hy & By)].
  rewrite E in Hx, Hy. cbn in Hx, Hy. apply lookup_singleton_Some in Hx as [? _], Hy as [? _]. lia.
Qed.

(** Trees are determined by their contents. *)
Lemma contents_inj t : forall lo hi t', within lo hi t -> within lo hi t' -> contents t = contents t' -> t = t'.
Proof.
  induction t as [e|c l IHl r IHr]; intros lo hi [e'|c' l' r'] Hw Hw' E.
  - cbn in E. apply (f_equal (fun m => m !! get_key e)) in E. rewrite lookup_singleton_eq in E.
    symmetry in E. apply lookup_singleton_Some in E as [_ ->]. done.
  - symmetry in E. by apply (contents_leaf_node lo hi) in E.
  - by apply (contents_leaf_node lo hi) in E.
  - assert (c = c') as <-.
    { apply Z.le_antisymm; eapply same_centre; try done; intros x; by rewrite E. }
    pose proof Hw as (Hc & Hn & H1 & H2 & Hl & Hr). pose proof Hw' as (_ & _ & _ & _ & Hl' & Hr').
    assert (forall x, contents (Node c l r) !! x = contents (Node c l' r') !! x) as Ex by (by rewrite E).
    f_equal; [apply (IHl _ _ _ Hl Hl')|apply (IHr _ _ _ Hr Hr')]; apply map_eq; intros x; specialize (Ex x);
      rewrite !(contents_node lo hi) in Ex by done; destruct (Z.ltb_spec x c); try done.
    + by rewrite !(contents_outside (c - lb c) c) by (done || lia).
    + by rewrite !(contents_outside c (c + lb c)) by (done || lia).
Qed.

Lemma content_inj t t' : wf t -> wf t' -> content t = content t' -> t = t'.
Proof.
  destruct t as [t|], t' as [t'|]; cbn; intros Hw Hw' E; [f_equal; by apply (contents_inj t 0 (2 ^ 63))| | |done].
  - destruct (contents_inhabited _ _ t Hw) as (x & e & Hx & _). by rewrite E in Hx.
  - destruct (contents_inhabited _ _ t' Hw') as (x & e & Hx & _). by rewrite <- E in Hx.
Qed.

(** ** Tests of the range of a node *)

Lemma key_in_node c x : word c -> c <> 0 ->
  (x <? centre_to_min c) = (x <? c - lb c) /\ (centre_to_max c <? x) = (c + lb c <=? x).
Proof.
  intros Hc Hn. rewrite centre_to_min_spec, centre_to_max_spec by done. split; [done|].
  destruct (Z.ltb_spec (c + lb c - 1) x), (Z.leb_spec (c + lb c) x); lia || done.
Qed.
End inv.

Section ops.
Context (get_key : ex -> Z).
Notation within := (within get_key).
Notation contents := (contents get_key).

(** ** Intervals of subtrees *)

Definition interval (lo hi : Z) : Prop :=
  0 <= lo /\ hi <= 2 ^ 63 /\ forall j, word j -> j <> 0 -> lo < j < hi -> lo <= j - lb j /\ j + lb j <= hi.

Lemma interval_root : interval 0 (2 ^ 63).
Proof.
  split_and!; [lia|lia|]. intros j Hj Hn Hb. pose proof (lb_bounds j Hj). assert (lb (2 ^ 63) = 2 ^ 63) as E by reflexivity.
  pose proof (inside_left (2 ^ 63) j ltac:(unfold word; lia) Hj Hn ltac:(lia)). lia.
Qed.

Lemma interval_left lo hi c : interval lo hi -> word c -> c <> 0 -> lo <= c - lb c -> c + lb c <= hi ->
  interval (c - lb c) c.
Proof.
  intros (H0 & H1 & _) Hc Hn Hlo Hhi. pose proof (lb_bounds c Hc). split_and!; [lia..|].
  intros j Hj Hjn Hb. apply inside_left; done || lia.
Qed.

Lemma interval_right lo hi c : interval lo hi -> word c -> c <> 0 -> lo <= c - lb c -> c + lb c <= hi ->
  interval c (c + lb c).
Proof.
  intros (H0 & H1 & _) Hc Hn Hlo Hhi. pose proof (lb_bounds c Hc). split_and!; [lia..|].
  intros j Hj Hjn Hb. apply inside_right; done || lia.
Qed.

(** A new node in an interval. *)
Lemma within_node lo hi j l r : interval lo hi -> word j -> j <> 0 -> lo < j < hi ->
  within (j - lb j) j l -> within j (j + lb j) r -> within lo hi (node_new j l r).
Proof. intros (_ & _ & Hi) Hj Hn Hb Hl Hr. cbn. destruct (Hi j Hj Hn Hb). done. Qed.

Lemma pair_leaves lo hi e0 e1 : interval lo hi -> lo <= get_key e0 -> get_key e1 < hi -> get_key e0 < get_key e1 ->
  within lo hi (node_new (pair_centre (get_key e0) (get_key e1)) (Leaf e0) (Leaf e1)).
Proof.
  intros Hi H0 H1 Hlt. pose proof Hi as (Hlo & Hhi & _).
  destruct (pair_centre_keys (get_key e0) (get_key e1)) as (Hw & Hn & P1 & P2 & P3); [unfold is_key; lia..|done|].
  apply within_node; cbn; done || lia.
Qed.

Lemma pair_leaf_node lo hi e c l r : interval lo hi -> lo <= get_key e -> within lo hi (Node c l r) ->
  get_key e < c - lb c -> within lo hi (node_new (pair_centre (get_key e) c) (Leaf e) (Node c l r)).
Proof.
  intros Hi H0 (Hc & Hn & H1 & H2 & Hl & Hr) Hlt. pose proof Hi as (Hlo & Hhi & _). pose proof (lb_bounds c Hc).
  destruct (pair_centre_low (get_key e) c) as (Hw & Hj & P1 & P2 & P3); [unfold is_key; lia|done|done|lia|lia|].
  apply within_node; cbn; try done || lia. split_and!; done || lia.
Qed.

Lemma pair_node_leaf lo hi e c l r : interval lo hi -> get_key e < hi -> within lo hi (Node c l r) ->
  c + lb c <= get_key e -> within lo hi (node_new (pair_centre c (get_key e)) (Node c l r) (Leaf e)).
Proof.
  intros Hi H0 (Hc & Hn & H1 & H2 & Hl & Hr) Hlt. pose proof Hi as (Hlo & Hhi & _). pose proof (lb_bounds c Hc).
  destruct (pair_centre_high c (get_key e)) as (Hw & Hj & P1 & P2 & P3); [unfold is_key; lia|done|done|lia|].
  apply within_node; cbn; try done || lia. split_and!; done || lia.
Qed.

(** ** Search *)

Lemma atree_find_spec lo hi t x : within lo hi t -> atree_find get_key t x = contents t !! x.
Proof.
  revert lo hi. induction t as [e|c l IHl r IHr]; intros lo hi Hw; cbn [atree_find].
  - cbn. destruct (Z.eqb_spec (get_key e) x) as [<-|Hne]; [by rewrite lookup_singleton_eq|].
    by rewrite lookup_singleton_ne.
  - pose proof Hw as (Hc & Hn & H1 & H2 & Hl & Hr). rewrite (contents_node get_key lo hi) by done.
    destruct (key_in_node c x Hc Hn) as [-> ->]. destruct (Z.ltb_spec x c).
    + destruct (Z.ltb_spec x (c - lb c)); [|by apply (IHl (c - lb c) c)].
      symmetry. apply (contents_outside get_key (c - lb c) c); [done|lia].
    + destruct (Z.leb_spec (c + lb c) x); [|by apply (IHr c (c + lb c))].
      symmetry. apply (contents_outside get_key c (c + lb c)); [done|lia].
Qed.

(** ** Insertion *)

(** The tree with the element [r] for the key [k], or [NULL] if there is no such element. *)
Definition updated (lo hi : Z) (m : gmap Z ex) (k : Z) (r : option ex) (o : option atree) : Prop :=
  match r, o with
  | Some e, Some t => within lo hi t /\ contents t = <[k := e]> m
  | None, None => True
  | _, _ => False
  end.

Lemma updated_left lo hi c l r k x o : within lo hi (Node c l r) -> updated (c - lb c) c (contents l) k x o ->
  updated lo hi (contents (Node c l r)) k x (l ← o; Some (node_new c l r)).
Proof.
  intros (Hc & Hn & H1 & H2 & Hl & Hr). destruct x as [e|], o as [l'|]; cbn; try done. intros [Hw E].
  split; [done|]. by rewrite E, insert_union_l.
Qed.

Lemma updated_right lo hi c l r k x o : within lo hi (Node c l r) -> c <= k -> updated c (c + lb c) (contents r) k x o ->
  updated lo hi (contents (Node c l r)) k x (r ← o; Some (node_new c l r)).
Proof.
  intros (Hc & Hn & H1 & H2 & Hl & Hr) Hk. destruct x as [e|], o as [r'|]; cbn; try done. intros [Hw E].
  split; [done|]. rewrite E, insert_union_r; [done|]. apply (contents_outside get_key (c - lb c) c); [done|lia].
Qed.

Section merge.
Context (merge_values : ex -> ex -> option ex).
Context (Hmerge : forall e0 e1 e, get_key e0 = get_key e1 -> merge_values e0 e1 = Some e -> get_key e = get_key e0).

Definition merged (o : option ex) (value : ex) : option ex :=
  match o with Some e => merge_values e value | None => Some value end.

Lemma atree_insert_spec t : forall lo hi v, interval lo hi -> within lo hi t -> lo <= get_key v < hi ->
  updated lo hi (contents t) (get_key v) (merged (contents t !! get_key v) v) (atree_insert get_key merge_values t v).
Proof.
  induction t as [e|c l IHl r IHr]; intros lo hi v Hi Hw Hv; cbn [atree_insert]; cbn zeta.
  - cbn [within AtreeInv.within] in Hw. cbn [AtreeInv.contents]. destruct (Z.eqb_spec (get_key v) (get_key e)) as [E|Hne].
    { rewrite E, lookup_singleton_eq. cbn [merged]. destruct (merge_values e v) as [e'|] eqn:Em; [|done].
      cbn [fmap option_fmap option_map updated AtreeInv.within AtreeInv.contents].
      rewrite (Hmerge e v e') by done. split; [lia|]. by rewrite insert_singleton_eq. }
    rewrite lookup_singleton_ne by done. cbn [merged]. destruct (Z.ltb_spec (get_key v) (get_key e)).
    + cbn [updated]. split; [apply pair_leaves; done || lia|]. cbn. by rewrite insert_union_singleton_l.
    + cbn [updated]. split; [apply pair_leaves; done || lia|]. cbn.
      rewrite insert_union_singleton_r; [done|]. by rewrite lookup_singleton_ne.
  - pose proof Hw as (Hc & Hn & H1 & H2 & Hl & Hr). destruct (key_in_node c (get_key v) Hc Hn) as [-> ->].
    rewrite (contents_node get_key lo hi) by done. destruct (Z.ltb_spec (get_key v) c) as [Hlt|Hge].
    + destruct (Z.ltb_spec (get_key v) (c - lb c)) as [Hout|Hin].
      * rewrite (contents_outside get_key (c - lb c) c) by (done || lia). cbn [merged updated].
        split; [apply pair_leaf_node; done || lia|]. cbn. by rewrite insert_union_singleton_l.
      * apply updated_left; [done|]. apply IHl; [by apply (interval_left lo hi)|done|lia].
    + destruct (Z.leb_spec (c + lb c) (get_key v)) as [Hout|Hin].
      * rewrite (contents_outside get_key c (c + lb c)) by (done || lia). cbn [merged updated].
        split; [apply pair_node_leaf; done || lia|]. cbn. rewrite insert_union_singleton_r; [done|].
        apply (contents_outside get_key (c - lb c) (c + lb c) (Node c l r)); [|lia]. cbn. split_and!; done || lia.
      * apply updated_right; [done|lia|]. apply IHr; [by apply (interval_right lo hi)|done|lia].
Qed.
End merge.

Lemma atree_insert_rev_eq f t v : atree_insert_rev get_key f t v = atree_insert get_key (fun x y => f y x) t v.
Proof. induction t as [e|c l IHl r IHr]; [done|]. cbn. by rewrite IHl, IHr. Qed.

(** ** Removal *)

Lemma delete_union_left lo hi c l r k : within lo hi (Node c l r) -> k < c ->
  delete k (contents (Node c l r)) = delete k (contents l) ∪ contents r.
Proof.
  intros (Hc & Hn & H1 & H2 & Hl & Hr) Hk. cbn. rewrite delete_union, (delete_id (contents r)); [done|].
  apply (contents_outside get_key c (c + lb c)); [done|lia].
Qed.

Lemma delete_union_right lo hi c l r k : within lo hi (Node c l r) -> c <= k ->
  delete k (contents (Node c l r)) = contents l ∪ delete k (contents r).
Proof.
  intros (Hc & Hn & H1 & H2 & Hl & Hr) Hk. cbn. rewrite delete_union, (delete_id (contents l)); [done|].
  apply (contents_outside get_key (c - lb c) c); [done|lia].
Qed.

Definition content_in (lo hi : Z) (m : gmap Z ex) (t : option atree) : Prop :=
  match t with None => m = ∅ | Some t => within lo hi t /\ contents t = m end.

Lemma atree_erase_spec t : forall lo hi k elt, within lo hi t ->
  content_in lo hi (delete k (contents t)) (fst (atree_erase get_key t k elt)) /\
  snd (atree_erase get_key t k elt) = match contents t !! k with Some e => Some e | None => elt end.
Proof.
  induction t as [e|c l IHl r IHr]; intros lo hi k elt Hw; cbn [atree_erase].
  - cbn [AtreeInv.contents]. destruct (Z.eqb_spec k (get_key e)) as [->|Hne]; cbn.
    + rewrite lookup_singleton_eq. split; [|done]. by rewrite delete_singleton_eq.
    + rewrite lookup_singleton_ne by done. split; [|done]. split; [done|]. by rewrite delete_singleton_ne.
  - pose proof Hw as (Hc & Hn & H1 & H2 & Hl & Hr). destruct (key_in_node c k Hc Hn) as [-> ->].
    rewrite (contents_node get_key lo hi) by done. pose proof (lb_bounds c Hc) as [Hlb _].
    assert (contents l !! k = None -> contents r !! k = None ->
      content_in lo hi (delete k (contents (Node c l r))) (Some (Node c l r))) as Hsame.
    { intros E1 E2. split; [done|]. rewrite delete_id; [done|]. rewrite (contents_node get_key lo hi) by done.
      by destruct (k <? c). }
    destruct (Z.ltb_spec k c) as [Hlt|Hge].
    + assert (contents r !! k = None) as Er by (apply (contents_outside get_key c (c + lb c)); [done|lia]).
      destruct (Z.ltb_spec k (c - lb c)) as [Hout|Hin].
      { assert (contents l !! k = None) as E0 by (apply (contents_outside get_key (c - lb c) c); [done|lia]). rewrite E0. split; [by apply Hsame|done]. }
      destruct (IHl (c - lb c) c k elt Hl) as [E1 E2]. destruct (atree_erase get_key l k elt) as [[l'|] elt'];
        cbn [fst snd] in *; (split; [|done]); rewrite (delete_union_left lo hi) by (done || lia).
      * destruct E1 as [Hw' <-]. done.
      * cbn in E1. rewrite E1, (left_id_L ∅ (∪)). split; [|done]. apply (within_mono get_key c (c + lb c)); [done|lia..].
    + assert (contents l !! k = None) as El by (apply (contents_outside get_key (c - lb c) c); [done|lia]).
      destruct (Z.leb_spec (c + lb c) k) as [Hout|Hin].
      { assert (contents r !! k = None) as E0 by (apply (contents_outside get_key c (c + lb c)); [done|lia]). rewrite E0. split; [by apply Hsame|done]. }
      destruct (IHr c (c + lb c) k elt Hr) as [E1 E2]. destruct (atree_erase get_key r k elt) as [[r'|] elt'];
        cbn [fst snd] in *; (split; [|done]); rewrite (delete_union_right lo hi) by (done || lia).
      * destruct E1 as [Hw' <-]. done.
      * cbn in E1. rewrite E1, (right_id_L ∅ (∪)). split; [|done]. apply (within_mono get_key (c - lb c) c); [done|lia..].
Qed.
End ops.
