(* ===== verification/AtreeAlg.v ===== *)
(** * Associative trees: union, intersection, inclusion and order

    Two trees are combined by comparing the intervals of their centres, which are nested or disjoint. *)

From S2P Require Export AtreeInv.

Section algebra.
Context (get_key : ex -> Z).
Notation within := (within get_key).
Notation contents := (contents get_key).

(** A node counts for any interval around its own. *)
Lemma within_tight lo hi lo' hi' c l r : within lo hi (Node c l r) -> lo' <= c - lb c -> c + lb c <= hi' ->
  within lo' hi' (Node c l r).
Proof. intros (Hc & Hn & H1 & H2 & Hl & Hr) Hlo Hhi. cbn. split_and!; done || lia. Qed.

Lemma node_centre lo hi c l r : within lo hi (Node c l r) -> word c /\ c <> 0 /\ lo <= c - lb c /\ c + lb c <= hi /\ 0 < lb c.
Proof. intros (Hc & Hn & H1 & H2 & _). pose proof (lb_bounds c Hc). split_and!; done || lia. Qed.

Lemma node_outside lo hi c l r x : within lo hi (Node c l r) -> x < c - lb c \/ c + lb c <= x ->
  contents (Node c l r) !! x = None.
Proof. intros Hw. apply contents_outside. by apply (within_tight lo hi); [|lia..]. Qed.

(** How the intervals of two nodes lie, in terms of the tests of the source. *)
Inductive placed (c0 c1 : Z) : bool -> bool -> Prop :=
| placed_apart : c0 + lb c0 <= c1 - lb c1 -> placed c0 c1 true true
| placed_left : c1 - lb c1 <= c0 - lb c0 -> c0 + lb c0 <= c1 -> placed c0 c1 true false
| placed_right b : c0 <= c1 - lb c1 -> c1 + lb c1 <= c0 + lb c0 -> placed c0 c1 false b.

Lemma place c0 c1 : word c0 -> word c1 -> c0 <> 0 -> c0 < c1 ->
  placed c0 c1 (centre_to_max c0 <? c1) (centre_to_max c0 <? centre_to_min c1).
Proof.
  intros H0 H1 Hn Hlt. assert (c1 <> 0) by (unfold word in *; lia).
  rewrite centre_to_max_spec, centre_to_min_spec by done. pose proof (lb_bounds c1 H1).
  destruct (centres_laminar c0 c1 H0 H1 Hn Hlt) as [Hd|[(Hd & Hd' & Hd'')|(Hd & Hd' & Hd'')]].
  - rewrite !(proj2 (Z.ltb_lt _ _)) by lia. by constructor.
  - rewrite (proj2 (Z.ltb_lt _ _)), (proj2 (Z.ltb_ge _ _)) by lia. by constructor.
  - rewrite (proj2 (Z.ltb_ge _ c1)) by lia. by constructor.
Qed.

(** A map cut at a centre. *)
Record split_at (c : Z) (m ml mr : gmap Z ex) : Prop := {
  split_lookup x : m !! x = if x <? c then ml !! x else mr !! x;
  split_low x : c <= x -> ml !! x = None;
  split_high x : x < c -> mr !! x = None;
}.

Lemma split_node lo hi c l r : within lo hi (Node c l r) -> split_at c (contents (Node c l r)) (contents l) (contents r).
Proof.
  intros Hw. pose proof Hw as (Hc & Hn & H1 & H2 & Hl & Hr). split; intros x.
  - by apply (contents_node get_key lo hi).
  - intros Hx. apply (contents_outside get_key (c - lb c) c); [done|lia].
  - intros Hx. apply (contents_outside get_key c (c + lb c)); [done|lia].
Qed.

Lemma split_below c lo t : within lo c t -> split_at c (contents t) (contents t) ∅.
Proof.
  intros Hw. assert (forall x, c <= x -> contents t !! x = None) as Ho by (intros x Hx; apply (contents_outside get_key lo c); [done|lia]).
  split; [|done|done]. intros x. destruct (Z.ltb_spec x c); [done|]. by apply Ho.
Qed.

Lemma split_above c hi t : within c hi t -> split_at c (contents t) ∅ (contents t).
Proof.
  intros Hw. assert (forall x, x < c -> contents t !! x = None) as Ho by (intros x Hx; apply (contents_outside get_key c hi); [done|lia]).
  split; [|done|done]. intros x. destruct (Z.ltb_spec x c); [|done]. by apply Ho.
Qed.

(** ** Union *)

Section union.
Context (merge_values : ex -> ex -> option ex).
Context (Hmerge : forall e0 e1 e, get_key e0 = get_key e1 -> merge_values e0 e1 = Some e -> get_key e = get_key e0).

Lemma atree_union_leaf e0 t1 : atree_union get_key merge_values (Leaf e0) t1 = atree_insert_rev get_key merge_values t1 e0.
Proof. by destruct t1. Qed.

Lemma atree_union_nodes c0 l0 r0 c1 l1 r1 :
  let t0 := Node c0 l0 r0 in let t1 := Node c1 l1 r1 in let union := atree_union get_key merge_values in
  union t0 t1 =
    if c0 =? c1 then l ← union l0 l1; r ← union r0 r1; Some (node_new c0 l r)
    else if c0 <? c1 then
      if centre_to_max c0 <? c1 then
        if centre_to_max c0 <? centre_to_min c1 then Some (node_new (pair_centre c0 c1) t0 t1)
        else l ← union t0 l1; Some (node_new c1 l r1)
      else r ← union r0 t1; Some (node_new c0 l0 r)
    else
      if centre_to_max c1 <? c0 then
        if centre_to_max c1 <? centre_to_min c0 then Some (node_new (pair_centre c1 c0) t1 t0)
        else l ← union l0 t1; Some (node_new c0 l r0)
      else r ← union t0 r1; Some (node_new c1 l1 r).
Proof. reflexivity. Qed.

(** The union of the contents, or two elements that are not merged. *)
Definition unites (m0 m1 : gmap Z ex) (lo hi : Z) (o : option atree) : Prop :=
  match o with
  | None => exists x e0 e1, m0 !! x = Some e0 /\ m1 !! x = Some e1 /\ merge_values e0 e1 = None
  | Some t => within lo hi t /\ forall x,
      contents t !! x = union_with merge_values (m0 !! x) (m1 !! x) /\
      (is_Some (m0 !! x) -> is_Some (contents t !! x))
  end.

Lemma unites_node lo hi c m0 m1 m0l m0r m1l m1r ol or : word c -> c <> 0 -> lo <= c - lb c -> c + lb c <= hi ->
  split_at c m0 m0l m0r -> split_at c m1 m1l m1r -> unites m0l m1l (c - lb c) c ol -> unites m0r m1r c (c + lb c) or ->
  unites m0 m1 lo hi (l ← ol; r ← or; Some (node_new c l r)).
Proof.
  intros Hc Hn H1 H2 [S0 S0l S0r] [S1 S1l S1r] Hl Hr.
  destruct ol as [l|]; [destruct or as [r|]|]; cbn [mbind option_bind unites] in *.
  - destruct Hl as [Hl El], Hr as [Hr Er]. assert (within lo hi (Node c l r)) as Hw by done. split; [done|]. intros x.
    rewrite (contents_node get_key lo hi), S0, S1 by done. destruct (x <? c); [apply El|apply Er].
  - destruct Hr as (x & e0 & e1 & E0 & E1 & Em). exists x, e0, e1. rewrite S0, S1.
    destruct (Z.ltb_spec x c); [|done]. by rewrite S0r in E0.
  - destruct Hl as (x & e0 & e1 & E0 & E1 & Em). exists x, e0, e1. rewrite S0, S1.
    destruct (Z.ltb_spec x c); [done|]. by rewrite S0l in E0.
Qed.

Lemma unites_left m lo hi t : within lo hi t -> contents t = m -> unites m ∅ lo hi (Some t).
Proof. intros Hw E. split; [done|]. intros x. rewrite E, lookup_empty. split; [by destruct (m !! x)|done]. Qed.

Lemma unites_right m lo hi t : within lo hi t -> contents t = m -> unites ∅ m lo hi (Some t).
Proof. intros Hw E. split; [done|]. intros x. rewrite E, lookup_empty. split; [by destruct (m !! x)|by intros []]. Qed.

Lemma unites_insert lo hi t v : interval lo hi -> within lo hi t -> lo <= get_key v < hi ->
  unites (contents t) {[get_key v := v]} lo hi (atree_insert get_key merge_values t v).
Proof.
  intros Hi Hw Hv. pose proof (atree_insert_spec get_key merge_values Hmerge t lo hi v Hi Hw Hv) as Hu.
  destruct (atree_insert get_key merge_values t v) as [t'|], (contents t !! get_key v) as [e|] eqn:E; cbn [merged updated] in Hu.
  - destruct (merge_values e v) as [e'|] eqn:Em; [|done]. destruct Hu as [Hw' E']. split; [done|]. intros x. rewrite E'.
    destruct (Z.eq_dec x (get_key v)) as [->|Hne].
    + rewrite E, lookup_insert_eq, lookup_singleton_eq. cbn. by rewrite Em.
    + rewrite lookup_insert_ne, lookup_singleton_ne by done. split; [by destruct (contents t !! x)|done].
  - destruct Hu as [Hw' E']. split; [done|]. intros x. rewrite E'. destruct (Z.eq_dec x (get_key v)) as [->|Hne].
    + rewrite E, lookup_insert_eq, lookup_singleton_eq. done.
    + rewrite lookup_insert_ne, lookup_singleton_ne by done. split; [by destruct (contents t !! x)|done].
  - destruct (merge_values e v) as [e'|] eqn:Em; [done|]. exists (get_key v), e, v. by rewrite lookup_singleton_eq.
  - done.
Qed.
End union.

Lemma unites_sym f g m0 m1 lo hi o : (forall x y, g x y = f y x) -> unites f m0 m1 lo hi o -> unites g m1 m0 lo hi o.
Proof.
  intros Hfg. destruct o as [t|]; cbn.
  - intros [Hw Hx]. split; [done|]. intros x. destruct (Hx x) as [Ex Hs]. rewrite Ex in Hs |- *.
    destruct (m0 !! x), (m1 !! x); cbn in *; rewrite ?Hfg; split; try done; eauto.
  - intros (x & e0 & e1 & E0 & E1 & Em). exists x, e1, e0. by rewrite Hfg.
Qed.

Lemma atree_union_spec f (Hf : forall e0 e1 e, get_key e0 = get_key e1 -> f e0 e1 = Some e -> get_key e = get_key e0) t0 :
  forall t1 lo hi, interval lo hi -> within lo hi t0 -> within lo hi t1 ->
  unites f (contents t0) (contents t1) lo hi (atree_union get_key f t0 t1).
Proof.
  induction t0 as [e0|c0 l0 IHl0 r0 IHr0]; intros t1 lo hi Hi Hw0 Hw1.
  { rewrite atree_union_leaf, atree_insert_rev_eq. apply (unites_sym (fun x y => f y x)); [done|].
    apply unites_insert; [|done..]. intros e1 e2 e Hk He. rewrite (Hf _ _ _ (eq_sym Hk) He). done. }
  induction t1 as [e1|c1 l1 IHl1 r1 IHr1] in lo, hi, Hi, Hw0, Hw1 |- *; [by apply unites_insert|].
  rewrite atree_union_nodes. cbn zeta.
  destruct (node_centre lo hi _ _ _ Hw0) as (Hc0 & Hn0 & A0 & B0 & L0).
  destruct (node_centre lo hi _ _ _ Hw1) as (Hc1 & Hn1 & A1 & B1 & L1).
  pose proof Hw0 as (_ & _ & _ & _ & Hl0 & Hr0). pose proof Hw1 as (_ & _ & _ & _ & Hl1 & Hr1).
  destruct (Z.eqb_spec c0 c1) as [<-|Hne]; [|destruct (Z.ltb_spec c0 c1) as [Hlt|Hge]].
  - eapply (unites_node f lo hi c0); [done..|by apply (split_node lo hi)|by apply (split_node lo hi)| |].
    + apply IHl0; [by apply (interval_left lo hi)|done..].
    + apply IHr0; [by apply (interval_right lo hi)|done..].
  - destruct (place c0 c1 Hc0 Hc1 Hn0 Hlt) as [Hd|Hd1 Hd2|b Hd1 Hd2].
    + destruct (pair_centre_trees c0 c1) as (Hj & Hjn & P1 & P2 & P3); [done..|destruct Hi as (_ & ? & _); lia|done|].
      set (j := pair_centre c0 c1) in *. pose proof Hi as (_ & _ & Hin). destruct (Hin j) as [Q1 Q2]; [done..|lia|].
      assert (within (j - lb j) j (Node c0 l0 r0)) as W0 by (apply (within_tight lo hi); [done|lia..]).
      assert (within j (j + lb j) (Node c1 l1 r1)) as W1 by (apply (within_tight lo hi); [done|lia..]).
      apply (unites_node f lo hi j) with (ol := Some _) (or := Some _) (1 := Hj) (2 := Hjn) (5 := split_below _ _ _ W0) (6 := split_above _ _ _ W1);
        [lia|lia|by apply unites_left|by apply unites_right].
    + assert (within (c1 - lb c1) c1 (Node c0 l0 r0)) as W0 by (apply (within_tight lo hi); [done|lia..]).
      apply (unites_node f lo hi c1) with (or := Some _) (1 := Hc1) (2 := Hn1) (5 := split_below _ _ _ W0) (6 := split_node _ _ _ _ _ Hw1);
        [lia|lia| |by apply unites_right].
      apply IHl1; [by apply (interval_left lo hi)|done..].
    + assert (within c0 (c0 + lb c0) (Node c1 l1 r1)) as W1 by (apply (within_tight lo hi); [done|lia..]).
      apply (unites_node f lo hi c0) with (ol := Some _) (1 := Hc0) (2 := Hn0) (5 := split_node _ _ _ _ _ Hw0) (6 := split_above _ _ _ W1);
        [lia|lia|by apply unites_left|].
      apply IHr0; [by apply (interval_right lo hi)|done..].
  - destruct (place c1 c0 Hc1 Hc0 Hn1 ltac:(lia)) as [Hd|Hd1 Hd2|b Hd1 Hd2].
    + destruct (pair_centre_trees c1 c0) as (Hj & Hjn & P1 & P2 & P3); [done..|destruct Hi as (_ & ? & _); lia|done|].
      set (j := pair_centre c1 c0) in *. pose proof Hi as (_ & _ & Hin). destruct (Hin j) as [Q1 Q2]; [done..|lia|].
      assert (within (j - lb j) j (Node c1 l1 r1)) as W1 by (apply (within_tight lo hi); [done|lia..]).
      assert (within j (j + lb j) (Node c0 l0 r0)) as W0 by (apply (within_tight lo hi); [done|lia..]).
      apply (unites_node f lo hi j) with (ol := Some _) (or := Some _) (1 := Hj) (2 := Hjn) (5 := split_above _ _ _ W0) (6 := split_below _ _ _ W1);
        [lia|lia|by apply unites_right|by apply unites_left].
    + assert (within (c0 - lb c0) c0 (Node c1 l1 r1)) as W1 by (apply (within_tight lo hi); [done|lia..]).
      apply (unites_node f lo hi c0) with (or := Some _) (1 := Hc0) (2 := Hn0) (5 := split_node _ _ _ _ _ Hw0) (6 := split_below _ _ _ W1);
        [lia|lia| |by apply unites_left].
      apply IHl0; [by apply (interval_left lo hi)|done..].
    + assert (within c1 (c1 + lb c1) (Node c0 l0 r0)) as W0 by (apply (within_tight lo hi); [done|lia..]).
      apply (unites_node f lo hi c1) with (ol := Some _) (1 := Hc1) (2 := Hn1) (5 := split_above _ _ _ W0) (6 := split_node _ _ _ _ _ Hw1);
        [lia|lia|by apply unites_right|].
      apply IHr1; [by apply (interval_right lo hi)|done..].
Qed.

(** ** Intersection *)

Section isecn.
Context (f : ex -> ex -> option ex).
Context (Hf : forall e0 e1 e, get_key e0 = get_key e1 -> f e0 e1 = Some e -> get_key e = get_key e0).
Notation meet := (@intersection_with ex (gmap Z ex) _ f).

Lemma atree_isecn_nodes c0 l0 r0 c1 l1 r1 :
  let t0 := Node c0 l0 r0 in let t1 := Node c1 l1 r1 in let isecn := atree_isecn get_key f in
  isecn t0 t1 =
    if c0 =? c1 then
      match isecn l0 l1, isecn r0 r1 with
      | None, r => r
      | Some l, None => Some l
      | Some l, Some r => Some (node_new c0 l r)
      end
    else if c0 <? c1 then
      if centre_to_max c0 <? c1 then if centre_to_max c0 <? centre_to_min c1 then None else isecn t0 l1
      else isecn r0 t1
    else
      if centre_to_max c1 <? c0 then if centre_to_max c1 <? centre_to_min c0 then None else isecn l0 t1
      else isecn t0 r1.
Proof. cbn -[centre_to_max centre_to_min]. destruct (c0 =? c1); [|done]. by destruct (atree_isecn get_key f l0 l1), (atree_isecn get_key f r0 r1). Qed.

Lemma content_in_mono lo hi lo' hi' m o : content_in get_key lo hi m o -> lo' <= lo -> hi <= hi' -> content_in get_key lo' hi' m o.
Proof. destruct o as [t|]; [|done]. intros [Hw E] ??. split; [|done]. by apply (within_mono get_key lo hi). Qed.

Lemma meet_split c m0 m1 m0l m0r m1l m1r : split_at c m0 m0l m0r -> split_at c m1 m1l m1r ->
  split_at c (meet m0 m1) (meet m0l m1l) (meet m0r m1r).
Proof.
  intros [S0 S0l S0r] [S1 S1l S1r]. split; intros x; rewrite !lookup_intersection_with.
  - rewrite S0, S1. by destruct (x <? c).
  - intros Hx. by rewrite S0l.
  - intros Hx. by rewrite S0r.
Qed.

Lemma meet_empty_l m : meet ∅ m = ∅.
Proof. apply map_eq. intros x. by rewrite lookup_intersection_with, lookup_empty. Qed.
Lemma meet_empty_r m : meet m ∅ = ∅.
Proof. apply map_eq. intros x. rewrite lookup_intersection_with, lookup_empty. by destruct (m !! x). Qed.

Lemma split_only_left c m l : split_at c m l ∅ -> m = l.
Proof.
  intros [S Sl Sr]. apply map_eq. intros x. rewrite S. destruct (Z.ltb_spec x c); [done|]. by rewrite Sl by done.
Qed.
Lemma split_only_right c m r : split_at c m ∅ r -> m = r.
Proof.
  intros [S Sl Sr]. apply map_eq. intros x. rewrite S. destruct (Z.ltb_spec x c); [|done]. by rewrite Sr by done.
Qed.

Lemma content_in_node lo hi c m ml mr ol or : word c -> c <> 0 -> lo <= c - lb c -> c + lb c <= hi -> 0 < lb c ->
  split_at c m ml mr -> content_in get_key (c - lb c) c ml ol -> content_in get_key c (c + lb c) mr or ->
  content_in get_key lo hi m match ol, or with
    | None, r => r | Some l, None => Some l | Some l, Some r => Some (node_new c l r) end.
Proof.
  intros Hc Hn H1 H2 Hlb Hs Hl Hr. destruct ol as [l|].
  - destruct Hl as [Hl El]. destruct or as [r|].
    + destruct Hr as [Hr Er]. assert (within lo hi (Node c l r)) as Hw by done. split; [done|].
      apply map_eq. intros x. rewrite (contents_node get_key lo hi), (split_lookup _ _ _ _ Hs), El, Er by done. done.
    + cbn in Hr. subst mr. rewrite (split_only_left _ _ _ Hs). apply (content_in_mono (c - lb c) c); [done|lia..].
  - cbn in Hl. subst ml. rewrite (split_only_right _ _ _ Hs). apply (content_in_mono c (c + lb c)); [done|lia..].
Qed.

Lemma meet_singleton_l m e : meet {[get_key e := e]} m =
  match m !! get_key e with Some e1 => match f e e1 with Some x => {[get_key e := x]} | None => ∅ end | None => ∅ end.
Proof.
  apply map_eq. intros x. rewrite lookup_intersection_with. destruct (Z.eq_dec x (get_key e)) as [->|Hne].
  - rewrite lookup_singleton_eq. destruct (m !! get_key e) as [e1|]; [|done]. cbn.
    destruct (f e e1); [by rewrite lookup_singleton_eq|done].
  - rewrite lookup_singleton_ne by done. destruct (m !! get_key e) as [e1|]; [|done].
    destruct (f e e1); [by rewrite lookup_singleton_ne|done].
Qed.

Lemma meet_singleton_r m e : meet m {[get_key e := e]} =
  match m !! get_key e with Some e0 => match f e0 e with Some x => {[get_key e := x]} | None => ∅ end | None => ∅ end.
Proof.
  apply map_eq. intros x. rewrite lookup_intersection_with. destruct (Z.eq_dec x (get_key e)) as [->|Hne].
  - rewrite lookup_singleton_eq. destruct (m !! get_key e) as [e1|]; [|done]. cbn.
    destruct (f e1 e); [by rewrite lookup_singleton_eq|done].
  - rewrite lookup_singleton_ne by done. destruct (m !! get_key e) as [e1|]; [|by destruct (m !! x)].
    destruct (f e1 e); [rewrite lookup_singleton_ne by done|]; by destruct (m !! x).
Qed.

Lemma atree_isecn_spec t0 : forall t1 lo hi, within lo hi t0 -> within lo hi t1 ->
  content_in get_key lo hi (meet (contents t0) (contents t1)) (atree_isecn get_key f t0 t1).
Proof.
  induction t0 as [e0|c0 l0 IHl0 r0 IHr0]; intros t1 lo hi Hw0 Hw1.
  { assert (atree_isecn get_key f (Leaf e0) t1 = match atree_find get_key t1 (get_key e0) with
      | Some leaf1 => Leaf <$> f e0 leaf1 | None => None end) as -> by (by destruct t1).
    rewrite (atree_find_spec get_key lo hi) by done. cbn [AtreeInv.contents]. rewrite meet_singleton_l.
    destruct (contents t1 !! get_key e0) as [e1|] eqn:E; [|done]. destruct (f e0 e1) as [x|] eqn:Ex; [|done].
    apply (contents_bounds get_key lo hi) in E as [_ E]; [|done]. cbn. rewrite (Hf e0 e1) by done. done. }
  induction t1 as [e1|c1 l1 IHl1 r1 IHr1] in lo, hi, Hw0, Hw1 |- *.
  { assert (atree_isecn get_key f (Node c0 l0 r0) (Leaf e1) = match atree_find get_key (Node c0 l0 r0) (get_key e1) with
      | Some leaf0 => Leaf <$> f leaf0 e1 | None => None end) as -> by done.
    rewrite (atree_find_spec get_key lo hi) by done. change (contents (Leaf e1)) with ({[get_key e1 := e1]} : gmap Z ex).
    rewrite meet_singleton_r. destruct (contents (Node c0 l0 r0) !! get_key e1) as [e0|] eqn:E; [|done].
    destruct (f e0 e1) as [x|] eqn:Ex; [|done]. apply (contents_bounds get_key lo hi) in E as [_ E]; [|done].
    cbn. rewrite (Hf e0 e1), E by done. done. }
  rewrite atree_isecn_nodes. cbn zeta.
  destruct (node_centre lo hi _ _ _ Hw0) as (Hc0 & Hn0 & A0 & B0 & L0).
  destruct (node_centre lo hi _ _ _ Hw1) as (Hc1 & Hn1 & A1 & B1 & L1).
  pose proof Hw0 as (_ & _ & _ & _ & Hl0 & Hr0). pose proof Hw1 as (_ & _ & _ & _ & Hl1 & Hr1).
  pose proof (split_node _ _ _ _ _ Hw0) as S0. pose proof (split_node _ _ _ _ _ Hw1) as S1.
  set (t0 := Node c0 l0 r0) in *. set (t1 := Node c1 l1 r1) in *.
  destruct (Z.eqb_spec c0 c1) as [<-|Hne]; [|destruct (Z.ltb_spec c0 c1) as [Hlt|Hge]].
  - apply (content_in_node lo hi c0 _ _ _ _ _ Hc0 Hn0 A0 B0 L0 (meet_split _ _ _ _ _ _ _ S0 S1)); [by apply IHl0|by apply IHr0].
  - destruct (place c0 c1 Hc0 Hc1 Hn0 Hlt) as [Hd|Hd1 Hd2|b Hd1 Hd2].
    + assert (within lo (c1 - lb c1) t0) as W0 by (apply (within_tight lo hi); [done|lia..]).
      assert (within (c1 - lb c1) hi t1) as W1 by (apply (within_tight lo hi); [done|lia..]).
      pose proof (meet_split _ _ _ _ _ _ _ (split_below _ _ _ W0) (split_above _ _ _ W1)) as Hs.
      rewrite meet_empty_r in Hs. rewrite (split_only_right _ _ _ Hs). apply meet_empty_l.
    + assert (within (c1 - lb c1) c1 t0) as W0 by (apply (within_tight lo hi); [done|lia..]).
      pose proof (meet_split _ _ _ _ _ _ _ (split_below _ _ _ W0) S1) as Hs. rewrite meet_empty_l in Hs.
      rewrite (split_only_left _ _ _ Hs). apply (content_in_mono (c1 - lb c1) c1); [by apply IHl1|lia..].
    + assert (within c0 (c0 + lb c0) t1) as W1 by (apply (within_tight lo hi); [done|lia..]).
      pose proof (meet_split _ _ _ _ _ _ _ S0 (split_above _ _ _ W1)) as Hs. rewrite meet_empty_r in Hs.
      rewrite (split_only_right _ _ _ Hs). apply (content_in_mono c0 (c0 + lb c0)); [by apply IHr0|lia..].
  - destruct (place c1 c0 Hc1 Hc0 Hn1 ltac:(lia)) as [Hd|Hd1 Hd2|b Hd1 Hd2].
    + assert (within lo (c0 - lb c0) t1) as W1 by (apply (within_tight lo hi); [done|lia..]).
      assert (within (c0 - lb c0) hi t0) as W0 by (apply (within_tight lo hi); [done|lia..]).
      pose proof (meet_split _ _ _ _ _ _ _ (split_above _ _ _ W0) (split_below _ _ _ W1)) as Hs.
      rewrite meet_empty_r in Hs. rewrite (split_only_left _ _ _ Hs). apply meet_empty_l.
    + assert (within (c0 - lb c0) c0 t1) as W1 by (apply (within_tight lo hi); [done|lia..]).
      pose proof (meet_split _ _ _ _ _ _ _ S0 (split_below _ _ _ W1)) as Hs. rewrite meet_empty_r in Hs.
      rewrite (split_only_left _ _ _ Hs). apply (content_in_mono (c0 - lb c0) c0); [by apply IHl0|lia..].
    + assert (within c1 (c1 + lb c1) t0) as W0 by (apply (within_tight lo hi); [done|lia..]).
      pose proof (meet_split _ _ _ _ _ _ _ (split_above _ _ _ W0) S1) as Hs. rewrite meet_empty_l in Hs.
      rewrite (split_only_right _ _ _ Hs). apply (content_in_mono c1 (c1 + lb c1)); [by apply IHr1|lia..].
Qed.
End isecn.

(** ** Inclusion *)

(** Trees whose keys are even, as aligned addresses are: for odd keys the test of the source is too strict. *)
Definition even_keys (m : gmap Z ex) : Prop := forall x, is_Some (m !! x) -> Z.even x = true.

Lemma even_split c m ml mr : split_at c m ml mr -> even_keys m -> even_keys ml /\ even_keys mr.
Proof.
  intros [S Sl Sr] He. split; intros x Hx; apply He; rewrite S; destruct (Z.ltb_spec x c); try done; exfalso.
  - rewrite Sl in Hx by done. by destruct Hx.
  - rewrite Sr in Hx by done. by destruct Hx.
Qed.

Lemma even_centre lo hi c l r : within lo hi (Node c l r) -> even_keys (contents (Node c l r)) -> 2 <= lb c.
Proof.
  intros Hw He. destruct (node_sides get_key lo hi c l r Hw) as [(x & a & Ex & Hx) (y & b & Ey & Hy)].
  pose proof (He x (mk_is_Some _ _ Ex)) as [u Hu]%Z.even_spec. pose proof (He y (mk_is_Some _ _ Ey)) as [v Hv]%Z.even_spec. lia.
Qed.

Section subseteq.
Context (value_subseteq : ex -> ex -> bool).

Definition subs (m0 m1 : gmap Z ex) : Prop :=
  forall x a, m0 !! x = Some a -> exists b, m1 !! x = Some b /\ value_subseteq a b = true.

Lemma subs_empty m : subs ∅ m.
Proof. intros x a. by rewrite lookup_empty. Qed.

Lemma subs_split c m0 m1 m0l m0r m1l m1r : split_at c m0 m0l m0r -> split_at c m1 m1l m1r ->
  subs m0 m1 <-> subs m0l m1l /\ subs m0r m1r.
Proof.
  intros [S0 S0l S0r] [S1 S1l S1r]. split.
  - intros H. split; intros x a Hx; specialize (H x a); rewrite S0, S1 in H; destruct (Z.ltb_spec x c); auto.
    + by rewrite S0l in Hx.
    + by rewrite S0r in Hx.
  - intros [Hl Hr] x a Hx. rewrite S0 in Hx. rewrite S1. destruct (x <? c); auto.
Qed.

Lemma not_subs m0 m1 x a : m0 !! x = Some a -> m1 !! x = None -> ~ subs m0 m1.
Proof. intros E0 E1 H. destruct (H x a E0) as (b & E & _). congruence. Qed.

Lemma not_subs_leaf lo hi c l r e : within lo hi (Node c l r) -> ~ subs (contents (Node c l r)) (contents (Leaf e)).
Proof.
  intros Hw H. destruct (node_sides get_key lo hi c l r Hw) as [(x & a & Ex & Hx) (y & b & Ey & Hy)].
  destruct (H x a Ex) as (? & E1 & _), (H y b Ey) as (? & E2 & _). cbn in E1, E2.
  apply lookup_singleton_Some in E1 as [? _], E2 as [? _]. lia.
Qed.

Lemma subs_leaf lo hi e t : within lo hi t ->
  match atree_find get_key t (get_key e) with Some leaf => value_subseteq e leaf | None => false end = true <->
  subs (contents (Leaf e)) (contents t).
Proof.
  intros Hw. rewrite (atree_find_spec get_key lo hi) by done. cbn. split.
  - intros E x a [<- <-]%lookup_singleton_Some. destruct (contents t !! get_key e) as [b|]; [by exists b|done].
  - intros H. destruct (H (get_key e) e) as (b & -> & Hb); [by rewrite lookup_singleton_eq|done].
Qed.

Context (Hrefl : forall x, value_subseteq x x = true).

Lemma subs_refl m : subs m m.
Proof. intros x a Hx. by exists a. Qed.

Lemma atree_subseteq_eq t0 t1 : atree_subseteq get_key value_subseteq t0 t1 =
  if decide (t0 = t1) then true
  else match t0, t1 with
  | Leaf e0, _ => match atree_find get_key t1 (get_key e0) with Some leaf1 => value_subseteq e0 leaf1 | None => false end
  | _, Leaf _ => false
  | Node c0 l0 r0, Node c1 l1 r1 =>
      let sub := atree_subseteq get_key value_subseteq in
      if c0 =? c1 then sub l0 l1 && sub r0 r1
      else if c0 <? c1 then (centre_to_min c1 <? c0) && sub t0 l1
      else (c0 <? centre_to_max c1) && sub t0 r1
  end.
Proof.
  destruct t0, t1; cbn -[centre_to_min centre_to_max]; try done. destruct (decide _); [done|].
  destruct (_ =? _); [by destruct (atree_subseteq _ _ _ _)|]. by destruct (_ <? _), (_ <? _).
Qed.

Lemma atree_subseteq_spec t0 : forall t1 lo hi, within lo hi t0 -> within lo hi t1 -> even_keys (contents t0) ->
  atree_subseteq get_key value_subseteq t0 t1 = true <-> subs (contents t0) (contents t1).
Proof.
  induction t0 as [e0|c0 l0 IHl0 r0 IHr0]; intros t1 lo hi Hw0 Hw1 He.
  { rewrite atree_subseteq_eq. destruct (decide (Leaf e0 = t1)) as [<-|Hne]; [|by apply (subs_leaf lo hi)].
    split; [|done]. intros _. apply subs_refl. }
  induction t1 as [e1|c1 l1 IHl1 r1 IHr1] in lo, hi, Hw0, Hw1 |- *; rewrite atree_subseteq_eq.
  { rewrite decide_False by done. split; [done|]. intros H. by apply (not_subs_leaf lo hi) in H. }
  destruct (decide (Node c0 l0 r0 = Node c1 l1 r1)) as [<-|_]; [split; [|done]; intros _; apply subs_refl|]. cbn zeta.
  destruct (node_centre lo hi _ _ _ Hw0) as (Hc0 & Hn0 & A0 & B0 & L0).
  destruct (node_centre lo hi _ _ _ Hw1) as (Hc1 & Hn1 & A1 & B1 & L1).
  pose proof Hw0 as (_ & _ & _ & _ & Hl0 & Hr0). pose proof Hw1 as (_ & _ & _ & _ & Hl1 & Hr1).
  pose proof (split_node _ _ _ _ _ Hw0) as S0. pose proof (split_node _ _ _ _ _ Hw1) as S1.
  pose proof (even_centre _ _ _ _ _ Hw0 He) as He2. destruct (even_split _ _ _ _ S0 He) as [Hel Her].
  destruct (node_sides get_key _ _ _ _ _ Hw0) as [(x & a & Ex & Bx) (y & b & Ey & By)].
  set (t0 := Node c0 l0 r0) in *. set (t1 := Node c1 l1 r1) in *.
  rewrite centre_to_min_spec, centre_to_max_spec by done.
  destruct (Z.eqb_spec c0 c1) as [<-|Hne]; [|destruct (Z.ltb_spec c0 c1) as [Hlt|Hge]].
  - rewrite andb_true_iff, (IHl0 l1 (c0 - lb c0) c0), (IHr0 r1 c0 (c0 + lb c0)) by done.
    by rewrite (subs_split _ _ _ _ _ _ _ S0 S1).
  - destruct (Z.ltb_spec (c1 - lb c1) c0) as [Hin|Hout]; cbn [andb].
    + destruct (inside_left c1 c0 Hc1 Hc0 Hn0 ltac:(lia)) as [D1 D2].
      assert (within (c1 - lb c1) c1 t0) as W0 by (apply (within_tight lo hi); [done|lia..]).
      rewrite (IHl1 (c1 - lb c1) c1), (subs_split _ _ _ _ _ _ _ (split_below _ _ _ W0) S1) by done.
      split; [intros H; split; [done|apply subs_empty]|by intros []].
    + split; [done|]. intros H. exfalso. revert H. apply (not_subs _ _ x a Ex). apply (node_outside lo hi); [done|lia].
  - destruct (Z.ltb_spec c0 (c1 + lb c1 - 1)) as [Hin|Hout]; cbn [andb].
    + destruct (inside_right c1 c0 Hc1 Hc0 ltac:(lia)) as [D1 D2].
      assert (within c1 (c1 + lb c1) t0) as W0 by (apply (within_tight lo hi); [done|lia..]).
      rewrite (IHr1 c1 (c1 + lb c1)), (subs_split _ _ _ _ _ _ _ (split_above _ _ _ W0) S1) by done.
      split; [intros H; split; [apply subs_empty|done]|by intros []].
    + split; [done|]. intros H. exfalso. revert H. apply (not_subs _ _ y b Ey). apply (node_outside lo hi); [done|].
      right. destruct (Z.eq_dec c0 (c1 + lb c1 - 1)) as [E|]; [|lia].
      pose proof (inside_right c1 c0 Hc1 Hc0 ltac:(lia)). lia.
Qed.

(** ** Order *)

(** The order of two things, of which [P] and [Q] say that the first is below the second, and conversely. *)
Definition ordered (P Q : Prop) (o : cu_order_t) : Prop :=
  match o with
  | cu_order_eq => P /\ Q
  | cu_order_lt => P /\ ~ Q
  | cu_order_gt => ~ P /\ Q
  | cu_order_none => ~ P /\ ~ Q
  end.

Lemma ordered_iff P Q P' Q' o : (P <-> P') -> (Q <-> Q') -> ordered P Q o -> ordered P' Q' o.
Proof. destruct o; cbn; tauto. Qed.

Lemma ordered_both P Q P' Q' o o' : ordered P Q o -> ordered P' Q' o' ->
  ordered (P /\ P') (Q /\ Q')
    (if decide (o = cu_order_none) then cu_order_none
     else if decide (o = o') then o
     else if decide (o = cu_order_eq) then o'
     else if decide (o' = cu_order_eq) then o else cu_order_none).
Proof. intros H H'. destruct o, o'; repeat case_decide; try done; cbn in *; tauto. Qed.

Context (value_order : ex -> ex -> cu_order_t).
Context (Horder : forall x y, ordered (value_subseteq x y = true) (value_subseteq y x = true) (value_order x y)).

Lemma subs_of_below c m0 m1 ml mr : split_at c m0 m0 ∅ -> split_at c m1 ml mr -> subs m0 ml <-> subs m0 m1.
Proof. intros S0 S1. rewrite (subs_split _ _ _ _ _ _ _ S0 S1). split; [|by intros []]. intros H. split; [done|apply subs_empty]. Qed.
Lemma subs_of_above c m0 m1 ml mr : split_at c m0 ∅ m0 -> split_at c m1 ml mr -> subs m0 mr <-> subs m0 m1.
Proof. intros S0 S1. rewrite (subs_split _ _ _ _ _ _ _ S0 S1). split; [|by intros []]. intros H. split; [apply subs_empty|done]. Qed.

(** The order of a tree and one that has a key outside it. *)
Lemma ordered_below P Q (b : bool) : (b = true <-> P) -> ~ Q -> ordered P Q (if b then cu_order_lt else cu_order_none).
Proof. destruct b; cbn; [|intros [_ H]; split; [intros HP; by specialize (H HP)|done]]. intros [H _]. auto. Qed.
Lemma ordered_above P Q (b : bool) : (b = true <-> Q) -> ~ P -> ordered P Q (if b then cu_order_gt else cu_order_none).
Proof. destruct b; cbn; [|intros [_ H]; split; [done|intros HP; by specialize (H HP)]]. intros [H _]. auto. Qed.

Lemma atree_order_nodes c0 l0 r0 c1 l1 r1 :
  let t0 := Node c0 l0 r0 in let t1 := Node c1 l1 r1 in
  let order := atree_order get_key value_subseteq value_order in let sub := atree_subseteq get_key value_subseteq in
  order t0 t1 =
    if decide (t0 = t1) then cu_order_eq
    else if c0 =? c1 then
      if decide (order l0 l1 = cu_order_none) then cu_order_none
      else if decide (order l0 l1 = order r0 r1) then order l0 l1
      else if decide (order l0 l1 = cu_order_eq) then order r0 r1
      else if decide (order r0 r1 = cu_order_eq) then order l0 l1 else cu_order_none
    else if c0 <? c1 then
      if centre_to_max c0 <? c1 then
        if centre_to_max c0 <? centre_to_min c1 then cu_order_none
        else if sub t0 l1 then cu_order_lt else cu_order_none
      else if sub t1 r0 then cu_order_gt else cu_order_none
    else
      if centre_to_max c1 <? c0 then
        if centre_to_max c1 <? centre_to_min c0 then cu_order_none
        else if sub t1 l0 then cu_order_gt else cu_order_none
      else if sub t0 r1 then cu_order_lt else cu_order_none.
Proof. reflexivity. Qed.

Lemma atree_order_spec t0 : forall t1 lo hi, within lo hi t0 -> within lo hi t1 ->
  even_keys (contents t0) -> even_keys (contents t1) ->
  ordered (subs (contents t0) (contents t1)) (subs (contents t1) (contents t0))
    (atree_order get_key value_subseteq value_order t0 t1).
Proof.
  induction t0 as [e0|c0 l0 IHl0 r0 IHr0]; intros [e1|c1 l1 r1] lo hi Hw0 Hw1 He0 He1.
  - cbn [atree_order]. destruct (decide (Leaf e0 = Leaf e1)) as [<-|_]; [split; apply subs_refl|].
    destruct (Z.eqb_spec (get_key e0) (get_key e1)) as [E|Hne].
    + apply (ordered_iff _ _ _ _ _) with (3 := Horder e0 e1); cbn; rewrite E.
      * split; [intros H x a [<- <-]%lookup_singleton_Some; exists e1; by rewrite lookup_singleton_eq|].
        intros H. destruct (H (get_key e1) e0) as (b & Eb & Hb); [by rewrite lookup_singleton_eq|].
        rewrite lookup_singleton_eq in Eb. by injection Eb as <-.
      * split; [intros H x a [<- <-]%lookup_singleton_Some; exists e0; by rewrite lookup_singleton_eq|].
        intros H. destruct (H (get_key e1) e1) as (b & Eb & Hb); [by rewrite lookup_singleton_eq|].
        rewrite lookup_singleton_eq in Eb. by injection Eb as <-.
    + split; [apply (not_subs _ _ (get_key e0) e0)|apply (not_subs _ _ (get_key e1) e1)]; cbn;
        by rewrite ?lookup_singleton_eq, ?lookup_singleton_ne.
  - cbn [atree_order]. rewrite decide_False by done. pose proof (subs_leaf lo hi e0 _ Hw1) as Hl.
    destruct (atree_find get_key (Node c1 l1 r1) (get_key e0)) as [leaf1|];
      (apply (ordered_below _ _ (value_subseteq e0 leaf1)) || apply (ordered_below _ _ false)); try done; by apply (not_subs_leaf lo hi).
  - cbn [atree_order]. rewrite decide_False by done. pose proof (subs_leaf lo hi e1 _ Hw0) as Hl.
    destruct (atree_find get_key (Node c0 l0 r0) (get_key e1)) as [leaf0|];
      (apply (ordered_above _ _ (value_subseteq e1 leaf0)) || apply (ordered_above _ _ false)); try done; by apply (not_subs_leaf lo hi).
  - rewrite atree_order_nodes. cbn zeta. destruct (decide (Node c0 l0 r0 = Node c1 l1 r1)) as [<-|_]; [split; apply subs_refl|].
    destruct (node_centre lo hi _ _ _ Hw0) as (Hc0 & Hn0 & A0 & B0 & L0).
    destruct (node_centre lo hi _ _ _ Hw1) as (Hc1 & Hn1 & A1 & B1 & L1).
    pose proof Hw0 as (_ & _ & _ & _ & Hl0 & Hr0). pose proof Hw1 as (_ & _ & _ & _ & Hl1 & Hr1).
    pose proof (split_node _ _ _ _ _ Hw0) as S0. pose proof (split_node _ _ _ _ _ Hw1) as S1.
    destruct (even_split _ _ _ _ S0 He0) as [Hel0 Her0]. destruct (even_split _ _ _ _ S1 He1) as [Hel1 Her1].
    destruct (node_sides get_key _ _ _ _ _ Hw0) as [(x & a & Ex & Bx) (y & b & Ey & By)].
    destruct (node_sides get_key _ _ _ _ _ Hw1) as [(x' & a' & Ex' & Bx') (y' & b' & Ey' & By')].
    set (t0 := Node c0 l0 r0) in *. set (t1 := Node c1 l1 r1) in *.
    destruct (Z.eqb_spec c0 c1) as [<-|Hne]; [|destruct (Z.ltb_spec c0 c1) as [Hlt|Hge]].
    + apply (ordered_iff _ _ _ _ _ (iff_sym (subs_split _ _ _ _ _ _ _ S0 S1)) (iff_sym (subs_split _ _ _ _ _ _ _ S1 S0))).
      apply ordered_both; [by apply (IHl0 l1 (c0 - lb c0) c0)|by apply (IHr0 r1 c0 (c0 + lb c0))].
    + destruct (place c0 c1 Hc0 Hc1 Hn0 Hlt) as [Hd|Hd1 Hd2|d Hd1 Hd2].
      * split; [apply (not_subs _ _ x a Ex)|apply (not_subs _ _ x' a' Ex')]; apply (node_outside lo hi); done || lia.
      * assert (within (c1 - lb c1) c1 t0) as W0 by (apply (within_tight lo hi); [done|lia..]).
        apply ordered_below; [|apply (not_subs _ _ y' b' Ey'); apply (node_outside lo hi); done || lia].
        rewrite <- (subs_of_below _ _ _ _ _ (split_below _ _ _ W0) S1). by apply (atree_subseteq_spec _ _ (c1 - lb c1) c1).
      * assert (within c0 (c0 + lb c0) t1) as W1 by (apply (within_tight lo hi); [done|lia..]).
        apply ordered_above; [|apply (not_subs _ _ x a Ex); apply (node_outside lo hi); done || lia].
        rewrite <- (subs_of_above _ _ _ _ _ (split_above _ _ _ W1) S0). by apply (atree_subseteq_spec _ _ c0 (c0 + lb c0)).
    + destruct (place c1 c0 Hc1 Hc0 Hn1 ltac:(lia)) as [Hd|Hd1 Hd2|d Hd1 Hd2].
      * split; [apply (not_subs _ _ x a Ex)|apply (not_subs _ _ x' a' Ex')]; apply (node_outside lo hi); done || lia.
      * assert (within (c0 - lb c0) c0 t1) as W1 by (apply (within_tight lo hi); [done|lia..]).
        apply ordered_above; [|apply (not_subs _ _ y b Ey); apply (node_outside lo hi); done || lia].
        rewrite <- (subs_of_below _ _ _ _ _ (split_below _ _ _ W1) S0). by apply (atree_subseteq_spec _ _ (c0 - lb c0) c0).
      * assert (within c1 (c1 + lb c1) t0) as W0 by (apply (within_tight lo hi); [done|lia..]).
        apply ordered_below; [|apply (not_subs _ _ x' a' Ex'); apply (node_outside lo hi); done || lia].
        rewrite <- (subs_of_above _ _ _ _ _ (split_above _ _ _ W0) S1). by apply (atree_subseteq_spec _ _ c1 (c1 + lb c1)).
Qed.
End subseteq.
End algebra.
