(* ===== verification/AtreeTrav.v ===== *)
(** * Associative trees: elements, traversal, images and iterators

    The elements of a tree from left to right are sorted by their keys; everything else is stated
    in terms of them. *)

From Stdlib Require Import Sorting.Sorted.
From S2P Require Export AtreeAlg AlgoOps.

Fixpoint elements (t : atree) : list ex :=
  match t with Leaf e => [e] | Node _ l r => elements l ++ elements r end.
Definition elements_of (t : option atree) : list ex := match t with None => [] | Some t => elements t end.

Fixpoint tree_depth (t : atree) : nat :=
  match t with Leaf _ => 0 | Node _ l r => S (tree_depth l `max` tree_depth r) end.

Lemma elements_nonempty t : elements t <> [].
Proof. induction t as [e|c l IHl r IHr]; cbn; [done|]. intros [E _]%app_eq_nil. done. Qed.

Section elements.
Context (get_key : ex -> Z).
Notation within := (within get_key).
Notation contents := (contents get_key).

(** ** Elements and contents *)

Lemma elements_contents lo hi t e : within lo hi t -> e ∈ elements t <-> contents t !! get_key e = Some e.
Proof.
  revert lo hi. induction t as [e'|c l IHl r IHr]; intros lo hi Hw.
  - cbn. rewrite list_elem_of_singleton. split; [intros ->; by rewrite lookup_singleton_eq|].
    intros H. apply lookup_singleton_Some in H as [_ H]. congruence.
  - pose proof Hw as (Hc & Hn & H1 & H2 & Hl & Hr). cbn [elements]. rewrite elem_of_app.
    rewrite (contents_node get_key lo hi) by done. rewrite (IHl _ _ Hl), (IHr _ _ Hr).
    destruct (Z.ltb_spec (get_key e) c); (split; [intros [H'|H']|auto]); try done; exfalso.
    + apply (contents_bounds get_key c (c + lb c)) in H'; [lia|done].
    + apply (contents_bounds get_key (c - lb c) c) in H'; [lia|done].
Qed.

Lemma elements_bounds lo hi t : within lo hi t -> Forall (fun e => lo <= get_key e < hi) (elements t).
Proof.
  intros Hw. apply list.Forall_forall. intros e He. apply (elements_contents lo hi) in He; [|done].
  apply (contents_bounds get_key lo hi) in He; [lia|done].
Qed.

Definition sorted_keys (l : list ex) : Prop := StronglySorted (fun x y => get_key x < get_key y) l.

Lemma sorted_keys_app l l' c : sorted_keys l -> sorted_keys l' -> Forall (fun e => get_key e < c) l -> Forall (fun e => c <= get_key e) l' ->
  sorted_keys (l ++ l').
Proof.
  intros Hl Hl' Hc Hc'. induction Hl as [|x l Hl IH Hx]; [done|]. apply list.Forall_cons in Hc as [Hxc Hc].
  cbn. constructor; [by apply IH|]. apply Forall_app. split; [done|]. eapply list.Forall_impl; [exact Hc'|]. cbn. intros y Hy. lia.
Qed.

Lemma elements_sorted lo hi t : within lo hi t -> sorted_keys (elements t).
Proof.
  revert lo hi. induction t as [e|c l IHl r IHr]; intros lo hi Hw; [repeat constructor|].
  pose proof Hw as (Hc & Hn & H1 & H2 & Hl & Hr). cbn. apply (sorted_keys_app _ _ c); [by apply (IHl (c - lb c) c)|by apply (IHr c (c + lb c))| |].
  - eapply list.Forall_impl; [by apply (elements_bounds (c - lb c) c)|]. cbn. lia.
  - eapply list.Forall_impl; [by apply (elements_bounds c (c + lb c))|]. cbn. lia.
Qed.

Lemma size_contents lo hi t : within lo hi t -> size (contents t) = length (elements t).
Proof.
  revert lo hi. induction t as [e|c l IHl r IHr]; intros lo hi Hw; [cbn; by rewrite map_size_singleton|].
  pose proof Hw as (Hc & Hn & H1 & H2 & Hl & Hr). cbn. rewrite map_size_disj_union, length_app, (IHl _ _ Hl), (IHr _ _ Hr); [done|].
  apply map_disjoint_spec. intros x a b Ha Hb. apply (contents_bounds get_key (c - lb c) c) in Ha; [|done].
  apply (contents_bounds get_key c (c + lb c)) in Hb; [lia|done].
Qed.

(** ** Cardinality and depth *)

Lemma wadd_assoc_wrap a b : wadd a (wrap b) = wrap (a + b).
Proof. unfold wadd, wrap. by rewrite Z.add_mod_idemp_r. Qed.

Lemma card_loop_spec t : forall card, word card ->
  atree_card_loop card t = wrap (card + Z.of_nat (length (elements t)) - 1).
Proof.
  induction t as [e|c l IHl r IHr]; intros card Hc; cbn [atree_card_loop elements].
  - replace (card + Z.of_nat (length [e]) - 1) with card by (cbn [length]; lia). by rewrite wrap_small.
  - rewrite IHr by apply word_wadd. rewrite (IHl 1) by done. rewrite wadd_assoc_wrap, length_app.
    replace (wrap (card + (1 + Z.of_nat (length (elements l)) - 1)) + Z.of_nat (length (elements r)) - 1) with
      (wrap (card + (1 + Z.of_nat (length (elements l)) - 1)) + (Z.of_nat (length (elements r)) - 1)) by lia.
    unfold wrap. rewrite Z.add_mod_idemp_l by done. f_equal. lia.
Qed.

Lemma length_elements lo hi t : within lo hi t -> Z.of_nat (length (elements t)) <= hi - lo.
Proof.
  revert lo hi. induction t as [e|c l IHl r IHr]; intros lo hi Hw; [cbn in Hw |- *; lia|].
  pose proof Hw as (Hc & Hn & H1 & H2 & Hl & Hr). cbn. rewrite length_app. specialize (IHl _ _ Hl). specialize (IHr _ _ Hr). lia.
Qed.

Lemma atree_card_spec t : wf_atree get_key t -> atree_card t = Z.of_nat (length (elements t)).
Proof.
  intros Hw. unfold atree_card. rewrite card_loop_spec by done. pose proof (length_elements _ _ t Hw).
  rewrite wrap_small; [lia|]. unfold word. lia.
Qed.

Lemma depth_loop_spec t : forall m d, d <= m ->
  atree_depth_loop m d t = Z.max m (d + Z.of_nat (tree_depth t)).
Proof.
  induction t as [e|c l IHl r IHr]; intros m d Hmd; cbn [atree_depth_loop tree_depth]; [lia|]. cbn zeta.
  rewrite (IHl 0 0) by lia. rewrite IHr; destruct (Z.ltb_spec m (d + 1 + Z.max 0 (0 + Z.of_nat (tree_depth l)))); lia.
Qed.

Lemma atree_depth_spec t : atree_depth t = Z.of_nat (tree_depth t).
Proof. unfold atree_depth. rewrite depth_loop_spec; lia. Qed.

Lemma depth_bound n : forall lo hi t, within lo hi t -> hi - lo <= 2 ^ Z.of_nat n -> (tree_depth t <= n)%nat.
Proof.
  induction n as [|n IH]; intros lo hi t Hw Hn; destruct t as [e|c l r]; cbn [tree_depth]; try lia;
    pose proof Hw as (Hc & Hcn & H1 & H2 & Hl & Hr); pose proof (lb_bounds c Hc).
  - change (2 ^ Z.of_nat 0) with 1 in Hn. lia.
  - rewrite Nat2Z.inj_succ, Z.pow_succ_r in Hn by lia.
    pose proof (IH _ _ _ Hl ltac:(lia)). pose proof (IH _ _ _ Hr ltac:(lia)). lia.
Qed.

(** ** Index *)

Lemma find_index_loop_spec t : forall lo hi index x, within lo hi t -> 0 <= lo -> hi <= 2 ^ 63 -> word index ->
  match contents t !! x with
  | Some e => exists i, elements t !! i = Some e /\ find_index_loop get_key index t x = wrap (index + Z.of_nat i)
  | None => find_index_loop get_key index t x = wrap (-1)
  end.
Proof.
  induction t as [e|c l IHl r IHr]; intros lo hi index x Hw H0 H63 Hi; cbn [find_index_loop].
  - cbn. destruct (Z.eqb_spec (get_key e) x) as [<-|Hne].
    + rewrite lookup_singleton_eq. exists 0%nat. cbn. rewrite Z.add_0_r, wrap_small; done.
    + by rewrite lookup_singleton_ne.
  - pose proof Hw as (Hc & Hn & H1 & H2 & Hl & Hr). pose proof (lb_bounds c Hc) as [Hlb _].
    rewrite (contents_node get_key lo hi) by done. destruct (key_in_node c x Hc Hn) as [-> ->]. cbn [elements].
    destruct (Z.ltb_spec x c).
    + destruct (Z.ltb_spec x (c - lb c)); [by rewrite (contents_outside get_key (c - lb c) c) by (done || lia)|].
      specialize (IHl (c - lb c) c index x Hl ltac:(lia) ltac:(lia) Hi). destruct (contents l !! x) as [e|]; [|done].
      destruct IHl as (i & Ei & E). exists i. split; [|done]. by apply lookup_app_l_Some.
    + destruct (Z.leb_spec (c + lb c) x); [by rewrite (contents_outside get_key c (c + lb c)) by (done || lia)|].
      specialize (IHr c (c + lb c) (wadd index (atree_card l)) x Hr ltac:(lia) ltac:(lia) (word_wadd _ _)).
      destruct (contents r !! x) as [e|]; [|done]. destruct IHr as (i & Ei & E). exists (length (elements l) + i)%nat. split.
      * rewrite lookup_app_r by lia. by replace (length (elements l) + i - length (elements l))%nat with i by lia.
      * rewrite E, atree_card_spec by (apply (within_mono get_key (c - lb c) c); [done|lia..]).
        unfold wadd, wrap. rewrite Z.add_mod_idemp_l by done. f_equal. lia.
Qed.
End elements.

(** ** Traversal *)

Lemma atree_conj_spec {T} (f : ex -> clop T bool) t : forall s, atree_conj f t s = cconj f (elements t) s.
Proof.
  induction t as [e|c l IHl r IHr]; intros s; cbn [atree_conj elements].
  - cbn. unfold cbind. by destruct (f e s) as [[] s'].
  - rewrite cconj_app. unfold cbind. rewrite IHl. destruct (cconj f (elements l) s) as [[] s']; [apply IHr|done].
Qed.

Lemma atree_iter_spec {T} (f : ex -> clop T unit) t : forall s, atree_iter f t s = citer f (elements t) s.
Proof.
  induction t as [e|c l IHl r IHr]; intros s; cbn [atree_iter elements].
  - cbn. unfold cbind. by destruct (f e s) as [[] s'].
  - rewrite citer_app. unfold cbind. rewrite IHl. destruct (citer f (elements l) s) as [[] s']. apply IHr.
Qed.

(** The traversals that pass operands, if the elements have them. *)
Definition ok_answer {T} (r : bool * T) : option bool * T := let '(b, s) := r in (Some b, s).

Lemma atree_conj_iv_spec {T} i (f : ex -> clop T bool) t : forall xs s,
  Forall2 (fun e x => cuex_opn_at e i = Some x) (elements t) xs ->
  atree_conj_iv i f t s = ok_answer (cconj f xs s).
Proof.
  induction t as [e|c l IHl r IHr]; intros xs s Hx; cbn [atree_conj_iv elements] in *.
  - inversion Hx as [|? x ? ? E Hnil]; subst. inversion Hnil; subst. rewrite E. cbn. unfold cbind.
    by destruct (f x s) as [[] s'].
  - apply Forall2_app_inv_l in Hx as (xl & xr & Hl & Hr & ->). rewrite cconj_app. unfold cbind.
    rewrite (IHl xl s Hl). destruct (cconj f xl s) as [[] s']; [apply (IHr xr s' Hr)|done].
Qed.

Definition pass_two {T} (f : ex -> ex -> clop T bool) (e : ex) : clop T bool :=
  match cuex_opn_at e 0, cuex_opn_at e 1 with Some x, Some y => f x y | _, _ => cret true end.

Lemma atree_conj_kv_spec {T} (f : ex -> ex -> clop T bool) t : forall s,
  Forall (fun e => is_Some (cuex_opn_at e 0) /\ is_Some (cuex_opn_at e 1)) (elements t) ->
  atree_conj_kv f t s = ok_answer (cconj (pass_two f) (elements t) s).
Proof.
  induction t as [e|c l IHl r IHr]; intros s Hx; cbn [atree_conj_kv elements] in *.
  - apply list.Forall_cons in Hx as [[[x Ex] [y Ey]] _]. rewrite Ex, Ey. cbn. unfold cbind, pass_two. rewrite Ex, Ey.
    by destruct (f x y s) as [[] s'].
  - apply Forall_app in Hx as [Hl Hr]. rewrite cconj_app. unfold cbind.
    rewrite (IHl s Hl). destruct (cconj (pass_two f) (elements l) s) as [[] s']; [apply (IHr s' Hr)|done].
Qed.

(** ** Images *)

Section images.
Context (get_key : ex -> Z).

(** The map of a list of elements, in which the first one with a key counts. *)
Definition keyed (l : list ex) : gmap Z ex := list_to_map (map (fun e => (get_key e, e)) l).

Lemma keyed_snoc l e : keyed (l ++ [e]) = match keyed l !! get_key e with Some _ => keyed l | None => <[get_key e := e]> (keyed l) end.
Proof.
  unfold keyed. induction l as [|x l IH]; [done|]. cbn [app map list_to_map] in *. cbn. rewrite IH.
  destruct (Z.eq_dec (get_key e) (get_key x)) as [->|Hne].
  - rewrite lookup_insert_eq. destruct (_ !! get_key x); [done|]. by rewrite insert_insert_eq.
  - rewrite lookup_insert_ne by done. destruct (_ !! get_key e); [done|]. by rewrite insert_insert_ne.
Qed.

Lemma atree_image_spec f t : forall accu l, Forall (fun e => is_key (get_key (f e))) (elements t) ->
  wf get_key accu -> content get_key accu = keyed l ->
  let res := atree_image f get_key t accu in
  wf get_key res /\ content get_key res = keyed (l ++ map f (elements t)).
Proof.
  induction t as [e|c l' IHl r IHr]; intros accu l Hk Hw E; cbn [atree_image elements map] in *; cbn zeta.
  - apply list.Forall_cons in Hk as [Hk _]. rewrite keyed_snoc, <- E. destruct accu as [t|]; cbn [wf content].
    + pose proof (atree_insert_spec get_key merge_as_first) as Hi.
      specialize (Hi ltac:(intros e0 e1 e2 _ [= ->]; done) t 0 (2 ^ 63) (f e) interval_root Hw Hk).
      destruct (contents get_key t !! get_key (f e)) as [e'|] eqn:El;
        destruct (atree_insert get_key merge_as_first t (f e)) as [t'|]; cbn [merged merge_as_first updated] in Hi;
        try done; destruct Hi as [Hw' E']; (split; [done|]); cbn [content]; rewrite E'; first [done|by rewrite insert_id].
    + cbn. rewrite lookup_empty. split; [done|]. by rewrite insert_empty.
  - apply Forall_app in Hk as [Hkl Hkr]. rewrite map_app, app_assoc.
    destruct (IHl accu l Hkl Hw E) as [Hw1 E1]. by apply IHr.
Qed.

Lemma atree_isokey_image_spec f t : forall lo hi, (forall e, e ∈ elements t -> get_key (f e) = get_key e) ->
  within get_key lo hi t -> within get_key lo hi (atree_isokey_image f t) /\
  contents get_key (atree_isokey_image f t) = f <$> contents get_key t.
Proof.
  induction t as [e|c l IHl r IHr]; intros lo hi Hf Hw; cbn [atree_isokey_image].
  - cbn in Hw |- *. rewrite Hf by (by apply list_elem_of_singleton). split; [done|]. by rewrite map_fmap_singleton.
  - pose proof Hw as (Hc & Hn & H1 & H2 & Hl & Hr). cbn [elements] in Hf.
    destruct (IHl _ _ ltac:(intros e He; apply Hf, elem_of_app; auto) Hl) as [Wl El].
    destruct (IHr _ _ ltac:(intros e He; apply Hf, elem_of_app; auto) Hr) as [Wr Er].
    split; [done|]. cbn. by rewrite El, Er, map_fmap_union.
Qed.
End images.

(** What an image that changes operand [i] does to an element. *)
Definition with_operand (i : nat) (f : ex -> ex) (e : ex) : ex :=
  match cuex_opn_at e i with Some x => Opn (cuex_meta e) (<[i := f x]> (operands e)) | None => e end.
Definition with_value (f : ex -> ex -> ex) (e : ex) : ex :=
  match cuex_opn_at e 0, cuex_opn_at e 1 with
  | Some x, Some y => Opn (cuex_meta e) (<[1%nat := f x y]> (operands e)) | _, _ => e end.

Lemma atree_isokey_image_iv_spec i f t : Forall (fun e => is_Some (cuex_opn_at e i)) (elements t) ->
  atree_isokey_image_iv i f t = Some (atree_isokey_image (with_operand i f) t).
Proof.
  induction t as [e|c l IHl r IHr]; cbn [elements atree_isokey_image_iv atree_isokey_image]; intros Hx.
  - apply list.Forall_cons in Hx as [[x Ex] _]. unfold with_operand. by rewrite Ex.
  - apply Forall_app in Hx as [Hl Hr]. by rewrite (IHl Hl), (IHr Hr).
Qed.

Lemma atree_isokey_image_kv_spec f t :
  Forall (fun e => is_Some (cuex_opn_at e 0) /\ is_Some (cuex_opn_at e 1)) (elements t) ->
  atree_isokey_image_kv f t = Some (atree_isokey_image (with_value f) t).
Proof.
  induction t as [e|c l IHl r IHr]; cbn [elements atree_isokey_image_kv atree_isokey_image]; intros Hx.
  - apply list.Forall_cons in Hx as [[[x Ex] [y Ey]] _]. unfold with_value. by rewrite Ex, Ey.
  - apply Forall_app in Hx as [Hl Hr]. by rewrite (IHl Hl), (IHr Hr).
Qed.

(** ** Iterators *)

(** An iterator in an array of [n] entries, with the pending subtrees [ts] from the top of the stack down. *)
Record pending (n : nat) (ts : list atree) (it : atree_itr) : Prop := {
  pending_sp : sp it = length ts;
  pending_size : length (stack it) = n;
  pending_bottom : stack it !! 0%nat = Some None;
  pending_entry j t : ts !! j = Some t -> stack it !! (length ts - j)%nat = Some (Some t);
  pending_room j t : ts !! j = Some t -> (length ts - j + tree_depth t < n)%nat;
}.

Definition pending_elements (ts : list atree) : list ex := concat (map elements ts).

Lemma push_at_spec st i x : (i < length st)%nat -> push_at st i x = Some (<[i := x]> st).
Proof. intros Hi. unfold push_at. by rewrite decide_True. Qed.

(** The descent, for the subtree [t] above the pending ones; [st] is the stack below it. *)
Lemma itr_push_spec n t : forall ts st, (S (length ts) + tree_depth t < n)%nat ->
  pending n ts (mk_atree_itr (length ts) st) ->
  exists e ts' st', itr_push t (S (length ts)) st = Some (e, S (length ts'), st') /\
    elements t ++ pending_elements ts = e :: pending_elements ts' /\ pending n ts' (mk_atree_itr (length ts') st').
Proof.
  induction t as [e|c l IHl r IHr]; intros ts st Hd Hp; cbn [itr_push elements tree_depth] in *.
  { exists e, ts, st. done. }
  pose proof Hp as [_ Hsz Hbot Hent Hroom]. cbn [sp stack] in *.
  rewrite push_at_spec by lia. cbn [mbind option_bind].
  destruct (IHl (r :: ts) (<[S (length ts) := Some r]> st)) as (e & ts' & st' & E & El & Hp'); [cbn [length]; lia| |].
  - split; cbn [sp stack length].
    + done.
    + by rewrite length_insert.
    + by rewrite list_lookup_insert_ne.
    + intros [|j] t Hj; cbn in Hj.
      * injection Hj as <-. rewrite Nat.sub_0_r. apply list_lookup_insert_eq. lia.
      * pose proof (lookup_lt_Some _ _ _ Hj). rewrite list_lookup_insert_ne by lia. cbn. by apply Hent.
    + intros [|j] t Hj; cbn in Hj; [injection Hj as <-; lia|]. specialize (Hroom _ _ Hj). cbn. lia.
  - exists e, ts', st'. cbn [length] in E. rewrite E. split; [done|]. split; [|done].
    rewrite <- El, <- app_assoc. done.
Qed.

Lemma atree_itr_get_spec n ts it : pending n ts it ->
  match pending_elements ts with
  | [] => cuex_atree_itr_get it = Some (None, it)
  | e :: es => exists ts' it', cuex_atree_itr_get it = Some (Some e, it') /\ pending n ts' it' /\ pending_elements ts' = es
  end.
Proof.
  intros Hp. pose proof Hp as [Hsp Hsz Hbot Hent Hroom]. unfold cuex_atree_itr_get. rewrite Hsp.
  destruct ts as [|t ts].
  - cbn. by rewrite Hbot.
  - pose proof (Hent 0%nat t eq_refl) as E0. pose proof (Hroom 0%nat t eq_refl) as R0. rewrite Nat.sub_0_r in E0, R0.
    rewrite E0. cbn [mbind option_bind]. destruct (itr_push_spec n t ts (stack it)) as (e & ts' & st' & E & El & Hp'); [done| |].
    + split; cbn [sp stack]; try done; intros j t' Hj; [specialize (Hent (S j) t' Hj)|specialize (Hroom (S j) t' Hj)]; done.
    + cbn [length]. rewrite E. cbn [mbind option_bind]. unfold pending_elements at 1. cbn [map concat].
      fold (pending_elements ts). rewrite El. exists ts', (mk_atree_itr (length ts') st').
      replace (S (length ts') - 1)%nat with (length ts') by lia. done.
Qed.

Lemma atree_itr_init_spec t memory : length memory = atree_itr_entries t ->
  exists it, cuex_atree_itr_init memory t = Some it /\
    pending (length memory) (match t with None => [] | Some t => [t] end) it.
Proof.
  intros Hl. unfold cuex_atree_itr_init, atree_itr_entries in *. rewrite push_at_spec by lia. cbn [mbind option_bind].
  destruct t as [t|].
  - cbn [cuex_atree_depth] in Hl. rewrite atree_depth_spec in Hl. rewrite push_at_spec by (rewrite length_insert; lia).
    cbn [mbind option_bind]. eexists. split; [reflexivity|]. split; cbn [sp stack].
    + done.
    + by rewrite !length_insert.
    + rewrite list_lookup_insert_ne by done. apply list_lookup_insert_eq. lia.
    + intros [|j] t' Hj; [|done]. injection Hj as <-. cbn. apply list_lookup_insert_eq. rewrite length_insert. lia.
    + intros [|j] t' Hj; [|done]. injection Hj as <-. cbn. lia.
  - eexists. split; [reflexivity|]. split; cbn [sp stack]; try done; [by rewrite length_insert|]. apply list_lookup_insert_eq. lia.
Qed.
