(* ===== verification/AtreeSpec.v ===== *)
(** * Associative trees: the interface

    The functions of [cuex/atree.h] on whole trees, against finite maps. *)

From S2P Require Export AtreeTrav.

Section interface.
Context (get_key : ex -> Z).
Notation wf := (wf get_key).
Notation content := (content get_key).

(** A callback that keeps the key. *)
Definition keeps_key (f : ex -> ex -> option ex) : Prop :=
  forall e0 e1 e, get_key e0 = get_key e1 -> f e0 e1 = Some e -> get_key e = get_key e0.

Lemma keeps_first : keeps_key merge_as_first.
Proof. by intros e0 e1 e _ [= ->]. Qed.
Lemma keeps_second : keeps_key merge_as_second.
Proof. by intros e0 e1 e Hk [= ->]. Qed.
Lemma keeps_disjoin : keeps_key merge_disjoin.
Proof. done. Qed.

Lemma deep_insert_spec f t v : keeps_key f -> wf t -> is_key (get_key v) ->
  match merged f (content t !! get_key v) v with
  | None => cuex_atree_deep_insert get_key f t v = None
  | Some e => exists t', cuex_atree_deep_insert get_key f t v = Some t' /\ wf (Some t') /\
      content (Some t') = <[get_key v := e]> (content t)
  end.
Proof.
  intros Hf Hw Hv. destruct t as [t|]; cbn [cuex_atree_deep_insert AtreeInv.content].
  - pose proof (atree_insert_spec get_key f Hf t 0 (2 ^ 63) v interval_root Hw Hv) as Hu.
    destruct (merged f (contents get_key t !! get_key v) v) as [e|], (atree_insert get_key f t v) as [t'|]; try done.
    exists t'. split; [done|]. exact Hu.
  - rewrite lookup_empty. cbn [merged]. exists (Leaf v). split; [done|]. split; [exact Hv|]. cbn. by rewrite insert_empty.
Qed.

Lemma cuex_atree_insert_eq t v : cuex_atree_insert get_key t v = cuex_atree_deep_insert get_key merge_as_first t v.
Proof. by destruct t. Qed.
Lemma cuex_atree_replace_eq t v : cuex_atree_replace get_key t v = cuex_atree_deep_insert get_key merge_as_second t v.
Proof. by destruct t. Qed.

Lemma cuex_atree_erase_spec t k : wf t ->
  fst (cuex_atree_find_erase get_key t k) = content t !! k /\
  snd (cuex_atree_find_erase get_key t k) = cuex_atree_erase get_key t k /\
  wf (cuex_atree_erase get_key t k) /\ content (cuex_atree_erase get_key t k) = delete k (content t).
Proof.
  intros Hw. destruct t as [t|]; [|cbn; by rewrite lookup_empty, delete_empty].
  destruct (atree_erase_spec get_key t 0 (2 ^ 63) k None Hw) as [E1 E2].
  cbn [cuex_atree_find_erase cuex_atree_erase]. destruct (atree_erase get_key t k None) as [t' elt]. cbn [fst snd AtreeInv.content] in *.
  split; [rewrite E2; by destruct (contents get_key t !! k)|]. destruct t' as [t'|]; cbn [content_in] in E1.
  - destruct E1 as [Hw' E1]. done.
  - split; [done|]. split; [done|]. cbn. by rewrite E1.
Qed.

Lemma content_insert_spec t v : wf t -> is_key (get_key v) -> let t' := cuex_atree_insert get_key t v in
  wf t' /\ content t' = <[get_key v := default v (content t !! get_key v)]> (content t).
Proof.
  intros Hw Hv. cbn zeta. rewrite cuex_atree_insert_eq. pose proof (deep_insert_spec _ t v keeps_first Hw Hv) as H.
  destruct (content t !! get_key v) as [e|]; cbn [merged merge_as_first] in H; destruct H as (t' & -> & ? & ?); done.
Qed.

(** C3: an associative tree is a finite map from the keys (below 2^63) to the elements: searching finds
    the element of a key; inserting keeps the element with the same key, if there is one, replacing
    takes the new one, and the general form merges them or answers NULL when the callback does;
    erasing removes the element, and returns it in the form that is asked for.  A well-formed
    tree with given contents is unique, so that the comparison of pointers is that of maps. *)
Theorem atree_refines_finite_map t v k f : wf t -> is_key (get_key v) -> keeps_key f ->
  cuex_atree_find get_key t k = content t !! k /\
  (let t' := cuex_atree_insert get_key t v in wf t' /\
    content t' = <[get_key v := default v (content t !! get_key v)]> (content t)) /\
  (let t' := cuex_atree_replace get_key t v in wf t' /\ content t' = <[get_key v := v]> (content t)) /\
  (match match content t !! get_key v with Some e => f e v | None => Some v end with
   | None => cuex_atree_deep_insert get_key f t v = None
   | Some e => exists t', cuex_atree_deep_insert get_key f t v = Some t' /\ wf (Some t') /\
      content (Some t') = <[get_key v := e]> (content t)
   end) /\
  (let t' := cuex_atree_erase get_key t k in wf t' /\ content t' = delete k (content t)) /\
  cuex_atree_find_erase get_key t k = (content t !! k, cuex_atree_erase get_key t k) /\
  (forall t', wf t' -> content t' = content t -> t' = t).
Proof.
  intros Hw Hv Hf. split_and!.
  - destruct t as [t|]; [|done]. by apply (atree_find_spec get_key 0 (2 ^ 63)).
  - by apply content_insert_spec.
  - cbn zeta. rewrite cuex_atree_replace_eq. pose proof (deep_insert_spec _ t v keeps_second Hw Hv) as H.
    destruct (content t !! get_key v) as [e|]; cbn [merged merge_as_second] in H; destruct H as (t' & -> & ? & ?); done.
  - exact (deep_insert_spec f t v Hf Hw Hv).
  - by apply cuex_atree_erase_spec.
  - destruct (cuex_atree_erase_spec t k Hw) as (E1 & E2 & _). destruct (cuex_atree_find_erase get_key t k). cbn in *. by subst.
  - intros t' Hw' E. by apply (content_inj get_key).
Qed.

(** ** Algebra *)

Lemma deep_union_spec f t0 t1 : keeps_key f -> wf t0 -> wf t1 ->
  match cuex_atree_deep_union get_key f t0 t1 with
  | None => content t0 = ∅ /\ content t1 = ∅ \/
      exists x e0 e1, content t0 !! x = Some e0 /\ content t1 !! x = Some e1 /\ f e0 e1 = None
  | Some t => wf (Some t) /\ content (Some t) = union_with f (content t0) (content t1) /\
      forall x e0 e1, content t0 !! x = Some e0 -> content t1 !! x = Some e1 -> is_Some (f e0 e1)
  end.
Proof.
  intros Hf H0 H1. destruct t0 as [t0|], t1 as [t1|]; cbn [cuex_atree_deep_union].
  - pose proof (atree_union_spec get_key f Hf t0 t1 0 (2 ^ 63) interval_root H0 H1) as Hu.
    destruct (atree_union get_key f t0 t1) as [t|]; [|by right]. destruct Hu as [Hw Hx]. split_and!; [done| |].
    + apply map_eq. intros x. rewrite lookup_union_with. apply Hx.
    + intros x e0 e1 E0 E1. destruct (Hx x) as [Ex Hs]. cbn in E0, E1. rewrite E0, E1 in Ex. cbn in Ex.
      rewrite <- Ex. apply Hs. by rewrite E0.
  - split_and!; [done| |done]. cbn. apply map_eq. intros x. rewrite lookup_union_with, lookup_empty. by destruct (_ !! x).
  - split_and!; [done| |done]. cbn. apply map_eq. intros x. rewrite lookup_union_with, lookup_empty. by destruct (_ !! x).
  - left. done.
Qed.

Lemma deep_isecn_spec f t0 t1 : keeps_key f -> wf t0 -> wf t1 ->
  wf (cuex_atree_deep_isecn get_key f t0 t1) /\
  content (cuex_atree_deep_isecn get_key f t0 t1) = intersection_with f (content t0) (content t1).
Proof.
  intros Hf H0 H1. destruct t0 as [t0|], t1 as [t1|]; cbn [cuex_atree_deep_isecn]; cbn [AtreeInv.content];
    rewrite ?meet_empty_l, ?meet_empty_r; try done.
  pose proof (atree_isecn_spec get_key f Hf t0 t1 0 (2 ^ 63) H0 H1) as Hi.
  destruct (atree_isecn get_key f t0 t1) as [t|]; cbn [content_in] in Hi; [done|]. by rewrite Hi.
Qed.

Lemma union_first (m0 m1 : gmap Z ex) : union_with merge_as_first m0 m1 = m0 ∪ m1.
Proof. apply map_eq. intros x. rewrite lookup_union_with, lookup_union. by destruct (m0 !! x), (m1 !! x). Qed.

Lemma left_union_spec t0 t1 : wf t0 -> wf t1 -> let t := cuex_atree_left_union get_key t0 t1 in
  wf t /\ content t = content t0 ∪ content t1.
Proof.
  intros H0 H1. assert (cuex_atree_left_union get_key t0 t1 = cuex_atree_deep_union get_key merge_as_first t0 t1) as -> by (by destruct t0, t1).
  pose proof (deep_union_spec _ t0 t1 keeps_first H0 H1) as H. rewrite <- union_first.
  destruct (cuex_atree_deep_union get_key merge_as_first t0 t1) as [t|]; [by destruct H as (? & ? & _)|].
  destruct H as [[-> ->]|(x & e0 & e1 & _ & _ & E)]; [|done]. split; [done|]. apply map_eq. intros x. by rewrite lookup_union_with, lookup_empty.
Qed.

Lemma left_isecn_spec t0 t1 : wf t0 -> wf t1 -> let t := cuex_atree_left_isecn get_key t0 t1 in
  wf t /\ content t = content t0 ∩ content t1.
Proof.
  intros H0 H1. assert (cuex_atree_left_isecn get_key t0 t1 = cuex_atree_deep_isecn get_key merge_as_first t0 t1) as -> by (by destruct t0, t1).
  destruct (deep_isecn_spec _ t0 t1 keeps_first H0 H1) as [Hw E]. cbn zeta. rewrite E. split; [done|].
  apply map_eq. intros x. rewrite lookup_intersection_with, lookup_intersection. by destruct (content t0 !! x), (content t1 !! x).
Qed.

(** C11: unions and intersections of trees are those of the maps: the left union prefers the elements of the
    first tree, the disjoint union is NULL if there is a common key, and the general one merges the
    elements of common keys and is NULL if a merge is; the general intersection drops the
    elements for which it is. *)
Theorem atree_algebra_correct t0 t1 f : wf t0 -> wf t1 -> keeps_key f ->
  (let t := cuex_atree_left_union get_key t0 t1 in wf t /\ content t = content t0 ∪ content t1) /\
  (content t0 ##ₘ content t1 ->
    let t := cuex_atree_disjoint_union get_key t0 t1 in wf t /\ content t = content t0 ∪ content t1) /\
  (~ content t0 ##ₘ content t1 -> cuex_atree_disjoint_union get_key t0 t1 = None) /\
  ((forall x e0 e1, content t0 !! x = Some e0 -> content t1 !! x = Some e1 -> is_Some (f e0 e1)) ->
    let t := cuex_atree_deep_union get_key f t0 t1 in wf t /\ content t = union_with f (content t0) (content t1)) /\
  (forall x e0 e1, content t0 !! x = Some e0 -> content t1 !! x = Some e1 -> f e0 e1 = None ->
    cuex_atree_deep_union get_key f t0 t1 = None) /\
  (let t := cuex_atree_left_isecn get_key t0 t1 in wf t /\ content t = content t0 ∩ content t1) /\
  (let t := cuex_atree_deep_isecn get_key f t0 t1 in
    wf t /\ content t = intersection_with f (content t0) (content t1)).
Proof.
  intros H0 H1 Hf.
  assert (forall g, keeps_key g ->
    ((forall x e0 e1, content t0 !! x = Some e0 -> content t1 !! x = Some e1 -> is_Some (g e0 e1)) ->
      let t := cuex_atree_deep_union get_key g t0 t1 in wf t /\ content t = union_with g (content t0) (content t1)) /\
    (forall x e0 e1, content t0 !! x = Some e0 -> content t1 !! x = Some e1 -> g e0 e1 = None ->
      cuex_atree_deep_union get_key g t0 t1 = None)) as Hu.
  { intros g Hg. pose proof (deep_union_spec g t0 t1 Hg H0 H1) as H. split.
    - intros Hs. cbn zeta. destruct (cuex_atree_deep_union get_key g t0 t1) as [t|].
      + destruct H as (Hw & E & _). done.
      + destruct H as [[-> ->]|(x & e0 & e1 & E0 & E1 & Eg)]; [split; [done|]|destruct (Hs x e0 e1 E0 E1); congruence].
        cbn. apply map_eq. intros x. by rewrite lookup_union_with, lookup_empty.
    - intros x e0 e1 E0 E1 Eg. destruct (cuex_atree_deep_union get_key g t0 t1) as [t|]; [|done].
      destruct H as (_ & _ & Hs). destruct (Hs x e0 e1 E0 E1). congruence. }
  assert (cuex_atree_disjoint_union get_key t0 t1 = cuex_atree_deep_union get_key merge_disjoin t0 t1) as E2 by (by destruct t0, t1).
  rewrite E2. split_and!.
  - by apply left_union_spec.
  - intros Hd. destruct (Hu _ keeps_disjoin) as [H _]. cbn zeta in *. rewrite map_disjoint_spec in Hd.
    destruct H as [Hw E]; [intros x e0 e1 A0 A1; by destruct (Hd x e0 e1)|]. split; [done|]. rewrite E.
    apply map_eq. intros x. rewrite lookup_union_with, lookup_union.
    destruct (content t0 !! x) as [a|] eqn:A0, (content t1 !! x) as [b|] eqn:A1; try done. by destruct (Hd x a b).
  - intros Hd. destruct (Hu _ keeps_disjoin) as [_ H]. destruct (cuex_atree_deep_union get_key merge_disjoin t0 t1) as [t|] eqn:E; [|done].
    exfalso. apply Hd. apply map_disjoint_spec. intros x e0 e1 A0 A1. by specialize (H x e0 e1 A0 A1 eq_refl).
  - exact (proj1 (Hu f Hf)).
  - exact (proj2 (Hu f Hf)).
  - by apply left_isecn_spec.
  - by apply deep_isecn_spec.
Qed.

(** ** Inclusion and order *)

Lemma deep_subseteq_spec vsub t0 t1 : (forall x, vsub x x = true) -> wf t0 -> wf t1 -> even_keys (content t0) ->
  cuex_atree_deep_subseteq get_key vsub t0 t1 = true <-> subs vsub (content t0) (content t1).
Proof.
  intros Hrefl H0 H1 He. unfold cuex_atree_deep_subseteq. destruct (decide (t0 = t1)) as [<-|Hne].
  { split; [|done]. intros _. by apply subs_refl. }
  destruct t0 as [t0|]; [|split; [intros _; apply subs_empty|done]]. destruct t1 as [t1|].
  - by apply (atree_subseteq_spec get_key vsub Hrefl t0 t1 0 (2 ^ 63)).
  - split; [done|]. intros H. destruct (contents_inhabited get_key _ _ t0 H0) as (x & e & Ex & _).
    destruct (H x e Ex) as (b & Eb & _). cbn in Eb. by rewrite lookup_empty in Eb.
Qed.

(** The order of two trees, of which none need be there. *)
Lemma root_order_spec vsub vord t0 t1 : (forall x, vsub x x = true) ->
  (forall x y, ordered (vsub x y = true) (vsub y x = true) (vord x y)) -> wf t0 -> wf t1 ->
  even_keys (content t0) -> even_keys (content t1) ->
  ordered (subs vsub (content t0) (content t1)) (subs vsub (content t1) (content t0))
    (if decide (t0 = t1) then cu_order_eq
     else match t0, t1 with
     | None, _ => cu_order_lt
     | _, None => cu_order_gt
     | Some t0, Some t1 => atree_order get_key vsub vord t0 t1
     end).
Proof.
  intros Hrefl Hord H0 H1 He0 He1. destruct (decide (t0 = t1)) as [<-|Hne]; [split; by apply subs_refl|].
  assert (forall t, wf (Some t) -> ~ subs vsub (content (Some t)) (content None)) as Hno.
  { intros t Hw H. destruct (contents_inhabited get_key _ _ t Hw) as (x & e & Ex & _).
    destruct (H x e Ex) as (b & Eb & _). cbn in Eb. by rewrite lookup_empty in Eb. }
  destruct t0 as [t0|], t1 as [t1|]; try done.
  - by apply (atree_order_spec get_key vsub Hrefl vord Hord t0 t1 0 (2 ^ 63)).
  - split; [by apply Hno|apply subs_empty].
  - split; [apply subs_empty|by apply Hno].
Qed.

Lemma subs_dom m0 m1 : subs subseteq_true m0 m1 <-> dom m0 ⊆ dom m1.
Proof.
  split.
  - intros H x [e Ex]%elem_of_dom. destruct (H x e Ex) as (b & Eb & _). apply elem_of_dom. by exists b.
  - intros H x a Ex. assert (x ∈ dom m1) as [b Eb]%elem_of_dom by (apply H, elem_of_dom; by exists a). by exists b.
Qed.

(** The callbacks are called on elements of the trees that have the same key only. *)
Lemma atree_find_elements t k e : atree_find get_key t k = Some e -> e ∈ elements t /\ get_key e = k.
Proof.
  induction t as [e'|c l IHl r IHr]; cbn [atree_find elements].
  - destruct (Z.eqb_spec (get_key e') k) as [Ek|]; intros [= <-]. split; [by left|done].
  - intros H. rewrite elem_of_app. repeat case_match; try done; naive_solver.
Qed.

Definition agree {A} (f g : ex -> ex -> A) (t0 t1 : atree) : Prop :=
  forall e0 e1, e0 ∈ elements t0 -> e1 ∈ elements t1 -> get_key e0 = get_key e1 -> f e0 e1 = g e0 e1.

Lemma agree_mono {A} (f g : ex -> ex -> A) t0 t1 t0' t1' : agree f g t0 t1 ->
  elements t0' ⊆ elements t0 -> elements t1' ⊆ elements t1 -> agree f g t0' t1'.
Proof. intros H H0 H1 e0 e1 A0 A1. apply H; auto. Qed.

Lemma elements_left c l r : elements l ⊆ elements (Node c l r).
Proof. cbn. set_solver. Qed.
Lemma elements_right c l r : elements r ⊆ elements (Node c l r).
Proof. cbn. set_solver. Qed.
#[local] Hint Resolve elements_left elements_right : core.

Ltac shrink := match goal with H : agree _ _ _ _ |- _ => solve [apply (agree_mono _ _ _ _ _ _ H); auto] end.

Lemma found_agree {A} (f g : ex -> ex -> A) (d : A) e t : agree f g (Leaf e) t ->
  match atree_find get_key t (get_key e) with Some leaf => f e leaf | None => d end =
  match atree_find get_key t (get_key e) with Some leaf => g e leaf | None => d end.
Proof.
  intros H. destruct (atree_find get_key t (get_key e)) as [e1|] eqn:E; [|done].
  apply atree_find_elements in E as [He Ek]. apply H; [by left|done|done].
Qed.

Lemma atree_subseteq_agree f g t0 : forall t1, agree f g t0 t1 ->
  atree_subseteq get_key f t0 t1 = atree_subseteq get_key g t0 t1.
Proof.
  induction t0 as [e0|c0 l0 IHl0 r0 IHr0]; intros t1 H.
  { rewrite !atree_subseteq_eq. case_decide; [done|]. by apply found_agree. }
  induction t1 as [e1|c1 l1 IHl1 r1 IHr1]; rewrite !atree_subseteq_eq; [done|]. cbn zeta.
  rewrite (IHl0 l1), (IHr0 r1), IHl1, IHr1; [done|shrink..].
Qed.

Lemma atree_order_agree f g fo go t0 : forall t1, agree f g t0 t1 -> agree f g t1 t0 -> agree fo go t0 t1 ->
  atree_order get_key f fo t0 t1 = atree_order get_key g go t0 t1.
Proof.
  induction t0 as [e0|c0 l0 IHl r0 IHr]; intros t1 H H' Ho.
  - destruct t1 as [e1|c1 l1 r1]; cbn [atree_order]; (case_decide; [done|]).
    + destruct (Z.eqb_spec (get_key e0) (get_key e1)); [|done]. apply Ho; [by left|by left|done].
    + pose proof (found_agree f g false e0 _ H) as E. by destruct (atree_find _ _ _); [rewrite E|].
  - destruct t1 as [e1|c1 l1 r1].
    + cbn [atree_order]. case_decide; [done|]. pose proof (found_agree f g false e1 _ H') as E.
      by destruct (atree_find _ _ _); [rewrite E|].
    + rewrite !atree_order_nodes. cbn zeta.
      rewrite (IHl l1), (IHr r1); [|shrink..].
      rewrite (atree_subseteq_agree f g (Node c0 l0 r0) l1), (atree_subseteq_agree f g (Node c1 l1 r1) r0),
        (atree_subseteq_agree f g (Node c1 l1 r1) l0), (atree_subseteq_agree f g (Node c0 l0 r0) r1);
        [done|shrink..].
Qed.

Lemma subs_agree f g t0 t1 : wf t0 -> wf t1 ->
  (forall e0 e1, e0 ∈ elements_of t0 -> e1 ∈ elements_of t1 -> get_key e0 = get_key e1 -> f e0 e1 = g e0 e1) ->
  subs f (content t0) (content t1) <-> subs g (content t0) (content t1).
Proof.
  intros H0 H1 H. assert (forall t k e, wf t -> content t !! k = Some e -> e ∈ elements_of t /\ get_key e = k) as Hin.
  { intros [t|] k e Hw E; [|by cbn in E; rewrite lookup_empty in E].
    pose proof (contents_bounds get_key _ _ _ _ _ Hw E) as [_ <-]. split; [|done].
    by apply (elements_contents get_key 0 (2 ^ 63)). }
  split; intros Hs k a Ea; destruct (Hs k a Ea) as (b & Eb & Hb); exists b; (split; [done|]);
    destruct (Hin t0 k a H0 Ea) as [Ia Ka], (Hin t1 k b H1 Eb) as [Ib Kb]; specialize (H a b Ia Ib);
    rewrite Ka, Kb in H; specialize (H eq_refl); congruence.
Qed.

(** The adaptors for pairs, made total: they need not be reflexive on elements that are no pairs. *)
Definition kv_total {A} (same no : A) (f : ex -> ex -> A) (e0 e1 : ex) : A :=
  if decide (e0 = e1) then same else if decide (cuex_opn_at e0 0 = cuex_opn_at e1 0) then f e0 e1 else no.

(** Elements that are operations on a key and a value, with keys that have different addresses. *)
Definition pairs (address : ex -> Z) (es : list ex) : Prop :=
  (forall e, e ∈ es -> is_Some (cuex_opn_at e 0) /\ is_Some (cuex_opn_at e 1)) /\
  (forall e e', e ∈ es -> e' ∈ es -> get_key_0 address e = get_key_0 address e' -> cuex_opn_at e 0 = cuex_opn_at e' 0).

Section key_values.
Context (vs : ex -> ex -> ex -> bool) (vo : ex -> ex -> ex -> cu_order_t).
Context (Hvs : forall k x, vs k x x = true).
Context (Hvo : forall k x y, ordered (vs k x y = true) (vs k y x = true) (vo k x y)).

Lemma kv_total_refl e : kv_total true false (subseteq_kv_adaptor vs) e e = true.
Proof. unfold kv_total. by rewrite decide_True. Qed.

Lemma kv_total_ordered e0 e1 : let g := kv_total true false (subseteq_kv_adaptor vs) in
  ordered (g e0 e1 = true) (g e1 e0 = true) (kv_total cu_order_eq cu_order_none (order_kv_adaptor vo) e0 e1).
Proof.
  cbn zeta. unfold kv_total. destruct (decide (e0 = e1)) as [<-|Hne]; [by rewrite decide_True|].
  rewrite (decide_False (P := e1 = e0)) by done. destruct (decide (cuex_opn_at e0 0 = cuex_opn_at e1 0)) as [E|Hk].
  - rewrite decide_True by done. unfold subseteq_kv_adaptor, order_kv_adaptor. rewrite <- E.
    destruct (cuex_opn_at e0 0) as [k|], (cuex_opn_at e0 1) as [x|], (cuex_opn_at e1 1) as [y|]; try done. apply Hvo.
  - rewrite decide_False by congruence. done.
Qed.

Lemma kv_total_agree e0 e1 : is_Some (cuex_opn_at e0 0) -> is_Some (cuex_opn_at e0 1) -> cuex_opn_at e0 0 = cuex_opn_at e1 0 ->
  subseteq_kv_adaptor vs e0 e1 = kv_total true false (subseteq_kv_adaptor vs) e0 e1 /\
  order_kv_adaptor vo e0 e1 = kv_total cu_order_eq cu_order_none (order_kv_adaptor vo) e0 e1.
Proof.
  intros [k Ek] [x Ex] E. unfold kv_total. destruct (decide (e0 = e1)) as [<-|]; [|by rewrite !decide_True].
  unfold subseteq_kv_adaptor, order_kv_adaptor. rewrite Ek, Ex. cbn. rewrite Hvs. split; [done|].
  pose proof (Hvo k x x) as H. rewrite Hvs in H. destruct (vo k x x); cbn in H; tauto.
Qed.

Lemma kv_spec address t0 t1 : get_key = get_key_0 address -> wf t0 -> wf t1 ->
  even_keys (content t0) -> even_keys (content t1) -> pairs address (elements_of t0 ++ elements_of t1) ->
  let below m m' := subs (subseteq_kv_adaptor vs) m m' in
  (cuex_atree_deep_subseteq_kv address vs t0 t1 = true <-> below (content t0) (content t1)) /\
  ordered (below (content t0) (content t1)) (below (content t1) (content t0)) (cuex_atree_deep_order_kv address vs vo t0 t1).
Proof.
  intros Ek H0 H1 He0 He1 [Hp Hk]. cbn zeta. unfold cuex_atree_deep_subseteq_kv, cuex_atree_deep_order_kv. rewrite <- Ek in *.
  set (f := subseteq_kv_adaptor vs). set (g := kv_total true false f). set (fo := order_kv_adaptor vo).
  set (go := kv_total cu_order_eq cu_order_none fo).
  assert (forall e0 e1, e0 ∈ elements_of t0 ++ elements_of t1 -> e1 ∈ elements_of t0 ++ elements_of t1 ->
    get_key e0 = get_key e1 -> f e0 e1 = g e0 e1 /\ fo e0 e1 = go e0 e1) as Ha.
  { intros e0 e1 A0 A1 E. apply kv_total_agree; [by apply Hp|by apply Hp|by apply Hk]. }
  assert (subs g (content t0) (content t1) <-> subs f (content t0) (content t1)) as E01.
  { symmetry. apply subs_agree; [done|done|]. intros ?????. apply Ha; set_solver. }
  assert (subs g (content t1) (content t0) <-> subs f (content t1) (content t0)) as E10.
  { symmetry. apply subs_agree; [done|done|]. intros ?????. apply Ha; set_solver. }
  split.
  - rewrite <- E01, <- (deep_subseteq_spec g) by (done || apply kv_total_refl). unfold cuex_atree_deep_subseteq.
    destruct t0 as [t0|], t1 as [t1|]; try done. rewrite (atree_subseteq_agree f g); [done|].
    intros e0 e1 A0 A1 E. apply Ha; [set_solver..|done].
  - apply (ordered_iff _ _ _ _ _ E01 E10). eapply eq_rect; [apply (root_order_spec g go t0 t1 kv_total_refl kv_total_ordered H0 H1 He0 He1)|].
    destruct t0 as [t0|], t1 as [t1|]; try done. rewrite (atree_order_agree f g fo go); [done|..];
      intros e0 e1 A0 A1 E; apply Ha; cbn; done || set_solver.
Qed.
End key_values.

(** C12: for trees whose keys are even, cuex_atree_subseteq decides the inclusion of the sets of keys and
    cuex_atree_order their order.  With a callback that is reflexive, cuex_atree_deep_subseteq decides the
    pointwise inclusion of the maps.  For trees of pairs of a key and a value, where different keys have
    different addresses, and callbacks that are an inclusion of values and its order,
    cuex_atree_deep_subseteq_kv and cuex_atree_deep_order_kv decide the pointwise inclusion of the maps and
    its order.  Nothing is stated of the other forms: cuex_atree_deep_order is declared but not defined, and
    cuex_atree_deep_order_iv passes value_order for value_subseteq. *)
Theorem atree_order_correct t0 t1 vsub : wf t0 -> wf t1 ->
  even_keys (content t0) -> even_keys (content t1) -> (forall x, vsub x x = true) ->
  (cuex_atree_subseteq get_key t0 t1 = true <-> dom (content t0) ⊆ dom (content t1)) /\
  ordered (dom (content t0) ⊆ dom (content t1)) (dom (content t1) ⊆ dom (content t0)) (cuex_atree_order get_key t0 t1) /\
  (cuex_atree_deep_subseteq get_key vsub t0 t1 = true <-> subs vsub (content t0) (content t1)) /\
  (forall address vs vo, get_key = get_key_0 address -> pairs address (elements_of t0 ++ elements_of t1) ->
    (forall k x, vs k x x = true) -> (forall k x y, ordered (vs k x y = true) (vs k y x = true) (vo k x y)) ->
    let below m m' := forall k e, m !! k = Some e -> exists e', m' !! k = Some e' /\ subseteq_kv_adaptor vs e e' = true in
    (cuex_atree_deep_subseteq_kv address vs t0 t1 = true <-> below (content t0) (content t1)) /\
    ordered (below (content t0) (content t1)) (below (content t1) (content t0))
      (cuex_atree_deep_order_kv address vs vo t0 t1)).
Proof.
  intros H0 H1 He0 He1 Hrefl. split_and!.
  - rewrite <- subs_dom. by apply deep_subseteq_spec.
  - apply (ordered_iff _ _ _ _ _ (subs_dom _ _) (subs_dom _ _)). by apply (root_order_spec subseteq_true order_eq).
  - by apply deep_subseteq_spec.
  - intros address vs vo Ek Hp Hvs Hvo. by apply (kv_spec vs vo Hvs Hvo address).
Qed.
(** ** Traversal *)

(** What [n] calls of [cuex_atree_itr_get] return. *)
Fixpoint atree_itr_gets (n : nat) (it : atree_itr) : option (list (option ex) * atree_itr) :=
  match n with
  | O => Some ([], it)
  | S n => '(x, it) ← cuex_atree_itr_get it; '(xs, it) ← atree_itr_gets n it; Some (x :: xs, it)
  end.

Lemma atree_itr_gets_spec n es : forall ts it, pending n ts it -> pending_elements ts = es ->
  exists it', atree_itr_gets (length es) it = Some (map Some es, it') /\ cuex_atree_itr_get it' = Some (None, it').
Proof.
  induction es as [|e es IH]; intros ts it Hp E; pose proof (atree_itr_get_spec n ts it Hp) as Hg; rewrite E in Hg.
  - by exists it.
  - destruct Hg as (ts' & it1 & Eg & Hp' & E'). cbn [length atree_itr_gets map]. rewrite Eg. cbn [mbind option_bind].
    destruct (IH ts' it1 Hp' E') as (it2 & -> & E2). by exists it2.
Qed.

(** C38: an iterator that is initialised in a block of cuex_atree_itr_size bytes, which has at most 65
    entries, never leaves the block: it returns the elements by increasing keys, and then NULL.  The
    cardinality is the number of keys, and the index of a key is its place in this order. *)
Theorem atree_itr_correct t memory k : wf t -> length memory = atree_itr_entries t ->
  (atree_itr_entries t <= 65)%nat /\ sorted_keys get_key (elements_of t) /\
  (forall e, e ∈ elements_of t <-> content t !! get_key e = Some e) /\
  (exists it it', cuex_atree_itr_init memory t = Some it /\
    atree_itr_gets (length (elements_of t)) it = Some (map Some (elements_of t), it') /\
    cuex_atree_itr_get it' = Some (None, it')) /\
  cuex_atree_card t = Z.of_nat (size (content t)) /\
  match content t !! k with
  | Some e => exists i, elements_of t !! i = Some e /\ cuex_atree_find_index get_key t k = Z.of_nat i
  | None => cuex_atree_find_index get_key t k = 2 ^ 64 - 1
  end.
Proof.
  intros Hw Hm. split_and!.
  - unfold atree_itr_entries. destruct t as [t|]; [|cbn; lia]. cbn [cuex_atree_depth]. rewrite atree_depth_spec.
    pose proof (depth_bound get_key 63 0 (2 ^ 63) t Hw ltac:(change (Z.of_nat 63) with 63; lia)). lia.
  - destruct t as [t|]; [by apply (elements_sorted get_key 0 (2 ^ 63))|constructor].
  - intros e. destruct t as [t|]; [by apply (elements_contents get_key 0 (2 ^ 63))|]. cbn. by rewrite lookup_empty, elem_of_nil.
  - destruct (atree_itr_init_spec t memory Hm) as (it & -> & Hp).
    destruct (atree_itr_gets_spec _ (elements_of t) _ it Hp) as (it' & E1 & E2).
    + destruct t as [t|]; [|done]. unfold pending_elements. cbn. by rewrite app_nil_r.
    + by exists it, it'.
  - destruct t as [t|]; [|done]. cbn [cuex_atree_card content AtreeInv.content].
    rewrite (atree_card_spec get_key) by done. by rewrite (size_contents get_key 0 (2 ^ 63)).
  - destruct t as [t|]; [|done]. cbn [cuex_atree_find_index AtreeInv.content elements_of].
    pose proof (find_index_loop_spec get_key t 0 (2 ^ 63) 0 k Hw ltac:(lia) ltac:(lia) word_0) as H.
    destruct (contents get_key t !! k) as [e|]; [|exact H]. destruct H as (i & Ei & ->). exists i. split; [done|].
    pose proof (length_elements get_key _ _ t Hw). pose proof (lookup_lt_Some _ _ _ Ei).
    rewrite wrap_small; [lia|]. unfold word. lia.
Qed.

(** The traversals call the function on the elements in their order; images are the images of the maps. *)
Theorem atree_images_correct t f (get_key' : ex -> Z) : wf t ->
  (forall T (g : ex -> clop T bool) s, cuex_atree_conj t g s = cconj g (elements_of t) s) /\
  (forall T (g : ex -> clop T unit) s, cuex_atree_iter t g s = citer g (elements_of t) s) /\
  (Forall (fun e => is_key (get_key' (f e))) (elements_of t) ->
    AtreeInv.wf get_key' (cuex_atree_image t f get_key') /\
    AtreeInv.content get_key' (cuex_atree_image t f get_key') = keyed get_key' (map f (elements_of t))) /\
  ((forall e, e ∈ elements_of t -> get_key (f e) = get_key e) ->
    wf (cuex_atree_isokey_image t f) /\ content (cuex_atree_isokey_image t f) = f <$> content t).
Proof.
  intros Hw. destruct t as [t|]; split_and!; try done.
  - intros T g s. apply atree_conj_spec.
  - intros T g s. apply atree_iter_spec.
  - intros Hk. apply (atree_image_spec get_key' f t None []); done.
  - intros Hf. by apply atree_isokey_image_spec.
Qed.
End interface.

Module Samples.
Definition key (e : ex) : Z := match e with Obj _ i => i | _ => 0 end.
Definition elt (i : Z) : ex := Obj 0 i.
Definition tree (l : list Z) : option atree := fold_left (fun t i => cuex_atree_insert key t (elt i)) l None.

Fixpoint within_b (get_key : ex -> Z) (lo hi : Z) (t : atree) : bool :=
  match t with
  | Leaf e => (lo <=? get_key e) && (get_key e <? hi)
  | Node c l r => (0 <=? c) && (c <? 2 ^ 64) && negb (c =? 0) && (lo <=? c - lb c) && (c + lb c <=? hi) &&
      within_b get_key (c - lb c) c l && within_b get_key c (c + lb c) r
  end.
Lemma within_b_spec get_key t : forall lo hi, within_b get_key lo hi t = true -> within get_key lo hi t.
Proof.
  induction t as [e|c l IHl r IHr]; intros lo hi H; cbn [within_b within] in *.
  - apply andb_true_iff in H as [H1 H2]. lia.
  - repeat (apply andb_true_iff in H as [H ?]). apply negb_true_iff, Z.eqb_neq in H4. unfold word.
    split_and!; [lia|lia|done|lia|lia|by apply IHl|by apply IHr].
Qed.

Lemma wf_check get_key t : match t with Some t => within_b get_key 0 (2 ^ 63) t | None => true end = true -> wf get_key t.
Proof. destruct t as [t|]; [|done]. apply within_b_spec. Qed.
Lemma wf_tree l : match tree l with Some t => within_b key 0 (2 ^ 63) t | None => true end = true -> wf key (tree l).
Proof. apply wf_check. Qed.

Lemma even_check get_key t : wf get_key t -> forallb (fun e => Z.even (get_key e)) (elements_of t) = true ->
  even_keys (content get_key t).
Proof.
  intros Hw He x [e Ex]. rewrite forallb_forall in He. destruct t as [t|]; [|done].
  pose proof (contents_bounds get_key _ _ _ _ _ Hw Ex) as [_ <-]. apply He, list_elem_of_In.
  apply (elements_contents get_key 0 (2 ^ 63)); [done|exact Ex].
Qed.

Definition merge_pair (e0 e1 : ex) : option ex := Some (Obj 7 (key e0)).
Lemma keeps_pair : keeps_key key merge_pair.
Proof. by intros e0 e1 e _ [= <-]. Qed.

Lemma atree_refines_finite_map_witness :
  cuex_atree_find key (tree [6; 2; 100]) 2 = Some (elt 2) /\
  content key (cuex_atree_erase key (tree [6; 2; 100]) 6) = delete 6 (content key (tree [6; 2; 100])).
Proof.
  destruct (atree_refines_finite_map key (tree [6; 2; 100]) (elt 6) 2 merge_pair) as (H1 & _);
    [apply wf_tree; vm_compute; reflexivity|unfold is_key; cbn; lia|apply keeps_pair|].
  destruct (atree_refines_finite_map key (tree [6; 2; 100]) (elt 6) 6 merge_pair) as (_ & _ & _ & _ & [_ H2] & _);
    [apply wf_tree; vm_compute; reflexivity|unfold is_key; cbn; lia|apply keeps_pair|].
  split; [|exact H2]. rewrite H1. vm_compute. reflexivity.
Defined.

Lemma atree_algebra_correct_witness :
  content key (cuex_atree_deep_isecn key merge_pair (tree [6; 2; 100]) (tree [2; 6; 8])) =
    intersection_with merge_pair (content key (tree [6; 2; 100])) (content key (tree [2; 6; 8])) /\
  cuex_atree_deep_isecn key merge_pair (tree [6; 2; 100]) (tree [2; 6; 8]) = Some (Node 4 (Leaf (Obj 7 2)) (Leaf (Obj 7 6))).
Proof.
  destruct (atree_algebra_correct key (tree [6; 2; 100]) (tree [2; 6; 8]) merge_pair) as (_ & _ & _ & _ & _ & _ & [_ H]);
    [apply wf_tree; vm_compute; reflexivity|apply wf_tree; vm_compute; reflexivity|apply keeps_pair|].
  split; [exact H|]. vm_compute. reflexivity.
Defined.

Definition pair_tree (l : list (Z * Z)) : option atree :=
  fold_left (fun t '(i, j) => cuex_atree_insert (get_key_0 key) t (Opn 0 [elt i; elt j])) l None.
Definition leq (k x y : ex) : bool := key x <=? key y.
Definition leq_order (k x y : ex) : cu_order_t :=
  if key x =? key y then cu_order_eq else if key x <? key y then cu_order_lt else cu_order_gt.

Lemma leq_ordered k x y : ordered (leq k x y = true) (leq k y x = true) (leq_order k x y).
Proof. unfold leq, leq_order. destruct (Z.eqb_spec (key x) (key y)), (Z.ltb_spec (key x) (key y)); cbn; lia. Qed.

Lemma atree_order_correct_witness : let m := content (get_key_0 key) (pair_tree [(6, 30); (2, 10)]) in
  let m' := content (get_key_0 key) (pair_tree [(6, 30); (2, 20); (8, 1)]) in
  dom m ⊆ dom m' /\ (forall k e, m !! k = Some e -> exists e', m' !! k = Some e' /\ subseteq_kv_adaptor leq e e' = true).
Proof.
  destruct (atree_order_correct (get_key_0 key) (pair_tree [(6, 30); (2, 10)]) (pair_tree [(6, 30); (2, 20); (8, 1)]) subseteq_true)
    as (H1 & _ & _ & H2); [apply wf_check; vm_compute; reflexivity|apply wf_check; vm_compute; reflexivity| | |done|].
  - apply even_check; [apply wf_check|]; vm_compute; reflexivity.
  - apply even_check; [apply wf_check|]; vm_compute; reflexivity.
  - split; [apply H1; vm_compute; reflexivity|].
    destruct (H2 key leq leq_order eq_refl) as [H3 _]; [|intros k x; apply Z.leb_refl|apply leq_ordered|apply H3; vm_compute; reflexivity].
    assert (elements_of (pair_tree [(6, 30); (2, 10)]) ++ elements_of (pair_tree [(6, 30); (2, 20); (8, 1)]) =
      map (fun '(i, j) => Opn 0 [elt i; elt j]) [(2, 10); (6, 30); (2, 20); (6, 30); (8, 1)]) as -> by (vm_compute; reflexivity).
    split.
    + intros e ([i j] & -> & _)%list_elem_of_fmap. split; eexists; reflexivity.
    + intros e e' ([i j] & -> & _)%list_elem_of_fmap ([i' j'] & -> & _)%list_elem_of_fmap. cbn. by intros ->.
Defined.

Lemma atree_itr_correct_witness : exists it it',
  cuex_atree_itr_init (replicate 4 None) (tree [6; 2; 100]) = Some it /\
  atree_itr_gets 3 it = Some ([Some (elt 2); Some (elt 6); Some (elt 100)], it') /\ cuex_atree_itr_get it' = Some (None, it').
Proof.
  destruct (atree_itr_correct key (tree [6; 2; 100]) (replicate 4 None) 6) as (_ & _ & _ & H & _);
    [apply wf_tree; vm_compute; reflexivity|vm_compute; reflexivity|]. exact H.
Defined.

(** Keys that differ in the highest bit: the centre is 0, and the element on the left is not found. *)
Example high_key_lost : cuex_atree_find key (tree [1; 2 ^ 63]) 1 = None /\ cuex_atree_card (tree [1; 2 ^ 63]) = 2.
Proof. split; vm_compute; reflexivity. Qed.

(** Odd keys: a pair of neighbours at the end of the interval is not found to be included. *)
Example subseteq_odd : cuex_atree_subseteq key (tree [2; 3]) (tree [1; 2; 3]) = false.
Proof. vm_compute. reflexivity. Qed.

(** The adaptor for operands makes the merged operand an element, without the key. *)
Example union_iv_drops_key :
  let pair i j := Opn 0 [elt i; elt j] in let k := get_key_0 key in
  cuex_atree_deep_union_iv k 1 (fun x y => Some x) (cuex_atree_insert k None (pair 4 10)) (cuex_atree_insert k None (pair 4 20)) =
  Some (Leaf (elt 10)).
Proof. vm_compute. reflexivity. Qed.

(** The order through operands takes any order for an inclusion: the pair (4, 20) is not below (4, 10) and (6, 30). *)
Example order_iv_wrong :
  let pair i j := Opn 0 [elt i; elt j] in let k := get_key_0 key in
  let leq x y := key x <=? key y in
  let order x y := if key x =? key y then cu_order_eq else if key x <? key y then cu_order_lt else cu_order_gt in
  cuex_atree_deep_order_iv k 1 leq order (cuex_atree_insert k None (pair 4 20))
    (cuex_atree_insert k (cuex_atree_insert k None (pair 4 10)) (pair 6 30)) = cu_order_lt.
Proof. vm_compute. reflexivity. Qed.
End Samples.
