(* ===== verification/Exset.v ===== *)
(** * Sets and semilattices of expressions: [cuex/set.c], [cuex/semilattice.c]

    Hash-consed objects around an associative tree whose keys are addresses of expressions: the
    parameter [address].  A tree of objects that have different addresses stands for the set of them; the
    theorems say that the operations are those on finite sets and free semilattices.  [None] is the
    error of [cu_bugf]. *)

From S2P Require Export AtreeSpec.

(** ** Sets: [cuex/set.h], [cuex/set.c] *)

Record cuex_set := mk_set { set_atree : option atree }.

Section set.
Context (address : ex -> Z) `{HC : !HcType cuex_set}.
Implicit Types (S e : ex).

Definition set_key e : Z := address e.

Definition set_new (atree : option atree) : ex := hctem_new (mk_set atree).

Definition cuex_is_set e : bool := cuex_meta e =? type_to_meta cuex_set.
Definition cuex_empty_set : ex := set_new cuex_atree_empty.
Definition cuex_is_empty_set S : bool := bool_decide (S = cuex_empty_set).

(** The tree of an object that has passed the test for being a set. *)
Definition SET S : option (option atree) := if cuex_is_set S then set_atree <$> hctem_fields S else None.

Definition cuex_singleton_set e : ex := set_new (cuex_atree_singleton e).
Definition cuex_set_insert S e : option ex := t ← SET S; Some (set_new (cuex_atree_insert set_key t e)).
Definition cuex_set_erase S e : option ex := t ← SET S; Some (set_new (cuex_atree_erase set_key t (address e))).
Definition cuex_set_union S0 S1 : option ex :=
  t0 ← SET S0; t1 ← SET S1; Some (set_new (cuex_atree_left_union set_key t0 t1)).
Definition cuex_set_isecn S0 S1 : option ex :=
  t0 ← SET S0; t1 ← SET S1; Some (set_new (cuex_atree_left_isecn set_key t0 t1)).
Definition cuex_set_contains S e : option bool :=
  t ← SET S; Some (match cuex_atree_find set_key t (address e) with Some _ => true | None => false end).
Definition cuex_set_subeq S0 S1 : option bool := t0 ← SET S0; t1 ← SET S1; Some (cuex_atree_subseteq set_key t0 t1).
Definition cuex_set_order S0 S1 : option cu_order_t := t0 ← SET S0; t1 ← SET S1; Some (cuex_atree_order set_key t0 t1).

(** An iterator in a block of the size for [sized]. *)
Definition itr_in_block (sized t : option atree) : option atree_itr :=
  cuex_atree_itr_init (replicate (atree_itr_entries sized) None) t.
Definition set_comm_iter_source S : option atree_itr := s ← hctem_fields S; itr_in_block (set_atree s) (set_atree s).
Definition cuex_set_iter_source S : option atree_itr := if cuex_is_set S then set_comm_iter_source S else None.

(** Builders: a new set, or a set to which elements are added. *)
Definition set_comm_build_sinktor : option atree := cuex_atree_empty.
Definition set_comm_union_sinktor S : option (option atree) := set_atree <$> hctem_fields S.
Definition set_comm_build_sinktor_put (new_atree : option atree) e : option atree := cuex_atree_insert set_key new_atree e.
Definition set_comm_build_sinktor_finish (new_atree : option atree) : ex := set_new new_atree.

(** The iteration of [_set_print]: the block has the size for the set object, which is no tree node. *)
Definition set_print_itr S : option atree_itr := s ← hctem_fields S; itr_in_block (Some (Leaf S)) (set_atree s).
End set.

(** ** Semilattices: [cuex/semilattice.h], [cuex/semilattice.c] *)

Record cuex_semilattice := mk_semilattice { sl_meet : Z; sl_atree : option atree }.

Section semilattice.
Context (address : ex -> Z) `{HC : !HcType cuex_semilattice}.
Implicit Types (meet : Z) (x : ex).

Definition semilattice_key x : Z := address x.

(** The tree of an object of the semilattice of [meet] that is not atomic. *)
Definition SL meet x : option (option atree) :=
  if cuex_meta x =? type_to_meta cuex_semilattice
  then s ← hctem_fields x; if sl_meet s =? meet then Some (sl_atree s) else None
  else None.

(** A tree with one element is the element. *)
Definition sl_new meet (atree : option atree) : ex :=
  match atree with
  | Some (Leaf e) => e
  | _ => hctem_new (mk_semilattice meet atree)
  end.

Definition cuex_meetlattice_top meet : ex := hctem_new (mk_semilattice meet cuex_atree_empty).

Definition cuex_meetlattice_meet meet x0 x1 : ex :=
  if decide (x0 = x1) then x0
  else match SL meet x0, SL meet x1 with
  | Some t0, Some t1 => sl_new meet (cuex_atree_left_union semilattice_key t0 t1)
  | Some t0, None => sl_new meet (cuex_atree_insert semilattice_key t0 x1)
  | None, Some t1 => sl_new meet (cuex_atree_insert semilattice_key t1 x0)
  | None, None => sl_new meet (cuex_atree_insert semilattice_key (Some (Leaf x0)) x1)
  end.

Definition sl_find (t : option atree) x : option ex := cuex_atree_find semilattice_key t (address x).

Definition cuex_meetlattice_semijoin meet x0 x1 : ex :=
  if decide (x0 = x1) then x0
  else match SL meet x0, SL meet x1 with
  | Some t0, Some t1 => sl_new meet (cuex_atree_left_isecn semilattice_key t0 t1)
  | Some t0, None => sl_new meet (Leaf <$> sl_find t0 x1)
  | None, Some t1 => sl_new meet (Leaf <$> sl_find t1 x0)
  | None, None => sl_new meet cuex_atree_empty
  end.

Definition cuex_meetlattice_order meet x0 x1 : cu_order_t :=
  if decide (x0 = x1) then cu_order_eq
  else match SL meet x0, SL meet x1 with
  | Some t0, Some t1 => cuex_atree_order semilattice_key t1 t0
  | Some t0, None => match sl_find t0 x1 with Some _ => cu_order_lt | None => cu_order_none end
  | None, Some t1 => match sl_find t1 x0 with Some _ => cu_order_gt | None => cu_order_none end
  | None, None => cu_order_none
  end.

Definition cuex_meetlattice_leq meet x0 x1 : bool :=
  if decide (x0 = x1) then true
  else match SL meet x0, SL meet x1 with
  | Some t0, Some t1 => cuex_atree_subseteq semilattice_key t1 t0
  | Some t0, None => match sl_find t0 x1 with Some _ => true | None => false end
  | None, Some t1 => cuex_atree_is_empty t1
  | None, None => false
  end.
End semilattice.

(** ** Trees of objects with different addresses *)

(** What is used of addresses: those of the objects in question are different, even, and below [2^63]. *)
Class Addresses (address : ex -> Z) (live : ex -> Prop) : Prop := {
  live_key e : live e -> is_key (address e);
  live_even e : live e -> Z.even (address e) = true;
  live_inj e e' : live e -> live e' -> address e = address e' -> e = e';
}.

(** The tree of a set: one tree for each set. *)
Record tree_of_set (address : ex -> Z) (live : ex -> Prop) (t : option atree) (X : gset ex) : Prop := {
  ts_wf : wf address t;
  ts_live e : e ∈ X -> live e;
  ts_content k e : content address t !! k = Some e <-> e ∈ X /\ address e = k;
}.

Lemma sorted_nodup (key : ex -> Z) l : sorted_keys key l -> NoDup l.
Proof.
  unfold sorted_keys. induction 1 as [|e l _ IH Hl]; [constructor|]. constructor; [|done].
  intros He. rewrite list.Forall_forall in Hl. specialize (Hl e He). lia.
Qed.

Section set_trees.
Context (address : ex -> Z) (live : ex -> Prop) `{AD : !Addresses address live}.
Implicit Types (t : option atree) (X Y : gset ex) (e : ex).
Notation tree_of_set := (tree_of_set address live).
Notation content := (content address).

Lemma ts_lookup t X e : tree_of_set t X -> live e -> content t !! address e = if decide (e ∈ X) then Some e else None.
Proof.
  intros Ht He. destruct (decide (e ∈ X)) as [Hx|Hx]; [by apply (ts_content _ _ _ _ Ht)|].
  destruct (content t !! address e) as [e'|] eqn:E; [|done]. apply (ts_content _ _ _ _ Ht) in E as [H1 H2].
  apply live_inj in H2; [by subst|by apply (ts_live _ _ _ _ Ht)|done].
Qed.

Lemma ts_unique t t' X Y : tree_of_set t X -> tree_of_set t' Y -> t = t' <-> X = Y.
Proof.
  intros Ht Ht'. split.
  - intros ->. apply set_eq. intros e. pose proof (ts_content _ _ _ _ Ht (address e) e) as H1.
    pose proof (ts_content _ _ _ _ Ht' (address e) e) as H2. tauto.
  - intros ->. apply (content_inj address); [apply Ht|apply Ht'|]. apply map_eq. intros k. apply option_eq. intros e.
    by rewrite (ts_content _ _ _ _ Ht), (ts_content _ _ _ _ Ht').
Qed.

(** A tree is one of a set if it is well-formed and has its contents. *)
Lemma ts_intro t X : wf address t -> (forall e, e ∈ X -> live e) ->
  (forall k e, content t !! k = Some e <-> e ∈ X /\ address e = k) -> tree_of_set t X.
Proof. by split. Qed.

Lemma ts_empty : tree_of_set None ∅.
Proof. split; [done|set_solver|]. intros k e. cbn. rewrite lookup_empty. set_solver. Qed.

Lemma ts_singleton e : live e -> tree_of_set (Some (Leaf e)) {[e]}.
Proof.
  intros He. split; [by apply live_key|set_solver|]. intros k e'. cbn. rewrite lookup_singleton_Some. set_solver.
Qed.

Lemma ts_insert t X e : tree_of_set t X -> live e -> tree_of_set (cuex_atree_insert address t e) ({[e]} ∪ X).
Proof.
  intros Ht He. destruct (content_insert_spec address t e (ts_wf _ _ _ _ Ht) (live_key e He)) as [Hw E].
  split; [done|pose proof (ts_live _ _ _ _ Ht); set_solver|]. intros k e'. rewrite E, (ts_lookup t X e Ht He).
  pose proof (ts_content _ _ _ _ Ht k e') as Hc. destruct (decide (address e = k)) as [<-|Hne].
  - rewrite lookup_insert_eq. rewrite (ts_lookup t X e Ht He) in Hc. destruct (decide (e ∈ X)); cbn; set_solver.
  - rewrite lookup_insert_ne by done. rewrite Hc. set_solver.
Qed.

Lemma ts_erase t X e : tree_of_set t X -> live e -> tree_of_set (cuex_atree_erase address t (address e)) (X ∖ {[e]}).
Proof.
  intros Ht He. destruct (cuex_atree_erase_spec address t (address e) (ts_wf _ _ _ _ Ht)) as (_ & _ & Hw & E).
  split; [done|pose proof (ts_live _ _ _ _ Ht); set_solver|]. intros k e'. rewrite E, lookup_delete_Some, (ts_content _ _ _ _ Ht).
  split; [set_solver|]. intros [[Hx Hn]%elem_of_difference <-]. split; [|done]. intros Ea. apply Hn, elem_of_singleton.
  symmetry. apply live_inj; [done|by apply (ts_live _ _ _ _ Ht)|done].
Qed.

(** The same object at the same address of two trees. *)
Lemma ts_same t t' X Y k e e' : tree_of_set t X -> tree_of_set t' Y ->
  content t !! k = Some e -> content t' !! k = Some e' -> e = e'.
Proof.
  intros Ht Ht' E E'. apply (ts_content _ _ _ _ Ht) in E as [H1 <-]. apply (ts_content _ _ _ _ Ht') in E' as [H2 H3].
  apply live_inj; [by apply (ts_live _ _ _ _ Ht)|by apply (ts_live _ _ _ _ Ht')|done].
Qed.

Lemma ts_union t t' X Y : tree_of_set t X -> tree_of_set t' Y -> tree_of_set (cuex_atree_left_union address t t') (X ∪ Y).
Proof.
  intros Ht Ht'. destruct (left_union_spec address t t' (ts_wf _ _ _ _ Ht) (ts_wf _ _ _ _ Ht')) as [Hw E].
  split; [done|pose proof (ts_live _ _ _ _ Ht); pose proof (ts_live _ _ _ _ Ht'); set_solver|]. intros k e.
  rewrite E, lookup_union_Some_raw, elem_of_union. pose proof (ts_content _ _ _ _ Ht k e) as H1. pose proof (ts_content _ _ _ _ Ht' k e) as H2.
  rewrite H1, H2. split; [tauto|]. intros [[Hx|Hy] Hk]; [tauto|]. destruct (content t !! k) as [e'|] eqn:E1; [|tauto].
  left. assert (e' = e) as -> by (apply (ts_same t t' X Y k); tauto). tauto.
Qed.

Lemma ts_isecn t t' X Y : tree_of_set t X -> tree_of_set t' Y -> tree_of_set (cuex_atree_left_isecn address t t') (X ∩ Y).
Proof.
  intros Ht Ht'. destruct (left_isecn_spec address t t' (ts_wf _ _ _ _ Ht) (ts_wf _ _ _ _ Ht')) as [Hw E].
  split; [done|pose proof (ts_live _ _ _ _ Ht); set_solver|]. intros k e.
  rewrite E, lookup_intersection_Some, elem_of_intersection. pose proof (ts_content _ _ _ _ Ht k e) as H1. pose proof (ts_content _ _ _ _ Ht' k e) as H2.
  split; [|intros [[Hx Hy] Hk]; split; [tauto|exists e; tauto]]. intros [Ha [e' Hb]].
  assert (e = e') as <- by (by apply (ts_same t t' X Y k)). tauto.
Qed.

Lemma ts_find t X e : tree_of_set t X -> live e -> cuex_atree_find address t (address e) = if decide (e ∈ X) then Some e else None.
Proof.
  intros Ht He. rewrite <- (ts_lookup t X e Ht He). pose proof (ts_wf _ _ _ _ Ht) as Hw.
  destruct t as [t|]; [by apply (atree_find_spec address 0 (2 ^ 63))|done].
Qed.

Lemma ts_even t X : tree_of_set t X -> even_keys (content t).
Proof. intros Ht k [e [Hx <-]%(ts_content _ _ _ _ Ht)]. by apply live_even, (ts_live _ _ _ _ Ht). Qed.

Lemma ts_subs t t' X Y : tree_of_set t X -> tree_of_set t' Y -> subs subseteq_true (content t) (content t') <-> X ⊆ Y.
Proof.
  intros Ht Ht'. split.
  - intros H e He. destruct (H (address e) e) as (b & Eb & _); [by apply (ts_content _ _ _ _ Ht)|].
    assert (e = b) as -> by (apply (ts_same t t' X Y (address e)); [done|done|by apply (ts_content _ _ _ _ Ht)|done]).
    by apply (ts_content _ _ _ _ Ht') in Eb as [? _].
  - intros H k e [Hx Hk]%(ts_content _ _ _ _ Ht). exists e. split; [|done]. apply (ts_content _ _ _ _ Ht'). set_solver.
Qed.

Lemma ts_subseteq t t' X Y : tree_of_set t X -> tree_of_set t' Y -> cuex_atree_subseteq address t t' = bool_decide (X ⊆ Y).
Proof.
  intros Ht Ht'. apply eq_true_iff_eq. rewrite bool_decide_eq_true, <- (ts_subs t t' X Y Ht Ht').
  apply deep_subseteq_spec; [done|apply Ht|apply Ht'|by apply (ts_even t X)].
Qed.

Lemma ts_order t t' X Y : tree_of_set t X -> tree_of_set t' Y -> ordered (X ⊆ Y) (Y ⊆ X) (cuex_atree_order address t t').
Proof.
  intros Ht Ht'. apply (ordered_iff _ _ _ _ _ (ts_subs t t' X Y Ht Ht') (ts_subs t' t Y X Ht' Ht)).
  apply (root_order_spec address subseteq_true order_eq); [done|done|apply Ht|apply Ht'|by apply (ts_even t X)|by apply (ts_even t' Y)].
Qed.

Lemma ts_leaf e X : tree_of_set (Some (Leaf e)) X -> X = {[e]} /\ live e.
Proof.
  intros Ht. assert (e ∈ X) as He by (apply (ts_content _ _ _ _ Ht (address e)); cbn; by rewrite lookup_singleton_eq).
  pose proof (ts_live _ _ _ _ Ht e He) as Hl. split; [|done]. by apply (ts_unique _ _ _ _ Ht (ts_singleton e Hl)).
Qed.

Lemma ts_fold l : forall t X, tree_of_set t X -> Forall live l ->
  tree_of_set (fold_left (cuex_atree_insert address) l t) (X ∪ list_to_set l).
Proof.
  induction l as [|e l IH]; intros t X Ht Hl; cbn [fold_left list_to_set].
  - by rewrite union_empty_r_L.
  - apply list.Forall_cons in Hl as [He Hl]. replace (X ∪ ({[e]} ∪ list_to_set l)) with (({[e]} ∪ X) ∪ list_to_set l) by set_solver.
    apply IH; [by apply ts_insert|done].
Qed.

Lemma ts_iter t X : tree_of_set t X -> exists es it it', NoDup es /\ list_to_set es = X /\ itr_in_block t t = Some it /\
  atree_itr_gets (length es) it = Some (map Some es, it') /\ cuex_atree_itr_get it' = Some (None, it').
Proof.
  intros Ht. exists (elements_of t). destruct (atree_itr_init_spec t (replicate (atree_itr_entries t) None)) as (it & Ei & Hp);
    [by rewrite length_replicate|]. destruct (atree_itr_gets_spec _ (elements_of t) _ it Hp) as (it' & E1 & E2).
  { destruct t as [t|]; [|done]. unfold pending_elements. cbn. by rewrite app_nil_r. }
  exists it, it'. pose proof (ts_wf _ _ _ _ Ht) as Hw. split_and!; try done.
  - destruct t as [t|]; [|constructor]. apply (sorted_nodup address), (elements_sorted address 0 (2 ^ 63)), Hw.
  - apply set_eq. intros e. rewrite elem_of_list_to_set. pose proof (ts_content _ _ _ _ Ht (address e) e) as Hc.
    destruct t as [t|]; cbn [elements_of AtreeInv.content] in *.
    + rewrite (elements_contents address 0 (2 ^ 63)), Hc by done. tauto.
    + rewrite lookup_empty in Hc. rewrite elem_of_nil. split; [done|]. intros Hx. discriminate (proj2 Hc (conj Hx eq_refl)).
Qed.
End set_trees.

(** ** Sets *)

Section set_spec.
Context (address : ex -> Z) (live : ex -> Prop) `{AD : !Addresses address live, HC : !HcType cuex_set, HL : !HcTypeLaws cuex_set}.
Implicit Types (S T e : ex) (X Y : gset ex).

(** The object of a set. *)
Definition is_set_of S X : Prop := exists t, S = set_new t /\ tree_of_set address live t X.

Lemma SET_new t : SET (set_new t) = Some t.
Proof. unfold SET, cuex_is_set, set_new. by rewrite hctem_meta, Z.eqb_refl, hctem_fields_new. Qed.

Lemma set_new_inj t t' : set_new t = set_new t' <-> t = t'.
Proof. unfold set_new. split; [|by intros ->]. intros E. apply (inj hctem_new) in E. by injection E. Qed.

(** C10: the operations on set objects are those on finite sets of expressions: insertion, removal, union,
    intersection, membership, inclusion and order; the object is determined by the set, so that equal
    sets are the same expression; and a builder collects the elements that are put into it. *)
Theorem cuex_set_is_finite_set S T X Y e l : is_set_of S X -> is_set_of T Y -> live e -> Forall live l ->
  is_set_of cuex_empty_set ∅ /\ is_set_of (cuex_singleton_set e) {[e]} /\
  (exists S', cuex_set_insert address S e = Some S' /\ is_set_of S' ({[e]} ∪ X)) /\
  (exists S', cuex_set_erase address S e = Some S' /\ is_set_of S' (X ∖ {[e]})) /\
  (exists S', cuex_set_union address S T = Some S' /\ is_set_of S' (X ∪ Y)) /\
  (exists S', cuex_set_isecn address S T = Some S' /\ is_set_of S' (X ∩ Y)) /\
  cuex_set_contains address S e = Some (bool_decide (e ∈ X)) /\
  cuex_set_subeq address S T = Some (bool_decide (X ⊆ Y)) /\
  (exists o, cuex_set_order address S T = Some o /\ ordered (X ⊆ Y) (Y ⊆ X) o) /\
  (S = T <-> X = Y) /\
  is_set_of (set_comm_build_sinktor_finish (fold_left (set_comm_build_sinktor_put address) l set_comm_build_sinktor)) (list_to_set l).
Proof.
  intros (t & -> & Ht) (t' & -> & Ht') He Hl. unfold cuex_set_insert, cuex_set_erase, cuex_set_union, cuex_set_isecn,
    cuex_set_contains, cuex_set_subeq, cuex_set_order. rewrite !SET_new. cbn [mbind option_bind]. split_and!.
  - exists None. split; [done|apply (ts_empty address live)].
  - eexists. split; [reflexivity|]. by apply (ts_singleton address live).
  - eexists. split; [reflexivity|]. eexists. split; [reflexivity|]. by apply (ts_insert address live).
  - eexists. split; [reflexivity|]. eexists. split; [reflexivity|]. by apply (ts_erase address live).
  - eexists. split; [reflexivity|]. eexists. split; [reflexivity|]. by apply (ts_union address live).
  - eexists. split; [reflexivity|]. eexists. split; [reflexivity|]. by apply (ts_isecn address live).
  - change (set_key address) with address. rewrite (ts_find address live t X e Ht He). by destruct (decide (e ∈ X)) as [H|H];
      [rewrite bool_decide_eq_true_2|rewrite bool_decide_eq_false_2].
  - f_equal. by apply (ts_subseteq address live).
  - eexists. split; [reflexivity|]. by apply (ts_order address live).
  - rewrite set_new_inj. by apply (ts_unique address live).
  - eexists. split; [reflexivity|]. rewrite <- (union_empty_l_L (list_to_set l)). apply (ts_fold address live); [apply (ts_empty address live)|done].
Qed.

(** The source of a set returns its elements, each one once, and then [NULL]. *)
Theorem cuex_set_iter_source_correct S X : is_set_of S X ->
  exists es it it', NoDup es /\ list_to_set es = X /\ cuex_set_iter_source S = Some it /\
    atree_itr_gets (length es) it = Some (map Some es, it') /\ cuex_atree_itr_get it' = Some (None, it').
Proof.
  intros (t & -> & Ht). unfold cuex_set_iter_source, set_comm_iter_source, cuex_is_set, set_new.
  rewrite hctem_meta, Z.eqb_refl, hctem_fields_new. cbn [mbind option_bind set_atree]. by apply (ts_iter address live).
Qed.
End set_spec.

(** ** Semilattices *)

Section semilattice_spec.
Context (address : ex -> Z) (live : ex -> Prop) `{AD : !Addresses address live, HC : !HcType cuex_semilattice, HL : !HcTypeLaws cuex_semilattice}.
Implicit Types (meet : Z) (x y z e : ex) (X Y Z : gset ex) (t : option atree).

Definition atomic meet x : Prop := SL meet x = None.

(** The meet of the atomic expressions in [X], in its canonical form. *)
Record is_meet_of meet x X : Prop := {
  im_atomic e : e ∈ X -> atomic meet e;
  im_form : (exists t, SL meet x = Some t /\ x = hctem_new (mk_semilattice meet t) /\ tree_of_set address live t X /\
      cuex_atree_is_singleton t = false) \/
    SL meet x = None /\ X = {[x]} /\ live x;
}.

Lemma SL_new meet t : SL meet (hctem_new (mk_semilattice meet t)) = Some t.
Proof. unfold SL. rewrite hctem_meta, Z.eqb_refl, hctem_fields_new. cbn. by rewrite Z.eqb_refl. Qed.

Lemma sl_new_spec meet t X : tree_of_set address live t X -> (forall e, e ∈ X -> atomic meet e) -> is_meet_of meet (sl_new meet t) X.
Proof.
  intros Ht Ha. split; [done|]. destruct t as [[e|c l r]|].
  - right. destruct (ts_leaf address live e X Ht) as [-> He]. cbn [sl_new]. split_and!; [apply Ha; set_solver|done|done].
  - left. exists (Some (Node c l r)). cbn [sl_new]. rewrite SL_new. done.
  - left. exists None. cbn [sl_new]. rewrite SL_new. done.
Qed.

Lemma meet_unique meet x y X Y : is_meet_of meet x X -> is_meet_of meet y Y -> x = y <-> X = Y.
Proof.
  intros [Ha Hx] [Hb Hy]. destruct Hx as [(t & Sx & Ex & Ht & Nx)|(Sx & -> & Lx)], Hy as [(t' & Sy & Ey & Ht' & Ny)|(Sy & -> & Ly)].
  - split.
    + intros ->. rewrite Sx in Sy. injection Sy as ->. by apply (ts_unique address live t' t' X Y).
    + intros ->. rewrite Ex, Ey. do 2 f_equal. by apply (ts_unique address live t t' Y Y).
  - split; [intros ->; congruence|]. intros ->. exfalso. pose proof (ts_singleton address live y Ly) as Hs.
    pose proof (proj2 (ts_unique _ _ _ _ _ _ Ht Hs) eq_refl) as E. by rewrite E in Nx.
  - split; [intros ->; congruence|]. intros <-. exfalso. pose proof (ts_singleton address live x Lx) as Hs.
    pose proof (proj2 (ts_unique _ _ _ _ _ _ Ht' Hs) eq_refl) as E. by rewrite E in Ny.
  - split; [by intros ->|]. set_solver.
Qed.

Lemma atomic_union meet x y X Y : is_meet_of meet x X -> is_meet_of meet y Y -> forall e, e ∈ X ∪ Y -> atomic meet e.
Proof. intros Hx Hy e [He|He]%elem_of_union; [by apply (im_atomic _ _ _ Hx)|by apply (im_atomic _ _ _ Hy)]. Qed.

Lemma meet_spec meet x y X Y : is_meet_of meet x X -> is_meet_of meet y Y -> is_meet_of meet (cuex_meetlattice_meet address meet x y) (X ∪ Y).
Proof.
  intros Hx Hy. unfold cuex_meetlattice_meet. destruct (decide (x = y)) as [<-|Hne].
  { assert (X = Y) as <- by (by apply (meet_unique meet x x)). by rewrite union_idemp_L. }
  pose proof (atomic_union meet x y X Y Hx Hy) as Ha.
  destruct (im_form _ _ _ Hx) as [(t & -> & _ & Ht & _)|(-> & -> & Lx)], (im_form _ _ _ Hy) as [(t' & -> & _ & Ht' & _)|(-> & -> & Ly)];
    apply sl_new_spec; try done.
  - by apply (ts_union address live).
  - rewrite union_comm_L. by apply (ts_insert address live).
  - by apply (ts_insert address live).
  - rewrite union_comm_L. apply (ts_insert address live); [by apply (ts_singleton address live)|done].
Qed.

Lemma sl_find_spec t X e : tree_of_set address live t X -> live e ->
  sl_find address t e = (if decide (e ∈ X) then Some e else None) /\ tree_of_set address live (Leaf <$> sl_find address t e) (X ∩ {[e]}).
Proof.
  intros Ht He. unfold sl_find. change (semilattice_key address) with address. rewrite (ts_find address live t X e Ht He). split; [done|].
  destruct (decide (e ∈ X)) as [H|H]; cbn [fmap option_fmap option_map].
  - replace (X ∩ {[e]}) with ({[e]} : gset ex) by set_solver. by apply (ts_singleton address live).
  - replace (X ∩ {[e]}) with (∅ : gset ex) by set_solver. apply (ts_empty address live).
Qed.

Lemma semijoin_spec meet x y X Y : is_meet_of meet x X -> is_meet_of meet y Y -> is_meet_of meet (cuex_meetlattice_semijoin address meet x y) (X ∩ Y).
Proof.
  intros Hx Hy. unfold cuex_meetlattice_semijoin. destruct (decide (x = y)) as [<-|Hne].
  { assert (X = Y) as <- by (by apply (meet_unique meet x x)). by rewrite intersection_idemp_L. }
  assert (forall e, e ∈ X ∩ Y -> atomic meet e) as Ha by (intros e [He _]%elem_of_intersection; by apply (im_atomic _ _ _ Hx)).
  destruct (im_form _ _ _ Hx) as [(t & -> & _ & Ht & _)|(-> & -> & Lx)], (im_form _ _ _ Hy) as [(t' & -> & _ & Ht' & _)|(-> & -> & Ly)];
    apply sl_new_spec; try done.
  - by apply (ts_isecn address live).
  - by apply sl_find_spec.
  - rewrite intersection_comm_L. by apply sl_find_spec.
  - replace ({[x]} ∩ {[y]}) with (∅ : gset ex) by set_solver. apply (ts_empty address live).
Qed.

(** The tree of an expression that is not atomic has no or several elements. *)
Lemma composite_size t X e : tree_of_set address live t X -> cuex_atree_is_singleton t = false -> X <> {[e]}.
Proof.
  intros Ht Hn ->. assert (live e) as He by (apply (ts_live _ _ _ _ Ht); set_solver).
  pose proof (proj2 (ts_unique _ _ _ _ _ _ Ht (ts_singleton address live e He)) eq_refl) as E. by rewrite E in Hn.
Qed.

Lemma not_below_atomic (t : atree) X e : tree_of_set address live (Some t) X -> cuex_atree_is_singleton (Some t) = false -> ~ X ⊆ {[e]}.
Proof.
  intros Ht Hn Hs. destruct (decide (e ∈ X)) as [He|He].
  - apply (composite_size (Some t) X e Ht Hn). set_solver.
  - assert (X = ∅) as -> by set_solver. pose proof (proj2 (ts_unique _ _ _ _ _ _ Ht (ts_empty address live)) eq_refl). done.
Qed.

Lemma leq_spec meet x y X Y : is_meet_of meet x X -> is_meet_of meet y Y -> cuex_meetlattice_leq address meet x y = bool_decide (Y ⊆ X).
Proof.
  intros Hx Hy. unfold cuex_meetlattice_leq. destruct (decide (x = y)) as [<-|Hne].
  { assert (X = Y) as <- by (by apply (meet_unique meet x x)). by rewrite bool_decide_eq_true_2. }
  destruct (im_form _ _ _ Hx) as [(t & -> & _ & Ht & _)|(-> & -> & Lx)], (im_form _ _ _ Hy) as [(t' & -> & _ & Ht' & Hn)|(-> & -> & Ly)].
  - by apply (ts_subseteq address live).
  - rewrite (proj1 (sl_find_spec t X y Ht Ly)). destruct (decide (y ∈ X)).
    + rewrite bool_decide_eq_true_2; [done|set_solver].
    + rewrite bool_decide_eq_false_2; [done|set_solver].
  - destruct t' as [t'|]; cbn [cuex_atree_is_empty].
    + rewrite bool_decide_eq_false_2; [done|]. by apply (not_below_atomic t' Y x).
    + rewrite (proj1 (ts_unique _ _ _ _ _ _ Ht' (ts_empty address live)) eq_refl). rewrite bool_decide_eq_true_2; [done|set_solver].
  - rewrite bool_decide_eq_false_2; [done|]. set_solver.
Qed.

(** Except between the top element and an atomic one. *)
Lemma order_spec meet x y X Y : is_meet_of meet x X -> is_meet_of meet y Y ->
  ~ (X = ∅ /\ atomic meet y) -> ~ (Y = ∅ /\ atomic meet x) ->
  ordered (Y ⊆ X) (X ⊆ Y) (cuex_meetlattice_order address meet x y).
Proof.
  intros Hx Hy H1 H2. unfold cuex_meetlattice_order. destruct (decide (x = y)) as [<-|Hne].
  { assert (X = Y) as <- by (by apply (meet_unique meet x x)). done. }
  unfold atomic in H1, H2.
  destruct (im_form _ _ _ Hx) as [(t & E & _ & Ht & Hn)|(E & -> & Lx)], (im_form _ _ _ Hy) as [(t' & E' & _ & Ht' & Hn')|(E' & -> & Ly)]; rewrite E, E'.
  - by apply (ts_order address live).
  - assert (t <> None) as Ht0. { intros ->. apply H1. split; [|done]. apply (ts_unique _ _ _ _ _ _ Ht (ts_empty address live)). done. }
    destruct t as [t|]; [|done]. rewrite (proj1 (sl_find_spec _ X y Ht Ly)). pose proof (not_below_atomic t X y Ht Hn) as Hb.
    destruct (decide (y ∈ X)); cbn; (split; [set_solver|done]).
  - assert (t' <> None) as Ht0. { intros ->. apply H2. split; [|done]. apply (ts_unique _ _ _ _ _ _ Ht' (ts_empty address live)). done. }
    destruct t' as [t'|]; [|done]. rewrite (proj1 (sl_find_spec _ Y x Ht' Lx)). pose proof (not_below_atomic t' Y x Ht' Hn') as Hb.
    destruct (decide (x ∈ Y)); cbn; (split; [done|set_solver]).
  - cbn. set_solver.
Qed.

(** C9: the elements of a semilattice are the finite sets of its atomic expressions, each in one form: meet is
    union, semijoin is intersection, the top element is the empty set and leq is the reversed inclusion; so meet
    is associative, commutative and idempotent and has the top element as its identity, as equalities of
    expressions.  The order is that of leq, but not between the top element and an atomic one. *)
Theorem cuex_meetlattice_is_free meet x y z X Y Z :
  is_meet_of meet x X -> is_meet_of meet y Y -> is_meet_of meet z Z ->
  let m := cuex_meetlattice_meet address meet in let top := cuex_meetlattice_top meet in
  is_meet_of meet (m x y) (X ∪ Y) /\ is_meet_of meet top ∅ /\ (x = y <-> X = Y) /\
  is_meet_of meet (cuex_meetlattice_semijoin address meet x y) (X ∩ Y) /\
  cuex_meetlattice_leq address meet x y = bool_decide (Y ⊆ X) /\
  m x (m y z) = m (m x y) z /\ m x y = m y x /\ m x x = x /\ m x top = x /\
  (cuex_meetlattice_leq address meet x y = true <-> m x y = x) /\
  (~ (X = ∅ /\ atomic meet y) -> ~ (Y = ∅ /\ atomic meet x) ->
    ordered (Y ⊆ X) (X ⊆ Y) (cuex_meetlattice_order address meet x y)).
Proof.
  intros Hx Hy Hz m top. assert (is_meet_of meet top ∅) as Ht.
  { split; [set_solver|]. left. exists None. unfold top, cuex_meetlattice_top. rewrite SL_new. split_and!; [done|done|apply (ts_empty address live)|done]. }
  pose proof (meet_spec meet) as Hm. fold m in Hm. split_and!.
  - by apply Hm.
  - done.
  - by apply (meet_unique meet).
  - by apply semijoin_spec.
  - by apply leq_spec.
  - apply (meet_unique meet _ _ (X ∪ (Y ∪ Z)) (X ∪ Y ∪ Z)); [auto..|set_solver].
  - apply (meet_unique meet _ _ (X ∪ Y) (Y ∪ X)); [auto..|set_solver].
  - apply (meet_unique meet _ _ (X ∪ X) X); [auto..|set_solver].
  - apply (meet_unique meet _ _ (X ∪ ∅) X); [auto..|set_solver].
  - rewrite (leq_spec meet x y X Y Hx Hy), bool_decide_eq_true, (meet_unique meet _ _ (X ∪ Y) X); [set_solver|auto..].
  - by apply order_spec.
Qed.
End semilattice_spec.

(** ** Samples

    Objects with even numbers as addresses are live; the address of other objects does not matter. *)

Fixpoint atree_to_ex (t : atree) : ex :=
  match t with Leaf e => Opn 0 [e] | Node c l r => Opn c [atree_to_ex l; atree_to_ex r] end.
Fixpoint atree_of_ex (e : ex) : atree :=
  match e with Opn _ [e] => Leaf e | Opn c [l; r] => Node c (atree_of_ex l) (atree_of_ex r) | _ => Leaf e end.
#[global] Instance atree_countable : Countable atree.
Proof. apply (inj_countable' atree_to_ex atree_of_ex). intros t. induction t; cbn; congruence. Defined.

(** Objects of a type whose address encodes the fields. *)
Definition encoded_new {A} `{Countable A} (meta : Z) (a : A) : ex := Obj meta (Zpos (encode a)).
Definition encoded_fields {A} `{Countable A} (meta : Z) (e : ex) : option A :=
  match e with Obj m (Zpos p) => if m =? meta then decode p else None | _ => None end.
Lemma encoded_fields_new {A} `{Countable A} (meta : Z) (a : A) : encoded_fields meta (encoded_new meta a) = Some a.
Proof. unfold encoded_fields, encoded_new. by rewrite Z.eqb_refl, decode_encode. Qed.

Module SetSamples.
Definition elt (i : Z) : ex := Obj 0 i.
Definition address (e : ex) : Z := match e with Obj 0 i => i | _ => 0 end.
Definition live (e : ex) : Prop := exists i, e = elt i /\ 0 <= i < 2 ^ 63 /\ Z.even i = true.

#[export] Instance addresses : Addresses address live.
Proof.
  split; [intros e (i & -> & Hi & _); exact Hi|intros e (i & -> & _ & Hi); exact Hi|].
  intros e e' (i & -> & _) (i' & -> & _) E. cbn in E. by subst.
Qed.

Lemma live_elt i : 0 <= i < 2 ^ 63 -> Z.even i = true -> live (elt i).
Proof. intros Hi He. by exists i. Qed.
Ltac live_tac := apply live_elt; [lia|reflexivity].

#[export] Instance set_type : HcType cuex_set := {
  type_to_meta := 48;
  hctem_new s := encoded_new 48 (set_atree s);
  hctem_fields e := mk_set <$> encoded_fields 48 e;
}.
#[export] Instance set_type_laws : HcTypeLaws cuex_set.
Proof. split; [done|]. intros [t]. cbn [hctem_fields set_type hctem_new set_atree]. by rewrite encoded_fields_new. Qed.

#[export] Instance semilattice_type : HcType cuex_semilattice := {
  type_to_meta := 64;
  hctem_new s := encoded_new 64 (sl_meet s, sl_atree s);
  hctem_fields e := (fun '(m, t) => mk_semilattice m t) <$> encoded_fields 64 e;
}.
#[export] Instance semilattice_type_laws : HcTypeLaws cuex_semilattice.
Proof. split; [done|]. intros [m t]. cbn [hctem_fields semilattice_type hctem_new sl_meet sl_atree]. by rewrite encoded_fields_new. Qed.

Definition pair (i j : Z) : ex := set_new (cuex_atree_insert address (Some (Leaf (elt i))) (elt j)).
Lemma is_pair i j : live (elt i) -> live (elt j) -> is_set_of address live (pair i j) ({[elt j]} ∪ {[elt i]}).
Proof. intros Hi Hj. eexists. split; [reflexivity|]. apply (ts_insert address live); [by apply (ts_singleton address live)|done]. Qed.

Lemma cuex_set_is_finite_set_witness :
  cuex_set_contains address (pair 2 6) (elt 6) = Some true /\
  exists S', cuex_set_union address (pair 2 6) (pair 6 10) = Some S' /\
    is_set_of address live S' (({[elt 6]} ∪ {[elt 2]}) ∪ ({[elt 10]} ∪ {[elt 6]})).
Proof.
  destruct (cuex_set_is_finite_set address live (pair 2 6) (pair 6 10) ({[elt 6]} ∪ {[elt 2]}) ({[elt 10]} ∪ {[elt 6]}) (elt 6) [])
    as (_ & _ & _ & _ & H1 & _ & H2 & _); [apply is_pair; live_tac|apply is_pair; live_tac|live_tac|constructor|].
  split; [|exact H1]. rewrite H2. by rewrite bool_decide_eq_true_2 by set_solver.
Defined.

Lemma atomic_is_meet meet i : live (elt i) -> is_meet_of address live meet (elt i) {[elt i]}.
Proof. intros Hi. split; [intros e ->%elem_of_singleton; reflexivity|]. right. done. Qed.

Lemma cuex_meetlattice_is_free_witness : let m := cuex_meetlattice_meet address 7 in
  m (elt 2) (m (elt 6) (elt 2)) = m (m (elt 2) (elt 6)) (elt 2) /\ m (elt 2) (elt 6) = m (elt 6) (elt 2).
Proof.
  destruct (cuex_meetlattice_is_free address live 7 (elt 2) (elt 6) (elt 2) {[elt 2]} {[elt 6]} {[elt 2]})
    as (_ & _ & _ & _ & _ & H1 & H2 & _); [apply atomic_is_meet; live_tac..|]. split; [exact H1|exact H2].
Defined.

(** An atomic element is below the top element, but the order says that there is no relation. *)
Example order_of_top : cuex_meetlattice_leq address 7 (elt 2) (cuex_meetlattice_top 7) = true /\
  cuex_meetlattice_order address 7 (elt 2) (cuex_meetlattice_top 7) = cu_order_none.
Proof. split; reflexivity. Qed.

(** The block that [_set_print] allocates is too small for the iterator over a set of three elements. *)
Definition triple : ex := set_new (fold_left (cuex_atree_insert address) [elt 2; elt 6; elt 20] None).
Example set_print_overflow :
  (it ← set_print_itr triple; cuex_atree_itr_get it) = None /\
  exists it, (it ← set_comm_iter_source triple; cuex_atree_itr_get it) = Some (Some (elt 2), it).
Proof. split; [vm_compute; reflexivity|]. eexists. vm_compute. reflexivity. Qed.
End SetSamples.
