(* ===== verification/Labelling.v ===== *)
(** * Labellings of expressions: [cuex/labelling.h], [cuex/labelling.c]

    Hash-consed objects around an associative tree of pairs of a label and a value, whose keys are the
    addresses of the labels; the theorems say that the operations are those on finite maps.
    [None] is the error of [cu_bugf]; where a result may be [NULL], that is the [None] inside. *)

From Stdlib Require Import Sorting.Sorted.
From S2P Require Export Exset.

Record cuex_labelling := mk_labelling { labelling_atree : option atree }.

Section labelling.
(** The operator [CUEX_O2_METAPAIR], of the generated header, is a parameter. *)
Context (address : ex -> Z) (L_O2_LABEL : Z) `{HC : !HcType cuex_labelling}.
Implicit Types (L l e : ex).

Definition l_o2_label l e : ex := Opn L_O2_LABEL [l; e].
Definition get_key (e : ex) : Z := get_key_0 address e.

Definition labelling (atree : option atree) : ex := hctem_new (mk_labelling atree).

Definition cuex_is_labelling e : bool := cuex_meta e =? type_to_meta cuex_labelling.
Definition cuex_labelling_empty : ex := labelling None.
Definition cuex_is_labelling_empty e : bool := bool_decide (e = cuex_labelling_empty).

Definition LABELLING L : option (option atree) := if cuex_is_labelling L then labelling_atree <$> hctem_fields L else None.

Definition cuex_labelling_singleton l e : ex := labelling (Some (Leaf (l_o2_label l e))).
Definition cuex_labelling_insert L l e : option ex :=
  t ← LABELLING L; Some (labelling (cuex_atree_insert get_key t (l_o2_label l e))).
(** The argument list up to [NULL]. *)
Fixpoint cuex_labelling_insert_valist L (va : list (ex * ex)) : option ex :=
  match va with
  | [] => Some L
  | (l, v) :: va => L ← cuex_labelling_insert L l v; cuex_labelling_insert_valist L va
  end.
Definition cuex_labelling_insert_arglist L (va : list (ex * ex)) : option ex := cuex_labelling_insert_valist L va.
Definition cuex_labelling_by_arglist l e (va : list (ex * ex)) : option ex :=
  cuex_labelling_insert_valist (cuex_labelling_singleton l e) va.

Definition cuex_labelling_find L l : option (option ex) :=
  t ← LABELLING L;
  match cuex_atree_find get_key t (address l) with
  | Some e => v ← cuex_opn_at e 1; Some (Some v)
  | None => Some None
  end.
Definition cuex_labelling_find_index L l : option Z := t ← LABELLING L; Some (cuex_atree_find_index get_key t (address l)).
Definition cuex_labelling_card L : option Z := t ← LABELLING L; Some (cuex_atree_card t).
Definition cuex_labelling_erase L l : option ex := t ← LABELLING L; Some (labelling (cuex_atree_erase get_key t (address l))).
(** The value and the new labelling. *)
Definition cuex_labelling_find_erase L l : option (option ex * ex) :=
  t ← LABELLING L;
  let (node, tree) := cuex_atree_find_erase get_key t (address l) in
  match node with
  | Some node => v ← cuex_opn_at node 1; Some (Some v, labelling tree)
  | None => Some (None, L)
  end.
Definition cuex_labelling_left_union L0 L1 : option ex :=
  t0 ← LABELLING L0; t1 ← LABELLING L1; Some (labelling (cuex_atree_left_union get_key t0 t1)).
Definition cuex_labelling_disjoint_union L0 L1 : option (option ex) :=
  t0 ← LABELLING L0; t1 ← LABELLING L1;
  if cuex_atree_is_empty t0 then Some (Some L1)
  else match cuex_atree_disjoint_union get_key t0 t1 with
  | None => Some None
  | tree => Some (Some (labelling tree))
  end.
Definition cuex_labelling_deep_union (merge : ex -> ex -> option ex) L0 L1 : option ex :=
  t0 ← LABELLING L0; t1 ← LABELLING L1; Some (labelling (cuex_atree_deep_union_iv get_key 1 merge t0 t1)).
Definition cuex_labelling_left_isecn L0 L1 : option ex :=
  t0 ← LABELLING L0; t1 ← LABELLING L1; Some (labelling (cuex_atree_left_isecn get_key t0 t1)).
Definition cuex_labelling_deep_isecn (merge : ex -> ex -> option ex) L0 L1 : option ex :=
  t0 ← LABELLING L0; t1 ← LABELLING L1; Some (labelling (cuex_atree_deep_isecn_iv get_key 1 merge t0 t1)).

Definition cuex_labelling_conj_kv {T} L (f : ex -> ex -> clop T bool) : clop T (option bool) :=
  match LABELLING L with None => cret None | Some t => cuex_atree_conj_kv t f end.
Definition cuex_labelling_image L (f : ex -> ex) : option ex :=
  t ← LABELLING L; t ← cuex_atree_isokey_image_iv t 1 f; Some (labelling t).
Definition cuex_labelling_image_kv L (f : ex -> ex -> ex) : option ex :=
  t ← LABELLING L; t ← cuex_atree_isokey_image_kv t f; Some (labelling t).

(** Sources and builders. *)
Definition labelling_iter_source L : option atree_itr :=
  s ← hctem_fields L; itr_in_block (labelling_atree s) (labelling_atree s).
Definition cuex_labelling_ncomm_iter_source L : option atree_itr := if cuex_is_labelling L then labelling_iter_source L else None.
Definition cuex_labelling_comm_iter_source L : option atree_itr := if cuex_is_labelling L then labelling_iter_source L else None.
Definition labelling_ncomm_iter_source_get (source : atree_itr) : option (option ex * atree_itr) := cuex_atree_itr_get_at_1 source.
Definition labelling_comm_iter_source_get (source : atree_itr) : option (option ex * atree_itr) := cuex_atree_itr_get source.

Record ncomm_image_junctor := mk_junctor { new_atree : option atree; current_label : option ex; atree_iterator : atree_itr }.
Definition ncomm_image_junctor_get (self : ncomm_image_junctor) : option (option ex * ncomm_image_junctor) :=
  '(leaf, it) ← cuex_atree_itr_get (atree_iterator self);
  match leaf with
  | Some leaf =>
      l ← cuex_opn_at leaf 0; v ← cuex_opn_at leaf 1;
      Some (Some v, mk_junctor (new_atree self) (Some l) it)
  | None => Some (None, mk_junctor (new_atree self) (current_label self) it)
  end.
Definition ncomm_image_junctor_put (self : ncomm_image_junctor) (elt : ex) : option ncomm_image_junctor :=
  l ← current_label self;
  Some (mk_junctor (cuex_atree_insert get_key (new_atree self) (l_o2_label l elt)) None (atree_iterator self)).
Definition ncomm_image_junctor_finish (self : ncomm_image_junctor) : ex := labelling (new_atree self).
Definition cuex_labelling_ncomm_image_junctor L : option ncomm_image_junctor :=
  it ← labelling_iter_source L; Some (mk_junctor cuex_atree_empty None it).

Definition cuex_labelling_comm_build_sinktor : option atree := cuex_atree_empty.
Definition cuex_labelling_comm_union_sinktor L : option (option atree) := labelling_atree <$> hctem_fields L.
Definition labelling_comm_build_sinktor_put (self : option atree) (elt : ex) : option (option atree) :=
  if cuex_meta elt =? L_O2_LABEL then Some (cuex_atree_insert get_key self elt)
  else t ← LABELLING elt; Some (cuex_atree_left_union get_key self t).
Definition labelling_comm_build_sinktor_finish (self : option atree) : ex := labelling self.
End labelling.

(** ** Labellings *)

Section labelling_spec.
Context (address : ex -> Z) (live : ex -> Prop) (L_O2_LABEL : Z).
Context `{AD : !Addresses address live, HC : !HcType cuex_labelling, HL : !HcTypeLaws cuex_labelling}.
Implicit Types (L l e : ex) (t : option atree) (M : gmap ex ex).
Notation get_key := (get_key address).
Notation label := (l_o2_label L_O2_LABEL).
Notation content := (content get_key).

(** The tree of a map from labels to values. *)
Record tree_of_map t M : Prop := {
  tm_wf : wf get_key t;
  tm_live l e : M !! l = Some e -> live l;
  tm_content k p : content t !! k = Some p <-> exists l e, M !! l = Some e /\ p = label l e /\ address l = k;
}.

Lemma get_key_label l e : get_key (label l e) = address l.
Proof. done. Qed.

Lemma label_inj l e l' e' : label l e = label l' e' -> l = l' /\ e = e'.
Proof. by intros [= -> ->]. Qed.

Lemma tm_lookup t M l : tree_of_map t M -> live l -> content t !! address l = label l <$> M !! l.
Proof.
  intros Ht Hl. destruct (M !! l) as [e|] eqn:E; cbn.
  - apply (tm_content _ _ Ht). by exists l, e.
  - destruct (content t !! address l) as [p|] eqn:Ep; [|done]. apply (tm_content _ _ Ht) in Ep as (l' & e & El & _ & Ea).
    assert (l' = l) as -> by (apply live_inj; [by apply (tm_live _ _ Ht l' e)|done|done]). congruence.
Qed.

(** The elements under a key, in terms of the labels with this address. *)
Lemma tm_intro t M : wf get_key t -> (forall l e, M !! l = Some e -> live l) ->
  (forall l, live l -> content t !! address l = label l <$> M !! l) ->
  (forall k p, content t !! k = Some p -> exists l, live l /\ address l = k) -> tree_of_map t M.
Proof.
  intros Hw Hl Hc Hk. split; [done|done|]. intros k p. split.
  - intros Ep. destruct (Hk k p Ep) as (l & Hll & <-). rewrite Hc in Ep by done.
    destruct (M !! l) as [e|] eqn:E; [|done]. injection Ep as <-. by exists l, e.
  - intros (l & e & E & -> & <-). rewrite Hc by (by apply (Hl l e)). by rewrite E.
Qed.

Lemma tm_label t M k p : tree_of_map t M -> content t !! k = Some p -> exists l, live l /\ address l = k.
Proof. intros Ht (l & e & El & _ & Ea)%(tm_content _ _ Ht). exists l. split; [by apply (tm_live _ _ Ht l e)|done]. Qed.

Lemma tm_unique t t' M M' : tree_of_map t M -> tree_of_map t' M' -> t = t' <-> M = M'.
Proof.
  intros Ht Ht'. split.
  - intros ->. assert (forall M M' l e, tree_of_map t' M -> tree_of_map t' M' -> M !! l = Some e -> M' !! l = Some e) as H.
    { intros M1 M2 l e H1 H2 E. pose proof (tm_lookup t' M1 l H1 (tm_live _ _ H1 l e E)) as E1.
      rewrite (tm_lookup t' M2 l H2 (tm_live _ _ H1 l e E)), E in E1. destruct (M2 !! l) as [e'|]; [|done].
      injection E1 as ->. done. }
    apply map_eq. intros l. apply option_eq. intros e. split; by apply H.
  - intros ->. apply (content_inj get_key); [apply Ht|apply Ht'|]. apply map_eq. intros k. apply option_eq. intros p.
    by rewrite (tm_content _ _ Ht), (tm_content _ _ Ht').
Qed.

Lemma tm_empty : tree_of_map None ∅.
Proof. apply tm_intro; [done|intros l e; by rewrite lookup_empty|done|done]. Qed.

Lemma tm_insert t M l e : tree_of_map t M -> live l ->
  tree_of_map (cuex_atree_insert get_key t (label l e)) (<[l := default e (M !! l)]> M).
Proof.
  intros Ht Hl. destruct (content_insert_spec get_key t (label l e) (tm_wf _ _ Ht) (live_key l Hl)) as [Hw E].
  rewrite get_key_label, (tm_lookup t M l Ht Hl) in E. apply tm_intro; [done| | |].
  - intros l' e'. rewrite lookup_insert_Some. intros [[-> _]|[_ Hx]]; [done|by apply (tm_live _ _ Ht l' e')].
  - intros l' Hl'. rewrite E. destruct (decide (l = l')) as [<-|Hne].
    + rewrite !lookup_insert_eq. by destruct (M !! l).
    + rewrite !lookup_insert_ne; [by apply tm_lookup|done|]. intros Ea. apply Hne. by apply live_inj.
  - intros k p. rewrite E, lookup_insert_Some. intros [[Ea _]|[_ Hx]]; [by exists l|by apply (tm_label t M k p)].
Qed.

Lemma tm_erase t M l : tree_of_map t M -> live l -> tree_of_map (cuex_atree_erase get_key t (address l)) (delete l M).
Proof.
  intros Ht Hl. destruct (cuex_atree_erase_spec get_key t (address l) (tm_wf _ _ Ht)) as (_ & _ & Hw & E).
  apply tm_intro; [done| | |].
  - intros l' e'. rewrite lookup_delete_Some. intros [_ Hx]. by apply (tm_live _ _ Ht l' e').
  - intros l' Hl'. rewrite E. destruct (decide (l = l')) as [<-|Hne]; [by rewrite !lookup_delete_eq|].
    rewrite !lookup_delete_ne; [by apply tm_lookup|done|]. intros Ea. apply Hne. by apply live_inj.
  - intros k p. rewrite E, lookup_delete_Some. intros [_ Hx]. by apply (tm_label t M k p).
Qed.

Lemma tm_union_live t t' M M' : tree_of_map t M -> tree_of_map t' M' -> forall l e, (M ∪ M') !! l = Some e -> live l.
Proof.
  intros Ht Ht' l e [Hx|[_ Hx]]%lookup_union_Some_raw; [by apply (tm_live _ _ Ht l e)|by apply (tm_live _ _ Ht' l e)].
Qed.

Lemma tm_of_union t t' u M M' : tree_of_map t M -> tree_of_map t' M' -> wf get_key u ->
  content u = content t ∪ content t' -> tree_of_map u (M ∪ M').
Proof.
  intros Ht Ht' Hw E. apply tm_intro; [done|by apply (tm_union_live t t')| |].
  - intros l Hl. rewrite E, !lookup_union, (tm_lookup t M), (tm_lookup t' M') by done. by destruct (M !! l), (M' !! l).
  - intros k p. rewrite E. intros [Hx|[_ Hx]]%lookup_union_Some_raw; [by apply (tm_label t M k p)|by apply (tm_label t' M' k p)].
Qed.

Lemma tm_isecn t t' M M' : tree_of_map t M -> tree_of_map t' M' -> tree_of_map (cuex_atree_left_isecn get_key t t') (M ∩ M').
Proof.
  intros Ht Ht'. destruct (left_isecn_spec get_key t t' (tm_wf _ _ Ht) (tm_wf _ _ Ht')) as [Hw E]. apply tm_intro; [done| | |].
  - intros l e [Hx _]%lookup_intersection_Some. by apply (tm_live _ _ Ht l e).
  - intros l Hl. rewrite E, !lookup_intersection, (tm_lookup t M), (tm_lookup t' M') by done. by destruct (M !! l), (M' !! l).
  - intros k p. rewrite E. intros [Hx _]%lookup_intersection_Some. by apply (tm_label t M k p).
Qed.

Lemma tm_disjoint t t' M M' : tree_of_map t M -> tree_of_map t' M' -> content t ##ₘ content t' <-> M ##ₘ M'.
Proof.
  intros Ht Ht'. rewrite !map_disjoint_spec. split.
  - intros H l e e' E E'. pose proof (tm_live _ _ Ht l e E) as Hl.
    apply (H (address l) (label l e) (label l e')); [by rewrite (tm_lookup t M), E|by rewrite (tm_lookup t' M'), E'].
  - intros H k p p' Ep Ep'. destruct (tm_label t M k p Ht Ep) as (l & Hl & <-).
    rewrite (tm_lookup t M) in Ep by done. rewrite (tm_lookup t' M') in Ep' by done.
    destruct (M !! l) as [e|] eqn:E, (M' !! l) as [e'|] eqn:E'; try done. by apply (H l e e').
Qed.

Lemma tm_find t M l : tree_of_map t M -> live l -> cuex_atree_find get_key t (address l) = label l <$> M !! l.
Proof.
  intros Ht Hl. rewrite <- (tm_lookup t M l Ht Hl). pose proof (tm_wf _ _ Ht) as Hw.
  destruct t as [t|]; [by apply (atree_find_spec get_key 0 (2 ^ 63))|done].
Qed.

Lemma tm_elements t M p : tree_of_map t M -> p ∈ elements_of t -> exists l e, M !! l = Some e /\ p = label l e.
Proof.
  intros Ht Hp. assert (content t !! get_key p = Some p) as E.
  { pose proof (tm_wf _ _ Ht) as Hw. destruct t as [t|]; [by apply (elements_contents get_key 0 (2 ^ 63))|by apply elem_of_nil in Hp]. }
  apply (tm_content _ _ Ht) in E as (l & e & El & -> & _). by exists l, e.
Qed.

Lemma tm_image t M F (f : ex -> ex -> ex) : tree_of_map t M -> (forall l e, F (label l e) = label l (f l e)) ->
  tree_of_map (cuex_atree_isokey_image t F) (map_imap (fun l e => Some (f l e)) M).
Proof.
  intros Ht HF. assert (wf get_key (cuex_atree_isokey_image t F) /\ content (cuex_atree_isokey_image t F) = F <$> content t) as [Hw E].
  { pose proof (tm_wf _ _ Ht) as Hw. pose proof (fun p => tm_elements t M p Ht) as He. destruct t as [t|]; [|done].
    apply atree_isokey_image_spec; [|done]. intros p Hp. destruct (He p Hp) as (l & e & _ & ->). by rewrite HF. }
  apply tm_intro; [done| | |].
  - intros l e. rewrite map_lookup_imap. destruct (M !! l) as [e'|] eqn:El; [|done]. intros _. by apply (tm_live _ _ Ht l e').
  - intros l Hl. rewrite E, lookup_fmap, map_lookup_imap, (tm_lookup t M) by done. destruct (M !! l); cbn; [by rewrite HF|done].
  - intros k p. rewrite E, lookup_fmap. destruct (content t !! k) as [p'|] eqn:Ep; [|done]. intros _. by apply (tm_label t M k p').
Qed.

Lemma tm_image_iv t M f : tree_of_map t M ->
  exists u, cuex_atree_isokey_image_iv t 1 f = Some u /\ tree_of_map u (f <$> M).
Proof.
  intros Ht. exists (cuex_atree_isokey_image t (with_operand 1 f)). split.
  - pose proof (fun p => tm_elements t M p Ht) as He. destruct t as [t|]; [|done]. cbn. rewrite atree_isokey_image_iv_spec; [done|].
    apply list.Forall_forall. intros p Hp. by destruct (He p Hp) as (l & e & _ & ->).
  - replace (f <$> M) with (map_imap (fun _ e => Some (f e)) M); [by apply tm_image|].
    apply map_eq. intros l. rewrite map_lookup_imap, lookup_fmap. by destruct (M !! l).
Qed.

Lemma tm_image_kv t M f : tree_of_map t M ->
  exists u, cuex_atree_isokey_image_kv t f = Some u /\ tree_of_map u (map_imap (fun l e => Some (f l e)) M).
Proof.
  intros Ht. exists (cuex_atree_isokey_image t (with_value f)). split; [|by apply tm_image].
  pose proof (fun p => tm_elements t M p Ht) as He. destruct t as [t|]; [|done]. cbn. rewrite atree_isokey_image_kv_spec; [done|].
  apply list.Forall_forall. intros p Hp. by destruct (He p Hp) as (l & e & _ & ->).
Qed.

Lemma tm_card t M : tree_of_map t M -> cuex_atree_card t = Z.of_nat (size M).
Proof.
  intros Ht. pose proof (tm_wf _ _ Ht) as Hw. assert (cuex_atree_card t = Z.of_nat (size (content t))) as ->.
  { destruct t as [t|]; [|done]. cbn [cuex_atree_card AtreeInv.content]. rewrite (atree_card_spec get_key) by done.
    by rewrite (size_contents get_key 0 (2 ^ 63)). }
  f_equal. set (ps := map (fun le => (address (fst le), label (fst le) (snd le))) (map_to_list M)).
  assert (NoDup (map fst ps)) as Hnd.
  { unfold ps. rewrite map_map. cbn. rewrite <- (map_map fst address). apply NoDup_fmap_2_strong; [|apply NoDup_fst_map_to_list].
    assert (forall l, l ∈ map fst (map_to_list M) -> live l) as Hlv.
    { intros l ([l' e] & -> & Hx)%list_elem_of_fmap. apply elem_of_map_to_list in Hx. by apply (tm_live _ _ Ht l' e). }
    intros l l' Hl Hl'. apply live_inj; by apply Hlv. }
  assert (content t = list_to_map ps) as ->.
  { apply map_eq. intros k. apply option_eq. intros p. rewrite <- elem_of_list_to_map by done. rewrite (tm_content _ _ Ht).
    unfold ps. rewrite list_elem_of_fmap. split.
    - intros (l & e & El & -> & <-). exists (l, e). split; [done|]. by apply elem_of_map_to_list.
    - intros ([l e] & [= -> ->] & Hx). exists l, e. split; [by apply elem_of_map_to_list|done]. }
  rewrite <- (length_map_to_list (list_to_map ps : gmap Z ex)), (map_to_list_to_map ps Hnd). unfold ps.
  by rewrite length_map, length_map_to_list.
Qed.

(** The object of a map. *)
Definition is_labelling_of L M : Prop := exists t, L = labelling t /\ tree_of_map t M.

Lemma LABELLING_new t : LABELLING (labelling t) = Some t.
Proof. unfold LABELLING, cuex_is_labelling, labelling. by rewrite hctem_meta, Z.eqb_refl, hctem_fields_new. Qed.

Lemma labelling_inj t t' : labelling t = labelling t' <-> t = t'.
Proof. unfold labelling. split; [|by intros ->]. intros E. apply (inj hctem_new) in E. by injection E. Qed.

Lemma labelling_insert_spec L M l e : is_labelling_of L M -> live l ->
  exists L', cuex_labelling_insert address L_O2_LABEL L l e = Some L' /\ is_labelling_of L' (<[l := default e (M !! l)]> M).
Proof.
  intros (t & -> & Ht) Hl. unfold cuex_labelling_insert. rewrite LABELLING_new. cbn [mbind option_bind].
  eexists. split; [reflexivity|]. eexists. split; [reflexivity|]. by apply tm_insert.
Qed.

Lemma union_insert_default (M N : gmap ex ex) l e : <[l := default e (M !! l)]> M ∪ N = M ∪ <[l := e]> N.
Proof.
  apply map_eq. intros l'. rewrite !lookup_union. destruct (decide (l = l')) as [<-|Hne].
  - rewrite !lookup_insert_eq. destruct (M !! l); cbn; by destruct (N !! l).
  - by rewrite !lookup_insert_ne.
Qed.

Lemma valist_spec va : forall L M, is_labelling_of L M -> Forall (fun le => live (fst le)) va ->
  exists L', cuex_labelling_insert_valist address L_O2_LABEL L va = Some L' /\ is_labelling_of L' (M ∪ list_to_map va).
Proof.
  induction va as [|[l e] va IH]; intros L M HL0 Hva; cbn [cuex_labelling_insert_valist list_to_map].
  - exists L. split; [done|]. cbn. by rewrite map_union_empty.
  - apply list.Forall_cons in Hva as [Hl Hva]. destruct (labelling_insert_spec L M l e HL0 Hl) as (L1 & -> & H1). cbn [mbind option_bind].
    destruct (IH L1 _ H1 Hva) as (L2 & -> & H2). exists L2. split; [done|].
    by rewrite union_insert_default in H2.
Qed.

Lemma disjoint_union_spec L L' M M' : is_labelling_of L M -> is_labelling_of L' M' ->
  (M ##ₘ M' -> exists U, cuex_labelling_disjoint_union address L L' = Some (Some U) /\ is_labelling_of U (M ∪ M')) /\
  (~ M ##ₘ M' -> cuex_labelling_disjoint_union address L L' = Some None).
Proof.
  intros (t & -> & Ht) (t' & -> & Ht'). unfold cuex_labelling_disjoint_union. rewrite !LABELLING_new. cbn [mbind option_bind].
  destruct t as [t|]; cbn [cuex_atree_is_empty].
  2:{ assert (M = ∅) as -> by (by apply (tm_unique _ _ _ _ Ht tm_empty)). split; [|intros Hn; by destruct Hn; apply map_disjoint_empty_l].
      intros _. rewrite map_empty_union. eexists. split; [reflexivity|]. by exists t'. }
  rewrite <- (tm_disjoint (Some t) t' M M' Ht Ht').
  assert (cuex_atree_disjoint_union get_key (Some t) t' = cuex_atree_deep_union get_key merge_disjoin (Some t) t') as -> by (by destruct t').
  pose proof (deep_union_spec get_key merge_disjoin (Some t) t' (keeps_disjoin get_key) (tm_wf _ _ Ht) (tm_wf _ _ Ht')) as H.
  destruct (cuex_atree_deep_union get_key merge_disjoin (Some t) t') as [u|].
  - destruct H as (Hw & E & Hs). assert (content (Some t) ##ₘ content t') as Hd.
    { apply map_disjoint_spec. intros k p p' E1 E2. by destruct (Hs k p p' E1 E2). }
    split; [|done]. intros _. eexists. split; [reflexivity|]. eexists. split; [reflexivity|].
    apply (tm_of_union (Some t) t'); [done..|]. rewrite E. apply map_eq. intros k. rewrite lookup_union_with, lookup_union.
    rewrite map_disjoint_spec in Hd. destruct (content (Some t) !! k) as [p|] eqn:E1, (content t' !! k) as [p'|] eqn:E2; try done.
    by destruct (Hd k p p').
  - split; [|done]. rewrite map_disjoint_spec. intros Hd. exfalso. destruct H as [[E1 E2]|(k & p & p' & E1 & E2 & _)]; [|by apply (Hd k p p')].
    assert (M = ∅) as EM.
    { apply map_eq. intros l. rewrite lookup_empty. destruct (M !! l) as [e|] eqn:E; [|done].
      pose proof (tm_lookup (Some t) M l Ht (tm_live _ _ Ht l e E)) as Hx. by rewrite E1, E, lookup_empty in Hx. }
    rewrite EM in Ht. by pose proof (proj2 (tm_unique _ _ _ _ Ht tm_empty) eq_refl).
Qed.

(** C6: the operations on labellings are those on finite maps from labels to values: an insertion keeps the value
    that a label has, searching, removal with and without the value, the cardinality, the union in which the first
    labelling comes first, the disjoint union, which is NULL when there is a common label, the
    intersection, and images under functions of the value or of label and value; the object
    is determined by the map. *)
Theorem cuex_labelling_is_finite_map L L' M M' l e va f g :
  is_labelling_of L M -> is_labelling_of L' M' -> live l -> Forall (fun le => live (fst le)) va ->
  is_labelling_of cuex_labelling_empty ∅ /\ is_labelling_of (cuex_labelling_singleton L_O2_LABEL l e) {[l := e]} /\
  (exists U, cuex_labelling_insert address L_O2_LABEL L l e = Some U /\ is_labelling_of U (<[l := default e (M !! l)]> M)) /\
  (exists U, cuex_labelling_insert_arglist address L_O2_LABEL L va = Some U /\ is_labelling_of U (M ∪ list_to_map va)) /\
  cuex_labelling_find address L l = Some (M !! l) /\
  cuex_labelling_card L = Some (Z.of_nat (size M)) /\
  (exists U, cuex_labelling_erase address L l = Some U /\ is_labelling_of U (delete l M)) /\
  (exists U, cuex_labelling_find_erase address L l = Some (M !! l, U) /\ is_labelling_of U (delete l M)) /\
  (exists U, cuex_labelling_left_union address L L' = Some U /\ is_labelling_of U (M ∪ M')) /\
  (exists U, cuex_labelling_left_isecn address L L' = Some U /\ is_labelling_of U (M ∩ M')) /\
  ((M ##ₘ M' -> exists U, cuex_labelling_disjoint_union address L L' = Some (Some U) /\ is_labelling_of U (M ∪ M')) /\
   (~ M ##ₘ M' -> cuex_labelling_disjoint_union address L L' = Some None)) /\
  (exists U, cuex_labelling_image L f = Some U /\ is_labelling_of U (f <$> M)) /\
  (exists U, cuex_labelling_image_kv L g = Some U /\ is_labelling_of U (map_imap (fun l e => Some (g l e)) M)) /\
  (L = L' <-> M = M').
Proof.
  intros HL0 HL1 Hl Hva. pose proof (disjoint_union_spec L L' M M' HL0 HL1) as Hd. pose proof (valist_spec va L M HL0 Hva) as Hv.
  pose proof (labelling_insert_spec L M l e HL0 Hl) as Hi. destruct HL0 as (t & -> & Ht), HL1 as (t' & -> & Ht').
  unfold cuex_labelling_find, cuex_labelling_card, cuex_labelling_erase, cuex_labelling_find_erase, cuex_labelling_left_union,
    cuex_labelling_left_isecn, cuex_labelling_image, cuex_labelling_image_kv.
  rewrite !LABELLING_new. cbn [mbind option_bind]. refine (conj _ (conj _ (conj Hi (conj Hv (conj _ (conj _ (conj _ (conj _ (conj _ (conj _ (conj Hd (conj _ (conj _ _))))))))))))).
  - exists None. split; [done|apply tm_empty].
  - eexists. split; [reflexivity|]. pose proof (tm_insert None ∅ l e tm_empty Hl) as H. by rewrite lookup_empty, insert_empty in H.
  - rewrite (tm_find t M l Ht Hl). by destruct (M !! l).
  - f_equal. by apply tm_card.
  - eexists. split; [reflexivity|]. eexists. split; [reflexivity|]. by apply tm_erase.
  - destruct (cuex_atree_erase_spec get_key t (address l) (tm_wf _ _ Ht)) as (E1 & E2 & _). pose proof (tm_erase t M l Ht Hl) as He.
    rewrite (tm_lookup t M l Ht Hl) in E1. destruct (cuex_atree_find_erase get_key t (address l)) as [node tree]. cbn [fst snd] in *. subst.
    destruct (M !! l) as [v|] eqn:E; cbn; (eexists; split; [reflexivity|]).
    + by exists (cuex_atree_erase get_key t (address l)).
    + rewrite delete_id by done. by exists t.
  - eexists. split; [reflexivity|]. eexists. split; [reflexivity|].
    destruct (left_union_spec get_key t t' (tm_wf _ _ Ht) (tm_wf _ _ Ht')) as [Hw E]. by apply (tm_of_union t t').
  - eexists. split; [reflexivity|]. eexists. split; [reflexivity|]. by apply tm_isecn.
  - destruct (tm_image_iv t M f Ht) as (u & -> & Hu). cbn [mbind option_bind]. eexists. split; [reflexivity|]. by exists u.
  - destruct (tm_image_kv t M g Ht) as (u & -> & Hu). cbn [mbind option_bind]. eexists. split; [reflexivity|]. by exists u.
  - rewrite labelling_inj. by apply tm_unique.
Qed.

(** ** Images by getting and putting values *)

(** The loop of a client: [f v] is put back for the value [v], or nothing. *)
Fixpoint image_loop (f : ex -> option ex) (n : nat) (self : ncomm_image_junctor) : option ncomm_image_junctor :=
  match n with
  | O => None
  | S n =>
      '(v, self) ← ncomm_image_junctor_get self;
      match v with
      | None => Some self
      | Some v =>
          self ← (match f v with Some y => ncomm_image_junctor_put address L_O2_LABEL self y | None => Some self end);
          image_loop f n self
      end
  end.

(** The pairs of a tree in their order. *)
Lemma pairs_of M es : (forall p, p ∈ es -> exists l e, M !! l = Some e /\ p = label l e) ->
  exists ps : list (ex * ex), es = map (fun le => label (fst le) (snd le)) ps /\ Forall (fun le => M !! fst le = Some (snd le)) ps.
Proof.
  induction es as [|p es IH]; intros H; [by exists []|]. destruct IH as (ps & -> & Hps); [intros q Hq; apply H; set_solver|].
  destruct (H p ltac:(set_solver)) as (l & e & E & ->). exists ((l, e) :: ps). by split; [|constructor].
Qed.

Lemma union_omap_insert (f : ex -> option ex) (A N : gmap ex ex) l e : A !! l = None -> N !! l = None ->
  A ∪ omap f (<[l := e]> N) = (match f e with Some y => <[l := y]> A | None => A end) ∪ omap f N.
Proof.
  intros HA HN. apply map_eq. intros l'. rewrite !lookup_union, !lookup_omap. destruct (decide (l = l')) as [<-|Hne].
  - rewrite lookup_insert_eq. cbn. rewrite HN. destruct (f e); [by rewrite lookup_insert_eq, HA|by rewrite HA].
  - rewrite lookup_insert_ne by done. destruct (f e); [by rewrite lookup_insert_ne|done].
Qed.

Lemma image_loop_spec f n ps : forall ts j A, pending n ts (atree_iterator j) ->
  pending_elements ts = map (fun le => label (fst le) (snd le)) ps -> Forall (fun le => live (fst le)) ps -> NoDup (map fst ps) ->
  tree_of_map (new_atree j) A -> (forall l, l ∈ map fst ps -> A !! l = None) ->
  exists j', image_loop f (S (length ps)) j = Some j' /\
    tree_of_map (new_atree j') (A ∪ omap f (list_to_map ps)).
Proof.
  induction ps as [|[l e] ps IH]; intros ts j A Hp Ep Hl Hnd HA Hfresh;
    pose proof (atree_itr_get_spec n ts (atree_iterator j) Hp) as Hg; rewrite Ep in Hg; cbn [map] in Hg.
  - exists (mk_junctor (new_atree j) (current_label j) (atree_iterator j)). cbn [length image_loop]. unfold ncomm_image_junctor_get.
    rewrite Hg. cbn [mbind option_bind]. split; [done|]. cbn [list_to_map new_atree].
    assert (A ∪ omap f (list_to_map []) = A) as ->; [|done].
    apply map_eq. intros l. rewrite lookup_union, lookup_omap. cbn. rewrite lookup_empty. by destruct (A !! l).
  - destruct Hg as (ts' & it' & Eg & Hp' & Ep'). apply list.Forall_cons in Hl as [Hll Hl]. cbn [map fst snd] in *.
    apply list.NoDup_cons in Hnd as [Hni Hnd].
    change (length ((l, e) :: ps)) with (S (length ps)). cbn [image_loop]. unfold ncomm_image_junctor_get. rewrite Eg.
    cbn [mbind option_bind cuex_opn_at operands l_o2_label lookup list_lookup]. cbn [list_to_map fst snd].
    assert (A !! l = None) as Al by (apply Hfresh; set_solver).
    pose proof (union_omap_insert f A (list_to_map ps) l e Al (not_elem_of_list_to_map_1 ps l Hni)) as Eu.
    destruct (f e) as [y|] eqn:Ef.
    + unfold ncomm_image_junctor_put. cbn [current_label mbind option_bind new_atree atree_iterator].
      pose proof (tm_insert (new_atree j) A l y HA Hll) as Hi. rewrite Al in Hi. cbn [default] in Hi.
      destruct (IH ts' (mk_junctor (cuex_atree_insert get_key (new_atree j) (label l y)) None it') (<[l := y]> A)) as (j' & E & Hj'); try done.
      { intros l' Hl'. rewrite lookup_insert_ne; [apply Hfresh; set_solver|]. by intros ->. }
      exists j'. split; [exact E|]. rewrite <- Eu in Hj'. exact Hj'.
    + destruct (IH ts' (mk_junctor (new_atree j) (Some l) it') A) as (j' & E & Hj'); try done.
      { intros l' Hl'. apply Hfresh. set_solver. }
      exists j'. split; [exact E|]. rewrite <- Eu in Hj'. exact Hj'.
Qed.

Lemma sorted_labels ps : sorted_keys get_key (map (fun le => label (fst le) (snd le)) ps) -> NoDup (map fst ps).
Proof.
  unfold sorted_keys. induction ps as [|[l e] ps IH]; cbn [map fst snd]; intros Hs; [constructor|].
  apply StronglySorted_inv in Hs as [Hs Hl]. apply list.NoDup_cons. split; [|by apply IH].
  intros ([l' e'] & -> & Hx)%list_elem_of_fmap. cbn [fst] in Hl. rewrite list.Forall_forall in Hl.
  specialize (Hl (label l' e') ltac:(apply list_elem_of_fmap; by exists (l', e'))). rewrite !get_key_label in Hl. lia.
Qed.

Lemma tm_pairs t M : tree_of_map t M -> exists ps : list (ex * ex),
  elements_of t = map (fun le => label (fst le) (snd le)) ps /\ NoDup (map fst ps) /\
  Forall (fun le => live (fst le)) ps /\ list_to_map ps = M /\ length ps = size M.
Proof.
  intros Ht. destruct (pairs_of M (elements_of t) (fun p => tm_elements t M p Ht)) as (ps & E & Hps). exists ps.
  pose proof (tm_wf _ _ Ht) as Hw. assert (NoDup (map fst ps)) as Hnd.
  { apply sorted_labels. rewrite <- E. destruct t as [t|]; [by apply (elements_sorted get_key 0 (2 ^ 63))|constructor]. }
  rewrite list.Forall_forall in Hps. assert (list_to_map ps = M) as EM.
  { apply map_eq. intros l. apply option_eq. intros e. rewrite <- elem_of_list_to_map by done. split.
    - intros Hx. by apply (Hps (l, e)).
    - intros El. assert (label l e ∈ elements_of t) as Hx.
      { pose proof (proj2 (tm_content _ _ Ht (address l) (label l e)) ltac:(by exists l, e)) as Ec.
        destruct t as [t|]; [by apply (elements_contents get_key 0 (2 ^ 63))|cbn in Ec; by rewrite lookup_empty in Ec]. }
      rewrite E in Hx. apply list_elem_of_fmap in Hx as ([l' e'] & [= -> ->] & Hx). done. }
  split_and!; [done|done| |done|].
  - apply list.Forall_forall. intros [l e] Hx. by apply (tm_live _ _ Ht l e), (Hps (l, e)).
  - rewrite <- EM, <- (length_map_to_list (list_to_map ps : gmap ex ex)), (map_to_list_to_map ps Hnd). done.
Qed.

(** The junctor of a labelling goes through all values: when for a value the client puts back the one
    that a function gives, or none, the labelling that it is finished with is the image of
    the map, without the labels for which nothing was put back. *)
Theorem cuex_labelling_image_junctor_correct L M f : is_labelling_of L M ->
  exists j j', cuex_labelling_ncomm_image_junctor L = Some j /\ image_loop f (S (size M)) j = Some j' /\
    is_labelling_of (ncomm_image_junctor_finish j') (omap f M).
Proof.
  intros (t & -> & Ht). destruct (tm_pairs t M Ht) as (ps & E & Hnd & Hl & EM & El).
  unfold cuex_labelling_ncomm_image_junctor, labelling_iter_source. unfold labelling at 1. rewrite hctem_fields_new.
  cbn [mbind option_bind labelling_atree]. unfold itr_in_block.
  destruct (atree_itr_init_spec t (replicate (atree_itr_entries t) None)) as (it & -> & Hp); [by rewrite length_replicate|].
  cbn [mbind option_bind]. destruct (image_loop_spec f _ ps _ (mk_junctor cuex_atree_empty None it) ∅ Hp) as (j' & Ej & Hj').
  - rewrite <- E. destruct t as [t|]; [|done]. unfold pending_elements. cbn. by rewrite app_nil_r.
  - done.
  - done.
  - apply tm_empty.
  - intros l _. apply lookup_empty.
  - eexists. exists j'. split; [reflexivity|]. rewrite <- El. split; [exact Ej|]. exists (new_atree j'). split; [done|].
    by rewrite EM, map_empty_union in Hj'.
Qed.
End labelling_spec.

(** ** Samples *)

Module LabellingSamples.
Import SetSamples.

#[local] Instance labelling_type : HcType cuex_labelling := {
  type_to_meta := 80;
  hctem_new s := encoded_new 80 (labelling_atree s);
  hctem_fields e := mk_labelling <$> encoded_fields 80 e;
}.
#[local] Instance labelling_type_laws : HcTypeLaws cuex_labelling.
Proof. split; [done|]. intros [t]. cbn [hctem_fields labelling_type hctem_new labelling_atree]. by rewrite encoded_fields_new. Qed.

Definition at_label (i j : Z) : ex := cuex_labelling_singleton 1 (elt i) (elt j).
Lemma is_at_label i j : live (elt i) -> is_labelling_of address live 1 (at_label i j) {[elt i := elt j]}.
Proof.
  intros Hi. eexists. split; [reflexivity|]. pose proof (tm_insert address live 1 None ∅ (elt i) (elt j) (tm_empty address live 1) Hi) as H.
  by rewrite lookup_empty, insert_empty in H.
Qed.

Lemma cuex_labelling_is_finite_map_witness :
  cuex_labelling_find address (at_label 2 30) (elt 2) = Some (Some (elt 30)) /\
  exists U, cuex_labelling_left_union address (at_label 2 30) (at_label 6 50) = Some U /\
    is_labelling_of address live 1 U ({[elt 2 := elt 30]} ∪ {[elt 6 := elt 50]}).
Proof.
  destruct (cuex_labelling_is_finite_map address live 1 (at_label 2 30) (at_label 6 50) {[elt 2 := elt 30]} {[elt 6 := elt 50]}
    (elt 2) (elt 8) [] id (fun _ e => e)) as (_ & _ & _ & _ & H1 & _ & _ & _ & H2 & _);
    [apply is_at_label; live_tac|apply is_at_label; live_tac|live_tac|constructor|].
  split; [|exact H2]. by rewrite H1, lookup_singleton_eq.
Defined.

Lemma cuex_labelling_image_junctor_correct_witness : exists j j',
  cuex_labelling_ncomm_image_junctor (at_label 2 30) = Some j /\ image_loop address 1 (fun e => Some (elt 40)) 2 j = Some j' /\
  is_labelling_of address live 1 (ncomm_image_junctor_finish j') {[elt 2 := elt 40]}.
Proof.
  destruct (cuex_labelling_image_junctor_correct address live 1 (at_label 2 30) {[elt 2 := elt 30]} (fun e => Some (elt 40)))
    as (j & j' & H1 & H2 & H3); [apply is_at_label; live_tac|]. exists j, j'. split; [exact H1|]. split; [exact H2|].
  by rewrite omap_singleton in H3.
Defined.

(** The general union passes the values of a common label to the adaptor of operands, which makes the
    merged value an element without its label. *)
Example deep_union_drops_label :
  (U ← cuex_labelling_deep_union address (fun x y => Some x) (at_label 2 30) (at_label 2 50); LABELLING U) = Some (Some (Leaf (elt 30))).
Proof. vm_compute. reflexivity. Qed.
End LabellingSamples.
